(* ===== verification/_CoqProject ===== *)
-Q . S2P
Prelude.v
Coding.v
Stringpiece.v
Crc.v
Hash.v
Sha.v
Status.v
Base64.v
Block.v
Math.v
CacheMem.v
HandleTable.v
LRUCache.v
LRUSpec.v
LRUClient.v
ShardedLRUCache.v
BitSets.v
StaticBitMap.v
Random.v
LruMap.v
Decimal.v
Numbers.v
Ascii.v
StringOps.v
RingQueues.v
Monitor.v
BlockingQueues.v
SPSC.v
WorkStealing.v
Store.v
ListHead.v
Order.v
SkipList.v
SkipListSearch.v
SkipListInsert.v
SkipListReaders.v
SplayTree.v
SplayTreeMemory.v
SplayTreeSet.v
Arena.v
ArenaPool.v
CuckooMap.v
CuckooMapTable.v
CuckooMapSearch.v
CuckooMapSet.v
CuckooCache.v
CuckooCacheSet.v
Events.v
Threads.v
SpinLocks.v
LightSemaphore.v
DateTime.v
Heap.v
TopN.v
Glob.v
