(* ===== verification/Prelude.v ===== *)
(** * A verification of the core of mycc

    mycc ([src/util/]) is a C++ library of utilities, in part taken from LevelDB, Bitcoin,
    Redis and the Linux kernel: codecs and checksums, caches, ordered and hashed containers,
    queues with and without locks, allocators and string routines.  Its parts are mostly
    independent; the dependencies that matter here are those of the table format (blocks use
    the integer codecs, CRC-32C, status codes and comparators) and of the cache (which uses
    the string hash).  This library translates those parts that carry logic of their own
    into definitions that compute, and proves what makes them correct.

    ** How the code is translated

    - Machine integers are [Z] with the wrap-around written out ([wrap], [u8], [u32], [u64],
      [swrap] in this file); signed overflow is a failure ([int32]).  Bit operations are
      those of [Z].  [char] data is [list byte].
    - A failure ([None]) is an assertion that does not hold, undefined behaviour (access out
      of bounds or to memory that was never written, signed overflow), or a loop that used up
      its bound.  Functions that report errors return them as values.
    - Heap structures live in finite maps from addresses to cells, in a state monad with
      failure: [CacheMem] for the cache, [Store] for the other containers.
    - A loop that is not structural takes fuel: the number of live nodes, the size of the
      table or queue, the width of the integer.  Each theorem shows that the fuel given by
      the operation is enough, by stating that the operation returns a result.
    - Concurrent code is a step relation or function over single memory accesses
      ([StaticBitMap], [SPSC], [WorkStealing], [SkipListReaders], and [Threads] with its
      clients) or, under a mutex, over the pieces of code between two acquisitions
      ([Monitor] with its clients); theorems are about every interleaving.  Memory is sequentially consistent: the memory orders
      given to atomic operations are not modelled.
    - What the source does not define is a parameter with its documented behaviour: the
      random device, the file of a block reader, the system allocator ([SystemAllocator] in
      Arena), which may refuse any request, the comparison function of a container
      ([Comparator] in Order, [WeakOrder] in Heap), the hash of a template parameter
      ([CacheHash] in CuckooCacheSet), the semaphore of the system ([SystemSemaphore] in
      LightSemaphore), whose waits a signal handler may cut short, the heap algorithms and
      [sort] of the standard library ([StdHeap] in TopN) and what moving out of an element
      leaves in it ([moved] there).  Outside Arena, memory for nodes, entries, arrays and
      strings is taken to be there.

    ** The files

    Byte-level codecs and checksums:
    - Coding ([coding_util.h], [.cc]): fixed-width, varint and length-prefixed encodings;
      round trips, and the decoders on arbitrary bytes against a reference decoder.
    - Stringpiece ([stringpiece], [comparator]): string views and the built-in comparators.
    - Crc ([crc_util]): the table-driven CRC-32C is the bit-at-a-time one.
    - Hash ([hash_util]): the string hashes and combiners.
    - Sha ([sha_util]): SHA-1 and SHA-512 are those of FIPS 180-4.
    - Base64 ([base64]): the web-safe codec, its round trip and what it rejects.
    - Status ([status]) and Block ([block], [iterator]): the table format; a block built in
      order iterates and seeks as its list of entries, and a read is checked.

    Arithmetic and text:
    - Math ([math_util.h]), Random ([random_util]): integer functions; the generator has
      full period from every good seed.
    - Decimal, Numbers, Ascii, StringOps ([string_util]): printing and parsing of integers,
      hexadecimal and escaped text, splitting and joining.
    - Glob ([string_util]): [stringmatch] against the strings a pattern stands for, but for
      classes on the empty string.
    - DateTime ([time_util]): seconds and calendar dates, in both directions.

    Caches:
    - CacheMem, HandleTable, LRUCache, LRUSpec, LRUClient, ShardedLRUCache ([cache.cpp]):
      memory, hash table, one shard with its specification, clients that keep the handle
      protocol, and the sixteen shards.  HandleTable implements a finite map; a shard a
      dictionary with recency list and handle counts; the sharded cache acts on the shard of
      the key or the handle, and [Prune] and [TotalCharge] on all.
    - LruMap ([cache.h]): the two caches over [std::list] and a map.
    - CuckooCache, CuckooCacheSet ([cuckoo_map.h]): the cache with epochs, against the sets
      of its elements.

    Containers:
    - ListHead ([list_util.h]): the intrusive circular lists, against disjoint lists.
    - Order, SkipList, SkipListSearch, SkipListInsert, SkipListReaders ([skiplist.h]): the
      skip list against a sorted list with a cursor; with one writer and any readers.
    - SplayTree, SplayTreeMemory, SplayTreeSet ([splay_tree.h]): against a sorted list, for
      clients that insert each node once.
    - CuckooMap, CuckooMapTable, CuckooMapSearch, CuckooMapSet ([cuckoo_map.h]): the
      presized hash map with its breadth-first search for room, against a finite map.
    - Heap, TopN ([small_container.h]): the binary heap is a priority queue; the top-N heap
      keeps the best elements, as long as moving an element out leaves it as it is or nobody
      asks for the elements dropped.
    - BitSets, StaticBitMap ([bitmap]): the sequential bit sets and the lock-free one.

    Queues:
    - RingQueues, Monitor, BlockingQueues ([blocking_queue.h]): the ring buffers against
      bounded lists; the thread-safe queues are linearizable and lose no wake-up.
    - SPSC, WorkStealing ([lock_free_util.h]): the single-producer rings and the
      work-stealing deque under every interleaving.

    Locks ([locks_util.h], [.cpp]):
    - Events: counters, events, latches and notifications on a mutex and a condition
      variable ([Monitor]), with the answers of their waits and what wakes whom.
    - Threads, SpinLocks, LightSemaphore: a counting argument over threads, each with a
      share of what a word of memory stands for; the reader-writer and spin locks exclude,
      the light semaphore and the event over it lose no unit, and gain one only when a
      signal handler cuts a wait short, which the source counts as a unit.

    Allocation:
    - Arena, ArenaPool ([arena], [mem_util.cpp]): what is handed out lies in allocated
      blocks, is aligned and does not overlap.  When the system refuses a block, ArenaEasy
      throws and stays as it was; Arena, which does not check, goes on with a null block.

    This file holds the shared notations, automation and lemmas on integers, bytes and
    lists; Store the monad of the heap structures and arrays under a machine index; Order
    comparison functions and sorted lists.  A file of definitions names the functions after
    the source; a file that proves a component correct requires the definitions it is about.
    Theorems stated for a client use an operation type and a [run] of a list of operations,
    and are refinements of a function or relation on the abstract state.

    ** Bounds

    The varint readers take at most five or ten bytes; [CuckooInsert] takes each of at most
    682 entries from its queue once, which is the size of the queue, and visits at most 170
    entries, which is the size of their list, because the search has two roots, four slots a
    bucket and five levels; a search in a skip list passes each node at most once a level; a
    splay tree is no deeper than its number of nodes; digests are for messages below 2^61
    bytes, whose length in bits the source keeps in 64 bits.

    ** Not modelled

    Threads, timers, processes, sockets, files, signals and the event loop are calls of the
    operating system; logging, printing and statistics format text and floating-point
    numbers for people.  The atomics are those of the compiler; of the locks, the wrappers
    over [pthread], [sem_t] and [semop], which do what the library they call does.  [sds],
    [cJSON] and [variant] are vendored.  [stl_util.h], [map_util.h] and the smart pointers
    are templates over the standard library.  Within the modelled files: the locks of the
    cache, the clocks and [strftime], floating-point helpers, [printf]-style formatting, the
    linked queues, hazard pointers and RCU of [lock_free_util.h], [PushFront] of
    BlockingQueue, which does not compile, the heap variant of
    ConcurrentBlockingQueue, the [hlist] and Adlist of [list_util], the radix tree and the
    trie, [autovector] and the other small containers, and the object and memory pools. *)
From Stdlib Require Export ZArith Lia Strings.Byte.
From stdpp Require Export base countable list numbers option.
From coqutil Require Export Z.bitblast.
From Stdlib Require Export Btauto.

Declare Scope mycc_scope.
Delimit Scope mycc_scope with mycc.
#[global] Open Scope Z_scope.

(** ** Machine integers *)

(** An unsigned [w]-bit integer is the [Z] in [[0, 2^w)]; every C++ operation
    that can leave the range is followed by one of these conversions. *)
Definition wrap (w z : Z) : Z := z mod 2 ^ w.

Abbreviation u8 := (wrap 8).
Abbreviation u16 := (wrap 16).
Abbreviation u32 := (wrap 32).
Abbreviation u64 := (wrap 64).

(** Two's complement reading of the low [w] bits. *)
Definition swrap (w z : Z) : Z := (z + 2 ^ (w - 1)) mod 2 ^ w - 2 ^ (w - 1).

Abbreviation i8 := (swrap 8).
Abbreviation i32 := (swrap 32).

(** [z] is a value of the unsigned type of width [w]. *)
Definition is_uint (w z : Z) : Prop := 0 <= z < 2 ^ w.

#[export] Instance is_uint_dec (w z : Z) : Decision (is_uint w z).
Proof. unfold is_uint. apply _. Defined.

(** The result of signed 32-bit arithmetic: an overflow is undefined. *)
Definition int32 (z : Z) : option Z := if (- 2 ^ 31 <=? z) && (z <? 2 ^ 31) then Some z else None.

(** C shift notations: the caller writes the truncation. *)
Infix ".<<" := Z.shiftl (at level 35, no associativity) : mycc_scope.
Infix ".>>" := Z.shiftr (at level 35, no associativity) : mycc_scope.
Infix ".&" := Z.land (at level 40, left associativity) : mycc_scope.
Infix ".^" := Z.lxor (at level 45, left associativity) : mycc_scope.
Infix ".|" := Z.lor (at level 50, left associativity) : mycc_scope.
#[global] Open Scope mycc_scope.

(** ** Bytes *)

(** [char] data is kept as [byte]; [uchar] is the cast to [unsigned char],
    [schar] the value of a (signed, as on x86 and the default ABI) [char], and
    [to_byte] the implicit conversion of an integer stored into a [char]. *)
Definition uchar (b : byte) : Z := Z.of_N (Byte.to_N b).
Definition schar (b : byte) : Z := i8 (uchar b).
Definition to_byte (z : Z) : byte :=
  match Byte.of_N (Z.to_N (u8 z)) with Some b => b | None => x00 end.

Abbreviation bytes := (list byte).

#[export] Instance byte_eq_decision : EqDecision byte := byte_eq_dec.
#[export] Instance byte_inhabited : Inhabited byte := populate x00.
#[export] Instance byte_countable : Countable byte :=
  inj_countable Byte.to_N Byte.of_N Byte.of_to_N.

(** [v] stored in [n] bytes, least significant byte first, and its inverse. *)
Fixpoint le_bytes (n : nat) (v : Z) : bytes :=
  match n with
  | O => []
  | S n => to_byte v :: le_bytes n (v .>> 8)
  end.

Fixpoint le_val (l : bytes) : Z :=
  match l with
  | [] => 0
  | b :: l => uchar b + 256 * le_val l
  end.

(** ** Automation *)

Create HintDb width discriminated.
Create Rewrite HintDb bits.

#[export] Hint Unfold is_uint : width.

(** Decide a closed side condition, or an arithmetic one. *)
Ltac side := first [ done | lia | solve [auto with width] | by vm_compute ].

(** Expose a [match]/[if] head of the goal. *)
Ltac case_goal :=
  repeat match goal with
  | |- context [if decide ?P then _ else _] => destruct (decide P)
  | |- context [if ?b then _ else _] => destruct b eqn:?
  | |- context [match ?o with Some _ => _ | None => _ end] => destruct o eqn:?
  end.

(** Boolean comparisons of [Z] to propositions, everywhere. *)
Ltac to_prop :=
  repeat match goal with
  | H : (_ <? _) = true |- _ => apply Z.ltb_lt in H
  | H : (_ <? _) = false |- _ => apply Z.ltb_ge in H
  | H : (_ <=? _) = true |- _ => apply Z.leb_le in H
  | H : (_ <=? _) = false |- _ => apply Z.leb_gt in H
  | H : (_ =? _) = true |- _ => apply Z.eqb_eq in H
  | H : (_ =? _) = false |- _ => apply Z.eqb_neq in H
  | H : (_ && _) = true |- _ => apply andb_true_iff in H; destruct H
  | H : (_ || _) = false |- _ => apply orb_false_iff in H; destruct H
  | H : negb _ = true |- _ => apply negb_true_iff in H
  | H : negb _ = false |- _ => apply negb_false_iff in H
  end.

(** ** Lemmas on machine integers *)

Lemma wrap_range w z : 0 <= w -> is_uint w (wrap w z).
Proof. intros. apply Z.mod_pos_bound. by apply Z.pow_pos_nonneg. Qed.

Lemma int32_small z : - 2 ^ 31 <= z < 2 ^ 31 -> int32 z = Some z.
Proof. intros [H1 H2]. unfold int32. by rewrite (proj2 (Z.leb_le _ _) H1), (proj2 (Z.ltb_lt _ _) H2). Qed.

Lemma wrap_small w z : is_uint w z -> wrap w z = z.
Proof. apply Z.mod_small. Qed.

Lemma i32_small z : - 2 ^ 31 <= z < 2 ^ 31 -> i32 z = z.
Proof. intros Hz. unfold swrap. rewrite Z.mod_small by (change (32 - 1) with 31; lia). lia. Qed.

Lemma wrap_land w z : 0 <= w -> wrap w z = Z.land z (Z.ones w).
Proof. intros. by rewrite Z.land_ones. Qed.

Lemma wrap_testbit w z i :
  0 <= w -> 0 <= i -> Z.testbit (wrap w z) i = (i <? w) && Z.testbit z i.
Proof. intros. unfold wrap. by apply Z.testbit_mod_pow2. Qed.

Lemma wrap_wrap w w' z : 0 <= w <= w' -> wrap w (wrap w' z) = wrap w z.
Proof.
  intros. rewrite !wrap_land by lia. Z.bitblast.
Qed.

Lemma is_uint_mono w w' z : 0 <= w <= w' -> is_uint w z -> is_uint w' z.
Proof.
  unfold is_uint. intros [??] [??]. pose proof (Z.pow_le_mono_r 2 w w'). lia.
Qed.

(** A value below [2^w] has no bit at or above [w]. *)
Lemma is_uint_testbit w z i : is_uint w z -> w <= i -> Z.testbit z i = false.
Proof.
  intros Hz Hi. destruct (Z.lt_ge_cases i 0) as [?|?]; [by apply Z.testbit_neg_r|].
  rewrite <-(wrap_small w z Hz). destruct (Z.lt_ge_cases w 0) as [?|?].
  - destruct Hz. pose proof (Z.pow_neg_r 2 w). lia.
  - rewrite wrap_testbit by lia. destruct (Z.ltb_spec i w); [lia|done].
Qed.

(** ... and conversely a nonnegative number with no such bit is below [2^w]. *)
Lemma is_uint_bits w z :
  0 <= w -> 0 <= z -> (forall i, w <= i -> Z.testbit z i = false) -> is_uint w z.
Proof.
  intros Hw Hz Hb.
  assert (wrap w z = z) as <-; [|by apply wrap_range].
  apply Z.bits_inj'. intros i Hi. rewrite wrap_testbit by lia.
  destruct (Z.ltb_spec i w); [done|]. by rewrite Hb.
Qed.

Lemma is_uint_lor w a b : is_uint w a -> is_uint w b -> is_uint w (Z.lor a b).
Proof.
  intros Ha Hb. destruct (Z.lt_ge_cases w 0) as [?|?].
  { destruct Ha. pose proof (Z.pow_neg_r 2 w). lia. }
  apply is_uint_bits; [done| |].
  - apply Z.lor_nonneg. destruct Ha, Hb. lia.
  - intros. rewrite Z.lor_spec. by rewrite !(is_uint_testbit w).
Qed.

Lemma is_uint_lxor w a b : is_uint w a -> is_uint w b -> is_uint w (Z.lxor a b).
Proof.
  intros Ha Hb. destruct (Z.lt_ge_cases w 0) as [?|?].
  { destruct Ha. pose proof (Z.pow_neg_r 2 w). lia. }
  apply is_uint_bits; [done| |].
  - apply Z.lxor_nonneg. destruct Ha, Hb. lia.
  - intros. rewrite Z.lxor_spec. by rewrite !(is_uint_testbit w).
Qed.

Lemma is_uint_land w a b : is_uint w a -> 0 <= b -> is_uint w (Z.land a b).
Proof.
  intros Ha Hb. destruct (Z.lt_ge_cases w 0) as [?|?].
  { destruct Ha. pose proof (Z.pow_neg_r 2 w). lia. }
  apply is_uint_bits; [done| |].
  - apply Z.land_nonneg. destruct Ha. lia.
  - intros. rewrite Z.land_spec. by rewrite (is_uint_testbit w).
Qed.

Lemma is_uint_shiftr w a n : is_uint w a -> 0 <= n -> is_uint w (Z.shiftr a n).
Proof.
  intros Ha Hn. unfold is_uint in *. rewrite Z.shiftr_div_pow2 by done.
  assert (0 < 2 ^ n) by (by apply Z.pow_pos_nonneg).
  split; [apply Z.div_pos; lia|].
  apply Z.le_lt_trans with a; [|lia].
  apply Z.div_le_upper_bound; [lia|]. nia.
Qed.

#[export] Hint Resolve wrap_range is_uint_lor is_uint_lxor is_uint_land
  is_uint_shiftr : width.

Lemma wrap_lor w a b : 0 <= w -> wrap w (a .| b) = wrap w a .| wrap w b.
Proof. intros. by rewrite !wrap_land, Z.land_lor_distr_l by done. Qed.

Lemma wrap_lxor w a b : 0 <= w -> wrap w (Z.lxor a b) = Z.lxor (wrap w a) (wrap w b).
Proof.
  intros. rewrite !wrap_land by done. apply Z.bits_inj'. intros i _.
  rewrite !Z.lxor_spec, !Z.land_spec, Z.lxor_spec. btauto.
Qed.

(** Truncations inside a sum of products are absorbed. *)
Lemma wrap_add_mul w a c b : wrap w (a + c * wrap w b) = wrap w (a + c * b).
Proof.
  unfold wrap. rewrite <-(Zplus_mod_idemp_r (c * (b mod _))), Zmult_mod_idemp_r.
  apply Zplus_mod_idemp_r.
Qed.

Lemma wrap_add_wrap w a b : wrap w (a + wrap w b) = wrap w (a + b).
Proof. unfold wrap. apply Zplus_mod_idemp_r. Qed.

(** Disjoint bit patterns: [|] is [+]. *)
Lemma lor_add_disjoint a b : Z.land a b = 0 -> Z.lor a b = a + b.
Proof. apply Z.or_to_plus. Qed.

Lemma lor_shiftl_add a b n : 0 <= n -> is_uint n a -> Z.lor a (Z.shiftl b n) = a + 2 ^ n * b.
Proof.
  intros Hn Ha. rewrite lor_add_disjoint; [rewrite Z.shiftl_mul_pow2; lia|].
  apply Z.bits_inj'. intros i Hi.
  rewrite Z.land_spec, Z.shiftl_spec, Z.testbit_0_l by done.
  destruct (Z.lt_ge_cases i n).
  - rewrite (Z.testbit_neg_r b) by lia. by rewrite andb_false_r.
  - by rewrite (is_uint_testbit n a).
Qed.

(** ** Lemmas on bytes *)

Lemma uchar_range b : is_uint 8 (uchar b).
Proof. destruct b; vm_compute; split; congruence. Qed.

#[export] Hint Resolve uchar_range : width.

Lemma uchar_to_byte z : uchar (to_byte z) = u8 z.
Proof.
  unfold uchar, to_byte. pose proof (wrap_range 8 z ltac:(lia)) as [??].
  destruct (Byte.of_N _) as [b|] eqn:E.
  - apply Byte.to_of_N in E. rewrite E. by rewrite Z2N.id.
  - apply Byte.of_N_None_iff in E. lia.
Qed.

Lemma to_byte_uchar b : to_byte (uchar b) = b.
Proof. by destruct b. Qed.

Lemma uchar_inj a b : uchar a = uchar b -> a = b.
Proof. intros E. by rewrite <-(to_byte_uchar a), E, to_byte_uchar. Qed.

Lemma to_byte_wrap w z : 8 <= w -> to_byte (wrap w z) = to_byte z.
Proof.
  intros. apply uchar_inj. rewrite !uchar_to_byte. apply wrap_wrap. lia.
Qed.

Lemma to_byte_land255 z : to_byte (z .& 255) = to_byte z.
Proof.
  change 255 with (Z.ones 8). rewrite <-wrap_land by lia. by apply to_byte_wrap.
Qed.

#[export] Hint Rewrite uchar_to_byte to_byte_uchar to_byte_land255 : bits.

(** ** Little-endian words *)

Lemma length_le_bytes n v : length (le_bytes n v) = n.
Proof. revert v. induction n; simpl; auto. Qed.

Lemma le_val_range l : is_uint (8 * Z.of_nat (length l)) (le_val l).
Proof.
  induction l as [|b l IH]; [by vm_compute|]. cbn [le_val length].
  pose proof (uchar_range b). unfold is_uint in *.
  replace (8 * Z.of_nat (S (length l))) with (8 + 8 * Z.of_nat (length l)) by lia.
  rewrite Z.pow_add_r by lia. change (2 ^ 8) with 256 in *. lia.
Qed.

Lemma le_val_le_bytes n v : le_val (le_bytes n v) = wrap (8 * Z.of_nat n) v.
Proof.
  revert v. induction n as [|n IH]; intros v; cbn [le_val le_bytes].
  { unfold wrap. by rewrite Z.mod_1_r. }
  rewrite IH, uchar_to_byte. unfold wrap.
  replace (8 * Z.of_nat (S n)) with (8 + 8 * Z.of_nat n) by lia.
  rewrite Z.pow_add_r, Z.shiftr_div_pow2 by lia.
  rewrite Z.rem_mul_r by lia. done.
Qed.

Lemma le_val_le_bytes_small n w v :
  w = 8 * Z.of_nat n -> is_uint w v -> le_val (le_bytes n v) = v.
Proof. intros ->. intros. by rewrite le_val_le_bytes, wrap_small. Qed.

Lemma shiftr_add_small a b n : 0 <= n -> is_uint n a -> Z.shiftr (a + 2 ^ n * b) n = b.
Proof.
  intros ? [??]. rewrite Z.shiftr_div_pow2 by done.
  rewrite Z.add_comm, Z.mul_comm, Z.div_add_l by lia. rewrite Z.div_small; lia.
Qed.

Lemma to_byte_add_256 b v : to_byte (uchar b + 256 * v) = b.
Proof.
  apply uchar_inj. rewrite uchar_to_byte. pose proof (uchar_range b) as Hb.
  unfold wrap. change (2 ^ 8) with 256. rewrite (Z.mul_comm 256 v), Z.mod_add by lia.
  apply Z.mod_small. exact Hb.
Qed.

Lemma le_bytes_le_val l : le_bytes (length l) (le_val l) = l.
Proof.
  induction l as [|b l IH]; [done|]. cbn [le_val le_bytes length].
  rewrite to_byte_add_256. change 256 with (2 ^ 8).
  rewrite shiftr_add_small by (auto with width; lia). by rewrite IH.
Qed.

Lemma le_val_app l1 l2 :
  le_val (l1 ++ l2) = le_val l1 + 2 ^ (8 * Z.of_nat (length l1)) * le_val l2.
Proof.
  induction l1 as [|b l1 IH]; cbn [le_val length app]; [lia|].
  replace (8 * Z.of_nat (S (length l1))) with (8 + 8 * Z.of_nat (length l1)) by lia.
  rewrite IH, Z.pow_add_r by lia. lia.
Qed.

Lemma le_val_cons_lor b l : le_val (b :: l) = Z.lor (uchar b) (Z.shiftl (le_val l) 8).
Proof. rewrite lor_shiftl_add by (auto with width; lia). done. Qed.

(** Case analysis on a byte, each case by computation. *)
Ltac by_byte b := destruct b; vm_compute; try (intros; discriminate); try reflexivity.

(** Split off the low [n] bits. *)
Lemma lxor_split a n : 0 <= n -> a = (a .& Z.ones n) .^ ((a .>> n) .<< n).
Proof.
  intros. apply Z.bits_inj'. intros i Hi.
  rewrite Z.lxor_spec, Z.land_spec, Z.shiftl_spec, Z.testbit_ones_nonneg by lia.
  destruct (Z.ltb_spec i n).
  - rewrite (Z.testbit_neg_r _ (i - n)) by lia. btauto.
  - rewrite Z.shiftr_spec by lia. replace (i - n + n) with i by lia. btauto.
Qed.

Lemma le_val_cons_lxor b l : le_val (b :: l) = uchar b .^ (le_val l .<< 8).
Proof.
  rewrite (lxor_split (le_val (b :: l)) 8) by lia. cbn [le_val]. change 256 with (2 ^ 8).
  rewrite shiftr_add_small by (auto with width; lia). f_equal.
  rewrite <-wrap_land by lia. unfold wrap. rewrite (Z.mul_comm (2 ^ 8)), Z.mod_add by done.
  apply Z.mod_small, uchar_range.
Qed.

(** The high bit of a byte. *)
Lemma uchar_land128 b : (uchar b .& 128 =? 0) = (uchar b <? 128).
Proof. by_byte b. Qed.

Lemma uchar_land127 b : uchar b .& 127 = uchar b mod 128.
Proof. by_byte b. Qed.

Lemma uchar_land128_z z : is_uint 8 z -> (z .& 128 =? 0) = (z <? 128).
Proof.
  intros Hz. rewrite <-(wrap_small 8 z Hz), <-uchar_to_byte. apply uchar_land128.
Qed.

(** [result |= x << shift] when [result] only has bits below [shift]. *)
Lemma lor_wrap_shiftl w r x s :
  0 <= s <= w -> is_uint s r -> Z.lor r (wrap w (Z.shiftl x s)) = wrap w (r + 2 ^ s * x).
Proof.
  intros Hs Hr. rewrite <-lor_shiftl_add by (done || lia).
  rewrite !wrap_land by lia. apply Z.bits_inj'. intros i Hi.
  rewrite !Z.land_spec, !Z.lor_spec, !Z.land_spec, Z.testbit_ones_nonneg by lia.
  destruct (Z.ltb_spec i w); [by rewrite !andb_true_r|].
  rewrite !andb_false_r, (is_uint_testbit s r) by (done || lia). done.
Qed.

(** A byte shifted inside a word is not truncated. *)
Lemma wrap_uchar_shiftl w b n :
  0 <= n -> n + 8 <= w -> wrap w (uchar b .<< n) = uchar b .<< n.
Proof.
  intros. apply wrap_small. rewrite Z.shiftl_mul_pow2 by done.
  pose proof (uchar_range b) as [??]. unfold is_uint.
  pose proof (Z.pow_le_mono_r 2 (n + 8) w ltac:(lia) ltac:(lia)) as Hp.
  rewrite Z.pow_add_r in Hp by lia. change (2 ^ 8) with 256 in *.
  assert (0 < 2 ^ n) by (by apply Z.pow_pos_nonneg). nia.
Qed.

(** Equality of two [lor] trees over the same leaves. *)
Ltac lor_ac := apply Z.bits_inj'; intros ? _; rewrite !Z.lor_spec; btauto.

(** Evaluate the sums of literals. *)
Ltac norm_sums := repeat match goal with
  | |- context [Z.add ?a ?b] =>
      match isZcst a with true => match isZcst b with true =>
        let c := eval vm_compute in (Z.add a b) in change (Z.add a b) with c end end
  end.

(** Flatten [le_val] of a literal list into shifted bytes. *)
Ltac le_val_flat :=
  rewrite !le_val_cons_lor; cbn [le_val];
  rewrite ?Z.shiftl_0_l, ?Z.lor_0_r;
  rewrite ?Z.shiftl_lor, ?Z.shiftl_shiftl by lia; norm_sums; lor_ac.

Lemma le_val_2 b0 b1 : uchar b0 .| (uchar b1 .<< 8) = le_val [b0; b1].
Proof. le_val_flat. Qed.
Lemma le_val_4 b0 b1 b2 b3 :
  uchar b0 .| (uchar b1 .<< 8) .| (uchar b2 .<< 16) .| (uchar b3 .<< 24) =
  le_val [b0; b1; b2; b3].
Proof. le_val_flat. Qed.
Lemma le_val_8 b0 b1 b2 b3 b4 b5 b6 b7 :
  uchar b0 .| (uchar b1 .<< 8) .| (uchar b2 .<< 16) .| (uchar b3 .<< 24)
    .| (uchar b4 .<< 32) .| (uchar b5 .<< 40) .| (uchar b6 .<< 48) .| (uchar b7 .<< 56) =
  le_val [b0; b1; b2; b3; b4; b5; b6; b7].
Proof. le_val_flat. Qed.

(** ** Lists *)

Lemma firstn_skipn_app {A} (n : nat) (l1 l2 : list A) :
  n = length l1 -> take n (l1 ++ l2) = l1 /\ drop n (l1 ++ l2) = l2.
Proof. intros ->. by rewrite take_app_length, drop_app_length. Qed.

(** A list of at least [n] elements starts with [n] of them. *)
Lemma split_at_length {A} (n : nat) (l : list A) :
  (n <= length l)%nat -> exists l1 l2, l = l1 ++ l2 /\ length l1 = n.
Proof.
  intros. exists (take n l), (drop n l). rewrite take_drop. split; [done|].
  by apply firstn_length_le.
Qed.

(** Invert [length l = n] for a literal [n]. *)
Ltac destruct_length l H :=
  repeat (destruct l as [|? l]; simpl in H; [try discriminate H|try discriminate H]);
  clear H.

(** ** Rings *)

(** Counters less than a cycle apart have different slots. *)
Lemma mod_near_ne a b m : a < b < a + m -> a mod m <> b mod m.
Proof.
  intros H E. assert ((b - a) mod m = 0) as E0 by (rewrite Zminus_mod, E, Z.sub_diag; apply Z.mod_0_l; lia).
  rewrite Z.mod_small in E0; lia.
Qed.

(** [i & (2^k - 1)]. *)
Lemma land_mask k z : 0 <= k < 64 -> z .& u64 (2 ^ k - 1) = z mod 2 ^ k.
Proof.
  intros Hk. rewrite wrap_small; cycle 1.
  { pose proof (Z.pow_le_mono_r 2 k 63 ltac:(lia) ltac:(lia)). pose proof (Z.pow_pos_nonneg 2 k). unfold is_uint. lia. }
  replace (2 ^ k - 1) with (Z.ones k) by (rewrite Z.ones_equiv; lia). by rewrite Z.land_ones by lia.
Qed.
