(* ===== verification/Coding.v ===== *)
(** * Coding: [src/util/coding_util.h] and [src/util/coding_util.cc]

    Fixed-width and variable-width integer encodings and the length-prefixed
    strings built from them.  A [char *] that the code writes through is the
    list of bytes written; a range [[p, limit)] the code reads is the list of
    bytes it holds; a [string] or a [StringPiece] is its contents. *)

From S2P Require Import Prelude.

(** The byte order of the host ([port::kLittleEndian] in
    [src/util/types_util.h]): the theorems hold for either value. *)
Class Port := { kLittleEndian : bool }.

(** The object representation of a [w = 8 n]-bit unsigned integer, which is
    what [memcpy] reads and writes. *)
Definition mem_store `{Port} (n : nat) (v : Z) : bytes :=
  if kLittleEndian then le_bytes n v else rev (le_bytes n v).
Definition mem_load `{Port} (l : bytes) : Z :=
  if kLittleEndian then le_val l else le_val (rev l).

(** ** Byte order *)

Definition ByteSwap16 (x : Z) : Z := u16 ((x .<< 8) .| (x .>> 8)).

Definition ByteSwap32 (x : Z) : Z :=
  let x := u32 (((x .& 0xff00ff00) .>> 8) .| ((x .& 0x00ff00ff) .<< 8)) in
  u32 ((x .>> 16) .| (x .<< 16)).

Definition ByteSwap64 (x : Z) : Z :=
  let x := u64 (((x .& 0xff00ff00ff00ff00) .>> 8) .| ((x .& 0x00ff00ff00ff00ff) .<< 8)) in
  let x := u64 (((x .& 0xffff0000ffff0000) .>> 16) .| ((x .& 0x0000ffff0000ffff) .<< 16)) in
  u64 ((x .>> 32) .| (x .<< 32)).

Section with_port.
Context `{Port}.

Definition ByteSwapToLE16 (x : Z) : Z := if kLittleEndian then x else ByteSwap16 x.
Definition ByteSwapToLE32 (x : Z) : Z := if kLittleEndian then x else ByteSwap32 x.
Definition ByteSwapToLE64 (x : Z) : Z := if kLittleEndian then x else ByteSwap64 x.
Definition NetToHost16 (x : Z) : Z := if kLittleEndian then ByteSwap16 x else x.
Definition NetToHost32 (x : Z) : Z := if kLittleEndian then ByteSwap32 x else x.
Definition NetToHost64 (x : Z) : Z := if kLittleEndian then ByteSwap64 x else x.
Definition HostToNet16 (x : Z) : Z := if kLittleEndian then ByteSwap16 x else x.
Definition HostToNet32 (x : Z) : Z := if kLittleEndian then ByteSwap32 x else x.
Definition HostToNet64 (x : Z) : Z := if kLittleEndian then ByteSwap64 x else x.

(** [ReadBigEndian<T>] for an unsigned [T] of [sizeof_T] bytes.  The first
    byte is a plain [char]: it is sign-extended, and shifted out again. *)
Definition ReadBigEndian (sizeof_T : nat) (buf : bytes) : option Z :=
  let w := 8 * Z.of_nat sizeof_T in
  match take sizeof_T buf with
  | [] => None
  | b0 :: rest =>
      if decide (length (b0 :: rest) = sizeof_T) then
        Some (fold_left (fun out b => Z.lor (wrap w (out .<< 8)) (uchar b))
                rest (wrap w (schar b0)))
      else None
  end.

(** [buf[sizeof(T) - i - 1]] is filled from the last index down. *)
Fixpoint WriteBigEndian (sizeof_T : nat) (val : Z) (written : bytes) : bytes :=
  match sizeof_T with
  | O => written
  | S n => WriteBigEndian n (val .>> 8) (to_byte (val .& 0xFF) :: written)
  end.

Definition EncodeBigEndian64 (value : Z) : bytes :=
  [to_byte ((value .>> 56) .& 0xff); to_byte ((value .>> 48) .& 0xff);
   to_byte ((value .>> 40) .& 0xff); to_byte ((value .>> 32) .& 0xff);
   to_byte ((value .>> 24) .& 0xff); to_byte ((value .>> 16) .& 0xff);
   to_byte ((value .>> 8) .& 0xff); to_byte (value .& 0xff)].

Definition EncodeBigEndian32 (value : Z) : bytes :=
  [to_byte ((value .>> 24) .& 0xff); to_byte ((value .>> 16) .& 0xff);
   to_byte ((value .>> 8) .& 0xff); to_byte (value .& 0xff)].

(** The [Decode...] functions read a fixed number of bytes without a bounds
    check: [None] is a read past the end of the buffer. *)
Definition DecodeBigEndian64 (buf : bytes) : option Z :=
  match buf with
  | b0 :: b1 :: b2 :: b3 :: b4 :: b5 :: b6 :: b7 :: _ =>
      Some (u64 ((uchar b0 .<< 56) .| (uchar b1 .<< 48) .| (uchar b2 .<< 40)
         .| (uchar b3 .<< 32) .| (uchar b4 .<< 24) .| (uchar b5 .<< 16)
         .| (uchar b6 .<< 8) .| uchar b7))
  | _ => None
  end.

Definition DecodeBigEndian32 (buf : bytes) : option Z :=
  match buf with
  | b0 :: b1 :: b2 :: b3 :: _ =>
      Some (u32 ((uchar b0 .<< 24) .| (uchar b1 .<< 16) .| (uchar b2 .<< 8) .| uchar b3))
  | _ => None
  end.

(** ** Fixed-width integers *)

Definition EncodeFixed16 (value : Z) : bytes :=
  if kLittleEndian then mem_store 2 value
  else [to_byte (value .& 0xff); to_byte ((value .>> 8) .& 0xff)].

Definition EncodeFixed32 (value : Z) : bytes :=
  if kLittleEndian then mem_store 4 value
  else [to_byte (value .& 0xff); to_byte ((value .>> 8) .& 0xff);
        to_byte ((value .>> 16) .& 0xff); to_byte ((value .>> 24) .& 0xff)].

Definition EncodeFixed64 (value : Z) : bytes :=
  if kLittleEndian then mem_store 8 value
  else [to_byte (value .& 0xff); to_byte ((value .>> 8) .& 0xff);
        to_byte ((value .>> 16) .& 0xff); to_byte ((value .>> 24) .& 0xff);
        to_byte ((value .>> 32) .& 0xff); to_byte ((value .>> 40) .& 0xff);
        to_byte ((value .>> 48) .& 0xff); to_byte ((value .>> 56) .& 0xff)].

Definition DecodeFixed16 (ptr : bytes) : option Z :=
  match ptr with
  | b0 :: b1 :: _ =>
      Some (if kLittleEndian then mem_load [b0; b1]
            else u16 (uchar b0 .| (uchar b1 .<< 8)))
  | _ => None
  end.

Definition DecodeFixed32 (ptr : bytes) : option Z :=
  match ptr with
  | b0 :: b1 :: b2 :: b3 :: _ =>
      Some (if kLittleEndian then mem_load [b0; b1; b2; b3]
            else uchar b0 .| u32 (uchar b1 .<< 8) .| u32 (uchar b2 .<< 16)
                 .| u32 (uchar b3 .<< 24))
  | _ => None
  end.

Definition DecodeFixed64 (ptr : bytes) : option Z :=
  if kLittleEndian then
    if decide (8 ≤ length ptr)%nat then Some (mem_load (take 8 ptr)) else None
  else
    lo ← DecodeFixed32 ptr;
    hi ← DecodeFixed32 (drop 4 ptr);
    Some (u64 (hi .<< 32) .| lo).

(** ** Varints *)

Definition EncodeVarint32 (v : Z) : bytes :=
  let B := 128 in
  if v <? 1 .<< 7 then [to_byte v]
  else if v <? 1 .<< 14 then [to_byte (v .| B); to_byte (v .>> 7)]
  else if v <? 1 .<< 21 then
    [to_byte (v .| B); to_byte ((v .>> 7) .| B); to_byte (v .>> 14)]
  else if v <? 1 .<< 28 then
    [to_byte (v .| B); to_byte ((v .>> 7) .| B); to_byte ((v .>> 14) .| B);
     to_byte (v .>> 21)]
  else
    [to_byte (v .| B); to_byte ((v .>> 7) .| B); to_byte ((v .>> 14) .| B);
     to_byte ((v .>> 21) .| B); to_byte (v .>> 28)].

(** The [while (v >= B)] loop.  [fuel] bounds its iterations; ten are enough
    for a 64-bit value ([EncodeVarint64_unfold]). *)
Fixpoint EncodeVarint64_loop (fuel : nat) (v : Z) : bytes :=
  match fuel with
  | O => []
  | S fuel =>
      if v >=? 128 then to_byte ((v .& (128 - 1)) .| 128) :: EncodeVarint64_loop fuel (v .>> 7)
      else [to_byte v]
  end.
Definition EncodeVarint64 (v : Z) : bytes := EncodeVarint64_loop 10 v.

(** The value decoded and the bytes [[q, limit)] left; [None] for a null
    result. *)
Fixpoint GetVarint32PtrFallback_loop (shift result : Z) (p : bytes) : option (Z * bytes) :=
  match p with
  | [] => None
  | b :: p =>
      if shift <=? 28 then
        let byte := uchar b in
        if byte .& 128 =? 0 then Some (result .| u32 (byte .<< shift), p)
        else GetVarint32PtrFallback_loop (shift + 7) (result .| u32 ((byte .& 127) .<< shift)) p
      else None
  end.
Definition GetVarint32PtrFallback (p : bytes) : option (Z * bytes) :=
  GetVarint32PtrFallback_loop 0 0 p.

Definition GetVarint32Ptr (p : bytes) : option (Z * bytes) :=
  match p with
  | b :: q =>
      let result := uchar b in
      if result .& 128 =? 0 then Some (result, q) else GetVarint32PtrFallback p
  | [] => GetVarint32PtrFallback p
  end.

Fixpoint GetVarint64Ptr_loop (shift result : Z) (p : bytes) : option (Z * bytes) :=
  match p with
  | [] => None
  | b :: p =>
      if shift <=? 63 then
        let byte := uchar b in
        if byte .& 128 =? 0 then Some (result .| u64 (byte .<< shift), p)
        else GetVarint64Ptr_loop (shift + 7) (result .| u64 ((byte .& 127) .<< shift)) p
      else None
  end.
Definition GetVarint64Ptr (p : bytes) : option (Z * bytes) := GetVarint64Ptr_loop 0 0 p.

Fixpoint VarintLength_loop (fuel : nat) (v len : Z) : Z :=
  match fuel with
  | O => len
  | S fuel => if v >=? 128 then VarintLength_loop fuel (v .>> 7) (len + 1) else len
  end.
Definition VarintLength (v : Z) : Z := VarintLength_loop 10 v 1.

(** [for (i = 0; i < size; ++i) ret_val |= pos[i] << ((size - i - 1) << 3)],
    [pos] being the object representation of [input]; [size] is at most 8. *)
Fixpoint EndianTransform_loop (pos : bytes) (i size : Z) (ret_val : Z) : Z :=
  match pos with
  | [] => ret_val
  | b :: pos =>
      if i <? size then
        EndianTransform_loop pos (i + 1) size
          (ret_val .| u64 (uchar b .<< ((size - i - 1) .<< 3)))
      else ret_val
  end.
Definition EndianTransform (input size : Z) : Z :=
  EndianTransform_loop (mem_store 8 input) 0 size 0.

(** ** Appending to a string *)

Definition size (s : bytes) : Z := Z.of_nat (length s).

Definition PutFixed16 (dst : bytes) (value : Z) : bytes := dst ++ EncodeFixed16 value.
Definition PutFixed32 (dst : bytes) (value : Z) : bytes := dst ++ EncodeFixed32 value.
Definition PutFixed64 (dst : bytes) (value : Z) : bytes := dst ++ EncodeFixed64 value.

(** The [StringPiece] twin of each [Put...PrefixedString] function has the same
    body on contents, so one definition stands for both. *)
Definition PutFixLength64PrefixedString (dst value : bytes) : bytes :=
  PutFixed64 dst (u64 (size value)) ++ value.

Definition PutVarint32 (dst : bytes) (v : Z) : bytes := dst ++ EncodeVarint32 v.
Definition PutVarint64 (dst : bytes) (v : Z) : bytes := dst ++ EncodeVarint64 v.

Definition PutVarint32Varint32 (dst : bytes) (v1 v2 : Z) : bytes :=
  dst ++ (EncodeVarint32 v1 ++ EncodeVarint32 v2).
Definition PutVarint32Varint32Varint32 (dst : bytes) (v1 v2 v3 : Z) : bytes :=
  dst ++ (EncodeVarint32 v1 ++ EncodeVarint32 v2 ++ EncodeVarint32 v3).
Definition PutVarint64Varint64 (dst : bytes) (v1 v2 : Z) : bytes :=
  dst ++ (EncodeVarint64 v1 ++ EncodeVarint64 v2).
Definition PutVarint32Varint64 (dst : bytes) (v1 v2 : Z) : bytes :=
  dst ++ (EncodeVarint32 v1 ++ EncodeVarint64 v2).
Definition PutVarint32Varint32Varint64 (dst : bytes) (v1 v2 v3 : Z) : bytes :=
  dst ++ (EncodeVarint32 v1 ++ EncodeVarint32 v2 ++ EncodeVarint64 v3).

(** [value.size()] is converted to the parameter type of [PutVarint32]. *)
Definition PutVarLength32PrefixedString (dst value : bytes) : bytes :=
  PutVarint32 dst (u32 (size value)) ++ value.
Definition PutVarLength64PrefixedString (dst value : bytes) : bytes :=
  PutVarint64 dst (u64 (size value)) ++ value.

(** ** Consuming a string

    A [bool Get...(T *input, U *out)] function returns the new contents of
    [*input] and the value stored in [*out]; [None] for the result [false].
    On [false] the input may already have been advanced. *)

(** [void GetFixed32(string *dst, ...)] checks nothing: [None] is a read past
    the end of the string. *)
Definition GetFixed32_string (dst : bytes) : option (bytes * Z) :=
  value ← DecodeFixed32 dst; Some (drop 4 dst, value).
Definition GetFixed64_string (dst : bytes) : option (bytes * Z) :=
  value ← DecodeFixed64 dst; Some (drop 8 dst, value).

Definition GetFixed32 (input : bytes) : bytes * option Z :=
  if size input <? 4 then (input, None)
  else match DecodeFixed32 input with
       | Some value => (drop 4 input, Some value)
       | None => (input, None)
       end.
Definition GetFixed64 (input : bytes) : bytes * option Z :=
  if size input <? 8 then (input, None)
  else match DecodeFixed64 input with
       | Some value => (drop 8 input, Some value)
       | None => (input, None)
       end.

(** Hand over the first [len] bytes when there are that many. *)
Definition split_piece (input : bytes) (len : Z) : bytes * option bytes :=
  if size input >=? len
  then (drop (Z.to_nat len) input, Some (take (Z.to_nat len) input))
  else (input, None).

(** The result of [GetFixed64] is not looked at: [len] keeps its initial 0
    when the call fails. *)
Definition GetFixLength64PrefixedStringPiece (input : bytes) : bytes * option bytes :=
  let len := 0 in
  let '(input, len) := match GetFixed64 input with
                       | (input, Some value) => (input, value)
                       | (input, None) => (input, len)
                       end in
  split_piece input len.

Definition GetFixLength64PrefixedString (input : bytes) : option (bytes * option bytes) :=
  '(input, len) ← GetFixed64_string input; Some (split_piece input len).

Definition GetVarint32 (input : bytes) : bytes * option Z :=
  match GetVarint32Ptr input with
  | Some (value, q) => (q, Some value)
  | None => (input, None)
  end.
Definition GetVarint64 (input : bytes) : bytes * option Z :=
  match GetVarint64Ptr input with
  | Some (value, q) => (q, Some value)
  | None => (input, None)
  end.

(** The [string] overloads erase the [q - p] bytes read. *)
Definition GetVarint32_string (input : bytes) : bytes * option Z :=
  match GetVarint32Ptr input with
  | Some (value, q) => (drop (length input - length q) input, Some value)
  | None => (input, None)
  end.
Definition GetVarint64_string (input : bytes) : bytes * option Z :=
  match GetVarint64Ptr input with
  | Some (value, q) => (drop (length input - length q) input, Some value)
  | None => (input, None)
  end.

Definition GetVarLength32PrefixedStringPiece (input : bytes) : bytes * option bytes :=
  match GetVarint32 input with
  | (input, Some len) => split_piece input len
  | (input, None) => (input, None)
  end.
Definition GetVarLength32PrefixedString (input : bytes) : bytes * option bytes :=
  match GetVarint32_string input with
  | (input, Some len) => split_piece input len
  | (input, None) => (input, None)
  end.
Definition GetVarLength64PrefixedStringPiece (input : bytes) : bytes * option bytes :=
  match GetVarint64 input with
  | (input, Some len) => split_piece input len
  | (input, None) => (input, None)
  end.
Definition GetVarLength64PrefixedString (input : bytes) : bytes * option bytes :=
  match GetVarint64_string input with
  | (input, Some len) => split_piece input len
  | (input, None) => (input, None)
  end.

(** The overloads on a bare [const char *data] trust the data: the result is
    the offset of the piece in [data] (no offset for a null pointer) and its
    length. *)
Definition GetVarLength32PrefixedStringPiece_data (data : bytes) : option nat * Z :=
  match GetVarint32Ptr (take 5 data) with
  | Some (len, q) => (Some (length (take 5 data) - length q)%nat, len)
  | None => (None, 0)
  end.
Definition GetVarLength64PrefixedStringPiece_data (data : bytes) : option nat * Z :=
  match GetVarint64Ptr (take 10 data) with
  | Some (len, q) => (Some (length (take 10 data) - length q)%nat, len)
  | None => (None, 0)
  end.

(** [len] is a [uint32_t]: the loop runs for ever on a slice of at least
    [2^32] bytes without the delimiter, which is [None] here for any fuel. *)
Fixpoint GetStringPieceUntil_loop (fuel : nat) (slice : bytes) (delimiter : byte) (len : Z) :
    option Z :=
  match fuel with
  | O => None
  | S fuel =>
      if (len <? size slice) && negb (bool_decide (slice !! Z.to_nat len = Some delimiter))
      then GetStringPieceUntil_loop fuel slice delimiter (u32 (len + 1))
      else Some len
  end.
Definition GetStringPieceUntil (slice : bytes) (delimiter : byte) : option (bytes * bytes) :=
  len ← GetStringPieceUntil_loop (S (length slice)) slice delimiter 0;
  let ret := take (Z.to_nat len) slice in
  Some (drop (Z.to_nat (len + (if len <? size slice then 1 else 0))) slice, ret).

End with_port.

(** ** Byte order *)

(** Push [|] out of masks, shifts and truncations. *)
Ltac lor_linear :=
  cbv zeta; do 4 rewrite ?Z.land_lor_distr_l, ?Z.shiftl_lor, ?Z.shiftr_lor, ?wrap_lor by lia;
  lor_ac.

Lemma ByteSwap16_lor a b : ByteSwap16 (a .| b) = ByteSwap16 a .| ByteSwap16 b.
Proof. unfold ByteSwap16. lor_linear. Qed.
Lemma ByteSwap32_lor a b : ByteSwap32 (a .| b) = ByteSwap32 a .| ByteSwap32 b.
Proof. unfold ByteSwap32. lor_linear. Qed.
Lemma ByteSwap64_lor a b : ByteSwap64 (a .| b) = ByteSwap64 a .| ByteSwap64 b.
Proof. unfold ByteSwap64. lor_linear. Qed.

(** Each byte moves to the mirrored position (256 cases per position). *)
Lemma ByteSwap16_byte b :
  ByteSwap16 (uchar b) = uchar b .<< 8 /\ ByteSwap16 (uchar b .<< 8) = uchar b.
Proof. destruct b; vm_compute; auto. Qed.
Lemma ByteSwap32_byte b :
  ByteSwap32 (uchar b) = uchar b .<< 24 /\ ByteSwap32 (uchar b .<< 8) = uchar b .<< 16 /\
  ByteSwap32 (uchar b .<< 16) = uchar b .<< 8 /\ ByteSwap32 (uchar b .<< 24) = uchar b.
Proof. destruct b; vm_compute; auto. Qed.
Lemma ByteSwap64_byte b :
  (ByteSwap64 (uchar b) = uchar b .<< 56 /\ ByteSwap64 (uchar b .<< 8) = uchar b .<< 48 /\
   ByteSwap64 (uchar b .<< 16) = uchar b .<< 40 /\ ByteSwap64 (uchar b .<< 24) = uchar b .<< 32) /\
  ByteSwap64 (uchar b .<< 32) = uchar b .<< 24 /\ ByteSwap64 (uchar b .<< 40) = uchar b .<< 16 /\
  ByteSwap64 (uchar b .<< 48) = uchar b .<< 8 /\ ByteSwap64 (uchar b .<< 56) = uchar b.
Proof. destruct b; vm_compute; auto. Qed.

Lemma ByteSwap16_val b0 b1 : ByteSwap16 (le_val [b0; b1]) = le_val [b1; b0].
Proof.
  rewrite <-!le_val_2, ByteSwap16_lor.
  destruct (ByteSwap16_byte b0) as [-> _], (ByteSwap16_byte b1) as [_ ->]. lor_ac.
Qed.

Lemma ByteSwap32_val b0 b1 b2 b3 :
  ByteSwap32 (le_val [b0; b1; b2; b3]) = le_val [b3; b2; b1; b0].
Proof.
  rewrite <-!le_val_4, !ByteSwap32_lor.
  destruct (ByteSwap32_byte b0) as (-> & _), (ByteSwap32_byte b1) as (_ & -> & _),
    (ByteSwap32_byte b2) as (_ & _ & -> & _), (ByteSwap32_byte b3) as (_ & _ & _ & ->).
  lor_ac.
Qed.

Lemma ByteSwap64_val b0 b1 b2 b3 b4 b5 b6 b7 :
  ByteSwap64 (le_val [b0; b1; b2; b3; b4; b5; b6; b7]) =
  le_val [b7; b6; b5; b4; b3; b2; b1; b0].
Proof.
  rewrite <-!le_val_8, !ByteSwap64_lor.
  destruct (ByteSwap64_byte b0) as ((-> & _) & _), (ByteSwap64_byte b1) as ((_ & -> & _) & _),
    (ByteSwap64_byte b2) as ((_ & _ & -> & _) & _), (ByteSwap64_byte b3) as ((_ & _ & _ & ->) & _),
    (ByteSwap64_byte b4) as (_ & -> & _), (ByteSwap64_byte b5) as (_ & _ & -> & _),
    (ByteSwap64_byte b6) as (_ & _ & _ & -> & _), (ByteSwap64_byte b7) as (_ & _ & _ & _ & ->).
  lor_ac.
Qed.

Section facts.
Context `{Port}.

Lemma length_mem_store n v : length (mem_store n v) = n.
Proof. unfold mem_store. destruct kLittleEndian; [|rewrite length_rev]; apply length_le_bytes. Qed.

(** ** Fixed-width integers *)

Ltac encode_fixed := unfold mem_store; destruct kLittleEndian; [done|];
  cbn [le_bytes]; rewrite !to_byte_land255, ?Z.shiftr_shiftr by lia; done.

Lemma EncodeFixed16_le v : EncodeFixed16 v = le_bytes 2 v.
Proof. unfold EncodeFixed16. encode_fixed. Qed.
Lemma EncodeFixed32_le v : EncodeFixed32 v = le_bytes 4 v.
Proof. unfold EncodeFixed32. encode_fixed. Qed.
Lemma EncodeFixed64_le v : EncodeFixed64 v = le_bytes 8 v.
Proof. unfold EncodeFixed64. encode_fixed. Qed.

Lemma DecodeFixed16_le b0 b1 l : DecodeFixed16 (b0 :: b1 :: l) = Some (le_val [b0; b1]).
Proof.
  unfold DecodeFixed16, mem_load. destruct kLittleEndian; [done|].
  rewrite le_val_2, wrap_small; [done|]. apply (le_val_range [b0; b1]).
Qed.

Lemma DecodeFixed32_le b0 b1 b2 b3 l :
  DecodeFixed32 (b0 :: b1 :: b2 :: b3 :: l) = Some (le_val [b0; b1; b2; b3]).
Proof.
  unfold DecodeFixed32, mem_load. destruct kLittleEndian; [done|].
  by rewrite !wrap_uchar_shiftl, le_val_4 by lia.
Qed.

Lemma DecodeFixed64_le b0 b1 b2 b3 b4 b5 b6 b7 l :
  DecodeFixed64 (b0 :: b1 :: b2 :: b3 :: b4 :: b5 :: b6 :: b7 :: l) =
  Some (le_val [b0; b1; b2; b3; b4; b5; b6; b7]).
Proof.
  unfold DecodeFixed64, mem_load. destruct kLittleEndian; [done|].
  cbn [drop]. rewrite !DecodeFixed32_le. cbn [mbind option_bind]. f_equal.
  rewrite Z.lor_comm, wrap_small.
  - rewrite <-!le_val_4, <-le_val_8, !Z.shiftl_lor, !Z.shiftl_shiftl by lia.
    norm_sums. lor_ac.
  - rewrite Z.shiftl_mul_pow2 by lia. pose proof (le_val_range [b4; b5; b6; b7]) as Hr.
    unfold is_uint in *. simpl length in Hr. lia.
Qed.

(** The first [n] bytes of a buffer that has them, as a literal list. *)
Lemma DecodeFixed32_app l1 l2 :
  length l1 = 4%nat -> DecodeFixed32 (l1 ++ l2) = Some (le_val l1).
Proof. intros Hl. destruct_length l1 Hl. apply DecodeFixed32_le. Qed.
Lemma DecodeFixed64_app l1 l2 :
  length l1 = 8%nat -> DecodeFixed64 (l1 ++ l2) = Some (le_val l1).
Proof. intros Hl. destruct_length l1 Hl. apply DecodeFixed64_le. Qed.
Lemma DecodeFixed16_app l1 l2 :
  length l1 = 2%nat -> DecodeFixed16 (l1 ++ l2) = Some (le_val l1).
Proof. intros Hl. destruct_length l1 Hl. apply DecodeFixed16_le. Qed.

Lemma DecodeFixed32_encode v l :
  is_uint 32 v -> DecodeFixed32 (EncodeFixed32 v ++ l) = Some v.
Proof.
  intros. rewrite EncodeFixed32_le, DecodeFixed32_app by apply length_le_bytes.
  by rewrite le_val_le_bytes, wrap_small.
Qed.
Lemma DecodeFixed64_encode v l :
  is_uint 64 v -> DecodeFixed64 (EncodeFixed64 v ++ l) = Some v.
Proof.
  intros. rewrite EncodeFixed64_le, DecodeFixed64_app by apply length_le_bytes.
  by rewrite le_val_le_bytes, wrap_small.
Qed.

End facts.

(** ** Varints *)

(** The reference decoder: the little-endian base-128 number made of the low
    seven bits of the bytes up to the first one below 128, which must be among
    the first [n]. *)
Fixpoint varint_ref (n : nat) (p : bytes) : option (Z * bytes) :=
  match n, p with
  | S n, b :: p =>
      if uchar b <? 128 then Some (uchar b, p)
      else '(v, q) ← varint_ref n p; Some (uchar b mod 128 + 128 * v, q)
  | _, _ => None
  end.

(** Its result truncated to [w] bits. *)
Definition varint_dec (w : Z) (n : nat) (p : bytes) : option (Z * bytes) :=
  '(v, q) ← varint_ref n p; Some (wrap w v, q).

(** Both decoding loops, [k] bytes before the limit, continue the reference
    decoder from the low [s] bits already read. *)
Lemma GetVarint_loop_ref (loop : Z -> Z -> bytes -> option (Z * bytes)) w last :
  (forall s r, loop s r [] = None) ->
  (forall s r b p, loop s r (b :: p) =
     if s <=? last then
       if uchar b .& 128 =? 0 then Some (r .| wrap w (uchar b .<< s), p)
       else loop (s + 7) (r .| wrap w ((uchar b .& 127) .<< s)) p
     else None) ->
  last <= w ->
  forall k s r p, s = last + 7 - 7 * Z.of_nat k -> 0 <= s ->
  (s <= last -> is_uint s r) ->
  loop s r p = '(v, q) ← varint_ref k p; Some (wrap w (r + 2 ^ s * v), q).
Proof.
  intros Hnil Hcons Hw. induction k as [|k IH]; intros s r p Hs H0 Hr;
    (destruct p as [|b p]; [by rewrite Hnil|]); rewrite Hcons; cbn [varint_ref];
    destruct (Z.leb_spec s last) as [Hl|?]; try lia; [done|].
  specialize (Hr Hl). rewrite uchar_land128.
  destruct (Z.ltb_spec (uchar b) 128); cbn [mbind option_bind].
  { by rewrite lor_wrap_shiftl by (lia || done). }
  rewrite uchar_land127, lor_wrap_shiftl by (lia || done).
  pose proof (Z.mod_pos_bound (uchar b) 128 ltac:(lia)).
  assert (0 < 2 ^ s) by (by apply Z.pow_pos_nonneg).
  rewrite IH; [|lia|lia|].
  - destruct (varint_ref k p) as [[v q]|]; [|done]. cbn. do 2 f_equal. unfold wrap.
    rewrite Zplus_mod_idemp_l, Z.pow_add_r by lia. f_equal. change (2 ^ 7) with 128. lia.
  - intros. rewrite wrap_small.
    + unfold is_uint in *. rewrite Z.pow_add_r by lia. change (2 ^ 7) with 128. nia.
    + apply is_uint_mono with (s + 7); [lia|].
      unfold is_uint in *. rewrite Z.pow_add_r by lia. change (2 ^ 7) with 128. nia.
Qed.

Lemma GetVarint32PtrFallback_ref p : GetVarint32PtrFallback p = varint_dec 32 5 p.
Proof.
  unfold GetVarint32PtrFallback, varint_dec.
  rewrite (GetVarint_loop_ref GetVarint32PtrFallback_loop 32 28) with (k := 5%nat); try done.
  destruct (varint_ref 5 p) as [[v q]|]; [|done]. cbn. by rewrite Z.mul_1_l.
Qed.

Lemma GetVarint64Ptr_ref p : GetVarint64Ptr p = varint_dec 64 10 p.
Proof.
  unfold GetVarint64Ptr, varint_dec.
  rewrite (GetVarint_loop_ref GetVarint64Ptr_loop 64 63) with (k := 10%nat); try done.
  destruct (varint_ref 10 p) as [[v q]|]; [|done]. cbn. by rewrite Z.mul_1_l.
Qed.

(** The one-byte fast path of [GetVarint32Ptr] changes nothing. *)
Lemma GetVarint32Ptr_ref p : GetVarint32Ptr p = varint_dec 32 5 p.
Proof.
  unfold GetVarint32Ptr. destruct p as [|b p]; [apply GetVarint32PtrFallback_ref|].
  rewrite uchar_land128. destruct (Z.ltb_spec (uchar b) 128).
  - unfold varint_dec. cbn [varint_ref]. rewrite (proj2 (Z.ltb_lt _ _)) by done.
    cbn. rewrite wrap_small; [done|].
    apply is_uint_mono with 8; [lia|]. apply uchar_range.
  - apply GetVarint32PtrFallback_ref.
Qed.

(** What an accepted varint looks like: continuation bytes and a final byte. *)
Lemma varint_ref_split n p v q :
  varint_ref n p = Some (v, q) ->
  exists c, p = c ++ q /\ (1 <= length c <= n)%nat /\ is_uint (7 * Z.of_nat (length c)) v.
Proof.
  revert p v. induction n as [|n IH]; intros [|b p] v; try done. cbn [varint_ref].
  destruct (Z.ltb_spec (uchar b) 128) as [Hb|Hb].
  - intros [= <- <-]. exists [b]. split_and!; [done|simpl; lia|simpl; lia|].
    pose proof (uchar_range b) as [??]. simpl. unfold is_uint. change (2 ^ _) with 128. lia.
  - destruct (varint_ref n p) as [[v' q']|] eqn:E; [|done]. cbn. intros [= <- <-].
    destruct (IH _ _ E) as (c & -> & ? & [??]).
    exists (b :: c). split_and!; [done|simpl; lia|simpl; lia|].
    pose proof (Z.mod_pos_bound (uchar b) 128 ltac:(lia)). simpl length. unfold is_uint.
    replace (7 * Z.of_nat (S (length c))) with (7 + 7 * Z.of_nat (length c)) by lia.
    rewrite Z.pow_add_r by lia. change (2 ^ 7) with 128. lia.
Qed.

(** ** Encoding *)

Lemma to_byte_cont v : uchar (to_byte ((v .& (128 - 1)) .| 128)) = v mod 128 + 128.
Proof.
  rewrite uchar_to_byte. change (128 - 1) with (Z.ones 7).
  rewrite Z.land_ones by lia. change (2 ^ 7) with 128.
  pose proof (Z.mod_pos_bound v 128 ltac:(lia)).
  rewrite lor_add_disjoint.
  - apply wrap_small. unfold is_uint. change (2 ^ 8) with 256. lia.
  - change 128 with (2 ^ 7). rewrite <-Z.land_ones by lia. apply Z.bits_inj'. intros i Hi.
    rewrite !Z.land_spec, Z.testbit_ones_nonneg, Z.pow2_bits_eqb, Z.testbit_0_l by lia.
    destruct (Z.ltb_spec i 7), (Z.eqb_spec 7 i); try lia; by rewrite ?andb_false_r.
Qed.

(** [v | B] without the mask stores the same byte. *)
Lemma to_byte_lor128 v : to_byte (v .| 128) = to_byte ((v .& (128 - 1)) .| 128).
Proof.
  apply uchar_inj. rewrite !uchar_to_byte, !wrap_land by lia.
  change (128 - 1) with (Z.ones 7). change 128 with (2 ^ 7).
  apply Z.bits_inj'. intros i Hi.
  rewrite !Z.land_spec, !Z.lor_spec, !Z.land_spec, !Z.testbit_ones_nonneg, Z.pow2_bits_eqb by lia.
  destruct (Z.ltb_spec i 7), (Z.ltb_spec i 8), (Z.eqb_spec 7 i); try lia; btauto.
Qed.

Lemma EncodeVarint64_loop_S fuel v :
  EncodeVarint64_loop (S fuel) v =
  if v <? 128 then [to_byte v]
  else to_byte ((v .& (128 - 1)) .| 128) :: EncodeVarint64_loop fuel (v .>> 7).
Proof. cbn [EncodeVarint64_loop]. rewrite Z.geb_leb, Z.leb_antisym. by destruct (v <? 128). Qed.

Lemma varint_ref_encode fuel v n q :
  (1 <= fuel <= n)%nat -> is_uint (7 * Z.of_nat fuel) v ->
  varint_ref n (EncodeVarint64_loop fuel v ++ q) = Some (v, q).
Proof.
  revert v n. induction fuel as [|fuel IH]; intros v n Hn [H0 Hv]; [lia|].
  destruct n as [|n]; [lia|]. cbn [EncodeVarint64_loop]. rewrite Z.geb_leb.
  assert (2 ^ (7 * Z.of_nat (S fuel)) = 128 * 2 ^ (7 * Z.of_nat fuel)) as E.
  { replace (7 * Z.of_nat (S fuel)) with (7 + 7 * Z.of_nat fuel) by lia.
    by rewrite Z.pow_add_r by lia. }
  rewrite E in Hv.
  destruct (Z.leb_spec 128 v) as [Hge|Hlt]; cbn [app varint_ref].
  - rewrite to_byte_cont. pose proof (Z.mod_pos_bound v 128 ltac:(lia)).
    destruct (Z.ltb_spec (v mod 128 + 128) 128); [lia|].
    assert (1 <= fuel)%nat. { destruct fuel; [|lia]. change (2 ^ (7 * Z.of_nat 0)) with 1 in Hv. lia. }
    rewrite IH; [|lia|].
    + cbn. do 2 f_equal. rewrite Z.shiftr_div_pow2 by lia. change (2 ^ 7) with 128.
      rewrite <-Z.add_mod_idemp_r, Z_mod_same_full, Z.add_0_r, Z.mod_mod by lia.
      rewrite (Z.div_mod v 128) at 3 by lia. lia.
    + split; [apply Z.shiftr_nonneg; lia|]. rewrite Z.shiftr_div_pow2 by lia.
      change (2 ^ 7) with 128. apply Z.div_lt_upper_bound; lia.
  - rewrite uchar_to_byte, wrap_small by (unfold is_uint; change (2 ^ 8) with 256; lia).
    by rewrite (proj2 (Z.ltb_lt _ _)).
Qed.

(** Enough fuel: more of it changes nothing. *)
Lemma EncodeVarint64_loop_fuel f1 f2 v :
  (1 <= f1 <= f2)%nat -> is_uint (7 * Z.of_nat f1) v ->
  EncodeVarint64_loop f2 v = EncodeVarint64_loop f1 v.
Proof.
  revert f2 v. induction f1 as [|f1 IH]; intros f2 v Hf [H0 Hv]; [lia|].
  destruct f2 as [|f2]; [lia|]. cbn [EncodeVarint64_loop].
  rewrite Z.geb_leb. destruct (Z.leb_spec 128 v) as [Hge|]; [|done]. f_equal.
  replace (7 * Z.of_nat (S f1)) with (7 + 7 * Z.of_nat f1) in Hv by lia.
  rewrite Z.pow_add_r in Hv by lia. change (2 ^ 7) with 128 in Hv.
  apply IH.
  - destruct f1; [|lia]. change (2 ^ (7 * Z.of_nat 0)) with 1 in Hv. lia.
  - split; [apply Z.shiftr_nonneg; lia|]. rewrite Z.shiftr_div_pow2 by lia.
    change (2 ^ 7) with 128. apply Z.div_lt_upper_bound; lia.
Qed.

Lemma is_uint_70 w v : 0 <= w <= 70 -> is_uint w v -> is_uint (7 * Z.of_nat 10) v.
Proof. intros. by apply is_uint_mono with w. Qed.

Lemma EncodeVarint64_step v :
  is_uint 64 v ->
  EncodeVarint64 v = if v <? 128 then [to_byte v]
                     else to_byte ((v .& (128 - 1)) .| 128) :: EncodeVarint64 (v .>> 7).
Proof.
  intros Hv. unfold EncodeVarint64. rewrite EncodeVarint64_loop_S at 1.
  destruct (Z.ltb_spec v 128); [done|]. f_equal.
  symmetry. apply EncodeVarint64_loop_fuel; [lia|].
  destruct Hv as [H0 Hv]. split; [apply Z.shiftr_nonneg; lia|].
  rewrite Z.shiftr_div_pow2 by lia. change (2 ^ 7) with 128.
  apply Z.div_lt_upper_bound; [lia|]. change (128 * 2 ^ (7 * Z.of_nat 9)) with (2 ^ 70).
  change (2 ^ 64) with 18446744073709551616 in Hv. change (2 ^ 70) with 1180591620717411303424. lia.
Qed.

(** The unrolled 32-bit encoder is the loop. *)
Lemma EncodeVarint32_64 v : is_uint 32 v -> EncodeVarint32 v = EncodeVarint64 v.
Proof.
  intros [H0 Hv]. unfold EncodeVarint32, EncodeVarint64.
  change (1 .<< 7) with (2 ^ 7). change (1 .<< 14) with (2 ^ 14).
  change (1 .<< 21) with (2 ^ 21). change (1 .<< 28) with (2 ^ 28).
  assert (forall k v, 0 <= v -> 128 <= v ->
    EncodeVarint64_loop (S k) v = to_byte (v .| 128) :: EncodeVarint64_loop k (v .>> 7)) as Hc.
  { intros k x ??. rewrite EncodeVarint64_loop_S, (proj2 (Z.ltb_ge _ _)) by lia.
    by rewrite <-to_byte_lor128. }
  assert (forall k v, v < 128 -> EncodeVarint64_loop (S k) v = [to_byte v]) as He.
  { intros k x ?. by rewrite EncodeVarint64_loop_S, (proj2 (Z.ltb_lt _ _)) by lia. }
  assert (forall k, 0 <= k -> v .>> k = v / 2 ^ k) as Hs by (intros; by apply Z.shiftr_div_pow2).
  pose proof (Hs 7 ltac:(lia)). pose proof (Hs 14 ltac:(lia)).
  pose proof (Hs 21 ltac:(lia)). pose proof (Hs 28 ltac:(lia)).
  change (2 ^ 7) with 128 in *. change (2 ^ 14) with 16384 in *.
  change (2 ^ 21) with 2097152 in *. change (2 ^ 28) with 268435456 in *.
  change (2 ^ 32) with 4294967296 in *.
  destruct (Z.ltb_spec v 128); [by rewrite He|].
  destruct (Z.ltb_spec v 16384); [|destruct (Z.ltb_spec v 2097152);
    [|destruct (Z.ltb_spec v 268435456)]];
  repeat (first [rewrite Hc by (rewrite ?Z.shiftr_shiftr by lia; norm_sums; Z.div_mod_to_equations; lia)
                |rewrite He by (rewrite ?Z.shiftr_shiftr by lia; norm_sums; Z.div_mod_to_equations; lia)]);
  rewrite ?Z.shiftr_shiftr by lia; done.
Qed.

Lemma VarintLength_loop_len fuel v len :
  (1 <= fuel)%nat -> is_uint (7 * Z.of_nat fuel) v ->
  VarintLength_loop fuel v len = len - 1 + Z.of_nat (length (EncodeVarint64_loop fuel v)).
Proof.
  revert v len. induction fuel as [|fuel IH]; intros v len Hf [H0 Hv]; [lia|].
  rewrite EncodeVarint64_loop_S. cbn [VarintLength_loop]. rewrite Z.geb_leb, Z.leb_antisym.
  destruct (Z.ltb_spec v 128); cbn [negb length]; [lia|].
  replace (7 * Z.of_nat (S fuel)) with (7 + 7 * Z.of_nat fuel) in Hv by lia.
  rewrite Z.pow_add_r in Hv by lia. change (2 ^ 7) with 128 in Hv.
  rewrite IH; [lia| |].
  - destruct fuel; [|lia]. change (2 ^ (7 * Z.of_nat 0)) with 1 in Hv. lia.
  - split; [apply Z.shiftr_nonneg; lia|]. rewrite Z.shiftr_div_pow2 by lia.
    change (2 ^ 7) with 128. apply Z.div_lt_upper_bound; lia.
Qed.

Lemma VarintLength_len v : is_uint 64 v -> VarintLength v = Z.of_nat (length (EncodeVarint64 v)).
Proof.
  intros. unfold VarintLength, EncodeVarint64.
  rewrite VarintLength_loop_len; [lia|lia|]. apply is_uint_70 with 64; [lia|done].
Qed.

Lemma length_EncodeVarint64_loop fuel v :
  (length (EncodeVarint64_loop fuel v) <= fuel)%nat.
Proof.
  revert v. induction fuel as [|fuel IH]; intros v; [done|].
  rewrite EncodeVarint64_loop_S. destruct (v <? 128); simpl; [lia|]. specialize (IH (v .>> 7)). lia.
Qed.

Lemma length_EncodeVarint64 v : (1 <= length (EncodeVarint64 v) <= 10)%nat.
Proof.
  split; [|apply length_EncodeVarint64_loop].
  unfold EncodeVarint64. rewrite EncodeVarint64_loop_S. destruct (v <? 128); cbn [length]; lia.
Qed.

Lemma length_EncodeVarint32 v : (1 <= length (EncodeVarint32 v) <= 5)%nat.
Proof.
  unfold EncodeVarint32. cbv zeta.
  repeat match goal with |- context [if ?b then _ else _] => destruct b end; cbn [length]; lia.
Qed.

Lemma GetVarint64Ptr_encode v q :
  is_uint 64 v -> GetVarint64Ptr (EncodeVarint64 v ++ q) = Some (v, q).
Proof.
  intros. rewrite GetVarint64Ptr_ref. unfold varint_dec, EncodeVarint64.
  rewrite varint_ref_encode; [|lia|by apply is_uint_70 with 64].
  cbn. by rewrite wrap_small.
Qed.

Lemma GetVarint32Ptr_encode v q :
  is_uint 32 v -> GetVarint32Ptr (EncodeVarint32 v ++ q) = Some (v, q).
Proof.
  intros Hv. rewrite GetVarint32Ptr_ref. unfold varint_dec.
  rewrite EncodeVarint32_64 by done. unfold EncodeVarint64.
  rewrite (EncodeVarint64_loop_fuel 5); [|lia|by apply is_uint_mono with 32].
  rewrite varint_ref_encode; [|lia|by apply is_uint_mono with 32].
  cbn. by rewrite wrap_small.
Qed.

Lemma GetVarint64_encode v q :
  is_uint 64 v -> GetVarint64 (EncodeVarint64 v ++ q) = (q, Some v).
Proof. intros. unfold GetVarint64. by rewrite GetVarint64Ptr_encode. Qed.
Lemma GetVarint32_encode v q :
  is_uint 32 v -> GetVarint32 (EncodeVarint32 v ++ q) = (q, Some v).
Proof. intros. unfold GetVarint32. by rewrite GetVarint32Ptr_encode. Qed.
Lemma GetVarint64_string_encode v q :
  is_uint 64 v -> GetVarint64_string (EncodeVarint64 v ++ q) = (q, Some v).
Proof.
  intros. unfold GetVarint64_string. rewrite GetVarint64Ptr_encode by done.
  rewrite length_app, Nat.add_sub. by rewrite drop_app_length.
Qed.
Lemma GetVarint32_string_encode v q :
  is_uint 32 v -> GetVarint32_string (EncodeVarint32 v ++ q) = (q, Some v).
Proof.
  intros. unfold GetVarint32_string. rewrite GetVarint32Ptr_encode by done.
  rewrite length_app, Nat.add_sub. by rewrite drop_app_length.
Qed.

(** ** Big-endian readers and writers *)

Lemma WriteBigEndian_rev n v acc : WriteBigEndian n v acc = rev (le_bytes n v) ++ acc.
Proof.
  revert v acc. induction n as [|n IH]; intros; [done|]. cbn [WriteBigEndian le_bytes rev].
  by rewrite IH, <-app_assoc, to_byte_land255.
Qed.

Lemma be_step w out b :
  8 <= w -> Z.lor (wrap w (out .<< 8)) (uchar b) = wrap w (uchar b + 256 * out).
Proof.
  intros. change 256 with (2 ^ 8). rewrite <-lor_shiftl_add by (auto with width; lia).
  rewrite wrap_lor, (wrap_small w (uchar b)), Z.lor_comm by
    (lia || (apply is_uint_mono with 8; [lia|apply uchar_range])). done.
Qed.

Lemma ReadBigEndian_fold w rest out :
  8 <= w ->
  fold_left (fun out b => Z.lor (wrap w (out .<< 8)) (uchar b)) rest (wrap w out) =
  wrap w (le_val (rev rest) + 2 ^ (8 * Z.of_nat (length rest)) * out).
Proof.
  intros Hw. revert out. induction rest as [|b rest IH]; intros out; cbn [fold_left rev length].
  { f_equal. cbn. lia. }
  rewrite be_step, IH by done. rewrite le_val_app. cbn [le_val].
  rewrite length_rev, Z.mul_0_r, Z.add_0_r.
  replace (8 * Z.of_nat (S (length rest))) with (8 * Z.of_nat (length rest) + 8) by lia.
  rewrite Z.pow_add_r by lia. change (2 ^ 8) with 256.
  rewrite !Z.mul_add_distr_l, Z.add_assoc, Z.mul_assoc, wrap_add_mul.
  f_equal; lia.
Qed.

Lemma schar_uchar b : exists k, schar b = uchar b + 256 * k.
Proof. destruct b; first [by exists 0 | by exists (-1)]. Qed.

Lemma ReadBigEndian_val n buf :
  (1 <= n <= length buf)%nat -> ReadBigEndian n buf = Some (le_val (rev (take n buf))).
Proof.
  intros [Hn Hl]. unfold ReadBigEndian.
  assert (length (take n buf) = n) as Ht by (by apply firstn_length_le).
  destruct (take n buf) as [|b0 rest]; [simpl in Ht; lia|].
  rewrite decide_True by done. f_equal. rewrite ReadBigEndian_fold by lia.
  rewrite <-(wrap_small (8 * Z.of_nat n) (le_val (rev (b0 :: rest)))).
  2:{ rewrite <-Ht, <-length_rev. apply le_val_range. }
  cbn [rev]. rewrite le_val_app. cbn [le_val]. rewrite length_rev, Z.mul_0_r, Z.add_0_r.
  destruct (schar_uchar b0) as [k ->]. unfold wrap.
  replace (8 * Z.of_nat n) with (8 * Z.of_nat (length rest) + 8) by (simpl in Ht; lia).
  rewrite Z.pow_add_r by lia. change (2 ^ 8) with 256.
  assert (0 < 2 ^ (8 * Z.of_nat (length rest))) by (apply Z.pow_pos_nonneg; lia).
  rewrite <-(Z.mod_add (le_val (rev rest) + _ * uchar b0) k) by lia.
  f_equal; lia.
Qed.

Section port_facts.
Context `{Port}.

Lemma EndianTransform_loop_val pos i size R :
  0 <= i <= size -> size <= 8 -> size - i <= Z.of_nat (length pos) ->
  EndianTransform_loop pos i size (2 ^ (8 * (size - i)) * R) =
  2 ^ (8 * (size - i)) * R + le_val (rev (take (Z.to_nat (size - i)) pos)).
Proof.
  revert i R. induction pos as [|b pos IH]; intros i R Hi Hs Hl; cbn [EndianTransform_loop].
  { rewrite take_nil. simpl. lia. }
  destruct (Z.ltb_spec i size).
  2:{ replace (size - i) with 0 by lia. simpl. lia. }
  simpl length in Hl.
  replace (Z.to_nat (size - i)) with (S (Z.to_nat (size - (i + 1)))) by lia.
  cbn [take firstn rev].
  assert (Hpow : 2 ^ (8 * (size - i)) = 2 ^ (8 * (size - (i + 1))) * 256).
  { replace (8 * (size - i)) with (8 * (size - (i + 1)) + 8) by lia.
    by rewrite Z.pow_add_r by lia. }
  replace (size - i - 1) with (size - (i + 1)) by lia.
  rewrite (Z.shiftl_mul_pow2 _ 3), (Z.mul_comm _ (2 ^ 3)) by lia. change (2 ^ 3) with 8.
  rewrite wrap_uchar_shiftl by lia.
  replace (_ .| _) with (2 ^ (8 * (size - (i + 1))) * (256 * R + uchar b)).
  - rewrite IH by lia. rewrite le_val_app, length_rev, length_take. cbn [le_val].
    replace (Z.to_nat (size - (i + 1)) `min` length pos)%nat with (Z.to_nat (size - (i + 1))) by lia.
    rewrite Z2Nat.id by lia. rewrite Hpow. lia.
  - replace (2 ^ (8 * (size - i)) * R) with (R .<< (8 * (size - i)))
      by (rewrite Z.shiftl_mul_pow2; lia).
    assert (0 < 2 ^ (8 * (size - (i + 1)))) by (apply Z.pow_pos_nonneg; lia).
    pose proof (uchar_range b) as [??]. change (2 ^ 8) with 256 in *.
    rewrite Z.lor_comm, lor_shiftl_add, Hpow, Z.shiftl_mul_pow2; [lia|lia|lia|].
    unfold is_uint. rewrite Hpow, Z.shiftl_mul_pow2 by lia. nia.
Qed.

Lemma EndianTransform_val v k :
  0 <= k <= 8 -> EndianTransform v k = le_val (rev (take (Z.to_nat k) (mem_store 8 v))).
Proof.
  intros. unfold EndianTransform.
  pose proof (EndianTransform_loop_val (mem_store 8 v) 0 k 0 ltac:(lia) ltac:(lia)) as E.
  rewrite Z.mul_0_r, Z.sub_0_r in E. apply E. rewrite length_mem_store. lia.
Qed.

(** ** Prefixed strings *)

Lemma split_piece_app s rest : split_piece (s ++ rest) (size s) = (rest, Some s).
Proof.
  unfold split_piece, size. rewrite length_app, Z.geb_leb, (proj2 (Z.leb_le _ _)) by lia.
  rewrite Nat2Z.id. by rewrite take_app_length, drop_app_length.
Qed.

Lemma GetFixed32_encode v l : is_uint 32 v -> GetFixed32 (EncodeFixed32 v ++ l) = (l, Some v).
Proof.
  intros. unfold GetFixed32, size. rewrite DecodeFixed32_encode by done.
  rewrite EncodeFixed32_le, length_app, length_le_bytes. 
  rewrite (proj2 (Z.ltb_ge _ _)) by lia. by rewrite drop_app_length'.
Qed.
Lemma GetFixed64_encode v l : is_uint 64 v -> GetFixed64 (EncodeFixed64 v ++ l) = (l, Some v).
Proof.
  intros. unfold GetFixed64, size. rewrite DecodeFixed64_encode by done.
  rewrite EncodeFixed64_le, length_app, length_le_bytes.
  rewrite (proj2 (Z.ltb_ge _ _)) by lia. by rewrite drop_app_length'.
Qed.
End port_facts.

(** ** Properties *)

Section properties.
Context `{Port}.

(** C19. (round trip of the 64-bit varint).  [PutVarint64] appends between one
    and ten bytes, as many as [VarintLength] says; both overloads of [GetVarint64] on those bytes
    followed by anything return the value and leave exactly what follows. *)
Theorem varint64_roundtrip (dst rest : bytes) (v : Z) (Hv : is_uint 64 v) :
  exists enc,
    PutVarint64 dst v = dst ++ enc /\
    GetVarint64 (enc ++ rest) = (rest, Some v) /\
    GetVarint64_string (enc ++ rest) = (rest, Some v) /\
    VarintLength v = size enc /\ 1 <= size enc <= 10.
Proof.
  exists (EncodeVarint64 v). pose proof (length_EncodeVarint64 v). split_and!; [done| | | |unfold size; lia..].
  - by apply GetVarint64_encode.
  - by apply GetVarint64_string_encode.
  - by apply VarintLength_len.
Qed.

(** (the 32-bit varint).  The encoder unrolled for 32-bit values writes the
    same bytes as the 64-bit loop, at most five of them, and [GetVarint32]
    reads them back. *)
Theorem varint32_roundtrip (dst rest : bytes) (v : Z) (Hv : is_uint 32 v) :
  EncodeVarint32 v = EncodeVarint64 v /\ 1 <= size (EncodeVarint32 v) <= 5 /\
  PutVarint32 dst v = dst ++ EncodeVarint32 v /\
  GetVarint32 (EncodeVarint32 v ++ rest) = (rest, Some v).
Proof.
  pose proof (length_EncodeVarint32 v).
  split_and!; [by apply EncodeVarint32_64|unfold size; lia..|done|by apply GetVarint32_encode].
Qed.

(** (the decoders on arbitrary input).  On any bytes the two varint readers,
    the fast path and the fallback alike, compute the reference decoder: the
    base-128 number up to the first byte below 128, truncated to the width of
    the result, or a null pointer when the first five (ten) bytes hold no such
    byte.  What is accepted is a prefix of the input of that many bytes at most. *)
Theorem varint_decoders_reference (p : bytes) :
  GetVarint32Ptr p = varint_dec 32 5 p /\
  GetVarint32PtrFallback p = varint_dec 32 5 p /\
  GetVarint64Ptr p = varint_dec 64 10 p /\
  forall v q, GetVarint64Ptr p = Some (v, q) ->
    is_uint 64 v /\ exists c, p = c ++ q /\ (1 <= length c <= 10)%nat.
Proof.
  split_and!; [apply GetVarint32Ptr_ref|apply GetVarint32PtrFallback_ref|apply GetVarint64Ptr_ref|].
  intros v q. rewrite GetVarint64Ptr_ref. unfold varint_dec.
  destruct (varint_ref 10 p) as [[v' q']|] eqn:E; [|done]. cbn. intros [= <- <-].
  split; [by apply wrap_range|]. destruct (varint_ref_split _ _ _ _ E) as (c & ? & ? & _).
  by exists c.
Qed.

(** (fixed-width encodings).  Whatever the byte order of the host, the
    encoding of a value is its bytes from the least significant one, and
    decoding it gives the value back. *)
Theorem fixed_portable_roundtrip (v : Z) (rest : bytes) :
  (is_uint 16 v -> EncodeFixed16 v = le_bytes 2 v /\ DecodeFixed16 (EncodeFixed16 v ++ rest) = Some v) /\
  (is_uint 32 v -> EncodeFixed32 v = le_bytes 4 v /\ DecodeFixed32 (EncodeFixed32 v ++ rest) = Some v
     /\ GetFixed32 (PutFixed32 [] v ++ rest) = (rest, Some v)) /\
  (is_uint 64 v -> EncodeFixed64 v = le_bytes 8 v /\ DecodeFixed64 (EncodeFixed64 v ++ rest) = Some v
     /\ GetFixed64 (PutFixed64 [] v ++ rest) = (rest, Some v)).
Proof.
  split_and!; intros Hv; split_and?.
  - apply EncodeFixed16_le.
  - rewrite EncodeFixed16_le, DecodeFixed16_app by apply length_le_bytes.
    by rewrite le_val_le_bytes, wrap_small.
  - apply EncodeFixed32_le.
  - by apply DecodeFixed32_encode.
  - by apply GetFixed32_encode.
  - apply EncodeFixed64_le.
  - by apply DecodeFixed64_encode.
  - by apply GetFixed64_encode.
Qed.

(** (length-prefixed strings).  A string shorter than the range of its
    length field comes back from each of the three prefixed formats, followed
    by whatever followed it. *)
Theorem prefixed_string_roundtrip (s rest : bytes) :
  (is_uint 32 (size s) ->
     GetVarLength32PrefixedString (PutVarLength32PrefixedString [] s ++ rest) = (rest, Some s) /\
     GetVarLength32PrefixedStringPiece (PutVarLength32PrefixedString [] s ++ rest) = (rest, Some s)) /\
  (is_uint 64 (size s) ->
     GetVarLength64PrefixedString (PutVarLength64PrefixedString [] s ++ rest) = (rest, Some s) /\
     GetVarLength64PrefixedStringPiece (PutVarLength64PrefixedString [] s ++ rest) = (rest, Some s) /\
     GetFixLength64PrefixedStringPiece (PutFixLength64PrefixedString [] s ++ rest) = (rest, Some s)).
Proof.
  split; intros Hs; split_and!; unfold GetVarLength32PrefixedString, GetVarLength64PrefixedString,
    GetVarLength32PrefixedStringPiece, GetVarLength64PrefixedStringPiece,
    GetFixLength64PrefixedStringPiece, PutVarLength32PrefixedString, PutVarLength64PrefixedString,
    PutFixLength64PrefixedString, PutVarint32, PutVarint64, PutFixed64;
    rewrite wrap_small, <-app_assoc by done; cbn [app];
    rewrite ?GetVarint32_string_encode, ?GetVarint32_encode, ?GetVarint64_string_encode,
      ?GetVarint64_encode, ?GetFixed64_encode by done; apply split_piece_app.
Qed.

(** (unchecked length field).  [GetFixLength64PrefixedStringPiece] drops the
    result of reading the length: on an input too short to hold one it returns
    [true] with an empty string and consumes nothing, where the varint readers
    fail on an empty input. *)
Theorem fix_length_prefix_accepts_truncated (input : bytes) (Hs : size input < 8) :
  GetFixLength64PrefixedStringPiece input = (input, Some []) /\
  GetVarLength64PrefixedStringPiece [] = ([], None).
Proof.
  split; [|done]. unfold GetFixLength64PrefixedStringPiece, GetFixed64.
  rewrite (proj2 (Z.ltb_lt _ _)) by done. unfold split_piece.
  rewrite Z.geb_leb, (proj2 (Z.leb_le _ _)) by (unfold size; lia). done.
Qed.

(** (big-endian access).  [WriteBigEndian] fills the buffer from the most
    significant byte, agrees with the unrolled [EncodeBigEndian], and
    [ReadBigEndian] and [DecodeBigEndian] read the value back in spite of the
    sign extension of the first byte. *)
Theorem big_endian_roundtrip (n : nat) (v : Z) (rest : bytes) (Hn : (1 <= n)%nat) :
  (is_uint (8 * Z.of_nat n) v -> ReadBigEndian n (WriteBigEndian n v [] ++ rest) = Some v) /\
  WriteBigEndian 4 v [] = EncodeBigEndian32 v /\ WriteBigEndian 8 v [] = EncodeBigEndian64 v /\
  (is_uint 32 v -> DecodeBigEndian32 (EncodeBigEndian32 v ++ rest) = Some v) /\
  (is_uint 64 v -> DecodeBigEndian64 (EncodeBigEndian64 v ++ rest) = Some v).
Proof.
  assert (E4 : WriteBigEndian 4 v [] = EncodeBigEndian32 v).
  { unfold EncodeBigEndian32. cbn [WriteBigEndian]. by rewrite !Z.shiftr_shiftr by lia. }
  assert (E8 : WriteBigEndian 8 v [] = EncodeBigEndian64 v).
  { unfold EncodeBigEndian64. cbn [WriteBigEndian]. by rewrite !Z.shiftr_shiftr by lia. }
  split_and!; [|done|done| |].
  - intros Hv. rewrite WriteBigEndian_rev, app_nil_r, ReadBigEndian_val.
    + rewrite take_app_length' by (by rewrite length_rev, length_le_bytes).
      by rewrite rev_involutive, le_val_le_bytes, wrap_small.
    + rewrite length_app, length_rev, length_le_bytes. lia.
  - intros Hv. rewrite <-E4, WriteBigEndian_rev, app_nil_r.
    cbn [le_bytes rev app]. unfold DecodeBigEndian32. f_equal.
    rewrite (Z.lor_comm _ (uchar (to_byte v))).
    replace (_ .| _) with (le_val (le_bytes 4 v)) by (cbn [le_bytes]; rewrite <-le_val_4; lor_ac).
    by rewrite (le_val_le_bytes_small 4 32), wrap_small.
  - intros Hv. rewrite <-E8, WriteBigEndian_rev, app_nil_r.
    cbn [le_bytes rev app]. unfold DecodeBigEndian64. f_equal.
    replace (_ .| _) with (le_val (le_bytes 8 v)) by (cbn [le_bytes]; rewrite <-le_val_8; lor_ac).
    by rewrite (le_val_le_bytes_small 8 64), wrap_small.
Qed.

(** (byte swapping).  The mask-and-shift swaps reverse the bytes of their
    argument, so they are involutions, and [EndianTransform] of a full word is
    the same function on a little-endian host and the identity on a big-endian
    one. *)
Theorem byte_swap_reverses (v : Z) :
  (is_uint 16 v -> ByteSwap16 v = le_val (rev (le_bytes 2 v)) /\ ByteSwap16 (ByteSwap16 v) = v) /\
  (is_uint 32 v -> ByteSwap32 v = le_val (rev (le_bytes 4 v)) /\ ByteSwap32 (ByteSwap32 v) = v) /\
  (is_uint 64 v -> ByteSwap64 v = le_val (rev (le_bytes 8 v)) /\ ByteSwap64 (ByteSwap64 v) = v /\
     EndianTransform v 8 = if kLittleEndian then ByteSwap64 v else v).
Proof.
  split_and!; intros Hv.
  - rewrite <-(wrap_small _ _ Hv) at 1 3 4. rewrite <-(le_val_le_bytes 2).
    cbn [le_bytes rev app]. by rewrite !ByteSwap16_val.
  - rewrite <-(wrap_small _ _ Hv) at 1 3 4. rewrite <-(le_val_le_bytes 4).
    cbn [le_bytes rev app]. by rewrite !ByteSwap32_val.
  - rewrite EndianTransform_val by lia. rewrite take_ge by (rewrite length_mem_store; lia).
    assert (E : ByteSwap64 v = le_val (rev (le_bytes 8 v))).
    { rewrite <-(wrap_small _ _ Hv) at 1. rewrite <-(le_val_le_bytes 8).
      cbn [le_bytes rev app]. by rewrite !ByteSwap64_val. }
    split_and!; [done| |].
    + rewrite E. cbn [le_bytes rev app]. rewrite ByteSwap64_val.
      exact (le_val_le_bytes_small 8 64 v eq_refl Hv).
    + unfold mem_store. destruct kLittleEndian; [done|].
      by rewrite rev_involutive, (le_val_le_bytes_small 8 64).
Qed.

End properties.

(** ** Witnesses *)

Definition little_endian_port : Port := {| kLittleEndian := true |}.
Definition big_endian_port : Port := {| kLittleEndian := false |}.

Lemma varint64_roundtrip_witness :
  is_uint 64 300 /\
  exists enc, PutVarint64 [] 300 = [] ++ enc /\ GetVarint64 (enc ++ [x07]) = ([x07], Some 300) /\
    GetVarint64_string (enc ++ [x07]) = ([x07], Some 300) /\
    VarintLength 300 = size enc /\ 1 <= size enc <= 10.
Proof.
  split; [split; by vm_compute|]. apply (varint64_roundtrip [] [x07] 300). split; by vm_compute.
Defined.

Lemma varint32_roundtrip_witness :
  is_uint 32 0xffffffff /\ GetVarint32 (EncodeVarint32 0xffffffff ++ [x00]) = ([x00], Some 0xffffffff).
Proof.
  assert (is_uint 32 0xffffffff) as Hv by (split; by vm_compute).
  split; [done|]. apply (varint32_roundtrip [] [x00] 0xffffffff Hv).
Defined.

Lemma varint_decoders_reference_witness :
  GetVarint64Ptr [xac; x02; xff] = Some (300, [xff]) /\
  exists c, [xac; x02; xff] = c ++ [xff] /\ (1 <= length c <= 10)%nat.
Proof.
  split; [by vm_compute|].
  by apply (varint_decoders_reference [xac; x02; xff]) with (v := 300).
Defined.

Lemma fixed_portable_roundtrip_witness :
  @EncodeFixed32 big_endian_port 0x01020304 = @EncodeFixed32 little_endian_port 0x01020304 /\
  @DecodeFixed32 big_endian_port ([x04; x03; x02; x01] ++ [x00]) = Some 0x01020304.
Proof.
  split; [by vm_compute|].
  apply (@fixed_portable_roundtrip big_endian_port 0x01020304 [x00]). split; by vm_compute.
Defined.

Lemma prefixed_string_roundtrip_witness :
  GetVarLength32PrefixedString (PutVarLength32PrefixedString [] [x61; x62] ++ [x63]) =
  ([x63], Some [x61; x62]).
Proof.
  apply (@prefixed_string_roundtrip little_endian_port [x61; x62] [x63]). split; by vm_compute.
Defined.

Lemma fix_length_prefix_accepts_truncated_witness :
  size [x01; x02] < 8 /\
  @GetFixLength64PrefixedStringPiece little_endian_port [x01; x02] = ([x01; x02], Some []).
Proof.
  split; [by vm_compute|].
  apply (@fix_length_prefix_accepts_truncated little_endian_port [x01; x02]). by vm_compute.
Defined.

Lemma big_endian_roundtrip_witness :
  ReadBigEndian 2 (WriteBigEndian 2 0xfffe [] ++ []) = Some 0xfffe.
Proof. apply (big_endian_roundtrip 2 0xfffe []); [lia|]. split; by vm_compute. Defined.

Lemma byte_swap_reverses_witness :
  ByteSwap64 0x0102030405060708 = 0x0807060504030201 /\
  @EndianTransform little_endian_port 0x0102030405060708 8 = ByteSwap64 0x0102030405060708.
Proof.
  split; [by vm_compute|].
  apply (@byte_swap_reverses little_endian_port 0x0102030405060708). split; by vm_compute.
Defined.
