(* ===== verification/Stringpiece.v ===== *)
(** * StringPiece: [src/util/stringpiece.h], [src/util/stringpiece.cpp]

    A [StringPiece] is modelled by the bytes it refers to.  An operation whose
    [assert] can fail returns an [option]: [None] is the failed assertion.
    Sizes are [Z]; [npos] is [2^64 - 1]. *)

From S2P Require Import Prelude Coding.

Definition npos : Z := u64 (-1).

Definition as_string (s : bytes) : bytes := if size s =? 0 then [] else s.

Definition substr_copy (s : bytes) (start : Z) : option bytes :=
  if start <=? size s then Some (drop (Z.to_nat start) s) else None.

Definition index (s : bytes) (n : Z) : option byte :=
  if n <? size s then s !! Z.to_nat n else None.

Definition remove_prefix (s : bytes) (n : Z) : option bytes :=
  if n <=? size s then Some (drop (Z.to_nat n) s) else None.

Definition remove_suffix (s : bytes) (n : Z) : option bytes :=
  if size s >=? n then Some (take (Z.to_nat (size s - n)) s) else None.

(** The C library's [memcmp] on [n] bytes, by its sign. *)
Fixpoint memcmp (n : nat) (a b : bytes) : Z :=
  match n, a, b with
  | S n, x :: a, y :: b =>
      if uchar x <? uchar y then -1 else if uchar y <? uchar x then 1 else memcmp n a b
  | _, _, _ => 0
  end.

Definition starts_with (s x : bytes) : bool :=
  (size s >=? size x) && (memcmp (length x) s x =? 0).

Definition ends_with (s x : bytes) : bool :=
  (size s >=? size x) && (memcmp (length x) (drop (length s - length x) s) x =? 0).

(** The piece after the call, and the result. *)
Definition consume (s x : bytes) : bytes * bool :=
  if starts_with s x then (drop (length x) s, true) else (s, false).

Definition piece_eq (x y : bytes) : bool :=
  (size x =? size y) && (memcmp (length x) x y =? 0).

(** [memchr] from position [pos] on. *)
Fixpoint memchr (s : bytes) (c : byte) (at_ : Z) : option Z :=
  match s with
  | [] => None
  | b :: s => if decide (b = c) then Some at_ else memchr s c (at_ + 1)
  end.

Definition find (s : bytes) (c : byte) (pos : Z) : Z :=
  if pos >=? size s then npos
  else match memchr (drop (Z.to_nat pos) s) c pos with
       | Some i => i
       | None => npos
       end.

(** [for (p = data_ + min(pos, size_ - 1); p >= data_; p--)], by the number of
    positions left to look at. *)
Fixpoint rfind_loop (s : bytes) (c : byte) (left_ : nat) : Z :=
  match left_ with
  | O => npos
  | S p => if decide (s !! p = Some c) then Z.of_nat p else rfind_loop s c p
  end.
Definition rfind (s : bytes) (c : byte) (pos : Z) : Z :=
  if size s =? 0 then npos
  else rfind_loop s c (S (Z.to_nat (Z.min pos (size s - 1)))).

(** [std::search]: the position of the first occurrence, or the end. *)
Fixpoint search (s x : bytes) : nat :=
  match s with
  | [] => O
  | _ :: t => if decide (x `prefix_of` s) then O else S (search t x)
  end.
Definition contains (s x : bytes) : bool := negb (Nat.eqb (search s x) (length s)).

Definition substr (s : bytes) (pos n : Z) : bytes :=
  let pos := if pos >? size s then size s else pos in
  let n := if n >? size s - pos then size s - pos else n in
  take (Z.to_nat n) (drop (Z.to_nat pos) s).

Definition compare (a b : bytes) : Z :=
  let min_len := if size a <? size b then length a else length b in
  let r := memcmp min_len a b in
  if r =? 0 then
    if size a <? size b then -1
    else if size a >? size b then 1
    else r
  else r.

Definition toHex (v : Z) : byte :=
  if v <=? 9 then to_byte (48 + v) else to_byte (65 + v - 10).

Definition fromHex (c : byte) : Z :=
  let c := schar c in
  let c := if (97 <=? c) && (c <=? 102) then i8 (c - (97 - 65)) else c in
  if (c <? 48) || ((57 <? c) && ((c <? 65) || (70 <? c))) then -1
  else if c <=? 57 then c - 48
  else c - 65 + 10.

Fixpoint toHexString (s : bytes) : bytes :=
  match s with
  | [] => []
  | b :: s => toHex (uchar b .>> 4) :: toHex (uchar b .& 0xf) :: toHexString s
  end.
Definition toString (s : bytes) (hex : bool) : bytes := if hex then toHexString s else s.

(** The loop of [decodeHex], over pairs of digits.  The result string is
    cleared first and keeps what was decoded before an invalid digit. *)
Fixpoint decodeHex_loop (s result : bytes) : bytes * bool :=
  match s with
  | c1 :: c2 :: s =>
      let h1 := fromHex c1 in
      if h1 <? 0 then (result, false)
      else
        let h2 := fromHex c2 in
        if h2 <? 0 then (result, false)
        else decodeHex_loop s (result ++ [to_byte ((h1 .<< 4) .| h2)])
  | _ => (result, true)
  end.
Definition decodeHex (s result : bytes) : bytes * bool :=
  if size s mod 2 =? 0 then decodeHex_loop s [] else (result, false).

(** [while (off < min_length && a[off] == b[off]) off++] *)
Fixpoint difference_offset (a b : bytes) : nat :=
  match a, b with
  | x :: a, y :: b => if decide (x = y) then S (difference_offset a b) else O
  | _, _ => O
  end.

(** ** The built-in comparators: [src/util/comparator.h], [comparator.cpp] *)

(** The interface [Comparator]. *)
Record Comparator := {
  Compare : bytes -> bytes -> Z;
  Equal : bytes -> bytes -> bool;
  FindShortestSeparator : bytes -> bytes -> bytes;
  FindShortSuccessor : bytes -> bytes
}.

(** [*p]++ on a [char], then [resize] to just past it. *)
Definition bump (s : bytes) (i : nat) : bytes :=
  match s !! i with
  | Some b => take i s ++ [to_byte (uchar b + 1)]
  | None => s
  end.

(** [BytewiseStringPieceComparatorImpl::FindShortestSeparator] *)
Definition BytewiseStringPiece_FindShortestSeparator (start limit : bytes) : bytes :=
  let diff_index := difference_offset start limit in
  match start !! diff_index, limit !! diff_index with
  | Some diff_byte, Some limit_byte =>
      if (uchar diff_byte <? 0xff) && (uchar diff_byte + 1 <? uchar limit_byte)
      then bump start diff_index
      else start
  | _, _ => start
  end.

(** The position of the first byte at or after [i] that is not [0xff]. *)
Fixpoint first_not_ff (s : bytes) (i : nat) : option nat :=
  match s with
  | [] => None
  | b :: s => if uchar b <? 0xff then Some i else first_not_ff s (S i)
  end.

(** [BytewiseComparatorImpl::FindShortestSeparator] *)
Definition Bytewise_FindShortestSeparator (start limit : bytes) : bytes :=
  let diff_index := difference_offset start limit in
  match start !! diff_index, limit !! diff_index with
  | Some start_byte, Some limit_byte =>
      if uchar start_byte >=? uchar limit_byte then start
      else if (Z.of_nat diff_index <? size limit - 1) || (uchar start_byte + 1 <? uchar limit_byte)
      then bump start diff_index
      else
        let diff_index := S diff_index in
        match first_not_ff (drop diff_index start) diff_index with
        | Some i => bump start i
        | None => start
        end
  | _, _ => start
  end.

(** The same body in both files. *)
Definition Bytewise_FindShortSuccessor (key : bytes) : bytes :=
  match first_not_ff key 0 with
  | Some i => bump key i
  | None => key
  end.

Definition BytewiseStringPieceComparator : Comparator := {|
  Compare := compare;
  Equal a b := compare a b =? 0;
  FindShortestSeparator := BytewiseStringPiece_FindShortestSeparator;
  FindShortSuccessor := Bytewise_FindShortSuccessor
|}.

Definition BytewiseComparator : Comparator := {|
  Compare := compare;
  Equal := piece_eq;
  FindShortestSeparator := Bytewise_FindShortestSeparator;
  FindShortSuccessor := Bytewise_FindShortSuccessor
|}.

(** [ReverseBytewiseComparatorImpl] overrides [Name] and [Compare] only. *)
Definition ReverseBytewiseComparator : Comparator := {|
  Compare a b := - compare a b;
  Equal := piece_eq;
  FindShortestSeparator := Bytewise_FindShortestSeparator;
  FindShortSuccessor := Bytewise_FindShortSuccessor
|}.

(** What [comparator.h] asks of an implementation. *)
Class TotalOrder (c : Comparator) : Prop := {
  Compare_antisym : forall a b, Compare c a b = - Compare c b a;
  Compare_trans : forall a b d, Compare c a b < 0 -> Compare c b d < 0 -> Compare c a d < 0;
  Compare_zero : forall a b, Compare c a b = 0 <-> a = b;
  Equal_Compare : forall a b, Equal c a b = true <-> Compare c a b = 0
}.
Class SeparatorContract (c : Comparator) : Prop :=
  separator_between : forall start limit, Compare c start limit < 0 ->
    Compare c start (FindShortestSeparator c start limit) <= 0 /\
    Compare c (FindShortestSeparator c start limit) limit < 0 /\
    size (FindShortestSeparator c start limit) <= size start.
Class SuccessorContract (c : Comparator) : Prop :=
  successor_above : forall key, Compare c key (FindShortSuccessor c key) <= 0.

(** ** Lexicographic order *)

Fixpoint lexcmp (a b : bytes) : Z :=
  match a, b with
  | [], [] => 0
  | [], _ => -1
  | _, [] => 1
  | x :: a, y :: b =>
      if uchar x <? uchar y then -1 else if uchar y <? uchar x then 1 else lexcmp a b
  end.

Lemma size_nil : size [] = 0.
Proof. done. Qed.
Lemma size_cons x s : size (x :: s) = 1 + size s.
Proof. unfold size. simpl length. lia. Qed.
Lemma size_app s t : size (s ++ t) = size s + size t.
Proof. unfold size. rewrite length_app. lia. Qed.
Lemma size_nonneg s : 0 <= size s.
Proof. unfold size. lia. Qed.

Lemma compare_cons x y a b :
  compare (x :: a) (y :: b) =
  if uchar x <? uchar y then -1 else if uchar y <? uchar x then 1 else compare a b.
Proof.
  unfold compare. rewrite !size_cons. simpl length.
  replace (1 + size a <? 1 + size b) with (size a <? size b)
    by (destruct (Z.ltb_spec (size a) (size b)), (Z.ltb_spec (1 + size a) (1 + size b)); lia || done).
  replace (1 + size a >? 1 + size b) with (size a >? size b)
    by (rewrite !Z.gtb_ltb; destruct (Z.ltb_spec (size b) (size a)), (Z.ltb_spec (1 + size b) (1 + size a)); lia || done).
  destruct (size a <? size b); cbn [memcmp];
    destruct (uchar x <? uchar y), (uchar y <? uchar x); done.
Qed.

Lemma compare_lexcmp a b : compare a b = lexcmp a b.
Proof.
  revert b. induction a as [|x a IH]; intros [|y b]; [done|done|done|].
  rewrite compare_cons. cbn [lexcmp]. by rewrite IH.
Qed.

Lemma lexcmp_refl a : lexcmp a a = 0.
Proof. induction a as [|x a IH]; [done|]. cbn. by rewrite Z.ltb_irrefl. Qed.

Lemma lexcmp_antisym a b : lexcmp a b = - lexcmp b a.
Proof.
  revert b. induction a as [|x a IH]; intros [|y b]; [done..|]. cbn [lexcmp].
  destruct (Z.ltb_spec (uchar x) (uchar y)), (Z.ltb_spec (uchar y) (uchar x)); try lia. apply IH.
Qed.

Lemma lexcmp_zero a b : lexcmp a b = 0 <-> a = b.
Proof.
  split; [|intros ->; apply lexcmp_refl].
  revert b. induction a as [|x a IH]; intros [|y b]; [done..|]. cbn [lexcmp].
  destruct (Z.ltb_spec (uchar x) (uchar y)), (Z.ltb_spec (uchar y) (uchar x)); try done.
  intros E. f_equal; [apply uchar_inj; lia|by apply IH].
Qed.

Lemma lexcmp_trans a b c : lexcmp a b < 0 -> lexcmp b c < 0 -> lexcmp a c < 0.
Proof.
  revert b c. induction a as [|x a IH]; intros [|y b] [|z c]; cbn [lexcmp]; try lia.
  destruct (Z.ltb_spec (uchar x) (uchar y)), (Z.ltb_spec (uchar y) (uchar x)),
    (Z.ltb_spec (uchar y) (uchar z)), (Z.ltb_spec (uchar z) (uchar y)),
    (Z.ltb_spec (uchar x) (uchar z)), (Z.ltb_spec (uchar z) (uchar x)); try lia.
  apply IH.
Qed.

Lemma lexcmp_app p a b : lexcmp (p ++ a) (p ++ b) = lexcmp a b.
Proof. induction p as [|x p IH]; [done|]. cbn. by rewrite Z.ltb_irrefl. Qed.

Lemma lexcmp_prefix a x b : lexcmp a (a ++ x :: b) < 0.
Proof. rewrite <-(app_nil_r a) at 1. by rewrite lexcmp_app. Qed.

Lemma lexcmp_lt_cons x y a b : uchar x < uchar y -> lexcmp (x :: a) (y :: b) < 0.
Proof. intros. cbn. by rewrite (proj2 (Z.ltb_lt _ _)). Qed.

(** [memcmp] on the whole of two pieces of equal size is equality. *)
Lemma memcmp_eq a b : length a = length b -> (memcmp (length a) a b =? 0) = bool_decide (a = b).
Proof.
  revert b. induction a as [|x a IH]; intros [|y b] Hl; simplify_eq/=; [done|].
  destruct (Z.ltb_spec (uchar x) (uchar y)).
  { symmetry. apply bool_decide_eq_false. intros [= -> ->]. lia. }
  destruct (Z.ltb_spec (uchar y) (uchar x)).
  { symmetry. apply bool_decide_eq_false. intros [= -> ->]. lia. }
  assert (x = y) as -> by (apply uchar_inj; lia). rewrite IH by done.
  apply bool_decide_ext. naive_solver.
Qed.

Lemma memcmp_take n a b : (n <= length a)%nat -> memcmp n a b = memcmp n (take n a) b.
Proof.
  revert a b. induction n as [|n IH]; intros [|x a] [|y b] Hl; simpl in *; try done; try lia.
  rewrite IH by lia. done.
Qed.

Lemma piece_eq_spec x y : piece_eq x y = true <-> x = y.
Proof.
  unfold piece_eq. rewrite andb_true_iff, Z.eqb_eq. split.
  - intros [Hs Hm]. unfold size in Hs. rewrite memcmp_eq in Hm by lia. by apply bool_decide_eq_true in Hm.
  - intros ->. split; [done|]. rewrite memcmp_eq by done. by apply bool_decide_eq_true.
Qed.

Lemma starts_with_spec s x : starts_with s x = true <-> exists t, s = x ++ t.
Proof.
  unfold starts_with. rewrite andb_true_iff, Z.geb_leb, Z.leb_le. unfold size. split.
  - intros [Hs Hm]. exists (drop (length x) s).
    rewrite memcmp_take in Hm by lia.
    assert (Hl : length (take (length x) s) = length x) by (rewrite length_take; lia).
    rewrite <-Hl in Hm at 1. rewrite memcmp_eq in Hm by done.
    apply bool_decide_eq_true in Hm. rewrite <-Hm at 1. by rewrite take_drop.
  - intros [t ->]. split; [rewrite length_app; lia|].
    rewrite memcmp_take by (rewrite length_app; lia).
    rewrite take_app_length, memcmp_eq by done. by apply bool_decide_eq_true.
Qed.

(** ** Hexadecimal *)

Lemma fromHex_toHex b :
  fromHex (toHex (uchar b .>> 4)) = uchar b .>> 4 /\
  fromHex (toHex (uchar b .& 0xf)) = uchar b .& 0xf /\
  to_byte (((uchar b .>> 4) .<< 4) .| (uchar b .& 0xf)) = b.
Proof. destruct b; vm_compute; auto. Qed.

Lemma decodeHex_loop_toHex s r : decodeHex_loop (toHexString s) r = (r ++ s, true).
Proof.
  revert r. induction s as [|b s IH]; intros r; cbn [toHexString decodeHex_loop].
  { by rewrite app_nil_r. }
  destruct (fromHex_toHex b) as (-> & -> & ->).
  assert (0 <= uchar b .>> 4 /\ 0 <= uchar b .& 0xf) as [].
  { pose proof (uchar_range b) as []. rewrite Z.shiftr_nonneg, Z.land_nonneg. lia. }
  rewrite !(proj2 (Z.ltb_ge _ _)) by done. by rewrite IH, <-app_assoc.
Qed.

Lemma length_toHexString s : length (toHexString s) = (2 * length s)%nat.
Proof. induction s as [|b s IH]; [done|]. cbn [toHexString length]. lia. Qed.

(** ** Separators *)

Lemma difference_offset_spec a b :
  exists p a' b', a = p ++ a' /\ b = p ++ b' /\ length p = difference_offset a b /\
    match a', b' with x :: _, y :: _ => x <> y | _, _ => True end.
Proof.
  revert b. induction a as [|x a IH]; intros b.
  { by exists [], [], b. }
  destruct b as [|y b]; [by exists [], (x :: a), []|]. cbn [difference_offset].
  destruct (decide (x = y)) as [->|]; [|by exists [], (x :: a), (y :: b)].
  destruct (IH b) as (p & a' & b' & -> & -> & <- & ?). by exists (y :: p), a', b'.
Qed.

Lemma bump_app p x a : bump (p ++ x :: a) (length p) = p ++ [to_byte (uchar x + 1)].
Proof. unfold bump. rewrite list_lookup_middle by done. by rewrite take_app_length. Qed.

Lemma uchar_bump x : uchar x < 0xff -> uchar (to_byte (uchar x + 1)) = uchar x + 1.
Proof.
  intros. rewrite uchar_to_byte. apply wrap_small. pose proof (uchar_range x) as [].
  unfold is_uint. change (2 ^ 8) with 256. lia.
Qed.

Lemma first_not_ff_spec s i :
  match first_not_ff s i with
  | Some j => exists p x t, s = p ++ x :: t /\ j = (i + length p)%nat /\ uchar x < 0xff
  | None => True
  end.
Proof.
  revert i. induction s as [|b s IH]; intros i; [done|]. cbn [first_not_ff].
  destruct (Z.ltb_spec (uchar b) 0xff) as [Hb|_].
  - exists [], b, s. split_and!; [done|simpl; lia|done].
  - specialize (IH (S i)). destruct (first_not_ff s (S i)) as [j|]; [|done].
    destruct IH as (p & x & t & -> & -> & ?). exists (b :: p), x, t. split_and!; [done|simpl; lia|done].
Qed.

(** Bumping a byte below [0xff] gives a strictly larger, not longer, string. *)
Lemma lexcmp_bump p x a :
  uchar x < 0xff -> lexcmp (p ++ x :: a) (p ++ [to_byte (uchar x + 1)]) < 0.
Proof. intros. rewrite lexcmp_app. apply lexcmp_lt_cons. rewrite uchar_bump; lia. Qed.

Ltac lex := rewrite ?compare_lexcmp in *.

#[export] Instance Bytewise_TotalOrder : TotalOrder BytewiseComparator.
Proof.
  split; simpl; intros; lex; [apply lexcmp_antisym|by eapply lexcmp_trans|apply lexcmp_zero|].
  by rewrite piece_eq_spec, lexcmp_zero.
Qed.
#[export] Instance BytewiseStringPiece_TotalOrder : TotalOrder BytewiseStringPieceComparator.
Proof.
  split; simpl; intros; lex; [apply lexcmp_antisym|by eapply lexcmp_trans|apply lexcmp_zero|].
  apply Z.eqb_eq.
Qed.
#[export] Instance ReverseBytewise_TotalOrder : TotalOrder ReverseBytewiseComparator.
Proof.
  split; simpl; intros; lex.
  - rewrite (lexcmp_antisym a b). lia.
  - rewrite (lexcmp_antisym a b), (lexcmp_antisym b d), (lexcmp_antisym a d) in *.
    assert (lexcmp d a < 0); [eapply lexcmp_trans with b; lia|lia].
  - rewrite <-lexcmp_zero. lia.
  - rewrite piece_eq_spec, <-lexcmp_zero. lia.
Qed.

(** A strict bound in the middle: [start < bump < limit] from the first
    difference. *)
Lemma bump_between p x a y b :
  uchar x < 0xff -> lexcmp [to_byte (uchar x + 1)] (y :: b) < 0 ->
  let start := p ++ x :: a in let limit := p ++ y :: b in
  lexcmp start (bump start (length p)) <= 0 /\ lexcmp (bump start (length p)) limit < 0 /\
  size (bump start (length p)) <= size start.
Proof.
  intros Hx Hl start limit. unfold start, limit. rewrite bump_app.
  split_and!; [apply Z.lt_le_incl, lexcmp_bump; lia|by rewrite lexcmp_app|].
  rewrite !size_app, !size_cons, size_nil. pose proof (size_nonneg a). lia.
Qed.

Lemma lexcmp_single_lt x y b : uchar x + 1 < uchar y -> lexcmp [to_byte (uchar x + 1)] (y :: b) < 0.
Proof.
  intros. apply lexcmp_lt_cons. pose proof (uchar_range y) as []. change (2 ^ 8) with 256 in *.
  rewrite uchar_bump; lia.
Qed.

Lemma separator_unchanged start limit :
  lexcmp start limit < 0 ->
  lexcmp start start <= 0 /\ lexcmp start limit < 0 /\ size start <= size start.
Proof. intros. rewrite lexcmp_refl. lia. Qed.

#[export] Instance BytewiseStringPiece_Separator : SeparatorContract BytewiseStringPieceComparator.
Proof.
  intros start limit. simpl. lex. intros Hlt. unfold BytewiseStringPiece_FindShortestSeparator.
  destruct (difference_offset_spec start limit) as (p & a & b & -> & -> & <- & Hd).
  destruct a as [|x a]; [rewrite app_nil_r, (proj2 (lookup_ge_None p (length p))) by done;
    by apply separator_unchanged; rewrite app_nil_r in Hlt|].
  rewrite list_lookup_middle by done.
  destruct b as [|y b]; [rewrite app_nil_r in *; rewrite (proj2 (lookup_ge_None p (length p))) by done;
    by apply separator_unchanged|].
  rewrite list_lookup_middle by done.
  destruct (_ && _) eqn:E; to_prop; [|by apply separator_unchanged].
  apply bump_between; [done|]. by apply lexcmp_single_lt.
Qed.

Lemma Bytewise_separator_else p x a y b j :
  uchar x < uchar y -> first_not_ff (drop (S (length p)) (p ++ x :: a)) (S (length p)) = Some j ->
  let start := p ++ x :: a in
  lexcmp start (bump start j) <= 0 /\ lexcmp (bump start j) (p ++ y :: b) < 0 /\
  size (bump start j) <= size start.
Proof.
  intros Hlt E start. unfold start.
  pose proof (first_not_ff_spec (drop (S (length p)) (p ++ x :: a)) (S (length p))) as Hf.
  rewrite E in Hf. destruct Hf as (q & z & t & Hq & -> & Hz).
  assert (a = q ++ z :: t) as ->.
  { rewrite <-Hq, cons_middle, app_assoc. rewrite drop_app_length'; [done|].
    rewrite length_app. simpl. lia. }
  rewrite cons_middle, app_assoc, (app_assoc (p ++ [x])).
  replace (S (length p) + length q)%nat with (length ((p ++ [x]) ++ q))
    by (rewrite !length_app; simpl; lia).
  rewrite bump_app. split_and!.
  - apply Z.lt_le_incl, lexcmp_bump; lia.
  - rewrite <-!app_assoc. rewrite lexcmp_app. by apply lexcmp_lt_cons.
  - rewrite !size_app, !size_cons, size_nil. pose proof (size_nonneg t). lia.
Qed.

#[export] Instance Bytewise_Separator : SeparatorContract BytewiseComparator.
Proof.
  intros start limit. simpl. lex. intros Hlt. unfold Bytewise_FindShortestSeparator.
  destruct (difference_offset_spec start limit) as (p & a & b & -> & -> & <- & Hd).
  destruct a as [|x a]; [rewrite app_nil_r, (proj2 (lookup_ge_None p (length p))) by done;
    by apply separator_unchanged; rewrite app_nil_r in Hlt|].
  rewrite list_lookup_middle by done.
  destruct b as [|y b]; [rewrite app_nil_r in *; rewrite (proj2 (lookup_ge_None p (length p))) by done;
    by apply separator_unchanged|].
  rewrite list_lookup_middle by done. rewrite Z.geb_leb.
  destruct (Z.leb_spec (uchar y) (uchar x)); [by apply separator_unchanged|].
  destruct (_ || _) eqn:E.
  - pose proof (uchar_range y) as []. change (2 ^ 8) with 256 in *.
    apply bump_between; [lia|]. apply orb_true_iff in E as [E|E]; to_prop; [|by apply lexcmp_single_lt].
    rewrite size_app, size_cons in E. unfold size in E.
    destruct (Z.eq_dec (uchar x + 1) (uchar y)) as [Hxy|]; [|apply lexcmp_single_lt; lia].
    cbn [lexcmp]. rewrite uchar_bump, Hxy, Z.ltb_irrefl by lia.
    destruct b; [simpl in E; lia|done].
  - destruct (first_not_ff _ _) as [j|] eqn:Ej; [|by apply separator_unchanged].
    by eapply Bytewise_separator_else.
Qed.

(** In reverse order [start < limit] means that [limit] is the smaller byte
    string, and the shared body then leaves [start] alone. *)
#[export] Instance ReverseBytewise_Separator : SeparatorContract ReverseBytewiseComparator.
Proof.
  intros start limit. simpl. lex. intros Hlt.
  assert (E : Bytewise_FindShortestSeparator start limit = start); [|rewrite E, lexcmp_refl; lia].
  unfold Bytewise_FindShortestSeparator.
  destruct (difference_offset_spec start limit) as (p & a & b & -> & -> & <- & Hd).
  rewrite lexcmp_app in Hlt.
  destruct a as [|x a], b as [|y b]; rewrite ?list_lookup_middle, ?app_nil_r,
    ?(proj2 (lookup_ge_None p (length p))) by done; [done|done|done|].
  rewrite Z.geb_leb. destruct (Z.leb_spec (uchar y) (uchar x)); [done|].
  pose proof (lexcmp_lt_cons x y a b). lia.
Qed.

Lemma Bytewise_successor_above key : lexcmp key (Bytewise_FindShortSuccessor key) <= 0.
Proof.
  unfold Bytewise_FindShortSuccessor. pose proof (first_not_ff_spec key 0) as Hf.
  destruct (first_not_ff key 0) as [j|]; [|rewrite lexcmp_refl; lia].
  destruct Hf as (p & x & t & -> & -> & ?). simpl. rewrite bump_app.
  apply Z.lt_le_incl, lexcmp_bump; lia.
Qed.

#[export] Instance Bytewise_Successor : SuccessorContract BytewiseComparator.
Proof. intros key. simpl. lex. apply Bytewise_successor_above. Qed.
#[export] Instance BytewiseStringPiece_Successor : SuccessorContract BytewiseStringPieceComparator.
Proof. intros key. simpl. lex. apply Bytewise_successor_above. Qed.

Lemma search_spec s x :
  (search s x <= length s)%nat /\
  ((search s x < length s)%nat ->
     exists p t, s = p ++ x ++ t /\ length p = search s x) /\
  (forall p t, s = p ++ x ++ t -> s <> [] -> (length p < length s)%nat -> (search s x <= length p)%nat).
Proof.
  induction s as [|b s (IH1 & IH2 & IH3)].
  { cbn. split_and!; [lia|intros; lia|naive_solver]. }
  cbn [search length]. destruct (decide (x `prefix_of` b :: s)) as [[t Ht]|Hn].
  - split_and!; [lia| |intros; lia]. intros _. exists [], t. by rewrite Ht.
  - split_and!; [lia| |].
    + intros Hs. destruct IH2 as (p & t & -> & Hp); [lia|]. exists (b :: p), t. split; [done|simpl; lia].
    + intros [|b' p] t Hs _ Hl; [by destruct Hn; exists t|].
      simplify_eq/=. assert (search (p ++ x ++ t) x <= length p)%nat; [|lia].
      destruct (p ++ x ++ t) eqn:E; [simpl in Hl; lia|]. eapply IH3; [by rewrite <-E|done|simpl in *; lia].
Qed.

Lemma contains_spec s x : contains s x = true <-> s <> [] /\ exists p t, s = p ++ x ++ t.
Proof.
  unfold contains. rewrite negb_true_iff, Nat.eqb_neq.
  destruct (search_spec s x) as (H1 & H2 & H3). split.
  - intros Hne. split; [intros ->; by apply Hne|].
    destruct H2 as (p & t & ? & _); [lia|]. by exists p, t.
  - intros [Hs (p & t & Hp)].
    destruct (decide (length p < length s)%nat) as [|Hl].
    { specialize (H3 p t Hp Hs ltac:(lia)). lia. }
    assert (x = []) as ->.
    { apply (f_equal length) in Hp. rewrite !length_app in Hp. destruct x; [done|simpl in Hp; lia]. }
    destruct s as [|b s]; [done|]. cbn [search].
    destruct (decide ([] `prefix_of` b :: s)) as [|[]]; [simpl; lia|apply prefix_nil].
Qed.

Lemma memchr_spec s c k :
  match memchr s c k with
  | Some i => exists n, i = k + Z.of_nat n /\ s !! n = Some c /\ forall m, (m < n)%nat -> s !! m <> Some c
  | None => forall m, s !! m <> Some c
  end.
Proof.
  revert k. induction s as [|b s IH]; intros k; [done|]. cbn [memchr].
  destruct (decide (b = c)) as [->|Hb].
  { exists O. split_and!; [lia|done|lia]. }
  specialize (IH (k + 1)). destruct (memchr s c (k + 1)) as [i|].
  - destruct IH as (n & -> & Hn & Hm). exists (S n). split_and!; [lia|done|].
    intros [|m] ?; [naive_solver|apply Hm; lia].
  - intros [|m]; [naive_solver|apply IH].
Qed.

(** ** Properties *)

(** (total orders).  [StringPiece::compare] is the lexicographic order on
    unsigned bytes, and each built-in comparator is a total order whose [Equal]
    agrees with its [Compare]. *)
Theorem comparators_total_order :
  (forall a b, compare a b = lexcmp a b) /\
  TotalOrder BytewiseComparator /\ TotalOrder BytewiseStringPieceComparator /\
  TotalOrder ReverseBytewiseComparator.
Proof. split; [apply compare_lexcmp|split_and!; apply _]. Qed.

(** (index keys are shortened safely).  For every built-in comparator, when
    [start] is below [limit] in that comparator's order, the string
    [FindShortestSeparator] leaves in [start] is not longer and lies in
    [[start, limit)]. *)
Theorem shortest_separator_between (c : Comparator)
  (Hc : c ∈ [BytewiseComparator; BytewiseStringPieceComparator; ReverseBytewiseComparator])
  (start limit : bytes) (Hlt : Compare c start limit < 0) :
  Compare c start (FindShortestSeparator c start limit) <= 0 /\
  Compare c (FindShortestSeparator c start limit) limit < 0 /\
  size (FindShortestSeparator c start limit) <= size start.
Proof.
  assert (SeparatorContract c) as Hs.
  { rewrite !elem_of_cons in Hc. destruct Hc as [->|[->|[->|Hc]]]; try apply _.
    by apply not_elem_of_nil in Hc. }
  by apply Hs.
Qed.

(** (the reverse comparator inherits the wrong successor).  The two forward
    comparators return a successor at or above the key, as the interface asks;
    [ReverseBytewiseComparatorImpl] inherits the same body, and it then returns
    a string strictly below the key in the reverse order for every key with a
    byte other than [0xff]. *)
Theorem short_successor_contract :
  SuccessorContract BytewiseComparator /\ SuccessorContract BytewiseStringPieceComparator /\
  ~ SuccessorContract ReverseBytewiseComparator /\
  forall key, Exists (fun b => b <> xff) key ->
    Compare ReverseBytewiseComparator (FindShortSuccessor ReverseBytewiseComparator key) key < 0.
Proof.
  split_and!; [apply _|apply _| |].
  - intros Hc. specialize (Hc [x61]). by vm_compute in Hc.
  - intros key Hk. simpl. lex. unfold Bytewise_FindShortSuccessor.
    pose proof (first_not_ff_spec key 0) as Hf.
    destruct (first_not_ff key 0) as [j|] eqn:E.
    + destruct Hf as (p & x & t & -> & -> & ?). simpl. rewrite bump_app.
      pose proof (lexcmp_bump p x t ltac:(lia)) as Hb. rewrite lexcmp_antisym. lia.
    + exfalso. revert E. generalize O. induction Hk as [b s Hb|b s Hk IH]; intros n; cbn [first_not_ff];
        destruct (Z.ltb_spec (uchar b) 0xff); try done; [|by apply IH].
      pose proof (uchar_range b) as []. destruct Hb. apply uchar_inj.
      change (uchar xff) with 255. change (2 ^ 8) with 256 in *. lia.
Qed.

(** (hexadecimal round trip).  [toString(true)] writes two digits per byte
    and [decodeHex] reads any such string back, discarding what the result
    held; an odd number of digits is rejected before the result is touched. *)
Theorem hex_roundtrip (s result : bytes) :
  size (toString s true) = 2 * size s /\
  decodeHex (toString s true) result = (s, true) /\
  (forall t, size t mod 2 <> 0 -> decodeHex t result = (result, false)).
Proof.
  assert (Hs : size (toHexString s) = 2 * size s) by (unfold size; rewrite length_toHexString; lia).
  split_and!; [done| |].
  - unfold decodeHex, toString. rewrite Hs, Z.mul_comm, Z_mod_mult. by rewrite decodeHex_loop_toHex.
  - intros t Ht. unfold decodeHex. by rewrite (proj2 (Z.eqb_neq _ _)).
Qed.

(** (searching).  [starts_with] and [consume] recognise and strip exactly a
    prefix; [find] returns the first position at or after [pos] that holds the
    character, [npos] when there is none; [contains] finds a substring, except
    that the empty piece does not contain the empty piece. *)
Theorem piece_search_spec (s x : bytes) (c : byte) (pos : nat) :
  (starts_with s x = true <-> exists t, s = x ++ t) /\
  consume (x ++ s) x = (s, true) /\
  (contains s x = true <-> s <> [] /\ exists p t, s = p ++ x ++ t) /\
  match find s c (Z.of_nat pos) with
  | i => (i = npos /\ (forall m, (pos <= m)%nat -> s !! m <> Some c)) \/
         (exists n, i = Z.of_nat n /\ (pos <= n)%nat /\ s !! n = Some c /\
            forall m, (pos <= m < n)%nat -> s !! m <> Some c)
  end.
Proof.
  split_and!.
  - apply starts_with_spec.
  - unfold consume. rewrite (proj2 (starts_with_spec _ _)) by (by exists s).
    by rewrite drop_app_length.
  - apply contains_spec.
  - unfold find. rewrite Z.geb_leb. unfold size.
    destruct (Z.leb_spec (Z.of_nat (length s)) (Z.of_nat pos)).
    { left. split; [done|]. intros m ? Hm. apply lookup_lt_Some in Hm. lia. }
    rewrite Nat2Z.id. pose proof (memchr_spec (drop pos s) c (Z.of_nat pos)) as Hm.
    destruct (memchr _ _ _) as [i|].
    + destruct Hm as (n & -> & Hn & Hf). right. exists (pos + n)%nat.
      rewrite lookup_drop in Hn. split_and!; [lia|lia|done|].
      intros m [??] Hsm. apply (Hf (m - pos)%nat); [lia|]. rewrite lookup_drop.
      by replace (pos + (m - pos))%nat with m by lia.
    + left. split; [done|]. intros m ? Hsm. apply (Hm (m - pos)%nat). rewrite lookup_drop.
      by replace (pos + (m - pos))%nat with m by lia.
Qed.

(** ** Witnesses *)

Lemma shortest_separator_between_witness :
  Compare BytewiseComparator [x61; x62; x63] [x61; x63] < 0 /\
  Compare BytewiseComparator
    (FindShortestSeparator BytewiseComparator [x61; x62; x63] [x61; x63]) [x61; x63] < 0.
Proof.
  split; [by vm_compute|].
  apply (shortest_separator_between BytewiseComparator ltac:(left) [x61; x62; x63] [x61; x63]).
  by vm_compute.
Defined.

Lemma short_successor_contract_witness :
  Compare ReverseBytewiseComparator (FindShortSuccessor ReverseBytewiseComparator [xff; x61; x62]) [xff; x61; x62] < 0.
Proof. apply short_successor_contract. right. by left. Defined.

Lemma hex_roundtrip_witness : decodeHex [x41] [x42] = ([x42], false).
Proof. by apply (hex_roundtrip [] [x42]). Defined.
