(* ===== verification/Hash.v ===== *)
(** * Hash functions: [src/util/hash_util.h], [src/util/hash_util.cpp]

    The three byte-string hashes and the integer combiners, on machine words.
    A [const char *data] with its length is the list of bytes. *)

From S2P Require Import Prelude Coding.

(** [0xff] is in case [char] is signed. *)
Definition ByteAs32 (c : byte) : Z := u32 (schar c) .& 0xff.
Definition ByteAs64 (c : byte) : Z := u64 (schar c) .& 0xff.

(** Reading a word that the loop guard has checked to be there. *)
Definition word32 `{Port} (p : bytes) : Z := default 0 (DecodeFixed32 p).
Definition word64 `{Port} (p : bytes) : Z := default 0 (DecodeFixed64 p).

Module Hash.
Section with_port.
Context `{Port}.

Definition m : Z := 0xc6a4a793.
Definition r : Z := 24.

(** [while (data + 4 <= limit)]: the state and the bytes left, fewer than 4. *)
Fixpoint loop (fuel : nat) (data : bytes) (h : Z) : Z * bytes :=
  match fuel with
  | O => (h, data)
  | S fuel =>
      if 4 <=? size data then
        let w := word32 data in
        let data := drop 4 data in
        let h := u32 (h + w) in
        let h := u32 (h * m) in
        let h := h .^ (h .>> 16) in
        loop fuel data h
      else (h, data)
  end.

(** The [switch (limit - data)].  [case 1:] stands on the line of the comment
    "fall through" above it, so it is not a label: one byte left matches no
    case, and cases 3 and 2 run through the last group of statements. *)
Definition tail (data : bytes) (h : Z) : Z :=
  let finish d0 h :=
    let h := u32 (h + uchar d0) in
    let h := u32 (h * m) in
    h .^ (h .>> r) in
  match data with
  | [d0; d1; d2] =>
      let h := u32 (h + (uchar d2 .<< 16)) in
      let h := u32 (h + (uchar d1 .<< 8)) in
      finish d0 h
  | [d0; d1] =>
      let h := u32 (h + (uchar d1 .<< 8)) in
      finish d0 h
  | _ => h
  end.

Definition Hash (data : bytes) (seed : Z) : Z :=
  let h := u32 (seed .^ u64 (size data * m)) in
  let '(h, data) := loop (length data) data h in
  tail data h.

(** What the comments announce: "Pick up remaining bytes", any number of them. *)
Definition Hash_intended (data : bytes) (seed : Z) : Z :=
  let h := u32 (seed .^ u64 (size data * m)) in
  let '(h, data) := loop (length data) data h in
  match data with
  | [] => h
  | _ => let h := u32 (u32 (h + le_val data) * m) in h .^ (h .>> r)
  end.

End with_port.
End Hash.

Module Hash32.
Section with_port.
Context `{Port}.

Definition m : Z := 0x5bd1e995.
Definition r : Z := 24.

(** One word mixed into the hash. *)
Definition mix (h k : Z) : Z :=
  let k := u32 (k * m) in
  let k := k .^ (k .>> r) in
  let k := u32 (k * m) in
  let h := u32 (h * m) in
  h .^ k.

Fixpoint loop (fuel : nat) (data : bytes) (h : Z) : Z * bytes :=
  match fuel with
  | O => (h, data)
  | S fuel =>
      if size data >=? 4 then loop fuel (drop 4 data) (mix h (word32 data)) else (h, data)
  end.

Definition tail (data : bytes) (h : Z) : Z :=
  let case1 d0 h := u32 ((h .^ ByteAs32 d0) * m) in
  let case2 d0 d1 h := case1 d0 (h .^ u32 (ByteAs32 d1 .<< 8)) in
  let case3 d0 d1 d2 h := case2 d0 d1 (h .^ u32 (ByteAs32 d2 .<< 16)) in
  match data with
  | [d0; d1; d2] => case3 d0 d1 d2 h
  | [d0; d1] => case2 d0 d1 h
  | [d0] => case1 d0 h
  | _ => h
  end.

Definition Hash32 (data : bytes) (seed : Z) : Z :=
  let h := u32 (seed .^ size data) in
  let '(h, data) := loop (length data) data h in
  let h := tail data h in
  let h := h .^ (h .>> 13) in
  let h := u32 (h * m) in
  h .^ (h .>> 15).

End with_port.
End Hash32.

Module Hash64.
Section with_port.
Context `{Port}.

Definition m : Z := 0xc6a4a7935bd1e995.
Definition r : Z := 47.

Definition mix (h k : Z) : Z :=
  let k := u64 (k * m) in
  let k := k .^ (k .>> r) in
  let k := u64 (k * m) in
  let h := h .^ k in
  u64 (h * m).

Fixpoint loop (fuel : nat) (data : bytes) (h : Z) : Z * bytes :=
  match fuel with
  | O => (h, data)
  | S fuel =>
      if size data >=? 8 then loop fuel (drop 8 data) (mix h (word64 data)) else (h, data)
  end.

Definition tail (data : bytes) (h : Z) : Z :=
  let case1 d0 h := u64 ((h .^ ByteAs64 d0) * m) in
  let case2 d0 d1 h := case1 d0 (h .^ u64 (ByteAs64 d1 .<< 8)) in
  let case3 d0 d1 d2 h := case2 d0 d1 (h .^ u64 (ByteAs64 d2 .<< 16)) in
  let case4 d0 d1 d2 d3 h := case3 d0 d1 d2 (h .^ u64 (ByteAs64 d3 .<< 24)) in
  let case5 d0 d1 d2 d3 d4 h := case4 d0 d1 d2 d3 (h .^ u64 (ByteAs64 d4 .<< 32)) in
  let case6 d0 d1 d2 d3 d4 d5 h := case5 d0 d1 d2 d3 d4 (h .^ u64 (ByteAs64 d5 .<< 40)) in
  let case7 d0 d1 d2 d3 d4 d5 d6 h :=
    case6 d0 d1 d2 d3 d4 d5 (h .^ u64 (ByteAs64 d6 .<< 48)) in
  match data with
  | [d0; d1; d2; d3; d4; d5; d6] => case7 d0 d1 d2 d3 d4 d5 d6 h
  | [d0; d1; d2; d3; d4; d5] => case6 d0 d1 d2 d3 d4 d5 h
  | [d0; d1; d2; d3; d4] => case5 d0 d1 d2 d3 d4 h
  | [d0; d1; d2; d3] => case4 d0 d1 d2 d3 h
  | [d0; d1; d2] => case3 d0 d1 d2 h
  | [d0; d1] => case2 d0 d1 h
  | [d0] => case1 d0 h
  | _ => h
  end.

Definition Hash64 (data : bytes) (seed : Z) : Z :=
  let h := seed .^ u64 (size data * m) in
  let '(h, data) := loop (length data) data h in
  let h := tail data h in
  let h := h .^ (h .>> r) in
  let h := u64 (h * m) in
  h .^ (h .>> r).

End with_port.
End Hash64.

(** [Hash64(data, n)], also used by [StringPiece::Hasher] and [hash<string>]. *)
Definition Hash64_default `{Port} (data : bytes) : Z := Hash64.Hash64 data 0xDECAFCAFFE.

Definition Hash64Combine (a b : Z) : Z :=
  a .^ u64 (u64 (b + 0x9e3779b97f4a7800) + u64 (a .<< 10) + (a .>> 4)).

(** [StdHashCombine] with [hash_func(value)] passed in; the constant is the
    32-bit one. *)
Definition StdHashCombine (key hash_value : Z) : Z :=
  key .^ u64 (u64 (hash_value + 0x9e3779b9) + u64 (key .<< 6) + (key .>> 2)).

(** The hash of a pointer, by its address. *)
Definition hash_pointer (t : Z) : Z := u64 (t + (t .>> 6)).

(** [sizeof(size_t)] is 8: the first return is taken. *)
Definition HashInts32 (value1 value2 : Z) : Z := u64 (value1 .<< 32) .| value2.

Definition HashInts64 (value1 value2 : Z) : Z :=
  let short_random1 := 842304669 in
  let short_random2 := 619063811 in
  let short_random3 := 937041849 in
  let short_random4 := 3309708029 in
  let value1a := u32 (value1 .& 0xffffffff) in
  let value1b := u32 ((value1 .>> 32) .& 0xffffffff) in
  let value2a := u32 (value2 .& 0xffffffff) in
  let value2b := u32 ((value2 .>> 32) .& 0xffffffff) in
  let product1 := u64 (value1a * short_random1) in
  let product2 := u64 (value1b * short_random2) in
  let product3 := u64 (value2a * short_random3) in
  let product4 := u64 (value2b * short_random4) in
  u64 (product1 + product2 + product3 + product4).

(** ** The word loops *)

(** A loop that mixes in [k] bytes at a time while there are that many. *)
Lemma word_loop (loop : nat -> bytes -> Z -> Z * bytes) (k : nat) (step : Z -> bytes -> Z) :
  (0 < k)%nat ->
  (forall d h, loop O d h = (h, d)) ->
  (forall fuel d h, loop (S fuel) d h =
     if Z.of_nat k <=? size d then loop fuel (drop k d) (step h (take k d)) else (h, d)) ->
  forall ws t fuel h,
  Forall (fun w => length w = k) ws -> (length t < k)%nat ->
  (length (concat ws ++ t) <= fuel)%nat ->
  loop fuel (concat ws ++ t) h = (fold_left step ws h, t).
Proof.
  intros Hk H0 HS. induction ws as [|w ws IH]; intros t fuel h Hws Ht Hf; cbn [concat app fold_left] in *.
  - destruct fuel as [|fuel]; [apply H0|]. rewrite HS.
    destruct (Z.leb_spec (Z.of_nat k) (size t)); [unfold size in *; lia|done].
  - apply Forall_cons_iff in Hws as [Hw Hws]. rewrite <-app_assoc in *. rewrite length_app in Hf.
    destruct fuel as [|fuel]; [lia|]. rewrite HS.
    destruct (Z.leb_spec (Z.of_nat k) (size (w ++ concat ws ++ t)));
      [|unfold size in *; rewrite length_app in *; lia].
    rewrite take_app_length', drop_app_length' by done. apply IH; [done..|lia].
Qed.

(** Every byte string is whole words followed by a shorter tail. *)
Lemma words_tail (k : nat) (data : bytes) :
  (0 < k)%nat -> exists ws t, data = concat ws ++ t /\ Forall (fun w => length w = k) ws /\ (length t < k)%nat.
Proof.
  intros Hk. remember (length data) as n eqn:Hn. revert data Hn.
  induction n as [n IH] using lt_wf_ind. intros data Hn.
  destruct (decide (length data < k)%nat) as [|Hl]; [by exists [], data|].
  destruct (split_at_length k data) as (w & d & -> & Hw); [lia|]. rewrite length_app in Hn.
  destruct (IH (length d) ltac:(lia) d eq_refl) as (ws & t & -> & Hws & Ht).
  exists (w :: ws), t. cbn [concat]. rewrite <-app_assoc. split_and!; [done|by apply Forall_cons_iff|done].
Qed.

Lemma ByteAs32_uchar c : ByteAs32 c = uchar c.
Proof. by_byte c. Qed.
Lemma ByteAs64_uchar c : ByteAs64 c = uchar c.
Proof. by_byte c. Qed.

(** Shift the bytes of a word in by exclusive or, in any grouping. *)
Ltac le_val_xor :=
  rewrite !le_val_cons_lxor; cbn [le_val];
  rewrite ?Z.shiftl_0_l, ?Z.lxor_0_r, ?Z.shiftl_lxor, ?Z.shiftl_shiftl by lia; norm_sums;
  apply Z.bits_inj'; intros ? _; rewrite !Z.lxor_spec; btauto.

Section with_port.
Context `{Port}.

Lemma word32_take data : (4 <= length data)%nat -> word32 data = le_val (take 4 data).
Proof.
  intros. destruct (split_at_length 4 data) as (w & d & -> & Hw); [done|].
  unfold word32. by rewrite DecodeFixed32_app, take_app_length' by done.
Qed.
Lemma word64_take data : (8 <= length data)%nat -> word64 data = le_val (take 8 data).
Proof.
  intros. destruct (split_at_length 8 data) as (w & d & -> & Hw); [done|].
  unfold word64. by rewrite DecodeFixed64_app, take_app_length' by done.
Qed.

Definition Hash_step (h : Z) (w : bytes) : Z :=
  let h := u32 (u32 (h + le_val w) * Hash.m) in h .^ (h .>> 16).

Lemma Hash_loop ws t h :
  Forall (fun w => length w = 4%nat) ws -> (length t < 4)%nat ->
  Hash.loop (length (concat ws ++ t)) (concat ws ++ t) h = (fold_left Hash_step ws h, t).
Proof.
  intros. apply (word_loop Hash.loop 4); try done; [lia|].
  intros fuel d k. cbn [Hash.loop]. change (Z.of_nat 4) with 4.
  destruct (Z.leb_spec 4 (size d)); [|done].
  rewrite word32_take by (unfold size in *; lia). done.
Qed.

Lemma Hash32_loop ws t h :
  Forall (fun w => length w = 4%nat) ws -> (length t < 4)%nat ->
  Hash32.loop (length (concat ws ++ t)) (concat ws ++ t) h =
  (fold_left (fun h w => Hash32.mix h (le_val w)) ws h, t).
Proof.
  intros. apply (word_loop Hash32.loop 4); try done; [lia|].
  intros fuel d k. cbn [Hash32.loop]. rewrite Z.geb_leb. change (Z.of_nat 4) with 4.
  destruct (Z.leb_spec 4 (size d)); [|done].
  rewrite word32_take by (unfold size in *; lia). done.
Qed.

Lemma Hash64_loop ws t h :
  Forall (fun w => length w = 8%nat) ws -> (length t < 8)%nat ->
  Hash64.loop (length (concat ws ++ t)) (concat ws ++ t) h =
  (fold_left (fun h w => Hash64.mix h (le_val w)) ws h, t).
Proof.
  intros. apply (word_loop Hash64.loop 8); try done; [lia|].
  intros fuel d k. cbn [Hash64.loop]. rewrite Z.geb_leb. change (Z.of_nat 8) with 8.
  destruct (Z.leb_spec 8 (size d)); [|done].
  rewrite word64_take by (unfold size in *; lia). done.
Qed.

(** ** The tails *)

Lemma Hash_tail_le t h :
  (length t < 4)%nat -> length t <> 1%nat -> t <> [] ->
  Hash.tail t h = let h := u32 (u32 (h + le_val t) * Hash.m) in h .^ (h .>> Hash.r).
Proof.
  intros Hl H1 Hn. destruct t as [|d0 [|d1 [|d2 [|]]]]; simpl in Hl, H1; try done; try lia;
    unfold Hash.tail; cbv zeta.
  - assert (E : u32 (u32 (h + (uchar d1 .<< 8)) + uchar d0) = u32 (h + le_val [d0; d1])); [|by rewrite E].
    rewrite Z.add_comm, wrap_add_wrap. cbn [le_val]. rewrite Z.shiftl_mul_pow2 by lia. f_equal. lia.
  - assert (E : u32 (u32 (u32 (h + (uchar d2 .<< 16)) + (uchar d1 .<< 8)) + uchar d0) =
                u32 (h + le_val [d0; d1; d2])); [|by rewrite E].
    rewrite Z.add_comm, wrap_add_wrap, (Z.add_comm (u32 _)), Z.add_assoc, wrap_add_wrap.
    cbn [le_val]. rewrite !Z.shiftl_mul_pow2 by lia. f_equal. lia.
Qed.

Lemma Hash32_tail_le t h :
  (length t < 4)%nat ->
  Hash32.tail t h = match t with [] => h | _ => u32 ((h .^ le_val t) * Hash32.m) end.
Proof.
  intros Hl. destruct t as [|d0 [|d1 [|d2 [|]]]]; simpl in Hl; try done; try lia;
    unfold Hash32.tail; cbv zeta; rewrite !ByteAs32_uchar, ?wrap_uchar_shiftl by lia;
    do 2 f_equal; le_val_xor.
Qed.

Lemma Hash64_tail_le t h :
  (length t < 8)%nat ->
  Hash64.tail t h = match t with [] => h | _ => u64 ((h .^ le_val t) * Hash64.m) end.
Proof.
  intros Hl. destruct t as [|d0 [|d1 [|d2 [|d3 [|d4 [|d5 [|d6 [|]]]]]]]]; simpl in Hl; try done; try lia;
    unfold Hash64.tail; cbv zeta; rewrite !ByteAs64_uchar, ?wrap_uchar_shiftl by lia;
    do 2 f_equal; le_val_xor.
Qed.

(** ** Properties *)

(** (a swallowed [case] label).  When the length is 1 modulo 4 the last byte
    of the data does not enter [Hash] at all, because [case 1:] is part of a
    comment; for every other length the function is the intended one. *)
Theorem hash_ignores_last_byte (data : bytes) (seed : Z) :
  (size data mod 4 = 0 -> forall b b', Hash.Hash (data ++ [b]) seed = Hash.Hash (data ++ [b']) seed) /\
  (size data mod 4 <> 1 -> Hash.Hash data seed = Hash.Hash_intended data seed).
Proof.
  destruct (words_tail 4 data ltac:(lia)) as (ws & t & -> & Hws & Ht).
  assert (Hlen : exists q, size (concat ws ++ t) = 4 * q + Z.of_nat (length t)).
  { exists (Z.of_nat (length ws)). unfold size. rewrite length_app. clear Ht.
    induction Hws as [|w ws Hw _ IH]; [simpl; lia|]. cbn [concat length]. rewrite length_app. lia. }
  destruct Hlen as [q Hlen]. split.
  - intros Hmod b b'. rewrite Hlen in Hmod.
    assert (t = []) as ->. { destruct t; [done|]. simpl in *. Z.div_mod_to_equations. lia. }
    unfold Hash.Hash. rewrite !app_nil_r.
    rewrite (Hash_loop ws [b]), (Hash_loop ws [b']) by (done || simpl; lia).
    unfold size. by rewrite !length_app.
  - intros Hmod. unfold Hash.Hash, Hash.Hash_intended. rewrite Hash_loop by done.
    destruct (decide (t = [])) as [->|Hne]; [done|].
    rewrite Hash_tail_le; [by destruct t|done| |done].
    intros H1. rewrite Hlen, H1 in Hmod. apply Hmod.
    rewrite Z.mul_comm, Z.add_comm, Z.mod_add by lia. done.
Qed.

(** (the murmur hashes).  Cut the data into words and a shorter tail: the
    hashes fold the little-endian words into the seeded length, then the tail
    read as one little-endian number if it is not empty, then finish.  In
    particular the result does not depend on the byte order of the host nor on
    the signedness of [char]. *)
Theorem murmur_reference (ws4 ws8 : list bytes) (t4 t8 : bytes) (seed : Z)
  (H4 : Forall (fun w => length w = 4%nat) ws4) (Ht4 : (length t4 < 4)%nat)
  (H8 : Forall (fun w => length w = 8%nat) ws8) (Ht8 : (length t8 < 8)%nat) :
  Hash32.Hash32 (concat ws4 ++ t4) seed =
    (let h := fold_left (fun h w => Hash32.mix h (le_val w)) ws4
                (u32 (seed .^ size (concat ws4 ++ t4))) in
     let h := match t4 with [] => h | _ => u32 ((h .^ le_val t4) * Hash32.m) end in
     let h := u32 ((h .^ (h .>> 13)) * Hash32.m) in h .^ (h .>> 15)) /\
  Hash64.Hash64 (concat ws8 ++ t8) seed =
    (let h := fold_left (fun h w => Hash64.mix h (le_val w)) ws8
                (seed .^ u64 (size (concat ws8 ++ t8) * Hash64.m)) in
     let h := match t8 with [] => h | _ => u64 ((h .^ le_val t8) * Hash64.m) end in
     let h := u64 ((h .^ (h .>> Hash64.r)) * Hash64.m) in h .^ (h .>> Hash64.r)).
Proof.
  split.
  - unfold Hash32.Hash32. by rewrite Hash32_loop, Hash32_tail_le.
  - unfold Hash64.Hash64. by rewrite Hash64_loop, Hash64_tail_le.
Qed.

End with_port.

(** (pairs of 32-bit values).  With a 64-bit [size_t] [HashInts32] packs
    its two arguments, so it has no collisions. *)
Theorem hash_ints32_injective (a b c d : Z)
  (Ha : is_uint 32 a) (Hb : is_uint 32 b) (Hc : is_uint 32 c) (Hd : is_uint 32 d)
  (E : HashInts32 a b = HashInts32 c d) : a = c /\ b = d.
Proof.
  assert (V : forall x y, is_uint 32 x -> is_uint 32 y -> HashInts32 x y = y + 2 ^ 32 * x).
  { intros x y Hx Hy. unfold HashInts32. rewrite Z.lor_comm.
    rewrite lor_wrap_shiftl by (lia || done). apply wrap_small. unfold is_uint in *.
    change (2 ^ 32) with 4294967296 in *. change (2 ^ 64) with 18446744073709551616. lia. }
  rewrite !V in E by done. unfold is_uint in *. change (2 ^ 32) with 4294967296 in *. lia.
Qed.

(** ** Witnesses *)

Lemma hash_ignores_last_byte_witness :
  size [x61; x62; x63; x64] mod 4 = 0 /\
  @Hash.Hash little_endian_port ([x61; x62; x63; x64] ++ [x65]) 7 =
  @Hash.Hash little_endian_port ([x61; x62; x63; x64] ++ [x66]) 7.
Proof.
  split; [by vm_compute|].
  by apply (@hash_ignores_last_byte little_endian_port [x61; x62; x63; x64] 7).
Defined.

Lemma murmur_reference_witness :
  @Hash32.Hash32 big_endian_port ([x01; x02; x03; x04] ++ [x05]) 9 =
  @Hash32.Hash32 little_endian_port ([x01; x02; x03; x04] ++ [x05]) 9.
Proof.
  pose proof (@murmur_reference big_endian_port [[x01; x02; x03; x04]] [] [x05] [] 9
    ltac:(by repeat constructor) ltac:(simpl; lia) ltac:(constructor) ltac:(simpl; lia)) as [E _].
  etransitivity; [exact E|by vm_compute].
Defined.

Lemma hash_ints32_injective_witness : 1 = 1 /\ 2 = 2.
Proof.
  apply (hash_ints32_injective 1 2 1 2); [split; by vm_compute..|done].
Defined.
