(* ===== verification/Sha.v ===== *)
(** * Sha: [src/util/sha_util.h] and [src/util/sha_util.cpp]

    The hashers [CSHA1] and [CSHA512].  [Transform] is the source's unrolled
    list of rounds, one entry for each line of the source: a round is a function
    on the local variables of [Transform], the variables it names are positions
    ([a] is 0, [w3] is 3).  [Write] and [Finalize] are the same in both classes
    but for the block size, the width of the length field and the compression
    function, and are written once over them.  The standard they implement,
    FIPS 180-4, is stated below on whole messages. *)

From S2P Require Import Prelude Coding.
#[local] Open Scope mycc_scope.

(** ** Big-endian words ([ReadBE32] and the like of [src/util/coding_util.h]) *)

Section with_port.
Context `{Port}.

(** [be32toh] and [be64toh] of the C library: the number whose big-endian bytes are
    the object representation of [x]; [htobe32] and [htobe64] are the same
    permutations. *)
Definition betoh (n : nat) (x : Z) : Z := le_val (rev (mem_store n x)).

Definition ReadBE (n : nat) (ptr : bytes) : option Z :=
  if decide (n ≤ length ptr)%nat then Some (betoh n (mem_load (take n ptr))) else None.
Definition ReadBE32 (ptr : bytes) : option Z := ReadBE 4 ptr.
Definition ReadBE64 (ptr : bytes) : option Z := ReadBE 8 ptr.
Definition WriteBE32 (x : Z) : bytes := mem_store 4 (betoh 4 x).
Definition WriteBE64 (x : Z) : bytes := mem_store 8 (betoh 8 x).

End with_port.

(** ** The hashers *)

(** [memcpy(buf + off, l, size(l))], within [buf]. *)
Definition copy_into (buf : bytes) (off : Z) (l : bytes) : option bytes :=
  if off + Z.of_nat (length l) <=? Z.of_nat (length buf)
  then Some (take (Z.to_nat off) buf ++ l ++ drop (Z.to_nat off + length l) buf) else None.

(** The first [n] bytes at a pointer. *)
Definition chunk_of (n : Z) (data : bytes) : option bytes :=
  if n <=? Z.of_nat (length data) then Some (take (Z.to_nat n) data) else None.

Section hasher.
Context {words : Type} (block : Z) (Transform : words -> bytes -> option words).

Record hasher := { s : words; buf : bytes; bytes_ : Z }.

(** [while (end >= data + block)]; each round takes a block off [data], which is at least
    one byte. *)
Fixpoint Write_loop (fuel : nat) (data : bytes) (h : hasher) : option (bytes * hasher) :=
  if Z.of_nat (length data) >=? block then
    match fuel with
    | O => None
    | S fuel =>
        s' ← Transform (s h) data;
        Write_loop fuel (drop (Z.to_nat block) data)
          {| s := s'; buf := buf h; bytes_ := u64 (bytes_ h + block) |}
    end
  else Some (data, h).

Definition Write (data : bytes) (h : hasher) : option hasher :=
  let len := Z.of_nat (length data) in
  let bufsize := bytes_ h mod block in
  '(h, data, bufsize) ←
    (if negb (bufsize =? 0) && (u64 (bufsize + len) >=? block) then
       part ← chunk_of (block - bufsize) data;
       buf' ← copy_into (buf h) bufsize part;
       let bytes' := u64 (bytes_ h + (block - bufsize)) in
       s' ← Transform (s h) buf';
       Some ({| s := s'; buf := buf'; bytes_ := bytes' |}, drop (Z.to_nat (block - bufsize)) data, 0)
     else Some (h, data, bufsize));
  '(data, h) ← Write_loop (length data) data h;
  if Z.of_nat (length data) >? 0 then
    buf' ← copy_into (buf h) bufsize data;
    Some {| s := s h; buf := buf'; bytes_ := u64 (bytes_ h + Z.of_nat (length data)) |}
  else Some h.

(** Everything [Finalize] writes before the digest: [pad] is [0x80] and zeros, [offset]
    is 119 or 239. *)
Definition Finalize_pad `{Port} (offset : Z) (sizedesc : bytes) (h : hasher) : option hasher :=
  let pad := x80 :: repeat x00 (Z.to_nat (block - 1)) in
  part ← chunk_of (1 + (offset - bytes_ h mod block) mod block) pad;
  h ← Write part h;
  Write sizedesc h.

End hasher.
Arguments hasher : clear implicits.

(** ** Rounds over local variables *)

(** The working variables [a], [b], ... and the words [w0], ..., [w15]. *)
Record locals := { vars : list Z; ws : list Z }.
Definition v (l : locals) (i : nat) : Z := nth i (vars l) 0.
Definition w (l : locals) (i : nat) : Z := nth i (ws l) 0.
Definition set_v (i : nat) (x : Z) (l : locals) : locals := {| vars := <[i := x]> (vars l); ws := ws l |}.
Definition set_w (i : nat) (x : Z) (l : locals) : locals := {| vars := vars l; ws := <[i := x]> (ws l) |}.

(** The last argument of a round: a word, that it may also assign. *)
Definition word_arg : Type := locals -> option (Z * locals).
Definition load (n i : nat) `{Port} (p : bytes) : word_arg := fun l => x ← ReadBE n p; Some (x, set_w i x l).
Definition load32 `{Port} (i : nat) (p : bytes) : word_arg := load 4 i p.
Definition load64 `{Port} (i : nat) (p : bytes) : word_arg := load 8 i p.
Definition assign (i : nat) (e : locals -> Z) : word_arg := fun l => Some (e l, set_w i (e l) l).
Definition value (e : locals -> Z) : word_arg := fun l => Some (e l, l).

(** [f(b, c, d)]. *)
Definition on3 (f : Z -> Z -> Z -> Z) (b c d : nat) : locals -> Z := fun l => f (v l b) (v l c) (v l d).

Definition round : Type := locals -> option locals.
Fixpoint run (p : list round) (l : locals) : option locals :=
  match p with
  | [] => Some l
  | r :: p => l ← r l; run p l
  end.
(** The words are uninitialised when [Transform] begins. *)
Definition start (vs : list Z) : locals := {| vars := vs; ws := repeat 0 16 |}.

(** ** SHA-1 *)

Module Sha1.

Definition Round (a b c d e : nat) (f : locals -> Z) (k : Z) (word : word_arg) : round := fun l =>
  let f := f l in
  '(w, l) ← word l;
  let l := set_v e (u32 (v l e + u32 (u32 (u32 ((u32 (v l a .<< 5) .| (v l a .>> 27)) + f) + k) + w))) l in
  Some (set_v b (u32 (v l b .<< 30) .| (v l b .>> 2)) l).

Definition f1 (b c d : Z) : Z := d .^ (b .& (c .^ d)).
Definition f2 (b c d : Z) : Z := b .^ c .^ d.
Definition f3 (b c d : Z) : Z := (b .& c) .| (d .& (b .| c)).
Definition left (x : Z) : Z := u32 (x .<< 1) .| (x .>> 31).

Definition words : Type := Z * Z * Z * Z * Z.
Definition Initialize : words := (0x67452301, 0xEFCDAB89, 0x98BADCFE, 0x10325476, 0xC3D2E1F0).

Definition k1 : Z := 0x5A827999.
Definition k2 : Z := 0x6ED9EBA1.
Definition k3 : Z := 0x8F1BBCDC.
Definition k4 : Z := 0xCA62C1D6.

Section Transform.
#[local] Abbreviation a := 0%nat.
#[local] Abbreviation b := 1%nat.
#[local] Abbreviation c := 2%nat.
#[local] Abbreviation d := 3%nat.
#[local] Abbreviation e := 4%nat.
Definition rounds `{Port} (chunk : bytes) : list round :=
  [
   Round a b c d e (on3 f1 b c d) k1 (load32 0 (drop 0 chunk));
   Round e a b c d (on3 f1 a b c) k1 (load32 1 (drop 4 chunk));
   Round d e a b c (on3 f1 e a b) k1 (load32 2 (drop 8 chunk));
   Round c d e a b (on3 f1 d e a) k1 (load32 3 (drop 12 chunk));
   Round b c d e a (on3 f1 c d e) k1 (load32 4 (drop 16 chunk));
   Round a b c d e (on3 f1 b c d) k1 (load32 5 (drop 20 chunk));
   Round e a b c d (on3 f1 a b c) k1 (load32 6 (drop 24 chunk));
   Round d e a b c (on3 f1 e a b) k1 (load32 7 (drop 28 chunk));
   Round c d e a b (on3 f1 d e a) k1 (load32 8 (drop 32 chunk));
   Round b c d e a (on3 f1 c d e) k1 (load32 9 (drop 36 chunk));
   Round a b c d e (on3 f1 b c d) k1 (load32 10 (drop 40 chunk));
   Round e a b c d (on3 f1 a b c) k1 (load32 11 (drop 44 chunk));
   Round d e a b c (on3 f1 e a b) k1 (load32 12 (drop 48 chunk));
   Round c d e a b (on3 f1 d e a) k1 (load32 13 (drop 52 chunk));
   Round b c d e a (on3 f1 c d e) k1 (load32 14 (drop 56 chunk));
   Round a b c d e (on3 f1 b c d) k1 (load32 15 (drop 60 chunk));
   Round e a b c d (on3 f1 a b c) k1 (assign 0 (fun l => left (w l 0 .^ w l 13 .^ w l 8 .^ w l 2)));
   Round d e a b c (on3 f1 e a b) k1 (assign 1 (fun l => left (w l 1 .^ w l 14 .^ w l 9 .^ w l 3)));
   Round c d e a b (on3 f1 d e a) k1 (assign 2 (fun l => left (w l 2 .^ w l 15 .^ w l 10 .^ w l 4)));
   Round b c d e a (on3 f1 c d e) k1 (assign 3 (fun l => left (w l 3 .^ w l 0 .^ w l 11 .^ w l 5)));
   Round a b c d e (on3 f2 b c d) k2 (assign 4 (fun l => left (w l 4 .^ w l 1 .^ w l 12 .^ w l 6)));
   Round e a b c d (on3 f2 a b c) k2 (assign 5 (fun l => left (w l 5 .^ w l 2 .^ w l 13 .^ w l 7)));
   Round d e a b c (on3 f2 e a b) k2 (assign 6 (fun l => left (w l 6 .^ w l 3 .^ w l 14 .^ w l 8)));
   Round c d e a b (on3 f2 d e a) k2 (assign 7 (fun l => left (w l 7 .^ w l 4 .^ w l 15 .^ w l 9)));
   Round b c d e a (on3 f2 c d e) k2 (assign 8 (fun l => left (w l 8 .^ w l 5 .^ w l 0 .^ w l 10)));
   Round a b c d e (on3 f2 b c d) k2 (assign 9 (fun l => left (w l 9 .^ w l 6 .^ w l 1 .^ w l 11)));
   Round e a b c d (on3 f2 a b c) k2 (assign 10 (fun l => left (w l 10 .^ w l 7 .^ w l 2 .^ w l 12)));
   Round d e a b c (on3 f2 e a b) k2 (assign 11 (fun l => left (w l 11 .^ w l 8 .^ w l 3 .^ w l 13)));
   Round c d e a b (on3 f2 d e a) k2 (assign 12 (fun l => left (w l 12 .^ w l 9 .^ w l 4 .^ w l 14)));
   Round b c d e a (on3 f2 c d e) k2 (assign 13 (fun l => left (w l 13 .^ w l 10 .^ w l 5 .^ w l 15)));
   Round a b c d e (on3 f2 b c d) k2 (assign 14 (fun l => left (w l 14 .^ w l 11 .^ w l 6 .^ w l 0)));
   Round e a b c d (on3 f2 a b c) k2 (assign 15 (fun l => left (w l 15 .^ w l 12 .^ w l 7 .^ w l 1)));
   Round d e a b c (on3 f2 e a b) k2 (assign 0 (fun l => left (w l 0 .^ w l 13 .^ w l 8 .^ w l 2)));
   Round c d e a b (on3 f2 d e a) k2 (assign 1 (fun l => left (w l 1 .^ w l 14 .^ w l 9 .^ w l 3)));
   Round b c d e a (on3 f2 c d e) k2 (assign 2 (fun l => left (w l 2 .^ w l 15 .^ w l 10 .^ w l 4)));
   Round a b c d e (on3 f2 b c d) k2 (assign 3 (fun l => left (w l 3 .^ w l 0 .^ w l 11 .^ w l 5)));
   Round e a b c d (on3 f2 a b c) k2 (assign 4 (fun l => left (w l 4 .^ w l 1 .^ w l 12 .^ w l 6)));
   Round d e a b c (on3 f2 e a b) k2 (assign 5 (fun l => left (w l 5 .^ w l 2 .^ w l 13 .^ w l 7)));
   Round c d e a b (on3 f2 d e a) k2 (assign 6 (fun l => left (w l 6 .^ w l 3 .^ w l 14 .^ w l 8)));
   Round b c d e a (on3 f2 c d e) k2 (assign 7 (fun l => left (w l 7 .^ w l 4 .^ w l 15 .^ w l 9)));
   Round a b c d e (on3 f3 b c d) k3 (assign 8 (fun l => left (w l 8 .^ w l 5 .^ w l 0 .^ w l 10)));
   Round e a b c d (on3 f3 a b c) k3 (assign 9 (fun l => left (w l 9 .^ w l 6 .^ w l 1 .^ w l 11)));
   Round d e a b c (on3 f3 e a b) k3 (assign 10 (fun l => left (w l 10 .^ w l 7 .^ w l 2 .^ w l 12)));
   Round c d e a b (on3 f3 d e a) k3 (assign 11 (fun l => left (w l 11 .^ w l 8 .^ w l 3 .^ w l 13)));
   Round b c d e a (on3 f3 c d e) k3 (assign 12 (fun l => left (w l 12 .^ w l 9 .^ w l 4 .^ w l 14)));
   Round a b c d e (on3 f3 b c d) k3 (assign 13 (fun l => left (w l 13 .^ w l 10 .^ w l 5 .^ w l 15)));
   Round e a b c d (on3 f3 a b c) k3 (assign 14 (fun l => left (w l 14 .^ w l 11 .^ w l 6 .^ w l 0)));
   Round d e a b c (on3 f3 e a b) k3 (assign 15 (fun l => left (w l 15 .^ w l 12 .^ w l 7 .^ w l 1)));
   Round c d e a b (on3 f3 d e a) k3 (assign 0 (fun l => left (w l 0 .^ w l 13 .^ w l 8 .^ w l 2)));
   Round b c d e a (on3 f3 c d e) k3 (assign 1 (fun l => left (w l 1 .^ w l 14 .^ w l 9 .^ w l 3)));
   Round a b c d e (on3 f3 b c d) k3 (assign 2 (fun l => left (w l 2 .^ w l 15 .^ w l 10 .^ w l 4)));
   Round e a b c d (on3 f3 a b c) k3 (assign 3 (fun l => left (w l 3 .^ w l 0 .^ w l 11 .^ w l 5)));
   Round d e a b c (on3 f3 e a b) k3 (assign 4 (fun l => left (w l 4 .^ w l 1 .^ w l 12 .^ w l 6)));
   Round c d e a b (on3 f3 d e a) k3 (assign 5 (fun l => left (w l 5 .^ w l 2 .^ w l 13 .^ w l 7)));
   Round b c d e a (on3 f3 c d e) k3 (assign 6 (fun l => left (w l 6 .^ w l 3 .^ w l 14 .^ w l 8)));
   Round a b c d e (on3 f3 b c d) k3 (assign 7 (fun l => left (w l 7 .^ w l 4 .^ w l 15 .^ w l 9)));
   Round e a b c d (on3 f3 a b c) k3 (assign 8 (fun l => left (w l 8 .^ w l 5 .^ w l 0 .^ w l 10)));
   Round d e a b c (on3 f3 e a b) k3 (assign 9 (fun l => left (w l 9 .^ w l 6 .^ w l 1 .^ w l 11)));
   Round c d e a b (on3 f3 d e a) k3 (assign 10 (fun l => left (w l 10 .^ w l 7 .^ w l 2 .^ w l 12)));
   Round b c d e a (on3 f3 c d e) k3 (assign 11 (fun l => left (w l 11 .^ w l 8 .^ w l 3 .^ w l 13)));
   Round a b c d e (on3 f2 b c d) k4 (assign 12 (fun l => left (w l 12 .^ w l 9 .^ w l 4 .^ w l 14)));
   Round e a b c d (on3 f2 a b c) k4 (assign 13 (fun l => left (w l 13 .^ w l 10 .^ w l 5 .^ w l 15)));
   Round d e a b c (on3 f2 e a b) k4 (assign 14 (fun l => left (w l 14 .^ w l 11 .^ w l 6 .^ w l 0)));
   Round c d e a b (on3 f2 d e a) k4 (assign 15 (fun l => left (w l 15 .^ w l 12 .^ w l 7 .^ w l 1)));
   Round b c d e a (on3 f2 c d e) k4 (assign 0 (fun l => left (w l 0 .^ w l 13 .^ w l 8 .^ w l 2)));
   Round a b c d e (on3 f2 b c d) k4 (assign 1 (fun l => left (w l 1 .^ w l 14 .^ w l 9 .^ w l 3)));
   Round e a b c d (on3 f2 a b c) k4 (assign 2 (fun l => left (w l 2 .^ w l 15 .^ w l 10 .^ w l 4)));
   Round d e a b c (on3 f2 e a b) k4 (assign 3 (fun l => left (w l 3 .^ w l 0 .^ w l 11 .^ w l 5)));
   Round c d e a b (on3 f2 d e a) k4 (assign 4 (fun l => left (w l 4 .^ w l 1 .^ w l 12 .^ w l 6)));
   Round b c d e a (on3 f2 c d e) k4 (assign 5 (fun l => left (w l 5 .^ w l 2 .^ w l 13 .^ w l 7)));
   Round a b c d e (on3 f2 b c d) k4 (assign 6 (fun l => left (w l 6 .^ w l 3 .^ w l 14 .^ w l 8)));
   Round e a b c d (on3 f2 a b c) k4 (assign 7 (fun l => left (w l 7 .^ w l 4 .^ w l 15 .^ w l 9)));
   Round d e a b c (on3 f2 e a b) k4 (assign 8 (fun l => left (w l 8 .^ w l 5 .^ w l 0 .^ w l 10)));
   Round c d e a b (on3 f2 d e a) k4 (assign 9 (fun l => left (w l 9 .^ w l 6 .^ w l 1 .^ w l 11)));
   Round b c d e a (on3 f2 c d e) k4 (assign 10 (fun l => left (w l 10 .^ w l 7 .^ w l 2 .^ w l 12)));
   Round a b c d e (on3 f2 b c d) k4 (assign 11 (fun l => left (w l 11 .^ w l 8 .^ w l 3 .^ w l 13)));
   Round e a b c d (on3 f2 a b c) k4 (assign 12 (fun l => left (w l 12 .^ w l 9 .^ w l 4 .^ w l 14)));
   Round d e a b c (on3 f2 e a b) k4 (value (fun l => left (w l 13 .^ w l 10 .^ w l 5 .^ w l 15)));
   Round c d e a b (on3 f2 d e a) k4 (value (fun l => left (w l 14 .^ w l 11 .^ w l 6 .^ w l 0)));
   Round b c d e a (on3 f2 c d e) k4 (value (fun l => left (w l 15 .^ w l 12 .^ w l 7 .^ w l 1)))].
Definition Transform `{Port} (s : words) (chunk : bytes) : option words :=
  let '(s0, s1, s2, s3, s4) := s in
  l ← run (rounds chunk) (start [s0; s1; s2; s3; s4]);
  Some (u32 (s0 + v l a), u32 (s1 + v l b), u32 (s2 + v l c), u32 (s3 + v l d), u32 (s4 + v l e)).
End Transform.

Definition CSHA1 : Type := hasher words.
(** The constructor leaves [buf] uninitialised. *)
Definition CSHA1_new (raw : bytes) : CSHA1 := {| s := Initialize; buf := raw; bytes_ := 0 |}.
Definition CSHA1_Write `{Port} (data : bytes) (h : CSHA1) : option CSHA1 := Write 64 Transform data h.
Definition CSHA1_Finalize `{Port} (h : CSHA1) : option (bytes * CSHA1) :=
  let sizedesc := WriteBE64 (u64 (bytes_ h .<< 3)) in
  h ← Finalize_pad 64 Transform 119 sizedesc h;
  let '(s0, s1, s2, s3, s4) := s h in
  Some (WriteBE32 s0 ++ WriteBE32 s1 ++ WriteBE32 s2 ++ WriteBE32 s3 ++ WriteBE32 s4, h).
Definition CSHA1_Reset (h : CSHA1) : CSHA1 := {| s := Initialize; buf := buf h; bytes_ := 0 |}.

End Sha1.

(** ** SHA-512 *)

Module Sha512.

Definition Ch (x y z : Z) : Z := z .^ (x .& (y .^ z)).
Definition Maj (x y z : Z) : Z := (x .& y) .| (z .& (x .| y)).
Definition Sigma0 (x : Z) : Z :=
  ((x .>> 28) .| u64 (x .<< 36)) .^ ((x .>> 34) .| u64 (x .<< 30)) .^ ((x .>> 39) .| u64 (x .<< 25)).
Definition Sigma1 (x : Z) : Z :=
  ((x .>> 14) .| u64 (x .<< 50)) .^ ((x .>> 18) .| u64 (x .<< 46)) .^ ((x .>> 41) .| u64 (x .<< 23)).
Definition sigma0 (x : Z) : Z :=
  ((x .>> 1) .| u64 (x .<< 63)) .^ ((x .>> 8) .| u64 (x .<< 56)) .^ (x .>> 7).
Definition sigma1 (x : Z) : Z :=
  ((x .>> 19) .| u64 (x .<< 45)) .^ ((x .>> 61) .| u64 (x .<< 3)) .^ (x .>> 6).

Definition Round (a b c d e f g h : nat) (k : Z) (word : word_arg) : round := fun l =>
  '(w, l) ← word l;
  let t1 := u64 (u64 (u64 (u64 (v l h + Sigma1 (v l e)) + Ch (v l e) (v l f) (v l g)) + k) + w) in
  let t2 := u64 (Sigma0 (v l a) + Maj (v l a) (v l b) (v l c)) in
  let l := set_v d (u64 (v l d + t1)) l in
  Some (set_v h (u64 (t1 + t2)) l).

Definition words : Type := Z * Z * Z * Z * Z * Z * Z * Z.
Definition Initialize : words :=
  (0x6a09e667f3bcc908, 0xbb67ae8584caa73b, 0x3c6ef372fe94f82b, 0xa54ff53a5f1d36f1,
   0x510e527fade682d1, 0x9b05688c2b3e6c1f, 0x1f83d9abfb41bd6b, 0x5be0cd19137e2179).

Section Transform.
#[local] Abbreviation a := 0%nat.
#[local] Abbreviation b := 1%nat.
#[local] Abbreviation c := 2%nat.
#[local] Abbreviation d := 3%nat.
#[local] Abbreviation e := 4%nat.
#[local] Abbreviation f := 5%nat.
#[local] Abbreviation g := 6%nat.
#[local] Abbreviation h := 7%nat.
Definition rounds `{Port} (chunk : bytes) : list round :=
  [
   Round a b c d e f g h 0x428a2f98d728ae22 (load64 0 (drop 0 chunk));
   Round h a b c d e f g 0x7137449123ef65cd (load64 1 (drop 8 chunk));
   Round g h a b c d e f 0xb5c0fbcfec4d3b2f (load64 2 (drop 16 chunk));
   Round f g h a b c d e 0xe9b5dba58189dbbc (load64 3 (drop 24 chunk));
   Round e f g h a b c d 0x3956c25bf348b538 (load64 4 (drop 32 chunk));
   Round d e f g h a b c 0x59f111f1b605d019 (load64 5 (drop 40 chunk));
   Round c d e f g h a b 0x923f82a4af194f9b (load64 6 (drop 48 chunk));
   Round b c d e f g h a 0xab1c5ed5da6d8118 (load64 7 (drop 56 chunk));
   Round a b c d e f g h 0xd807aa98a3030242 (load64 8 (drop 64 chunk));
   Round h a b c d e f g 0x12835b0145706fbe (load64 9 (drop 72 chunk));
   Round g h a b c d e f 0x243185be4ee4b28c (load64 10 (drop 80 chunk));
   Round f g h a b c d e 0x550c7dc3d5ffb4e2 (load64 11 (drop 88 chunk));
   Round e f g h a b c d 0x72be5d74f27b896f (load64 12 (drop 96 chunk));
   Round d e f g h a b c 0x80deb1fe3b1696b1 (load64 13 (drop 104 chunk));
   Round c d e f g h a b 0x9bdc06a725c71235 (load64 14 (drop 112 chunk));
   Round b c d e f g h a 0xc19bf174cf692694 (load64 15 (drop 120 chunk));
   Round a b c d e f g h 0xe49b69c19ef14ad2 (assign 0 (fun l => u64 (w l 0 + u64 (u64 (sigma1 (w l 14) + w l 9) + sigma0 (w l 1)))));
   Round h a b c d e f g 0xefbe4786384f25e3 (assign 1 (fun l => u64 (w l 1 + u64 (u64 (sigma1 (w l 15) + w l 10) + sigma0 (w l 2)))));
   Round g h a b c d e f 0x0fc19dc68b8cd5b5 (assign 2 (fun l => u64 (w l 2 + u64 (u64 (sigma1 (w l 0) + w l 11) + sigma0 (w l 3)))));
   Round f g h a b c d e 0x240ca1cc77ac9c65 (assign 3 (fun l => u64 (w l 3 + u64 (u64 (sigma1 (w l 1) + w l 12) + sigma0 (w l 4)))));
   Round e f g h a b c d 0x2de92c6f592b0275 (assign 4 (fun l => u64 (w l 4 + u64 (u64 (sigma1 (w l 2) + w l 13) + sigma0 (w l 5)))));
   Round d e f g h a b c 0x4a7484aa6ea6e483 (assign 5 (fun l => u64 (w l 5 + u64 (u64 (sigma1 (w l 3) + w l 14) + sigma0 (w l 6)))));
   Round c d e f g h a b 0x5cb0a9dcbd41fbd4 (assign 6 (fun l => u64 (w l 6 + u64 (u64 (sigma1 (w l 4) + w l 15) + sigma0 (w l 7)))));
   Round b c d e f g h a 0x76f988da831153b5 (assign 7 (fun l => u64 (w l 7 + u64 (u64 (sigma1 (w l 5) + w l 0) + sigma0 (w l 8)))));
   Round a b c d e f g h 0x983e5152ee66dfab (assign 8 (fun l => u64 (w l 8 + u64 (u64 (sigma1 (w l 6) + w l 1) + sigma0 (w l 9)))));
   Round h a b c d e f g 0xa831c66d2db43210 (assign 9 (fun l => u64 (w l 9 + u64 (u64 (sigma1 (w l 7) + w l 2) + sigma0 (w l 10)))));
   Round g h a b c d e f 0xb00327c898fb213f (assign 10 (fun l => u64 (w l 10 + u64 (u64 (sigma1 (w l 8) + w l 3) + sigma0 (w l 11)))));
   Round f g h a b c d e 0xbf597fc7beef0ee4 (assign 11 (fun l => u64 (w l 11 + u64 (u64 (sigma1 (w l 9) + w l 4) + sigma0 (w l 12)))));
   Round e f g h a b c d 0xc6e00bf33da88fc2 (assign 12 (fun l => u64 (w l 12 + u64 (u64 (sigma1 (w l 10) + w l 5) + sigma0 (w l 13)))));
   Round d e f g h a b c 0xd5a79147930aa725 (assign 13 (fun l => u64 (w l 13 + u64 (u64 (sigma1 (w l 11) + w l 6) + sigma0 (w l 14)))));
   Round c d e f g h a b 0x06ca6351e003826f (assign 14 (fun l => u64 (w l 14 + u64 (u64 (sigma1 (w l 12) + w l 7) + sigma0 (w l 15)))));
   Round b c d e f g h a 0x142929670a0e6e70 (assign 15 (fun l => u64 (w l 15 + u64 (u64 (sigma1 (w l 13) + w l 8) + sigma0 (w l 0)))));
   Round a b c d e f g h 0x27b70a8546d22ffc (assign 0 (fun l => u64 (w l 0 + u64 (u64 (sigma1 (w l 14) + w l 9) + sigma0 (w l 1)))));
   Round h a b c d e f g 0x2e1b21385c26c926 (assign 1 (fun l => u64 (w l 1 + u64 (u64 (sigma1 (w l 15) + w l 10) + sigma0 (w l 2)))));
   Round g h a b c d e f 0x4d2c6dfc5ac42aed (assign 2 (fun l => u64 (w l 2 + u64 (u64 (sigma1 (w l 0) + w l 11) + sigma0 (w l 3)))));
   Round f g h a b c d e 0x53380d139d95b3df (assign 3 (fun l => u64 (w l 3 + u64 (u64 (sigma1 (w l 1) + w l 12) + sigma0 (w l 4)))));
   Round e f g h a b c d 0x650a73548baf63de (assign 4 (fun l => u64 (w l 4 + u64 (u64 (sigma1 (w l 2) + w l 13) + sigma0 (w l 5)))));
   Round d e f g h a b c 0x766a0abb3c77b2a8 (assign 5 (fun l => u64 (w l 5 + u64 (u64 (sigma1 (w l 3) + w l 14) + sigma0 (w l 6)))));
   Round c d e f g h a b 0x81c2c92e47edaee6 (assign 6 (fun l => u64 (w l 6 + u64 (u64 (sigma1 (w l 4) + w l 15) + sigma0 (w l 7)))));
   Round b c d e f g h a 0x92722c851482353b (assign 7 (fun l => u64 (w l 7 + u64 (u64 (sigma1 (w l 5) + w l 0) + sigma0 (w l 8)))));
   Round a b c d e f g h 0xa2bfe8a14cf10364 (assign 8 (fun l => u64 (w l 8 + u64 (u64 (sigma1 (w l 6) + w l 1) + sigma0 (w l 9)))));
   Round h a b c d e f g 0xa81a664bbc423001 (assign 9 (fun l => u64 (w l 9 + u64 (u64 (sigma1 (w l 7) + w l 2) + sigma0 (w l 10)))));
   Round g h a b c d e f 0xc24b8b70d0f89791 (assign 10 (fun l => u64 (w l 10 + u64 (u64 (sigma1 (w l 8) + w l 3) + sigma0 (w l 11)))));
   Round f g h a b c d e 0xc76c51a30654be30 (assign 11 (fun l => u64 (w l 11 + u64 (u64 (sigma1 (w l 9) + w l 4) + sigma0 (w l 12)))));
   Round e f g h a b c d 0xd192e819d6ef5218 (assign 12 (fun l => u64 (w l 12 + u64 (u64 (sigma1 (w l 10) + w l 5) + sigma0 (w l 13)))));
   Round d e f g h a b c 0xd69906245565a910 (assign 13 (fun l => u64 (w l 13 + u64 (u64 (sigma1 (w l 11) + w l 6) + sigma0 (w l 14)))));
   Round c d e f g h a b 0xf40e35855771202a (assign 14 (fun l => u64 (w l 14 + u64 (u64 (sigma1 (w l 12) + w l 7) + sigma0 (w l 15)))));
   Round b c d e f g h a 0x106aa07032bbd1b8 (assign 15 (fun l => u64 (w l 15 + u64 (u64 (sigma1 (w l 13) + w l 8) + sigma0 (w l 0)))));
   Round a b c d e f g h 0x19a4c116b8d2d0c8 (assign 0 (fun l => u64 (w l 0 + u64 (u64 (sigma1 (w l 14) + w l 9) + sigma0 (w l 1)))));
   Round h a b c d e f g 0x1e376c085141ab53 (assign 1 (fun l => u64 (w l 1 + u64 (u64 (sigma1 (w l 15) + w l 10) + sigma0 (w l 2)))));
   Round g h a b c d e f 0x2748774cdf8eeb99 (assign 2 (fun l => u64 (w l 2 + u64 (u64 (sigma1 (w l 0) + w l 11) + sigma0 (w l 3)))));
   Round f g h a b c d e 0x34b0bcb5e19b48a8 (assign 3 (fun l => u64 (w l 3 + u64 (u64 (sigma1 (w l 1) + w l 12) + sigma0 (w l 4)))));
   Round e f g h a b c d 0x391c0cb3c5c95a63 (assign 4 (fun l => u64 (w l 4 + u64 (u64 (sigma1 (w l 2) + w l 13) + sigma0 (w l 5)))));
   Round d e f g h a b c 0x4ed8aa4ae3418acb (assign 5 (fun l => u64 (w l 5 + u64 (u64 (sigma1 (w l 3) + w l 14) + sigma0 (w l 6)))));
   Round c d e f g h a b 0x5b9cca4f7763e373 (assign 6 (fun l => u64 (w l 6 + u64 (u64 (sigma1 (w l 4) + w l 15) + sigma0 (w l 7)))));
   Round b c d e f g h a 0x682e6ff3d6b2b8a3 (assign 7 (fun l => u64 (w l 7 + u64 (u64 (sigma1 (w l 5) + w l 0) + sigma0 (w l 8)))));
   Round a b c d e f g h 0x748f82ee5defb2fc (assign 8 (fun l => u64 (w l 8 + u64 (u64 (sigma1 (w l 6) + w l 1) + sigma0 (w l 9)))));
   Round h a b c d e f g 0x78a5636f43172f60 (assign 9 (fun l => u64 (w l 9 + u64 (u64 (sigma1 (w l 7) + w l 2) + sigma0 (w l 10)))));
   Round g h a b c d e f 0x84c87814a1f0ab72 (assign 10 (fun l => u64 (w l 10 + u64 (u64 (sigma1 (w l 8) + w l 3) + sigma0 (w l 11)))));
   Round f g h a b c d e 0x8cc702081a6439ec (assign 11 (fun l => u64 (w l 11 + u64 (u64 (sigma1 (w l 9) + w l 4) + sigma0 (w l 12)))));
   Round e f g h a b c d 0x90befffa23631e28 (assign 12 (fun l => u64 (w l 12 + u64 (u64 (sigma1 (w l 10) + w l 5) + sigma0 (w l 13)))));
   Round d e f g h a b c 0xa4506cebde82bde9 (assign 13 (fun l => u64 (w l 13 + u64 (u64 (sigma1 (w l 11) + w l 6) + sigma0 (w l 14)))));
   Round c d e f g h a b 0xbef9a3f7b2c67915 (assign 14 (fun l => u64 (w l 14 + u64 (u64 (sigma1 (w l 12) + w l 7) + sigma0 (w l 15)))));
   Round b c d e f g h a 0xc67178f2e372532b (assign 15 (fun l => u64 (w l 15 + u64 (u64 (sigma1 (w l 13) + w l 8) + sigma0 (w l 0)))));
   Round a b c d e f g h 0xca273eceea26619c (assign 0 (fun l => u64 (w l 0 + u64 (u64 (sigma1 (w l 14) + w l 9) + sigma0 (w l 1)))));
   Round h a b c d e f g 0xd186b8c721c0c207 (assign 1 (fun l => u64 (w l 1 + u64 (u64 (sigma1 (w l 15) + w l 10) + sigma0 (w l 2)))));
   Round g h a b c d e f 0xeada7dd6cde0eb1e (assign 2 (fun l => u64 (w l 2 + u64 (u64 (sigma1 (w l 0) + w l 11) + sigma0 (w l 3)))));
   Round f g h a b c d e 0xf57d4f7fee6ed178 (assign 3 (fun l => u64 (w l 3 + u64 (u64 (sigma1 (w l 1) + w l 12) + sigma0 (w l 4)))));
   Round e f g h a b c d 0x06f067aa72176fba (assign 4 (fun l => u64 (w l 4 + u64 (u64 (sigma1 (w l 2) + w l 13) + sigma0 (w l 5)))));
   Round d e f g h a b c 0x0a637dc5a2c898a6 (assign 5 (fun l => u64 (w l 5 + u64 (u64 (sigma1 (w l 3) + w l 14) + sigma0 (w l 6)))));
   Round c d e f g h a b 0x113f9804bef90dae (assign 6 (fun l => u64 (w l 6 + u64 (u64 (sigma1 (w l 4) + w l 15) + sigma0 (w l 7)))));
   Round b c d e f g h a 0x1b710b35131c471b (assign 7 (fun l => u64 (w l 7 + u64 (u64 (sigma1 (w l 5) + w l 0) + sigma0 (w l 8)))));
   Round a b c d e f g h 0x28db77f523047d84 (assign 8 (fun l => u64 (w l 8 + u64 (u64 (sigma1 (w l 6) + w l 1) + sigma0 (w l 9)))));
   Round h a b c d e f g 0x32caab7b40c72493 (assign 9 (fun l => u64 (w l 9 + u64 (u64 (sigma1 (w l 7) + w l 2) + sigma0 (w l 10)))));
   Round g h a b c d e f 0x3c9ebe0a15c9bebc (assign 10 (fun l => u64 (w l 10 + u64 (u64 (sigma1 (w l 8) + w l 3) + sigma0 (w l 11)))));
   Round f g h a b c d e 0x431d67c49c100d4c (assign 11 (fun l => u64 (w l 11 + u64 (u64 (sigma1 (w l 9) + w l 4) + sigma0 (w l 12)))));
   Round e f g h a b c d 0x4cc5d4becb3e42b6 (assign 12 (fun l => u64 (w l 12 + u64 (u64 (sigma1 (w l 10) + w l 5) + sigma0 (w l 13)))));
   Round d e f g h a b c 0x597f299cfc657e2a (assign 13 (fun l => u64 (w l 13 + u64 (u64 (sigma1 (w l 11) + w l 6) + sigma0 (w l 14)))));
   Round c d e f g h a b 0x5fcb6fab3ad6faec (value (fun l => u64 (u64 (u64 (w l 14 + sigma1 (w l 12)) + w l 7) + sigma0 (w l 15))));
   Round b c d e f g h a 0x6c44198c4a475817 (value (fun l => u64 (u64 (u64 (w l 15 + sigma1 (w l 13)) + w l 8) + sigma0 (w l 0))))].
Definition Transform `{Port} (s : words) (chunk : bytes) : option words :=
  let '(s0, s1, s2, s3, s4, s5, s6, s7) := s in
  l ← run (rounds chunk) (start [s0; s1; s2; s3; s4; s5; s6; s7]);
  Some (u64 (s0 + v l a), u64 (s1 + v l b), u64 (s2 + v l c), u64 (s3 + v l d),
        u64 (s4 + v l e), u64 (s5 + v l f), u64 (s6 + v l g), u64 (s7 + v l h)).
End Transform.

Definition CSHA512 : Type := hasher words.
Definition CSHA512_new (raw : bytes) : CSHA512 := {| s := Initialize; buf := raw; bytes_ := 0 |}.
Definition CSHA512_Write `{Port} (data : bytes) (h : CSHA512) : option CSHA512 := Write 128 Transform data h.
Definition CSHA512_Finalize `{Port} (h : CSHA512) : option (bytes * CSHA512) :=
  let sizedesc := repeat x00 8 ++ WriteBE64 (u64 (bytes_ h .<< 3)) in
  h ← Finalize_pad 128 Transform 239 sizedesc h;
  let '(s0, s1, s2, s3, s4, s5, s6, s7) := s h in
  Some (WriteBE64 s0 ++ WriteBE64 s1 ++ WriteBE64 s2 ++ WriteBE64 s3 ++
        WriteBE64 s4 ++ WriteBE64 s5 ++ WriteBE64 s6 ++ WriteBE64 s7, h).
Definition CSHA512_Reset (h : CSHA512) : CSHA512 := {| s := Initialize; buf := buf h; bytes_ := 0 |}.

End Sha512.

(** ** The standard (FIPS 180-4) *)

Definition be_bytes (n : nat) (v : Z) : bytes := rev (le_bytes n v).
Definition be_val (l : bytes) : Z := le_val (rev l).

(** The message followed by the bit 1, the fewest zero bits that make room for the
    length field of [n] bytes at the end of a block, and the length in bits. *)
Definition fips_pad (block : Z) (n : nat) (m : bytes) : bytes :=
  let len := Z.of_nat (length m) in
  m ++ x80 :: repeat x00 (Z.to_nat ((block - 1 - Z.of_nat n - len) mod block)) ++ be_bytes n (8 * len).

(** The compression function over the first [k] blocks of a message. *)
Fixpoint absorb {words} (block : nat) (compress : words -> bytes -> words) (k : nat) (st : words) (m : bytes) : words :=
  match k with
  | O => st
  | S k => absorb block compress k (compress st (take block m)) (drop block m)
  end.

(** The words of a block. *)
Definition block_words (n : nat) (chunk : bytes) : list Z :=
  map (fun i => be_val (take n (drop (n * i) chunk))) (seq 0 16).

(** The message schedule: the sixteen words of the block and [k] more, each from the
    sixteen before it. *)
Fixpoint extend (mix : list Z -> Z) (k : nat) (win : list Z) : list Z :=
  match k with
  | O => []
  | S k => mix win :: extend mix k (tail win ++ [mix win])
  end.
Definition schedule (mix : list Z -> Z) (k : nat) (ws : list Z) : list Z := ws ++ extend mix k ws.
Definition nth_word (win : list Z) (i : nat) : Z := nth i win 0.

(** [ROTL] and [ROTR]. *)
Definition rotl (w n x : Z) : Z := wrap w (x .<< n) .| (x .>> (w - n)).
Definition rotr (w n x : Z) : Z := (x .>> n) .| wrap w (x .<< (w - n)).

Module Fips1.

Definition Ch (x y z : Z) : Z := (x .& y) .^ (Z.lnot x .& z).
Definition Parity (x y z : Z) : Z := x .^ y .^ z.
Definition Maj (x y z : Z) : Z := (x .& y) .^ (x .& z) .^ (y .& z).

(** W(t) from W(t-16), ..., W(t-1). *)
Definition mix (win : list Z) : Z :=
  rotl 32 1 (nth_word win 13 .^ nth_word win 8 .^ nth_word win 2 .^ nth_word win 0).

Definition step (st : Sha1.words) (fkw : (Z -> Z -> Z -> Z) * Z * Z) : Sha1.words :=
  let '(a, b, c, d, e) := st in
  let '(f, k, w) := fkw in
  (u32 (rotl 32 5 a + f b c d + e + k + w), a, rotl 32 30 b, c, d).

Definition functions : list ((Z -> Z -> Z -> Z) * Z) :=
  repeat (Ch, 0x5a827999) 20 ++ repeat (Parity, 0x6ed9eba1) 20 ++
  repeat (Maj, 0x8f1bbcdc) 20 ++ repeat (Parity, 0xca62c1d6) 20.

Definition compress (st : Sha1.words) (chunk : bytes) : Sha1.words :=
  let '(h0, h1, h2, h3, h4) := st in
  let '(a, b, c, d, e) := foldl step st (zip functions (schedule mix 64 (block_words 4 chunk))) in
  (u32 (a + h0), u32 (b + h1), u32 (c + h2), u32 (d + h3), u32 (e + h4)).

Definition sha1 (m : bytes) : bytes :=
  let p := fips_pad 64 8 m in
  let '(h0, h1, h2, h3, h4) := absorb 64 compress (length p / 64)
     (0x67452301, 0xefcdab89, 0x98badcfe, 0x10325476, 0xc3d2e1f0) p in
  be_bytes 4 h0 ++ be_bytes 4 h1 ++ be_bytes 4 h2 ++ be_bytes 4 h3 ++ be_bytes 4 h4.

End Fips1.

Module Fips512.

Definition Sum0 (x : Z) : Z := rotr 64 28 x .^ rotr 64 34 x .^ rotr 64 39 x.
Definition Sum1 (x : Z) : Z := rotr 64 14 x .^ rotr 64 18 x .^ rotr 64 41 x.
Definition sig0 (x : Z) : Z := rotr 64 1 x .^ rotr 64 8 x .^ (x .>> 7).
Definition sig1 (x : Z) : Z := rotr 64 19 x .^ rotr 64 61 x .^ (x .>> 6).

Definition mix (win : list Z) : Z :=
  u64 (sig1 (nth_word win 14) + nth_word win 9 + sig0 (nth_word win 1) + nth_word win 0).

Definition step (st : Sha512.words) (kw : Z * Z) : Sha512.words :=
  let '(a, b, c, d, e, f, g, h) := st in
  let '(k, w) := kw in
  let T1 := u64 (h + Sum1 e + Fips1.Ch e f g + k + w) in
  let T2 := u64 (Sum0 a + Fips1.Maj a b c) in
  (u64 (T1 + T2), a, b, c, u64 (d + T1), e, f, g).

(** The first 64 bits of the fractional parts of the cube roots of the first eighty
    primes. *)
Definition constants : list Z :=
  [0x428a2f98d728ae22; 0x7137449123ef65cd; 0xb5c0fbcfec4d3b2f; 0xe9b5dba58189dbbc;
   0x3956c25bf348b538; 0x59f111f1b605d019; 0x923f82a4af194f9b; 0xab1c5ed5da6d8118;
   0xd807aa98a3030242; 0x12835b0145706fbe; 0x243185be4ee4b28c; 0x550c7dc3d5ffb4e2;
   0x72be5d74f27b896f; 0x80deb1fe3b1696b1; 0x9bdc06a725c71235; 0xc19bf174cf692694;
   0xe49b69c19ef14ad2; 0xefbe4786384f25e3; 0x0fc19dc68b8cd5b5; 0x240ca1cc77ac9c65;
   0x2de92c6f592b0275; 0x4a7484aa6ea6e483; 0x5cb0a9dcbd41fbd4; 0x76f988da831153b5;
   0x983e5152ee66dfab; 0xa831c66d2db43210; 0xb00327c898fb213f; 0xbf597fc7beef0ee4;
   0xc6e00bf33da88fc2; 0xd5a79147930aa725; 0x06ca6351e003826f; 0x142929670a0e6e70;
   0x27b70a8546d22ffc; 0x2e1b21385c26c926; 0x4d2c6dfc5ac42aed; 0x53380d139d95b3df;
   0x650a73548baf63de; 0x766a0abb3c77b2a8; 0x81c2c92e47edaee6; 0x92722c851482353b;
   0xa2bfe8a14cf10364; 0xa81a664bbc423001; 0xc24b8b70d0f89791; 0xc76c51a30654be30;
   0xd192e819d6ef5218; 0xd69906245565a910; 0xf40e35855771202a; 0x106aa07032bbd1b8;
   0x19a4c116b8d2d0c8; 0x1e376c085141ab53; 0x2748774cdf8eeb99; 0x34b0bcb5e19b48a8;
   0x391c0cb3c5c95a63; 0x4ed8aa4ae3418acb; 0x5b9cca4f7763e373; 0x682e6ff3d6b2b8a3;
   0x748f82ee5defb2fc; 0x78a5636f43172f60; 0x84c87814a1f0ab72; 0x8cc702081a6439ec;
   0x90befffa23631e28; 0xa4506cebde82bde9; 0xbef9a3f7b2c67915; 0xc67178f2e372532b;
   0xca273eceea26619c; 0xd186b8c721c0c207; 0xeada7dd6cde0eb1e; 0xf57d4f7fee6ed178;
   0x06f067aa72176fba; 0x0a637dc5a2c898a6; 0x113f9804bef90dae; 0x1b710b35131c471b;
   0x28db77f523047d84; 0x32caab7b40c72493; 0x3c9ebe0a15c9bebc; 0x431d67c49c100d4c;
   0x4cc5d4becb3e42b6; 0x597f299cfc657e2a; 0x5fcb6fab3ad6faec; 0x6c44198c4a475817].

Definition compress (st : Sha512.words) (chunk : bytes) : Sha512.words :=
  let '(h0, h1, h2, h3, h4, h5, h6, h7) := st in
  let '(a, b, c, d, e, f, g, h) := foldl step st (zip constants (schedule mix 64 (block_words 8 chunk))) in
  (u64 (a + h0), u64 (b + h1), u64 (c + h2), u64 (d + h3), u64 (e + h4), u64 (f + h5), u64 (g + h6), u64 (h + h7)).

Definition sha512 (m : bytes) : bytes :=
  let p := fips_pad 128 16 m in
  let '(h0, h1, h2, h3, h4, h5, h6, h7) := absorb 128 compress (length p / 128)
     (0x6a09e667f3bcc908, 0xbb67ae8584caa73b, 0x3c6ef372fe94f82b, 0xa54ff53a5f1d36f1,
      0x510e527fade682d1, 0x9b05688c2b3e6c1f, 0x1f83d9abfb41bd6b, 0x5be0cd19137e2179) p in
  be_bytes 8 h0 ++ be_bytes 8 h1 ++ be_bytes 8 h2 ++ be_bytes 8 h3 ++
  be_bytes 8 h4 ++ be_bytes 8 h5 ++ be_bytes 8 h6 ++ be_bytes 8 h7.

End Fips512.

(** ** Words *)

Section with_port.
Context `{Port}.

Lemma betoh_load n l : length l = n -> betoh n (mem_load l) = be_val l.
Proof.
  intros Hl. unfold betoh, mem_load, mem_store, be_val. destruct kLittleEndian.
  - by rewrite <- Hl, le_bytes_le_val.
  - rewrite rev_involutive. f_equal. rewrite <- Hl, <- length_rev. apply le_bytes_le_val.
Qed.

Lemma ReadBE_val n p : (n <= length p)%nat -> ReadBE n p = Some (be_val (take n p)).
Proof. intros Hl. unfold ReadBE. rewrite decide_True by done. rewrite betoh_load; [done|]. rewrite length_take. lia. Qed.

Lemma store_betoh n x : mem_store n (betoh n x) = be_bytes n x.
Proof.
  unfold betoh, mem_store, be_bytes. destruct kLittleEndian.
  - rewrite <- (length_le_bytes n x) at 1. rewrite <- length_rev. apply le_bytes_le_val.
  - rewrite rev_involutive. f_equal. rewrite <- (length_le_bytes n x) at 1. apply le_bytes_le_val.
Qed.
Lemma WriteBE32_bytes x : WriteBE32 x = be_bytes 4 x.
Proof. apply store_betoh. Qed.
Lemma WriteBE64_bytes x : WriteBE64 x = be_bytes 8 x.
Proof. apply store_betoh. Qed.

(** The sixteen reads of a block. *)
Lemma read_words n chunk i : (16 * n <= length chunk)%nat -> (i < 16)%nat ->
  ReadBE n (drop (n * i) chunk) = Some (be_val (take n (drop (n * i) chunk))).
Proof. intros Hl Hi. apply ReadBE_val. rewrite length_drop. nia. Qed.
End with_port.

Lemma length_be_bytes n v : length (be_bytes n v) = n.
Proof. unfold be_bytes. by rewrite length_rev, length_le_bytes. Qed.

Lemma block_words_take n chunk : block_words n (take (16 * n) chunk) = block_words n chunk.
Proof.
  unfold block_words. apply map_ext_in. intros i Hi. apply in_seq in Hi.
  rewrite skipn_firstn_comm, take_take. pose proof (Nat.mul_le_mono_l (i + 1) 16 n ltac:(lia)). rewrite (Nat.mul_comm 16 n). rewrite Nat.min_l; [done|]. rewrite Nat.mul_add_distr_l, Nat.mul_1_r in *. lia.
Qed.

(** ** Rounds *)

Lemma ch_spec x y z : z .^ (x .& (y .^ z)) = Fips1.Ch x y z.
Proof. unfold Fips1.Ch. apply Z.bits_inj'. intros i Hi. rewrite !Z.lxor_spec, !Z.land_spec, Z.lxor_spec, Z.lnot_spec by done. btauto. Qed.
Lemma maj_spec x y z : (x .& y) .| (z .& (x .| y)) = Fips1.Maj x y z.
Proof. unfold Fips1.Maj. apply Z.bits_inj'. intros i Hi. rewrite !Z.lxor_spec, !Z.lor_spec, !Z.land_spec, Z.lor_spec. btauto. Qed.

(** Sums of words: only the last truncation counts. *)
Lemma wrap_add_l w a b : wrap w (wrap w a + b) = wrap w (a + b).
Proof. unfold wrap. apply Zplus_mod_idemp_l. Qed.
Ltac wrap_sum :=
  repeat match goal with
  | |- context [wrap ?w (wrap ?w ?x + ?b)] =>
      lazymatch x with context [wrap w (_ + _)] => fail | _ => rewrite (wrap_add_l w x b) end
  | |- context [wrap ?w (?b + wrap ?w ?x)] =>
      lazymatch x with context [wrap w (_ + _)] => fail | _ => rewrite (wrap_add_wrap w b x) end
  end; f_equal; lia.

(** *** Local variables *)

Lemma v_set_eq i x l : (i < length (vars l))%nat -> v (set_v i x l) i = x.
Proof. intros Hi. unfold v, set_v. simpl. apply nth_lookup_Some. by apply list_lookup_insert_eq. Qed.
Lemma v_set_ne i j x l : i <> j -> v (set_v i x l) j = v l j.
Proof. intros Hi. unfold v, set_v. simpl. rewrite !nth_lookup. by rewrite list_lookup_insert_ne. Qed.
Lemma w_set_eq i x l : (i < length (ws l))%nat -> w (set_w i x l) i = x.
Proof. intros Hi. unfold w, set_w. simpl. apply nth_lookup_Some. by apply list_lookup_insert_eq. Qed.
Lemma w_set_ne i j x l : i <> j -> w (set_w i x l) j = w l j.
Proof. intros Hi. unfold w, set_w. simpl. rewrite !nth_lookup. by rewrite list_lookup_insert_ne. Qed.

(** The rounds as a function of their number. *)
Lemma run_map_seq (P : nat -> locals -> Prop) (r : nat -> round) n i l :
  P i l -> (forall j l, (i <= j < i + n)%nat -> P j l -> exists l', r j l = Some l' /\ P (S j) l') ->
  exists l', run (map r (seq i n)) l = Some l' /\ P (i + n)%nat l'.
Proof.
  revert i l. induction n as [|n IH]; intros i l HP Hr; simpl.
  { exists l. by rewrite Nat.add_0_r. }
  destruct (Hr i l) as (l1 & -> & H1); [lia|done|]. simpl.
  destruct (IH (S i) l1) as (l2 & E & H2); [done|intros j l' Hj; apply Hr; lia|].
  exists l2. split; [done|]. by rewrite <- Nat.add_succ_comm.
Qed.

(** The place of the [j]th working variable of the standard in round [i]: the code rotates
    the names and not the values. *)
Definition place (n j i : nat) : nat := ((j + (n - 1) * i) mod n)%nat.

Lemma place_lt n j i : (0 < n)%nat -> (place n j i < n)%nat.
Proof. intros Hn. unfold place. apply Nat.mod_upper_bound. lia. Qed.
Lemma place_0 n j : (j < n)%nat -> place n j 0 = j.
Proof. intros Hj. unfold place. rewrite Nat.mul_0_r, Nat.add_0_r. by apply Nat.mod_small. Qed.
Lemma place_shift n j i : (0 < n)%nat -> place n (S j) (S i) = place n j i.
Proof.
  intros Hn. unfold place. replace (S j + (n - 1) * S i)%nat with (j + (n - 1) * i + 1 * n)%nat by nia.
  by rewrite Nat.Div0.mod_add.
Qed.
Lemma place_first n i : (0 < n)%nat -> place n 0 (S i) = place n (n - 1) i.
Proof. intros Hn. unfold place. f_equal. lia. Qed.
Lemma place_inj n j k i : (j < n)%nat -> (k < n)%nat -> place n j i = place n k i -> j = k.
Proof.
  intros Hj Hk. unfold place. set (x := ((n - 1) * i)%nat).
  rewrite (Nat.Div0.add_mod j x n), (Nat.Div0.add_mod k x n), (Nat.mod_small j), (Nat.mod_small k) by lia.
  pose proof (Nat.mod_upper_bound x n ltac:(lia)) as Hx. revert Hx. generalize (x mod n)%nat. intros y Hy E.
  assert (forall u, (u < 2 * n)%nat -> (u mod n = if decide (u < n)%nat then u else u - n)%nat) as Hm.
  { intros u Hu. case_decide; [by apply Nat.mod_small|]. symmetry. apply (Nat.mod_unique _ _ 1); lia. }
  rewrite !Hm in E by lia. repeat case_decide; lia.
Qed.

(** *** The message schedule *)

Lemma length_extend mix k win : length (extend mix k win) = k.
Proof. revert win. induction k as [|k IH]; intros win; simpl; [done|]. by rewrite IH. Qed.

Lemma schedule_mix mix k win j d : length win = 16%nat -> (j < k)%nat ->
  nth (16 + j) (schedule mix k win) d = mix (take 16 (drop j (schedule mix k win))).
Proof.
  revert win j. induction k as [|k IH]; intros win j Hw Hj; [lia|].
  unfold schedule. cbn [extend]. destruct win as [|x win]; [done|]. simpl in Hw.
  set (y := mix (x :: win)). cbn [tail].
  replace ((x :: win) ++ y :: extend mix k (win ++ [y])) with (x :: schedule mix k (win ++ [y]))
    by (unfold schedule; by rewrite <- (app_assoc win)).
  destruct j as [|j].
  - rewrite drop_0. unfold schedule. rewrite <- app_assoc. cbn [app].
    replace (16 + 0)%nat with (S (length win)) by lia. cbn [nth].
    rewrite nth_middle. replace 16%nat with (S (length win)) by lia. rewrite firstn_cons.
    by rewrite take_app_length.
  - rewrite Nat.add_succ_r. cbn [nth drop]. apply IH; [rewrite length_app; simpl; lia|lia].
Qed.

(** [t]th word of the schedule. *)
Section words.
Context (sched : list Z) (last : nat).
Let W (t : nat) : Z := nth t sched 0.

(** Before round [i] the array holds the last sixteen words, in a ring. *)
Definition words_ok (i : nat) (l : locals) : Prop :=
  length (ws l) = 16%nat /\ forall t, (t < i)%nat -> (i <= t + 16)%nat -> (t < last)%nat -> w l (t mod 16) = W t.

Lemma words_get i l j : words_ok i l -> (16 <= i)%nat -> (j < 16)%nat -> (i - 16 + j < last)%nat ->
  w l ((i + j) mod 16) = W (i - 16 + j).
Proof.
  intros [_ H] Hi Hj Hl. rewrite <- H by lia. f_equal.
  replace (i + j)%nat with (i - 16 + j + 1 * 16)%nat by lia. by rewrite Nat.Div0.mod_add.
Qed.
Lemma words_set i l : words_ok i l -> words_ok (S i) (set_w (i mod 16) (W i) l).
Proof.
  intros [Hl H]. split; [simpl; by rewrite length_insert|]. intros t H1 H2 H3.
  pose proof (Nat.mod_upper_bound i 16 ltac:(lia)).
  destruct (decide (t = i)) as [->|Hne]; [apply w_set_eq; lia|]. rewrite w_set_ne; [apply H; lia|].
  intros E. pose proof (Nat.div_mod_eq t 16). pose proof (Nat.div_mod_eq i 16). lia.
Qed.
Lemma words_keep i l : words_ok i l -> (last <= i)%nat -> words_ok (S i) l.
Proof. intros [Hl H] Hi. split; [done|]. intros t H1 H2 H3. apply H; lia. Qed.

(** The word of round [i]: loaded, computed and assigned, or only computed. *)
Definition word_of (read : nat -> word_arg) (e : nat -> locals -> Z) (i : nat) : word_arg :=
  if (i <? 16)%nat then read i else if (i <? last)%nat then assign (i mod 16) (e i) else value (e i).

Lemma word_of_spec read e i l : words_ok i l ->
  ((i < 16)%nat -> read i l = Some (W i, set_w (i mod 16) (W i) l)) ->
  ((16 <= i)%nat -> e i l = W i) ->
  exists l', word_of read e i l = Some (W i, l') /\ vars l' = vars l /\ words_ok (S i) l'.
Proof.
  intros Hok Hr He. unfold word_of, assign, value. destruct (Nat.ltb_spec i 16).
  - exists (set_w (i mod 16) (W i) l). split; [by apply Hr|]. split; [done|]. by apply words_set.
  - destruct (Nat.ltb_spec i last).
    + exists (set_w (i mod 16) (W i) l). split; [by rewrite He|]. split; [done|]. by apply words_set.
    + exists l. split; [by rewrite He|]. split; [done|]. by apply words_keep.
Qed.
Lemma words_ok_vars i l vs : words_ok i l -> words_ok i {| vars := vs; ws := ws l |}.
Proof. done. Qed.
End words.


(** ** The compression functions *)

(** The sixteen words of a block as the code reads them. *)
Lemma nth_block_words n chunk i : (i < 16)%nat ->
  nth i (block_words n chunk) 0 = be_val (take n (drop (n * i) chunk)).
Proof.
  intros Hi. unfold block_words.
  rewrite (nth_indep _ 0 (be_val (take n (drop (n * 0) chunk)))) by (by rewrite length_map, length_seq).
  rewrite (map_nth (fun i => be_val (take n (drop (n * i) chunk)))). by rewrite seq_nth.
Qed.
Lemma length_block_words n chunk : length (block_words n chunk) = 16%nat.
Proof. unfold block_words. by rewrite length_map. Qed.

Lemma load_spec `{Port} mix n chunk i l : (16 * n <= length chunk)%nat -> (i < 16)%nat ->
  load n i (drop (n * i) chunk) l =
  let x := nth i (schedule mix 64 (block_words n chunk)) 0 in Some (x, set_w (i mod 16) x l).
Proof.
  intros Hl Hi. cbv zeta. unfold schedule. rewrite app_nth1 by (rewrite length_block_words; lia).
  rewrite nth_block_words by lia. unfold load. rewrite read_words by done. by rewrite (Nat.mod_small i 16).
Qed.

(** The sixteen words before word [i]. *)
Lemma take_drop_nth {A} n j (s : list A) d : (j + n <= length s)%nat ->
  take n (drop j s) = map (fun k => nth (j + k) s d) (seq 0 n).
Proof.
  intros Hl. apply list_eq. intros k. rewrite list_lookup_fmap. destruct (decide (k < n)%nat) as [Hk|Hk].
  - rewrite lookup_take_lt, lookup_drop, lookup_seq_lt by done. simpl.
    destruct (lookup_lt_is_Some_2 s (j + k)) as [x Hx]; [lia|]. rewrite Hx. f_equal. symmetry. by apply nth_lookup_Some.
  - rewrite lookup_take_ge by lia. rewrite lookup_seq_ge by lia. done.
Qed.

Lemma length_schedule mix k win : length (schedule mix k win) = (length win + k)%nat.
Proof. unfold schedule. by rewrite length_app, length_extend. Qed.

Lemma schedule_before mix win i d : length win = 16%nat -> (16 <= i < 80)%nat ->
  nth i (schedule mix 64 win) d =
  mix (map (fun j => nth (i - 16 + j) (schedule mix 64 win) d) (seq 0 16)).
Proof.
  intros Hw Hi. rewrite <- take_drop_nth by (rewrite length_schedule; lia).
  rewrite <- (schedule_mix mix 64 win (i - 16) d) by lia. f_equal. lia.
Qed.
Global Opaque schedule.

(** The working variables of the standard are those of the code, renamed. *)
Definition vars_ok (n i : nat) (ref : list Z) (l : locals) : Prop :=
  length (vars l) = n /\ forall j, (j < n)%nat -> v l (place n j i) = nth j ref 0.

Lemma vars_get n i ref l j : vars_ok n i ref l -> (j < n)%nat -> v l (place n j i) = nth j ref 0.
Proof. intros [_ H]. apply H. Qed.

(** After a multiple of [n] rounds each variable is back at its place. *)
Lemma vars_get_mult n q ref l j : vars_ok n (n * q) ref l -> (j < n)%nat -> v l j = nth j ref 0.
Proof.
  intros Hv Hj. rewrite <- (vars_get _ _ _ _ _ Hv Hj). f_equal. unfold place.
  replace (j + (n - 1) * (n * q))%nat with (j + (n - 1) * q * n)%nat by lia.
  rewrite Nat.Div0.mod_add. symmetry. by apply Nat.mod_small.
Qed.

(** A round gives the last variable and another one new values, and rotates the names. *)
Lemma vars_step n i ref l l' x y j : vars_ok n i ref l -> length ref = n -> (j < n - 1)%nat ->
  (forall k z, (k < n)%nat -> (k = j \/ k = n - 1 \/ z = v l (place n k i))%nat ->
     (k = j -> z = x) -> (k = n - 1 -> z = y)%nat -> v l' (place n k i) = z) ->
  length (vars l') = n -> vars_ok n (S i) (y :: <[j := x]> (take (n - 1) ref)) l'.
Proof.
  intros [Hl H] Hr Hj Hs Hl'. split; [done|]. intros [|k] Hk.
  - rewrite place_first by lia. apply Hs; [lia|lia|lia|done].
  - rewrite place_shift by lia. cbn [nth]. apply Hs; [lia| |intros ->|lia].
    + destruct (decide (k = j)) as [->|Hne]; [by left|]. right; right.
      rewrite nth_lookup, list_lookup_insert_ne, lookup_take_lt, <- nth_lookup, H by lia. done.
    + rewrite nth_lookup, list_lookup_insert_eq; [done|]. rewrite length_take. lia.
Qed.

Lemma v_vars l l' i : vars l' = vars l -> v l' i = v l i.
Proof. unfold v. by intros ->. Qed.

Section set_two.
Context (n i j : nat) (ref : list Z) (l l1 : locals) (x y : Z).
Hypothesis (Hok : vars_ok n i ref l) (Hr : length ref = n) (Hj : (j < n - 1)%nat) (Hv : vars l1 = vars l).

Lemma vars_set_last_first :
  vars_ok n (S i) (y :: <[j := x]> (take (n - 1) ref)) (set_v (place n j i) x (set_v (place n (n - 1) i) y l1)).
Proof.
  pose proof Hok as [Hl H]. eapply vars_step; eauto; [|simpl; by rewrite !length_insert, Hv].
  intros k z Hk Hd Hx Hy. destruct (decide (k = j)) as [->|Hkj].
  { rewrite v_set_eq; [by rewrite Hx|]. simpl. rewrite length_insert, Hv, Hl. apply place_lt. lia. }
  rewrite v_set_ne by (intros E; apply place_inj in E; lia). destruct (decide (k = n - 1)%nat) as [->|Hkn].
  { rewrite v_set_eq; [by rewrite Hy|]. rewrite Hv, Hl. apply place_lt. lia. }
  rewrite v_set_ne by (intros E; apply place_inj in E; lia). rewrite (v_vars l l1) by done.
  by destruct Hd as [?|[?| ->]].
Qed.
Lemma vars_set_last_last :
  vars_ok n (S i) (y :: <[j := x]> (take (n - 1) ref)) (set_v (place n (n - 1) i) y (set_v (place n j i) x l1)).
Proof.
  replace (set_v _ y _) with (set_v (place n j i) x (set_v (place n (n - 1) i) y l1)); [apply vars_set_last_first|].
  unfold set_v. simpl. f_equal. apply list_insert_insert_ne. intros E. apply place_inj in E; lia.
Qed.
End set_two.

Lemma zip_map {A B C} (f : A -> B) (g : A -> C) l : zip (map f l) (map g l) = map (fun x => (f x, g x)) l.
Proof. induction l as [|x l IH]; [done|]. simpl. by rewrite IH. Qed.
Lemma zip_seq {A} (f : nat -> A) mix win : length win = 16%nat ->
  zip (map f (seq 0 80)) (schedule mix 64 win) = map (fun j => (f j, nth j (schedule mix 64 win) 0)) (seq 0 80).
Proof.
  intros Hw. rewrite <- zip_map. f_equal.
  rewrite <- (take_drop_nth 80 0) by (rewrite length_schedule; lia).
  rewrite drop_0, take_ge by (rewrite length_schedule; lia). done.
Qed.

(** *** SHA-1 *)

Module Proof1.
Import Sha1.

Definition fn (i : nat) : Z -> Z -> Z -> Z := nth (i / 20) [f1; f2; f3; f2] f1.
Definition kn (i : nat) : Z := nth (i / 20) [k1; k2; k3; k4] k1.
Definition word_expr (i : nat) (l : locals) : Z :=
  left (w l (i mod 16) .^ w l ((i + 13) mod 16) .^ w l ((i + 8) mod 16) .^ w l ((i + 2) mod 16)).
Definition nth_round `{Port} (chunk : bytes) (i : nat) : round :=
  Round (place 5 0 i) (place 5 1 i) (place 5 2 i) (place 5 3 i) (place 5 4 i)
    (on3 (fn i) (place 5 1 i) (place 5 2 i) (place 5 3 i)) (kn i)
    (word_of 77 (fun i => load32 i (drop (4 * i) chunk)) word_expr i).

Lemma rounds_nth `{Port} chunk : rounds chunk = map (nth_round chunk) (seq 0 80).
Proof. reflexivity. Qed.

Lemma functions_nth : Fips1.functions = map (fun i => (nth (i / 20) [Fips1.Ch; Fips1.Parity; Fips1.Maj; Fips1.Parity] Fips1.Ch, kn i)) (seq 0 80).
Proof. reflexivity. Qed.

Lemma fn_spec i x y z : (i < 80)%nat -> fn i x y z = nth (i / 20) [Fips1.Ch; Fips1.Parity; Fips1.Maj; Fips1.Parity] Fips1.Ch x y z.
Proof.
  intros Hi. unfold fn. assert (i / 20 < 4)%nat as Hq by (apply Nat.Div0.div_lt_upper_bound; lia).
  destruct (i / 20)%nat as [|[|[|[|?]]]]; [apply ch_spec|done|apply maj_spec|done|lia].
Qed.

Lemma xor_rotate a b c d : a .^ b .^ c .^ d = b .^ c .^ d .^ a.
Proof. apply Z.bits_inj'. intros m Hm. rewrite !Z.lxor_spec. btauto. Qed.

Definition st_list (st : words) : list Z := let '(a, b, c, d, e) := st in [a; b; c; d; e].

Section compress.
Context `{Port} (st : words) (chunk : bytes) (Hl : (64 <= length chunk)%nat).
Let sched : list Z := schedule Fips1.mix 64 (block_words 4 chunk).
Definition inputs (i : nat) : (Z -> Z -> Z -> Z) * Z * Z :=
  (nth (i / 20) [Fips1.Ch; Fips1.Parity; Fips1.Maj; Fips1.Parity] Fips1.Ch, kn i, nth i sched 0).
Definition ref (i : nat) : words := foldl Fips1.step st (map inputs (seq 0 i)).
Definition inv (i : nat) (l : locals) : Prop := words_ok sched 77 i l /\ vars_ok 5 i (st_list (ref i)) l.

Lemma word_expr_spec i l : words_ok sched 77 i l -> (16 <= i < 80)%nat -> word_expr i l = nth i sched 0.
Proof.
  intros Hw Hi. unfold sched at 1. rewrite schedule_before by (rewrite ?length_block_words; lia). fold sched.
  unfold Fips1.mix, nth_word. cbn [nth seq map]. unfold word_expr, left, rotl.
  replace (i mod 16)%nat with ((i + 0) mod 16)%nat by (f_equal; lia).
  rewrite !(words_get sched 77) by (done || lia).
  by rewrite (xor_rotate (nth (i - 16 + 0) sched 0)).
Qed.

Lemma round_spec i l : (i < 80)%nat -> inv i l -> exists l', nth_round chunk i l = Some l' /\ inv (S i) l'.
Proof.
  intros Hi [Hw Hv]. unfold nth_round, Round.
  destruct (word_of_spec sched 77 (fun i => load32 i (drop (4 * i) chunk)) word_expr i l Hw) as (l1 & -> & Hv1 & Hw1).
  { intros Hlt. apply load_spec; lia. }
  { intros Hge. apply word_expr_spec; [done|lia]. }
  eexists. split; [reflexivity|]. split; [by apply words_ok_vars, words_ok_vars|].
  unfold ref. rewrite seq_S, map_app, Nat.add_0_l. cbn [map]. rewrite foldl_snoc. fold (ref i). unfold on3.
  rewrite (v_set_ne (place 5 4 i)) by (intros E; apply place_inj in E; lia).
  rewrite !(v_vars l l1 _ Hv1), !(vars_get _ _ _ _ _ Hv) by lia.
  pose proof (fun x y => vars_set_last_first 5 i 1 _ l l1 x y Hv) as Hset.
  destruct (ref i) as [[[[A B] C] D] E]. cbn [st_list nth] in *. eapply (eq_ind_r (fun L => vars_ok 5 (S i) L _)); [apply Hset; done || lia|].
  cbn [take Nat.sub insert list_insert]. unfold inputs. cbn [Fips1.step]. rewrite <- fn_spec by done. unfold rotl. cbn [st_list]. change (32 - 5) with 27. change (32 - 30) with 2. f_equal. wrap_sum.
Qed.

Lemma transform : Transform st chunk = Some (Fips1.compress st (take 64 chunk)).
Proof.
  destruct (run_map_seq inv (nth_round chunk) 80 0 (start (st_list st))) as (l & E & _ & Hv).
  { split; [split; [done|lia]|]. split; [by destruct st as [[[[]]]]|]. intros j Hj. rewrite place_0 by done.
    unfold v, ref. simpl. done. }
  { intros i l Hi. apply round_spec. lia. }
  unfold Transform, Fips1.compress. change (take 64 chunk) with (take (16 * 4) chunk). rewrite block_words_take. fold sched.
  rewrite rounds_nth.
  rewrite functions_nth. unfold sched. rewrite zip_seq by apply length_block_words. fold sched. fold inputs.
  fold (ref 80). rewrite Nat.add_0_l in Hv. destruct (ref 80) as [[[[A B] C] D] E'] eqn:Er.
  destruct st as [[[[s0 s1] s2] s3] s4]. cbn [st_list] in E. rewrite E. cbn [mbind option_bind].
  rewrite (vars_get_mult 5 16 _ l 0 Hv), (vars_get_mult 5 16 _ l 1 Hv), (vars_get_mult 5 16 _ l 2 Hv),
    (vars_get_mult 5 16 _ l 3 Hv), (vars_get_mult 5 16 _ l 4 Hv) by lia. cbn [nth st_list].
  by rewrite (Z.add_comm s0), (Z.add_comm s1), (Z.add_comm s2), (Z.add_comm s3), (Z.add_comm s4).
Qed.
End compress.
End Proof1.

(** *** SHA-512 *)

Module Proof512.
Import Sha512.

Definition kn (i : nat) : Z := nth i Fips512.constants 0.
Definition word_expr (i : nat) (l : locals) : Z :=
  u64 (w l (i mod 16) + u64 (u64 (sigma1 (w l ((i + 14) mod 16)) + w l ((i + 9) mod 16)) + sigma0 (w l ((i + 1) mod 16)))).
(** The last two words are sums written in another order. *)
Definition word_last (i : nat) (l : locals) : Z :=
  u64 (u64 (u64 (w l (i mod 16) + sigma1 (w l ((i + 14) mod 16))) + w l ((i + 9) mod 16)) + sigma0 (w l ((i + 1) mod 16))).
Definition nth_round `{Port} (chunk : bytes) (i : nat) : round :=
  Round (place 8 0 i) (place 8 1 i) (place 8 2 i) (place 8 3 i) (place 8 4 i) (place 8 5 i) (place 8 6 i) (place 8 7 i)
    (kn i) (word_of 78 (fun i => load64 i (drop (8 * i) chunk)) (if (i <? 78)%nat then word_expr else word_last) i).

Lemma rounds_nth512 `{Port} chunk : rounds chunk = map (nth_round chunk) (seq 0 80).
Proof. reflexivity. Qed.

Lemma constants_nth : Fips512.constants = map kn (seq 0 80).
Proof. reflexivity. Qed.

Lemma word_last_expr i l : word_last i l = word_expr i l.
Proof. unfold word_last, word_expr. wrap_sum. Qed.

Definition st_list (st : words) : list Z := let '(a, b, c, d, e, f, g, h) := st in [a; b; c; d; e; f; g; h].

Section compress.
Context `{Port} (st : words) (chunk : bytes) (Hl : (128 <= length chunk)%nat).
Let sched : list Z := schedule Fips512.mix 64 (block_words 8 chunk).
Definition inputs (i : nat) : Z * Z := (kn i, nth i sched 0).
Definition ref (i : nat) : words := foldl Fips512.step st (map inputs (seq 0 i)).
Definition inv (i : nat) (l : locals) : Prop := words_ok sched 78 i l /\ vars_ok 8 i (st_list (ref i)) l.

Lemma word_expr_spec512 i l : words_ok sched 78 i l -> (16 <= i < 80)%nat -> word_expr i l = nth i sched 0.
Proof.
  intros Hw Hi. unfold sched at 1. rewrite schedule_before by (rewrite ?length_block_words; lia). fold sched.
  unfold Fips512.mix, nth_word. cbn [nth seq map]. unfold word_expr.
  replace (i mod 16)%nat with ((i + 0) mod 16)%nat by (f_equal; lia).
  rewrite !(words_get sched 78) by (done || lia).
  change (sigma1 ?x) with (Fips512.sig1 x). change (sigma0 ?x) with (Fips512.sig0 x). wrap_sum.
Qed.

Lemma round_spec512 i l : (i < 80)%nat -> inv i l -> exists l', nth_round chunk i l = Some l' /\ inv (S i) l'.
Proof.
  intros Hi [Hw Hv]. unfold nth_round, Round.
  destruct (word_of_spec sched 78 (fun i => load64 i (drop (8 * i) chunk))
              (if (i <? 78)%nat then word_expr else word_last) i l Hw) as (l1 & -> & Hv1 & Hw1).
  { intros Hlt. apply load_spec; lia. }
  { intros Hge. destruct (i <? 78)%nat; [|rewrite word_last_expr]; (apply word_expr_spec512; [done|lia]). }
  eexists. split; [reflexivity|]. split; [by apply words_ok_vars, words_ok_vars|].
  unfold ref. rewrite seq_S, map_app, Nat.add_0_l. cbn [map]. rewrite foldl_snoc. fold (ref i).
  rewrite !(v_vars l l1 _ Hv1), !(vars_get _ _ _ _ _ Hv) by lia.
  pose proof (fun x y => vars_set_last_last 8 i 3 _ l l1 x y Hv) as Hset.
  destruct (ref i) as [[[[[[[A B] C] D] E] F] G] J]. cbn [st_list nth] in *.
  eapply (eq_ind_r (fun L => vars_ok 8 (S i) L _)); [apply Hset; done || lia|].
  cbn [take Nat.sub insert list_insert]. unfold inputs. cbn [Fips512.step st_list]. unfold Ch, Maj. rewrite ch_spec, maj_spec.
  change (Sigma1 E) with (Fips512.Sum1 E). change (Sigma0 A) with (Fips512.Sum0 A).
  replace (u64 (u64 (u64 (u64 (J + Fips512.Sum1 E) + Fips1.Ch E F G) + kn i) + nth i sched 0))
    with (u64 (J + Fips512.Sum1 E + Fips1.Ch E F G + kn i + nth i sched 0)) by wrap_sum. done.
Qed.

Lemma transform512 : Transform st chunk = Some (Fips512.compress st (take 128 chunk)).
Proof.
  destruct (run_map_seq inv (nth_round chunk) 80 0 (start (st_list st))) as (l & E & _ & Hv).
  { split; [split; [done|lia]|]. split; [by destruct st as [[[[[[[]]]]]]]|]. intros j Hj. rewrite place_0 by done.
    unfold v, ref. simpl. done. }
  { intros i l Hi. apply round_spec512. lia. }
  unfold Transform, Fips512.compress. change (take 128 chunk) with (take (16 * 8) chunk). rewrite block_words_take. fold sched.
  rewrite rounds_nth512, constants_nth. unfold sched. rewrite zip_seq by apply length_block_words. fold sched. fold inputs.
  fold (ref 80). rewrite Nat.add_0_l in Hv. destruct (ref 80) as [[[[[[[A B] C] D] E'] F] G] J] eqn:Er.
  destruct st as [[[[[[[s0 s1] s2] s3] s4] s5] s6] s7]. cbn [st_list] in E. rewrite E. cbn [mbind option_bind].
  pose proof (fun j => vars_get_mult 8 10 _ l j Hv) as Hg.
  rewrite (Hg 0%nat), (Hg 1%nat), (Hg 2%nat), (Hg 3%nat), (Hg 4%nat), (Hg 5%nat), (Hg 6%nat), (Hg 7%nat) by lia.
  cbn [nth st_list].
  by rewrite (Z.add_comm s0), (Z.add_comm s1), (Z.add_comm s2), (Z.add_comm s3), (Z.add_comm s4),
    (Z.add_comm s5), (Z.add_comm s6), (Z.add_comm s7).
Qed.
End compress.
End Proof512.

(** ** Buffering *)

Lemma absorb_app {words} block (compress : words -> bytes -> words) j k st l1 l2 :
  length l1 = (j * block)%nat ->
  absorb block compress (j + k) st (l1 ++ l2) = absorb block compress k (absorb block compress j st l1) l2.
Proof.
  revert st l1. induction j as [|j IH]; intros st l1 Hl; simpl in *.
  { by destruct l1. }
  rewrite take_app_le, drop_app_le by lia. apply IH. rewrite length_drop. lia.
Qed.

Lemma copy_into_spec buf off l : (0 <= off) -> off + Z.of_nat (length l) <= Z.of_nat (length buf) ->
  exists buf', copy_into buf off l = Some buf' /\ length buf' = length buf /\
    take (Z.to_nat off + length l) buf' = take (Z.to_nat off) buf ++ l.
Proof.
  intros Ho Hl. unfold copy_into. rewrite (proj2 (Z.leb_le _ _)) by done. eexists. split; [done|]. split.
  - rewrite !length_app, length_take, length_drop. lia.
  - rewrite app_assoc, take_app_length'; [done|]. rewrite length_app, length_take. lia.
Qed.

Lemma chunk_of_take n data : 0 <= n <= Z.of_nat (length data) -> chunk_of n data = Some (take (Z.to_nat n) data).
Proof. intros Hn. unfold chunk_of. by rewrite (proj2 (Z.leb_le _ _)) by lia. Qed.

Section hasher.
Context {words : Type} (block : nat) (Transform : words -> bytes -> option words)
  (compress : words -> bytes -> words) (init : words).
Hypothesis (Hblock : block = 64%nat \/ block = 128%nat).
Hypothesis (HT : forall st chunk, (block <= length chunk)%nat -> Transform st chunk = Some (compress st (take block chunk))).
Let B := Z.of_nat block.

(** The hasher has been given [m]: its full blocks are in the state, the rest in [buf]. *)
Definition given (m : bytes) (h : hasher words) : Prop :=
  exists full rest k, m = full ++ rest /\ length full = (k * block)%nat /\ (length rest < block)%nat /\
    length (buf h) = block /\ take (length rest) (buf h) = rest /\
    bytes_ h = u64 (Z.of_nat (length m)) /\ s h = absorb block compress k init full.

Lemma mod_block z : u64 z mod B = z mod B.
Proof. unfold wrap, B. apply Z.mod_mod_divide. destruct Hblock as [-> | ->]; [exists (2 ^ 58)|exists (2 ^ 57)]; done. Qed.

(** Between blocks. *)
Definition aligned (full : bytes) (h : hasher words) : Prop :=
  exists k, length full = (k * block)%nat /\ length (buf h) = block /\
    bytes_ h = u64 (Z.of_nat (length full)) /\ s h = absorb block compress k init full.

Lemma aligned_given full h : aligned full h -> aligned full {| s := s h; buf := buf h; bytes_ := u64 (Z.of_nat (length full)) |}.
Proof. intros (k & H1 & H2 & _ & H4). by exists k. Qed.

Lemma aligned_block full chunk buf' k : length full = (k * block)%nat -> length chunk = block -> length buf' = block ->
  aligned (full ++ chunk) {| s := compress (absorb block compress k init full) chunk; buf := buf';
    bytes_ := u64 (Z.of_nat (length full) + B) |}.
Proof.
  intros Hf Hc Hb. exists (k + 1)%nat. rewrite length_app. split_and!; simpl; [lia|done| |].
  - f_equal. unfold B. lia.
  - rewrite absorb_app by done. simpl. by rewrite take_ge by lia.
Qed.

Lemma Write_loop_short fuel data h : (length data < block)%nat -> Write_loop B Transform fuel data h = Some (data, h).
Proof. intros Hd. assert ((Z.of_nat (length data) >=? B) = false) as E by (unfold B; lia). destruct fuel; simpl; by rewrite E. Qed.

Lemma Write_loop_spec fuel full data h : (length data <= fuel)%nat -> aligned full h ->
  exists full' data' h', Write_loop B Transform fuel data h = Some (data', h') /\
    full ++ data = full' ++ data' /\ aligned full' h' /\ (length data' < block)%nat.
Proof.
  revert full data h. induction fuel as [|fuel IH]; intros full data h Hf Ha; simpl;
    (destruct (Z.geb_spec (Z.of_nat (length data)) B) as [Hge|Hlt]; unfold B in *; [|exists full, data, h; split_and!; (done || lia)]).
  { destruct Hblock; lia. }
  rewrite HT by lia. simpl. rewrite Nat2Z.id. destruct Ha as (k & Hk & Hb & Hn & Hs).
  rewrite Hn, Hs. replace (u64 (u64 (Z.of_nat (length full)) + Z.of_nat block)) with (u64 (Z.of_nat (length full) + Z.of_nat block))
    by (symmetry; apply wrap_add_l).
  destruct (IH (full ++ take block data) (drop block data) {| s := compress (absorb block compress k init full) (take block data);
     buf := buf h; bytes_ := u64 (Z.of_nat (length full) + B) |}) as (full' & data' & h' & E & Heq & Ha' & Hd').
  { rewrite length_drop. destruct Hblock; lia. }
  { apply aligned_block; [done|rewrite length_take; lia|done]. }
  exists full', data', h'. split_and!; [done| |done|done]. by rewrite <- Heq, <- app_assoc, take_drop.
Qed.

(** The data that does not fill a block. *)
Lemma Write_rest full rest data h : aligned full {| s := s h; buf := buf h; bytes_ := u64 (Z.of_nat (length full)) |} ->
  bytes_ h = u64 (Z.of_nat (length (full ++ rest))) -> take (length rest) (buf h) = rest ->
  (length rest + length data < block)%nat ->
  exists h', (if Z.of_nat (length data) >? 0 then
      buf' ← copy_into (buf h) (Z.of_nat (length rest)) data;
      Some {| s := s h; buf := buf'; bytes_ := u64 (bytes_ h + Z.of_nat (length data)) |}
    else Some h) = Some h' /\ given (full ++ rest ++ data) h'.
Proof.
  intros (k & Hk & Hb & _ & Hs) Hn Ht Hlt. simpl in *. destruct (Z.gtb_spec (Z.of_nat (length data)) 0) as [Hgt|Hz].
  - destruct (copy_into_spec (buf h) (Z.of_nat (length rest)) data) as (buf' & -> & Hb' & Htk); [lia|lia|]. simpl.
    eexists. split; [done|]. exists full, (rest ++ data), k. simpl.
    rewrite Nat2Z.id in Htk. rewrite length_app. split_and!; try done; [lia|by rewrite Htk, Ht|].
    rewrite Hn, (wrap_add_l 64). f_equal. rewrite !length_app. lia.
  - destruct data; simpl in *; [|lia]. exists h. split; [done|]. rewrite app_nil_r. exists full, rest, k. split_and!; (done || lia).
Qed.

Lemma Write_spec m data h : given m h -> Z.of_nat (length data) < 2 ^ 64 - 128 ->
  exists h', Write B Transform data h = Some h' /\ given (m ++ data) h'.
Proof.
  intros (full & rest & k & -> & Hf & Hr & Hb & Ht & Hn & Hs) Hd. unfold Write.
  assert (bytes_ h mod B = Z.of_nat (length rest)) as ->.
  { rewrite Hn, mod_block, length_app, Hf. unfold B.
    replace (Z.of_nat (k * block + length rest)) with (Z.of_nat (length rest) + Z.of_nat k * Z.of_nat block) by lia.
    rewrite Z_mod_plus_full. apply Z.mod_small. lia. }
  rewrite (wrap_small 64 (_ + _)) by (unfold is_uint; destruct Hblock; lia).
  destruct (negb _ && _) eqn:Ec.
  - to_prop. apply Z.geb_le in H0. unfold B in *.
    rewrite chunk_of_take by lia. cbn [mbind option_bind].
    destruct (copy_into_spec (buf h) (Z.of_nat (length rest)) (take (Z.to_nat (Z.of_nat block - Z.of_nat (length rest))) data))
      as (buf' & -> & Hb' & Htk); [lia|rewrite length_take; lia|]. cbn [mbind option_bind].
    rewrite Nat2Z.id, Ht, length_take in Htk. rewrite take_ge in Htk by lia.
    rewrite HT by lia. cbn [mbind option_bind]. rewrite take_ge by lia. rewrite Hs, Hn, wrap_add_l.
    set (part := take _ data) in *.
    replace (Z.of_nat (length (full ++ rest)) + (Z.of_nat block - Z.of_nat (length rest)))
      with (Z.of_nat (length full) + Z.of_nat block) by (rewrite length_app; lia).
    set (h1 := {| s := _ |}).
    assert (aligned (full ++ buf') h1) as Ha by (apply aligned_block; [done|lia|lia]).
    destruct (Write_loop_spec (length (drop (Z.to_nat (Z.of_nat block - Z.of_nat (length rest))) data)) (full ++ buf')
       (drop (Z.to_nat (Z.of_nat block - Z.of_nat (length rest))) data) h1) as (full' & data' & h' & E1 & Heq & Ha' & Hd'); [done|done|].
    unfold B in E1. rewrite E1.
    cbn [mbind option_bind]. destruct (Write_rest full' [] data' h') as (h2 & E & Hg); [by apply aligned_given| |done|simpl; lia|].
    { destruct Ha' as (k' & _ & _ & E & _). by rewrite app_nil_r. }
    exists h2. split; [exact E|]. simpl in Hg. rewrite <- Heq, Htk in Hg. rewrite <- !app_assoc in *. subst part. by rewrite take_drop in Hg.
  - cbn [mbind option_bind].
    destruct (decide (rest = [])) as [->|Hne].
    + destruct (Write_loop_spec (length data) full data h) as (full' & data' & h' & -> & Heq & Ha' & Hd'); [done| |].
      { exists k. by rewrite app_nil_r in Hn. }
      cbn [mbind option_bind]. destruct (Write_rest full' [] data' h') as (h2 & E & Hg); [by apply aligned_given| |done|simpl; lia|].
      { destruct Ha' as (k' & _ & _ & E & _). by rewrite app_nil_r. }
      exists h2. split; [exact E|]. rewrite app_nil_r. by rewrite Heq.
    + assert (length rest + length data < block)%nat as Hlt.
      { apply andb_false_iff in Ec as [Ec|Ec].
        - apply negb_false_iff, Z.eqb_eq in Ec. by destruct rest.
        - destruct (Z.geb_spec (Z.of_nat (length rest) + Z.of_nat (length data)) B); [done|]. unfold B in *. lia. }
      rewrite Write_loop_short by lia.
      cbn [mbind option_bind]. destruct (Write_rest full rest data h) as (h2 & E & Hg); [by exists k|done|done|done|].
      exists h2. split; [exact E|]. by rewrite <- app_assoc.
Qed.


Lemma given_fresh raw : length raw = block -> given [] {| s := init; buf := raw; bytes_ := 0 |}.
Proof. intros Hb. exists [], [], 0%nat. split_and!; simpl; try done. destruct Hblock; lia. Qed.

Lemma given_buf m h : given m h -> length (buf h) = block.
Proof. by intros (? & ? & ? & _ & _ & _ & Hb & _). Qed.

Lemma Writes_spec m parts h : given m h -> Z.of_nat (length (concat parts)) < 2 ^ 64 - 128 ->
  exists h', foldl (fun o d => o ≫= Write B Transform d) (Some h) parts = Some h' /\ given (m ++ concat parts) h'.
Proof.
  revert m h. induction parts as [|d parts IH]; intros m h Hg Hl; simpl in *.
  { exists h. by rewrite app_nil_r. }
  rewrite length_app in Hl. destruct (Write_spec m d h Hg) as (h1 & -> & H1); [lia|].
  destruct (IH _ _ H1) as (h2 & -> & H2); [lia|]. exists h2. by rewrite app_assoc.
Qed.

Lemma given_full m h : given m h -> (length m mod block = 0)%nat -> s h = absorb block compress (length m / block) init m.
Proof.
  intros (full & rest & k & -> & Hf & Hr & _ & _ & _ & Hs) Hm.
  rewrite length_app, Hf, Nat.add_comm, Nat.Div0.mod_add, Nat.mod_small in Hm by done.
  destruct rest; [|done]. rewrite app_nil_r. rewrite Hs, Hf, Nat.div_mul; [done|destruct Hblock; lia].
Qed.

Lemma Finalize_pad_spec `{Port} m h n sizedesc : given m h -> length sizedesc = n -> (n < block)%nat ->
  let p := m ++ x80 :: repeat x00 (Z.to_nat ((B - 1 - Z.of_nat n - Z.of_nat (length m)) mod B)) ++ sizedesc in
  exists h', Finalize_pad B Transform (2 * B - 1 - Z.of_nat n) sizedesc h = Some h' /\ given p h' /\
    s h' = absorb block compress (length p / block) init p.
Proof.
  intros Hg Hsd Hn p. unfold Finalize_pad.
  assert (bytes_ h mod B = Z.of_nat (length m) mod B) as ->.
  { destruct Hg as (full & rest & k & _ & _ & _ & _ & _ & E & _). rewrite E. apply mod_block. }
  assert (0 < B) as HB by (unfold B; destruct Hblock; lia).
  replace ((2 * B - 1 - Z.of_nat n - Z.of_nat (length m) mod B) mod B) with ((B - 1 - Z.of_nat n - Z.of_nat (length m)) mod B); cycle 1.
  { rewrite Zminus_mod_idemp_r. replace (2 * B - 1 - Z.of_nat n - Z.of_nat (length m)) with (B - 1 - Z.of_nat n - Z.of_nat (length m) + 1 * B) by lia.
    by rewrite Z_mod_plus_full. }
  set (z := (B - 1 - Z.of_nat n - Z.of_nat (length m)) mod B) in *.
  assert (0 <= z < B) as Hz by (apply Z.mod_pos_bound; lia).
  rewrite chunk_of_take by (simpl; rewrite repeat_length; lia). cbn [mbind option_bind].
  replace (take (Z.to_nat (1 + z)) _) with (x80 :: repeat x00 (Z.to_nat z)); cycle 1.
  { replace (Z.to_nat (1 + z)) with (S (Z.to_nat z)) by lia. cbn [take]. f_equal.
    replace (Z.to_nat (B - 1)) with (Z.to_nat z + Z.to_nat (B - 1 - z))%nat by lia.
    rewrite repeat_app, take_app_length'; [done|]. by rewrite repeat_length. }
  destruct (Write_spec m (x80 :: repeat x00 (Z.to_nat z)) h Hg) as (h1 & -> & H1).
  { simpl. rewrite repeat_length. unfold B in *. destruct Hblock; lia. }
  cbn [mbind option_bind]. destruct (Write_spec _ sizedesc h1 H1) as (h2 & -> & H2); [destruct Hblock; lia|].
  exists h2. split; [done|]. rewrite <- app_assoc in H2. split; [exact H2|]. apply given_full; [exact H2|].
  unfold p. rewrite length_app. simpl. rewrite length_app, repeat_length, Hsd.
  apply Nat2Z.inj. rewrite Nat2Z.inj_mod. fold B.
  replace (Z.of_nat (length m + S (Z.to_nat z + n))) with (z + (Z.of_nat (length m) + 1 + Z.of_nat n)) by lia.
  unfold z. rewrite Zplus_mod_idemp_l. replace (_ + _) with (1 * B) by lia. apply Z_mod_mult.
Qed.

End hasher.

Lemma given_size {words} block compress (init : words) m h : given block compress init m h -> bytes_ h = u64 (Z.of_nat (length m)).
Proof. by intros (? & ? & ? & _ & _ & _ & _ & _ & E & _). Qed.

(** The length field. *)
Lemma sizedesc_bytes `{Port} m : Z.of_nat m < 2 ^ 61 -> u64 (u64 (Z.of_nat m) .<< 3) = 8 * Z.of_nat m.
Proof.
  intros Hm. rewrite Z.shiftl_mul_pow2 by done. rewrite (wrap_small 64 (Z.of_nat m)) by (unfold is_uint; lia).
  rewrite wrap_small by (unfold is_uint; lia). lia.
Qed.
Lemma le_bytes_app n k v : le_bytes (n + k) v = le_bytes n v ++ le_bytes k (v .>> (8 * Z.of_nat n)).
Proof.
  revert v. induction n as [|n IH]; intros v; [by rewrite Z.shiftr_0_r|]. cbn [Nat.add le_bytes app]. f_equal.
  rewrite IH. do 2 f_equal. rewrite Z.shiftr_shiftr by lia. f_equal. lia.
Qed.
Lemma be_bytes_zeros v : is_uint 64 v -> be_bytes 16 v = repeat x00 8 ++ be_bytes 8 v.
Proof.
  intros Hv. unfold be_bytes. rewrite (le_bytes_app 8 8), rev_app_distr. f_equal.
  rewrite Z.shiftr_div_pow2, Z.div_small by (unfold is_uint in Hv; simpl; lia). done.
Qed.

(** ** The digests *)

(** The calls of [Write] on the parts of a message, in order. *)
Definition writes {H} (write : bytes -> H -> option H) (parts : list bytes) (h : H) : option H :=
  foldl (fun o d => o ≫= write d) (Some h) parts.

Lemma bind_Some_ex {A B} (o : option A) (x : A) (f : A -> option B) (r : option B) : o = Some x -> f x = r -> (o ≫= f) = r.
Proof. by intros ->. Qed.
Lemma sha1_output `{Port} (st st' : Sha1.words) (h : Sha1.CSHA1) : st = st' ->
  (let '(s0, s1, s2, s3, s4) := st in
   Some (WriteBE32 s0 ++ WriteBE32 s1 ++ WriteBE32 s2 ++ WriteBE32 s3 ++ WriteBE32 s4, h)) =
  Some (let '(h0, h1, h2, h3, h4) := st' in
        be_bytes 4 h0 ++ be_bytes 4 h1 ++ be_bytes 4 h2 ++ be_bytes 4 h3 ++ be_bytes 4 h4, h).
Proof. intros <-. destruct st as [[[[h0 h1] h2] h3] h4]. by rewrite !WriteBE32_bytes. Qed.
Lemma sha512_output `{Port} (st st' : Sha512.words) (h : Sha512.CSHA512) : st = st' ->
  (let '(s0, s1, s2, s3, s4, s5, s6, s7) := st in
   Some (WriteBE64 s0 ++ WriteBE64 s1 ++ WriteBE64 s2 ++ WriteBE64 s3 ++
         WriteBE64 s4 ++ WriteBE64 s5 ++ WriteBE64 s6 ++ WriteBE64 s7, h)) =
  Some (let '(h0, h1, h2, h3, h4, h5, h6, h7) := st' in
        be_bytes 8 h0 ++ be_bytes 8 h1 ++ be_bytes 8 h2 ++ be_bytes 8 h3 ++
        be_bytes 8 h4 ++ be_bytes 8 h5 ++ be_bytes 8 h6 ++ be_bytes 8 h7, h).
Proof. intros <-. destruct st as [[[[[[[h0 h1] h2] h3] h4] h5] h6] h7]. by rewrite !WriteBE64_bytes. Qed.

(** C21. A [CSHA1], new or reset, that is given a message in any number of parts produces
    the SHA-1 digest of FIPS 180-4 of the whole message, on hosts of either byte order;
    it can then be reset and used again.  The length field is 64 bits wide and counts
    bits: the message is shorter than 2^61 bytes. *)
Theorem sha1_correct `{Port} (h : Sha1.CSHA1) (parts : list bytes)
    (Hb : length (buf h) = 64%nat) (Hl : Z.of_nat (length (concat parts)) < 2 ^ 61) :
  Sha1.CSHA1_new (buf h) = Sha1.CSHA1_Reset h /\
  exists h1 h2, writes Sha1.CSHA1_Write parts (Sha1.CSHA1_Reset h) = Some h1 /\
    Sha1.CSHA1_Finalize h1 = Some (Fips1.sha1 (concat parts), h2) /\ length (buf h2) = 64%nat.
Proof.
  split; [done|]. pose proof Proof1.transform as HT.
  destruct (Writes_spec 64 Sha1.Transform Fips1.compress Sha1.Initialize (or_introl eq_refl) HT [] parts (Sha1.CSHA1_Reset h))
    as (h1 & E1 & H1); [by apply given_fresh; [left|]|lia|].
  simpl app in H1. pose proof (given_size _ _ _ _ _ H1) as Hn.
  destruct (Finalize_pad_spec 64 Sha1.Transform Fips1.compress Sha1.Initialize (or_introl eq_refl) HT _ h1 8
    (WriteBE64 (u64 (bytes_ h1 .<< 3))) H1) as (h2 & E2 & H2 & Hs); [by rewrite WriteBE64_bytes, length_be_bytes|lia|].
  exists h1, h2. split; [exact E1|]. split; [|by eapply given_buf].
  unfold Sha1.CSHA1_Finalize. eapply bind_Some_ex; [exact E2|]. apply sha1_output. etransitivity; [exact Hs|].
  unfold fips_pad. by rewrite WriteBE64_bytes, Hn, sizedesc_bytes.
Qed.

(** The same for [CSHA512] and SHA-512.  The length field of the standard has 128 bits:
    the code leaves the upper 64 zero, as they are below 2^61 bytes. *)
Theorem sha512_correct `{Port} (h : Sha512.CSHA512) (parts : list bytes)
    (Hb : length (buf h) = 128%nat) (Hl : Z.of_nat (length (concat parts)) < 2 ^ 61) :
  Sha512.CSHA512_new (buf h) = Sha512.CSHA512_Reset h /\
  exists h1 h2, writes Sha512.CSHA512_Write parts (Sha512.CSHA512_Reset h) = Some h1 /\
    Sha512.CSHA512_Finalize h1 = Some (Fips512.sha512 (concat parts), h2) /\ length (buf h2) = 128%nat.
Proof.
  split; [done|]. pose proof Proof512.transform512 as HT.
  destruct (Writes_spec 128 Sha512.Transform Fips512.compress Sha512.Initialize (or_intror eq_refl) HT [] parts (Sha512.CSHA512_Reset h))
    as (h1 & E1 & H1); [by apply given_fresh; [right|]|lia|].
  simpl app in H1. pose proof (given_size _ _ _ _ _ H1) as Hn.
  destruct (Finalize_pad_spec 128 Sha512.Transform Fips512.compress Sha512.Initialize (or_intror eq_refl) HT _ h1 16
    (repeat x00 8 ++ WriteBE64 (u64 (bytes_ h1 .<< 3))) H1) as (h2 & E2 & H2 & Hs);
    [by rewrite length_app, repeat_length, WriteBE64_bytes, length_be_bytes|lia|].
  exists h1, h2. split; [exact E1|]. split; [|by eapply given_buf].
  unfold Sha512.CSHA512_Finalize. eapply bind_Some_ex; [exact E2|]. apply sha512_output. etransitivity; [exact Hs|].
  unfold fips_pad. rewrite be_bytes_zeros by (unfold is_uint; lia). by rewrite WriteBE64_bytes, Hn, sizedesc_bytes.
Qed.

Lemma sha1_correct_witness :
  let _ := little_endian_port in let h := Sha1.CSHA1_new (repeat xff 64) in
  length (buf h) = 64%nat /\ Z.of_nat (length (concat [[x61]; [x62; x63]])) < 2 ^ 61 /\
  exists h1 h2, writes Sha1.CSHA1_Write [[x61]; [x62; x63]] (Sha1.CSHA1_Reset h) = Some h1 /\
    Sha1.CSHA1_Finalize h1 = Some (Fips1.sha1 [x61; x62; x63], h2) /\ length (buf h2) = 64%nat.
Proof.
  intros p h. split; [reflexivity|]. split; [done|].
  destruct (sha1_correct h [[x61]; [x62; x63]] eq_refl ltac:(done)) as [_ Hd]. exact Hd.
Defined.

Lemma sha512_correct_witness :
  let _ := big_endian_port in let h := Sha512.CSHA512_new (repeat xff 128) in
  length (buf h) = 128%nat /\ Z.of_nat (length (concat [[x61]; [x62; x63]])) < 2 ^ 61 /\
  exists h1 h2, writes Sha512.CSHA512_Write [[x61]; [x62; x63]] (Sha512.CSHA512_Reset h) = Some h1 /\
    Sha512.CSHA512_Finalize h1 = Some (Fips512.sha512 [x61; x62; x63], h2) /\ length (buf h2) = 128%nat.
Proof.
  intros p h. split; [reflexivity|]. split; [done|].
  destruct (sha512_correct h [[x61]; [x62; x63]] eq_refl ltac:(done)) as [_ Hd]. exact Hd.
Defined.

(** The test vectors of the standard for [abc]. *)
Example sha1_abc : be_val (Fips1.sha1 [x61; x62; x63]) = 0xa9993e364706816aba3e25717850c26c9cd0d89d.
Proof. by vm_compute. Qed.
Example sha512_abc : be_val (Fips512.sha512 [x61; x62; x63]) =
  0xddaf35a193617abacc417349ae20413112e6fa4e89a97ea20a9eeee64b55d39a2192992a274fc1a836ba3c23a3feebbd454d4423643ce80e2a9ac94fa54ca49f.
Proof. by vm_compute. Qed.
