(* ===== verification/Status.v ===== *)
(** * Status: [src/util/status.h], [src/util/status.cpp]

    A [Status] is the pointer [state_]: null for success, otherwise the error
    code and message.  [None] as the result of a constructor is its failed
    [assert(code != kOk)]. *)

From Stdlib Require Import Strings.String.
From stdpp Require Import strings pretty.
From S2P Require Import Prelude Coding.

(** The bytes of a string literal. *)
Definition str (s : string) : bytes := String.list_byte_of_string s.

Record State := { code_ : Z; msg_ : bytes }.
Definition Status : Type := option State.

(** [enum Code]; [kUserError] and above are user defined. *)
Definition kOk : Z := 0.
Definition kError : Z := 1.
Definition kIOError : Z := 2.
Definition kNotSupported : Z := 3.
Definition kUserError : Z := 4.

#[export] Instance State_eq_dec : EqDecision State.
Proof. solve_decision. Defined.

Definition Status_OK : Status := None.

(** The three error constructors. *)
Definition Status_1 (code : Z) : option Status :=
  if code =? kOk then None else Some (Some {| code_ := code; msg_ := [] |}).
Definition Status_2 (code : Z) (msg : bytes) : option Status :=
  if code =? kOk then None else Some (Some {| code_ := code; msg_ := msg |}).
Definition Status_3 (code : Z) (msg msg2 : bytes) : option Status :=
  if code =? kOk then None
  else
    let len1 := size msg in
    let len2 := size msg2 in
    let sz := len1 + (if len2 =? 0 then 0 else 2 + len2) in
    if 1024 <=? sz then Some (Some {| code_ := code; msg_ := str "StatusTooLongMsg" |})
    else
      let result := msg ++ (if len2 =? 0 then [] else str ": " ++ msg2) in
      Some (Some {| code_ := code; msg_ := result |}).

Definition Status_Error (msg msg2 : bytes) : Status := default None (Status_3 kError msg msg2).
Definition Status_IOError (msg msg2 : bytes) : Status := default None (Status_3 kIOError msg msg2).
Definition Status_NotSupported (msg msg2 : bytes) : Status :=
  default None (Status_3 kNotSupported msg msg2).

Definition ok (s : Status) : bool := match s with None => true | Some _ => false end.
Definition code (s : Status) : Z := match s with None => kOk | Some st => code_ st end.
Definition error_message (s : Status) : bytes := match s with None => [] | Some st => msg_ st end.

(** [operator=] copies the state; the two pointers are equal only when both
    are null or the objects are the same, and copying is the identity then. *)
Definition assign (this s : Status) : Status := s.

Definition update (this new_status : Status) : Status :=
  if ok this then assign this new_status else this.

(** [snprintf(tmp, 30, "UserError(%d)", code)]: at most 22 characters. *)
Definition toString (s : Status) : bytes :=
  match s with
  | None => str "OK"
  | Some st =>
      let type :=
        if code_ st =? kError then str "Error"
        else if code_ st =? kIOError then str "IOError"
        else if code_ st =? kNotSupported then str "NotSupported"
        else str "UserError(" ++ str (pretty (code_ st)) ++ str ")" in
      type ++ str ": " ++ msg_ st
  end.

(** [this->state_ == x.state_] holds of two distinct objects when both states
    are null. *)
Definition status_eq (this x : Status) : bool :=
  (ok this && ok x) || bool_decide (toString this = toString x).


(** ** The textual form *)

Lemma str_cons c a : str (String c a) = Ascii.byte_of_ascii c :: str a.
Proof. done. Qed.

Lemma str_app a b : str (a +:+ b) = str a ++ str b.
Proof. induction a as [|c a IH]; [done|]. change (String c a +:+ b) with (String c (a +:+ b)). by rewrite !str_cons, IH. Qed.

Lemma str_inj a b : str a = str b -> a = b.
Proof.
  unfold str. intros E. rewrite <-(String.string_of_list_byte_of_string a).
  by rewrite E, String.string_of_list_byte_of_string.
Qed.

(** A decimal number is made of digits and a minus sign. *)
Definition number_byte (b : byte) : Prop := b <> ")"%byte.

Lemma digits_N (x : N) (s : string) :
  Forall number_byte (str s) -> Forall number_byte (str (pretty_N_go x s)).
Proof.
  revert s. induction x as [x IH] using (well_founded_induction N.lt_wf_0). intros s Hs.
  destruct (decide (0 < x)%N) as [Hx|Hx].
  - rewrite pretty_N_go_step by done. apply IH; [apply N.div_lt; lia|].
    rewrite str_cons. constructor; [|done].
    unfold pretty_N_char, number_byte. by repeat case_match.
  - assert (x = 0)%N as -> by lia. by rewrite pretty_N_go_0.
Qed.

Lemma digits_Z (z : Z) : Forall number_byte (str (pretty z)).
Proof.
  assert (P : forall n : N, Forall number_byte (str (pretty n))).
  { intros n. unfold pretty, pretty_N. case_decide as Hn; [|apply digits_N; constructor].
    by repeat constructor. }
  destruct z as [|p|p]; [apply (P 0%N)|apply (P (N.pos p))|].
  change (pretty (Z.neg p)) with ("-" +:+ pretty (N.pos p)). rewrite str_app.
  by constructor; [|apply P].
Qed.

(** Splitting at the first closing parenthesis. *)
Lemma split_paren (a b r1 r2 : bytes) :
  Forall number_byte a -> Forall number_byte b ->
  a ++ ")"%byte :: r1 = b ++ ")"%byte :: r2 -> a = b /\ r1 = r2.
Proof.
  intros Ha. revert b. induction Ha as [|x a Hx _ IH]; intros b Hb E.
  - destruct Hb as [|y b Hy Hb]; cbn in E; [by injection E|]. injection E as <- _. by destruct Hy.
  - destruct Hb as [|y b Hy Hb]; cbn in E.
    + injection E as -> _. by destruct Hx.
    + injection E as -> E. by destruct (IH b Hb E) as [-> ->].
Qed.

Lemma toString_inj (s t : Status) : toString s = toString t -> s = t.
Proof.
  destruct s as [[c1 m1]|], t as [[c2 m2]|]; unfold toString; cbn [code_ msg_]; [| | |done].
  - intros E.
    destruct (Z.eqb_spec c1 kError) as [->|], (Z.eqb_spec c2 kError) as [->|];
      try by injection E as ->.
    all: try (destruct (Z.eqb_spec c1 kIOError) as [->|]; try done; try by injection E as ->).
    all: try (destruct (Z.eqb_spec c2 kIOError) as [->|]; try done; try by injection E as ->).
    all: try (destruct (Z.eqb_spec c1 kNotSupported) as [->|]; try done; try by injection E as ->).
    all: try (destruct (Z.eqb_spec c2 kNotSupported) as [->|]; try done; try by injection E as ->).
    injection E as E. rewrite <-!app_assoc in E. cbn in E.
    apply split_paren in E as [E1 E2]; [|apply digits_Z..]. apply str_inj in E1.
    injection E2 as ->. by apply (inj pretty) in E1 as ->.
  - intros E. exfalso. destruct (c1 =? kError), (c1 =? kIOError), (c1 =? kNotSupported); by cbn in E.
  - intros E. exfalso. destruct (c2 =? kError), (c2 =? kIOError), (c2 =? kNotSupported); by cbn in E.
Qed.

(** ** Properties *)

(** (equality).  [operator==] compares the printed forms; it holds exactly
    when both statuses are successes or both carry the same code and message. *)
Theorem status_equality (s t : Status) :
  (status_eq s t = true <-> s = t) /\
  (s = t <-> code s = code t /\ error_message s = error_message t /\ ok s = ok t).
Proof.
  split.
  - unfold status_eq. rewrite orb_true_iff, andb_true_iff, bool_decide_eq_true. split.
    + intros [[??]|E]; [by destruct s, t|by apply toString_inj].
    + intros ->. by right.
  - split; [by intros ->|]. destruct s as [[c1 m1]|], t as [[c2 m2]|]; cbn; naive_solver.
Qed.

(** (keeping the first error).  Accumulating statuses with [update] keeps
    the first error and is a success exactly when all are. *)
Theorem status_update_first_error (l : list Status) :
  fold_left update l Status_OK = default None (List.find (fun s => negb (ok s)) l) /\
  (ok (fold_left update l Status_OK) = true <-> Forall (fun s => ok s = true) l).
Proof.
  assert (K : forall l st, fold_left update l (Some st) = Some st) by (by induction l0).
  assert (E : fold_left update l Status_OK = default None (List.find (fun s => negb (ok s)) l)).
  { induction l as [|[st|] l IH]; [done| |exact IH]. apply K. }
  split; [done|]. rewrite E. clear E. induction l as [|[st|] l IH]; cbn.
  - split; [constructor|done].
  - split; [done|]. by intros [? _]%Forall_cons_iff.
  - rewrite IH, Forall_cons_iff. naive_solver.
Qed.
