(* ===== verification/Base64.v ===== *)
(** * Base64: [src/util/base64.h], [src/util/base64.cpp]

    The web-safe base64 codec.  The output pointer is an [option bytes]: [None]
    for a null pointer, otherwise the contents of the string it points to. *)

From Stdlib Require Import Strings.String.
From stdpp Require Import strings.
From S2P Require Import Prelude Coding Stringpiece Status.

Definition kBase64Bytes : list Z := [
     -1;   -1;   -1;   -1;   -1;   -1;   -1;   -1;   -1;   -1;   -1;   -1;
     -1;   -1;   -1;   -1;   -1;   -1;   -1;   -1;   -1;   -1;   -1;   -1;
     -1;   -1;   -1;   -1;   -1;   -1;   -1;   -1;   -1;   -1;   -1;   -1;
     -1;   -1;   -1;   -1;   -1;   -1;   -1;   -1;   -1;  0x3E;  -1;   -1;
    0x34; 0x35; 0x36; 0x37; 0x38; 0x39; 0x3A; 0x3B; 0x3C; 0x3D;  -1;   -1;
     -1;   -1;   -1;   -1;   -1;  0x00; 0x01; 0x02; 0x03; 0x04; 0x05; 0x06;
    0x07; 0x08; 0x09; 0x0A; 0x0B; 0x0C; 0x0D; 0x0E; 0x0F; 0x10; 0x11; 0x12;
    0x13; 0x14; 0x15; 0x16; 0x17; 0x18; 0x19;  -1;   -1;   -1;   -1;  0x3F;
     -1;  0x1A; 0x1B; 0x1C; 0x1D; 0x1E; 0x1F; 0x20; 0x21; 0x22; 0x23; 0x24;
    0x25; 0x26; 0x27; 0x28; 0x29; 0x2A; 0x2B; 0x2C; 0x2D; 0x2E; 0x2F; 0x30;
    0x31; 0x32; 0x33;  -1;   -1;   -1;   -1;   -1].

Definition kBase64UrlSafeChars : bytes :=
  str "ABCDEFGHIJKLMNOPQRSTUVWXYZabcdefghijklmnopqrstuvwxyz0123456789-_".

Definition kPadChar : byte := "="%byte.

(** A [char] operand of [&], [|] or [>>] is first promoted to [int]. *)
Definition Convert (x : byte) : Z :=
  let y := i8 (nth (Z.to_nat (schar x .& 0x7F)) kBase64Bytes 0 .| (schar x .& 0x80)) in
  let z := i32 y in
  u32 z.

(** [inr] of the three bytes stored into [result], or [inl] of the error. *)
Definition DecodeThreeChars (codes : bytes) : Status + bytes :=
  let code i := Convert (nth i codes x00) in
  let packed := u32 (code 0%nat .<< 18) .| u32 (code 1%nat .<< 12)
                .| u32 (code 2%nat .<< 6) .| code 3%nat in
  if negb ((packed .& 0xFF000000) =? 0)
  then inl (Status_Error (str "Invalid character found in base64.") [])
  else inr [to_byte (packed .>> 16); to_byte (packed .>> 8); to_byte packed].

(** [while (end - b64 > 4)]: the characters left and the buffer filled so far,
    or the status [RETURN_IF_ERROR] returns. *)
Fixpoint Base64Decode_loop (fuel : nat) (b64 buffer : bytes) : Status + (bytes * bytes) :=
  match fuel with
  | O => inr (b64, buffer)
  | S fuel =>
      if size b64 >? 4 then
        match DecodeThreeChars b64 with
        | inl status => inl status
        | inr r => Base64Decode_loop fuel (drop 4 b64) (buffer ++ r)
        end
      else inr (b64, buffer)
  end.

Definition Base64Decode (data : bytes) (decoded : option bytes) : Status * option bytes :=
  match decoded with
  | None => (Status_Error (str "'decoded' cannot be nullptr.") [], None)
  | Some _ =>
      if size data =? 0 then (Status_OK, Some [])
      else
        match Base64Decode_loop (length data) data [] with
        | inl status => (status, decoded)
        | inr (b64, buffer) =>
            let pad i := bool_decide (nth i b64 x00 = kPadChar) in
            let remain :=
              if size b64 =? 4 then
                let remain := if pad 2%nat && pad 3%nat then 4 - 2 else 4 in
                if negb (pad 2%nat) && pad 3%nat then remain - 1 else remain
              else size b64 in
            if remain =? 1
            then (Status_Error (str "Base64 string length cannot be 1 modulo 4.") [], decoded)
            else
              let A := nth 0 kBase64UrlSafeChars x00 in
              let tail := take 4 (take (Z.to_nat remain) b64 ++ [A; A; A; A]) in
              match DecodeThreeChars tail with
              | inl status => (status, decoded)
              | inr r => (Status_OK, Some (buffer ++ take (Z.to_nat (remain - 1)) r))
              end
        end
  end.

Definition base64_chars (i : Z) : byte := nth (Z.to_nat i) kBase64UrlSafeChars x00.

(** [while (end - data >= 3)], then the tail. *)
Fixpoint Base64Encode_loop (with_padding : bool) (data : bytes) : bytes :=
  match data with
  | d0 :: d1 :: d2 :: data =>
      base64_chars ((schar d0 .>> 2) .& 0x3F)
      :: base64_chars (((schar d0 .& 0x03) .<< 4) .| ((schar d1 .>> 4) .& 0x0F))
      :: base64_chars (((schar d1 .& 0x0F) .<< 2) .| ((schar d2 .>> 6) .& 0x03))
      :: base64_chars (schar d2 .& 0x3F)
      :: Base64Encode_loop with_padding data
  | [d0; d1] =>
      base64_chars ((schar d0 .>> 2) .& 0x3F)
      :: base64_chars (((schar d0 .& 0x03) .<< 4) .| ((schar d1 .>> 4) .& 0x0F))
      :: base64_chars ((schar d1 .& 0x0F) .<< 2)
      :: (if with_padding then [kPadChar] else [])
  | [d0] =>
      base64_chars ((schar d0 .>> 2) .& 0x3F)
      :: base64_chars ((schar d0 .& 0x03) .<< 4)
      :: (if with_padding then [kPadChar; kPadChar] else [])
  | [] => []
  end.

Definition Base64Encode (source : bytes) (with_padding : bool) (encoded : option bytes) :
    Status * option bytes :=
  match encoded with
  | None => (Status_Error (str "'encoded' cannot be nullptr.") [], None)
  | Some _ => (Status_OK, Some (Base64Encode_loop with_padding source))
  end.
Definition Base64Encode_nopad (source : bytes) (encoded : option bytes) : Status * option bytes :=
  Base64Encode source false encoded.

(** ** Reference: what a valid base64 text is *)

(** The digit a character stands for. *)
Definition digit (c : byte) : option Z :=
  (fun x => Z.of_nat (fst x)) <$> list_find (fun d => d = c) kBase64UrlSafeChars.
Definition is_digit (c : byte) : Prop := is_Some (digit c).

(** Padding is looked for only in the last group of a multiple of four. *)
Definition strip_padding (data : bytes) : bytes :=
  if size data mod 4 =? 0 then
    match rev data with
    | c3 :: c2 :: rest =>
        if decide (c3 = kPadChar) then
          if decide (c2 = kPadChar) then rev rest else rev (c2 :: rest)
        else data
    | _ => data
    end
  else data.

(** ** The alphabet *)

Lemma Convert_spec c :
  (exists i, digit c = Some i /\ Convert c = i /\ is_uint 6 i /\ base64_chars i = c) \/
  (digit c = None /\ (Convert c .& 0xFFFFFF80) = 0xFFFFFF80).
Proof.
  destruct c; first
    [ right; split; vm_compute; reflexivity
    | left; eexists; split; [vm_compute; reflexivity|]; split_and!; [vm_compute; reflexivity|..];
      [split; vm_compute; congruence|vm_compute; reflexivity] ].
Qed.

(** ** Packing three bytes into four digits *)

Lemma schar_fields d :
  (schar d .>> 2) .& 0x3F = uchar d / 4 /\ schar d .& 0x03 = uchar d mod 4 /\
  (schar d .>> 4) .& 0x0F = uchar d / 16 /\ schar d .& 0x0F = uchar d mod 16 /\
  (schar d .>> 6) .& 0x03 = uchar d / 64 /\ schar d .& 0x3F = uchar d mod 64.
Proof. by_byte d; repeat split; reflexivity. Qed.

(** Four 6-bit digits side by side. *)
Definition pack (i0 i1 i2 i3 : Z) : Z := i3 + 2 ^ 6 * i2 + 2 ^ 12 * i1 + 2 ^ 18 * i0.

Lemma pack_lor i0 i1 i2 i3 :
  is_uint 6 i0 -> is_uint 6 i1 -> is_uint 6 i2 -> is_uint 6 i3 ->
  u32 (i0 .<< 18) .| u32 (i1 .<< 12) .| u32 (i2 .<< 6) .| i3 = pack i0 i1 i2 i3 /\
  is_uint 24 (pack i0 i1 i2 i3).
Proof.
  intros H0 H1 H2 H3. unfold is_uint, pack in *.
  change (2 ^ 6) with 64 in *. change (2 ^ 12) with 4096. change (2 ^ 18) with 262144.
  change (2 ^ 24) with 16777216. split; [|lia].
  rewrite !wrap_small by (unfold is_uint; change (2 ^ 32) with 4294967296;
    rewrite Z.shiftl_mul_pow2 by lia; lia).
  rewrite (Z.lor_comm (_ .| _) i3), (Z.lor_comm (_ .| _) (i2 .<< 6)), (Z.lor_comm (i0 .<< 18)).
  rewrite !Z.lor_assoc.
  rewrite (lor_shiftl_add i3) by (unfold is_uint; lia). change (2 ^ 6) with 64.
  rewrite (lor_shiftl_add _ i1 12) by (unfold is_uint; change (2 ^ 12) with 4096; lia).
  rewrite (lor_shiftl_add _ i0 18) by (unfold is_uint; change (2 ^ 12) with 4096; change (2 ^ 18) with 262144; lia).
  change (2 ^ 6) with 64. change (2 ^ 12) with 4096. change (2 ^ 18) with 262144. lia.
Qed.

Lemma to_byte_mod z k : to_byte (z + 256 * k) = to_byte z.
Proof.
  apply uchar_inj. rewrite !uchar_to_byte. unfold wrap. change (2 ^ 8) with 256.
  by rewrite (Z.mul_comm 256), Z.mod_add.
Qed.

Lemma pack_bytes a b c i0 i1 i2 i3 :
  pack i0 i1 i2 i3 = uchar c + 256 * (uchar b + 256 * uchar a) ->
  [to_byte (pack i0 i1 i2 i3 .>> 16); to_byte (pack i0 i1 i2 i3 .>> 8);
   to_byte (pack i0 i1 i2 i3)] = [a; b; c].
Proof.
  intros ->. pose proof (uchar_range a) as Ha. pose proof (uchar_range b) as Hb.
  pose proof (uchar_range c) as Hc. unfold is_uint in *. change (2 ^ 8) with 256 in *.
  rewrite !Z.shiftr_div_pow2 by lia. change (2 ^ 8) with 256. change (2 ^ 16) with 65536.
  replace ((uchar c + 256 * (uchar b + 256 * uchar a)) / 65536) with (uchar a) by (Z.div_mod_to_equations; lia).
  replace ((uchar c + 256 * (uchar b + 256 * uchar a)) / 256) with (uchar b + 256 * uchar a)
    by (Z.div_mod_to_equations; lia).
  by rewrite !to_byte_mod, !to_byte_uchar.
Qed.

Lemma Convert_base64_chars i : is_uint 6 i -> Convert (base64_chars i) = i.
Proof.
  intros [H0 H1]. change (2 ^ 6) with 64 in *.
  assert (forallb (fun k => Convert (base64_chars (Z.of_nat k)) =? Z.of_nat k) (seq 0 64) = true) as F
    by (vm_compute; reflexivity).
  rewrite forallb_forall in F. specialize (F (Z.to_nat i)).
  rewrite Z2Nat.id in F by done. apply Z.eqb_eq, F, in_seq. lia.
Qed.

Lemma DecodeThreeChars_digits i0 i1 i2 i3 rest :
  is_uint 6 i0 -> is_uint 6 i1 -> is_uint 6 i2 -> is_uint 6 i3 ->
  DecodeThreeChars (base64_chars i0 :: base64_chars i1 :: base64_chars i2 :: base64_chars i3 :: rest) =
  inr [to_byte (pack i0 i1 i2 i3 .>> 16); to_byte (pack i0 i1 i2 i3 .>> 8); to_byte (pack i0 i1 i2 i3)].
Proof.
  intros H0 H1 H2 H3. unfold DecodeThreeChars. cbn [nth].
  rewrite !Convert_base64_chars by done.
  destruct (pack_lor i0 i1 i2 i3 H0 H1 H2 H3) as [-> Hp].
  replace (_ .& 0xFF000000) with 0; [done|].
  change 0xFF000000 with (Z.ones 8 .<< 24). apply Z.bits_inj'. intros i Hi.
  rewrite Z.land_spec, Z.shiftl_spec, Z.testbit_0_l by done.
  destruct (Z.lt_ge_cases i 24); [rewrite (Z.testbit_neg_r (Z.ones 8)) by lia; by rewrite andb_false_r|].
  by rewrite (is_uint_testbit 24).
Qed.

(** A digit that is not in the alphabet sets the top bit of [packed]. *)
Lemma Convert_bad_bit c i : digit c = None -> 7 <= i < 32 -> Z.testbit (Convert c) i = true.
Proof.
  intros Hd Hi. destruct (Convert_spec c) as [(?&?&_)|[_ E]]; [congruence|].
  assert (Z.testbit (Convert c .& 0xFFFFFF80) i = true) as T.
  { rewrite E. change 0xFFFFFF80 with (Z.ones 25 .<< 7).
    rewrite Z.shiftl_spec, Z.testbit_ones_nonneg by lia. apply Z.ltb_lt. lia. }
  rewrite Z.land_spec in T. by apply andb_true_iff in T as [? _].
Qed.

Lemma DecodeThreeChars_bad c0 c1 c2 c3 rest :
  digit c0 = None \/ digit c1 = None \/ digit c2 = None \/ digit c3 = None ->
  DecodeThreeChars (c0 :: c1 :: c2 :: c3 :: rest) =
  inl (Status_Error (str "Invalid character found in base64.") []).
Proof.
  intros Hb. unfold DecodeThreeChars. cbn [nth].
  match goal with |- (if negb (?p .& ?m =? 0) then _ else _) = _ =>
    destruct (Z.eqb_spec (p .& m) 0) as [E|]; [exfalso|done]; set (packed := p) in *;
    assert (Z.testbit (packed .& m) 31 = true) as T; [|by rewrite E in T] end.
  rewrite Z.land_spec. change (Z.testbit 0xFF000000 31) with true. rewrite andb_true_r.
  unfold packed. rewrite !Z.lor_spec, !wrap_testbit, !Z.shiftl_spec by lia.
  change (31 - 18) with 13. change (31 - 12) with 19. change (31 - 6) with 25.
  destruct Hb as [H|[H|[H|H]]]; rewrite (Convert_bad_bit _ _ H) by lia;
    change (31 <? 32) with true; by rewrite ?orb_true_r.
Qed.

(** ** The decoder's loop *)

Lemma Base64Decode_loop_unfold fuel data buf :
  Base64Decode_loop (S fuel) data buf =
  if size data >? 4 then
    match DecodeThreeChars data with
    | inl status => inl status
    | inr r => Base64Decode_loop fuel (drop 4 data) (buf ++ r)
    end
  else inr (data, buf).
Proof. done. Qed.

Lemma Base64Decode_loop_done fuel data buf :
  (length data <= 4)%nat -> Base64Decode_loop (S fuel) data buf = inr (data, buf).
Proof.
  intros. rewrite Base64Decode_loop_unfold. unfold size.
  by rewrite Z.gtb_ltb, (proj2 (Z.ltb_ge _ _)) by lia.
Qed.

Lemma base64_chars_not_pad i : is_uint 6 i -> base64_chars i <> kPadChar.
Proof.
  intros Hi E. pose proof (Convert_base64_chars i Hi) as C. rewrite E in C. subst i.
  destruct Hi as [_ H]. by vm_compute in H.
Qed.

(** The digits of one group of three bytes, and of the two shorter tails. *)
Lemma digits_range a b c :
  is_uint 6 (uchar a / 4) /\ is_uint 6 (uchar b / 16 + 2 ^ 4 * (uchar a mod 4)) /\
  is_uint 6 (uchar c / 64 + 2 ^ 2 * (uchar b mod 16)) /\ is_uint 6 (uchar c mod 64).
Proof.
  pose proof (uchar_range a) as Ha. pose proof (uchar_range b) as Hb. pose proof (uchar_range c) as Hc.
  unfold is_uint in *. change (2 ^ 8) with 256 in *. change (2 ^ 6) with 64.
  change (2 ^ 4) with 16. change (2 ^ 2) with 4. split_and!; Z.div_mod_to_equations; lia.
Qed.

Lemma pack_digits a b c :
  pack (uchar a / 4) (uchar b / 16 + 2 ^ 4 * (uchar a mod 4))
       (uchar c / 64 + 2 ^ 2 * (uchar b mod 16)) (uchar c mod 64) =
  uchar c + 256 * (uchar b + 256 * uchar a).
Proof.
  unfold pack. change (2 ^ 4) with 16. change (2 ^ 2) with 4. change (2 ^ 6) with 64.
  change (2 ^ 12) with 4096. change (2 ^ 18) with 262144. Z.div_mod_to_equations. lia.
Qed.

(** The characters written for the bytes [a], [b], [c]. *)
Definition group (a b c : byte) : bytes :=
  [base64_chars (uchar a / 4); base64_chars (uchar b / 16 + 2 ^ 4 * (uchar a mod 4));
   base64_chars (uchar c / 64 + 2 ^ 2 * (uchar b mod 16)); base64_chars (uchar c mod 64)].

Lemma DecodeThreeChars_group a b c rest : DecodeThreeChars (group a b c ++ rest) = inr [a; b; c].
Proof.
  destruct (digits_range a b c) as (?&?&?&?). unfold group. cbn [app].
  rewrite DecodeThreeChars_digits by done. f_equal. apply pack_bytes, pack_digits.
Qed.

Lemma lor_digit x y n k : 0 <= n -> 0 <= y < 2 ^ n -> k = 2 ^ n -> (x .<< n) .| y = y + k * x.
Proof. intros ? ? ->. by rewrite Z.lor_comm, lor_shiftl_add. Qed.

(** The encoder writes whole groups, and a prefix of a group at the end. *)
Lemma Base64Encode_loop_groups pad s :
  Base64Encode_loop pad s =
  match s with
  | [] => []
  | [a] => take 2 (group a x00 x00) ++ (if pad then [kPadChar; kPadChar] else [])
  | [a; b] => take 3 (group a b x00) ++ (if pad then [kPadChar] else [])
  | a :: b :: c :: s => group a b c ++ Base64Encode_loop pad s
  end.
Proof.
  assert (L4 : forall a b, ((schar a .& 0x03) .<< 4) .| ((schar b .>> 4) .& 0x0F)
                = uchar b / 16 + 2 ^ 4 * (uchar a mod 4)).
  { intros a b. destruct (schar_fields a) as (_ & -> & _), (schar_fields b) as (_ & _ & -> & _).
    pose proof (uchar_range b) as Hb. unfold is_uint in Hb. change (2 ^ 8) with 256 in Hb.
    apply lor_digit; [lia| |done]. change (2 ^ 4) with 16. Z.div_mod_to_equations. lia. }
  assert (L2 : forall b c, ((schar b .& 0x0F) .<< 2) .| ((schar c .>> 6) .& 0x03)
                = uchar c / 64 + 2 ^ 2 * (uchar b mod 16)).
  { intros b c. destruct (schar_fields b) as (_ & _ & _ & -> & _), (schar_fields c) as (_ & _ & _ & _ & -> & _).
    pose proof (uchar_range c) as Hc. unfold is_uint in Hc. change (2 ^ 8) with 256 in Hc.
    apply lor_digit; [lia| |done]. change (2 ^ 2) with 4. Z.div_mod_to_equations. lia. }
  assert (T4 : forall a, (schar a .& 0x03) .<< 4 = uchar x00 / 16 + 2 ^ 4 * (uchar a mod 4)).
  { intros a. rewrite <-L4. by rewrite Z.lor_0_r. }
  assert (T2 : forall b, (schar b .& 0x0F) .<< 2 = uchar x00 / 64 + 2 ^ 2 * (uchar b mod 16)).
  { intros b. rewrite <-L2. by rewrite Z.lor_0_r. }
  destruct s as [|a [|b [|c s]]]; cbn [Base64Encode_loop]; [done| | |]; unfold group; cbn [take firstn app];
    rewrite ?L4, ?L2, ?T4, ?T2; destruct (schar_fields a) as (-> & _); [done|done|].
  destruct (schar_fields c) as (_ & _ & _ & _ & _ & ->). done.
Qed.

Lemma bytes_ind3 (P : bytes -> Prop) :
  P [] -> (forall a, P [a]) -> (forall a b, P [a; b]) ->
  (forall a b c s, P s -> P (a :: b :: c :: s)) -> forall s, P s.
Proof.
  intros H0 H1 H2 H3. fix IH 1. intros [|a [|b [|c s]]]; [done|apply H1|apply H2|].
  apply H3, IH.
Qed.

Lemma Base64Encode_loop_nonnil pad a s : (2 <= length (Base64Encode_loop pad (a :: s)))%nat.
Proof.
  rewrite Base64Encode_loop_groups. destruct s as [|b [|c s]]; unfold group;
    cbn [app length take firstn]; rewrite ?length_app; cbn [length]; lia.
Qed.

Lemma Base64Decode_loop_encode pad s fuel buf :
  (length s <= fuel)%nat -> s <> [] -> exists done last,
    s = done ++ last /\ (1 <= length last <= 3)%nat /\
    Base64Decode_loop (S fuel) (Base64Encode_loop pad s) buf = inr (Base64Encode_loop pad last, buf ++ done).
Proof.
  revert fuel buf. induction s as [|a|a b|a b c s IH] using bytes_ind3; intros fuel buf Hf Hs; [done| | |].
  - exists [], [a]. split_and!; [done|simpl; lia..|]. rewrite Base64Decode_loop_done, app_nil_r; [done|].
    rewrite Base64Encode_loop_groups. destruct pad; simpl; lia.
  - exists [], [a; b]. split_and!; [done|simpl; lia..|]. rewrite Base64Decode_loop_done, app_nil_r; [done|].
    rewrite Base64Encode_loop_groups. destruct pad; simpl; lia.
  - destruct s as [|d s].
    { exists [], [a; b; c]. split_and!; [done|simpl; lia..|].
      rewrite Base64Decode_loop_done, app_nil_r; [done|].
      rewrite Base64Encode_loop_groups. destruct pad; simpl; lia. }
    destruct fuel as [|fuel]; [simpl in Hf; lia|].
    destruct (IH fuel (buf ++ [a; b; c])) as (dn & last & Hd & Hl & E); [cbn [length] in *; lia|done|].
    exists ([a; b; c] ++ dn), last. split; [by rewrite Hd|]. split; [exact Hl|].
    rewrite Base64Decode_loop_unfold, Base64Encode_loop_groups.
    pose proof (Base64Encode_loop_nonnil pad d s) as Hn.
    rewrite DecodeThreeChars_group.
    unfold size. rewrite length_app. cbn [group length].
    rewrite Z.gtb_ltb, (proj2 (Z.ltb_lt _ _)) by lia.
    change (drop 4 (group a b c ++ ?x)) with x. rewrite E. by rewrite app_assoc.
Qed.

Lemma nth0_chars : nth 0 kBase64UrlSafeChars x00 = base64_chars (uchar x00 mod 64).
Proof. done. Qed.

(** ** What follows the loop *)

Lemma pad_eqb i : is_uint 6 i -> bool_decide (base64_chars i = kPadChar) = false.
Proof. intros. by apply bool_decide_eq_false_2, base64_chars_not_pad. Qed.

(** Decoding the characters written for a last group of one to three bytes. *)
Lemma Base64Decode_last pad last old buf data :
  (1 <= length last <= 3)%nat -> data <> [] ->
  Base64Decode_loop (length data) data [] = inr (Base64Encode_loop pad last, buf) ->
  Base64Decode data (Some old) = (Status_OK, Some (buf ++ last)).
Proof.
  intros Hl Hd E. unfold Base64Decode.
  destruct (Z.eqb_spec (size data) 0) as [H0|_].
  { destruct data; [done|]. unfold size in H0. simpl in H0. lia. }
  rewrite E, Base64Encode_loop_groups, nth0_chars.
  destruct last as [|a [|b [|c [|]]]]; cbn [length] in Hl; try lia.
  - destruct (digits_range a x00 x00) as (D0&D1&D2&D3). destruct pad; cbn [app take firstn group size length].
    + change (bool_decide (nth 2 _ x00 = kPadChar)) with true.
      change (bool_decide (nth 3 _ x00 = kPadChar)) with true. cbn -[base64_chars DecodeThreeChars].
      pose proof (DecodeThreeChars_group a x00 x00 []) as G. by rewrite app_nil_r in G; setoid_rewrite G.
    + cbn -[base64_chars DecodeThreeChars].
      pose proof (DecodeThreeChars_group a x00 x00 []) as G. by rewrite app_nil_r in G; setoid_rewrite G.
  - destruct (digits_range a b x00) as (D0&D1&D2&D3). destruct pad; cbn [app take firstn group size length].
    + cbn [nth]. rewrite (pad_eqb _ D2). change (bool_decide (kPadChar = kPadChar)) with true.
      cbn -[base64_chars DecodeThreeChars].
      pose proof (DecodeThreeChars_group a b x00 []) as G. by rewrite app_nil_r in G; setoid_rewrite G.
    + cbn -[base64_chars DecodeThreeChars].
      pose proof (DecodeThreeChars_group a b x00 []) as G. by rewrite app_nil_r in G; setoid_rewrite G.
  - destruct (digits_range a b c) as (D0&D1&D2&D3). cbn [app Base64Encode_loop group size length].
    cbn [nth]. rewrite (pad_eqb _ D2), (pad_eqb _ D3).
    cbn -[base64_chars DecodeThreeChars].
    pose proof (DecodeThreeChars_group a b c []) as G. by rewrite app_nil_r in G; setoid_rewrite G.
Qed.

Lemma length_Base64Encode_loop pad s :
  Z.of_nat (length (Base64Encode_loop pad s)) =
  if pad then 4 * ((size s + 2) / 3) else (4 * size s + 2) / 3.
Proof.
  unfold size. induction s as [|a|a b|a b c s IH] using bytes_ind3; [by destruct pad..|].
  cbn [Base64Encode_loop length]. destruct pad; rewrite !Nat2Z.inj_succ, IH; Z.div_mod_to_equations; lia.
Qed.

(** ** The decoder on arbitrary input *)

Definition bad_char : Status := Status_Error (str "Invalid character found in base64.") [].

#[export] Instance is_digit_dec c : Decision (is_digit c).
Proof. unfold is_digit. apply _. Defined.

Lemma is_digit_chars c : is_digit c -> exists i, is_uint 6 i /\ c = base64_chars i.
Proof.
  intros [i Hi]. destruct (Convert_spec c) as [(j & E & _ & Hj & Hc)|[E _]]; [|congruence].
  by exists j.
Qed.

(** A group decodes to three bytes exactly when its characters are digits. *)
Lemma DecodeThreeChars_spec codes rest :
  length codes = 4%nat ->
  if decide (Forall is_digit codes)
  then exists r, DecodeThreeChars (codes ++ rest) = inr r /\ length r = 3%nat
  else DecodeThreeChars (codes ++ rest) = inl bad_char.
Proof.
  intros Hl. destruct codes as [|c0 [|c1 [|c2 [|c3 [|]]]]]; try discriminate Hl. cbn [app].
  case_decide as F.
  - rewrite !Forall_cons_iff in F. destruct F as (F0 & F1 & F2 & F3 & _).
    destruct (is_digit_chars _ F0) as (?&?&->), (is_digit_chars _ F1) as (?&?&->),
      (is_digit_chars _ F2) as (?&?&->), (is_digit_chars _ F3) as (?&?&->).
    rewrite DecodeThreeChars_digits by done. by eexists.
  - apply DecodeThreeChars_bad.
    unfold is_digit in F. 
    destruct (digit c0) eqn:E0; [|by left]. destruct (digit c1) eqn:E1; [|by right; left].
    destruct (digit c2) eqn:E2; [|by right; right; left]. destruct (digit c3) eqn:E3; [|by right; right; right].
    destruct F. repeat constructor; by eexists.
Qed.

Lemma Base64Decode_loop_spec fuel data buf :
  (length data <= fuel)%nat -> data <> [] -> exists pre last q,
    data = pre ++ last /\ (1 <= length last <= 4)%nat /\ length pre = (4 * q)%nat /\
    if decide (Forall is_digit pre)
    then exists r, Base64Decode_loop fuel data buf = inr (last, buf ++ r) /\ length r = (3 * q)%nat
    else Base64Decode_loop fuel data buf = inl bad_char.
Proof.
  revert data buf. induction fuel as [|fuel IH]; intros data buf Hf Hd.
  { destruct data; [done|simpl in Hf; lia]. }
  rewrite Base64Decode_loop_unfold. unfold size. rewrite Z.gtb_ltb.
  destruct (Z.ltb_spec 4 (Z.of_nat (length data))).
  2:{ exists [], data, O. split_and!; [done|destruct data; [done|simpl; lia]|lia|done|].
      rewrite decide_True by constructor. exists []. by rewrite app_nil_r. }
  destruct (split_at_length 4 data ltac:(lia)) as (g & rest & -> & Hg).
  rewrite length_app in *.
  pose proof (DecodeThreeChars_spec g rest Hg) as G.
  destruct (IH rest (buf ++ from_option id [] (match DecodeThreeChars (g ++ rest) with inr r => Some r | inl _ => None end)))
    as (pre & last & q & -> & Hlast & Hpre & E); [lia|by destruct rest; [simpl in *; lia|]|].
  exists (g ++ pre), last, (S q). split_and!; [by rewrite app_assoc|lia|lia|rewrite length_app; lia|].
  rewrite drop_app_length' by done.
  destruct (decide (Forall is_digit g)) as [Fg|Fg].
  - destruct G as (r & Gr & Hr). rewrite Gr in E |- *. cbn [from_option id] in E.
    destruct (decide (Forall is_digit pre)) as [Fp|Fp].
    + rewrite decide_True by (by apply Forall_app). destruct E as (r' & E & Hr').
      exists (r ++ r'). rewrite E, app_assoc. split; [done|]. rewrite length_app. lia.
    + rewrite decide_False; [done|]. by intros [??]%Forall_app.
  - rewrite G. rewrite decide_False; [done|]. by intros [??]%Forall_app.
Qed.

(** How many characters of the last group are kept. *)
Definition kept (last : bytes) : nat :=
  match last with
  | [c0; c1; c2; c3] =>
      if decide (c3 = kPadChar) then if decide (c2 = kPadChar) then 2 else 3 else 4
  | _ => length last
  end.

Lemma kept_remain last :
  (1 <= length last <= 4)%nat ->
  (let pad i := bool_decide (nth i last x00 = kPadChar) in
   if size last =? 4 then
     let remain := if pad 2%nat && pad 3%nat then 4 - 2 else 4 in
     if negb (pad 2%nat) && pad 3%nat then remain - 1 else remain
   else size last) = Z.of_nat (kept last).
Proof.
  intros. destruct last as [|c0 [|c1 [|c2 [|c3 [|]]]]]; cbn [length] in *; try lia; try done.
  cbn [nth size length kept]. cbv zeta. repeat case_bool_decide; repeat case_decide; done.
Qed.

Lemma strip_padding_last pre last q :
  (1 <= length last <= 4)%nat -> length pre = (4 * q)%nat ->
  strip_padding (pre ++ last) = pre ++ take (kept last) last.
Proof.
  intros Hl Hp. unfold strip_padding, size. rewrite length_app, Hp.
  replace (Z.of_nat (4 * q + length last) mod 4) with (Z.of_nat (length last) mod 4)
    by (Z.div_mod_to_equations; lia).
  destruct last as [|c0 [|c1 [|c2 [|c3 [|]]]]]; cbn [length] in *; try lia; try done.
  change (Z.of_nat 4 mod 4 =? 0) with true. cbv iota.
  rewrite rev_app_distr. cbn [rev app kept]. 
  repeat case_decide; cbn [take firstn rev app]; rewrite ?rev_involutive, <-?app_assoc; try done.
Qed.

Lemma kept_range last :
  (1 <= length last <= 4)%nat -> (1 <= kept last <= length last)%nat.
Proof.
  intros. destruct last as [|c0 [|c1 [|c2 [|c3 [|]]]]]; cbn [length kept] in *; repeat case_decide; lia.
Qed.

Lemma DecodeThreeChars_tail t :
  (1 <= length t <= 4)%nat ->
  let A := nth 0 kBase64UrlSafeChars x00 in
  if decide (Forall is_digit t)
  then exists r, DecodeThreeChars (take 4 (t ++ [A; A; A; A])) = inr r /\ length r = 3%nat
  else DecodeThreeChars (take 4 (t ++ [A; A; A; A])) = inl bad_char.
Proof.
  intros Hl A. pose proof (DecodeThreeChars_spec (take 4 (t ++ [A; A; A; A])) []) as G.
  rewrite app_nil_r in G. specialize (G ltac:(rewrite length_take, length_app; cbn [length]; lia)).
  assert (is_digit A) as HA by (by eexists).
  assert (Forall is_digit (take 4 (t ++ [A; A; A; A])) <-> Forall is_digit t) as E.
  { rewrite take_app, (take_ge t 4) by lia. rewrite Forall_app.
    split; [by intros [??]|]. intros ?. split; [done|].
    apply Forall_take. by repeat constructor. }
  destruct (decide (Forall is_digit (take 4 _))), (decide (Forall is_digit t)); naive_solver.
Qed.

(** ** Properties *)

(** C22. (round trip).  Encoding any bytes, with or without padding, succeeds with
    a text of the expected length, and decoding that text succeeds with the
    bytes themselves, whatever the output strings held before. *)
Theorem base64_roundtrip (s old1 old2 : bytes) (pad : bool) :
  exists enc, Base64Encode s pad (Some old1) = (Status_OK, Some enc) /\
    size enc = (if pad then 4 * ((size s + 2) / 3) else (4 * size s + 2) / 3) /\
    Base64Decode enc (Some old2) = (Status_OK, Some s).
Proof.
  exists (Base64Encode_loop pad s). split; [done|]. split; [apply length_Base64Encode_loop|].
  destruct s as [|a s]; [done|]. pose proof (Base64Encode_loop_nonnil pad a s) as Hn.
  set (enc := Base64Encode_loop pad (a :: s)) in *.
  assert (exists f, length enc = S f /\ (length (a :: s) <= f)%nat) as (f & Hf & Hle).
  { exists (pred (length enc)). split; [lia|].
    pose proof (length_Base64Encode_loop pad (a :: s)) as L. fold enc in L. unfold size in L.
    cbn [length] in *. destruct pad; Z.div_mod_to_equations; lia. }
  destruct (Base64Decode_loop_encode pad (a :: s) f [] Hle ltac:(done)) as (dn & last & E & Hl & L).
  rewrite E. apply Base64Decode_last with pad; [done|by destruct enc; [simpl in Hn; lia|]|].
  by rewrite Hf.
Qed.

(** C23. (what is accepted).  The decoder accepts exactly the texts that, once
    the padding of a last group of four is dropped, consist of alphabet
    characters and are not 1 modulo 4 long; the result then has three bytes per
    four characters.  Anything else, padding in another place included, is
    an error that leaves the output string alone. *)
Theorem base64_decode_accepts (data old : bytes) :
  let text := strip_padding data in
  if decide (Forall is_digit text /\ size text mod 4 <> 1)
  then exists r, Base64Decode data (Some old) = (Status_OK, Some r) /\ size r = 3 * size text / 4
  else exists status, Base64Decode data (Some old) = (status, Some old) /\ ok status = false.
Proof.
  intros text. unfold Base64Decode. destruct (Z.eqb_spec (size data) 0) as [H0|H0].
  { destruct data; [|unfold size in H0; simpl in H0; lia]. rewrite decide_True by (by split; [constructor|]).
    by exists []. }
  destruct (Base64Decode_loop_spec (length data) data []) as (pre & last & q & Hd & Hl & Hp & E);
    [done|by intros ->|].
  assert (text = pre ++ take (kept last) last) as Ht by (unfold text; rewrite Hd; by apply strip_padding_last with q).
  pose proof (kept_range last Hl) as Hk. pose proof (kept_remain last Hl) as Hr.
  assert (size text = 4 * Z.of_nat q + Z.of_nat (kept last)) as Hs.
  { rewrite Ht. unfold size. rewrite length_app, length_take, Hp. lia. }
  destruct (decide (Forall is_digit pre)) as [Fp|Fp].
  2:{ rewrite E, decide_False; [by eexists|]. rewrite Ht, Forall_app. naive_solver. }
  destruct E as (r & -> & Hlr). cbv zeta in Hr |- *. rewrite Hr, Nat2Z.id.
  destruct (Z.eqb_spec (Z.of_nat (kept last)) 1) as [H1|H1].
  { rewrite decide_False; [by eexists|]. intros [_ Hm]. apply Hm. rewrite Hs. Z.div_mod_to_equations. lia. }
  pose proof (DecodeThreeChars_tail (take (kept last) last) ltac:(rewrite length_take; lia)) as G.
  cbv zeta in G. destruct (decide (Forall is_digit (take (kept last) last))) as [Ft|Ft].
  - destruct G as (r' & -> & Hr'). rewrite decide_True.
    2:{ rewrite Ht, Forall_app. split; [done|]. rewrite <-Ht, Hs. Z.div_mod_to_equations. lia. }
    eexists. split; [done|]. unfold size at 1. rewrite app_nil_l, length_app, length_take, Hlr, Hr', Hs.
    Z.div_mod_to_equations. lia.
  - rewrite G, decide_False; [by eexists|]. rewrite Ht, Forall_app. naive_solver.
Qed.
