(* ===== verification/Block.v ===== *)
(** * Block: [src/util/block.h], [src/util/block.cpp], [src/util/iterator.h], [iterator.cpp]

    The table format: block handles, the footer, the checksummed read of a
    block, the prefix-compressed block itself with its iterator, and the
    builder.  Positions in a block are offsets from [data_].  In the functions
    that return an [option], [None] is a failed [assert] or a read outside the
    buffer. *)

From Stdlib Require Import Strings.String.
From stdpp Require Import strings sorting.
From S2P Require Import Prelude Coding Stringpiece Crc Status.

(** [string::resize(n)] *)
Definition resize (s : bytes) (n : nat) : bytes := take n (s ++ replicate n x00).

(** The [len] bytes at offset [off]. *)
Definition slice (data : bytes) (off len : Z) : option bytes :=
  if (0 <=? off) && (0 <=? len) && (off + len <=? size data)
  then Some (take (Z.to_nat len) (drop (Z.to_nat off) data)) else None.

Section with_port.
Context `{Port}.

(** ** Handles and the footer *)

Record BlockHandle := { offset_ : Z; size_ : Z }.
Definition BlockHandle_new : BlockHandle := {| offset_ := u64 (-1); size_ := u64 (-1) |}.

Definition kMaxEncodedLength : nat := 10 + 10.

Definition BlockHandle_EncodeTo (this : BlockHandle) (dst : bytes) : option bytes :=
  if (offset_ this =? u64 (-1)) || (size_ this =? u64 (-1)) then None
  else Some (PutVarint64 (PutVarint64 dst (offset_ this)) (size_ this)).

(** The status, the handle and what is left of [*input]. *)
Definition BlockHandle_DecodeFrom (this : BlockHandle) (input : bytes) :
    Status * BlockHandle * bytes :=
  match GetVarint64 input with
  | (input, Some offset) =>
      let this := {| offset_ := offset; size_ := size_ this |} in
      match GetVarint64 input with
      | (input, Some size) => (Status_OK, {| offset_ := offset; size_ := size |}, input)
      | (input, None) => (Status_Error (str "bad block handle") [], this, input)
      end
  | (input, None) => (Status_Error (str "bad block handle") [], this, input)
  end.

Record Footer := { metaindex_handle_ : BlockHandle; index_handle_ : BlockHandle }.

Definition kEncodedLength : nat := 2 * kMaxEncodedLength + 8.
Definition kTableMagicNumber : Z := 0xdb4775248b80fb57.
Definition kBlockTrailerSize : Z := 5.

(** [resize] is given an absolute size, whatever [dst] held before. *)
Definition Footer_EncodeTo (this : Footer) (dst : bytes) : option bytes :=
  let original_size := size dst in
  dst ← BlockHandle_EncodeTo (metaindex_handle_ this) dst;
  dst ← BlockHandle_EncodeTo (index_handle_ this) dst;
  let dst := resize dst (2 * kMaxEncodedLength) in
  let dst := PutFixed32 dst (u32 (kTableMagicNumber .& 0xffffffff)) in
  let dst := PutFixed32 dst (u32 (kTableMagicNumber .>> 32)) in
  if size dst =? original_size + Z.of_nat kEncodedLength then Some dst else None.

Definition Footer_DecodeFrom (this : Footer) (input : bytes) :
    option (Status * Footer * bytes) :=
  let magic_ptr := drop (kEncodedLength - 8) input in
  magic_lo ← DecodeFixed32 magic_ptr;
  magic_hi ← DecodeFixed32 (drop 4 magic_ptr);
  let magic := u64 (magic_hi .<< 32) .| magic_lo in
  if negb (magic =? kTableMagicNumber)
  then Some (Status_Error (str "not an sstable (bad magic number)") [], this, input)
  else
    let '(result, meta, rest) := BlockHandle_DecodeFrom (metaindex_handle_ this) input in
    if ok result then
      let '(result, index, rest) := BlockHandle_DecodeFrom (index_handle_ this) rest in
      let this := {| metaindex_handle_ := meta; index_handle_ := index |} in
      if ok result then Some (result, this, drop 8 magic_ptr) else Some (result, this, rest)
    else Some (result, {| metaindex_handle_ := meta; index_handle_ := index_handle_ this |}, rest).

(** ** Reading a block from a file *)

Record BlockContents := { data : bytes; cachable : bool; heap_allocated : bool }.

(** [file->Read(offset, n, &contents, buf)]: the status, the bytes read, and
    whether they were put into [buf]. *)
Definition file_read : Type := Z -> Z -> Status * bytes * bool.

(** [pval] is the address of the bytes read. *)
Definition ReadBlock (Read : file_read) (pval : Z) (handle : BlockHandle) :
    option (Status * BlockContents) :=
  let empty := {| data := []; cachable := false; heap_allocated := false |} in
  let n := size_ handle in
  let '(s, contents, in_buf) := Read (offset_ handle) (u64 (n + kBlockTrailerSize)) in
  if negb (ok s) then Some (s, empty)
  else if negb (size contents =? u64 (n + kBlockTrailerSize))
  then Some (Status_Error (str "truncated block read") [], empty)
  else
    trailer ← slice contents (u64 (n + 1)) 4;
    crc ← Crc32Unmask <$> DecodeFixed32 trailer;
    let actual := Crc32Value pval (take (Z.to_nat (u64 (n + 1))) contents) in
    if negb (actual =? crc) then Some (Status_Error (str "block checksum mismatch") [], empty)
    else
      type ← contents !! Z.to_nat n;
      if schar type =? 0 then
        Some (Status_OK, {| data := take (Z.to_nat n) contents;
                            cachable := in_buf; heap_allocated := in_buf |})
      else Some (Status_Error (str "bad block type") [], empty).

(** ** Blocks *)

(** [blk_size] is 0 for a block found malformed, and [restart_offset_] is then
    not set. *)
Record Block := { blk_data : bytes; blk_size : Z; restart_offset_ : option Z; owned_ : bool }.

Definition NumRestarts (data_ : bytes) (size_ : Z) : option Z :=
  if 4 <=? size_ then DecodeFixed32 (drop (Z.to_nat (size_ - 4)) data_) else None.

Definition Block_new (contents : BlockContents) : option Block :=
  let data_ := data contents in
  let size_ := size data_ in
  let bad := {| blk_data := data_; blk_size := 0; restart_offset_ := None;
                owned_ := heap_allocated contents |} in
  if size_ <? 4 then Some bad
  else
    n ← NumRestarts data_ size_;
    if n >? (size_ - 4) / 4 then Some bad
    else Some {| blk_data := data_; blk_size := size_;
                 restart_offset_ := Some (u32 (size_ - u32 (1 + n) * 4));
                 owned_ := heap_allocated contents |}.

(** Decode the entry at [p]: the offset just past the three lengths, [shared],
    [non_shared] and [value_length]; [None] for a null result. *)
Definition DecodeEntry (data_ : bytes) (p limit : Z) : option (Z * Z * Z * Z) :=
  if limit - p <? 3 then None
  else
    let l := take (Z.to_nat (limit - p)) (drop (Z.to_nat p) data_) in
    '(shared, non_shared, value_length, q) ←
      match l with
      | b0 :: b1 :: b2 :: q =>
          if (uchar b0 .| uchar b1 .| uchar b2) <? 128
          then Some (uchar b0, uchar b1, uchar b2, q)
          else
            '(shared, q) ← GetVarint32Ptr l;
            '(non_shared, q) ← GetVarint32Ptr q;
            '(value_length, q) ← GetVarint32Ptr q;
            Some (shared, non_shared, value_length, q)
      | _ => None
      end;
    if u32 (size q) <? u32 (non_shared + value_length) then None
    else Some (limit - size q, shared, non_shared, value_length).

(** ** The iterator *)

(** [it_value] is the offset of the value, [None] when it points to the static
    empty string, and its length. *)
Record Iter := {
  it_data : bytes; it_restarts : Z; it_num_restarts : Z;
  it_current : Z; it_restart_index : Z; it_key : bytes; it_value : option Z * Z;
  it_status : Status
}.

Definition Iter_new (data_ : bytes) (restarts num_restarts : Z) : option Iter :=
  if num_restarts >? 0 then
    Some {| it_data := data_; it_restarts := restarts; it_num_restarts := num_restarts;
            it_current := restarts; it_restart_index := num_restarts; it_key := [];
            it_value := (None, 0); it_status := Status_OK |}
  else None.

Definition Valid (it : Iter) : bool := it_current it <? it_restarts it.
Definition key (it : Iter) : option bytes := if Valid it then Some (it_key it) else None.
Definition value (it : Iter) : option bytes :=
  if Valid it then
    match it_value it with
    | (Some off, len) => slice (it_data it) off len
    | (None, _) => Some []
    end
  else None.

Definition NextEntryOffset (it : Iter) : option Z :=
  match it_value it with (Some off, len) => Some (u32 (off + len)) | (None, _) => None end.

Definition GetRestartPoint (it : Iter) (index : Z) : option Z :=
  if index <? it_num_restarts it
  then DecodeFixed32 (drop (Z.to_nat (it_restarts it + index * 4)) (it_data it)) else None.

Definition SeekToRestartPoint (it : Iter) (index : Z) : option Iter :=
  offset ← GetRestartPoint it index;
  Some {| it_data := it_data it; it_restarts := it_restarts it;
          it_num_restarts := it_num_restarts it; it_current := it_current it;
          it_restart_index := index; it_key := []; it_value := (Some offset, 0);
          it_status := it_status it |}.

Definition CorruptionError (it : Iter) : Iter :=
  {| it_data := it_data it; it_restarts := it_restarts it;
     it_num_restarts := it_num_restarts it; it_current := it_restarts it;
     it_restart_index := it_num_restarts it; it_key := []; it_value := (None, 0);
     it_status := Status_Error (str "bad entry in block") [] |}.

(** [while (restart_index_ + 1 < num_restarts_ && ...) ++restart_index_];
    [num_restarts_] steps are enough. *)
Fixpoint advance_restart (fuel : nat) (it : Iter) (restart_index current : Z) : option Z :=
  match fuel with
  | O => None
  | S fuel =>
      if u32 (restart_index + 1) <? it_num_restarts it then
        point ← GetRestartPoint it (u32 (restart_index + 1));
        if point <? current
        then advance_restart fuel it (u32 (restart_index + 1)) current
        else Some restart_index
      else Some restart_index
  end.

Definition ParseNextKey (it : Iter) : option (Iter * bool) :=
  current ← NextEntryOffset it;
  let limit := it_restarts it in
  if current >=? limit then
    Some ({| it_data := it_data it; it_restarts := it_restarts it;
             it_num_restarts := it_num_restarts it; it_current := it_restarts it;
             it_restart_index := it_num_restarts it; it_key := it_key it;
             it_value := it_value it; it_status := it_status it |}, false)
  else
    match DecodeEntry (it_data it) current limit with
    | Some (p, shared, non_shared, value_length) =>
        if size (it_key it) <? shared then Some (CorruptionError it, false)
        else
          delta ← slice (it_data it) p non_shared;
          restart_index ←
            advance_restart (S (Z.to_nat (it_num_restarts it))) it (it_restart_index it) current;
          Some ({| it_data := it_data it; it_restarts := it_restarts it;
                   it_num_restarts := it_num_restarts it; it_current := current;
                   it_restart_index := restart_index;
                   it_key := resize (it_key it) (Z.to_nat shared) ++ delta;
                   it_value := (Some (p + non_shared), value_length);
                   it_status := it_status it |}, true)
    | None => Some (CorruptionError it, false)
    end.

Definition Next (it : Iter) : option Iter :=
  if Valid it then fst <$> ParseNextKey it else None.

Definition SeekToFirst (it : Iter) : option Iter :=
  it ← SeekToRestartPoint it 0;
  fst <$> ParseNextKey it.

(** The binary search of [Seek]: the restart point to start from, or [inl] of
    the iterator after [CorruptionError].  The interval [[left, right]] shrinks
    at every step, so [num_restarts_] steps are enough. *)
Fixpoint Seek_binary (fuel : nat) (it : Iter) (target : bytes) (left_ right_ : Z) :
    option (Iter + Z) :=
  match fuel with
  | O => None
  | S fuel =>
      if left_ <? right_ then
        let mid := u32 (left_ + right_ + 1) / 2 in
        region_offset ← GetRestartPoint it mid;
        match DecodeEntry (it_data it) region_offset (it_restarts it) with
        | Some (key_ptr, shared, non_shared, _) =>
            if negb (shared =? 0) then Some (inl (CorruptionError it))
            else
              mid_key ← slice (it_data it) key_ptr non_shared;
              if compare mid_key target <? 0
              then Seek_binary fuel it target mid right_
              else Seek_binary fuel it target left_ (mid - 1)
        | None => Some (inl (CorruptionError it))
        end
      else Some (inr left_)
  end.

(** The linear search: every entry takes at least three bytes. *)
Fixpoint Seek_linear (fuel : nat) (it : Iter) (target : bytes) : option Iter :=
  match fuel with
  | O => None
  | S fuel =>
      '(it, more) ← ParseNextKey it;
      if negb more then Some it
      else if compare (it_key it) target >=? 0 then Some it
      else Seek_linear fuel it target
  end.

Definition Seek (it : Iter) (target : bytes) : option Iter :=
  left_ ← Seek_binary (S (Z.to_nat (it_num_restarts it))) it target 0 (it_num_restarts it - 1);
  match left_ with
  | inl it => Some it
  | inr left_ =>
      it ← SeekToRestartPoint it left_;
      Seek_linear (S (length (it_data it))) it target
  end.

(** What [NewIterator] returns: an [EmptyIterator] with a status, or an [Iter]. *)
Inductive Iterator := EmptyIterator (status : Status) | BlockIter (it : Iter).

Definition NewEmptyIterator : Iterator := EmptyIterator Status_OK.
Definition NewErrorIterator (status : Status) : Iterator := EmptyIterator status.

Definition NewIterator (b : Block) : option Iterator :=
  if blk_size b <? 4 then Some (NewErrorIterator (Status_Error (str "bad block contents") []))
  else
    num_restarts ← NumRestarts (blk_data b) (blk_size b);
    if num_restarts =? 0 then Some NewEmptyIterator
    else
      restarts ← restart_offset_ b;
      BlockIter <$> Iter_new (blk_data b) restarts num_restarts.

(** ** The builder *)

Record BlockBuilder := {
  block_restart_interval : Z;
  buffer_ : bytes; restarts_ : list Z; counter_ : Z; finished_ : bool; last_key_ : bytes
}.

Definition BlockBuilder_new (interval : Z) : option BlockBuilder :=
  if interval >=? 1 then
    Some {| block_restart_interval := interval; buffer_ := []; restarts_ := [0];
            counter_ := 0; finished_ := false; last_key_ := [] |}
  else None.

Definition Reset (b : BlockBuilder) : BlockBuilder :=
  {| block_restart_interval := block_restart_interval b; buffer_ := []; restarts_ := [0];
     counter_ := 0; finished_ := false; last_key_ := [] |}.

Definition CurrentSizeEstimate (b : BlockBuilder) : Z :=
  u64 (size (buffer_ b) + Z.of_nat (length (restarts_ b)) * 4 + 4).

Definition Finish (b : BlockBuilder) : BlockBuilder * bytes :=
  let buffer := fold_left PutFixed32 (restarts_ b) (buffer_ b) in
  let buffer := PutFixed32 buffer (u32 (Z.of_nat (length (restarts_ b)))) in
  ({| block_restart_interval := block_restart_interval b; buffer_ := buffer;
      restarts_ := restarts_ b; counter_ := counter_ b; finished_ := true;
      last_key_ := last_key_ b |}, buffer).

Definition Add (b : BlockBuilder) (key value : bytes) : option BlockBuilder :=
  if finished_ b then None
  else if negb (counter_ b <=? block_restart_interval b) then None
  else if negb ((size (buffer_ b) =? 0) || (compare key (last_key_ b) >? 0)) then None
  else
    let '(shared, restarts, counter) :=
      if counter_ b <? block_restart_interval b
      then (difference_offset (last_key_ b) key, restarts_ b, counter_ b)
      else (0%nat, restarts_ b ++ [u32 (size (buffer_ b))], 0) in
    let non_shared := (length key - shared)%nat in
    let buffer := PutVarint32 (buffer_ b) (u32 (Z.of_nat shared)) in
    let buffer := PutVarint32 buffer (u32 (Z.of_nat non_shared)) in
    let buffer := PutVarint32 buffer (u32 (size value)) in
    let buffer := buffer ++ drop shared key in
    let buffer := buffer ++ value in
    let last_key := resize (last_key_ b) shared ++ drop shared key in
    if negb (piece_eq last_key key) then None
    else Some {| block_restart_interval := block_restart_interval b; buffer_ := buffer;
                 restarts_ := restarts; counter_ := counter + 1; finished_ := false;
                 last_key_ := last_key |}.

(** A client's loops: adding a list of entries, and walking an iterator. *)
Fixpoint AddAll (b : BlockBuilder) (kvs : list (bytes * bytes)) : option BlockBuilder :=
  match kvs with
  | [] => Some b
  | (k, v) :: kvs => b ← Add b k v; AddAll b kvs
  end.

Fixpoint walk (fuel : nat) (it : Iter) : option (list (bytes * bytes) * Iter) :=
  match fuel with
  | O => None
  | S fuel =>
      if Valid it then
        k ← key it; v ← value it;
        it ← Next it;
        '(kvs, it) ← walk fuel it;
        Some ((k, v) :: kvs, it)
      else Some ([], it)
  end.

End with_port.

(** ** Slices *)

Lemma size_to_nat a : Z.to_nat (size a) = length a.
Proof. unfold size. lia. Qed.

Lemma slice_app a b c n : n = size b -> slice (a ++ b ++ c) (size a) n = Some b.
Proof.
  intros ->. unfold slice. pose proof (size_nonneg a). pose proof (size_nonneg b). pose proof (size_nonneg c).
  rewrite !size_app.
  rewrite (proj2 (Z.leb_le 0 (size a))), (proj2 (Z.leb_le 0 (size b))), (proj2 (Z.leb_le _ (_ + (_ + _)))) by lia.
  cbn [andb]. by rewrite !size_to_nat, drop_app_length, take_app_length.
Qed.

Lemma resize_prefix (l t : bytes) : resize (l ++ t) (length l) = l.
Proof. unfold resize. by rewrite <-app_assoc, take_app_length. Qed.
Lemma resize_take (l : bytes) n : (n <= length l)%nat -> resize l n = take n l.
Proof. intros. unfold resize. by rewrite take_app_le. Qed.

Section with_port.
Context `{Port}.

(** ** Entries *)

(** The encoding of one entry that shares [shared] bytes with the key before. *)
Definition header (shared : nat) (k v : bytes) : bytes :=
  EncodeVarint32 (Z.of_nat shared) ++ EncodeVarint32 (Z.of_nat (length k - shared)) ++
  EncodeVarint32 (size v).
Definition entry (shared : nat) (k v : bytes) : bytes := header shared k v ++ drop shared k ++ v.

(** [buf] holds the entries [kvs], the first one relative to the key [prev]. *)
Inductive encodes : bytes -> list (bytes * bytes) -> bytes -> Prop :=
  | encodes_nil prev : encodes prev [] []
  | encodes_cons prev shared k v kvs buf :
      (shared <= length prev)%nat -> (shared <= length k)%nat ->
      take shared prev = take shared k -> is_uint 32 (size k) ->
      encodes k kvs buf -> encodes prev ((k, v) :: kvs) (entry shared k v ++ buf).

Definition last_key (prev : bytes) (kvs : list (bytes * bytes)) : bytes :=
  fold_left (fun _ kv => fst kv) kvs prev.

Lemma encodes_app prev kvs1 buf1 kvs2 buf2 :
  encodes prev kvs1 buf1 -> encodes (last_key prev kvs1) kvs2 buf2 ->
  encodes prev (kvs1 ++ kvs2) (buf1 ++ buf2).
Proof.
  induction 1 as [prev|prev shared k v kvs buf ???? _ IH]; [done|].
  intros E. cbn [app]. rewrite <-app_assoc. constructor; [done..|]. by apply IH.
Qed.

(** A group that shares nothing with what precedes it can follow any key. *)
Lemma encodes_any prev kvs buf : encodes [] kvs buf -> encodes prev kvs buf.
Proof.
  inversion 1 as [|? shared k v kvs' buf' Hs]; subst; [constructor|].
  simpl in Hs. assert (shared = 0%nat) as -> by lia. by constructor; [lia..| | |].
Qed.

Lemma length_header shared k v : (3 <= length (header shared k v) <= 15)%nat.
Proof.
  unfold header. rewrite !length_app.
  pose proof (length_EncodeVarint32 (Z.of_nat shared)).
  pose proof (length_EncodeVarint32 (Z.of_nat (length k - shared))).
  pose proof (length_EncodeVarint32 (size v)). lia.
Qed.

Lemma header_app shared k v x :
  header shared k v ++ x =
  EncodeVarint32 (Z.of_nat shared) ++ EncodeVarint32 (Z.of_nat (length k - shared)) ++
  EncodeVarint32 (size v) ++ x.
Proof. unfold header. by rewrite <-!app_assoc. Qed.

Lemma encodes_length prev kvs buf : encodes prev kvs buf -> (3 * length kvs <= length buf)%nat.
Proof.
  induction 1; [done|]. unfold entry. rewrite !length_app. cbn [length].
  pose proof (length_header shared k v). lia.
Qed.

(** ** Decoding an entry *)

Lemma lor_lt_128 a b : is_uint 8 a -> is_uint 8 b -> a .| b < 128 -> a < 128 /\ b < 128.
Proof.
  intros Ha Hb Hlt. change 128 with (2 ^ 7) in *.
  assert (is_uint 7 (a .| b)) as Hu by (split; [apply Z.lor_nonneg; destruct Ha, Hb; lia|done]).
  destruct Ha as [Ha _], Hb as [Hb _].
  assert (B : forall i, 7 <= i -> Z.testbit a i = false /\ Z.testbit b i = false).
  { intros i Hi. pose proof (is_uint_testbit 7 _ i Hu Hi) as T. rewrite Z.lor_spec in T.
    by apply orb_false_iff in T. }
  split; [apply (is_uint_bits 7 a)|apply (is_uint_bits 7 b)]; try lia; apply B.
Qed.

Lemma GetVarint32Ptr_byte b q : uchar b < 128 -> GetVarint32Ptr (b :: q) = Some (uchar b, q).
Proof.
  intros. unfold GetVarint32Ptr. rewrite uchar_land128. by rewrite (proj2 (Z.ltb_lt _ _)).
Qed.

(** The fast path decodes what the general path does. *)
Lemma DecodeEntry_slow data_ p limit :
  3 <= limit - p ->
  let l := take (Z.to_nat (limit - p)) (drop (Z.to_nat p) data_) in
  (3 <= length l)%nat ->
  DecodeEntry data_ p limit =
    ('(shared, q) ← GetVarint32Ptr l;
     '(non_shared, q) ← GetVarint32Ptr q;
     '(value_length, q) ← GetVarint32Ptr q;
     if u32 (size q) <? u32 (non_shared + value_length) then None
     else Some (limit - size q, shared, non_shared, value_length)).
Proof.
  intros Hp l Hl. unfold DecodeEntry. fold l. rewrite (proj2 (Z.ltb_ge _ _)) by lia.
  destruct l as [|b0 [|b1 [|b2 q]]] eqn:E; simpl in Hl; try lia.
  destruct (Z.ltb_spec (uchar b0 .| uchar b1 .| uchar b2) 128) as [Hlt|_].
  - apply lor_lt_128 in Hlt as [Hlt ?]; [|auto with width..].
    apply lor_lt_128 in Hlt as [??]; [|auto with width..].
    rewrite GetVarint32Ptr_byte by done. cbn [mbind option_bind].
    rewrite GetVarint32Ptr_byte by done. cbn [mbind option_bind].
    rewrite GetVarint32Ptr_byte by done. done.
  - destruct (GetVarint32Ptr (b0 :: b1 :: b2 :: q)) as [[? q1]|]; [|done]. cbn [mbind option_bind].
    destruct (GetVarint32Ptr q1) as [[? q2]|]; [|done]. cbn [mbind option_bind].
    by destruct (GetVarint32Ptr q2) as [[? q3]|].
Qed.

Lemma DecodeEntry_entry pre shared k v post tail :
  (shared <= length k)%nat -> is_uint 32 (size k) ->
  is_uint 32 (size (pre ++ entry shared k v ++ post)) ->
  DecodeEntry ((pre ++ entry shared k v ++ post) ++ tail) (size pre)
    (size (pre ++ entry shared k v ++ post)) =
  Some (size (pre ++ header shared k v), Z.of_nat shared, Z.of_nat (length k - shared), size v).
Proof.
  intros Hsh Hk32 Hu. pose proof (length_header shared k v) as Hh.
  assert (El : take (Z.to_nat (size (pre ++ entry shared k v ++ post) - size pre))
                 (drop (Z.to_nat (size pre)) ((pre ++ entry shared k v ++ post) ++ tail)) = entry shared k v ++ post).
  { rewrite size_to_nat, <-app_assoc, drop_app_length. rewrite size_app.
    replace (size pre + size (entry shared k v ++ post) - size pre) with (size (entry shared k v ++ post)) by lia.
    by rewrite size_to_nat, take_app_length. }
  assert (Hlen : (3 <= length (entry shared k v ++ post))%nat).
  { unfold entry. rewrite !length_app. lia. }
  rewrite DecodeEntry_slow; cbv zeta; rewrite ?El; [| |done].
  2:{ rewrite size_app. unfold size at 2. lia. }
  assert (Ek : size (drop shared k) = Z.of_nat (length k - shared)) by (unfold size; by rewrite length_drop).
  assert (Hsz : size (pre ++ entry shared k v ++ post) =
                size (pre ++ header shared k v) + size (drop shared k ++ v ++ post)).
  { unfold entry. rewrite !size_app. lia. }
  rewrite Hsz in Hu |- *. clear Hsz El. unfold is_uint in *.
  rewrite !size_app in *.
  pose proof (size_nonneg pre). pose proof (size_nonneg v). pose proof (size_nonneg post).
  pose proof (size_nonneg (header shared k v)).
  assert (Hks : is_uint 32 (Z.of_nat shared)) by (unfold is_uint, size in *; lia).
  assert (Hns : is_uint 32 (Z.of_nat (length k - shared))) by (unfold is_uint, size in *; lia).
  assert (Hv : is_uint 32 (size v)) by (unfold is_uint; lia).
  unfold entry. rewrite <-!app_assoc. rewrite header_app.
  rewrite GetVarint32Ptr_encode by done. cbn [mbind option_bind].
  rewrite GetVarint32Ptr_encode by done. cbn [mbind option_bind].
  rewrite GetVarint32Ptr_encode by done. cbn [mbind option_bind].
  rewrite !size_app, Ek, !wrap_small by (unfold is_uint; lia).
  rewrite (proj2 (Z.ltb_ge _ _)) by lia. do 4 f_equal. lia.
Qed.

End with_port.

(** ** Iterating over a well-formed block *)

Section iteration.
Context `{Port} (body tail : bytes) (num : Z).
Hypothesis body_size : is_uint 32 (size body).
Hypothesis num_range : 0 < num < 2 ^ 32 - 1.
Hypothesis restarts_readable : forall i, 0 <= i < num ->
  is_Some (DecodeFixed32 (drop (Z.to_nat (size body + i * 4)) (body ++ tail))).

(** An iterator of the block. *)
Definition ready (it : Iter) : Prop :=
  it_data it = body ++ tail /\ it_restarts it = size body /\ it_num_restarts it = num /\
  it_status it = Status_OK /\ 0 <= it_restart_index it <= num.

(** The entries [kvs] are those still to be parsed. *)
Definition before (it : Iter) (kvs : list (bytes * bytes)) : Prop :=
  ready it /\ exists pre rest, body = pre ++ rest /\ encodes (it_key it) kvs rest /\
    NextEntryOffset it = Some (size pre).

(** The iterator stands at the first entry of [kvs], or is not valid. *)
Definition at_entry (it : Iter) (kvs : list (bytes * bytes)) : Prop :=
  ready it /\
  match kvs with
  | [] => Valid it = false
  | (k, v) :: kvs => Valid it = true /\ it_key it = k /\ value it = Some v /\ before it kvs
  end.

Lemma GetRestartPoint_ready it i : ready it -> 0 <= i < num -> is_Some (GetRestartPoint it i).
Proof.
  intros (Hd & Hr & Hn & _) Hi. unfold GetRestartPoint. rewrite Hd, Hr, Hn.
  rewrite (proj2 (Z.ltb_lt _ _)) by lia. by apply restarts_readable.
Qed.

Lemma advance_restart_ready it ri current fuel :
  ready it -> 0 <= ri <= num -> (Z.to_nat (num - ri) < fuel)%nat ->
  exists ri', advance_restart fuel it ri current = Some ri' /\ 0 <= ri' <= num.
Proof.
  intros Hr. revert ri. induction fuel as [|fuel IH]; intros ri Hri Hf; [lia|].
  cbn [advance_restart]. rewrite wrap_small by (unfold is_uint; lia).
  pose proof Hr as (_ & _ & -> & _).
  destruct (Z.ltb_spec (ri + 1) num); [|eauto].
  destruct (GetRestartPoint_ready it (ri + 1) Hr ltac:(lia)) as [point ->]. cbn [mbind option_bind].
  destruct (point <? current); [|eauto]. apply IH; lia.
Qed.

Lemma ParseNextKey_nil it :
  before it [] -> exists it', ParseNextKey it = Some (it', false) /\ at_entry it' [].
Proof.
  intros ((Hd & Hr & Hn & Hs & Hi) & pre & rest & Hb & He & Ho).
  inversion He; subst. rewrite app_nil_r in Hb. unfold ParseNextKey. rewrite Ho, Hr. cbn [mbind option_bind].
  rewrite Z.geb_leb, (proj2 (Z.leb_le _ _)) by (rewrite Hb; lia).
  eexists. split; [done|]. split; [|apply Z.ltb_irrefl].
  repeat split; cbn; try done; lia.
Qed.

Lemma ParseNextKey_cons it k v kvs :
  before it ((k, v) :: kvs) ->
  exists it', ParseNextKey it = Some (it', true) /\ at_entry it' ((k, v) :: kvs).
Proof.
  intros (Hready & pre & rest & Hb & He & Ho). pose proof Hready as (Hd & Hr & Hn & Hs & Hi).
  inversion He as [|? shared ? ? ? rest' Hsp Hsk Htake Hk32 He']; subst rest.
  unfold ParseNextKey. rewrite Ho, Hr, Hd, Hn. cbn [mbind option_bind].
  pose proof (length_header shared k v) as Hh.
  assert (Hsz : size body = size (pre ++ header shared k v) + (size (drop shared k) + size v + size rest')).
  { rewrite Hb. unfold entry. rewrite !size_app. lia. }
  pose proof (size_nonneg pre). pose proof (size_nonneg v). pose proof (size_nonneg rest').
  pose proof (size_nonneg (drop shared k)).
  assert (Hph : size (pre ++ header shared k v) = size pre + Z.of_nat (length (header shared k v)))
    by (rewrite size_app; done).
  rewrite Z.geb_leb, (proj2 (Z.leb_gt _ _)) by lia.
  rewrite Hb in body_size. pose proof (DecodeEntry_entry pre shared k v rest' tail Hsk Hk32 body_size) as E.
  rewrite <-Hb in E. rewrite E. clear E.
  rewrite (proj2 (Z.ltb_ge _ _)) by (unfold size; lia).
  assert (Es : slice (body ++ tail) (size (pre ++ header shared k v)) (Z.of_nat (length k - shared)) = Some (drop shared k)).
  { assert (body ++ tail = (pre ++ header shared k v) ++ drop shared k ++ (v ++ rest' ++ tail)) as ->
      by (rewrite Hb; unfold entry; by rewrite <-!app_assoc).
    apply slice_app. unfold size. by rewrite length_drop. }
  rewrite Es. cbn [mbind option_bind].
  destruct (advance_restart_ready it (it_restart_index it) (size pre) (S (Z.to_nat num)) Hready Hi ltac:(lia))
    as (ri' & -> & Hri'). cbn [mbind option_bind].
  eexists. split; [done|]. rewrite Nat2Z.id.
  assert (Ek : resize (it_key it) shared ++ drop shared k = k).
  { rewrite resize_take, Htake by done. apply take_drop. }
  rewrite Ek.
  assert (Edrop : size (drop shared k) = Z.of_nat (length k - shared)) by (unfold size; by rewrite length_drop).
  split; [by repeat split; cbn; try done; lia|].
  unfold Valid. cbn. split_and!; [by apply Z.ltb_lt; lia|done| |].
  - unfold value, Valid. cbn. rewrite (proj2 (Z.ltb_lt _ _)) by lia.
    rewrite <-Edrop, <-size_app.
    assert (body ++ tail = ((pre ++ header shared k v) ++ drop shared k) ++ v ++ (rest' ++ tail)) as ->
      by (rewrite Hb; unfold entry; by rewrite <-!app_assoc).
    by apply slice_app.
  - split; [by repeat split; cbn; try done; lia|].
    exists (pre ++ entry shared k v), rest'. split_and!; [by rewrite Hb, <-app_assoc|done|].
    unfold NextEntryOffset. cbn. f_equal. rewrite wrap_small.
    + rewrite <-Edrop, <-!size_app. unfold entry. by rewrite <-!app_assoc.
    + unfold is_uint in *. rewrite <-Hb in body_size. lia.
Qed.

Lemma ParseNextKey_before it kvs :
  before it kvs -> exists it' more, ParseNextKey it = Some (it', more) /\ at_entry it' kvs /\
    more = negb (bool_decide (kvs = [])).
Proof.
  intros Hb. destruct kvs as [|[k v] kvs].
  - destruct (ParseNextKey_nil it Hb) as (it' & E & ?). by exists it', false.
  - destruct (ParseNextKey_cons it k v kvs Hb) as (it' & E & ?). by exists it', true.
Qed.

Lemma walk_at_entry fuel it kvs :
  (length kvs < fuel)%nat -> at_entry it kvs ->
  exists it', walk fuel it = Some (kvs, it') /\ Valid it' = false /\ it_status it' = Status_OK.
Proof.
  revert it kvs. induction fuel as [|fuel IH]; intros it kvs Hf [Hr Ha]; [lia|].
  cbn [walk]. destruct kvs as [|[k v] kvs].
  { rewrite Ha. exists it. split_and!; [done..|apply Hr]. }
  destruct Ha as (Hv & Hk & Hval & Hb). unfold key, Next. rewrite Hv, Hval, Hk. cbn [mbind option_bind].
  destruct (ParseNextKey_before it kvs Hb) as (it1 & more & -> & Ha1 & _). cbn.
  destruct (IH it1 kvs ltac:(simpl in Hf; lia) Ha1) as (it' & -> & ?). by exists it'.
Qed.

(** The entries from the first one whose key is at or past [target]. *)
Fixpoint suffix_ge (target : bytes) (kvs : list (bytes * bytes)) : list (bytes * bytes) :=
  match kvs with
  | [] => []
  | (k, v) :: kvs' => if compare k target >=? 0 then kvs else suffix_ge target kvs'
  end.

Lemma Seek_linear_before fuel it target kvs :
  (length kvs < fuel)%nat -> before it kvs ->
  exists it', Seek_linear fuel it target = Some it' /\ at_entry it' (suffix_ge target kvs).
Proof.
  revert it kvs. induction fuel as [|fuel IH]; intros it kvs Hf Hb; [lia|].
  cbn [Seek_linear]. destruct (ParseNextKey_before it kvs Hb) as (it1 & more & -> & Ha & ->).
  cbn [mbind option_bind]. destruct kvs as [|[k v] kvs].
  { by exists it1. }
  cbn [suffix_ge]. rewrite bool_decide_eq_false_2 by done. cbn [negb].
  pose proof Ha as (Hr & Hv & Hk & Hval & Hb1). rewrite Hk.
  destruct (compare k target >=? 0); [by exists it1|].
  apply IH; [simpl in Hf; lia|done].
Qed.

Lemma SeekToRestartPoint_before it i pre rest kvs :
  ready it -> 0 <= i < num -> GetRestartPoint it i = Some (size pre) ->
  body = pre ++ rest -> encodes [] kvs rest ->
  exists it', SeekToRestartPoint it i = Some it' /\ before it' kvs.
Proof.
  intros (Hd & Hr & Hn & Hs & Hi) Hin E Hb He. unfold SeekToRestartPoint. rewrite E. cbn [mbind option_bind].
  eexists. split; [done|]. split; [by repeat split; cbn; try done; lia|].
  exists pre, rest. split_and!; [done|done|]. unfold NextEntryOffset. cbn. f_equal.
  rewrite Z.add_0_r. apply wrap_small. unfold is_uint in *. rewrite Hb, size_app in body_size.
  pose proof (size_nonneg pre). pose proof (size_nonneg rest). lia.
Qed.

End iteration.

(** Keys in the order of the iterator's [Compare]. *)
Definition key_lt (a b : bytes * bytes) : Prop := Compare BytewiseComparator (fst a) (fst b) < 0.

Lemma suffix_ge_app target l1 l2 :
  Forall (fun kv => compare (fst kv) target < 0) l1 -> suffix_ge target (l1 ++ l2) = suffix_ge target l2.
Proof.
  induction 1 as [|[k v] l1 Hk _ IH]; [done|]. cbn [app suffix_ge fst] in *.
  by rewrite Z.geb_leb, (proj2 (Z.leb_gt _ _)).
Qed.

(** A group of entries that starts afresh, and a list of them. *)
Abbreviation group := (prod (list (bytes * bytes)) bytes).
Definition groups_kvs (gs : list group) : list (bytes * bytes) := concat (map fst gs).
Definition groups_buf (gs : list group) : bytes := concat (map snd gs).

Section groups.
Context `{Port}.

Definition group_ok (g : group) : Prop := encodes [] (fst g) (snd g).

Lemma groups_encodes gs : Forall group_ok gs -> encodes [] (groups_kvs gs) (groups_buf gs).
Proof.
  induction 1 as [|g gs Hg _ IH]; [constructor|]. cbn. apply encodes_app; [done|]. by apply encodes_any.
Qed.

Lemma groups_take_drop gs i :
  groups_kvs gs = groups_kvs (take i gs) ++ groups_kvs (drop i gs) /\
  groups_buf gs = groups_buf (take i gs) ++ groups_buf (drop i gs).
Proof.
  rewrite <-(take_drop i gs) at 1 4. unfold groups_kvs, groups_buf.
  by rewrite !map_app, !concat_app.
Qed.

Context (gs : list group) (tail : bytes).
Let body := groups_buf gs.
Let num := Z.of_nat (length gs).
Hypothesis groups_ok : Forall group_ok gs.
Hypothesis body_size : is_uint 32 (size body).
Hypothesis num_small : 0 < num < 2 ^ 31.
(** Only the sole group of an empty block is empty. *)
Hypothesis nonempty : forall i g, (0 < i)%nat -> gs !! i = Some g -> fst g <> [].
Hypothesis restarts : forall i, (i < length gs)%nat ->
  DecodeFixed32 (drop (Z.to_nat (size body + Z.of_nat i * 4)) (body ++ tail)) =
  Some (size (groups_buf (take i gs))).
Hypothesis sorted : StronglySorted key_lt (groups_kvs gs).

Lemma num_range : 0 < num < 2 ^ 32 - 1.
Proof. change (2 ^ 31) with 2147483648 in *. change (2 ^ 32) with 4294967296. lia. Qed.

Lemma restarts_readable i : 0 <= i < num ->
  is_Some (DecodeFixed32 (drop (Z.to_nat (size body + i * 4)) (body ++ tail))).
Proof.
  intros Hi. unfold num in Hi. pose proof (restarts (Z.to_nat i) ltac:(lia)) as E.
  rewrite Z2Nat.id in E by lia. by eexists.
Qed.

Lemma GetRestartPoint_groups it i :
  ready body tail num it -> (i < length gs)%nat ->
  GetRestartPoint it (Z.of_nat i) = Some (size (groups_buf (take i gs))).
Proof.
  intros (Hd & Hr & Hn & _) Hi. unfold GetRestartPoint. rewrite Hd, Hr, Hn.
  rewrite (proj2 (Z.ltb_lt _ _)) by (unfold num; lia). by apply restarts.
Qed.

(** The group to start from is the first, or its first key is below [target]. *)
Definition starts_below (target : bytes) (i : nat) : Prop :=
  i = 0%nat \/ exists k v kvs b, gs !! i = Some ((k, v) :: kvs, b) /\ compare k target < 0.

Lemma DecodeEntry_group i g :
  gs !! i = Some g -> fst g <> [] -> exists k v kvs b key_ptr value_length,
    g = ((k, v) :: kvs, b) /\
    DecodeEntry (body ++ tail) (size (groups_buf (take i gs))) (size body) =
      Some (key_ptr, 0, size k, value_length) /\
    slice (body ++ tail) key_ptr (size k) = Some k.
Proof.
  intros Hg Hne. destruct g as [kvs b]. pose proof (Forall_lookup_1 _ _ _ _ groups_ok Hg) as He.
  unfold group_ok in He. cbn in *. inversion He as [|? shared k v kvs' buf' Hs ? ? Hk32 ?]; subst; [done|].
  simpl in Hs. assert (shared = 0%nat) as -> by lia.
  assert (Eb : body = groups_buf (take i gs) ++ entry 0 k v ++ (buf' ++ groups_buf (drop (S i) gs))).
  { unfold body. destruct (groups_take_drop gs i) as [_ E]. rewrite E at 1.
    rewrite (drop_S _ _ _ Hg). unfold groups_buf at 2. cbn. by rewrite <-app_assoc. }
  rewrite Eb in body_size.
  pose proof (DecodeEntry_entry (groups_buf (take i gs)) 0 k v _ tail ltac:(lia) Hk32 body_size) as E.
  rewrite <-Eb, Nat.sub_0_r in E.
  exists k, v, kvs', (entry 0 k v ++ buf'),
    (size (groups_buf (take i gs) ++ header 0 k v)), (size v).
  split_and!; [done|exact E|].
  rewrite Eb. unfold entry. cbn [drop]. rewrite <-!app_assoc, app_assoc. by apply slice_app.
Qed.

Lemma Seek_binary_groups fuel it target l r :
  ready body tail num it -> (l <= r < length gs)%nat -> (r - l < fuel)%nat -> starts_below target l ->
  exists m, Seek_binary fuel it target (Z.of_nat l) (Z.of_nat r) = Some (inr (Z.of_nat m)) /\
    (m < length gs)%nat /\ starts_below target m.
Proof.
  intros Hr. revert l r. induction fuel as [|fuel IH]; intros l r Hlr Hf Hs; [lia|].
  cbn [Seek_binary]. destruct (Z.ltb_spec (Z.of_nat l) (Z.of_nat r)) as [Hlt|Hge].
  2:{ exists l. split_and!; [done|lia|done]. }
  pose proof num_small as Hnr. unfold num in Hnr.
  rewrite wrap_small by (unfold is_uint; change (2 ^ 31) with 2147483648 in *; change (2 ^ 32) with 4294967296; lia).
  assert (exists m : nat, (Z.of_nat l + Z.of_nat r + 1) / 2 = Z.of_nat m /\ (l < m <= r)%nat) as (m & -> & Hm).
  { exists (Z.to_nat ((Z.of_nat l + Z.of_nat r + 1) / 2)). Z.div_mod_to_equations. lia. }
  rewrite GetRestartPoint_groups by (done || lia). cbn [mbind option_bind].
  pose proof Hr as (Hd & Hre & _). rewrite Hd, Hre.
  destruct (lookup_lt_is_Some_2 gs m ltac:(lia)) as [g Hg].
  destruct (DecodeEntry_group m g Hg (nonempty m g ltac:(lia) Hg)) as (k & v & kvs & b & kp & vl & -> & -> & Esl).
  cbn [negb Z.eqb]. rewrite Esl. cbn [mbind option_bind].
  destruct (Z.ltb_spec (compare k target) 0).
  - apply IH; [lia|lia|]. right. by exists k, v, kvs, b.
  - replace (Z.of_nat m - 1) with (Z.of_nat (m - 1)) by lia. apply IH; [lia|lia|done].
Qed.

Lemma starts_below_suffix target m :
  (m < length gs)%nat -> starts_below target m ->
  suffix_ge target (groups_kvs gs) = suffix_ge target (groups_kvs (drop m gs)).
Proof.
  intros Hm [->|(k & v & kvs & b & Hg & Hk)]; [done|].
  destruct (groups_take_drop gs m) as [E _]. rewrite E. apply suffix_ge_app.
  rewrite E in sorted. apply Forall_forall. intros kv Hin.
  assert ((k, v) ∈ groups_kvs (drop m gs)) as Hin2.
  { rewrite (drop_S _ _ _ Hg). cbn. by left. }
  pose proof (StronglySorted_app_1_elem_of _ _ _ _ _ sorted (proj2 (list_elem_of_In _ _) Hin) Hin2) as Hlt.
  exact (Compare_trans (c := BytewiseComparator) _ _ _ Hlt Hk).
Qed.

Lemma groups_kvs_length : (3 * length (groups_kvs gs) <= length body)%nat.
Proof. apply (encodes_length []), groups_encodes, groups_ok. Qed.

Lemma restart_before it m :
  ready body tail num it -> (m < length gs)%nat ->
  exists it', SeekToRestartPoint it (Z.of_nat m) = Some it' /\
    before body tail num it' (groups_kvs (drop m gs)).
Proof.
  intros Hr Hm. eapply (SeekToRestartPoint_before body tail num) with (pre := groups_buf (take m gs)); try done.
  - unfold num. lia.
  - by apply GetRestartPoint_groups.
  - apply groups_take_drop.
  - by apply groups_encodes, Forall_drop.
Qed.

Lemma SeekToFirst_groups it :
  ready body tail num it ->
  exists it', SeekToFirst it = Some it' /\ at_entry body tail num it' (groups_kvs gs).
Proof.
  intros Hr. unfold num in num_small. destruct (restart_before it 0 Hr ltac:(lia)) as (it1 & E & Hb).
  unfold SeekToFirst. change 0 with (Z.of_nat 0). rewrite E. cbn [mbind option_bind].
  destruct (ParseNextKey_before body tail num body_size num_range restarts_readable it1 _ Hb)
    as (it2 & more & -> & Ha & _). by exists it2.
Qed.

Lemma Seek_groups it target :
  ready body tail num it ->
  exists it', Seek it target = Some it' /\ at_entry body tail num it' (suffix_ge target (groups_kvs gs)).
Proof.
  intros Hr. unfold Seek. pose proof Hr as (Hd & _ & Hn & _). rewrite Hn. unfold num in *.
  replace (Z.of_nat (length gs) - 1) with (Z.of_nat (length gs - 1)) by lia. rewrite Nat2Z.id.
  change 0 with (Z.of_nat 0).
  destruct (Seek_binary_groups (S (length gs)) it target 0 (length gs - 1)) as (m & -> & Hm & Hs);
    [done|lia|lia|by left|]. cbn [mbind option_bind].
  destruct (restart_before it m Hr Hm) as (it1 & -> & Hb). cbn [mbind option_bind].
  rewrite (starts_below_suffix target m Hm Hs).
  apply (Seek_linear_before body tail _ body_size num_range restarts_readable); [|done].
  destruct Hb as [[Hd1 _] _]. rewrite Hd1, length_app. pose proof groups_kvs_length as Hl.
  destruct (groups_take_drop gs m) as [E _]. rewrite E, length_app in Hl. lia.
Qed.

End groups.

(** ** The builder *)

Lemma groups_buf_app gs1 gs2 : groups_buf (gs1 ++ gs2) = groups_buf gs1 ++ groups_buf gs2.
Proof. unfold groups_buf. by rewrite map_app, concat_app. Qed.
Lemma groups_kvs_app gs1 gs2 : groups_kvs (gs1 ++ gs2) = groups_kvs gs1 ++ groups_kvs gs2.
Proof. unfold groups_kvs. by rewrite map_app, concat_app. Qed.

(** Where each group starts. *)
Definition offsets (gs : list group) : list Z :=
  map (fun i => size (groups_buf (take i gs))) (seq 0 (length gs)).

Lemma offsets_snoc gs g : offsets (gs ++ [g]) = offsets gs ++ [size (groups_buf gs)].
Proof.
  unfold offsets. rewrite length_app, Nat.add_1_r, seq_S, map_app. cbn [map Nat.add]. f_equal.
  - apply map_ext_in. intros i Hi%in_seq. by rewrite take_app_le by lia.
  - by rewrite take_app_length.
Qed.

(** Only [offsets] of the groups before it depend on the last group. *)
Lemma offsets_last gs g g' : offsets (gs ++ [g]) = offsets (gs ++ [g']).
Proof. by rewrite !offsets_snoc. Qed.

Lemma length_offsets gs : length (offsets gs) = length gs.
Proof. unfold offsets. by rewrite length_map, length_seq. Qed.

Lemma compare_refl a : compare a a = 0.
Proof. by apply (Compare_zero (c := BytewiseComparator)). Qed.

Section builder.
Context `{Port}.

(** An upper bound on the room the entries [kvs] take in a block, each with
    its header and a restart point. *)
Definition cost (kvs : list (bytes * bytes)) : Z :=
  fold_right (fun kv n => size (fst kv) + size (snd kv) + 19 + n) 0 kvs.

Lemma cost_nonneg kvs : 0 <= cost kvs.
Proof.
  induction kvs as [|[k v] kvs IH]; cbn [cost fold_right fst snd]; [done|]. fold (cost kvs).
  pose proof (size_nonneg k). pose proof (size_nonneg v). lia.
Qed.

(** The builder [b] holds the complete groups [init] and the group [cur]. *)
Record built (b : BlockBuilder) (init : list group) (cur : group) : Prop := {
  built_init : Forall (fun g => group_ok g /\ fst g <> []) init;
  built_cur : group_ok cur;
  built_buffer : buffer_ b = groups_buf (init ++ [cur]);
  built_restarts : restarts_ b = offsets (init ++ [cur]);
  built_counter : counter_ b = Z.of_nat (length (fst cur));
  built_interval : 1 <= block_restart_interval b /\ counter_ b <= block_restart_interval b;
  built_open : finished_ b = false;
  built_last : last_key_ b = last_key [] (fst cur);
  built_nonempty : init <> [] -> fst cur <> []
}.

Lemma built_new interval b : BlockBuilder_new interval = Some b -> built b [] ([], []).
Proof.
  unfold BlockBuilder_new. destruct (interval >=? 1) eqn:E; [|done]. intros [= <-].
  rewrite Z.geb_leb in E. to_prop. constructor; cbn; try done; [constructor|lia].
Qed.

(** [Add] on a key above the last one, when the block stays below 4 GB. *)
Lemma encodes_snoc prev kvs buf shared k v :
  encodes prev kvs buf -> (shared <= length (last_key prev kvs))%nat -> (shared <= length k)%nat ->
  take shared (last_key prev kvs) = take shared k -> is_uint 32 (size k) ->
  encodes prev (kvs ++ [(k, v)]) (buf ++ entry shared k v).
Proof.
  intros. rewrite <-(app_nil_r (entry shared k v)). apply encodes_app; [done|].
  constructor; try done. constructor.
Qed.

Lemma put_entry shared k v buf :
  (shared <= length k)%nat -> is_uint 32 (size k) -> is_uint 32 (size v) ->
  ((PutVarint32 (PutVarint32 (PutVarint32 buf (u32 (Z.of_nat shared)))
      (u32 (Z.of_nat (length k - shared)))) (u32 (size v)) ++ drop shared k) ++ v) =
  buf ++ entry shared k v.
Proof.
  intros Hs Hk Hv. unfold is_uint, size in *. unfold PutVarint32. rewrite !wrap_small by (unfold is_uint; lia).
  unfold entry, header. by rewrite <-!app_assoc.
Qed.

Lemma last_key_snoc prev kvs k v : last_key prev (kvs ++ [(k, v)]) = k.
Proof. unfold last_key. by rewrite fold_left_app. Qed.

Lemma shared_prefix (a k : bytes) :
  let n := difference_offset a k in
  (n <= length a)%nat /\ (n <= length k)%nat /\ take n a = take n k.
Proof.
  cbv zeta. revert k. induction a as [|x a IH]; intros [|y k]; cbn [difference_offset length]; try (split_and!; [lia|lia|done]).
  case_decide as E; [|split_and!; [lia|lia|done]]. subst y. destruct (IH k) as (?&?&Et).
  split_and!; [lia|lia|]. cbn [take firstn]. by rewrite Et.
Qed.

Lemma piece_eq_refl a : piece_eq a a = true.
Proof. by apply piece_eq_spec. Qed.

Lemma Add_built b init cur k v :
  built b init cur ->
  (fst cur = [] \/ compare k (last_key_ b) > 0) ->
  is_uint 32 (size k) -> is_uint 32 (size v) -> is_uint 32 (size (buffer_ b)) ->
  exists b' init' cur', Add b k v = Some b' /\ built b' init' cur' /\
    groups_kvs (init' ++ [cur']) = groups_kvs (init ++ [cur]) ++ [(k, v)] /\
    size (buffer_ b') <= size (buffer_ b) + 15 + size k + size v /\
    (length init' <= length init + 1)%nat /\ last_key_ b' = k /\ fst cur' <> [] /\
    block_restart_interval b' = block_restart_interval b.
Proof.
  intros [Hi Hc Hb Hr Hn [Hi1 Hle] Ho Hl Hne] Hk Hk32 Hv32 Hb32.
  unfold Add. rewrite Ho, (proj2 (Z.leb_le _ _)) by done. cbn [negb].
  replace ((size (buffer_ b) =? 0) || (compare k (last_key_ b) >? 0)) with true.
  2:{ symmetry. destruct Hk as [Hk|Hk]; [|by rewrite Z.gtb_ltb, (proj2 (Z.ltb_lt _ _)), orb_true_r by lia].
      assert (init = []) as -> by (destruct init; [done|by destruct Hne]).
      destruct cur as [kvs buf]. unfold group_ok in Hc. cbn in Hk, Hc. subst kvs. inversion Hc; subst. by rewrite Hb. }
  cbn [negb].
  destruct (Z.ltb_spec (counter_ b) (block_restart_interval b)) as [Hlt|Hge].
  - destruct (shared_prefix (last_key_ b) k) as (S1 & S2 & S3).
    set (shared := difference_offset (last_key_ b) k) in *.
    rewrite put_entry, resize_take, S3, take_drop, piece_eq_refl by done. cbn [negb].
    eexists _, init, (fst cur ++ [(k, v)], snd cur ++ entry shared k v). split; [done|].
    assert (Ebuf : buffer_ b ++ entry shared k v =
      groups_buf (init ++ [(fst cur ++ [(k, v)], snd cur ++ entry shared k v)])).
    { rewrite Hb, !groups_buf_app, <-app_assoc. unfold groups_buf. cbn. by rewrite !app_nil_r. }
    split_and!; cbn [buffer_ last_key_ block_restart_interval fst]; try done; try lia.
    + constructor; cbn [buffer_ restarts_ counter_ block_restart_interval finished_ last_key_ fst snd]; try done.
      * unfold group_ok. cbn [fst snd]. rewrite Hl in S1, S3. by apply encodes_snoc.
      * by rewrite Hr; apply offsets_last.
      * rewrite length_app. cbn [length]. lia.
      * lia.
      * by rewrite last_key_snoc.
      * intros _ [_ ?]%app_eq_nil. done.
    + rewrite !groups_kvs_app, <-app_assoc. unfold groups_kvs. cbn. by rewrite !app_nil_r.
    + rewrite size_app. unfold entry. rewrite !size_app. pose proof (length_header shared k v).
      unfold size. rewrite length_drop. lia.
    + intros [_ ?]%app_eq_nil. done.
  - rewrite put_entry, piece_eq_refl by (done || lia). cbn [negb drop].
    replace (piece_eq (resize (last_key_ b) 0 ++ k) k) with true by (symmetry; apply piece_eq_refl). cbn [negb].
    assert (Hcur : fst cur <> []) by (intros E; rewrite E in Hn; simpl in Hn; lia).
    eexists _, (init ++ [cur]), ([(k, v)], entry 0 k v). split; [done|].
    assert (Hcok : group_ok ([(k, v)], entry 0 k v)).
    { unfold group_ok. cbn [fst snd]. rewrite <-(app_nil_r (entry 0 k v)).
      constructor; [lia|lia|done|done|constructor]. }
    split_and!; cbn [buffer_ last_key_ block_restart_interval fst]; try done; try lia.
    + constructor; cbn [buffer_ restarts_ counter_ block_restart_interval finished_ last_key_ fst snd]; try done.
      * apply Forall_app. split; [done|]. by repeat constructor.
      * rewrite Hb, (groups_buf_app (init ++ [cur])). f_equal. unfold groups_buf. cbn. by rewrite app_nil_r.
      * rewrite offsets_snoc, <-Hr, <-Hb, wrap_small by done. done.
    + rewrite (groups_kvs_app (init ++ [cur])). f_equal.
    + rewrite size_app. unfold entry. rewrite !size_app. pose proof (length_header 0 k v).
      unfold size. rewrite length_drop. lia.
    + rewrite length_app. simpl. lia.
Qed.

End builder.

Section round_trip.
Context `{Port}.

Lemma compare_gt a b : compare a b < 0 -> compare b a > 0.
Proof. intros. pose proof (Compare_antisym (c := BytewiseComparator) a b) as E. simpl in E. lia. Qed.

Lemma AddAll_built b init cur kvs :
  built b init cur -> StronglySorted key_lt kvs ->
  (fst cur = [] \/ Forall (fun kv => compare (last_key_ b) (fst kv) < 0) kvs) ->
  size (buffer_ b) + cost kvs < 2 ^ 32 ->
  exists b' init' cur', AddAll b kvs = Some b' /\ built b' init' cur' /\
    groups_kvs (init' ++ [cur']) = groups_kvs (init ++ [cur]) ++ kvs /\
    size (buffer_ b') + 4 * Z.of_nat (length init') <=
      size (buffer_ b) + 4 * Z.of_nat (length init) + cost kvs.
Proof.
  revert b init cur. induction kvs as [|[k v] kvs IH]; intros b init cur Hb Hs Hlast Hc.
  { exists b, init, cur. split_and!; [done|done|by rewrite app_nil_r|cbn; lia]. }
  cbn [cost fold_right fst snd] in Hc. fold (cost kvs) in Hc. pose proof (cost_nonneg kvs).
  pose proof (size_nonneg k). pose proof (size_nonneg v). pose proof (size_nonneg (buffer_ b)).
  destruct (Add_built b init cur k v Hb) as (b1 & i1 & c1 & E1 & Hb1 & Hk1 & Hs1 & Hl1 & Hlk & Hne & _);
    try (unfold is_uint; lia).
  { destruct Hlast as [?|Hf]; [by left|right]. apply Forall_cons_iff in Hf as [Hf _]. by apply compare_gt. }
  apply StronglySorted_cons in Hs as [Hks Hs].
  destruct (IH b1 i1 c1 Hb1 Hs) as (b' & i' & c' & E & Hb' & Hk' & Hs').
  { right. rewrite Hlk. exact Hks. }
  { lia. }
  exists b', i', c'. cbn [AddAll]. rewrite E1. cbn [mbind option_bind]. split_and!; [done|done| |].
  - by rewrite Hk', Hk1, <-app_assoc.
  - cbn [cost fold_right fst snd]. fold (cost kvs). lia.
Qed.

(** ** The finished block *)

(** The restart array and its length. *)
Definition trailer (l : list Z) : bytes :=
  concat (map EncodeFixed32 l) ++ EncodeFixed32 (Z.of_nat (length l)).

Lemma fold_PutFixed32 l buf : fold_left PutFixed32 l buf = buf ++ concat (map EncodeFixed32 l).
Proof.
  revert buf. induction l as [|x l IH]; intros buf; cbn; [by rewrite app_nil_r|].
  rewrite IH. unfold PutFixed32. by rewrite <-app_assoc.
Qed.

Lemma length_EncodeFixed32 v : length (EncodeFixed32 v) = 4%nat.
Proof. rewrite EncodeFixed32_le. apply length_le_bytes. Qed.

Lemma length_trailer l : length (trailer l) = (4 * length l + 4)%nat.
Proof.
  unfold trailer. rewrite length_app, length_EncodeFixed32.
  induction l as [|x l IH]; [done|]. cbn [map concat length]. rewrite length_app, length_EncodeFixed32. lia.
Qed.

Lemma Finish_contents b :
  Z.of_nat (length (restarts_ b)) < 2 ^ 32 -> snd (Finish b) = buffer_ b ++ trailer (restarts_ b).
Proof.
  intros. unfold Finish, trailer. cbn [snd]. rewrite fold_PutFixed32. unfold PutFixed32.
  rewrite wrap_small by (unfold is_uint; lia). by rewrite <-app_assoc.
Qed.

Lemma drop_trailer (l : list Z) (i : nat) (x : Z) :
  l !! i = Some x -> exists t, drop (4 * i) (trailer l) = EncodeFixed32 x ++ t.
Proof.
  unfold trailer. generalize (EncodeFixed32 (Z.of_nat (length l))). intros e.
  revert i. induction l as [|y l IH]; intros [|i]; [done|done| |]; cbn [lookup list_lookup].
  - intros [= ->]. cbn [map concat]. rewrite <-app_assoc. by eexists.
  - intros Hx. destruct (IH i Hx) as [t Ht]. exists t. cbn [map concat]. rewrite <-app_assoc.
    replace (4 * S i)%nat with (length (EncodeFixed32 y) + 4 * i)%nat by (rewrite length_EncodeFixed32; lia).
    rewrite drop_app_add'; [done|]. done.
Qed.

Lemma restart_decode body l i x :
  l !! i = Some x -> is_uint 32 x ->
  DecodeFixed32 (drop (Z.to_nat (size body + Z.of_nat i * 4)) (body ++ trailer l)) = Some x.
Proof.
  intros Hx Hu. replace (Z.to_nat _) with (length body + 4 * i)%nat by (unfold size; lia).
  rewrite drop_app_add' by done. destruct (drop_trailer l i x Hx) as [t ->]. by apply DecodeFixed32_encode.
Qed.

Lemma Block_new_trailer body l (c h : bool) :
  is_uint 32 (size (body ++ trailer l)) ->
  Block_new {| data := body ++ trailer l; cachable := c; heap_allocated := h |} =
    Some {| blk_data := body ++ trailer l; blk_size := size (body ++ trailer l);
            restart_offset_ := Some (size body); owned_ := h |} /\
  NumRestarts (body ++ trailer l) (size (body ++ trailer l)) = Some (Z.of_nat (length l)).
Proof.
  intros Hu. unfold is_uint in Hu. pose proof (length_trailer l) as Hl.
  assert (Hs : size (body ++ trailer l) = size body + 4 * Z.of_nat (length l) + 4)
    by (rewrite size_app; unfold size; rewrite Hl; lia).
  pose proof (size_nonneg body).
  assert (Hn : NumRestarts (body ++ trailer l) (size (body ++ trailer l)) = Some (Z.of_nat (length l))).
  { unfold NumRestarts. rewrite (proj2 (Z.leb_le _ _)) by lia. unfold trailer at 2. rewrite app_assoc.
    rewrite <-(app_nil_r (EncodeFixed32 _)).
    replace (Z.to_nat (size (body ++ trailer l) - 4)) with (length (body ++ concat (map EncodeFixed32 l))).
    - rewrite drop_app_length. apply DecodeFixed32_encode. unfold is_uint. lia.
    - unfold size, trailer. rewrite !length_app, length_EncodeFixed32. lia. }
  split; [|done]. unfold Block_new. cbn [data heap_allocated].
  rewrite (proj2 (Z.ltb_ge _ _)) by lia. rewrite Hn. cbn [mbind option_bind].
  rewrite Z.gtb_ltb, (proj2 (Z.ltb_ge _ _)) by (rewrite Hs; Z.div_mod_to_equations; lia).
  do 3 f_equal. rewrite (wrap_small 32 (1 + _)) by (unfold is_uint; lia).
  rewrite wrap_small by (unfold is_uint; lia). f_equal. lia.
Qed.

(** Building a block from a list of entries, and opening an iterator on it. *)
Definition build (interval : Z) (kvs : list (bytes * bytes)) : option bytes :=
  b ← BlockBuilder_new interval; b ← AddAll b kvs; Some (snd (Finish b)).
Definition open (contents : bytes) : option Iter :=
  blk ← Block_new {| data := contents; cachable := false; heap_allocated := true |};
  it ← NewIterator blk;
  match it with BlockIter it => Some it | EmptyIterator _ => None end.

Lemma offsets_lookup gs i : (i < length gs)%nat -> offsets gs !! i = Some (size (groups_buf (take i gs))).
Proof.
  intros. unfold offsets. rewrite list_lookup_fmap, lookup_seq_lt by done. done.
Qed.

(** A finished block as groups, with everything the iterator's lemmas ask. *)
Lemma build_groups interval kvs :
  1 <= interval -> StronglySorted key_lt kvs -> cost kvs + 8 < 2 ^ 32 ->
  exists gs tail it, groups_kvs gs = kvs /\ Forall group_ok gs /\
    is_uint 32 (size (groups_buf gs)) /\ 0 < Z.of_nat (length gs) < 2 ^ 31 /\
    (forall i g, (0 < i)%nat -> gs !! i = Some g -> fst g <> []) /\
    (forall i, (i < length gs)%nat ->
       DecodeFixed32 (drop (Z.to_nat (size (groups_buf gs) + Z.of_nat i * 4)) (groups_buf gs ++ tail)) =
       Some (size (groups_buf (take i gs)))) /\
    build interval kvs = Some (groups_buf gs ++ tail) /\
    open (groups_buf gs ++ tail) = Some it /\ ready (groups_buf gs) tail (Z.of_nat (length gs)) it.
Proof.
  intros Hi Hs Hc. assert (exists b0, BlockBuilder_new interval = Some b0 /\ buffer_ b0 = []) as (b0 & E0 & Hb0).
  { unfold BlockBuilder_new. rewrite Z.geb_leb, (proj2 (Z.leb_le _ _)) by lia. by eexists. }
  pose proof (built_new _ _ E0) as B0.
  destruct (AddAll_built b0 [] ([], []) kvs B0 Hs ltac:(by left)) as (b & init & cur & E & B & Hk & Hsz).
  { rewrite Hb0. change (size []) with 0. lia. }
  rewrite Hb0 in Hsz. change (size []) with 0 in Hsz. change (Z.of_nat (length [])) with 0 in Hsz.
  destruct B as [Bi Bc Bb Br Bn _ _ _ Bne]. set (gs := init ++ [cur]) in *.
  assert (Hlen : length gs = S (length init)) by (unfold gs; rewrite length_app; simpl; lia).
  pose proof (size_nonneg (buffer_ b)) as Hpos. rewrite Bb in *.
  assert (Hst : size (groups_buf gs ++ trailer (offsets gs)) = size (groups_buf gs) + 4 * Z.of_nat (length gs) + 4).
  { rewrite size_app. pose proof (length_trailer (offsets gs)) as Ht. rewrite length_offsets in Ht.
    unfold size at 2. lia. }
  assert (Hu : is_uint 32 (size (groups_buf gs ++ trailer (offsets gs)))) by (unfold is_uint; lia).
  destruct (Block_new_trailer (groups_buf gs) (offsets gs) false true Hu) as [En Er].
  assert (exists it, open (groups_buf gs ++ trailer (offsets gs)) = Some it /\
    ready (groups_buf gs) (trailer (offsets gs)) (Z.of_nat (length gs)) it) as (it & Eo & Hr).
  { unfold open. rewrite En. cbn [mbind option_bind]. unfold NewIterator. cbn [blk_size blk_data restart_offset_].
    rewrite (proj2 (Z.ltb_ge _ _)) by lia. rewrite Er, length_offsets. cbn [mbind option_bind].
    rewrite (proj2 (Z.eqb_neq _ _)) by lia. unfold Iter_new. rewrite Z.gtb_ltb, (proj2 (Z.ltb_lt _ _)) by lia.
    eexists. split; [done|]. repeat split; cbn; lia. }
  exists gs, (trailer (offsets gs)), it. split_and!; try done; try (unfold is_uint; lia).
  - unfold gs. apply Forall_app. split; [|by constructor]. eapply Forall_impl; [|exact Bi]. by intros ? [? _].
  - intros i g Hig Hg. unfold gs in Hg. rewrite lookup_app in Hg.
    destruct (init !! i) as [g'|] eqn:Ei.
    + injection Hg as ->. rewrite Forall_lookup in Bi. by apply (Bi _ _ Ei).
    + assert (g = cur) as -> by (destruct (i - length init)%nat; [by injection Hg|done]).
      apply Bne. intros ->. simpl in Hg. destruct i as [|i]; [lia|]. done.
  - intros i Hil. apply restart_decode; [by apply offsets_lookup|].
    destruct (groups_take_drop gs i) as [_ Eb]. rewrite Eb, size_app in Hsz.
    pose proof (size_nonneg (groups_buf (take i gs))). pose proof (size_nonneg (groups_buf (drop i gs))).
    unfold is_uint. lia.
  - unfold build. rewrite E0. cbn [mbind option_bind]. rewrite E. cbn [mbind option_bind].
    rewrite Finish_contents, Bb, Br; [done|]. rewrite Br, length_offsets. lia.
Qed.

End round_trip.

(** ** Handles, footers and stored blocks *)

Section stored.
Context `{Port}.

(** A handle whose two fields have been set. *)
Definition handle_ok (h : BlockHandle) : Prop :=
  0 <= offset_ h < 2 ^ 64 - 1 /\ 0 <= size_ h < 2 ^ 64 - 1.

Lemma BlockHandle_encode h dst :
  handle_ok h -> exists enc, BlockHandle_EncodeTo h dst = Some (dst ++ enc) /\
    (length enc <= 20)%nat /\
    forall h0 rest, BlockHandle_DecodeFrom h0 (enc ++ rest) = (Status_OK, h, rest).
Proof.
  intros [Ho Hs]. change (2 ^ 64) with 18446744073709551616 in *.
  exists (EncodeVarint64 (offset_ h) ++ EncodeVarint64 (size_ h)).
  unfold BlockHandle_EncodeTo. change (u64 (-1)) with 18446744073709551615.
  rewrite !(proj2 (Z.eqb_neq _ _)) by lia. cbn [orb]. split_and!.
  - unfold PutVarint64. by rewrite <-app_assoc.
  - rewrite length_app. pose proof (length_EncodeVarint64 (offset_ h)).
    pose proof (length_EncodeVarint64 (size_ h)). lia.
  - intros h0 rest. unfold BlockHandle_DecodeFrom. rewrite <-app_assoc.
    rewrite GetVarint64_encode by (unfold is_uint; lia).
    rewrite GetVarint64_encode by (unfold is_uint; lia). by destruct h.
Qed.

Lemma magic_word : u64 (u32 (kTableMagicNumber .>> 32) .<< 32) .| u32 (kTableMagicNumber .& 0xffffffff) = kTableMagicNumber.
Proof. by vm_compute. Qed.

Lemma resize_pad (l : bytes) n : (length l <= n)%nat -> resize l n = l ++ replicate (n - length l) x00.
Proof.
  intros. unfold resize. rewrite take_app, take_ge by lia. f_equal.
  rewrite take_replicate. f_equal. lia.
Qed.

Lemma length_resize (l : bytes) n : length (resize l n) = n.
Proof. unfold resize. rewrite length_take, length_app, length_replicate. lia. Qed.

(** The checksummed form in which a block is stored. *)
Definition stored_block (pval : Z) (d : bytes) : bytes :=
  d ++ [x00] ++ EncodeFixed32 (Crc32Mask (Crc32Value pval (d ++ [x00]))).

Lemma is_uint_Crc32Value pval d : is_uint 32 (Crc32Value pval d).
Proof.
  unfold Crc32Value. rewrite Crc32Extend_crc32c by (split; by vm_compute).
  apply is_uint32_crc32c. split; by vm_compute.
Qed.

Lemma Crc32Value_address a b d : Crc32Value a d = Crc32Value b d.
Proof. unfold Crc32Value. by rewrite !Crc32Extend_crc32c by (split; by vm_compute). Qed.

End stored.

Section stored_facts.
Context `{Port}.

Lemma DecodeFixed32_val t : length t = 4%nat -> DecodeFixed32 t = Some (le_val t).
Proof. intros. pose proof (DecodeFixed32_app t [] ltac:(done)) as E. by rewrite app_nil_r in E. Qed.

Lemma DecodeFixed32_inj t v : length t = 4%nat -> DecodeFixed32 t = Some v -> t = EncodeFixed32 v.
Proof.
  intros Hl E. rewrite EncodeFixed32_le.
  rewrite DecodeFixed32_val in E by done. injection E as <-. rewrite <-Hl. by rewrite le_bytes_le_val.
Qed.

Lemma split_stored (contents : bytes) (n : nat) :
  length contents = (n + 5)%nat -> exists d ty t,
    contents = d ++ [ty] ++ t /\ length d = n /\ length t = 4%nat.
Proof.
  intros Hl. destruct (split_at_length n contents ltac:(lia)) as (d & r & -> & Hd).
  rewrite length_app in Hl. destruct r as [|ty t]; [simpl in Hl; lia|].
  exists d, ty, t. split_and!; [done|done|simpl in Hl; lia].
Qed.

Lemma schar_zero b : (schar b =? 0) = bool_decide (b = x00).
Proof. by destruct b. Qed.

(** [ReadBlock] on a file that returns the bytes asked for. *)
Lemma ReadBlock_read Read pval h d ty t b :
  is_uint 64 (size d + 5) -> size_ h = size d -> length t = 4%nat ->
  Read (offset_ h) (size d + 5) = (Status_OK, d ++ [ty] ++ t, b) ->
  ReadBlock Read pval h =
  Some (if decide (t = EncodeFixed32 (Crc32Mask (Crc32Value pval (d ++ [ty])))) then
          if decide (ty = x00) then (Status_OK, {| data := d; cachable := b; heap_allocated := b |})
          else (Status_Error (str "bad block type") [], {| data := []; cachable := false; heap_allocated := false |})
        else (Status_Error (str "block checksum mismatch") [], {| data := []; cachable := false; heap_allocated := false |})).
Proof.
  intros Hu Hh Ht HR. pose proof (size_nonneg d). unfold is_uint in Hu. unfold ReadBlock, kBlockTrailerSize.
  rewrite Hh, (wrap_small 64 (size d + 5)) by done. rewrite HR. cbn [ok negb].
  assert (size (d ++ [ty] ++ t) = size d + 5) as -> by (rewrite !size_app; unfold size; simpl; lia).
  rewrite Z.eqb_refl. cbn [negb]. rewrite wrap_small by (unfold is_uint; lia).
  assert (slice (d ++ [ty] ++ t) (size d + 1) 4 = Some t) as ->.
  { replace (size d + 1) with (size (d ++ [ty])) by (rewrite size_app; done).
    pose proof (slice_app (d ++ [ty]) t [] 4) as E. rewrite app_nil_r, <-app_assoc in E.
    apply E. unfold size. lia. }
  pose proof (DecodeFixed32_val t Ht) as Ed.
  cbn [mbind option_bind]. rewrite Ed. cbn [mbind option_bind fmap option_fmap option_map].
  assert (take (Z.to_nat (size d + 1)) (d ++ [ty] ++ t) = d ++ [ty]) as ->.
  { rewrite app_assoc. replace (Z.to_nat (size d + 1)) with (length (d ++ [ty]))
      by (rewrite length_app; unfold size; simpl; lia). apply take_app_length. }
  assert (Hlv : is_uint 32 (le_val t)).
  { replace 32 with (8 * Z.of_nat (length t)) by (rewrite Ht; done). apply le_val_range. }
  assert (Hcrc : Crc32Value pval (d ++ [ty]) = Crc32Unmask (le_val t) <->
                 t = EncodeFixed32 (Crc32Mask (Crc32Value pval (d ++ [ty])))).
  { split.
    - intros ->. rewrite Crc32Mask_Unmask by done. by apply DecodeFixed32_inj.
    - intros E. rewrite E in Ed at 1. rewrite <-(app_nil_r (EncodeFixed32 _)) in Ed.
      rewrite DecodeFixed32_encode in Ed by apply is_uint_Crc32Mask. injection Ed as <-.
      by rewrite Crc32Unmask_Mask by apply is_uint_Crc32Value. }
  destruct (Z.eqb_spec (Crc32Value pval (d ++ [ty])) (Crc32Unmask (le_val t))) as [Ec|Ec]; cbn [negb].
  2:{ rewrite decide_False by (by rewrite <-Hcrc). done. }
  rewrite decide_True by (by apply Hcrc).
  change ([ty] ++ t) with (ty :: t). rewrite size_to_nat, list_lookup_middle by done. cbn [mbind option_bind].
  rewrite schar_zero, take_app_length. by case_bool_decide; case_decide.
Qed.
End stored_facts.

(** ** Properties *)

Section properties.
Context `{Port}.

(** C24. (iterating over a finished block).  For every restart interval, entries
    added in key order to a block below 4 GB are accepted by the builder, the
    finished contents are accepted by [Block], and walking the iterator from
    [SeekToFirst] yields exactly those entries and ends without error. *)
Theorem block_iterates (interval : Z) (kvs : list (bytes * bytes))
  (Hi : 1 <= interval) (Hs : StronglySorted key_lt kvs) (Hc : cost kvs + 8 < 2 ^ 32) :
  exists contents it it1 it2, build interval kvs = Some contents /\ open contents = Some it /\
    SeekToFirst it = Some it1 /\ walk (S (length kvs)) it1 = Some (kvs, it2) /\
    Valid it2 = false /\ it_status it2 = Status_OK.
Proof.
  destruct (build_groups interval kvs Hi Hs Hc)
    as (gs & tail & it & <- & Hok & Hu & Hn & Hne & Hr & Eb & Eo & Hrd).
  destruct (SeekToFirst_groups gs tail Hok Hu Hn Hr it Hrd) as (it1 & Es & Ha).
  destruct (walk_at_entry _ tail _ Hu ltac:(by apply (num_range gs)) (restarts_readable gs tail Hr)
    (S (length (groups_kvs gs))) it1 (groups_kvs gs) ltac:(lia) Ha) as (it2 & Ew & Hv & Hst).
  by exists (groups_buf gs ++ tail), it, it1, it2.
Qed.

(** C25. (seeking).  On such a block [Seek] positions the iterator at the first
    entry whose key is at or past the target: the walk from there yields the
    entries from that one on, and the iterator is not valid when there is none. *)
Theorem block_seek (interval : Z) (kvs : list (bytes * bytes)) (target : bytes)
  (Hi : 1 <= interval) (Hs : StronglySorted key_lt kvs) (Hc : cost kvs + 8 < 2 ^ 32) :
  exists contents it it1 it2, build interval kvs = Some contents /\ open contents = Some it /\
    Seek it target = Some it1 /\ walk (S (length kvs)) it1 = Some (suffix_ge target kvs, it2) /\
    it_status it2 = Status_OK /\ (suffix_ge target kvs = [] -> Valid it1 = false).
Proof.
  destruct (build_groups interval kvs Hi Hs Hc)
    as (gs & tail & it & <- & Hok & Hu & Hn & Hne & Hr & Eb & Eo & Hrd).
  destruct (Seek_groups gs tail Hok Hu Hn Hne Hr Hs it target Hrd) as (it1 & Es & Ha).
  assert (Hlen : forall l, (length (suffix_ge target l) <= length l)%nat).
  { induction l as [|[k v] l IH]; [done|]. cbn [suffix_ge]. destruct (_ >=? _); simpl; lia. }
  destruct (walk_at_entry _ tail _ Hu ltac:(by apply (num_range gs)) (restarts_readable gs tail Hr)
    (S (length (groups_kvs gs))) it1 (suffix_ge target (groups_kvs gs)) ltac:(pose proof (Hlen (groups_kvs gs)); lia) Ha) as (it2 & Ew & Hv & Hst).
  exists (groups_buf gs ++ tail), it, it1, it2. split_and!; [done..|].
  intros E. rewrite E in Ha. apply Ha.
Qed.

(** (bounds of an entry).  An entry [DecodeEntry] accepts starts inside the
    block; its key and value also end inside it, provided their lengths do not
    add up past 32 bits. *)
Theorem decode_entry_bounds (data_ : bytes) (p limit q shared non_shared value_length : Z)
  (E : DecodeEntry data_ p limit = Some (q, shared, non_shared, value_length)) :
  p + 3 <= limit /\ q <= limit /\
  (0 <= non_shared + value_length < 2 ^ 32 -> q + non_shared + value_length <= limit).
Proof.
  unfold DecodeEntry in E. destruct (Z.ltb_spec (limit - p) 3); [done|].
  set (l := take _ _) in E.
  match type of E with (mbind _ ?o) = _ => destruct o as [[[[s n] vl] r]|]; [|done] end.
  cbn [mbind option_bind] in E.
  destruct (Z.ltb_spec (u32 (size r)) (u32 (n + vl))) as [|Hge]; [done|]. injection E as <- <- <- <-.
  pose proof (size_nonneg r). split_and!; [lia|lia|]. intros Hn.
  rewrite (wrap_small 32 (n + vl)) in Hge by done.
  assert (u32 (size r) <= size r) by (apply Z.mod_le; [done|lia]). lia.
Qed.

(** (overflow of the bound check).  The check adds the two lengths in 32
    bits: an entry of eight bytes claiming a key of [2^32 - 1] bytes and a value
    of one byte is accepted, although only one byte is left after its header,
    and parsing it reads past the end of the block. *)
Theorem decode_entry_overflow :
  let data_ := [x00; xff; xff; xff; xff; x0f; x01; x61] in
  DecodeEntry data_ 0 (size data_) = Some (7, 0, 2 ^ 32 - 1, 1) /\
  (forall it, it_data it = data_ -> it_restarts it = size data_ -> it_value it = (Some 0, 0) ->
     ParseNextKey it = None).
Proof.
  intros data_. split; [by vm_compute|]. intros it Hd Hr Hv. unfold ParseNextKey, NextEntryOffset.
  rewrite Hv, Hd, Hr. change (u32 (0 + 0)) with 0. cbn [mbind option_bind].
  change (0 >=? size data_) with false. cbv iota.
  change (DecodeEntry data_ 0 (size data_)) with (Some (7, 0, 4294967295, 1)). cbv iota beta.
  by rewrite (proj2 (Z.ltb_ge _ _)) by (unfold size; lia).
Qed.

(** (the footer).  Into an empty string a footer is written as 48 bytes that
    [DecodeFrom] reads back, whatever follows them; appended to a non-empty
    string the absolute [resize] cuts that string and the final assertion
    fails. *)
Theorem footer_roundtrip (f f0 : Footer) (dst rest : bytes)
  (Hm : handle_ok (metaindex_handle_ f)) (Hx : handle_ok (index_handle_ f)) :
  (exists enc, Footer_EncodeTo f [] = Some enc /\ length enc = kEncodedLength /\
     Footer_DecodeFrom f0 (enc ++ rest) = Some (Status_OK, f, rest)) /\
  (dst <> [] -> Footer_EncodeTo f dst = None).
Proof.
  assert (E : forall d, exists e1 e2, (length e1 <= 20)%nat /\ (length e2 <= 20)%nat /\
    Footer_EncodeTo f d =
      (let r := (resize (d ++ e1 ++ e2) (2 * kMaxEncodedLength) ++
           EncodeFixed32 (u32 (kTableMagicNumber .& 0xffffffff))) ++ EncodeFixed32 (u32 (kTableMagicNumber .>> 32)) in
       if decide (d = []) then Some r else None) /\
    forall h1 h2 r1 r2, BlockHandle_DecodeFrom h1 (e1 ++ r1) = (Status_OK, metaindex_handle_ f, r1) /\
      BlockHandle_DecodeFrom h2 (e2 ++ r2) = (Status_OK, index_handle_ f, r2)).
  { intros d. destruct (BlockHandle_encode _ d Hm) as (e1 & E1 & L1 & D1).
    destruct (BlockHandle_encode _ (d ++ e1) Hx) as (e2 & E2 & L2 & D2).
    exists e1, e2. split_and!; [done|done| |done]. unfold Footer_EncodeTo. rewrite E1. cbn [mbind option_bind].
    rewrite E2. cbn [mbind option_bind]. unfold PutFixed32. rewrite !size_app. unfold size at 1 2 3.
    rewrite length_resize, !length_EncodeFixed32, <-!app_assoc.
    case_decide as Hd; [by subst|]. rewrite (proj2 (Z.eqb_neq _ _)); [done|].
    unfold kEncodedLength, kMaxEncodedLength. destruct d; [done|]. unfold size. simpl length. lia. }
  split.
  - destruct (E []) as (e1 & e2 & L1 & L2 & -> & D). rewrite decide_True by done. cbn [app]. cbv zeta.
    eexists. split; [done|]. rewrite resize_pad by (rewrite length_app; unfold kMaxEncodedLength; lia).
    set (pad := replicate _ x00).
    assert (Hpad : length ((e1 ++ e2) ++ pad) = 40%nat).
    { unfold pad. rewrite !length_app, length_replicate. unfold kMaxEncodedLength. lia. }
    split; [by rewrite length_app, length_app, Hpad, !length_EncodeFixed32|].
    unfold Footer_DecodeFrom. rewrite <-!(app_assoc ((e1 ++ e2) ++ pad)).
    change (kEncodedLength - 8)%nat with 40%nat. rewrite (drop_app_length' _ _ 40) by done.
    rewrite <-!app_assoc, DecodeFixed32_encode by (by apply wrap_range). cbn [mbind option_bind].
    rewrite (drop_app_length' (EncodeFixed32 _) _ 4) by (by rewrite length_EncodeFixed32).
    rewrite DecodeFixed32_encode by (by apply wrap_range). cbn [mbind option_bind].
    rewrite magic_word, Z.eqb_refl. cbn [negb].
    destruct (D (metaindex_handle_ f0) (index_handle_ f0) (e2 ++ pad ++
      EncodeFixed32 (u32 (kTableMagicNumber .& 0xffffffff)) ++ EncodeFixed32 (u32 (kTableMagicNumber .>> 32)) ++ rest)
      (pad ++ EncodeFixed32 (u32 (kTableMagicNumber .& 0xffffffff)) ++ EncodeFixed32 (u32 (kTableMagicNumber .>> 32)) ++ rest))
      as [D1 D2]. rewrite D1. cbn [ok]. rewrite D2. cbn [ok]. do 2 f_equal; [by destruct f|].
    rewrite app_assoc, drop_app_length'; [done|]. by rewrite length_app, !length_EncodeFixed32.
  - intros Hd. destruct (E dst) as (e1 & e2 & _ & _ & -> & _). by rewrite decide_False.
Qed.

(** C26. (a block read back).  For a handle whose stored size does not overflow,
    [ReadBlock] always returns; it succeeds exactly when the file returns the
    requested number of bytes and they are the block's contents, the type byte 0 and
    the masked CRC-32C of both in little-endian order; on any error no
    contents are returned. *)
Theorem read_block_checked (Read : file_read) (pval : Z) (h : BlockHandle)
  (Hh : 0 <= size_ h < 2 ^ 64 - 5) :
  exists s c, ReadBlock Read pval h = Some (s, c) /\
    (ok s = false -> data c = []) /\
    (ok s = true <-> exists d b, Read (offset_ h) (size_ h + 5) = (Status_OK, stored_block pval d, b) /\
                       size d = size_ h /\ c = {| data := d; cachable := b; heap_allocated := b |}).
Proof.
  destruct (Read (offset_ h) (size_ h + 5)) as [[s contents] b] eqn:HR.
  destruct (decide (ok s = true /\ size contents = size_ h + 5)) as [[Hs Hc]|Hbad].
  - destruct s; [done|].
    destruct (split_stored contents (Z.to_nat (size_ h))) as (d & ty & t & -> & Hd & Ht);
      [unfold size in Hc; lia|].
    assert (Hsd : size_ h = size d) by (unfold size; lia).
    rewrite Hsd in HR, Hh |- *.
    rewrite (ReadBlock_read Read pval h d ty t b) by (unfold is_uint; lia || done).
    assert (Hiff : (exists d0 b0, (Status_OK, d ++ [ty] ++ t, b) = (Status_OK, stored_block pval d0, b0) /\ size d0 = size d)
      <-> t = EncodeFixed32 (Crc32Mask (Crc32Value pval (d ++ [ty]))) /\ ty = x00).
    { split.
      - intros (d0 & b0 & [= E ->] & E0). unfold stored_block in E.
        apply app_inj_1 in E as [-> E]; [by injection E as -> ->|unfold size in E0; lia].
      - intros [-> ->]. by exists d, b. }
    repeat case_decide; eexists _, _; (split; [done|]); (split; [done|]).
    + split; [|done]. intros _. exists d, b. by subst.
    + split; [done|]. intros (d0 & b0 & E & E0 & _). by destruct (proj1 Hiff ltac:(eauto)).
    + split; [done|]. intros (d0 & b0 & E & E0 & _). by destruct (proj1 Hiff ltac:(eauto)).
  - unfold ReadBlock, kBlockTrailerSize. rewrite (wrap_small 64 (_ + 5)) by (unfold is_uint; lia).
    rewrite HR. destruct s as [st|].
    { eexists _, _. split; [done|]. split; [done|]. split; [done|]. by intros (? & ? & [= ] & _). }
    cbn [ok negb]. destruct (Z.eqb_spec (size contents) (size_ h + 5)) as [E|E]; [by destruct Hbad|].
    eexists _, _. split; [done|]. split; [done|]. split; [done|].
    intros (d & b0 & [= -> _] & Hd & _). destruct E. unfold stored_block.
    rewrite !size_app, Hd. unfold size at 1 2. rewrite length_EncodeFixed32. simpl. lia.
Qed.

End properties.

(** ** Witnesses *)

Definition sample : list (bytes * bytes) :=
  [(str "apple", str "1"); (str "apricot", str "22"); (str "banana", []); (str "band", str "x")].

Lemma block_iterates_witness :
  cost sample + 8 < 2 ^ 32 /\
  exists contents it it1 it2, @build little_endian_port 2 sample = Some contents /\
    @open little_endian_port contents = Some it /\
    @SeekToFirst little_endian_port it = Some it1 /\
    @walk little_endian_port 5 it1 = Some (sample, it2) /\
    Valid it2 = false /\ it_status it2 = Status_OK.
Proof.
  split; [by vm_compute|].
  apply (@block_iterates little_endian_port 2 sample); [lia| |by vm_compute].
  repeat constructor; by vm_compute.
Defined.

Lemma block_seek_witness :
  suffix_ge (str "b") sample = [(str "banana", []); (str "band", str "x")] /\
  exists contents it it1 it2, @build big_endian_port 1 sample = Some contents /\
    @open big_endian_port contents = Some it /\
    @Seek big_endian_port it (str "b") = Some it1 /\
    @walk big_endian_port 5 it1 = Some (suffix_ge (str "b") sample, it2) /\
    it_status it2 = Status_OK /\ (suffix_ge (str "b") sample = [] -> Valid it1 = false).
Proof.
  split; [by vm_compute|].
  apply (@block_seek big_endian_port 1 sample (str "b")); [lia| |by vm_compute].
  repeat constructor; by vm_compute.
Defined.

Lemma decode_entry_bounds_witness :
  DecodeEntry [x00; x01; x01; x61; x62] 0 5 = Some (3, 0, 1, 1) /\ 3 + 1 + 1 <= 5.
Proof.
  split; [by vm_compute|].
  by apply (decode_entry_bounds [x00; x01; x01; x61; x62] 0 5 3 0 1 1).
Defined.

Lemma decode_entry_overflow_witness :
  @ParseNextKey little_endian_port
    {| it_data := [x00; xff; xff; xff; xff; x0f; x01; x61]; it_restarts := 8; it_num_restarts := 1;
       it_current := 8; it_restart_index := 0; it_key := []; it_value := (Some 0, 0);
       it_status := Status_OK |} = None.
Proof. by apply (@decode_entry_overflow little_endian_port). Defined.

Definition sample_footer : Footer :=
  {| metaindex_handle_ := {| offset_ := 1000; size_ := 20 |};
     index_handle_ := {| offset_ := 1025; size_ := 300 |} |}.

Lemma footer_roundtrip_witness :
  (exists enc, @Footer_EncodeTo little_endian_port sample_footer [] = Some enc /\ length enc = kEncodedLength /\
     @Footer_DecodeFrom little_endian_port sample_footer (enc ++ [x07]) = Some (Status_OK, sample_footer, [x07])) /\
  @Footer_EncodeTo little_endian_port sample_footer [x61] = None.
Proof.
  destruct (@footer_roundtrip little_endian_port sample_footer sample_footer [x61] [x07]
    ltac:(repeat split; by vm_compute) ltac:(repeat split; by vm_compute)) as [E N].
  split; [exact E|by apply N].
Defined.

Lemma read_block_checked_witness :
  exists s c, @ReadBlock little_endian_port
      (fun _ _ => (Status_OK, @stored_block little_endian_port 0 [x61; x62], true)) 0
      {| offset_ := 3; size_ := 2 |} = Some (s, c) /\ data c = [x61; x62].
Proof.
  destruct (@read_block_checked little_endian_port
    (fun _ _ => (Status_OK, @stored_block little_endian_port 0 [x61; x62], true)) 0
    {| offset_ := 3; size_ := 2 |} ltac:(by vm_compute)) as (s & c & E & _).
  exists s, c. split; [exact E|].
  revert E. vm_compute. by intros [= <- <-].
Defined.
