(* ===== verification/Math.v ===== *)
(** * Math: [src/util/math_util.h], [src/util/math_util.cpp]

    The integer part of the header: logarithms, bit reversal, population
    counts, powers of two, rounding, greatest common divisor.  [None] is
    undefined behaviour (a builtin applied to 0, a shift by a negative amount or
    by the width) or a failed assertion. *)

From S2P Require Import Prelude.

(** [__builtin_clz], [__builtin_ctz] and [__builtin_popcount] at width [w]. *)
Definition builtin_clz (w x : Z) : option Z := if x =? 0 then None else Some (w - 1 - Z.log2 x).
Fixpoint pos_ctz (p : positive) : Z :=
  match p with xO p => 1 + pos_ctz p | _ => 0 end.
Definition builtin_ctz (x : Z) : option Z :=
  match x with Z0 => None | Zpos p => Some (pos_ctz p) | Zneg p => Some (pos_ctz p) end.
Definition bit (x : Z) (i : nat) : Z := Z.b2z (Z.testbit x (Z.of_nat i)).
Definition popcount (w : nat) (x : Z) : Z := fold_right (fun i n => bit x i + n) 0 (seq 0 w).

Definition CountLeadingZeroes32 (aValue : Z) : option Z := builtin_clz 32 aValue.
Definition CountTrailingZeroes32 (aValue : Z) : option Z := builtin_ctz aValue.
Definition CountPopulation32 (aValue : Z) : Z := popcount 32 aValue.
Definition CountPopulation64 (aValue : Z) : Z := popcount 64 aValue.
Definition CountLeadingZeroes64 (aValue : Z) : option Z := builtin_clz 64 aValue.
Definition CountTrailingZeroes64 (aValue : Z) : option Z := builtin_ctz aValue.

(** ** Logarithms *)

Definition Fast32CeilingLog2 (aValue : Z) : option Z :=
  if aValue <=? 1 then Some 0 else clz ← CountLeadingZeroes32 (aValue - 1); Some (u8 (32 - clz)).
Definition Fast64CeilingLog2 (aValue : Z) : option Z :=
  if aValue <=? 1 then Some 0 else clz ← CountLeadingZeroes64 (aValue - 1); Some (u8 (64 - clz)).
Definition Fast32FloorLog2 (aValue : Z) : option Z :=
  clz ← CountLeadingZeroes32 (aValue .| 1); Some (u8 (31 - clz)).
Definition Fast64FloorLog2 (aValue : Z) : option Z :=
  clz ← CountLeadingZeroes64 (aValue .| 1); Some (u8 (63 - clz)).

Definition RotateLeft (w aValue aShift : Z) : option Z :=
  if (0 <? aShift) && (aShift <? w)
  then Some (wrap w (aValue .<< aShift) .| (aValue .>> (w - aShift))) else None.
Definition RotateRight (w aValue aShift : Z) : option Z :=
  if (0 <? aShift) && (aShift <? w)
  then Some ((aValue .>> aShift) .| wrap w (aValue .<< (w - aShift))) else None.

Definition Log2Floor (n : Z) : option Z :=
  if n =? 0 then Some (-1) else clz ← builtin_clz 32 n; Some (31 .^ clz).
Definition Log2Floor64 (n : Z) : option Z :=
  if n =? 0 then Some (-1) else clz ← builtin_clz 64 n; Some (63 .^ clz).

(** The portable versions, compiled without the GNU builtins.  The loop runs
    over [i = 4, 3, 2, 1, 0]; its last assertion is [value == 1]. *)
Definition Log2Floor_step (s : Z * Z) (i : Z) : Z * Z :=
  let '(value, log) := s in
  let shift := 1 .<< i in
  let x := value .>> shift in
  if negb (x =? 0) then (x, log + shift) else (value, log).
Definition Log2Floor_portable (n : Z) : option Z :=
  if n =? 0 then Some (-1)
  else
    let '(value, log) := fold_left Log2Floor_step [4; 3; 2; 1; 0] (n, 0) in
    if value =? 1 then Some log else None.
Definition Log2Floor64_portable (n : Z) : option Z :=
  let topbits := u32 (n .>> 32) in
  if topbits =? 0 then Log2Floor_portable (u32 n)
  else log ← Log2Floor_portable topbits; Some (32 + log).

Definition Log2Ceiling (n : Z) : option Z :=
  floor ← Log2Floor n;
  if n =? n .& u32 (Z.lnot (u32 (n - 1))) then Some floor else Some (floor + 1).
Definition Log2Ceiling64 (n : Z) : option Z :=
  floor ← Log2Floor64 n;
  if n =? n .& u64 (Z.lnot (u64 (n - 1))) then Some floor else Some (floor + 1).

Definition Log2FloorNonZero (n : Z) : option Z := clz ← builtin_clz 32 n; Some (31 .^ clz).
Definition FindLSBSetNonZero (n : Z) : option Z := builtin_ctz n.
Definition Log2FloorNonZero64 (n : Z) : option Z := clz ← builtin_clz 64 n; Some (63 .^ clz).
Definition FindLSBSetNonZero64 (n : Z) : option Z := builtin_ctz n.

(** ** Bit reversal *)

Definition ReverseBits8 (n : Z) : Z :=
  let n := u8 (((n .>> 1) .& 0x55) .| ((n .& 0x55) .<< 1)) in
  let n := u8 (((n .>> 2) .& 0x33) .| ((n .& 0x33) .<< 2)) in
  u8 (((n .>> 4) .& 0x0f) .| ((n .& 0x0f) .<< 4)).

Definition ReverseBits32 (n : Z) : Z :=
  let n := ((n .>> 1) .& 0x55555555) .| u32 ((n .& 0x55555555) .<< 1) in
  let n := ((n .>> 2) .& 0x33333333) .| u32 ((n .& 0x33333333) .<< 2) in
  let n := ((n .>> 4) .& 0x0F0F0F0F) .| u32 ((n .& 0x0F0F0F0F) .<< 4) in
  let n := ((n .>> 8) .& 0x00FF00FF) .| u32 ((n .& 0x00FF00FF) .<< 8) in
  (n .>> 16) .| u32 (n .<< 16).

Definition ReverseBits64 (n : Z) : Z :=
  let n := ((n .>> 1) .& 0x5555555555555555) .| u64 ((n .& 0x5555555555555555) .<< 1) in
  let n := ((n .>> 2) .& 0x3333333333333333) .| u64 ((n .& 0x3333333333333333) .<< 2) in
  let n := ((n .>> 4) .& 0x0F0F0F0F0F0F0F0F) .| u64 ((n .& 0x0F0F0F0F0F0F0F0F) .<< 4) in
  let n := ((n .>> 8) .& 0x00FF00FF00FF00FF) .| u64 ((n .& 0x00FF00FF00FF00FF) .<< 8) in
  let n := ((n .>> 16) .& 0x0000FFFF0000FFFF) .| u64 ((n .& 0x0000FFFF0000FFFF) .<< 16) in
  (n .>> 32) .| u64 (n .<< 32).
(** The version for other processors. *)
Definition ReverseBits64_portable (n : Z) : Z :=
  ReverseBits32 (u32 (n .>> 32)) .| u64 (ReverseBits32 (n .& 0xffffffff) .<< 32).

(** ** Powers of two *)

(** [1 << exponent] on an [int]; a shift into the sign bit wraps, as GCC does. *)
Definition NextPowerOfTwo (value : Z) : option Z :=
  exponent ← Log2Ceiling value;
  if (0 <=? exponent) && (exponent <? 32) then Some (u32 (i32 (1 .<< exponent))) else None.
(** Calls the 32-bit [Log2Ceiling] on a 64-bit argument. *)
Definition NextPowerOfTwo64 (value : Z) : option Z :=
  exponent ← Log2Ceiling (u32 value);
  if (0 <=? exponent) && (exponent <? 64) then Some (u64 (1 .<< exponent)) else None.

Definition CountLeadingZeroes (i : Z) : option Z := builtin_clz 64 i.

Definition is_pow_of_2 (x : Z) : bool := x .& u32 (x - 1) =? 0.

Definition next_pow_of_2 (x : Z) : Z :=
  if is_pow_of_2 x then x
  else
    let x := x .| (x .>> 1) in
    let x := x .| (x .>> 2) in
    let x := x .| (x .>> 4) in
    let x := x .| (x .>> 8) in
    let x := x .| (x .>> 16) in
    u32 (x + 1).

(** For an unsigned [T] of [w] bits. *)
Definition IsPowerOfTwo (w x : Z) : bool := negb (x =? 0) && (x .& wrap w (x - 1) =? 0).

Definition Clamp (aValue aMin aMax : Z) : option Z :=
  if aMin <=? aMax then
    Some (if aValue <=? aMin then aMin else if aValue >=? aMax then aMax else aValue)
  else None.

(** ** Rounding *)

Definition UpperUint (i fac : Z) : option Z :=
  if fac =? 0 then None
  else if i mod fac =? 0 then Some i else Some (u64 (i + (fac - i mod fac))).
Definition LowerUint (i fac : Z) : option Z :=
  if fac =? 0 then None
  else if i mod fac =? 0 then Some i else Some (i - i mod fac).
Definition RoundupPow2Base (i base2 : Z) : Z :=
  u64 (i + base2 - 1) .& u64 (Z.lnot (u64 (base2 - 1))).

(** [while (roundUp < size) roundUp <<= 1]; [None] when [fuel] runs out. *)
Fixpoint RoundupPower2_loop (fuel : nat) (size roundUp : Z) : option Z :=
  match fuel with
  | O => None
  | S fuel =>
      if roundUp <? size then RoundupPower2_loop fuel size (u64 (roundUp .<< 1))
      else Some roundUp
  end.
Definition RoundupPower2 (fuel : nat) (size : Z) : option Z :=
  if size =? 0 then Some 0 else RoundupPower2_loop fuel size 1.

Definition Roundup (x y : Z) : option Z :=
  if y =? 0 then None else Some (u64 (u64 (x + y - 1) / y * y)).
Definition Rounddown (x y : Z) : option Z := if y =? 0 then None else Some (u64 (x / y * y)).
(** [RoundupPtr] and [RounddownPtr] on the address. *)
Definition RoundupPtr (address align : Z) : Z :=
  u64 (address + align - 1) .& u64 (Z.lnot (u64 (align - 1))).
Definition RounddownPtr (address align : Z) : Z := address .& u64 (Z.lnot (u64 (align - 1))).

Definition NextPowerOf2uint32_t (n : Z) : option Z :=
  if n >? 0 then
    clz ← CountLeadingZeroes (u32 (n - 1));
    Some (u32 (u64 (1 .<< (64 - clz))))
  else None.
Definition NextPowerOf2uint64_t (n : Z) : option Z :=
  if n >? 0 then
    clz ← CountLeadingZeroes (u64 (n - 1));
    if clz =? 0 then None else Some (u64 (1 .<< (64 - clz)))
  else None.

(** ** Population counts *)

Definition kBitCountTable : list Z := [0; 1; 1; 2; 1; 2; 2; 3; 1; 2; 2; 3; 2; 3; 3; 4].
Definition Count1Bits_u8 (i : Z) : Z :=
  let count := u8 (0 + nth (Z.to_nat (i .& 0xf)) kBitCountTable 0) in
  u8 (count + nth (Z.to_nat ((i .>> 4) .& 0xf)) kBitCountTable 0).

Definition count1Bits (value : Z) : Z :=
  let value := u32 (value - ((value .>> 1) .& 0x55555555)) in
  let value := u32 ((value .& 0x33333333) + ((value .>> 2) .& 0x33333333)) in
  u32 ((u32 (value + (value .>> 4)) .& 0x0F0F0F0F) * 0x01010101) .>> 24.

Definition CountOnes (n : Z) : Z :=
  let n := u32 (n - ((n .>> 1) .& 0x55555555)) in
  let n := u32 (((n .>> 2) .& 0x33333333) + (n .& 0x33333333)) in
  u32 ((u32 (n + (n .>> 4)) .& 0xF0F0F0F) * 0x1010101) .>> 24.

Definition CountOnes64 (n : Z) : Z :=
  let n := u64 (n - ((n .>> 1) .& 0x5555555555555555)) in
  let n := u64 (((n .>> 2) .& 0x3333333333333333) + (n .& 0x3333333333333333)) in
  u64 ((u64 (n + (n .>> 4)) .& 0xF0F0F0F0F0F0F0F) * 0x101010101010101) .>> 56.
(** The version for other processors. *)
Definition CountOnes64_portable (n : Z) : Z :=
  CountOnes (u32 (n .>> 32)) + CountOnes (n .& 0xffffffff).

Definition k_num_bits : list Z := [
    0; 1; 1; 2; 1; 2; 2; 3; 1; 2; 2; 3; 2; 3; 3; 4;
    1; 2; 2; 3; 2; 3; 3; 4; 2; 3; 3; 4; 3; 4; 4; 5;
    1; 2; 2; 3; 2; 3; 3; 4; 2; 3; 3; 4; 3; 4; 4; 5;
    2; 3; 3; 4; 3; 4; 4; 5; 3; 4; 4; 5; 4; 5; 5; 6;
    1; 2; 2; 3; 2; 3; 3; 4; 2; 3; 3; 4; 3; 4; 4; 5;
    2; 3; 3; 4; 3; 4; 4; 5; 3; 4; 4; 5; 4; 5; 5; 6;
    2; 3; 3; 4; 3; 4; 4; 5; 3; 4; 4; 5; 4; 5; 5; 6;
    3; 4; 4; 5; 4; 5; 5; 6; 4; 5; 5; 6; 5; 6; 6; 7;
    1; 2; 2; 3; 2; 3; 3; 4; 2; 3; 3; 4; 3; 4; 4; 5;
    2; 3; 3; 4; 3; 4; 4; 5; 3; 4; 4; 5; 4; 5; 5; 6;
    2; 3; 3; 4; 3; 4; 4; 5; 3; 4; 4; 5; 4; 5; 5; 6;
    3; 4; 4; 5; 4; 5; 5; 6; 4; 5; 5; 6; 5; 6; 6; 7;
    2; 3; 3; 4; 3; 4; 4; 5; 3; 4; 4; 5; 4; 5; 5; 6;
    3; 4; 4; 5; 4; 5; 5; 6; 4; 5; 5; 6; 5; 6; 6; 7;
    3; 4; 4; 5; 4; 5; 5; 6; 4; 5; 5; 6; 5; 6; 6; 7;
    4; 5; 5; 6; 5; 6; 6; 7; 5; 6; 6; 7; 6; 7; 7; 8].
Definition CountOnesInByte (n : Z) : Z := nth (Z.to_nat n) k_num_bits 0.

(** With a 64-bit [unsigned long]. *)
Definition Count1Bits (x : Z) : option Z :=
  if x =? 0 then Some 0 else clz ← builtin_clz 64 x; Some (8 * 8 - clz).

(** [while (aA != aB)] by repeated subtraction. *)
Fixpoint EuclidGCD_loop (fuel : nat) (aA aB : Z) : option Z :=
  match fuel with
  | O => None
  | S fuel =>
      if aA =? aB then Some aA
      else if aA >? aB then EuclidGCD_loop fuel (aA - aB) aB
      else EuclidGCD_loop fuel aA (aB - aA)
  end.
Definition EuclidGCD (fuel : nat) (aA aB : Z) : option Z :=
  if (aA >? 0) && (aB >? 0) then EuclidGCD_loop fuel aA aB else None.


(** ** Logarithms *)

Lemma log2_bounds w n : 0 < n -> is_uint w n -> 0 <= Z.log2 n < w.
Proof.
  intros Hn [_ Hw]. split; [apply Z.log2_nonneg|]. by apply Z.log2_lt_pow2.
Qed.

Lemma xor_sub n : 0 <= n <= 63 -> 63 .^ (63 - n) = n.
Proof.
  intros Hn. assert (forallb (fun k => 63 .^ (63 - Z.of_nat k) =? Z.of_nat k) (seq 0 64) = true) as F
    by (vm_compute; reflexivity).
  rewrite forallb_forall in F. specialize (F (Z.to_nat n)). rewrite Z2Nat.id in F by lia.
  apply Z.eqb_eq, F, in_seq. lia.
Qed.
Lemma xor_sub32 n : 0 <= n <= 31 -> 31 .^ (31 - n) = n.
Proof.
  intros Hn. assert (forallb (fun k => 31 .^ (31 - Z.of_nat k) =? Z.of_nat k) (seq 0 32) = true) as F
    by (vm_compute; reflexivity).
  rewrite forallb_forall in F. specialize (F (Z.to_nat n)). rewrite Z2Nat.id in F by lia.
  apply Z.eqb_eq, F, in_seq. lia.
Qed.

Lemma Log2Floor_spec n : 0 < n -> is_uint 32 n -> Log2Floor n = Some (Z.log2 n).
Proof.
  intros Hn Hu. unfold Log2Floor, builtin_clz. rewrite (proj2 (Z.eqb_neq n 0)) by lia.
  cbn [mbind option_bind]. pose proof (log2_bounds 32 n Hn Hu).
  change (32 - 1) with 31. by rewrite xor_sub32 by lia.
Qed.
Lemma Log2Floor64_spec n : 0 < n -> is_uint 64 n -> Log2Floor64 n = Some (Z.log2 n).
Proof.
  intros Hn Hu. unfold Log2Floor64, builtin_clz. rewrite (proj2 (Z.eqb_neq n 0)) by lia.
  cbn [mbind option_bind]. pose proof (log2_bounds 64 n Hn Hu).
  change (64 - 1) with 63. by rewrite xor_sub by lia.
Qed.

(** One step of the portable loop halves the range of [value]. *)
Lemma Log2Floor_step_spec value log i s :
  s = 2 ^ i -> 0 <= i -> 0 < value < 2 ^ (2 * s) ->
  let '(value', log') := Log2Floor_step (value, log) i in
  0 < value' < 2 ^ s /\ Z.log2 value' + log' = Z.log2 value + log.
Proof.
  intros Hs Hi [Hv0 Hv1]. unfold Log2Floor_step. rewrite Z.shiftl_1_l, <-Hs.
  assert (0 < s) by (rewrite Hs; by apply Z.pow_pos_nonneg).
  assert (0 < 2 ^ s) by (apply Z.pow_pos_nonneg; lia).
  destruct (Z.eqb_spec (value .>> s) 0) as [E|E]; cbn [negb].
  - split; [|done]. split; [done|]. rewrite Z.shiftr_div_pow2 in E by lia.
    apply Z.div_small_iff in E as [?|?]; lia.
  - assert (0 < value .>> s) as Hp.
    { apply Z.le_neq. split; [|done]. apply Z.shiftr_nonneg. lia. }
    assert (s <= Z.log2 value) as Hl.
    { apply Z.log2_le_pow2; [lia|]. rewrite Z.shiftr_div_pow2 in E by lia.
      destruct (Z.lt_ge_cases value (2 ^ s)); [|done]. rewrite Z.div_small in E by lia. done. }
    split; [split; [done|]|].
    + rewrite Z.shiftr_div_pow2 by lia. apply Z.div_lt_upper_bound; [lia|].
      rewrite <-Z.pow_add_r by lia. by replace (s + s) with (2 * s) by lia.
    + rewrite Z.log2_shiftr by lia. lia.
Qed.

Lemma Log2Floor_portable_spec n : 0 < n -> is_uint 32 n -> Log2Floor_portable n = Some (Z.log2 n).
Proof.
  intros Hn [_ Hu]. unfold Log2Floor_portable. rewrite (proj2 (Z.eqb_neq n 0)) by lia. cbn [fold_left].
  pose proof (Log2Floor_step_spec n 0 4 16 eq_refl ltac:(lia) (conj Hn Hu)) as H4.
  destruct (Log2Floor_step (n, 0) 4) as [v4 l4], H4 as [B4 E4].
  pose proof (Log2Floor_step_spec v4 l4 3 8 eq_refl ltac:(lia) B4) as H3.
  destruct (Log2Floor_step (v4, l4) 3) as [v3 l3], H3 as [B3 E3].
  pose proof (Log2Floor_step_spec v3 l3 2 4 eq_refl ltac:(lia) B3) as H2.
  destruct (Log2Floor_step (v3, l3) 2) as [v2 l2], H2 as [B2 E2].
  pose proof (Log2Floor_step_spec v2 l2 1 2 eq_refl ltac:(lia) B2) as H1.
  destruct (Log2Floor_step (v2, l2) 1) as [v1 l1], H1 as [B1 E1].
  pose proof (Log2Floor_step_spec v1 l1 0 1 eq_refl ltac:(lia) B1) as H0.
  destruct (Log2Floor_step (v1, l1) 0) as [v0 l0], H0 as [B0 E0].
  assert (v0 = 1) as -> by lia. cbn in E0 |- *. f_equal. lia.
Qed.

Lemma Log2Floor64_portable_spec n :
  0 < n -> is_uint 64 n -> Log2Floor64_portable n = Some (Z.log2 n).
Proof.
  intros Hn [Hn0 Hu]. unfold Log2Floor64_portable. change (2 ^ 64) with (2 ^ 32 * 2 ^ 32) in Hu.
  assert (0 < 2 ^ 32) by done.
  assert (is_uint 32 (n .>> 32)) as Ht.
  { rewrite Z.shiftr_div_pow2 by lia. split; [apply Z.div_pos; lia|]. apply Z.div_lt_upper_bound; lia. }
  rewrite wrap_small by done. destruct (Z.eqb_spec (n .>> 32) 0) as [E|E].
  - assert (n < 2 ^ 32).
    { rewrite Z.shiftr_div_pow2 in E by lia. apply Z.div_small_iff in E as [?|?]; lia. }
    rewrite wrap_small by (unfold is_uint; lia). by apply Log2Floor_portable_spec.
  - rewrite Log2Floor_portable_spec by (done || destruct Ht; lia). cbn [mbind option_bind].
    rewrite Z.log2_shiftr by lia. f_equal.
    assert (32 <= Z.log2 n); [|lia]. apply Z.log2_le_pow2; [lia|].
    destruct (Z.lt_ge_cases n (2 ^ 32)); [|done]. destruct E. rewrite Z.shiftr_div_pow2 by lia.
    apply Z.div_small. lia.
Qed.

(** ** Powers of two *)

Lemma land_pred_pow2 n : 0 < n -> n .& (n - 1) = 0 <-> n = 2 ^ Z.log2 n.
Proof.
  intros Hn. pose proof (Z.log2_nonneg n) as Hl. pose proof (Z.log2_spec n Hn) as [L1 L2]. split.
  - intros E. destruct (decide (n = 2 ^ Z.log2 n)) as [|Hne]; [done|]. exfalso.
    assert (Z.log2 (n - 1) = Z.log2 n) as El by (apply Z.log2_unique; lia).
    assert (Z.testbit (n .& (n - 1)) (Z.log2 n) = true) as T.
    { rewrite Z.land_spec, Z.bit_log2 by done. rewrite <-El at 1. apply Z.bit_log2.
      assert (1 <= 2 ^ Z.log2 n) by (apply (Z.pow_le_mono_r 2 0); lia). lia. }
    rewrite E in T. by rewrite Z.testbit_0_l in T.
  - intros E. set (k := Z.log2 n) in *. rewrite E. change (2 ^ k - 1) with (Z.pred (2 ^ k)).
    rewrite <-Z.ones_equiv, Z.land_ones by done. by apply Z.mod_same, Z.pow_nonzero.
Qed.

(** [n == (n & ~(n - 1))] at width [w]. *)
Lemma lowest_bit_test w n :
  0 <= w -> 0 < n -> is_uint w n ->
  (n =? n .& wrap w (Z.lnot (wrap w (n - 1)))) = bool_decide (n = 2 ^ Z.log2 n).
Proof.
  intros Hw Hn Hu. rewrite (wrap_small w (n - 1)) by (unfold is_uint in *; lia).
  assert (n .& wrap w (Z.lnot (n - 1)) = Z.ldiff n (n - 1)) as ->.
  { apply Z.bits_inj'. intros i Hi. rewrite Z.land_spec, wrap_testbit, Z.lnot_spec, Z.ldiff_spec by done.
    destruct (Z.ltb_spec i w); [done|]. by rewrite (is_uint_testbit w n i). }
  apply Bool.eq_iff_eq_true. rewrite Z.eqb_eq, bool_decide_eq_true, <-land_pred_pow2 by done. split.
  - intros E. apply Z.bits_inj'. intros i Hi. rewrite Z.land_spec, Z.testbit_0_l.
    apply (f_equal (fun z => Z.testbit z i)) in E. rewrite Z.ldiff_spec in E.
    destruct (Z.testbit n i), (Z.testbit (n - 1) i); done.
  - intros E. apply Z.bits_inj'. intros i Hi. rewrite Z.ldiff_spec.
    apply (f_equal (fun z => Z.testbit z i)) in E. rewrite Z.land_spec, Z.testbit_0_l in E.
    destruct (Z.testbit n i), (Z.testbit (n - 1) i); done.
Qed.

Lemma log2_up_cases n : 0 < n ->
  Z.log2_up n = if bool_decide (n = 2 ^ Z.log2 n) then Z.log2 n else Z.log2 n + 1.
Proof.
  intros Hn. pose proof (Z.log2_nonneg n). case_bool_decide as E.
  - rewrite E at 1. by apply Z.log2_up_pow2.
  - pose proof (Z.log2_spec n Hn) as [L1 L2]. apply Z.log2_up_unique; [lia|].
    replace (Z.pred (Z.log2 n + 1)) with (Z.log2 n) by lia.
    change (Z.succ (Z.log2 n)) with (Z.log2 n + 1) in L2. lia.
Qed.

Lemma Log2Ceiling_spec n : 0 < n -> is_uint 32 n -> Log2Ceiling n = Some (Z.log2_up n).
Proof.
  intros. unfold Log2Ceiling. rewrite Log2Floor_spec by done. cbn [mbind option_bind].
  rewrite lowest_bit_test, log2_up_cases by done. by case_bool_decide.
Qed.
Lemma Log2Ceiling64_spec n : 0 < n -> is_uint 64 n -> Log2Ceiling64 n = Some (Z.log2_up n).
Proof.
  intros. unfold Log2Ceiling64. rewrite Log2Floor64_spec by done. cbn [mbind option_bind].
  rewrite lowest_bit_test, log2_up_cases by done. by case_bool_decide.
Qed.

Lemma log2_up_le w n : 0 <= w -> n <= 2 ^ w -> 0 <= Z.log2_up n <= w.
Proof.
  intros Hw Hn. split; [apply Z.log2_up_nonneg|]. rewrite <-(Z.log2_up_pow2 w Hw). by apply Z.log2_up_le_mono.
Qed.

(** Smearing: after the step by [m] every bit is the disjunction of [2 m] bits
    of the argument. *)
Definition smeared (m x y : Z) : Prop :=
  forall i, 0 <= i -> Z.testbit y i = true <-> exists j, i <= j < i + m /\ Z.testbit x j = true.

Lemma smeared_one x : smeared 1 x x.
Proof.
  intros i Hi. split; [intros; exists i; split; [lia|done]|]. intros (j & Hj & T).
  by replace i with j by lia.
Qed.

Lemma smeared_step m x y : 0 <= m -> smeared m x y -> smeared (2 * m) x (y .| (y .>> m)).
Proof.
  intros Hm Hs i Hi. rewrite Z.lor_spec, Z.shiftr_spec, orb_true_iff by done.
  rewrite (Hs i), (Hs (i + m)) by lia. split.
  - intros [(j & Hj & T)|(j & Hj & T)]; exists j; (split; [lia|done]).
  - intros (j & Hj & T). destruct (Z.lt_ge_cases j (i + m)); [left|right]; exists j; (split; [lia|done]).
Qed.

Lemma smeared_ones m x y :
  0 < x -> Z.log2 x < m -> smeared m x y -> y = Z.ones (Z.log2 x + 1).
Proof.
  intros Hx Hm Hs. pose proof (Z.log2_nonneg x). apply Z.bits_inj'. intros i Hi.
  apply Bool.eq_iff_eq_true. rewrite (Hs i Hi), Z.testbit_ones_nonneg, Z.ltb_lt by lia. split.
  - intros (j & Hj & T). destruct (Z.lt_ge_cases (Z.log2 x) j) as [Hlt|]; [|lia].
    rewrite Z.bits_above_log2 in T by lia. done.
  - intros Hil. exists (Z.log2 x). split; [lia|]. by apply Z.bit_log2.
Qed.

Lemma next_pow_of_2_spec x :
  0 < x -> is_uint 32 x -> next_pow_of_2 x = if x <=? 2 ^ 31 then 2 ^ Z.log2_up x else 0.
Proof.
  intros Hx Hu. unfold next_pow_of_2, is_pow_of_2.
  rewrite (wrap_small 32 (x - 1)) by (unfold is_uint in *; lia).
  pose proof (log2_bounds 32 x Hx Hu) as Hl. pose proof (Z.log2_spec x Hx) as [L1 L2].
  rewrite (log2_up_cases x Hx). destruct (Z.eqb_spec (x .& (x - 1)) 0) as [E|E].
  - apply land_pred_pow2 in E; [|done]. rewrite bool_decide_eq_true_2 by done.
    assert (2 ^ Z.log2 x <= 2 ^ 31) by (apply Z.pow_le_mono_r; lia).
    by rewrite (proj2 (Z.leb_le x _)) by lia.
  - rewrite bool_decide_eq_false_2 by (by rewrite <-land_pred_pow2).
    assert (smeared 32 x (let x := x .| (x .>> 1) in let x := x .| (x .>> 2) in
       let x := x .| (x .>> 4) in let x := x .| (x .>> 8) in x .| (x .>> 16))) as Hs.
    { cbv zeta. apply (smeared_step 16); [lia|]. apply (smeared_step 8); [lia|].
      apply (smeared_step 4); [lia|]. apply (smeared_step 2); [lia|]. apply (smeared_step 1); [lia|].
      apply smeared_one. }
    cbv zeta in *. rewrite (smeared_ones 32 x _ Hx ltac:(lia) Hs).
    rewrite Z.ones_equiv. replace (Z.pred (2 ^ (Z.log2 x + 1)) + 1) with (2 ^ (Z.log2 x + 1)) by lia.
    destruct (Z.eq_dec (Z.log2 x) 31) as [E31|].
    + rewrite E31. rewrite (proj2 (Z.leb_gt x _)); [done|].
      assert (x <> 2 ^ 31); [|rewrite E31 in L1; lia].
      intros ->. by apply E.
    + assert (2 ^ (Z.log2 x + 1) <= 2 ^ 31) by (apply Z.pow_le_mono_r; lia).
      rewrite wrap_small, (proj2 (Z.leb_le x _)); [done| |].
      * change (2 ^ Z.succ (Z.log2 x)) with (2 ^ (Z.log2 x + 1)) in L2. lia.
      * split; [apply Z.pow_nonneg; lia|]. change (2 ^ 31) with 2147483648 in *. change (2 ^ 32) with 4294967296. lia.
Qed.

Lemma NextPowerOfTwo_spec v : 0 < v <= 2 ^ 31 -> NextPowerOfTwo v = Some (2 ^ Z.log2_up v).
Proof.
  intros Hv. unfold NextPowerOfTwo.
  rewrite Log2Ceiling_spec by (unfold is_uint; change (2 ^ 31) with 2147483648 in *; change (2 ^ 32) with 4294967296; lia).
  cbn [mbind option_bind]. pose proof (log2_up_le 31 v ltac:(lia) ltac:(lia)) as Hl.
  rewrite (proj2 (Z.leb_le _ _)), (proj2 (Z.ltb_lt _ _)) by lia. cbn [andb]. f_equal.
  rewrite Z.shiftl_1_l. set (k := Z.log2_up v) in *.
  assert (exists c, i32 (2 ^ k) = 2 ^ k + 2 ^ 32 * c) as [c ->].
  { unfold swrap. exists (- ((2 ^ k + 2 ^ 31) / 2 ^ 32)). change (32 - 1) with 31.
    rewrite Z.mod_eq by done. lia. }
  unfold wrap. rewrite (Z.mul_comm (2 ^ 32)), Z.mod_add by done. apply Z.mod_small.
  split; [apply Z.pow_nonneg; lia|]. apply Z.pow_lt_mono_r; lia.
Qed.

Lemma NextPowerOfTwo64_truncates v : NextPowerOfTwo64 v = NextPowerOfTwo64 (u32 v).
Proof. unfold NextPowerOfTwo64. by rewrite (wrap_wrap 32 32) by lia. Qed.

Lemma NextPowerOfTwo64_spec v : 0 < v <= 2 ^ 31 -> NextPowerOfTwo64 v = Some (2 ^ Z.log2_up v).
Proof.
  intros Hv. unfold NextPowerOfTwo64. assert (is_uint 32 v) as Hu
    by (unfold is_uint; change (2 ^ 31) with 2147483648 in *; change (2 ^ 32) with 4294967296; lia).
  rewrite wrap_small, Log2Ceiling_spec by (done || lia).
  cbn [mbind option_bind]. pose proof (log2_up_le 31 v ltac:(lia) ltac:(lia)) as Hl.
  rewrite (proj2 (Z.leb_le _ _)), (proj2 (Z.ltb_lt _ _)) by lia. cbn [andb]. f_equal.
  rewrite Z.shiftl_1_l. apply wrap_small. split; [apply Z.pow_nonneg; lia|]. apply Z.pow_lt_mono_r; lia.
Qed.

Lemma NextPowerOf2uint64_t_spec n : 2 <= n <= 2 ^ 63 -> NextPowerOf2uint64_t n = Some (2 ^ Z.log2_up n).
Proof.
  intros Hn. change (2 ^ 63) with 9223372036854775808 in Hn.
  unfold NextPowerOf2uint64_t, CountLeadingZeroes, builtin_clz.
  rewrite Z.gtb_ltb, (proj2 (Z.ltb_lt _ _)) by lia.
  rewrite wrap_small by (unfold is_uint; change (2 ^ 64) with 18446744073709551616; lia).
  rewrite (proj2 (Z.eqb_neq _ _)) by lia. cbn [mbind option_bind].
  assert (Z.log2 (n - 1) < 63) as Hl by (apply Z.log2_lt_pow2; change (2 ^ 63) with 9223372036854775808; lia).
  pose proof (Z.log2_nonneg (n - 1)). rewrite (proj2 (Z.eqb_neq _ _)) by lia. f_equal.
  rewrite Z.shiftl_1_l. assert (Z.log2_up n = Z.log2 (n - 1) + 1) as ->.
  { unfold Z.log2_up. rewrite (proj2 (Z.compare_lt_iff 1 n)) by lia.
    replace (Z.pred n) with (n - 1) by lia. lia. }
  replace (64 - (64 - 1 - Z.log2 (n - 1))) with (Z.log2 (n - 1) + 1) by lia.
  apply wrap_small. split; [apply Z.pow_nonneg; lia|]. apply Z.pow_lt_mono_r; lia.
Qed.

(** [RoundupPower2]: 64 iterations reach any size up to [2^63]; past it the
    variable wraps to 0 and the loop does not end. *)
Lemma RoundupPower2_loop_spec fuel size k :
  0 <= k <= 63 -> 2 ^ k <= 2 ^ Z.log2_up size -> Z.log2_up size <= 63 -> 0 < size ->
  (Z.to_nat (Z.log2_up size - k) < fuel)%nat ->
  RoundupPower2_loop fuel size (2 ^ k) = Some (2 ^ Z.log2_up size).
Proof.
  revert k. induction fuel as [|fuel IH]; intros k Hk Hle Hs Hs0 Hf; [lia|].
  cbn [RoundupPower2_loop]. pose proof (Z.log2_up_nonneg size) as Hn.
  apply Z.pow_le_mono_r_iff in Hle; [|lia|done].
  pose proof (Z.log2_log2_up_spec size Hs0) as [_ U].
  destruct (Z.ltb_spec (2 ^ k) size) as [Hlt|Hge].
  - assert (k < Z.log2_up size) as Hks.
    { destruct (Z.lt_ge_cases k (Z.log2_up size)) as [|G]; [done|]. exfalso.
      assert (2 ^ Z.log2_up size <= 2 ^ k) by (apply Z.pow_le_mono_r; lia). lia. }
    assert (E : u64 (2 ^ k .<< 1) = 2 ^ (k + 1)).
    { rewrite Z.shiftl_mul_pow2 by lia. rewrite <-Z.pow_add_r by lia. apply wrap_small.
      split; [apply Z.pow_nonneg; lia|]. apply Z.pow_lt_mono_r; lia. }
    rewrite E. apply IH; try lia. apply Z.pow_le_mono_r; lia.
  - f_equal. apply Z.le_antisymm.
    + apply Z.pow_le_mono_r; lia.
    + apply Z.pow_le_mono_r; [lia|]. rewrite <-(Z.log2_up_pow2 k) by lia. by apply Z.log2_up_le_mono.
Qed.

Lemma RoundupPower2_loop_diverges fuel size r :
  2 ^ 63 < size -> (r = 0 \/ exists k, 0 <= k <= 63 /\ r = 2 ^ k) -> RoundupPower2_loop fuel size r = None.
Proof.
  intros Hs. revert r. induction fuel as [|fuel IH]; intros r Hr; [done|]. cbn [RoundupPower2_loop].
  assert (r < size).
  { destruct Hr as [->|(k & Hk & ->)]; [lia|]. assert (2 ^ k <= 2 ^ 63) by (apply Z.pow_le_mono_r; lia). lia. }
  rewrite (proj2 (Z.ltb_lt _ _)) by done. apply IH. destruct Hr as [->|(k & Hk & ->)]; [by left|].
  rewrite Z.shiftl_mul_pow2, <-Z.pow_add_r by lia.
  destruct (Z.eq_dec k 63) as [->|]; [left; done|right].
  exists (k + 1). split; [lia|]. apply wrap_small. split; [apply Z.pow_nonneg; lia|]. apply Z.pow_lt_mono_r; lia.
Qed.

(** ** Rounding *)

Lemma land_lnot_pow2 w x k :
  0 <= k < w -> is_uint w x -> x .& wrap w (Z.lnot (wrap w (2 ^ k - 1))) = 2 ^ k * (x / 2 ^ k).
Proof.
  intros Hk Hx. assert (0 < 2 ^ k) by (apply Z.pow_pos_nonneg; lia).
  assert (2 ^ k < 2 ^ w) by (apply Z.pow_lt_mono_r; lia).
  rewrite (wrap_small w (2 ^ k - 1)) by (unfold is_uint; lia).
  change (2 ^ k - 1) with (Z.pred (2 ^ k)). rewrite <-Z.ones_equiv.
  rewrite <-Z.shiftr_div_pow2, Z.mul_comm, <-Z.shiftl_mul_pow2 by lia.
  apply Z.bits_inj'. intros i Hi. rewrite Z.land_spec, wrap_testbit, Z.lnot_spec by lia.
  rewrite Z.testbit_ones_nonneg by lia. rewrite Z.shiftl_spec by done.
  destruct (Z.ltb_spec i k).
  - rewrite (Z.testbit_neg_r _ (i - k)) by lia. cbn. by rewrite !andb_false_r.
  - rewrite Z.shiftr_spec by lia. replace (i - k + k) with i by lia.
    destruct (Z.ltb_spec i w); cbn; [by rewrite andb_true_r|]. by rewrite (is_uint_testbit w x) by done.
Qed.

Lemma round_up_div i f : 0 < f -> 0 <= i -> (i + f - 1) / f * f = if i mod f =? 0 then i else i + (f - i mod f).
Proof.
  intros Hf Hi. pose proof (Z.div_mod i f ltac:(lia)) as D. pose proof (Z.mod_pos_bound i f Hf) as M.
  destruct (Z.eqb_spec (i mod f) 0) as [E|E].
  - replace (i + f - 1) with ((f - 1) + (i / f) * f) by lia. rewrite Z.div_add, Z.div_small by lia. lia.
  - replace (i + f - 1) with ((i mod f - 1) + (i / f + 1) * f) by lia. rewrite Z.div_add, Z.div_small by lia. lia.
Qed.

(** ** Greatest common divisor *)

Lemma EuclidGCD_loop_spec fuel a b :
  0 < a -> 0 < b -> (Z.to_nat (a + b) < fuel)%nat -> EuclidGCD_loop fuel a b = Some (Z.gcd a b).
Proof.
  revert a b. induction fuel as [|fuel IH]; intros a b Ha Hb Hf; [lia|]. cbn [EuclidGCD_loop].
  destruct (Z.eqb_spec a b) as [->|Hne]; [rewrite Z.gcd_diag, Z.abs_eq by lia; done|].
  rewrite Z.gtb_ltb. destruct (Z.ltb_spec b a).
  - rewrite IH by lia. f_equal. rewrite Z.gcd_comm, Z.gcd_sub_diag_r. by rewrite Z.gcd_comm.
  - rewrite IH by lia. f_equal. by rewrite Z.gcd_sub_diag_r.
Qed.

(** ** Bit reversal *)

(** Two functions that distribute over [|] and agree on the powers of two. *)
Lemma orb_linear_ext (h g : Z -> bool) (w : nat) :
  (forall a b, h (a .| b) = h a || h b) -> (forall a b, g (a .| b) = g a || g b) -> h 0 = g 0 ->
  forallb (fun j => Bool.eqb (h (2 ^ Z.of_nat j)) (g (2 ^ Z.of_nat j))) (seq 0 w) = true ->
  forall n, is_uint (Z.of_nat w) n -> h n = g n.
Proof.
  intros Hh Hg H0. induction w as [|w IH]; intros F n Hn.
  { assert (n = 0) as -> by (destruct Hn; change (2 ^ Z.of_nat 0) with 1 in *; lia). done. }
  rewrite seq_S, forallb_app, andb_true_iff in F. destruct F as [F Fw]. cbn in Fw.
  rewrite andb_true_r in Fw. apply Bool.eqb_prop in Fw.
  assert (n = wrap (Z.of_nat w) n .| (if Z.testbit n (Z.of_nat w) then 2 ^ Z.of_nat w else 0)) as ->.
  { apply Z.bits_inj'. intros i Hi. rewrite Z.lor_spec, wrap_testbit by lia.
    destruct (Z.testbit n (Z.of_nat w)) eqn:T.
    - rewrite Z.pow2_bits_eqb by lia. destruct (Z.ltb_spec i (Z.of_nat w)), (Z.eqb_spec (Z.of_nat w) i);
        try lia; cbn; [by rewrite orb_false_r|by subst|]. apply (is_uint_testbit _ _ i Hn). lia.
    - rewrite Z.testbit_0_l, orb_false_r. destruct (Z.ltb_spec i (Z.of_nat w)); [done|]. cbn.
      destruct (Z.eq_dec i (Z.of_nat w)) as [->|]; [done|]. apply (is_uint_testbit _ _ i Hn). lia. }
  rewrite Hh, Hg, (IH F) by (apply wrap_range; lia). by destruct (Z.testbit n _); rewrite ?Fw, ?H0.
Qed.

(** One exchange of neighbouring fields. *)
Definition swap_stage (w s m n : Z) : Z := ((n .>> s) .& m) .| wrap w ((n .& m) .<< s).

Lemma swap_stage_lor w s m a b :
  0 <= w -> swap_stage w s m (a .| b) = swap_stage w s m a .| swap_stage w s m b.
Proof.
  intros. unfold swap_stage. rewrite Z.shiftr_lor, !Z.land_lor_distr_l, Z.shiftl_lor, wrap_lor by done. lor_ac.
Qed.

Lemma ReverseBits32_lor a b : ReverseBits32 (a .| b) = ReverseBits32 a .| ReverseBits32 b.
Proof.
  assert (D : forall n, ReverseBits32 n =
    let m := swap_stage 32 8 0x00FF00FF (swap_stage 32 4 0x0F0F0F0F (swap_stage 32 2 0x33333333
       (swap_stage 32 1 0x55555555 n))) in (m .>> 16) .| u32 (m .<< 16)) by done.
  rewrite !D. cbv zeta. rewrite !swap_stage_lor, Z.shiftr_lor, Z.shiftl_lor, wrap_lor by done. lor_ac.
Qed.

Lemma ReverseBits64_lor a b : ReverseBits64 (a .| b) = ReverseBits64 a .| ReverseBits64 b.
Proof.
  assert (D : forall n, ReverseBits64 n =
    let m := swap_stage 64 16 0x0000FFFF0000FFFF (swap_stage 64 8 0x00FF00FF00FF00FF
       (swap_stage 64 4 0x0F0F0F0F0F0F0F0F (swap_stage 64 2 0x3333333333333333
       (swap_stage 64 1 0x5555555555555555 n)))) in (m .>> 32) .| u64 (m .<< 32)) by done.
  rewrite !D. cbv zeta. rewrite !swap_stage_lor, Z.shiftr_lor, Z.shiftl_lor, wrap_lor by done. lor_ac.
Qed.

Lemma ReverseBits64_portable_lor a b :
  ReverseBits64_portable (a .| b) = ReverseBits64_portable a .| ReverseBits64_portable b.
Proof.
  unfold ReverseBits64_portable.
  rewrite Z.shiftr_lor, wrap_lor, Z.land_lor_distr_l, !ReverseBits32_lor, Z.shiftl_lor, wrap_lor by done. lor_ac.
Qed.

(** A function distributing over [|] reverses the bits of every word when it
    reverses those of the powers of two. *)
Lemma reverse_ext (f : Z -> Z) (w : nat) :
  (forall a b, f (a .| b) = f a .| f b) -> f 0 = 0 ->
  forallb (fun i => forallb (fun j => Bool.eqb (Z.testbit (f (2 ^ Z.of_nat j)) (Z.of_nat i))
     (Z.testbit (2 ^ Z.of_nat j) (Z.of_nat (w - 1 - i)))) (seq 0 w)) (seq 0 w) = true ->
  forall n i, is_uint (Z.of_nat w) n -> (i < w)%nat ->
    Z.testbit (f n) (Z.of_nat i) = Z.testbit n (Z.of_nat (w - 1 - i)).
Proof.
  intros Hf H0 F n i Hn Hi. rewrite forallb_forall in F. specialize (F i ltac:(apply in_seq; lia)).
  apply (orb_linear_ext (fun n => Z.testbit (f n) (Z.of_nat i))
           (fun n => Z.testbit n (Z.of_nat (w - 1 - i))) w); [|by intros; apply Z.lor_spec| |exact F|done].
  - intros. by rewrite Hf, Z.lor_spec.
  - by rewrite H0, !Z.testbit_0_l.
Qed.

Lemma ReverseBits8_byte b :
  forallb (fun i => Bool.eqb (Z.testbit (ReverseBits8 (uchar b)) (Z.of_nat i))
                      (Z.testbit (uchar b) (Z.of_nat (7 - i)))) (seq 0 8) = true.
Proof. destruct b; vm_compute; reflexivity. Qed.

(** ** Population counts *)

(** A number from its digits of [w] bits, least significant first. *)
Fixpoint dval (w : Z) (l : list Z) : Z :=
  match l with [] => 0 | x :: l => x + 2 ^ w * dval w l end.

(** Every second digit kept: the mask [0...01...1] repeated [n] times. *)
Definition alt_mask (w : Z) (n : nat) : Z := dval (2 * w) (replicate n (2 ^ w - 1)).

Fixpoint pair_sums (l : list Z) : list Z :=
  match l with a :: b :: l => (a + b) :: pair_sums l | _ => [] end.

Definition sum (l : list Z) : Z := fold_right Z.add 0 l.

Lemma list_pair_ind {A} (P : list A -> Prop) :
  P [] -> (forall a b l, P l -> P (a :: b :: l)) -> forall n l, length l = (2 * n)%nat -> P l.
Proof.
  intros H0 H2 n. induction n as [|n IH]; intros l Hl; destruct l as [|a [|b l]]; simpl in Hl; try lia; [done|].
  apply H2, IH. lia.
Qed.

Lemma sum_pair_sums n l : length l = (2 * n)%nat -> sum (pair_sums l) = sum l /\ length (pair_sums l) = n.
Proof.
  revert l. induction n as [|n IH]; intros l Hl; destruct l as [|a [|b l]]; simpl in Hl; try lia; [done|].
  destruct (IH l ltac:(lia)) as [E1 E2]. cbn. rewrite E2. split; [fold (sum (pair_sums l)); fold (sum l); lia|done].
Qed.

Lemma pair_sums_bound n l M :
  length l = (2 * n)%nat -> Forall (fun x => 0 <= x <= M) l -> Forall (fun x => 0 <= x <= 2 * M) (pair_sums l).
Proof.
  revert l. induction n as [|n IH]; intros l Hl HF; destruct l as [|a [|b l]]; simpl in Hl; try lia; [constructor|].
  rewrite !Forall_cons_iff in HF. destruct HF as (?&?&?). cbn. constructor; [lia|]. apply IH; [lia|done].
Qed.

Lemma land_split w x y a b :
  0 <= w -> is_uint w x -> is_uint w y ->
  (x + 2 ^ w * a) .& (y + 2 ^ w * b) = (x .& y) + 2 ^ w * (a .& b).
Proof.
  intros Hw Hx Hy. rewrite <-!lor_shiftl_add by (done || (apply is_uint_land; [done|destruct Hy; lia])).
  apply Z.bits_inj'. intros i Hi. rewrite Z.land_spec, !Z.lor_spec, !Z.shiftl_spec, !Z.land_spec by done.
  destruct (Z.lt_ge_cases i w).
  - rewrite !(Z.testbit_neg_r _ (i - w)) by lia. rewrite !orb_false_r. done.
  - rewrite !(is_uint_testbit w _ i) by done. done.
Qed.

Lemma land_low w x : 0 <= w -> is_uint w x -> x .& (2 ^ w - 1) = x.
Proof.
  intros. change (2 ^ w - 1) with (Z.pred (2 ^ w)). rewrite <-Z.ones_equiv, <-wrap_land by done. by apply wrap_small.
Qed.

(** Masking a two-digit group. *)
Lemma land_group w a b V m :
  0 <= w -> is_uint w a -> is_uint w b ->
  (a + 2 ^ w * b + 2 ^ (2 * w) * V) .& ((2 ^ w - 1) + 2 ^ (2 * w) * m) = a + 2 ^ (2 * w) * (V .& m).
Proof.
  intros Hw Ha Hb. assert (0 < 2 ^ w) by (by apply Z.pow_pos_nonneg).
  assert (E : 2 ^ (2 * w) = 2 ^ w * 2 ^ w) by (rewrite <-Z.pow_add_r by lia; f_equal; lia).
  rewrite land_split; [|lia|unfold is_uint in *; rewrite E; nia..]. f_equal.
  replace (2 ^ w - 1) with ((2 ^ w - 1) + 2 ^ w * 0) by lia.
  rewrite land_split by (done || unfold is_uint; lia). rewrite Z.land_0_r, land_low by done. lia.
Qed.

Lemma dval_shiftr w a l : 0 <= w -> is_uint w a -> dval w (a :: l) .>> w = dval w l.
Proof. intros. cbn [dval]. by apply shiftr_add_small. Qed.

(** [V = low + 2^w * (V >> w)] *)
Lemma shiftr_split w V : 0 <= w -> V = wrap w V + 2 ^ w * (V .>> w).
Proof.
  intros. unfold wrap. rewrite Z.shiftr_div_pow2 by done.
  pose proof (Z.div_mod V (2 ^ w) ltac:(apply Z.pow_nonzero; lia)). lia.
Qed.

Lemma pair_stage w n l :
  0 <= w -> length l = (2 * n)%nat -> Forall (is_uint w) l ->
  (dval w l .& alt_mask w n) + ((dval w l .>> w) .& alt_mask w n) = dval (2 * w) (pair_sums l).
Proof.
  intros Hw. revert l. induction n as [|n IH]; intros l Hl HF; destruct l as [|a [|b l]]; simpl in Hl; try lia; [by cbn; rewrite Z.shiftr_0_l|].
  rewrite !Forall_cons_iff in HF. destruct HF as (Ha & Hb & HF).
  rewrite dval_shiftr by done. cbn [dval pair_sums]. 
  change (alt_mask w (S n)) with ((2 ^ w - 1) + 2 ^ (2 * w) * alt_mask w n).
  assert (E : 2 ^ (2 * w) = 2 ^ w * 2 ^ w) by (rewrite <-Z.pow_add_r by lia; f_equal; lia).
  rewrite <-(IH l ltac:(lia) HF).
  replace (a + 2 ^ w * (b + 2 ^ w * dval w l)) with (a + 2 ^ w * b + 2 ^ (2 * w) * dval w l) by (rewrite E; ring).
  rewrite land_group by done.
  rewrite (shiftr_split w (dval w l) Hw) at 2.
  replace (b + 2 ^ w * (wrap w (dval w l) + 2 ^ w * (dval w l .>> w)))
    with (b + 2 ^ w * wrap w (dval w l) + 2 ^ (2 * w) * (dval w l .>> w)) by (rewrite E; ring).
  rewrite land_group by (done || by apply wrap_range). ring.
Qed.

(** The variant that adds before masking: digits of at most [2^(w-1) - 1]. *)
Lemma add_stage w n l :
  1 <= w -> length l = (2 * n)%nat -> Forall (fun x => 0 <= x <= 2 ^ (w - 1) - 1) l ->
  (dval w l + (dval w l .>> w)) .& alt_mask w n = dval (2 * w) (pair_sums l).
Proof.
  intros Hw. assert (E1 : 2 ^ w = 2 * 2 ^ (w - 1)) by (rewrite <-Z.pow_succ_r by lia; f_equal; lia).
  assert (0 < 2 ^ (w - 1)) by (apply Z.pow_pos_nonneg; lia).
  assert (E : 2 ^ (2 * w) = 2 ^ w * 2 ^ w) by (rewrite <-Z.pow_add_r by lia; f_equal; lia).
  assert (W : forall l, Forall (fun x => 0 <= x <= 2 ^ (w - 1) - 1) l -> 0 <= wrap w (dval w l) <= 2 ^ (w - 1) - 1).
  { intros [|x l'] HF; cbn [dval]; [unfold wrap; rewrite Z.mod_0_l by lia; lia|].
    apply Forall_cons_iff in HF as [Hx _]. unfold wrap. rewrite (Z.mul_comm (2 ^ w)), Z.mod_add by lia.
    rewrite Z.mod_small by lia. done. }
  revert l. induction n as [|n IH]; intros l Hl HF; destruct l as [|a [|b l]]; simpl in Hl; try lia.
  { cbn. by rewrite Z.shiftr_0_l. }
  pose proof HF as HF0. rewrite !Forall_cons_iff in HF. destruct HF as (Ha & Hb & HF).
  rewrite dval_shiftr by (lia || (unfold is_uint; lia)). cbn [dval pair_sums].
  change (alt_mask w (S n)) with ((2 ^ w - 1) + 2 ^ (2 * w) * alt_mask w n).
  rewrite <-(IH l ltac:(lia) HF). pose proof (W l HF) as HW.
  pose proof (shiftr_split w (dval w l) ltac:(lia)) as S.
  set (V := dval w l) in *. set (c := wrap w V) in *. set (Q := V .>> w) in *.
  replace (a + 2 ^ w * (b + 2 ^ w * V) + (b + 2 ^ w * V))
    with ((a + b) + 2 ^ w * (b + c) + 2 ^ (2 * w) * (V + Q)) by (rewrite E; rewrite S at 3; ring).
  rewrite land_group by (unfold is_uint; lia). done.
Qed.

(** ** The bits of a word *)

Definition bits (w : nat) (x : Z) : list Z := map (bit x) (seq 0 w).

Lemma popcount_sum w x : popcount w x = sum (bits w x).
Proof.
  unfold popcount, bits, sum. generalize (seq 0 w). intros l.
  induction l as [|i l IH]; [done|]. cbn. by rewrite IH.
Qed.

Lemma bits_uint w x : Forall (is_uint 1) (bits w x) /\ length (bits w x) = w.
Proof.
  unfold bits. split; [|by rewrite length_map, length_seq].
  apply Forall_forall. intros y Hy. apply in_map_iff in Hy as (i & <- & _).
  unfold bit. by destruct (Z.testbit x _).
Qed.

Lemma dval_bits_from w k x :
  dval 1 (map (bit x) (seq k w)) = wrap (Z.of_nat w) (x .>> Z.of_nat k).
Proof.
  revert k. induction w as [|w IH]; intros k; [unfold wrap; by rewrite Z.mod_1_r|].
  cbn [seq map dval]. rewrite IH. unfold wrap. change (2 ^ 1) with 2.
  replace (Z.of_nat (S w)) with (1 + Z.of_nat w) by lia. rewrite Z.pow_add_r by lia. change (2 ^ 1) with 2.
  rewrite Z.rem_mul_r by lia. f_equal.
  - unfold bit. rewrite <-(Z.add_0_l (Z.of_nat k)), <-Z.shiftr_spec by lia. by rewrite Z.bit0_mod.
  - f_equal. f_equal. transitivity ((x .>> Z.of_nat k) / 2 ^ 1); [|done].
    rewrite <-Z.shiftr_div_pow2, Z.shiftr_shiftr by lia. f_equal. lia.
Qed.

Lemma dval_bits w x : is_uint (Z.of_nat w) x -> dval 1 (bits w x) = x.
Proof. intros. unfold bits. rewrite dval_bits_from, Z.shiftr_0_r. by apply wrap_small. Qed.

Lemma sub_stage n l :
  length l = (2 * n)%nat -> Forall (is_uint 1) l ->
  dval 1 l - ((dval 1 l .>> 1) .& alt_mask 1 n) = dval 2 (pair_sums l).
Proof.
  revert l. induction n as [|n IH]; intros l Hl HF; destruct l as [|a [|b l]]; simpl in Hl; try lia; [done|].
  rewrite !Forall_cons_iff in HF. destruct HF as (Ha & Hb & HF).
  rewrite dval_shiftr by done. cbn [dval pair_sums]. rewrite <-(IH l ltac:(lia) HF).
  change (alt_mask 1 (S n)) with ((2 ^ 1 - 1) + 2 ^ (2 * 1) * alt_mask 1 n).
  pose proof (shiftr_split 1 (dval 1 l) ltac:(lia)) as S. set (V := dval 1 l) in *.
  replace (b + 2 ^ 1 * V) with (b + 2 ^ 1 * wrap 1 V + 2 ^ (2 * 1) * (V .>> 1))
    by (change (2 ^ (2 * 1)) with 4; change (2 ^ 1) with 2 in *; lia).
  rewrite land_group by (done || lia || by apply wrap_range).
  change (2 ^ (2 * 1)) with 4. change (2 ^ 2) with 4. change (2 ^ 1) with 2 in *. lia.
Qed.

Lemma dval_range w l : 0 <= w -> Forall (is_uint w) l -> is_uint (w * Z.of_nat (length l)) (dval w l).
Proof.
  intros Hw. induction 1 as [|x l Hx _ IH]; [rewrite Z.mul_0_r; by vm_compute|]. cbn [dval length].
  unfold is_uint in *. replace (w * Z.of_nat (S (length l))) with (w + w * Z.of_nat (length l)) by lia.
  rewrite Z.pow_add_r by lia. nia.
Qed.

Lemma land_wrap_mask w y m : 0 <= w -> is_uint w m -> wrap w y .& m = y .& m.
Proof.
  intros Hw Hm. apply Z.bits_inj'. intros i Hi. rewrite !Z.land_spec, wrap_testbit by done.
  destruct (Z.ltb_spec i w); [done|]. rewrite (is_uint_testbit w m) by done. by rewrite !andb_false_r.
Qed.

Lemma bound_uint w M l : M < 2 ^ w -> Forall (fun x => 0 <= x <= M) l -> Forall (is_uint w) l.
Proof. intros ? HF. eapply Forall_impl; [|exact HF]. cbn. unfold is_uint. lia. Qed.

(** The three stages from the bits of a word to the counts of its bytes. *)
Lemma popcount_stages w n x :
  w = (8 * n)%nat -> is_uint (Z.of_nat w) x ->
  exists l, length l = n /\ Forall (fun d => 0 <= d <= 8) l /\ sum l = popcount w x /\
    let v1 := wrap (Z.of_nat w) (x - ((x .>> 1) .& alt_mask 1 (4 * n))) in
    let v2 := wrap (Z.of_nat w) ((v1 .& alt_mask 2 (2 * n)) + ((v1 .>> 2) .& alt_mask 2 (2 * n))) in
    wrap (Z.of_nat w) (v2 + (v2 .>> 4)) .& alt_mask 4 n = dval 8 l.
Proof.
  intros -> Hx. destruct (bits_uint (8 * n) x) as [H1 L1]. pose proof (dval_bits (8 * n) x Hx) as Ex.
  rewrite popcount_sum. set (l1 := bits (8 * n) x) in *.
  assert (B1 : Forall (fun d => 0 <= d <= 1) l1).
  { eapply Forall_impl; [|exact H1]. unfold is_uint. intros d. change (2 ^ 1) with 2. lia. }
  destruct (sum_pair_sums (4 * n) l1 ltac:(lia)) as [S2 L2]. pose proof (pair_sums_bound (4 * n) l1 1 ltac:(lia) B1) as B2.
  pose proof (sub_stage (4 * n) l1 ltac:(lia) H1) as E2. set (l2 := pair_sums l1) in *.
  destruct (sum_pair_sums (2 * n) l2 ltac:(lia)) as [S3 L3]. pose proof (pair_sums_bound (2 * n) l2 2 ltac:(lia) B2) as B3.
  pose proof (pair_stage 2 (2 * n) l2 ltac:(lia) ltac:(lia) (bound_uint 2 2 l2 ltac:(done) B2)) as E3.
  set (l3 := pair_sums l2) in *.
  destruct (sum_pair_sums n l3 ltac:(lia)) as [S4 L4]. pose proof (pair_sums_bound n l3 4 ltac:(lia) B3) as B4.
  assert (B3' : Forall (fun d => 0 <= d <= 2 ^ (4 - 1) - 1) l3).
  { eapply Forall_impl; [|exact B3]. cbn. intros. change (2 ^ (4 - 1)) with 8. lia. }
  pose proof (add_stage 4 n l3 ltac:(lia) ltac:(lia) B3') as E4. set (l4 := pair_sums l3) in *.
  exists l4. split_and!; [done|done|congruence|]. cbv zeta. rewrite Ex in E2. rewrite E2.
  rewrite (wrap_small _ (dval 2 l2)).
  2:{ pose proof (dval_range 2 l2 ltac:(lia) (bound_uint 2 2 l2 ltac:(done) B2)) as R. rewrite L2 in R.
      by replace (Z.of_nat (8 * n)) with (2 * Z.of_nat (4 * n)) by lia. }
  rewrite E3. change (2 * 2) with 4. rewrite (wrap_small _ (dval 4 l3)).
  2:{ pose proof (dval_range 4 l3 ltac:(lia) (bound_uint 4 4 l3 ltac:(done) B3)) as R. rewrite L3 in R.
      by replace (Z.of_nat (8 * n)) with (4 * Z.of_nat (2 * n)) by lia. }
  rewrite land_wrap_mask; [exact E4|lia|].
  assert (Forall (is_uint 8) (replicate n (2 ^ 4 - 1))) as FR
    by (apply Forall_replicate; by vm_compute).
  pose proof (dval_range 8 _ ltac:(lia) FR) as R. rewrite length_replicate in R.
  unfold alt_mask. change (2 * 4) with 8. by replace (Z.of_nat (8 * n)) with (8 * Z.of_nat n) by lia.
Qed.

(** The multiplication that adds the bytes up. *)
Lemma top_byte w k P low high S :
  0 <= k <= w -> P = low + 2 ^ k * S + 2 ^ w * high -> 0 <= low < 2 ^ k -> 0 <= S < 2 ^ (w - k) ->
  wrap w P .>> k = S.
Proof.
  intros Hk -> Hl HS. unfold wrap. rewrite (Z.mul_comm (2 ^ w)), Z.mod_add by (apply Z.pow_nonzero; lia).
  rewrite Z.mod_small.
  - apply shiftr_add_small; [lia|done].
  - replace w with (k + (w - k)) by lia. rewrite Z.pow_add_r by lia. nia.
Qed.

Ltac norm_pow :=
  repeat match goal with
  | |- context [2 ^ ?a] => let c := eval vm_compute in (2 ^ a) in change (2 ^ a) with c
  end.

Lemma byte_sum32 l :
  length l = 4%nat -> Forall (fun d => 0 <= d <= 8) l -> u32 (dval 8 l * 0x01010101) .>> 24 = sum l.
Proof.
  intros Hl HF.
  destruct l as [|d0 [|d1 [|d2 [|d3 [|]]]]]; try discriminate Hl. rewrite !Forall_cons_iff in HF.
  cbn [dval sum fold_right]. destruct HF as (? & ? & ? & ? & _). apply (top_byte 32 24 _
    (2 ^ 0 * (d0) + 2 ^ 8 * (d0 + d1) + 2 ^ 16 * (d0 + d1 + d2))
    (2 ^ 0 * (d1 + d2 + d3) + 2 ^ 8 * (d2 + d3) + 2 ^ 16 * (d3)) (d0 + (d1 + (d2 + (d3 + 0)))));
    norm_pow; lia.
Qed.
Lemma byte_sum64 l :
  length l = 8%nat -> Forall (fun d => 0 <= d <= 8) l -> u64 (dval 8 l * 0x0101010101010101) .>> 56 = sum l.
Proof.
  intros Hl HF.
  destruct l as [|d0 [|d1 [|d2 [|d3 [|d4 [|d5 [|d6 [|d7 [|]]]]]]]]]; try discriminate Hl. rewrite !Forall_cons_iff in HF.
  cbn [dval sum fold_right]. destruct HF as (? & ? & ? & ? & ? & ? & ? & ? & _). apply (top_byte 64 56 _
    (2 ^ 0 * (d0) + 2 ^ 8 * (d0 + d1) + 2 ^ 16 * (d0 + d1 + d2) + 2 ^ 24 * (d0 + d1 + d2 + d3) + 2 ^ 32 * (d0 + d1 + d2 + d3 + d4) + 2 ^ 40 * (d0 + d1 + d2 + d3 + d4 + d5) + 2 ^ 48 * (d0 + d1 + d2 + d3 + d4 + d5 + d6))
    (2 ^ 0 * (d1 + d2 + d3 + d4 + d5 + d6 + d7) + 2 ^ 8 * (d2 + d3 + d4 + d5 + d6 + d7) + 2 ^ 16 * (d3 + d4 + d5 + d6 + d7) + 2 ^ 24 * (d4 + d5 + d6 + d7) + 2 ^ 32 * (d5 + d6 + d7) + 2 ^ 40 * (d6 + d7) + 2 ^ 48 * (d7)) (d0 + (d1 + (d2 + (d3 + (d4 + (d5 + (d6 + (d7 + 0)))))))));
    norm_pow; lia.
Qed.

Lemma count1Bits_spec x : is_uint 32 x -> count1Bits x = popcount 32 x.
Proof.
  intros Hx. destruct (popcount_stages 32 4 x eq_refl Hx) as (l & Hl & HF & <- & E).
  rewrite <-(byte_sum32 l Hl HF), <-E. reflexivity.
Qed.
Lemma CountOnes_spec x : is_uint 32 x -> CountOnes x = popcount 32 x.
Proof.
  intros Hx. rewrite <-count1Bits_spec by done. unfold CountOnes, count1Bits. cbv zeta.
  by rewrite (Z.add_comm ((_ .>> 2) .& _)).
Qed.
Lemma CountOnes64_spec x : is_uint 64 x -> CountOnes64 x = popcount 64 x.
Proof.
  intros Hx. destruct (popcount_stages 64 8 x eq_refl Hx) as (l & Hl & HF & <- & E).
  rewrite <-(byte_sum64 l Hl HF), <-E. unfold CountOnes64. cbv zeta.
  by rewrite (Z.add_comm ((_ .>> 2) .& _)).
Qed.

Lemma FloorLog2_lor n : 0 < n -> Z.log2 (n .| 1) = Z.log2 n.
Proof. intros. rewrite Z.log2_lor by lia. change (Z.log2 1) with 0. pose proof (Z.log2_nonneg n). lia. Qed.

Lemma CeilingLog2_pred n : 1 < n -> Z.log2_up n = Z.log2 (n - 1) + 1.
Proof.
  intros. unfold Z.log2_up. rewrite (proj2 (Z.compare_lt_iff 1 n)) by lia.
  replace (Z.pred n) with (n - 1) by lia. lia.
Qed.

Lemma Fast_logs w n :
  0 < w <= 64 -> 0 < n -> is_uint w n ->
  (clz ← builtin_clz w (n .| 1); Some (u8 (w - 1 - clz))) = Some (Z.log2 n) /\
  (if n <=? 1 then Some 0 else clz ← builtin_clz w (n - 1); Some (u8 (w - clz))) = Some (Z.log2_up n).
Proof.
  intros Hw Hn Hu. pose proof (log2_bounds w n Hn Hu) as Hl. split.
  - unfold builtin_clz. pose proof (FloorLog2_lor n Hn) as E.
    rewrite (proj2 (Z.eqb_neq (n .| 1) 0)).
    2:{ intros E0. rewrite Z.lor_eq_0_iff in E0. lia. }
    cbn [mbind option_bind]. rewrite E. f_equal.
    replace (w - 1 - (w - 1 - Z.log2 n)) with (Z.log2 n) by lia.
    apply wrap_small. unfold is_uint. change (2 ^ 8) with 256. lia.
  - destruct (Z.leb_spec n 1) as [H1|H1]; [by assert (n = 1) as -> by lia|].
    unfold builtin_clz. rewrite (proj2 (Z.eqb_neq (n - 1) 0)) by lia. cbn [mbind option_bind].
    rewrite CeilingLog2_pred by done. f_equal.
    pose proof (log2_bounds w (n - 1) ltac:(lia) ltac:(unfold is_uint in *; lia)) as Hl'.
    replace (w - (w - 1 - Z.log2 (n - 1))) with (Z.log2 (n - 1) + 1) by lia.
    apply wrap_small. unfold is_uint. change (2 ^ 8) with 256. lia.
Qed.

(** [p] is the least power of two at or above [n]. *)
Definition least_pow2 (n p : Z) : Prop :=
  (exists k, 0 <= k /\ p = 2 ^ k) /\ n <= p /\ forall k, 0 <= k -> n <= 2 ^ k -> p <= 2 ^ k.

Lemma least_pow2_log2_up n : 0 < n -> least_pow2 n (2 ^ Z.log2_up n).
Proof.
  intros Hn. pose proof (Z.log2_up_nonneg n). split; [by exists (Z.log2_up n)|]. split.
  - destruct (Z.eq_dec n 1) as [->|]; [done|]. apply Z.log2_up_spec. lia.
  - intros k Hk Hle. apply Z.pow_le_mono_r; [lia|]. rewrite <-(Z.log2_up_pow2 k Hk). by apply Z.log2_up_le_mono.
Qed.

Lemma IsPowerOfTwo_spec w x :
  is_uint w x -> IsPowerOfTwo w x = true <-> exists k, 0 <= k /\ x = 2 ^ k.
Proof.
  intros Hu. unfold IsPowerOfTwo. rewrite andb_true_iff, negb_true_iff, Z.eqb_neq, Z.eqb_eq. split.
  - intros [H0 E]. rewrite wrap_small in E by (unfold is_uint in *; lia).
    exists (Z.log2 x). split; [apply Z.log2_nonneg|]. apply land_pred_pow2; [destruct Hu; lia|done].
  - intros (k & Hk & ->). assert (0 < 2 ^ k) by (by apply Z.pow_pos_nonneg). split; [lia|].
    rewrite wrap_small by (unfold is_uint in *; lia). apply land_pred_pow2; [done|]. by rewrite Z.log2_pow2.
Qed.

(** ** Properties *)

(** (logarithms).  On every positive word the builtin and the portable
    versions of the floor logarithm, and the "fast" ones, return the floor of the
    base-2 logarithm, and the ceiling versions its ceiling; the floor of 0 is -1. *)
Theorem log2_functions (n : Z) (Hn : 0 < n) :
  (is_uint 32 n -> Log2Floor n = Some (Z.log2 n) /\ Log2Floor_portable n = Some (Z.log2 n) /\
     Fast32FloorLog2 n = Some (Z.log2 n) /\ Log2Ceiling n = Some (Z.log2_up n) /\
     Fast32CeilingLog2 n = Some (Z.log2_up n)) /\
  (is_uint 64 n -> Log2Floor64 n = Some (Z.log2 n) /\ Log2Floor64_portable n = Some (Z.log2 n) /\
     Fast64FloorLog2 n = Some (Z.log2 n) /\ Log2Ceiling64 n = Some (Z.log2_up n) /\
     Fast64CeilingLog2 n = Some (Z.log2_up n)) /\
  Log2Floor 0 = Some (-1) /\ Log2Floor64 0 = Some (-1).
Proof.
  split; [|split; [|done]]; intros Hu.
  - destruct (Fast_logs 32 n ltac:(lia) Hn Hu) as [Ef Ec]. split_and!; [|
      by apply Log2Floor_portable_spec|exact Ef|by apply Log2Ceiling_spec|exact Ec]. by apply Log2Floor_spec.
  - destruct (Fast_logs 64 n ltac:(lia) Hn Hu) as [Ef Ec]. split_and!; [|
      by apply Log2Floor64_portable_spec|exact Ef|by apply Log2Ceiling64_spec|exact Ec]. by apply Log2Floor64_spec.
Qed.

(** (the next power of two).  For 2 up to [2^31] the five routines that
    round up to a power of two return the least one at or above their argument,
    the loop of [RoundupPower2] within 65 tests; and the two tests recognise
    exactly the powers of two, [is_pow_of_2] taking 0 for one. *)
Theorem next_power_of_two (v : Z) (Hv : 2 <= v <= 2 ^ 31) :
  (exists p, least_pow2 v p /\ NextPowerOfTwo v = Some p /\ NextPowerOfTwo64 v = Some p /\
     next_pow_of_2 v = p /\ NextPowerOf2uint64_t v = Some p /\ RoundupPower2 65 v = Some p) /\
  (IsPowerOfTwo 32 v = true <-> exists k, 0 <= k /\ v = 2 ^ k) /\
  is_pow_of_2 v = IsPowerOfTwo 32 v /\ is_pow_of_2 0 = true.
Proof.
  assert (Hu : is_uint 32 v) by (unfold is_uint; change (2 ^ 31) with 2147483648 in *; change (2 ^ 32) with 4294967296; lia).
  split; [|split; [by apply IsPowerOfTwo_spec|split; [|done]]].
  - exists (2 ^ Z.log2_up v). pose proof (log2_up_le 31 v ltac:(lia) ltac:(lia)). split_and!.
    + apply least_pow2_log2_up. lia.
    + apply NextPowerOfTwo_spec. lia.
    + apply NextPowerOfTwo64_spec. lia.
    + rewrite next_pow_of_2_spec, (proj2 (Z.leb_le _ _)) by (done || lia). done.
    + apply NextPowerOf2uint64_t_spec. change (2 ^ 31) with 2147483648 in *.
      change (2 ^ 63) with 9223372036854775808. lia.
    + unfold RoundupPower2. rewrite (proj2 (Z.eqb_neq _ _)) by lia.
      apply (RoundupPower2_loop_spec 65 v 0); [lia| |lia|lia|lia]. apply Z.pow_le_mono_r; lia.
  - unfold is_pow_of_2, IsPowerOfTwo. by rewrite (proj2 (Z.eqb_neq v 0)) by lia.
Qed.

(** (wide arguments).  [NextPowerOfTwo64] calls the 32-bit [Log2Ceiling]: its
    result depends on the low 32 bits only, so it returns 1 for [2^40 + 1];
    and [RoundupPower2] never ends on a size above [2^63]. *)
Theorem next_power_of_two_wide :
  (forall v, NextPowerOfTwo64 v = NextPowerOfTwo64 (u32 v)) /\
  NextPowerOfTwo64 (2 ^ 40 + 1) = Some 1 /\ NextPowerOfTwo64 (2 ^ 40) = None /\
  (forall size fuel, 2 ^ 63 < size -> RoundupPower2 fuel size = None).
Proof.
  split_and!; [apply NextPowerOfTwo64_truncates|by vm_compute|by vm_compute|].
  intros size fuel Hs. unfold RoundupPower2. change (2 ^ 63) with 9223372036854775808 in Hs.
  rewrite (proj2 (Z.eqb_neq _ _)) by lia. apply RoundupPower2_loop_diverges; [done|]. right. by exists 0.
Qed.

(** (bit reversal).  The swap networks put bit [i] of an 8-, 32- or 64-bit
    word at the mirrored position, and the 64-bit version built from the 32-bit one
    computes the same word. *)
Theorem reverse_bits (n : Z) :
  (is_uint 8 n -> forall i, (i < 8)%nat ->
     Z.testbit (ReverseBits8 n) (Z.of_nat i) = Z.testbit n (Z.of_nat (7 - i))) /\
  (is_uint 32 n -> forall i, (i < 32)%nat ->
     Z.testbit (ReverseBits32 n) (Z.of_nat i) = Z.testbit n (Z.of_nat (31 - i))) /\
  (is_uint 64 n -> forall i, (i < 64)%nat ->
     Z.testbit (ReverseBits64 n) (Z.of_nat i) = Z.testbit n (Z.of_nat (63 - i)) /\
     Z.testbit (ReverseBits64_portable n) (Z.of_nat i) = Z.testbit n (Z.of_nat (63 - i))).
Proof.
  split_and!; intros Hu i Hi.
  - pose proof (ReverseBits8_byte (to_byte n)) as F. rewrite uchar_to_byte, (wrap_small 8 n) in F by done.
    rewrite forallb_forall in F. apply Bool.eqb_prop, (F i), in_seq. lia.
  - apply (reverse_ext ReverseBits32 32); [apply ReverseBits32_lor|done|vm_compute; reflexivity|done|done].
  - split.
    + apply (reverse_ext ReverseBits64 64); [apply ReverseBits64_lor|done|vm_compute; reflexivity|done|done].
    + apply (reverse_ext ReverseBits64_portable 64);
        [apply ReverseBits64_portable_lor|done|vm_compute; reflexivity|done|done].
Qed.

(** (population counts).  The sideways additions, the nibble table and the
    byte table all return the number of bits set. *)
Theorem population_counts (n : Z) :
  (is_uint 8 n -> Count1Bits_u8 n = popcount 8 n /\ CountOnesInByte n = popcount 8 n) /\
  (is_uint 32 n -> count1Bits n = popcount 32 n /\ CountOnes n = popcount 32 n) /\
  (is_uint 64 n -> CountOnes64 n = popcount 64 n).
Proof.
  split_and!; intros Hu.
  - rewrite <-(wrap_small 8 n Hu), <-uchar_to_byte. generalize (to_byte n). intros b.
    split; by_byte b.
  - split; [by apply count1Bits_spec|by apply CountOnes_spec].
  - by apply CountOnes64_spec.
Qed.

(** (rounding).  Where the sum does not overflow, the mask, division and
    remainder formulas agree on the least multiple at or above the argument,
    and on the greatest one at or below it. *)
Theorem rounding (i k y : Z) (Hk : 0 <= k < 64) (Hi : 0 <= i) (Hy : 0 < y)
  (Hb : i + 2 ^ k <= 2 ^ 64) (Ho : i + y <= 2 ^ 64) :
  (exists m, Roundup i y = Some (y * m) /\ UpperUint i y = Some (y * m) /\ y * m - y < i <= y * m) /\
  (exists m, Rounddown i y = Some (y * m) /\ LowerUint i y = Some (y * m) /\ y * m <= i < y * m + y) /\
  Some (RoundupPow2Base i (2 ^ k)) = Roundup i (2 ^ k) /\
  RoundupPtr i (2 ^ k) = RoundupPow2Base i (2 ^ k) /\
  Some (RounddownPtr i (2 ^ k)) = Rounddown i (2 ^ k).
Proof.
  assert (0 < 2 ^ k) by (apply Z.pow_pos_nonneg; lia).
  assert (D : forall f, 0 < f -> 0 <= f * (i / f) <= i /\ i < f * (i / f) + f).
  { intros f Hf. pose proof (Z.div_mod i f ltac:(lia)). pose proof (Z.mod_pos_bound i f Hf).
    pose proof (Z.div_pos i f Hi Hf). nia. }
  assert (U : forall f, 0 < f -> i + f <= 2 ^ 64 -> u64 (u64 (i + f - 1) / f * f) = (i + f - 1) / f * f /\
     f * ((i + f - 1) / f) - f < i <= f * ((i + f - 1) / f)).
  { intros f Hf Hs. rewrite (wrap_small 64 (i + f - 1)) by (unfold is_uint; lia).
    pose proof (Z.div_mod (i + f - 1) f ltac:(lia)). pose proof (Z.mod_pos_bound (i + f - 1) f Hf).
    split; [|lia]. apply wrap_small. unfold is_uint. pose proof (Z.div_pos (i + f - 1) f ltac:(lia) Hf). nia. }
  split; [|split; [|split_and!]].
  - destruct (U y Hy Ho) as [E B]. exists ((i + y - 1) / y). unfold Roundup, UpperUint.
    rewrite (proj2 (Z.eqb_neq y 0)) by lia. rewrite E, (Z.mul_comm y). split; [done|]. split; [|lia].
    rewrite round_up_div by done. destruct (i mod y =? 0) eqn:Em; [done|]. f_equal. apply wrap_small.
    pose proof (round_up_div i y Hy Hi) as R. rewrite Em in R. pose proof (Z.mod_pos_bound i y Hy). unfold is_uint.
    to_prop. lia.
  - exists (i / y). pose proof (D y Hy). unfold Rounddown, LowerUint. rewrite (proj2 (Z.eqb_neq y 0)) by lia.
    rewrite (Z.mul_comm y). rewrite wrap_small by (unfold is_uint; lia). split; [done|]. split; [|lia].
    pose proof (Z.div_mod i y ltac:(lia)). destruct (Z.eqb_spec (i mod y) 0); f_equal; lia.
  - unfold Roundup, RoundupPow2Base. rewrite (proj2 (Z.eqb_neq (2 ^ k) 0)) by lia.
    destruct (U (2 ^ k) ltac:(done) Hb) as [E _]. rewrite E, land_lnot_pow2 by (lia || by apply wrap_range).
    rewrite (wrap_small 64) by (unfold is_uint; lia). by rewrite Z.mul_comm.
  - done.
  - unfold RounddownPtr, Rounddown. rewrite (proj2 (Z.eqb_neq (2 ^ k) 0)) by lia.
    pose proof (D (2 ^ k) ltac:(done)). rewrite land_lnot_pow2 by (lia || unfold is_uint; lia).
    rewrite Z.mul_comm, wrap_small by (unfold is_uint; lia). done.
Qed.

(** (greatest common divisor).  Euclid's subtractions end with the greatest
    common divisor of two positive numbers in at most [aA + aB] rounds; a zero
    argument fails the assertion. *)
Theorem euclid_gcd (aA aB : Z) (fuel : nat) (Hf : (Z.to_nat (aA + aB) < fuel)%nat) :
  EuclidGCD fuel aA aB = if (0 <? aA) && (0 <? aB) then Some (Z.gcd aA aB) else None.
Proof.
  unfold EuclidGCD. rewrite !Z.gtb_ltb.
  destruct (Z.ltb_spec 0 aA), (Z.ltb_spec 0 aB); cbn [andb]; try done. by apply EuclidGCD_loop_spec.
Qed.

(** ** Witnesses *)

Lemma log2_functions_witness : Log2Floor 1000 = Some 9 /\ Log2Ceiling64 1000 = Some 10.
Proof.
  destruct (log2_functions 1000 ltac:(lia)) as (H32 & H64 & _).
  destruct (H32 ltac:(split; by vm_compute)) as (E & _), (H64 ltac:(split; by vm_compute)) as (_ & _ & _ & E' & _).
  split; [exact E|exact E'].
Defined.

Lemma next_power_of_two_witness :
  exists p, least_pow2 1000 p /\ NextPowerOfTwo 1000 = Some p /\ next_pow_of_2 1000 = p.
Proof.
  destruct (next_power_of_two 1000 ltac:(by vm_compute)) as ((p & Hp & E & _ & E' & _) & _). by exists p.
Defined.

Lemma next_power_of_two_wide_witness : RoundupPower2 1000 (2 ^ 63 + 1) = None.
Proof. by apply next_power_of_two_wide. Defined.

Lemma reverse_bits_witness : Z.testbit (ReverseBits32 0x80000001) 4 = Z.testbit 0x80000001 27.
Proof. apply (reverse_bits 0x80000001) with (i := 4%nat); [split; by vm_compute|lia]. Defined.

Lemma population_counts_witness : CountOnes 0xf0f1 = popcount 32 0xf0f1.
Proof. apply (population_counts 0xf0f1). split; by vm_compute. Defined.

Lemma rounding_witness : exists m, Roundup 100 24 = Some (24 * m) /\ 24 * m - 24 < 100 <= 24 * m.
Proof.
  destruct (rounding 100 6 24 ltac:(lia) ltac:(lia) ltac:(lia) ltac:(by vm_compute) ltac:(by vm_compute))
    as ((m & E & _ & B) & _). by exists m.
Defined.

Lemma euclid_gcd_witness : EuclidGCD 100 48 18 = Some 6.
Proof. rewrite (euclid_gcd 48 18 100) by lia. reflexivity. Defined.
