(* ===== verification/CacheMem.v ===== *)
(** * CacheMem: the memory of [src/util/cache.cpp]

    The heap-allocated [LRUHandle]s, the mutable fields of one shard, and the
    small state monad in which the cache is written.  Memory is kept field by
    field, a finite map from addresses per member: reading a member that was
    never written, or any member of a freed handle, fails, and so does writing to
    an address that is not allocated.  [None] is undefined behaviour, a failed
    assertion or an exhausted loop bound. *)

From S2P Require Import Prelude.
From stdpp Require Export gmap fin_maps.
#[global] Open Scope Z_scope.
#[global] Open Scope mycc_scope.

Abbreviation loc := N.
Definition nullptr : loc := 0%N.

(** The members of a handle that are written once, by [Insert].  [key_data]
    stands for [key_data] and [key_length]. *)
Record LRUHandle := {
  value : Z;
  deleter : Z;
  charge : Z;
  key_data : bytes;
  hash : Z
}.

Record HandleTable := {
  length_ : Z;
  elems_ : Z;
  list_ : list loc
}.

(** [lru_] and [in_use_] are the addresses of the two list heads. *)
Record LRUCache := {
  capacity_ : Z;
  usage_ : Z;
  lru_ : loc;
  in_use_ : loc;
  table_ : HandleTable
}.

(** [calls] is the sequence of deleter calls, the latest last. *)
Record heap := {
  alloc : gset loc;
  next : gmap loc loc;
  prev : gmap loc loc;
  next_hash : gmap loc loc;
  in_cache : gmap loc bool;
  refs : gmap loc Z;
  handle : gmap loc LRUHandle;
  calls : list (Z * (bytes * Z))
}.

Definition state : Type := heap * LRUCache.

(** ** The monad *)

Definition M (A : Type) : Type := state -> option (A * state).

#[export] Instance M_ret : MRet M := fun _ a s => Some (a, s).
#[export] Instance M_bind : MBind M := fun _ _ k m s => '(a, s') ← m s; k a s'.

Definition fail {A} : M A := fun _ => None.
Definition get : M LRUCache := fun s => Some (snd s, s).
Definition assert_ (b : bool) : M unit := if b then mret tt else fail.
Definition load {A} (f : heap -> gmap loc A) (l : loc) : M A :=
  fun s => v ← f (fst s) !! l; Some (v, s).
Definition get_calls : M (list (Z * (bytes * Z))) := fun s => Some (calls (fst s), s).
(** More iterations than there are cells: enough for every walk. *)
Definition loop_bound : M nat := fun s => Some (S (size (alloc (fst s))), s).

Definition write (l : loc) (upd : heap -> heap) : M unit :=
  fun s => if decide (l ∈ alloc (fst s)) then Some (tt, (upd (fst s), snd s)) else None.
Definition modify (upd : LRUCache -> LRUCache) : M unit := fun s => Some (tt, (fst s, upd (snd s))).

Definition with_next (f : gmap loc loc -> gmap loc loc) (h : heap) : heap :=
  {| alloc := alloc h; next := f (next h); prev := prev h; next_hash := next_hash h;
     in_cache := in_cache h; refs := refs h; handle := handle h; calls := calls h |}.
Definition with_prev (f : gmap loc loc -> gmap loc loc) (h : heap) : heap :=
  {| alloc := alloc h; next := next h; prev := f (prev h); next_hash := next_hash h;
     in_cache := in_cache h; refs := refs h; handle := handle h; calls := calls h |}.
Definition with_next_hash (f : gmap loc loc -> gmap loc loc) (h : heap) : heap :=
  {| alloc := alloc h; next := next h; prev := prev h; next_hash := f (next_hash h);
     in_cache := in_cache h; refs := refs h; handle := handle h; calls := calls h |}.
Definition with_in_cache (f : gmap loc bool -> gmap loc bool) (h : heap) : heap :=
  {| alloc := alloc h; next := next h; prev := prev h; next_hash := next_hash h;
     in_cache := f (in_cache h); refs := refs h; handle := handle h; calls := calls h |}.
Definition with_refs (f : gmap loc Z -> gmap loc Z) (h : heap) : heap :=
  {| alloc := alloc h; next := next h; prev := prev h; next_hash := next_hash h;
     in_cache := in_cache h; refs := f (refs h); handle := handle h; calls := calls h |}.
Definition with_handle (f : gmap loc LRUHandle -> gmap loc LRUHandle) (h : heap) : heap :=
  {| alloc := alloc h; next := next h; prev := prev h; next_hash := next_hash h;
     in_cache := in_cache h; refs := refs h; handle := f (handle h); calls := calls h |}.

Definition set_next (l v : loc) : M unit := write l (with_next (<[l := v]>)).
Definition set_prev (l v : loc) : M unit := write l (with_prev (<[l := v]>)).
Definition set_next_hash (l v : loc) : M unit := write l (with_next_hash (<[l := v]>)).
Definition set_in_cache (l : loc) (b : bool) : M unit := write l (with_in_cache (<[l := b]>)).
Definition set_refs (l : loc) (n : Z) : M unit := write l (with_refs (<[l := n]>)).
Definition set_handle (l : loc) (e : LRUHandle) : M unit := write l (with_handle (<[l := e]>)).

Definition set_usage (n : Z) : M unit := modify (fun c =>
  {| capacity_ := capacity_ c; usage_ := n; lru_ := lru_ c; in_use_ := in_use_ c; table_ := table_ c |}).
Definition set_capacity (n : Z) : M unit := modify (fun c =>
  {| capacity_ := n; usage_ := usage_ c; lru_ := lru_ c; in_use_ := in_use_ c; table_ := table_ c |}).
Definition set_table (t : HandleTable) : M unit := modify (fun c =>
  {| capacity_ := capacity_ c; usage_ := usage_ c; lru_ := lru_ c; in_use_ := in_use_ c; table_ := t |}).

(** [malloc] returns an address not in use; its cells are uninitialised. *)
Definition malloc : M loc := fun s =>
  let l := fresh (alloc (fst s)) in
  Some (l, ({| alloc := {[l]} ∪ alloc (fst s); next := next (fst s); prev := prev (fst s);
               next_hash := next_hash (fst s); in_cache := in_cache (fst s); refs := refs (fst s);
               handle := handle (fst s); calls := calls (fst s) |}, snd s)).

Definition free (l : loc) : M unit := write l (fun h =>
  {| alloc := alloc h ∖ {[l]}; next := delete l (next h); prev := delete l (prev h);
     next_hash := delete l (next_hash h); in_cache := delete l (in_cache h);
     refs := delete l (refs h); handle := delete l (handle h); calls := calls h |}).

Definition call_deleter (d : Z) (k : bytes) (v : Z) : M unit := fun s =>
  Some (tt, ({| alloc := alloc (fst s); next := next (fst s); prev := prev (fst s);
                next_hash := next_hash (fst s); in_cache := in_cache (fst s); refs := refs (fst s);
                handle := handle (fst s); calls := calls (fst s) ++ [(d, (k, v))] |}, snd s)).

(** [LRUHandle::key]. *)
Definition key (e : loc) : M bytes :=
  n ← load next e;
  assert_ (negb (n =? e)%N) ;;
  hd ← load handle e;
  mret (key_data hd).

(** ** The two lists *)

Definition LRU_Remove (e : loc) : M unit :=
  n ← load next e; p ← load prev e; set_prev n p ;;
  p ← load prev e; n ← load next e; set_next p n.

Definition LRU_Append (list e : loc) : M unit :=
  set_next e list ;;
  p ← load prev list; set_prev e p ;;
  p ← load prev e; set_next p e ;;
  n ← load next e; set_prev n e.

(** ** Total correctness *)

(** [m] ends in a state and with a result satisfying [Q]. *)
Definition wp {A} (m : M A) (Q : A -> state -> Prop) (s : state) : Prop :=
  match m s with Some (a, s') => Q a s' | None => False end.

Lemma wp_elim {A} (m : M A) Q s : wp m Q s -> exists a s', m s = Some (a, s') /\ Q a s'.
Proof. unfold wp. destruct (m s) as [[a s']|]; [|done]. by exists a, s'. Qed.
Lemma wp_intro {A} (m : M A) (Q : A -> state -> Prop) s a s' : m s = Some (a, s') -> Q a s' -> wp m Q s.
Proof. unfold wp. by intros ->. Qed.
Lemma wp_ret {A} (a : A) Q s : Q a s -> wp (mret a) Q s.
Proof. done. Qed.
Lemma wp_bind {A B} (m : M A) (k : A -> M B) Q s :
  wp m (fun a s' => wp (k a) Q s') s -> wp (m ≫= k) Q s.
Proof.
  unfold wp, mbind, M_bind, mbind, option_bind. destruct (m s) as [[a s']|]; done.
Qed.
Lemma wp_mono {A} (m : M A) (Q Q' : A -> state -> Prop) s :
  (forall a s', Q a s' -> Q' a s') -> wp m Q s -> wp m Q' s.
Proof. unfold wp. destruct (m s) as [[a s']|]; auto. Qed.
Lemma wp_get Q s : Q (snd s) s -> wp get Q s.
Proof. done. Qed.
Lemma wp_assert b Q s : b = true -> Q tt s -> wp (assert_ b) Q s.
Proof. by intros ->. Qed.
Lemma wp_load {A} (f : heap -> gmap loc A) l v Q s :
  f (fst s) !! l = Some v -> Q v s -> wp (load f l) Q s.
Proof. unfold wp, load. by intros ->. Qed.
Lemma wp_write l upd Q h c : l ∈ alloc h -> Q tt (upd h, c) -> wp (write l upd) Q (h, c).
Proof. intros Hl HQ. unfold wp, write. cbn [fst snd]. by rewrite decide_True. Qed.
Lemma wp_modify upd Q h c : Q tt (h, upd c) -> wp (modify upd) Q (h, c).
Proof. done. Qed.
Lemma wp_loop_bound Q s : Q (S (size (alloc (fst s)))) s -> wp loop_bound Q s.
Proof. done. Qed.

(** ** Chains and rings *)

(** [f] leads from each element of the list to the next one. *)
Fixpoint chain (f : gmap loc loc) (l : list loc) : Prop :=
  match l with
  | a :: ((b :: _) as t) => f !! a = Some b /\ chain f t
  | _ => True
  end.

Lemma chain_app f l1 a l2 : chain f (l1 ++ a :: l2) <-> chain f (l1 ++ [a]) /\ chain f (a :: l2).
Proof.
  induction l1 as [|x l1 IH]; [cbn; tauto|].
  destruct l1 as [|y l1]; [cbn; tauto|]. cbn in IH |- *. tauto.
Qed.
Lemma chain_ext f g l z : (forall y, y ∈ l -> g !! y = f !! y) -> chain f (l ++ [z]) -> chain g (l ++ [z]).
Proof.
  induction l as [|x l IH]; intros E H; [done|].
  destruct l as [|y l].
  - cbn in *. destruct H as [H _]. split; [|done]. rewrite E; [done|set_solver].
  - cbn in *. destruct H as [H1 H2]. split; [rewrite E; [done|set_solver]|].
    apply IH; [|done]. intros y' Hy'. apply E. set_solver.
Qed.
Lemma chain_insert f l z a b : a ∉ l -> chain f (l ++ [z]) -> chain (<[a := b]> f) (l ++ [z]).
Proof. intros Ha. apply chain_ext. intros y Hy. apply lookup_insert_ne. congruence. Qed.

(** Cutting out the middle of a chain. *)
Lemma chain_cut f A a m T b z :
  a ∉ A -> a ∉ T -> chain f (A ++ a :: m ++ T ++ [z]) -> head (T ++ [z]) = Some b ->
  chain (<[a := b]> f) (A ++ a :: T ++ [z]).
Proof.
  intros HA HT H Hb. apply chain_app in H as [H1 H2]. apply chain_app. split; [by apply chain_insert|].
  destruct T as [|t T]; injection Hb as ->; [cbn; by simplify_map_eq|].
  rewrite app_comm_cons in H2. apply chain_app in H2 as [_ H2].
  split; [by simplify_map_eq|]. by apply (chain_insert f (b :: T)).
Qed.

(** A circular list through the head [x]: [next] runs through the elements and
    back, [prev] the other way. *)
Definition ring (nx pv : gmap loc loc) (x : loc) (xs : list loc) : Prop :=
  chain nx (x :: xs ++ [x]) /\ chain pv (x :: reverse xs ++ [x]).

Lemma ring_remove nx pv x l1 e l2 :
  NoDup (x :: l1 ++ e :: l2) -> ring nx pv x (l1 ++ e :: l2) ->
  exists p n : loc, nx !! e = Some n /\ pv !! e = Some p /\ n <> e /\ p <> e /\
       p ∈ x :: l1 ++ l2 /\ n ∈ x :: l1 ++ l2 /\ ring (<[p := n]> nx) (<[n := p]> pv) x (l1 ++ l2).
Proof.
  intros HN [Hn Hp].
  destruct (exists_last (l := x :: l1) ltac:(done)) as (A & p & HA).
  destruct (l2 ++ [x]) as [|n N] eqn:HT; [by destruct l2|].
  assert (HxA : reverse l1 ++ [x] = p :: reverse A)
    by (rewrite <-reverse_cons, HA, reverse_app; done).
  assert (HxN : x :: reverse l2 = reverse N ++ [n])
    by (rewrite <-reverse_cons, <-HT, reverse_app; done).
  assert (Hpin : p ∈ x :: l1) by (rewrite HA; set_solver).
  assert (Hnin : n ∈ l2 ++ [x]) by (rewrite HT; set_solver).
  assert (HNA : NoDup (A ++ [p])) by (rewrite <-HA; apply NoDup_cons; apply NoDup_cons in HN as [? HN];
    apply NoDup_app in HN; set_solver).
  assert (HNN : NoDup (n :: N)).
  { rewrite <-HT, (Permutation_app_comm l2). apply NoDup_cons. apply NoDup_cons in HN as [? HN].
    apply NoDup_app in HN as (? & ? & HN). apply NoDup_cons in HN. set_solver. }
  apply NoDup_app in HNA as (_ & HNA & _). apply NoDup_cons in HNN as [HNN _].
  apply NoDup_cons in HN as [Hx HN]. apply NoDup_app in HN as (HN1 & Hdis & HN2).
  apply NoDup_cons in HN2 as [He HN2].
  rewrite <-app_assoc in Hn. cbn [app] in Hn. rewrite HT, app_comm_cons, HA, <-app_assoc in Hn. cbn [app] in Hn.
  rewrite reverse_app, reverse_cons, <-!app_assoc in Hp. cbn [app] in Hp.
  rewrite HxA, app_comm_cons, HxN, <-app_assoc in Hp. cbn [app] in Hp.
  assert (Hne : n <> e) by set_solver.
  assert (Hpe : p <> e) by set_solver.
  exists p, n. split; [by apply chain_app in Hn as [_ [_ [? _]]]|].
  split; [by apply chain_app in Hp as [_ [_ [? _]]]|].
  do 2 (split; [done|]). do 2 (split; [set_solver|]). split.
  - rewrite <-app_assoc, app_comm_cons, HA, <-app_assoc. apply (chain_cut nx A p [e]); [set_solver|set_solver| |by rewrite HT].
    cbn. by rewrite HT.
  - rewrite reverse_app, <-app_assoc, app_comm_cons, HxN, <-app_assoc. cbn [app].
    apply (chain_cut pv (reverse N) n [e]); [set_solver| |cbn; by rewrite HxA|by rewrite HxA].
    set_solver.
Qed.

Lemma ring_other nx pv y ys p n a b :
  p ∉ y :: ys -> n ∉ y :: ys -> ring nx pv y ys -> ring (<[p := a]> nx) (<[n := b]> pv) y ys.
Proof.
  intros Hp Hn [H1 H2]. split; [by apply (chain_insert _ (y :: ys))|].
  apply (chain_insert _ (y :: reverse ys)); [|done]. set_solver.
Qed.

Lemma ring_last nx pv x xs : ring nx pv x xs -> exists p : loc, pv !! x = Some p /\ last (x :: xs) = Some p.
Proof.
  intros [_ H]. destruct xs as [|y xs _] using rev_ind; [by exists x; cbn in *; naive_solver|].
  exists y. rewrite reverse_app in H. cbn in H. rewrite last_cons, last_app. cbn. naive_solver.
Qed.
Lemma ring_head nx pv x xs : ring nx pv x xs -> nx !! x = head (xs ++ [x]).
Proof. intros [H _]. destruct xs; cbn in *; naive_solver. Qed.

Lemma ring_append nx pv x xs e p :
  NoDup (x :: xs) -> e ∉ x :: xs -> ring nx pv x xs -> last (x :: xs) = Some p ->
  ring (<[p := e]> (<[e := x]> nx)) (<[x := e]> (<[e := p]> pv)) x (xs ++ [e]).
Proof.
  intros HN He [Hn Hp] Hl. apply last_Some in Hl as [A HA]. split.
  - rewrite <-app_assoc, app_comm_cons, HA, <-!app_assoc. cbn [app].
    rewrite app_comm_cons, HA, <-!app_assoc in Hn. cbn [app] in Hn. rewrite HA in HN, He.
    apply NoDup_app in HN as (_ & HN & _). apply chain_app in Hn as [Hn _]. apply chain_app. split.
    + apply chain_insert; [set_solver|]. apply chain_insert; [set_solver|done].
    + assert (p <> e) by set_solver. cbn. by simplify_map_eq.
  - apply NoDup_cons in HN as [Hx HN]. rewrite reverse_app. cbn [app reverse].
    assert (HxA : reverse xs ++ [x] = p :: reverse A) by (rewrite <-reverse_cons, HA, reverse_app; done).
    change (chain (<[x:=e]> (<[e:=p]> pv)) ([x] ++ e :: (reverse xs ++ [x]))). apply chain_app.
    split; [cbn; by simplify_map_eq|].
    change (chain pv ([x] ++ (reverse xs ++ [x]))) in Hp.
    apply (chain_insert _ (e :: reverse xs)); [set_solver|].
    change (chain (<[e:=p]> pv) ([e] ++ (reverse xs ++ [x]))). rewrite HxA in Hp |- *.
    split; [by simplify_map_eq|]. rewrite <-HxA.
    apply chain_insert; [set_solver|]. rewrite HxA.
    by apply (chain_app _ [x] p) in Hp as [_ Hp].
Qed.
