(* ===== verification/HandleTable.v ===== *)
(** * HandleTable: the hash table of [src/util/cache.cpp]

    [HandleTable]: an array of buckets, each a list of handles linked through
    [next_hash].  The theorem relates it to a finite map. *)

From S2P Require Import Prelude Stringpiece CacheMem.
#[local] Open Scope Z_scope.

(** An [LRUHandle **]: the address of an array element or of a [next_hash]
    member. *)
Inductive slot := Bucket (i : Z) | NextHash (l : loc).

Definition get_table : M HandleTable := c ← get; mret (table_ c).

Definition read_slot (p : slot) : M loc :=
  match p with
  | Bucket i =>
      t ← get_table;
      match list_ t !! Z.to_nat i with Some l => mret l | None => fail end
  | NextHash l => load next_hash l
  end.
Definition write_slot (p : slot) (v : loc) : M unit :=
  match p with
  | Bucket i =>
      t ← get_table;
      assert_ (bool_decide (is_Some (list_ t !! Z.to_nat i))) ;;
      set_table {| length_ := length_ t; elems_ := elems_ t; list_ := <[Z.to_nat i := v]> (list_ t) |}
  | NextHash l => set_next_hash l v
  end.
Definition set_elems (n : Z) : M unit :=
  t ← get_table; set_table {| length_ := length_ t; elems_ := n; list_ := list_ t |}.

Fixpoint FindPointer_loop (fuel : nat) (key0 : bytes) (hash0 : Z) (ptr : slot) : M slot :=
  match fuel with
  | O => fail
  | S fuel =>
      p ← read_slot ptr;
      if (p =? nullptr)%N then mret ptr
      else
        hd ← load handle p;
        if negb (hash hd =? hash0) then FindPointer_loop fuel key0 hash0 (NextHash p)
        else
          k ← key p;
          if negb (piece_eq key0 k) then FindPointer_loop fuel key0 hash0 (NextHash p)
          else mret ptr
  end.
Definition FindPointer (key0 : bytes) (hash0 : Z) : M slot :=
  t ← get_table;
  fuel ← loop_bound;
  FindPointer_loop fuel key0 hash0 (Bucket (hash0 .& u32 (length_ t - 1))).

(** [while (new_length < elems_) new_length *= 2]; the bound covers every length
    that does not overflow. *)
Fixpoint Resize_length (fuel : nat) (elems new_length : Z) : option Z :=
  match fuel with
  | O => None
  | S fuel =>
      if new_length <? elems then Resize_length fuel elems (u32 (new_length * 2)) else Some new_length
  end.

(** The inner loop, over one bucket; the state is [new_list] and [count]. *)
Fixpoint Resize_bucket (fuel : nat) (new_length : Z) (h : loc) (new_list : list loc) (count : Z)
  : M (list loc * Z) :=
  match fuel with
  | O => fail
  | S fuel =>
      if (h =? nullptr)%N then mret (new_list, count)
      else
        next ← load next_hash h;
        hd ← load handle h;
        let i := Z.to_nat (hash hd .& u32 (new_length - 1)) in
        match new_list !! i with
        | None => fail
        | Some p =>
            set_next_hash h p ;;
            Resize_bucket fuel new_length next (<[i := h]> new_list) (u32 (count + 1))
        end
  end.
(** The outer loop, over the indices [is] of the old array. *)
Fixpoint Resize_buckets (indices : list nat) (new_length : Z) (new_list : list loc) (count : Z)
  : M (list loc * Z) :=
  match indices with
  | [] => mret (new_list, count)
  | i :: indices =>
      h ← read_slot (Bucket (Z.of_nat i));
      fuel ← loop_bound;
      '(new_list, count) ← Resize_bucket fuel new_length h new_list count;
      Resize_buckets indices new_length new_list count
  end.
Definition Resize : M unit :=
  t ← get_table;
  match Resize_length 32 (elems_ t) 4 with
  | None => fail
  | Some new_length =>
      '(new_list, count) ← Resize_buckets (seq 0 (Z.to_nat (length_ t))) new_length
                             (replicate (Z.to_nat new_length) nullptr) 0;
      assert_ (elems_ t =? count) ;;
      set_table {| length_ := new_length; elems_ := elems_ t; list_ := new_list |}
  end.

Definition HandleTable_new : M unit :=
  set_table {| length_ := 0; elems_ := 0; list_ := [] |} ;; Resize.

Definition HandleTable_Lookup (key0 : bytes) (hash0 : Z) : M loc :=
  ptr ← FindPointer key0 hash0; read_slot ptr.

Definition HandleTable_Insert (h : loc) : M loc :=
  k ← key h;
  hd ← load handle h;
  ptr ← FindPointer k (hash hd);
  old ← read_slot ptr;
  n ← (if (old =? nullptr)%N then mret nullptr else load next_hash old);
  set_next_hash h n ;;
  write_slot ptr h ;;
  (if (old =? nullptr)%N then
     t ← get_table;
     set_elems (u32 (elems_ t + 1)) ;;
     t ← get_table;
     if elems_ t >? length_ t then Resize else mret tt
   else mret tt) ;;
  mret old.

Definition HandleTable_Remove (key0 : bytes) (hash0 : Z) : M loc :=
  ptr ← FindPointer key0 hash0;
  result ← read_slot ptr;
  (if negb (result =? nullptr)%N then
     n ← load next_hash result;
     write_slot ptr n ;;
     t ← get_table;
     set_elems (u32 (elems_ t - 1))
   else mret tt) ;;
  mret result.

(** ** Chains of the table *)

(** [xs] is the list of handles reached from [p] through [next_hash]. *)
Fixpoint bucket (nh : gmap loc loc) (p : loc) (xs : list loc) : Prop :=
  match xs with
  | [] => p = nullptr
  | x :: xs => p = x /\ x <> nullptr /\ exists q : loc, nh !! x = Some q /\ bucket nh q xs
  end.

Lemma bucket_head nh p xs : bucket nh p xs -> p = default nullptr (head xs).
Proof. destruct xs; [done|by intros [-> _]]. Qed.
Lemma bucket_nonnull nh p x xs : bucket nh p (x :: xs) -> (x =? nullptr)%N = false.
Proof. intros (_ & ? & _). by apply N.eqb_neq. Qed.
Lemma bucket_ext nh nh' p xs : (forall x, x ∈ xs -> nh' !! x = nh !! x) -> bucket nh p xs -> bucket nh' p xs.
Proof.
  revert p. induction xs as [|x xs IH]; intros p E; [done|]. intros (-> & ? & q & Hq & Hb).
  split; [done|]. split; [done|]. exists q. split; [rewrite E; [done|set_solver]|].
  apply IH; [|done]. intros. apply E. set_solver.
Qed.
Lemma bucket_insert nh p xs a b : a ∉ xs -> bucket nh p xs -> bucket (<[a := b]> nh) p xs.
Proof. intros Ha. apply bucket_ext. intros x Hx. apply lookup_insert_ne. congruence. Qed.

Lemma bucket_middle nh p pre y suf :
  bucket nh p (pre ++ y :: suf) -> exists q : loc, nh !! y = Some q /\ bucket nh q suf.
Proof.
  revert p. induction pre as [|x pre IH]; intros p; cbn [app bucket].
  - intros (_ & _ & q & ?). by exists q.
  - intros (_ & _ & q & _ & Hb). by apply (IH q).
Qed.
Lemma bucket_suffix nh p pre suf :
  bucket nh p (pre ++ suf) -> exists q, bucket nh q suf.
Proof.
  revert p. induction pre as [|x pre IH]; intros p; [by exists p|]. intros (_ & _ & q & _ & Hb). by apply (IH q).
Qed.

(** Redirecting the last link of a prefix. *)
Lemma bucket_redirect nh p pre y suf q suf' :
  bucket nh p (pre ++ y :: suf) -> bucket nh q suf' -> y ∉ pre -> y ∉ suf' ->
  bucket (<[y := q]> nh) p (pre ++ y :: suf').
Proof.
  intros Hb Hq. revert p Hb. induction pre as [|x pre IH]; intros p Hb H1 H2; cbn [app bucket] in *.
  - destruct Hb as (-> & ? & _). split; [done|]. split; [done|]. exists q. split; [by simplify_map_eq|].
    by apply bucket_insert.
  - destruct Hb as (-> & ? & r & Hr & Hb). split; [done|]. split; [done|]. exists r.
    split; [rewrite lookup_insert_ne; [done|set_solver]|]. apply IH; set_solver.
Qed.

(** ** Lists of buckets *)

Lemma concat_insert {A} (bs : list (list A)) i b b' :
  bs !! i = Some b ->
  exists rest, concat bs ≡ₚ b ++ rest /\ concat (<[i := b']> bs) ≡ₚ b' ++ rest.
Proof.
  intros Hi. exists (concat (take i bs) ++ concat (drop (S i) bs)).
  assert (E : bs = take i bs ++ b :: drop (S i) bs) by (by rewrite take_drop_middle).
  assert (i < length bs)%nat by (by eapply lookup_lt_Some). split.
  - rewrite E at 1. rewrite concat_app. cbn [concat]. solve_Permutation.
  - rewrite insert_take_drop by done. rewrite concat_app. cbn [concat]. solve_Permutation.
Qed.
Lemma concat_lookup_disjoint {A} (bs : list (list A)) i j b c :
  NoDup (concat bs) -> bs !! i = Some b -> bs !! j = Some c -> i <> j -> b ## c.
Proof.
  intros HN Hi Hj Hij x Hb Hc.
  destruct (concat_insert bs i b b Hi) as (rest & E1 & _).
  rewrite E1 in HN. apply NoDup_app in HN as (_ & HN & _). apply (HN x Hb).
  destruct (concat_insert bs i b [] Hi) as (rest' & E1' & E2'). cbn [app] in E2'.
  assert (x ∈ rest') as Hx.
  { rewrite <-E2'. apply list_elem_of_In, in_concat. exists c. split; [|by apply list_elem_of_In].
    apply list_elem_of_In, (list_elem_of_lookup_2 _ j). by rewrite list_lookup_insert_ne. }
  assert (E : rest ≡ₚ rest') by (eapply (Permutation_app_inv_l b); by rewrite <-E1).
  by rewrite E.
Qed.
Lemma concat_lookup_elem {A} (bs : list (list A)) i b x : bs !! i = Some b -> x ∈ b -> x ∈ concat bs.
Proof.
  intros Hi Hx. destruct (concat_insert bs i b b Hi) as (rest & -> & _). set_solver.
Qed.
Lemma elem_concat_lookup {A} (bs : list (list A)) x :
  x ∈ concat bs -> exists i b, bs !! i = Some b /\ x ∈ b.
Proof.
  rewrite list_elem_of_In, in_concat. intros (b & Hb & Hx).
  apply list_elem_of_In, list_elem_of_lookup in Hb as [i Hb]. exists i, b. by rewrite list_elem_of_In.
Qed.
Lemma NoDup_length_size (l : list loc) (X : gset loc) :
  NoDup l -> (forall x, x ∈ l -> x ∈ X) -> (length l <= size X)%nat.
Proof.
  intros HN Hl. rewrite <-(size_list_to_set (C := gset loc) l) by done. apply subseteq_size. set_solver.
Qed.

(** The heads [ls] and chains through [nh] hold the disjoint lists [bs]. *)
Definition chains (nh : gmap loc loc) (ls : list loc) (bs : list (list loc)) : Prop :=
  Forall2 (bucket nh) ls bs /\ NoDup (concat bs).

Lemma chains_lookup nh ls bs i b :
  chains nh ls bs -> bs !! i = Some b -> exists p, ls !! i = Some p /\ bucket nh p b.
Proof. intros [H _] Hi. by eapply Forall2_lookup_r in H. Qed.

Lemma chains_ext nh nh' ls bs :
  (forall x, x ∈ concat bs -> nh' !! x = nh !! x) -> chains nh ls bs -> chains nh' ls bs.
Proof.
  intros E [H HN]. split; [|done]. apply Forall2_same_length_lookup_2; [by eapply Forall2_length|].
  intros i p b Hp Hb. assert (bucket nh p b) as Hbk by (by eapply Forall2_lookup_lr).
  eapply bucket_ext; [|exact Hbk]. intros x Hx. apply E. by eapply concat_lookup_elem.
Qed.
(** ** Slots *)

(** The slot after the prefix [pre] of bucket [i]. *)
Definition slot_at (i : nat) (pre : list loc) : slot :=
  match last pre with None => Bucket (Z.of_nat i) | Some y => NextHash y end.

(** The state [s] with other [next_hash] members and another table. *)
Definition tstate (s : state) (nh : gmap loc loc) (t : HandleTable) : state :=
  (with_next_hash (fun _ => nh) (fst s),
   {| capacity_ := capacity_ (snd s); usage_ := usage_ (snd s); lru_ := lru_ (snd s);
      in_use_ := in_use_ (snd s); table_ := t |}).

Lemma tstate_id s : s = tstate s (next_hash (fst s)) (table_ (snd s)).
Proof. by destruct s as [[] []]. Qed.
Lemma tstate_tstate s nh t nh' t' : tstate (tstate s nh t) nh' t' = tstate s nh' t'.
Proof. done. Qed.

Lemma wp_get_table Q s nh t : Q t (tstate s nh t) -> wp get_table Q (tstate s nh t).
Proof. done. Qed.
Lemma wp_set_table Q s nh t t' : Q tt (tstate s nh t') -> wp (set_table t') Q (tstate s nh t).
Proof. done. Qed.
Lemma wp_set_next_hash Q s nh t l v :
  l ∈ alloc (fst s) -> Q tt (tstate s (<[l := v]> nh) t) -> wp (set_next_hash l v) Q (tstate s nh t).
Proof. intros. by apply wp_write. Qed.

Lemma wp_read_slot Q s nh t bs i pre suf :
  chains nh (list_ t) bs -> bs !! i = Some (pre ++ suf) ->
  Q (default nullptr (head suf)) (tstate s nh t) -> wp (read_slot (slot_at i pre)) Q (tstate s nh t).
Proof.
  intros Hc Hi HQ. destruct (chains_lookup _ _ _ _ _ Hc Hi) as (p & Hp & Hb).
  destruct pre as [|y pre _] using rev_ind.
  - unfold slot_at, read_slot. cbn [last]. apply wp_bind, wp_get_table. rewrite Nat2Z.id, Hp.
    cbn [app] in Hb. rewrite (bucket_head _ _ _ Hb). by apply wp_ret.
  - unfold slot_at, read_slot. rewrite last_snoc. rewrite <-app_assoc in Hb. cbn [app] in Hb.
    apply bucket_middle in Hb as (q & Hq & Hb). apply wp_load with q; [done|].
    by rewrite (bucket_head _ _ _ Hb).
Qed.

(** Writing to a slot replaces the rest of its bucket. *)
Lemma wp_write_slot Q s nh t bs i pre suf q suf' :
  chains nh (list_ t) bs -> bs !! i = Some (pre ++ suf) ->
  (forall x, x ∈ pre -> x ∈ alloc (fst s)) ->
  bucket nh q suf' -> (forall x, x ∈ suf' -> x ∈ suf \/ x ∉ concat bs) -> NoDup suf' ->
  (forall nh' t',
     length_ t' = length_ t -> elems_ t' = elems_ t -> length (list_ t') = length (list_ t) ->
     (forall x, x ∉ concat bs -> nh' !! x = nh !! x) ->
     chains nh' (list_ t') (<[i := pre ++ suf']> bs) -> Q tt (tstate s nh' t')) ->
  wp (write_slot (slot_at i pre) q) Q (tstate s nh t).
Proof.
  intros Hc Hi Hal Hq Hin HN' HQ. destruct (chains_lookup _ _ _ _ _ Hc Hi) as (p & Hp & Hb).
  pose proof Hc as [HF HN].
  assert (Hpin : forall x, x ∈ pre -> x ∈ concat bs)
    by (intros; eapply concat_lookup_elem; [done|set_solver]).
  assert (HNb : NoDup (pre ++ suf)).
  { destruct (concat_insert bs i _ [] Hi) as (rest & E & _). rewrite E in HN. apply NoDup_app in HN. tauto. }
  apply NoDup_app in HNb as (HNp & Hdis & _).
  assert (Hdis' : forall x, x ∈ pre -> x ∉ suf') by (intros x Hx Hx'; destruct (Hin x Hx') as [?|Hn]; [set_solver|auto]).
  assert (HNc : NoDup (concat (<[i := pre ++ suf']> bs))).
  { destruct (concat_insert bs i _ (pre ++ suf') Hi) as (rest & E & ->).
    assert (Ein : forall x, x ∈ concat bs <-> x ∈ pre ++ suf \/ x ∈ rest) by (intros; rewrite E; set_solver).
    rewrite E in HN. apply NoDup_app in HN as (_ & HN1 & HN2). apply NoDup_app. split; [by apply NoDup_app|]. split; [|done].
    intros x [Hx|Hx]%elem_of_app; [by apply HN1; set_solver|].
    destruct (Hin x Hx) as [?|Hn]; [apply HN1; set_solver|]. rewrite Ein in Hn. tauto. }
  destruct pre as [|y pre _] using rev_ind.
  - unfold slot_at, write_slot. cbn [last app] in *. apply wp_bind, wp_get_table. rewrite Nat2Z.id.
    apply wp_bind, wp_assert; [by apply bool_decide_eq_true_2; eexists|].
    apply wp_set_table, HQ; [done..|by cbn; rewrite length_insert|done|]. split; [|done]. cbn [list_].
    by apply Forall2_insert.
  - unfold slot_at, write_slot. rewrite last_snoc. apply wp_set_next_hash; [apply Hal; set_solver|].
    assert (y ∉ pre) by (apply NoDup_app in HNp; set_solver).
    apply HQ; [done..|intros x Hx; rewrite lookup_insert_ne; [done|]; intros ->; apply Hx, Hpin; set_solver|].
    split; [|done]. apply Forall2_same_length_lookup_2; [rewrite length_insert; by eapply Forall2_length|].
    intros j p' b Hp' Hb'. destruct (decide (i = j)) as [<-|Hij].
    + rewrite list_lookup_insert_eq in Hb' by (by eapply lookup_lt_Some). simplify_eq.
      rewrite <-app_assoc in Hb |- *. cbn [app] in *. eapply bucket_redirect; [exact Hb|done|done|].
      apply Hdis'. set_solver.
    + rewrite list_lookup_insert_ne in Hb' by done.
      apply bucket_insert; [|by eapply Forall2_lookup_lr].
      pose proof (concat_lookup_disjoint bs i j _ _ HN Hi Hb' Hij). set_solver.
Qed.
(** ** The table as a finite map *)

Definition hkey (e : LRUHandle) : bytes * Z := (key_data e, hash e).

(** [l] is a live handle with the key [kh], on which [key()] may be called. *)
Definition readable (h : heap) (l : loc) (kh : bytes * Z) : Prop :=
  exists e (n : loc), handle h !! l = Some e /\ hkey e = kh /\ is_uint 32 (hash e) /\
    next h !! l = Some n /\ n <> l /\ l ∈ alloc h.
Definition keyed (h : heap) (d : gmap (bytes * Z) loc) : Prop :=
  forall kh l, d !! kh = Some l -> readable h l kh.

(** The bucket of a hash value. *)
Definition index (n hash0 : Z) : nat := Z.to_nat (hash0 .& u32 (n - 1)).

(** The buckets [bs] of the table hold exactly the values of [d], each in the
    bucket of its key. *)
Record buckets_ok (nh : gmap loc loc) (t : HandleTable) (bs : list (list loc)) (d : gmap (bytes * Z) loc) : Prop := {
  b_chains : chains nh (list_ t) bs;
  b_size : exists k, 2 <= k <= 31 /\ length_ t = 2 ^ k;
  b_len : length bs = Z.to_nat (length_ t);
  b_elem : forall i b l, bs !! i = Some b -> l ∈ b ->
             exists kh, d !! kh = Some l /\ index (length_ t) (snd kh) = i;
  b_dom : forall kh l, d !! kh = Some l -> l ∈ concat bs
}.
Definition table_ok (nh : gmap loc loc) (t : HandleTable) (d : gmap (bytes * Z) loc) : Prop :=
  (exists bs, buckets_ok nh t bs d) /\ elems_ t = Z.of_nat (base.size d) /\ Z.of_nat (base.size d) <= 2 ^ 31.

Lemma index_lt k h : 2 <= k <= 31 -> is_uint 32 h -> (index (2 ^ k) h < Z.to_nat (2 ^ k))%nat.
Proof.
  intros Hk Hh. unfold index. assert (0 < 2 ^ k) by (apply Z.pow_pos_nonneg; lia).
  assert (2 ^ k <= 2 ^ 31) by (apply Z.pow_le_mono_r; lia).
  rewrite wrap_small by (unfold is_uint in *; lia). replace (2 ^ k - 1) with (Z.ones k) by (rewrite Z.ones_equiv; lia).
  rewrite Z.land_ones by lia. pose proof (Z.mod_pos_bound h (2 ^ k)). lia.
Qed.

Lemma keyed_inj h d kh kh' l : keyed h d -> d !! kh = Some l -> d !! kh' = Some l -> kh = kh'.
Proof. intros Hk (e & n & E & <- & _)%Hk (e' & n' & E' & <- & _)%Hk. congruence. Qed.

Lemma wp_key s l kh Q : readable (fst s) l kh -> Q (fst kh) s -> wp (key l) Q s.
Proof.
  intros (e & n & He & <- & _ & Hn & Hnl & _) HQ. unfold key.
  apply wp_bind, wp_load with n; [done|]. apply wp_bind, wp_assert; [by apply negb_true_iff, N.eqb_neq|].
  apply wp_bind, wp_load with e; [done|]. by apply wp_ret.
Qed.
Lemma wp_load_handle s l kh Q :
  readable (fst s) l kh -> (forall e, hkey e = kh -> is_uint 32 (hash e) -> Q e s) -> wp (load handle l) Q s.
Proof. intros (e & n & He & ? & ? & _) HQ. apply wp_load with e; [done|]. by apply HQ. Qed.

(** [FindPointer_loop] stops at the first handle with the given key. *)
Lemma wp_FindPointer_loop fuel k0 h0 i pre suf Q s nh t bs :
  chains nh (list_ t) bs -> bs !! i = Some (pre ++ suf) ->
  (forall l, l ∈ suf -> exists kh, readable (fst s) l kh) -> (length suf < fuel)%nat ->
  (forall pre' suf', suf = pre' ++ suf' ->
     (forall l, l ∈ pre' -> ~ readable (fst s) l (k0, h0)) ->
     (forall l, head suf' = Some l -> readable (fst s) l (k0, h0)) ->
     Q (slot_at i (pre ++ pre')) (tstate s nh t)) ->
  wp (FindPointer_loop fuel k0 h0 (slot_at i pre)) Q (tstate s nh t).
Proof.
  intros Hc. revert pre suf. induction fuel as [|fuel IH]; intros pre suf Hi Hr Hf HQ; [lia|].
  cbn [FindPointer_loop]. apply wp_bind. eapply wp_read_slot; [done..|].
  destruct suf as [|l suf]; cbn [head default from_option].
  { cbn. apply wp_ret. rewrite <-(app_nil_r pre). apply (HQ [] []); [done|set_solver|done]. }
  destruct (chains_lookup _ _ _ _ _ Hc Hi) as (p & Hp & Hb). apply bucket_suffix in Hb as [q Hb].
  assert (E : (l =? nullptr)%N = false) by (by destruct Hb as (-> & ? & _); apply N.eqb_neq). 
  cbn. rewrite E.
  destruct (Hr l ltac:(set_solver)) as [kh Hl].
  assert (Hnext : kh <> (k0, h0) -> wp (FindPointer_loop fuel k0 h0 (NextHash l)) Q (tstate s nh t)).
  { intros Hne. replace (NextHash l) with (slot_at i (pre ++ [l])) by (unfold slot_at; by rewrite last_snoc).
    apply (IH (pre ++ [l]) suf); [by rewrite <-app_assoc|set_solver|cbn in Hf; lia|].
    intros pre' suf' -> H1 H2. rewrite <-app_assoc. cbn [app]. apply (HQ (l :: pre') suf'); [done| |done].
    intros l' [->|?]%elem_of_cons; [|by apply H1]. intros (e & n & He & Hk & _). apply Hne.
    destruct Hl as (e' & n' & He' & <- & _). congruence. }
  apply wp_bind. apply wp_load_handle with kh; [done|]. intros e Hek _. destruct kh as [k1 h1].
  injection Hek as Hk1 Hh1. rewrite Hh1. destruct (Z.eqb_spec h1 h0) as [->|Hne]; cbn [negb].
  2:{ apply Hnext. congruence. }
  apply wp_bind, wp_key with (k1, h0); [done|]. cbn [fst].
  destruct (piece_eq k0 k1) eqn:Ek; cbn [negb].
  - apply piece_eq_spec in Ek as ->. apply wp_ret. rewrite <-(app_nil_r pre).
    apply (HQ [] (l :: suf)); [done|set_solver|]. by intros ? [= <-].
  - apply Hnext. intros [= ->]. by rewrite (proj2 (piece_eq_spec k0 k0) eq_refl) in Ek.
Qed.

Lemma buckets_elem nh t bs d i pre suf l (s : state) :
  buckets_ok nh t bs d -> keyed (fst s) d -> bs !! i = Some (pre ++ suf) -> l ∈ pre ++ suf ->
  exists kh, d !! kh = Some l /\ index (length_ t) (snd kh) = i /\ readable (fst s) l kh.
Proof.
  intros Hb Hk Hi Hl. destruct (b_elem _ _ _ _ Hb _ _ _ Hi Hl) as (kh & Hd & Hx). exists kh. auto.
Qed.

Lemma wp_FindPointer k0 h0 Q s nh t bs d :
  buckets_ok nh t bs d -> keyed (fst s) d -> is_uint 32 h0 ->
  (forall pre suf i, i = index (length_ t) h0 -> bs !! i = Some (pre ++ suf) -> head suf = d !! (k0, h0) ->
     Q (slot_at i pre) (tstate s nh t)) ->
  wp (FindPointer k0 h0) Q (tstate s nh t).
Proof.
  intros Hb Hk Hh HQ. unfold FindPointer. apply wp_bind, wp_get_table, wp_bind, wp_loop_bound.
  destruct (b_size _ _ _ _ Hb) as (k & Hkr & Hlen). pose proof (index_lt k h0 Hkr Hh) as Hi.
  pose proof (b_len _ _ _ _ Hb) as Hbl. rewrite <-Hlen, <-Hbl in Hi.
  apply lookup_lt_is_Some in Hi as [b Hi].
  assert (0 <= h0 .& u32 (length_ t - 1)).
  { apply Z.land_nonneg. destruct Hh. auto. }
  replace (Bucket _) with (slot_at (index (length_ t) h0) []) by
    (unfold slot_at, index; cbn [last]; by rewrite Z2Nat.id).
  assert (Hel : forall l, l ∈ b -> exists kh, d !! kh = Some l /\ index (length_ t) (snd kh) = index (length_ t) h0 /\
      readable (fst s) l kh) by (intros l; by apply (buckets_elem nh t bs d _ [] b l s)).
  apply wp_FindPointer_loop with (suf := b) (bs := bs); [apply Hb|done| | |].
  - intros l Hl. destruct (Hel l Hl) as (kh & _ & _ & ?). by exists kh.
  - destruct (concat_insert bs _ b b Hi) as (rest & E & _). destruct (b_chains _ _ _ _ Hb) as [_ HN].
    rewrite E in HN. apply NoDup_app in HN as (HN & _). apply Nat.lt_succ_r, NoDup_length_size; [done|].
    intros l Hl. destruct (Hel l Hl) as (kh & _ & _ & (? & ? & ? & ? & ? & ? & ? & ?)). done.
  - intros pre suf -> Hpre Hsuf. cbn [app]. apply (HQ pre suf); [done..|].
    destruct suf as [|l suf]; cbn [head].
    + destruct (d !! (k0, h0)) as [l|] eqn:Ed; [exfalso|done].
      destruct (elem_concat_lookup _ _ (b_dom _ _ _ _ Hb _ _ Ed)) as (j & c & Hj & Hl).
      destruct (b_elem _ _ _ _ Hb _ _ _ Hj Hl) as (kh & Hd & Hx). assert (kh = (k0, h0)) as -> by (by eapply keyed_inj).
      cbn [snd] in Hx. subst j. rewrite Hi in Hj. injection Hj as <-. rewrite app_nil_r in Hl.
      apply (Hpre l Hl). by apply Hk.
    + destruct (Hel l ltac:(set_solver)) as (kh & Hd & _ & Hr). rewrite <-Hd. f_equal.
      destruct Hr as (e & n & He & <- & _). destruct (Hsuf l eq_refl) as (e' & n' & He' & <- & _). congruence.
Qed.

Lemma wp_HandleTable_Lookup k0 h0 Q s nh t d :
  table_ok nh t d -> keyed (fst s) d -> is_uint 32 h0 ->
  Q (default nullptr (d !! (k0, h0))) (tstate s nh t) -> wp (HandleTable_Lookup k0 h0) Q (tstate s nh t).
Proof.
  intros ((bs & Hb) & _) Hk Hh HQ. unfold HandleTable_Lookup. eapply wp_bind, wp_FindPointer; [done..|].
  intros pre suf i -> Hi Hs. eapply wp_read_slot; [apply Hb|done|]. by rewrite Hs.
Qed.
(** ** Resizing *)

Lemma Resize_length_spec fuel elems k :
  2 <= k <= 31 -> elems <= 2 ^ 31 -> (Z.to_nat (31 - k) < fuel)%nat ->
  exists k', k <= k' <= 31 /\ Resize_length fuel elems (2 ^ k) = Some (2 ^ k').
Proof.
  revert k. induction fuel as [|fuel IH]; intros k Hk He Hf; [lia|]. cbn [Resize_length].
  destruct (Z.ltb_spec (2 ^ k) elems) as [Hlt|]; [|exists k; split; [lia|done]].
  assert (k <> 31) by (intros ->; lia).
  assert (2 ^ (k + 1) <= 2 ^ 31) by (apply Z.pow_le_mono_r; lia).
  assert (0 < 2 ^ (k + 1)) by (apply Z.pow_pos_nonneg; lia).
  replace (2 ^ k * 2) with (2 ^ (k + 1)) by (rewrite Z.pow_add_r by lia; lia).
  rewrite wrap_small by (unfold is_uint; lia).
  destruct (IH (k + 1)) as (k' & ? & E); [lia..|]. exists k'. split; [lia|done].
Qed.

(** The elements of the buckets are values of [d], in the bucket of their key. *)
Definition placed (n : Z) (d : gmap (bytes * Z) loc) (bs : list (list loc)) : Prop :=
  forall i b l, bs !! i = Some b -> l ∈ b -> exists kh, d !! kh = Some l /\ index n (snd kh) = i.

Section resize.
Context (d : gmap (bytes * Z) loc) (s : state) (t : HandleTable) (Hkey : keyed (fst s) d).
Context (k : Z) (Hk : 2 <= k <= 31).

Lemma wp_Resize_bucket fuel xs h nl nbs rest c Q nh :
  bucket nh h xs -> chains nh nl nbs -> length nbs = Z.to_nat (2 ^ k) ->
  NoDup (xs ++ concat nbs ++ rest) -> placed (2 ^ k) d nbs -> (forall x, x ∈ xs -> exists kh, d !! kh = Some x) ->
  (length xs < fuel)%nat ->
  (forall nh' nl' nbs', chains nh' nl' nbs' -> length nbs' = Z.to_nat (2 ^ k) ->
     concat nbs' ≡ₚ xs ++ concat nbs -> placed (2 ^ k) d nbs' -> (forall x, x ∈ rest \/ x ∉ xs -> nh' !! x = nh !! x) ->
     Q (nl', u32 (c + Z.of_nat (length xs))) (tstate s nh' t)) ->
  wp (Resize_bucket fuel (2 ^ k) h nl (u32 c)) Q (tstate s nh t).
Proof.
  revert xs h nl nbs c nh. induction fuel as [|fuel IH]; intros xs h nl nbs c nh Hb Hc Hlen HN Hpl Hd Hf HQ; [lia|].
  cbn [Resize_bucket]. destruct xs as [|x xs].
  { rewrite Hb. cbn. apply wp_ret. rewrite <-(Z.add_0_r c). by apply (HQ nh nl nbs). }
  destruct Hb as (-> & Hx0 & q & Hq & Hb). rewrite (proj2 (N.eqb_neq x nullptr)) by done.
  destruct (Hd x ltac:(set_solver)) as [kh Hxd]. pose proof (Hkey _ _ Hxd) as Hr.
  apply wp_bind, wp_load with q; [done|]. apply wp_bind, wp_load_handle with kh; [done|]. intros e He Hu.
  cbv zeta. subst kh. assert (Hi : (index (2 ^ k) (hash e) < length nbs)%nat) by (rewrite Hlen; by apply index_lt).
  change (Z.to_nat (hash e .& u32 (2 ^ k - 1))) with (index (2 ^ k) (hash e)).
  set (i := index (2 ^ k) (hash e)) in *. apply lookup_lt_is_Some in Hi as [b Hi].
  destruct (chains_lookup _ _ _ _ _ Hc Hi) as (p & Hp & Hbp). rewrite Hp.
  cbn [app] in HN. apply NoDup_cons in HN as [Hx HN].
  assert (Hxn : x ∉ concat nbs) by set_solver.
  apply wp_bind, wp_set_next_hash; [by destruct Hr as (? & ? & ? & ? & ? & ? & ? & ?)|].
  replace (wrap 32 (u32 c + 1)) with (u32 (c + 1)) by (unfold wrap; by rewrite Zplus_mod_idemp_l).
  destruct (concat_insert nbs i b (x :: b) Hi) as (others & E1 & E2).
  assert (HE : concat (<[i := x :: b]> nbs) ≡ₚ x :: concat nbs) by (rewrite E2, E1; done).
  apply (IH xs q _ (<[i := x :: b]> nbs) (c + 1)).
  - apply bucket_insert; [set_solver|done].
  - destruct Hc as [HF HNc]. split.
    + apply Forall2_insert; [|by split; [|split; [|exists p; split; [by simplify_map_eq|]; apply bucket_insert; [|done];
        intros ?; apply Hxn; by eapply concat_lookup_elem]]].
      eapply (chains_ext nh); [|by split]. intros y Hy. apply lookup_insert_ne. congruence.
    + rewrite HE. by apply NoDup_cons.
  - by rewrite length_insert.
  - rewrite HE. cbn [app]. rewrite <-Permutation_middle. apply NoDup_cons. set_solver.
  - intros j b' l Hj Hl. destruct (decide (i = j)) as [<-|Hij].
    + rewrite list_lookup_insert_eq in Hj by (by eapply lookup_lt_Some). injection Hj as <-.
      apply elem_of_cons in Hl as [->|Hl]; [by eexists|by eapply Hpl].
    + rewrite list_lookup_insert_ne in Hj by done. by eapply Hpl.
  - set_solver.
  - cbn in Hf. lia.
  - intros nh' nl' nbs' Hc' Hl' HE' Hpl' Hfr.
    replace (c + 1 + Z.of_nat (length xs)) with (c + Z.of_nat (length (x :: xs))) by (cbn [length]; lia).
    apply (HQ nh' nl' nbs'); [done|done| |done|].
    + rewrite HE', HE. by rewrite <-Permutation_middle.
    + intros y Hy. rewrite Hfr by set_solver. apply lookup_insert_ne. set_solver.
Qed.

Lemma wp_Resize_buckets i ps bs nl nbs c Q nh :
  ps = drop i (list_ t) -> Forall2 (bucket nh) ps bs -> chains nh nl nbs -> length nbs = Z.to_nat (2 ^ k) ->
  NoDup (concat bs ++ concat nbs) -> placed (2 ^ k) d nbs ->
  (forall x, x ∈ concat bs -> exists kh, d !! kh = Some x) ->
  (forall nh' nl' nbs', chains nh' nl' nbs' -> length nbs' = Z.to_nat (2 ^ k) ->
     concat nbs' ≡ₚ concat bs ++ concat nbs -> placed (2 ^ k) d nbs' ->
     (forall x, x ∉ concat bs -> nh' !! x = nh !! x) ->
     Q (nl', u32 (c + Z.of_nat (length (concat bs)))) (tstate s nh' t)) ->
  wp (Resize_buckets (seq i (length bs)) (2 ^ k) nl (u32 c)) Q (tstate s nh t).
Proof.
  revert i ps nl nbs c nh.
  induction bs as [|b bs IH]; intros i ps nl nbs c nh Hps HF Hc Hlen HN Hpl Hd HQ; cbn [length seq Resize_buckets].
  { apply wp_ret. rewrite <-(Z.add_0_r c). by apply (HQ nh nl nbs). }
  apply Forall2_cons_inv_r in HF as (p & ps' & Hb & HF & ->). cbn [concat] in HN, Hd, HQ.
  apply wp_bind. cbn [read_slot]. apply wp_bind, wp_get_table. rewrite Nat2Z.id.
  assert (Hp : list_ t !! i = Some p) by (rewrite <-(Nat.add_0_r i), <-lookup_drop, <-Hps; done).
  rewrite Hp. apply wp_ret, wp_bind, wp_loop_bound, wp_bind. rewrite <-app_assoc in HN.
  apply (wp_Resize_bucket _ b p nl nbs (concat bs)); [done..| |done| | |].
  - by rewrite (Permutation_app_comm (concat nbs)).
  - intros. apply Hd. set_solver.
  - apply Nat.lt_succ_r, NoDup_length_size; [apply NoDup_app in HN; tauto|].
    intros x Hx. destruct (Hd x ltac:(set_solver)) as [kh Hx']. by destruct (Hkey _ _ Hx') as (?&?&?&?&?&?&?&?).
  - intros nh' nl' nbs' Hc' Hl' HE Hpl' Hfr. cbn beta iota.
    apply (IH (S i) ps' nl' nbs' (c + Z.of_nat (length b)) nh'); try done.
    + by rewrite <-Nat.add_1_r, <-drop_drop, <-Hps.
    + apply Forall2_same_length_lookup_2; [by eapply Forall2_length|]. intros j p' b' Hp' Hb'.
      eapply bucket_ext; [|by eapply Forall2_lookup_lr]. intros x Hx. apply Hfr. left. by eapply concat_lookup_elem.
    + rewrite HE. rewrite (Permutation_app_comm b), app_assoc. rewrite (Permutation_app_comm _ b). done.
    + intros. apply Hd. set_solver.
    + intros nh'' nl'' nbs'' Hc'' Hl'' HE' Hpl'' Hfr'.
      replace (c + Z.of_nat (length b) + Z.of_nat (length (concat bs)))
        with (c + Z.of_nat (length (b ++ concat bs))) by (rewrite length_app; lia).
      apply (HQ nh'' nl'' nbs''); [done|done| |done|].
      * rewrite HE', HE. solve_Permutation.
      * intros x Hx. rewrite Hfr' by set_solver. apply Hfr. set_solver.
Qed.
End resize.

(** Distinct handles, one per key. *)
Lemma length_values (h : heap) (d : gmap (bytes * Z) loc) (l : list loc) :
  keyed h d -> NoDup l -> (forall x, x ∈ l <-> exists kh, d !! kh = Some x) -> length l = base.size d.
Proof.
  intros Hk HN Hl. rewrite <-(length_map_to_list d), <-(length_fmap snd). apply Permutation_length, NoDup_Permutation.
  - done.
  - apply NoDup_fmap_2_strong; [|apply NoDup_map_to_list].
    intros [kh x] [kh' x'] H1%elem_of_map_to_list H2%elem_of_map_to_list E. cbn in E. subst x'.
    f_equal. by eapply keyed_inj.
  - intros x. rewrite Hl, list_elem_of_fmap. split.
    + intros [kh Hx]. exists (kh, x). split; [done|by apply elem_of_map_to_list].
    + intros ([kh x'] & -> & Hx%elem_of_map_to_list). by exists kh.
Qed.

Lemma chains_replicate nh n : chains nh (replicate n nullptr) (replicate n []).
Proof.
  split; [by apply Forall2_replicate|]. assert (concat (replicate n ([] : list loc)) = []) as -> by (by induction n).
  constructor.
Qed.

(** [Resize] keeps the map, whatever the old number of buckets. *)
Lemma wp_Resize Q s nh t bs d :
  keyed (fst s) d -> chains nh (list_ t) bs -> length bs = Z.to_nat (length_ t) ->
  (forall x, x ∈ concat bs <-> exists kh, d !! kh = Some x) ->
  elems_ t = Z.of_nat (base.size d) -> Z.of_nat (base.size d) <= 2 ^ 31 ->
  (forall nh' t', table_ok nh' t' d -> (forall x, x ∉ concat bs -> nh' !! x = nh !! x) -> Q tt (tstate s nh' t')) ->
  wp Resize Q (tstate s nh t).
Proof.
  intros Hk Hc Hl Hd He Hs HQ. unfold Resize. apply wp_bind, wp_get_table.
  destruct (Resize_length_spec 32 (elems_ t) 2) as (k & Hkr & E); [lia..|]. change (2 ^ 2) with 4 in E. rewrite E.
  pose proof Hc as [HF HN]. apply wp_bind. rewrite <-Hl. change 0 with (u32 0).
  assert (HE : concat (replicate (Z.to_nat (2 ^ k)) ([] : list loc)) = []) by (by induction (Z.to_nat (2 ^ k))).
  apply (wp_Resize_buckets d s t Hk k ltac:(lia) 0 (list_ t) bs _ (replicate (Z.to_nat (2 ^ k)) [])).
  - done.
  - done.
  - apply chains_replicate.
  - apply length_replicate.
  - by rewrite HE, app_nil_r.
  - intros i b l Hi Hb. apply lookup_replicate in Hi as [-> _]. by apply not_elem_of_nil in Hb.
  - intros x. apply Hd.
  - intros nh' nl' nbs' Hc' Hl' HE' Hpl' Hfr. cbn beta iota. rewrite (length_values (fst s) d) by done.
    rewrite Z.add_0_l, wrap_small by (unfold is_uint; change (2 ^ 31) with 2147483648 in Hs; change (2 ^ 32) with 4294967296; lia).
    apply wp_bind, wp_assert; [by rewrite He, Z.eqb_refl|]. apply wp_set_table, HQ; [|done].
    split; [|done]. exists nbs'. split; cbn; [done|exists k; split; [lia|done]|done|done|].
    intros kh l Hkl. rewrite HE', HE, app_nil_r, Hd. by exists kh.
Qed.
(** ** Insertion and removal *)

Lemma buckets_elem_iff nh t bs d x :
  buckets_ok nh t bs d -> x ∈ concat bs <-> exists kh, d !! kh = Some x.
Proof.
  intros Hb. split.
  - intros (i & b & Hi & Hx)%elem_concat_lookup. destruct (b_elem _ _ _ _ Hb _ _ _ Hi Hx) as (kh & ? & _). by exists kh.
  - intros [kh Hx]. by eapply b_dom.
Qed.

Lemma wp_set_elems Q s nh t n :
  Q tt (tstate s nh {| length_ := length_ t; elems_ := n; list_ := list_ t |}) ->
  wp (set_elems n) Q (tstate s nh t).
Proof. intros. by apply wp_bind, wp_get_table, wp_set_table. Qed.

(** Replacing the tail of bucket [i], whose prefix [pre] and first element
    [o] (if any) [FindPointer] found. *)
Lemma buckets_replace nh t bs d nh' t' i pre suf suf' d' :
  buckets_ok nh t bs d -> bs !! i = Some (pre ++ suf) ->
  length_ t' = length_ t -> chains nh' (list_ t') (<[i := pre ++ suf']> bs) ->
  (forall x, x ∈ suf' -> exists kh, d' !! kh = Some x /\ index (length_ t) (snd kh) = i) ->
  (forall kh x, d !! kh = Some x -> x ∉ suf -> d' !! kh = Some x) ->
  (forall kh x, d' !! kh = Some x -> x ∈ suf' \/ d !! kh = Some x /\ x ∉ suf) ->
  NoDup (concat bs) ->
  buckets_ok nh' t' (<[i := pre ++ suf']> bs) d'.
Proof.
  intros Hb Hi Hlt Hc Hs1 Hs2 Hs3 HN. pose proof (concat_insert bs i _ (pre ++ suf') Hi) as (rest & E1 & E2).
  assert (Hdis : forall x, x ∈ pre ++ rest -> x ∉ suf).
  { rewrite E1 in HN. apply NoDup_app in HN as (HN & HN2 & _). apply NoDup_app in HN as (_ & HN & _).
    intros x [?|?]%elem_of_app; [by apply HN|]. intros ?. apply (HN2 x); set_solver. }
  split.
  - done.
  - rewrite Hlt. by eapply b_size.
  - rewrite length_insert, Hlt. by eapply b_len.
  - intros j b l Hj Hl. rewrite Hlt. destruct (decide (i = j)) as [<-|Hij].
    + rewrite list_lookup_insert_eq in Hj by (by eapply lookup_lt_Some). injection Hj as <-.
      apply elem_of_app in Hl as [Hl|Hl]; [|by apply Hs1].
      destruct (b_elem _ _ _ _ Hb i _ l Hi ltac:(set_solver)) as (kh & Hd & ?). exists kh. split; [|done].
      apply Hs2; [done|]. apply Hdis. set_solver.
    + rewrite list_lookup_insert_ne in Hj by done. destruct (b_elem _ _ _ _ Hb j _ l Hj Hl) as (kh & Hd & ?).
      exists kh. split; [|done]. apply Hs2; [done|].
      pose proof (concat_lookup_disjoint bs i j _ _ HN Hi Hj Hij). set_solver.
  - intros kh l Hl. rewrite E2. destruct (Hs3 kh l Hl) as [?|[Hd Hn]]; [set_solver|].
    pose proof (b_dom _ _ _ _ Hb _ _ Hd) as Hx. rewrite E1 in Hx. set_solver.
Qed.

(** What the position found by [FindPointer] gives. *)
Lemma buckets_found nh t bs d (s : state) i pre suf :
  buckets_ok nh t bs d -> keyed (fst s) d -> bs !! i = Some (pre ++ suf) ->
  (forall x, x ∈ pre -> x ∈ alloc (fst s)) /\ (forall x, x ∈ suf -> x ∈ concat bs) /\ NoDup suf /\
  exists p, bucket nh p suf.
Proof.
  intros Hb Hk Hi. pose proof (b_chains _ _ _ _ Hb) as Hc. split_and!.
  - intros x Hx.
    destruct (buckets_elem _ _ _ _ _ _ _ x s Hb Hk Hi ltac:(set_solver)) as (? & _ & _ & (?&?&?&?&?&?&?&?)). done.
  - intros. eapply concat_lookup_elem; [done|set_solver].
  - destruct Hc as [_ HN], (concat_insert bs i _ [] Hi) as (rest & E & _). rewrite E, <-app_assoc in HN.
    apply NoDup_app in HN as (_ & _ & HN). apply NoDup_app in HN. tauto.
  - destruct (chains_lookup _ _ _ _ _ Hc Hi) as (p & _ & Hbk). by apply bucket_suffix in Hbk.
Qed.

Lemma keyed_insert h d kh e : keyed h d -> readable h e kh -> keyed h (<[kh := e]> d).
Proof.
  intros Hk Hr kh' x Hx. destruct (decide (kh = kh')) as [<-|?].
  - rewrite lookup_insert_eq in Hx. by injection Hx as <-.
  - rewrite lookup_insert_ne in Hx by done. by apply Hk.
Qed.
Lemma keyed_delete h d kh : keyed h d -> keyed h (delete kh d).
Proof. intros Hk kh' x [_ Hx]%lookup_delete_Some. by apply Hk. Qed.

Section update.
Context (nh : gmap loc loc) (t : HandleTable) (bs : list (list loc)) (d : gmap (bytes * Z) loc) (s : state).
Context (Hb : buckets_ok nh t bs d) (Hk : keyed (fst s) d).
Context (kh : bytes * Z) (pre suf : list loc) (Hi : bs !! index (length_ t) (snd kh) = Some (pre ++ suf)).
Context (Hhd : head suf = d !! kh).

(** A new handle takes the place of the one with the same key, if any. *)
Lemma buckets_insert nh' t' e :
  (forall kh', d !! kh' <> Some e) -> length_ t' = length_ t ->
  chains nh' (list_ t') (<[index (length_ t) (snd kh) := pre ++ e :: tail suf]> bs) ->
  buckets_ok nh' t' (<[index (length_ t) (snd kh) := pre ++ e :: tail suf]> bs) (<[kh := e]> d).
Proof.
  intros Hfr Hlt Hc'. pose proof (b_chains _ _ _ _ Hb) as [_ HN].
  destruct (buckets_found _ _ _ _ _ _ _ _ Hb Hk Hi) as (_ & _ & HNs & _).
  eapply buckets_replace; [exact Hb|exact Hi|done|done| | | |done].
  - intros x [->|Hx]%elem_of_cons; [exists kh; by simplify_map_eq|].
    destruct suf as [|o post]; cbn [head tail] in *; [by apply not_elem_of_nil in Hx|].
    destruct (buckets_elem _ _ _ _ _ _ _ x s Hb Hk Hi ltac:(set_solver)) as (kh' & Hd & ? & _).
    exists kh'. split; [|done]. rewrite lookup_insert_ne; [done|]. intros <-.
    apply NoDup_cons in HNs as [Ho _]. congruence.
  - intros kh' x Hd Hx. rewrite lookup_insert_ne; [done|]. intros <-. apply Hx.
    destruct suf as [|o post]; cbn in Hhd; [congruence|]. assert (x = o) as -> by congruence. set_solver.
  - intros kh' x Hd. destruct (decide (kh = kh')) as [<-|Hne].
    { rewrite lookup_insert_eq in Hd. injection Hd as <-. left. set_solver. }
    rewrite lookup_insert_ne in Hd by done. destruct (decide (x ∈ tail suf)) as [?|Hx]; [left; set_solver|right].
    split; [done|]. destruct suf as [|o post]; [by apply not_elem_of_nil|]. cbn [head tail] in *.
    apply not_elem_of_cons. split; [|done]. intros ->. apply Hne. by eapply keyed_inj.
Qed.

Lemma buckets_delete nh' t' o post :
  suf = o :: post -> length_ t' = length_ t ->
  chains nh' (list_ t') (<[index (length_ t) (snd kh) := pre ++ post]> bs) ->
  buckets_ok nh' t' (<[index (length_ t) (snd kh) := pre ++ post]> bs) (delete kh d).
Proof.
  intros -> Hlt Hc'. pose proof (b_chains _ _ _ _ Hb) as [_ HN]. cbn in Hhd. symmetry in Hhd.
  destruct (buckets_found _ _ _ _ _ _ _ _ Hb Hk Hi) as (_ & _ & [Ho HNs]%NoDup_cons & _).
  eapply buckets_replace; [exact Hb|exact Hi|done|done| | | |done].
  - intros x Hx. destruct (buckets_elem _ _ _ _ _ _ _ x s Hb Hk Hi ltac:(set_solver)) as (kh' & Hd & ? & _).
    exists kh'. split; [|done]. rewrite lookup_delete_ne; [done|]. intros <-. congruence.
  - intros kh' x Hd Hx. rewrite lookup_delete_ne; [done|]. intros <-. set_solver.
  - intros kh' x [Hne Hd]%lookup_delete_Some. destruct (decide (x ∈ post)) as [?|Hx]; [by left|right].
    split; [done|]. apply not_elem_of_cons. split; [|done]. intros ->. apply Hne. by eapply keyed_inj.
Qed.
End update.

(** [old == nullptr ? nullptr : old->next_hash]. *)
Lemma wp_old_next suf p (s : state) nh t Q :
  bucket nh p suf -> (forall q, bucket nh q (tail suf) -> Q q (tstate s nh t)) ->
  wp (if (default nullptr (head suf) =? nullptr)%N then mret nullptr
      else load next_hash (default nullptr (head suf))) Q (tstate s nh t).
Proof.
  intros Hb HQ. destruct suf as [|o post]; cbn [head default from_option id tail] in *.
  - rewrite N.eqb_refl. by apply wp_ret, HQ.
  - destruct Hb as (-> & Ho & q & Hq & Hb). rewrite (proj2 (N.eqb_neq o nullptr)) by done.
    apply wp_load with q; [done|]. by apply HQ.
Qed.

(** [h->next_hash = n; *ptr = h], for a handle outside the table. *)
Lemma wp_link e n (s : state) nh t bs i pre suf Q :
  chains nh (list_ t) bs -> bs !! i = Some (pre ++ suf) -> (forall x, x ∈ pre -> x ∈ alloc (fst s)) ->
  e ∉ concat bs -> e <> nullptr -> e ∈ alloc (fst s) -> bucket nh n (tail suf) -> NoDup suf ->
  (forall nh' t', length_ t' = length_ t -> elems_ t' = elems_ t ->
     (forall x, x <> e -> x ∉ concat bs -> nh' !! x = nh !! x) ->
     chains nh' (list_ t') (<[i := pre ++ e :: tail suf]> bs) -> Q tt (tstate s nh' t')) ->
  wp (set_next_hash e n ;; write_slot (slot_at i pre) e) Q (tstate s nh t).
Proof.
  intros Hc Hi Hpre He H0 Hal Hbk HN HQ. apply wp_bind, wp_set_next_hash; [done|].
  assert (Hsuf : forall x, x ∈ tail suf -> x ∈ suf) by (destruct suf; cbn; set_solver).
  assert (He' : e ∉ tail suf) by (intros ?; apply He; eapply concat_lookup_elem; [done|set_solver]).
  apply wp_write_slot with (bs := bs) (suf := suf) (suf' := e :: tail suf); [|done|done| | | |].
  - eapply chains_ext; [|done]. intros x Hx. apply lookup_insert_ne. congruence.
  - split; [done|]. split; [done|]. exists n. split; [by simplify_map_eq|]. by apply bucket_insert.
  - intros x [->|Hx]%elem_of_cons; [by right|]. left. by apply Hsuf.
  - apply NoDup_cons. split; [done|]. destruct suf; [done|]. apply NoDup_cons in HN; tauto.
  - intros nh' t' Hlt Het _ Hfr Hc'. apply HQ; [done|done| |done].
    intros x Hxe Hx. rewrite Hfr by done. by apply lookup_insert_ne.
Qed.

Lemma bind_assoc_wp {A B C} (m : M A) (f : A -> M B) (g : B -> M C) Q s :
  wp ((m ≫= f) ≫= g) Q s -> wp (m ≫= fun a => f a ≫= g) Q s.
Proof.
  unfold wp, mbind, M_bind, mbind, option_bind. by destruct (m s) as [[a s']|].
Qed.

Lemma wp_HandleTable_Insert e kh Q s nh t d :
  table_ok nh t d -> keyed (fst s) d -> readable (fst s) e kh -> (forall kh', d !! kh' <> Some e) -> e <> nullptr ->
  Z.of_nat (base.size d) < 2 ^ 31 ->
  (forall nh' t', table_ok nh' t' (<[kh := e]> d) ->
     (forall x, x <> e -> (forall kh', d !! kh' <> Some x) -> nh' !! x = nh !! x) ->
     Q (default nullptr (d !! kh)) (tstate s nh' t')) ->
  wp (HandleTable_Insert e) Q (tstate s nh t).
Proof.
  intros ((bs & Hb) & He & Hs) Hk Hr Hfr H0 Hsz HQ. unfold HandleTable_Insert.
  pose proof Hr as (ee & _ & Hee & Hke & Hu & _ & _ & Hal). pose proof (keyed_insert _ _ _ _ Hk Hr) as Hk'.
  apply wp_bind, wp_key with kh; [done|]. apply wp_bind, wp_load with ee; [done|]. subst kh. cbn [hkey fst].
  eapply wp_bind, wp_FindPointer; [done..|]. intros pre suf i Ei Hi Hhd. change (key_data ee, hash ee) with (hkey ee) in Hhd.
  change (hash ee) with (snd (hkey ee)) in Ei. subst i. set (kh := hkey ee) in *.
  destruct (buckets_found _ _ _ _ _ _ _ _ Hb Hk Hi) as (Hpre & Hsufin & HNs & p & Hbk).
  pose proof (b_chains _ _ _ _ Hb) as Hc.
  assert (Hec : e ∉ concat bs) by (intros [kh' ?]%(buckets_elem_iff _ _ _ _ _ Hb); by eapply Hfr).
  apply wp_bind. eapply wp_read_slot; [done..|]. apply wp_bind. eapply wp_old_next; [done|]. intros q Hq.
  apply bind_assoc_wp, wp_bind. eapply wp_link; [done..|]. intros nh' t' Hlt Het Hfr' Hc'.
  pose proof (buckets_insert _ _ _ _ _ Hb Hk _ _ _ Hi Hhd nh' t' e Hfr Hlt Hc') as Hb'.
  set (bs' := <[_ := _]> bs) in *. rewrite Hhd. pose proof (map_size_insert kh e d) as Hsize.
  assert (Hfr'' : forall x, x <> e -> (forall kh', d !! kh' <> Some x) -> nh' !! x = nh !! x).
  { intros x Hxe Hx. apply Hfr'; [done|]. intros [kh' ?]%(buckets_elem_iff _ _ _ _ _ Hb). by eapply Hx. }
  destruct (d !! kh) as [old|] eqn:Ed; cbn [default from_option id] in *.
  - (* an entry with the same key is replaced *)
    destruct suf as [|o post]; cbn in Hhd; [congruence|]. injection Hhd as ->.
    rewrite (bucket_nonnull _ _ _ _ Hbk). apply wp_bind, wp_ret, wp_ret, HQ; [|done].
    split; [by exists bs'|]. rewrite Het, He, Hsize. lia.
  - (* a new key: the table may grow *)
    rewrite N.eqb_refl.
    apply wp_bind, wp_bind, wp_get_table, wp_bind, wp_set_elems, wp_bind, wp_get_table. cbn [elems_ length_].
    rewrite Het, He, wrap_small by (unfold is_uint; change (2 ^ 31) with 2147483648 in *; change (2 ^ 32) with 4294967296; lia).
    destruct (Z.of_nat (base.size d) + 1 >? length_ t').
    + apply wp_Resize with (bs := bs') (d := <[kh := e]> d);
        [done|done|by apply (b_len _ _ _ _ Hb')|intros x; by eapply buckets_elem_iff|cbn; lia|lia|].
      intros nh'' t'' Hok Hfr3. apply wp_ret, HQ; [done|]. intros x Hxe Hx. rewrite Hfr3; [by apply Hfr''|].
      intros [kh' Hd]%(buckets_elem_iff _ _ _ _ _ Hb').
      apply lookup_insert_Some in Hd as [[_ ->]|[_ Hd]]; [done|by eapply Hx].
    + apply wp_ret, wp_ret, HQ; [|done]. split; [|cbn; lia]. exists bs'. split; try by apply Hb'.
Qed.

Lemma wp_HandleTable_Remove k0 h0 Q s nh t d :
  table_ok nh t d -> keyed (fst s) d -> is_uint 32 h0 ->
  (forall nh' t', table_ok nh' t' (delete (k0, h0) d) ->
     (forall x, (forall kh', d !! kh' <> Some x) -> nh' !! x = nh !! x) ->
     Q (default nullptr (d !! (k0, h0))) (tstate s nh' t')) ->
  wp (HandleTable_Remove k0 h0) Q (tstate s nh t).
Proof.
  intros ((bs & Hb) & He & Hs) Hk Hh HQ. unfold HandleTable_Remove.
  eapply wp_bind, wp_FindPointer; [done..|]. intros pre suf i Ei Hi Hhd.
  destruct (buckets_found _ _ _ _ _ _ _ _ Hb Hk Hi) as (Hpre & Hsufin & HNs & p & Hbk).
  pose proof (b_chains _ _ _ _ Hb) as Hc. change h0 with (snd (k0, h0)) in Ei. subst i. set (kh := (k0, h0)) in *.
  apply wp_bind. eapply wp_read_slot; [done..|]. pose proof (map_size_delete kh d) as Hsize. rewrite Hhd.
  destruct (d !! kh) as [o|] eqn:Ed; cbn [default from_option id] in *.
  - destruct suf as [|o' post]; cbn in Hhd; [congruence|]. injection Hhd as ->.
    rewrite (bucket_nonnull _ _ _ _ Hbk). cbn [negb]. destruct Hbk as (_ & _ & q & Hq & Hbk).
    apply wp_bind, wp_bind, wp_load with q; [done|].
    apply wp_bind, (wp_write_slot _ _ _ _ bs _ _ (o :: post) _ post); [done|done|done|done| | |].
    { intros x Hx. left. set_solver. }
    { apply NoDup_cons in HNs; tauto. }
    intros nh' t' Hlt Het _ Hfr Hc'.
    assert (Hb' := buckets_delete _ _ _ _ _ Hb Hk kh pre (o :: post) Hi (eq_sym Ed) nh' t' o post eq_refl Hlt Hc').
    apply wp_bind, wp_get_table, wp_set_elems, wp_ret. rewrite Het, He.
    assert (0 < Z.of_nat (base.size d)) by (assert (base.size d <> 0%nat); [|lia]; intros ?%map_size_empty_inv; set_solver).
    rewrite wrap_small by (unfold is_uint; change (2 ^ 31) with 2147483648 in *; change (2 ^ 32) with 4294967296; lia).
    apply HQ; [|intros x Hx; apply Hfr; intros [kh' ?]%(buckets_elem_iff _ _ _ _ _ Hb); by eapply Hx].
    split; [|cbn; rewrite Hsize; lia]. eexists. split; try by apply Hb'.
  - rewrite N.eqb_refl. cbn [negb]. apply wp_bind, wp_ret, wp_ret, HQ; [|done].
    rewrite delete_id by done. split; [by exists bs|done].
Qed.

Lemma wp_HandleTable_new Q s nh t :
  (forall nh' t', table_ok nh' t' ∅ -> (forall x, nh' !! x = nh !! x) -> Q tt (tstate s nh' t')) ->
  wp HandleTable_new Q (tstate s nh t).
Proof.
  intros HQ. apply wp_bind, wp_set_table. apply wp_Resize with (bs := []) (d := ∅); try done.
  - split; [constructor|apply NoDup_nil_2].
  - intros x. split; [by intros ?%not_elem_of_nil|by intros [? ?]].
  - intros nh' t' Hok Hfr. apply HQ; [done|]. intros x. apply Hfr, not_elem_of_nil.
Qed.
(** ** Properties *)

(** C5. (hash table).  Over any state whose buckets hold the finite map [d] with
    at most 2^31 keys, [Lookup], [Insert] and [Remove] succeed, return what the map
    holds under the key, and leave buckets that hold the map with the key bound to
    the new handle, or removed; only [next_hash] members and the array change, however
    often the table is resized. *)
Theorem handle_table_refines_map (s : state) (d : gmap (bytes * Z) loc)
  (Ht : table_ok (next_hash (fst s)) (table_ (snd s)) d) (Hk : keyed (fst s) d) :
  (forall k h, is_uint 32 h -> HandleTable_Lookup k h s = Some (default nullptr (d !! (k, h)), s)) /\
  (forall e kh, readable (fst s) e kh -> (forall kh', d !! kh' <> Some e) -> e <> nullptr -> Z.of_nat (base.size d) < 2 ^ 31 ->
     exists nh t, HandleTable_Insert e s = Some (default nullptr (d !! kh), tstate s nh t) /\ table_ok nh t (<[kh := e]> d)) /\
  (forall k h, is_uint 32 h ->
     exists nh t, HandleTable_Remove k h s = Some (default nullptr (d !! (k, h)), tstate s nh t) /\
       table_ok nh t (delete (k, h) d)).
Proof.
  split; [|split].
  - intros k h Hh.
    assert (W : wp (HandleTable_Lookup k h) (fun a s' => a = default nullptr (d !! (k, h)) /\ s' = s)
                   (tstate s (next_hash (fst s)) (table_ (snd s)))).
    { eapply wp_HandleTable_Lookup; [done..|]. by rewrite <-tstate_id. }
    rewrite <-tstate_id in W. by apply wp_elim in W as (a & s' & -> & -> & ->).
  - intros e kh Hr Hf H0 Hs.
    assert (W : wp (HandleTable_Insert e) (fun a s' => a = default nullptr (d !! kh) /\
       exists nh t, s' = tstate s nh t /\ table_ok nh t (<[kh := e]> d)) 
       (tstate s (next_hash (fst s)) (table_ (snd s)))).
    { eapply wp_HandleTable_Insert; [done..|]. intros nh t Hok _. split; [done|]. by exists nh, t. }
    rewrite <-tstate_id in W. apply wp_elim in W as (a & s' & E & -> & nh & t & -> & Hok). by exists nh, t.
  - intros k h Hh.
    assert (W : wp (HandleTable_Remove k h) (fun a s' => a = default nullptr (d !! (k, h)) /\
       exists nh t, s' = tstate s nh t /\ table_ok nh t (delete (k, h) d)) 
       (tstate s (next_hash (fst s)) (table_ (snd s)))).
    { eapply wp_HandleTable_Remove; [done..|]. intros nh t Hok _. split; [done|]. by exists nh, t. }
    rewrite <-tstate_id in W. apply wp_elim in W as (a & s' & E & -> & nh & t & -> & Hok). by exists nh, t.
Qed.

(** ** Witnesses *)

(** A new table, in an empty memory. *)
Definition ex_table : state :=
  let s := ({| alloc := {[nullptr]}; next := ∅; prev := ∅; next_hash := ∅; in_cache := ∅; refs := ∅; handle := ∅; calls := [] |},
            {| capacity_ := 0; usage_ := 0; lru_ := 1%N; in_use_ := 2%N;
               table_ := {| length_ := 0; elems_ := 0; list_ := [] |} |}) in
  match HandleTable_new s with Some (_, s') => s' | None => s end.

Lemma handle_table_refines_map_witness : HandleTable_Lookup [x61] 7 ex_table = Some (nullptr, ex_table).
Proof.
  assert (Ht : table_ok (next_hash (fst ex_table)) (table_ (snd ex_table)) ∅).
  { split; [|by vm_compute]. exists (replicate 4 []). split.
    - apply chains_replicate.
    - exists 2. split; [lia|by vm_compute].
    - by vm_compute.
    - intros i b l Hi Hl. apply lookup_replicate in Hi as [-> _]. by apply not_elem_of_nil in Hl.
    - intros kh l Hl. by rewrite lookup_empty in Hl. }
  apply (handle_table_refines_map ex_table ∅ Ht); [|split; by vm_compute]. intros kh l Hl. by rewrite lookup_empty in Hl.
Defined.
