(* ===== verification/LRUCache.v ===== *)
(** * LRUCache: one shard of the cache of [src/util/cache.cpp]

    [LRUCache], on the memory of CacheMem and the table of HandleTable: the
    operations, the specification they implement (a dictionary, a recency list,
    and the number of handles out on each entry), and the refinement between the two. *)

From S2P Require Import Prelude CacheMem HandleTable.
#[local] Open Scope Z_scope.

(** ** The code *)

(** The constructor, once the two heads and the members have their addresses. *)
Definition LRUCache_new : M unit :=
  c ← get;
  set_usage 0 ;;
  HandleTable_new ;;
  set_next (lru_ c) (lru_ c) ;;
  set_prev (lru_ c) (lru_ c) ;;
  set_next (in_use_ c) (in_use_ c) ;;
  set_prev (in_use_ c) (in_use_ c).

Definition SetCapacity (capacity : Z) : M unit := set_capacity capacity.

Definition Ref (e : loc) : M unit :=
  r ← load refs e;
  (if r =? 1 then
     i ← load in_cache e;
     if i : bool then c ← get; LRU_Remove e ;; LRU_Append (in_use_ c) e else mret tt
   else mret tt) ;;
  r ← load refs e;
  set_refs e (u32 (r + 1)).

Definition Unref (e : loc) : M unit :=
  r ← load refs e;
  assert_ (r >? 0) ;;
  set_refs e (u32 (r - 1)) ;;
  r ← load refs e;
  if r =? 0 then
    i ← load in_cache e;
    assert_ (negb i) ;;
    hd ← load handle e;
    k ← key e;
    call_deleter (deleter hd) k (value hd) ;;
    free e
  else
    i ← load in_cache e;
    if (i : bool) && (r =? 1) then c ← get; LRU_Remove e ;; LRU_Append (lru_ c) e else mret tt.

Definition Lookup (k : bytes) (h : Z) : M loc :=
  e ← HandleTable_Lookup k h;
  (if negb (e =? nullptr)%N then Ref e else mret tt) ;;
  mret e.

Definition Release (e : loc) : M unit := Unref e.

Definition FinishErase (e : loc) : M bool :=
  (if negb (e =? nullptr)%N then
     i ← load in_cache e;
     assert_ i ;;
     LRU_Remove e ;;
     set_in_cache e false ;;
     c ← get;
     hd ← load handle e;
     set_usage (u64 (usage_ c - charge hd)) ;;
     Unref e
   else mret tt) ;;
  mret (negb (e =? nullptr)%N).

(** One round of the eviction loops of [Insert] and [Prune]: the oldest entry
    of the LRU list leaves the table and the cache. *)
Definition evict_oldest : M unit :=
  c ← get;
  old ← load next (lru_ c);
  r ← load refs old;
  assert_ (r =? 1) ;;
  k ← key old;
  hd ← load handle old;
  e ← HandleTable_Remove k (hash hd);
  erased ← FinishErase e;
  assert_ erased.

Fixpoint Insert_loop (fuel : nat) : M unit :=
  match fuel with
  | O => fail
  | S fuel =>
      c ← get;
      n ← load next (lru_ c);
      if (usage_ c >? capacity_ c) && negb (n =? lru_ c)%N then evict_oldest ;; Insert_loop fuel
      else mret tt
  end.

Definition Insert (k : bytes) (h v ch d : Z) : M loc :=
  e ← malloc;
  set_handle e {| value := v; deleter := d; charge := ch; key_data := k; hash := h |} ;;
  set_in_cache e false ;;
  set_refs e 1 ;;
  c ← get;
  (if capacity_ c >? 0 then
     r ← load refs e;
     set_refs e (u32 (r + 1)) ;;
     set_in_cache e true ;;
     LRU_Append (in_use_ c) e ;;
     c ← get;
     set_usage (u64 (usage_ c + ch)) ;;
     old ← HandleTable_Insert e;
     FinishErase old ;;
     mret tt
   else set_next e nullptr) ;;
  fuel ← loop_bound;
  Insert_loop fuel ;;
  mret e.

Definition Erase (k : bytes) (h : Z) : M unit :=
  e ← HandleTable_Remove k h; FinishErase e ;; mret tt.

Fixpoint Prune_loop (fuel : nat) : M unit :=
  match fuel with
  | O => fail
  | S fuel =>
      c ← get;
      n ← load next (lru_ c);
      if negb (n =? lru_ c)%N then evict_oldest ;; Prune_loop fuel else mret tt
  end.
Definition Prune : M unit := fuel ← loop_bound; Prune_loop fuel.

Definition TotalCharge : M Z := c ← get; mret (usage_ c).

(** [~LRUCache]. *)
Fixpoint LRUCache_delete_loop (fuel : nat) (e : loc) : M unit :=
  match fuel with
  | O => fail
  | S fuel =>
      c ← get;
      if (e =? lru_ c)%N then mret tt
      else
        n ← load next e;
        i ← load in_cache e;
        assert_ i ;;
        set_in_cache e false ;;
        r ← load refs e;
        assert_ (r =? 1) ;;
        Unref e ;;
        LRUCache_delete_loop fuel n
  end.
Definition LRUCache_delete : M unit :=
  c ← get;
  n ← load next (in_use_ c);
  assert_ (n =? in_use_ c)%N ;;
  e ← load next (lru_ c);
  fuel ← loop_bound;
  LRUCache_delete_loop fuel e.

(** ** The representation invariant *)

(** What memory holds about one live entry. *)
Record ent := Ent { e_handle : LRUHandle; e_refs : Z; e_in : bool }.

(** The contents of a shard: the two rings, the live entries (cached or only
    held by clients), the table, the usage counter and the deleter calls. *)
Record ghost := Ghost {
  g_lru : list loc;
  g_use : list loc;
  g_ents : gmap loc ent;
  g_dict : gmap (bytes * Z) loc;
  g_usage : Z;
  g_calls : list (Z * (bytes * Z))
}.

(** The members of [l] have the same contents in both heaps. *)
Definition same_at (h h' : heap) (l : loc) : Prop :=
  next h !! l = next h' !! l /\ prev h !! l = prev h' !! l /\ next_hash h !! l = next_hash h' !! l /\
  in_cache h !! l = in_cache h' !! l /\ refs h !! l = refs h' !! l /\ handle h !! l = handle h' !! l.

Lemma same_at_refl h l : same_at h h l.
Proof. done. Qed.
Lemma same_at_trans h1 h2 h3 l : same_at h1 h2 l -> same_at h2 h3 l -> same_at h1 h3 l.
Proof. unfold same_at. naive_solver congruence. Qed.

Lemma ring_next nx pv x xs l :
  NoDup (x :: xs) -> ring nx pv x xs -> l ∈ xs -> exists n : loc, nx !! l = Some n /\ n <> l.
Proof.
  intros HN [H _] Hl. apply list_elem_of_split in Hl as (l1 & l2 & ->).
  rewrite <-app_assoc in H. cbn [app] in H. rewrite app_comm_cons in H. apply chain_app in H as [_ H].
  apply NoDup_cons in HN as [Hx HN]. apply NoDup_app in HN as (_ & _ & [Hl HN]%NoDup_cons).
  destruct l2 as [|y l2]; cbn in H; destruct H as [H _]; eexists; (split; [exact H|set_solver]).
Qed.

Section core.
(** The addresses of the heads, the capacity, and a set [D] of locations of
    other owners, whose contents are those of [F]. *)
Context (L U : loc) (cap : Z) (D : gset loc) (F : heap).

Record node_ok (h : heap) (l : loc) (e : ent) : Prop := {
  n_handle : handle h !! l = Some (e_handle e);
  n_refs : refs h !! l = Some (e_refs e);
  n_in : in_cache h !! l = Some (e_in e);
  n_hash : is_uint 32 (hash (e_handle e));
  n_alloc : l ∈ alloc h;
  n_loc : l <> nullptr /\ l <> L /\ l <> U /\ (l ∉ D)
}.

Record core (s : state) (G : ghost) : Prop := {
  c_fields : capacity_ (snd s) = cap /\ lru_ (snd s) = L /\ in_use_ (snd s) = U /\
               usage_ (snd s) = g_usage G /\ calls (fst s) = g_calls G;
  c_nodup : NoDup (L :: U :: g_lru G ++ g_use G);
  c_lru : ring (next (fst s)) (prev (fst s)) L (g_lru G);
  c_use : ring (next (fst s)) (prev (fst s)) U (g_use G);
  c_rings : forall l, l ∈ g_lru G ++ g_use G -> is_Some (g_ents G !! l);
  c_ents : forall l e, g_ents G !! l = Some e -> node_ok (fst s) l e;
  c_out : forall l, is_Some (g_ents G !! l) -> l ∉ g_lru G ++ g_use G ->
            exists n : loc, next (fst s) !! l = Some n /\ n <> l;
  c_table : table_ok (next_hash (fst s)) (table_ (snd s)) (g_dict G);
  c_dict : forall kh l, g_dict G !! kh = Some l -> exists e, g_ents G !! l = Some e /\ hkey (e_handle e) = kh;
  c_heads : L ∈ alloc (fst s) /\ U ∈ alloc (fst s) /\ nullptr ∈ alloc (fst s) /\
              (L ∉ D) /\ (U ∉ D) /\ L <> nullptr /\ U <> nullptr;
  c_frame : forall l, l ∈ D -> l ∈ alloc (fst s) /\ same_at (fst s) F l
}.

Lemma core_nodup s G : core s G ->
  NoDup (L :: g_lru G) /\ NoDup (U :: g_use G) /\ (L ∉ U :: g_use G) /\ (U ∉ L :: g_lru G) /\
  (forall x, x ∈ g_lru G -> x ∉ g_use G).
Proof.
  intros H. pose proof (c_nodup _ _ H) as [HL [HU (H1 & H2 & H3)%NoDup_app]%NoDup_cons]%NoDup_cons.
  rewrite !NoDup_cons, !not_elem_of_cons. rewrite not_elem_of_cons, !not_elem_of_app in *. naive_solver.
Qed.

(** Every live entry has a [next] other than itself. *)
Lemma core_next s G l : core s G -> is_Some (g_ents G !! l) -> exists n : loc, next (fst s) !! l = Some n /\ n <> l.
Proof.
  intros H Hl. destruct (core_nodup _ _ H) as (H1 & H2 & _).
  destruct (decide (l ∈ g_lru G)); [by apply (ring_next _ (prev (fst s)) L (g_lru G)); [|apply (c_lru _ _ H)|]|].
  destruct (decide (l ∈ g_use G)); [by apply (ring_next _ (prev (fst s)) U (g_use G)); [|apply (c_use _ _ H)|]|].
  eapply c_out; [done..|set_solver].
Qed.
Lemma core_readable s G l e : core s G -> g_ents G !! l = Some e -> readable (fst s) l (hkey (e_handle e)).
Proof.
  intros H He. destruct (core_next _ _ l H ltac:(by eexists)) as (n & Hn & Hnl).
  destruct (c_ents _ _ H _ _ He). by exists (e_handle e), n.
Qed.
Lemma core_keyed s G : core s G -> keyed (fst s) (g_dict G).
Proof. intros H kh l (e & He & <-)%(c_dict _ _ H). by eapply core_readable. Qed.

Lemma core_lru_length s G : core s G -> (length (g_lru G) <= size (alloc (fst s)))%nat.
Proof.
  intros H. destruct (core_nodup _ _ H) as ((_ & H1)%NoDup_cons & _). apply NoDup_length_size; [done|].
  intros x Hx. destruct (c_rings _ _ H x ltac:(set_solver)) as [e He]. by destruct (c_ents _ _ H _ _ He).
Qed.
End core.

Arguments n_handle {_ _ _ _ _ _} _.
Arguments n_refs {_ _ _ _ _ _} _.
Arguments n_in {_ _ _ _ _ _} _.
Arguments n_hash {_ _ _ _ _ _} _.
Arguments n_alloc {_ _ _ _ _ _} _.
Arguments n_loc {_ _ _ _ _ _} _.
Arguments c_fields {_ _ _ _ _ _ _} _.
Arguments c_nodup {_ _ _ _ _ _ _} _.
Arguments c_lru {_ _ _ _ _ _ _} _.
Arguments c_use {_ _ _ _ _ _ _} _.
Arguments c_rings {_ _ _ _ _ _ _} _.
Arguments c_ents {_ _ _ _ _ _ _} _.
Arguments c_out {_ _ _ _ _ _ _} _.
Arguments c_table {_ _ _ _ _ _ _} _.
Arguments c_dict {_ _ _ _ _ _ _} _.
Arguments c_heads {_ _ _ _ _ _ _} _.
Arguments c_frame {_ _ _ _ _ _ _} _.
Arguments core_nodup {_ _ _ _ _ _ _} _.
Arguments core_next {_ _ _ _ _ _ _ _} _ _.
Arguments core_readable {_ _ _ _ _ _ _ _ _} _ _.
Arguments core_keyed {_ _ _ _ _ _ _} _.
Arguments core_lru_length {_ _ _ _ _ _ _} _.
Lemma with_eta h :
  {| alloc := alloc h; next := next h; prev := prev h; next_hash := next_hash h; in_cache := in_cache h;
     refs := refs h; handle := handle h; calls := calls h |} = h.
Proof. by destruct h. Qed.

(** The list without the element [e]. *)
Definition rm (e : loc) (l : list loc) : list loc := filter (fun x => x <> e) l.

Lemma rm_notin e l : e ∉ l -> rm e l = l.
Proof.
  induction l as [|x l IH]; intros He; [done|]. unfold rm in *. rewrite filter_cons_True by set_solver.
  rewrite IH; [done|set_solver].
Qed.
Lemma rm_split e l1 l2 : e ∉ l1 -> e ∉ l2 -> rm e (l1 ++ e :: l2) = l1 ++ l2.
Proof.
  intros H1 H2. unfold rm. rewrite filter_app, filter_cons_False by (intros ?; done).
  fold (rm e l1) (rm e l2). by rewrite !rm_notin.
Qed.
Lemma elem_of_rm x e l : x ∈ rm e l <-> x <> e /\ x ∈ l.
Proof. unfold rm. by rewrite list_elem_of_filter. Qed.
Lemma rm_app e l1 l2 : rm e (l1 ++ l2) = rm e l1 ++ rm e l2.
Proof. apply filter_app. Qed.
Lemma NoDup_rm e l : NoDup l -> NoDup (rm e l).
Proof. apply NoDup_filter. Qed.

Section steps.
Context (L U : loc) (cap : Z) (D : gset loc) (F : heap).
#[local] Abbreviation core := (core L U cap D F).
#[local] Abbreviation node_ok := (node_ok L U D).
Implicit Types (s : state) (G : ghost).

(** Cutting [e] out of its ring and the effect on the other one. *)
Lemma ring_remove_other nx pv X xs Y ys (e : loc) :
  NoDup (X :: xs) -> X ∉ Y :: ys -> Y ∉ X :: xs -> (forall x, x ∈ xs -> x ∉ ys) ->
  ring nx pv X xs -> ring nx pv Y ys -> e ∈ xs ->
  exists p n : loc, nx !! e = Some n /\ pv !! e = Some p /\ n <> e /\ p <> e /\ p ∈ X :: xs /\ n ∈ X :: xs /\
    ring (<[p := n]> nx) (<[n := p]> pv) X (rm e xs) /\ ring (<[p := n]> nx) (<[n := p]> pv) Y ys.
Proof.
  intros HN HX HY Hdis HrX HrY He. apply list_elem_of_split in He as (l1 & l2 & ->).
  destruct (ring_remove nx pv X l1 e l2 HN HrX) as (p & n & Hn & Hp & Hne & Hpe & Hpin & Hnin & Hr).
  exists p, n. apply NoDup_cons in HN as [HX' HN]. apply NoDup_app in HN as (_ & HN1 & [HN2 _]%NoDup_cons).
  rewrite rm_split by set_solver. do 4 (split; [done|]). do 2 (split; [set_solver|]). split; [done|].
  apply ring_other; [| |done]; set_solver.
Qed.

Lemma wp_unlink s e (p n : loc) Q :
  next (fst s) !! e = Some n -> prev (fst s) !! e = Some p -> n <> e -> p ∈ alloc (fst s) -> n ∈ alloc (fst s) ->
  Q tt (with_next (<[p := n]>) (with_prev (<[n := p]>) (fst s)), snd s) -> wp (LRU_Remove e) Q s.
Proof.
  intros Hn Hp Hne Hpa Hna HQ. destruct s as [h c]. unfold LRU_Remove.
  apply wp_bind, wp_load with n; [done|]. apply wp_bind, wp_load with p; [done|].
  apply wp_bind, wp_write; [done|].
  apply wp_bind, wp_load with p; [cbn; by rewrite lookup_insert_ne|].
  apply wp_bind, wp_load with n; [done|]. by apply wp_write.
Qed.

Lemma core_alloc s G x : core s G -> x ∈ L :: U :: g_lru G ++ g_use G -> x ∈ alloc (fst s).
Proof.
  intros H Hx. pose proof (c_heads H) as (? & ? & _).
  apply elem_of_cons in Hx as [->|[->|Hx]%elem_of_cons]; [done..|].
  destruct (c_rings H x Hx) as [y Hy]. by destruct (c_ents H _ _ Hy).
Qed.
Lemma core_not_D s G x : core s G -> x ∈ L :: U :: g_lru G ++ g_use G -> x ∉ D.
Proof.
  intros H Hx. pose proof (c_heads H) as (_ & _ & _ & ? & ? & _).
  apply elem_of_cons in Hx as [->|[->|Hx]%elem_of_cons]; [done..|].
  destruct (c_rings H x Hx) as [y Hy]. destruct (c_ents H _ _ Hy). tauto.
Qed.

(** The invariant after a change of [next] and [prev] at the rings only. *)
Lemma core_links s G h' lru use ents :
  core s G -> NoDup (L :: U :: lru ++ use) -> ring (next h') (prev h') L lru -> ring (next h') (prev h') U use ->
  alloc h' = alloc (fst s) -> next_hash h' = next_hash (fst s) -> handle h' = handle (fst s) ->
  refs h' = refs (fst s) -> in_cache h' = in_cache (fst s) -> calls h' = calls (fst s) ->
  (forall l, l ∈ lru ++ use -> is_Some (ents !! l)) ->
  (forall l e, ents !! l = Some e -> node_ok (fst s) l e) ->
  (forall l, is_Some (ents !! l) -> l ∉ lru ++ use -> exists n : loc, next h' !! l = Some n /\ n <> l) ->
  (forall kh l, g_dict G !! kh = Some l -> exists e, ents !! l = Some e /\ hkey (e_handle e) = kh) ->
  (forall l, l ∈ D -> next h' !! l = next (fst s) !! l /\ prev h' !! l = prev (fst s) !! l) ->
  core (h', snd s) (Ghost lru use ents (g_dict G) (g_usage G) (g_calls G)).
Proof.
  intros H HN HL HU Ea Enh Eh Er Ei Ec Hr He Ho Hd HD. split; cbn [fst snd g_lru g_use g_ents g_dict g_usage g_calls].
  - pose proof (c_fields H). by rewrite Ec.
  - done.
  - done.
  - done.
  - done.
  - intros l e Hl. destruct (He l e Hl). split; try (rewrite ?Eh, ?Er, ?Ei, ?Ea); done.
  - done.
  - rewrite Enh. by apply (c_table H).
  - done.
  - rewrite Ea. by apply (c_heads H).
  - intros l Hl. rewrite Ea. destruct (c_frame H l Hl) as (? & Hs). split; [done|].
    destruct (HD l Hl) as [E1 E2]. unfold same_at in *. by rewrite E1, E2, Enh, Eh, Er, Ei.
Qed.

Lemma wp_LRU_Remove s G e Q :
  core s G -> e ∈ g_lru G ++ g_use G ->
  (forall s', core s' (Ghost (rm e (g_lru G)) (rm e (g_use G)) (g_ents G) (g_dict G) (g_usage G) (g_calls G)) ->
     Q tt s') -> wp (LRU_Remove e) Q s.
Proof.
  intros H He HQ. destruct (core_nodup H) as (N1 & N2 & N3 & N4 & N5).
  assert (exists p n : loc, next (fst s) !! e = Some n /\ prev (fst s) !! e = Some p /\ n <> e /\ p <> e /\
    p ∈ L :: U :: g_lru G ++ g_use G /\ n ∈ L :: U :: g_lru G ++ g_use G /\
    ring (<[p := n]> (next (fst s))) (<[n := p]> (prev (fst s))) L (rm e (g_lru G)) /\
    ring (<[p := n]> (next (fst s))) (<[n := p]> (prev (fst s))) U (rm e (g_use G)))
    as (p & n & Hn & Hp & Hne & Hpe & Hpin & Hnin & HL & HU).
  { apply elem_of_app in He as [He|He].
    - destruct (ring_remove_other _ _ _ _ _ _ e N1 N3 N4 N5 (c_lru H) (c_use H) He)
        as (p & n & ? & ? & ? & ? & ? & ? & ? & ?).
      exists p, n. rewrite (rm_notin e (g_use G)) by auto. set_solver.
    - destruct (ring_remove_other _ _ _ _ _ _ e N2 N4 N3 ltac:(intros ? ? ?; by eapply N5) (c_use H)
        (c_lru H) He) as (p & n & ? & ? & ? & ? & ? & ? & ? & ?).
      exists p, n. rewrite (rm_notin e (g_lru G)) by (intros ?; by eapply N5). set_solver. }
  apply wp_unlink with p n; [done|done|done|by eapply core_alloc|by eapply core_alloc|]. apply HQ.
  apply (core_links s G); try done.
  - rewrite <-rm_app. pose proof (c_nodup H) as [H1 [H2 H3]%NoDup_cons]%NoDup_cons.
    rewrite !NoDup_cons, not_elem_of_cons, !elem_of_rm. split_and!; [set_solver| |set_solver|by apply NoDup_rm].
    rewrite not_elem_of_cons in H1. tauto.
  - intros l. rewrite <-rm_app, elem_of_rm. intros [_ Hl]. by apply (c_rings H).
  - by apply (c_ents H).
  - intros l Hl. rewrite <-rm_app, elem_of_rm. intros Hl'. cbn.
    destruct (core_next H Hl) as (m & Hm & Hml). exists m. split; [|done].
    rewrite lookup_insert_ne; [done|]. intros ->. destruct Hl as [y Hy].
    destruct (c_ents H _ _ Hy). apply Hl'. split; [done|]. set_solver.
  - by apply (c_dict H).
  - intros l Hl. cbn. pose proof (core_not_D s G p H Hpin). pose proof (core_not_D s G n H Hnin).
    rewrite !lookup_insert_ne by congruence. done.
Qed.

(** Linking [e] before a head [X] puts it at the end of the ring. *)
Lemma wp_link_last s e X p Q :
  prev (fst s) !! X = Some p -> p <> e -> X <> e -> e ∈ alloc (fst s) -> p ∈ alloc (fst s) -> X ∈ alloc (fst s) ->
  Q tt (with_prev (fun m => <[X := e]> (<[e := p]> m)) (with_next (fun m => <[p := e]> (<[e := X]> m)) (fst s)), snd s) ->
  wp (LRU_Append X e) Q s.
Proof.
  intros Hp Hpe HXe Hea Hpa HXa HQ. destruct s as [h c]. unfold LRU_Append.
  apply wp_bind, wp_write; [done|]. apply wp_bind, wp_load with p; [done|]. apply wp_bind, wp_write; [done|].
  apply wp_bind, wp_load with p; [cbn; by rewrite lookup_insert_eq|]. apply wp_bind, wp_write; [done|].
  apply wp_bind, wp_load with X; [cbn; by rewrite lookup_insert_ne, lookup_insert_eq|]. by apply wp_write.
Qed.

Lemma ring_append_other nx pv X xs Y ys (e p : loc) :
  NoDup (X :: xs) -> X ∉ Y :: ys -> (forall x, x ∈ xs -> x ∉ Y :: ys) -> e ∉ X :: xs -> e ∉ Y :: ys ->
  ring nx pv X xs -> ring nx pv Y ys -> last (X :: xs) = Some p ->
  ring (<[p := e]> (<[e := X]> nx)) (<[X := e]> (<[e := p]> pv)) X (xs ++ [e]) /\
  ring (<[p := e]> (<[e := X]> nx)) (<[X := e]> (<[e := p]> pv)) Y ys.
Proof.
  intros HN HX Hdis He1 He2 HrX HrY Hl. split; [by apply ring_append|].
  assert (p ∉ Y :: ys).
  { apply last_Some_elem_of, elem_of_cons in Hl as [->|Hl]; [done|by apply Hdis]. }
  apply ring_other; [done|done|]. by apply ring_other.
Qed.

(** [LRU_Append] to the in-use list when [b], to the LRU list otherwise; the
    entry may be new. *)
Lemma wp_LRU_Append (b : bool) s G e x Q :
  core s G -> e ∉ g_lru G ++ g_use G -> node_ok (fst s) e x ->
  (forall kh, g_dict G !! kh = Some e -> kh = hkey (e_handle x)) ->
  (forall s', core s' (Ghost (if b then g_lru G else g_lru G ++ [e]) (if b then g_use G ++ [e] else g_use G)
                (<[e := x]> (g_ents G)) (g_dict G) (g_usage G) (g_calls G)) -> Q tt s') ->
  wp (LRU_Append (if b then U else L) e) Q s.
Proof.
  intros H He Hx Hkh HQ. destruct (core_nodup H) as (N1 & N2 & N3 & N4 & N5).
  destruct (n_loc Hx) as (He0 & HeL & HeU & HeD). pose proof (c_heads H) as (HLa & HUa & _ & HLD & HUD & _).
  rewrite elem_of_app in He.
  assert (exists p : loc, prev (fst s) !! (if b then U else L) = Some p /\ p ∈ L :: U :: g_lru G ++ g_use G /\
    let nx := <[p := e]> (<[e := if b then U else L]> (next (fst s))) in
    let pv := <[if b then U else L := e]> (<[e := p]> (prev (fst s))) in
    ring nx pv L (if b then g_lru G else g_lru G ++ [e]) /\
    ring nx pv U (if b then g_use G ++ [e] else g_use G)) as (p & Hp & Hpin & HL & HU).
  { destruct b.
    - destruct (ring_last _ _ _ _ (c_use H)) as (p & Hp & Hlast). exists p. split; [done|].
      split; [apply last_Some_elem_of in Hlast; set_solver|]. apply and_comm.
      apply ring_append_other; try done; [| | |apply (c_use H)|apply (c_lru H)]; set_solver.
    - destruct (ring_last _ _ _ _ (c_lru H)) as (p & Hp & Hlast). exists p. split; [done|].
      split; [apply last_Some_elem_of in Hlast; set_solver|].
      apply ring_append_other; try done; [| | |apply (c_lru H)|apply (c_use H)]; set_solver. }
  assert (Hpe : p <> e) by set_solver.
  apply wp_link_last with p; [done|done|by destruct b|by apply (n_alloc Hx)|by eapply core_alloc|by destruct b|].
  apply HQ. apply (core_links s G); try done.
  - pose proof (c_nodup H) as HN. destruct b.
    + rewrite (app_assoc (g_lru G)), !app_comm_cons. apply NoDup_app. split; [done|]. split; [|apply NoDup_singleton]. set_solver.
    + rewrite <-app_assoc. cbn [app].
      assert (E : L :: U :: g_lru G ++ e :: g_use G ≡ₚ e :: L :: U :: g_lru G ++ g_use G) by solve_Permutation.
      rewrite E. apply NoDup_cons. split; [set_solver|done].
  - intros l Hl. destruct (decide (e = l)) as [->|Hne]; [by simplify_map_eq|]. rewrite lookup_insert_ne by done.
    apply (c_rings H). destruct b; set_solver.
  - intros l y [[<- <-]|[_ Hy]]%lookup_insert_Some; [done|by apply (c_ents H)].
  - intros l Hl Hl'. cbn.
    assert (l <> e) by (destruct b; set_solver).
    rewrite lookup_insert_ne in Hl by done. destruct (core_next H Hl) as (m & Hm & Hml). exists m. split; [|done].
    rewrite !lookup_insert_ne; [done|done|]. intros ->. destruct Hl as [y Hy].
    destruct (c_ents H _ _ Hy). apply Hl'. destruct b; set_solver.
  - intros kh l Hd. destruct (decide (e = l)) as [->|Hne].
    + exists x. split; [by simplify_map_eq|]. symmetry. by apply Hkh.
    + rewrite lookup_insert_ne by done. by apply (c_dict H).
  - intros l Hl. cbn. pose proof (core_not_D s G p H Hpin).
    rewrite !lookup_insert_ne by (destruct b; congruence). done.
Qed.
End steps.
Section steps2.
Context (L U : loc) (cap : Z) (D : gset loc) (F : heap).
#[local] Abbreviation core := (core L U cap D F).
#[local] Abbreviation node_ok := (node_ok L U D).
Implicit Types (s : state) (G : ghost).

(** The invariant after a change of the members of one entry other than the
    links. *)
Lemma core_node s G h' l x :
  core s G -> is_Some (g_ents G !! l) -> node_ok h' l x ->
  (forall e, g_ents G !! l = Some e -> e_handle x = e_handle e) ->
  alloc h' = alloc (fst s) -> next h' = next (fst s) -> prev h' = prev (fst s) -> next_hash h' = next_hash (fst s) ->
  calls h' = calls (fst s) ->
  (forall y, y <> l -> handle h' !! y = handle (fst s) !! y /\ refs h' !! y = refs (fst s) !! y /\
                       in_cache h' !! y = in_cache (fst s) !! y) ->
  core (h', snd s) (Ghost (g_lru G) (g_use G) (<[l := x]> (g_ents G)) (g_dict G) (g_usage G) (g_calls G)).
Proof.
  intros H [e0 Hl] Hx Hhd Ea En Ep Enh Ec Hsame. split; cbn [fst snd g_lru g_use g_ents g_dict g_usage g_calls].
  - rewrite Ec. apply (c_fields H).
  - apply (c_nodup H).
  - rewrite En, Ep. apply (c_lru H).
  - rewrite En, Ep. apply (c_use H).
  - intros y Hy. destruct (decide (l = y)) as [->|?]; [by simplify_map_eq|].
    rewrite lookup_insert_ne by done. by apply (c_rings H).
  - intros y e [[<- <-]|[Hne Hy]]%lookup_insert_Some; [done|].
    destruct (c_ents H _ _ Hy). destruct (Hsame y ltac:(done)) as (E1 & E2 & E3).
    split; rewrite ?E1, ?E2, ?E3, ?Ea; done.
  - intros y Hy. rewrite En. apply (c_out H). destruct (decide (l = y)) as [->|?]; [by eexists|].
    by rewrite lookup_insert_ne in Hy.
  - rewrite Enh. apply (c_table H).
  - intros kh y (e & He & Hk)%(c_dict H). destruct (decide (l = y)) as [->|?].
    + exists x. split; [by simplify_map_eq|]. by rewrite (Hhd e He).
    + exists e. by rewrite lookup_insert_ne.
  - rewrite Ea. apply (c_heads H).
  - intros y Hy. rewrite Ea. destruct (c_frame H y Hy) as (? & Hs). split; [done|].
    assert (y <> l) by (intros ->; by apply (n_loc Hx)). destruct (Hsame y ltac:(done)) as (E1 & E2 & E3).
    unfold same_at in *. by rewrite E1, E2, E3, En, Ep, Enh.
Qed.

Lemma wp_set_refs s G e x r Q :
  core s G -> g_ents G !! e = Some x ->
  (forall s', core s' (Ghost (g_lru G) (g_use G) (<[e := Ent (e_handle x) r (e_in x)]> (g_ents G)) (g_dict G)
                         (g_usage G) (g_calls G)) -> Q tt s') -> wp (set_refs e r) Q s.
Proof.
  intros H Hx HQ. pose proof (c_ents H _ _ Hx) as [? ? ? ? ? ?]. destruct s as [h c].
  apply wp_write; [done|]. apply HQ.
  apply (core_node (h, c)); try done; [split; cbn; try done; by rewrite lookup_insert_eq|intros ? ?; cbn; congruence|].
  intros y Hy. cbn. by rewrite lookup_insert_ne.
Qed.
Lemma wp_set_in_cache s G e x b Q :
  core s G -> g_ents G !! e = Some x ->
  (forall s', core s' (Ghost (g_lru G) (g_use G) (<[e := Ent (e_handle x) (e_refs x) b]> (g_ents G)) (g_dict G)
                         (g_usage G) (g_calls G)) -> Q tt s') -> wp (set_in_cache e b) Q s.
Proof.
  intros H Hx HQ. pose proof (c_ents H _ _ Hx) as [? ? ? ? ? ?]. destruct s as [h c].
  apply wp_write; [done|]. apply HQ.
  apply (core_node (h, c)); try done; [split; cbn; try done; by rewrite lookup_insert_eq|intros ? ?; cbn; congruence|].
  intros y Hy. cbn. by rewrite lookup_insert_ne.
Qed.
Lemma wp_set_usage s G u Q :
  core s G ->
  (forall s', core s' (Ghost (g_lru G) (g_use G) (g_ents G) (g_dict G) u (g_calls G)) -> Q tt s') ->
  wp (set_usage u) Q s.
Proof.
  intros H HQ. destruct s as [h c]. apply HQ. destruct H as [(? & ? & ? & ? & ?) ? ? ? ? ? ? ? ? ? ?]. by split.
Qed.
Lemma wp_call_deleter s G d k v Q :
  core s G ->
  (forall s', core s' (Ghost (g_lru G) (g_use G) (g_ents G) (g_dict G) (g_usage G) (g_calls G ++ [(d, (k, v))])) ->
     Q tt s') -> wp (call_deleter d k v) Q s.
Proof.
  intros H HQ. apply HQ. destruct H as [(? & ? & ? & ? & E) ? ? ? ? Hents ? ? ? ? ?].
  split; try done; [cbn; by rewrite E|]. intros l e Hl. by destruct (Hents l e Hl).
Qed.

Lemma wp_free s G e Q :
  core s G -> is_Some (g_ents G !! e) -> e ∉ g_lru G ++ g_use G -> (forall kh, g_dict G !! kh <> Some e) ->
  (forall s', core s' (Ghost (g_lru G) (g_use G) (delete e (g_ents G)) (g_dict G) (g_usage G) (g_calls G)) ->
     Q tt s') -> wp (free e) Q s.
Proof.
  intros H [x Hx] He Hd HQ. pose proof (c_ents H _ _ Hx) as [_ _ _ _ Hea (He0 & HeL & HeU & HeD)].
  destruct s as [h c]. apply wp_write; [done|]. apply HQ.
  assert (HR : forall X xs, X <> e -> e ∉ xs -> ring (next h) (prev h) X xs ->
            ring (delete e (next h)) (delete e (prev h)) X xs).
  { intros X xs HX Hxs [H1 H2]. split.
    - apply (chain_ext (next h) _ (X :: xs)); [|done]. intros y Hy. apply lookup_delete_ne. set_solver.
    - apply (chain_ext (prev h) _ (X :: reverse xs)); [|done]. intros y Hy. apply lookup_delete_ne. set_solver. }
  split; cbn [fst snd g_lru g_use g_ents g_dict g_usage g_calls].
  - apply (c_fields H).
  - apply (c_nodup H).
  - apply HR; [congruence|set_solver|apply (c_lru H)].
  - apply HR; [congruence|set_solver|apply (c_use H)].
  - intros y Hy. rewrite lookup_delete_ne by set_solver. by apply (c_rings H).
  - intros y z [Hne Hy]%lookup_delete_Some. destruct (c_ents H _ _ Hy).
    split; cbn; rewrite ?lookup_delete_ne by done; try done. set_solver.
  - intros y [z [Hne Hy]%lookup_delete_Some] Hy'. cbn. rewrite lookup_delete_ne by done.
    apply (c_out H); [by eexists|done].
  - destruct (c_table H) as ((bs & Hb) & ?). split; [|done]. exists bs. destruct Hb as [? ? ? Hel ?]. split; try done.
    eapply chains_ext; [|done]. intros y Hy. cbn. apply lookup_delete_ne. intros <-.
    apply elem_concat_lookup in Hy as (i & b & Hi & Hy). destruct (Hel i b e Hi Hy) as (kh & Hkh & _). by apply (Hd kh).
  - intros kh y Hk. destruct (c_dict H _ _ Hk) as (z & Hz & ?). exists z. split; [|done].
    rewrite lookup_delete_ne; [done|]. intros <-. by apply (Hd kh).
  - destruct (c_heads H) as (? & ? & ? & ? & ? & ? & ?). set_solver.
  - intros y Hy. destruct (c_frame H y Hy) as (? & Hs). split; [set_solver|].
    assert (e <> y) by congruence. unfold same_at in *. cbn. by rewrite !lookup_delete_ne.
Qed.

(** A change of the table and of the [next_hash] members. *)
Lemma core_tstate s G nh t d :
  core s G -> table_ok nh t d ->
  (forall kh l, d !! kh = Some l -> exists e, g_ents G !! l = Some e /\ hkey (e_handle e) = kh) ->
  (forall l, l ∈ D -> nh !! l = next_hash (fst s) !! l) ->
  core (tstate s nh t) (Ghost (g_lru G) (g_use G) (g_ents G) d (g_usage G) (g_calls G)).
Proof.
  intros H Ht Hd HD. destruct H as [(? & ? & ? & ? & E) ? ? ? ? Hents ? ? ? ? Hfr]. split; try done.
  - intros l e Hl. by destruct (Hents l e Hl).
  - intros l Hl. destruct (Hfr l Hl) as (? & Hs). split; [done|]. unfold same_at in *. cbn. by rewrite HD.
Qed.

Lemma core_not_dict_D s G l : core s G -> l ∈ D -> forall kh, g_dict G !! kh <> Some l.
Proof.
  intros H Hl kh (e & He & _)%(c_dict H). by apply (n_loc (c_ents H _ _ He)).
Qed.

Lemma wp_table_Lookup s G k h Q :
  core s G -> is_uint 32 h -> Q (default nullptr (g_dict G !! (k, h))) s -> wp (HandleTable_Lookup k h) Q s.
Proof.
  intros H Hh HQ. rewrite (tstate_id s) in HQ |- *. eapply wp_HandleTable_Lookup; [apply (c_table H)|apply (core_keyed H)|done|done].
Qed.
Lemma wp_table_Remove s G k h Q :
  core s G -> is_uint 32 h ->
  (forall s', core s' (Ghost (g_lru G) (g_use G) (g_ents G) (delete (k, h) (g_dict G)) (g_usage G) (g_calls G)) ->
     Q (default nullptr (g_dict G !! (k, h))) s') -> wp (HandleTable_Remove k h) Q s.
Proof.
  intros H Hh HQ. rewrite (tstate_id s). eapply wp_HandleTable_Remove; [apply (c_table H)|apply (core_keyed H)|done|].
  intros nh t Ht Hfr. apply HQ, core_tstate; [done|done| |].
  - intros kh l [_ Hl]%lookup_delete_Some. by apply (c_dict H).
  - intros l Hl. by apply Hfr, (core_not_dict_D s).
Qed.
Lemma wp_table_Insert s G e x Q :
  core s G -> g_ents G !! e = Some x -> (forall kh, g_dict G !! kh <> Some e) -> Z.of_nat (size (g_dict G)) < 2 ^ 31 ->
  (forall s', core s' (Ghost (g_lru G) (g_use G) (g_ents G) (<[hkey (e_handle x) := e]> (g_dict G)) (g_usage G) (g_calls G)) ->
     Q (default nullptr (g_dict G !! hkey (e_handle x))) s') -> wp (HandleTable_Insert e) Q s.
Proof.
  intros H Hx Hd Hs HQ. pose proof (n_loc (c_ents H _ _ Hx)) as (He0 & _ & _ & HeD). rewrite (tstate_id s).
  eapply wp_HandleTable_Insert; [apply (c_table H)|apply (core_keyed H)|by eapply (core_readable H)|done|done|done|].
  intros nh t Ht Hfr. apply HQ, core_tstate; [done|done| |].
  - intros kh l [[<- <-]|[_ Hl]]%lookup_insert_Some; [by exists x|]. by apply (c_dict H).
  - intros l Hl. apply Hfr; [congruence|]. by apply (core_not_dict_D s).
Qed.
End steps2.
Section refs.
Context (L U : loc) (cap : Z) (D : gset loc) (F : heap).
#[local] Abbreviation core := (core L U cap D F).
Implicit Types (s : state) (G : ghost).

Lemma wp_get_core s G Q :
  core s G -> (forall c, capacity_ c = cap -> lru_ c = L -> in_use_ c = U -> usage_ c = g_usage G -> Q c s) ->
  wp get Q s.
Proof. intros H HQ. destruct (c_fields H) as (? & ? & ? & ? & _). by apply wp_get, HQ. Qed.

Lemma wp_load_ent {A} (f : heap -> gmap loc A) s e v Q : f (fst s) !! e = Some v -> Q v s -> wp (load f e) Q s.
Proof. intros. by eapply wp_load. Qed.

(** Moving an entry from one list to the other. *)
Lemma wp_move (b : bool) s G e x Q :
  core s G -> g_ents G !! e = Some x -> e ∈ g_lru G ++ g_use G ->
  (forall s', core s' (Ghost (if b then rm e (g_lru G) else rm e (g_lru G) ++ [e])
                        (if b then rm e (g_use G) ++ [e] else rm e (g_use G))
                        (g_ents G) (g_dict G) (g_usage G) (g_calls G)) -> Q tt s') ->
  wp (LRU_Remove e ;; LRU_Append (if b then U else L) e) Q s.
Proof.
  intros H Hx He HQ. apply wp_bind. apply (wp_LRU_Remove L U cap D F s G); [done..|]. intros s1 H1.
  eapply (wp_LRU_Append L U cap D F b s1 _ e x); [exact H1| |by apply (c_ents H1)| |].
  - cbn. rewrite <-rm_app, elem_of_rm. naive_solver.
  - cbn. intros kh (y & Hy & <-)%(c_dict H). congruence.
  - cbn. intros s2 H2. rewrite insert_id in H2 by done. by apply HQ.
Qed.

Lemma wp_Ref s G e x Q :
  core s G -> g_ents G !! e = Some x -> 0 <= e_refs x < 2 ^ 32 - 1 ->
  (e_refs x = 1 -> e_in x = true -> e ∈ g_lru G) ->
  (forall s' lru use, 
     (if (e_refs x =? 1) && e_in x then lru = rm e (g_lru G) /\ use = rm e (g_use G) ++ [e]
      else lru = g_lru G /\ use = g_use G) ->
     core s' (Ghost lru use (<[e := Ent (e_handle x) (e_refs x + 1) (e_in x)]> (g_ents G))
                        (g_dict G) (g_usage G) (g_calls G)) -> Q tt s') ->
  wp (Ref e) Q s.
Proof.
  intros H Hx Hr He HQ. unfold Ref.
  assert (Step2 : forall s1 lru use,
    (if (e_refs x =? 1) && e_in x then lru = rm e (g_lru G) /\ use = rm e (g_use G) ++ [e]
      else lru = g_lru G /\ use = g_use G) ->
    core s1 (Ghost lru use (g_ents G) (g_dict G) (g_usage G) (g_calls G)) ->
    wp (r ← load refs e; set_refs e (u32 (r + 1))) Q s1).
  { intros s1 lru use Hc H1. pose proof (c_ents H1 e x Hx) as Hn.
    apply wp_bind, wp_load_ent with (e_refs x); [apply (n_refs Hn)|]. rewrite wrap_small by (unfold is_uint; lia).
    eapply wp_set_refs; [exact H1|exact Hx|]. intros s2 H2. by eapply HQ. }
  pose proof (c_ents H e x Hx) as Hn.
  apply wp_bind, wp_load_ent with (e_refs x); [apply (n_refs Hn)|]. apply wp_bind.
  destruct (Z.eqb_spec (e_refs x) 1) as [E1|E1]; [|by apply wp_ret, (Step2 s (g_lru G) (g_use G)); destruct G].
  apply wp_bind, wp_load_ent with (e_in x); [apply (n_in Hn)|].
  destruct (e_in x) eqn:Ei; [|by apply wp_ret, (Step2 s (g_lru G) (g_use G)); destruct G].
  eapply wp_bind, wp_get_core; [done|]. intros c _ _ -> _. cbn [andb] in *.
  eapply (wp_move true s G); [done|done|set_solver|]. intros s1 H1. by eapply Step2.
Qed.

Lemma wp_Unref s G e x Q :
  core s G -> g_ents G !! e = Some x -> 0 < e_refs x < 2 ^ 32 ->
  (e_in x = false -> (e ∉ g_lru G ++ g_use G) /\ forall kh, g_dict G !! kh <> Some e) ->
  (e_in x = true -> e ∈ g_use G /\ e_refs x <> 1) ->
  (forall s', core s' (
     if e_refs x =? 1 then
       Ghost (g_lru G) (g_use G) (delete e (g_ents G)) (g_dict G) (g_usage G)
         (g_calls G ++ [(deleter (e_handle x), (key_data (e_handle x), value (e_handle x)))])
     else
       let m := e_in x && (e_refs x =? 2) in
       Ghost (if m then rm e (g_lru G) ++ [e] else g_lru G) (if m then rm e (g_use G) else g_use G)
         (<[e := Ent (e_handle x) (e_refs x - 1) (e_in x)]> (g_ents G)) (g_dict G) (g_usage G) (g_calls G)) ->
     Q tt s') ->
  wp (Unref e) Q s.
Proof.
  intros H Hx Hr Hout Hin HQ. unfold Unref. pose proof (c_ents H e x Hx) as Hn.
  apply wp_bind, wp_load_ent with (e_refs x); [apply (n_refs Hn)|].
  apply wp_bind, wp_assert; [rewrite Z.gtb_ltb; apply Z.ltb_lt; lia|]. rewrite wrap_small by (unfold is_uint; lia).
  eapply wp_bind, wp_set_refs; [exact H|exact Hx|]. intros s1 H1. set (x1 := Ent _ _ _) in H1.
  assert (Hx1 : <[e:=x1]> (g_ents G) !! e = Some x1) by (by rewrite lookup_insert_eq).
  pose proof (c_ents H1 e x1 Hx1) as Hn1.
  apply wp_bind, wp_load_ent with (e_refs x - 1); [apply (n_refs Hn1)|].
  destruct (Z.eqb_spec (e_refs x - 1) 0) as [E|E].
  - rewrite (proj2 (Z.eqb_eq (e_refs x) 1)) in HQ by lia.
    assert (Ei : e_in x = false) by (destruct (e_in x); [|done]; destruct (Hin eq_refl); lia).
    destruct (Hout Ei) as [He Hd].
    apply wp_bind, wp_load_ent with (e_in x); [apply (n_in Hn1)|]. apply wp_bind, wp_assert; [by rewrite Ei|].
    apply wp_bind, wp_load_ent with (e_handle x); [apply (n_handle Hn1)|].
    eapply wp_bind, wp_key; [by apply (core_readable H1 Hx1)|]. cbn [hkey fst].
    eapply wp_bind, wp_call_deleter; [exact H1|]. intros s2 H2.
    eapply wp_free; [exact H2|by eexists|done|done|]. cbn. rewrite delete_insert_eq. apply HQ.
  - rewrite (proj2 (Z.eqb_neq (e_refs x) 1)) in HQ by lia. cbv zeta in HQ.
    apply wp_bind, wp_load_ent with (e_in x); [apply (n_in Hn1)|].
    replace (e_refs x - 1 =? 1) with (e_refs x =? 2) by (destruct (Z.eqb_spec (e_refs x) 2), (Z.eqb_spec (e_refs x - 1) 1); lia).
    destruct (e_in x && (e_refs x =? 2)) eqn:Em; [|by apply wp_ret, HQ].
    apply andb_prop in Em as [Ei _]. destruct (Hin Ei) as [He _].
    eapply wp_bind, wp_get_core; [done|]. intros c _ -> _ _.
    eapply (wp_move false s1); [exact H1|exact Hx1|cbn; set_solver|]. intros s2 H2. by apply HQ.
Qed.

Lemma wp_FinishErase s G e x Q :
  core s G -> g_ents G !! e = Some x -> e_in x = true -> 0 < e_refs x < 2 ^ 32 -> e ∈ g_lru G ++ g_use G ->
  (forall kh, g_dict G !! kh <> Some e) ->
  (forall s', core s' (
     let u := u64 (g_usage G - charge (e_handle x)) in
     if e_refs x =? 1 then
       Ghost (rm e (g_lru G)) (rm e (g_use G)) (delete e (g_ents G)) (g_dict G) u
         (g_calls G ++ [(deleter (e_handle x), (key_data (e_handle x), value (e_handle x)))])
     else
       Ghost (rm e (g_lru G)) (rm e (g_use G))
         (<[e := Ent (e_handle x) (e_refs x - 1) false]> (g_ents G)) (g_dict G) u (g_calls G)) ->
     Q true s') ->
  wp (FinishErase e) Q s.
Proof.
  intros H Hx Ei Hr He Hd HQ. unfold FinishErase. pose proof (c_ents H e x Hx) as Hn.
  destruct (n_loc Hn) as (He0 & _). rewrite (proj2 (N.eqb_neq e nullptr)) by done. cbn [negb].
  apply wp_bind, wp_bind, wp_load_ent with (e_in x); [apply (n_in Hn)|]. apply wp_bind, wp_assert; [done|].
  eapply wp_bind, wp_LRU_Remove; [done..|]. intros s1 H1. eapply wp_bind, wp_set_in_cache; [exact H1|exact Hx|].
  intros s2 H2. cbn in H2. set (x1 := Ent _ _ _) in H2.
  assert (Hx1 : <[e:=x1]> (g_ents G) !! e = Some x1) by (by rewrite lookup_insert_eq).
  pose proof (c_ents H2 e x1 Hx1) as Hn1. eapply wp_bind, wp_get_core; [done|]. cbn. intros c _ _ _ ->.
  apply wp_bind, wp_load_ent with (e_handle x); [apply (n_handle Hn1)|].
  eapply wp_bind, wp_set_usage; [exact H2|]. cbn. intros s3 H3.
  eapply wp_Unref; [exact H3|exact Hx1|done| |by cbn|].
  - intros _. cbn. rewrite <-rm_app, elem_of_rm. split; [naive_solver|done].
  - cbn. intros s4 H4. apply wp_ret, HQ. cbv zeta.
    destruct (e_refs x =? 1); [by rewrite delete_insert_eq in H4|by rewrite insert_insert_eq in H4].
Qed.
Lemma wp_FinishErase_null s (Q : bool -> state -> Prop) : Q false s -> wp (FinishErase nullptr) Q s.
Proof. done. Qed.
End refs.
