(* ===== verification/LRUSpec.v ===== *)
(** * LRUSpec: what a shard of the cache promises

    The specification of LRUCache as pure functions on a dictionary, a recency
    list and handle counts, and the proof that the code on memory implements it. *)

From S2P Require Import Prelude CacheMem HandleTable LRUCache.
#[local] Open Scope Z_scope.

(** ** The specification *)

(** What a client sees of a shard: the live entries with the number of handles
    out on each, the dictionary of the cached ones, those without handles from the
    oldest to the newest, and the deleter calls made. *)
Record Spec := {
  sp_entries : gmap loc (LRUHandle * nat);
  sp_dict : gmap (bytes * Z) loc;
  sp_lru : list loc;
  sp_calls : list (Z * (bytes * Z))
}.

Definition sp_charge (sp : Spec) (l : loc) : Z :=
  match sp_entries sp !! l with Some (e, _) => charge e | None => 0 end.
Definition total (ch : loc -> Z) (d : gmap (bytes * Z) loc) : Z := map_fold (fun _ l n => ch l + n) 0 d.
(** The sum of the charges of the cached entries, as the counter holds it. *)
Definition sp_usage (sp : Spec) : Z := u64 (total (sp_charge sp) (sp_dict sp)).

Definition is_cached (d : gmap (bytes * Z) loc) (l : loc) (e : LRUHandle) : bool :=
  bool_decide (d !! hkey e = Some l).

Definition the_call (e : LRUHandle) : Z * (bytes * Z) := (deleter e, (key_data e, value e)).

(** The entry dies: its deleter is called. *)
Definition sp_destroy (l : loc) (e : LRUHandle) (sp : Spec) : Spec :=
  {| sp_entries := delete l (sp_entries sp); sp_dict := sp_dict sp; sp_lru := sp_lru sp;
     sp_calls := sp_calls sp ++ [the_call e] |}.

Definition sp_Lookup (kh : bytes * Z) (sp : Spec) : loc * Spec :=
  match sp_dict sp !! kh with
  | None => (nullptr, sp)
  | Some l =>
      match sp_entries sp !! l with
      | None => (nullptr, sp)
      | Some (e, n) =>
          (l, {| sp_entries := <[l := (e, S n)]> (sp_entries sp); sp_dict := sp_dict sp;
                 sp_lru := rm l (sp_lru sp); sp_calls := sp_calls sp |})
      end
  end.

Definition sp_Release (l : loc) (sp : Spec) : Spec :=
  match sp_entries sp !! l with
  | Some (e, 1%nat) =>
      if is_cached (sp_dict sp) l e then
        {| sp_entries := <[l := (e, 0%nat)]> (sp_entries sp); sp_dict := sp_dict sp;
           sp_lru := sp_lru sp ++ [l]; sp_calls := sp_calls sp |}
      else sp_destroy l e sp
  | Some (e, S n) =>
      {| sp_entries := <[l := (e, n)]> (sp_entries sp); sp_dict := sp_dict sp;
         sp_lru := sp_lru sp; sp_calls := sp_calls sp |}
  | _ => sp
  end.

Definition sp_Erase (kh : bytes * Z) (sp : Spec) : Spec :=
  match sp_dict sp !! kh with
  | None => sp
  | Some l =>
      let sp' := {| sp_entries := sp_entries sp; sp_dict := delete kh (sp_dict sp);
                   sp_lru := rm l (sp_lru sp); sp_calls := sp_calls sp |} in
      match sp_entries sp !! l with
      | Some (e, O) => sp_destroy l e sp'
      | _ => sp'
      end
  end.

(** The oldest entry without handles is erased. *)
Definition sp_evict (sp : Spec) : Spec :=
  match sp_lru sp with
  | [] => sp
  | l :: _ => match sp_entries sp !! l with Some (e, _) => sp_Erase (hkey e) sp | None => sp end
  end.
Fixpoint sp_shrink (fuel : nat) (capacity : Z) (sp : Spec) : Spec :=
  match fuel with
  | O => sp
  | S fuel =>
      if (sp_usage sp >? capacity) && negb (bool_decide (sp_lru sp = []))
      then sp_shrink fuel capacity (sp_evict sp) else sp
  end.

Definition sp_add (capacity : Z) (l : loc) (e : LRUHandle) (sp : Spec) : Spec :=
  if capacity >? 0 then
    let sp' := sp_Erase (hkey e) sp in
    {| sp_entries := <[l := (e, 1%nat)]> (sp_entries sp'); sp_dict := <[hkey e := l]> (sp_dict sp');
       sp_lru := sp_lru sp'; sp_calls := sp_calls sp' |}
  else
    {| sp_entries := <[l := (e, 1%nat)]> (sp_entries sp); sp_dict := sp_dict sp;
       sp_lru := sp_lru sp; sp_calls := sp_calls sp |}.
Definition sp_Insert (capacity : Z) (l : loc) (e : LRUHandle) (sp : Spec) : Spec :=
  let sp' := sp_add capacity l e sp in sp_shrink (length (sp_lru sp')) capacity sp'.

Definition sp_Prune (sp : Spec) : Spec := Nat.iter (length (sp_lru sp)) sp_evict sp.

Definition sp_empty : Spec := {| sp_entries := ∅; sp_dict := ∅; sp_lru := []; sp_calls := [] |}.

(** The dictionary leads to live entries under their own key, the recency list
    holds each cached entry without handles once, an entry without handles is cached,
    and the reference counts fit their type. *)
Record spec_ok (sp : Spec) : Prop := {
  so_dict : forall kh l, sp_dict sp !! kh = Some l -> exists e n, sp_entries sp !! l = Some (e, n) /\ hkey e = kh;
  so_zero : forall l e, sp_entries sp !! l = Some (e, 0%nat) -> sp_dict sp !! hkey e = Some l;
  so_lru : forall l, l ∈ sp_lru sp <-> exists e, sp_entries sp !! l = Some (e, 0%nat);
  so_nodup : NoDup (sp_lru sp);
  so_count : forall l e n, sp_entries sp !! l = Some (e, n) -> Z.of_nat n < 2 ^ 32 - 1
}.

(** ** The sum of the charges *)

Lemma total_insert ch d k l : d !! k = None -> total ch (<[k := l]> d) = ch l + total ch d.
Proof. intros H. unfold total. rewrite map_fold_insert_L; [done| |done]. intros. lia. Qed.
Lemma total_delete ch d k l : d !! k = Some l -> total ch (delete k d) = total ch d - ch l.
Proof.
  intros H. rewrite <-(insert_delete_id d k l H) at 2. rewrite total_insert; [lia|]. apply lookup_delete_eq.
Qed.
Lemma total_ext ch ch' d : (forall k l, d !! k = Some l -> ch l = ch' l) -> total ch d = total ch' d.
Proof.
  induction d as [|k l d Hd IH] using map_ind; intros E; [done|]. rewrite !total_insert by done.
  rewrite (E k l) by (by rewrite lookup_insert_eq). f_equal. apply IH. intros k' l' H'. apply (E k').
  rewrite lookup_insert_ne; [done|]. intros ->. congruence.
Qed.

(** ** Entries in memory *)

(** The reference count of an entry: its handles, and the cache's own. *)
Definition ent_of (d : gmap (bytes * Z) loc) (l : loc) (x : LRUHandle * nat) : ent :=
  Ent (fst x) (Z.of_nat (snd x) + Z.b2z (is_cached d l (fst x))) (is_cached d l (fst x)).
Definition ents_of (d : gmap (bytes * Z) loc) (m : gmap loc (LRUHandle * nat)) : gmap loc ent :=
  map_imap (fun l x => Some (ent_of d l x)) m.

Lemma lookup_ents_of d m l : ents_of d m !! l = ent_of d l <$> m !! l.
Proof. unfold ents_of. rewrite map_lookup_imap. by destruct (m !! l). Qed.

(** The same handles with one entry and its place in the dictionary changed. *)
Lemma ents_of_update d m d' m' l (x : option ent) :
  (forall l', l' <> l -> m' !! l' = m !! l') ->
  (forall l' e n, l' <> l -> m !! l' = Some (e, n) -> is_cached d' l' e = is_cached d l' e) ->
  ent_of d' l <$> m' !! l = x ->
  ents_of d' m' = partial_alter (fun _ => x) l (ents_of d m).
Proof.
  intros Hm Hd Hl. apply map_eq. intros y. rewrite lookup_ents_of. destruct (decide (l = y)) as [<-|Hne].
  - by rewrite lookup_partial_alter_eq.
  - rewrite lookup_partial_alter_ne, lookup_ents_of, Hm by done. destruct (m !! y) as [[e n]|] eqn:E; [|done].
    cbn. f_equal. unfold ent_of. cbn. by rewrite (Hd y e n).
Qed.
Lemma ents_of_insert d m d' l e n :
  (forall l' e' n', l' <> l -> m !! l' = Some (e', n') -> is_cached d' l' e' = is_cached d l' e') ->
  ents_of d' (<[l := (e, n)]> m) = <[l := ent_of d' l (e, n)]> (ents_of d m).
Proof.
  intros Hd. apply ents_of_update; [|done|by rewrite lookup_insert_eq].
  intros. by rewrite lookup_insert_ne.
Qed.
Lemma ents_of_delete d m d' l :
  (forall l' e' n', l' <> l -> m !! l' = Some (e', n') -> is_cached d' l' e' = is_cached d l' e') ->
  ents_of d' (delete l m) = delete l (ents_of d m).
Proof.
  intros Hd. apply ents_of_update; [|done|by rewrite lookup_delete_eq].
  intros. by rewrite lookup_delete_ne.
Qed.
(** ** The abstract invariant *)

Lemma is_cached_true d l e : is_cached d l e = true <-> d !! hkey e = Some l.
Proof. apply bool_decide_eq_true. Qed.
Lemma is_cached_false d l e : is_cached d l e = false <-> d !! hkey e <> Some l.
Proof. apply bool_decide_eq_false. Qed.

Lemma so_inj sp kh kh' l : spec_ok sp -> sp_dict sp !! kh = Some l -> sp_dict sp !! kh' = Some l -> kh = kh'.
Proof. intros H (e & n & E & <-)%(so_dict _ H) (e' & n' & E' & <-)%(so_dict _ H). congruence. Qed.

Lemma so_cached sp kh l :
  spec_ok sp -> sp_dict sp !! kh = Some l ->
  exists e n, sp_entries sp !! l = Some (e, n) /\ kh = hkey e /\ is_cached (sp_dict sp) l e = true /\
    (l ∈ sp_lru sp <-> n = 0%nat).
Proof.
  intros H Hd. destruct (so_dict _ H kh l Hd) as (e & n & He & <-). exists e, n.
  rewrite is_cached_true, (so_lru _ H), He. naive_solver.
Qed.

(** Changing the number of handles on an entry. *)
Lemma spec_ok_count sp l e n0 n lru :
  spec_ok sp -> sp_entries sp !! l = Some (e, n0) -> Z.of_nat n < 2 ^ 32 - 1 ->
  (n = 0%nat -> sp_dict sp !! hkey e = Some l) -> NoDup lru ->
  (forall l', l' ∈ lru <-> (l' <> l /\ l' ∈ sp_lru sp) \/ (l' = l /\ n = 0%nat)) ->
  spec_ok {| sp_entries := <[l := (e, n)]> (sp_entries sp); sp_dict := sp_dict sp; sp_lru := lru;
             sp_calls := sp_calls sp |}.
Proof.
  intros H He Hn Hz HN Hlru. split; cbn; [| | |done|].
  - intros kh l' (e' & n' & He' & <-)%(so_dict _ H). destruct (decide (l = l')) as [<-|?].
    + exists e, n. rewrite lookup_insert_eq. naive_solver.
    + exists e', n'. by rewrite lookup_insert_ne.
  - intros l' e' [[<- [= <- ->]]|[_ He']]%lookup_insert_Some; [by apply Hz|by apply (so_zero _ H)].
  - intros l'. rewrite Hlru, (so_lru _ H). destruct (decide (l = l')) as [<-|?].
    + rewrite lookup_insert_eq. naive_solver.
    + rewrite lookup_insert_ne by done. naive_solver.
  - intros l' e' n' [[_ [= <- <-]]|[_ He']]%lookup_insert_Some; [done|by eapply so_count].
Qed.

Lemma sp_Lookup_ok kh sp :
  spec_ok sp ->
  (forall l e n, sp_dict sp !! kh = Some l -> sp_entries sp !! l = Some (e, n) -> Z.of_nat n < 2 ^ 32 - 2) ->
  spec_ok (snd (sp_Lookup kh sp)).
Proof.
  intros H Hc. unfold sp_Lookup. destruct (sp_dict sp !! kh) as [l|] eqn:Ed; [|done].
  destruct (sp_entries sp !! l) as [[e n]|] eqn:He; [|done]. pose proof (Hc l e n eq_refl He).
  eapply spec_ok_count; [done|done|lia|done|by apply NoDup_rm, (so_nodup _ H)|].
  intros l'. rewrite elem_of_rm. naive_solver.
Qed.

Lemma sp_Release_ok l sp : spec_ok sp -> spec_ok (sp_Release l sp).
Proof.
  intros H. unfold sp_Release. destruct (sp_entries sp !! l) as [[e [|n]]|] eqn:He; [done| |done].
  pose proof (so_count _ H l e _ He) as Hc.
  assert (Hl : l ∉ sp_lru sp) by (rewrite (so_lru _ H), He; naive_solver).
  assert (Hne : forall l', l' ∈ sp_lru sp -> l' <> l) by congruence.
  destruct n as [|n].
  - destruct (is_cached (sp_dict sp) l e) eqn:Ec.
    + apply is_cached_true in Ec. eapply spec_ok_count; [done|done|lia|done| |].
      * apply NoDup_app. split; [apply (so_nodup _ H)|]. split; [set_solver|apply NoDup_singleton].
      * intros l'. rewrite elem_of_app, list_elem_of_singleton. naive_solver.
    + apply is_cached_false in Ec. split; cbn.
      * intros kh l' Hd. destruct (so_dict _ H kh l' Hd) as (e' & n' & He' & <-). exists e', n'.
        rewrite lookup_delete_ne; [done|]. naive_solver.
      * intros l' e' [_ He']%lookup_delete_Some. by apply (so_zero _ H).
      * intros l'. rewrite (so_lru _ H). destruct (decide (l = l')) as [<-|?];
          [rewrite lookup_delete_eq; naive_solver|by rewrite lookup_delete_ne].
      * apply (so_nodup _ H).
      * intros l' e' n' [_ He']%lookup_delete_Some. by eapply so_count.
  - eapply spec_ok_count; [done|done|lia|done|apply (so_nodup _ H)|]. naive_solver.
Qed.

Lemma sp_Erase_ok kh sp : spec_ok sp -> spec_ok (sp_Erase kh sp).
Proof.
  intros H. unfold sp_Erase. destruct (sp_dict sp !! kh) as [l|] eqn:Ed; [|done].
  destruct (so_cached _ _ _ H Ed) as (e & n & He & -> & _ & Hlru). rewrite He.
  assert (Hdict : forall kh' l', delete (hkey e) (sp_dict sp) !! kh' = Some l' -> l' <> l /\ sp_dict sp !! kh' = Some l').
  { intros kh' l' [Hne Hd]%lookup_delete_Some. split; [|done]. intros ->. apply Hne. by eapply so_inj. }
  assert (Hzero : forall l' e', l' <> l -> sp_entries sp !! l' = Some (e', 0%nat) ->
            delete (hkey e) (sp_dict sp) !! hkey e' = Some l').
  { intros l' e' Hne He'%(so_zero _ H). rewrite lookup_delete_ne; [done|]. congruence. }
  destruct n as [|n]; split; cbn.
  - intros kh' l' [Hne Hd]%Hdict. destruct (so_dict _ H _ _ Hd) as (e' & n' & He' & ?). exists e', n'.
    by rewrite lookup_delete_ne.
  - intros l' e' [Hne He']%lookup_delete_Some. by apply Hzero.
  - intros l'. rewrite elem_of_rm, (so_lru _ H). destruct (decide (l = l')) as [<-|?].
    + rewrite lookup_delete_eq. naive_solver.
    + rewrite lookup_delete_ne by done. naive_solver.
  - apply NoDup_rm, (so_nodup _ H).
  - intros l' e' n' [_ He']%lookup_delete_Some. by eapply so_count.
  - intros kh' l' [Hne Hd]%Hdict. by apply (so_dict _ H).
  - intros l' e' He'. apply Hzero; [congruence|done].
  - intros l'. rewrite elem_of_rm, (so_lru _ H). naive_solver.
  - apply NoDup_rm, (so_nodup _ H).
  - apply (so_count _ H).
Qed.

Lemma sp_evict_ok sp : spec_ok sp -> spec_ok (sp_evict sp).
Proof.
  intros H. unfold sp_evict. destruct (sp_lru sp) as [|l lru]; [done|].
  destruct (sp_entries sp !! l) as [[e n]|]; [by apply sp_Erase_ok|done].
Qed.
Lemma sp_shrink_ok fuel capacity sp : spec_ok sp -> spec_ok (sp_shrink fuel capacity sp).
Proof.
  revert sp. induction fuel as [|fuel IH]; intros sp H; [done|]. cbn [sp_shrink].
  destruct (_ && _); [|done]. by apply IH, sp_evict_ok.
Qed.

Lemma sp_add_ok capacity l e sp : spec_ok sp -> sp_entries sp !! l = None -> spec_ok (sp_add capacity l e sp).
Proof.
  intros H Hl. unfold sp_add.
  assert (Hadd : forall sp' d, spec_ok sp' -> sp_entries sp' !! l = None ->
    (d = sp_dict sp' \/ sp_dict sp' !! hkey e = None /\ d = <[hkey e := l]> (sp_dict sp')) ->
    spec_ok {| sp_entries := <[l := (e, 1%nat)]> (sp_entries sp'); sp_dict := d; sp_lru := sp_lru sp'; sp_calls := sp_calls sp' |}).
  { clear. intros sp' d H Hl Hd. split; cbn.
    - intros kh l' Hk. destruct (decide (l = l')) as [<-|Hne].
      + exists e, 1%nat. rewrite lookup_insert_eq. split; [done|]. destruct Hd as [->|[_ ->]].
        * destruct (so_dict _ H _ _ Hk) as (? & ? & ? & _). congruence.
        * apply lookup_insert_Some in Hk as [[<- _]|[_ Hk]]; [done|].
          destruct (so_dict _ H _ _ Hk) as (? & ? & ? & _). congruence.
      + rewrite lookup_insert_ne by done. apply (so_dict _ H). destruct Hd as [->|[_ ->]]; [done|].
        apply lookup_insert_Some in Hk as [[_ ?]|[_ Hk]]; [congruence|done].
    - intros l' e' [[_ [=]]|[Hne He']]%lookup_insert_Some. pose proof (so_zero _ H _ _ He') as Hz.
      destruct Hd as [->|[Hn ->]]; [done|]. rewrite lookup_insert_ne; [done|]. congruence.
    - intros l'. rewrite (so_lru _ H). destruct (decide (l = l')) as [<-|?].
      + rewrite lookup_insert_eq. naive_solver.
      + by rewrite lookup_insert_ne.
    - apply (so_nodup _ H).
    - intros l' e' n' [[_ [= <- <-]]|[_ He']]%lookup_insert_Some; [by vm_compute|by eapply so_count]. }
  destruct (capacity >? 0); [|by apply Hadd; [| |left]]. apply Hadd; [by apply sp_Erase_ok| |right; split; [|done]].
  - unfold sp_Erase. destruct (sp_dict sp !! hkey e) as [l'|]; [|done].
    destruct (sp_entries sp !! l') as [[e' [|n]]|]; cbn; [|done|done]. by rewrite lookup_delete_None; right.
  - unfold sp_Erase. destruct (sp_dict sp !! hkey e) as [l'|] eqn:Ed; [|done].
    destruct (sp_entries sp !! l') as [[e' [|n]]|]; cbn; apply lookup_delete_eq.
Qed.
(** ** The refinement *)

(** The in-use list: the cached entries with handles out. *)
Definition in_use_ok (sp : Spec) (use : list loc) : Prop :=
  forall l, l ∈ use <-> exists e n, sp_entries sp !! l = Some (e, S n) /\ sp_dict sp !! hkey e = Some l.

Lemma usage_ext sp sp' :
  sp_dict sp' = sp_dict sp ->
  (forall kh l, sp_dict sp !! kh = Some l -> sp_charge sp' l = sp_charge sp l) -> sp_usage sp' = sp_usage sp.
Proof. intros Ed Hc. unfold sp_usage. rewrite Ed. f_equal. by apply total_ext. Qed.

Section refine.
Context (L U : loc) (cap : Z) (D : gset loc) (F : heap).
#[local] Abbreviation core := (core L U cap D F).
Implicit Types (s : state) (G : ghost) (sp : Spec).

(** The shard in memory [s] holds the abstract state [sp]: the LRU list is the
    recency list, and the in-use list is in some order. *)
Definition rep (s : state) (sp : Spec) : Prop :=
  spec_ok sp /\
  exists use, core s (Ghost (sp_lru sp) use (ents_of (sp_dict sp) (sp_entries sp)) (sp_dict sp)
                        (sp_usage sp) (sp_calls sp)) /\ in_use_ok sp use.

(** A new count on a cached or detached entry, as [Ref] and [Unref] leave it. *)
Lemma rep_count s sp l e n0 n lru use x :
  sp_entries sp !! l = Some (e, n0) ->
  let sp' := {| sp_entries := <[l := (e, n)]> (sp_entries sp); sp_dict := sp_dict sp; sp_lru := lru;
                sp_calls := sp_calls sp |} in
  spec_ok sp' -> ent_of (sp_dict sp) l (e, n) = x ->
  core s (Ghost lru use (<[l := x]> (ents_of (sp_dict sp) (sp_entries sp))) (sp_dict sp) (sp_usage sp) (sp_calls sp)) ->
  in_use_ok sp' use -> rep s sp'.
Proof.
  intros He sp' Hok' <- H Hu. split; [done|]. exists use. split; [|done]. cbn.
  rewrite (ents_of_insert (sp_dict sp)) by done. erewrite usage_ext; [exact H|done|].
  intros kh l' _. unfold sp_charge. cbn. destruct (decide (l = l')) as [<-|?];
    [by rewrite lookup_insert_eq, He|by rewrite lookup_insert_ne].
Qed.

Lemma in_use_count sp l e n0 n lru use use' c :
  sp_entries sp !! l = Some (e, n0) -> in_use_ok sp use ->
  (forall l', l' ∈ use' <-> (l' <> l /\ l' ∈ use) \/ (l' = l /\ sp_dict sp !! hkey e = Some l /\ n <> 0%nat)) ->
  in_use_ok {| sp_entries := <[l := (e, n)]> (sp_entries sp); sp_dict := sp_dict sp; sp_lru := lru; sp_calls := c |} use'.
Proof.
  intros He Hu Hu' l'. rewrite Hu', (Hu l'). cbn. destruct (decide (l = l')) as [<-|?].
  - rewrite lookup_insert_eq. split; [|intros (? & ? & [= <- ->] & ?); right; naive_solver].
    intros [[? _]|(_ & ? & ?)]; [done|]. exists e, (pred n). by rewrite Nat.succ_pred.
  - rewrite lookup_insert_ne by done. naive_solver.
Qed.

Lemma rep_ent s sp l e n :
  rep s sp -> sp_entries sp !! l = Some (e, n) ->
  ents_of (sp_dict sp) (sp_entries sp) !! l = Some (ent_of (sp_dict sp) l (e, n)).
Proof. intros _ He. by rewrite lookup_ents_of, He. Qed.

Lemma wp_Lookup s sp k h Q :
  rep s sp -> is_uint 32 h ->
  (forall l e n, sp_dict sp !! (k, h) = Some l -> sp_entries sp !! l = Some (e, n) -> Z.of_nat n < 2 ^ 32 - 2) ->
  (forall s', rep s' (snd (sp_Lookup (k, h) sp)) -> Q (fst (sp_Lookup (k, h) sp)) s') ->
  wp (Lookup k h) Q s.
Proof.
  intros Hrep Hh Hcnt HQ. pose proof Hrep as (Hok & use & H & Huse). unfold Lookup.
  pose proof (sp_Lookup_ok (k, h) sp Hok Hcnt) as Hok'.
  eapply wp_bind, wp_table_Lookup; [exact H|done|]. cbn [g_dict]. unfold sp_Lookup in *.
  destruct (sp_dict sp !! (k, h)) as [l|] eqn:Ed; cbn [default from_option id fst snd] in *.
  2:{ by apply wp_bind, wp_ret, wp_ret, HQ. }
  destruct (so_cached _ _ _ Hok Ed) as (e & n & He & Hke & Hca & Hlru). rewrite He in HQ, Hok'. cbn [fst snd] in HQ, Hok'.
  pose proof (rep_ent s sp l e n Hrep He) as Hx. pose proof (Hcnt l e n eq_refl He) as Hn.
  destruct (n_loc (c_ents H l _ Hx)) as (Hl0 & _). rewrite (proj2 (N.eqb_neq l nullptr)) by done. cbn [negb].
  unfold ent_of in Hx. cbn [fst snd] in Hx. rewrite Hca in Hx. cbn [Z.b2z] in Hx.
  eapply wp_bind, wp_Ref; [exact H|exact Hx|cbn; lia|cbn; intros; apply Hlru; lia|].
  cbn [e_refs e_in g_lru g_use g_ents g_dict g_usage g_calls e_handle]. intros s' lru use' Hcase H'.
  apply wp_ret, HQ.
  assert (lru = rm l (sp_lru sp) /\ forall l', l' ∈ use' <-> l' = l \/ l' ∈ use) as [-> Huse'].
  { destruct (Z.eqb_spec (Z.of_nat n + 1) 1) as [E|E]; cbn [andb] in Hcase; destruct Hcase as [-> ->].
    - split; [done|]. intros l'. rewrite elem_of_app, elem_of_rm, list_elem_of_singleton.
      destruct (decide (l' = l)); tauto.
    - split; [symmetry; apply rm_notin; rewrite Hlru; lia|]. intros l'. split; [auto|]. intros [->|?]; [|done].
      apply Huse. exists e, (pred n). rewrite He, Nat.succ_pred by lia. by rewrite <-Hke. }
  eapply rep_count; [done|done| |exact H'|eapply in_use_count; [done|done|]].
  - unfold ent_of. cbn. rewrite Hca. cbn. f_equal. lia.
  - intros l'. rewrite Huse', <-Hke, Ed. destruct (decide (l' = l)); naive_solver.
Qed.

(** [Release] is called on a handle its client holds. *)
Lemma wp_Release s sp l e n Q :
  rep s sp -> sp_entries sp !! l = Some (e, S n) ->
  (forall s', rep s' (sp_Release l sp) -> Q tt s') -> wp (Release l) Q s.
Proof.
  intros Hrep He HQ. pose proof Hrep as (Hok & use & H & Huse). unfold Release.
  pose proof (sp_Release_ok l sp Hok) as Hok'. pose proof (so_count _ Hok l e _ He) as Hn.
  pose proof (rep_ent s sp l e (S n) Hrep He) as Hx.
  assert (Hlru : l ∉ sp_lru sp) by (rewrite (so_lru _ Hok), He; naive_solver).
  assert (Hud : l ∈ use <-> sp_dict sp !! hkey e = Some l) by (rewrite (Huse l), He; naive_solver).
  assert (Hkey : forall kh, sp_dict sp !! kh = Some l -> kh = hkey e).
  { intros kh Hd. destruct (so_dict _ Hok _ _ Hd) as (e' & n' & He' & <-). congruence. }
  eapply wp_Unref; [exact H|exact Hx|cbn [e_refs ent_of fst snd]; destruct (is_cached _ _ _); cbn [Z.b2z]; lia| | |].
  - cbn. intros Hc%is_cached_false. rewrite elem_of_app. split; [tauto|]. intros kh Hd.
    apply Hc. by rewrite <-(Hkey kh Hd).
  - cbn [e_in e_refs ent_of fst snd g_use]. intros Hc. rewrite Hc. apply is_cached_true in Hc. split; [by apply Hud|].
    cbn [Z.b2z]. lia.
  - cbn [g_lru g_use g_ents g_dict g_usage g_calls e_handle e_refs e_in ent_of fst snd]. intros s' H'.
    apply HQ. unfold sp_Release in Hok' |- *. rewrite He in Hok' |- *.
    destruct (is_cached (sp_dict sp) l e) eqn:Hc; cbn [Z.b2z andb] in H'; [apply is_cached_true in Hc|apply is_cached_false in Hc].
    + rewrite (proj2 (Z.eqb_neq _ 1)) in H' by lia. cbv zeta in H'.
      destruct n as [|n]; [rewrite (proj2 (Z.eqb_eq _ 2)) in H' by lia|rewrite (proj2 (Z.eqb_neq _ 2)) in H' by lia].
      * rewrite (rm_notin l (sp_lru sp)) in H' by done.
        eapply rep_count; [done|done| |exact H'|eapply in_use_count; [done|done|]].
        -- unfold ent_of. cbn. by rewrite (proj2 (is_cached_true _ _ _) Hc).
        -- intros l'. rewrite elem_of_rm. naive_solver.
      * eapply rep_count; [done|done| |exact H'|eapply in_use_count; [done|done|]].
        -- unfold ent_of. cbn [fst snd]. rewrite (proj2 (is_cached_true _ _ _) Hc). cbn [Z.b2z]. f_equal. lia.
        -- intros l'. destruct (decide (l' = l)) as [->|?]; naive_solver.
    + destruct n as [|n].
      * split; [done|]. exists use. cbn [sp_destroy sp_lru sp_entries sp_dict sp_calls].
        rewrite (ents_of_delete (sp_dict sp)) by done. split.
        -- erewrite usage_ext; [exact H'|done|]. intros kh l' Hd. unfold sp_charge. cbn.
           rewrite lookup_delete_ne; [done|]. intros <-. apply Hc. by rewrite <-(Hkey kh Hd).
        -- intros l'. rewrite (Huse l'). cbn. destruct (decide (l = l')) as [<-|?];
             [rewrite lookup_delete_eq, He; naive_solver|by rewrite lookup_delete_ne].
      * rewrite (proj2 (Z.eqb_neq _ 1)) in H' by lia. cbv zeta in H'.
        eapply rep_count; [done|done| |exact H'|eapply in_use_count; [done|done|]].
        -- unfold ent_of. cbn [fst snd]. rewrite (proj2 (is_cached_false _ _ _) Hc). cbn [Z.b2z]. f_equal. lia.
        -- intros l'. destruct (decide (l' = l)) as [->|?]; naive_solver.
Qed.
End refine.
(** The dictionary without [kh] keeps the other entries cached. *)
Lemma is_cached_delete d kh l l' e : d !! kh = Some l -> l' <> l -> is_cached (delete kh d) l' e = is_cached d l' e.
Proof.
  intros Hd Hne. unfold is_cached. destruct (decide (kh = hkey e)) as [<-|?].
  - rewrite lookup_delete_eq, Hd. rewrite !bool_decide_eq_false_2; [done|congruence|done].
  - by rewrite lookup_delete_ne.
Qed.
Lemma is_cached_insert d kh l l' e :
  d !! kh = None -> l' <> l -> is_cached (<[kh := l]> d) l' e = is_cached d l' e.
Proof.
  intros Hd Hne. unfold is_cached. destruct (decide (kh = hkey e)) as [<-|?].
  - rewrite lookup_insert_eq, Hd. rewrite !bool_decide_eq_false_2; [done|done|congruence].
  - by rewrite lookup_insert_ne.
Qed.

Lemma u64_sub_mod a b : u64 (u64 a - b) = u64 (a - b).
Proof. unfold wrap. by rewrite Zminus_mod_idemp_l. Qed.
Lemma u64_add_mod a b : u64 (u64 a + b) = u64 (a + b).
Proof. unfold wrap. by rewrite Zplus_mod_idemp_l. Qed.

Lemma sp_usage_Erase sp kh l e n :
  spec_ok sp -> sp_dict sp !! kh = Some l -> sp_entries sp !! l = Some (e, n) ->
  sp_usage (sp_Erase kh sp) = u64 (sp_usage sp - charge e).
Proof.
  intros Hok Hd He. unfold sp_usage at 2. rewrite u64_sub_mod.
  assert (Hch : sp_charge sp l = charge e) by (unfold sp_charge; by rewrite He).
  rewrite <-Hch, <-(total_delete _ _ _ _ Hd). unfold sp_usage, sp_Erase. rewrite Hd, He.
  f_equal. destruct n as [|n]; cbn; apply total_ext; [|done]. intros k' l' [Hne Hd']%lookup_delete_Some.
  unfold sp_charge. cbn. rewrite lookup_delete_ne; [done|]. intros <-. apply Hne. by eapply so_inj.
Qed.

Section refine2.
Context (L U : loc) (cap : Z) (D : gset loc) (F : heap).
#[local] Abbreviation core := (core L U cap D F).
#[local] Abbreviation rep := (rep L U cap D F).
Implicit Types (s : state) (G : ghost) (sp : Spec).

Lemma in_use_Erase sp use kh l :
  spec_ok sp -> in_use_ok sp use -> sp_dict sp !! kh = Some l -> in_use_ok (sp_Erase kh sp) (rm l use).
Proof.
  intros Hok Hu Hd l'. rewrite elem_of_rm, (Hu l'). destruct (so_cached _ _ _ Hok Hd) as (e & n & He & -> & _).
  assert (Hent : l' <> l -> sp_entries (sp_Erase (hkey e) sp) !! l' = sp_entries sp !! l').
  { intros. unfold sp_Erase. rewrite Hd, He. destruct n; cbn; [by rewrite lookup_delete_ne|done]. }
  assert (Hdic : sp_dict (sp_Erase (hkey e) sp) = delete (hkey e) (sp_dict sp)).
  { unfold sp_Erase. rewrite Hd, He. by destruct n. }
  rewrite Hdic. split.
  - intros (Hne & e' & n' & He' & Hd'). exists e', n'. rewrite Hent by done. split; [done|].
    rewrite lookup_delete_ne; [done|]. congruence.
  - intros (e' & n' & He' & [Hk Hd']%lookup_delete_Some).
    assert (Hne : l' <> l) by (intros ->; apply Hk; by eapply so_inj).
    split; [done|]. exists e', n'. by rewrite <-Hent.
Qed.

(** What [sp_Erase] makes of the entries and of the calls. *)
Lemma sp_Erase_fields sp kh l e n :
  spec_ok sp -> sp_dict sp !! kh = Some l -> sp_entries sp !! l = Some (e, n) ->
  let sp' := sp_Erase kh sp in
  sp_dict sp' = delete kh (sp_dict sp) /\ sp_lru sp' = rm l (sp_lru sp) /\
  sp_calls sp' = (if Z.of_nat n + 1 =? 1 then sp_calls sp ++ [the_call e] else sp_calls sp) /\
  ents_of (sp_dict sp') (sp_entries sp') =
    (if Z.of_nat n + 1 =? 1 then delete l (ents_of (sp_dict sp) (sp_entries sp))
     else <[l := Ent e (Z.of_nat n + 1 - 1) false]> (ents_of (sp_dict sp) (sp_entries sp))).
Proof.
  intros Hok Hd He. unfold sp_Erase. rewrite Hd, He. destruct n as [|n].
  - cbn [sp_destroy sp_lru sp_entries sp_dict sp_calls]. do 3 (split; [done|]).
    apply (ents_of_delete (sp_dict sp)). intros. by apply is_cached_delete with l.
  - rewrite (proj2 (Z.eqb_neq _ 1)) by lia. cbn [sp_lru sp_entries sp_dict sp_calls]. do 3 (split; [done|]).
    apply ents_of_update; [done|intros; by apply is_cached_delete with l|].
    rewrite He. cbn [fmap option_fmap option_map]. unfold ent_of. cbn [fst snd].
    assert (E : is_cached (delete kh (sp_dict sp)) l e = false).
    { apply is_cached_false. intros [Hne Hd']%lookup_delete_Some. apply Hne. by eapply so_inj. }
    rewrite E. cbn [Z.b2z]. do 2 f_equal. lia.
Qed.

(** [FinishErase] of an entry that has left the dictionary: memory then
    holds the result of [sp_Erase]. *)
Lemma rep_finish s sp use kh l e n :
  spec_ok sp -> in_use_ok sp use -> sp_dict sp !! kh = Some l -> sp_entries sp !! l = Some (e, n) ->
  core s (let u := u64 (sp_usage sp - charge e) in
     if Z.of_nat n + 1 =? 1 then
       Ghost (rm l (sp_lru sp)) (rm l use) (delete l (ents_of (sp_dict sp) (sp_entries sp))) (delete kh (sp_dict sp)) u
         (sp_calls sp ++ [the_call e])
     else
       Ghost (rm l (sp_lru sp)) (rm l use) (<[l := Ent e (Z.of_nat n + 1 - 1) false]> (ents_of (sp_dict sp) (sp_entries sp)))
         (delete kh (sp_dict sp)) u (sp_calls sp)) ->
  rep s (sp_Erase kh sp).
Proof.
  intros Hok Hu Hd He H. split; [by apply sp_Erase_ok|]. exists (rm l use). split; [|by apply in_use_Erase].
  destruct (sp_Erase_fields sp kh l e n Hok Hd He) as (Ed & El & Ec & Ee).
  rewrite (sp_usage_Erase sp kh l e n), Ee, El, Ed, Ec by done. by destruct (Z.of_nat n + 1 =? 1).
Qed.

Lemma wp_remove_finish s sp k h Q :
  rep s sp -> is_uint 32 h ->
  (forall b s', b = bool_decide (is_Some (sp_dict sp !! (k, h))) -> rep s' (sp_Erase (k, h) sp) -> Q b s') ->
  wp (e ← HandleTable_Remove k h; FinishErase e) Q s.
Proof.
  intros (Hok & use & H & Huse) Hh HQ. eapply wp_bind, wp_table_Remove; [exact H|done|].
  cbn [g_dict g_lru g_use g_ents g_usage g_calls]. intros s1 H1.
  destruct (sp_dict sp !! (k, h)) as [l|] eqn:Ed; cbn [default from_option id].
  - destruct (so_cached _ _ _ Hok Ed) as (e & n & He & Hke & Hca & Hlru).
    pose proof (so_count _ Hok l e n He) as Hn.
    assert (Hx : ents_of (sp_dict sp) (sp_entries sp) !! l = Some (Ent e (Z.of_nat n + 1) true))
      by (rewrite lookup_ents_of, He; cbn; unfold ent_of; cbn; by rewrite Hca).
    eapply wp_FinishErase; [exact H1|exact Hx|done|cbn; lia| | |].
    + cbn. apply elem_of_app. destruct n as [|n]; [left; by apply Hlru|right].
      apply Huse. exists e, n. by rewrite <-Hke.
    + cbn. intros kh' [Hne Hd']%lookup_delete_Some. apply Hne. by eapply so_inj.
    + intros s2 H2. apply HQ; [by rewrite bool_decide_eq_true_2|]. eapply rep_finish; [done..|exact H2].
  - apply wp_FinishErase_null, HQ; [by rewrite bool_decide_eq_false_2; [|intros [? ?]]|].
    unfold sp_Erase. rewrite Ed. split; [done|]. exists use. split; [|done]. by rewrite delete_id in H1.
Qed.

Lemma wp_Erase s sp k h Q :
  rep s sp -> is_uint 32 h -> (forall s', rep s' (sp_Erase (k, h) sp) -> Q tt s') -> wp (Erase k h) Q s.
Proof.
  intros Hrep Hh HQ. unfold Erase. apply bind_assoc_wp, wp_bind. eapply wp_remove_finish; [done|done|].
  intros b s' _ H'. by apply wp_ret, HQ.
Qed.

Lemma wp_evict_oldest s sp l lru Q :
  rep s sp -> sp_lru sp = l :: lru -> (forall s', rep s' (sp_evict sp) -> Q tt s') -> wp evict_oldest Q s.
Proof.
  intros Hrep Hl HQ. pose proof Hrep as (Hok & use & H & Huse). unfold evict_oldest.
  destruct (proj1 (so_lru _ Hok l) ltac:(rewrite Hl; set_solver)) as [e He]. unfold sp_evict in HQ. rewrite Hl, He in HQ.
  pose proof (so_zero _ Hok l e He) as Hd.
  pose proof (rep_ent L U cap D F s sp l e 0 Hrep He) as Hx. pose proof (c_ents H l _ Hx) as Hn.
  eapply wp_bind, wp_get_core; [exact H|]. intros c _ -> _ _.
  pose proof (ring_head _ _ _ _ (c_lru H)) as Hh. cbn [g_lru] in Hh. rewrite Hl in Hh.
  apply wp_bind, wp_load with l; [done|]. apply wp_bind, wp_load with 1.
  { rewrite (n_refs Hn). cbn. unfold ent_of. cbn. by rewrite (proj2 (is_cached_true _ _ _) Hd). }
  apply wp_bind, wp_assert; [done|]. eapply wp_bind, wp_key; [by apply (core_readable H Hx)|].
  apply wp_bind, wp_load with e; [apply (n_handle Hn)|]. cbn [e_handle ent_of fst hkey].
  apply bind_assoc_wp, wp_bind. eapply wp_remove_finish; [done|apply (n_hash Hn)|].
  cbn [ent_of fst]. fold (hkey e). rewrite Hd. intros b s' -> H'. apply wp_assert; [done|]. by apply HQ.
Qed.

Lemma sp_evict_length sp l lru : spec_ok sp -> sp_lru sp = l :: lru -> sp_lru (sp_evict sp) = lru.
Proof.
  intros Hok Hl. destruct (proj1 (so_lru _ Hok l) ltac:(rewrite Hl; set_solver)) as [e He].
  unfold sp_evict, sp_Erase. rewrite Hl, He, (so_zero _ Hok l e He), He. cbn [sp_destroy sp_lru].
  pose proof (so_nodup _ Hok) as HN. rewrite Hl in HN. apply NoDup_cons in HN as [HN _].
  unfold rm. rewrite filter_cons_False by (intros ?; done). by apply rm_notin.
Qed.

Lemma lru_head s sp : rep s sp -> next (fst s) !! L = head (sp_lru sp ++ [L]) /\ (forall l, l ∈ sp_lru sp -> l <> L).
Proof.
  intros (Hok & use & H & Huse). split; [by apply (ring_head _ _ _ _ (c_lru H))|].
  intros l Hl ->. destruct (core_nodup H) as ([HL _]%NoDup_cons & _). done.
Qed.

Lemma wp_Insert_loop fuel s sp Q :
  rep s sp -> (length (sp_lru sp) < fuel)%nat ->
  (forall s', rep s' (sp_shrink (length (sp_lru sp)) cap sp) -> Q tt s') -> wp (Insert_loop fuel) Q s.
Proof.
  revert s sp. induction fuel as [|fuel IH]; intros s sp Hrep Hf HQ; [lia|]. cbn [Insert_loop].
  destruct (lru_head s sp Hrep) as [Hh Hne]. pose proof Hrep as (Hok & use & H & Huse).
  eapply wp_bind, wp_get_core; [exact H|]. intros c -> -> _ ->. cbn [g_usage].
  apply wp_bind. destruct (sp_lru sp) as [|l lru] eqn:Hl; cbn [app head] in Hh.
  - apply wp_load with L; [done|]. rewrite N.eqb_refl, andb_false_r. by apply wp_ret, HQ.
  - apply wp_load with l; [done|]. rewrite (proj2 (N.eqb_neq l L)) by (apply Hne; set_solver).
    cbn [length sp_shrink] in HQ. rewrite Hl in HQ. rewrite bool_decide_eq_false_2 in HQ by done.
    cbn [negb] in HQ |- *. rewrite andb_true_r in HQ |- *.
    destruct (sp_usage sp >? cap); [|by apply wp_ret, HQ].
    apply wp_bind. eapply wp_evict_oldest; [done|done|]. intros s' H'. apply (IH s' (sp_evict sp)); [done| |].
    + rewrite (sp_evict_length sp l lru) by done. cbn in Hf. lia.
    + rewrite (sp_evict_length sp l lru) by done. exact HQ.
Qed.

Lemma wp_Prune s sp Q : rep s sp -> (forall s', rep s' (sp_Prune sp) -> Q tt s') -> wp Prune Q s.
Proof.
  intros Hrep HQ. unfold Prune. apply wp_bind, wp_loop_bound. unfold sp_Prune in HQ.
  assert (Hf : (length (sp_lru sp) < S (size (alloc (fst s))))%nat).
  { destruct Hrep as (_ & use & H & _). by apply Nat.lt_succ_r, (core_lru_length H). }
  revert Hrep Hf HQ. generalize (S (size (alloc (fst s)))). intros fuel. revert s sp.
  induction fuel as [|fuel IH]; intros s sp Hrep Hf HQ; [lia|]. cbn [Prune_loop].
  destruct (lru_head s sp Hrep) as [Hh Hne]. pose proof Hrep as (Hok & use & H & Huse).
  eapply wp_bind, wp_get_core; [exact H|]. intros c _ -> _ _.
  apply wp_bind. destruct (sp_lru sp) as [|l lru] eqn:Hl; cbn [app head] in Hh.
  - apply wp_load with L; [done|]. rewrite N.eqb_refl. by apply wp_ret, HQ.
  - apply wp_load with l; [done|]. rewrite (proj2 (N.eqb_neq l L)) by (apply Hne; set_solver). cbn [negb].
    apply wp_bind. eapply wp_evict_oldest; [done|done|]. intros s' H'. apply (IH s' (sp_evict sp)); [done| |].
    + rewrite (sp_evict_length sp l lru) by done. cbn in Hf. lia.
    + rewrite (sp_evict_length sp l lru) by done. cbn [length] in HQ. by rewrite Nat.iter_succ_r in HQ.
Qed.
End refine2.
Section insert.
Context (L U : loc) (cap : Z) (D : gset loc) (F : heap).
#[local] Abbreviation core := (core L U cap D F).
#[local] Abbreviation rep := (rep L U cap D F).
Implicit Types (s : state) (G : ghost) (sp : Spec).

(** Writing the members of a location outside the shard. *)
Lemma core_outside s G h' l :
  core s G -> l ∉ alloc (fst s) -> alloc h' = {[l]} ∪ alloc (fst s) -> prev h' = prev (fst s) ->
  next_hash h' = next_hash (fst s) -> calls h' = calls (fst s) ->
  (forall y, y <> l -> next h' !! y = next (fst s) !! y /\ handle h' !! y = handle (fst s) !! y /\
                       refs h' !! y = refs (fst s) !! y /\ in_cache h' !! y = in_cache (fst s) !! y) ->
  core (h', snd s) G.
Proof.
  intros H Hl Ea Ep Enh Ec Hsame.
  assert (Hr : forall x, x ∈ L :: U :: g_lru G ++ g_use G -> x <> l).
  { intros x Hx ->. by eapply Hl, (core_alloc L U cap D F s G). }
  assert (HR : forall X xs, (forall x, x ∈ X :: xs -> x <> l) -> ring (next (fst s)) (prev (fst s)) X xs ->
            ring (next h') (prev h') X xs).
  { intros X xs Hx [H1 H2]. rewrite Ep. split; [|done]. apply (chain_ext (next (fst s)) _ (X :: xs)); [|done].
    intros y Hy. by apply Hsame, Hx. }
  assert (He : forall y e, g_ents G !! y = Some e -> y <> l).
  { intros y e Hy ->. by apply Hl, (n_alloc (c_ents H _ _ Hy)). }
  split; cbn [fst snd].
  - rewrite Ec. apply (c_fields H).
  - apply (c_nodup H).
  - apply HR; [|apply (c_lru H)]. intros x Hx. apply Hr. set_solver.
  - apply HR; [|apply (c_use H)]. intros x Hx. apply Hr. set_solver.
  - apply (c_rings H).
  - intros y e Hy. destruct (c_ents H _ _ Hy). destruct (Hsame y (He y e Hy)) as (_ & E1 & E2 & E3).
    split; rewrite ?E1, ?E2, ?E3, ?Ea; try done. set_solver.
  - intros y [e Hy] Hy'. rewrite (proj1 (Hsame y (He y e Hy))). apply (c_out H); [by eexists|done].
  - rewrite Enh. apply (c_table H).
  - apply (c_dict H).
  - rewrite Ea. destruct (c_heads H) as (? & ? & ? & ? & ? & ? & ?). set_solver.
  - intros y Hy. destruct (c_frame H y Hy) as (? & Hs). rewrite Ea. split; [set_solver|].
    assert (y <> l) by congruence. destruct (Hsame y ltac:(done)) as (E1 & E2 & E3 & E4).
    unfold same_at in *. by rewrite E1, E2, E3, E4, Ep, Enh.
Qed.

Lemma core_not_alloc s G l :
  core s G -> l ∉ alloc (fst s) -> l <> nullptr /\ l <> L /\ l <> U /\ (l ∉ D) /\ g_ents G !! l = None /\
    l ∉ g_lru G ++ g_use G.
Proof.
  intros H Hl. destruct (c_heads H) as (? & ? & ? & _). split; [congruence|]. split; [congruence|]. split; [congruence|].
  split; [intros Hx; by apply Hl, (c_frame H)|].
  assert (E : g_ents G !! l = None).
  { destruct (g_ents G !! l) as [e|] eqn:E; [|done]. by destruct (Hl (n_alloc (c_ents H _ _ E))). }
  split; [done|]. intros Hx. destruct (c_rings H l Hx). congruence.
Qed.

(** An entry that is in neither list and not in the table. *)
Lemma core_add s G l x :
  core s G -> node_ok L U D (fst s) l x -> g_ents G !! l = None ->
  (exists n : loc, next (fst s) !! l = Some n /\ n <> l) ->
  core s (Ghost (g_lru G) (g_use G) (<[l := x]> (g_ents G)) (g_dict G) (g_usage G) (g_calls G)).
Proof.
  intros H Hx Hl Hn. destruct H as [? ? ? ? Hr He Ho ? Hd ? ?]. split; try done; cbn.
  - intros y Hy. rewrite lookup_insert_ne; [by apply Hr|]. intros <-. destruct (Hr l Hy). congruence.
  - intros y e [[<- <-]|[_ Hy]]%lookup_insert_Some; [done|by apply He].
  - intros y Hy Hy'. destruct (decide (l = y)) as [<-|?]; [done|]. apply Ho; [by rewrite lookup_insert_ne in Hy|done].
  - intros kh y Hk. destruct (Hd kh y Hk) as (e & He' & ?). exists e. rewrite lookup_insert_ne; [done|]. congruence.
Qed.

Lemma rep_add_detached s sp l e n m :
  rep s sp -> core s (Ghost (sp_lru sp) m (<[l := Ent e (Z.of_nat n) false]> (ents_of (sp_dict sp) (sp_entries sp)))
                        (sp_dict sp) (sp_usage sp) (sp_calls sp)) -> in_use_ok sp m ->
  sp_entries sp !! l = None -> n = 1%nat ->
  rep s {| sp_entries := <[l := (e, n)]> (sp_entries sp); sp_dict := sp_dict sp; sp_lru := sp_lru sp;
           sp_calls := sp_calls sp |}.
Proof.
  intros (Hok & _) H Hu Hl ->. split; [by apply (sp_add_ok 0)|].
  assert (Hd : forall kh, sp_dict sp !! kh <> Some l).
  { intros kh Hk. destruct (so_dict _ Hok _ _ Hk) as (? & ? & ? & _). congruence. }
  exists m. cbn. split.
  - rewrite (ents_of_insert (sp_dict sp)) by done.
    assert (E : ent_of (sp_dict sp) l (e, 1%nat) = Ent e 1 false).
    { unfold ent_of. cbn. by rewrite (proj2 (is_cached_false _ _ _) (Hd _)). }
    rewrite E. erewrite usage_ext; [exact H|done|]. cbn. intros kh l' Hk. unfold sp_charge. cbn.
    rewrite lookup_insert_ne; [done|]. intros <-. by apply (Hd kh).
  - intros l'. rewrite (Hu l'). cbn. destruct (decide (l = l')) as [<-|?]; [|by rewrite lookup_insert_ne].
    rewrite lookup_insert_eq, Hl. split; [naive_solver|]. intros (? & ? & _ & Hk). by apply Hd in Hk.
Qed.
End insert.
Section insert2.
Context (L U : loc) (cap : Z) (D : gset loc) (F : heap).
#[local] Abbreviation core := (core L U cap D F).
#[local] Abbreviation rep := (rep L U cap D F).
Implicit Types (s : state) (G : ghost) (sp : Spec).

Lemma rep_add_cached s sp use l e :
  spec_ok sp -> sp_dict sp !! hkey e = None -> sp_entries sp !! l = None ->
  core s (Ghost (sp_lru sp) use (<[l := Ent e 2 true]> (ents_of (sp_dict sp) (sp_entries sp)))
            (<[hkey e := l]> (sp_dict sp)) (u64 (sp_usage sp + charge e)) (sp_calls sp)) ->
  (forall l', l' ∈ use <-> l' = l \/ exists e' n, sp_entries sp !! l' = Some (e', S n) /\ sp_dict sp !! hkey e' = Some l') ->
  spec_ok {| sp_entries := <[l := (e, 1%nat)]> (sp_entries sp); sp_dict := <[hkey e := l]> (sp_dict sp);
             sp_lru := sp_lru sp; sp_calls := sp_calls sp |} ->
  rep s {| sp_entries := <[l := (e, 1%nat)]> (sp_entries sp); sp_dict := <[hkey e := l]> (sp_dict sp);
           sp_lru := sp_lru sp; sp_calls := sp_calls sp |}.
Proof.
  intros Hok Hd Hl H Hu Hok'. split; [done|]. exists use.
  assert (Hnl : forall kh, sp_dict sp !! kh <> Some l).
  { intros kh Hk. destruct (so_dict _ Hok _ _ Hk) as (? & ? & ? & _). congruence. }
  cbn [sp_lru sp_entries sp_dict sp_calls]. split.
  - rewrite (ents_of_insert (sp_dict sp)) by (intros; by apply is_cached_insert).
    assert (E : ent_of (<[hkey e := l]> (sp_dict sp)) l (e, 1%nat) = Ent e 2 true).
    { unfold ent_of, is_cached. cbn [fst snd]. rewrite lookup_insert_eq, bool_decide_eq_true_2 by done. done. }
    rewrite E. assert (Eu : sp_usage {| sp_entries := <[l := (e, 1%nat)]> (sp_entries sp);
      sp_dict := <[hkey e := l]> (sp_dict sp); sp_lru := sp_lru sp; sp_calls := sp_calls sp |} = u64 (sp_usage sp + charge e)).
    { unfold sp_usage at 2. rewrite u64_add_mod. unfold sp_usage. cbn [sp_dict]. rewrite total_insert by done.
      f_equal. unfold sp_charge at 1. cbn. rewrite lookup_insert_eq, Z.add_comm. f_equal. apply total_ext.
      intros kh l' Hk. unfold sp_charge. cbn. rewrite lookup_insert_ne; [done|]. intros <-. by apply (Hnl kh). }
    by rewrite Eu.
  - intros l'. rewrite Hu. cbn. destruct (decide (l = l')) as [<-|?].
    + rewrite lookup_insert_eq. split; [|by left]. intros _. exists e, 0%nat. by rewrite lookup_insert_eq.
    + rewrite lookup_insert_ne by done. split.
      * intros [?|(e' & m & He' & Hk)]; [congruence|]. exists e', m. rewrite lookup_insert_ne; [done|]. congruence.
      * intros (e' & m & He' & [[_ ?]|[_ Hk]]%lookup_insert_Some); [congruence|]. right. by exists e', m.
Qed.

(** The tail of [Insert] in a shard of positive capacity, from the point where
    the new entry is in memory. *)
Lemma wp_Insert_cached s sp use l e Q :
  0 < cap ->
  spec_ok sp -> core s (Ghost (sp_lru sp) use (ents_of (sp_dict sp) (sp_entries sp)) (sp_dict sp) (sp_usage sp) (sp_calls sp)) ->
  in_use_ok sp use -> node_ok L U D (fst s) l (Ent e 2 true) -> sp_entries sp !! l = None ->
  l ∉ sp_lru sp ++ use -> Z.of_nat (size (sp_dict sp)) < 2 ^ 31 ->
  (forall s', rep s' (sp_add cap l e sp) -> Q tt s') ->
  wp (LRU_Append U l ;; c ← get; set_usage (u64 (usage_ c + charge e)) ;;
      old ← HandleTable_Insert l; FinishErase old ;; mret tt) Q s.
Proof.
  intros Hcap Hok H Hu Hn Hl Hout Hs HQ.
  assert (Hnl : forall kh, sp_dict sp !! kh <> Some l).
  { intros kh Hk. destruct (so_dict _ Hok _ _ Hk) as (? & ? & ? & _). congruence. }
  pose proof (sp_add_ok cap l e sp Hok Hl) as Hok'. unfold sp_add in *.
  rewrite (proj2 (Z.gtb_lt cap 0)) in * by done.
  eapply wp_bind, (wp_LRU_Append L U cap D F true); [exact H|done|exact Hn|intros kh Hk; by apply Hnl in Hk|].
  cbn [g_lru g_use g_ents g_dict g_usage g_calls]. intros s1 H1.
  eapply wp_bind, wp_get_core; [exact H1|]. cbn [g_usage]. intros c _ _ _ ->.
  eapply wp_bind, wp_set_usage; [exact H1|]. cbn [g_lru g_use g_ents g_dict g_usage g_calls]. intros s2 H2.
  eapply wp_bind, (wp_table_Insert L U cap D F s2 _ l (Ent e 2 true)); [exact H2|by cbn; rewrite lookup_insert_eq|done|done|].
  cbn [g_lru g_use g_ents g_dict g_usage g_calls e_handle]. intros s3 H3.
  destruct (sp_dict sp !! hkey e) as [old|] eqn:Ed; cbn [default from_option id].
  - destruct (so_cached _ _ _ Hok Ed) as (e0 & n & He0 & Hke & Hca & Hlru).
    pose proof (so_count _ Hok old e0 n He0) as Hcnt. assert (Hne : old <> l) by congruence.
    apply wp_bind. eapply wp_FinishErase with (x := Ent e0 (Z.of_nat n + 1) true); [exact H3| |done|cbn; lia| | |].
    + cbn. rewrite lookup_insert_ne, lookup_ents_of, He0 by done. cbn. unfold ent_of. cbn. by rewrite Hca.
    + cbn. rewrite !elem_of_app. destruct n as [|n]; [left; by apply Hlru|right; left].
      apply Hu. exists e0, n. by rewrite <-Hke.
    + cbn. intros kh' [[_ ?]|[Hkn Hd']]%lookup_insert_Some; [congruence|]. apply Hkn. by eapply (so_inj sp).
    + cbn [g_lru g_use g_ents g_dict g_usage g_calls e_handle e_refs]. intros s4 H4. apply wp_ret, HQ. clear HQ.
      destruct (sp_Erase_fields sp (hkey e) old e0 n Hok Ed He0) as (Ed' & El' & Ec' & Ee').
      pose proof (sp_usage_Erase sp _ old e0 n Hok Ed He0) as Eu'.
      assert (Hl' : sp_entries (sp_Erase (hkey e) sp) !! l = None).
      { unfold sp_Erase. rewrite Ed, He0. destruct n; cbn; [rewrite lookup_delete_None; by right|done]. }
      apply (rep_add_cached s4 _ (rm old (use ++ [l]))); [by apply sp_Erase_ok|by rewrite Ed', lookup_delete_eq|done| | |done].
      * rewrite Ee', Ed', El', Ec', Eu', insert_delete_eq, u64_add_mod.
        rewrite u64_sub_mod in H4. replace (sp_usage sp - charge e0 + charge e) with (sp_usage sp + charge e - charge e0) by lia.
        cbv zeta in H4. destruct (Z.of_nat n + 1 =? 1).
        -- by rewrite insert_delete_ne.
        -- by rewrite insert_insert_ne.
      * intros l'. pose proof (in_use_Erase sp use _ old Hok Hu Ed l') as HE. rewrite elem_of_rm in HE |- *.
        rewrite elem_of_app, list_elem_of_singleton, <-HE. destruct (decide (l' = l)) as [->|?]; [naive_solver|tauto].
  - apply wp_bind, wp_FinishErase_null, wp_ret, HQ.
    assert (EE : sp_Erase (hkey e) sp = sp) by (unfold sp_Erase; by rewrite Ed). rewrite EE in *.
    apply (rep_add_cached s3 sp (use ++ [l])); [done|done|done|exact H3| |done].
    intros l'. rewrite elem_of_app, list_elem_of_singleton, (Hu l'). tauto.
Qed.
End insert2.
(** The heap after the initialisation of a new entry. *)
Definition fresh_entry (h : heap) (l : loc) (e : LRUHandle) (r : Z) (b : bool) : heap :=
  {| alloc := {[l]} ∪ alloc h; next := next h; prev := prev h; next_hash := next_hash h;
     in_cache := <[l := b]> (in_cache h); refs := <[l := r]> (refs h); handle := <[l := e]> (handle h);
     calls := calls h |}.

Section insert3.
Context (L U : loc) (cap : Z) (D : gset loc) (F : heap).
#[local] Abbreviation core := (core L U cap D F).
#[local] Abbreviation rep := (rep L U cap D F).
Implicit Types (s : state) (G : ghost) (sp : Spec).

Lemma core_fresh_entry s G l e r b :
  core s G -> l ∉ alloc (fst s) -> is_uint 32 (hash e) ->
  core (fresh_entry (fst s) l e r b, snd s) G /\ node_ok L U D (fresh_entry (fst s) l e r b) l (Ent e r b).
Proof.
  intros H Hl Hh. split.
  - apply core_outside with l; try done. intros y Hy. cbn. by rewrite !lookup_insert_ne.
  - destruct (core_not_alloc L U cap D F s G l H Hl) as (? & ? & ? & ? & _).
    split; cbn; [by rewrite lookup_insert_eq..|done|set_solver|done].
Qed.

Lemma rep_fresh s sp l :
  rep s sp -> l ∉ alloc (fst s) -> sp_entries sp !! l = None /\ l <> nullptr /\ (l ∉ D).
Proof.
  intros (_ & use & H & _) Hl. destruct (core_not_alloc L U cap D F s _ l H Hl) as (? & ? & ? & ? & E & _).
  split; [|done]. cbn in E. rewrite lookup_ents_of in E. by destruct (sp_entries sp !! l).
Qed.

(** The entry exists and is counted, cached or not. *)
Lemma wp_Insert_first s sp l e Q :
  rep s sp -> l ∉ alloc (fst s) -> is_uint 32 (hash e) -> Z.of_nat (size (sp_dict sp)) < 2 ^ 31 ->
  (forall s', rep s' (sp_add cap l e sp) -> Q tt s') ->
  wp (c ← get;
      if capacity_ c >? 0 then
        r ← load refs l; set_refs l (u32 (r + 1)) ;; set_in_cache l true ;; LRU_Append (in_use_ c) l ;;
        c ← get; set_usage (u64 (usage_ c + charge e)) ;; old ← HandleTable_Insert l; FinishErase old ;; mret tt
      else set_next l nullptr) Q (fresh_entry (fst s) l e 1 false, snd s).
Proof.
  intros Hrep Hl Hh Hs HQ. pose proof Hrep as (Hok & use & H & Hu). destruct s as [h c].
  destruct (rep_fresh _ _ _ Hrep Hl) as (Hle & Hl0 & HlD).
  destruct (core_not_alloc L U cap D F _ _ l H Hl) as (_ & _ & _ & _ & _ & Hout).
  eapply wp_bind, wp_get_core; [apply (core_fresh_entry _ _ l e 1 false H Hl Hh)|]. intros c' -> _ -> _.
  destruct (cap >? 0) eqn:Ec.
  - cbn [fst snd]. apply wp_bind, wp_load with 1; [cbn; by rewrite lookup_insert_eq|]. change (u32 (1 + 1)) with 2.
    apply wp_bind, wp_write; [cbn; set_solver|]. apply wp_bind, wp_write; [cbn; set_solver|].
    unfold with_in_cache, with_refs, fresh_entry. cbn [alloc next prev next_hash in_cache refs handle calls].
    rewrite !insert_insert_eq. destruct (core_fresh_entry _ _ l e 2 true H Hl Hh) as [H2 Hn2].
    eapply wp_Insert_cached; [by apply Z.gtb_lt|exact Hok|exact H2|done|exact Hn2|done|exact Hout|done|exact HQ].
  - cbn [fst snd]. apply wp_write; [cbn; set_solver|]. apply HQ. unfold sp_add. rewrite Ec.
    apply (rep_add_detached L U cap D F _ sp l e 1 use); [| |done|done|done].
    + split; [done|]. exists use. split; [|done]. apply (core_outside L U cap D F (h, c)) with l; try done.
      intros y Hy. cbn. by rewrite !lookup_insert_ne.
    + apply (core_add L U cap D F _ (Ghost (sp_lru sp) use (ents_of (sp_dict sp) (sp_entries sp)) (sp_dict sp) (sp_usage sp) (sp_calls sp))).
      * apply (core_outside L U cap D F (h, c)) with l; try done. intros y Hy. cbn. by rewrite !lookup_insert_ne.
      * destruct (core_fresh_entry _ _ l e 1 false H Hl Hh) as [_ [? ? ? ? ? ?]]. by split.
      * cbn. by rewrite lookup_ents_of, Hle.
      * exists nullptr. cbn. by rewrite lookup_insert_eq.
Qed.

Lemma wp_Insert s sp k h v ch d Q :
  rep s sp -> is_uint 32 h -> Z.of_nat (size (sp_dict sp)) < 2 ^ 31 ->
  (forall l s', sp_entries sp !! l = None -> l <> nullptr -> (l ∉ D) ->
     rep s' (sp_Insert cap l {| value := v; deleter := d; charge := ch; key_data := k; hash := h |} sp) -> Q l s') ->
  wp (Insert k h v ch d) Q s.
Proof.
  intros Hrep Hh Hs HQ. set (e := {| value := v; deleter := d; charge := ch; key_data := k; hash := h |}) in *.
  destruct s as [hp c]. unfold Insert. apply wp_bind. unfold wp at 1, malloc. cbn [fst snd].
  pose proof (is_fresh (alloc hp)) as Hl. set (l := fresh (alloc hp)) in *.
  destruct (rep_fresh _ _ _ Hrep Hl) as (Hle & Hl0 & HlD).
  do 3 (apply wp_bind, wp_write; [cbn; set_solver|]). apply bind_assoc_wp, wp_bind.
  eapply (wp_Insert_first (hp, c) sp l e); [done|done|done|done|]. intros s1 H1.
  apply wp_bind, wp_loop_bound, wp_bind. eapply (wp_Insert_loop L U cap D F); [exact H1| |].
  { destruct H1 as (_ & use1 & H1 & _). by apply Nat.lt_succ_r, (core_lru_length H1). }
  intros s2 H2. apply wp_ret. by apply HQ.
Qed.

Lemma wp_TotalCharge s sp Q : rep s sp -> Q (sp_usage sp) s -> wp TotalCharge Q s.
Proof.
  intros (_ & use & H & _) HQ. unfold TotalCharge. eapply wp_bind, wp_get_core; [exact H|]. intros c _ _ _ ->.
  by apply wp_ret.
Qed.
End insert3.
(** ** Construction and destruction *)

(** The memory a shard is constructed in: its two heads are allocated, and [D]
    belongs to others. *)
Definition raw_shard (L U : loc) (D : gset loc) (F : heap) (s : state) : Prop :=
  lru_ (snd s) = L /\ in_use_ (snd s) = U /\ L <> U /\ L <> nullptr /\ U <> nullptr /\
  (L ∉ D) /\ (U ∉ D) /\ L ∈ alloc (fst s) /\ U ∈ alloc (fst s) /\ nullptr ∈ alloc (fst s) /\
  calls (fst s) = [] /\ forall l, l ∈ D -> l ∈ alloc (fst s) /\ same_at (fst s) F l.

Lemma spec_ok_empty : spec_ok sp_empty.
Proof.
  split; cbn; [done|done| |constructor|done]. intros l. split; [by intros ?%not_elem_of_nil|by intros [e He]].
Qed.

Section lifetime.
Context (L U : loc) (cap : Z) (D : gset loc) (F : heap).
#[local] Abbreviation core := (core L U cap D F).
#[local] Abbreviation rep := (rep L U cap D F).
Implicit Types (s : state) (G : ghost) (sp : Spec).

Lemma wp_LRUCache_new s Q :
  raw_shard L U D F s -> capacity_ (snd s) = cap -> (forall s', rep s' sp_empty -> Q tt s') -> wp LRUCache_new Q s.
Proof.
  intros (EL & EU & HLU & HL0 & HU0 & HLD & HUD & HLa & HUa & H0a & Hcalls & HD) Ecap HQ.
  destruct s as [h c]. cbn [fst snd] in *.
  unfold LRUCache_new. apply wp_bind, wp_get, wp_bind, wp_modify. cbn [snd]. rewrite EL, EU.
  apply wp_bind. match goal with |- wp _ _ ?s => rewrite (tstate_id s) end. apply wp_HandleTable_new.
  intros nh t Ht Hnh. unfold tstate. cbn [fst snd].
  do 2 (apply wp_bind, wp_write; [exact HLa|]). apply wp_bind, wp_write; [exact HUa|].
  apply wp_write; [exact HUa|]. apply HQ. split; [apply spec_ok_empty|].
  exists []. split; [|intros l; split; [by intros ?%not_elem_of_nil|by intros (e & n & He & _)]].
  split; cbn.
  - done.
  - apply NoDup_cons. split; [by rewrite list_elem_of_singleton|apply NoDup_singleton].
  - split; cbn; (split; [|done]); [by rewrite lookup_insert_ne, lookup_insert_eq|by rewrite lookup_insert_ne, lookup_insert_eq].
  - split; cbn; (split; [|done]); by rewrite lookup_insert_eq.
  - intros l Hl. by apply not_elem_of_nil in Hl.
  - intros l e. unfold ents_of. by rewrite map_imap_empty.
  - intros l [e He]. unfold ents_of in He. by rewrite map_imap_empty in He.
  - done.
  - intros kh l. by rewrite lookup_empty.
  - done.
  - intros l Hl. destruct (HD l Hl) as (? & Hs). split; [done|]. unfold same_at in *. cbn. rewrite Hnh.
    rewrite !lookup_insert_ne by congruence. done.
Qed.

Lemma wp_SetCapacity n s sp Q :
  rep s sp -> (forall s', LRUSpec.rep L U n D F s' sp -> Q tt s') -> wp (SetCapacity n) Q s.
Proof.
  intros (Hok & use & H & Hu) HQ. destruct s as [h c]. apply HQ. split; [done|]. exists use. split; [|done].
  destruct H as [(? & ? & ? & ? & ?) ? ? ? ? He ? ? ? ? ?]. split; try done.
Qed.

(** The loop of the destructor: every entry of the list is passed to its
    deleter and freed. *)
Lemma wp_delete_loop fuel xs e s (m : loc -> LRUHandle) Q :
  lru_ (snd s) = L -> chain (next (fst s)) (xs ++ [L]) -> head (xs ++ [L]) = Some e -> NoDup (xs ++ [L]) ->
  (forall x, x ∈ xs -> node_ok L U D (fst s) x (Ent (m x) 1 true)) -> (length xs < fuel)%nat ->
  (forall s', alloc (fst s') = alloc (fst s) ∖ list_to_set xs -> calls (fst s') = calls (fst s) ++ map (fun x => the_call (m x)) xs ->
     Q tt s') ->
  wp (LRUCache_delete_loop fuel e) Q s.
Proof.
  revert xs e s. induction fuel as [|fuel IH]; intros xs e [h c] EL Hc He HN Hx Hf HQ; [lia|].
  cbn [fst snd] in *. cbn [LRUCache_delete_loop]. apply wp_bind, wp_get. cbn [snd].
  destruct xs as [|x xs]; cbn [app head] in He; injection He as <-.
  { rewrite EL, N.eqb_refl. apply wp_ret, HQ; cbn; [set_solver|by rewrite app_nil_r]. }
  pose proof (Hx x ltac:(set_solver)) as Hn. destruct (n_loc Hn) as (Hx0 & HxL & _).
  rewrite EL, (proj2 (N.eqb_neq x L)) by done. cbn [app] in HN. apply NoDup_cons in HN as [Hxx HN].
  assert (exists n : loc, next h !! x = Some n /\ head (xs ++ [L]) = Some n) as (n & Hnx & Hhd).
  { destruct (xs ++ [L]) as [|n xs'] eqn:E; [by destruct xs|]. cbn in Hc. rewrite E in Hc. exists n. naive_solver. }
  assert (Hnx' : n <> x).
  { intros ->. apply Hxx. destruct (xs ++ [L]); [done|]. injection Hhd as <-. set_solver. }
  apply wp_bind, wp_load with n; [done|]. apply wp_bind, wp_load with true; [apply (n_in Hn)|].
  apply wp_bind, wp_assert; [done|]. apply wp_bind, wp_write; [apply (n_alloc Hn)|].
  apply wp_bind, wp_load with 1; [apply (n_refs Hn)|]. apply wp_bind, wp_assert; [done|].
  apply wp_bind. unfold Unref. apply wp_bind, wp_load with 1; [apply (n_refs Hn)|].
  apply wp_bind, wp_assert; [done|]. apply wp_bind, wp_write; [apply (n_alloc Hn)|].
  apply wp_bind, wp_load with 0; [cbn; by rewrite lookup_insert_eq|]. change (0 =? 0) with true. cbv iota.
  apply wp_bind, wp_load with false; [cbn; by rewrite lookup_insert_eq|]. apply wp_bind, wp_assert; [done|].
  apply wp_bind, wp_load with (m x); [apply (n_handle Hn)|]. apply wp_bind, wp_key with (hkey (m x)).
  { exists (m x), n. cbn. split; [apply (n_handle Hn)|]. split; [done|]. split; [apply (n_hash Hn)|].
    split; [done|]. split; [done|apply (n_alloc Hn)]. }
  apply wp_bind. unfold wp at 1, call_deleter. cbn [fst snd hkey]. apply wp_write; [apply (n_alloc Hn)|].
  apply (IH xs n); try done.
  - cbn. apply chain_ext with (next h).
    + intros y Hy. apply lookup_delete_ne. set_solver.
    + destruct xs; [done|]. cbn in Hc |- *. tauto.
  - intros y Hy. assert (y <> x) by set_solver. destruct (Hx y ltac:(set_solver)).
    split; cbn; rewrite ?lookup_delete_ne, ?lookup_insert_ne by done; try done. set_solver.
  - cbn in Hf. lia.
  - cbn. intros s' Ea Ec. apply HQ; [rewrite Ea; set_solver|]. rewrite Ec, <-app_assoc. done.
Qed.

Lemma wp_LRUCache_delete s sp Q :
  rep s sp -> (forall l e n, sp_entries sp !! l = Some (e, n) -> n = 0%nat) ->
  (forall s' (m : loc -> LRUHandle),
     (forall l e n, sp_entries sp !! l = Some (e, n) -> (l ∉ alloc (fst s')) /\ m l = e) ->
     calls (fst s') = sp_calls sp ++ map (fun l => the_call (m l)) (sp_lru sp) -> Q tt s') ->
  wp LRUCache_delete Q s.
Proof.
  intros Hrep Hz HQ. pose proof Hrep as (Hok & use & H & Hu).
  assert (use = []) as ->.
  { destruct use as [|l use]; [done|]. destruct (proj1 (Hu l) ltac:(set_solver)) as (e & n & He & _).
    by apply Hz in He. }
  unfold LRUCache_delete. eapply wp_bind, wp_get_core; [exact H|]. intros c _ -> -> _.
  apply wp_bind, wp_load with U; [by rewrite (ring_head _ _ _ _ (c_use H))|].
  apply wp_bind, wp_assert; [apply N.eqb_refl|].
  destruct (head (sp_lru sp ++ [L])) as [e|] eqn:Ee; [|by destruct (sp_lru sp)].
  apply wp_bind, wp_load with e; [by rewrite (ring_head _ _ _ _ (c_lru H))|]. apply wp_bind, wp_loop_bound.
  destruct (core_nodup H) as (HN & _). destruct (c_fields H) as (_ & EL & _ & _ & Ec).
  pose (m := fun l => match sp_entries sp !! l with Some (e, _) => e | None => Build_LRUHandle 0 0 0 [] 0 end).
  apply (wp_delete_loop _ (sp_lru sp) e s m); [done| |done| | | |].
  - destruct (c_lru H) as [Hc _]. cbn in Hc. destruct (sp_lru sp); [done|]. cbn in Hc |- *. tauto.
  - by rewrite Permutation_app_comm.
  - intros x Hx. destruct (proj1 (so_lru _ Hok x) Hx) as [ex Hex]. unfold m. rewrite Hex.
    pose proof (rep_ent L U cap D F s sp x ex 0 Hrep Hex) as Hent. apply (c_ents H) in Hent.
    unfold ent_of in Hent. cbn in Hent. by rewrite (proj2 (is_cached_true _ _ _) (so_zero _ Hok _ _ Hex)) in Hent.
  - by apply Nat.lt_succ_r, (core_lru_length H).
  - intros s' Ea Ec'. apply (HQ s' m); [|by rewrite Ec', Ec]. intros l el n Hl.
    pose proof (Hz l el n Hl) as ->. split; [|unfold m; by rewrite Hl].
    rewrite Ea. assert (l ∈ sp_lru sp) by (apply (so_lru _ Hok); by exists el). set_solver.
Qed.
End lifetime.
