(* ===== verification/LRUClient.v ===== *)
(** * LRUClient: clients of one shard of the cache

    Sequences of calls on a shard, the protocol its client keeps, and what
    the shard guarantees to it. *)

From S2P Require Import Prelude CacheMem HandleTable LRUCache LRUSpec.
#[local] Open Scope Z_scope.

(** One call on a shard, with the hash of the key where there is one. *)
Inductive call :=
  | CInsert (k : bytes) (h v ch d : Z)
  | CLookup (k : bytes) (h : Z)
  | CRelease (l : loc)
  | CErase (k : bytes) (h : Z)
  | CPrune
  | CTotalCharge.

(** What it returns: a handle, a number, or nothing. *)
Inductive reply := RHandle (l : loc) | RCharge (n : Z) | RUnit.

Definition run (o : call) : M reply :=
  match o with
  | CInsert k h v ch d => l ← Insert k h v ch d; mret (RHandle l)
  | CLookup k h => l ← Lookup k h; mret (RHandle l)
  | CRelease l => Release l ;; mret RUnit
  | CErase k h => Erase k h ;; mret RUnit
  | CPrune => Prune ;; mret RUnit
  | CTotalCharge => n ← TotalCharge; mret (RCharge n)
  end.

(** The client's side: hash values fit their type, a released handle is held,
    and there is room for one more table entry or one more reference. *)
Definition call_ok (sp : Spec) (o : call) : Prop :=
  match o with
  | CInsert _ h _ _ _ => is_uint 32 h /\ Z.of_nat (size (sp_dict sp)) < 2 ^ 31
  | CLookup k h => is_uint 32 h /\ forall l e n, sp_dict sp !! (k, h) = Some l ->
                     sp_entries sp !! l = Some (e, n) -> Z.of_nat n < 2 ^ 32 - 2
  | CRelease l => exists e n, sp_entries sp !! l = Some (e, S n)
  | CErase _ h => is_uint 32 h
  | _ => True
  end.

(** The specification of each call; the address of a new entry is free. *)
Inductive sp_step (capacity : Z) (sp : Spec) : call -> reply -> Spec -> Prop :=
  | step_Insert k h v ch d l :
      sp_entries sp !! l = None -> l <> nullptr ->
      sp_step capacity sp (CInsert k h v ch d) (RHandle l)
        (sp_Insert capacity l {| value := v; deleter := d; charge := ch; key_data := k; hash := h |} sp)
  | step_Lookup k h :
      sp_step capacity sp (CLookup k h) (RHandle (fst (sp_Lookup (k, h) sp))) (snd (sp_Lookup (k, h) sp))
  | step_Release l : sp_step capacity sp (CRelease l) RUnit (sp_Release l sp)
  | step_Erase k h : sp_step capacity sp (CErase k h) RUnit (sp_Erase (k, h) sp)
  | step_Prune : sp_step capacity sp CPrune RUnit (sp_Prune sp)
  | step_TotalCharge : sp_step capacity sp CTotalCharge (RCharge (sp_usage sp)) sp.

(** The states a shard of capacity [cap] goes through, with their abstract
    counterparts: construction, then the calls [os] (the latest first) of a
    client that keeps the protocol. *)
Inductive reach (L U : loc) (cap : Z) (D : gset loc) (F : heap) : list call -> state -> Spec -> Prop :=
  | reach_new s s1 s2 :
      raw_shard L U D F s -> LRUCache_new s = Some (tt, s1) -> SetCapacity cap s1 = Some (tt, s2) ->
      reach L U cap D F [] s2 sp_empty
  | reach_call os s sp o r s' sp' :
      reach L U cap D F os s sp -> call_ok sp o -> run o s = Some (r, s') -> sp_step cap sp o r sp' ->
      reach L U cap D F (o :: os) s' sp'.

(** The deleter calls owed for the entries inserted so far. *)
Definition inserted (os : list call) : list (Z * (bytes * Z)) :=
  flat_map (fun o => match o with CInsert k _ v _ d => [(d, (k, v))] | _ => [] end) os.
(** ** Lemmas *)

Lemma sp_step_det capacity sp o r sp1 sp2 : sp_step capacity sp o r sp1 -> sp_step capacity sp o r sp2 -> sp1 = sp2.
Proof. intros H1 H2. destruct H1; inversion H2; by subst. Qed.

Lemma sp_step_ok capacity sp o r sp' : spec_ok sp -> call_ok sp o -> sp_step capacity sp o r sp' -> spec_ok sp'.
Proof.
  intros Hok Ho Hs. destruct Hs as [k h v ch d l Hl Hl0|k h|l|k h| |].
  - by apply sp_shrink_ok, sp_add_ok.
  - by apply sp_Lookup_ok, Ho.
  - by apply sp_Release_ok.
  - by apply sp_Erase_ok.
  - unfold sp_Prune. generalize (length (sp_lru sp)). intros n. induction n as [|n IH]; [done|]. by apply sp_evict_ok.
  - done.
Qed.

(** Erasing and evicting never touch an entry with handles out. *)
Lemma sp_Erase_held kh sp l e n :
  sp_entries sp !! l = Some (e, S n) -> sp_entries (sp_Erase kh sp) !! l = Some (e, S n).
Proof.
  intros He. unfold sp_Erase. destruct (sp_dict sp !! kh) as [l'|]; [|done].
  destruct (sp_entries sp !! l') as [[e' [|n']]|] eqn:El; cbn; [|done|done].
  rewrite lookup_delete_ne; [done|]. congruence.
Qed.
Lemma sp_evict_held sp l e n : sp_entries sp !! l = Some (e, S n) -> sp_entries (sp_evict sp) !! l = Some (e, S n).
Proof.
  intros He. unfold sp_evict. destruct (sp_lru sp) as [|x lru]; [done|].
  destruct (sp_entries sp !! x) as [[]|]; [by apply sp_Erase_held|done].
Qed.
Lemma sp_shrink_held fuel capacity sp l e n :
  sp_entries sp !! l = Some (e, S n) -> sp_entries (sp_shrink fuel capacity sp) !! l = Some (e, S n).
Proof.
  revert sp. induction fuel as [|fuel IH]; intros sp He; [done|]. cbn [sp_shrink].
  destruct (_ && _); [|done]. by apply IH, sp_evict_held.
Qed.
Lemma sp_Prune_held sp l e n : sp_entries sp !! l = Some (e, S n) -> sp_entries (sp_Prune sp) !! l = Some (e, S n).
Proof.
  unfold sp_Prune. generalize (length (sp_lru sp)). intros m He. induction m as [|m IH]; [done|]. by apply sp_evict_held.
Qed.
Lemma sp_add_held capacity l0 e0 sp l e n :
  l0 <> l -> sp_entries sp !! l = Some (e, S n) -> sp_entries (sp_add capacity l0 e0 sp) !! l = Some (e, S n).
Proof.
  intros Hne He. unfold sp_add. destruct (capacity >? 0); cbn; rewrite lookup_insert_ne by done; [|done].
  by apply sp_Erase_held.
Qed.

(** An evicted or erased key is the only one to leave the dictionary. *)
Lemma sp_Erase_dict kh sp : sp_dict (sp_Erase kh sp) = delete kh (sp_dict sp).
Proof.
  unfold sp_Erase. destruct (sp_dict sp !! kh) as [l|] eqn:Ed; [|by rewrite delete_id].
  by destruct (sp_entries sp !! l) as [[e [|n]]|].
Qed.
Lemma sp_evict_dict_held sp kh l e n :
  spec_ok sp -> sp_dict sp !! kh = Some l -> sp_entries sp !! l = Some (e, S n) -> sp_dict (sp_evict sp) !! kh = Some l.
Proof.
  intros Hok Hd He. unfold sp_evict. destruct (sp_lru sp) as [|x lru] eqn:Hl; [done|].
  destruct (proj1 (so_lru _ Hok x) ltac:(rewrite Hl; set_solver)) as [ex Hx]. rewrite Hx, sp_Erase_dict.
  rewrite lookup_delete_ne; [done|]. intros <-. pose proof (so_zero _ Hok x ex Hx). congruence.
Qed.
Lemma sp_shrink_dict_held fuel capacity sp kh l e n :
  spec_ok sp -> sp_dict sp !! kh = Some l -> sp_entries sp !! l = Some (e, S n) ->
  sp_dict (sp_shrink fuel capacity sp) !! kh = Some l.
Proof.
  revert sp. induction fuel as [|fuel IH]; intros sp Hok Hd He; [done|]. cbn [sp_shrink].
  destruct (_ && _); [|done]. apply IH; [by apply sp_evict_ok|by eapply sp_evict_dict_held|by apply sp_evict_held].
Qed.
Lemma sp_evict_other sp kh l : spec_ok sp -> sp_dict (sp_evict sp) !! kh = Some l -> sp_dict sp !! kh = Some l.
Proof.
  intros Hok. unfold sp_evict. destruct (sp_lru sp) as [|x lru] eqn:Hl; [done|].
  destruct (sp_entries sp !! x) as [[ex n]|]; [|done]. rewrite sp_Erase_dict. by intros [_ ?]%lookup_delete_Some.
Qed.

(** The loop stops at the shortest prefix of the recency list that brings the
    usage down to the capacity. *)
Lemma sp_shrink_spec fuel capacity sp :
  spec_ok sp -> (length (sp_lru sp) <= fuel)%nat ->
  exists n, sp_shrink fuel capacity sp = Nat.iter n sp_evict sp /\ (n <= length (sp_lru sp))%nat /\
    sp_lru (Nat.iter n sp_evict sp) = drop n (sp_lru sp) /\
    (sp_usage (Nat.iter n sp_evict sp) <= capacity \/ n = length (sp_lru sp)) /\
    forall m, (m < n)%nat -> sp_usage (Nat.iter m sp_evict sp) > capacity.
Proof.
  revert sp. induction fuel as [|fuel IH]; intros sp Hok Hf.
  { exists 0%nat. cbn. split_and!; [done|lia|done|right; lia|lia]. }
  cbn [sp_shrink]. destruct (sp_usage sp >? capacity) eqn:Eu; cbn [andb].
  2:{ exists 0%nat. cbn. split_and!; [done|lia|done|left; rewrite Z.gtb_ltb, Z.ltb_ge in Eu; lia|lia]. }
  destruct (sp_lru sp) as [|l lru] eqn:Hl.
  { exists 0%nat. cbn. split_and!; [done|lia|done|by right|lia]. }
  rewrite bool_decide_eq_false_2 by done. cbn [negb]. pose proof (sp_evict_length sp l lru Hok Hl) as Hl'.
  destruct (IH (sp_evict sp)) as (n & En & Hn & Hdrop & Hu & Hm); [by apply sp_evict_ok|rewrite Hl'; cbn in Hf; lia|].
  exists (S n). rewrite Nat.iter_succ_r. rewrite Hl' in *. split_and!; [done|cbn; lia|done| |].
  - destruct Hu as [?| ->]; [by left|right; done].
  - intros [|m] Hlt; [cbn; rewrite Z.gtb_ltb, Z.ltb_lt in Eu; lia|]. rewrite Nat.iter_succ_r. apply Hm. lia.
Qed.

(** Live entries and the calls already made, together. *)
Definition accounts (sp : Spec) : list (Z * (bytes * Z)) :=
  sp_calls sp ++ map (fun x => the_call (fst (snd x))) (map_to_list (sp_entries sp)).

Lemma accounts_insert sp l e n d lru :
  sp_entries sp !! l = None ->
  accounts {| sp_entries := <[l := (e, n)]> (sp_entries sp); sp_dict := d; sp_lru := lru; sp_calls := sp_calls sp |}
    ≡ₚ the_call e :: accounts sp.
Proof.
  intros Hl. unfold accounts. cbn. rewrite map_to_list_insert by done. cbn. by rewrite Permutation_middle.
Qed.
Lemma accounts_count sp l e n m d lru :
  sp_entries sp !! l = Some (e, n) ->
  accounts {| sp_entries := <[l := (e, m)]> (sp_entries sp); sp_dict := d; sp_lru := lru; sp_calls := sp_calls sp |}
    ≡ₚ accounts sp.
Proof.
  intros Hl. unfold accounts. cbn. f_equiv. rewrite <-insert_delete_eq.
  rewrite map_to_list_insert by apply lookup_delete_eq. cbn.
  rewrite <-(insert_delete_id (sp_entries sp) l (e, n) Hl) at 2.
  rewrite map_to_list_insert by apply lookup_delete_eq. done.
Qed.
Lemma accounts_destroy sp l e n d lru :
  sp_entries sp !! l = Some (e, n) ->
  accounts (sp_destroy l e {| sp_entries := sp_entries sp; sp_dict := d; sp_lru := lru; sp_calls := sp_calls sp |})
    ≡ₚ accounts sp.
Proof.
  intros Hl. unfold accounts. cbn. rewrite <-app_assoc. f_equiv. cbn.
  rewrite <-(insert_delete_id (sp_entries sp) l (e, n) Hl) at 2.
  rewrite map_to_list_insert by apply lookup_delete_eq. done.
Qed.

Lemma accounts_Erase kh sp : accounts (sp_Erase kh sp) ≡ₚ accounts sp.
Proof.
  unfold sp_Erase. destruct (sp_dict sp !! kh) as [l|]; [|done].
  destruct (sp_entries sp !! l) as [[e [|n]]|] eqn:He; [|done|done]. by eapply accounts_destroy.
Qed.
Lemma accounts_evict sp : accounts (sp_evict sp) ≡ₚ accounts sp.
Proof.
  unfold sp_evict. destruct (sp_lru sp) as [|l lru]; [done|].
  destruct (sp_entries sp !! l) as [[e n]|]; [apply accounts_Erase|done].
Qed.
Lemma accounts_shrink fuel capacity sp : accounts (sp_shrink fuel capacity sp) ≡ₚ accounts sp.
Proof.
  revert sp. induction fuel as [|fuel IH]; intros sp; [done|]. cbn [sp_shrink].
  destruct (_ && _); [|done]. by rewrite IH, accounts_evict.
Qed.
Lemma sp_Erase_entries_None kh sp l : sp_entries sp !! l = None -> sp_entries (sp_Erase kh sp) !! l = None.
Proof.
  intros Hl. unfold sp_Erase. destruct (sp_dict sp !! kh) as [l'|]; [|done].
  destruct (sp_entries sp !! l') as [[e' [|n']]|]; cbn; [|done|done]. rewrite lookup_delete_None. by right.
Qed.
Lemma accounts_step capacity sp o r sp' :
  sp_step capacity sp o r sp' ->
  accounts sp' ≡ₚ match o with CInsert k _ v _ d => [(d, (k, v))] | _ => [] end ++ accounts sp.
Proof.
  intros [k h v ch d l Hl Hl0|k h|l|k h| |]; cbn [app].
  - unfold sp_Insert. rewrite accounts_shrink. unfold sp_add. destruct (capacity >? 0).
    + rewrite accounts_insert by (by apply sp_Erase_entries_None). by rewrite accounts_Erase.
    + by rewrite accounts_insert.
  - unfold sp_Lookup. destruct (sp_dict sp !! (k, h)) as [l|]; [|done].
    destruct (sp_entries sp !! l) as [[e n]|] eqn:He; [|done]. by apply (accounts_count sp l e n).
  - unfold sp_Release. destruct (sp_entries sp !! l) as [[e [|[|n]]]|] eqn:He; [done| | |done].
    + destruct (is_cached _ _ _); [by apply (accounts_count sp l e 1)|by apply (accounts_destroy sp l e 1)].
    + by apply (accounts_count sp l e (S (S n))).
  - apply accounts_Erase.
  - unfold sp_Prune. generalize (length (sp_lru sp)). intros n. induction n as [|n IH]; [done|]. cbn. by rewrite accounts_evict.
  - done.
Qed.
(** ** The simulation *)

Section simulation.
Context (L U : loc) (cap : Z) (D : gset loc) (F : heap).
#[local] Abbreviation rep := (rep L U cap D F).
#[local] Abbreviation reach := (reach L U cap D F).
Implicit Types (s : state) (sp : Spec).

Lemma run_simulates s sp o :
  rep s sp -> call_ok sp o ->
  wp (run o) (fun r s' => exists sp', sp_step cap sp o r sp' /\ rep s' sp') s.
Proof.
  intros H Ho. destruct o as [k h v ch d|k h|l|k h| |]; cbn [run call_ok] in *.
  - destruct Ho as [Hh Hs]. eapply wp_bind, wp_Insert; [exact H|done|done|]. intros l s' Hl Hl0 _ H'.
    apply wp_ret. eexists. split; [by constructor|done].
  - destruct Ho as [Hh Hc]. eapply wp_bind, wp_Lookup; [exact H|done|done|]. intros s' H'.
    apply wp_ret. eexists. split; [by constructor|done].
  - destruct Ho as (e & n & He). eapply wp_bind, wp_Release; [exact H|exact He|]. intros s' H'.
    apply wp_ret. eexists. split; [by constructor|done].
  - eapply wp_bind, wp_Erase; [exact H|done|]. intros s' H'. apply wp_ret. eexists. split; [by constructor|done].
  - eapply wp_bind, wp_Prune; [exact H|]. intros s' H'. apply wp_ret. eexists. split; [by constructor|done].
  - eapply wp_bind, wp_TotalCharge; [exact H|]. apply wp_ret. eexists. split; [by constructor|done].
Qed.

Lemma reach_rep os s sp : reach os s sp -> rep s sp.
Proof.
  induction 1 as [s s1 s2 Hraw H1 H2|os s sp o r s' sp' _ IH Ho Hr Hs].
  - assert (W : wp LRUCache_new (fun _ s' => LRUSpec.rep L U (capacity_ (snd s)) D F s' sp_empty) s)
      by (by eapply wp_LRUCache_new).
    unfold wp in W. rewrite H1 in W.
    assert (W2 : wp (SetCapacity cap) (fun _ s' => rep s' sp_empty) s1) by (by eapply wp_SetCapacity).
    unfold wp in W2. by rewrite H2 in W2.
  - pose proof (run_simulates s sp o IH Ho) as W. unfold wp in W. rewrite Hr in W.
    destruct W as (sp2 & Hs2 & W). by rewrite (sp_step_det _ _ _ _ _ _ Hs Hs2).
Qed.
Lemma reach_ok os s sp : reach os s sp -> spec_ok sp.
Proof. intros H. apply (reach_rep _ _ _ H). Qed.

Lemma reach_step os s sp o :
  reach os s sp -> call_ok sp o ->
  exists r s' sp', run o s = Some (r, s') /\ sp_step cap sp o r sp' /\ reach (o :: os) s' sp'.
Proof.
  intros H Ho. destruct (wp_elim _ _ _ (run_simulates s sp o (reach_rep _ _ _ H) Ho)) as (r & s' & Hr & sp' & Hs & _).
  exists r, s', sp'. split; [done|]. split; [done|]. by eapply reach_call.
Qed.
Lemma reach_run os s sp o r s' :
  reach os s sp -> call_ok sp o -> run o s = Some (r, s') ->
  exists sp', sp_step cap sp o r sp' /\ reach (o :: os) s' sp'.
Proof.
  intros H Ho Hr. destruct (reach_step os s sp o H Ho) as (r' & s1 & sp' & Hr' & Hs & H').
  assert (r' = r /\ s1 = s') as [-> ->] by (split; congruence). by exists sp'.
Qed.

Lemma reach_accounts os s sp : reach os s sp -> accounts sp ≡ₚ inserted os.
Proof.
  induction 1 as [|os s sp o r s' sp' _ IH _ _ Hs]; [done|].
  rewrite (accounts_step _ _ _ _ _ Hs), IH. done.
Qed.

(** What memory holds about a live entry. *)
Lemma rep_node s sp l e n :
  rep s sp -> sp_entries sp !! l = Some (e, n) ->
  node_ok L U D (fst s) l (Ent e (Z.of_nat n + Z.b2z (is_cached (sp_dict sp) l e)) (is_cached (sp_dict sp) l e)).
Proof.
  intros H He. pose proof (rep_ent _ _ _ _ _ s sp l e n H He) as Hx. destruct H as (_ & use & H & _). by apply (c_ents H) in Hx.
Qed.
End simulation.

(** A shard of capacity 0 caches nothing. *)
Lemma sp_step_capacity_0 capacity sp o r sp' :
  capacity <= 0 -> spec_ok sp -> sp_step capacity sp o r sp' -> sp_dict sp = ∅ -> sp_dict sp' = ∅.
Proof.
  intros Hc Hok Hs Hd. assert (HE : forall kh, sp_Erase kh sp = sp) by (intros; unfold sp_Erase; by rewrite Hd, lookup_empty).
  assert (Hl : sp_lru sp = []).
  { destruct (sp_lru sp) as [|l lru] eqn:El; [done|].
    destruct (proj1 (so_lru _ Hok l) ltac:(rewrite El; set_solver)) as [e He]. apply (so_zero _ Hok) in He.
    by rewrite Hd in He. }
  destruct Hs as [k h v ch d l Hn _|k h|l|k h| |].
  - unfold sp_Insert, sp_add. rewrite Z.gtb_ltb, (proj2 (Z.ltb_ge 0 capacity)) by done. cbn [sp_lru]. by rewrite Hl.
  - unfold sp_Lookup. by rewrite Hd, lookup_empty.
  - unfold sp_Release. destruct (sp_entries sp !! l) as [[e [|[|n]]]|]; [done| |done|done]. by destruct (is_cached _ _ _).
  - by rewrite HE.
  - unfold sp_Prune. by rewrite Hl.
  - done.
Qed.
Lemma reach_capacity_0 L U cap D F os s sp : cap <= 0 -> reach L U cap D F os s sp -> sp_dict sp = ∅.
Proof.
  intros Hc. induction 1 as [|os s sp o r s' sp' H IH _ _ Hs]; [done|].
  eapply sp_step_capacity_0; [done| |done|done]. by eapply reach_ok.
Qed.

(** ** Properties *)

(** C1. (refinement).  Construction succeeds on any memory, and from every state
    a protocol-keeping client can bring a shard to, every call it may make succeeds:
    no assertion fails, no freed or uninitialised member is read, every loop ends;
    the reply and the next state are those of the specification on a dictionary, a
    recency list and handle counts. *)
Theorem shard_refines_spec (L U : loc) (cap : Z) (D : gset loc) (F : heap) :
  (forall s, raw_shard L U D F s ->
     exists s1 s2, LRUCache_new s = Some (tt, s1) /\ SetCapacity cap s1 = Some (tt, s2) /\ reach L U cap D F [] s2 sp_empty) /\
  (forall os s sp, reach L U cap D F os s sp ->
     rep L U cap D F s sp /\
     forall o, call_ok sp o ->
       exists r s' sp', run o s = Some (r, s') /\ sp_step cap sp o r sp' /\ reach L U cap D F (o :: os) s' sp').
Proof.
  split.
  - intros s Hraw.
    assert (W : wp LRUCache_new (fun _ s' => rep L U (capacity_ (snd s)) D F s' sp_empty) s) by (by eapply wp_LRUCache_new).
    apply wp_elim in W as ([] & s1 & E1 & H1).
    assert (W : wp (SetCapacity cap) (fun _ s' => rep L U cap D F s' sp_empty) s1) by (by eapply wp_SetCapacity).
    apply wp_elim in W as ([] & s2 & E2 & H2). exists s1, s2. split; [done|]. split; [done|]. by eapply reach_new.
  - intros os s sp H. split; [by eapply reach_rep|]. intros o Ho. by apply reach_step.
Qed.

(** C2. (the two lists).  In every reachable state the two circular lists are
    well formed and disjoint; the LRU list holds exactly the cached entries with one
    reference, the in-use list those with more, an entry in neither is no longer
    cached; and the usage counter is the sum of the charges of the cached entries
    modulo 2^64. *)
Theorem shard_lists (L U : loc) (cap : Z) (D : gset loc) (F : heap) os s sp (H : reach L U cap D F os s sp) :
  exists lru use,
    ring (next (fst s)) (prev (fst s)) L lru /\ ring (next (fst s)) (prev (fst s)) U use /\ NoDup (lru ++ use) /\
    (forall l, l ∈ lru -> refs (fst s) !! l = Some 1 /\ in_cache (fst s) !! l = Some true) /\
    (forall l, l ∈ use -> in_cache (fst s) !! l = Some true /\ exists r, refs (fst s) !! l = Some r /\ 2 <= r) /\
    (forall l e n, sp_entries sp !! l = Some (e, n) -> l ∉ lru ++ use -> in_cache (fst s) !! l = Some false) /\
    usage_ (snd s) = u64 (total (sp_charge sp) (sp_dict sp)).
Proof.
  pose proof (reach_rep _ _ _ _ _ _ _ _ H) as Hrep. pose proof Hrep as (Hok & use & Hc & Hu).
  exists (sp_lru sp), use. split; [apply (c_lru Hc)|]. split; [apply (c_use Hc)|].
  split; [by pose proof (c_nodup Hc) as [_ [_ ?]%NoDup_cons]%NoDup_cons|].
  split; [|split; [|split; [|apply (c_fields Hc)]]].
  - intros l [e He]%(so_lru _ Hok). destruct (rep_node _ _ _ _ _ _ _ _ _ _ Hrep He) as [_ Hr Hi _ _ _]. cbn in Hr, Hi.
    by rewrite (proj2 (is_cached_true _ _ _) (so_zero _ Hok _ _ He)) in Hr, Hi.
  - intros l (e & n & He & Hd)%Hu. destruct (rep_node _ _ _ _ _ _ _ _ _ _ Hrep He) as [_ Hr Hi _ _ _].
    cbn [e_refs e_in] in Hr, Hi. rewrite (proj2 (is_cached_true _ _ _) Hd) in Hr, Hi. cbn [Z.b2z] in Hr.
    split; [done|]. eexists. split; [exact Hr|]. lia.
  - intros l e n He Hl. destruct (rep_node _ _ _ _ _ _ _ _ _ _ Hrep He) as [_ _ Hi _ _ _]. cbn [e_in] in Hi.
    rewrite Hi. f_equal. apply is_cached_false. intros Hd. apply Hl, elem_of_app. destruct n as [|n].
    + left. apply (so_lru _ Hok). by exists e.
    + right. apply Hu. by exists e, n.
Qed.

(** (insertion and eviction).  An insertion returns a fresh handle, under
    which the key is then cached (unless the capacity is 0); the entries it evicts
    are the oldest ones of the recency list, as few of them as bring the usage down
    to the capacity, and it stops above the capacity only when none is left to evict. *)
Theorem shard_insert_evicts (L U : loc) (cap : Z) (D : gset loc) (F : heap) os s sp k h v ch d r s'
  (H : reach L U cap D F os s sp) (Ho : call_ok sp (CInsert k h v ch d)) (Hr : run (CInsert k h v ch d) s = Some (r, s')) :
  exists l sp', r = RHandle l /\ sp_entries sp !! l = None /\ reach L U cap D F (CInsert k h v ch d :: os) s' sp' /\
    sp_dict sp' !! (k, h) = (if cap >? 0 then Some l else None) /\
    (usage_ (snd s') <= cap \/ sp_lru sp' = []) /\
    let added := sp_add cap l {| value := v; deleter := d; charge := ch; key_data := k; hash := h |} sp in
    exists n, sp' = Nat.iter n sp_evict added /\ sp_lru sp' = drop n (sp_lru added) /\
      forall m, (m < n)%nat -> sp_usage (Nat.iter m sp_evict added) > cap.
Proof.
  destruct (reach_run _ _ _ _ _ _ _ _ _ _ _ H Ho Hr) as (sp' & Hs & H').
  assert (H0 : cap <= 0 -> sp_dict sp' = ∅) by (intros; by eapply reach_capacity_0).
  destruct (reach_rep _ _ _ _ _ _ _ _ H') as (_ & use & Hcore & _).
  inversion Hs as [? ? ? ? ? l Hl Hl0| | | | |]; subst. exists l. eexists. split; [done|]. split; [done|]. split; [exact H'|].
  set (e := {| value := v |}) in *. pose proof (sp_add_ok cap l e sp (reach_ok _ _ _ _ _ _ _ _ H) Hl) as Hadd.
  destruct (sp_shrink_spec (length (sp_lru (sp_add cap l e sp))) cap _ Hadd ltac:(lia)) as (n & En & Hn & Hd & Hu & Hm).
  unfold sp_Insert in *. split; [|split].
  - destruct (cap >? 0) eqn:Ec; [|rewrite H0 by (rewrite Z.gtb_ltb, Z.ltb_ge in Ec; lia); apply lookup_empty].
    apply (sp_shrink_dict_held _ _ _ _ _ e 0); [done| |]; unfold sp_add; rewrite Ec; cbn; by rewrite lookup_insert_eq.
  - destruct (c_fields Hcore) as (_ & _ & _ & -> & _). cbn [g_usage]. rewrite En, Hd.
    destruct Hu as [?| ->]; [by left|right]. by rewrite drop_ge.
  - exists n. split; [done|]. split; [by rewrite En|done].
Qed.

(** C3. (held handles).  Whatever is called on the shard, an entry a client
    holds keeps its key and its value and stays in memory, cached or not, until that
    client releases it. *)
Theorem shard_held_entries_survive (L U : loc) (cap : Z) (D : gset loc) (F : heap) os s sp o r s' l e n
  (H : reach L U cap D F os s sp) (Ho : call_ok sp o) (Hr : run o s = Some (r, s'))
  (He : sp_entries sp !! l = Some (e, S n)) (Hl : o <> CRelease l) :
  handle (fst s') !! l = Some e /\ l ∈ alloc (fst s') /\
  exists sp' m, reach L U cap D F (o :: os) s' sp' /\ sp_entries sp' !! l = Some (e, S m) /\ (n <= m)%nat.
Proof.
  destruct (reach_run _ _ _ _ _ _ _ _ _ _ _ H Ho Hr) as (sp' & Hs & H').
  assert (exists m, sp_entries sp' !! l = Some (e, S m) /\ (n <= m)%nat) as (m & Hm & Hnm).
  { destruct Hs as [k h v ch d l0 Hl0 _|k h|l0|k h| |].
    - exists n. split; [|lia]. apply sp_shrink_held, sp_add_held; [congruence|done].
    - unfold sp_Lookup. destruct (sp_dict sp !! (k, h)) as [l0|]; [|by exists n].
      destruct (sp_entries sp !! l0) as [[e0 n0]|] eqn:He0; cbn; [|by exists n].
      destruct (decide (l0 = l)) as [->|?]; [|exists n; by rewrite lookup_insert_ne].
      exists (S n). rewrite lookup_insert_eq. split; [congruence|lia].
    - assert (l0 <> l) by congruence. exists n. split; [|lia]. unfold sp_Release.
      destruct (sp_entries sp !! l0) as [[e0 [|[|n0]]]|]; [done| |cbn; by rewrite lookup_insert_ne|done].
      destruct (is_cached _ _ _); cbn; [by rewrite lookup_insert_ne|by rewrite lookup_delete_ne].
    - exists n. split; [|lia]. by apply sp_Erase_held.
    - exists n. split; [|lia]. by apply sp_Prune_held.
    - by exists n. }
  destruct (rep_node _ _ _ _ _ _ _ _ _ _ (reach_rep _ _ _ _ _ _ _ _ H') Hm) as [Hh _ _ _ Ha _].
  split; [done|]. split; [done|]. by exists sp', m.
Qed.

Lemma entries_lru sp :
  spec_ok sp -> (forall l e n, sp_entries sp !! l = Some (e, n) -> n = 0%nat) -> forall m : loc -> LRUHandle,
  (forall l e n, sp_entries sp !! l = Some (e, n) -> m l = e) ->
  map_to_list (sp_entries sp) ≡ₚ map (fun l => (l, (m l, 0%nat))) (sp_lru sp).
Proof.
  intros Hok Hz m Hm. apply NoDup_Permutation; [apply NoDup_map_to_list| |].
  - apply (NoDup_fmap_2_strong (fun l => (l, (m l, 0%nat)))); [|apply (so_nodup _ Hok)]. intros x y _ _ [= ->]. done.
  - intros [l [e n]]. rewrite elem_of_map_to_list, list_elem_of_fmap. split.
    + intros He. pose proof (Hz _ _ _ He) as ->. exists l. rewrite (Hm _ _ _ He). split; [done|].
      apply (so_lru _ Hok). by exists e.
    + intros (l' & [= -> -> ->] & [e' He]%(so_lru _ Hok)). by rewrite (Hm _ _ _ He).
Qed.

(** C4. (deleters).  At any time, the deleter calls made so far and those owed
    to the live entries are, together, one for each entry inserted; once all
    handles are released the destructor succeeds, frees every entry, and each deleter
    has been called exactly once. *)
Theorem shard_deleters (L U : loc) (cap : Z) (D : gset loc) (F : heap) os s sp (H : reach L U cap D F os s sp) :
  calls (fst s) ++ map (fun x => the_call (fst (snd x))) (map_to_list (sp_entries sp)) ≡ₚ inserted os /\
  ((forall l e n, sp_entries sp !! l = Some (e, n) -> n = 0%nat) ->
   exists s', LRUCache_delete s = Some (tt, s') /\ calls (fst s') ≡ₚ inserted os /\
     forall l, is_Some (sp_entries sp !! l) -> l ∉ alloc (fst s')).
Proof.
  pose proof (reach_rep _ _ _ _ _ _ _ _ H) as Hrep. pose proof (reach_accounts _ _ _ _ _ _ _ _ H) as Ha.
  pose proof Hrep as (Hok & use & Hc & _).
  assert (Ec : calls (fst s) = sp_calls sp) by apply (c_fields Hc). split; [by rewrite Ec|]. intros Hz.
  assert (W : wp LRUCache_delete (fun _ s' => calls (fst s') ≡ₚ inserted os /\
            forall l, is_Some (sp_entries sp !! l) -> l ∉ alloc (fst s')) s).
  { eapply wp_LRUCache_delete; [exact Hrep|exact Hz|]. intros s' m Hm Ec'. split.
    - rewrite Ec', <-Ha. unfold accounts. f_equiv.
      rewrite (entries_lru sp Hok Hz m) by (intros ? ? ? Hx; by destruct (Hm _ _ _ Hx)). by rewrite map_map.
    - intros l [[e n] He]. by destruct (Hm _ _ _ He). }
  apply wp_elim in W as ([] & s' & E & ? & ?). by exists s'.
Qed.

Lemma sp_evict_sub sp :
  sp_dict (sp_evict sp) ⊆ sp_dict sp /\ sp_entries (sp_evict sp) ⊆ sp_entries sp.
Proof.
  unfold sp_evict. destruct (sp_lru sp) as [|x lru]; [done|]. destruct (sp_entries sp !! x) as [[ex n]|]; [|done].
  rewrite sp_Erase_dict. split; [apply delete_subseteq|]. unfold sp_Erase.
  destruct (sp_dict sp !! hkey ex) as [l|]; [|done].
  destruct (sp_entries sp !! l) as [[e [|m]]|]; cbn; [apply delete_subseteq|done|done].
Qed.
Lemma sp_iter_sub n sp :
  sp_dict (Nat.iter n sp_evict sp) ⊆ sp_dict sp /\ sp_entries (Nat.iter n sp_evict sp) ⊆ sp_entries sp.
Proof.
  induction n as [|n [IH1 IH2]]; [done|]. cbn. destruct (sp_evict_sub (Nat.iter n sp_evict sp)) as [H1 H2].
  split; by etrans.
Qed.

Lemma sp_Prune_lru sp : spec_ok sp -> sp_lru (sp_Prune sp) = [].
Proof.
  unfold sp_Prune. remember (length (sp_lru sp)) as n eqn:Hn. revert sp Hn.
  induction n as [|n IH]; intros sp Hn Hok; [by apply nil_length_inv|]. rewrite Nat.iter_succ_r.
  destruct (sp_lru sp) as [|l lru] eqn:El; [done|]. injection Hn as ->.
  apply IH; [by rewrite (sp_evict_length sp l lru)|by apply sp_evict_ok].
Qed.
Lemma sp_Prune_ok sp : spec_ok sp -> spec_ok (sp_Prune sp).
Proof. intros H. apply (sp_step_ok 0 sp CPrune RUnit); [done|done|constructor]. Qed.

Lemma sp_Prune_dict sp kh l e n :
  spec_ok sp -> sp_dict sp !! kh = Some l -> sp_entries sp !! l = Some (e, n) ->
  sp_dict (sp_Prune sp) !! kh = if decide (n = 0%nat) then None else Some l.
Proof.
  intros Hok Hd He. destruct (sp_iter_sub (length (sp_lru sp)) sp) as [H1 H2]. fold (sp_Prune sp) in H1, H2.
  destruct (decide (n = 0%nat)) as [->|Hn].
  - destruct (sp_dict (sp_Prune sp) !! kh) as [l'|] eqn:Ed; [exfalso|done].
    pose proof (lookup_weaken _ _ _ _ Ed H1) as Hd'. assert (l' = l) as -> by congruence.
    destruct (so_dict _ (sp_Prune_ok _ Hok) _ _ Ed) as (e' & n' & He' & _).
    pose proof (lookup_weaken _ _ _ _ He' H2) as He2. assert (e' = e /\ n' = 0%nat) as [-> ->] by (split; congruence).
    assert (Hl : l ∈ sp_lru (sp_Prune sp)) by (apply (so_lru _ (sp_Prune_ok _ Hok)); by exists e).
    rewrite sp_Prune_lru in Hl by done. by apply not_elem_of_nil in Hl.
  - destruct n as [|n]; [done|]. clear H1 H2. unfold sp_Prune. generalize (length (sp_lru sp)). intros m.
    assert (spec_ok (Nat.iter m sp_evict sp) /\ sp_dict (Nat.iter m sp_evict sp) !! kh = Some l /\
      sp_entries (Nat.iter m sp_evict sp) !! l = Some (e, S n)) as (_ & ? & _); [|done].
    induction m as [|m (IH1 & IH2 & IH3)]; [done|]. cbn.
    split; [by apply sp_evict_ok|]. split; [by eapply sp_evict_dict_held|by apply sp_evict_held].
Qed.

(** (dictionary).  Looking a key up returns the handle cached under it, or
    nullptr, and leaves the dictionary alone; erasing removes that key only; pruning
    removes the entries without handles; and an insertion changes the other keys
    only by evicting entries without handles. *)
Theorem shard_dictionary (L U : loc) (cap : Z) (D : gset loc) (F : heap) os s sp o r s'
  (H : reach L U cap D F os s sp) (Ho : call_ok sp o) (Hr : run o s = Some (r, s')) :
  exists sp', reach L U cap D F (o :: os) s' sp' /\
  match o with
  | CLookup k h => r = RHandle (default nullptr (sp_dict sp !! (k, h))) /\ sp_dict sp' = sp_dict sp
  | CErase k h => sp_dict sp' = delete (k, h) (sp_dict sp)
  | CInsert k h _ _ _ => forall kh l e n, kh <> (k, h) -> sp_dict sp !! kh = Some l ->
      sp_entries sp !! l = Some (e, n) -> sp_dict sp' !! kh = Some l \/ (n = 0%nat /\ sp_dict sp' !! kh = None)
  | CRelease _ | CTotalCharge => sp_dict sp' = sp_dict sp
  | CPrune => forall kh l e n, sp_dict sp !! kh = Some l -> sp_entries sp !! l = Some (e, n) ->
      sp_dict sp' !! kh = if decide (n = 0%nat) then None else Some l
  end.
Proof.
  destruct (reach_run _ _ _ _ _ _ _ _ _ _ _ H Ho Hr) as (sp' & Hs & H'). exists sp'. split; [exact H'|].
  pose proof (reach_ok _ _ _ _ _ _ _ _ H) as Hok. destruct Hs as [k h v ch d l0 Hl0 _|k h|l0|k h| |].
  - intros kh l e n Hne Hd He. unfold sp_Insert. set (e0 := {| value := v |}).
    set (added := sp_add cap l0 e0 sp). pose proof (sp_add_ok cap l0 e0 sp Hok Hl0) as Hadd.
    assert (Hd' : sp_dict added !! kh = Some l).
    { unfold added, sp_add. destruct (cap >? 0); [|done]. cbn. rewrite lookup_insert_ne by (intros <-; by apply Hne).
      rewrite sp_Erase_dict, lookup_delete_ne; [done|]. intros <-. by apply Hne. }
    destruct n as [|n].
    + destruct (sp_shrink_spec (length (sp_lru added)) cap added Hadd ltac:(lia)) as (m & -> & _).
      destruct (sp_dict (Nat.iter m sp_evict added) !! kh) as [l'|] eqn:Ed; [left|by right].
      pose proof (lookup_weaken _ _ _ _ Ed (proj1 (sp_iter_sub m added))). congruence.
    + left. apply (sp_shrink_dict_held _ _ _ _ _ e n); [done|done|]. apply sp_add_held; [congruence|done].
  - unfold sp_Lookup. destruct (sp_dict sp !! (k, h)) as [l|] eqn:Ed; [|done].
    destruct (so_dict _ Hok _ _ Ed) as (e & n & -> & _). done.
  - unfold sp_Release. destruct (sp_entries sp !! l0) as [[e [|[|n]]]|]; [done| |done|done]. by destruct (is_cached _ _ _).
  - apply sp_Erase_dict.
  - intros kh l e n. by apply sp_Prune_dict.
  - done.
Qed.
(** ** Witnesses *)

(** A memory holding the two heads of a shard, and the shard of capacity 10
    built in it; then with one entry of charge 4 under the key "a". *)
Definition ex_heap : heap :=
  {| alloc := {[0%N; 1%N; 2%N]}; next := ∅; prev := ∅; next_hash := ∅; in_cache := ∅; refs := ∅; handle := ∅;
     calls := [] |}.
Definition ex_shard : state :=
  (ex_heap, {| capacity_ := 0; usage_ := 0; lru_ := 1%N; in_use_ := 2%N;
               table_ := {| length_ := 0; elems_ := 0; list_ := [] |} |}).
Definition ex_after {A} (m : M A) (s : state) : state := match m s with Some (_, s') => s' | None => s end.
Definition ex_insert : call := CInsert [x61] 7 100 4 1.
Definition ex_s1 : state := ex_after (LRUCache_new ;; SetCapacity 10) ex_shard.
Definition ex_s2 : state := ex_after (run ex_insert) ex_s1.

Lemma ex_raw : raw_shard 1%N 2%N ∅ ex_heap ex_shard.
Proof. unfold raw_shard. cbn. split_and!; try done; set_solver. Qed.
Lemma ex_reach1 : reach 1%N 2%N 10 ∅ ex_heap [] ex_s1 sp_empty.
Proof. apply reach_new with ex_shard (ex_after LRUCache_new ex_shard); [apply ex_raw|by vm_compute..]. Qed.
Lemma ex_call_ok : call_ok sp_empty ex_insert.
Proof. by vm_compute. Qed.
Lemma ex_run : run ex_insert ex_s1 = Some (RHandle 3%N, ex_s2).
Proof. by vm_compute. Qed.
Lemma ex_reach2 : exists sp, reach 1%N 2%N 10 ∅ ex_heap [ex_insert] ex_s2 sp /\ sp_dict sp !! ([x61], 7) = Some 3%N /\
  exists e, sp_entries sp !! 3%N = Some (e, 1%nat) /\ value e = 100.
Proof.
  destruct (reach_run _ _ _ _ _ _ _ _ _ _ _ ex_reach1 ex_call_ok ex_run) as (sp & Hs & H). exists sp. split; [done|].
  inversion Hs; subst. split; [done|]. eexists. split; [by vm_compute|done].
Qed.

Lemma shard_refines_spec_witness :
  exists s2, reach 1%N 2%N 10 ∅ ex_heap [] s2 sp_empty /\ exists r s', run ex_insert s2 = Some (r, s').
Proof.
  destruct (shard_refines_spec 1%N 2%N 10 ∅ ex_heap) as [Hnew Hcall].
  destruct (Hnew ex_shard ex_raw) as (s1 & s2 & _ & _ & H). exists s2. split; [exact H|].
  destruct (Hcall _ _ _ H) as [_ Hc]. destruct (Hc ex_insert ex_call_ok) as (r & s' & sp' & E & _). by exists r, s'.
Defined.

Lemma shard_lists_witness :
  exists lru use, ring (next (fst ex_s1)) (prev (fst ex_s1)) 1%N lru /\ ring (next (fst ex_s1)) (prev (fst ex_s1)) 2%N use.
Proof.
  destruct (shard_lists 1%N 2%N 10 ∅ ex_heap _ _ _ ex_reach1) as (lru & use & H1 & H2 & _). by exists lru, use.
Defined.

Lemma shard_insert_evicts_witness :
  exists l sp', RHandle 3%N = RHandle l /\ sp_dict sp' !! ([x61], 7) = Some l.
Proof.
  destruct (shard_insert_evicts 1%N 2%N 10 ∅ ex_heap _ _ _ _ _ _ _ _ _ _ ex_reach1 ex_call_ok ex_run)
    as (l & sp' & E & _ & _ & Hd & _). by exists l, sp'.
Defined.

Lemma shard_held_entries_survive_witness : exists e, handle (fst (ex_after (run CPrune) ex_s2)) !! 3%N = Some e.
Proof.
  destruct ex_reach2 as (sp & H & _ & e & He & _). exists e.
  eapply (shard_held_entries_survive 1%N 2%N 10 ∅ ex_heap _ _ sp CPrune RUnit _ 3%N e 0); [exact H|exact I| |exact He|discriminate].
  by vm_compute.
Defined.

Lemma shard_deleters_witness : exists s', LRUCache_delete ex_s1 = Some (tt, s') /\ calls (fst s') ≡ₚ [].
Proof.
  destruct (shard_deleters 1%N 2%N 10 ∅ ex_heap _ _ _ ex_reach1) as [_ H].
  destruct H as (s' & E & Hc & _); [intros l e n [=]|]. by exists s'.
Defined.

Lemma shard_dictionary_witness :
  exists sp, reach 1%N 2%N 10 ∅ ex_heap [ex_insert] ex_s2 sp /\
    RHandle 3%N = RHandle (default nullptr (sp_dict sp !! ([x61], 7))).
Proof.
  destruct ex_reach2 as (sp & H & Hd & e & He & _).
  assert (Ho : call_ok sp (CLookup [x61] 7)).
  { split; [by vm_compute|]. intros l e' n' Hl He'. rewrite Hd in Hl. injection Hl as <-. rewrite He in He'. by injection He' as <- <-. }
  exists sp. split; [exact H|].
  destruct (shard_dictionary 1%N 2%N 10 ∅ ex_heap _ _ sp (CLookup [x61] 7) (RHandle 3%N)
    (ex_after (run (CLookup [x61] 7)) ex_s2) H Ho ltac:(by vm_compute)) as (sp' & _ & Hr & _).
  exact Hr.
Defined.
