(* ===== verification/ShardedLRUCache.v ===== *)
(** * ShardedLRUCache: the cache of [src/util/cache.cpp]

    [ShardedLRUCache]: sixteen shards over one heap, chosen by the top bits of
    the hash of the key, and the numbering of clients. *)

From S2P Require Import Prelude Coding Hash CacheMem HandleTable LRUCache LRUSpec LRUClient.
#[local] Open Scope Z_scope.

(** ** The code *)

Record ShardedLRUCache := {
  sh_heap : heap;
  shard_ : list LRUCache;
  last_id_ : Z
}.

Definition SM (A : Type) : Type := ShardedLRUCache -> option (A * ShardedLRUCache).
#[export] Instance SM_ret : MRet SM := fun _ a x => Some (a, x).
#[export] Instance SM_bind : MBind SM := fun _ _ k m x => '(a, x') ← m x; k a x'.

Definition kNumShardBits : Z := 4.
Definition kNumShards : Z := 1 .<< kNumShardBits.

(** A call on [shard_[i]]. *)
Definition on_shard {A} (i : Z) (m : M A) : SM A := fun x =>
  match shard_ x !! Z.to_nat i with
  | None => None
  | Some c =>
      '(a, (h, c')) ← m (sh_heap x, c);
      Some (a, {| sh_heap := h; shard_ := <[Z.to_nat i := c']> (shard_ x); last_id_ := last_id_ x |})
  end.
Definition set_last_id (n : Z) : SM unit := fun x =>
  Some (tt, {| sh_heap := sh_heap x; shard_ := shard_ x; last_id_ := n |}).
(** The member of a handle. *)
Definition read_handle (l : loc) : SM LRUHandle := fun x => e ← handle (sh_heap x) !! l; Some (e, x).

(** [for (int s = 0; s < kNumShards; s++)]. *)
Fixpoint for_shards (indices : list nat) (body : Z -> SM unit) : SM unit :=
  match indices with
  | [] => mret tt
  | s :: indices => body (Z.of_nat s) ;; for_shards indices body
  end.
Definition all_shards : list nat := seq 0 (Z.to_nat kNumShards).

Section with_port.
Context `{Port}.

Definition HashStringPiece (s : bytes) : Z := Hash.Hash s 0.
Definition Shard (hash : Z) : Z := hash .>> (32 - kNumShardBits).

Definition ShardedLRUCache_new (capacity : Z) : SM unit :=
  for_shards all_shards (fun s => on_shard s LRUCache_new) ;;
  set_last_id 0 ;;
  let per_shard := u64 (capacity + (kNumShards - 1)) / kNumShards in
  for_shards all_shards (fun s => on_shard s (SetCapacity per_shard)).

Definition Sharded_Insert (key : bytes) (value charge deleter : Z) : SM loc :=
  let hash := HashStringPiece key in
  on_shard (Shard hash) (Insert key hash value charge deleter).
Definition Sharded_Lookup (key : bytes) : SM loc :=
  let hash := HashStringPiece key in
  on_shard (Shard hash) (Lookup key hash).
Definition Sharded_Release (handle : loc) : SM unit :=
  h ← read_handle handle;
  on_shard (Shard (hash h)) (Release handle).
Definition Sharded_Erase (key : bytes) : SM unit :=
  let hash := HashStringPiece key in
  on_shard (Shard hash) (Erase key hash).
Definition Sharded_Value (handle : loc) : SM Z := h ← read_handle handle; mret (value h).
Definition NewId : SM Z := fun x =>
  let id := u64 (last_id_ x + 1) in
  Some (id, {| sh_heap := sh_heap x; shard_ := shard_ x; last_id_ := id |}).
Definition Sharded_Prune : SM unit := for_shards all_shards (fun s => on_shard s Prune).

Fixpoint Sharded_TotalCharge_loop (indices : list nat) (total : Z) : SM Z :=
  match indices with
  | [] => mret total
  | s :: indices =>
      n ← on_shard (Z.of_nat s) TotalCharge;
      Sharded_TotalCharge_loop indices (u64 (total + n))
  end.
Definition Sharded_TotalCharge : SM Z := Sharded_TotalCharge_loop all_shards 0.
End with_port.
(** ** The shards in one heap *)

(** The same abstract state, the log of the deleter calls being the heap's. *)
Definition with_calls (log : list (Z * (bytes * Z))) (sp : Spec) : Spec :=
  {| sp_entries := sp_entries sp; sp_dict := sp_dict sp; sp_lru := sp_lru sp; sp_calls := log |}.

(** The locations of a shard: its two heads and its live entries. *)
Definition owned (c : LRUCache) (sp : Spec) : gset loc := {[lru_ c; in_use_ c]} ∪ dom (sp_entries sp).

Lemma elem_of_owned c sp l : l ∈ owned c sp <-> l = lru_ c \/ l = in_use_ c \/ is_Some (sp_entries sp !! l).
Proof. unfold owned. rewrite !elem_of_union, !elem_of_singleton, elem_of_dom. tauto. Qed.

Definition shard_rep (cap : Z) (h : heap) (c : LRUCache) (sp : Spec) : Prop :=
  rep (lru_ c) (in_use_ c) cap ∅ h (h, c) (with_calls (calls h) sp).

Lemma shard_rep_owned cap h c sp l : shard_rep cap h c sp -> l ∈ owned c sp -> l ∈ alloc h /\ l <> nullptr.
Proof.
  intros (_ & use & H & _) [->|[->|[[e n] He]]]%elem_of_owned; [by split; apply (c_heads H)..|].
  assert (Hx : ents_of (sp_dict sp) (sp_entries sp) !! l = Some (ent_of (sp_dict sp) l (e, n))) by
    (by rewrite lookup_ents_of, He). destruct (c_ents H _ _ Hx). tauto.
Qed.

(** Any set of allocated locations outside the shard may serve as its frame. *)
Lemma shard_rep_frame cap h c sp D :
  shard_rep cap h c sp -> (forall l, l ∈ D -> l ∈ alloc h) -> (forall l, l ∈ D -> l ∉ owned c sp) ->
  rep (lru_ c) (in_use_ c) cap D h (h, c) (with_calls (calls h) sp).
Proof.
  intros (Hok & use & H & Hu) Ha Hd. split; [done|]. exists use. split; [|done].
  destruct H as [? ? ? ? ? He ? ? ? Hh ?]. split; try done.
  - intros l e Hl. destruct (He l e Hl) as [? ? ? ? ? (? & ? & ? & _)]. split; try done. split_and!; try done.
    intros HD. apply (Hd l HD), elem_of_owned. right; right. cbn in Hl. rewrite lookup_ents_of in Hl.
    by destruct (sp_entries sp !! l).
  - destruct Hh as (? & ? & ? & _ & _ & ? & ?). split_and!; try done; intros HD; apply (Hd _ HD), elem_of_owned; tauto.
  - intros l Hl. split; [by apply Ha|done].
Qed.

Lemma table_ok_ext nh nh' t d :
  (forall kh l, d !! kh = Some l -> nh' !! l = nh !! l) -> table_ok nh t d -> table_ok nh' t d.
Proof.
  intros E ((bs & Hb) & Hrest). split; [|done]. exists bs. pose proof Hb as [Hc ? ? ? ?]. split; try done.
  eapply chains_ext; [|done]. intros x [kh Hx]%(buckets_elem_iff _ _ _ _ _ Hb). by apply (E kh).
Qed.

(** A shard survives any change of the heap outside its own locations. *)
Lemma shard_rep_other cap h h' c sp :
  shard_rep cap h c sp -> nullptr ∈ alloc h' -> (forall l, l ∈ owned c sp -> l ∈ alloc h' /\ same_at h' h l) ->
  shard_rep cap h' c sp.
Proof.
  intros (Hok & use & H & Hu) H0 Hsame. split; [by destruct Hok|]. exists use. split; [|done].
  assert (Hents : forall l e, ents_of (sp_dict sp) (sp_entries sp) !! l = Some e -> l ∈ owned c sp).
  { intros l e Hl. apply elem_of_owned. right; right. rewrite lookup_ents_of in Hl. by destruct (sp_entries sp !! l). }
  assert (Hring : forall X xs, X ∈ owned c sp -> (forall x, x ∈ xs -> x ∈ sp_lru sp ++ use) ->
    ring (next h) (prev h) X xs -> ring (next h') (prev h') X xs).
  { intros X xs HX Hxs [H1 H2].
    assert (Hin : forall x, x ∈ X :: xs -> x ∈ owned c sp).
    { intros x [->|Hx]%elem_of_cons; [done|]. destruct (c_rings H x (Hxs x Hx)) as [e He]. by eapply Hents. }
    split; [apply (chain_ext (next h) _ (X :: xs))|apply (chain_ext (prev h) _ (X :: reverse xs))]; try done;
      intros y Hy; apply Hsame, Hin; [done|]. set_solver. }
  destruct (c_fields H) as (? & _ & _ & ? & _). destruct (c_heads H) as (_ & _ & _ & _ & _ & ? & ?).
  split; cbn [fst snd g_lru g_use g_ents g_dict g_usage g_calls].
  - done.
  - apply (c_nodup H).
  - apply Hring; [apply elem_of_owned; tauto| |apply (c_lru H)]. set_solver.
  - apply Hring; [apply elem_of_owned; tauto| |apply (c_use H)]. set_solver.
  - apply (c_rings H).
  - intros l e Hl. destruct (c_ents H _ _ Hl). destruct (Hsame l (Hents l e Hl)) as (? & E1 & E2 & E3 & E4 & E5 & E6).
    split; rewrite ?E4, ?E5, ?E6; done.
  - intros l [e He] Hl. destruct (Hsame l (Hents l e He)) as (? & E & _). rewrite E. apply (c_out H); [by eexists|done].
  - eapply table_ok_ext; [|apply (c_table H)]. intros kh l Hd. destruct (c_dict H _ _ Hd) as (e & He & _).
    by destruct (Hsame l (Hents l e He)) as (? & _ & _ & E & _).
  - apply (c_dict H).
  - assert (lru_ c ∈ alloc h' /\ in_use_ c ∈ alloc h') as [? ?]
      by (split; apply Hsame, elem_of_owned; tauto). split_and!; try done; apply not_elem_of_empty.
  - intros l Hl. by apply not_elem_of_empty in Hl.
Qed.
(** Every entry of the next state was there before, with some count, or is the
    inserted one. *)
Lemma sp_Erase_sub kh sp : sp_entries (sp_Erase kh sp) ⊆ sp_entries sp.
Proof.
  unfold sp_Erase. destruct (sp_dict sp !! kh) as [l|]; [|done].
  destruct (sp_entries sp !! l) as [[e [|m]]|]; cbn; [apply delete_subseteq|done|done].
Qed.
Lemma sp_step_entries capacity sp o r sp' l e n :
  spec_ok sp -> sp_step capacity sp o r sp' -> sp_entries sp' !! l = Some (e, n) ->
  (exists n0, sp_entries sp !! l = Some (e, n0)) \/
  (exists k h v ch d, o = CInsert k h v ch d /\ key_data e = k /\ hash e = h).
Proof.
  intros Hok Hs He. destruct Hs as [k h v ch d l0 Hl0 _|k h|l0|k h| |].
  - set (e0 := {| value := v |}) in *. pose proof (sp_add_ok capacity l0 e0 sp Hok Hl0) as Hadd. unfold sp_Insert in He.
    destruct (sp_shrink_spec (length (sp_lru (sp_add capacity l0 e0 sp))) capacity _ Hadd ltac:(lia)) as (m & E & _).
    rewrite E in He. pose proof (lookup_weaken _ _ _ _ He (proj2 (sp_iter_sub m _))) as He'.
    assert (l = l0 /\ e = e0 \/ sp_entries sp !! l = Some (e, n)) as [[-> ->]|?]; [|right; by exists k, h, v, ch, d|left; by exists n].
    unfold sp_add in He'. destruct (capacity >? 0); cbn in He';
      apply lookup_insert_Some in He' as [[<- [= <- <-]]|[_ He']]; auto.
    right. by eapply lookup_weaken, sp_Erase_sub.
  - left. unfold sp_Lookup in He. destruct (sp_dict sp !! (k, h)) as [l0|]; [|by exists n].
    destruct (sp_entries sp !! l0) as [[e0 n0]|] eqn:He0; cbn in He; [|by exists n].
    apply lookup_insert_Some in He as [[<- [= <- _]]|[_ He]]; eauto.
  - left. unfold sp_Release in He. destruct (sp_entries sp !! l0) as [[e0 [|[|n0]]]|] eqn:He0; [by exists n| | |by exists n].
    + destruct (is_cached _ _ _); cbn in He; [apply lookup_insert_Some in He as [[<- [= <- _]]|[_ He]]; eauto|].
      apply lookup_delete_Some in He as [_ He]. eauto.
    + cbn in He. apply lookup_insert_Some in He as [[<- [= <- _]]|[_ He]]; eauto.
  - left. exists n. by eapply lookup_weaken, sp_Erase_sub.
  - left. exists n. eapply lookup_weaken; [exact He|apply sp_iter_sub].
  - left. by exists n.
Qed.

Lemma rep_owned_D L U cap D F h c sp l :
  rep L U cap D F (h, c) sp -> l ∈ owned c sp -> l ∉ D.
Proof.
  intros (_ & use & H & _). destruct (c_fields H) as (_ & EL & EU & _). cbn in EL, EU.
  destruct (c_heads H) as (_ & _ & _ & ? & ? & _). intros [->|[->|[[e n] He]]]%elem_of_owned; [by rewrite EL|by rewrite EU|].
  assert (Hx : ents_of (sp_dict sp) (sp_entries sp) !! l = Some (ent_of (sp_dict sp) l (e, n))) by
    (by rewrite lookup_ents_of, He). destruct (c_ents H _ _ Hx). tauto.
Qed.

(** ** The whole cache *)

Section sharded.
Context `{Port} (cap : Z).
Implicit Types (x : ShardedLRUCache) (sps : list Spec).

(** Each shard holds its abstract state, no location belongs to two shards,
    and every entry is in the shard of its key. *)
Record srep x sps : Prop := {
  sr_len : length (shard_ x) = Z.to_nat kNumShards;
  sr_lensp : length sps = Z.to_nat kNumShards;
  sr_rep : forall i c sp, shard_ x !! i = Some c -> sps !! i = Some sp -> shard_rep cap (sh_heap x) c sp;
  sr_disj : forall i j c c' sp sp', i <> j -> shard_ x !! i = Some c -> sps !! i = Some sp ->
              shard_ x !! j = Some c' -> sps !! j = Some sp' -> forall l, l ∈ owned c sp -> l ∉ owned c' sp';
  sr_hash : forall i sp l e n, sps !! i = Some sp -> sp_entries sp !! l = Some (e, n) ->
              hash e = HashStringPiece (key_data e) /\ Z.to_nat (Shard (hash e)) = i
}.

(** What the shards other than [i] own. *)
Definition others (i : nat) x sps : gset loc :=
  ⋃ (imap (fun j csp => if decide (j = i) then ∅ else owned (fst csp) (snd csp)) (zip (shard_ x) sps)).
Lemma elem_of_others i x sps l :
  l ∈ others i x sps <-> exists j c sp, j <> i /\ shard_ x !! j = Some c /\ sps !! j = Some sp /\ l ∈ owned c sp.
Proof.
  unfold others. rewrite elem_of_union_list. split.
  - intros (X & (j & [c sp] & -> & Hz)%elem_of_lookup_imap_1 & Hl). apply lookup_zip_Some in Hz as [H1 H2].
    destruct (decide (j = i)); [by apply not_elem_of_empty in Hl|]. by exists j, c, sp.
  - intros (j & c & sp & Hne & Hc & Hs & Hl). exists (owned c sp). split; [|done].
    apply elem_of_lookup_imap. exists j, (c, sp). cbn. rewrite decide_False by done. split; [done|].
    by apply lookup_zip_Some.
Qed.

Lemma on_shard_simulates x sps i sp o :
  srep x sps -> sps !! i = Some sp -> call_ok sp o ->
  (forall k h v ch d, o = CInsert k h v ch d -> h = HashStringPiece k /\ Z.to_nat (Shard h) = i) ->
  exists r x' sp', on_shard (Z.of_nat i) (run o) x = Some (r, x') /\
    sp_step cap (with_calls (calls (sh_heap x)) sp) o r sp' /\ srep x' (<[i := sp']> sps) /\
    last_id_ x' = last_id_ x.
Proof.
  intros Hx HS Ho Hins. set (sp0 := with_calls (calls (sh_heap x)) sp).
  assert (Hi : (i < length (shard_ x))%nat) by (rewrite (sr_len _ _ Hx), <-(sr_lensp _ _ Hx); by eapply lookup_lt_Some).
  apply lookup_lt_is_Some in Hi as [c Hc]. pose proof (sr_rep _ _ Hx _ _ _ Hc HS) as Hrep.
  assert (HD : rep (lru_ c) (in_use_ c) cap (others i x sps) (sh_heap x) (sh_heap x, c) sp0).
  { apply shard_rep_frame; [done| |].
    - intros l (j & c' & sp' & Hne & Hc' & HS' & Hl)%elem_of_others. by eapply shard_rep_owned; [eapply sr_rep|].
    - intros l (j & c' & sp' & Hne & Hc' & HS' & Hl)%elem_of_others. by eapply (sr_disj _ _ Hx j i). }
  destruct (wp_elim _ _ _ (run_simulates _ _ _ _ _ _ _ o HD Ho)) as (r & [h' c'] & Er & sp' & Hs & Hrep').
  exists r, {| sh_heap := h'; shard_ := <[i := c']> (shard_ x); last_id_ := last_id_ x |}, sp'.
  split; [unfold on_shard; rewrite Nat2Z.id, Hc; cbn; by rewrite Er|]. split; [done|]. split; [|done].
  assert (Hfr : forall l, l ∈ others i x sps -> l ∈ alloc h' /\ same_at h' (sh_heap x) l).
  { intros l Hl. destruct Hrep' as (_ & use' & H' & _). by apply (c_frame H'). }
  assert (Hpre : lru_ c' = lru_ c /\ in_use_ c' = in_use_ c /\ nullptr ∈ alloc h' /\ sp_calls sp' = calls h').
  { destruct Hrep' as (_ & use' & H' & _). destruct (c_fields H') as (_ & ? & ? & _ & ?), (c_heads H') as (_ & _ & ? & _). done. }
  destruct Hpre as (EL & EU & H0 & Elog).
  assert (Hi' : (i < length (shard_ x))%nat) by (by eapply lookup_lt_Some).
  assert (HiS : (i < length sps)%nat) by (by eapply lookup_lt_Some).
  assert (Hown : forall l j c2 sp2, l ∈ owned c' sp' -> j <> i -> shard_ x !! j = Some c2 -> sps !! j = Some sp2 -> l ∉ owned c2 sp2).
  { intros l j c2 sp2 Hl Hne Hc2 HS2 Hl2. apply (rep_owned_D _ _ _ _ _ _ _ _ l Hrep' Hl).
    apply elem_of_others. by exists j, c2, sp2. }
  split; cbn [shard_ sh_heap].
  - rewrite length_insert. by apply sr_len with sps.
  - rewrite length_insert. by apply sr_lensp with x.
  - intros j c2 sp2 Hc2 HS2. destruct (decide (i = j)) as [<-|Hne].
    + rewrite list_lookup_insert_eq in Hc2 by done. rewrite list_lookup_insert_eq in HS2 by done. injection Hc2 as <-. injection HS2 as <-.
      unfold shard_rep. rewrite EL, EU, <-Elog. destruct Hrep' as (Hok' & use' & H' & Hu').
      split; [by destruct Hok'|]. exists use'. split; [|done].
      destruct H' as [? ? ? ? ? He' ? ? ? (? & ? & ? & _ & _ & ? & ?) ?]. split; try done.
      intros l e Hl. destruct (He' l e Hl) as [? ? ? ? ? (? & ? & ? & _)]. by split.
    + rewrite list_lookup_insert_ne in Hc2 by done. rewrite list_lookup_insert_ne in HS2 by done. eapply shard_rep_other; [by eapply sr_rep|done|].
      intros l Hl. apply Hfr, elem_of_others. exists j, c2, sp2. auto.
  - intros j1 j2 c1 c2 sp1 sp2 Hne Hc1 HS1 Hc2 HS2 l Hl.
    destruct (decide (i = j1)) as [<-|Hne1]; [|destruct (decide (i = j2)) as [<-|Hne2]].
    + rewrite list_lookup_insert_eq in Hc1 by done. rewrite list_lookup_insert_eq in HS1 by done. rewrite list_lookup_insert_ne in Hc2 by done. rewrite list_lookup_insert_ne in HS2 by done.
      simplify_eq. apply (Hown l j2); [done|congruence|done|done].
    + rewrite list_lookup_insert_ne in Hc1 by done. rewrite list_lookup_insert_ne in HS1 by done. rewrite list_lookup_insert_eq in Hc2 by done. rewrite list_lookup_insert_eq in HS2 by done.
      simplify_eq. intros Hl2. by eapply (Hown l j1).
    + rewrite list_lookup_insert_ne in Hc1 by done. rewrite list_lookup_insert_ne in HS1 by done. rewrite list_lookup_insert_ne in Hc2 by done. rewrite list_lookup_insert_ne in HS2 by done. by eapply (sr_disj _ _ Hx j1 j2).
  - intros j sp2 l e n HS2 He. destruct (decide (i = j)) as [<-|Hne].
    + rewrite list_lookup_insert_eq in HS2 by done. injection HS2 as <-.
      destruct (sp_step_entries _ _ _ _ _ _ _ _ (proj1 HD) Hs He) as [[n0 Hn0]|(k & h & v & ch & d & -> & <- & <-)].
      * by eapply sr_hash.
      * destruct (Hins _ _ _ _ _ eq_refl) as [Hh Hsh]. done.
    + rewrite list_lookup_insert_ne in HS2 by done. by eapply sr_hash.
Qed.
End sharded.
(** ** Hash values and shards *)

Section hash_range.
Context `{Port}.

Lemma Hash_mix_range n z : 0 <= n -> is_uint 32 (u32 z .^ (u32 z .>> n)).
Proof. intros Hn. assert (is_uint 32 (u32 z)) by (by apply wrap_range). apply is_uint_lxor; [done|by apply is_uint_shiftr]. Qed.

Lemma Hash_loop_range fuel data h : is_uint 32 h -> is_uint 32 (fst (Hash.loop fuel data h)).
Proof.
  revert data h. induction fuel as [|fuel IH]; intros data h Hh; [done|]. cbn [Hash.loop].
  destruct (4 <=? _); [|done]. apply IH. by apply Hash_mix_range.
Qed.
Lemma HashStringPiece_range k : is_uint 32 (HashStringPiece k).
Proof.
  unfold HashStringPiece, Hash.Hash.
  assert (Hh : is_uint 32 (u32 (0 .^ u64 (Z.of_nat (length k) * Hash.m)))) by (by apply wrap_range).
  pose proof (Hash_loop_range (length k) k _ Hh) as Hl. destruct (Hash.loop _ _ _) as [h data]. cbn in Hl.
  unfold Hash.tail. destruct data as [|d0 [|d1 [|d2 [|]]]]; try done; by apply Hash_mix_range.
Qed.
End hash_range.
Section operations.
Context `{Port} (cap : Z).
Implicit Types (x : ShardedLRUCache) (sps : list Spec).

(** The shard of a key. *)
Definition shard_of (k : bytes) : nat := Z.to_nat (Shard (HashStringPiece k)).

Lemma Shard_range h : is_uint 32 h -> 0 <= Shard h < kNumShards.
Proof.
  intros Hh. unfold Shard, kNumShardBits, kNumShards. rewrite Z.shiftr_div_pow2 by lia.
  change (1 .<< kNumShardBits) with 16. unfold is_uint in Hh. change (2 ^ (32 - 4)) with 268435456.
  change (2 ^ 32) with 4294967296 in Hh.
  pose proof (Z.div_pos h 268435456 ltac:(lia) ltac:(lia)).
  pose proof (Z.div_lt_upper_bound h 268435456 16 ltac:(lia) ltac:(lia)). lia.
Qed.
Lemma Shard_of_nat k : Shard (HashStringPiece k) = Z.of_nat (shard_of k).
Proof.
  unfold shard_of. pose proof (Shard_range _ (HashStringPiece_range k)). by rewrite Z2Nat.id by lia.
Qed.
Lemma shard_of_lookup x sps k : srep cap x sps -> exists sp, sps !! shard_of k = Some sp.
Proof.
  intros Hx. apply lookup_lt_is_Some. rewrite (sr_lensp _ _ _ Hx). unfold shard_of.
  pose proof (Shard_range _ (HashStringPiece_range k)). lia.
Qed.

(** A step of the specification of the whole cache: one shard steps, the log of
    the deleter calls being common to all. *)
Definition shard_step x sps (i : nat) (o : call) (r : reply) sps' : Prop :=
  exists sp sp', sps !! i = Some sp /\ sp_step cap (with_calls (calls (sh_heap x)) sp) o r sp' /\ sps' = <[i := sp']> sps.

Lemma on_shard_run {A} i (m : M A) (f : A -> reply) x r x' :
  on_shard i (a ← m; mret (f a)) x = Some (r, x') -> exists a, on_shard i m x = Some (a, x') /\ r = f a.
Proof.
  unfold on_shard. destruct (shard_ x !! Z.to_nat i) as [c|]; [|done].
  unfold mbind, M_bind, mbind, option_bind, mret, M_ret. destruct (m (sh_heap x, c)) as [[a [h c']]|]; [|done].
  intros [= <- <-]. by exists a.
Qed.

(** The simulation for an operation that is one call [o] on shard [i], as
    [m] with [f] on its result. *)
Lemma sharded_call {A} (m : M A) (f : A -> reply) x sps i sp o :
  srep cap x sps -> sps !! i = Some sp -> call_ok sp o -> run o = (a ← m; mret (f a)) ->
  (forall k h v ch d, o = CInsert k h v ch d -> h = HashStringPiece k /\ shard_of k = i) ->
  exists a x' sps', on_shard (Z.of_nat i) m x = Some (a, x') /\ shard_step x sps i o (f a) sps' /\ srep cap x' sps' /\
    last_id_ x' = last_id_ x.
Proof.
  intros Hx Hsp Ho Hrun Hins.
  destruct (on_shard_simulates cap x sps i sp o Hx Hsp Ho) as (r & x' & sp' & E & Hs & Hx' & Hid).
  { intros k h v ch d Eo. destruct (Hins _ _ _ _ _ Eo) as [-> Hi]. done. }
  rewrite Hrun in E. apply on_shard_run in E as (a & E & ->). exists a, x', (<[i := sp']> sps).
  split; [done|]. split; [|done]. by exists sp, sp'.
Qed.

Lemma read_handle_spec x sps i sp l e n :
  srep cap x sps -> sps !! i = Some sp -> sp_entries sp !! l = Some (e, n) -> read_handle l x = Some (e, x).
Proof.
  intros Hx Hsp He. assert (Hi : (i < length (shard_ x))%nat) by
    (rewrite (sr_len _ _ _ Hx), <-(sr_lensp _ _ _ Hx); by eapply lookup_lt_Some).
  apply lookup_lt_is_Some in Hi as [c Hc]. pose proof (sr_rep _ _ _ Hx _ _ _ Hc Hsp) as Hrep.
  destruct (rep_node _ _ _ _ _ _ (with_calls _ sp) l e n Hrep He) as [Hh _ _ _ _ _]. cbn in Hh.
  unfold read_handle. by rewrite Hh.
Qed.

(** [TotalCharge] of one shard leaves the cache as it is. *)
Lemma on_shard_TotalCharge x sps i sp :
  srep cap x sps -> sps !! i = Some sp -> on_shard (Z.of_nat i) TotalCharge x = Some (sp_usage sp, x).
Proof.
  intros Hx Hsp. assert (Hi : (i < length (shard_ x))%nat) by
    (rewrite (sr_len _ _ _ Hx), <-(sr_lensp _ _ _ Hx); by eapply lookup_lt_Some).
  apply lookup_lt_is_Some in Hi as [c Hc]. pose proof (sr_rep _ _ _ Hx _ _ _ Hc Hsp) as Hrep.
  assert (Hu : usage_ c = sp_usage sp).
  { destruct Hrep as (_ & use & Hcore & _). destruct (c_fields Hcore) as (_ & _ & _ & Eu & _). exact Eu. }
  assert (E : TotalCharge (sh_heap x, c) = Some (usage_ c, (sh_heap x, c))) by done.
  unfold on_shard. rewrite Nat2Z.id, Hc, E, Hu. cbn. rewrite list_insert_id by done. by destruct x.
Qed.

Lemma Sharded_TotalCharge_loop_spec x sps i n acc :
  srep cap x sps -> (i + n <= length sps)%nat ->
  Sharded_TotalCharge_loop (seq i n) (u64 acc) x =
    Some (u64 (acc + foldr (fun sp t => sp_usage sp + t) 0 (take n (drop i sps))), x).
Proof.
  intros Hx. revert i acc. induction n as [|n IH]; intros i acc Hn; [cbn; by rewrite Z.add_0_r|].
  destruct (lookup_lt_is_Some_2 sps i ltac:(lia)) as [sp Hsp].
  cbn [seq Sharded_TotalCharge_loop]. unfold mbind, SM_bind, mbind, option_bind.
  rewrite (on_shard_TotalCharge x sps i sp) by done. rewrite u64_add_mod, IH by lia.
  rewrite (drop_S sps sp i) by done. cbn [take foldr]. by rewrite Z.add_assoc.
Qed.

(** [Prune] on the shards [i .. i+n-1]. *)
Lemma Prune_shards x sps i n :
  srep cap x sps -> (i + n <= length sps)%nat ->
  exists x' sps', for_shards (seq i n) (fun s => on_shard s Prune) x = Some (tt, x') /\ srep cap x' sps' /\
    last_id_ x' = last_id_ x /\
    forall j sp, sps !! j = Some sp -> exists sp', sps' !! j = Some sp' /\
      if decide (i <= j < i + n)%nat
      then (exists log, sp_step cap (with_calls log sp) CPrune RUnit sp') /\ sp_lru sp' = [] /\ (forall kh l e m, sp_dict sp !! kh = Some l -> sp_entries sp !! l = Some (e, m) ->
             sp_dict sp' !! kh = if decide (m = 0%nat) then None else Some l)
      else sp' = sp.
Proof.
  revert x sps i. induction n as [|n IH]; intros x sps i Hx Hn.
  { exists x, sps. split; [done|]. split; [done|]. split; [done|]. intros j sp Hj. exists sp. split; [done|].
    rewrite decide_False by lia. done. }
  destruct (lookup_lt_is_Some_2 sps i ltac:(lia)) as [sp Hsp].
  destruct (sharded_call Prune (fun _ => RUnit) x sps i sp CPrune Hx Hsp I eq_refl ltac:(done))
    as ([] & x1 & sps1 & E1 & (sp0 & sp1 & Hsp0 & Hs & ->) & Hx1 & Hid1).
  assert (sp0 = sp) as -> by congruence.
  assert (sp1 = sp_Prune (with_calls (calls (sh_heap x)) sp)) as -> by (by inversion Hs).
  destruct (IH x1 _ (S i) Hx1) as (x' & sps' & E & Hx' & Hid & Hall); [rewrite length_insert; lia|].
  exists x', sps'. cbn [seq for_shards]. unfold mbind, SM_bind, mbind, option_bind. rewrite E1. split; [exact E|].
  split; [done|]. split; [congruence|]. intros j spj Hj. destruct (decide (i = j)) as [<-|Hne].
  - destruct (Hall i (sp_Prune (with_calls (calls (sh_heap x)) sp))) as (sp' & Hsp' & Hc).
    { apply list_lookup_insert_eq. lia. }
    rewrite decide_False in Hc by lia. subst sp'. exists (sp_Prune (with_calls (calls (sh_heap x)) sp)).
    split; [done|]. rewrite decide_True by lia. assert (spj = sp) as -> by congruence.
    assert (Hok : spec_ok (with_calls (calls (sh_heap x)) sp)).
    { destruct (lookup_lt_is_Some_2 (shard_ x) i) as [c Hc]; [rewrite (sr_len _ _ _ Hx), <-(sr_lensp _ _ _ Hx); lia|].
      exact (proj1 (sr_rep _ _ _ Hx _ _ _ Hc Hsp)). }
    split; [by eexists|]. split; [by apply sp_Prune_lru|]. intros kh l e m Hd He. by apply (sp_Prune_dict (with_calls _ sp) kh l e m).
  - destruct (Hall j spj) as (sp' & Hsp' & Hc); [by rewrite list_lookup_insert_ne|].
    exists sp'. split; [done|]. destruct (decide (S i <= j < S i + n)%nat).
    + rewrite decide_True by lia. done.
    + rewrite decide_False by lia. done.
Qed.
End operations.
(** ** Construction *)

(** The memory a cache is constructed in: the heads of the sixteen shards are
    allocated, at different addresses. *)
Record raw_cache (x : ShardedLRUCache) : Prop := {
  rc_len : length (shard_ x) = Z.to_nat kNumShards;
  rc_null : nullptr ∈ alloc (sh_heap x);
  rc_calls : calls (sh_heap x) = [];
  rc_heads : forall i c, shard_ x !! i = Some c -> lru_ c <> in_use_ c;
  rc_alloc : forall i c l, shard_ x !! i = Some c -> l ∈ owned c sp_empty -> l ∈ alloc (sh_heap x) /\ l <> nullptr;
  rc_disj : forall i j c c' l, i <> j -> shard_ x !! i = Some c -> shard_ x !! j = Some c' ->
              l ∈ owned c sp_empty -> l ∉ owned c' sp_empty
}.

Definition empties : list Spec := replicate (Z.to_nat kNumShards) sp_empty.

Lemma lookup_empties x i c : raw_cache x -> shard_ x !! i = Some c -> empties !! i = Some sp_empty.
Proof.
  intros Hx Hc. apply lookup_replicate. split; [done|]. rewrite <-(rc_len _ Hx). by eapply lookup_lt_Some.
Qed.
Lemma elem_of_others_empty i x l :
  raw_cache x -> l ∈ others i x empties <-> exists j c, j <> i /\ shard_ x !! j = Some c /\ l ∈ owned c sp_empty.
Proof.
  intros Hx. rewrite elem_of_others. split.
  - intros (j & c & sp & ? & ? & [-> _]%lookup_replicate & ?). by exists j, c.
  - intros (j & c & ? & Hc & ?). exists j, c, sp_empty. split; [done|]. split; [done|]. split; [|done]. by eapply lookup_empties.
Qed.

(** A step of construction on shard [i]: the others keep their place. *)
Lemma construct_step x i c (m : M unit) h' c' n :
  raw_cache x -> shard_ x !! i = Some c -> m (sh_heap x, c) = Some (tt, (h', c')) ->
  rep (lru_ c) (in_use_ c) n (others i x empties) (sh_heap x) (h', c') sp_empty ->
  let x' := {| sh_heap := h'; shard_ := <[i := c']> (shard_ x); last_id_ := last_id_ x |} in
  on_shard (Z.of_nat i) m x = Some (tt, x') /\ raw_cache x' /\ shard_rep n h' c' sp_empty /\ capacity_ c' = n /\
  (forall j cj cap, j <> i -> shard_ x !! j = Some cj -> shard_rep cap (sh_heap x) cj sp_empty ->
     shard_rep cap h' cj sp_empty).
Proof.
  intros Hx Hc Hm (Hok & use & H & Hu) x'. destruct (c_fields H) as (Ecap & EL & EU & _ & Ecalls). cbn in Ecap, EL, EU, Ecalls.
  assert (Hi : (i < length (shard_ x))%nat) by (by eapply lookup_lt_Some).
  assert (Hfr : forall j cj l, j <> i -> shard_ x !! j = Some cj -> l ∈ owned cj sp_empty ->
            l ∈ alloc h' /\ same_at h' (sh_heap x) l).
  { intros j cj l Hne Hcj Hl. apply (c_frame H). apply elem_of_others_empty; [done|]. by exists j, cj. }
  assert (Hown : forall l, l ∈ owned c' sp_empty <-> l ∈ owned c sp_empty) by
    (intros l; rewrite !elem_of_owned, EL, EU; done).
  destruct (c_heads H) as (HLa & HUa & H0 & _ & _ & HL0 & HU0). cbn in HLa, HUa, H0.
  split; [|split; [|split; [|split; [done|]]]].
  - unfold on_shard. rewrite Nat2Z.id, Hc, Hm. done.
  - split; cbn [shard_ sh_heap x'].
    + rewrite length_insert. apply (rc_len _ Hx).
    + done.
    + done.
    + intros j cj [(<- & <- & _)|[_ Hcj]]%list_lookup_insert_Some; [rewrite EL, EU|]; by eapply rc_heads.
    + intros j cj l [(<- & <- & _)|[Hne Hcj]]%list_lookup_insert_Some Hl.
      * apply Hown, elem_of_owned in Hl as [->|[->|[? Hl]]]; [by split|by split|unfold sp_empty in Hl; cbn [sp_entries] in Hl; by apply lookup_empty_Some in Hl].
      * split; [by eapply Hfr|]. by eapply rc_alloc.
    + intros j1 j2 c1 c2 l Hne [(<- & <- & _)|[Hne1 Hc1]]%list_lookup_insert_Some
        [(<- & <- & _)|[Hne2 Hc2]]%list_lookup_insert_Some;
        
        [done|rewrite Hown; by apply (rc_disj _ Hx i j2 c c2)|rewrite Hown; by apply (rc_disj _ Hx j1 i c1 c)
        |by apply (rc_disj _ Hx j1 j2 c1 c2)].
  - unfold shard_rep. rewrite EL, EU, Ecalls. split; [done|]. exists use. split; [|done].
    destruct H as [? ? ? ? ? He' ? ? ? (? & ? & ? & _ & _ & ? & ?) ?]. split; try done.
  - intros j cj cap Hne Hcj Hrep. eapply shard_rep_other; [done|done|]. intros l Hl. by eapply Hfr.
Qed.

Lemma for_shards_cons s idx body x :
  for_shards (s :: idx) body x = '(_, x') ← body (Z.of_nat s) x; for_shards idx body x'.
Proof. done. Qed.

Lemma construct_shards x i n :
  raw_cache x -> (i + n = Z.to_nat kNumShards)%nat ->
  (forall j c, (j < i)%nat -> shard_ x !! j = Some c -> shard_rep (capacity_ c) (sh_heap x) c sp_empty) ->
  exists x', for_shards (seq i n) (fun s => on_shard s LRUCache_new) x = Some (tt, x') /\ raw_cache x' /\
    forall j c, shard_ x' !! j = Some c -> shard_rep (capacity_ c) (sh_heap x') c sp_empty.
Proof.
  revert x i. induction n as [|n IH]; intros x i Hx Hn Hdone.
  { exists x. split; [done|]. split; [done|]. intros j c Hc. apply (Hdone j); [|done].
    apply lookup_lt_Some in Hc. rewrite (rc_len _ Hx) in Hc. lia. }
  destruct (lookup_lt_is_Some_2 (shard_ x) i) as [c Hc]; [rewrite (rc_len _ Hx); lia|].
  assert (Hraw : raw_shard (lru_ c) (in_use_ c) (others i x empties) (sh_heap x) (sh_heap x, c)).
  { assert (Hin : forall l, l = lru_ c \/ l = in_use_ c -> l ∈ owned c sp_empty) by (intros; apply elem_of_owned; tauto).
    assert (Hno : forall l, l ∈ owned c sp_empty -> l ∉ others i x empties).
    { intros l Hl (j & cj & Hne & Hcj & Hl')%elem_of_others_empty; [|done]. by eapply (rc_disj _ Hx i j). }
    pose proof (rc_heads _ Hx i c Hc). pose proof (rc_alloc _ Hx i c) as Ha.
    unfold raw_shard. cbn. split_and!; try done; try (apply Ha; [done|]; apply Hin; tauto); try (apply Hno, Hin; tauto).
    - apply (rc_null _ Hx).
    - apply (rc_calls _ Hx).
    - intros l (j & cj & Hne & Hcj & Hl)%elem_of_others_empty; [|done]. split; [|done]. by eapply rc_alloc. }
  assert (W : wp LRUCache_new (fun _ s' => rep (lru_ c) (in_use_ c) (capacity_ c) (others i x empties) (sh_heap x) s' sp_empty)
            (sh_heap x, c)) by (by eapply wp_LRUCache_new).
  apply wp_elim in W as ([] & [h' c'] & E & Hrep').
  destruct (construct_step x i c _ h' c' _ Hx Hc E Hrep') as (E' & Hx' & Hr & Hcap & Hoth).
  destruct (IH _ (S i) Hx' ltac:(lia)) as (x2 & E2 & Hx2 & Hall).
  - cbn [shard_ sh_heap]. intros j cj Hj [(<- & <- & _)|[Hne Hcj]]%list_lookup_insert_Some; [by rewrite Hcap|].
    apply (Hoth j); [done|done|]. apply (Hdone j); [lia|done].
  - exists x2. split; [|done]. cbn [seq]. rewrite for_shards_cons, E'. exact E2.
Qed.

Lemma set_capacities x i n cap :
  raw_cache x -> (i + n = Z.to_nat kNumShards)%nat ->
  (forall j c, shard_ x !! j = Some c -> shard_rep (capacity_ c) (sh_heap x) c sp_empty) ->
  (forall j c, (j < i)%nat -> shard_ x !! j = Some c -> capacity_ c = cap) ->
  exists x', for_shards (seq i n) (fun s => on_shard s (SetCapacity cap)) x = Some (tt, x') /\ raw_cache x' /\
    last_id_ x' = last_id_ x /\
    forall j c, shard_ x' !! j = Some c -> shard_rep cap (sh_heap x') c sp_empty.
Proof.
  revert x i. induction n as [|n IH]; intros x i Hx Hn Hall Hdone.
  { exists x. split; [done|]. split; [done|]. split; [done|]. intros j c Hc. rewrite <-(Hdone j c); [by eapply Hall| |done].
    apply lookup_lt_Some in Hc. rewrite (rc_len _ Hx) in Hc. lia. }
  destruct (lookup_lt_is_Some_2 (shard_ x) i) as [c Hc]; [rewrite (rc_len _ Hx); lia|].
  assert (Hrep : rep (lru_ c) (in_use_ c) (capacity_ c) (others i x empties) (sh_heap x) (sh_heap x, c) sp_empty).
  { pose proof (shard_rep_frame (capacity_ c) (sh_heap x) c sp_empty (others i x empties) (Hall i c Hc)) as Hf.
    unfold with_calls in Hf. rewrite (rc_calls _ Hx) in Hf. apply Hf.
    - intros l (j & cj & Hne & Hcj & Hl)%elem_of_others_empty; [|done]. by eapply rc_alloc.
    - intros l (j & cj & Hne & Hcj & Hl)%elem_of_others_empty; [|done]. by eapply (rc_disj _ Hx j i). }
  assert (W : wp (SetCapacity cap) (fun _ s' => rep (lru_ c) (in_use_ c) cap (others i x empties) (sh_heap x) s' sp_empty)
            (sh_heap x, c)) by (by eapply wp_SetCapacity).
  apply wp_elim in W as ([] & [h' c'] & E & Hrep').
  destruct (construct_step x i c _ h' c' _ Hx Hc E Hrep') as (E' & Hx' & Hr & Hcap & Hoth).
  destruct (IH _ (S i) Hx' ltac:(lia)) as (x2 & E2 & Hx2 & Hid & Hall2).
  - cbn [shard_ sh_heap]. intros j cj [(<- & <- & _)|[Hne Hcj]]%list_lookup_insert_Some; [by rewrite Hcap|].
    apply (Hoth j); [done|done|]. by eapply Hall.
  - cbn [shard_]. intros j cj Hj [(<- & <- & _)|[Hne Hcj]]%list_lookup_insert_Some; [done|]. apply (Hdone j); [lia|done].
  - exists x2. split; [|done]. cbn [seq]. rewrite for_shards_cons, E'. exact E2.
Qed.
(** ** Properties *)

Section properties.
Context `{Port}.
Implicit Types (x : ShardedLRUCache) (sps : list Spec).

(** The capacity of each shard. *)
Definition per_shard (capacity : Z) : Z := u64 (capacity + (kNumShards - 1)) / kNumShards.

Lemma srep_empty cap x :
  raw_cache x -> (forall j c, shard_ x !! j = Some c -> shard_rep cap (sh_heap x) c sp_empty) -> srep cap x empties.
Proof.
  intros Hx Hall. split.
  - apply (rc_len _ Hx).
  - apply length_replicate.
  - intros i c sp Hc [-> _]%lookup_replicate. by eapply Hall.
  - intros i j c c' sp sp' Hne Hc [-> _]%lookup_replicate Hc' [-> _]%lookup_replicate l. by apply (rc_disj _ Hx i j c c').
  - intros i sp l e n [-> _]%lookup_replicate. done.
Qed.

Lemma raw_cache_id x n : raw_cache x -> raw_cache {| sh_heap := sh_heap x; shard_ := shard_ x; last_id_ := n |}.
Proof. intros Hx. split; apply Hx. Qed.

Lemma u64_usages sps :
  u64 (0 + foldr (fun sp n => sp_usage sp + n) 0 sps) = u64 (foldr (fun sp n => total (sp_charge sp) (sp_dict sp) + n) 0 sps).
Proof.
  rewrite Z.add_0_l. induction sps as [|sp sps IH]; [done|]. cbn [foldr].
  change (sp_usage sp) with (u64 (total (sp_charge sp) (sp_dict sp))). rewrite u64_add_mod, Z.add_comm.
  rewrite <-u64_add_mod, IH, u64_add_mod. by rewrite Z.add_comm.
Qed.

(** (functional).  Constructing the cache in any memory that holds the sixteen
    list heads succeeds: every shard is an empty cache whose capacity is the
    sixteenth of the requested one, rounded up (in 64-bit arithmetic), and the
    numbering of clients starts at 0. *)
Theorem sharded_new (capacity : Z) x (Hx : raw_cache x) :
  exists x', ShardedLRUCache_new capacity x = Some (tt, x') /\ srep (per_shard capacity) x' empties /\ last_id_ x' = 0.
Proof.
  destruct (construct_shards x 0 (Z.to_nat kNumShards) Hx eq_refl) as (x1 & E1 & Hx1 & Hall1); [intros; lia|].
  destruct (set_capacities {| sh_heap := sh_heap x1; shard_ := shard_ x1; last_id_ := 0 |} 0 (Z.to_nat kNumShards)
    (per_shard capacity) (raw_cache_id _ _ Hx1) eq_refl Hall1) as (x2 & E2 & Hx2 & Hid & Hall2); [intros; lia|].
  exists x2. split; [|split; [by apply srep_empty|done]].
  unfold ShardedLRUCache_new, all_shards. unfold mbind at 1, SM_bind, mbind, option_bind. rewrite E1. exact E2.
Qed.

(** (functional).  [TotalCharge] is the sum over the shards of the charges
    cached in each, modulo 2^64, and changes nothing; [Prune] drops from every shard
    exactly the keys whose entry has no handle out; and [NewId] returns the successor,
    modulo 2^64, of the number it returned last. *)
Theorem sharded_charge_prune_id cap x sps (Hx : srep cap x sps) :
  Sharded_TotalCharge x = Some (u64 (foldr (fun sp n => total (sp_charge sp) (sp_dict sp) + n) 0 sps), x) /\
  (exists x' sps', Sharded_Prune x = Some (tt, x') /\ srep cap x' sps' /\ last_id_ x' = last_id_ x /\
     forall j sp, sps !! j = Some sp -> exists sp', sps' !! j = Some sp' /\ (exists log, sp_step cap (with_calls log sp) CPrune RUnit sp') /\ sp_lru sp' = [] /\
       forall kh l e n, sp_dict sp !! kh = Some l -> sp_entries sp !! l = Some (e, n) ->
         sp_dict sp' !! kh = if decide (n = 0%nat) then None else Some l) /\
  (exists x', NewId x = Some (u64 (last_id_ x + 1), x') /\ srep cap x' sps /\ last_id_ x' = u64 (last_id_ x + 1)).
Proof.
  assert (Hlen : (Z.to_nat kNumShards = length sps)%nat) by (by rewrite (sr_lensp _ _ _ Hx)).
  split; [|split].
  - unfold Sharded_TotalCharge, all_shards.
    pose proof (Sharded_TotalCharge_loop_spec cap x sps 0 (Z.to_nat kNumShards) 0 Hx ltac:(lia)) as E.
    change (u64 0) with 0 in E. rewrite E, Hlen, drop_0, take_ge by lia. by rewrite u64_usages.
  - destruct (Prune_shards cap x sps 0 (Z.to_nat kNumShards) Hx ltac:(lia)) as (x' & sps' & E & Hx' & Hid & Hall).
    exists x', sps'. split; [done|]. split; [done|]. split; [done|]. intros j sp Hj. destruct (Hall j sp Hj) as (sp' & Hsp' & Hc).
    apply lookup_lt_Some in Hj. rewrite decide_True in Hc by lia. by exists sp'.
  - eexists. split; [done|]. split; [|done]. destruct Hx as [? ? ? ? ?]. by split.
Qed.
(** C6. (refinement).  On a cache in a valid state every operation of the
    interface succeeds and acts as its specification on the shards it is for: [Insert],
    [Lookup] and [Erase] on the shard of the key, [Release] and [Value] of a held handle on the
    shard the handle is in, while the other shards keep their state; [Prune] on every
    shard; [TotalCharge] gives the sum over the shards, modulo 2^64, and changes nothing, and
    [NewId] the successor, modulo 2^64, of the number it returned last. *)
Theorem sharded_refines cap x sps (Hx : srep cap x sps) :
  (forall k v ch d sp, sps !! shard_of k = Some sp -> Z.of_nat (size (sp_dict sp)) < 2 ^ 31 ->
     exists l x' sps', Sharded_Insert k v ch d x = Some (l, x') /\ srep cap x' sps' /\
       shard_step cap x sps (shard_of k) (CInsert k (HashStringPiece k) v ch d) (RHandle l) sps') /\
  (forall k sp, sps !! shard_of k = Some sp -> call_ok sp (CLookup k (HashStringPiece k)) ->
     exists l x' sps', Sharded_Lookup k x = Some (l, x') /\ srep cap x' sps' /\
       shard_step cap x sps (shard_of k) (CLookup k (HashStringPiece k)) (RHandle l) sps') /\
  (forall k, exists x' sps', Sharded_Erase k x = Some (tt, x') /\ srep cap x' sps' /\
       shard_step cap x sps (shard_of k) (CErase k (HashStringPiece k)) RUnit sps') /\
  (forall i sp l e n, sps !! i = Some sp -> sp_entries sp !! l = Some (e, S n) ->
     Sharded_Value l x = Some (value e, x) /\ i = shard_of (key_data e) /\
     exists x' sps', Sharded_Release l x = Some (tt, x') /\ srep cap x' sps' /\
       shard_step cap x sps i (CRelease l) RUnit sps') /\
  (exists x' sps', Sharded_Prune x = Some (tt, x') /\ srep cap x' sps' /\ last_id_ x' = last_id_ x /\
     forall j sp, sps !! j = Some sp -> exists log sp', sps' !! j = Some sp' /\ sp_step cap (with_calls log sp) CPrune RUnit sp') /\
  Sharded_TotalCharge x = Some (u64 (foldr (fun sp n => total (sp_charge sp) (sp_dict sp) + n) 0 sps), x) /\
  (exists x', NewId x = Some (u64 (last_id_ x + 1), x') /\ srep cap x' sps /\ last_id_ x' = u64 (last_id_ x + 1)).
Proof.
  destruct (sharded_charge_prune_id cap x sps Hx) as (Htotal & (xp & spsp & Ep & Hxp & Hidp & Hallp) & Hnew).
  split; [|split; [|split; [|split; [|split; [|split; [exact Htotal|exact Hnew]]]]]].
  - intros k v ch d sp Hsp Hsize.
    destruct (sharded_call cap (Insert k (HashStringPiece k) v ch d) RHandle x sps (shard_of k) sp
      (CInsert k (HashStringPiece k) v ch d) Hx Hsp) as (l & x' & sps' & E & Hs & Hx' & _);
      [split; [apply HashStringPiece_range|done]|done|by intros ? ? ? ? ? [= -> -> _ _ _]|].
    exists l, x', sps'. unfold Sharded_Insert. by rewrite Shard_of_nat.
  - intros k sp Hsp Hok.
    destruct (sharded_call cap (Lookup k (HashStringPiece k)) RHandle x sps (shard_of k) sp
      (CLookup k (HashStringPiece k)) Hx Hsp) as (l & x' & sps' & E & Hs & Hx' & _); [done|done|done|].
    exists l, x', sps'. unfold Sharded_Lookup. by rewrite Shard_of_nat.
  - intros k. destruct (shard_of_lookup cap x sps k Hx) as [sp Hsp].
    destruct (sharded_call cap (Erase k (HashStringPiece k)) (fun _ => RUnit) x sps (shard_of k) sp
      (CErase k (HashStringPiece k)) Hx Hsp) as ([] & x' & sps' & E & Hs & Hx' & _);
      [apply HashStringPiece_range|done|done|].
    exists x', sps'. unfold Sharded_Erase. by rewrite Shard_of_nat.
  - intros i sp l e n Hsp He. pose proof (read_handle_spec cap x sps i sp l e (S n) Hx Hsp He) as Er.
    destruct (sr_hash _ _ _ Hx i sp l e (S n) Hsp He) as [Hh Hi].
    split; [unfold Sharded_Value, mbind, SM_bind, mbind, option_bind; by rewrite Er|]. split; [by rewrite <-Hi, Hh|].
    destruct (sharded_call cap (Release l) (fun _ => RUnit) x sps i sp (CRelease l) Hx Hsp)
      as ([] & x' & sps' & E & Hs & Hx' & _); [by exists e, n|done|done|].
    exists x', sps'. split; [|done]. unfold Sharded_Release, mbind, SM_bind, mbind, option_bind. rewrite Er.
    assert (Hsh : Shard (hash e) = Z.of_nat i) by (rewrite <-Hi, Hh; apply Shard_of_nat). by rewrite Hsh.
  - exists xp, spsp. split; [exact Ep|]. split; [exact Hxp|]. split; [exact Hidp|]. intros j sp Hj.
    destruct (Hallp j sp Hj) as (sp' & Hsp' & (log & Hstep) & _). by exists log, sp'.
Qed.

(** (functional).  A key just inserted in a cache whose shards have room for
    anything is found again: [Lookup] returns the handle [Insert] gave, [Value]
    the value, and it is found however much was evicted to make room. *)
Theorem sharded_insert_lookup cap x sps k v ch d sp
  (Hx : srep cap x sps) (Hcap : cap > 0) (Hsp : sps !! shard_of k = Some sp)
  (Hsize : Z.of_nat (size (sp_dict sp)) < 2 ^ 31) :
  exists l x1 x2, Sharded_Insert k v ch d x = Some (l, x1) /\ Sharded_Lookup k x1 = Some (l, x2) /\
    Sharded_Value l x2 = Some (v, x2) /\ exists sps2, srep cap x2 sps2.
Proof.
  destruct (sharded_call cap (Insert k (HashStringPiece k) v ch d) RHandle x sps (shard_of k) sp
    (CInsert k (HashStringPiece k) v ch d) Hx Hsp) as (l & x1 & sps1 & E1 & (sp0 & sp1 & Hsp0 & Hs & ->) & Hx1 & _);
    [split; [apply HashStringPiece_range|done]|done|by intros ? ? ? ? ? [= -> -> _ _ _]|].
  assert (sp0 = sp) as -> by congruence. clear Hsp0.
  assert (Hi : (shard_of k < length sps)%nat) by (by eapply lookup_lt_Some).
  assert (Hsp1 : <[shard_of k := sp1]> sps !! shard_of k = Some sp1) by (by apply list_lookup_insert_eq).
  set (e := {| value := v; deleter := d; charge := ch; key_data := k; hash := HashStringPiece k |}).
  assert (Hok : spec_ok (with_calls (calls (sh_heap x)) sp)).
  { destruct (lookup_lt_is_Some_2 (shard_ x) (shard_of k)) as [c Hc]; [by rewrite (sr_len _ _ _ Hx), <-(sr_lensp _ _ _ Hx)|].
    exact (proj1 (sr_rep _ _ _ Hx _ _ _ Hc Hsp)). }
  assert (sp_dict sp1 !! (k, HashStringPiece k) = Some l /\ sp_entries sp1 !! l = Some (e, 1%nat)) as [Hd He].
  { inversion Hs as [? ? ? ? ? l0 Hl Hl0| | | | |]; subst. fold e.
    pose proof (sp_add_ok cap l e _ Hok Hl) as Hadd. unfold sp_Insert.
    assert (Ha : sp_entries (sp_add cap l e (with_calls (calls (sh_heap x)) sp)) !! l = Some (e, 1%nat) /\
      sp_dict (sp_add cap l e (with_calls (calls (sh_heap x)) sp)) !! (k, HashStringPiece k) = Some l).
    { unfold sp_add. rewrite (proj2 (Z.gtb_lt cap 0)) by lia. cbn [sp_entries sp_dict].
      split; apply lookup_insert_eq. }
    split; [eapply sp_shrink_dict_held|apply sp_shrink_held]; [done|apply Ha..]. }
  destruct (sharded_call cap (Lookup k (HashStringPiece k)) RHandle x1 _ (shard_of k) sp1
    (CLookup k (HashStringPiece k)) Hx1 Hsp1) as (l2 & x2 & sps2 & E2 & (sp0 & sp2 & Hsp0 & Hs2 & ->) & Hx2 & _).
  { split; [apply HashStringPiece_range|]. intros l' e' n' Hl' He'. rewrite Hd in Hl'. injection Hl' as <-.
    rewrite He in He'. by injection He' as <- <-. }
  { done. }
  { done. }
  assert (sp0 = sp1) as -> by congruence.
  assert (Hl2 : l2 = l /\ sp_entries sp2 !! l = Some (e, 2%nat)).
  { inversion Hs2; subst. unfold sp_Lookup. cbn [sp_dict sp_entries with_calls]. rewrite Hd, He. cbn.
    split; [done|apply lookup_insert_eq]. }
  destruct Hl2 as [-> He2]. exists l, x1, x2. unfold Sharded_Insert, Sharded_Lookup. rewrite Shard_of_nat.
  split; [done|]. split; [done|]. split; [|by eexists].
  unfold Sharded_Value, mbind, SM_bind, mbind, option_bind.
  rewrite (read_handle_spec cap x2 _ (shard_of k) sp2 l e 2 Hx2); [done| |done].
  apply list_lookup_insert_eq. by rewrite length_insert.
Qed.

End properties.
(** ** Witnesses *)

(** The memory of a new cache: the heads of shard [i] are at [2i+1], [2i+2]. *)
Definition ex_sh (i : nat) : LRUCache :=
  {| capacity_ := 0; usage_ := 0; lru_ := N.of_nat (2 * i + 1); in_use_ := N.of_nat (2 * i + 2);
     table_ := {| length_ := 0; elems_ := 0; list_ := [] |} |}.
Definition ex_cache : ShardedLRUCache :=
  {| sh_heap := {| alloc := list_to_set (map N.of_nat (seq 0 33)); next := ∅; prev := ∅; next_hash := ∅;
                   in_cache := ∅; refs := ∅; handle := ∅; calls := [] |};
     shard_ := map ex_sh (seq 0 16); last_id_ := 0 |}.

Lemma ex_shard_lookup i c : shard_ ex_cache !! i = Some c -> c = ex_sh i /\ (i < 16)%nat.
Proof.
  cbn [shard_ ex_cache]. rewrite list_lookup_fmap. rewrite fmap_Some. intros (j & Hj & ->).
  apply lookup_seq in Hj as [-> ?]. done.
Qed.
Lemma ex_owned i l : l ∈ owned (ex_sh i) sp_empty <-> l = N.of_nat (2 * i + 1) \/ l = N.of_nat (2 * i + 2).
Proof. rewrite elem_of_owned. split; [|tauto]. intros [?|[?|[? Hx]]]; [by left|by right|discriminate]. Qed.

Lemma ex_raw_cache : raw_cache ex_cache.
Proof.
  split.
  - done.
  - by vm_compute.
  - done.
  - intros i c [-> _]%ex_shard_lookup. cbn. lia.
  - intros i c l [-> Hi]%ex_shard_lookup Hl%ex_owned. split.
    + cbn [sh_heap ex_cache alloc]. apply elem_of_list_to_set, list_elem_of_fmap. exists (N.to_nat l).
      split; [by rewrite N2Nat.id|]. apply elem_of_seq. lia.
    + unfold nullptr. lia.
  - intros i j c c' l Hne [-> _]%ex_shard_lookup [-> _]%ex_shard_lookup Hl%ex_owned Hl'%ex_owned. lia.
Qed.

#[local] Existing Instance little_endian_port.

Lemma ex_built : exists x', srep 1 x' empties.
Proof.
  destruct (construct_shards ex_cache 0 16 ex_raw_cache eq_refl) as (x1 & _ & Hx1 & Hall1); [intros; lia|].
  destruct (set_capacities x1 0 16 1 Hx1 eq_refl Hall1) as (x2 & _ & Hx2 & _ & Hall2); [intros; lia|].
  exists x2. by apply srep_empty.
Qed.

Lemma sharded_new_witness : exists x', ShardedLRUCache_new 16 ex_cache = Some (tt, x') /\ srep 1 x' empties.
Proof.
  destruct (sharded_new 16 ex_cache ex_raw_cache) as (x' & E & Hx & _). exists x'. split; [exact E|exact Hx].
Defined.

Lemma empties_lookup k : empties !! shard_of k = Some sp_empty.
Proof.
  apply lookup_replicate. split; [done|]. unfold shard_of. pose proof (Shard_range _ (HashStringPiece_range k)).
  change kNumShards with 16 in *. lia.
Qed.

Lemma sharded_refines_witness : exists x l x', srep 1 x empties /\ Sharded_Insert [x61] 100 1 0 x = Some (l, x').
Proof.
  destruct ex_built as [x Hx]. destruct (sharded_refines 1 x empties Hx) as (Hins & _).
  destruct (Hins [x61] 100 1 0 sp_empty (empties_lookup _) ltac:(by vm_compute)) as (l & x' & _ & E & _).
  by exists x, l, x'.
Defined.

Lemma sharded_insert_lookup_witness :
  exists x l x1 x2, Sharded_Insert [x61] 100 1 0 x = Some (l, x1) /\ Sharded_Lookup [x61] x1 = Some (l, x2).
Proof.
  destruct ex_built as [x Hx].
  destruct (sharded_insert_lookup 1 x empties [x61] 100 1 0 sp_empty Hx ltac:(lia) (empties_lookup _) ltac:(by vm_compute))
    as (l & x1 & x2 & E1 & E2 & _). by exists x, l, x1, x2.
Defined.

Lemma sharded_charge_prune_id_witness : exists x x', srep 1 x empties /\ Sharded_Prune x = Some (tt, x').
Proof.
  destruct ex_built as [x Hx]. destruct (sharded_charge_prune_id 1 x empties Hx) as (_ & (x' & _ & E & _) & _).
  by exists x, x'.
Defined.
