(* ===== verification/BitSets.v ===== *)
(** * BitSets: the bit sets of [src/util/bitmap.h] and [src/util/bitmap.cpp]

    [BitArray] (the [bit_array_*] functions on arrays of 64-bit words),
    [DynamicBitset] (over [vector<bool>]), [BitSet] (bits of a [char] array, most
    significant first, with a cursor), [Bitmap] (32-bit words) and the byte macros.
    An access outside the array, a read of a null array and a signed overflow are
    [None]. *)

From S2P Require Import Prelude Math.
#[local] Open Scope Z_scope.

(** [memset(p, 0, n * sizeof(word))] on an array of words. *)
Definition zero_words (n : Z) (ws : list Z) : option (list Z) :=
  if n <=? Z.of_nat (length ws) then Some (replicate (Z.to_nat n) 0 ++ drop (Z.to_nat n) ws) else None.

(** [ws[off]], and [ws[off] = f(ws[off])]. *)
Definition read_word (ws : list Z) (off : Z) : option Z := if off <? 0 then None else ws !! Z.to_nat off.
Definition update_word (f : Z -> Z) (off : Z) (ws : list Z) : option (list Z) :=
  x ← read_word ws off; Some (<[Z.to_nat off := f x]> ws).

(** ** Arrays of 64-bit words *)

Module BitArray.

(** The number of bytes allocated; [None] is a null pointer. *)
Definition bit_array_malloc (nbit : Z) : option Z :=
  if nbit =? 0 then None else Some (u64 (u64 (nbit + 63) / 64 * 8)).

Definition bit_array_clear (array : list Z) (nbit : Z) : option (list Z) :=
  let off := nbit .>> 6 in
  array ← zero_words off array;
  let last := u64 (off .<< 6) in
  if negb (last =? nbit)
  then update_word (fun w => w .& u64 (Z.lnot (u64 (u64 (1 .<< u64 (nbit - last)) - 1)))) off array
  else Some array.

Definition bit_array_set (array : list Z) (i : Z) : option (list Z) :=
  let off := i .>> 6 in
  update_word (fun w => w .| u64 (1 .<< u64 (i - u64 (off .<< 6)))) off array.
Definition bit_array_unset (array : list Z) (i : Z) : option (list Z) :=
  let off := i .>> 6 in
  update_word (fun w => w .& u64 (Z.lnot (u64 (1 .<< u64 (i - u64 (off .<< 6)))))) off array.
Definition bit_array_get (array : list Z) (i : Z) : option Z :=
  let off := i .>> 6 in
  w ← read_word array off; Some (w .& u64 (1 .<< u64 (i - u64 (off .<< 6)))).

(** [for (i = off1; i < off2; ++i) if (array[i]) return ...]; [None] inside when
    the loop ends without returning. *)
Fixpoint bit_array_first1_loop (fuel : nat) (array : list Z) (i off2 : Z) : option (option Z) :=
  match fuel with
  | O => Some None
  | S fuel =>
      if i <? off2 then
        w ← read_word array i;
        if negb (w =? 0) then c ← builtin_ctz w; Some (Some (u64 (i * 64 + c)))
        else bit_array_first1_loop fuel array (u64 (i + 1)) off2
      else Some None
  end.
(** The part after the first, partial word. *)
Definition bit_array_first1_words (array : list Z) (off1 end_ : Z) : option Z :=
  let off2 := end_ .>> 6 in
  r ← bit_array_first1_loop (S (Z.to_nat (off2 - off1))) array off1 off2;
  match r with
  | Some r => Some r
  | None =>
      let last := u64 (off2 .<< 6) in
      if negb (last =? end_) then
        w ← read_word array off2;
        if negb (w =? 0) then c ← builtin_ctz w; Some (u64 (last + c) `min` end_) else Some end_
      else Some end_
  end.
Definition bit_array_first1 (array : list Z) (begin end_ : Z) : option Z :=
  let off1 := begin .>> 6 in
  let first := u64 (off1 .<< 6) in
  if negb (first =? begin) then
    w ← read_word array off1;
    let v := w .& u64 (Z.lnot (u64 (u64 (1 .<< u64 (begin - first)) - 1))) in
    if negb (v =? 0) then c ← builtin_ctz v; Some (u64 (first + c) `min` end_)
    else bit_array_first1_words array (u64 (off1 + 1)) end_
  else bit_array_first1_words array off1 end_.

End BitArray.

(** ** Bits over [vector<bool>] *)

Module DynamicBitset.

Definition DynamicBitset_new (n : Z) : list bool := replicate (Z.to_nat n) false.

(** [for (i = i0; i < set_.size(); ++i) set_[i] = false]. *)
Fixpoint clear_from (fuel : nat) (i : nat) (set_ : list bool) : list bool :=
  match fuel with
  | O => set_
  | S fuel => if (i <? length set_)%nat then clear_from fuel (S i) (<[i := false]> set_) else set_
  end.
Definition reset (set_ : list bool) : list bool := clear_from (length set_) 0 set_.

Definition set (pos : Z) (val : bool) (set_ : list bool) : list bool :=
  if pos <? Z.of_nat (length set_) then <[Z.to_nat pos := val]> set_ else set_.
Definition test (pos : Z) (set_ : list bool) : bool :=
  if pos <? Z.of_nat (length set_) then nth (Z.to_nat pos) set_ false else false.

Fixpoint all (set_ : list bool) : bool :=
  match set_ with [] => true | b :: set_ => if negb b then false else all set_ end.
Fixpoint any (set_ : list bool) : bool :=
  match set_ with [] => false | b :: set_ => if b then true else any set_ end.

(** [vector<bool>::resize] value-initialises what it adds. *)
Definition resize (new_size : Z) (set_ : list bool) : list bool :=
  let old_size := length set_ in
  let set_ := list.resize (Z.to_nat new_size) false set_ in
  clear_from (length set_) old_size set_.
Definition size (set_ : list bool) : Z := Z.of_nat (length set_).

End DynamicBitset.
(** ** Bits of a [char] array, most significant first *)

Module BitSet.

Record BitSet := { data_ : bytes; count_ : Z; cursor_ : Z }.

Definition SLOT_SIZE : Z := 8.
Definition mask_ : list Z := [0x80; 0x40; 0x20; 0x10; 0x08; 0x04; 0x02; 0x01].

Definition BitSet_new (data : bytes) (count cursor : Z) : BitSet :=
  {| data_ := data; count_ := count; cursor_ := cursor |}.

(** [/] and [%] on [int32_t] truncate toward zero. *)
Definition read_slot (d : bytes) (p : Z) : option byte :=
  let i := Z.quot p SLOT_SIZE in if i <? 0 then None else d !! Z.to_nat i.
Definition read_mask (p : Z) : option Z :=
  let i := Z.rem p SLOT_SIZE in if i <? 0 then None else mask_ !! Z.to_nat i.

Definition test (p : Z) (b : BitSet) : option bool :=
  c ← read_slot (data_ b) p;
  m ← read_mask p;
  Some (negb (schar c .& m =? 0)).

Definition set (p : Z) (b : BitSet) : option BitSet :=
  c ← read_slot (data_ b) p;
  m ← read_mask p;
  Some {| data_ := <[Z.to_nat (Z.quot p SLOT_SIZE) := to_byte (schar c .| m)]> (data_ b);
          count_ := count_ b; cursor_ := p |}.

Definition byte_size (count : Z) : option Z :=
  n ← int32 (count + count); n ← int32 (n - 1); Some (Z.quot n SLOT_SIZE).

(** [memset(data_, 0, byte_size())], the size being converted to [size_t]. *)
Definition reset (b : BitSet) : option BitSet :=
  n ← byte_size (count_ b);
  let n := u64 n in
  if n <=? Z.of_nat (length (data_ b)) then
    Some {| data_ := replicate (Z.to_nat n) x00 ++ drop (Z.to_nat n) (data_ b);
            count_ := count_ b; cursor_ := cursor_ b |}
  else None.
Definition reset_bit (p : Z) (b : BitSet) : option BitSet :=
  c ← read_slot (data_ b) p;
  m ← read_mask p;
  Some {| data_ := <[Z.to_nat (Z.quot p SLOT_SIZE) := to_byte (schar c .& Z.lnot m)]> (data_ b);
          count_ := count_ b; cursor_ := cursor_ b |}.

Fixpoint pick_loop (fuel : nat) (i : Z) (b : BitSet) : option Z :=
  match fuel with
  | O => None
  | S fuel =>
      if negb (i =? cursor_ b) then
        t ← test i b;
        if negb t then Some i
        else
          let i := i + 1 in
          pick_loop fuel (if i >=? count_ b then 0 else i) b
      else Some i
  end.
(** A modulus of 0 is [None]; the bound is one round. *)
Definition pick (b : BitSet) : option Z :=
  if count_ b =? 0 then None
  else
    i ← int32 (cursor_ b + 1);
    i ← pick_loop (S (Z.to_nat (count_ b))) (Z.rem i (count_ b)) b;
    Some (if i =? cursor_ b then -1 else i).

Definition size (b : BitSet) : Z := count_ b.
Definition data (b : BitSet) : bytes := data_ b.

End BitSet.

(** ** Bits in 32-bit words *)

Module Bitmap.

(** [word_] is [None] for the null array. *)
Record Bitmap := { nbits_ : Z; word_ : option (list Z) }.

Definition kBits : Z := 32.
Definition NumWords (n : Z) : Z := u64 (n + kBits - 1) / kBits.
Definition Mask (i : Z) : Z := u32 (u64 (1 .<< i)).

Section memory.
(** What uninitialised memory happens to hold. *)
Context (junk : nat -> Z).

Definition Bitmap_empty : Bitmap := {| nbits_ := 0; word_ := None |}.
(** [memset] of no words leaves the null array null. *)
Definition Reset (n : Z) (b : Bitmap) : option Bitmap :=
  let num_words := NumWords n in
  let w := if negb (num_words =? NumWords (nbits_ b))
           then Some (map junk (seq 0 (Z.to_nat num_words))) else word_ b in
  match w with
  | None => if num_words =? 0 then Some {| nbits_ := n; word_ := None |} else None
  | Some w => w ← zero_words num_words w; Some {| nbits_ := n; word_ := Some w |}
  end.
Definition Bitmap_new (n : Z) : option Bitmap := Reset n Bitmap_empty.
End memory.

Definition bits (b : Bitmap) : Z := nbits_ b.

Definition get (i : Z) (b : Bitmap) : option bool :=
  w ← word_ b; x ← read_word w (i / kBits); Some (negb (x .& Mask (i mod kBits) =? 0)).
Definition set (i : Z) (b : Bitmap) : option Bitmap :=
  w ← word_ b;
  w ← update_word (fun x => x .| Mask (i mod kBits)) (i / kBits) w;
  Some {| nbits_ := nbits_ b; word_ := Some w |}.
Definition clear (i : Z) (b : Bitmap) : option Bitmap :=
  w ← word_ b;
  w ← update_word (fun x => x .& u32 (Z.lnot (Mask (i mod kBits)))) (i / kBits) w;
  Some {| nbits_ := nbits_ b; word_ := Some w |}.

Definition kLowestBitSet : list Z := [
  0; 1; 2; 1; 3; 1; 2; 1; 4; 1; 2; 1; 3; 1; 2; 1;
  5; 1; 2; 1; 3; 1; 2; 1; 4; 1; 2; 1; 3; 1; 2; 1;
  6; 1; 2; 1; 3; 1; 2; 1; 4; 1; 2; 1; 3; 1; 2; 1;
  5; 1; 2; 1; 3; 1; 2; 1; 4; 1; 2; 1; 3; 1; 2; 1;
  7; 1; 2; 1; 3; 1; 2; 1; 4; 1; 2; 1; 3; 1; 2; 1;
  5; 1; 2; 1; 3; 1; 2; 1; 4; 1; 2; 1; 3; 1; 2; 1;
  6; 1; 2; 1; 3; 1; 2; 1; 4; 1; 2; 1; 3; 1; 2; 1;
  5; 1; 2; 1; 3; 1; 2; 1; 4; 1; 2; 1; 3; 1; 2; 1;
  8; 1; 2; 1; 3; 1; 2; 1; 4; 1; 2; 1; 3; 1; 2; 1;
  5; 1; 2; 1; 3; 1; 2; 1; 4; 1; 2; 1; 3; 1; 2; 1;
  6; 1; 2; 1; 3; 1; 2; 1; 4; 1; 2; 1; 3; 1; 2; 1;
  5; 1; 2; 1; 3; 1; 2; 1; 4; 1; 2; 1; 3; 1; 2; 1;
  7; 1; 2; 1; 3; 1; 2; 1; 4; 1; 2; 1; 3; 1; 2; 1;
  5; 1; 2; 1; 3; 1; 2; 1; 4; 1; 2; 1; 3; 1; 2; 1;
  6; 1; 2; 1; 3; 1; 2; 1; 4; 1; 2; 1; 3; 1; 2; 1;
  5; 1; 2; 1; 3; 1; 2; 1; 4; 1; 2; 1; 3; 1; 2; 1].
Definition lowest (i : Z) : Z := nth (Z.to_nat i) kLowestBitSet 0.
Definition FindFirstSet (w : Z) : Z :=
  if negb (w .& 0xff =? 0) then lowest (w .& 0xff)
  else if negb ((w .>> 8) .& 0xff =? 0) then lowest ((w .>> 8) .& 0xff) + 8
  else if negb ((w .>> 16) .& 0xff =? 0) then lowest ((w .>> 16) .& 0xff) + 16
  else if negb ((w .>> 24) .& 0xff =? 0) then lowest ((w .>> 24) .& 0xff) + 24
  else 0.

Fixpoint FirstUnset_loop (fuel : nat) (i nwords mask : Z) (b : Bitmap) : option Z :=
  match fuel with
  | O => None
  | S fuel =>
      if i <? nwords then
        w ← word_ b;
        x ← read_word w i;
        let word := u32 (x .| mask) in
        let r := FindFirstSet (u32 (Z.lnot word)) in
        if negb (r =? 0) then
          let result := u64 (i * kBits + (r - 1)) in
          Some (if result >? nbits_ b then nbits_ b else result)
        else FirstUnset_loop fuel (u64 (i + 1)) nwords 0 b
      else Some (nbits_ b)
  end.
Definition FirstUnset (start : Z) (b : Bitmap) : option Z :=
  if start >=? nbits_ b then Some (nbits_ b)
  else
    let mask := u64 (u64 (1 .<< (start mod kBits)) - 1) in
    let nwords := NumWords (nbits_ b) in
    FirstUnset_loop (S (Z.to_nat nwords)) (start / kBits) nwords mask b.

(** [result[i] = get(i) ? '1' : '0'] for each [i] in turn. *)
Fixpoint ToString_loop (indices : list nat) (b : Bitmap) : option bytes :=
  match indices with
  | [] => Some []
  | i :: indices => x ← get (Z.of_nat i) b; r ← ToString_loop indices b; Some ((if x : bool then x31 else x30) :: r)
  end.
Definition ToString (b : Bitmap) : option bytes := ToString_loop (seq 0 (Z.to_nat (nbits_ b))) b.

End Bitmap.
(** ** Bits of an array of words *)

Lemma pos_ctz_spec p :
  0 <= pos_ctz p /\ Z.testbit (Zpos p) (pos_ctz p) = true /\ forall j, 0 <= j < pos_ctz p -> Z.testbit (Zpos p) j = false.
Proof.
  induction p as [p _|p (H0 & H1 & H2)|]; cbn [pos_ctz]; [by split_and!; [|..|lia]| |by split_and!; [|..|lia]].
  change (Zpos p~0) with (2 * Zpos p). split; [lia|]. split.
  - by rewrite Z.add_1_l, Z.testbit_even_succ.
  - intros j Hj. destruct (Z.eq_dec j 0) as [->|?]; [by rewrite Z.testbit_even_0|].
    replace j with (Z.succ (j - 1)) by lia. rewrite Z.testbit_even_succ by lia. apply H2. lia.
Qed.
Lemma builtin_ctz_spec v :
  0 < v -> exists c, builtin_ctz v = Some c /\ 0 <= c /\ Z.testbit v c = true /\ forall j, 0 <= j < c -> Z.testbit v j = false.
Proof. destruct v as [|p|p]; [lia| |lia]. intros _. exists (pos_ctz p). split; [done|]. apply pos_ctz_spec. Qed.

(** A nonzero word has a lowest set bit, below its width. *)
Lemma word_ctz w v :
  0 <= w -> is_uint w v -> (v =? 0) = false ->
  exists c, builtin_ctz v = Some c /\ 0 <= c < w /\ Z.testbit v c = true /\ forall j, 0 <= j < c -> Z.testbit v j = false.
Proof.
  intros Hw Hv Hz. apply Z.eqb_neq in Hz. destruct (builtin_ctz_spec v) as (c & E & H0 & H1 & H2); [destruct Hv; lia|].
  exists c. split; [done|]. split; [|done]. split; [done|]. destruct (Z.lt_ge_cases c w) as [?|Hc]; [done|].
  by rewrite (is_uint_testbit w) in H1.
Qed.

Definition words_ok (w : Z) (ws : list Z) : Prop := Forall (is_uint w) ws.
Definition bit_of (w : Z) (ws : list Z) (i : Z) : bool :=
  match ws !! Z.to_nat (i / w) with Some x => Z.testbit x (i mod w) | None => false end.
Definition nbits (w : Z) (ws : list Z) : Z := w * Z.of_nat (length ws).

Section words.
Context (w : Z) (Hw : 0 < w).

Lemma div_range ws i : 0 <= i < nbits w ws -> 0 <= i / w < Z.of_nat (length ws).
Proof.
  intros [H1 H2]. split; [by apply Z.div_pos|]. apply Z.div_lt_upper_bound; [done|]. exact H2.
Qed.
Lemma read_word_Some ws off :
  words_ok w ws -> 0 <= off < Z.of_nat (length ws) ->
  exists x, read_word ws off = Some x /\ is_uint w x /\ ws !! Z.to_nat off = Some x.
Proof.
  intros Hok Hoff. destruct (lookup_lt_is_Some_2 ws (Z.to_nat off)) as [x Hx]; [lia|]. exists x.
  unfold read_word. destruct (Z.ltb_spec off 0); [lia|]. split; [done|]. split; [|done].
  by eapply (proj1 (Forall_lookup _ _)).
Qed.

(** A change of one word that acts bit by bit. *)
Lemma update_word_spec ws off f (g : bool -> Z -> bool) :
  words_ok w ws -> 0 <= off < Z.of_nat (length ws) -> (forall x, is_uint w x -> is_uint w (f x)) ->
  (forall x k, is_uint w x -> 0 <= k < w -> Z.testbit (f x) k = g (Z.testbit x k) k) ->
  exists ws', update_word f off ws = Some ws' /\ words_ok w ws' /\ length ws' = length ws /\
    forall j, 0 <= j -> bit_of w ws' j = if j / w =? off then g (bit_of w ws j) (j mod w) else bit_of w ws j.
Proof.
  intros Hok Hoff Hf Hg. destruct (read_word_Some ws off Hok Hoff) as (x & Ex & Hx & Hl).
  exists (<[Z.to_nat off := f x]> ws). unfold update_word. rewrite Ex. split; [done|]. split; [|split].
  - apply Forall_insert; [done|]. by apply Hf.
  - apply length_insert.
  - intros j Hj. unfold bit_of. pose proof (Z.div_pos j w Hj Hw). pose proof (Z.mod_pos_bound j w Hw).
    destruct (Z.eqb_spec (j / w) off) as [->|Hne].
    + rewrite list_lookup_insert_eq, Hl by (apply lookup_lt_Some in Hl; done). by apply Hg.
    + rewrite list_lookup_insert_ne by lia. done.
Qed.

Lemma div_mod_eq i j : 0 <= i -> 0 <= j -> (i =? j) = (i / w =? j / w) && (i mod w =? j mod w).
Proof.
  intros Hi Hj. destruct (Z.eqb_spec i j) as [->|Hne]; [by rewrite !Z.eqb_refl|].
  destruct (Z.eqb_spec (i / w) (j / w)) as [Hd|]; [|done]. destruct (Z.eqb_spec (i mod w) (j mod w)) as [Hm|]; [|done].
  exfalso. apply Hne. rewrite (Z.div_mod i w), (Z.div_mod j w) by lia. by rewrite Hd, Hm.
Qed.

(** Setting and clearing one bit, as the code writes them. *)
Lemma update_set ws i m :
  words_ok w ws -> 0 <= i < nbits w ws -> m = 2 ^ (i mod w) ->
  exists ws', update_word (fun x => x .| m) (i / w) ws = Some ws' /\ words_ok w ws' /\ length ws' = length ws /\
    forall j, 0 <= j -> bit_of w ws' j = (j =? i) || bit_of w ws j.
Proof.
  intros Hok Hi ->. pose proof (Z.mod_pos_bound i w Hw) as Hm.
  destruct (update_word_spec ws (i / w) (fun x => x .| 2 ^ (i mod w)) (fun b k => (k =? i mod w) || b))
    as (ws' & E & Hok' & Hl & Hb); [done|by apply div_range| | |].
  - intros x Hx. apply is_uint_lor; [done|]. split; [by apply Z.pow_nonneg|]. apply Z.pow_lt_mono_r; lia.
  - intros x k Hx Hk. rewrite Z.lor_spec, Z.pow2_bits_eqb by lia. rewrite orb_comm. by rewrite Z.eqb_sym.
  - exists ws'. split; [done|]. split; [done|]. split; [done|]. intros j Hj. rewrite Hb by done.
    rewrite (div_mod_eq j i) by lia. by destruct (j / w =? i / w).
Qed.
Lemma update_clear ws i m :
  words_ok w ws -> 0 <= i < nbits w ws -> m = wrap w (Z.lnot (2 ^ (i mod w))) ->
  exists ws', update_word (fun x => x .& m) (i / w) ws = Some ws' /\ words_ok w ws' /\ length ws' = length ws /\
    forall j, 0 <= j -> bit_of w ws' j = negb (j =? i) && bit_of w ws j.
Proof.
  intros Hok Hi ->. pose proof (Z.mod_pos_bound i w Hw) as Hm.
  destruct (update_word_spec ws (i / w) (fun x => x .& wrap w (Z.lnot (2 ^ (i mod w)))) (fun b k => negb (k =? i mod w) && b))
    as (ws' & E & Hok' & Hl & Hb); [done|by apply div_range| | |].
  - intros x Hx. apply is_uint_land; [done|]. apply wrap_range. lia.
  - intros x k Hx Hk. rewrite Z.land_spec, wrap_testbit, Z.lnot_spec, Z.pow2_bits_eqb by lia.
    destruct (Z.ltb_spec k w); [|lia]. rewrite Z.eqb_sym. cbn [andb]. apply andb_comm.
  - exists ws'. split; [done|]. split; [done|]. split; [done|]. intros j Hj. rewrite Hb by done.
    rewrite (div_mod_eq j i) by lia. by destruct (j / w =? i / w).
Qed.

(** Testing one bit. *)
Lemma read_bit ws i m :
  words_ok w ws -> 0 <= i < nbits w ws -> m = 2 ^ (i mod w) ->
  exists x, read_word ws (i / w) = Some x /\ x .& m = (if bit_of w ws i then m else 0).
Proof.
  intros Hok Hi ->. destruct (read_word_Some ws (i / w) Hok) as (x & E & Hx & Hl); [by apply div_range|].
  exists x. split; [done|]. unfold bit_of. rewrite Hl. pose proof (Z.mod_pos_bound i w Hw).
  apply Z.bits_inj'. intros k Hk. rewrite Z.land_spec.
  destruct (Z.testbit x (i mod w)) eqn:Eb; rewrite ?Z.bits_0, Z.pow2_bits_eqb by lia;
    destruct (Z.eqb_spec (i mod w) k) as [<-|]; by rewrite ?Eb, ?andb_false_r.
Qed.

Lemma zero_words_spec ws n :
  words_ok w ws -> 0 <= n <= Z.of_nat (length ws) ->
  exists ws', zero_words n ws = Some ws' /\ words_ok w ws' /\ length ws' = length ws /\
    forall j, 0 <= j -> bit_of w ws' j = (w * n <=? j) && bit_of w ws j.
Proof.
  intros Hok Hn. unfold zero_words. rewrite (proj2 (Z.leb_le _ _)) by lia. eexists. split; [done|]. split; [|split].
  - apply Forall_app. split; [|by apply Forall_drop]. apply Forall_replicate. split; [done|]. by apply Z.pow_pos_nonneg; lia.
  - rewrite length_app, length_replicate, length_drop. lia.
  - intros j Hj. unfold bit_of. pose proof (Z.div_pos j w Hj Hw) as Hd. destruct (Z.leb_spec (w * n) j) as [Hle|Hlt].
    + assert (n <= j / w) by (by apply Z.div_le_lower_bound).
      rewrite lookup_app_r by (rewrite length_replicate; lia). rewrite length_replicate, lookup_drop.
      replace (Z.to_nat n + (Z.to_nat (j / w) - Z.to_nat n))%nat with (Z.to_nat (j / w)) by lia. done.
    + assert (j / w < n) by (apply Z.div_lt_upper_bound; lia).
      rewrite lookup_app_l by (rewrite length_replicate; lia).
      rewrite lookup_replicate_2 by lia. apply Z.bits_0.
Qed.
End words.

(** The least set bit of [P] in [[begin, end_)], [end_] if there is none. *)
Definition is_first (P : Z -> bool) (begin end_ r : Z) : Prop :=
  begin <= r <= end_ /\ (forall j, begin <= j < r -> P j = false) /\ (r < end_ -> P r = true).
Lemma is_first_unique P begin end_ r r' : is_first P begin end_ r -> is_first P begin end_ r' -> r = r'.
Proof.
  intros (H1 & H2 & H3) (H1' & H2' & H3'). destruct (Z.lt_trichotomy r r') as [Hlt|[?|Hlt]]; [|done|].
  - specialize (H2' r ltac:(lia)). rewrite H3 in H2' by lia. done.
  - specialize (H2 r' ltac:(lia)). rewrite H3' in H2 by lia. done.
Qed.
(** ** Arrays of 64-bit words: lemmas *)

Section bit_array.
Import BitArray.

Lemma shiftr6 i : i .>> 6 = i / 64.
Proof. by rewrite Z.shiftr_div_pow2. Qed.
Lemma word_start i : is_uint 64 i -> u64 ((i .>> 6) .<< 6) = 64 * (i / 64).
Proof.
  intros [H0 Hi]. rewrite shiftr6, Z.shiftl_mul_pow2 by done. change (2 ^ 6) with 64.
  pose proof (Z.mul_div_le i 64 ltac:(lia)). pose proof (Z.div_pos i 64 H0 ltac:(lia)).
  rewrite wrap_small; [lia|]. unfold is_uint. lia.
Qed.
Lemma word_offset i : is_uint 64 i -> u64 (i - u64 ((i .>> 6) .<< 6)) = i mod 64.
Proof.
  intros Hi. rewrite word_start by done. rewrite (Z.mod_eq i 64) by done. apply wrap_small.
  pose proof (Z.mod_pos_bound i 64 ltac:(lia)) as Hm. rewrite (Z.mod_eq i 64) in Hm by done. unfold is_uint. lia.
Qed.
Lemma pow2_mask w k : 0 <= k < w -> wrap w (1 .<< k) = 2 ^ k.
Proof.
  intros Hk. rewrite Z.shiftl_1_l. apply wrap_small. split; [by apply Z.pow_nonneg|]. apply Z.pow_lt_mono_r; lia.
Qed.
Lemma mod64 i : 0 <= i mod 64 < 64.
Proof. by apply Z.mod_pos_bound. Qed.
Lemma low_mask k : 0 <= k < 64 -> u64 (u64 (1 .<< k) - 1) = Z.ones k.
Proof.
  intros Hk. rewrite pow2_mask by done. rewrite Z.ones_equiv. apply wrap_small.
  assert (2 ^ k < 2 ^ 64) by (apply Z.pow_lt_mono_r; lia). assert (0 < 2 ^ k) by (apply Z.pow_pos_nonneg; lia).
  unfold is_uint. lia.
Qed.
(** [x & ~((1 << k) - 1)]. *)
Lemma clear_low_range x k : is_uint 64 x -> is_uint 64 (x .& u64 (Z.lnot (Z.ones k))).
Proof. intros. apply is_uint_land; [done|]. by apply wrap_range. Qed.
Lemma clear_low_bits x k j :
  0 <= k -> is_uint 64 x -> 0 <= j -> Z.testbit (x .& u64 (Z.lnot (Z.ones k))) j = Z.testbit x j && (k <=? j).
Proof.
  intros Hk Hx Hj. rewrite Z.land_spec, wrap_testbit, Z.lnot_spec, Z.testbit_ones_nonneg by lia.
  destruct (Z.ltb_spec j 64); [|by rewrite (is_uint_testbit 64 x j)]. cbn [andb].
  by rewrite <-Z.leb_antisym.
Qed.

Lemma bit_array_clear_spec array nbit :
  words_ok 64 array -> is_uint 64 nbit -> nbit <= nbits 64 array ->
  exists a, bit_array_clear array nbit = Some a /\ words_ok 64 a /\ length a = length array /\
    forall j, 0 <= j -> bit_of 64 a j = (nbit <=? j) && bit_of 64 array j.
Proof.
  intros Hok Hn Hle. unfold bit_array_clear. rewrite word_start by done. rewrite shiftr6.
  pose proof (Z.div_mod nbit 64 ltac:(lia)) as Hdm. pose proof (mod64 nbit) as Hm.
  assert (Hoff : 0 <= nbit / 64 <= Z.of_nat (length array)).
  { unfold nbits in Hle. destruct Hn. split; [by apply Z.div_pos|]. apply Z.div_le_upper_bound; lia. }
  destruct (zero_words_spec 64 ltac:(lia) array (nbit / 64) Hok Hoff) as (a & -> & Ha & Hl & Hb). cbn [mbind option_bind].
  destruct (Z.eqb_spec (64 * (nbit / 64)) nbit) as [Heq|Hne]; cbn [negb].
  { exists a. split; [done|]. split; [done|]. split; [done|]. intros j Hj. by rewrite Hb, Heq. }
  replace (nbit - 64 * (nbit / 64)) with (nbit mod 64) by lia. rewrite (wrap_small 64 (nbit mod 64)) by (unfold is_uint; lia).
  rewrite low_mask by done.
  destruct (update_word_spec 64 ltac:(lia) a (nbit / 64) (fun w => w .& u64 (Z.lnot (Z.ones (nbit mod 64))))
    (fun b k => b && (nbit mod 64 <=? k))) as (a' & -> & Ha' & Hl' & Hb').
  - done.
  - rewrite Hl. split; [lia|]. apply Z.div_lt_upper_bound; [done|]. unfold nbits in Hle. lia.
  - intros x Hx. by apply clear_low_range.
  - intros x k Hx Hk. apply clear_low_bits; [lia|done|lia].
  - exists a'. split; [done|]. split; [done|]. split; [by rewrite Hl'|]. intros j Hj. rewrite Hb', !Hb by done.
    pose proof (Z.div_mod j 64 ltac:(lia)). pose proof (mod64 j).
    destruct (Z.eqb_spec (j / 64) (nbit / 64)) as [E|E].
    + rewrite (proj2 (Z.leb_le (64 * (nbit / 64)) j)) by lia. cbn [andb]. rewrite andb_comm. f_equal.
      apply eq_true_iff_eq. rewrite !Z.leb_le. lia.
    + f_equal. apply eq_true_iff_eq. rewrite !Z.leb_le. lia.
Qed.

(** The bits of word [off]. *)
Lemma bit_of_word ws off x k :
  ws !! Z.to_nat off = Some x -> 0 <= off -> 0 <= k < 64 -> bit_of 64 ws (64 * off + k) = Z.testbit x k.
Proof.
  intros Hx Hoff Hk. unfold bit_of. rewrite (Z.mul_comm 64), Z.div_add_l, (Z.div_small k), Z.add_0_r, Hx by lia.
  by rewrite Z.add_comm, Z.mod_add, Z.mod_small by lia.
Qed.

(** The lowest set bit [c] of word [off]. *)
Lemma word_is_first ws off x c :
  ws !! Z.to_nat off = Some x -> 0 <= off -> 0 <= c < 64 -> Z.testbit x c = true ->
  (forall j, 0 <= j < c -> Z.testbit x j = false) ->
  forall e, 64 * off + c < e -> is_first (bit_of 64 ws) (64 * off) e (64 * off + c).
Proof.
  intros Hx Hoff Hc H1 H0 e He. split; [lia|]. split.
  - intros j Hj. replace j with (64 * off + (j - 64 * off)) by lia. rewrite (bit_of_word ws off x) by (done || lia).
    apply H0. lia.
  - intros _. by rewrite (bit_of_word ws off x).
Qed.

Lemma first1_loop_spec array fuel i off2 :
  words_ok 64 array -> 0 <= i <= off2 -> off2 <= Z.of_nat (length array) -> off2 < 2 ^ 58 ->
  (Z.to_nat (off2 - i) < fuel)%nat ->
  (exists r, bit_array_first1_loop fuel array i off2 = Some (Some r) /\ r < 64 * off2 /\
     forall e, r < e -> is_first (bit_of 64 array) (64 * i) e r) \/
  (bit_array_first1_loop fuel array i off2 = Some None /\ forall j, 64 * i <= j < 64 * off2 -> bit_of 64 array j = false).
Proof.
  intros Hok. revert i. induction fuel as [|fuel IH]; intros i Hi Hlen Hbig Hf; [lia|]. cbn [bit_array_first1_loop].
  destruct (Z.ltb_spec i off2) as [Hlt|Hge]; [|right; split; [done|lia]].
  destruct (read_word_Some 64 array i Hok ltac:(lia)) as (x & -> & Hx & Hl). cbn [mbind option_bind].
  destruct (Z.eqb_spec x 0) as [->|Hne]; cbn [negb].
  - rewrite (wrap_small 64 (i + 1)) by (unfold is_uint; lia).
    assert (Hz : forall j, 64 * i <= j < 64 * (i + 1) -> bit_of 64 array j = false).
    { intros j Hj. replace j with (64 * i + (j - 64 * i)) by lia. rewrite (bit_of_word array i 0) by (done || lia).
      apply Z.bits_0. }
    destruct (IH (i + 1)) as [(r & -> & Hr & Hfi)|(-> & Hall)]; [lia|lia|lia|lia| |].
    + left. exists r. split; [done|]. split; [done|]. intros e He. destruct (Hfi e He) as (H1 & H2 & H3).
      split; [lia|]. split; [|done]. intros j Hj. destruct (Z.lt_ge_cases j (64 * (i + 1))); [apply Hz; lia|apply H2; lia].
    + right. split; [done|]. intros j Hj. destruct (Z.lt_ge_cases j (64 * (i + 1))); [apply Hz; lia|apply Hall; lia].
  - destruct (word_ctz 64 x ltac:(lia) Hx) as (c & -> & Hc & H1 & H0); [by apply Z.eqb_neq|]. cbn [mbind option_bind].
    left. exists (64 * i + c). rewrite wrap_small by (unfold is_uint; lia). split; [do 2 f_equal; lia|]. split; [lia|].
    intros e He. apply (word_is_first array i x); (done || lia).
Qed.

(** The scan of whole words from [off1]; [s] is where it really starts. *)
Lemma first1_words_spec array off1 e s :
  words_ok 64 array -> is_uint 64 e -> e <= nbits 64 array -> 0 <= off1 ->
  s = 64 * (off1 `min` (e / 64)) -> off1 <= e / 64 \/ e mod 64 <> 0 ->
  exists r, bit_array_first1_words array off1 e = Some r /\ is_first (bit_of 64 array) s e r.
Proof.
  intros Hok He Hle Hoff -> Hcase. unfold bit_array_first1_words. rewrite word_start by done. rewrite shiftr6.
  pose proof (Z.div_mod e 64 ltac:(lia)) as Hdm. pose proof (mod64 e) as Hm. unfold nbits in Hle.
  assert (Hbig : e / 64 < 2 ^ 58) by (apply Z.div_lt_upper_bound; [done|apply He]).
  assert (H0e : 0 <= e / 64) by (apply Z.div_pos; [apply He|done]).
  assert (Hloop : (exists r, bit_array_first1_loop (S (Z.to_nat (e / 64 - off1))) array off1 (e / 64) = Some (Some r) /\ r < 64 * (e / 64) /\
     forall e', r < e' -> is_first (bit_of 64 array) (64 * off1 `min` (e / 64)) e' r) \/
     (bit_array_first1_loop (S (Z.to_nat (e / 64 - off1))) array off1 (e / 64) = Some None /\
      forall j, 64 * (off1 `min` (e / 64)) <= j < 64 * (e / 64) -> bit_of 64 array j = false)).
  { destruct (Z.le_gt_cases off1 (e / 64)).
    - rewrite Z.min_l by done. apply first1_loop_spec; [done|lia|lia|done|lia].
    - right. cbn [bit_array_first1_loop]. rewrite (proj2 (Z.ltb_ge _ _)) by lia. split; [done|]. lia. }
  destruct Hloop as [(r & -> & Hr & Hfi)|(-> & Hall)]; cbn [mbind option_bind].
  { exists r. split; [done|]. apply Hfi. lia. }
  assert (Hend : forall r, 64 * (e / 64) <= r -> is_first (bit_of 64 array) (64 * (e / 64)) e r ->
    is_first (bit_of 64 array) (64 * off1 `min` (e / 64)) e r).
  { intros r Hr (H1 & H2 & H3). split; [lia|]. split; [|done]. intros j Hj.
    destruct (Z.lt_ge_cases j (64 * (e / 64))); [apply Hall; lia|apply H2; lia]. }
  destruct (Z.eqb_spec (64 * (e / 64)) e) as [Heq|Hne]; cbn [negb].
  { exists e. split; [done|]. apply Hend; [lia|]. split; [lia|]. split; lia. }
  destruct (read_word_Some 64 array (e / 64) Hok ltac:(lia)) as (x & -> & Hx & Hl). cbn [mbind option_bind].
  destruct (Z.eqb_spec x 0) as [->|Hnz]; cbn [negb].
  - exists e. split; [done|]. apply Hend; [lia|]. split; [lia|]. split; [|lia]. intros j Hj.
    replace j with (64 * (e / 64) + (j - 64 * (e / 64))) by lia. rewrite (bit_of_word array (e / 64) 0) by (done || lia).
    apply Z.bits_0.
  - destruct (word_ctz 64 x ltac:(lia) Hx) as (c & -> & Hc & H1 & H0); [by apply Z.eqb_neq|]. cbn [mbind option_bind].
    destruct He as [He0 He]. exists ((64 * (e / 64) + c) `min` e). split.
    { f_equal. rewrite (wrap_small 64); [done|]. unfold is_uint. lia. }
    apply Hend; [lia|]. destruct (Z.lt_ge_cases (64 * (e / 64) + c) e) as [?|?].
    + rewrite Z.min_l by lia. apply (word_is_first array (e / 64) x); (done || lia).
    + rewrite Z.min_r by lia. split; [lia|]. split; [|lia]. intros j Hj.
      replace j with (64 * (e / 64) + (j - 64 * (e / 64))) by lia. rewrite (bit_of_word array (e / 64) x) by (done || lia).
      apply H0. lia.
Qed.
End bit_array.
(** (functional).  On an array that covers the index, [bit_array_set],
    [bit_array_unset] and [bit_array_clear] change the bits they name and no other,
    [bit_array_get] is nonzero exactly on a set bit, and [bit_array_malloc] returns
    room for the bits, rounded up to whole words. *)
Theorem bit_array_operations (array : list Z) (i : Z)
  (Hok : words_ok 64 array) (Hi : is_uint 64 i) :
  (i < nbits 64 array ->
     (exists a, BitArray.bit_array_set array i = Some a /\ words_ok 64 a /\ length a = length array /\
        forall j, 0 <= j -> bit_of 64 a j = (j =? i) || bit_of 64 array j) /\
     (exists a, BitArray.bit_array_unset array i = Some a /\ words_ok 64 a /\ length a = length array /\
        forall j, 0 <= j -> bit_of 64 a j = negb (j =? i) && bit_of 64 array j) /\
     exists v, BitArray.bit_array_get array i = Some v /\ (v <> 0 <-> bit_of 64 array i = true)) /\
  (i <= nbits 64 array -> exists a, BitArray.bit_array_clear array i = Some a /\ words_ok 64 a /\
     length a = length array /\ forall j, 0 <= j -> bit_of 64 a j = (i <=? j) && bit_of 64 array j) /\
  (0 < i <= 2 ^ 64 - 64 -> exists n, BitArray.bit_array_malloc i = Some n /\ i <= 8 * n < i + 64 /\ n mod 8 = 0).
Proof.
  split; [intros Hlt|split].
  - assert (Hr : 0 <= i < nbits 64 array) by (destruct Hi; lia).
    assert (Hm : u64 (1 .<< u64 (i - u64 ((i .>> 6) .<< 6))) = 2 ^ (i mod 64)).
    { rewrite word_offset by done. apply pow2_mask, mod64. }
    unfold BitArray.bit_array_set, BitArray.bit_array_unset, BitArray.bit_array_get. rewrite Hm, shiftr6.
    split; [by apply update_set|]. split; [by apply update_clear|].
    destruct (read_bit 64 ltac:(lia) array i (2 ^ (i mod 64)) Hok Hr eq_refl) as (x & -> & Hx). cbn [mbind option_bind].
    eexists. split; [done|]. rewrite Hx. pose proof (mod64 i). assert (0 < 2 ^ (i mod 64)) by (apply Z.pow_pos_nonneg; lia).
    destruct (bit_of 64 array i); split; [done|lia|done|done].
  - intros Hle. by apply bit_array_clear_spec.
  - intros Hn. unfold BitArray.bit_array_malloc. rewrite (proj2 (Z.eqb_neq _ _)) by lia.
    rewrite (wrap_small 64 (i + 63)) by (unfold is_uint; lia). eexists. split; [done|].
    pose proof (Z.div_mod (i + 63) 64 ltac:(lia)). pose proof (mod64 (i + 63)).
    rewrite wrap_small by (unfold is_uint; lia). split; [lia|]. by rewrite Z.mod_mul.
Qed.

(** The case the code gets wrong: the range lies within one word, does not start
    it, and the word has no bit set from [begin] on. *)
Definition same_word (array : list Z) (begin end_ : Z) : bool :=
  negb (begin mod 64 =? 0) && (begin / 64 =? end_ / 64) &&
  forallb (fun k => negb (bit_of 64 array (begin + Z.of_nat k))) (seq 0 (Z.to_nat (64 - begin mod 64))).

Lemma same_word_bits array begin :
  forallb (fun k => negb (bit_of 64 array (begin + Z.of_nat k))) (seq 0 (Z.to_nat (64 - begin mod 64))) = true <->
  forall j, begin <= j < 64 * (begin / 64) + 64 -> bit_of 64 array j = false.
Proof.
  pose proof (Z.div_mod begin 64 ltac:(lia)). pose proof (mod64 begin).
  rewrite forallb_forall. split.
  - intros Hall j Hj. specialize (Hall (Z.to_nat (j - begin)) ltac:(apply in_seq; lia)).
    replace (begin + Z.of_nat (Z.to_nat (j - begin))) with j in Hall by lia. by apply negb_true_iff.
  - intros Hall k Hk%in_seq. apply negb_true_iff, Hall. lia.
Qed.

(** (functional).  [bit_array_first1] returns the least index of a bit set in
    [[begin, end)], and [end] if there is none -- except when the range lies within
    one word, does not start it, and the word has no set bit from [begin] on: then
    the search starts again at the first bit of the word, below [begin]. *)
Theorem bit_array_first1_search (array : list Z) (begin end_ : Z)
  (Hok : words_ok 64 array) (He : is_uint 64 end_) (Hr : 0 <= begin <= end_) (Hlen : end_ <= nbits 64 array) :
  exists r, BitArray.bit_array_first1 array begin end_ = Some r /\
    is_first (bit_of 64 array) (if same_word array begin end_ then 64 * (begin / 64) else begin) end_ r.
Proof.
  assert (Hb : is_uint 64 begin) by (destruct He; unfold is_uint; lia).
  unfold BitArray.bit_array_first1, same_word. rewrite word_start by done. rewrite shiftr6.
  pose proof (Z.div_mod begin 64 ltac:(lia)) as Hdm. pose proof (mod64 begin) as Hm.
  pose proof (Z.div_mod end_ 64 ltac:(lia)) as Hdme. pose proof (mod64 end_) as Hme.
  assert (Hd0 : 0 <= begin / 64) by (apply Z.div_pos; lia).
  assert (Hd1 : begin / 64 <= end_ / 64) by (apply Z.div_le_mono; lia).
  destruct (Z.eqb_spec (64 * (begin / 64)) begin) as [Heq|Hne]; cbn [negb].
  { rewrite (proj2 (Z.eqb_eq (begin mod 64) 0)) by lia. cbn [negb andb]. apply first1_words_spec; try done; [|by left].
    rewrite Z.min_l by lia. lia. }
  rewrite (proj2 (Z.eqb_neq (begin mod 64) 0)) by lia. cbn [negb andb].
  replace (begin - 64 * (begin / 64)) with (begin mod 64) by lia. rewrite (wrap_small 64 (begin mod 64)) by (unfold is_uint; lia).
  rewrite low_mask by lia. unfold nbits in Hlen.
  destruct (read_word_Some 64 array (begin / 64) Hok ltac:(lia)) as (x & -> & Hx & Hl). cbn [mbind option_bind].
  set (v := x .& u64 (Z.lnot (Z.ones (begin mod 64)))).
  assert (Hv : forall j, 0 <= j < 64 -> Z.testbit v j = bit_of 64 array (64 * (begin / 64) + j) && (begin mod 64 <=? j)).
  { intros j Hj. rewrite (bit_of_word array _ x) by (done || lia). apply clear_low_bits; [lia|done|lia]. }
  destruct (Z.eqb_spec v 0) as [Hv0|Hv0]; cbn [negb].
  - assert (Hz : forall j, begin <= j < 64 * (begin / 64) + 64 -> bit_of 64 array j = false).
    { intros j Hj. specialize (Hv (j - 64 * (begin / 64)) ltac:(lia)). rewrite Hv0, Z.bits_0 in Hv.
      replace (64 * (begin / 64) + (j - 64 * (begin / 64))) with j in Hv by lia.
      rewrite (proj2 (Z.leb_le _ _)), andb_true_r in Hv by lia. done. }
    rewrite (proj2 (same_word_bits array begin) Hz), andb_true_r.
    rewrite (wrap_small 64 (begin / 64 + 1)) by (destruct He; unfold is_uint in *; lia).
    destruct (Z.eqb_spec (begin / 64) (end_ / 64)) as [Hs|Hs].
    + destruct (first1_words_spec array (begin / 64 + 1) end_ (64 * (begin / 64)) Hok He Hlen ltac:(lia))
        as (r & E & Hf); [rewrite Z.min_r by lia; lia|right; lia|]. by exists r.
    + destruct (first1_words_spec array (begin / 64 + 1) end_ (64 * (begin / 64 + 1)) Hok He Hlen ltac:(lia))
        as (r & E & H1 & H2 & H3); [rewrite Z.min_l by lia; lia|left; lia|].
      exists r. split; [done|]. split; [lia|]. split; [|done]. intros j Hj.
      destruct (Z.lt_ge_cases j (64 * (begin / 64 + 1))); [apply Hz; lia|apply H2; lia].
  - destruct (word_ctz 64 v ltac:(lia)) as (c & -> & Hc & H1 & H0); [by apply clear_low_range|by apply Z.eqb_neq|].
    cbn [mbind option_bind]. rewrite Hv in H1 by done. apply andb_true_iff in H1 as [H1 Hle%Z.leb_le].
    assert (Hn : forallb (fun k => negb (bit_of 64 array (begin + Z.of_nat k))) (seq 0 (Z.to_nat (64 - begin mod 64))) = false).
    { apply not_true_iff_false. intros Hall. rewrite same_word_bits in Hall. rewrite Hall in H1 by lia. done. }
    rewrite Hn, andb_false_r. exists ((64 * (begin / 64) + c) `min` end_). destruct He as [He0 He].
    split.
    { f_equal. rewrite wrap_small; [done|]. unfold is_uint in *. lia. }
    assert (Hzero : forall j, begin <= j < 64 * (begin / 64) + c -> bit_of 64 array j = false).
    { intros j Hj. specialize (H0 (j - 64 * (begin / 64)) ltac:(lia)). rewrite Hv in H0 by lia.
      replace (64 * (begin / 64) + (j - 64 * (begin / 64))) with j in H0 by lia.
      rewrite (proj2 (Z.leb_le _ _)), andb_true_r in H0 by lia. done. }
    split; [lia|]. split.
    + intros j Hj. apply Hzero. lia.
    + intros Hlt. by rewrite Z.min_l by lia.
Qed.

(** Bit 0 of a word, searched for from bit 1: the answer is 0. *)
Example first1_same_word : BitArray.bit_array_first1 [1] 1 10 = Some 0.
Proof. done. Qed.
(** ** [DynamicBitset] and [BitSet]: lemmas *)

Lemma clear_from_spec fuel i l :
  (length l - i <= fuel)%nat -> DynamicBitset.clear_from fuel i l = take i l ++ replicate (length l - i) false.
Proof.
  revert i l. induction fuel as [|fuel IH]; intros i l Hf; cbn [DynamicBitset.clear_from].
  { replace (length l - i)%nat with 0%nat by lia. cbn. rewrite app_nil_r, take_ge by lia. done. }
  destruct (Nat.ltb_spec i (length l)) as [Hlt|Hge].
  - rewrite IH by (rewrite length_insert; lia). rewrite length_insert.
    rewrite (take_S_r _ i false) by (by apply list_lookup_insert_eq).
    rewrite take_insert_ge by lia. rewrite <-app_assoc. f_equal. cbn [app].
    replace (length l - i)%nat with (S (length l - S i)) by lia. done.
  - replace (length l - i)%nat with 0%nat by lia. cbn. rewrite app_nil_r, take_ge by lia. done.
Qed.

Lemma test_nth pos l : 0 <= pos -> DynamicBitset.test pos l = nth (Z.to_nat pos) l false.
Proof.
  intros Hp. unfold DynamicBitset.test. destruct (Z.ltb_spec pos (Z.of_nat (length l))); [done|].
  rewrite nth_overflow; [done|lia].
Qed.
Lemma nth_lookup_default {A} (l : list A) i d : nth i l d = default d (l !! i).
Proof. by rewrite nth_lookup. Qed.

(** Facts about bytes, checked on each of them. *)
Definition all_bytes : bytes := map (fun i => to_byte (Z.of_nat i)) (seq 0 256).
Lemma all_bytes_complete (P : byte -> bool) : forallb P all_bytes = true -> forall c, P c = true.
Proof.
  rewrite forallb_forall. intros Hall c. apply Hall, in_map_iff. exists (Z.to_nat (uchar c)).
  pose proof (uchar_range c) as [H0 H1]. rewrite Z2Nat.id by done. split; [apply to_byte_uchar|]. apply in_seq.
  change (2 ^ 8) with 256 in H1. lia.
Qed.
Definition bits8 : list Z := [0; 1; 2; 3; 4; 5; 6; 7].
Lemma bits8_complete (P : Z -> bool) : forallb P bits8 = true -> forall k, 0 <= k < 8 -> P k = true.
Proof.
  rewrite forallb_forall. intros Hall k Hk. apply Hall. unfold bits8. cbn [In].
  assert (k = 0 \/ k = 1 \/ k = 2 \/ k = 3 \/ k = 4 \/ k = 5 \/ k = 6 \/ k = 7) by lia. intuition.
Qed.

(** The bits of a [BitSet], the most significant bit of each byte first. *)
Definition slot_bit (d : bytes) (p : Z) : bool :=
  match d !! Z.to_nat (p / 8) with Some c => Z.testbit (uchar c) (7 - p mod 8) | None => false end.

Lemma mask_bits c k : 0 <= k < 8 -> exists m, BitSet.mask_ !! Z.to_nat k = Some m /\
  negb (schar c .& m =? 0) = Z.testbit (uchar c) (7 - k) /\
  (forall j, 0 <= j < 8 -> Z.testbit (uchar (to_byte (schar c .| m))) (7 - j) = (j =? k) || Z.testbit (uchar c) (7 - j)) /\
  (forall j, 0 <= j < 8 -> Z.testbit (uchar (to_byte (schar c .& Z.lnot m))) (7 - j) = negb (j =? k) && Z.testbit (uchar c) (7 - j)).
Proof.
  intros Hk. set (m := nth (Z.to_nat k) BitSet.mask_ 0). exists m.
  assert (Hm : BitSet.mask_ !! Z.to_nat k = Some m).
  { unfold m. rewrite nth_lookup. destruct (BitSet.mask_ !! Z.to_nat k) eqn:E; [done|].
    apply lookup_ge_None in E. cbn in E. lia. }
  split; [done|].
  assert (Hall : forall c k, 0 <= k < 8 ->
    (let m := nth (Z.to_nat k) BitSet.mask_ 0 in
     eqb (negb (schar c .& m =? 0)) (Z.testbit (uchar c) (7 - k)) &&
     forallb (fun j => eqb (Z.testbit (uchar (to_byte (schar c .| m))) (7 - j)) ((j =? k) || Z.testbit (uchar c) (7 - j)) &&
        eqb (Z.testbit (uchar (to_byte (schar c .& Z.lnot m))) (7 - j)) (negb (j =? k) && Z.testbit (uchar c) (7 - j))) bits8) = true).
  { intros c' k' Hk'. revert k' Hk'. apply bits8_complete. revert c'. apply all_bytes_complete. by vm_compute. }
  specialize (Hall c k Hk). cbv zeta in Hall. fold m in Hall. apply andb_true_iff in Hall as [H1 H2].
  split; [by apply eqb_prop|]. pose proof (bits8_complete _ H2) as H3.
  split; intros j Hj; specialize (H3 j Hj); apply andb_true_iff in H3 as [H3 H4]; by apply eqb_prop.
Qed.

Lemma read_slot_Some d p : 0 <= p < 8 * Z.of_nat (length d) ->
  exists c, BitSet.read_slot d p = Some c /\ d !! Z.to_nat (p / 8) = Some c.
Proof.
  intros Hp. assert (0 <= p / 8 < Z.of_nat (length d)) as Hd.
  { split; [apply Z.div_pos; lia|]. apply Z.div_lt_upper_bound; lia. }
  destruct (lookup_lt_is_Some_2 d (Z.to_nat (p / 8))) as [c Hc]; [lia|]. exists c. split; [|done].
  unfold BitSet.read_slot. rewrite Z.quot_div_nonneg by (unfold BitSet.SLOT_SIZE; lia).
  change BitSet.SLOT_SIZE with 8. rewrite (proj2 (Z.ltb_ge _ _)) by lia. done.
Qed.
Lemma read_mask_nonneg p : 0 <= p -> BitSet.read_mask p = BitSet.mask_ !! Z.to_nat (p mod 8).
Proof.
  intros Hp. unfold BitSet.read_mask. rewrite Z.rem_mod_nonneg by (unfold BitSet.SLOT_SIZE; lia).
  change BitSet.SLOT_SIZE with 8. pose proof (Z.mod_pos_bound p 8 ltac:(lia)). rewrite (proj2 (Z.ltb_ge _ _)) by lia. done.
Qed.

(** Replacing the byte of [p], bit by bit. *)
Lemma slot_bit_insert d p c' (g : bool -> Z -> bool) c j :
  0 <= p < 8 * Z.of_nat (length d) -> 0 <= j -> d !! Z.to_nat (p / 8) = Some c ->
  (forall k, 0 <= k < 8 -> Z.testbit (uchar c') (7 - k) = g (Z.testbit (uchar c) (7 - k)) k) ->
  slot_bit (<[Z.to_nat (Z.quot p BitSet.SLOT_SIZE) := c']> d) j =
    if j / 8 =? p / 8 then g (slot_bit d j) (j mod 8) else slot_bit d j.
Proof.
  intros Hp Hj Hc Hg. rewrite Z.quot_div_nonneg by (unfold BitSet.SLOT_SIZE; lia). change BitSet.SLOT_SIZE with 8.
  pose proof (Z.div_pos p 8 ltac:(lia) ltac:(lia)). pose proof (Z.div_pos j 8 Hj ltac:(lia)).
  unfold slot_bit. destruct (Z.eqb_spec (j / 8) (p / 8)) as [->|Hne].
  - rewrite list_lookup_insert_eq, Hc by (by eapply lookup_lt_Some). apply Hg. by apply Z.mod_pos_bound.
  - by rewrite list_lookup_insert_ne by lia.
Qed.
Lemma nth_replicate_same {A} n (x : A) i : nth i (replicate n x) x = x.
Proof. rewrite nth_lookup. destruct (replicate n x !! i) as [y|] eqn:E; [by apply lookup_replicate in E as [-> _]|done]. Qed.

(** (functional).  [DynamicBitset]: a position set reads back its value and no
    other changes, positions outside are ignored and read as false; [reset] clears
    all; [resize] keeps the positions below the new size and clears the new ones;
    [all] and [any] quantify over the positions. *)
Theorem dynamic_bitset_operations (bs : list bool) (p q n : Z) (v : bool)
  (Hp : 0 <= p) (Hq : 0 <= q) (Hn : 0 <= n) :
  DynamicBitset.test q (DynamicBitset.set p v bs) =
    (if (q =? p) && (p <? DynamicBitset.size bs) then v else DynamicBitset.test q bs) /\
  DynamicBitset.size (DynamicBitset.set p v bs) = DynamicBitset.size bs /\
  DynamicBitset.test q (DynamicBitset.reset bs) = false /\
  DynamicBitset.test q (DynamicBitset.resize n bs) = (q <? n) && DynamicBitset.test q bs /\
  DynamicBitset.size (DynamicBitset.resize n bs) = n /\
  (DynamicBitset.all bs = true <-> forall i, 0 <= i < DynamicBitset.size bs -> DynamicBitset.test i bs = true) /\
  (DynamicBitset.any bs = true <-> exists i, 0 <= i < DynamicBitset.size bs /\ DynamicBitset.test i bs = true) /\
  DynamicBitset.test q (DynamicBitset.DynamicBitset_new n) = false.
Proof.
  assert (Hres : DynamicBitset.resize n bs = list.resize (Z.to_nat n) false bs).
  { unfold DynamicBitset.resize. rewrite clear_from_spec by lia. rewrite length_resize.
    destruct (Nat.le_gt_cases (length bs) (Z.to_nat n)) as [Hle|Hgt].
    - rewrite resize_ge by done. rewrite take_app_le, take_ge by lia. done.
    - replace (Z.to_nat n - length bs)%nat with 0%nat by lia. rewrite take_ge by (rewrite length_resize; lia).
      apply app_nil_r. }
  split_and!.
  - unfold DynamicBitset.set, DynamicBitset.size. destruct (Z.ltb_spec p (Z.of_nat (length bs))); [|by rewrite andb_false_r].
    rewrite andb_true_r, !test_nth by done. rewrite !nth_lookup. destruct (Z.eqb_spec q p) as [->|].
    + by rewrite list_lookup_insert_eq by lia.
    + by rewrite list_lookup_insert_ne by lia.
  - unfold DynamicBitset.set, DynamicBitset.size. destruct (_ <? _); [|done]. by rewrite length_insert.
  - rewrite test_nth by done. unfold DynamicBitset.reset. rewrite clear_from_spec by lia. rewrite take_0.
    apply nth_replicate_same.
  - rewrite !test_nth by done. rewrite Hres, !nth_lookup. destruct (Z.ltb_spec q n).
    + destruct (Nat.le_gt_cases (length bs) (Z.to_nat q)).
      * by rewrite lookup_resize_new, (lookup_ge_None_2 bs) by lia.
      * by rewrite lookup_resize by lia.
    + by rewrite lookup_resize_old by lia.
  - unfold DynamicBitset.size. rewrite Hres, length_resize. lia.
  - unfold DynamicBitset.size. split.
    + intros Hall i Hi. rewrite test_nth by lia.
      assert (Hf : Forall (fun b => b = true) bs).
      { clear -Hall. induction bs as [|[] bs IH]; [done| |done]. constructor; [done|by apply IH]. }
      rewrite nth_lookup. destruct (lookup_lt_is_Some_2 bs (Z.to_nat i)) as [b Hb]; [lia|]. rewrite Hb.
      by apply (proj1 (Forall_lookup _ _) Hf) in Hb.
    + intros Hall. assert (Hf : Forall (fun b => b = true) bs).
      { apply Forall_lookup. intros i b Hb. specialize (Hall (Z.of_nat i)).
        rewrite test_nth, nth_lookup, Nat2Z.id, Hb in Hall by lia. apply Hall. apply lookup_lt_Some in Hb. lia. }
      clear -Hf. induction Hf as [|b bs -> _ IH]; [done|exact IH].
  - unfold DynamicBitset.size. split.
    + intros Hany. assert (exists i, bs !! i = Some true) as [i Hi].
      { clear -Hany. induction bs as [|[] bs IH]; [done|by exists 0%nat|]. destruct (IH Hany) as [i Hi]. by exists (S i). }
      exists (Z.of_nat i). pose proof (lookup_lt_Some _ _ _ Hi). split; [lia|].
      by rewrite test_nth, nth_lookup, Nat2Z.id, Hi by lia.
    + intros (i & Hi & Ht). rewrite test_nth, nth_lookup in Ht by lia.
      destruct (bs !! Z.to_nat i) as [b|] eqn:Hb; [|done]. cbn in Ht. subst b.
      apply list_elem_of_lookup_2 in Hb. clear -Hb.
      induction bs as [|[] bs IH]; [by apply not_elem_of_nil in Hb|done|]. apply IH.
      by apply elem_of_cons in Hb as [?|?].
  - rewrite test_nth by done. apply nth_replicate_same.
Qed.

Section bitset.
Import BitSet.
Implicit Types (b : BitSet.BitSet).

Lemma test_slot b p : 0 <= p < 8 * Z.of_nat (length (data_ b)) -> BitSet.test p b = Some (slot_bit (data_ b) p).
Proof.
  intros Hp. destruct (read_slot_Some _ p Hp) as (c & Ec & Hc).
  destruct (mask_bits c (p mod 8) (Z.mod_pos_bound p 8 ltac:(lia))) as (m & Em & Ht & _).
  unfold BitSet.test. rewrite Ec, read_mask_nonneg, Em by lia. cbn [mbind option_bind]. rewrite Ht.
  unfold slot_bit. by rewrite Hc.
Qed.

(** The search: [k] steps from the cursor. *)
Lemma pick_loop_spec fuel k b :
  0 <= cursor_ b < count_ b -> count_ b <= 8 * Z.of_nat (length (data_ b)) ->
  1 <= k <= count_ b -> (Z.to_nat (count_ b - k) < fuel)%nat ->
  exists k', k <= k' <= count_ b /\
    pick_loop fuel ((cursor_ b + k) mod count_ b) b = Some ((cursor_ b + k') mod count_ b) /\
    (forall j, k <= j < k' -> slot_bit (data_ b) ((cursor_ b + j) mod count_ b) = true) /\
    (k' < count_ b -> slot_bit (data_ b) ((cursor_ b + k') mod count_ b) = false).
Proof.
  intros Hc Hlen. revert k. induction fuel as [|fuel IH]; intros k Hk Hf; [lia|]. cbn [pick_loop].
  set (n := count_ b) in *. set (c := cursor_ b) in *.
  pose proof (Z.mod_pos_bound (c + k) n ltac:(lia)) as Hm.
  assert (Hmod : (c + k) mod n = c + k \/ (c + k) mod n = c + k - n /\ n <= c + k).
  { destruct (Z.lt_ge_cases (c + k) n); [left; apply Z.mod_small; lia|right]. split; [|done].
    rewrite <-(Z.mod_small (c + k - n) n) by lia. by rewrite <-(Z.mod_add (c + k - n) 1 n), Z.mul_1_l, Z.sub_add by lia. }
  destruct (Z.eqb_spec ((c + k) mod n) c) as [Heq|Hne]; cbn [negb].
  { assert (k = n) as -> by lia. exists n. split; [lia|]. split; [by rewrite Heq|]. split; lia. }
  rewrite test_slot by lia. cbn [mbind option_bind].
  destruct (slot_bit (data_ b) ((c + k) mod n)) eqn:Eb; cbn [negb].
  - assert (Hnext : (if (c + k) mod n + 1 >=? n then 0 else (c + k) mod n + 1) = (c + (k + 1)) mod n).
    { rewrite Z.geb_leb. destruct Hmod as [E|[E ?]]; rewrite E in *.
      - destruct (Z.leb_spec n (c + k + 1)).
        + replace (c + (k + 1)) with (0 + 1 * n) by lia. by rewrite Z.mod_add, Z.mod_0_l by lia.
        + rewrite Z.mod_small by lia. lia.
      - rewrite (proj2 (Z.leb_gt _ _)) by lia. replace (c + (k + 1)) with (c + k - n + 1 + 1 * n) by lia.
        rewrite Z.mod_add, Z.mod_small by lia. lia. }
    rewrite Hnext. destruct (IH (k + 1)) as (k' & Hk' & E & Hset & Hun); [|lia|].
    { assert (k <> n); [|lia]. intros ->. apply Hne. rewrite <-(Z.mod_small c n) at 2 by lia.
      by rewrite <-(Z.mod_add c 1 n), Z.mul_1_l by lia. }
    exists k'. split; [lia|]. split; [done|]. split; [|done]. intros j Hj.
    destruct (Z.eq_dec j k) as [->|]; [done|]. apply Hset. lia.
  - exists k. split; [lia|]. split; [done|]. split; [lia|]. intros _. exact Eb.
Qed.
End bitset.
(** (functional).  A [BitSet] over a buffer that covers the position: [test]
    reads the bit, [set] sets that bit only and moves the cursor to it, [reset(p)]
    clears that bit only.  [pick] returns the first clear position after the cursor,
    cyclically, and -1 when there is none but, possibly, the cursor itself. *)
Theorem bitset_operations (b : BitSet.BitSet) (p : Z)
  (Hp : 0 <= p < 8 * Z.of_nat (length (BitSet.data_ b))) :
  BitSet.test p b = Some (slot_bit (BitSet.data_ b) p) /\
  (exists b', BitSet.set p b = Some b' /\ BitSet.cursor_ b' = p /\ BitSet.count_ b' = BitSet.count_ b /\
     length (BitSet.data_ b') = length (BitSet.data_ b) /\
     forall j, 0 <= j -> slot_bit (BitSet.data_ b') j = (j =? p) || slot_bit (BitSet.data_ b) j) /\
  (exists b', BitSet.reset_bit p b = Some b' /\ BitSet.cursor_ b' = BitSet.cursor_ b /\ BitSet.count_ b' = BitSet.count_ b /\
     length (BitSet.data_ b') = length (BitSet.data_ b) /\
     forall j, 0 <= j -> slot_bit (BitSet.data_ b') j = negb (j =? p) && slot_bit (BitSet.data_ b) j) /\
  (0 <= BitSet.cursor_ b < BitSet.count_ b -> BitSet.count_ b < 2 ^ 31 ->
   BitSet.count_ b <= 8 * Z.of_nat (length (BitSet.data_ b)) ->
   exists r, BitSet.pick b = Some r /\
     ((r = -1 /\ forall j, 0 <= j < BitSet.count_ b -> j <> BitSet.cursor_ b -> slot_bit (BitSet.data_ b) j = true) \/
      exists k, 0 < k < BitSet.count_ b /\ r = (BitSet.cursor_ b + k) mod BitSet.count_ b /\
        slot_bit (BitSet.data_ b) r = false /\
        forall j, 0 < j < k -> slot_bit (BitSet.data_ b) ((BitSet.cursor_ b + j) mod BitSet.count_ b) = true)).
Proof.
  split; [by apply test_slot|].
  destruct (read_slot_Some _ p Hp) as (c & Ec & Hc).
  destruct (mask_bits c (p mod 8) (Z.mod_pos_bound p 8 ltac:(lia))) as (m & Em & _ & Hset & Hclr).
  assert (Hdm : forall j, 0 <= j -> (j =? p) = (j / 8 =? p / 8) && (j mod 8 =? p mod 8)) by
    (intros; apply div_mod_eq; lia).
  split; [|split].
  - unfold BitSet.set. rewrite Ec, read_mask_nonneg, Em by lia. eexists. split; [done|]. cbn.
    split; [done|]. split; [done|]. split; [apply length_insert|]. intros j Hj.
    rewrite (slot_bit_insert _ p _ (fun x k => (k =? p mod 8) || x) c) by (done || intros; by apply Hset).
    rewrite Hdm by done. by destruct (j / 8 =? p / 8).
  - unfold BitSet.reset_bit. rewrite Ec, read_mask_nonneg, Em by lia. eexists. split; [done|]. cbn.
    split; [done|]. split; [done|]. split; [apply length_insert|]. intros j Hj.
    rewrite (slot_bit_insert _ p _ (fun x k => negb (k =? p mod 8) && x) c) by (done || intros; by apply Hclr).
    rewrite Hdm by done. by destruct (j / 8 =? p / 8).
  - intros Hcur Hmax Hlen. set (n := BitSet.count_ b) in *. set (cur := BitSet.cursor_ b) in *.
    unfold BitSet.pick. fold n cur. rewrite (proj2 (Z.eqb_neq n 0)) by lia. rewrite int32_small by lia.
    cbn [mbind option_bind]. rewrite Z.rem_mod_nonneg by lia.
    destruct (pick_loop_spec (S (Z.to_nat n)) 1 b) as (k & Hk & E & Hs & Hu); [done|done|fold n; lia|fold n; lia|].
    fold n cur in Hk, E, Hs, Hu. rewrite E. cbn [mbind option_bind]. eexists. split; [done|].
    destruct (Z.eq_dec k n) as [->|Hne].
    + replace ((cur + n) mod n) with cur.
      2:{ rewrite <-(Z.mul_1_l n) at 1. by rewrite Z.mod_add, Z.mod_small by lia. }
      rewrite Z.eqb_refl. left. split; [done|]. intros j Hj Hjc.
      destruct (Z.lt_ge_cases cur j).
      * specialize (Hs (j - cur) ltac:(lia)). by replace (cur + (j - cur)) with j in Hs by lia; rewrite Z.mod_small in Hs by lia.
      * specialize (Hs (j - cur + n) ltac:(lia)). replace (cur + (j - cur + n)) with (j + 1 * n) in Hs by lia.
        by rewrite Z.mod_add, Z.mod_small in Hs by lia.
    + right. exists k. assert (((cur + k) mod n =? cur) = false) as ->.
      { apply Z.eqb_neq. intros Heq. destruct (Z.lt_ge_cases (cur + k) n).
        - rewrite Z.mod_small in Heq by lia. lia.
        - replace (cur + k) with (cur + k - n + 1 * n) in Heq by lia. rewrite Z.mod_add, Z.mod_small in Heq by lia. lia. }
      split; [lia|]. split; [done|]. split; [apply Hu; lia|]. intros j Hj. apply Hs. lia.
Qed.

(** (bounds).  [BitSet::byte_size(count)] is [(2 * count - 1) / 8], not the
    number of bytes that hold [count] bits.  [reset()] therefore leaves a set of at
    most four bits as it is, clears every position of a larger one when the buffer is
    long enough for that size, and writes past the end of the buffer otherwise: past
    one of exactly the bytes needed whenever there are 13 bits or more. *)
Theorem bitset_reset_size (b : BitSet.BitSet) (Hc : 0 < BitSet.count_ b < 2 ^ 30) :
  let count := BitSet.count_ b in
  BitSet.byte_size count = Some ((2 * count - 1) / 8) /\
  (count <= 4 -> BitSet.reset b = Some b) /\
  (5 <= count -> (2 * count - 1) / 8 <= Z.of_nat (length (BitSet.data_ b)) ->
     exists b', BitSet.reset b = Some b' /\ forall j, 0 <= j < count -> slot_bit (BitSet.data_ b') j = false) /\
  (Z.of_nat (length (BitSet.data_ b)) < (2 * count - 1) / 8 -> BitSet.reset b = None) /\
  (13 <= count -> (count + 7) / 8 < (2 * count - 1) / 8).
Proof.
  intros count. fold count in Hc.
  assert (Hn : BitSet.byte_size count = Some ((2 * count - 1) / 8)).
  { unfold BitSet.byte_size. rewrite int32_small by lia. cbn [mbind option_bind]. rewrite int32_small by lia.
    cbn [mbind option_bind]. rewrite Z.quot_div_nonneg by (unfold BitSet.SLOT_SIZE; lia).
    change BitSet.SLOT_SIZE with 8. do 2 f_equal. lia. }
  assert (Hr : 0 <= (2 * count - 1) / 8 < 2 ^ 64).
  { split; [apply Z.div_pos; lia|]. apply Z.div_lt_upper_bound; lia. }
  unfold BitSet.reset. fold count. rewrite Hn. cbn [mbind option_bind]. rewrite (wrap_small 64) by done.
  split; [done|]. split; [|split; [|split]].
  - intros H4. assert ((2 * count - 1) / 8 = 0) as -> by (apply Z.div_small; lia). rewrite (proj2 (Z.leb_le _ _)) by lia.
    cbn [Z.to_nat replicate app drop]. by destruct b.
  - intros H5 Hlen. rewrite (proj2 (Z.leb_le _ _)) by done. eexists. split; [done|]. intros j Hj. cbn [BitSet.data_].
    unfold slot_bit. assert (j / 8 < (2 * count - 1) / 8).
    { assert ((count + 7) / 8 <= (2 * count - 1) / 8).
      { destruct (Z.lt_ge_cases count 8); [|apply Z.div_le_mono; lia].
        assert (count = 5 \/ count = 6 \/ count = 7) as [E|[E|E]] by lia; by rewrite E. }
      assert (j / 8 < (count + 7) / 8); [|lia].
      apply Z.lt_le_trans with (j / 8 + 1); [lia|]. rewrite <-Z.div_add by lia. apply Z.div_le_mono; lia. }
    pose proof (Z.div_pos j 8 ltac:(lia) ltac:(lia)).
    rewrite lookup_app_l by (rewrite length_replicate; lia). rewrite lookup_replicate_2 by lia. apply Z.bits_0.
  - intros Hlen. by rewrite (proj2 (Z.leb_gt _ _)) by done.
  - intros H13. destruct (Z.lt_ge_cases count 16).
    { assert (count = 13 \/ count = 14 \/ count = 15) as [E|[E|E]] by lia; by rewrite E. }
    apply Z.lt_le_trans with ((count + 7) / 8 + 1); [lia|]. rewrite <-Z.div_add by lia. apply Z.div_le_mono; lia.
Qed.
(** ** Bitmap: lemmas *)

Section bitmap.
Import Bitmap.
Implicit Types (b : Bitmap.Bitmap).

(** The array, when there is one, holds the words its length asks for. *)
Record bitmap_valid b : Prop := {
  v_nbits : 0 <= nbits_ b <= 2 ^ 64 - 32;
  v_words : exists ws, (word_ b = Some ws \/ (word_ b = None /\ ws = [])) /\ words_ok 32 ws /\
              Z.of_nat (length ws) = NumWords (nbits_ b)
}.
Definition bitmap_bit b (i : Z) : bool := match word_ b with Some ws => bit_of 32 ws i | None => false end.

Lemma NumWords_spec n : 0 <= n <= 2 ^ 64 - 32 -> n <= 32 * NumWords n < n + 32 /\ NumWords n = (n + 31) / 32.
Proof.
  intros Hn. unfold NumWords, kBits. replace (n + 32 - 1) with (n + 31) by lia.
  rewrite wrap_small by (unfold is_uint; lia). pose proof (Z.div_mod (n + 31) 32 ltac:(lia)).
  pose proof (Z.mod_pos_bound (n + 31) 32 ltac:(lia)). lia.
Qed.
Lemma Mask_pow i : 0 <= i < 32 -> Mask i = 2 ^ i.
Proof.
  intros Hi. unfold Mask. rewrite (pow2_mask 64) by lia. apply wrap_small.
  split; [by apply Z.pow_nonneg|]. apply Z.pow_lt_mono_r; lia.
Qed.

Lemma valid_words b : bitmap_valid b -> 0 < nbits_ b ->
  exists ws, word_ b = Some ws /\ words_ok 32 ws /\ nbits_ b <= nbits 32 ws.
Proof.
  intros [Hn (ws & Hw & Hok & Hl)] H0. pose proof (NumWords_spec _ Hn). unfold nbits.
  exists ws. destruct Hw as [Hw|[Hw ->]]; [split; [done|]; split; [done|]; lia|]. cbn in Hl. lia.
Qed.

Lemma Reset_spec junk n b :
  bitmap_valid b -> 0 <= n <= 2 ^ 64 - 32 ->
  (forall i, is_uint 32 (junk i)) ->
  exists b', Reset junk n b = Some b' /\ bitmap_valid b' /\ nbits_ b' = n /\ forall i, 0 <= i -> bitmap_bit b' i = false.
Proof.
  intros [Hnb (ws & Hws & Hok & Hl)] Hn Hj. pose proof (NumWords_spec n Hn) as [Hb _].
  assert (Hzero : forall w, words_ok 32 w -> Z.of_nat (length w) = NumWords n ->
    exists b', (w ← zero_words (NumWords n) w; Some {| nbits_ := n; word_ := Some w |}) = Some b' /\ bitmap_valid b' /\
      nbits_ b' = n /\ forall i, 0 <= i -> bitmap_bit b' i = false).
  { intros w Hw Hlw. destruct (zero_words_spec 32 ltac:(lia) w (NumWords n) Hw) as (w' & -> & Hw' & Hl' & Hz); [lia|].
    eexists. split; [done|]. split; [|split; [done|]].
    - split; [done|]. exists w'. cbn. split; [by left|]. split; [done|]. by rewrite Hl'.
    - intros i Hi. unfold bitmap_bit. cbn. rewrite Hz by done. rewrite <-Hlw. unfold bit_of.
      destruct (Z.leb_spec (32 * Z.of_nat (length w)) i) as [Hle|]; [|done].
      rewrite lookup_ge_None_2; [done|]. assert (Z.of_nat (length w) <= i / 32) by (apply Z.div_le_lower_bound; lia). lia. }
  unfold Reset. destruct (Z.eqb_spec (NumWords n) (NumWords (nbits_ b))) as [Heq|Hne]; cbn [negb].
  - destruct Hws as [->|[-> ->]].
    + apply Hzero; [done|]. by rewrite Hl.
    + cbn in Hl. rewrite (proj2 (Z.eqb_eq _ _)) by lia. eexists. split; [done|]. split; [|split; [done|]]; [|done].
      split; [done|]. exists []. cbn. split; [by right|]. split; [constructor|]. lia.
  - apply Hzero.
    + apply Forall_map, Forall_true. intros i. apply Hj.
    + rewrite length_map, length_seq. lia.
Qed.

Lemma lowest_spec z : 0 < z < 256 ->
  1 <= lowest z <= 8 /\ Z.testbit z (lowest z - 1) = true /\ forall j, 0 <= j < lowest z - 1 -> Z.testbit z j = false.
Proof.
  intros Hz.
  assert (Hall : forall c, ((uchar c =? 0) || (((1 <=? lowest (uchar c)) && (lowest (uchar c) <=? 8) &&
    Z.testbit (uchar c) (lowest (uchar c) - 1)) &&
    forallb (fun j => (lowest (uchar c) - 1 <=? j) || negb (Z.testbit (uchar c) j)) bits8)) = true)
    by (apply all_bytes_complete; by vm_compute).
  specialize (Hall (to_byte z)). rewrite uchar_to_byte, wrap_small in Hall by (unfold is_uint; lia).
  rewrite (proj2 (Z.eqb_neq z 0)) in Hall by lia. cbn [orb] in Hall.
  apply andb_true_iff in Hall as [Hall Hj]. apply andb_true_iff in Hall as [Hall Ht]. apply andb_true_iff in Hall as [H1 H2].
  apply Z.leb_le in H1. apply Z.leb_le in H2. split; [lia|]. split; [done|]. intros j Hlt.
  pose proof (bits8_complete _ Hj j ltac:(lia)) as Hb. cbn beta in Hb. rewrite (proj2 (Z.leb_gt _ _)) in Hb by lia.
  by apply negb_true_iff.
Qed.

(** The byte at [k] of a word: its lowest bit, when the bits below [k] are clear. *)
Lemma byte_first w k : is_uint 32 w -> 0 <= k <= 24 -> ((w .>> k) .& 0xff =? 0) = false ->
  (forall j, 0 <= j < k -> Z.testbit w j = false) ->
  let r := lowest ((w .>> k) .& 0xff) + k in
  1 <= r <= 32 /\ Z.testbit w (r - 1) = true /\ forall j, 0 <= j < r - 1 -> Z.testbit w j = false.
Proof.
  intros Hw Hk Hz Hlow r. apply Z.eqb_neq in Hz.
  assert (Hr : is_uint 8 ((w .>> k) .& 0xff)).
  { change 0xff with (Z.ones 8). rewrite <-wrap_land by lia. by apply wrap_range. }
  assert (Hb : forall j, 0 <= j < 8 -> Z.testbit ((w .>> k) .& 0xff) j = Z.testbit w (j + k)).
  { intros j Hj. change 0xff with (Z.ones 8). rewrite Z.land_spec, Z.testbit_ones_nonneg, Z.shiftr_spec by lia.
    destruct (Z.ltb_spec j 8); [|lia]. apply andb_true_r. }
  destruct (lowest_spec ((w .>> k) .& 0xff)) as (H1 & H2 & H3); [unfold is_uint in Hr; lia|].
  subst r. split; [lia|]. split.
  - rewrite Hb in H2 by lia. by replace (lowest ((w .>> k) .& 255) - 1 + k) with (lowest ((w .>> k) .& 255) + k - 1) in H2 by lia.
  - intros j Hj. destruct (Z.lt_ge_cases j k); [apply Hlow; lia|]. specialize (H3 (j - k) ltac:(lia)).
    rewrite Hb in H3 by lia. by replace (j - k + k) with j in H3 by lia.
Qed.
Lemma byte_zero w k : 0 <= k -> ((w .>> k) .& 0xff =? 0) = true -> forall j, k <= j < k + 8 -> Z.testbit w j = false.
Proof.
  intros Hk Hz j Hj. apply Z.eqb_eq in Hz. assert (E : Z.testbit ((w .>> k) .& 0xff) (j - k) = false) by (by rewrite Hz, Z.bits_0).
  change 0xff with (Z.ones 8) in E. rewrite Z.land_spec, Z.testbit_ones_nonneg, Z.shiftr_spec in E by lia.
  destruct (Z.ltb_spec (j - k) 8); [|lia]. rewrite andb_true_r in E. by replace (j - k + k) with j in E by lia.
Qed.

Lemma FindFirstSet_spec w : is_uint 32 w ->
  (FindFirstSet w = 0 /\ w = 0) \/
  (1 <= FindFirstSet w <= 32 /\ Z.testbit w (FindFirstSet w - 1) = true /\
   forall j, 0 <= j < FindFirstSet w - 1 -> Z.testbit w j = false).
Proof.
  intros Hw. unfold FindFirstSet.
  assert (E0 : w .>> 0 = w) by apply Z.shiftr_0_r.
  destruct (w .& 0xff =? 0) eqn:H0; cbn [negb].
  2:{ right. pose proof (byte_first w 0 Hw ltac:(lia)) as B. rewrite E0 in B. rewrite Z.add_0_r in B. apply B; [done|lia]. }
  assert (L0 : forall j, 0 <= j < 8 -> Z.testbit w j = false) by (intros j Hj; apply (byte_zero w 0); [done|by rewrite E0|lia]).
  destruct ((w .>> 8) .& 0xff =? 0) eqn:H1; cbn [negb]; [|right; by apply byte_first].
  pose proof (byte_zero w 8 ltac:(lia) H1) as L1.
  assert (L1' : forall j, 0 <= j < 16 -> Z.testbit w j = false)
    by (intros j Hj; destruct (Z.lt_ge_cases j 8); [apply L0|apply L1]; lia).
  destruct ((w .>> 16) .& 0xff =? 0) eqn:H2; cbn [negb]; [|right; by apply byte_first].
  pose proof (byte_zero w 16 ltac:(lia) H2) as L2.
  assert (L2' : forall j, 0 <= j < 24 -> Z.testbit w j = false)
    by (intros j Hj; destruct (Z.lt_ge_cases j 16); [apply L1'|apply L2]; lia).
  destruct ((w .>> 24) .& 0xff =? 0) eqn:H3; cbn [negb]; [|right; by apply byte_first].
  left. split; [done|]. apply Z.bits_inj'. intros j Hj. rewrite Z.bits_0.
  destruct (Z.lt_ge_cases j 24); [apply L2'; lia|]. destruct (Z.lt_ge_cases j 32).
  - apply (byte_zero w 24); [lia|done|lia].
  - by apply (is_uint_testbit 32).
Qed.

Lemma lnot_word_bits x m k :
  0 <= m < 32 -> is_uint 32 x -> 0 <= k < 32 ->
  Z.testbit (u32 (Z.lnot (u32 (x .| Z.ones m)))) k = (m <=? k) && negb (Z.testbit x k).
Proof.
  intros Hm Hx Hk. rewrite wrap_testbit, Z.lnot_spec, wrap_testbit, Z.lor_spec, Z.testbit_ones_nonneg by lia.
  rewrite (proj2 (Z.ltb_lt _ _)) by lia. cbn [andb]. rewrite negb_orb, <-Z.leb_antisym. apply andb_comm.
Qed.

Lemma FirstUnset_loop_spec fuel i m b :
  bitmap_valid b -> 0 <= m < 32 -> 0 <= i -> (Z.to_nat (NumWords (nbits_ b) - i) < fuel)%nat ->
  exists r, FirstUnset_loop fuel i (NumWords (nbits_ b)) (Z.ones m) b = Some r /\ r <= nbits_ b /\
    (forall j, 32 * i + m <= j < r -> bitmap_bit b j = true) /\ (r < nbits_ b -> 32 * i + m <= r /\ bitmap_bit b r = false).
Proof.
  intros Hv. revert i m. induction fuel as [|fuel IH]; intros i m Hm Hi Hf; [lia|]. cbn [FirstUnset_loop].
  pose proof (NumWords_spec _ (v_nbits _ Hv)) as [Hnw _]. pose proof (v_nbits _ Hv) as Hn.
  destruct (Z.ltb_spec i (NumWords (nbits_ b))) as [Hlt|Hge].
  2:{ exists (nbits_ b). split; [done|]. split; [lia|]. split; [|lia]. intros j Hj. lia. }
  destruct (valid_words b Hv ltac:(lia)) as (ws & Hw & Hok & Hlen). rewrite Hw. cbn [mbind option_bind].
  assert (Hl : Z.of_nat (length ws) = NumWords (nbits_ b)).
  { destruct (v_words _ Hv) as (ws' & [Hw'|[Hw' _]] & _ & Hl); [|congruence]. by assert (ws' = ws) as -> by congruence. }
  destruct (read_word_Some 32 ws i Hok ltac:(lia)) as (x & -> & Hx & Hlk). cbn [mbind option_bind].
  assert (Hbit : forall k, 0 <= k < 32 -> bitmap_bit b (32 * i + k) = Z.testbit x k).
  { intros k Hk. unfold bitmap_bit. rewrite Hw. unfold bit_of.
    rewrite (Z.mul_comm 32), Z.div_add_l, (Z.div_small k), Z.add_0_r, Hlk by lia. by rewrite Z.add_comm, Z.mod_add, Z.mod_small by lia. }
  set (v := u32 (Z.lnot (u32 (x .| Z.ones m)))).
  assert (Hvb : forall k, 0 <= k < 32 -> Z.testbit v k = (m <=? k) && negb (bitmap_bit b (32 * i + k))).
  { intros k Hk. rewrite Hbit by done. by apply lnot_word_bits. }
  destruct (FindFirstSet_spec v) as [[-> Hv0]|(Hr & Ht & Hlow)]; [by apply wrap_range| |].
  - cbn [Z.eqb negb]. change 0 with (Z.ones 0) at 1. rewrite (wrap_small 64 (i + 1)) by (unfold is_uint; lia).
    destruct (IH (i + 1) 0) as (r & -> & Hr & Hset & Hun); [lia|lia|lia|]. exists r. split; [done|]. split; [done|].
    rewrite Z.add_0_r in Hset, Hun. split; [|intros Hlt'; destruct (Hun Hlt'); split; [lia|done]].
    intros j Hj. destruct (Z.lt_ge_cases j (32 * (i + 1))); [|apply Hset; lia].
    specialize (Hvb (j - 32 * i) ltac:(lia)). rewrite Hv0, Z.bits_0, (proj2 (Z.leb_le _ _)) in Hvb by lia.
    replace (32 * i + (j - 32 * i)) with j in Hvb by lia. by destruct (bitmap_bit b j).
  - rewrite (proj2 (Z.eqb_neq _ _)) by lia. cbn [negb]. set (f := FindFirstSet v) in *. unfold kBits.
    rewrite (wrap_small 64) by (unfold is_uint; lia). eexists. split; [done|].
    rewrite Hvb in Ht by lia. apply andb_true_iff in Ht as [Hmf%Z.leb_le Ht%negb_true_iff].
    replace (i * 32 + (f - 1)) with (32 * i + (f - 1)) by lia.
    assert (Hset : forall j, 32 * i + m <= j < 32 * i + (f - 1) -> bitmap_bit b j = true).
    { intros j Hj. specialize (Hlow (j - 32 * i) ltac:(lia)). rewrite Hvb, (proj2 (Z.leb_le _ _)) in Hlow by lia.
      replace (32 * i + (j - 32 * i)) with j in Hlow by lia. by destruct (bitmap_bit b j). }
    rewrite Z.gtb_ltb. destruct (Z.ltb_spec (nbits_ b) (32 * i + (f - 1))).
    + split; [lia|]. split; [|lia]. intros j Hj. apply Hset. lia.
    + split; [lia|]. split; [done|]. intros _. split; [lia|done].
Qed.

Lemma ToString_loop_spec b ids :
  (forall i, (i < Z.to_nat (nbits_ b))%nat -> get (Z.of_nat i) b = Some (bitmap_bit b (Z.of_nat i))) ->
  Forall (fun i => (i < Z.to_nat (nbits_ b))%nat) ids ->
   ToString_loop ids b = Some (map (fun i => if bitmap_bit b (Z.of_nat i) then x31 else x30) ids).
Proof.
  intros Hget. induction 1 as [|i ids Hi _ IH]; [done|]. cbn [ToString_loop map]. rewrite Hget by done.
  cbn [mbind option_bind]. by rewrite IH.
Qed.
End bitmap.
Lemma valid_empty : bitmap_valid Bitmap.Bitmap_empty.
Proof. split; [done|]. exists []. split; [by right|]. by split; [constructor|]. Qed.

Lemma valid_update b ws' :
  bitmap_valid b -> words_ok 32 ws' -> Z.of_nat (length ws') = Bitmap.NumWords (Bitmap.nbits_ b) ->
  bitmap_valid {| Bitmap.nbits_ := Bitmap.nbits_ b; Bitmap.word_ := Some ws' |}.
Proof. intros [? _] Hok Hl. split; [done|]. exists ws'. split; [by left|done]. Qed.

(** The three accesses to bit [i]. *)
Lemma bitmap_bit_access b i (Hv : bitmap_valid b) (Hi : 0 <= i < Bitmap.nbits_ b) :
  Bitmap.get i b = Some (bitmap_bit b i) /\
  (exists b', Bitmap.set i b = Some b' /\ bitmap_valid b' /\ Bitmap.nbits_ b' = Bitmap.nbits_ b /\
     forall j, 0 <= j -> bitmap_bit b' j = (j =? i) || bitmap_bit b j) /\
  (exists b', Bitmap.clear i b = Some b' /\ bitmap_valid b' /\ Bitmap.nbits_ b' = Bitmap.nbits_ b /\
     forall j, 0 <= j -> bitmap_bit b' j = negb (j =? i) && bitmap_bit b j).
Proof.
  destruct (valid_words b Hv ltac:(lia)) as (ws & Hw & Hok & Hlen).
  assert (Hl : Z.of_nat (length ws) = Bitmap.NumWords (Bitmap.nbits_ b)).
  { destruct (v_words _ Hv) as (ws' & [Hw'|[Hw' _]] & _ & Hl); [|congruence]. by assert (ws' = ws) as -> by congruence. }
  pose proof (Z.mod_pos_bound i 32 ltac:(lia)) as Hm.
  assert (Hmask : Bitmap.Mask (i mod Bitmap.kBits) = 2 ^ (i mod 32)) by (by apply Mask_pow).
  unfold Bitmap.get, Bitmap.set, Bitmap.clear, bitmap_bit. rewrite Hw, Hmask. change Bitmap.kBits with 32.
  cbn [mbind option_bind]. split; [|split].
  - destruct (read_bit 32 ltac:(lia) ws i (2 ^ (i mod 32)) Hok ltac:(lia) eq_refl) as (x & -> & Hx). cbn [mbind option_bind].
    rewrite Hx. assert (0 < 2 ^ (i mod 32)) by (apply Z.pow_pos_nonneg; lia).
    destruct (bit_of 32 ws i); [|done]. by rewrite (proj2 (Z.eqb_neq _ _)) by lia.
  - destruct (update_set 32 ltac:(lia) ws i (2 ^ (i mod 32)) Hok ltac:(lia) eq_refl) as (ws' & -> & Hok' & Hl' & Hb).
    cbn [mbind option_bind]. eexists. split; [done|]. split; [apply valid_update; [done|done|by rewrite Hl']|]. split; [done|exact Hb].
  - destruct (update_clear 32 ltac:(lia) ws i _ Hok ltac:(lia) eq_refl) as (ws' & -> & Hok' & Hl' & Hb).
    cbn [mbind option_bind]. eexists. split; [done|]. split; [apply valid_update; [done|done|by rewrite Hl']|]. split; [done|exact Hb].
Qed.

(** (invariant).  The representation invariant of [Bitmap] (as many 32-bit
    words as its length needs) holds after construction and is kept by every
    operation, and the operations act on the bits as their names say: whatever the
    uninitialised memory held, [Reset] clears every bit; [set] and [clear] change one;
    [get] reads one; [FirstUnset] returns the first clear bit from [start] on, the
    length if there is none; [ToString] prints the bits in order. *)
Theorem bitmap_operations (junk : nat -> Z) (Hj : forall i, is_uint 32 (junk i)) (b : Bitmap.Bitmap) (Hv : bitmap_valid b) :
  (exists b0, Bitmap.Bitmap_new junk (Bitmap.nbits_ b) = Some b0 /\ bitmap_valid b0) /\
  (forall n, 0 <= n <= 2 ^ 64 - 32 -> exists b', Bitmap.Reset junk n b = Some b' /\ bitmap_valid b' /\
     Bitmap.bits b' = n /\ forall i, 0 <= i < n -> Bitmap.get i b' = Some false) /\
  (forall i, 0 <= i < Bitmap.bits b ->
     (exists b', Bitmap.set i b = Some b' /\ bitmap_valid b' /\
        forall j, 0 <= j < Bitmap.bits b -> Bitmap.get j b' = if j =? i then Some true else Bitmap.get j b) /\
     (exists b', Bitmap.clear i b = Some b' /\ bitmap_valid b' /\
        forall j, 0 <= j < Bitmap.bits b -> Bitmap.get j b' = if j =? i then Some false else Bitmap.get j b)) /\
  (forall start, 0 <= start < Bitmap.bits b -> exists r, Bitmap.FirstUnset start b = Some r /\
     start <= r <= Bitmap.bits b /\ (forall j, start <= j < r -> Bitmap.get j b = Some true) /\
     (r < Bitmap.bits b -> Bitmap.get r b = Some false)) /\
  (forall start, Bitmap.bits b <= start -> Bitmap.FirstUnset start b = Some (Bitmap.bits b)) /\
  Bitmap.ToString b = Some (map (fun i => if bitmap_bit b (Z.of_nat i) then x31 else x30) (seq 0 (Z.to_nat (Bitmap.bits b)))).
Proof.
  pose proof (v_nbits _ Hv) as Hn. unfold Bitmap.bits.
  assert (Hget : forall i, 0 <= i < Bitmap.nbits_ b -> Bitmap.get i b = Some (bitmap_bit b i))
    by (intros; by apply bitmap_bit_access).
  split_and!.
  - destruct (Reset_spec junk (Bitmap.nbits_ b) _ valid_empty Hn Hj) as (b0 & E & Hv0 & _). by exists b0.
  - intros n Hr. destruct (Reset_spec junk n b Hv Hr Hj) as (b' & E & Hv' & Hn' & Hz).
    exists b'. split; [done|]. split; [done|]. split; [done|]. intros i Hi.
    destruct (bitmap_bit_access b' i Hv' ltac:(lia)) as [-> _]. by rewrite Hz by lia.
  - intros i Hi. destruct (bitmap_bit_access b i Hv Hi) as (_ & (b1 & E1 & Hv1 & Hn1 & Hb1) & (b2 & E2 & Hv2 & Hn2 & Hb2)).
    split; [exists b1|exists b2]; (split; [done|]; split; [done|]); intros j Hlt; rewrite Hget by done.
    + destruct (bitmap_bit_access b1 j Hv1 ltac:(lia)) as [-> _]. rewrite Hb1 by lia. by destruct (j =? i).
    + destruct (bitmap_bit_access b2 j Hv2 ltac:(lia)) as [-> _]. rewrite Hb2 by lia. by destruct (j =? i).
  - intros start Hs. unfold Bitmap.FirstUnset. rewrite Z.geb_leb, (proj2 (Z.leb_gt _ _)) by lia.
    change Bitmap.kBits with 32. pose proof (Z.mod_pos_bound start 32 ltac:(lia)) as Hm. rewrite low_mask by lia.
    pose proof (Z.div_mod start 32 ltac:(lia)) as Hdm. pose proof (Z.div_pos start 32 ltac:(lia) ltac:(lia)) as Hd.
    destruct (FirstUnset_loop_spec (S (Z.to_nat (Bitmap.NumWords (Bitmap.nbits_ b)))) (start / 32) (start mod 32) b Hv Hm Hd)
      as (r & E & Hr & Hset & Hun); [lia|]. rewrite <-Hdm in Hset, Hun. exists r. split; [done|].
    assert (Hsr : start <= r) by (destruct (Z.lt_ge_cases r (Bitmap.nbits_ b)); [apply Hun; done|lia]).
    split; [lia|]. split.
    + intros j Hlt. rewrite Hget by lia. by rewrite Hset.
    + intros Hlt. rewrite Hget by lia. destruct (Hun Hlt) as [_ ->]. done.
  - intros start Hs. unfold Bitmap.FirstUnset. by rewrite Z.geb_leb, (proj2 (Z.leb_le _ _)) by lia.
  - unfold Bitmap.ToString. apply ToString_loop_spec.
    + intros i Hi. apply Hget. lia.
    + apply Forall_forall. intros i Hi%in_seq. lia.
Qed.

(** ** Witnesses *)

Lemma bit_array_operations_witness :
  exists a, BitArray.bit_array_set [5; 0] 65 = Some a /\ bit_of 64 a 65 = true.
Proof.
  assert (Hok : words_ok 64 [5; 0]) by (repeat constructor; by vm_compute).
  destruct (bit_array_operations [5; 0] 65 Hok ltac:(by vm_compute)) as [H _].
  destruct (H ltac:(by vm_compute)) as ((a & E & _ & _ & Hb) & _). exists a. split; [exact E|]. by rewrite Hb.
Defined.

Lemma bit_array_first1_search_witness :
  exists r, BitArray.bit_array_first1 [1; 16] 1 100 = Some r /\ is_first (bit_of 64 [1; 16]) 1 100 r.
Proof.
  assert (Hok : words_ok 64 [1; 16]) by (repeat constructor; by vm_compute).
  exact (bit_array_first1_search [1; 16] 1 100 Hok ltac:(by vm_compute) ltac:(lia) ltac:(by vm_compute)).
Defined.

Lemma dynamic_bitset_operations_witness :
  DynamicBitset.test 2 (DynamicBitset.set 2 true [false; false; false]) = true.
Proof. apply (dynamic_bitset_operations [false; false; false] 2 2 3 true); lia. Defined.

Lemma bitset_operations_witness :
  exists b', BitSet.set 3 (BitSet.BitSet_new [x00; x00] 16 0) = Some b' /\ slot_bit (BitSet.data_ b') 3 = true.
Proof.
  destruct (bitset_operations (BitSet.BitSet_new [x00; x00] 16 0) 3 ltac:(cbn; lia)) as (_ & (b' & E & _ & _ & _ & Hb) & _).
  exists b'. split; [exact E|]. by rewrite Hb.
Defined.

Lemma bitset_reset_size_witness : BitSet.reset (BitSet.BitSet_new [xff; xff] 16 0) = None.
Proof. apply (bitset_reset_size (BitSet.BitSet_new [xff; xff] 16 0)); by vm_compute. Defined.

Lemma bitmap_operations_witness :
  exists b, Bitmap.Reset (fun _ => 7) 40 Bitmap.Bitmap_empty = Some b /\ Bitmap.bits b = 40.
Proof.
  destruct (bitmap_operations (fun _ => 7) ltac:(by vm_compute) Bitmap.Bitmap_empty valid_empty) as (_ & H & _).
  destruct (H 40 ltac:(lia)) as (b & E & _ & Hb & _). by exists b.
Defined.
