(* ===== verification/StaticBitMap.v ===== *)
(** * StaticBitMap: the concurrent bit map of [src/util/bitmap.h]

    [StaticBitMap]: its bits are set and cleared by compare-and-exchange loops that
    any number of threads may run at once.  A thread's load and its
    compare-and-exchange are the atomic steps of an interleaving semantics. *)

From S2P Require Import Prelude BitSets.
#[local] Open Scope Z_scope.

(** ** The code *)

Record StaticBitMap := { size_ : Z; used_size_ : Z; bitmap_ : bytes }.

(** [None]: a negative length or a signed overflow. *)
Definition StaticBitMap_new (size : Z) : option StaticBitMap :=
  n ← int32 (size + 0x07);
  let used_size := (n .>> 3) .<< 3 in
  if used_size <? 0 then None
  else Some {| size_ := size; used_size_ := used_size; bitmap_ := replicate (Z.to_nat used_size) x00 |}.

Definition byte_at (bm : bytes) (idx : Z) : option byte := if idx <? 0 then None else bm !! Z.to_nat idx.

Definition test (index : Z) (m : StaticBitMap) : option bool :=
  b ← byte_at (bitmap_ m) (index .>> 3); Some (negb (uchar b .& (1 .<< (index .& 0x07)) =? 0)).

Definition size (m : StaticBitMap) : Z := size_ m.
Definition clone (m : StaticBitMap) : option StaticBitMap :=
  if used_size_ m <=? Z.of_nat (length (bitmap_ m)) then
    Some {| size_ := size_ m; used_size_ := used_size_ m; bitmap_ := take (Z.to_nat (used_size_ m)) (bitmap_ m) |}
  else None.

(** The two operations that write: [on(index)] and [off(index)]. *)
Inductive operation := On (index : Z) | Off (index : Z).
Definition target (o : operation) : Z := match o with On i | Off i => i end.
(** The value [c] computed from the value [b] read. *)
Definition new_value (o : operation) (b : byte) : byte :=
  match o with
  | On index => to_byte (uchar b .| (1 .<< (index .& 0x07)))
  | Off index => to_byte (uchar b .& (Z.lnot (1 .<< (index .& 0x07)) .& 0xff))
  end.

(** [atomic_compare_exchange(pv, nv, cv)]: the value found, and the array. *)
Definition atomic_compare_exchange (bm : bytes) (idx : Z) (nv cv : byte) : option (byte * bytes) :=
  b ← byte_at bm idx;
  Some (b, if bool_decide (b = cv) then <[Z.to_nat idx := nv]> bm else bm).

(** A thread in the loop: about to load, about to exchange what it loaded, done. *)
Inductive pc := Loading | Exchanging (b : byte) | Finished.
Definition thread : Type := operation * pc.

Definition thread_step (bm : bytes) (t : thread) : option (bytes * thread) :=
  let '(o, p) := t in
  let idx := target o .>> 3 in
  match p with
  | Loading => b ← byte_at bm idx; Some (bm, (o, Exchanging b))
  | Exchanging b =>
      '(found, bm) ← atomic_compare_exchange bm idx (new_value o b) b;
      Some (bm, (o, if bool_decide (b = found) then Finished else Loading))
  | Finished => None
  end.

(** The loop run by one thread alone. *)
Fixpoint run_alone (fuel : nat) (bm : bytes) (t : thread) : option bytes :=
  match snd t, fuel with
  | Finished, _ => Some bm
  | _, O => None
  | _, S fuel => '(bm, t) ← thread_step bm t; run_alone fuel bm t
  end.
Definition on (index : Z) (m : StaticBitMap) : option StaticBitMap :=
  bm ← run_alone 2 (bitmap_ m) (On index, Loading);
  Some {| size_ := size_ m; used_size_ := used_size_ m; bitmap_ := bm |}.
Definition off (index : Z) (m : StaticBitMap) : option StaticBitMap :=
  bm ← run_alone 2 (bitmap_ m) (Off index, Loading);
  Some {| size_ := size_ m; used_size_ := used_size_ m; bitmap_ := bm |}.

(** Any thread may take the next step. *)
Definition config : Type := bytes * list thread.
Inductive step : config -> config -> Prop :=
  | step_thread bm ts i t bm' t' :
      ts !! i = Some t -> thread_step bm t = Some (bm', t') -> step (bm, ts) (bm', <[i := t']> ts).

(** Runs of [n] steps, with the operations that took effect, in order. *)
Inductive run : nat -> list operation -> config -> config -> Prop :=
  | run_refl c : run 0 [] c c
  | run_step n os c bm ts i t bm' t' :
      run n os c (bm, ts) -> ts !! i = Some t -> thread_step bm t = Some (bm', t') ->
      run (S n) (if snd t' is Finished then os ++ [fst t] else os) c (bm', <[i := t']> ts).

Definition start (os : list operation) : list thread := map (fun o => (o, Loading)) os.
Definition finished (t : thread) : bool := match snd t with Finished => true | _ => false end.
(** The specification: the effect of an operation is one atomic change. *)
Definition apply_op (bm : bytes) (o : operation) : bytes :=
  match byte_at bm (target o .>> 3) with
  | Some b => <[Z.to_nat (target o .>> 3) := new_value o b]> bm
  | None => bm
  end.
Definition in_range (bm : bytes) (o : operation) : Prop := 0 <= target o < 8 * Z.of_nat (length bm).
(** ** Bytes and bits *)

Definition bm_bit (bm : bytes) (p : Z) : bool :=
  match byte_at bm (p .>> 3) with Some b => Z.testbit (uchar b) (p .& 7) | None => false end.

Lemma shiftr3 p : p .>> 3 = p / 8.
Proof. by rewrite Z.shiftr_div_pow2. Qed.
Lemma land7 p : p .& 7 = p mod 8.
Proof. change 7 with (Z.ones 3). by rewrite Z.land_ones. Qed.
Lemma mod8 p : 0 <= p mod 8 < 8.
Proof. by apply Z.mod_pos_bound. Qed.

Lemma byte_at_Some bm o : in_range bm o -> exists b, byte_at bm (target o .>> 3) = Some b /\ bm !! Z.to_nat (target o .>> 3) = Some b.
Proof.
  intros [H0 H1]. rewrite shiftr3. unfold byte_at. pose proof (Z.div_pos (target o) 8 H0 ltac:(lia)).
  assert (target o / 8 < Z.of_nat (length bm)) by (apply Z.div_lt_upper_bound; lia).
  rewrite (proj2 (Z.ltb_ge _ _)) by lia. destruct (lookup_lt_is_Some_2 bm (Z.to_nat (target o / 8))) as [b Hb]; [lia|].
  by exists b.
Qed.

Definition set_or_clear (o : operation) : bool := match o with On _ => true | Off _ => false end.

Lemma new_value_bits o b k : 0 <= k < 8 ->
  Z.testbit (uchar (new_value o b)) k = if k =? target o .& 7 then set_or_clear o else Z.testbit (uchar b) k.
Proof.
  intros Hk. assert (Hall : forall b i k, 0 <= i < 8 -> 0 <= k < 8 ->
    (eqb (Z.testbit (uchar (to_byte (uchar b .| (1 .<< i)))) k) (if k =? i then true else Z.testbit (uchar b) k) &&
     eqb (Z.testbit (uchar (to_byte (uchar b .& (Z.lnot (1 .<< i) .& 0xff)))) k) (if k =? i then false else Z.testbit (uchar b) k)) = true).
  { intros b' i k' Hi. revert k'. apply bits8_complete. revert i Hi. apply bits8_complete. revert b'.
    apply all_bytes_complete. by vm_compute. }
  pose proof (mod8 (target o)) as Hm. rewrite <-land7 in Hm. specialize (Hall b (target o .& 7) k Hm Hk).
  apply andb_true_iff in Hall as [H1%eqb_prop H2%eqb_prop]. destruct o; cbn [new_value target set_or_clear] in *; done.
Qed.

Lemma byte_at_apply_other bm o idx : idx <> target o .>> 3 -> 0 <= idx -> byte_at (apply_op bm o) idx = byte_at bm idx.
Proof.
  intros Hne H0. unfold apply_op. destruct (byte_at bm (target o .>> 3)) as [b|] eqn:E; [|done]. unfold byte_at in *.
  destruct (Z.ltb_spec (target o .>> 3) 0); [done|]. rewrite (proj2 (Z.ltb_ge idx 0)) by lia.
  rewrite list_lookup_insert_ne by lia. done.
Qed.
Lemma length_apply_op bm o : length (apply_op bm o) = length bm.
Proof. unfold apply_op. destruct (byte_at _ _); [apply length_insert|done]. Qed.

(** The atomic effect, bit by bit. *)
Lemma bm_bit_apply bm o p :
  in_range bm o -> 0 <= p -> bm_bit (apply_op bm o) p = if p =? target o then set_or_clear o else bm_bit bm p.
Proof.
  intros Hr Hp. destruct (byte_at_Some bm o Hr) as (b & Hb & Hl). unfold bm_bit.
  assert (Heq : (p =? target o) = (p .>> 3 =? target o .>> 3) && (p .& 7 =? target o .& 7)).
  { rewrite !shiftr3, !land7. apply div_mod_eq; [lia|lia|by destruct Hr]. }
  rewrite Heq. destruct (Z.eqb_spec (p .>> 3) (target o .>> 3)) as [E|E]; cbn [andb].
  - unfold apply_op. rewrite Hb, E. unfold byte_at. destruct (Z.ltb_spec (target o .>> 3) 0) as [?|?].
    { unfold byte_at in Hb. rewrite (proj2 (Z.ltb_lt _ _)) in Hb by done. done. }
    rewrite list_lookup_insert_eq, Hl by (by eapply lookup_lt_Some). apply new_value_bits. rewrite land7. apply mod8.
  - rewrite byte_at_apply_other; [done|done|]. rewrite shiftr3. apply Z.div_pos; lia.
Qed.

(** ** Threads *)

Lemma insert_split {A} (l : list A) i x y :
  l !! i = Some x -> exists l1 l2, l = l1 ++ x :: l2 /\ <[i := y]> l = l1 ++ y :: l2 /\ length l1 = i.
Proof.
  intros H. exists (take i l), (drop (S i) l). pose proof (lookup_lt_Some _ _ _ H). split; [by rewrite take_drop_middle|].
  split; [by apply insert_take_drop|]. apply firstn_length_le. lia.
Qed.

(** What a step of one thread is: a load, a successful exchange, a failed one. *)
Lemma thread_step_cases bm o p bm' t' :
  thread_step bm (o, p) = Some (bm', t') ->
  (exists b, p = Loading /\ byte_at bm (target o .>> 3) = Some b /\ bm' = bm /\ t' = (o, Exchanging b)) \/
  (exists b, p = Exchanging b /\ byte_at bm (target o .>> 3) = Some b /\ bm' = apply_op bm o /\ t' = (o, Finished)) \/
  (exists b b', p = Exchanging b /\ byte_at bm (target o .>> 3) = Some b' /\ b' <> b /\ bm' = bm /\ t' = (o, Loading)).
Proof.
  destruct p as [|b|]; cbn [thread_step]; [| |done].
  - destruct (byte_at bm (target o .>> 3)) as [b|]; [|done]. intros [= <- <-]. left. by exists b.
  - unfold atomic_compare_exchange. destruct (byte_at bm (target o .>> 3)) as [b'|] eqn:E; [|done].
    cbn [mbind option_bind]. destruct (decide (b' = b)) as [->|Hne].
    + rewrite bool_decide_eq_true_2 by done. intros [= <- <-]. right; left. exists b. unfold apply_op. by rewrite E.
    + rewrite bool_decide_eq_false_2 by done. rewrite bool_decide_eq_false_2 by congruence. intros [= <- <-].
      right; right. by exists b, b'.
Qed.

Lemma run_invariant n lin bm0 os bm ts :
  run n lin (bm0, start os) (bm, ts) ->
  bm = fold_left apply_op lin bm0 /\ length bm = length bm0 /\ map fst ts = os /\
  lin ≡ₚ map fst (filter (fun t => finished t = true) ts).
Proof.
  intros H. remember (bm0, start os) as c0 eqn:E0. remember (bm, ts) as c eqn:Ec. revert bm ts E0 Ec.
  induction H as [c|n lin c bm1 ts1 i [o p] bm' t' _ IH Hi Hs]; intros bm ts E0 Ec.
  { subst c. injection Ec as <- <-. split; [done|]. split; [done|]. unfold start. split.
    - rewrite map_map. cbn. by rewrite map_id.
    - clear. induction os as [|o os IH]; [done|]. cbn [map]. rewrite filter_cons_False by done. exact IH. }
  injection Ec as <- <-. destruct (IH bm1 ts1 E0 eq_refl) as (Hbm & Hl & Hos & Hp).
  destruct (insert_split ts1 i (o, p) t' Hi) as (l1 & l2 & -> & -> & _).
  rewrite map_app in Hos |- *. rewrite list.filter_app, map_app in Hp |- *. cbn [map fst] in Hos |- *.
  destruct (thread_step_cases _ _ _ _ _ Hs) as [(b & -> & Hb & -> & ->)|[(b & -> & Hb & -> & ->)|(b & b' & -> & Hb & _ & -> & ->)]];
    cbn [snd fst] in *.
  - rewrite filter_cons_False in Hp by done. rewrite filter_cons_False by done. done.
  - rewrite filter_cons_False in Hp by done. rewrite filter_cons_True by done. cbn [map fst]. rewrite fold_left_app, <-Hbm.
    split; [done|]. split; [by rewrite length_apply_op|]. split; [done|].
    rewrite Hp, <-app_assoc. apply Permutation_app_head. symmetry. apply Permutation_cons_append.
  - rewrite filter_cons_False in Hp by done. rewrite filter_cons_False by done. done.
Qed.

(** ** Termination *)

(** The steps a thread may still take before somebody else finishes. *)
Definition cost (bm : bytes) (t : thread) : nat :=
  match snd t with
  | Finished => 0
  | Loading => 2
  | Exchanging b => if bool_decide (byte_at bm (target (fst t) .>> 3) = Some b) then 1 else 3
  end.
Definition costs (bm : bytes) (ts : list thread) : nat := foldr (fun t n => cost bm t + n)%nat 0%nat ts.
Definition running (ts : list thread) : nat := length (filter (fun t => finished t = false) ts).

Lemma costs_app bm l1 l2 : costs bm (l1 ++ l2) = (costs bm l1 + costs bm l2)%nat.
Proof. unfold costs. induction l1 as [|t l1 IH]; cbn; [done|]. rewrite IH. lia. Qed.
Lemma costs_cons bm t l : costs bm (t :: l) = (cost bm t + costs bm l)%nat.
Proof. done. Qed.
Lemma running_app l1 l2 : running (l1 ++ l2) = (running l1 + running l2)%nat.
Proof. unfold running. by rewrite list.filter_app, length_app. Qed.
Lemma running_cons t l : running (t :: l) = ((if finished t then 0 else 1) + running l)%nat.
Proof.
  unfold running. destruct (finished t) eqn:E; [rewrite filter_cons_False|rewrite filter_cons_True]; by rewrite ?E.
Qed.
(** Whatever happens to the array, each running thread loses at most an attempt. *)
Lemma costs_other bm bm' ts : (costs bm' ts <= costs bm ts + 2 * running ts)%nat.
Proof.
  induction ts as [|[o p] ts IH]; [done|]. rewrite running_cons, !costs_cons.
  unfold cost, finished. cbn [snd fst]. destruct p; [lia| |lia]. repeat case_bool_decide; lia.
Qed.

Definition measure (bm : bytes) (ts : list thread) : nat := (costs bm ts + running ts * running ts)%nat.

Lemma measure_step bm ts i o p bm' t' :
  ts !! i = Some (o, p) -> thread_step bm (o, p) = Some (bm', t') ->
  (measure bm' (<[i := t']> ts) < measure bm ts)%nat.
Proof.
  intros Hi Hs. destruct (insert_split ts i (o, p) t' Hi) as (l1 & l2 & -> & -> & _).
  unfold measure. rewrite !costs_app, !running_app, !running_cons, !costs_cons.
  destruct (thread_step_cases _ _ _ _ _ Hs) as [(b & -> & Hb & -> & ->)|[(b & -> & Hb & -> & ->)|(b & b' & -> & Hb & Hne & -> & ->)]];
    unfold finished, cost; cbn [snd fst].
  - rewrite bool_decide_eq_true_2 by done. lia.
  - rewrite bool_decide_eq_true_2 by done.
    pose proof (costs_other bm (apply_op bm o) l1). pose proof (costs_other bm (apply_op bm o) l2). 
    nia.
  - rewrite bool_decide_eq_false_2 by congruence. lia.
Qed.

Lemma run_bound n lin c0 bm ts :
  run n lin c0 (bm, ts) -> (n + measure bm ts <= measure (fst c0) (snd c0))%nat.
Proof.
  intros H. remember (bm, ts) as c eqn:Ec. revert bm ts Ec.
  induction H as [c|n lin c bm1 ts1 i [o p] bm' t' _ IH Hi Hs]; intros bm ts Ec; [by subst|].
  injection Ec as <- <-. specialize (IH bm1 ts1 eq_refl). pose proof (measure_step _ _ _ _ _ _ _ Hi Hs). lia.
Qed.

Lemma measure_start bm os : measure bm (start os) = (length os * (length os + 2))%nat.
Proof.
  assert (costs bm (start os) = 2 * length os /\ running (start os) = length os)%nat as [E1 E2].
  { unfold start. induction os as [|o os [IH1 IH2]]; [done|]. cbn [map]. rewrite running_cons, costs_cons. cbn [length]. unfold cost, finished. cbn [snd]. rewrite IH1, IH2. lia. }
  unfold measure. rewrite E1, E2. lia.
Qed.

Lemma unfinished_steps bm ts i o p :
  ts !! i = Some (o, p) -> p <> Finished -> in_range bm o -> exists c, step (bm, ts) c.
Proof.
  intros Hi Hp Hr. destruct (byte_at_Some bm o Hr) as (b & Hb & _).
  destruct (thread_step bm (o, p)) as [[bm' t']|] eqn:E; [eexists; by eapply step_thread|].
  destruct p as [|b'|]; [| |done]; cbn [thread_step] in E; unfold atomic_compare_exchange in E; by rewrite Hb in E.
Qed.

(** The array after the operations [lin], at position [p]: the last of them on
    [p] decides. *)
Definition last_write (lin : list operation) (p : Z) (init : bool) : bool :=
  fold_left (fun x o => if p =? target o then set_or_clear o else x) lin init.
Lemma bm_bit_fold bm lin p :
  Forall (in_range bm) lin -> 0 <= p -> bm_bit (fold_left apply_op lin bm) p = last_write lin p (bm_bit bm p).
Proof.
  unfold last_write. intros Hf Hp. revert bm Hf. induction lin as [|o lin IH]; intros bm Hf; [done|].
  inversion Hf as [|? ? Ho Hf']; subst. cbn [fold_left]. rewrite IH.
  - by rewrite bm_bit_apply.
  - revert Hf'. apply Forall_impl. intros o' Ho'. unfold in_range in *. by rewrite length_apply_op.
Qed.
Lemma last_write_none lin p x : (forall o, o ∈ lin -> target o <> p) -> last_write lin p x = x.
Proof.
  unfold last_write. revert x. induction lin as [|o lin IH]; intros x Hn; [done|]. cbn [fold_left].
  rewrite IH by (intros; apply Hn; by right). rewrite (proj2 (Z.eqb_neq _ _)); [done|]. intros E. apply (Hn o); [by left|done].
Qed.
Lemma last_write_all lin p x v :
  (forall o, o ∈ lin -> target o = p -> set_or_clear o = v) -> (exists o, o ∈ lin /\ target o = p) -> last_write lin p x = v.
Proof.
  induction lin as [|o lin IH] using rev_ind; intros Hv (o' & Ho' & Hp); [by apply not_elem_of_nil in Ho'|].
  unfold last_write. rewrite fold_left_app. cbn [fold_left]. fold (last_write lin p x).
  destruct (Z.eqb_spec p (target o)) as [E|Hne].
  - apply Hv; [|done]. apply elem_of_app. right. by apply list_elem_of_singleton.
  - apply IH.
    + intros o2 H2. apply Hv. apply elem_of_app. by left.
    + exists o'. split; [|done]. apply elem_of_app in Ho' as [?|Ho']; [done|]. apply list_elem_of_singleton in Ho'. congruence.
Qed.
(** ** Properties *)

(** C27. (safety).  Whatever the interleaving of threads that set and clear bits, the
    array is at every moment the result of applying, one at a time, the operations
    that have finished: no update is lost.  When all have finished, a bit some thread
    set and none cleared is set, one only cleared is clear, and every other bit is as
    it was at the start. *)
Theorem static_bitmap_linearizable n lin bm0 os bm ts
  (Hin : Forall (in_range bm0) os) (Hrun : run n lin (bm0, start os) (bm, ts)) :
  bm = fold_left apply_op lin bm0 /\ map fst ts = os /\
  lin ≡ₚ map fst (filter (fun t => finished t = true) ts) /\
  (forallb finished ts = true -> forall p, 0 <= p ->
     ((forall o, o ∈ os -> target o <> p) -> bm_bit bm p = bm_bit bm0 p) /\
     (On p ∈ os -> Off p ∉ os -> bm_bit bm p = true) /\
     (Off p ∈ os -> On p ∉ os -> bm_bit bm p = false)).
Proof.
  destruct (run_invariant _ _ _ _ _ _ Hrun) as (Hbm & Hl & Hos & Hp). split; [done|]. split; [done|]. split; [done|].
  intros Hfin p Hp0.
  assert (Hlin : lin ≡ₚ os).
  { rewrite Hp, <-Hos. f_equiv. rewrite forallb_forall in Hfin. clear -Hfin.
    induction ts as [|t ts IH]; [done|]. rewrite filter_cons_True by (apply Hfin; by left). f_equiv. apply IH.
    intros t' Ht'. apply Hfin. by right. }
  assert (Hbit : bm_bit bm p = last_write lin p (bm_bit bm0 p)).
  { rewrite Hbm. apply bm_bit_fold; [|done]. by rewrite Hlin. }
  rewrite Hbit. split; [|split].
  - intros Hn. apply last_write_none. intros o Ho. apply Hn. by rewrite <-Hlin.
  - intros Hon Hoff. apply last_write_all.
    + intros [i|i] Ho E; cbn in E; subst i; [done|]. rewrite Hlin in Ho. by destruct Hoff.
    + exists (On p). by rewrite Hlin.
  - intros Hoff Hon. apply last_write_all.
    + intros [i|i] Ho E; cbn in E; subst i; [|done]. rewrite Hlin in Ho. by destruct Hon.
    + exists (Off p). by rewrite Hlin.
Qed.

(** (liveness).  The retry loops cannot run for ever: [k] threads take at most
    [k * (k + 2)] steps in all, however they are scheduled, and as long as one has not
    finished some step is possible; so every schedule ends with all the operations
    done. *)
Theorem static_bitmap_lock_free n lin bm0 os bm ts
  (Hin : Forall (in_range bm0) os) (Hrun : run n lin (bm0, start os) (bm, ts)) :
  (n <= length os * (length os + 2))%nat /\
  (forallb finished ts = false -> exists c, step (bm, ts) c).
Proof.
  split.
  - pose proof (run_bound _ _ _ _ _ Hrun) as H. cbn [fst snd] in H. rewrite measure_start in H. lia.
  - intros Hf. destruct (run_invariant _ _ _ _ _ _ Hrun) as (_ & Hl & Hos & _).
    assert (exists i o p, ts !! i = Some (o, p) /\ p <> Finished) as (i & o & p & Hi & Hp).
    { clear -Hf. induction ts as [|[o p] ts IH]; [done|]. destruct p as [|b|].
      - by exists 0%nat, o, Loading.
      - by exists 0%nat, o, (Exchanging b).
      - destruct (IH Hf) as (i & o' & p' & ? & ?). by exists (S i), o', p'. }
    eapply unfinished_steps; [exact Hi|done|]. unfold in_range. rewrite Hl.
    apply (proj1 (Forall_lookup _ _) Hin i). rewrite <-Hos. apply list_lookup_fmap_Some. by exists (o, p).
Qed.

(** (functional).  With one thread: a new map of [size] bits has all of them
    clear, [on] and [off] change the bit they name only, [test] reads it, and [clone]
    is equal to the original. *)
Theorem static_bitmap_operations (n i : Z) (m : StaticBitMap)
  (Hn : 0 <= n < 2 ^ 31 - 7) (Hm : length (bitmap_ m) = Z.to_nat (used_size_ m)) (Hu : 0 <= used_size_ m)
  (Hi : 0 <= i < 8 * used_size_ m) :
  (exists m0, StaticBitMap_new n = Some m0 /\ size m0 = n /\ n <= used_size_ m0 /\
     forall p, 0 <= p < n -> test p m0 = Some false) /\
  (exists m', on i m = Some m' /\ size m' = size m /\
     forall p, 0 <= p < 8 * used_size_ m -> test p m' = if p =? i then Some true else test p m) /\
  (exists m', off i m = Some m' /\ size m' = size m /\
     forall p, 0 <= p < 8 * used_size_ m -> test p m' = if p =? i then Some false else test p m) /\
  clone m = Some m.
Proof.
  assert (Htest : forall p m, 0 <= p < 8 * Z.of_nat (length (bitmap_ m)) -> test p m = Some (bm_bit (bitmap_ m) p)).
  { intros p m' Hp. unfold test, bm_bit. destruct (byte_at_Some (bitmap_ m') (On p) Hp) as (b & Hb & _). cbn [target] in Hb.
    rewrite Hb. cbn [mbind option_bind]. f_equal. rewrite Z.shiftl_1_l, land7. pose proof (mod8 p) as Hk.
    assert (E : uchar b .& 2 ^ (p mod 8) = if Z.testbit (uchar b) (p mod 8) then 2 ^ (p mod 8) else 0).
    { apply Z.bits_inj'. intros k Hk0. rewrite Z.land_spec, Z.pow2_bits_eqb by lia.
      destruct (Z.testbit (uchar b) (p mod 8)) eqn:Eb; rewrite ?Z.pow2_bits_eqb, ?Z.bits_0 by lia;
        destruct (Z.eqb_spec (p mod 8) k) as [<-|]; by rewrite ?Eb, ?andb_false_r. }
    rewrite E. assert (0 < 2 ^ (p mod 8)) by (apply Z.pow_pos_nonneg; lia).
    destruct (Z.testbit _ _); [|done]. by rewrite (proj2 (Z.eqb_neq _ _)) by lia. }
  assert (Halone : forall o bm, in_range bm o -> run_alone 2 bm (o, Loading) = Some (apply_op bm o)).
  { intros o bm Ho. destruct (byte_at_Some bm o Ho) as (b & Hb & _). cbn [run_alone snd]. unfold thread_step, atomic_compare_exchange.
    rewrite Hb. cbn [mbind option_bind run_alone snd]. rewrite Hb. cbn [mbind option_bind]. rewrite !bool_decide_eq_true_2 by done.
    cbn [run_alone snd]. unfold apply_op. by rewrite Hb. }
  split; [|split; [|split]].
  - unfold StaticBitMap_new. rewrite int32_small by lia. cbn [mbind option_bind].
    rewrite shiftr3, Z.shiftl_mul_pow2 by done. change (2 ^ 3) with 8. change 0x07 with 7.
    pose proof (Z.div_mod (n + 7) 8 ltac:(lia)). pose proof (mod8 (n + 7)).
    rewrite (proj2 (Z.ltb_ge _ _)) by lia. eexists. split; [done|]. cbn [size size_ used_size_]. split; [done|].
    split; [lia|]. intros p Hp. rewrite Htest by (cbn [bitmap_]; rewrite length_replicate; lia). cbn [bitmap_]. f_equal.
    unfold bm_bit, byte_at. rewrite shiftr3. pose proof (Z.div_pos p 8 ltac:(lia) ltac:(lia)).
    rewrite (proj2 (Z.ltb_ge _ _)) by lia. assert (p / 8 < n) by (apply Z.div_lt_upper_bound; lia).
    rewrite lookup_replicate_2 by lia. apply Z.bits_0.
  - unfold on. rewrite Halone by (unfold in_range; cbn [target]; lia). eexists. split; [done|]. split; [done|]. intros p Hp.
    rewrite !Htest by (cbn [bitmap_]; rewrite ?length_apply_op; lia). cbn [bitmap_].
    rewrite bm_bit_apply by (unfold in_range; cbn [target]; lia). cbn [target set_or_clear]. by destruct (p =? i).
  - unfold off. rewrite Halone by (unfold in_range; cbn [target]; lia). eexists. split; [done|]. split; [done|]. intros p Hp.
    rewrite !Htest by (cbn [bitmap_]; rewrite ?length_apply_op; lia). cbn [bitmap_].
    rewrite bm_bit_apply by (unfold in_range; cbn [target]; lia). cbn [target set_or_clear]. by destruct (p =? i).
  - unfold clone. rewrite (proj2 (Z.leb_le _ _)) by lia. rewrite take_ge by lia. by destruct m.
Qed.

(** ** Witnesses *)

(** Two threads on the same byte; the second one's exchange fails once. *)
Definition ex_ops : list operation := [On 0; On 1].
Lemma ex_in_range : Forall (in_range [x00]) ex_ops.
Proof. repeat constructor; by vm_compute. Qed.
Lemma bitmap_ex_run : exists n lin ts, run n lin ([x00], start ex_ops) ([x03], ts) /\ forallb finished ts = true.
Proof.
  pose proof (run_step _ _ _ _ _ 0 _ _ _ (run_refl ([x00], start ex_ops)) eq_refl eq_refl) as R.
  pose proof (run_step _ _ _ _ _ 1 _ _ _ R eq_refl eq_refl) as R1.
  pose proof (run_step _ _ _ _ _ 0 _ _ _ R1 eq_refl eq_refl) as R2.
  pose proof (run_step _ _ _ _ _ 1 _ _ _ R2 eq_refl eq_refl) as R3.
  pose proof (run_step _ _ _ _ _ 1 _ _ _ R3 eq_refl eq_refl) as R4.
  pose proof (run_step _ _ _ _ _ 1 _ _ _ R4 eq_refl eq_refl) as R5.
  do 3 eexists. split; [exact R5|done].
Qed.

Lemma static_bitmap_linearizable_witness : exists n lin ts, run n lin ([x00], start ex_ops) ([x03], ts) /\
  [x03] = fold_left apply_op lin [x00] /\ lin ≡ₚ map fst (filter (fun t => finished t = true) ts) /\ bm_bit [x03] 0 = true /\ bm_bit [x03] 1 = true.
Proof.
  destruct bitmap_ex_run as (n & lin & ts & Hrun & Hfin). exists n, lin, ts. split; [exact Hrun|].
  destruct (static_bitmap_linearizable n lin [x00] ex_ops [x03] ts ex_in_range Hrun) as (H1 & _ & H2 & H3).
  split; [exact H1|]. split; [exact H2|]. split.
  - destruct (H3 Hfin 0 ltac:(lia)) as (_ & Hb & _). apply Hb; [by left|]. intros [[=]|[[=]|[]%elem_of_nil]%elem_of_cons]%elem_of_cons.
  - destruct (H3 Hfin 1 ltac:(lia)) as (_ & Hb & _). apply Hb; [by right; left|]. intros [[=]|[[=]|[]%elem_of_nil]%elem_of_cons]%elem_of_cons.
Defined.

Lemma static_bitmap_lock_free_witness : exists n lin ts, run n lin ([x00], start ex_ops) ([x03], ts) /\ (n <= 8)%nat.
Proof.
  destruct bitmap_ex_run as (n & lin & ts & Hrun & _). exists n, lin, ts. split; [exact Hrun|].
  exact (proj1 (static_bitmap_lock_free n lin [x00] ex_ops [x03] ts ex_in_range Hrun)).
Defined.

Lemma static_bitmap_operations_witness :
  exists m', on 3 {| size_ := 8; used_size_ := 1; bitmap_ := [x00] |} = Some m' /\ test 3 m' = Some true.
Proof.
  destruct (static_bitmap_operations 8 3 {| size_ := 8; used_size_ := 1; bitmap_ := [x00] |} ltac:(lia) eq_refl
    ltac:(cbn; lia) ltac:(cbn; lia)) as (_ & (m' & E & _ & Ht) & _).
  exists m'. split; [exact E|]. by apply (Ht 3).
Defined.
