(* ===== verification/Random.v ===== *)
(** * Random: the pseudo-random generator and GUIDs of [src/util/random_util.h] and
    [src/util/random_util.cpp]

    [Random] is a multiplicative congruential generator; its state is the seed.
    Each operation returns its value and the next seed. *)

From Stdlib Require Import Znumtheory Zpow_facts.
From S2P Require Import Prelude.
#[local] Open Scope Z_scope.

(** ** The generator *)

Definition M : Z := 2147483647.
Definition A : Z := 16807.

Definition GoodSeed (s : Z) : Z := if negb (s .& M =? 0) then s .& M else 1.
Definition kMaxNext : Z := M.

(** The constructor; [Reset] stores the same value. *)
Definition Random_new (s : Z) : Z := GoodSeed s.
Definition Reset (s : Z) : Z := GoodSeed s.

Definition Next (seed : Z) : Z * Z :=
  let product := u64 (seed * A) in
  let seed := u32 ((product .>> 31) + (product .& M)) in
  let seed := if seed >? M then u32 (seed - M) else seed in
  (seed, seed).

(** A modulus of 0 is [None]; [n] is converted to [uint32_t]. *)
Definition Uniform (n : Z) (seed : Z) : option (Z * Z) :=
  let '(v, seed) := Next seed in
  if u32 n =? 0 then None else Some (v mod u32 n, seed).
Definition OneIn (n : Z) (seed : Z) : option (bool * Z) :=
  let '(v, seed) := Next seed in
  if u32 n =? 0 then None else Some (v mod u32 n =? 0, seed).
(** Shifting an [int] out of its range is [None]. *)
Definition Skewed (max_log : Z) (seed : Z) : option (Z * Z) :=
  m ← int32 (max_log + 1);
  '(base, seed) ← Uniform m seed;
  if base <? 31 then Uniform (1 .<< base) seed else None.

(** [n] calls of [Next]: the seed after them. *)
Definition NextN (n : nat) (seed : Z) : Z := Nat.iter n (fun s => snd (Next s)) seed.

(** [RandomString]: [resize] to a negative length throws. *)
Fixpoint RandomString_loop (n : nat) (seed : Z) : option (bytes * Z) :=
  match n with
  | O => Some ([], seed)
  | S n =>
      '(u, seed) ← Uniform 95 seed;
      '(s, seed) ← RandomString_loop n seed;
      Some (to_byte (32 + u) :: s, seed)
  end.
Definition RandomString (len : Z) (seed : Z) : option (bytes * Z) :=
  if len <? 0 then None else RandomString_loop (Z.to_nat len) seed.

Definition kTestChars : bytes := [x00; x01; x61; x62; x63; x64; x65; xfd; xfe; xff].
Fixpoint RandomKey_loop (n : nat) (result : bytes) (seed : Z) : option (bytes * Z) :=
  match n with
  | O => Some (result, seed)
  | S n =>
      '(u, seed) ← Uniform (Z.of_nat (length kTestChars)) seed;
      c ← kTestChars !! Z.to_nat u;
      RandomKey_loop n (result ++ [c]) seed
  end.
Definition RandomKey (len : Z) (seed : Z) : option (bytes * Z) := RandomKey_loop (Z.to_nat len) [] seed.

(** ** GUIDs *)

Definition hexchars : bytes :=
  [x30; x31; x32; x33; x34; x35; x36; x37; x38; x39; x41; x42; x43; x44; x45; x46].
Definition dash : byte := x2d.

(** [printf("%0<width>X", v)]: the digits of [v], padded with zeros on the left. *)
Fixpoint hex_digits (fuel : nat) (v : Z) (acc : bytes) : bytes :=
  match fuel with
  | O => acc
  | S fuel =>
      let acc := nth (Z.to_nat (v mod 16)) hexchars x00 :: acc in
      if v / 16 =? 0 then acc else hex_digits fuel (v / 16) acc
  end.
Definition format_X (width : nat) (v : Z) : bytes :=
  let digits := hex_digits 16 v [] in replicate (width - length digits) x30 ++ digits.

(** ["%08X-%04X-%04X-%04X-%012llX"]. *)
Definition RandomDataToGUIDString (b0 b1 : Z) : bytes :=
  format_X 8 (u32 (b0 .>> 32)) ++ [dash] ++
  format_X 4 (u32 ((b0 .>> 16) .& 0x0000ffff)) ++ [dash] ++
  format_X 4 (u32 (b0 .& 0x0000ffff)) ++ [dash] ++
  format_X 4 (u32 (b1 .>> 48)) ++ [dash] ++
  format_X 12 (b1 .& 0x0000ffffffffffff).

Fixpoint IsValidGUID_loop (i : nat) (guid : bytes) : bool :=
  match guid with
  | [] => true
  | current :: guid =>
      if ((i =? 8) || (i =? 13) || (i =? 18) || (i =? 23))%nat then
        if negb (bool_decide (current = dash)) then false else IsValidGUID_loop (S i) guid
      else if negb (bool_decide (current ∈ hexchars)) then false else IsValidGUID_loop (S i) guid
  end.
Definition IsValidGUID (guid : bytes) : bool :=
  if negb (Z.of_nat (length guid) =? 36) then false else IsValidGUID_loop 0 guid.

(** ** One step of the generator *)

Lemma M_bits : M = Z.ones 31.
Proof. done. Qed.

(** Folding the high bits back in keeps the value modulo [2^31 - 1]. *)
Lemma fold_mod p : 0 <= p -> ((p .>> 31) + (p .& M)) mod M = p mod M.
Proof.
  intros Hp. rewrite M_bits, Z.land_ones, Z.shiftr_div_pow2 by lia.
  pose proof (Z.div_mod p (2 ^ 31) ltac:(lia)) as Hd. rewrite Hd at 3.
  replace (2 ^ 31 * (p / 2 ^ 31) + p mod 2 ^ 31) with (p / 2 ^ 31 + p mod 2 ^ 31 + p / 2 ^ 31 * Z.ones 31)
    by (change (Z.ones 31) with (2 ^ 31 - 1); lia).
  by rewrite Z.mod_add.
Qed.

(** The seed [M] is a fixed point. *)
Lemma Next_M : Next M = (M, M).
Proof. by vm_compute. Qed.

Lemma mul_A_nonzero s : 0 < s < M -> (s * A) mod M <> 0.
Proof.
  intros Hs H. apply Z.mod_divide in H; [|done].
  assert (Hd : (M | s)).
  { apply (Z.gauss M A s); [by rewrite Z.mul_comm|by vm_compute]. }
  apply Z.divide_pos_le in Hd; lia.
Qed.

Lemma Next_spec s : 0 < s < M -> Next s = ((s * A) mod M, (s * A) mod M).
Proof.
  intros Hs. assert (Hp : 0 <= s * A < 2147483647 * 16807) by (change M with 2147483647 in Hs; change A with 16807; lia).
  assert (Hr : 0 <= (s * A) .& M < 2 ^ 31).
  { rewrite M_bits, Z.land_ones by lia. by apply Z.mod_pos_bound. }
  assert (Hq : 0 <= (s * A) .>> 31 < 16807).
  { rewrite Z.shiftr_div_pow2 by lia. split; [apply Z.div_pos; lia|]. apply Z.div_lt_upper_bound; lia. }
  unfold Next. rewrite (wrap_small 64 (s * A)) by (unfold is_uint; lia).
  pose proof (fold_mod (s * A) ltac:(lia)) as Hf. pose proof (mul_A_nonzero s Hs) as Hn.
  set (t := ((s * A) .>> 31) + ((s * A) .& M)) in *.
  rewrite (wrap_small 32 t) by (unfold is_uint; lia). rewrite <-Hf in Hn |- *. rewrite Z.gtb_ltb.
  change M with 2147483647 in *. destruct (Z.ltb_spec 2147483647 t).
  - rewrite (wrap_small 32) by (unfold is_uint; lia).
    assert (t mod 2147483647 = t - 2147483647) as ->; [|done].
    replace t with (t - 2147483647 + 1 * 2147483647) at 1 by lia. rewrite Z.mod_add by lia. apply Z.mod_small.
    lia.
  - assert (t <> 2147483647) by (intros E; by rewrite E in Hn).
    by rewrite Z.mod_small by lia.
Qed.
Lemma Next_range s : 0 < s < M -> 0 < (s * A) mod M < M.
Proof.
  intros Hs. pose proof (Z.mod_pos_bound (s * A) M ltac:(done)). pose proof (mul_A_nonzero s Hs). lia.
Qed.

Lemma NextN_spec n s : 0 < s < M -> NextN n s = (s * A ^ Z.of_nat n) mod M /\ 0 < NextN n s < M.
Proof.
  intros Hs. induction n as [|n [IH1 IH2]].
  - change (NextN 0 s) with s. split; [|done]. change (Z.of_nat 0) with 0. rewrite Z.pow_0_r, Z.mul_1_r, Z.mod_small; lia.
  - unfold NextN in *. rewrite Nat.iter_succ. rewrite Next_spec by done. cbn [snd]. split; [|by apply Next_range].
    rewrite IH1, Z.mul_mod_idemp_l by done. rewrite Nat2Z.inj_succ, Z.pow_succ_r by lia. f_equal. lia.
Qed.
(** ** The period *)

(** The order of [A] modulo [M]: a power [d] of [A] is 1 only for the multiples of
    [M - 1], because it is not for [M - 1] divided by each of its prime factors. *)
Definition order_factors : list Z := [2; 3; 7; 11; 31; 151; 331].

Lemma check_prime p : 1 < p -> forallb (fun k => Z.gcd (Z.of_nat k) p =? 1) (seq 1 (Z.to_nat p - 1)) = true -> prime p.
Proof.
  intros Hp Hall. rewrite forallb_forall in Hall. constructor; [done|]. intros n Hn.
  apply Zgcd_1_rel_prime. rewrite <-(Z2Nat.id n) by lia. apply Z.eqb_eq, Hall, in_seq. lia.
Qed.
Lemma order_factors_prime : Forall prime order_factors.
Proof. repeat (constructor; [apply check_prime; [lia|by vm_compute]|]). constructor. Qed.

Lemma A_power q : A ^ q mod M = Zpow_mod A q M.
Proof. symmetry. by apply Zpow_mod_correct. Qed.

Lemma order_factors_power : Forall (fun q => A ^ ((M - 1) / q) mod M <> 1) order_factors.
Proof. repeat (constructor; [rewrite A_power; by vm_compute|]). constructor. Qed.
Lemma order_power : A ^ (M - 1) mod M = 1.
Proof. rewrite A_power. by vm_compute. Qed.
Lemma order_factorisation : M - 1 = 2 * (3 * (3 * (7 * (11 * (31 * (151 * 331)))))).
Proof. done. Qed.

Lemma power_mul a b : 0 <= a -> 0 <= b -> A ^ a mod M = 1 -> A ^ (a * b) mod M = 1.
Proof.
  intros Ha Hb H. rewrite Z.pow_mul_r by done. rewrite Zpower_mod by done. rewrite H.
  rewrite Z.pow_1_l by done. done.
Qed.
Lemma power_rem a d : 0 <= a -> 0 < d -> A ^ a mod M = 1 -> A ^ d mod M = 1 -> A ^ (a mod d) mod M = 1.
Proof.
  intros Ha Hd H1 H2. pose proof (Z.div_mod a d ltac:(lia)) as E. pose proof (Z.div_pos a d Ha Hd).
  pose proof (Z.mod_pos_bound a d Hd). rewrite E, Z.pow_add_r in H1 by nia.
  rewrite Z.mul_mod, power_mul, Z.mul_1_l, Z.mod_mod in H1 by (done || lia). done.
Qed.

(** A divisor of [M - 1] above 1 is divisible by one of the factors. *)
Lemma divisor_factor m : 1 < m -> (m | M - 1) -> exists q, q ∈ order_factors /\ (q | m).
Proof.
  intros Hm Hd.
  destruct (decide (Exists (fun q => m mod q = 0) order_factors)) as [He|Hn].
  - apply Exists_exists in He as (q & Hq & H). exists q. split; [by apply list_elem_of_In|].
    apply Z.mod_divide; [|done]. intros ->. cbn in Hq. lia.
  - exfalso. assert (Hr : forall q, In q order_factors -> rel_prime q m).
    { intros q Hq. apply prime_rel_prime.
      - pose proof order_factors_prime as Hp. rewrite Forall_forall in Hp. by apply Hp.
      - intros Hdiv. apply Hn, Exists_exists. exists q. split; [done|]. apply Z.mod_divide; [|done].
        intros ->. cbn in Hq. lia. }
    assert (rel_prime m (M - 1)).
    { rewrite order_factorisation. repeat apply rel_prime_mult; apply rel_prime_sym, Hr; cbn; tauto. }
    apply rel_prime_sym in H. assert (Hu : (m | 1)).
    { apply H; [done|apply Z.divide_refl]. }
    apply Z.divide_pos_le in Hu; lia.
Qed.

Lemma order_exact d : 0 < d < M - 1 -> A ^ d mod M <> 1.
Proof.
  intros Hd. remember (Z.to_nat d) as n eqn:En. revert d Hd En.
  induction n as [n IH] using lt_wf_ind. intros d Hd -> H.
  pose proof (Z.mod_pos_bound (M - 1) d ltac:(lia)) as Hr.
  destruct (Z.eq_dec ((M - 1) mod d) 0) as [E|E].
  - assert (Hm : M - 1 = d * ((M - 1) / d)) by (by apply Z.div_exact; [lia|]).
    set (m := (M - 1) / d) in *. assert (1 < m) by nia.
    destruct (divisor_factor m) as (q & Hq & [k Hk]); [done|exists d; lia|].
    assert (0 < q) by (rewrite list_elem_of_In in Hq; cbn in Hq; lia).
    pose proof order_factors_power as Hp. rewrite Forall_forall in Hp. apply (Hp q); [by apply list_elem_of_In|].
    assert ((M - 1) / q = d * k) as ->.
    { rewrite Hm, Hk. replace (d * (k * q)) with (d * k * q) by lia. apply Z.div_mul. lia. }
    apply power_mul; [lia|nia|done].
  - apply (IH (Z.to_nat ((M - 1) mod d)) ltac:(lia) ((M - 1) mod d)); [lia|done|].
    apply power_rem; [lia|lia|apply order_power|done].
Qed.

Lemma A_power_coprime k : 0 <= k -> rel_prime (A ^ k) M.
Proof.
  intros Hk. apply rel_prime_sym, rel_prime_Zpower_r; [done|]. apply rel_prime_sym, Zgcd_1_rel_prime. by vm_compute.
Qed.

(** The powers of [A] up to [M - 1] are all different. *)
Lemma powers_inj i j : 0 <= i < j -> j < M - 1 -> A ^ i mod M <> A ^ j mod M.
Proof.
  intros Hi Hj E. apply (order_exact (j - i)); [lia|].
  assert (Hd : (M | A ^ (j - i) - 1)).
  { apply Gauss with (A ^ i); [|apply rel_prime_sym, A_power_coprime; lia].
    rewrite Z.mul_sub_distr_l, Z.mul_1_r, <-Z.pow_add_r by lia. replace (i + (j - i)) with j by lia.
    apply Z.mod_divide; [done|]. by rewrite Zminus_mod, E, Z.sub_diag. }
  apply Z.mod_divide in Hd; [|done]. rewrite <-(Z.sub_add 1 (A ^ (j - i))), Z.add_mod, Hd by done. done.
Qed.
(** Every number in [[1, M - 1]] is a power of [A]: there are as many of them as
    different powers. *)
Lemma powers_surj t : 0 < t < M -> exists k, 0 <= k < M - 1 /\ A ^ k mod M = t.
Proof.
  intros Ht. set (n := Z.to_nat (M - 1)).
  assert (Hn : Z.of_nat n = M - 1) by (unfold n; rewrite Z2Nat.id; lia). clearbody n.
  set (powers := (fun k => A ^ Z.of_nat k mod M) <$> seq 0 n).
  set (numbers := Z.of_nat <$> seq 1 n).
  assert (Hsub : powers ⊆+ numbers).
  { apply NoDup_submseteq.
    - apply NoDup_fmap_2_strong; [|apply NoDup_seq]. intros i j Hi%elem_of_seq Hj%elem_of_seq E.
      destruct (Nat.lt_trichotomy i j) as [?|[?|?]]; [exfalso|done|exfalso].
      + apply (powers_inj (Z.of_nat i) (Z.of_nat j)); [lia|lia|done].
      + apply (powers_inj (Z.of_nat j) (Z.of_nat i)); [lia|lia|done].
    - intros x (k & -> & Hk%elem_of_seq)%list_elem_of_fmap.
      assert (Hr : 0 < A ^ Z.of_nat k mod M < M).
      { destruct (NextN_spec k 1 ltac:(done)) as [E H]. rewrite E, Z.mul_1_l in H. done. }
      apply list_elem_of_fmap. exists (Z.to_nat (A ^ Z.of_nat k mod M)).
      split; [by rewrite Z2Nat.id by lia|]. apply elem_of_seq. lia. }
  assert (Hperm : powers ≡ₚ numbers).
  { apply submseteq_length_Permutation; [done|]. unfold powers, numbers. rewrite !length_fmap, !length_seq. done. }
  assert (Hin : t ∈ powers).
  { rewrite Hperm. apply list_elem_of_fmap. exists (Z.to_nat t). split; [by rewrite Z2Nat.id by lia|]. apply elem_of_seq. lia. }
  apply list_elem_of_fmap in Hin as (k & -> & Hk%elem_of_seq). exists (Z.of_nat k). split; [lia|done].
Qed.

(** C28. (liveness).  From any seed but 0 and [M] the generator returns the seed times
    16807 modulo [2^31 - 1], without overflow, and goes through every number from 1 to
    [2^31 - 2] before it repeats one. *)
Theorem random_full_period (s : Z) (Hs : 0 < s < M) :
  Next s = ((s * A) mod M, (s * A) mod M) /\
  (forall t, 0 < t < M -> exists n, Z.of_nat n < M - 1 /\ NextN n s = t) /\
  (forall n m, Z.of_nat n < Z.of_nat m < M - 1 -> NextN n s <> NextN m s).
Proof.
  destruct (powers_surj s Hs) as (a & Ha & Ea).
  assert (Hstep : forall n, NextN n s = A ^ (a + Z.of_nat n) mod M).
  { intros n. destruct (NextN_spec n s Hs) as [-> _]. rewrite <-Ea at 1. rewrite Z.mul_mod_idemp_l by done.
    by rewrite Z.pow_add_r by lia. }
  split; [by apply Next_spec|]. split.
  - intros t Ht. destruct (powers_surj t Ht) as (b & Hb & <-).
    destruct (Z.le_gt_cases a b).
    + exists (Z.to_nat (b - a)). rewrite Hstep, Z2Nat.id by lia. split; [lia|]. do 2 f_equal. lia.
    + exists (Z.to_nat (b - a + (M - 1))). rewrite Hstep, Z2Nat.id by lia. split; [lia|].
      replace (a + (b - a + (M - 1))) with (b + (M - 1)) by lia.
      rewrite Z.pow_add_r, <-Z.mul_mod_idemp_r, order_power, Z.mul_1_r by (done || lia). done.
  - intros n m Hnm E. rewrite !Hstep in E. apply (order_exact (Z.of_nat m - Z.of_nat n)); [lia|].
    assert (Hd : (M | A ^ (Z.of_nat m - Z.of_nat n) - 1)).
    { apply Gauss with (A ^ (a + Z.of_nat n)); [|apply rel_prime_sym, A_power_coprime; lia].
      rewrite Z.mul_sub_distr_l, Z.mul_1_r, <-Z.pow_add_r by lia.
      replace (a + Z.of_nat n + (Z.of_nat m - Z.of_nat n)) with (a + Z.of_nat m) by lia.
      apply Z.mod_divide; [done|]. by rewrite Zminus_mod, E, Z.sub_diag. }
    apply Z.mod_divide in Hd; [|done].
    by rewrite <-(Z.sub_add 1 (A ^ _)), Z.add_mod, Hd by done.
Qed.

(** (error).  [GoodSeed] lets one bad seed through: any [s] whose low 31 bits are
    all ones gives the seed [M], from which every call of [Next] returns [M]; every
    other seed is good. *)
Theorem random_bad_seed (s : Z) (Hs : is_uint 32 s) :
  (s .& M = M -> Random_new s = M /\ forall n, Next (NextN n (Random_new s)) = (M, M)) /\
  (s .& M <> M -> 0 < Random_new s < M).
Proof.
  unfold Random_new, GoodSeed. split.
  - intros ->. change (if negb (M =? 0) then M else 1) with M. split; [done|]. intros n.
    assert (NextN n M = M) as ->; [|apply Next_M]. induction n as [|n IH]; [done|].
    change (NextN (S n) M) with (snd (Next (NextN n M))). by rewrite IH, Next_M.
  - intros Hne. assert (0 <= s .& M < 2 ^ 31) by (rewrite M_bits, Z.land_ones by lia; by apply Z.mod_pos_bound).
    change M with 2147483647 in *. destruct (Z.eqb_spec (s .& 2147483647) 0); cbn [negb]; lia.
Qed.

Lemma Next_snd s : 0 < s < M -> 0 < snd (Next s) < M.
Proof. intros Hs. rewrite Next_spec by done. by apply Next_range. Qed.

Lemma Uniform_spec n s : 0 < n < 2 ^ 31 -> 0 < s < M ->
  exists v s', Uniform n s = Some (v, s') /\ 0 <= v < n /\ v = (s * A) mod M mod n /\ 0 < s' < M.
Proof.
  intros Hn Hs. unfold Uniform. rewrite Next_spec by done. rewrite (wrap_small 32 n) by (unfold is_uint; lia).
  rewrite (proj2 (Z.eqb_neq n 0)) by lia. do 2 eexists. split; [done|]. split; [apply Z.mod_pos_bound; lia|].
  split; [done|]. by apply Next_range.
Qed.

Lemma RandomString_loop_spec n s : 0 < s < M ->
  exists r s', RandomString_loop n s = Some (r, s') /\ length r = n /\ Forall (fun c => 32 <= uchar c <= 126) r.
Proof.
  revert s. induction n as [|n IH]; intros s Hs; [by exists [], s|]. cbn [RandomString_loop].
  destruct (Uniform_spec 95 s ltac:(lia) Hs) as (u & s1 & -> & Hu & _ & Hs1). cbn [mbind option_bind].
  destruct (IH s1 Hs1) as (r & s2 & -> & Hl & Hf). cbn [mbind option_bind]. do 2 eexists. split; [done|].
  split; [cbn; by rewrite Hl|]. constructor; [|done]. rewrite uchar_to_byte, wrap_small by (unfold is_uint; lia). lia.
Qed.
Lemma RandomKey_loop_spec n acc s : 0 < s < M -> Forall (fun c => c ∈ kTestChars) acc ->
  exists r s', RandomKey_loop n acc s = Some (r, s') /\ length r = (length acc + n)%nat /\ Forall (fun c => c ∈ kTestChars) r.
Proof.
  revert acc s. induction n as [|n IH]; intros acc s Hs Ha; cbn [RandomKey_loop].
  { exists acc, s. split; [done|]. split; [lia|done]. }
  destruct (Uniform_spec (Z.of_nat (length kTestChars)) s ltac:(by vm_compute) Hs) as (u & s1 & -> & Hu & _ & Hs1).
  cbn [mbind option_bind].
  destruct (lookup_lt_is_Some_2 kTestChars (Z.to_nat u)) as [c Hc]; [lia|]. rewrite Hc. cbn [mbind option_bind].
  destruct (IH (acc ++ [c]) s1 Hs1) as (r & s2 & E & Hl & Hf).
  { apply Forall_app. split; [done|]. constructor; [|constructor]. by eapply list_elem_of_lookup_2. }
  exists r, s2. split; [done|]. split; [|done]. rewrite Hl, length_app. cbn. lia.
Qed.

(** (bounds).  With a good seed, [Uniform(n)] is in [[0, n)], [OneIn(n)] tells when
    it is 0, [Skewed(max_log)] is below [2^max_log] for [max_log] up to 30,
    [RandomString] gives that many printable characters and [RandomKey] that many test
    characters; none fails. *)
Theorem random_ranges (s n : Z) (Hs : 0 < s < M) (Hn : 0 < n < 2 ^ 31) :
  (exists v s', Uniform n s = Some (v, s') /\ 0 <= v < n /\ OneIn n s = Some (v =? 0, s')) /\
  (n <= 30 -> exists v s', Skewed n s = Some (v, s') /\ 0 <= v < 2 ^ n) /\
  (exists r s', RandomString n s = Some (r, s') /\ Z.of_nat (length r) = n /\ Forall (fun c => 32 <= uchar c <= 126) r) /\
  (exists r s', RandomKey n s = Some (r, s') /\ Z.of_nat (length r) = n /\ Forall (fun c => c ∈ kTestChars) r).
Proof.
  split; [|split; [|split]].
  - destruct (Uniform_spec n s Hn Hs) as (v & s' & E & Hv & _ & Hs'). exists v, s'. split; [done|]. split; [done|].
    unfold Uniform in E. unfold OneIn. destruct (Next s) as [v0 s0]. destruct (u32 n =? 0); [done|]. by injection E as <- <-.
  - intros H30. unfold Skewed. rewrite int32_small by lia. cbn [mbind option_bind].
    destruct (Uniform_spec (n + 1) s ltac:(lia) Hs) as (base & s1 & -> & Hb & _ & Hs1). cbn [mbind option_bind].
    rewrite (proj2 (Z.ltb_lt base 31)) by lia. rewrite Z.shiftl_1_l.
    assert (0 < 2 ^ base) by (apply Z.pow_pos_nonneg; lia).
    assert (2 ^ base <= 2 ^ n) by (apply Z.pow_le_mono_r; lia).
    assert (2 ^ n < 2 ^ 31) by (apply Z.pow_lt_mono_r; lia).
    destruct (Uniform_spec (2 ^ base) s1 ltac:(lia) Hs1) as (v & s2 & E & Hv & _). exists v, s2. split; [done|]. lia.
  - unfold RandomString. rewrite (proj2 (Z.ltb_ge n 0)) by lia.
    destruct (RandomString_loop_spec (Z.to_nat n) s Hs) as (r & s' & E & Hl & Hf). exists r, s'. split; [done|].
    split; [lia|done].
  - destruct (RandomKey_loop_spec (Z.to_nat n) [] s Hs) as (r & s' & E & Hl & Hf); [constructor|]. exists r, s'.
    split; [done|]. split; [cbn in Hl; lia|done].
Qed.
(** ** GUIDs: lemmas *)

Definition digit (d : Z) : byte := nth (Z.to_nat d) hexchars x00.
(** The last [w] hexadecimal digits. *)
Fixpoint fixed (w : nat) (v : Z) : bytes :=
  match w with O => [] | S w => fixed w (v / 16) ++ [digit (v mod 16)] end.

Lemma digit_hex d : 0 <= d < 16 -> digit d ∈ hexchars.
Proof.
  intros Hd. unfold digit. destruct (lookup_lt_is_Some_2 hexchars (Z.to_nat d)) as [c Hc]; [cbn; lia|].
  rewrite (nth_lookup_Some _ _ _ _ Hc). by eapply list_elem_of_lookup_2.
Qed.
Lemma digit_inj d e : 0 <= d < 16 -> 0 <= e < 16 -> digit d = digit e -> d = e.
Proof.
  intros Hd He E. assert (Hn : NoDup hexchars) by (apply (bool_decide_unpack _); by vm_compute).
  unfold digit in E. destruct (lookup_lt_is_Some_2 hexchars (Z.to_nat d)) as [c Hc]; [cbn; lia|].
  destruct (lookup_lt_is_Some_2 hexchars (Z.to_nat e)) as [c' Hc']; [cbn; lia|].
  rewrite (nth_lookup_Some _ _ _ _ Hc), (nth_lookup_Some _ _ _ _ Hc') in E. subst c'.
  pose proof (NoDup_lookup _ _ _ _ Hn Hc Hc'). lia.
Qed.
Lemma length_fixed w v : length (fixed w v) = w.
Proof. revert v. induction w as [|w IH]; intros v; [done|]. cbn. rewrite length_app, IH. cbn. lia. Qed.
Lemma fixed_hex w v : Forall (fun c => c ∈ hexchars) (fixed w v).
Proof.
  revert v. induction w as [|w IH]; intros v; [constructor|]. cbn. apply Forall_app. split; [apply IH|].
  constructor; [|constructor]. apply digit_hex, Z.mod_pos_bound. lia.
Qed.
Lemma div16_range w v : 0 <= v < 16 ^ Z.of_nat (S w) -> 0 <= v / 16 < 16 ^ Z.of_nat w.
Proof.
  rewrite Nat2Z.inj_succ, Z.pow_succ_r by lia. intros Hv. split; [apply Z.div_pos; lia|]. apply Z.div_lt_upper_bound; lia.
Qed.
Lemma fixed_inj w v v' : 0 <= v < 16 ^ Z.of_nat w -> 0 <= v' < 16 ^ Z.of_nat w -> fixed w v = fixed w v' -> v = v'.
Proof.
  revert v v'. induction w as [|w IH]; intros v v' Hv Hv' E; [cbn in Hv, Hv'; lia|]. cbn [fixed] in E.
  apply app_inj_tail in E as [E1 E2]. apply IH in E1; [|by apply div16_range..].
  apply digit_inj in E2; [|by apply Z.mod_pos_bound..].
  rewrite (Z.div_mod v 16), (Z.div_mod v' 16) by lia. by rewrite E1, E2.
Qed.
Lemma fixed_pad k w v : 0 <= v < 16 ^ Z.of_nat k -> (k <= w)%nat -> fixed w v = replicate (w - k) x30 ++ fixed k v.
Proof.
  revert w v. induction k as [|k IH]; intros w v Hv Hk.
  - assert (v = 0) as -> by (cbn in Hv; lia). cbn [fixed]. rewrite app_nil_r, Nat.sub_0_r. clear.
    induction w as [|w IH]; [done|]. cbn [fixed]. change (0 / 16) with 0. rewrite IH.
    by rewrite replicate_S_end.
  - destruct w as [|w]; [lia|]. cbn [fixed]. rewrite (IH w) by (by apply div16_range || lia).
    by rewrite <-app_assoc.
Qed.
(** [printf] prints the least number of digits, at least one. *)
Lemma hex_digits_spec fuel v acc : (0 < fuel)%nat -> 0 <= v < 16 ^ Z.of_nat fuel ->
  exists k, (1 <= k)%nat /\ hex_digits fuel v acc = fixed k v ++ acc /\ v < 16 ^ Z.of_nat k /\
    (k = 1%nat \/ 16 ^ Z.of_nat (k - 1) <= v).
Proof.
  revert v acc. induction fuel as [|fuel IH]; intros v acc H0 Hv; [lia|]. cbn [hex_digits].
  fold (digit (v mod 16)). destruct (Z.eqb_spec (v / 16) 0) as [E|E].
  - exists 1%nat. split; [lia|]. split; [done|]. pose proof (Z.div_mod v 16 ltac:(lia)).
    pose proof (Z.mod_pos_bound v 16 ltac:(lia)). split; [cbn; lia|by left].
  - pose proof (div16_range _ _ Hv) as Hd. assert (0 < fuel)%nat as Hf by (destruct fuel; [cbn in Hd; lia|lia]).
    destruct (IH (v / 16) (digit (v mod 16) :: acc) Hf Hd) as (k & Hk & -> & Hlt & Hge). exists (S k). split; [lia|].
    pose proof (Z.div_mod v 16 ltac:(lia)). pose proof (Z.mod_pos_bound v 16 ltac:(lia)).
    split; [cbn [fixed]; by rewrite <-app_assoc|]. rewrite Nat2Z.inj_succ, Z.pow_succ_r by lia. split; [lia|]. right.
    replace (S k - 1)%nat with k by lia. destruct Hge as [->|Hge]; [change (16 ^ Z.of_nat 1) with 16; lia|].
    replace (Z.of_nat k) with (Z.succ (Z.of_nat (k - 1))) by lia. rewrite Z.pow_succ_r by lia. lia.
Qed.
Lemma format_X_fixed w v : (1 <= w <= 16)%nat -> 0 <= v < 16 ^ Z.of_nat w -> format_X w v = fixed w v.
Proof.
  intros Hw Hv. unfold format_X.
  assert (Hv' : 0 <= v < 16 ^ Z.of_nat 16) by (split; [lia|]; apply Z.lt_le_trans with (16 ^ Z.of_nat w); [lia|apply Z.pow_le_mono_r; lia]).
  destruct (hex_digits_spec 16 v [] ltac:(lia) Hv') as (k & Hk & -> & Hlt & Hge). rewrite app_nil_r, length_fixed.
  assert (k <= w)%nat.
  { destruct Hge as [->|Hge]; [lia|]. assert (Z.of_nat (k - 1) < Z.of_nat w); [|lia].
    apply (Z.pow_lt_mono_r_iff 16); lia. }
  symmetry. apply fixed_pad; [lia|done].
Qed.

Definition dash_at (i : nat) : bool := ((i =? 8) || (i =? 13) || (i =? 18) || (i =? 23))%nat.
Lemma IsValidGUID_loop_spec i g :
  IsValidGUID_loop i g = true <-> forall j c, g !! j = Some c -> if dash_at (i + j) then c = dash else c ∈ hexchars.
Proof.
  revert i. induction g as [|c g IH]; intros i; cbn [IsValidGUID_loop]; [by split; [intros _ j c'; rewrite lookup_nil|]|].
  fold (dash_at i). split.
  - intros H [|j] c' Hc.
    + injection Hc as ->. rewrite Nat.add_0_r. destruct (dash_at i); case_bool_decide; by cbn in H.
    + replace (i + S j)%nat with (S i + j)%nat by lia. apply IH; [|done].
      destruct (dash_at i); case_bool_decide; by cbn in H.
  - intros H. pose proof (H 0%nat c eq_refl) as Hc. rewrite Nat.add_0_r in Hc.
    assert (Hr : IsValidGUID_loop (S i) g = true).
    { apply IH. intros j c' Hj. specialize (H (S j) c' Hj). by replace (S i + j)%nat with (i + S j)%nat by lia. }
    destruct (dash_at i); rewrite bool_decide_eq_true_2 by done; exact Hr.
Qed.
Lemma IsValidGUID_loop_app i l rest :
  Forall (fun c => c ∈ hexchars) l -> (forall j, (j < length l)%nat -> dash_at (i + j) = false) ->
  IsValidGUID_loop i (l ++ rest) = IsValidGUID_loop (i + length l) rest.
Proof.
  intros Hl. revert i. induction Hl as [|c l Hc _ IH]; intros i Hd; cbn [length app]; [by rewrite Nat.add_0_r|].
  cbn [IsValidGUID_loop]. fold (dash_at i). rewrite <-(Nat.add_0_r i) at 1. rewrite Hd by (cbn; lia).
  rewrite bool_decide_eq_true_2 by done. cbn [negb]. rewrite IH.
  - f_equal. lia.
  - intros j Hj. replace (S i + j)%nat with (i + S j)%nat by lia. apply Hd. cbn. lia.
Qed.

(** The fields of a GUID in hexadecimal. *)
Lemma guid_fields b0 b1 : is_uint 64 b0 -> is_uint 64 b1 ->
  RandomDataToGUIDString b0 b1 =
    fixed 8 (b0 / 2 ^ 32) ++ [dash] ++ fixed 4 (b0 / 2 ^ 16 mod 2 ^ 16) ++ [dash] ++ fixed 4 (b0 mod 2 ^ 16) ++ [dash] ++
    fixed 4 (b1 / 2 ^ 48) ++ [dash] ++ fixed 12 (b1 mod 2 ^ 48).
Proof.
  intros [H0 H0'] [H1 H1']. unfold RandomDataToGUIDString.
  change 0x0000ffff with (Z.ones 16). change 0x0000ffffffffffff with (Z.ones 48).
  rewrite !Z.land_ones, !Z.shiftr_div_pow2 by lia.
  assert (Ha : 0 <= b0 / 2 ^ 32 < 2 ^ 32) by (split; [apply Z.div_pos; lia|apply Z.div_lt_upper_bound; lia]).
  assert (Hb : 0 <= b1 / 2 ^ 48 < 2 ^ 16) by (split; [apply Z.div_pos; lia|apply Z.div_lt_upper_bound; lia]).
  pose proof (Z.mod_pos_bound (b0 / 2 ^ 16) (2 ^ 16) ltac:(lia)). pose proof (Z.mod_pos_bound b0 (2 ^ 16) ltac:(lia)).
  pose proof (Z.mod_pos_bound b1 (2 ^ 48) ltac:(lia)).
  rewrite !(wrap_small 32) by (unfold is_uint; lia). rewrite !format_X_fixed by lia. done.
Qed.

(** One field, and the dash after it. *)
Lemma IsValidGUID_field i w v rest :
  forallb (fun j => negb (dash_at (i + j))) (seq 0 w) && dash_at (i + w) = true ->
  IsValidGUID_loop i (fixed w v ++ [dash] ++ rest) = IsValidGUID_loop (S (i + w)) rest.
Proof.
  intros [Hf Hd]%andb_true_iff. rewrite forallb_forall in Hf. rewrite IsValidGUID_loop_app; [|apply fixed_hex|].
  - rewrite length_fixed. cbn [app IsValidGUID_loop]. fold (dash_at (i + w)). rewrite Hd. by rewrite bool_decide_eq_true_2.
  - intros j Hj. rewrite length_fixed in Hj. apply negb_true_iff, Hf, in_seq. lia.
Qed.
Lemma fixed_app_inj w v v' r r' :
  0 <= v < 16 ^ Z.of_nat w -> 0 <= v' < 16 ^ Z.of_nat w -> fixed w v ++ [dash] ++ r = fixed w v' ++ [dash] ++ r' ->
  v = v' /\ r = r'.
Proof.
  intros Hv Hv' E. apply app_inj_1 in E as [E [= ->]]; [|by rewrite !length_fixed]. split; [|done]. by apply fixed_inj in E.
Qed.

(** (roundtrip).  [IsValidGUID] accepts exactly the strings of 36 characters with
    dashes at 8, 13, 18 and 23 and upper-case hexadecimal digits elsewhere; what
    [RandomDataToGUIDString] prints is one of them, and different data give different
    GUIDs. *)
Theorem guid_valid_injective :
  (forall g, IsValidGUID g = true <-> length g = 36%nat /\
     forall j c, g !! j = Some c -> if dash_at j then c = dash else c ∈ hexchars) /\
  (forall b0 b1, is_uint 64 b0 -> is_uint 64 b1 -> IsValidGUID (RandomDataToGUIDString b0 b1) = true) /\
  (forall b0 b1 b0' b1', is_uint 64 b0 -> is_uint 64 b1 -> is_uint 64 b0' -> is_uint 64 b1' ->
     RandomDataToGUIDString b0 b1 = RandomDataToGUIDString b0' b1' -> b0 = b0' /\ b1 = b1').
Proof.
  split; [|split].
  - intros g. pose proof (IsValidGUID_loop_spec 0 g) as Hs. cbn [Nat.add] in Hs. rewrite <-Hs. unfold IsValidGUID.
    destruct (Z.eqb_spec (Z.of_nat (length g)) 36) as [E|E]; cbn [negb].
    + split; [|tauto]. intros H. split; [lia|]. exact H.
    + split; [done|]. intros [H _]. lia.
  - intros b0 b1 H0 H1. rewrite guid_fields by done. unfold IsValidGUID.
    rewrite (proj2 (Z.eqb_eq _ _)) by (rewrite !length_app, !length_fixed; done). cbn [negb].
    rewrite !IsValidGUID_field by done. rewrite <-(app_nil_r (fixed 12 _)), IsValidGUID_loop_app; [done|apply fixed_hex|].
    intros j Hj. rewrite length_fixed in Hj. do 12 (destruct j as [|j]; [done|]). lia.
  - intros b0 b1 b0' b1' [H0 H0'] [H1 H1'] [G0 G0'] [G1 G1'] E. rewrite !guid_fields in E by done.
    assert (R : forall b, 0 <= b < 2 ^ 64 -> 0 <= b / 2 ^ 32 < 2 ^ 32 /\ 0 <= b / 2 ^ 16 mod 2 ^ 16 < 2 ^ 16 /\
      0 <= b mod 2 ^ 16 < 2 ^ 16 /\ 0 <= b / 2 ^ 48 < 2 ^ 16 /\ 0 <= b mod 2 ^ 48 < 2 ^ 48).
    { intros b Hb. split_and!; first [apply Z.div_pos; lia|apply Z.div_lt_upper_bound; lia|apply Z.mod_pos_bound; lia]. }
    destruct (R b0 ltac:(lia)) as (? & ? & ? & _), (R b0' ltac:(lia)) as (? & ? & ? & _).
    destruct (R b1 ltac:(lia)) as (_ & _ & _ & ? & ?), (R b1' ltac:(lia)) as (_ & _ & _ & ? & ?).
    apply fixed_app_inj in E as [E1 E]; [|done|done]. apply fixed_app_inj in E as [E2 E]; [|done|done].
    apply fixed_app_inj in E as [E3 E]; [|done|done]. apply fixed_app_inj in E as [E4 E5]; [|done|done].
    apply fixed_inj in E5; [|done|done].
    assert (S0 : forall b, b = 2 ^ 16 * (2 ^ 16 * (b / 2 ^ 32) + b / 2 ^ 16 mod 2 ^ 16) + b mod 2 ^ 16).
    { intros b. replace (b / 2 ^ 32) with (b / 2 ^ 16 / 2 ^ 16) by (by rewrite Z.div_div).
      rewrite <-Z.div_mod by done. by apply Z.div_mod. }
    split; [rewrite (S0 b0), (S0 b0'), E1, E2, E3; done|].
    rewrite (Z.div_mod b1 (2 ^ 48)), (Z.div_mod b1' (2 ^ 48)), E4, E5 by done. done.
Qed.

(** ** Witnesses *)

Lemma random_full_period_witness : Next 1 = (16807, 16807) /\ exists n, NextN n 1 = 2.
Proof.
  destruct (random_full_period 1 ltac:(done)) as (E & H & _). split; [exact E|].
  destruct (H 2 ltac:(done)) as (n & _ & En). by exists n.
Defined.

Lemma random_bad_seed_witness : Random_new 0xffffffff = M /\ Next (NextN 5 (Random_new 0xffffffff)) = (M, M).
Proof.
  destruct (random_bad_seed 0xffffffff ltac:(by vm_compute)) as [H _]. destruct (H ltac:(done)) as [E Hn].
  split; [exact E|apply (Hn 5%nat)].
Defined.

Lemma random_ranges_witness : exists v s', Uniform 10 1 = Some (v, s') /\ 0 <= v < 10.
Proof.
  destruct (random_ranges 1 10 ltac:(done) ltac:(lia)) as ((v & s' & E & Hv & _) & _). by exists v, s'.
Defined.

Lemma guid_valid_injective_witness : IsValidGUID (RandomDataToGUIDString 0x0123456789ABCDEF 0xFEDCBA9876543210) = true.
Proof. apply guid_valid_injective; by vm_compute. Defined.
