(* ===== verification/LruMap.v ===== *)
(** * LruMap: the caches of [src/util/cache.h] over [std::list] and a map

    [LruMap] and [MRUCacheBase] keep the entries in a [std::list], the most recent
    first, and a map from each key to its list iterator.  An iterator is the identity
    of a list element: it stays valid until that element is erased.  Dereferencing or
    erasing an invalid iterator is [None]. *)

From S2P Require Import Prelude.
From stdpp Require Import gmap.
#[local] Open Scope Z_scope.

(** ** [std::list] *)

Section std_list.
Context {T : Type}.

(** The elements with their identities. *)
Abbreviation nodes := (list (N * T)).
Fixpoint deref (it : N) (l : nodes) : option T :=
  match l with
  | [] => None
  | (i, x) :: l => if decide (i = it) then Some x else deref it l
  end.
Definition list_erase (it : N) (l : nodes) : option nodes :=
  _ ← deref it l; Some (filter (fun x => fst x <> it) l).
(** [splice(begin(), list, it)]: the element moves to the front. *)
Definition list_splice_front (it : N) (l : nodes) : option nodes :=
  x ← deref it l; Some ((it, x) :: filter (fun x => fst x <> it) l).
Definition list_pop_back (l : nodes) : option nodes :=
  match l with [] => None | _ => Some (removelast l) end.
Definition list_back (l : nodes) : option T := snd <$> last l.

End std_list.

Section caches.
Context {K V : Type} `{Countable K}.

(** ** [LruMap] *)

Record LruMap := {
  cache_items_list : list (N * (K * V));
  cache_items_map : gmap K N;
  max_size : Z;
  (** the identity of the next list element *)
  next_node : N
}.

Definition LruMap_new (max_size : Z) : LruMap :=
  {| cache_items_list := []; cache_items_map := ∅; max_size := max_size; next_node := 0%N |}.

Definition with_items (l : list (N * (K * V))) (m : gmap K N) (s : LruMap) : LruMap :=
  {| cache_items_list := l; cache_items_map := m; max_size := max_size s; next_node := next_node s |}.

Definition LruMap_erase (key : K) (s : LruMap) : option LruMap :=
  match cache_items_map s !! key with
  | Some it =>
      l ← list_erase it (cache_items_list s);
      Some (with_items l (delete key (cache_items_map s)) s)
  | None => Some s
  end.

Definition LruMap_put (key : K) (value : V) (s : LruMap) : option LruMap :=
  s ← LruMap_erase key s;
  let s := {| cache_items_list := (next_node s, (key, value)) :: cache_items_list s;
              cache_items_map := <[key := next_node s]> (cache_items_map s);
              max_size := max_size s; next_node := N.succ (next_node s) |} in
  if Z.of_nat (size (cache_items_map s)) >? max_size s then
    last ← list_back (cache_items_list s);
    l ← list_pop_back (cache_items_list s);
    Some (with_items l (delete (fst last) (cache_items_map s)) s)
  else Some s.

(** The value copied out; [None] inside when the function returns false. *)
Definition LruMap_get (key : K) (s : LruMap) : option (option V * LruMap) :=
  match cache_items_map s !! key with
  | None => Some (None, s)
  | Some it =>
      l ← list_splice_front it (cache_items_list s);
      kv ← deref it l;
      Some (Some (snd kv), with_items l (cache_items_map s) s)
  end.

Definition LruMap_exists (key : K) (s : LruMap) : bool := bool_decide (is_Some (cache_items_map s !! key)).
Definition LruMap_size (s : LruMap) : Z := Z.of_nat (size (cache_items_map s)).

(** ** [MRUCacheBase] *)

(** [index_] refers to [ordering_] as above; [NO_AUTO_EVICT] is 0. *)
Record MRUCache := {
  ordering_ : list (N * (K * V));
  index_ : gmap K N;
  max_size_ : Z;
  node_ : N
}.
Definition NO_AUTO_EVICT : Z := 0.

Definition MRUCache_new (max_size : Z) : MRUCache :=
  {| ordering_ := []; index_ := ∅; max_size_ := max_size; node_ := 0%N |}.
Definition with_order (l : list (N * (K * V))) (m : gmap K N) (s : MRUCache) : MRUCache :=
  {| ordering_ := l; index_ := m; max_size_ := max_size_ s; node_ := node_ s |}.

(** [Erase(iterator)]. *)
Definition MRU_Erase (pos : N) (s : MRUCache) : option MRUCache :=
  kv ← deref pos (ordering_ s);
  l ← list_erase pos (ordering_ s);
  Some (with_order l (delete (fst kv) (index_ s)) s).

(** [Erase(rbegin())]: the last element. *)
Definition MRU_Erase_last (s : MRUCache) : option MRUCache :=
  x ← last (ordering_ s); MRU_Erase (fst x) s.

Fixpoint ShrinkToSize_loop (fuel : nat) (i new_size : Z) (s : MRUCache) : option MRUCache :=
  match fuel with
  | O => None
  | S fuel =>
      if i >? new_size then s ← MRU_Erase_last s; ShrinkToSize_loop fuel (i - 1) new_size s
      else Some s
  end.
Definition MRU_size (s : MRUCache) : Z := Z.of_nat (size (index_ s)).
Definition ShrinkToSize (new_size : Z) (s : MRUCache) : option MRUCache :=
  ShrinkToSize_loop (S (size (index_ s))) (MRU_size s) new_size s.

Definition MRU_Put (key : K) (payload : V) (s : MRUCache) : option (N * MRUCache) :=
  s ← match index_ s !! key with
      | Some it => MRU_Erase it s
      | None => if negb (max_size_ s =? NO_AUTO_EVICT) then ShrinkToSize (u64 (max_size_ s - 1)) s else Some s
      end;
  let it := node_ s in
  Some (it, {| ordering_ := (it, (key, payload)) :: ordering_ s;
               index_ := if index_ s !! key is Some _ then index_ s else <[key := it]> (index_ s);
               max_size_ := max_size_ s; node_ := N.succ it |}).

(** [None] inside is [end()]. *)
Definition MRU_Get (key : K) (s : MRUCache) : option (option N * MRUCache) :=
  match index_ s !! key with
  | None => Some (None, s)
  | Some it => l ← list_splice_front it (ordering_ s); Some (Some it, with_order l (index_ s) s)
  end.
Definition MRU_Peek (key : K) (s : MRUCache) : option N := index_ s !! key.
Definition MRU_Clear (s : MRUCache) : MRUCache := with_order [] ∅ s.
Definition MRU_Swap (s other : MRUCache) : MRUCache * MRUCache := (other, s).
Definition MRU_empty (s : MRUCache) : bool := bool_decide (ordering_ s = []).

End caches.
(** ** The list and the map agree *)

Section lemmas.
Context {K V : Type} `{Countable K}.
Implicit Types (l : list (N * (K * V))) (m : gmap K N) (k : K) (v : V) (it nx : N).

Lemma filter_all {A} (P : A -> Prop) `{forall x, Decision (P x)} (xs : list A) :
  (forall x, x ∈ xs -> P x) -> filter P xs = xs.
Proof.
  intros Hall. induction xs as [|x xs IH]; [done|]. rewrite filter_cons_True by (apply Hall; by left).
  f_equal. apply IH. intros y Hy. apply Hall. by right.
Qed.

Definition keys l : list K := (fun x => fst (snd x)) <$> l.
Definition ids l : list N := fst <$> l.
(** The entries, the most recent first. *)
Definition entries l : list (K * V) := snd <$> l.
Definition idx l : gmap K N := list_to_map ((fun x => (fst (snd x), fst x)) <$> l).

Record agrees l m nx : Prop := {
  ag_idx : m = idx l;
  ag_keys : NoDup (keys l);
  ag_ids : NoDup (ids l);
  ag_fresh : forall it, it ∈ ids l -> (it < nx)%N
}.

Lemma keys_entries l : keys l = fst <$> entries l.
Proof. unfold keys, entries. by rewrite <-list_fmap_compose. Qed.
Lemma idx_fst l : ((fun x : N * (K * V) => (fst (snd x), fst x)) <$> l).*1 = keys l.
Proof. unfold keys. by rewrite <-list_fmap_compose. Qed.
Lemma idx_perm l l' : NoDup (keys l) -> l ≡ₚ l' -> idx l = idx l'.
Proof. intros Hn Hp. unfold idx. apply list_to_map_proper; [by rewrite idx_fst|]. by rewrite Hp. Qed.
Lemma idx_None l k : k ∉ keys l <-> idx l !! k = None.
Proof. unfold idx. rewrite <-idx_fst. apply not_elem_of_list_to_map. Qed.

Lemma agrees_nil nx : agrees [] ∅ nx.
Proof. split; [done|constructor|constructor|]. intros it Hit. by apply not_elem_of_nil in Hit. Qed.

Lemma agrees_perm l l' m nx : l ≡ₚ l' -> agrees l m nx -> agrees l' m nx.
Proof.
  intros Hp [-> Hk Hi Hf]. assert (Ek : keys l ≡ₚ keys l') by (unfold keys; by rewrite Hp).
  assert (Ei : ids l ≡ₚ ids l') by (unfold ids; by rewrite Hp).
  split; [by apply idx_perm|by rewrite <-Ek|by rewrite <-Ei|]. intros it Hit. apply Hf. by rewrite Ei.
Qed.

Lemma agrees_cons l m nx k v :
  agrees l m nx -> m !! k = None -> agrees ((nx, (k, v)) :: l) (<[k := nx]> m) (N.succ nx).
Proof.
  intros [-> Hk Hi Hf] Hn. split.
  - done.
  - apply NoDup_cons. split; [by apply idx_None|done].
  - apply NoDup_cons. split; [|done]. intros Hin. specialize (Hf nx Hin). lia.
  - intros it [->|Hit]%elem_of_cons; [cbn; lia|]. specialize (Hf it Hit). lia.
Qed.

Lemma agrees_uncons l m nx it k v : agrees ((it, (k, v)) :: l) m nx -> agrees l (delete k m) nx.
Proof.
  intros [-> Hk Hi Hf]. apply NoDup_cons in Hk as [Hk1 Hk2]. apply NoDup_cons in Hi as [Hi1 Hi2]. split.
  - unfold idx. cbn [fmap list_fmap list_to_map foldr]. cbn. rewrite delete_insert_id; [done|]. by apply idx_None.
  - done.
  - done.
  - intros it' Hit. apply Hf. by apply elem_of_cons; right.
Qed.

(** Where the map sends a key is an element with that key. *)
Lemma agrees_lookup l m nx k it :
  agrees l m nx -> m !! k = Some it -> exists l1 l2 v, l = l1 ++ (it, (k, v)) :: l2.
Proof.
  intros [-> Hk Hi Hf] Hm. unfold idx in Hm.
  apply elem_of_list_to_map_2 in Hm. apply list_elem_of_fmap in Hm as ([it' [k' v]] & [= -> ->] & Hin).
  apply list_elem_of_split in Hin as (l1 & l2 & ->). by exists l1, l2, v.
Qed.
Lemma agrees_middle l1 l2 m nx it k v :
  agrees (l1 ++ (it, (k, v)) :: l2) m nx ->
  m !! k = Some it /\ deref it (l1 ++ (it, (k, v)) :: l2) = Some (k, v) /\
  filter (fun x => fst x <> it) (l1 ++ (it, (k, v)) :: l2) = l1 ++ l2 /\ agrees (l1 ++ l2) (delete k m) nx /\
  agrees ((it, (k, v)) :: l1 ++ l2) m nx /\ (k ∉ keys (l1 ++ l2)).
Proof.
  intros Ha. pose proof Ha as [-> Hk Hi Hf].
  assert (Ha' : agrees ((it, (k, v)) :: l1 ++ l2) (idx (l1 ++ (it, (k, v)) :: l2)) nx).
  { eapply agrees_perm; [|exact Ha]. by rewrite Permutation_middle. }
  pose proof Ha' as [Ei Hk' Hi' _]. apply NoDup_cons in Hk' as [Hk1 _]. apply NoDup_cons in Hi' as [Hi1 _].
  assert (Hno : forall y, y ∈ l1 ++ l2 -> fst y <> it).
  { intros y Hy E. apply Hi1. apply list_elem_of_fmap. by exists y. }
  split; [rewrite Ei; unfold idx; apply lookup_insert_eq|].
  split; [|split; [|split; [by eapply agrees_uncons|split; [done|done]]]].
  - assert (Hn1 : forall y, y ∈ l1 -> fst y <> it) by (intros; apply Hno, elem_of_app; by left). clear -Hn1.
    induction l1 as [|[i x] l1 IH]; cbn [app deref].
    + by rewrite decide_True.
    + rewrite decide_False by (apply (Hn1 (i, x)); by left). apply IH. intros y Hy. apply Hn1. by right.
  - rewrite filter_app, filter_cons_False by (intros Hx; by apply Hx). rewrite <-filter_app.
    apply filter_all. intros y Hy. by apply Hno.
Qed.

Lemma agrees_size l m nx : agrees l m nx -> size m = length l.
Proof.
  intros [-> Hk _ _]. unfold idx. rewrite map_size_list_to_map by (by rewrite idx_fst). by rewrite length_fmap.
Qed.

(** *** The specification: a list of entries *)

Definition without k (L : list (K * V)) : list (K * V) := filter (fun x => fst x <> k) L.
Fixpoint find_key k (L : list (K * V)) : option V :=
  match L with [] => None | (k', v) :: L => if decide (k' = k) then Some v else find_key k L end.

Lemma without_not_in k L : k ∉ fst <$> L -> without k L = L.
Proof.
  intros Hk. apply filter_all. intros x Hx E. apply Hk, list_elem_of_fmap. by exists x.
Qed.
Lemma find_key_not_in k L : k ∉ fst <$> L -> find_key k L = None.
Proof.
  induction L as [|[k' v] L IH]; intros Hk; [done|]. cbn. apply not_elem_of_cons in Hk as [Hne Hk].
  cbn in Hne. rewrite decide_False by congruence. by apply IH.
Qed.

(** What the map knows of a key, in terms of the entries. *)
Lemma agrees_find l m nx k :
  agrees l m nx ->
  match m !! k with
  | None => (k ∉ keys l) /\ without k (entries l) = entries l /\ find_key k (entries l) = None
  | Some it => exists l1 l2 v, l = l1 ++ (it, (k, v)) :: l2 /\ find_key k (entries l) = Some v /\
                 without k (entries l) = entries (l1 ++ l2)
  end.
Proof.
  intros Ha. destruct (m !! k) as [it|] eqn:E.
  - destruct (agrees_lookup _ _ _ _ _ Ha E) as (l1 & l2 & v & ->). exists l1, l2, v. split; [done|].
    destruct (agrees_middle _ _ _ _ _ _ _ Ha) as (_ & _ & _ & _ & _ & Hno). rewrite keys_entries in Hno.
    unfold entries in *. rewrite !fmap_app, fmap_cons in *. cbn [snd]. apply not_elem_of_app in Hno as [H1 H2]. split.
    + clear Ha E. induction l1 as [|[i [k' v']] l1 IH]; cbn in *; [by rewrite decide_True|].
      apply not_elem_of_cons in H1 as [? H1]. rewrite decide_False by congruence. by apply IH.
    + unfold without. rewrite filter_app, filter_cons_False by (intros Hx; by apply Hx).
      fold (without k (snd <$> l1)) (without k (snd <$> l2)). by rewrite !without_not_in.
  - pose proof Ha as [-> _ _ _]. apply idx_None in E. split; [done|]. rewrite keys_entries in E.
    split; [by apply without_not_in|by apply find_key_not_in].
Qed.
End lemmas.
Section properties.
Context {K V : Type} `{Countable K}.
#[local] Abbreviation LruMap := (@LruMap K V _ _).
#[local] Abbreviation MRUCache := (@MRUCache K V _ _).
Implicit Types (L : list (K * V)) (k : K) (v : V).

(** The last element leaves both the list and the map. *)
Lemma agrees_last (l : list (N * (K * V))) m nx :
  agrees l m nx -> l <> [] ->
  exists it k v, last l = Some (it, (k, v)) /\ agrees (removelast l) (delete k m) nx /\ entries (removelast l) = removelast (entries l) /\
    removelast l = filter (fun x => fst x <> it) l /\ deref it l = Some (k, v).
Proof.
  intros Ha Hne. destruct (exists_last Hne) as (l0 & [it [k v]] & ->). exists it, k, v.
  rewrite last_snoc, removelast_last. split; [done|].
  destruct (agrees_middle _ _ _ _ _ _ _ Ha) as (_ & Hd & Hf & Ha' & _). rewrite app_nil_r in Ha', Hf. split; [done|].
  split; [|by rewrite Hf]. unfold entries. rewrite fmap_app. cbn [fmap list_fmap]. by rewrite removelast_last.
Qed.

Lemma removelast_take {A} (l : list A) : removelast l = take (length l - 1) l.
Proof.
  induction l as [|x [|y l] IH]; [done|done|]. cbn [length Nat.sub] in IH |- *. rewrite Nat.sub_0_r in IH.
  change (removelast (x :: y :: l)) with (x :: removelast (y :: l)). by rewrite IH.
Qed.

Lemma length_entries (l : list (N * (K * V))) : length (entries l) = length l.
Proof. apply length_fmap. Qed.
Lemma length_without k L : (length (without k L) <= length L)%nat.
Proof. unfold without. rewrite length_filter. done. Qed.

(** *** [LruMap] *)

Record rep (s : LruMap) L : Prop := {
  rep_agrees : agrees (cache_items_list s) (cache_items_map s) (next_node s);
  rep_entries : entries (cache_items_list s) = L;
  rep_size : Z.of_nat (length L) <= max_size s
}.

Lemma LruMap_erase_spec k s L :
  rep s L -> exists s', LruMap_erase k s = Some s' /\ rep s' (without k L) /\ max_size s' = max_size s /\
    cache_items_map s' !! k = None.
Proof.
  intros [Ha <- Hs]. unfold LruMap_erase. pose proof (agrees_find _ _ _ k Ha) as Hf.
  pose proof (length_without k (entries (cache_items_list s))) as Hlen.
  destruct (cache_items_map s !! k) as [it|] eqn:Em.
  - destruct Hf as (l1 & l2 & v & El & _ & Er). rewrite El in Ha.
    destruct (agrees_middle _ _ _ _ _ _ _ Ha) as (_ & Hd & Hfl & Ha' & _).
    rewrite El. unfold list_erase. rewrite Hd, Hfl. eexists. split; [done|]. rewrite <-El, Er in *.
    split; [|split; [done|apply lookup_delete_eq]]. split; [exact Ha'|done|cbn; lia].
  - destruct Hf as (_ & Er & _). rewrite Er. by exists s.
Qed.

Lemma LruMap_put_spec k v s L :
  rep s L -> exists s', LruMap_put k v s = Some s' /\ max_size s' = max_size s /\
    rep s' (take (Z.to_nat (max_size s)) ((k, v) :: without k L)).
Proof.
  intros Hrep.
  destruct (LruMap_erase_spec k s L Hrep) as (s1 & E & [Ha1 E1 Hs1] & Hmax & Hk). unfold LruMap_put. rewrite E.
  cbn [mbind option_bind cache_items_map cache_items_list max_size next_node].
  pose proof (agrees_cons _ _ _ k v Ha1 Hk) as Ha2.
  set (l2 := (next_node s1, (k, v)) :: cache_items_list s1) in *. set (m2 := <[k:=next_node s1]> (cache_items_map s1)) in *.
  assert (El2 : entries l2 = (k, v) :: without k L) by (unfold l2, entries in *; by rewrite fmap_cons, E1).
  rewrite (agrees_size _ _ _ Ha2). assert (Hl2 : length l2 = S (length (without k L))).
  { unfold l2. cbn. by rewrite <-E1, length_entries. }
  rewrite <-Hmax. destruct (Z.of_nat (length l2) >? max_size s1) eqn:Eg; [apply Z.gtb_lt in Eg|rewrite Z.gtb_ltb, Z.ltb_ge in Eg].
  + destruct (agrees_last l2 m2 _ Ha2 ltac:(done)) as (it & k' & v' & Hlast & Ha3 & E3 & _).
    unfold list_back. rewrite Hlast. cbn [fmap option_fmap option_map mbind option_bind snd fst list_pop_back l2].
    eexists. split; [done|]. split; [done|]. split; [exact Ha3| |].
    * unfold with_items. cbn [cache_items_list]. rewrite E3, El2, removelast_take. f_equal. cbn [length]. lia.
    * unfold with_items. cbn [cache_items_list max_size]. rewrite length_take. cbn [length]. lia.
  + eexists. split; [done|]. split; [done|]. rewrite take_ge by (cbn [length]; lia). split; [done|done|].
    cbn [cache_items_list max_size length]. lia.
Qed.

(** C29. (refinement).  [LruMap] implements a list of entries bounded by [max_size], the
    most recently used first: [put] moves its key to the front with the new value and
    drops what exceeds the bound at the back, [get] returns the value and moves the
    entry to the front, [erase] removes the key; no invalid iterator is used. *)
Theorem lru_map_refines s L k v (Hrep : rep s L) :
  (exists s', LruMap_put k v s = Some s' /\ max_size s' = max_size s /\
     rep s' (take (Z.to_nat (max_size s)) ((k, v) :: without k L))) /\
  (exists s', LruMap_get k s = Some (find_key k L, s') /\ max_size s' = max_size s /\
     rep s' (match find_key k L with Some x => (k, x) :: without k L | None => L end)) /\
  (exists s', LruMap_erase k s = Some s' /\ max_size s' = max_size s /\ rep s' (without k L)) /\
  LruMap_exists k s = bool_decide (is_Some (find_key k L)) /\
  LruMap_size s = Z.of_nat (length L).
Proof.
  split; [|split; [|split; [|split]]].
  - by apply LruMap_put_spec.
  - unfold LruMap_get. destruct Hrep as [Ha <- Hs]. pose proof (agrees_find _ _ _ k Ha) as Hf.
    destruct (cache_items_map s !! k) as [it|] eqn:Em.
    + destruct Hf as (l1 & l2 & x & El & Eas & Er). rewrite El in Ha.
      destruct (agrees_middle _ _ _ _ _ _ _ Ha) as (_ & Hd & Hfl & _ & Ha' & _). rewrite Eas, Er.
      rewrite El. unfold list_splice_front. rewrite Hd, Hfl. cbn [mbind option_bind deref]. rewrite decide_True by done.
      cbn [mbind option_bind snd]. eexists. split; [done|]. split; [done|]. split; [exact Ha'|done|].
      cbn [with_items cache_items_list max_size]. unfold entries in *. rewrite El in Hs. cbn.
      rewrite length_fmap, length_app in *. cbn in Hs. lia.
    + destruct Hf as (_ & _ & ->). exists s. split; [done|]. split; [done|]. by split.
  - destruct (LruMap_erase_spec k s L Hrep) as (s1 & E & Hr & Hmax & _). by exists s1.
  - unfold LruMap_exists. destruct Hrep as [Ha <- Hs]. pose proof (agrees_find _ _ _ k Ha) as Hf. apply bool_decide_ext.
    destruct (cache_items_map s !! k) as [it|].
    + destruct Hf as (l1 & l2 & x & _ & -> & _). split; by eexists.
    + destruct Hf as (_ & _ & ->). done.
  - unfold LruMap_size. destruct Hrep as [Ha <- Hs]. by rewrite (agrees_size _ _ _ Ha), length_entries.
Qed.

(** The last value given to each key, the most recent key first. *)
Fixpoint latest (kvs : list (K * V)) : list (K * V) :=
  match kvs with [] => [] | (k, v) :: kvs => (k, v) :: without k (latest kvs) end.
Fixpoint put_all (kvs : list (K * V)) (s : LruMap) : option LruMap :=
  match kvs with [] => Some s | (k, v) :: kvs => s ← LruMap_put k v s; put_all kvs s end.

Lemma latest_NoDup kvs : NoDup (fst <$> latest kvs).
Proof.
  induction kvs as [|[k v] kvs IH]; [constructor|]. cbn. apply NoDup_cons. split.
  - intros (x & E & Hx)%list_elem_of_fmap. apply list_elem_of_filter in Hx as [Hx _]. by apply Hx.
  - unfold without. clear -IH. induction (latest kvs) as [|x L IHL]; [constructor|]. apply NoDup_cons in IH as [Hx HL].
    destruct (decide (fst x <> k)); [rewrite filter_cons_True by done|rewrite filter_cons_False by done; by apply IHL].
    cbn. apply NoDup_cons. split; [|by apply IHL]. intros (y & E & Hy)%list_elem_of_fmap.
    apply list_elem_of_filter in Hy as [_ Hy]. apply Hx, list_elem_of_fmap. by exists y.
Qed.

(** Cutting the list before or after an insertion at the front is the same. *)
Lemma take_without m k L : NoDup (fst <$> L) -> take m (without k (take (S m) L)) = take m (without k L).
Proof.
  revert m. induction L as [|[k' v] L IH]; intros m Hn; [done|]. apply NoDup_cons in Hn as [Hk' Hn].
  rewrite firstn_cons. unfold without. destruct (decide (k' = k)) as [->|Hne].
  - rewrite !filter_cons_False by (intros Hx; by apply Hx). fold (without k (take m L)) (without k L).
    rewrite (without_not_in k L) by done. rewrite without_not_in; [by rewrite take_take, Nat.min_id|].
    intros (x & E & Hx)%list_elem_of_fmap. apply Hk', list_elem_of_fmap. exists x. split; [done|].
    apply elem_of_take in Hx as (? & ? & _). by eapply list_elem_of_lookup_2.
  - rewrite !filter_cons_True by done. destruct m as [|m]; [done|]. rewrite !firstn_cons. f_equal. by apply IH.
Qed.

(** (functional).  After any sequence of [put]s on an empty cache of [n] entries,
    the cache holds the [n] most recently put distinct keys, in that order, each with
    the last value put under it. *)
Theorem lru_map_keeps_recent (n : Z) kvs (Hn : 0 <= n) :
  exists s, put_all kvs (LruMap_new n) = Some s /\ rep s (take (Z.to_nat n) (latest (rev kvs))).
Proof.
  assert (Hgen : forall kvs s L, max_size s = n -> rep s (take (Z.to_nat n) (latest L)) ->
    exists s', put_all kvs s = Some s' /\ rep s' (take (Z.to_nat n) (latest (rev kvs ++ L)))).
  { clear kvs. induction kvs as [|[k v] kvs IH]; intros s L Hm Hr; [by exists s|]. cbn [put_all].
    destruct (LruMap_put_spec k v s _ Hr) as (s' & -> & Hm' & Hr'). rewrite Hm in Hr'. cbn [mbind option_bind rev]. rewrite <-app_assoc. apply (IH s' ((k, v) :: L)); [congruence|].
    cbn [latest]. replace (take (Z.to_nat n) ((k, v) :: without k (latest L)))
      with (take (Z.to_nat n) ((k, v) :: without k (take (Z.to_nat n) (latest L)))); [done|].
    destruct (Z.to_nat n) as [|m]; [done|]. rewrite !firstn_cons. f_equal. apply take_without, latest_NoDup. }
  rewrite <-(app_nil_r (rev kvs)). apply (Hgen kvs (LruMap_new n) []); [done|].
  cbn [latest]. rewrite firstn_nil. split; [apply agrees_nil|done|done].
Qed.

(** *** [MRUCacheBase] *)

Record mru_rep (s : MRUCache) L : Prop := {
  mru_agrees : agrees (ordering_ s) (index_ s) (node_ s);
  mru_entries : entries (ordering_ s) = L
}.

Lemma MRU_size_spec s L : mru_rep s L -> size (index_ s) = length L.
Proof. intros [Ha <-]. by rewrite (agrees_size _ _ _ Ha), length_entries. Qed.

Lemma MRU_Erase_spec s L k it :
  mru_rep s L -> index_ s !! k = Some it ->
  exists s', MRU_Erase it s = Some s' /\ mru_rep s' (without k L) /\ max_size_ s' = max_size_ s /\ index_ s' !! k = None.
Proof.
  intros [Ha <-] Hk. pose proof (agrees_find _ _ _ k Ha) as Hf. rewrite Hk in Hf.
  destruct Hf as (l1 & l2 & v & El & _ & Er). rewrite El in Ha.
  destruct (agrees_middle _ _ _ _ _ _ _ Ha) as (_ & Hd & Hfl & Ha' & _).
  unfold MRU_Erase, list_erase. rewrite El, Hd. cbn [mbind option_bind]. rewrite Hfl. eexists. split; [done|].
  rewrite <-El, Er. split; [by split|]. split; [done|]. apply lookup_delete_eq.
Qed.

Lemma MRU_Erase_last_spec s L :
  mru_rep s L -> L <> [] ->
  exists s', MRU_Erase_last s = Some s' /\ mru_rep s' (removelast L) /\ max_size_ s' = max_size_ s.
Proof.
  intros [Ha <-] Hne. assert (Hne' : ordering_ s <> []) by (intros E; by rewrite E in Hne).
  destruct (agrees_last _ _ _ Ha Hne') as (it & k & v & Hl & Ha' & Ee & Er & Hd).
  unfold MRU_Erase_last, MRU_Erase, list_erase. rewrite Hl. cbn [mbind option_bind fst]. rewrite Hd. cbn [mbind option_bind].
  rewrite <-Er. eexists. split; [done|]. split; [by split|done].
Qed.

Lemma ShrinkToSize_spec n s L :
  mru_rep s L -> 0 <= n ->
  exists s', ShrinkToSize n s = Some s' /\ mru_rep s' (take (Z.to_nat n) L) /\ max_size_ s' = max_size_ s.
Proof.
  intros Hr Hn. unfold ShrinkToSize, MRU_size. rewrite (MRU_size_spec _ _ Hr).
  assert (Hgen : forall fuel s L, mru_rep s L -> (length L < fuel)%nat ->
    exists s', ShrinkToSize_loop fuel (Z.of_nat (length L)) n s = Some s' /\ mru_rep s' (take (Z.to_nat n) L) /\
      max_size_ s' = max_size_ s).
  { clear s L Hr. induction fuel as [|fuel IH]; intros s L Hr Hf; [lia|]. cbn [ShrinkToSize_loop]. rewrite Z.gtb_ltb.
    destruct (Z.ltb_spec n (Z.of_nat (length L))) as [Hlt|Hge].
    - destruct (MRU_Erase_last_spec s L Hr) as (s1 & -> & Hr1 & Hm1); [by intros ->; cbn in Hlt; lia|].
      cbn [mbind option_bind]. rewrite removelast_take in Hr1.
      destruct (IH s1 _ Hr1) as (s2 & E & Hr2 & Hm2); [rewrite length_take; lia|].
      rewrite length_take in E. replace (Z.of_nat (length L) - 1) with (Z.of_nat ((length L - 1) `min` length L)) by lia.
      rewrite E. exists s2. split; [done|]. split; [|congruence]. rewrite take_take in Hr2.
      by replace (Z.to_nat n `min` (length L - 1))%nat with (Z.to_nat n) in Hr2 by lia.
    - exists s. split; [done|]. split; [|done]. by rewrite take_ge by lia. }
  apply Hgen; [done|lia].
Qed.

(** (refinement).  [MRUCacheBase] implements a list of entries, the most recently
    used first: [Put] inserts at the front, first dropping the old entry of the key or,
    for a new key and unless the bound is [NO_AUTO_EVICT], what exceeds the bound less
    one; [Get] moves to the front, [Peek] does not; [Erase] and [ShrinkToSize] remove;
    what [Put] and [Get] return refers to the first element, with the key and its
    payload. *)
Theorem mru_cache_refines s L k v n (Hrep : mru_rep s L) (Hmax : is_uint 64 (max_size_ s)) (Hn : 0 <= n) :
  (exists it s', MRU_Put k v s = Some (it, s') /\ deref it (ordering_ s') = Some (k, v) /\
     mru_rep s' ((k, v) :: match find_key k L with
       | Some _ => without k L
       | None => if max_size_ s =? NO_AUTO_EVICT then L else take (Z.to_nat (max_size_ s - 1)) L end)) /\
  (exists o s', MRU_Get k s = Some (o, s') /\
     match find_key k L with
     | Some x => (exists it, o = Some it /\ deref it (ordering_ s') = Some (k, x)) /\ mru_rep s' ((k, x) :: without k L)
     | None => o = None /\ s' = s
     end) /\
  match find_key k L with
  | Some x => exists it s', MRU_Peek k s = Some it /\ deref it (ordering_ s) = Some (k, x) /\
                MRU_Erase it s = Some s' /\ mru_rep s' (without k L)
  | None => MRU_Peek k s = None
  end /\
  (exists s', ShrinkToSize n s = Some s' /\ mru_rep s' (take (Z.to_nat n) L)) /\
  MRU_size s = Z.of_nat (length L) /\ MRU_empty s = bool_decide (L = []) /\ mru_rep (MRU_Clear s) [].
Proof.
  pose proof Hrep as [Ha El]. pose proof (agrees_find _ _ _ k Ha) as Hf. rewrite El in Hf.
  assert (Hfront : forall s1 L1, mru_rep s1 L1 -> index_ s1 !! k = None -> agrees ((node_ s1, (k, v)) :: ordering_ s1)
     (<[k := node_ s1]> (index_ s1)) (N.succ (node_ s1)) /\ entries ((node_ s1, (k, v)) :: ordering_ s1) = (k, v) :: L1).
  { intros s1 L1 [Ha1 El1] Hk. split; [by apply agrees_cons|]. unfold entries in *. by rewrite fmap_cons, El1. }
  split; [|split; [|split; [|split; [|split; [|split]]]]].
  - unfold MRU_Put. destruct (index_ s !! k) as [it|] eqn:Ek.
    + destruct Hf as (_ & _ & x & _ & -> & _). destruct (MRU_Erase_spec s L k it Hrep Ek) as (s1 & -> & Hr1 & Hm1 & Hk1).
      cbn [mbind option_bind]. rewrite Hk1. destruct (Hfront s1 _ Hr1 Hk1) as [Hf1 Hf2].
      do 2 eexists. split; [done|]. split; [cbn; by rewrite decide_True|]. by split.
    + destruct Hf as (Hno & _ & ->). unfold NO_AUTO_EVICT. destruct (Z.eqb_spec (max_size_ s) 0) as [E0|E0]; cbn [negb].
      * cbn [mbind option_bind]. rewrite Ek. destruct (Hfront s _ Hrep Ek) as [Hf1 Hf2].
        do 2 eexists. split; [done|]. split; [cbn; by rewrite decide_True|]. by split.
      * rewrite wrap_small by (unfold is_uint in *; lia).
        destruct (ShrinkToSize_spec (max_size_ s - 1) s L Hrep) as (s1 & -> & Hr1 & Hm1); [unfold is_uint in Hmax; lia|].
        cbn [mbind option_bind]. assert (Hk1 : index_ s1 !! k = None).
        { destruct Hr1 as [Ha1 El1]. pose proof (agrees_find _ _ _ k Ha1) as Hf1. destruct (index_ s1 !! k) as [it|]; [|done].
          destruct Hf1 as (l1 & l2 & x & El2 & _). exfalso. apply Hno. rewrite keys_entries, El.
          assert (Hin : (k, x) ∈ take (Z.to_nat (max_size_ s - 1)) L).
          { rewrite <-El1, El2. unfold entries. rewrite fmap_app. apply elem_of_app. right. by left. }
          apply elem_of_take in Hin as (i & Hi & _). apply list_elem_of_fmap. exists (k, x). split; [done|].
          by eapply list_elem_of_lookup_2. }
        rewrite Hk1. destruct (Hfront s1 _ Hr1 Hk1) as [Hf1 Hf2].
        do 2 eexists. split; [done|]. split; [cbn; by rewrite decide_True|]. by split.
  - unfold MRU_Get. destruct (index_ s !! k) as [it|] eqn:Ek.
    + destruct Hf as (l1 & l2 & x & El1 & -> & Er). rewrite El1 in Ha.
      destruct (agrees_middle _ _ _ _ _ _ _ Ha) as (_ & Hd & Hfl & _ & Ha' & _).
      unfold list_splice_front. rewrite El1, Hd. cbn [mbind option_bind]. rewrite Hfl. do 2 eexists. split; [done|].
      split; [exists it; split; [done|]; cbn; by rewrite decide_True|]. split; [exact Ha'|]. rewrite Er. done.
    + destruct Hf as (_ & _ & ->). by exists None, s.
  - unfold MRU_Peek. destruct (index_ s !! k) as [it|] eqn:Ek.
    + destruct (MRU_Erase_spec s L k it Hrep Ek) as (s1 & E1 & Hr1 & _).
      destruct Hf as (l1 & l2 & x & El1 & -> & _). exists it, s1. split; [done|]. split; [|done].
      rewrite El1 in Ha |- *. by destruct (agrees_middle _ _ _ _ _ _ _ Ha) as (_ & Hd & _).
    + by destruct Hf as (_ & _ & ->).
  - destruct (ShrinkToSize_spec n s L Hrep Hn) as (s1 & E & Hr & _). by exists s1.
  - unfold MRU_size. by rewrite (MRU_size_spec s L).
  - unfold MRU_empty. apply bool_decide_ext. rewrite <-El. unfold entries. by destruct (ordering_ s).
  - split; [apply agrees_nil|done].
Qed.
End properties.

(** ** Witnesses *)

Lemma lru_map_refines_witness :
  exists s', LruMap_put 7 70 (LruMap_new 2 : LruMap.LruMap) = Some s' /\ rep s' [(7, 70)].
Proof.
  assert (Hr : rep (LruMap_new 2 : LruMap.LruMap (K := Z) (V := Z)) []) by (split; [apply agrees_nil|done|cbn; lia]).
  destruct (lru_map_refines _ [] 7 70 Hr) as ((s' & E & _ & Hs') & _). by exists s'.
Defined.

Lemma lru_map_keeps_recent_witness :
  exists s, put_all [(1, 10); (2, 20); (1, 11); (3, 30)] (LruMap_new 2) = Some s /\ rep s [(3, 30); (1, 11)].
Proof.
  destruct (lru_map_keeps_recent 2 [(1, 10); (2, 20); (1, 11); (3, 30)] ltac:(lia)) as (s & E & Hs). by exists s.
Defined.

Lemma mru_cache_refines_witness :
  exists it s', MRU_Put 7 70 (MRUCache_new 2) = Some (it, s') /\ mru_rep s' [(7, 70)].
Proof.
  assert (Hr : mru_rep (MRUCache_new 2 : LruMap.MRUCache (K := Z) (V := Z)) []) by (split; [apply agrees_nil|done]).
  destruct (mru_cache_refines _ [] 7 70 0 Hr ltac:(by vm_compute) ltac:(lia)) as ((it & s' & E & _ & Hs') & _). by exists it, s'.
Defined.
