(* ===== verification/Decimal.v ===== *)
(** * Decimal: integers as text, [src/util/string_util.cpp]

    Digit counting, printing into a buffer, and the strict parser [string2ll].  A buffer is
    the list of its bytes and a pointer into it a position; an access out of the
    buffer is [None]. *)

From Stdlib Require Strings.String.
From S2P Require Import Prelude.
#[local] Open Scope Z_scope.

(** ** Memory, characters and 64-bit integers *)

Definition poke (buffer : bytes) (i : Z) (c : byte) : option bytes :=
  if (0 <=? i) && (i <? Z.of_nat (length buffer)) then Some (<[Z.to_nat i := c]> buffer) else None.

Definition nul : byte := x00.
Definition minus : byte := x2d.
(** [d + '0'] stored in a [char]. *)
Definition digit (d : Z) : byte := to_byte (48 + d).
(** [c >= '0' && c <= '9']; also [isdigit] of the C locale. *)
Definition isdigit (c : byte) : bool := (48 <=? schar c) && (schar c <=? 57).
Definition digit_of (c : byte) : Z := schar c - 48.

Definition LLONG_MAX : Z := 2 ^ 63 - 1.
Definition LLONG_MIN : Z := - 2 ^ 63.
Definition ULLONG_MAX : Z := 2 ^ 64 - 1.
Definition is_int64 (v : Z) : Prop := LLONG_MIN <= v <= LLONG_MAX.
(** Signed 64-bit arithmetic that overflows is undefined; a conversion wraps. *)
Definition int64 (z : Z) : option Z := if (LLONG_MIN <=? z) && (z <=? LLONG_MAX) then Some z else None.
Abbreviation i64 := (swrap 64).

(** ** Printing *)

(** The loop writes the digits from the least significant on; [std::reverse] turns
    them round. *)
Fixpoint ToBufferLeft_loop (fuel : nat) (i : Z) (buffer : bytes) (p : Z) : option (bytes * Z) :=
  match fuel with
  | O => None
  | S fuel =>
      buffer ← poke buffer p (to_byte (i mod 10 + 48));
      let i := i / 10 in
      if i >? 0 then ToBufferLeft_loop fuel i buffer (p + 1) else Some (buffer, p + 1)
  end.
Definition reverse (buffer : bytes) (start end_ : Z) : bytes :=
  take (Z.to_nat start) buffer ++
  rev (take (Z.to_nat (end_ - start)) (drop (Z.to_nat start) buffer)) ++ drop (Z.to_nat end_) buffer.

(** The buffer and the pointer returned, at the NUL.  A 32-bit number has at most 10
    digits, a 64-bit one 20. *)
Definition FastUInt32ToBufferLeft (i : Z) (buffer : bytes) (start : Z) : option (bytes * Z) :=
  '(buffer, p) ← ToBufferLeft_loop 10 i buffer start;
  buffer ← poke buffer p nul;
  Some (reverse buffer start p, p).
Definition FastUInt64ToBufferLeft (i : Z) (buffer : bytes) (start : Z) : option (bytes * Z) :=
  '(buffer, p) ← ToBufferLeft_loop 20 i buffer start;
  buffer ← poke buffer p nul;
  Some (reverse buffer start p, p).

Definition FastInt32ToBufferLeft (i : Z) (buffer : bytes) (p : Z) : option (bytes * Z) :=
  let u := u32 i in
  if i <? 0 then
    buffer ← poke buffer p minus;
    FastUInt32ToBufferLeft (u32 (0 - u)) buffer (p + 1)
  else FastUInt32ToBufferLeft u buffer p.
Definition FastInt64ToBufferLeft (i : Z) (buffer : bytes) (p : Z) : option (bytes * Z) :=
  let u := u64 i in
  if i <? 0 then
    buffer ← poke buffer p minus;
    FastUInt64ToBufferLeft (u64 (0 - u)) buffer (p + 1)
  else FastUInt64ToBufferLeft u buffer p.

(** [digits10] calls itself once at most on a 64-bit number. *)
Fixpoint digits10_fuel (fuel : nat) (v : Z) : option Z :=
  match fuel with
  | O => None
  | S fuel =>
      if v <? 10 then Some 1
      else if v <? 100 then Some 2
      else if v <? 1000 then Some 3
      else if v <? 1000000000000 then
        if v <? 100000000 then
          if v <? 1000000 then
            if v <? 10000 then Some 4
            else Some (5 + (if v >=? 100000 then 1 else 0))
          else Some (7 + (if v >=? 10000000 then 1 else 0))
        else if v <? 10000000000 then Some (9 + (if v >=? 1000000000 then 1 else 0))
        else Some (11 + (if v >=? 100000000000 then 1 else 0))
      else n ← digits10_fuel fuel (v / 1000000000000); Some (12 + n)
  end.
Definition digits10 (v : Z) : option Z := digits10_fuel 2 v.

(** [|v|] as an unsigned number, the least integer apart. *)
Definition unsigned_abs (v : Z) : option Z :=
  if negb (v =? LLONG_MIN) then v ← int64 (- v); Some (u64 v) else Some (u64 (u64 LLONG_MAX + 1)).
Definition sdigits10 (v : Z) : option Z :=
  if v <? 0 then uv ← unsigned_abs v; n ← digits10 uv; Some (n + 1) else digits10 (u64 v).

Section table.
Import Strings.String.
Definition digits : bytes := flat_map String.list_byte_of_string
  ["0001020304050607080910111213141516171819"%string;
   "2021222324252627282930313233343536373839"%string;
   "4041424344454647484950515253545556575859"%string;
   "6061626364656667686970717273747576777879"%string;
   "8081828384858687888990919293949596979899"%string].
End table.

(** Two digits at a time, from the end. *)
Definition put_pair (value : Z) (dst : bytes) (next : Z) : option bytes :=
  let i := value * 2 in
  hi ← digits !! Z.to_nat i;
  lo ← digits !! Z.to_nat (i + 1);
  dst ← poke dst next lo;
  poke dst (u32 (next - 1)) hi.
Fixpoint ll2string_loop (fuel : nat) (value : Z) (dst : bytes) (next : Z) : option (Z * bytes * Z) :=
  if value >=? 100 then
    match fuel with
    | O => None
    | S fuel =>
        dst ← put_pair (value mod 100) dst next;
        ll2string_loop fuel (value / 100) dst (u32 (next - 2))
    end
  else Some (value, dst, next).
(** The number returned and the buffer.  The loop removes two of at most 20 digits in
    each round and stops at two: nine rounds. *)
Definition ll2string (dst : bytes) (dstlen svalue : Z) : option (Z * bytes) :=
  '(value, negative) ← (if svalue <? 0 then v ← unsigned_abs svalue; Some (v, 1) else Some (u64 svalue, 0));
  n ← digits10 value;
  let length := u32 (n + negative) in
  if length >=? dstlen then Some (0, dst)
  else
    dst ← poke dst length nul;
    '(value, dst, next) ← ll2string_loop 9 value dst (u32 (length - 1));
    dst ← (if value <? 10 then poke dst next (to_byte (48 + value)) else put_pair value dst next);
    dst ← (if negative =? 1 then poke dst 0 minus else Some dst);
    Some (length, dst).

(** ** The strict parser *)

(** The loop over the remaining digits, checking each of the two operations. *)
Fixpoint string2ll_loop (p : bytes) (v : Z) : option (bytes * Z) :=
  match p with
  | [] => Some ([], v)
  | c :: p' =>
      if isdigit c then
        if v >? ULLONG_MAX / 10 then None
        else
          let v := u64 (v * 10) in
          if v >? ULLONG_MAX - digit_of c then None
          else string2ll_loop p' (u64 (v + digit_of c))
      else Some (p, v)
  end.
(** [Some v] is a return value of 1 with [v] stored. *)
Definition string2ll (s : bytes) : option Z :=
  if bool_decide (s = []) then None
  else if bool_decide (s = [digit 0]) then Some 0
  else
    let negative := bool_decide (head s = Some minus) in
    let p := if negative then tail s else s in
    c ← head p;
    if (49 <=? schar c) && (schar c <=? 57) then
      '(rest, v) ← string2ll_loop (tail p) (digit_of c);
      if negb (bool_decide (rest = [])) then None
      else if negative then
        if v >? u64 (u64 (- (LLONG_MIN + 1)) + 1) then None else Some (i64 (u64 (- v)))
      else if v >? LLONG_MAX then None else Some v
    else None.
(** On LP64 a [long] has the range of an [int64_t]. *)
Definition string2l (s : bytes) : option Z :=
  v ← string2ll s; if (v <? LLONG_MIN) || (v >? LLONG_MAX) then None else Some v.

(** ** Decimal notation *)

(** [s] is the decimal notation of [v]. *)
Inductive decimal : Z -> bytes -> Prop :=
  | decimal_digit d : 0 <= d < 10 -> decimal d [digit d]
  | decimal_more v s : 0 < v / 10 -> decimal (v / 10) s -> decimal v (s ++ [digit (v mod 10)]).

(** With a sign. *)
Definition signed_decimal (v : Z) (s : bytes) : Prop :=
  if v <? 0 then exists t, s = minus :: t /\ decimal (- v) t else decimal v s.

(** The number a string of digits stands for, after what was read before. *)
Definition value (acc : Z) (s : bytes) : Z := foldl (fun a c => 10 * a + digit_of c) acc s.

Lemma all_digits (P : Z -> Prop) :
  P 0 -> P 1 -> P 2 -> P 3 -> P 4 -> P 5 -> P 6 -> P 7 -> P 8 -> P 9 -> forall d, 0 <= d < 10 -> P d.
Proof.
  intros. assert (d = 0 \/ d = 1 \/ d = 2 \/ d = 3 \/ d = 4 \/ d = 5 \/ d = 6 \/ d = 7 \/ d = 8 \/ d = 9) as
    [->|[->|[->|[->|[->|[->|[->|[->|[->| ->]]]]]]]]] by lia; done.
Qed.

Lemma digit_of_digit d : 0 <= d < 10 -> digit_of (digit d) = d.
Proof. revert d. by apply all_digits. Qed.
Lemma isdigit_digit d : 0 <= d < 10 -> isdigit (digit d) = true.
Proof. revert d. by apply all_digits. Qed.
Lemma isdigit_inv c : isdigit c = true -> 0 <= digit_of c < 10 /\ digit (digit_of c) = c.
Proof. by_byte c. all: intros _; split; [split; congruence|done]. Qed.

Lemma mod10 v : 0 <= v mod 10 < 10.
Proof. by apply Z.mod_pos_bound. Qed.
#[local] Hint Resolve mod10 : core.

Lemma decimal_nonneg v s : decimal v s -> 0 <= v.
Proof. induction 1; [lia|]. pose proof (Z.div_mod v 10). pose proof (mod10 v). lia. Qed.

Lemma decimal_nonempty v s : decimal v s -> s <> [].
Proof. destruct 1; [done|]. by destruct s. Qed.

Lemma decimal_digits v s : decimal v s -> Forall (fun c => isdigit c = true) s.
Proof.
  induction 1; [by repeat constructor; apply isdigit_digit|].
  apply Forall_app. split; [done|]. repeat constructor. by apply isdigit_digit.
Qed.

Lemma value_app acc s t : value acc (s ++ t) = value (value acc s) t.
Proof. apply foldl_app. Qed.

Lemma decimal_value v s : decimal v s -> value 0 s = v.
Proof.
  induction 1 as [d Hd|v s Hv _ IH]; [cbn; rewrite digit_of_digit; lia|].
  rewrite value_app, IH. cbn. rewrite digit_of_digit by done. pose proof (Z.div_mod v 10). lia.
Qed.

(** Every number has exactly one decimal notation. *)
Lemma decimal_total v : 0 <= v -> exists s, decimal v s.
Proof.
  intros Hv. induction (Z.lt_wf 0 v) as [v _ IH]. destruct (Z.lt_ge_cases v 10).
  - exists [digit v]. by constructor.
  - assert (0 < v / 10 < v) by (split; [apply Z.div_str_pos|apply Z.div_lt]; lia).
    destruct (IH (v / 10)) as [s Hs]; [lia..|]. eexists. apply decimal_more; [lia|exact Hs].
Qed.

Lemma decimal_fun v s t : decimal v s -> decimal v t -> s = t.
Proof.
  intros Hs. revert t. induction Hs as [d Hd|v s Hv _ IH]; intros t Ht; inversion Ht; subst; try done.
  - rewrite Z.div_small in *; lia.
  - rewrite Z.div_small in *; lia.
  - f_equal. by apply IH.
Qed.

Lemma digit_0_iff c : isdigit c = true -> digit_of c = 0 <-> c = digit 0.
Proof. by_byte c; intros; split; congruence. Qed.

Lemma value_pos acc s : Forall (fun c => isdigit c = true) s -> 0 <= acc -> acc <= value acc s.
Proof.
  intros Hs. revert acc. induction Hs as [|c s Hc _ IH]; intros acc Ha; [done|].
  cbn [value foldl]. apply isdigit_inv in Hc. specialize (IH (10 * acc + digit_of c) ltac:(lia)).
  unfold value in IH. lia.
Qed.

(** A string of digits without a leading zero is the notation of its value. *)
Lemma decimal_of_digits s :
  Forall (fun c => isdigit c = true) s -> s <> [] -> head s <> Some (digit 0) -> decimal (value 0 s) s.
Proof.
  induction s as [|c s IH] using rev_ind; intros Hd Hne Hh; [done|].
  apply Forall_app in Hd as [Hd Hc]. apply Forall_cons_iff in Hc as [Hc _]. destruct (isdigit_inv c Hc) as [Hr Hi].
  rewrite value_app. change (value ?a [c]) with (10 * a + digit_of c). destruct s as [|c0 s].
  { change (value 0 []) with 0. cbn [app]. rewrite Z.mul_0_r, Z.add_0_l. rewrite <-Hi at 2. by constructor. }
  set (q := value 0 (c0 :: s)) in *.
  assert (Hq : 0 < q).
  { apply Forall_cons_iff in Hd as [Hc0 Hd]. destruct (isdigit_inv c0 Hc0).
    assert (digit_of c0 <> 0) by (rewrite digit_0_iff by done; intros ->; done).
    pose proof (value_pos (10 * 0 + digit_of c0) s Hd ltac:(lia)) as Hp. change q with (value (10 * 0 + digit_of c0) s). lia. }
  assert (Ed : (10 * q + digit_of c) / 10 = q).
  { rewrite (Z.mul_comm 10), Z.div_add_l, Z.div_small by lia. lia. }
  assert (Em : (10 * q + digit_of c) mod 10 = digit_of c).
  { rewrite Z.add_comm, Z.mul_comm, Z.mod_add, Z.mod_small by lia. done. }
  rewrite <-Hi at 2. rewrite <-Em at 2. apply decimal_more; rewrite Ed; [done|]. by apply IH.
Qed.

Lemma decimal_head_zero v s : decimal v s -> head s = Some (digit 0) -> s = [digit 0].
Proof.
  induction 1 as [d Hd|v s Hv Hs IH]; cbn.
  - intros [= E]. apply (f_equal digit_of) in E. rewrite !digit_of_digit in E by lia. by subst.
  - intros Hh. pose proof (decimal_nonempty _ _ Hs). destruct s as [|c s]; [done|].
    rewrite IH in Hs by done. inversion Hs as [d Hd E1 E2|? s' Hv' Hs' E1 E2].
    + apply (f_equal digit_of) in E2. rewrite !digit_of_digit in E2 by lia. lia.
    + by pose proof (decimal_nonempty _ _ Hs'); destruct s' as [|? []].
Qed.

(** The length: a number of [n] digits is below [10^n] and, unless it is one digit, at
    least [10^(n-1)]. *)
Lemma decimal_length v s :
  decimal v s -> v < 10 ^ Z.of_nat (length s) /\ (length s = 1%nat \/ 10 ^ (Z.of_nat (length s) - 1) <= v).
Proof.
  induction 1 as [d Hd|v s Hv Hs [IH1 IH2]]; [split; [change (10 ^ _) with 10; lia|by left]|].
  rewrite length_app. cbn [length]. replace (Z.of_nat (length s + 1)) with (Z.succ (Z.of_nat (length s))) by lia.
  rewrite Z.pow_succ_r by lia. pose proof (Z.div_mod v 10 ltac:(lia)). pose proof (mod10 v).
  split; [lia|]. right. replace (Z.succ _ - 1) with (Z.of_nat (length s)) by lia.
  destruct IH2 as [->|IH2]; [change (10 ^ _) with 10; lia|].
  assert (1 <= Z.of_nat (length s)) by (pose proof (decimal_nonempty _ _ Hs); destruct s; [done|cbn; lia]).
  replace (Z.of_nat (length s)) with (Z.succ (Z.of_nat (length s) - 1)) by lia. rewrite Z.pow_succ_r by lia. lia.
Qed.

Lemma decimal_length_iff v s n :
  decimal v s -> (1 <= n) -> v < 10 ^ n -> n = 1 \/ 10 ^ (n - 1) <= v -> Z.of_nat (length s) = n.
Proof.
  intros Hs Hn Hu Hl. destruct (decimal_length v s Hs) as [Hu' Hl'].
  assert (1 <= Z.of_nat (length s)) by (pose proof (decimal_nonempty _ _ Hs); destruct s; [done|cbn; lia]).
  assert (~ n < Z.of_nat (length s)).
  { intros Hlt. destruct Hl' as [E|Hl']; [lia|].
    pose proof (Z.pow_le_mono_r 10 n (Z.of_nat (length s) - 1) ltac:(lia) ltac:(lia)). lia. }
  assert (~ Z.of_nat (length s) < n).
  { intros Hlt. destruct Hl as [E|Hl]; [lia|].
    pose proof (Z.pow_le_mono_r 10 (Z.of_nat (length s)) (n - 1) ltac:(lia) ltac:(lia)). lia. }
  lia.
Qed.

(** ** Buffers *)

Lemma poke_app l x r c i : i = Z.of_nat (length l) -> poke (l ++ x :: r) i c = Some (l ++ c :: r).
Proof.
  intros ->. unfold poke. rewrite length_app. cbn [length].
  rewrite (proj2 (Z.leb_le _ _)), (proj2 (Z.ltb_lt _ _)) by lia. cbn [andb]. f_equal.
  rewrite Nat2Z.id. by rewrite insert_app_r_alt, Nat.sub_diag.
Qed.

Lemma gtb_true a b : b < a -> (a >? b) = true.
Proof. intros. rewrite Z.gtb_ltb. by apply Z.ltb_lt. Qed.
Lemma gtb_false a b : a <= b -> (a >? b) = false.
Proof. intros. rewrite Z.gtb_ltb. by apply Z.ltb_ge. Qed.
Lemma geb_true a b : b <= a -> (a >=? b) = true.
Proof. intros. rewrite Z.geb_leb. by apply Z.leb_le. Qed.
Lemma geb_false a b : a < b -> (a >=? b) = false.
Proof. intros. rewrite Z.geb_leb. by apply Z.leb_gt. Qed.

Lemma to_digit d : to_byte (d + 48) = digit d.
Proof. unfold digit. by rewrite Z.add_comm. Qed.

Lemma ToBufferLeft_loop_spec v s :
  decimal v s -> forall fuel pre old post, (length s <= fuel)%nat -> length old = length s ->
  ToBufferLeft_loop fuel v (pre ++ old ++ post) (Z.of_nat (length pre)) =
    Some (pre ++ rev s ++ post, Z.of_nat (length pre + length s)).
Proof.
  induction 1 as [d Hd|v s Hv Hs IH]; intros [|fuel] pre old post Hf Hl; [cbn in Hf; lia| |rewrite length_app in Hf; cbn in Hf; lia|].
  - destruct old as [|x []]; [done| |done]. cbn [ToBufferLeft_loop]. cbn [app]. rewrite poke_app by done.
    cbn [mbind option_bind]. rewrite Z.mod_small, Z.div_small by done. change (0 >? 0) with false. cbn iota.
    rewrite to_digit. cbn [rev app length]. do 2 f_equal. lia.
  - rewrite length_app, Nat.add_1_r in *. destruct old as [|x old]; [done|]. injection Hl as Hl.
    cbn [ToBufferLeft_loop]. cbn [app]. rewrite poke_app by done. cbn [mbind option_bind].
    rewrite gtb_true by done. rewrite to_digit. rewrite (cons_middle _ pre). rewrite app_assoc.
    replace (Z.of_nat (length pre) + 1) with (Z.of_nat (length (pre ++ [digit (v mod 10)]))) by (rewrite length_app; cbn; lia).
    rewrite IH by (done || lia). rewrite rev_app_distr, length_app. cbn [rev app length]. rewrite <-app_assoc. cbn [app].
    do 2 f_equal. lia.
Qed.

(** The common end of the two printers. *)
Lemma ToBufferLeft_spec v s fuel pre old y post :
  decimal v s -> (length s <= fuel)%nat -> length old = length s ->
  ('(buffer, p) ← ToBufferLeft_loop fuel v (pre ++ old ++ y :: post) (Z.of_nat (length pre));
   buffer ← poke buffer p nul; Some (reverse buffer (Z.of_nat (length pre)) p, p)) =
  Some (pre ++ s ++ nul :: post, Z.of_nat (length pre + length s)).
Proof.
  intros Hs Hf Hl. rewrite (ToBufferLeft_loop_spec v s Hs) by done. cbn [mbind option_bind].
  rewrite app_assoc. rewrite poke_app by (rewrite length_app, length_rev; done). cbn [mbind option_bind].
  do 2 f_equal. unfold reverse. rewrite <-app_assoc, !Nat2Z.id.
  replace (Z.to_nat (_ - _)) with (length s) by lia.
  rewrite take_app_length, drop_app_length. rewrite take_app_length' by (by rewrite length_rev).
  rewrite rev_involutive. rewrite (app_assoc pre (rev s)), drop_app_length' by (rewrite length_app, length_rev; lia).
  done.
Qed.

(** ** Counting digits *)

Lemma digits10_small fuel v s : decimal v s -> v < 10 ^ 12 -> digits10_fuel (S fuel) v = Some (Z.of_nat (length s)).
Proof.
  intros Hs Hv. pose proof (decimal_nonneg v s Hs). pose proof (decimal_length_iff v s) as Hl. cbn [digits10_fuel].
  repeat match goal with |- context [if ?a <? ?b then _ else _] => destruct (Z.ltb_spec a b) end;
  try (rewrite Z.geb_leb; match goal with |- context [?a <=? ?b] => destruct (Z.leb_spec a b) end);
  try (f_equal; symmetry; apply Hl; [done|lia|lia|lia]). lia.
Qed.

Lemma decimal_drop12 v s : decimal v s -> 10 ^ 12 <= v ->
  exists s', decimal (v / 10 ^ 12) s' /\ Z.of_nat (length s) = 12 + Z.of_nat (length s').
Proof.
  intros Hs Hv. assert (Hd : 0 < v / 10 ^ 12) by (by apply Z.div_str_pos).
  destruct (decimal_total (v / 10 ^ 12) ltac:(lia)) as [s' Hs']. exists s'. split; [done|].
  destruct (decimal_length _ _ Hs') as [Hu Hl]. pose proof (Z.div_mod v (10 ^ 12) ltac:(lia)).
  pose proof (Z.mod_pos_bound v (10 ^ 12) ltac:(lia)).
  apply (decimal_length_iff v s); [done|lia| |right].
  - rewrite Z.pow_add_r by lia. nia.
  - destruct Hl as [->|Hl]; [done|].
    assert (1 <= Z.of_nat (length s')) by (pose proof (decimal_nonempty _ _ Hs'); destruct s'; [done|cbn; lia]).
    replace (12 + Z.of_nat (length s') - 1) with (12 + (Z.of_nat (length s') - 1)) by lia.
    rewrite Z.pow_add_r by lia. nia.
Qed.

Lemma digits10_spec v s : is_uint 64 v -> decimal v s -> digits10 v = Some (Z.of_nat (length s)).
Proof.
  intros [H0 H64] Hs. unfold digits10. destruct (Z.lt_ge_cases v (10 ^ 12)).
  - by apply digits10_small.
  - destruct (decimal_drop12 v s Hs ltac:(lia)) as (s' & Hs' & ->). cbn [digits10_fuel].
    do 4 (rewrite (proj2 (Z.ltb_ge _ _)) by lia). fold (digits10_fuel 1 (v / 1000000000000)).
    change 1000000000000 with (10 ^ 12) in *. erewrite digits10_small; [|exact Hs'|].
    + done.
    + apply Z.div_lt_upper_bound; lia.
Qed.

Lemma decimal_length_64 v s : is_uint 64 v -> decimal v s -> (1 <= length s <= 20)%nat.
Proof.
  intros [H0 H64] Hs. pose proof (decimal_nonempty _ _ Hs). destruct (decimal_length v s Hs) as [_ [->|Hl]]; [lia|].
  split; [destruct s; [done|cbn; lia]|]. destruct (Nat.le_gt_cases (length s) 20) as [|Hgt]; [done|].
  pose proof (Z.pow_le_mono_r 10 20 (Z.of_nat (length s) - 1) ltac:(lia) ltac:(lia)). lia.
Qed.
Lemma decimal_length_32 v s : is_uint 32 v -> decimal v s -> (1 <= length s <= 10)%nat.
Proof.
  intros [H0 H64] Hs. pose proof (decimal_nonempty _ _ Hs). destruct (decimal_length v s Hs) as [_ [->|Hl]]; [lia|].
  split; [destruct s; [done|cbn; lia]|]. destruct (Nat.le_gt_cases (length s) 10) as [|Hgt]; [done|].
  pose proof (Z.pow_le_mono_r 10 10 (Z.of_nat (length s) - 1) ltac:(lia) ltac:(lia)). lia.
Qed.

Lemma i64_small v : is_int64 v -> int64 v = Some v.
Proof. intros [H1 H2]. unfold int64. by rewrite (proj2 (Z.leb_le _ _) H1), (proj2 (Z.leb_le _ _) H2). Qed.

Lemma unsigned_abs_spec v : is_int64 v -> v < 0 -> unsigned_abs v = Some (- v).
Proof.
  intros [Hv1 Hv2] Hneg. unfold unsigned_abs. change LLONG_MIN with (-9223372036854775808) in *.
  change LLONG_MAX with 9223372036854775807 in *.
  destruct (Z.eqb_spec v (-9223372036854775808)) as [->|]; cbn [negb]; [done|].
  rewrite i64_small by (unfold is_int64; change LLONG_MIN with (-9223372036854775808);
    change LLONG_MAX with 9223372036854775807; lia).
  cbn [mbind option_bind]. rewrite wrap_small by (unfold is_uint; lia). done.
Qed.

(** ** Two digits at a time *)

Lemma digits_pair v : 0 <= v < 100 ->
  digits !! Z.to_nat (v * 2) = Some (digit (v / 10)) /\ digits !! Z.to_nat (v * 2 + 1) = Some (digit (v mod 10)).
Proof.
  intros Hv. assert (Hall : forallb (fun k => let v := Z.of_nat k in
    bool_decide (digits !! Z.to_nat (v * 2) = Some (digit (v / 10))) &&
    bool_decide (digits !! Z.to_nat (v * 2 + 1) = Some (digit (v mod 10)))) (seq 0 100) = true) by (by vm_compute).
  rewrite forallb_forall in Hall. specialize (Hall (Z.to_nat v) ltac:(apply in_seq; lia)). cbn zeta in Hall.
  rewrite Z2Nat.id in Hall by lia. apply andb_true_iff in Hall as [H1 H2].
  split; [by apply bool_decide_eq_true in H1|by apply bool_decide_eq_true in H2].
Qed.

Lemma put_pair_spec v pre x y post next :
  0 <= v < 100 -> next = Z.of_nat (length pre) + 1 -> is_uint 32 next ->
  put_pair v (pre ++ x :: y :: post) next = Some (pre ++ digit (v / 10) :: digit (v mod 10) :: post).
Proof.
  intros Hv -> Hn. destruct (digits_pair v Hv) as [E1 E2]. unfold put_pair. rewrite E1, E2. cbn [mbind option_bind].
  rewrite (cons_middle _ pre), app_assoc.
  rewrite poke_app by (rewrite length_app; cbn; lia). cbn [mbind option_bind].
  rewrite <-app_assoc. cbn [app]. rewrite wrap_small by (unfold is_uint in *; lia). by rewrite poke_app by lia.
Qed.

Lemma decimal_split2 v s : decimal v s -> 100 <= v ->
  exists s', s = s' ++ [digit (v mod 100 / 10); digit (v mod 100 mod 10)] /\ decimal (v / 100) s'.
Proof.
  intros Hs Hv. inversion Hs as [|? s1 H1 Hs1]; subst; [lia|].
  inversion Hs1 as [d Hd E|? s2 H2 Hs2]; subst.
  - assert (10 <= v / 10) by (by apply (Z.div_le_lower_bound v 10 10)). lia.
  - exists s2. rewrite Z.div_div in * by lia. change (10 * 10) with 100 in *. split; [|done].
    rewrite <-app_assoc. cbn [app]. do 2 f_equal.
    + f_equal. change 100 with (10 * 10). rewrite Z.rem_mul_r by lia.
      rewrite (Z.mul_comm 10), Z.div_add, (Z.div_small (v mod 10)) by (lia || apply mod10). lia.
    + f_equal. f_equal. change 100 with (10 * 10). rewrite Z.rem_mul_r by lia.
      rewrite (Z.mul_comm 10), Z.mod_add, Z.mod_mod by lia. done.
Qed.

(** The loop leaves one or two digits to write in front of those it wrote. *)
Lemma ll2string_loop_spec fuel v s pre old post :
  decimal v s -> (length s <= 2 * fuel + 2)%nat -> length old = length s -> is_uint 32 (Z.of_nat (length pre + length s)) ->
  exists v' s' old' t, ll2string_loop fuel v (pre ++ old ++ post) (Z.of_nat (length pre + length s) - 1) =
      Some (v', pre ++ old' ++ t ++ post, Z.of_nat (length pre + length s') - 1) /\
    s = s' ++ t /\ decimal v' s' /\ v' < 100 /\ length old' = length s'.
Proof.
  revert v s old post. induction fuel as [|fuel IH]; intros v s old post Hs Hf Hl Hu; cbn [ll2string_loop].
  - assert (v < 100).
    { destruct (decimal_length v s Hs) as [Hv _]. pose proof (Z.pow_le_mono_r 10 (Z.of_nat (length s)) 2 ltac:(lia) ltac:(lia)). lia. }
    rewrite geb_false by done. exists v, s, old, []. cbn [app]. by rewrite app_nil_r.
  - destruct (Z.lt_ge_cases v 100) as [Hlt|Hge].
    { rewrite geb_false by done. exists v, s, old, []. cbn [app]. by rewrite app_nil_r. }
    rewrite geb_true by done. destruct (decimal_split2 v s Hs Hge) as (s1 & -> & Hs1).
    rewrite length_app in *. cbn [length] in *.
    destruct (split_at_length (length s1) old ltac:(lia)) as (old1 & xy & -> & Hl1).
    rewrite length_app in Hl. destruct xy as [|x [|y []]]; cbn [length] in Hl; try lia.
    replace (pre ++ (old1 ++ [x; y]) ++ post) with ((pre ++ old1) ++ x :: y :: post) by (by rewrite <-!app_assoc).
    rewrite put_pair_spec; [|by apply Z.mod_pos_bound|rewrite length_app; lia|unfold is_uint in *; lia].
    assert (1 <= length s1)%nat by (pose proof (decimal_nonempty _ _ Hs1); destruct s1; [done|cbn; lia]).
    cbn [mbind option_bind]. rewrite wrap_small by (unfold is_uint in *; lia).
    replace (Z.of_nat (length pre + (length s1 + 2)) - 1 - 2) with (Z.of_nat (length pre + length s1) - 1) by lia.
    rewrite <-app_assoc.
    destruct (IH (v / 100) s1 old1 (digit (v mod 100 / 10) :: digit (v mod 100 mod 10) :: post) Hs1 ltac:(lia) Hl1
      ltac:(unfold is_uint in *; lia)) as (v' & s' & old' & t & E & -> & Hs' & Hv' & Hl').
    rewrite E. exists v', s', old', (t ++ [digit (v mod 100 / 10); digit (v mod 100 mod 10)]).
    rewrite <-!app_assoc. cbn [app]. done.
Qed.

Lemma ll2string_last v s pre old post :
  decimal v s -> v < 100 -> length old = length s -> is_uint 32 (Z.of_nat (length pre + length s)) ->
  (if v <? 10 then poke (pre ++ old ++ post) (Z.of_nat (length pre + length s) - 1) (to_byte (48 + v))
   else put_pair v (pre ++ old ++ post) (Z.of_nat (length pre + length s) - 1)) = Some (pre ++ s ++ post).
Proof.
  intros Hs Hv Hl Hu. destruct (Z.ltb_spec v 10).
  - assert (s = [digit v]) as ->.
    { apply (decimal_fun v); [done|]. constructor. pose proof (decimal_nonneg v s Hs). lia. }
    destruct old as [|x []]; [done| |done]. cbn [app length]. rewrite poke_app by lia. done.
  - inversion Hs as [|? s1 H1 Hs1]; subst; [lia|]. rewrite length_app in *. cbn [length] in *.
    assert (Hq : 0 < v / 10 < 10) by (split; [done|apply Z.div_lt_upper_bound; lia]).
    assert (s1 = [digit (v / 10)]) as -> by (apply (decimal_fun (v / 10)); [done|constructor; lia]).
    destruct old as [|x [|y []]]; cbn [length] in *; try done. cbn [app].
    rewrite put_pair_spec by (unfold is_uint in *; lia). done.
Qed.

(** Printing the magnitude behind the sign, when it fits. *)
Lemma ll2string_write neg v s x pre old y post :
  is_uint 64 v -> decimal v s -> length old = length s -> (length pre <= 1)%nat ->
  neg = Z.of_nat (length pre) -> (neg = 1 -> pre = [x]) ->
  (let length_ := Z.of_nat (length pre + length s) in
   dst ← poke (pre ++ old ++ y :: post) length_ nul;
   '(value, dst, next) ← ll2string_loop 9 v dst (u32 (length_ - 1));
   dst ← (if value <? 10 then poke dst next (to_byte (48 + value)) else put_pair value dst next);
   dst ← (if neg =? 1 then poke dst 0 minus else Some dst);
   Some (length_, dst)) =
  Some (Z.of_nat (length pre + length s), (if neg =? 1 then [minus] else []) ++ s ++ nul :: post).
Proof.
  intros Hv Hs Hl Hp Hn Hpre. pose proof (decimal_length_64 v s Hv Hs). cbn zeta.
  rewrite (app_assoc pre old), poke_app by (rewrite length_app; lia). cbn [mbind option_bind].
  rewrite <-app_assoc. rewrite wrap_small by (unfold is_uint; lia).
  destruct (ll2string_loop_spec 9 v s pre old (nul :: post) Hs ltac:(lia) Hl ltac:(unfold is_uint; lia))
    as (v' & s' & old' & t & -> & -> & Hs' & Hv' & Hl').
  cbn [mbind option_bind]. rewrite length_app in *. rewrite ll2string_last by (done || unfold is_uint; lia). cbn [mbind option_bind].
  destruct (Z.eqb_spec neg 1) as [E|E].
  - rewrite (Hpre E). change ([x] ++ s' ++ t ++ nul :: post) with ([] ++ x :: (s' ++ t ++ nul :: post)).
    rewrite poke_app by done. cbn [mbind option_bind]. by rewrite <-app_assoc.
  - destruct pre as [|? []]; cbn [length] in *; try lia. cbn [app]. by rewrite <-app_assoc.
Qed.

(** ** The printers *)

Lemma FastUInt32_spec v s pre old y post :
  is_uint 32 v -> decimal v s -> length old = length s ->
  FastUInt32ToBufferLeft v (pre ++ old ++ y :: post) (Z.of_nat (length pre)) =
    Some (pre ++ s ++ nul :: post, Z.of_nat (length pre + length s)).
Proof. intros Hv Hs Hl. pose proof (decimal_length_32 v s Hv Hs). apply ToBufferLeft_spec; [done|lia|done]. Qed.
Lemma FastUInt64_spec v s pre old y post :
  is_uint 64 v -> decimal v s -> length old = length s ->
  FastUInt64ToBufferLeft v (pre ++ old ++ y :: post) (Z.of_nat (length pre)) =
    Some (pre ++ s ++ nul :: post, Z.of_nat (length pre + length s)).
Proof. intros Hv Hs Hl. pose proof (decimal_length_64 v s Hv Hs). apply ToBufferLeft_spec; [done|lia|done]. Qed.

Lemma wrap_neg w v : 0 <= w -> - 2 ^ w <= v < 0 -> wrap w v = v + 2 ^ w.
Proof.
  intros Hw Hv. unfold wrap. replace v with (v + 2 ^ w + (-1) * 2 ^ w) at 1 by lia.
  rewrite Z.mod_add by lia. apply Z.mod_small. lia.
Qed.
(** [0 - (unsigned) i] is the magnitude of a negative [i]. *)
Lemma wrap_negate w v : 0 < w -> - 2 ^ (w - 1) <= v < 0 -> wrap w (0 - wrap w v) = - v /\ is_uint w (- v).
Proof.
  intros Hw Hv. assert (2 ^ w = 2 * 2 ^ (w - 1)) by (rewrite <-Z.pow_succ_r by lia; f_equal; lia).
  rewrite (wrap_neg w v) by lia. split; [|unfold is_uint; lia].
  rewrite wrap_neg by lia. lia.
Qed.

(** Room for the text and its NUL at a position of the buffer. *)
Lemma buffer_room (buffer : bytes) p n : 0 <= p -> p + Z.of_nat n < Z.of_nat (length buffer) ->
  exists pre old y post, buffer = pre ++ old ++ y :: post /\ p = Z.of_nat (length pre) /\ length old = n.
Proof.
  intros Hp Hn. destruct (split_at_length (Z.to_nat p) buffer ltac:(lia)) as (pre & b1 & -> & Hpre).
  rewrite length_app in Hn. destruct (split_at_length n b1 ltac:(lia)) as (old & b2 & -> & Hold).
  rewrite length_app in Hn. destruct b2 as [|y post]; [cbn [length] in Hn; lia|].
  exists pre, old, y, post. split; [done|]. lia.
Qed.

(** A buffer that holds text [s] and a NUL from [p] on, and is [buffer] elsewhere. *)
Definition holds (buffer : bytes) (p : Z) (s : bytes) : bytes :=
  take (Z.to_nat p) buffer ++ s ++ nul :: drop (Z.to_nat p + length s + 1) buffer.

Lemma holds_app pre old y post s : length old = length s ->
  holds (pre ++ old ++ y :: post) (Z.of_nat (length pre)) s = pre ++ s ++ nul :: post.
Proof.
  intros Hl. unfold holds. rewrite Nat2Z.id, take_app_length. rewrite <-Nat.add_assoc, drop_app_add, <-Hl, drop_app_add. done.
Qed.

Lemma signed_decimal_total v : exists s, signed_decimal v s.
Proof.
  unfold signed_decimal. destruct (Z.ltb_spec v 0).
  - destruct (decimal_total (- v) ltac:(lia)) as [t Ht]. eauto.
  - by apply decimal_total.
Qed.
Lemma signed_decimal_fun v s t : signed_decimal v s -> signed_decimal v t -> s = t.
Proof.
  unfold signed_decimal. destruct (v <? 0).
  - intros (s' & -> & Hs) (t' & -> & Ht). f_equal. by eapply decimal_fun.
  - apply decimal_fun.
Qed.

(** (functional).  The four [Fast*ToBufferLeft] write the decimal notation of
    the number at the position given, followed by a NUL, change nothing else, and
    return the position of the NUL; for every number of the type, the least one
    included, when the buffer has room. *)
Theorem fast_to_buffer_left (buffer : bytes) (p v : Z) (s : bytes) (Hs : signed_decimal v s)
  (Hp : 0 <= p) (Hroom : p + Z.of_nat (length s) < Z.of_nat (length buffer)) :
  let result := Some (holds buffer p s, p + Z.of_nat (length s)) in
  (is_uint 32 v -> FastUInt32ToBufferLeft v buffer p = result) /\
  (is_uint 64 v -> FastUInt64ToBufferLeft v buffer p = result) /\
  (- 2 ^ 31 <= v < 2 ^ 31 -> FastInt32ToBufferLeft v buffer p = result) /\
  (is_int64 v -> FastInt64ToBufferLeft v buffer p = result).
Proof.
  cbn zeta. destruct (buffer_room buffer p (length s) Hp Hroom) as (pre & old & y & post & -> & -> & Hl).
  rewrite holds_app by done. rewrite <-Nat2Z.inj_add.
  unfold signed_decimal in Hs. destruct (Z.ltb_spec v 0) as [Hv|Hv].
  - destruct Hs as (t & -> & Ht). destruct old as [|x old]; [done|]. injection Hl as Hl.
    split; [unfold is_uint; lia|]. split; [unfold is_uint; lia|].
    unfold FastInt32ToBufferLeft, FastInt64ToBufferLeft. rewrite (proj2 (Z.ltb_lt v 0) Hv).
    cbn [app]. rewrite poke_app by done. cbn [mbind option_bind].
    rewrite (cons_middle _ pre), app_assoc.
    replace (Z.of_nat (length pre) + 1) with (Z.of_nat (length (pre ++ [minus]))) by (rewrite length_app; cbn; lia).
    split; intros Hr; unfold is_int64, LLONG_MIN, LLONG_MAX in Hr.
    + destruct (wrap_negate 32 v ltac:(lia) ltac:(lia)) as [-> Hu]. rewrite (FastUInt32_spec (- v) t) by done.
      rewrite length_app, <-app_assoc. cbn [app length]. do 2 f_equal. lia.
    + destruct (wrap_negate 64 v ltac:(lia) ltac:(lia)) as [-> Hu]. rewrite (FastUInt64_spec (- v) t) by done.
      rewrite length_app, <-app_assoc. cbn [app length]. do 2 f_equal. lia.
  - unfold FastInt32ToBufferLeft, FastInt64ToBufferLeft. rewrite (proj2 (Z.ltb_ge v 0) Hv).
    split; [intros; by apply FastUInt32_spec|]. split; [intros; by apply FastUInt64_spec|].
    split; intros Hr; unfold is_int64, LLONG_MIN, LLONG_MAX in Hr; rewrite wrap_small by (unfold is_uint; lia).
    + apply FastUInt32_spec; [unfold is_uint; lia|done..].
    + apply FastUInt64_spec; [unfold is_uint; lia|done..].
Qed.

Lemma ll2string_spec dst dstlen v s :
  is_int64 v -> signed_decimal v s -> dstlen <= Z.of_nat (length dst) ->
  ll2string dst dstlen v =
    if Z.of_nat (length s) <? dstlen then Some (Z.of_nat (length s), holds dst 0 s) else Some (0, dst).
Proof.
  intros Hv Hs Hd. unfold ll2string. unfold signed_decimal in Hs. destruct (Z.ltb_spec v 0) as [Hn|Hn].
  - destruct Hs as (t & -> & Ht). rewrite unsigned_abs_spec by done. cbn [mbind option_bind].
    assert (Hu : is_uint 64 (- v)) by (unfold is_int64, LLONG_MIN, LLONG_MAX in Hv; unfold is_uint; lia).
    rewrite (digits10_spec (- v) t) by done. cbn [mbind option_bind].
    pose proof (decimal_length_64 _ _ Hu Ht). rewrite wrap_small by (unfold is_uint; lia). rewrite Z.geb_leb. cbn [length].
    replace (Z.of_nat (length t) + 1) with (Z.of_nat (S (length t))) by lia.
    destruct (Z.leb_spec dstlen (Z.of_nat (S (length t)))), (Z.ltb_spec (Z.of_nat (S (length t))) dstlen); try lia; [done|].
    destruct (buffer_room dst 1 (length t) ltac:(lia) ltac:(lia)) as (pre & old & y & post & -> & E & Hl).
    destruct pre as [|x []]; cbn [length] in E; try lia.
    pose proof (ll2string_write 1 (- v) t x [x] old y post Hu Ht Hl ltac:(done) ltac:(done) ltac:(done)) as Hw.
    cbn zeta in Hw. change (length [x] + length t)%nat with (S (length t)) in Hw. rewrite Hw.
    do 2 f_equal. change ([x] ++ old ++ y :: post) with ([] ++ (x :: old) ++ y :: post).
    change 0 with (Z.of_nat (length (@nil byte))). by rewrite holds_app by (cbn; lia).
  - assert (Hu : is_uint 64 v) by (unfold is_int64, LLONG_MIN, LLONG_MAX in Hv; unfold is_uint; lia).
    rewrite wrap_small by done. cbn [mbind option_bind]. rewrite (digits10_spec v s) by done. cbn [mbind option_bind].
    pose proof (decimal_length_64 _ _ Hu Hs). rewrite wrap_small by (unfold is_uint; lia). rewrite Z.geb_leb, Z.add_0_r.
    destruct (Z.leb_spec dstlen (Z.of_nat (length s))), (Z.ltb_spec (Z.of_nat (length s)) dstlen); try lia; [done|].
    destruct (buffer_room dst 0 (length s) ltac:(lia) ltac:(lia)) as (pre & old & y & post & -> & E & Hl).
    destruct pre as [|x pre]; cbn [length] in E; [|lia].
    pose proof (ll2string_write 0 v s x00 [] old y post Hu Hs Hl ltac:(cbn; lia) ltac:(done) ltac:(done)) as Hw.
    cbn zeta in Hw. change (length [] + length s)%nat with (length s) in Hw. rewrite Hw.
    do 2 f_equal. change 0 with (Z.of_nat (length (@nil byte))). by rewrite holds_app by done.
Qed.

(** ** The strict parser *)

Lemma string2ll_loop_spec ds rest v :
  Forall (fun c => isdigit c = true) ds -> (forall c, head rest = Some c -> isdigit c = false) -> is_uint 64 v ->
  string2ll_loop (ds ++ rest) v = if value v ds <=? ULLONG_MAX then Some (rest, value v ds) else None.
Proof.
  intros Hds Hr. revert v. induction Hds as [|c ds Hc Hds IH]; intros v Hv.
  - cbn [app value foldl]. rewrite (proj2 (Z.leb_le _ _)) by (unfold is_uint in Hv; unfold ULLONG_MAX; lia).
    destruct rest as [|c rest]; [done|]. cbn [string2ll_loop]. by rewrite (Hr c).
  - cbn [app string2ll_loop]. rewrite Hc. change (value v (c :: ds)) with (value (10 * v + digit_of c) ds).
    destruct (isdigit_inv c Hc) as [Hd _]. pose proof (value_pos (10 * v + digit_of c) ds Hds) as Hm.
    unfold is_uint in Hv. change ULLONG_MAX with 18446744073709551615 in *.
    change (18446744073709551615 / 10) with 1844674407370955161. rewrite Z.gtb_ltb.
    destruct (Z.ltb_spec 1844674407370955161 v).
    { rewrite (proj2 (Z.leb_gt _ _)) by lia. done. }
    rewrite wrap_small by (unfold is_uint; lia). rewrite Z.gtb_ltb.
    destruct (Z.ltb_spec (18446744073709551615 - digit_of c) (v * 10)).
    { rewrite (proj2 (Z.leb_gt _ _)) by lia. done. }
    rewrite wrap_small by (unfold is_uint; lia). replace (v * 10 + digit_of c) with (10 * v + digit_of c) by lia.
    apply IH. unfold is_uint. lia.
Qed.

(** The longest prefix of digits. *)
Lemma span_digits (p : bytes) : exists ds rest, p = ds ++ rest /\
  Forall (fun c => isdigit c = true) ds /\ (forall c, head rest = Some c -> isdigit c = false).
Proof.
  induction p as [|c p (ds & rest & -> & Hds & Hr)]; [by exists [], []|].
  destruct (isdigit c) eqn:Hc; [exists (c :: ds), rest; repeat split; [by constructor|done]|].
  exists [], (c :: ds ++ rest). repeat split; [done|]. by intros ? [= <-].
Qed.

Lemma first_digit c : (49 <=? schar c) && (schar c <=? 57) = isdigit c && negb (bool_decide (c = digit 0)).
Proof. by_byte c. Qed.

(** The part after the sign: a nonzero number, without leading zeros. *)
Definition magnitude (p : bytes) : option (bytes * Z) :=
  c ← head p;
  if (49 <=? schar c) && (schar c <=? 57) then string2ll_loop (tail p) (digit_of c) else None.

Lemma magnitude_spec p v :
  magnitude p = Some ([], v) <-> is_uint 64 v /\ 0 < v /\ decimal v p.
Proof.
  unfold magnitude. split.
  - destruct p as [|c p]; [done|]. cbn [mbind option_bind head tail]. rewrite first_digit.
    destruct (isdigit c) eqn:Hc; [|done]. destruct (bool_decide_reflect (c = digit 0)) as [|Hne]; [done|]. cbn [andb negb].
    destruct (isdigit_inv c Hc) as [Hd _]. destruct (span_digits p) as (ds & rest & -> & Hds & Hr).
    rewrite string2ll_loop_spec by (done || unfold is_uint; lia).
    pose proof (value_pos (digit_of c) ds Hds ltac:(lia)) as Hm.
    destruct (Z.leb_spec (value (digit_of c) ds) ULLONG_MAX) as [Hle|]; [|done]. intros [= -> <-]. rewrite app_nil_r.
    assert (digit_of c <> 0) by (by rewrite digit_0_iff).
    split; [unfold is_uint, ULLONG_MAX in *; lia|]. split; [lia|].
    replace (value (digit_of c) ds) with (value 0 (c :: ds)) by (cbn; f_equal; lia).
    apply decimal_of_digits; [by constructor|done|]. intros [= E]. done.
  - intros (Hv & Hpos & Hs). pose proof (decimal_digits v p Hs) as Hds. pose proof (decimal_nonempty v p Hs).
    destruct p as [|c p]; [done|]. cbn [mbind option_bind head tail]. rewrite first_digit.
    apply Forall_cons_iff in Hds as [Hc Hds]. rewrite Hc. destruct (isdigit_inv c Hc) as [Hd _].
    destruct (bool_decide_reflect (c = digit 0)) as [->|Hne]; cbn [andb negb].
    { pose proof (decimal_head_zero v _ Hs eq_refl) as E. injection E as ->.
      pose proof (decimal_value v _ Hs) as Ev. change (value 0 [digit 0]) with 0 in Ev. lia. }
    rewrite <-(app_nil_r p). rewrite string2ll_loop_spec by (done || unfold is_uint; lia).
    pose proof (decimal_value v _ Hs) as Ev. change (value 0 (c :: p)) with (value (0 + digit_of c) p) in Ev.
    rewrite Z.add_0_l in Ev. rewrite Ev. rewrite (proj2 (Z.leb_le _ _)) by (unfold is_uint in Hv; unfold ULLONG_MAX; lia). done.
Qed.

Lemma string2ll_magnitude s :
  string2ll s =
    if bool_decide (s = [digit 0]) then Some 0
    else
      let negative := bool_decide (head s = Some minus) in
      '(rest, v) ← magnitude (if negative then tail s else s);
      if negb (bool_decide (rest = [])) then None
      else if negative then if v >? 2 ^ 63 then None else Some (i64 (u64 (- v)))
      else if v >? LLONG_MAX then None else Some v.
Proof.
  unfold string2ll, magnitude. destruct (bool_decide_reflect (s = [])) as [->|]; [done|].
  destruct (bool_decide (s = [digit 0])); [done|]. cbn zeta. change (u64 (u64 (- (LLONG_MIN + 1)) + 1)) with (2 ^ 63).
  destruct (bool_decide (head s = Some minus)); destruct (head _) as [c|]; try done; cbn [mbind option_bind];
    by destruct ((49 <=? schar c) && (schar c <=? 57)).
Qed.

Lemma i64_negate v : 0 < v <= 2 ^ 63 -> i64 (u64 (- v)) = - v.
Proof.
  intros Hv. change (2 ^ 63) with 9223372036854775808 in Hv. rewrite wrap_neg by lia. unfold swrap. change (2 ^ (64 - 1)) with 9223372036854775808.
  change (2 ^ 64) with 18446744073709551616. 
  replace (- v + 18446744073709551616 + 9223372036854775808) with (9223372036854775808 - v + 1 * 18446744073709551616) by lia.
  rewrite Z.mod_add, Z.mod_small by lia. lia.
Qed.

Lemma signed_decimal_zero s : signed_decimal 0 s <-> s = [digit 0].
Proof.
  unfold signed_decimal. change (0 <? 0) with false. cbn iota. split.
  - intros Hs. apply (decimal_fun 0); [done|]. by constructor.
  - intros ->. by constructor.
Qed.

Lemma string2ll_spec s v : string2ll s = Some v <-> is_int64 v /\ signed_decimal v s.
Proof.
  rewrite string2ll_magnitude. destruct (bool_decide_reflect (s = [digit 0])) as [->|Hne].
  { split; [intros [= <-]; split; [done|by apply signed_decimal_zero]|].
    intros [_ Hs]. unfold signed_decimal in Hs. destruct (v <? 0); [by destruct Hs as (? & [=] & _)|].
    apply decimal_value in Hs. by subst. }
  cbn zeta. destruct (bool_decide_reflect (head s = Some minus)) as [Hm|Hm].
  - destruct s as [|c t]; [done|]. injection Hm as ->. cbn [tail]. split.
    + destruct (magnitude t) as [[rest m]|] eqn:E; [|done]. cbn [mbind option_bind].
      destruct (bool_decide_reflect (rest = [])) as [->|]; [|done]. cbn [negb]. apply magnitude_spec in E as (Hu & Hpos & Ht).
      rewrite Z.gtb_ltb. destruct (Z.ltb_spec (2 ^ 63) m); [done|]. rewrite i64_negate by lia. intros [= <-].
      split; [unfold is_int64, LLONG_MIN, LLONG_MAX; lia|]. unfold signed_decimal.
      rewrite (proj2 (Z.ltb_lt _ _)) by lia. exists t. by rewrite Z.opp_involutive.
    + intros [Hv Hs]. unfold signed_decimal in Hs. destruct (Z.ltb_spec v 0).
      * destruct Hs as (t' & [= <-] & Ht). unfold is_int64, LLONG_MIN, LLONG_MAX in Hv.
        rewrite (proj2 (magnitude_spec t (- v))) by (unfold is_uint; repeat split; done || lia).
        cbn [mbind option_bind]. rewrite bool_decide_eq_true_2 by done. cbn [negb]. rewrite gtb_false by lia.
        rewrite i64_negate by lia. f_equal. lia.
      * apply decimal_digits, Forall_cons_iff in Hs as [Hc _]. done.
  - split.
    + destruct (magnitude s) as [[rest m]|] eqn:E; [|done]. cbn [mbind option_bind].
      destruct (bool_decide_reflect (rest = [])) as [->|]; [|done]. cbn [negb]. apply magnitude_spec in E as (Hu & Hpos & Ht).
      rewrite Z.gtb_ltb. destruct (Z.ltb_spec LLONG_MAX m); [done|]. intros [= <-].
      split; [unfold is_int64, LLONG_MIN; lia|]. unfold signed_decimal. rewrite (proj2 (Z.ltb_ge _ _)) by lia. done.
    + intros [Hv Hs]. destruct (Z.eq_dec v 0) as [->|]; [by apply signed_decimal_zero in Hs|].
      unfold signed_decimal in Hs. destruct (Z.ltb_spec v 0); [by destruct Hs as (t & -> & _)|].
      unfold is_int64, LLONG_MIN, LLONG_MAX in *.
      rewrite (proj2 (magnitude_spec s v)) by (unfold is_uint; repeat split; done || lia).
      cbn [mbind option_bind]. rewrite bool_decide_eq_true_2 by done. cbn [negb]. by rewrite gtb_false by (unfold LLONG_MAX; lia).
Qed.

(** C38. (roundtrip).  [string2ll] accepts exactly the canonical notations of the 64-bit
    integers -- no leading zero, sign or space but a minus, no ["-0"] -- and gives their
    number; [ll2string] writes that notation with a NUL when the buffer has room for
    both, returning its length, and otherwise returns 0 and leaves the buffer alone, so
    that each recovers what the other produced; [digits10] and [sdigits10] are the
    lengths of the notations. *)
Theorem ll2string_string2ll (v : Z) (s : bytes) (Hv : is_int64 v) :
  (string2ll s = Some v <-> signed_decimal v s) /\
  (string2l s = Some v <-> signed_decimal v s) /\
  (forall dst dstlen, dstlen <= Z.of_nat (length dst) ->
     exists t, string2ll t = Some v /\ sdigits10 v = Some (Z.of_nat (length t)) /\
       (0 <= v -> digits10 v = Some (Z.of_nat (length t))) /\
       ll2string dst dstlen v =
         if Z.of_nat (length t) <? dstlen then Some (Z.of_nat (length t), holds dst 0 t) else Some (0, dst)).
Proof.
  assert (H2 : string2ll s = Some v <-> signed_decimal v s) by (rewrite string2ll_spec; tauto).
  split; [done|]. split.
  - rewrite <-H2. unfold string2l. destruct (string2ll s) as [u|] eqn:E; [|done]. cbn [mbind option_bind].
    apply string2ll_spec in E as [[Hu1 Hu2] _]. rewrite (proj2 (Z.ltb_ge _ _)), gtb_false by done. done.
  - intros dst dstlen Hd. destruct (signed_decimal_total v) as [t Ht]. exists t.
    split; [by apply string2ll_spec|]. split; [|split; [|by apply ll2string_spec]].
    + unfold sdigits10. unfold signed_decimal in Ht. destruct (Z.ltb_spec v 0).
      * destruct Ht as (u & -> & Hu). rewrite unsigned_abs_spec by done. cbn [mbind option_bind].
        unfold is_int64, LLONG_MIN, LLONG_MAX in Hv.
        rewrite (digits10_spec (- v) u) by (done || unfold is_uint; lia). cbn [mbind option_bind length]. f_equal. lia.
      * unfold is_int64, LLONG_MIN, LLONG_MAX in Hv. rewrite wrap_small by (unfold is_uint; lia).
        by apply digits10_spec; [unfold is_uint; lia|].
    + intros Hn. unfold signed_decimal in Ht. rewrite (proj2 (Z.ltb_ge _ _)) in Ht by done.
      unfold is_int64, LLONG_MIN, LLONG_MAX in Hv. by apply digits10_spec; [unfold is_uint; lia|].
Qed.

(** ** Witnesses *)

Lemma fast_to_buffer_left_witness :
  FastInt32ToBufferLeft (- 2 ^ 31) (replicate 14 x2e) 1 =
    Some (x2e :: minus :: map digit [2; 1; 4; 7; 4; 8; 3; 6; 4; 8] ++ [nul; x2e], 12).
Proof.
  assert (Hs : signed_decimal (- 2 ^ 31) (minus :: map digit [2; 1; 4; 7; 4; 8; 3; 6; 4; 8])).
  { eexists. split; [reflexivity|]. change (- - 2 ^ 31) with 2147483648.
    apply (decimal_of_digits (map digit [2; 1; 4; 7; 4; 8; 3; 6; 4; 8])); [repeat constructor|done|done]. }
  destruct (fast_to_buffer_left (replicate 14 x2e) 1 (- 2 ^ 31) _ Hs ltac:(lia) ltac:(vm_compute; reflexivity)) as (_ & _ & H & _).
  apply H. lia.
Defined.

Lemma ll2string_string2ll_witness :
  string2ll (map digit [9; 2; 2]) = Some 922 /\ string2ll (minus :: map digit [0]) = None /\
  ll2string (replicate 5 x2e) 5 (-922) = Some (4, minus :: map digit [9; 2; 2] ++ [nul]).
Proof.
  split; [|split; reflexivity].
  apply (ll2string_string2ll 922 (map digit [9; 2; 2])); [by vm_compute|].
  apply (decimal_of_digits (map digit [9; 2; 2])); [repeat constructor|done|done].
Defined.
