(* ===== verification/Numbers.v ===== *)
(** * Numbers: reading and writing numbers, [src/util/string_util.cpp]

    The forgiving parsers [SafeStrTo*], the two digit consumers and the hexadecimal
    routines.  A [StringPiece] is its bytes.  Where the code returns a [bool] and stores
    a result, the model returns [Some] of it for true and [None] for false; an outer
    [option] is [None] when signed arithmetic overflows. *)

From S2P Require Import Prelude Stringpiece Decimal.
#[local] Open Scope Z_scope.

(** ** Scanning *)

(** [isspace] of the C locale: the blanks 9 to 13 and the space. *)
Definition isspace (c : byte) : bool := ((9 <=? schar c) && (schar c <=? 13)) || (schar c =? 32).
Definition SafeFirstChar (str : bytes) : byte := match str with [] => nul | c :: _ => c end.
Fixpoint SkipSpaces (str : bytes) : bytes :=
  match str with
  | [] => []
  | c :: rest => if isspace c then SkipSpaces rest else str
  end.

(** The [do ... while (isdigit(SafeFirstChar(str)))] loops, which differ in the step
    that takes in a digit: a false one ends the function. *)
Fixpoint digits_loop (step : Z -> byte -> option (option Z)) (result : Z) (str : bytes) : option (option (bytes * Z)) :=
  match str with
  | [] => None
  | c :: rest =>
      r ← step result c;
      match r with
      | None => Some None
      | Some result =>
          if isdigit (SafeFirstChar rest) then digits_loop step result rest else Some (Some (rest, result))
      end
  end.

Definition kint32max : Z := 0x7fffffff.
Definition kuint32max : Z := 0xffffffff.
Definition kint64max : Z := LLONG_MAX.
Definition kint64min : Z := LLONG_MIN.
Definition kuint64max : Z := 0xffffffffffffffff.

(** What follows the digits must be blank. *)
Definition finish (store : Z -> option Z) (r : option (bytes * Z)) : option (option Z) :=
  match r with
  | None => Some None
  | Some (str, result) =>
      if negb (bool_decide (SkipSpaces str = [])) then Some None else v ← store result; Some (Some v)
  end.

Definition bounded_step (vmax result : Z) (c : byte) : option (option Z) :=
  r ← int64 (result * 10);
  r ← int64 (r + schar c);
  r ← int64 (r - 48);
  Some (if r >? vmax then None else Some r).

Definition SafeStrToInt32 (str : bytes) : option (option Z) :=
  let str := SkipSpaces str in
  let '(str, neg) := consume str [minus] in
  let vmax := if neg : bool then kint32max + 1 else kint32max in
  let sign := if neg then -1 else 1 in
  if negb (isdigit (SafeFirstChar str)) then Some None
  else
    r ← digits_loop (bounded_step vmax) 0 str;
    finish (fun result => v ← int64 (result * sign); Some (i32 v)) r.

Definition SafeStrToUint32 (str : bytes) : option (option Z) :=
  let str := SkipSpaces str in
  if negb (isdigit (SafeFirstChar str)) then Some None
  else
    r ← digits_loop (bounded_step kuint32max) 0 str;
    finish (fun result => Some (u32 result)) r.

(** Division truncates towards zero. *)
Definition int64_step (vlimit result : Z) (c : byte) : option (option Z) :=
  let digit := schar c - 48 in
  l ← int64 (vlimit - digit);
  if Z.quot l 10 <? result then Some None
  else r ← int64 (result * 10); r ← int64 (r + digit); Some (Some r).
Definition int64_neg_step (vlimit result : Z) (c : byte) : option (option Z) :=
  let digit := schar c - 48 in
  l ← int64 (vlimit + digit);
  if Z.quot l 10 >? result then Some None
  else r ← int64 (result * 10); r ← int64 (r - digit); Some (Some r).

Definition SafeStrToInt64 (str : bytes) : option (option Z) :=
  let str := SkipSpaces str in
  let '(str, neg) := consume str [minus] in
  let vlimit := if neg : bool then kint64min else kint64max in
  if negb (isdigit (SafeFirstChar str)) then Some None
  else
    r ← digits_loop (if neg then int64_neg_step vlimit else int64_step vlimit) 0 str;
    finish (fun result => Some result) r.

(** [kuint64max - digit] is unsigned and is cast to [int64_t]. *)
Definition uint64_step (result : Z) (c : byte) : option (option Z) :=
  let digit := schar c - 48 in
  if Z.quot (i64 (u64 (kuint64max - digit))) 10 <? result then Some None
  else r ← int64 (result * 10); r ← int64 (r + digit); Some (Some r).

Definition SafeStrToUint64 (str : bytes) : option (option Z) :=
  let str := SkipSpaces str in
  if negb (isdigit (SafeFirstChar str)) then Some None
  else
    r ← digits_loop uint64_step 0 str;
    finish (fun result => Some (u64 result)) r.

(** ** Consuming digits *)

Definition kLastDigitOfMaxUint64 : Z := 48 + kuint64max mod 10.
(** The loop: [None] is the overflow, else what is left and the value. *)
Fixpoint StringConsumeDecimalNumber_loop (current : bytes) (value : Z) : option (bytes * Z) :=
  match current with
  | [] => Some ([], value)
  | b :: rest =>
      let ch := uchar b in
      if (ch <? 48) || (ch >? 57) then Some (current, value)
      else if (value >? kuint64max / 10) || ((value =? kuint64max / 10) && (ch >? kLastDigitOfMaxUint64)) then None
      else StringConsumeDecimalNumber_loop rest (u64 (u64 (value * 10) + (ch - 48)))
  end.
(** The result, the piece and [*val] after the call. *)
Definition StringConsumeDecimalNumber (in_ : bytes) (val : Z) : bool * bytes * Z :=
  match StringConsumeDecimalNumber_loop in_ 0 with
  | None => (false, in_, val)
  | Some (rest, value) => (negb (length in_ - length rest =? 0)%nat, rest, value)
  end.

Fixpoint StringConsumeLeadingDigits_loop (p : bytes) (v : Z) : option (bytes * Z) :=
  match p with
  | [] => Some ([], v)
  | c :: rest =>
      if (schar c <? 48) || (schar c >? 57) then Some (p, v)
      else
        let new_v := u64 (u64 (v * 10) + (schar c - 48)) in
        if new_v / 8 <? v then None else StringConsumeLeadingDigits_loop rest new_v
  end.
Definition StringConsumeLeadingDigits (s : bytes) (val : Z) : bool * bytes * Z :=
  match StringConsumeLeadingDigits_loop s 0 with
  | None => (false, s, val)
  | Some (rest, v) => if (length rest <? length s)%nat then (true, rest, v) else (false, s, val)
  end.

(** ** Hexadecimal *)

Definition hexdigits : bytes :=
  [x30; x31; x32; x33; x34; x35; x36; x37; x38; x39; x61; x62; x63; x64; x65; x66].

(** [for (i = n - 1; i >= 0; --i)]: the loop over the [n] positions from the last one. *)
Fixpoint hex_loop (n : nat) (v : Z) (buf : bytes) (p : Z) : option bytes :=
  match n with
  | O => Some buf
  | S i =>
      c ← hexdigits !! Z.to_nat (v .& 0xf);
      buf ← poke buf (p + Z.of_nat i) c;
      hex_loop i (v .>> 4) buf p
  end.

(** The text returned and the buffer. *)
Definition Uint64ToHexString (v : Z) (buf : bytes) : option (bytes * bytes) :=
  let num_byte := 16 in
  buf ← poke buf num_byte nul;
  buf ← hex_loop 16 v buf 0;
  Some (take 16 buf, buf).

Fixpoint HexStringToUint64_loop (s : bytes) (v : Z) : option Z :=
  match s with
  | [] => Some v
  | c :: rest =>
      let c := schar c in
      if (48 <=? c) && (c <=? 57) then HexStringToUint64_loop rest (u64 (u64 (v .<< 4) + (c - 48)))
      else if (97 <=? c) && (c <=? 102) then HexStringToUint64_loop rest (u64 (u64 (v .<< 4) + 10 + (c - 97)))
      else if (65 <=? c) && (c <=? 70) then HexStringToUint64_loop rest (u64 (u64 (v .<< 4) + 10 + (c - 65)))
      else None
  end.
Definition HexStringToUint64 (s : bytes) : option Z :=
  if bool_decide (s = []) then None else HexStringToUint64_loop s 0.

(** [UIntToHexBufferInternal] takes each digit from the low 32 bits. *)
Fixpoint UIntToHexBuffer_loop (n : nat) (value : Z) (buffer : bytes) (p : Z) : option bytes :=
  match n with
  | O => Some buffer
  | S i =>
      c ← hexdigits !! Z.to_nat (u32 value .& 0xf);
      buffer ← poke buffer (p + Z.of_nat i) c;
      UIntToHexBuffer_loop i (value .>> 4) buffer p
  end.
(** The buffer and the pointer past the digits. *)
Definition UIntToHexBufferInternal (value : Z) (buffer : bytes) (p num_byte : Z) : option (bytes * Z) :=
  let digit_byte := 2 * num_byte in
  buffer ← UIntToHexBuffer_loop (Z.to_nat digit_byte) value buffer p;
  Some (buffer, p + digit_byte).
Definition WriteHexUInt16ToBuffer (value : Z) (buffer : bytes) (p : Z) := UIntToHexBufferInternal value buffer p 2.
Definition WriteHexUInt32ToBuffer (value : Z) (buffer : bytes) (p : Z) := UIntToHexBufferInternal value buffer p 4.
Definition WriteHexUInt64ToBuffer (value : Z) (buffer : bytes) (p : Z) := UIntToHexBufferInternal value buffer p 8.
(** With a NUL after the digits, and as a string built from a local array. *)
Definition UInt16ToHexString_buffer (value : Z) (buffer : bytes) (p : Z) : option bytes :=
  '(buffer, q) ← WriteHexUInt16ToBuffer value buffer p; poke buffer q nul.
Definition UInt32ToHexString_buffer (value : Z) (buffer : bytes) (p : Z) : option bytes :=
  '(buffer, q) ← WriteHexUInt32ToBuffer value buffer p; poke buffer q nul.
Definition UInt64ToHexString_buffer (value : Z) (buffer : bytes) (p : Z) : option bytes :=
  '(buffer, q) ← WriteHexUInt64ToBuffer value buffer p; poke buffer q nul.
Definition UInt16ToHexString (value : Z) : option bytes :=
  '(buffer, q) ← WriteHexUInt16ToBuffer value (replicate 5 nul) 0; Some (take (Z.to_nat q) buffer).
Definition UInt32ToHexString (value : Z) : option bytes :=
  '(buffer, q) ← WriteHexUInt32ToBuffer value (replicate 9 nul) 0; Some (take (Z.to_nat q) buffer).
Definition UInt64ToHexString (value : Z) : option bytes :=
  '(buffer, q) ← WriteHexUInt64ToBuffer value (replicate 17 nul) 0; Some (take (Z.to_nat q) buffer).
(** ** Scanning *)

Abbreviation all_digits_in := (Forall (fun c => isdigit c = true)).
Abbreviation all_blank := (Forall (fun c => isspace c = true)).

Lemma SkipSpaces_app sp t : all_blank sp -> SkipSpaces (sp ++ t) = SkipSpaces t.
Proof. induction 1 as [|c sp Hc _ IH]; [done|]. cbn [app SkipSpaces]. by rewrite Hc. Qed.
Lemma SkipSpaces_split s : exists sp, all_blank sp /\ s = sp ++ SkipSpaces s.
Proof.
  induction s as [|c s (sp & Hsp & E)]; [by exists []|]. cbn [SkipSpaces]. destruct (isspace c) eqn:Hc.
  - exists (c :: sp). split; [by constructor|]. by rewrite E at 1.
  - by exists [].
Qed.
Lemma SkipSpaces_head c s : isspace c = false -> SkipSpaces (c :: s) = c :: s.
Proof. intros Hc. cbn. by rewrite Hc. Qed.
Lemma digit_not_space c : isdigit c = true -> isspace c = false.
Proof. by_byte c. Qed.
Lemma space_not_digit c : isspace c = true -> isdigit c = false.
Proof. by_byte c. Qed.
Lemma digit_not_minus c : isdigit c = true -> c <> minus.
Proof. by_byte c. Qed.

Lemma SkipSpaces_digits ds rest : all_digits_in ds -> ds <> [] -> SkipSpaces (ds ++ rest) = ds ++ rest.
Proof. intros Hds. destruct Hds as [|c ds Hc _]; [done|]. intros _. by apply SkipSpaces_head, digit_not_space. Qed.

Lemma consume_minus s :
  consume s [minus] = if bool_decide (head s = Some minus) then (tail s, true) else (s, false).
Proof.
  unfold consume, starts_with. destruct s as [|c s]; [done|].
  assert ((Coding.size (c :: s) >=? Coding.size [minus]) = true) as ->.
  { apply geb_true. unfold Coding.size. cbn [length]. lia. }
  cbn [andb length memcmp drop tail]. by_byte c.
Qed.

(** A run of digits that is not followed by a digit is the only one at its place. *)
Lemma span_unique ds rest ds' rest' :
  ds ++ rest = ds' ++ rest' -> all_digits_in ds -> all_digits_in ds' ->
  (forall c, head rest = Some c -> isdigit c = false) -> (forall c, head rest' = Some c -> isdigit c = false) ->
  ds = ds' /\ rest = rest'.
Proof.
  intros E H. revert ds' E. induction H as [|c ds Hc Hds IH]; intros [|c' ds'] E Hds' Hr Hr'; cbn [app] in E.
  - done.
  - subst rest. apply Forall_cons_iff in Hds' as [Hc' _]. rewrite (Hr c') in Hc' by done. done.
  - subst rest'. rewrite (Hr' c) in Hc by done. done.
  - injection E as <- E. apply Forall_cons_iff in Hds' as [_ Hds']. by destruct (IH ds' E) as [-> ->].
Qed.

(** Blanks, a sign, digits and blanks. *)
Definition int_text (s : bytes) (neg : bool) (ds : bytes) : Prop :=
  all_digits_in ds /\ ds <> [] /\
  exists sp1 sp2, all_blank sp1 /\ all_blank sp2 /\ s = sp1 ++ (if neg then [minus] else []) ++ ds ++ sp2.

Lemma blank_head sp : all_blank sp -> forall c, head sp = Some c -> isdigit c = false.
Proof. intros [|c sp' Hc _] ?; [done|]. intros [= <-]. by apply space_not_digit. Qed.

Lemma SkipSpaces_blank sp : all_blank sp <-> SkipSpaces sp = [].
Proof.
  split.
  - intros H. rewrite <-(app_nil_r sp). by rewrite SkipSpaces_app.
  - intros E. destruct (SkipSpaces_split sp) as (sp' & Hsp & E'). rewrite E, app_nil_r in E'. by subst.
Qed.

(** What the functions see: the rest after blanks and sign starts with the digits [ds]. *)
Lemma int_text_scan s neg ds ds' rest (str := SkipSpaces s) :
  str = (if neg : bool then [minus] else []) ++ ds ++ rest -> all_digits_in ds -> (forall c, head rest = Some c -> isdigit c = false) ->
  int_text s neg ds' <-> ds' = ds /\ ds <> [] /\ SkipSpaces rest = [].
Proof.
  intros E Hds Hr. split.
  - intros (Hds' & Hne & sp1 & sp2 & H1 & H2 & ->).
    assert (str = (if neg then [minus] else []) ++ ds' ++ sp2) as E'.
    { subst str. rewrite SkipSpaces_app by done. destruct neg; cbn [app]; [by rewrite SkipSpaces_head|by apply SkipSpaces_digits]. }
    rewrite E' in E. apply app_inv_head in E. symmetry in E.
    destruct (span_unique ds rest ds' sp2 E) as [-> ->]; [done..|by apply blank_head|]. repeat split; [done|]. by apply SkipSpaces_blank.
  - intros (-> & Hne & Hb). split; [done|]. split; [done|]. destruct (SkipSpaces_split s) as (sp1 & H1 & Es).
    exists sp1, rest. split; [done|]. split; [by apply SkipSpaces_blank|]. rewrite Es at 1. f_equal. exact E.
Qed.

(** ** The digit loops *)

(** A step that takes in a digit as long as the magnitude stays within a bound. *)
Definition step_bounded (step : Z -> byte -> option (option Z)) (sign B : Z) : Prop :=
  forall r c, 0 <= r <= B -> isdigit c = true ->
    step (sign * r) c = Some (if 10 * r + digit_of c <=? B then Some (sign * (10 * r + digit_of c)) else None).

Lemma digits_loop_spec step sign B ds rest r :
  step_bounded step sign B -> all_digits_in ds -> ds <> [] -> (forall c, head rest = Some c -> isdigit c = false) ->
  0 <= r <= B ->
  digits_loop step (sign * r) (ds ++ rest) =
    Some (if value r ds <=? B then Some (rest, sign * value r ds) else None).
Proof.
  intros Hstep Hds Hne Hr. revert r Hne. induction Hds as [|c ds Hc Hds IH]; intros r Hne Hb; [done|].
  cbn [app digits_loop]. rewrite (Hstep r c Hb Hc). cbn [mbind option_bind].
  change (value r (c :: ds)) with (value (10 * r + digit_of c) ds). destruct (isdigit_inv c Hc) as [Hd _].
  pose proof (value_pos (10 * r + digit_of c) ds Hds ltac:(lia)) as Hm.
  destruct (Z.leb_spec (10 * r + digit_of c) B) as [Hle|Hgt]; cycle 1.
  { by rewrite (proj2 (Z.leb_gt _ _)) by lia. }
  destruct ds as [|c' ds].
  - cbn [app value foldl]. rewrite (proj2 (Z.leb_le _ _)) by done.
    assert (isdigit (SafeFirstChar rest) = false) as -> by (destruct rest; [done|by apply Hr]). done.
  - apply Forall_cons_iff in Hds as [Hc' Hds]. cbn [app SafeFirstChar]. rewrite Hc'. apply IH; [done|lia].
Qed.

(** The common body of the four functions: the digits and what follows them. *)
Definition body (step : Z -> byte -> option (option Z)) (store : Z -> option Z) (str : bytes) : option (option Z) :=
  if negb (isdigit (SafeFirstChar str)) then Some None else r ← digits_loop step 0 str; finish store r.

Lemma body_spec step store sign f B ds rest :
  step_bounded step sign B -> all_digits_in ds -> (forall c, head rest = Some c -> isdigit c = false) -> 0 <= B ->
  (forall m, 0 <= m <= B -> store (sign * m) = Some (f m)) ->
  body step store (ds ++ rest) =
    Some (if bool_decide (ds <> [] /\ SkipSpaces rest = [] /\ value 0 ds <= B) then Some (f (value 0 ds)) else None).
Proof.
  intros Hstep Hds Hr HB Hst. unfold body. destruct ds as [|c ds].
  { rewrite bool_decide_eq_false_2 by tauto. cbn [app].
    assert (isdigit (SafeFirstChar rest) = false) as -> by (destruct rest; [done|by apply Hr]). done. }
  pose proof Hds as Hds'. apply Forall_cons_iff in Hds' as [Hc _]. change (SafeFirstChar ((c :: ds) ++ rest)) with c. rewrite Hc. cbn [negb].
  rewrite <-(Z.mul_0_r sign). rewrite (digits_loop_spec step sign B) by (done || lia). rewrite Z.mul_0_r. cbn [mbind option_bind].
  pose proof (value_pos 0 (c :: ds) Hds ltac:(lia)).
  destruct (Z.leb_spec (value 0 (c :: ds)) B) as [Hle|Hgt]; cbn [finish].
  - rewrite Hst by lia. destruct (bool_decide_reflect (SkipSpaces rest = [])) as [->|Hne]; cbn [negb mbind option_bind].
    + by rewrite bool_decide_eq_true_2 by done.
    + by rewrite bool_decide_eq_false_2 by tauto.
  - rewrite bool_decide_eq_false_2 by (intros (_ & _ & ?); lia). done.
Qed.
Lemma int64_ok z : - 2 ^ 63 <= z < 2 ^ 63 -> int64 z = Some z.
Proof. intros. apply i64_small. unfold is_int64, LLONG_MIN, LLONG_MAX. lia. Qed.
Lemma int64_bind {A} z (k : Z -> option A) : - 2 ^ 63 <= z < 2 ^ 63 -> (r ← int64 z; k r) = k z.
Proof. intros. by rewrite int64_ok. Qed.

Lemma bounded_step_spec vmax : 9 <= vmax < 2 ^ 33 -> step_bounded (bounded_step vmax) 1 vmax.
Proof.
  intros Hm r c Hr Hc. destruct (isdigit_inv c Hc) as [Hd _]. unfold bounded_step, digit_of in *.
  rewrite !Z.mul_1_l. rewrite int64_bind by lia. rewrite int64_bind by lia.
  rewrite int64_bind by lia. replace (r * 10 + schar c - 48) with (10 * r + (schar c - 48)) by lia.
  rewrite Z.gtb_ltb, Z.ltb_antisym. by destruct (_ <=? _).
Qed.

Lemma int64_step_spec : step_bounded (int64_step kint64max) 1 kint64max.
Proof.
  intros r c Hr Hc. destruct (isdigit_inv c Hc) as [Hd _]. unfold int64_step, digit_of, kint64max, LLONG_MAX in *. cbn zeta.
  rewrite !Z.mul_1_l. rewrite int64_bind by lia. rewrite Z.quot_div_nonneg by lia.
  pose proof (Z.div_mod (2 ^ 63 - 1 - (schar c - 48)) 10 ltac:(lia)).
  pose proof (Z.mod_pos_bound (2 ^ 63 - 1 - (schar c - 48)) 10 ltac:(lia)).
  destruct (Z.ltb_spec ((2 ^ 63 - 1 - (schar c - 48)) / 10) r), (Z.leb_spec (10 * r + (schar c - 48)) (2 ^ 63 - 1)); try lia; [done|].
  rewrite int64_bind by lia. rewrite int64_bind by lia. do 2 f_equal. lia.
Qed.

Lemma int64_neg_step_spec : step_bounded (int64_neg_step kint64min) (-1) (2 ^ 63).
Proof.
  intros r c Hr Hc. destruct (isdigit_inv c Hc) as [Hd _]. unfold int64_neg_step, digit_of, kint64min, LLONG_MIN in *. cbn zeta.
  rewrite int64_bind by lia.
  replace (- 2 ^ 63 + (schar c - 48)) with (- (2 ^ 63 - (schar c - 48))) by lia.
  rewrite Z.quot_opp_l, Z.quot_div_nonneg by lia.
  pose proof (Z.div_mod (2 ^ 63 - (schar c - 48)) 10 ltac:(lia)).
  pose proof (Z.mod_pos_bound (2 ^ 63 - (schar c - 48)) 10 ltac:(lia)).
  rewrite Z.gtb_ltb.
  destruct (Z.ltb_spec (-1 * r) (- ((2 ^ 63 - (schar c - 48)) / 10))), (Z.leb_spec (10 * r + (schar c - 48)) (2 ^ 63)); try lia; [done|].
  rewrite int64_bind by lia. rewrite int64_bind by lia. do 2 f_equal. lia.
Qed.

(** The cast makes the limit -1 minus the digit: it is 0 for the digits up to 8. *)
Lemma uint64_step_spec : step_bounded uint64_step 1 8.
Proof.
  intros r c Hr Hc. destruct (isdigit_inv c Hc) as [Hd _]. unfold uint64_step, digit_of in *. cbn zeta.
  revert Hd. generalize (schar c - 48) as d. intros d Hd. rewrite !Z.mul_1_l.
  assert (Hq : Z.quot (i64 (u64 (kuint64max - d))) 10 = if d =? 9 then -1 else 0).
  { revert d Hd. apply (all_digits (fun d => Z.quot (i64 (u64 (kuint64max - d))) 10 = if d =? 9 then -1 else 0)); reflexivity. }
  rewrite Hq. destruct (Z.eqb_spec d 9) as [->|].
  - rewrite (proj2 (Z.ltb_lt _ _)), (proj2 (Z.leb_gt _ _)) by lia. done.
  - destruct (Z.ltb_spec 0 r), (Z.leb_spec (10 * r + d) 8); try lia; [done|].
    rewrite int64_bind by lia. rewrite int64_bind by lia. do 2 f_equal. lia.
Qed.

(** What the scan of any string finds. *)
Lemma scan_signed s : exists neg ds rest,
  consume (SkipSpaces s) [minus] = (ds ++ rest, neg) /\
  SkipSpaces s = (if neg : bool then [minus] else []) ++ ds ++ rest /\
  all_digits_in ds /\ (forall c, head rest = Some c -> isdigit c = false) /\
  (forall ds', ~ int_text s (negb neg) ds').
Proof.
  rewrite consume_minus. destruct (bool_decide_reflect (head (SkipSpaces s) = Some minus)) as [E|E].
  - destruct (SkipSpaces s) as [|c t] eqn:Es; [done|]. injection E as ->. cbn [tail].
    destruct (span_digits t) as (ds & rest & -> & Hds & Hr). exists true, ds, rest. repeat split; [done..|].
    intros ds' (Hds' & Hne & sp1 & sp2 & H1 & H2 & ->). rewrite SkipSpaces_app in Es by done. cbn [negb app] in Es.
    rewrite SkipSpaces_digits in Es by done. destruct Hds' as [|c ds' Hc _]; [done|]. injection Es as -> _.
    by apply digit_not_minus in Hc.
  - destruct (span_digits (SkipSpaces s)) as (ds & rest & Es & Hds & Hr). exists false, ds, rest.
    rewrite Es. repeat split; [done..|]. intros ds' (Hds' & Hne & sp1 & sp2 & H1 & H2 & ->).
    apply E. rewrite SkipSpaces_app by done. done.
Qed.

Lemma scan_unsigned s : exists ds rest, SkipSpaces s = ds ++ rest /\ all_digits_in ds /\
  (forall c, head rest = Some c -> isdigit c = false).
Proof. destruct (span_digits (SkipSpaces s)) as (ds & rest & E & H). eauto. Qed.

Lemma value_nonneg ds : all_digits_in ds -> 0 <= value 0 ds.
Proof. intros H. by apply (value_pos 0 ds H). Qed.

(** From the value computed by [body] to the texts accepted, for one sign. *)
Lemma accepts (s : bytes) (neg : bool) ds rest (f : Z -> Z) B (P : Z -> Prop) v :
  SkipSpaces s = (if neg then [minus] else []) ++ ds ++ rest -> all_digits_in ds ->
  (forall c, head rest = Some c -> isdigit c = false) -> (forall m, 0 <= m -> m <= B <-> P (f m)) ->
  Some (if bool_decide (ds <> [] /\ SkipSpaces rest = [] /\ value 0 ds <= B) then Some (f (value 0 ds)) else None) = Some (Some v) <->
  exists ds', int_text s neg ds' /\ v = f (value 0 ds') /\ P v.
Proof.
  intros Es Hds Hr HP. pose proof (fun ds' => int_text_scan s neg ds ds' rest Es Hds Hr) as Hi.
  pose proof (HP (value 0 ds) (value_nonneg ds Hds)) as HPv. split.
  - destruct (bool_decide_reflect (ds <> [] /\ SkipSpaces rest = [] /\ value 0 ds <= B)) as [(H1 & H2 & H3)|]; [|done].
    intros [= <-]. exists ds. split; [by apply Hi|]. split; [done|]. by apply HPv.
  - intros (ds' & Ht & -> & Hp). apply Hi in Ht as (-> & H1 & H2). rewrite bool_decide_eq_true_2; [done|].
    split; [done|]. split; [done|]. by apply HPv.
Qed.

Abbreviation signed_value neg ds := (if neg : bool then - value 0 ds else value 0 ds).

(** The signed readers see one sign only. *)
Lemma one_sign s neg (P : bool -> bytes -> Prop) :
  (forall ds, ~ int_text s (negb neg) ds) ->
  (exists ds, int_text s neg ds /\ P neg ds) <-> (exists neg' ds, int_text s neg' ds /\ P neg' ds).
Proof.
  intros Hno. split; [intros (d & H); by exists neg, d|].
  intros (neg' & d & H & HP). destruct neg, neg'; [by exists d|by apply Hno in H..|by exists d].
Qed.

Lemma SafeStrToInt32_spec s : exists r, SafeStrToInt32 s = Some r /\ forall v, Some r = Some (Some v) <->
  exists neg ds, int_text s neg ds /\ v = signed_value neg ds /\ - 2 ^ 31 <= v < 2 ^ 31.
Proof.
  destruct (scan_signed s) as (neg & ds & rest & Ec & Es & Hds & Hr & Hno). unfold SafeStrToInt32. rewrite Ec. destruct neg; eexists; split.
  - refine (body_spec _ _ 1 Z.opp (2 ^ 31) ds rest (bounded_step_spec (2 ^ 31) ltac:(lia)) Hds Hr ltac:(lia) _).
    intros m Hm. rewrite Z.mul_1_l, int64_bind by lia. rewrite i32_small by lia. f_equal. lia.
  - intros v. rewrite <-(one_sign s true (fun neg ds => v = signed_value neg ds /\ - 2 ^ 31 <= v < 2 ^ 31) Hno).
    apply (accepts s true ds rest _ _ (fun v => - 2 ^ 31 <= v < 2 ^ 31) v Es Hds Hr); lia.
  - refine (body_spec _ _ 1 (fun m => m) (2 ^ 31 - 1) ds rest (bounded_step_spec (2 ^ 31 - 1) ltac:(lia)) Hds Hr ltac:(lia) _).
    intros m Hm. rewrite Z.mul_1_l, Z.mul_1_r, int64_bind by lia. by rewrite i32_small by lia.
  - intros v. rewrite <-(one_sign s false (fun neg ds => v = signed_value neg ds /\ - 2 ^ 31 <= v < 2 ^ 31) Hno).
    apply (accepts s false ds rest (fun m => m) (2 ^ 31 - 1) (fun v => - 2 ^ 31 <= v < 2 ^ 31) v Es Hds Hr); lia.
Qed.

Lemma SafeStrToInt64_spec s : exists r, SafeStrToInt64 s = Some r /\ forall v, Some r = Some (Some v) <->
  exists neg ds, int_text s neg ds /\ v = signed_value neg ds /\ is_int64 v.
Proof.
  destruct (scan_signed s) as (neg & ds & rest & Ec & Es & Hds & Hr & Hno). unfold SafeStrToInt64. rewrite Ec. destruct neg; eexists; split.
  - refine (body_spec _ _ (-1) Z.opp (2 ^ 63) ds rest int64_neg_step_spec Hds Hr ltac:(lia) _). intros m _. f_equal; lia.
  - intros v. rewrite <-(one_sign s true (fun neg ds => v = signed_value neg ds /\ is_int64 v) Hno).
    apply (accepts s true ds rest _ _ is_int64 v Es Hds Hr); unfold is_int64, LLONG_MIN, LLONG_MAX; lia.
  - refine (body_spec _ _ 1 (fun m => m) (2 ^ 63 - 1) ds rest int64_step_spec Hds Hr ltac:(lia) _). intros m _. f_equal; lia.
  - intros v. rewrite <-(one_sign s false (fun neg ds => v = signed_value neg ds /\ is_int64 v) Hno).
    apply (accepts s false ds rest (fun m => m) (2 ^ 63 - 1) is_int64 v Es Hds Hr); unfold is_int64, LLONG_MIN, LLONG_MAX; lia.
Qed.

Lemma SafeStrToUint32_spec s : exists r, SafeStrToUint32 s = Some r /\ forall v, Some r = Some (Some v) <->
  exists ds, int_text s false ds /\ v = value 0 ds /\ is_uint 32 v.
Proof.
  destruct (scan_unsigned s) as (ds & rest & Es & Hds & Hr). unfold SafeStrToUint32. rewrite Es. eexists. split.
  - refine (body_spec _ _ 1 (fun m => m) (2 ^ 32 - 1) ds rest (bounded_step_spec (2 ^ 32 - 1) ltac:(lia)) Hds Hr ltac:(lia) _).
    intros m Hm. by rewrite Z.mul_1_l, wrap_small by (unfold is_uint; lia).
  - intros v. apply (accepts s false ds rest (fun m => m) (2 ^ 32 - 1) (is_uint 32) v Es Hds Hr). unfold is_uint. lia.
Qed.

Lemma SafeStrToUint64_spec s : exists r, SafeStrToUint64 s = Some r /\ forall v, Some r = Some (Some v) <->
  exists ds, int_text s false ds /\ v = value 0 ds /\ v <= 8.
Proof.
  destruct (scan_unsigned s) as (ds & rest & Es & Hds & Hr). unfold SafeStrToUint64. rewrite Es. eexists. split.
  - refine (body_spec _ _ 1 (fun m => m) 8 ds rest uint64_step_spec Hds Hr ltac:(lia) _).
    intros m Hm. by rewrite Z.mul_1_l, wrap_small by (unfold is_uint; lia).
  - intros v. apply (accepts s false ds rest (fun m => m) 8 (fun v => v <= 8) v Es Hds Hr). lia.
Qed.

(** (functional).  On every string, without overflow on the way: [SafeStrToInt32],
    [SafeStrToUint32] and [SafeStrToInt64] accept blanks, a minus for the signed ones, at
    least one digit and blanks, and give the number, when it is in the range of the
    type; [SafeStrToUint64] accepts only the numbers 0 to 8. *)
Theorem safe_str_to_numbers (s : bytes) (v : Z) :
  (SafeStrToInt32 s = Some (Some v) <->
     exists neg ds, int_text s neg ds /\ v = signed_value neg ds /\ - 2 ^ 31 <= v < 2 ^ 31) /\
  (SafeStrToUint32 s = Some (Some v) <-> exists ds, int_text s false ds /\ v = value 0 ds /\ is_uint 32 v) /\
  (SafeStrToInt64 s = Some (Some v) <-> exists neg ds, int_text s neg ds /\ v = signed_value neg ds /\ is_int64 v) /\
  (SafeStrToUint64 s = Some (Some v) <-> exists ds, int_text s false ds /\ v = value 0 ds /\ v <= 8) /\
  SafeStrToInt32 s <> None /\ SafeStrToUint32 s <> None /\ SafeStrToInt64 s <> None /\ SafeStrToUint64 s <> None.
Proof.
  destruct (SafeStrToInt32_spec s) as (r1 & -> & H1), (SafeStrToUint32_spec s) as (r2 & -> & H2),
    (SafeStrToInt64_spec s) as (r3 & -> & H3), (SafeStrToUint64_spec s) as (r4 & -> & H4).
  by repeat split; try apply H1; try apply H2; try apply H3; try apply H4.
Qed.
(** ** Consuming digits *)

Lemma uchar_digit c : isdigit c = true -> uchar c = 48 + digit_of c.
Proof. by_byte c. Qed.
Lemma uchar_not_digit c : (uchar c <? 48) || (uchar c >? 57) = negb (isdigit c).
Proof. by_byte c. Qed.
Lemma schar_not_digit c : (schar c <? 48) || (schar c >? 57) = negb (isdigit c).
Proof. by_byte c. Qed.

Lemma ConsumeDecimalNumber_loop_spec ds rest v :
  all_digits_in ds -> (forall c, head rest = Some c -> isdigit c = false) -> is_uint 64 v ->
  StringConsumeDecimalNumber_loop (ds ++ rest) v =
    if value v ds <=? kuint64max then Some (rest, value v ds) else None.
Proof.
  intros Hds Hr. revert v. induction Hds as [|c ds Hc Hds IH]; intros v Hv.
  - cbn [app value foldl]. rewrite (proj2 (Z.leb_le _ _)) by (unfold is_uint in Hv; unfold kuint64max; lia).
    destruct rest as [|c rest]; [done|]. cbn [StringConsumeDecimalNumber_loop]. rewrite uchar_not_digit. by rewrite (Hr c).
  - cbn [app StringConsumeDecimalNumber_loop]. rewrite uchar_not_digit, Hc. cbn [negb].
    change (value v (c :: ds)) with (value (10 * v + digit_of c) ds).
    destruct (isdigit_inv c Hc) as [Hd _]. pose proof (value_pos (10 * v + digit_of c) ds Hds) as Hm.
    unfold is_uint in Hv. rewrite (uchar_digit c Hc). change kuint64max with 18446744073709551615 in *.
    change (18446744073709551615 / 10) with 1844674407370955161. change kLastDigitOfMaxUint64 with 53.
    rewrite !Z.gtb_ltb.
    destruct (Z.ltb_spec 1844674407370955161 v), (Z.eqb_spec v 1844674407370955161), (Z.ltb_spec 53 (48 + digit_of c));
      cbn [orb andb]; try (by rewrite (proj2 (Z.leb_gt _ _)) by lia);
      rewrite (wrap_small 64 (v * 10)), wrap_small by (unfold is_uint; lia);
      replace (v * 10 + (48 + digit_of c - 48)) with (10 * v + digit_of c) by lia;
      apply IH; unfold is_uint; lia.
Qed.

(** The division check detects every overflow of [v * 10 + d] and nothing else. *)
Lemma div8_overflow v d : is_uint 64 v -> 0 <= d < 10 ->
  (u64 (u64 (v * 10) + d) / 8 <? v) = (kuint64max <? 10 * v + d).
Proof.
  intros Hv Hd. unfold is_uint in Hv. rewrite (Z.add_comm (u64 _)), wrap_add_wrap. change kuint64max with (2 ^ 64 - 1).
  replace (d + v * 10) with (10 * v + d) by lia. unfold wrap.
  pose proof (Z.div_mod (10 * v + d) (2 ^ 64) ltac:(lia)) as Hdm. pose proof (Z.mod_pos_bound (10 * v + d) (2 ^ 64) ltac:(lia)) as Hm.
  set (k := (10 * v + d) / 2 ^ 64) in *. set (m := (10 * v + d) mod 2 ^ 64) in *.
  pose proof (Z.div_mod m 8 ltac:(lia)). pose proof (Z.mod_pos_bound m 8 ltac:(lia)).
  destruct (Z.ltb_spec (m / 8) v), (Z.ltb_spec (2 ^ 64 - 1) (10 * v + d)); try done; exfalso.
  - assert (k = 0) by (apply Z.div_small; lia). lia.
  - assert (1 <= k) by (apply Z.div_le_lower_bound; lia). lia.
Qed.

Lemma ConsumeLeadingDigits_loop_spec ds rest v :
  all_digits_in ds -> (forall c, head rest = Some c -> isdigit c = false) -> is_uint 64 v ->
  StringConsumeLeadingDigits_loop (ds ++ rest) v =
    if value v ds <=? kuint64max then Some (rest, value v ds) else None.
Proof.
  intros Hds Hr. revert v. induction Hds as [|c ds Hc Hds IH]; intros v Hv.
  - cbn [app value foldl]. rewrite (proj2 (Z.leb_le _ _)) by (unfold is_uint in Hv; unfold kuint64max; lia).
    destruct rest as [|c rest]; [done|]. cbn [StringConsumeLeadingDigits_loop]. rewrite schar_not_digit. by rewrite (Hr c).
  - cbn [app StringConsumeLeadingDigits_loop]. rewrite schar_not_digit, Hc. cbn [negb].
    change (value v (c :: ds)) with (value (10 * v + digit_of c) ds).
    destruct (isdigit_inv c Hc) as [Hd _]. pose proof (value_pos (10 * v + digit_of c) ds Hds) as Hm.
    fold (digit_of c). rewrite div8_overflow by done. unfold is_uint in Hv. change kuint64max with 18446744073709551615 in *.
    destruct (Z.ltb_spec 18446744073709551615 (10 * v + digit_of c)).
    { by rewrite (proj2 (Z.leb_gt _ _)) by lia. }
    rewrite (wrap_small 64 (v * 10)), wrap_small by (unfold is_uint; lia).
    replace (v * 10 + digit_of c) with (10 * v + digit_of c) by lia. apply IH. unfold is_uint. lia.
Qed.

Lemma value_fits_10 ds : all_digits_in ds -> is_uint 64 (value 0 ds) <-> (value 0 ds <=? kuint64max) = true.
Proof.
  intros Hds. pose proof (value_nonneg ds Hds). rewrite Z.leb_le. unfold is_uint, kuint64max. lia.
Qed.

(** (functional).  [StringConsumeDecimalNumber] and [StringConsumeLeadingDigits] take
    the longest run of digits off the front when its number fits 64 bits, each by an
    overflow check of its own, and change nothing otherwise; without a digit both
    return false, but the former then still stores a 0. *)
Theorem consume_digits (s : bytes) (val : Z) : exists ds rest,
  s = ds ++ rest /\ all_digits_in ds /\ (forall c, head rest = Some c -> isdigit c = false) /\
  (ds = [] -> StringConsumeDecimalNumber s val = (false, s, 0) /\ StringConsumeLeadingDigits s val = (false, s, val)) /\
  (ds <> [] -> is_uint 64 (value 0 ds) ->
     StringConsumeDecimalNumber s val = (true, rest, value 0 ds) /\
     StringConsumeLeadingDigits s val = (true, rest, value 0 ds)) /\
  (~ is_uint 64 (value 0 ds) ->
     StringConsumeDecimalNumber s val = (false, s, val) /\ StringConsumeLeadingDigits s val = (false, s, val)).
Proof.
  destruct (span_digits s) as (ds & rest & -> & Hds & Hr). exists ds, rest. do 3 (split; [done|]).
  unfold StringConsumeDecimalNumber, StringConsumeLeadingDigits.
  rewrite ConsumeDecimalNumber_loop_spec, ConsumeLeadingDigits_loop_spec by (done || by vm_compute).
  rewrite (value_fits_10 ds Hds), length_app. split; [intros ->|split; [intros Hne ->|intros Hov]].
  - cbn [app length value foldl]. change (0 <=? kuint64max) with true. cbn iota. rewrite (proj2 (Nat.ltb_ge _ _)), (proj2 (Nat.eqb_eq _ _)) by lia. done.
  - destruct ds as [|c ds]; [done|]. cbn [length]. rewrite (proj2 (Nat.ltb_lt _ _)) by lia.
    by rewrite (proj2 (Nat.eqb_neq _ _)) by lia.
  - by destruct (value 0 ds <=? kuint64max).
Qed.

(** (roundtrip).  Every parser reads back what the printers write. *)
Theorem printed_numbers_parse (v : Z) (s : bytes) (Hs : signed_decimal v s) :
  (- 2 ^ 31 <= v < 2 ^ 31 -> SafeStrToInt32 s = Some (Some v)) /\
  (is_int64 v -> SafeStrToInt64 s = Some (Some v)) /\
  (is_uint 32 v -> SafeStrToUint32 s = Some (Some v)) /\
  (is_uint 64 v -> forall val, StringConsumeDecimalNumber s val = (true, [], v) /\ StringConsumeLeadingDigits s val = (true, [], v)).
Proof.
  assert (Ht : exists neg ds, s = (if neg : bool then [minus] else []) ++ ds /\ all_digits_in ds /\ ds <> [] /\
      v = signed_value neg ds /\ neg = (v <? 0)).
  { unfold signed_decimal in Hs. destruct (Z.ltb_spec v 0).
    - destruct Hs as (t & -> & Ht). exists true, t. pose proof (decimal_value _ _ Ht).
      repeat split; [by eapply decimal_digits|by eapply decimal_nonempty|lia].
    - exists false, s. pose proof (decimal_value _ _ Hs). repeat split; [by eapply decimal_digits|by eapply decimal_nonempty|lia]. }
  destruct Ht as (neg & ds & -> & Hds & Hne & Hv & Hneg).
  assert (Hi : int_text ((if neg then [minus] else []) ++ ds) neg ds).
  { split; [done|]. split; [done|]. exists [], []. by rewrite app_nil_r. }
  split; [|split; [|split]].
  - intros H. destruct (SafeStrToInt32_spec ((if neg then [minus] else []) ++ ds)) as (r & -> & Hr). apply Hr. by exists neg, ds.
  - intros H. destruct (SafeStrToInt64_spec ((if neg then [minus] else []) ++ ds)) as (r & -> & Hr). apply Hr. by exists neg, ds.
  - intros H. assert (neg = false) as -> by (subst neg; apply Z.ltb_ge; unfold is_uint in H; lia).
    destruct (SafeStrToUint32_spec ([] ++ ds)) as (r & -> & Hr). apply Hr. by exists ds.
  - intros H val. assert (neg = false) as -> by (subst neg; apply Z.ltb_ge; unfold is_uint in H; lia). cbn [app].
    unfold StringConsumeDecimalNumber, StringConsumeLeadingDigits. rewrite <-(app_nil_r ds).
    rewrite ConsumeDecimalNumber_loop_spec, ConsumeLeadingDigits_loop_spec by (done || by vm_compute).
    rewrite (proj1 (value_fits_10 ds Hds)) by congruence. rewrite app_nil_r. cbn [length]. rewrite Hv.
    destruct ds as [|c ds]; [done|]. done.
Qed.
(** ** Hexadecimal *)

Definition hexdigit (d : Z) : byte := nth (Z.to_nat d) hexdigits nul.

(** The last [n] hexadecimal digits of a number. *)
Fixpoint hex_fixed (n : nat) (v : Z) : bytes :=
  match n with
  | O => []
  | S n => hex_fixed n (v / 16) ++ [hexdigit (v mod 16)]
  end.

(** The value of a hexadecimal digit, of either case. *)
Definition hex_of (c : byte) : option Z :=
  let c := schar c in
  if (48 <=? c) && (c <=? 57) then Some (c - 48)
  else if (97 <=? c) && (c <=? 102) then Some (10 + (c - 97))
  else if (65 <=? c) && (c <=? 70) then Some (10 + (c - 65))
  else None.
Fixpoint hex_value (acc : Z) (s : bytes) : option Z :=
  match s with
  | [] => Some acc
  | c :: s => d ← hex_of c; hex_value (16 * acc + d) s
  end.

Lemma all_nibbles (P : Z -> bool) : forallb P (map Z.of_nat (seq 0 16)) = true -> forall d, 0 <= d < 16 -> P d = true.
Proof.
  intros Hall d Hd. rewrite forallb_forall in Hall. apply Hall, in_map_iff. exists (Z.to_nat d).
  split; [lia|apply in_seq; lia].
Qed.

Lemma hexdigits_lookup d : 0 <= d < 16 -> hexdigits !! Z.to_nat d = Some (hexdigit d).
Proof.
  intros Hd. apply (bool_decide_eq_true_1 _). revert d Hd.
  apply (all_nibbles (fun d => bool_decide (hexdigits !! Z.to_nat d = Some (hexdigit d)))). by vm_compute.
Qed.
Lemma hex_of_hexdigit d : 0 <= d < 16 -> hex_of (hexdigit d) = Some d.
Proof.
  intros Hd. apply (bool_decide_eq_true_1 _). revert d Hd.
  apply (all_nibbles (fun d => bool_decide (hex_of (hexdigit d) = Some d))). by vm_compute.
Qed.

Lemma land15 v : v .& 0xf = v mod 16.
Proof. change 0xf with (Z.ones 4). by rewrite Z.land_ones. Qed.

Lemma length_hex_fixed n v : length (hex_fixed n v) = n.
Proof. revert v. induction n as [|n IH]; intros v; [done|]. cbn [hex_fixed]. rewrite length_app, IH. cbn. lia. Qed.

Lemma hex_loop_spec n v pre old post :
  length old = n -> hex_loop n v (pre ++ old ++ post) (Z.of_nat (length pre)) = Some (pre ++ hex_fixed n v ++ post).
Proof.
  revert v old post. induction n as [|n IH]; intros v old post Hl; [by destruct old|].
  destruct old as [|x old _] using rev_ind; [done|]. rewrite length_app in Hl. cbn [length] in Hl.
  cbn [hex_loop]. rewrite land15. rewrite hexdigits_lookup by (by apply Z.mod_pos_bound). cbn [mbind option_bind].
  replace (pre ++ (old ++ [x]) ++ post) with ((pre ++ old) ++ x :: post) by (by rewrite <-!app_assoc).
  rewrite poke_app by (rewrite length_app; lia). cbn [mbind option_bind]. rewrite <-app_assoc.
  rewrite Z.shiftr_div_pow2 by done. rewrite (IH _ old) by lia. cbn [hex_fixed]. by rewrite <-!app_assoc.
Qed.

(** Taking the digit from the low half makes no difference. *)
Lemma UIntToHexBuffer_loop_hex n v buffer p : UIntToHexBuffer_loop n v buffer p = hex_loop n v buffer p.
Proof.
  revert v buffer. induction n as [|n IH]; intros v buffer; [done|]. cbn [UIntToHexBuffer_loop hex_loop].
  assert (u32 v .& 0xf = v .& 0xf) as ->.
  { rewrite !land15. unfold wrap. change (2 ^ 32) with (16 * 2 ^ 28). rewrite Z.rem_mul_r by lia.
    rewrite (Z.mul_comm 16), Z.mod_add, Z.mod_mod by lia. done. }
  destruct (hexdigits !! _); [|done]. cbn [mbind option_bind]. destruct (poke _ _ _); [|done]. apply IH.
Qed.

Lemma UIntToHexBufferInternal_spec num v pre old post :
  0 <= num -> Z.of_nat (length old) = 2 * num ->
  UIntToHexBufferInternal v (pre ++ old ++ post) (Z.of_nat (length pre)) num =
    Some (pre ++ hex_fixed (length old) v ++ post, Z.of_nat (length pre) + 2 * num).
Proof.
  intros Hn Hl. unfold UIntToHexBufferInternal. rewrite UIntToHexBuffer_loop_hex.
  replace (Z.to_nat (2 * num)) with (length old) by lia. by rewrite hex_loop_spec.
Qed.

Lemma hex_value_app acc s t : hex_value acc (s ++ t) = (a ← hex_value acc s; hex_value a t).
Proof.
  revert acc. induction s as [|c s IH]; intros acc; [done|]. cbn [app hex_value].
  destruct (hex_of c); [|done]. apply IH.
Qed.

Lemma hex_value_fixed n v : hex_value 0 (hex_fixed n v) = Some (v mod 16 ^ Z.of_nat n).
Proof.
  revert v. induction n as [|n IH]; intros v; [cbn; by rewrite Z.mod_1_r|].
  cbn [hex_fixed]. rewrite hex_value_app, IH. cbn [mbind option_bind hex_value].
  rewrite hex_of_hexdigit by (by apply Z.mod_pos_bound). cbn [mbind option_bind]. f_equal.
  rewrite Nat2Z.inj_succ, Z.pow_succ_r by lia. rewrite Z.rem_mul_r; lia.
Qed.

Lemma HexStringToUint64_loop_spec s v acc :
  v = u64 acc -> HexStringToUint64_loop s v = (a ← hex_value acc s; Some (u64 a)).
Proof.
  assert (Hstep : forall acc d, u64 (u64 (u64 acc .<< 4) + d) = u64 (16 * acc + d)).
  { intros a d. rewrite Z.shiftl_mul_pow2 by done. change (2 ^ 4) with 16.
    rewrite (Z.add_comm (u64 _)), wrap_add_wrap. rewrite (Z.mul_comm _ 16), wrap_add_mul. f_equal. lia. }
  revert v acc. induction s as [|c s IH]; intros v acc ->; [done|]. cbn [HexStringToUint64_loop hex_value]. unfold hex_of.
  destruct ((48 <=? schar c) && (schar c <=? 57)); [cbn [mbind option_bind]; apply IH, Hstep|].
  destruct ((97 <=? schar c) && (schar c <=? 102)); [cbn [mbind option_bind]; rewrite <-Z.add_assoc; apply IH, Hstep|].
  destruct ((65 <=? schar c) && (schar c <=? 70)); [cbn [mbind option_bind]; rewrite <-Z.add_assoc; apply IH, Hstep|]. done.
Qed.

Lemma HexStringToUint64_spec s : s <> [] -> HexStringToUint64 s = (a ← hex_value 0 s; Some (u64 a)).
Proof. intros Hne. unfold HexStringToUint64. rewrite bool_decide_eq_false_2 by done. by apply HexStringToUint64_loop_spec. Qed.

(** (roundtrip).  The hexadecimal printers write exactly two lower-case digits for
    each byte of the type -- into the buffer at the place given, with a NUL, or as a
    string -- and [HexStringToUint64] reads the number back; on any string it gives the
    number modulo [2^64] when all characters are hexadecimal digits of either case, and
    refuses the rest. *)
Theorem hex_numbers (v : Z) (Hv : is_uint 64 v) :
  (forall s, HexStringToUint64 s = if bool_decide (s = []) then None else u64 <$> hex_value 0 s) /\
  HexStringToUint64 (hex_fixed 16 v) = Some v /\
  UInt64ToHexString v = Some (hex_fixed 16 v) /\
  (is_uint 32 v -> UInt32ToHexString v = Some (hex_fixed 8 v) /\ HexStringToUint64 (hex_fixed 8 v) = Some v) /\
  (is_uint 16 v -> UInt16ToHexString v = Some (hex_fixed 4 v) /\ HexStringToUint64 (hex_fixed 4 v) = Some v) /\
  (forall buf, (17 <= length buf)%nat -> Uint64ToHexString v buf = Some (hex_fixed 16 v, holds buf 0 (hex_fixed 16 v))) /\
  (forall buf p, 0 <= p -> p + 16 < Z.of_nat (length buf) -> UInt64ToHexString_buffer v buf p = Some (holds buf p (hex_fixed 16 v))).
Proof.
  assert (Hread : forall n, (0 < n)%nat -> is_uint (4 * Z.of_nat n) v -> HexStringToUint64 (hex_fixed n v) = Some v).
  { intros n Hn Hs. rewrite HexStringToUint64_spec by (intros E; apply (f_equal length) in E; rewrite length_hex_fixed in E; cbn in E; lia).
    rewrite hex_value_fixed. cbn [mbind option_bind]. unfold is_uint in Hs. rewrite Z.pow_mul_r in Hs by lia. change (2 ^ 4) with 16 in Hs.
    by rewrite Z.mod_small, wrap_small. }
  assert (Hprint : forall num n, Z.of_nat n = 2 * num ->
    ('(buffer, q) ← UIntToHexBufferInternal v (replicate (S n) nul) 0 num; Some (take (Z.to_nat q) buffer)) = Some (hex_fixed n v)).
  { intros num n Hn. replace (replicate (S n) nul) with ([] ++ replicate n nul ++ [nul]) by (by rewrite <-replicate_cons_app).
    pose proof (UIntToHexBufferInternal_spec num v [] (replicate n nul) [nul]) as Hs. rewrite length_replicate in Hs.
    cbn [length] in Hs. change (Z.of_nat 0) with 0 in Hs. rewrite Hs by lia. cbn [mbind option_bind app].
    f_equal. apply take_app_length'. rewrite length_hex_fixed. lia. }
  split; [|split; [|split; [|split; [|split; [|split]]]]].
  - intros s. destruct (bool_decide_reflect (s = [])) as [->|Hne]; [done|]. rewrite HexStringToUint64_spec by done. by destruct (hex_value 0 s).
  - by apply Hread; [lia|].
  - by apply (Hprint 8 16%nat).
  - intros H. split; [by apply (Hprint 4 8%nat)|by apply Hread; [lia|]].
  - intros H. split; [by apply (Hprint 2 4%nat)|by apply Hread; [lia|]].
  - intros buf Hb. destruct (buffer_room buf 0 16 ltac:(lia) ltac:(lia)) as (pre & old & y & post & -> & E & Hl).
    destruct pre; [|cbn in E; lia]. unfold Uint64ToHexString. cbn [app] in *.
    rewrite (poke_app old) by lia. cbn [mbind option_bind]. pose proof (hex_loop_spec 16 v [] old (nul :: post) Hl) as Hh.
    cbn [app length] in Hh. change (Z.of_nat 0) with 0 in Hh. rewrite Hh. cbn [mbind option_bind]. do 2 f_equal.
    symmetry. exact (holds_app [] old y post (hex_fixed 16 v) Hl).
  - intros buf p Hp Hb. destruct (buffer_room buf p 16 Hp Hb) as (pre & old & y & post & -> & -> & Hl).
    unfold UInt64ToHexString_buffer, WriteHexUInt64ToBuffer. rewrite UIntToHexBufferInternal_spec by lia.
    rewrite holds_app by done. cbn [mbind option_bind]. rewrite app_assoc, Hl.
    rewrite poke_app by (rewrite length_app, length_hex_fixed; lia). by rewrite <-app_assoc.
Qed.

(** ** Witnesses *)

Lemma printed_numbers_parse_witness : SafeStrToInt32 (minus :: map digit [1; 2]) = Some (Some (-12)).
Proof.
  apply (printed_numbers_parse (-12)); [|lia]. eexists. split; [reflexivity|].
  apply (decimal_of_digits (map digit [1; 2])); [repeat constructor|done|done].
Defined.

Lemma hex_numbers_witness : HexStringToUint64 (hex_fixed 16 0xdeadbeef) = Some 0xdeadbeef.
Proof. exact (proj1 (proj2 (hex_numbers 0xdeadbeef ltac:(by vm_compute)))). Defined.
