(* ===== verification/Ascii.v ===== *)
(** * Ascii: character classes and text encodings of bytes, [src/util/string_util.h] and
    [src/util/string_util.cpp]

    An array is the list of its bytes and an access out of it is [None]; a C string is
    an array read up to its NUL.  A [char] is signed. *)

From S2P Require Import Prelude Decimal Numbers Random.
#[local] Open Scope Z_scope.

(** ** Characters *)

Definition between (lo hi : Z) (c : byte) : bool := (lo <=? schar c) && (schar c <=? hi).

Definition IsAsciiVisible (c : byte) : bool := between 0x20 0x7e c.
Definition IsAsciiWhitespace (c : byte) : bool := (schar c =? 32) || (schar c =? 13) || (schar c =? 10) || (schar c =? 9).
Definition IsAsciiAlnum (c : byte) : bool := between 97 122 c || between 65 90 c || between 48 57 c.
Definition IsAsciiDigit (c : byte) : bool := between 48 57 c.
Definition IsAsciiSpace (c : byte) : bool :=
  (schar c =? 32) || (schar c =? 9) || (schar c =? 10) || (schar c =? 11) || (schar c =? 12) || (schar c =? 13).
Definition IsAsciiUpper (c : byte) : bool := between 65 90 c.
Definition IsAsciiLower (c : byte) : bool := between 97 122 c.
Definition IsOctalDigit (c : byte) : bool := between 48 55 c.
Definition IsHexDigit (c : byte) : bool := between 48 57 c || between 65 70 c || between 97 102 c.

Definition ToHexAscii (v : Z) : byte := if v <=? 9 then to_byte (48 + v) else to_byte (65 + v - 10).
Definition FromHexAscii (c : byte) : Z :=
  if negb (IsHexDigit c) then 0
  else if between 48 57 c then schar c - 48
  else if between 65 70 c then schar c - 65 + 10
  else if between 97 102 c then schar c - 97 + 10
  else 0.
Definition ToLowerAscii (c : byte) : byte := if between 65 90 c then to_byte (schar c + (97 - 65)) else c.
Definition ToUpperAscii (c : byte) : byte := if between 97 122 c then to_byte (schar c + (65 - 97)) else c.

(** The C library's case conversions, in the C locale, stored into a [char]. *)
Definition toupper : byte -> byte := ToUpperAscii.
Definition tolower : byte -> byte := ToLowerAscii.

Definition StringToUpper (str : bytes) : bytes := map toupper str.
Definition StringToLower (str : bytes) : bytes := map tolower str.
Definition Lowercase (s : bytes) : bytes := map tolower s.
Definition Uppercase (s : bytes) : bytes := map toupper s.

(** The loop keeps whether the next character starts a word. *)
Fixpoint TitlecaseString_loop (upper : bool) (s delimiters : bytes) : bytes :=
  match s with
  | [] => []
  | c :: s =>
      let c := if upper then toupper c else c in
      c :: TitlecaseString_loop (bool_decide (c ∈ delimiters)) s delimiters
  end.
Definition TitlecaseString (s delimiters : bytes) : bytes := TitlecaseString_loop true s delimiters.

(** C strings: the position is in [src], the output goes to another array. *)
Fixpoint Str2Upper (src dest : bytes) (d : Z) : option bytes :=
  match src with
  | [] => None
  | c :: src =>
      if bool_decide (c = nul) then poke dest d nul
      else
        dest ← poke dest d (if between 97 122 c then to_byte (schar c - 32) else c);
        Str2Upper src dest (d + 1)
  end.
Fixpoint Str2Lower (src dest : bytes) (d : Z) : option bytes :=
  match src with
  | [] => None
  | c :: src =>
      if bool_decide (c = nul) then poke dest d nul
      else
        dest ← poke dest d (if between 65 90 c then to_byte (schar c + 32) else c);
        Str2Lower src dest (d + 1)
  end.

(** ** Hexadecimal *)

Fixpoint DebugString_loop (src dst : bytes) (j : Z) : option (bytes * Z) :=
  match src with
  | [] => Some (dst, j)
  | c :: src =>
      if IsAsciiVisible c then
        dst ← poke dst j c;
        DebugString_loop src dst (j + 1)
      else
        dst ← poke dst j x5c;
        dst ← poke dst (j + 1) x78;
        dst ← poke dst (j + 2) (ToHexAscii (uchar c .>> 4));
        dst ← poke dst (j + 3) (ToHexAscii (uchar c .& 0xf));
        DebugString_loop src dst (j + 4)
  end.
Definition DebugString (src : bytes) : option bytes :=
  '(dst, j) ← DebugString_loop src (replicate (4 * length src) nul) 0;
  Some (take (Z.to_nat j) dst).

Fixpoint Bin2HexStr_loop (data result : bytes) (i : Z) : option bytes :=
  match data with
  | [] => Some result
  | b :: data =>
      hi ← hexdigits !! Z.to_nat ((uchar b .& 0xf0) .>> 4);
      lo ← hexdigits !! Z.to_nat (uchar b .& 0x0f);
      result ← poke result (2 * i) hi;
      result ← poke result (2 * i + 1) lo;
      Bin2HexStr_loop data result (i + 1)
  end.
Definition Bin2HexStr (data : bytes) : option bytes :=
  if (length data <=? 0)%nat then Some []
  else Bin2HexStr_loop data (replicate (2 * length data) x20) 0.

(** The digit of a character, or none when the loop continues. *)
Definition hex_digit_char (c : byte) : option Z :=
  let c := schar c in
  if (c >? 47) && (c <? 58) then Some (c - 48)
  else if (c >? 64) && (c <? 71) then Some (c - (65 - 10))
  else if (c >? 96) && (c <? 103) then Some (c - (97 - 10))
  else None.
(** The loop looks at every other character; [b] is the [char] kept from the first. *)
Fixpoint Hex2binStr_loop (src : bytes) (i : Z) (b : Z) (first : bool) (data : bytes) : option bytes :=
  match src with
  | c :: _ :: src =>
      match hex_digit_char c with
      | None => Hex2binStr_loop src (i + 2) b first data
      | Some d =>
          if first then Hex2binStr_loop src (i + 2) (i8 (d .<< 4)) (negb first) data
          else
            data ← poke data (i / 2) (to_byte (b + d));
            Hex2binStr_loop src (i + 2) b (negb first) data
      end
  | _ => Some data
  end.
(** The value returned and the buffer.  [b] is set before it is used. *)
Definition Hex2binStr (src data : bytes) (len : Z) : option (bool * bytes) :=
  let str_len := Z.of_nat (length src) in
  if negb (str_len mod 2 =? 0) || (str_len >=? u64 (2 * len)) then Some (false, data)
  else data ← Hex2binStr_loop src 0 0 true data; Some (true, data).

Definition CHR2DIG (c : byte) : Z :=
  if between 48 57 c then schar c - 48
  else if between 97 102 c then schar c - 97 + 0x0a
  else schar c - 65 + 0x0a.
Definition DIG2CHR (dig : Z) : byte := if dig <=? 0x09 then to_byte (48 + dig) else to_byte (97 + dig - 0x0a).

Fixpoint Str2Hex_loop (n : nat) (i : Z) (str hex : bytes) : option bytes :=
  match n with
  | O => Some hex
  | S n =>
      c1 ← str !! Z.to_nat (i * 2);
      c2 ← str !! Z.to_nat (i * 2 + 1);
      hex ← poke hex i (to_byte (((CHR2DIG c1 .<< 4) .& 0xf0) + CHR2DIG c2));
      Str2Hex_loop n (i + 1) str hex
  end.
Definition Str2Hex (str hex : bytes) (len : nat) : option bytes := Str2Hex_loop len 0 str hex.

Fixpoint Hex2Str_loop (n : nat) (i : Z) (data str : bytes) : option bytes :=
  match n with
  | O => Some str
  | S n =>
      b ← data !! Z.to_nat i;
      str ← poke str (i * 2) (DIG2CHR ((uchar b .>> 4) .& 0x0f));
      str ← poke str (i * 2 + 1) (DIG2CHR (uchar b .& 0x0f));
      Hex2Str_loop n (i + 1) data str
  end.
Definition Hex2Str (data : bytes) (len : nat) (str : bytes) : option bytes :=
  str ← Hex2Str_loop len 0 data str;
  poke str (Z.of_nat len * 2) nul.

Definition IsHexNumberString (str : bytes) : bool :=
  let starting_location :=
    if (2 <? length str)%nat && bool_decide (str !! 0%nat = Some x30) && bool_decide (str !! 1%nat = Some x78) then 2%nat else 0%nat in
  if forallb IsHexDigit (drop starting_location str) then (starting_location <? length str)%nat else false.

(** [ParseHex] reads a C string; reading past its array is [None]. *)
Fixpoint ParseHex_loop (psz : bytes) (half : option Z) (vch : list Z) : option (list Z) :=
  match psz with
  | [] => None
  | c :: psz =>
      match half with
      | None =>
          if isspace c then ParseHex_loop psz None vch
          else if negb (IsHexDigit c) then Some vch
          else ParseHex_loop psz (Some (u8 (schar c .<< 4))) vch
      | Some n =>
          if negb (IsHexDigit c) then Some vch
          else ParseHex_loop psz None (vch ++ [u8 (n .| schar c)])
      end
  end.
Definition ParseHex (psz : bytes) : option (list Z) := ParseHex_loop psz None [].
(** ** Printable escapes *)

Fixpoint poke_all (buffer : bytes) (p : Z) (text : bytes) : option bytes :=
  match text with
  | [] => Some buffer
  | c :: text => buffer ← poke buffer p c; poke_all buffer (p + 1) text
  end.
(** What [sprintf] stores, and [snprintf] in [size] bytes; both return the length of
    the text. *)
Definition sprintf (buffer : bytes) (p : Z) (text : bytes) : option (bytes * Z) :=
  buffer ← poke_all buffer p (text ++ [nul]); Some (buffer, Z.of_nat (length text)).
Definition snprintf (buffer : bytes) (p size : Z) (text : bytes) : option (bytes * Z) :=
  if size =? 0 then Some (buffer, Z.of_nat (length text))
  else buffer ← poke_all buffer p (take (Z.to_nat (size - 1)) text ++ [nul]); Some (buffer, Z.of_nat (length text)).

Definition backslash : byte := x5c.

Fixpoint StringBinToHex_loop (str ret : bytes) (msize n : Z) : option (bytes * Z) :=
  match str with
  | [] => Some (ret, n)
  | c :: str =>
      if n <? u64 (msize - 4) then
        '(ret, k) ← snprintf ret n (u64 (msize - n)) (backslash :: hex_fixed 2 (uchar c));
        StringBinToHex_loop str ret msize (u64 (n + k))
      else Some (ret, n)
  end.
(** The buffer and the number returned. *)
Definition StringBinToHex (str ret : bytes) (msize : Z) : option (bytes * Z) :=
  '(ret, n) ← StringBinToHex_loop str ret msize 0;
  ret ← poke ret n nul;
  Some (ret, n).

(** The character is promoted to [int]: a negative one prints with eight digits. *)
Definition escape_ascii (c : byte) : bytes :=
  if between 33 126 c then [c] else backslash :: format_X 2 (u32 (schar c)).
Fixpoint StringBinToAscii_loop (str ret : bytes) (msize i : Z) : option (bytes * Z) :=
  match str with
  | [] => Some (ret, i)
  | c :: str =>
      if i <? u64 (msize - 4) then
        '(ret, k) ← sprintf ret i (escape_ascii c);
        StringBinToAscii_loop str ret msize (u64 (i + k))
      else Some (ret, i)
  end.
Definition StringBinToAscii (str ret : bytes) (msize : Z) : option (bytes * Z) :=
  '(ret, i) ← StringBinToAscii_loop str ret msize 0;
  ret ← poke ret i nul;
  Some (ret, i).

Definition escape_digit (c : byte) : Z :=
  let c := if between 65 90 c then tolower c else c in
  if between 48 57 c then uchar c - 48 else uchar c - 97 + 10.
Fixpoint StringAsciiToBin_loop (p result : bytes) (index size : Z) : option (bytes * Z) :=
  match p with
  | [] => None
  | c :: rest =>
      if bool_decide (c = nul) then Some (result, index)
      else if negb (index <? u64 (size - 1)) then Some (result, index)
      else if bool_decide (c = backslash) then
        match rest with
        | c1 :: c2 :: rest =>
            if bool_decide (c1 = nul) || bool_decide (c2 = nul) then Some (result, index)
            else
              result ← poke result index (to_byte ((escape_digit c1 * 16 + escape_digit c2) .& 0xff));
              StringAsciiToBin_loop rest result (index + 1) size
        | _ => None
        end
      else
        result ← poke result index c;
        StringAsciiToBin_loop rest result (index + 1) size
  end.
Definition StringAsciiToBin (str result : bytes) (size : Z) : option (bytes * Z) :=
  StringAsciiToBin_loop str result 0 size.
(** ** Writing runs of bytes *)

Lemma poke_all_app pre old post text p :
  p = Z.of_nat (length pre) -> length old = length text ->
  poke_all (pre ++ old ++ post) p text = Some (pre ++ text ++ post).
Proof.
  revert pre old p. induction text as [|c text IH]; intros pre old p -> Hl; [by destruct old|].
  destruct old as [|x old]; [done|]. injection Hl as Hl. cbn [poke_all app]. rewrite poke_app by done.
  cbn [mbind option_bind]. rewrite (cons_middle _ pre), app_assoc.
  rewrite (IH (pre ++ [c]) old) by (rewrite ?length_app; cbn; lia || done). by rewrite <-app_assoc.
Qed.

Lemma split_room (n : nat) (l : bytes) : (n <= length l)%nat -> exists old post, l = old ++ post /\ length old = n.
Proof. intros H. destruct (split_at_length n l H) as (a & b & E & El). eauto. Qed.

(** The two hexadecimal digits of a byte. *)
Definition hex_pair (b : byte) : bytes := hex_fixed 2 (uchar b).

Lemma hex_pair_digits b : hex_pair b = [hexdigit (uchar b / 16); hexdigit (uchar b mod 16)].
Proof. by_byte b. Qed.

Lemma Bin2HexStr_step b :
  hexdigits !! Z.to_nat ((uchar b .& 0xf0) .>> 4) = Some (hexdigit (uchar b / 16)) /\
  hexdigits !! Z.to_nat (uchar b .& 0x0f) = Some (hexdigit (uchar b mod 16)).
Proof. split; by_byte b. Qed.

Lemma length_hex_pairs data : length (flat_map hex_pair data) = (2 * length data)%nat.
Proof. induction data as [|b data IH]; [done|]. cbn [flat_map]. rewrite length_app, IH, hex_pair_digits. cbn. lia. Qed.

Lemma Bin2HexStr_loop_spec data pre old i :
  Z.of_nat (length pre) = 2 * i -> length old = (2 * length data)%nat ->
  Bin2HexStr_loop data (pre ++ old) i = Some (pre ++ flat_map hex_pair data).
Proof.
  revert pre old i. induction data as [|b data IH]; intros pre old i Hp Ho; [by destruct old|].
  cbn [length] in Ho. destruct old as [|x [|y old]]; cbn [length] in Ho; try lia.
  cbn [Bin2HexStr_loop flat_map]. destruct (Bin2HexStr_step b) as [-> ->]. cbn [mbind option_bind].
  rewrite poke_app by lia. cbn [mbind option_bind]. rewrite (cons_middle _ pre), app_assoc.
  rewrite poke_app by (rewrite length_app; cbn; lia). cbn [mbind option_bind].
  rewrite (cons_middle _ (pre ++ _)), app_assoc. rewrite IH by (rewrite ?length_app; cbn; lia).
  rewrite hex_pair_digits. by rewrite <-!app_assoc.
Qed.

Lemma DIG2CHR_hexdigit b :
  DIG2CHR ((uchar b .>> 4) .& 0x0f) = hexdigit (uchar b / 16) /\ DIG2CHR (uchar b .& 0x0f) = hexdigit (uchar b mod 16).
Proof. split; by_byte b. Qed.

Lemma Hex2Str_loop_spec d1 d2 d3 pre old post :
  length pre = (2 * length d1)%nat -> length old = (2 * length d2)%nat ->
  Hex2Str_loop (length d2) (Z.of_nat (length d1)) (d1 ++ d2 ++ d3) (pre ++ old ++ post) = Some (pre ++ flat_map hex_pair d2 ++ post).
Proof.
  revert d1 pre old. induction d2 as [|b d2 IH]; intros d1 pre old Hp Ho; [by destruct old|].
  cbn [length] in Ho. destruct old as [|x [|y old]]; cbn [length] in Ho; try lia.
  cbn [Hex2Str_loop length flat_map app]. rewrite Nat2Z.id, list_lookup_middle by done. cbn [mbind option_bind].
  destruct (DIG2CHR_hexdigit b) as [-> ->].
  rewrite poke_app by lia. cbn [mbind option_bind]. rewrite (cons_middle _ pre), app_assoc.
  rewrite poke_app by (rewrite length_app; cbn; lia). cbn [mbind option_bind].
  rewrite (cons_middle _ (pre ++ _)), app_assoc.
  rewrite (cons_middle b d1), (app_assoc d1). replace (Z.of_nat (length d1) + 1) with (Z.of_nat (length (d1 ++ [b]))) by (rewrite length_app; cbn; lia).
  rewrite IH by (rewrite ?length_app; cbn; lia). rewrite hex_pair_digits. by rewrite <-!app_assoc.
Qed.

Lemma CHR2DIG_hex_pair b :
  to_byte (((CHR2DIG (hexdigit (uchar b / 16)) .<< 4) .& 0xf0) + CHR2DIG (hexdigit (uchar b mod 16))) = b.
Proof. by_byte b. Qed.

Lemma Str2Hex_loop_spec s1 d s2 pre old post :
  length s1 = (2 * length pre)%nat -> length old = length d ->
  Str2Hex_loop (length d) (Z.of_nat (length pre)) (s1 ++ flat_map hex_pair d ++ s2) (pre ++ old ++ post) = Some (pre ++ d ++ post).
Proof.
  revert s1 pre old. induction d as [|b d IH]; intros s1 pre old Hs Ho; [by destruct old|].
  destruct old as [|x old]; [done|]. injection Ho as Ho. cbn [Str2Hex_loop length flat_map app].
  rewrite hex_pair_digits. cbn [app].
  set (str := s1 ++ hexdigit (uchar b / 16) :: hexdigit (uchar b mod 16) :: flat_map hex_pair d ++ s2).
  assert (str !! Z.to_nat (Z.of_nat (length pre) * 2) = Some (hexdigit (uchar b / 16))) as -> by (apply list_lookup_middle; lia).
  assert (str !! Z.to_nat (Z.of_nat (length pre) * 2 + 1) = Some (hexdigit (uchar b mod 16))) as ->.
  { subst str. rewrite (cons_middle _ s1), (app_assoc s1). apply list_lookup_middle. rewrite length_app. cbn. lia. }
  subst str. cbn [mbind option_bind].
  rewrite CHR2DIG_hex_pair, poke_app by done. cbn [mbind option_bind].
  rewrite (cons_middle _ s1), (app_assoc s1), (cons_middle _ (s1 ++ _)), (app_assoc (s1 ++ _)), (cons_middle _ pre), (app_assoc pre).
  replace (Z.of_nat (length pre) + 1) with (Z.of_nat (length (pre ++ [b]))) by (rewrite length_app; cbn; lia).
  rewrite IH by (rewrite ?length_app; cbn; lia). by rewrite <-app_assoc.
Qed.

Lemma hex_pairs_digits data : forallb IsHexDigit (flat_map hex_pair data) = true.
Proof.
  induction data as [|b data IH]; [done|]. cbn [flat_map]. rewrite hex_pair_digits. cbn [app forallb]. rewrite IH.
  clear. by_byte b.
Qed.

(** (roundtrip).  [Bin2HexStr] and [Hex2Str] print the same two lower-case digits for
    each byte, the latter into an array with room for them and a NUL; the result is a
    hexadecimal number string, and [Str2Hex] recovers the bytes. *)
Theorem bin_hex_roundtrip (data : bytes) :
  let text := flat_map hex_pair data in
  Bin2HexStr data = Some text /\
  (forall str, (2 * length data < length str)%nat -> Hex2Str data (length data) str = Some (holds str 0 text)) /\
  (forall rest hex, (length data <= length hex)%nat ->
     Str2Hex (text ++ rest) hex (length data) = Some (data ++ drop (length data) hex)) /\
  (data <> [] -> IsHexNumberString text = true).
Proof.
  cbn zeta. split; [|split; [|split]].
  - unfold Bin2HexStr. destruct (Nat.leb_spec (length data) 0) as [H|H]; [destruct data; [done|cbn in H; lia]|].
    by apply (Bin2HexStr_loop_spec data []); [|rewrite length_replicate].
  - intros str Hs. destruct (buffer_room str 0 (2 * length data) ltac:(lia) ltac:(lia)) as (pre & old & y & post & -> & E & Hl).
    destruct pre; [|cbn in E; lia]. cbn [app]. unfold Hex2Str.
    pose proof (Hex2Str_loop_spec [] data [] [] old (y :: post) eq_refl Hl) as Hh. cbn [app length] in Hh.
    rewrite app_nil_r in Hh. change (Z.of_nat 0) with 0 in Hh. rewrite Hh. cbn [mbind option_bind].
    rewrite poke_app by (rewrite length_hex_pairs; lia). f_equal. symmetry.
    apply (holds_app [] old y post). by rewrite length_hex_pairs.
  - intros rest hex Hh. destruct (split_room (length data) hex Hh) as (old & post & -> & Hl). unfold Str2Hex.
    rewrite drop_app_length' by done. apply (Str2Hex_loop_spec [] data rest [] old post); done.
  - intros Hne. unfold IsHexNumberString. pose proof (hex_pairs_digits data) as Hall. pose proof (length_hex_pairs data).
    destruct data as [|b data]; [done|]. cbn [length] in *.
    assert (bool_decide (flat_map hex_pair (b :: data) !! 1%nat = Some x78) = false) as ->.
    { cbn [flat_map]. rewrite hex_pair_digits. cbn [app lookup]. clear. by_byte b. }
    rewrite andb_false_r. cbn [drop]. rewrite drop_0, Hall. by apply Nat.ltb_lt; lia.
Qed.
(** ** Reading hexadecimal text *)

Lemma poke_Some buffer i c : 0 <= i < Z.of_nat (length buffer) -> poke buffer i c = Some (<[Z.to_nat i := c]> buffer).
Proof. intros [H1 H2]. unfold poke. by rewrite (proj2 (Z.leb_le _ _) H1), (proj2 (Z.ltb_lt _ _) H2). Qed.

(** The first byte is never written: the first digit only fills the variable. *)
Lemma Hex2binStr_loop_first src k b first data :
  0 <= k -> (k = 0 -> first = true) -> 2 * k + Z.of_nat (length src) <= 2 * Z.of_nat (length data) ->
  exists data', Hex2binStr_loop src (2 * k) b first data = Some data' /\ length data' = length data /\ data' !! 0%nat = data !! 0%nat.
Proof.
  remember (length src) as n eqn:En. revert src k b first data En.
  induction n as [n IH] using (well_founded_induction Nat.lt_wf_0). intros [|c [|c' src]] k b first data -> Hk Hf Hl;
    cbn [Hex2binStr_loop length] in *; [by exists data..|]. replace (2 * k + 2) with (2 * (k + 1)) by lia.
  destruct (hex_digit_char c) as [d|]; cycle 1.
  { apply (IH (length src)); [lia|done|lia|intros; lia|lia]. }
  destruct first; cbn [negb].
  - apply (IH (length src)); [lia|done|lia|intros; lia|lia].
  - assert (k <> 0) by (intros E; by specialize (Hf E)). rewrite (Z.mul_comm 2 k), Z.div_mul by done. rewrite poke_Some by lia. cbn [mbind option_bind].
    destruct (IH (length src) ltac:(lia) src (k + 1) b true (<[Z.to_nat k := to_byte (b + d)]> data) eq_refl ltac:(lia) ltac:(intros; lia))
      as (data' & E & El & E0); [rewrite length_insert; lia|].
    exists data'. rewrite length_insert in El. split; [done|]. split; [done|]. rewrite E0. apply list_lookup_insert_ne. lia.
Qed.

(** (error).  [Hex2binStr] cannot read back what [Bin2HexStr] prints: it refuses a
    text that exactly fills the array, and never writes the first byte of the array,
    so that every text whose bytes start with another one than the array is decoded to
    something else. *)
Theorem hex2bin_str_loses (src data : bytes) (Hlen : Z.of_nat (length data) < 2 ^ 63) :
  let len := Z.of_nat (length data) in
  (Z.of_nat (length src) mod 2 <> 0 \/ 2 * len <= Z.of_nat (length src) -> Hex2binStr src data len = Some (false, data)) /\
  (Z.of_nat (length src) mod 2 = 0 -> Z.of_nat (length src) < 2 * len ->
     exists data', Hex2binStr src data len = Some (true, data') /\ length data' = length data /\ data' !! 0%nat = data !! 0%nat) /\
  (forall bs, bs <> [] -> head bs <> head data -> Z.of_nat (length bs) < len ->
     exists data', Hex2binStr (flat_map hex_pair bs) data len = Some (true, data') /\ take (length bs) data' <> bs).
Proof.
  cbn zeta. assert (Hok : forall src, Z.of_nat (length src) mod 2 = 0 -> Z.of_nat (length src) < 2 * Z.of_nat (length data) ->
    exists data', Hex2binStr src data (Z.of_nat (length data)) = Some (true, data') /\ length data' = length data /\ data' !! 0%nat = data !! 0%nat).
  { clear src. intros src Hm Hl. unfold Hex2binStr. rewrite wrap_small by (unfold is_uint; lia). rewrite Hm, geb_false by lia. cbn [negb orb Z.eqb].
    destruct (Hex2binStr_loop_first src 0 0 true data ltac:(lia) ltac:(done) ltac:(lia)) as (data' & E & H).
    change (2 * 0) with 0 in E. rewrite E. by exists data'. }
  split; [|split; [by apply Hok|]].
  - intros H. unfold Hex2binStr. rewrite wrap_small by (unfold is_uint; lia).
    destruct (Z.eqb_spec (Z.of_nat (length src) mod 2) 0); cbn [negb orb]; [|done]. rewrite geb_true by lia. done.
  - intros bs Hne Hh Hl. pose proof (length_hex_pairs bs).
    destruct (Hok (flat_map hex_pair bs)) as (data' & E & El & E0).
    { replace (Z.of_nat _) with (Z.of_nat (length bs) * 2) by lia. by apply Z.mod_mul. }
    { lia. }
    exists data'. split; [done|]. intros Et. apply Hh. destruct bs as [|b bs]; [done|].
    destruct data' as [|c data']; [done|]. cbn [length firstn] in Et. injection Et as -> _. destruct data; [done|]. cbn in E0 |- *. congruence.
Qed.

Definition pair_text (ps : list (byte * byte)) : bytes := flat_map (fun '(a, b) => [a; b]) ps.
(** What [ParseHex] makes of two digits: the character codes, not their values. *)
Definition raw_pair (p : byte * byte) : Z := let '(a, b) := p in u8 (u8 (schar a .<< 4) .| schar b).

Lemma hexdigit_not_space c : IsHexDigit c = true -> isspace c = false.
Proof. by_byte c. Qed.

Lemma ParseHex_loop_spec ps rest vch :
  Forall (fun '(a, b) => IsHexDigit a = true /\ IsHexDigit b = true) ps ->
  ParseHex_loop (pair_text ps ++ nul :: rest) None vch = Some (vch ++ map raw_pair ps).
Proof.
  intros Hps. revert vch. induction Hps as [|[a b] ps [Ha Hb] _ IH]; intros vch; [by rewrite app_nil_r|].
  cbn [pair_text flat_map app map ParseHex_loop]. rewrite (hexdigit_not_space a Ha), Ha, Hb. cbn [negb].
  fold (pair_text ps). rewrite IH. by rewrite <-app_assoc.
Qed.

Definition hex_chars : bytes := filter (fun c => IsHexDigit c = true) (map (fun n => to_byte (Z.of_nat n)) (seq 0 128)).
Lemma hex_chars_complete c : IsHexDigit c = true -> c ∈ hex_chars.
Proof.
  intros Hc. apply list_elem_of_filter. split; [done|]. apply list_elem_of_In, in_map_iff. exists (Z.to_nat (uchar c)).
  assert (uchar c < 128) by (revert Hc; by_byte c). pose proof (uchar_range c) as [Hu _].
  split; [rewrite Z2Nat.id by done; apply to_byte_uchar|apply in_seq; lia].
Qed.

(** (error).  [ParseHex] combines the codes of the characters instead of their
    values: on a C string of pairs of hexadecimal digits it returns one byte for each
    pair, which is the byte meant only when the first is ['3'] or ['7'] and the second
    a decimal digit. *)
Theorem parse_hex_raw (ps : list (byte * byte)) (rest : bytes)
  (Hps : Forall (fun '(a, b) => IsHexDigit a = true /\ IsHexDigit b = true) ps) :
  ParseHex (pair_text ps ++ nul :: rest) = Some (map raw_pair ps) /\
  (forall a b, IsHexDigit a = true -> IsHexDigit b = true ->
     raw_pair (a, b) = 16 * FromHexAscii a + FromHexAscii b <-> (a = x33 \/ a = x37) /\ isdigit b = true).
Proof.
  split; [by apply (ParseHex_loop_spec ps rest [])|]. intros a b Ha Hb.
  assert (Hall : forallb (fun a => forallb (fun b => Bool.eqb (raw_pair (a, b) =? 16 * FromHexAscii a + FromHexAscii b)
    (bool_decide (a = x33 \/ a = x37) && isdigit b)) hex_chars) hex_chars = true) by (by vm_compute).
  rewrite forallb_forall in Hall. specialize (Hall a (proj1 (list_elem_of_In _ _) (hex_chars_complete a Ha))).
  rewrite forallb_forall in Hall. specialize (Hall b (proj1 (list_elem_of_In _ _) (hex_chars_complete b Hb))).
  apply eqb_prop in Hall. rewrite <-Z.eqb_eq, Hall, andb_true_iff, bool_decide_eq_true. done.
Qed.

(** ** Escapes *)

Definition debug_escape (c : byte) : bytes :=
  if IsAsciiVisible c then [c] else [x5c; x78; ToHexAscii (uchar c .>> 4); ToHexAscii (uchar c .& 0xf)].

Lemma DebugString_loop_spec src pre old : (4 * length src <= length old)%nat -> exists post,
  DebugString_loop src (pre ++ old) (Z.of_nat (length pre)) =
    Some (pre ++ flat_map debug_escape src ++ post, Z.of_nat (length pre + length (flat_map debug_escape src))).
Proof.
  revert pre old. induction src as [|c src IH]; intros pre old Hl; cbn [DebugString_loop flat_map].
  { exists old. cbn [app length]. by rewrite Nat.add_0_r. }
  cbn [length] in Hl. destruct old as [|o1 [|o2 [|o3 [|o4 old]]]]; cbn [length] in Hl; try lia.
  destruct (IsAsciiVisible c) eqn:Hc.
  - assert (debug_escape c = [c]) as -> by (unfold debug_escape; by rewrite Hc). rewrite poke_app by done. cbn [mbind option_bind]. rewrite (cons_middle _ pre), app_assoc.
    destruct (IH (pre ++ [c]) (o2 :: o3 :: o4 :: old) ltac:(cbn; lia)) as (post & E).
    replace (Z.of_nat (length pre) + 1) with (Z.of_nat (length (pre ++ [c]))) by (rewrite length_app; cbn; lia).
    rewrite E. exists post. rewrite !length_app, <-!app_assoc. cbn [app length]. do 2 f_equal. lia.
  - assert (debug_escape c = [x5c; x78; ToHexAscii (uchar c .>> 4); ToHexAscii (uchar c .& 0xf)]) as -> by (unfold debug_escape; by rewrite Hc).
    set (h1 := ToHexAscii (uchar c .>> 4)). set (h2 := ToHexAscii (uchar c .& 0xf)).
    rewrite poke_app by done. cbn [mbind option_bind]. rewrite (cons_middle _ pre), app_assoc.
    rewrite poke_app by (rewrite length_app; cbn; lia). cbn [mbind option_bind]. rewrite (cons_middle _ (pre ++ _)), app_assoc.
    rewrite poke_app by (rewrite !length_app; cbn; lia). cbn [mbind option_bind]. rewrite (cons_middle _ ((pre ++ _) ++ _)), app_assoc.
    rewrite poke_app by (rewrite !length_app; cbn; lia). cbn [mbind option_bind]. rewrite (cons_middle _ (((pre ++ _) ++ _) ++ _)), app_assoc.
    destruct (IH ((((pre ++ [x5c]) ++ [x78]) ++ [h1]) ++ [h2]) old ltac:(lia)) as (post & E).
    replace (Z.of_nat (length pre) + 4) with (Z.of_nat (length ((((pre ++ [x5c]) ++ [x78]) ++ [h1]) ++ [h2]))) by (rewrite !length_app; cbn; lia).
    rewrite E. exists post. rewrite !length_app, <-!app_assoc. cbn [app length]. do 2 f_equal. lia.
Qed.

Lemma DebugString_spec src : DebugString src = Some (flat_map debug_escape src).
Proof.
  unfold DebugString. destruct (DebugString_loop_spec src [] (replicate (4 * length src) nul)) as (post & E).
  { by rewrite length_replicate. }
  change (Z.of_nat (length [])) with 0 in E. cbn [app] in E. rewrite E. cbn [mbind option_bind]. f_equal.
  apply take_app_length'. cbn [length]. lia.
Qed.
Definition plain_ascii (c : byte) : Prop := uchar c < 128 /\ c <> backslash.

Lemma escape_ascii_length c : uchar c < 128 -> (1 <= length (escape_ascii c) <= 3)%nat.
Proof. by_byte c; intros; split; lia. Qed.

Lemma sprintf_spec pre old rest text i :
  i = Z.of_nat (length pre) -> length old = S (length text) ->
  sprintf (pre ++ old ++ rest) i text = Some (pre ++ text ++ nul :: rest, Z.of_nat (length text)).
Proof.
  intros -> Hl. unfold sprintf. rewrite poke_all_app by (rewrite ?length_app; cbn; lia || done). cbn [mbind option_bind].
  by rewrite <-app_assoc.
Qed.

Lemma StringBinToAscii_loop_spec str pre old msize :
  Forall (fun c => uchar c < 128) str -> 5 <= msize < 2 ^ 64 ->
  Z.of_nat (length pre) + 3 * Z.of_nat (length str) + 5 <= msize -> (3 * length str + 1 <= length old)%nat ->
  let text := flat_map escape_ascii str in
  (length text <= 3 * length str)%nat /\
  exists x, StringBinToAscii_loop str (pre ++ old) msize (Z.of_nat (length pre)) =
    Some (pre ++ text ++ x :: drop (S (length text)) old, Z.of_nat (length pre + length text)).
Proof.
  intros Hs Hm. revert pre old. induction Hs as [|c str Hc Hs IH]; intros pre old Hp Ho; cbn zeta.
  { cbn [flat_map length] in *. split; [lia|]. destruct old as [|x old]; [cbn in Ho; lia|]. exists x. cbn [StringBinToAscii_loop app]. rewrite Nat.add_0_r.
    cbn [drop]. by rewrite drop_0. }
  cbn [length flat_map] in *. pose proof (escape_ascii_length c Hc) as He.
  cbn [StringBinToAscii_loop]. rewrite (wrap_small 64 (msize - 4)) by (unfold is_uint; lia).
  rewrite (proj2 (Z.ltb_lt _ _)) by lia.
  destruct (split_room (S (length (escape_ascii c))) old ltac:(lia)) as (o1 & o2 & -> & Ho1). rewrite length_app in Ho.
  rewrite (sprintf_spec pre o1 o2 (escape_ascii c)) by done. cbn [mbind option_bind].
  rewrite wrap_small by (unfold is_uint; lia).
  replace (Z.of_nat (length pre) + _) with (Z.of_nat (length (pre ++ escape_ascii c))) by (rewrite length_app; lia).
  rewrite app_assoc. destruct (IH (pre ++ escape_ascii c) (nul :: o2) ltac:(rewrite length_app; lia) ltac:(cbn; lia)) as (Hlen & x & E).
  rewrite length_app. split; [lia|]. exists x. rewrite E. rewrite length_app, <-app_assoc. cbn [drop]. f_equal. f_equal; [|lia].
  rewrite <-app_assoc. do 4 f_equal. rewrite <-Nat.add_succ_l, <-Ho1. by rewrite drop_app_add.
Qed.

(** The escape of a character that is not visible, and its reading. *)
Lemma escape_ascii_read c : plain_ascii c ->
  (escape_ascii c = [c] /\ c <> nul) \/
  exists h1 h2, escape_ascii c = [backslash; h1; h2] /\ h1 <> nul /\ h2 <> nul /\
    to_byte ((escape_digit h1 * 16 + escape_digit h2) .& 0xff) = c.
Proof.
  intros [Hc Hb]. destruct (between 33 126 c) eqn:E.
  - left. unfold escape_ascii. rewrite E. split; [done|]. intros ->. by vm_compute in E.
  - right. exists (nth 1 (escape_ascii c) nul), (nth 2 (escape_ascii c) nul). clear Hb. revert Hc E. by_byte c.
    all: intros; repeat split; congruence.
Qed.

Lemma StringAsciiToBin_loop_spec str rest pre old size :
  Forall plain_ascii str -> Z.of_nat (length pre + length str) < size < 2 ^ 64 -> (length str <= length old)%nat ->
  StringAsciiToBin_loop (flat_map escape_ascii str ++ nul :: rest) (pre ++ old) (Z.of_nat (length pre)) size =
    Some (pre ++ str ++ drop (length str) old, Z.of_nat (length pre + length str)).
Proof.
  intros Hs. revert pre old. induction Hs as [|c str Hc Hs IH]; intros pre old Hsz Ho.
  { cbn [flat_map app StringAsciiToBin_loop length]. rewrite bool_decide_eq_true_2 by done. rewrite Nat.add_0_r. by rewrite drop_0. }
  cbn [length] in *. destruct old as [|x old]; [cbn in Ho; lia|]. cbn [length] in Ho.
  assert (Hlt : (Z.of_nat (length pre) <? u64 (size - 1)) = true).
  { rewrite wrap_small by (unfold is_uint; lia). apply Z.ltb_lt. lia. }
  assert (Hnext : forall c', c' = c -> (result ← poke (pre ++ x :: old) (Z.of_nat (length pre)) c';
    StringAsciiToBin_loop (flat_map escape_ascii str ++ nul :: rest) result (Z.of_nat (length pre) + 1) size) =
    Some (pre ++ (c :: str) ++ drop (length str) old, Z.of_nat (length pre + S (length str)))).
  { intros ? ->. rewrite poke_app by done. cbn [mbind option_bind]. rewrite (cons_middle _ pre), app_assoc.
    replace (Z.of_nat (length pre) + 1) with (Z.of_nat (length (pre ++ [c]))) by (rewrite length_app; cbn; lia).
    rewrite IH by (rewrite ?length_app; cbn; lia). rewrite length_app, <-app_assoc. cbn [app length]. do 2 f_equal. lia. }
  cbn [flat_map drop]. destruct (escape_ascii_read c Hc) as [[-> Hn]|(h1 & h2 & -> & H1 & H2 & E)]; cbn [app StringAsciiToBin_loop].
  - rewrite bool_decide_eq_false_2, Hlt by done. cbn [negb]. rewrite bool_decide_eq_false_2 by apply Hc. by apply Hnext.
  - rewrite bool_decide_eq_false_2, Hlt by done. cbn [negb]. rewrite bool_decide_eq_true_2 by done.
    rewrite (bool_decide_eq_false_2 _ H1), (bool_decide_eq_false_2 _ H2). cbn [orb]. by apply Hnext.
Qed.

(** (roundtrip).  [StringBinToAscii] writes the visible characters as they are and the
    others as a backslash and two digits, within the three bytes each and five more
    that its comment asks for, when no byte is above 127, and [StringAsciiToBin] reads
    the bytes back when none of them is a backslash, which is not escaped.  A byte above
    127 is printed with eight digits and overruns such a buffer. *)
Theorem bin_ascii_roundtrip (str ret : bytes) (msize : Z) (Hs : Forall (fun c => uchar c < 128) str)
  (Hm : 3 * Z.of_nat (length str) + 5 <= msize < 2 ^ 64) (Hr : msize <= Z.of_nat (length ret)) :
  let text := flat_map escape_ascii str in
  StringBinToAscii str ret msize = Some (holds ret 0 text, Z.of_nat (length text)) /\
  (Forall (fun c => c <> backslash) str -> forall result size,
     Z.of_nat (length str) < size <= Z.of_nat (length result) -> size < 2 ^ 64 ->
     StringAsciiToBin (holds ret 0 text) result size = Some (str ++ drop (length str) result, Z.of_nat (length str))) /\
  (forall b ret8, 128 <= uchar b -> length ret8 = 8%nat -> StringBinToAscii [b] ret8 8 = None).
Proof.
  cbn zeta. split; [|split].
  - destruct (StringBinToAscii_loop_spec str [] ret msize Hs ltac:(lia) ltac:(cbn; lia) ltac:(lia)) as (Hlen & x & E).
    change (Z.of_nat (length [])) with 0 in E. cbn [app] in E. unfold StringBinToAscii. rewrite E. cbn [mbind option_bind].
    cbn [length Nat.add]. rewrite poke_app by done. cbn [mbind option_bind]. do 2 f_equal.
    unfold holds. cbn [Z.to_nat firstn app Nat.add]. by rewrite Nat.add_1_r.
  - intros Hb result size Hsz Hlt. unfold StringAsciiToBin, holds. cbn [Z.to_nat firstn app].
    apply (StringAsciiToBin_loop_spec str _ [] result size); [|cbn; lia|lia].
    rewrite Forall_forall in Hs, Hb |- *. intros c Hc. by split; [apply Hs|apply Hb].
  - intros b ret8 Hb Hl. do 9 (destruct ret8 as [|? ret8]; [try done|try done]). revert Hb. clear. by_byte b. all: intros H; exfalso; by apply H.
Qed.

(** ** Case *)

Lemma Str2Upper_spec s rest dest pre old y post :
  Forall (fun c => c <> nul) s -> length old = length s -> dest = pre ++ old ++ y :: post ->
  Str2Upper (s ++ nul :: rest) dest (Z.of_nat (length pre)) = Some (pre ++ map toupper s ++ nul :: post).
Proof.
  intros Hs. revert dest pre old. induction Hs as [|c s Hc Hs IH]; intros dest pre old Hl ->; cbn [app Str2Upper map].
  { destruct old; [|done]. cbn [app]. rewrite bool_decide_eq_true_2 by done. by apply poke_app. }
  destruct old as [|x old]; [done|]. injection Hl as Hl. rewrite bool_decide_eq_false_2 by done. cbn [app]. rewrite poke_app by done.
  cbn [mbind option_bind].
  assert ((if between 97 122 c then to_byte (schar c - 32) else c) = toupper c) as -> by by_byte c.
  replace (Z.of_nat (length pre) + 1) with (Z.of_nat (length (pre ++ [toupper c]))) by (rewrite length_app; cbn; lia).
  rewrite (IH _ (pre ++ [toupper c]) old) by (rewrite <-?app_assoc; done). by rewrite <-app_assoc.
Qed.
Lemma Str2Lower_spec s rest dest pre old y post :
  Forall (fun c => c <> nul) s -> length old = length s -> dest = pre ++ old ++ y :: post ->
  Str2Lower (s ++ nul :: rest) dest (Z.of_nat (length pre)) = Some (pre ++ map tolower s ++ nul :: post).
Proof.
  intros Hs. revert dest pre old. induction Hs as [|c s Hc Hs IH]; intros dest pre old Hl ->; cbn [app Str2Lower map].
  { destruct old; [|done]. cbn [app]. rewrite bool_decide_eq_true_2 by done. by apply poke_app. }
  destruct old as [|x old]; [done|]. injection Hl as Hl. rewrite bool_decide_eq_false_2 by done. cbn [app]. rewrite poke_app by done.
  cbn [mbind option_bind].
  assert ((if between 65 90 c then to_byte (schar c + 32) else c) = tolower c) as -> by by_byte c.
  replace (Z.of_nat (length pre) + 1) with (Z.of_nat (length (pre ++ [tolower c]))) by (rewrite length_app; cbn; lia).
  rewrite (IH _ (pre ++ [tolower c]) old) by (rewrite <-?app_assoc; done). by rewrite <-app_assoc.
Qed.

(** [Str2Upper] and [Str2Lower] convert a C string into an array with room for it, as
    [Uppercase] and [Lowercase] do a string; each conversion is idempotent and absorbs
    the other. *)
Theorem case_conversions (s rest dest : bytes) (Hs : Forall (fun c => c <> nul) s) (Hd : (length s < length dest)%nat) :
  Str2Upper (s ++ nul :: rest) dest 0 = Some (holds dest 0 (Uppercase s)) /\
  Str2Lower (s ++ nul :: rest) dest 0 = Some (holds dest 0 (Lowercase s)) /\
  Uppercase (Lowercase s) = Uppercase s /\ Lowercase (Uppercase s) = Lowercase s /\
  Uppercase (Uppercase s) = Uppercase s /\ Lowercase (Lowercase s) = Lowercase s.
Proof.
  destruct (buffer_room dest 0 (length s) ltac:(lia) ltac:(lia)) as (pre & old & y & post & -> & E & Hl).
  destruct pre; [|cbn in E; lia]. unfold Uppercase, Lowercase.
  split; [|split].
  - change 0 with (Z.of_nat (length (@nil byte))). rewrite holds_app by (by rewrite length_map). by apply (Str2Upper_spec s rest _ [] old y post).
  - change 0 with (Z.of_nat (length (@nil byte))). rewrite holds_app by (by rewrite length_map). by apply (Str2Lower_spec s rest _ [] old y post).
  - rewrite !map_map. repeat split; apply map_ext; intros c; by_byte c.
Qed.

(** ** Witnesses *)

Lemma hex2bin_str_loses_witness :
  exists data', Hex2binStr (flat_map hex_pair [x41; x42]) [x00; x00; x00] 3 = Some (true, data') /\ take 2 data' <> [x41; x42].
Proof. apply (hex2bin_str_loses [] [x00; x00; x00] ltac:(by vm_compute)); [done|done|by vm_compute]. Defined.

Lemma parse_hex_raw_witness : ParseHex [x34; x31; nul] = Some [0x71].
Proof.
  apply (parse_hex_raw [(x34, x31)] []). by repeat constructor.
Defined.

Lemma bin_ascii_roundtrip_witness :
  StringBinToAscii [x61; x00] (replicate 11 x2e) 11 = Some (holds (replicate 11 x2e) 0 [x61; backslash; x30; x30], 4).
Proof.
  refine (proj1 (bin_ascii_roundtrip [x61; x00] (replicate 11 x2e) 11 _ _ _)); [by repeat constructor|by vm_compute|by vm_compute].
Defined.

Lemma case_conversions_witness : Str2Upper ([x61; x42] ++ [nul]) (replicate 3 x2e) 0 = Some [x41; x42; nul].
Proof.
  refine (proj1 (case_conversions [x61; x42] [] (replicate 3 x2e) _ _)); [by repeat constructor|cbn; lia].
Defined.
