(* ===== verification/StringOps.v ===== *)
(** * StringOps: searching, splitting and joining strings, [src/util/string_util.cpp]

    A [std::string] is its bytes and a position in it a [nat]; [string::npos] is [None].
    A loop that is not structural has fuel and returns [None] when it runs out. *)

From S2P Require Import Prelude Stringpiece Decimal Numbers Ascii.
#[local] Open Scope nat_scope.

(** ** The searches of [std::string] *)

(** The first position of [s], counted from [at_], whose suffix satisfies [P]. *)
Fixpoint find_from (P : bytes -> bool) (s : bytes) (at_ : nat) : option nat :=
  if P s then Some at_ else match s with [] => None | _ :: t => find_from P t (S at_) end.
Definition string_find (P : bytes -> bool) (s : bytes) (pos : nat) : option nat :=
  if pos <=? length s then find_from P (drop pos s) pos else None.
Definition at_char (p : byte -> bool) (s : bytes) : bool := match s with [] => false | c :: _ => p c end.
(** [find(char)], [find(string)], [find_first_not_of(chars)]. *)
Definition find_char (c : byte) : bytes -> nat -> option nat := string_find (at_char (fun x => bool_decide (x = c))).
Definition find_sub (sub : bytes) : bytes -> nat -> option nat := string_find (fun t => bool_decide (sub `prefix_of` t)).
Definition find_first_not_of (chars : bytes) : bytes -> nat -> option nat :=
  string_find (at_char (fun x => bool_decide (x ∉ chars))).
(** [substr(pos, n)] for a [pos] in the string. *)
Definition substr (s : bytes) (pos n : nat) : bytes := take n (drop pos s).

(** ** Prefixes and suffixes *)

Definition StringStartsWith (str prefix : bytes) : bool :=
  if length str <? length prefix then false else (memcmp (length prefix) str prefix =? 0)%Z.
Definition StringEndsWith (str suffix : bytes) : bool :=
  if length str <? length suffix then false
  else bool_decide (drop (length str - length suffix) str = suffix).
(** The result and the string after the call. *)
Definition StringStripSuffix (str suffix : bytes) : bool * bytes :=
  if length suffix <=? length str then
    let suffix_pos := length str - length suffix in
    if bool_decide (drop suffix_pos str = suffix) then (true, take (length str - length suffix) str) else (false, str)
  else (false, str).
Definition StringStripPrefix (str prefix : bytes) : bool * bytes :=
  if length prefix <=? length str then
    if bool_decide (substr str 0 (length prefix) = prefix) then (true, drop (length prefix) str) else (false, str)
  else (false, str).
Definition StringConsumePrefix (s expected : bytes) : option (bool * bytes) :=
  if starts_with s expected then s ← remove_prefix s (Coding.size expected); Some (true, s) else Some (false, s).
Definition StringConsumeSuffix (s expected : bytes) : option (bool * bytes) :=
  if ends_with s expected then s ← remove_suffix s (Coding.size expected); Some (true, s) else Some (false, s).

(** ** Trimming *)

(** [find_if] with [not isspace] and the erasure up to it. *)
Fixpoint drop_while (p : byte -> bool) (s : bytes) : bytes :=
  match s with
  | [] => []
  | c :: t => if p c then drop_while p t else s
  end.
Definition StringLtrim (str : bytes) : bytes := drop_while isspace str.
Definition StringRtrim (str : bytes) : bytes := rev (drop_while isspace (rev str)).
Definition StringTrim (str : bytes) : bytes := StringRtrim (StringLtrim str).
Definition StringTrim_list (str_list : list bytes) : list bytes := map StringTrim str_list.

(** The two scans of [StringTrim(ori, charlist)]: [at] throws out of the string. *)
Fixpoint trim_left_loop (fuel : nat) (ori charlist : bytes) (pos : nat) : option nat :=
  if pos <? length ori then
    match fuel with
    | O => None
    | S fuel =>
        c ← ori !! pos;
        if negb (bool_decide (c ∈ charlist)) then Some pos else trim_left_loop fuel ori charlist (S pos)
    end
  else Some pos.
Fixpoint trim_right_loop (fuel : nat) (ori charlist : bytes) (rpos : Z) : option Z :=
  if (rpos >=? 0)%Z then
    match fuel with
    | O => None
    | S fuel =>
        c ← ori !! Z.to_nat rpos;
        if negb (bool_decide (c ∈ charlist)) then Some rpos else trim_right_loop fuel ori charlist (rpos - 1)%Z
    end
  else Some rpos.
Definition StringTrim_chars (ori charlist : bytes) : option bytes :=
  if bool_decide (ori = []) then Some ori
  else
    pos ← trim_left_loop (S (length ori)) ori charlist 0;
    rpos ← trim_right_loop (S (length ori)) ori charlist (i32 (Z.of_nat (length ori) - 1));
    Some (substr ori pos (Z.to_nat (u64 (rpos - Z.of_nat pos + 1)))).

(** ** Pieces: white space *)

Fixpoint count_while (p : byte -> bool) (s : bytes) : nat :=
  match s with [] => 0 | c :: t => if p c then S (count_while p t) else 0 end.
(** The count returned and the piece after the call. *)
Definition StringRemoveLeadingWhitespace (text : bytes) : option (nat * bytes) :=
  let count := count_while isspace text in
  text ← remove_prefix text (Z.of_nat count); Some (count, text).
Definition StringRemoveTrailingWhitespace (text : bytes) : option (nat * bytes) :=
  let count := count_while isspace (rev text) in
  text ← remove_suffix text (Z.of_nat count); Some (count, text).
Definition StringRemoveWhitespaceContext (text : bytes) : option (nat * bytes) :=
  '(n, text) ← StringRemoveLeadingWhitespace text;
  '(m, text) ← StringRemoveTrailingWhitespace text;
  Some (n + m, text).
(** The result, [*s] and [*val]. *)
Definition StringConsumeNonWhitespace (s : bytes) : option (bool * bytes * bytes) :=
  let n := count_while (fun c => negb (isspace c)) s in
  if 0 <? n then s' ← remove_prefix s (Z.of_nat n); Some (true, s', take n s) else Some (false, s, []).

(** [result.erase(remove(..., c), end)] for each character of the set, in turn. *)
Definition StringRemoveCharset (src charset : bytes) : bytes :=
  foldl (fun result c => filter (fun x => x <> c) result) src charset.

(** ** Splitting *)

Fixpoint StringSplitChar_loop (fuel : nat) (str : bytes) (delim : byte) (begin_index : nat) (result : list bytes) : option (list bytes) :=
  if begin_index <? length str then
    match fuel with
    | O => None
    | S fuel =>
        match find_char delim str begin_index with
        | None => Some (result ++ [drop begin_index str])
        | Some end_index =>
            let result := if begin_index <? end_index then result ++ [substr str begin_index (end_index - begin_index)] else result in
            StringSplitChar_loop fuel str delim (end_index + 1) result
        end
    end
  else Some result.
Definition StringSplitChar (str : bytes) (delim : byte) : option (list bytes) :=
  if bool_decide (str = []) then Some []
  else if bool_decide (delim = nul) then Some [str]
  else StringSplitChar_loop (S (length str)) str delim 0 [].

Fixpoint StringSplit_loop (fuel : nat) (full delim : bytes) (pos_begin : option nat) (result : list bytes) : option (list bytes) :=
  match pos_begin with
  | None => Some result
  | Some p =>
      match fuel with
      | O => None
      | S fuel =>
          let '(tmp, next) :=
            match find_sub delim full p with
            | Some comma_pos => (substr full p (comma_pos - p), Some (comma_pos + length delim))
            | None => (drop p full, None)
            end in
          StringSplit_loop fuel full delim next (if bool_decide (tmp = []) then result else result ++ [tmp])
      end
  end.
Definition StringSplit (fuel : nat) (full delim : bytes) : option (list bytes) :=
  if bool_decide (full = []) then Some []
  else StringSplit_loop fuel full delim (find_first_not_of delim full 0) [].

(** [StringSplit(StringPiece, StringPiece)]: [rest] is the text from position [i] on,
    [token] what precedes it since [token_start]. *)
Fixpoint StringSplit_pieces_loop (rest delims token : bytes) (result : list bytes) : list bytes :=
  match rest with
  | [] => result ++ [token]
  | c :: rest =>
      if negb (find delims c 0 =? npos)%Z then StringSplit_pieces_loop rest delims [] (result ++ [token])
      else StringSplit_pieces_loop rest delims (token ++ [c]) result
  end.
Definition StringSplit_pieces (text delims : bytes) : list bytes :=
  if negb (bool_decide (text = [])) then StringSplit_pieces_loop text delims [] [] else [].
Definition StringSplitChar_piece (text : bytes) (delim : byte) : list bytes := StringSplit_pieces text [delim].

(** [getline]: it fails when no character is left, and takes the delimiter away. *)
Fixpoint getline (input item : bytes) (delim : byte) : bytes * bytes :=
  match input with
  | [] => (item, [])
  | c :: rest => if bool_decide (c = delim) then (item, rest) else getline rest (item ++ [c]) delim
  end.
Fixpoint StringSplit_getline_loop (fuel : nat) (input : bytes) (delim : byte) (ret : list bytes) : option (list bytes) :=
  match input with
  | [] => Some ret
  | _ =>
      match fuel with
      | O => None
      | S fuel => let '(item, rest) := getline input [] delim in StringSplit_getline_loop fuel rest delim (ret ++ [item])
      end
  end.
Definition StringSplit_getline (s : bytes) (delim : byte) : option (list bytes) :=
  StringSplit_getline_loop (S (length s)) s delim [].

(** [DoSplitAndParseAsInts]: the numbers before a failure stay in the result. *)
Fixpoint DoSplitAndParse_loop (converter : bytes -> option (option Z)) (num_strings : list bytes) (result : list Z) : option (bool * list Z) :=
  match num_strings with
  | [] => Some (true, result)
  | s :: num_strings =>
      r ← converter s;
      match r with
      | None => Some (false, result)
      | Some num => DoSplitAndParse_loop converter num_strings (result ++ [num])
      end
  end.
Definition DoSplitAndParseAsInts (converter : bytes -> option (option Z)) (text : bytes) (delim : byte) : option (bool * list Z) :=
  DoSplitAndParse_loop converter (StringSplitChar_piece text delim) [].
Definition StringSplitAndParseAsInts32 := DoSplitAndParseAsInts SafeStrToInt32.
Definition StringSplitAndParseAsInts64 := DoSplitAndParseAsInts SafeStrToInt64.

(** The result, the key and the value. *)
Definition SplitStringIntoKeyValue (line : bytes) (d : byte) : bool * bytes * bytes :=
  match find_char d line 0 with
  | None => (false, [], [])
  | Some end_key_pos =>
      let key := substr line 0 end_key_pos in
      let remains := substr line end_key_pos (length line - end_key_pos) in
      match find_first_not_of [d] remains 0 with
      | None => (false, key, [])
      | Some begin_value_pos => (true, key, substr remains begin_value_pos (length remains - begin_value_pos))
      end
  end.
Fixpoint KeyValuePairs_loop (pairs : list bytes) (d : byte) (success : bool) (kvs : list (bytes * bytes)) : bool * list (bytes * bytes) :=
  match pairs with
  | [] => (success, kvs)
  | p :: pairs =>
      if bool_decide (p = []) then KeyValuePairs_loop pairs d success kvs
      else
        let '(ok, key, value) := SplitStringIntoKeyValue p d in
        KeyValuePairs_loop pairs d (if ok then success else false) (kvs ++ [(key, value)])
  end.
Definition StringSplitIntoKeyValuePairs (line : bytes) (kv_delim pair_delim : byte) : option (bool * list (bytes * bytes)) :=
  pairs ← StringSplitChar line pair_delim;
  Some (KeyValuePairs_loop pairs kv_delim true []).

(** ** Joining and replacing *)

Definition StringConcat (elems : list bytes) (delim : byte) : bytes :=
  let result := foldl (fun result e => result ++ e ++ [delim]) [] elems in
  if negb (bool_decide (result = [])) then take (length result - 1) result else result.

Fixpoint StringReplace_loop (fuel : nat) (str src dest ret : bytes) (pos_begin : nat) (pos : option nat) : option (bytes * nat) :=
  match pos with
  | None => Some (ret, pos_begin)
  | Some pos =>
      match fuel with
      | O => None
      | S fuel =>
          let ret := (ret ++ substr str pos_begin (pos - pos_begin)) ++ dest in
          let pos_begin := pos + length src in
          StringReplace_loop fuel str src dest ret pos_begin (find_sub src str pos_begin)
      end
  end.
Definition StringReplace (fuel : nat) (str src dest : bytes) : option bytes :=
  '(ret, pos_begin) ← StringReplace_loop fuel str src dest [] 0 (find_sub src str 0);
  Some (if pos_begin <? length str then ret ++ drop pos_begin str else ret).

Fixpoint StringReplace_pieces_loop (fuel : nat) (res oldsub newsub : bytes) (replace_all : bool) (pos : nat) : option bytes :=
  match find_sub oldsub res pos with
  | None => Some res
  | Some pos =>
      match fuel with
      | O => None
      | S fuel =>
          let res := take pos res ++ newsub ++ drop (pos + length oldsub) res in
          let pos := pos + length newsub in
          let pos := if bool_decide (oldsub = []) then S pos else pos in
          if negb replace_all then Some res else StringReplace_pieces_loop fuel res oldsub newsub replace_all pos
      end
  end.
Definition StringReplace_pieces (fuel : nat) (s oldsub newsub : bytes) (replace_all : bool) : option bytes :=
  StringReplace_pieces_loop fuel s oldsub newsub replace_all 0.

(** The pieces are copied into the string, enlarged first. *)
Definition Append1 (out : Z) (result x : bytes) : option (bytes * Z) :=
  result ← poke_all result out x; Some (result, (out + Z.of_nat (length x))%Z).
Definition Append2 (out : Z) (result x1 x2 : bytes) : option (bytes * Z) :=
  result ← poke_all result out x1;
  let out := (out + Z.of_nat (length x1))%Z in
  result ← poke_all result out x2; Some (result, (out + Z.of_nat (length x2))%Z).
Definition Append4 (out : Z) (result x1 x2 x3 x4 : bytes) : option (bytes * Z) :=
  result ← poke_all result out x1;
  let out := (out + Z.of_nat (length x1))%Z in
  result ← poke_all result out x2;
  let out := (out + Z.of_nat (length x2))%Z in
  result ← poke_all result out x3;
  let out := (out + Z.of_nat (length x3))%Z in
  result ← poke_all result out x4; Some (result, (out + Z.of_nat (length x4))%Z).
Definition resized (result : bytes) (n : nat) : bytes := take n result ++ replicate (n - length result) nul.
Definition StringAppendPieces1 (result a : bytes) : bytes := result ++ a.
Definition StringAppendPieces2 (result a b : bytes) : option bytes :=
  let old_size := length result in
  fst <$> Append2 (Z.of_nat old_size) (resized result (old_size + length a + length b)) a b.
Definition StringAppendPieces3 (result a b c : bytes) : option bytes :=
  let old_size := length result in
  '(result, out) ← Append2 (Z.of_nat old_size) (resized result (old_size + length a + length b + length c)) a b;
  fst <$> Append1 out result c.
Definition StringAppendPieces4 (result a b c d : bytes) : option bytes :=
  let old_size := length result in
  fst <$> Append4 (Z.of_nat old_size) (resized result (old_size + length a + length b + length c + length d)) a b c d.
Fixpoint InitPieces_loop (pieces : list bytes) (result : bytes) (out : Z) : option bytes :=
  match pieces with
  | [] => Some result
  | piece :: pieces =>
      result ← poke_all result out piece;
      InitPieces_loop pieces result (out + Z.of_nat (length piece))%Z
  end.
Definition StringAppendInitPieces (result : bytes) (pieces : list bytes) : option bytes :=
  let old_size := length result in
  let total_size := foldl (fun n p => n + length p) old_size pieces in
  InitPieces_loop pieces (resized result total_size) (Z.of_nat old_size).
Definition StringCatInitPieces (pieces : list bytes) : option bytes := StringAppendInitPieces [] pieces.
(** ** The searches *)

Lemma find_from_shift P s n : find_from P s n = (fun k => n + k) <$> find_from P s 0.
Proof.
  revert n. assert (H : forall m n, find_from P s (m + n) = (fun k => m + k) <$> find_from P s n).
  { induction s as [|c s IH]; intros m n; cbn [find_from]; destruct (P _); cbn; try done.
    rewrite <-Nat.add_succ_r. apply IH. }
  intros n. rewrite <-(Nat.add_0_r n) at 1. apply H.
Qed.

(** A search in [pre ++ t] from the end of [pre] only depends on [t]. *)
Lemma string_find_app P pre t : string_find P (pre ++ t) (length pre) = (fun k => length pre + k) <$> find_from P t 0.
Proof.
  unfold string_find. rewrite length_app, (proj2 (Nat.leb_le _ _)), drop_app_length by lia. apply find_from_shift.
Qed.

Lemma find_char_from p t :
  match find_from (at_char p) t 0 with
  | None => Forall (fun c => p c = false) t
  | Some n => exists a c b, t = a ++ c :: b /\ length a = n /\ p c = true /\ Forall (fun c => p c = false) a
  end.
Proof.
  induction t as [|c t IH]; cbn [find_from at_char]; [by constructor|]. destruct (p c) eqn:Hc; [by exists [], c, t|].
  rewrite find_from_shift. destruct (find_from (at_char p) t 0) as [n|]; cbn; [|by constructor].
  destruct IH as (a & c' & b & -> & <- & H1 & H2). exists (c :: a), c', b. repeat split; [done..|by constructor].
Qed.

(** The first occurrence of [sub] in [t] is behind [a]. *)
Definition first_at (sub t a b : bytes) : Prop :=
  t = a ++ sub ++ b /\ forall j, j < length a -> ~ sub `prefix_of` drop j t.
Definition occurs (sub t : bytes) : Prop := exists a b, t = a ++ sub ++ b.

Lemma find_sub_from sub t :
  match find_from (fun t => bool_decide (sub `prefix_of` t)) t 0 with
  | None => ~ occurs sub t
  | Some n => exists a b, first_at sub t a b /\ length a = n
  end.
Proof.
  induction t as [|c t IH]; cbn [find_from].
  { destruct (bool_decide_reflect (sub `prefix_of` [])) as [[b Hb]|Hn].
    - exists [], b. split; [|done]. split; [done|cbn; lia].
    - intros (a & b & E). destruct a; [|done]. apply Hn. by exists b. }
  destruct (bool_decide_reflect (sub `prefix_of` c :: t)) as [[b Hb]|Hn].
  { exists [], b. split; [|done]. split; [done|cbn; lia]. }
  rewrite find_from_shift. destruct (find_from _ t 0) as [n|]; cbn.
  - destruct IH as (a & b & [-> Hf] & <-). exists (c :: a), b. split; [|done]. split; [done|].
    intros [|j] Hj; [done|]. cbn in Hj. apply Hf. lia.
  - intros ([|c' a] & b & E); [apply Hn; by exists b|]. injection E as -> ->. apply IH. by exists a, b.
Qed.

(** ** Fields *)

(** The fields of a text: what lies between its delimiters. *)
Fixpoint fields (p : byte -> bool) (s : bytes) : list bytes :=
  match s with
  | [] => [[]]
  | c :: s =>
      if p c then [] :: fields p s
      else match fields p s with f :: fs => (c :: f) :: fs | [] => [[c]] end
  end.

Lemma fields_nonnil p s : fields p s <> [].
Proof. destruct s as [|c s]; cbn; [done|]. destruct (p c); [done|]. by destruct (fields p s). Qed.
Lemma fields_none p s : Forall (fun c => p c = false) s -> fields p s = [s].
Proof. induction 1 as [|c s Hc _ IH]; [done|]. cbn [fields]. by rewrite Hc, IH. Qed.
Lemma fields_app p a c b : Forall (fun c => p c = false) a -> p c = true -> fields p (a ++ c :: b) = a :: fields p b.
Proof. intros Ha Hc. induction Ha as [|x a Hx _ IH]; cbn [app fields]; [by rewrite Hc|]. by rewrite Hx, IH. Qed.

Lemma StringSplitChar_loop_spec fuel pre t d result :
  length t < fuel ->
  StringSplitChar_loop fuel (pre ++ t) d (length pre) result =
    Some (result ++ filter (fun f => f <> []) (fields (fun x => bool_decide (x = d)) t)).
Proof.
  revert pre t result. induction fuel as [|fuel IH]; intros pre t result Hf; [lia|]. cbn [StringSplitChar_loop].
  rewrite length_app. destruct t as [|c0 t0] eqn:Et.
  { rewrite (proj2 (Nat.ltb_ge _ _)) by (cbn; lia). cbn. by rewrite app_nil_r. }
  rewrite <-Et in *. clear c0 t0 Et.
  destruct (Nat.ltb_spec (length pre) (length pre + length t)) as [Hlt|Hge]; cycle 1.
  { destruct t; [|cbn in Hge; lia]. cbn. by rewrite app_nil_r. }
  unfold find_char. rewrite string_find_app. pose proof (find_char_from (fun x => bool_decide (x = d)) t) as Hs.
  destruct (find_from _ t 0) as [n|]; cbn [fmap option_fmap option_map].
  - destruct Hs as (a & c & b & -> & <- & Hc & Ha). rewrite fields_app by done. rewrite filter_cons.
    rewrite length_app in Hf. cbn [length] in Hf.
    replace (length pre + length a + 1) with (length (pre ++ a ++ [c])) by (rewrite !length_app; cbn; lia).
    replace (pre ++ a ++ c :: b) with ((pre ++ a ++ [c]) ++ b) by (by rewrite <-!app_assoc).
    rewrite IH by lia. destruct (Nat.ltb_spec (length pre) (length pre + length a)).
    + rewrite decide_True by (destruct a; [cbn in *; lia|done]). unfold substr.
      rewrite <-!app_assoc, drop_app_length. rewrite take_app_length' by lia. done.
    + rewrite decide_False; [done|]. destruct a; [tauto|cbn in *; lia].
  - rewrite fields_none by done. rewrite filter_cons_True by (destruct t; [cbn in *; lia|done]).
    by rewrite drop_app_length.
Qed.

Abbreviation addressable s := (Z.of_nat (length s) < 2 ^ 64)%Z.

Lemma find_In delims c : addressable delims -> negb (find delims c 0 =? npos)%Z = bool_decide (c ∈ delims).
Proof.
  intros Hl. unfold find. change (Z.to_nat 0) with 0. rewrite drop_0.
  pose proof (memchr_spec delims c 0) as Hm.
  assert (Hnone : (forall m, delims !! m <> Some c) -> bool_decide (c ∈ delims) = false).
  { intros H. apply bool_decide_eq_false. intros [m E]%list_elem_of_lookup. by apply H in E. }
  destruct (Z.geb_spec 0 (Coding.size delims)) as [Hs|Hs].
  { rewrite Hnone; [done|]. intros m E. apply lookup_lt_Some in E. unfold Coding.size in Hs. lia. }
  destruct (memchr delims c 0) as [i|]; [|by rewrite Hnone].
  destruct Hm as (n & -> & Hn & _). rewrite bool_decide_eq_true_2 by (by eapply list_elem_of_lookup_2).
  apply lookup_lt_Some in Hn. apply negb_true_iff, Z.eqb_neq. change npos with (2 ^ 64 - 1)%Z. lia.
Qed.

Lemma StringSplit_pieces_loop_spec rest delims token result :
  addressable delims -> Forall (fun c => c ∉ delims) token ->
  StringSplit_pieces_loop rest delims token result = result ++ fields (fun c => bool_decide (c ∈ delims)) (token ++ rest).
Proof.
  intros Hlen. revert token result. induction rest as [|c rest IH]; intros token result Ht; cbn [StringSplit_pieces_loop].
  - rewrite app_nil_r, fields_none; [done|]. eapply Forall_impl; [|exact Ht]. intros x Hx. by apply bool_decide_eq_false.
  - rewrite find_In by done. destruct (bool_decide_reflect (c ∈ delims)) as [Hc|Hc].
    + rewrite IH by constructor. rewrite fields_app.
      * by rewrite <-app_assoc.
      * eapply Forall_impl; [|exact Ht]. intros x Hx. by apply bool_decide_eq_false.
      * by apply bool_decide_eq_true.
    + rewrite IH by (apply Forall_app; split; [done|by repeat constructor]). by rewrite <-app_assoc.
Qed.

(** ** Joining *)

(** The strings with a delimiter between them. *)
Fixpoint join (d : byte) (l : list bytes) : bytes :=
  match l with [] => [] | [e] => e | e :: l => e ++ d :: join d l end.

Lemma StringConcat_join elems d : StringConcat elems d = join d elems.
Proof.
  assert (Hf : forall acc, foldl (fun result e => result ++ e ++ [d]) acc elems = acc ++ flat_map (fun e => e ++ [d]) elems).
  { induction elems as [|e l IH]; intros acc; cbn [foldl flat_map]; [by rewrite app_nil_r|]. by rewrite IH, <-app_assoc. }
  assert (Hj : elems <> [] -> flat_map (fun e => e ++ [d]) elems = join d elems ++ [d]).
  { clear Hf. induction elems as [|e [|e' l] IH]; [done| |]; intros _; [cbn; by rewrite app_nil_r|].
    cbn [flat_map] in *. rewrite IH by done. cbn [join]. by rewrite <-!app_assoc. }
  unfold StringConcat. rewrite Hf. cbn [app]. destruct elems as [|e l]; [done|]. rewrite Hj by done.
  rewrite bool_decide_eq_false_2 by (by intros [_ [=]]%app_nil). cbn [negb]. rewrite length_app. cbn [length].
  apply take_app_length'. lia.
Qed.

Lemma join_fields d s : join d (fields (fun c => bool_decide (c = d)) s) = s.
Proof.
  induction s as [|c s IH]; [done|]. cbn [fields]. pose proof (fields_nonnil (fun c => bool_decide (c = d)) s).
  destruct (bool_decide_reflect (c = d)) as [->|Hc]; destruct (fields _ s) as [|f fs]; try done; cbn [join] in *; [by rewrite IH|].
  destruct fs; rewrite <-IH; done.
Qed.

Lemma fields_join p d l : p d = true -> l <> [] -> Forall (Forall (fun c => p c = false)) l -> fields p (join d l) = l.
Proof.
  intros Hd Hne Hl. induction Hl as [|e l He Hl IH]; [done|]. destruct l as [|e' l]; [by apply fields_none|].
  cbn [join]. rewrite fields_app by done. f_equal. by apply IH.
Qed.
(** ** [getline] *)

Lemma getline_spec input item d :
  getline input item d =
    match find_from (at_char (fun c => bool_decide (c = d))) input 0 with
    | Some n => (item ++ take n input, drop (S n) input)
    | None => (item ++ input, [])
    end.
Proof.
  revert item. induction input as [|c s IH]; intros item; cbn [getline find_from at_char]; [by rewrite app_nil_r|].
  destruct (bool_decide_reflect (c = d)) as [->|Hc]; [cbn; by rewrite app_nil_r, drop_0|].
  rewrite IH, (find_from_shift _ _ 1). destruct (find_from _ s 0); cbn [fmap option_fmap option_map Nat.add firstn skipn];
    by rewrite <-app_assoc.
Qed.

(** The fields without the last one when it is empty. *)
Fixpoint closed_fields (fs : list bytes) : list bytes :=
  match fs with
  | [] => []
  | [f] => if bool_decide (f = []) then [] else [f]
  | f :: fs => f :: closed_fields fs
  end.

Lemma StringSplit_getline_loop_spec fuel s d ret :
  length s < fuel ->
  StringSplit_getline_loop fuel s d ret = Some (ret ++ closed_fields (fields (fun c => bool_decide (c = d)) s)).
Proof.
  revert s ret. induction fuel as [|fuel IH]; intros s ret Hf; [lia|]. cbn [StringSplit_getline_loop].
  destruct s as [|c0 s0] eqn:Es; [cbn; by rewrite app_nil_r|]. rewrite <-Es in *.
  rewrite getline_spec. pose proof (find_char_from (fun c => bool_decide (c = d)) s) as Hs.
  destruct (find_from _ s 0) as [n|].
  - destruct Hs as (a & c & b & E & <- & Hc & Ha). rewrite E in Hf |- *. rewrite length_app in Hf. cbn [length] in Hf.
    rewrite fields_app by done. rewrite take_app_length. rewrite (cons_middle c a), app_assoc, drop_app_length' by (rewrite length_app; cbn; lia).
    rewrite IH by lia. pose proof (fields_nonnil (fun c => bool_decide (c = d)) b).
    destruct (fields _ b); [done|]. cbn [closed_fields app]. by rewrite <-app_assoc.
  - rewrite fields_none by done. cbn [closed_fields app]. rewrite bool_decide_eq_false_2 by (by rewrite Es).
    destruct fuel; [rewrite Es in Hf; cbn in Hf; lia|done].
Qed.

(** (functional).  The splitters cut a text at its delimiters: [StringSplitChar] keeps
    the nonempty fields (and the text itself for the delimiter NUL), the one over
    [StringPiece] all the fields of a nonempty text, the one over [getline] all but a
    last empty one. *)
Theorem split_fields (text delims : bytes) (d : byte) (Hl : addressable delims) :
  let fs := fields (fun c => bool_decide (c = d)) text in
  StringSplitChar text d =
    Some (if bool_decide (text = []) then [] else if bool_decide (d = nul) then [text] else filter (fun f => f <> []) fs) /\
  StringSplit_getline text d = Some (closed_fields fs) /\
  StringSplit_pieces text delims = (if bool_decide (text = []) then [] else fields (fun c => bool_decide (c ∈ delims)) text) /\
  StringSplitChar_piece text d = (if bool_decide (text = []) then [] else fs).
Proof.
  cbn zeta.
  assert (Hp : forall ds, addressable ds -> StringSplit_pieces text ds =
      if bool_decide (text = []) then [] else fields (fun c => bool_decide (c ∈ ds)) text).
  { intros ds Hds. unfold StringSplit_pieces. destruct (bool_decide (text = [])); cbn [negb]; [done|].
    by rewrite StringSplit_pieces_loop_spec by (done || constructor). }
  split; [|split; [|split; [by apply Hp|]]].
  - unfold StringSplitChar. destruct (bool_decide (text = [])); [done|]. destruct (bool_decide (d = nul)); [done|].
    apply (StringSplitChar_loop_spec _ []). lia.
  - apply StringSplit_getline_loop_spec. lia.
  - unfold StringSplitChar_piece. rewrite Hp by (cbn; lia). destruct (bool_decide (text = [])); [done|].
    assert (Hext : forall p q s, (forall c, p c = q c) -> fields p s = fields q s).
    { intros p q s Hpq. induction s as [|c s IH]; [done|]. cbn [fields]. by rewrite Hpq, IH. }
    apply Hext. intros c. apply bool_decide_ext. by rewrite list_elem_of_singleton.
Qed.

(** (roundtrip).  Joining the fields of a text with its delimiter gives the text
    back, and splitting joined strings gives the strings, when there is one at least,
    not only an empty one, and none contains the delimiter. *)
Theorem split_concat_roundtrip (text : bytes) (d : byte) (elems : list bytes)
  (He : elems <> []) (Hne : elems <> [[]]) (Hd : Forall (fun e => d ∉ e) elems) :
  StringConcat (StringSplitChar_piece text d) d = text /\
  StringSplitChar_piece (StringConcat elems d) d = elems.
Proof.
  rewrite !StringConcat_join.
  assert (Hp : forall text, StringSplitChar_piece text d = if bool_decide (text = []) then [] else fields (fun c => bool_decide (c ∈ [d])) text).
  { clear. intros text. unfold StringSplitChar_piece, StringSplit_pieces. destruct (bool_decide (text = [])); cbn [negb]; [done|].
    by rewrite StringSplit_pieces_loop_spec by (constructor || cbn; lia). }
  assert (Hext : forall s, fields (fun c => bool_decide (c ∈ [d])) s = fields (fun c => bool_decide (c = d)) s).
  { clear. intros s. induction s as [|c s IH]; [done|]. cbn [fields]. rewrite IH.
    by rewrite (bool_decide_ext (c ∈ [d]) (c = d)) by apply list_elem_of_singleton. }
  rewrite !Hp, !Hext. split.
  - destruct (bool_decide_reflect (text = [])) as [->|]; [done|]. apply join_fields.
  - rewrite bool_decide_eq_false_2; [|by destruct elems as [|[|? ?] [|? ?]]].
    apply fields_join; [by apply bool_decide_eq_true|done|]. eapply Forall_impl; [|exact Hd]. intros e Hde.
    apply Forall_forall. intros c Hc. apply bool_decide_eq_false. intros ->. by apply list_elem_of_In in Hc.
Qed.

(** ** Replacing *)

(** The result of replacing the occurrences of [src], from the left. *)
Inductive replaced (src dest : bytes) : bytes -> bytes -> Prop :=
  | replaced_none s : ~ occurs src s -> replaced src dest s s
  | replaced_first s a b r : first_at src s a b -> replaced src dest b r -> replaced src dest s (a ++ dest ++ r).

Lemma first_at_fun src s a b a' b' : first_at src s a b -> first_at src s a' b' -> a = a' /\ b = b'.
Proof.
  intros [E H] [E' H'].
  assert (length a = length a') as El.
  { destruct (Nat.lt_trichotomy (length a) (length a')) as [Hl|[|Hl]]; [|done|].
    - exfalso. apply (H' (length a) Hl). rewrite E, drop_app_length. by exists b.
    - exfalso. apply (H (length a') Hl). rewrite E', drop_app_length. by exists b'. }
  rewrite E in E'. apply app_inj_1 in E' as [-> E']; [|done]. by apply app_inv_head in E' as ->.
Qed.

Lemma replaced_fun src dest s r r' : replaced src dest s r -> replaced src dest s r' -> r = r'.
Proof.
  intros H. revert r'. induction H as [s Hn|s a b r Hf _ IH]; intros r' H'; inversion H' as [|? a' b' r1 Hf' Hr']; subst.
  - done.
  - destruct Hn. exists a', b'. apply Hf'.
  - destruct H. exists a, b. apply Hf.
  - destruct (first_at_fun _ _ _ _ _ _ Hf Hf') as [-> ->]. by rewrite (IH _ Hr').
Qed.

Lemma find_sub_app sub pre t :
  match find_sub sub (pre ++ t) (length pre) with
  | None => ~ occurs sub t
  | Some k => exists a b, first_at sub t a b /\ k = length pre + length a
  end.
Proof.
  unfold find_sub. rewrite string_find_app. pose proof (find_sub_from sub t) as H.
  destruct (find_from _ t 0); cbn; [|done]. destruct H as (a & b & H & <-). eauto.
Qed.

(** Every replacement exists: each step shortens the text. *)
Lemma StringReplace_loop_spec fuel src dest pre t ret :
  src <> [] -> length t < fuel ->
  exists r ret' pb, replaced src dest t r /\
    StringReplace_loop fuel (pre ++ t) src dest ret (length pre) (find_sub src (pre ++ t) (length pre)) = Some (ret', pb) /\
    (if pb <? length (pre ++ t) then ret' ++ drop pb (pre ++ t) else ret') = ret ++ r.
Proof.
  intros Hs. revert pre t ret. induction fuel as [|fuel IH]; intros pre t ret Hf; [lia|]. cbn [StringReplace_loop].
  pose proof (find_sub_app src pre t) as H. destruct (find_sub src (pre ++ t) (length pre)) as [k|].
  - destruct H as (a & b & Hab & ->). pose proof (proj1 Hab) as ->. rewrite !length_app in Hf.
    assert (0 < length src) by (destruct src; [done|cbn; lia]).
    destruct (IH (pre ++ a ++ src) b ((ret ++ substr (pre ++ a ++ src ++ b) (length pre) (length pre + length a - length pre)) ++ dest) ltac:(lia))
      as (r & ret' & pb & Hr & E & Ef).
    exists (a ++ dest ++ r), ret', pb. split; [by eapply replaced_first|].
    rewrite <-!app_assoc in E, Ef. rewrite !length_app in E.
    replace (length pre + length a + length src) with (length pre + (length a + length src)) by lia.
    split; [rewrite <-app_assoc; exact E|]. rewrite Ef. unfold substr. rewrite drop_app_length.
    rewrite take_app_length' by lia. by rewrite <-?app_assoc.
  - exists t, ret, (length pre). split; [by constructor|]. split; [done|]. rewrite drop_app_length, length_app.
    destruct (Nat.ltb_spec (length pre) (length pre + length t)); [done|]. destruct t; [by rewrite app_nil_r|cbn in *; lia].
Qed.

Lemma StringReplace_pieces_loop_spec fuel src dest pre t :
  src <> [] -> length t < fuel ->
  exists r, replaced src dest t r /\ StringReplace_pieces_loop fuel (pre ++ t) src dest true (length pre) = Some (pre ++ r).
Proof.
  intros Hs. revert pre t. induction fuel as [|fuel IH]; intros pre t Hf; [lia|]. cbn [StringReplace_pieces_loop].
  pose proof (find_sub_app src pre t) as H. destruct (find_sub src (pre ++ t) (length pre)) as [k|].
  - destruct H as (a & b & Hab & ->). pose proof (proj1 Hab) as ->. rewrite !length_app in Hf.
    assert (0 < length src) by (destruct src; [done|cbn; lia]).
    rewrite bool_decide_eq_false_2 by done. cbn [negb].
    rewrite (app_assoc pre a), take_app_length' by (rewrite length_app; lia).
    rewrite (app_assoc (pre ++ a) src), drop_app_length' by (rewrite !length_app; lia).
    destruct (IH ((pre ++ a) ++ dest) b ltac:(lia)) as (r & Hr & E).
    rewrite (app_assoc (pre ++ a) dest b). replace (length pre + length a + length dest) with (length ((pre ++ a) ++ dest)) by (rewrite !length_app; lia).
    rewrite E. exists (a ++ dest ++ r). split; [by eapply replaced_first|]. by rewrite <-!app_assoc.
  - exists t. by split; [constructor|].
Qed.

(** An empty pattern is found at once, wherever one looks. *)
Lemma find_sub_nil s pos : pos <= length s -> find_sub [] s pos = Some pos.
Proof.
  intros Hp. unfold find_sub, string_find. rewrite (proj2 (Nat.leb_le _ _) Hp).
  destruct (drop pos s); cbn [find_from]; by rewrite bool_decide_eq_true_2 by apply prefix_nil.
Qed.

Lemma StringReplace_pieces_nil fuel dest pre t :
  length t < fuel ->
  StringReplace_pieces_loop fuel (pre ++ t) [] dest true (length pre) =
    Some (pre ++ flat_map (fun c => dest ++ [c]) t ++ dest).
Proof.
  revert pre t. induction fuel as [|fuel IH]; intros pre t Hf; [lia|]. cbn [StringReplace_pieces_loop].
  rewrite find_sub_nil by (rewrite length_app; lia). rewrite bool_decide_eq_true_2 by done. cbn [negb length].
  rewrite Nat.add_0_r, take_app_length, drop_app_length. destruct t as [|c t].
  - rewrite app_nil_r. destruct fuel; cbn [StringReplace_pieces_loop flat_map app];
    unfold find_sub, string_find; rewrite (proj2 (Nat.leb_gt _ _)) by (rewrite length_app; lia); done.
  - cbn [length] in Hf. replace (pre ++ dest ++ c :: t) with ((pre ++ dest ++ [c]) ++ t) by (by rewrite <-!app_assoc).
    replace (S (length pre + length dest)) with (length (pre ++ dest ++ [c])) by (rewrite !length_app; cbn; lia).
    rewrite IH by lia. cbn [flat_map]. by rewrite <-!app_assoc.
Qed.

(** (equivalence).  For a nonempty pattern the two [StringReplace] end, within as many
    rounds as the text has bytes and one more, with the same result, the replacement
    of the occurrences from the left; for the empty pattern the one over [StringPiece]
    puts the replacement around every byte and the other never ends. *)
Theorem string_replace (s src dest : bytes) (fuel : nat) (Hf : length s < fuel) :
  (src <> [] -> exists r, (forall r', replaced src dest s r' <-> r' = r) /\
     StringReplace fuel s src dest = Some r /\ StringReplace_pieces fuel s src dest true = Some r) /\
  StringReplace_pieces fuel s [] dest true = Some (flat_map (fun c => dest ++ [c]) s ++ dest) /\
  (forall fuel, StringReplace fuel s [] dest = None).
Proof.
  split; [|split].
  - intros Hs. destruct (StringReplace_loop_spec fuel src dest [] s [] Hs Hf) as (r & ret' & pb & Hr & E & Ef).
    destruct (StringReplace_pieces_loop_spec fuel src dest [] s Hs Hf) as (r' & Hr' & E').
    rewrite (replaced_fun _ _ _ _ _ Hr' Hr) in E'. exists r. split; [|split; [|exact E']].
    + intros x. split; [intros Hx; by eapply replaced_fun|by intros ->].
    + unfold StringReplace. cbn [app length] in E. rewrite E. cbn [mbind option_bind]. f_equal. exact Ef.
  - by apply (StringReplace_pieces_nil fuel dest []).
  - clear fuel Hf. intros fuel. unfold StringReplace. rewrite find_sub_nil by lia.
    assert (forall ret pb pos, pos <= length s -> StringReplace_loop fuel s [] dest ret pb (Some pos) = None) as ->; [|done|lia].
    induction fuel as [|fuel IH]; intros ret pb pos Hp; [done|]. cbn [StringReplace_loop length].
    rewrite Nat.add_0_r, find_sub_nil by done. by apply IH.
Qed.
(** ** Trimming *)

(** [t] is [s] without what satisfies [p] at its ends. *)
Definition trimmed (p : byte -> bool) (s t : bytes) : Prop :=
  exists a b, s = a ++ t ++ b /\ Forall (fun c => p c = true) a /\ Forall (fun c => p c = true) b /\
    (forall c, head t = Some c -> p c = false) /\ (forall c, list.last t = Some c -> p c = false).

Lemma drop_while_split p s : exists a, s = a ++ drop_while p s /\ Forall (fun c => p c = true) a /\
  (forall c, head (drop_while p s) = Some c -> p c = false) /\ length a = count_while p s.
Proof.
  induction s as [|c s (a & E & Ha & Hh & Hl)]; [by exists []|]. cbn [drop_while count_while].
  destruct (p c) eqn:Hc.
  - exists (c :: a). split; [by rewrite E at 1|]. split; [by constructor|]. split; [done|]. cbn. by rewrite Hl.
  - exists []. repeat split; [constructor|]. by intros ? [= <-].
Qed.

Lemma last_rev (t : bytes) : list.last t = head (rev t).
Proof.
  induction t as [|c t IH] using rev_ind; [done|]. by rewrite list.last_snoc, rev_app_distr.
Qed.

(** The same at the end, in terms of the reversed string. *)
Lemma drop_while_rev_split p s : exists b, s = rev (drop_while p (rev s)) ++ b /\ Forall (fun c => p c = true) b /\
  (forall c, list.last (rev (drop_while p (rev s))) = Some c -> p c = false) /\ length b = count_while p (rev s).
Proof.
  destruct (drop_while_split p (rev s)) as (a & E & Ha & Hh & Hl). exists (rev a).
  split; [by rewrite <-rev_app_distr, <-E, rev_involutive|]. split; [by apply Forall_rev|].
  rewrite length_rev. split; [|done]. intros c. rewrite last_rev, rev_involutive. apply Hh.
Qed.

Lemma trimmed_drop_while p s : trimmed p s (rev (drop_while p (rev (drop_while p s)))).
Proof.
  destruct (drop_while_split p s) as (a & E & Ha & Hh & _).
  destruct (drop_while_rev_split p (drop_while p s)) as (b & E' & Hb & Ht & _).
  exists a, b. split; [by rewrite <-E'|]. repeat split; [done..| |done].
  intros c Hc. apply Hh. rewrite E'. by destruct (rev _).
Qed.

(** What is left is unique. *)
Lemma trimmed_prefix (p : byte -> bool) (a t b a' t' b' : bytes) :
  a ++ t ++ b = a' ++ t' ++ b' -> Forall (fun c => p c = true) a -> Forall (fun c => p c = true) a' ->
  (forall c, head t = Some c -> p c = false) -> (forall c, head t' = Some c -> p c = false) ->
  t <> [] -> t' <> [] -> a = a' /\ t ++ b = t' ++ b'.
Proof.
  intros E Ha. revert a' E. induction Ha as [|x a Hx _ IH]; intros [|x' a'] E Ha' Ht Ht' Hn Hn'; cbn [app] in E.
  - done.
  - apply Forall_cons_iff in Ha' as [Hx' _]. destruct t as [|c t]; [done|]. injection E as -> _. by rewrite (Ht x') in Hx'.
  - destruct t' as [|c t']; [done|]. injection E as -> _. by rewrite (Ht' c) in Hx.
  - injection E as -> E. apply Forall_cons_iff in Ha' as [_ Ha']. by destruct (IH a' E) as [-> ->].
Qed.

Lemma trimmed_all p s t : trimmed p s t -> Forall (fun c => p c = true) s -> t = [].
Proof.
  intros (a & b & -> & _ & _ & Hh & _) Hs. destruct t as [|c t]; [done|].
  apply Forall_app in Hs as [_ Hs]. apply Forall_cons_iff in Hs as [Hc _]. by rewrite (Hh c) in Hc.
Qed.

Lemma trimmed_fun p s t t' : trimmed p s t -> trimmed p s t' -> t = t'.
Proof.
  intros H H'. destruct (decide (t = [])) as [->|Hn].
  - destruct H as (a & b & -> & Ha & Hb & _). symmetry. apply (trimmed_all p _ _ H'). by apply Forall_app.
  - destruct (decide (t' = [])) as [->|Hn'].
    { destruct H' as (a & b & -> & Ha & Hb & _). apply (trimmed_all p _ _ H). by apply Forall_app. }
    destruct H as (a & b & -> & Ha & Hb & Hh & Ht), H' as (a' & b' & E & Ha' & Hb' & Hh' & Ht').
    destruct (trimmed_prefix p a t b a' t' b' E) as [_ E']; [done..|].
    apply (f_equal (@rev byte)) in E'. rewrite !rev_app_distr in E'. rewrite <-(app_nil_r (rev t)), <-(app_nil_r (rev t')) in E'.
    destruct (trimmed_prefix p (rev b) (rev t) [] (rev b') (rev t') [] E') as [_ E2].
    + by apply Forall_rev.
    + by apply Forall_rev.
    + intros c. rewrite <-last_rev. apply Ht.
    + intros c. rewrite <-last_rev. apply Ht'.
    + intros E0. by apply (f_equal (@rev byte)) in E0; rewrite rev_involutive in E0.
    + intros E0. by apply (f_equal (@rev byte)) in E0; rewrite rev_involutive in E0.
    + rewrite !app_nil_r in E2. apply (f_equal (@rev byte)) in E2. by rewrite !rev_involutive in E2.
Qed.

Abbreviation in_chars charlist := (fun c => bool_decide (c ∈ charlist)).

Lemma trim_left_loop_spec fuel pre t charlist :
  length t < fuel ->
  trim_left_loop fuel (pre ++ t) charlist (length pre) = Some (length pre + count_while (in_chars charlist) t).
Proof.
  revert pre t. induction fuel as [|fuel IH]; intros pre t Hf; [lia|]. cbn [trim_left_loop]. rewrite length_app.
  destruct t as [|c t]; cbn [length count_while] in *.
  { rewrite (proj2 (Nat.ltb_ge _ _)) by lia. by rewrite Nat.add_0_r. }
  rewrite (proj2 (Nat.ltb_lt _ _)) by lia. rewrite list_lookup_middle by done. cbn [mbind option_bind].
  destruct (bool_decide (c ∈ charlist)); cbn [negb]; [|by rewrite Nat.add_0_r].
  rewrite (cons_middle c pre), app_assoc. replace (S (length pre)) with (length (pre ++ [c])) by (rewrite length_app; cbn; lia).
  rewrite IH by lia. f_equal. rewrite length_app. cbn. lia.
Qed.

Lemma trim_right_loop_spec fuel t post charlist :
  length t < fuel ->
  trim_right_loop fuel (t ++ post) charlist (Z.of_nat (length t) - 1) =
    Some (Z.of_nat (length t - count_while (in_chars charlist) (rev t)) - 1)%Z.
Proof.
  revert t post. induction fuel as [|fuel IH]; intros t post Hf; [lia|]. cbn [trim_right_loop].
  destruct t as [|c t _] using rev_ind; [done|]. rewrite length_app, rev_app_distr in *. cbn [length rev app count_while] in *.
  rewrite geb_true by lia. rewrite <-app_assoc. cbn [app]. rewrite list_lookup_middle by lia. cbn [mbind option_bind].
  destruct (bool_decide (c ∈ charlist)); cbn [negb]; [|f_equal; lia].
  replace (Z.of_nat (length t + 1) - 1 - 1)%Z with (Z.of_nat (length t) - 1)%Z by lia. rewrite IH by lia. f_equal. lia.
Qed.

Lemma count_while_le p s : count_while p s <= length s.
Proof. induction s as [|c s IH]; cbn; [lia|]. destruct (p c); lia. Qed.

Lemma StringTrim_chars_spec ori charlist : (Z.of_nat (length ori) < 2 ^ 31)%Z ->
  exists t, StringTrim_chars ori charlist = Some t /\ trimmed (in_chars charlist) ori t.
Proof.
  intros Hlen. unfold StringTrim_chars. destruct (bool_decide_reflect (ori = [])) as [->|Hne].
  { exists []. split; [done|]. exists [], []. repeat split; by try constructor. }
  rewrite (trim_left_loop_spec _ [] ori) by lia. cbn [mbind option_bind length Nat.add].
  rewrite i32_small by (destruct ori; [done|cbn [length] in *; lia]).
  pose proof (trim_right_loop_spec (S (length ori)) ori [] charlist ltac:(lia)) as Hr. rewrite app_nil_r in Hr.
  rewrite Hr. cbn [mbind option_bind]. eexists. split; [done|].
  destruct (drop_while_split (in_chars charlist) ori) as (a & E & Ha & Hh & Hl).
  set (p := in_chars charlist) in *. set (u := drop_while p ori) in *.
  destruct (drop_while_rev_split p u) as (b & E' & Hb & Ht & Hlb). set (t := rev (drop_while p (rev u))) in *.
  assert (Htr : trimmed p ori t) by (apply trimmed_drop_while).
  assert (Hcount : t <> [] -> count_while p (rev ori) = length b).
  { intros Htn. rewrite Hlb, E, rev_app_distr. clear -Htn E' Hh. subst t.
    assert (Hex : exists c l, rev u = l ++ [c] /\ p c = false).
    { destruct u as [|c u]; [done|]. exists c, (rev u). split; [done|by apply Hh]. }
    destruct Hex as (c & l & -> & Hc). clear -Hc. induction l as [|x l IH]; cbn; [by rewrite Hc|]. by rewrite IH. }
  assert (substr ori (count_while p ori) (Z.to_nat (u64 (Z.of_nat (length ori - count_while p (rev ori)) - 1 - Z.of_nat (count_while p ori) + 1))) = t) as ->; [|done].
  unfold substr. rewrite <-Hl. assert (drop (length a) ori = u) as -> by (rewrite E at 1; apply drop_app_length).
  destruct (decide (t = [])) as [Et|Htn].
  - assert (u = []) as ->; [|by rewrite firstn_nil]. rewrite Et in E'. cbn [app] in E'. rewrite E' in Hh |- *.
    destruct b as [|c b]; [done|]. apply Forall_cons_iff in Hb as [Hc _].
    discriminate (eq_trans (eq_sym Hc) (Hh c eq_refl)).
  - rewrite (Hcount Htn). pose proof (f_equal length E) as El. pose proof (f_equal length E') as El'.
    rewrite length_app in El, El'. rewrite wrap_small by (unfold is_uint; lia).
    replace (Z.to_nat _) with (length t) by lia. rewrite E' at 1. apply take_app_length.
Qed.

Lemma WhitespaceContext_spec text : exists t,
  StringRemoveWhitespaceContext text = Some (length text - length t, t) /\ trimmed isspace text t.
Proof.
  unfold StringRemoveWhitespaceContext, StringRemoveLeadingWhitespace, StringRemoveTrailingWhitespace, remove_prefix, remove_suffix, Coding.size.
  destruct (drop_while_split isspace text) as (a & E & Ha & Hh & Hl). set (u := drop_while isspace text) in *.
  destruct (drop_while_rev_split isspace u) as (b & E' & Hb & Ht & Hlb). set (t := rev (drop_while isspace (rev u))) in *.
  pose proof (f_equal length E) as El. pose proof (f_equal length E') as El'. rewrite length_app in El, El'.
  rewrite (proj2 (Z.leb_le _ _)) by lia. cbn [mbind option_bind]. rewrite Nat2Z.id.
  assert (drop (count_while isspace text) text = u) as -> by (rewrite <-Hl; rewrite E at 1; apply drop_app_length).
  rewrite geb_true by lia. cbn [mbind option_bind].
  assert (take (Z.to_nat (Z.of_nat (length u) - Z.of_nat (count_while isspace (rev u)))) u = t) as ->.
  { replace (Z.to_nat _) with (length t) by lia. rewrite E' at 1. apply take_app_length. }
  exists t. split; [f_equal; f_equal; lia|]. apply trimmed_drop_while.
Qed.

(** (functional).  The three ways to trim agree on what they remove -- the longest run
    at each end, of white space or of the characters given, leaving nothing of a text of
    these only -- and the one over [StringPiece] counts it. *)
Theorem trimming (text charlist : bytes) (Hl : (Z.of_nat (length text) < 2 ^ 31)%Z) :
  (forall t, trimmed isspace text t <-> StringTrim text = t) /\
  (forall t, trimmed (in_chars charlist) text t <-> StringTrim_chars text charlist = Some t) /\
  StringRemoveWhitespaceContext text = Some (length text - length (StringTrim text), StringTrim text).
Proof.
  assert (Ht : trimmed isspace text (StringTrim text)) by apply trimmed_drop_while.
  split; [|split].
  - intros t. split; [intros H; by eapply trimmed_fun|by intros <-].
  - intros t. destruct (StringTrim_chars_spec text charlist Hl) as (t' & -> & Ht'). split.
    + intros H. f_equal. by eapply trimmed_fun.
    + by intros [= <-].
  - destruct (WhitespaceContext_spec text) as (t & -> & Ht'). by rewrite (trimmed_fun _ _ _ _ Ht' Ht).
Qed.
(** ** Splitting at a string *)

(** The pieces of a text between the occurrences of [delim], from the left. *)
Inductive cut (delim : bytes) : bytes -> list bytes -> Prop :=
  | cut_none s : ~ occurs delim s -> cut delim s [s]
  | cut_first s a b fs : first_at delim s a b -> cut delim b fs -> cut delim s (a :: fs).

Abbreviation nonempty := (filter (fun f : bytes => f <> [])).

Lemma nonempty_snoc (tmp : bytes) (result : list bytes) :
  (if bool_decide (tmp = []) then result else result ++ [tmp]) = result ++ nonempty [tmp].
Proof.
  destruct (bool_decide_reflect (tmp = [])) as [->|Hn]; [by rewrite app_nil_r|]. by rewrite filter_cons_True.
Qed.

Lemma StringSplit_loop_spec fuel delim pre t result :
  delim <> [] -> length t < fuel -> exists fs, cut delim t fs /\
  StringSplit_loop fuel (pre ++ t) delim (Some (length pre)) result = Some (result ++ nonempty fs).
Proof.
  intros Hd. revert pre t result. induction fuel as [|fuel IH]; intros pre t result Hf; [lia|]. cbn [StringSplit_loop].
  pose proof (find_sub_app delim pre t) as H. destruct (find_sub delim (pre ++ t) (length pre)) as [k|].
  - destruct H as (a & b & Hab & ->). pose proof (proj1 Hab) as ->. rewrite !length_app in Hf.
    assert (0 < length delim) by (destruct delim; [done|cbn; lia]). rewrite nonempty_snoc.
    unfold substr. rewrite drop_app_length, take_app_length' by lia.
    destruct (IH (pre ++ a ++ delim) b (result ++ nonempty [a]) ltac:(lia)) as (fs & Hfs & E).
    rewrite <-!app_assoc, !length_app in E. rewrite <-Nat.add_assoc, E. exists (a :: fs). split; [by eapply cut_first|].
    change (a :: fs) with ([a] ++ fs). by rewrite list.filter_app, app_assoc.
  - exists [t]. split; [by constructor|]. rewrite nonempty_snoc, drop_app_length. by destruct fuel.
Qed.

Lemma find_first_not_of_spec chars s :
  find_first_not_of chars s 0 =
    if bool_decide (drop_while (in_chars chars) s = []) then None else Some (count_while (in_chars chars) s).
Proof.
  unfold find_first_not_of, string_find. cbn [Nat.leb]. rewrite drop_0.
  induction s as [|c s IH]; [done|]. cbn [find_from at_char drop_while count_while].
  rewrite (bool_decide_not (c ∈ chars)). destruct (bool_decide (c ∈ chars)); cbn [negb].
  - rewrite find_from_shift, IH. by destruct (bool_decide (drop_while _ s = [])).
  - by rewrite bool_decide_eq_false_2.
Qed.

(** (functional).  [StringSplit(full, delim, result)] ends for a nonempty [delim], and
    returns the nonempty pieces between the occurrences of [delim] of what is left of
    the text without the leading characters that occur in [delim]: it cuts into a first
    piece that merely shares characters with the delimiter.  For an empty [delim] and a
    nonempty text it never ends. *)
Theorem string_split_at_string (full delim : bytes) (fuel : nat) (Hf : length full < fuel) :
  (delim <> [] -> exists fs, cut delim (drop_while (in_chars delim) full) fs /\
     StringSplit fuel full delim = Some (nonempty fs)) /\
  (full <> [] -> forall fuel, StringSplit fuel full [] = None) /\
  StringSplit 3 [x62; x31] [x61; x62] = Some [[x31]].
Proof.
  split; [|split; [|reflexivity]].
  - intros Hd. unfold StringSplit. rewrite find_first_not_of_spec.
    destruct (drop_while_split (in_chars delim) full) as (a & E & _ & _ & Hl).
    assert (Hnil : forall fs, cut delim [] fs -> nonempty fs = []).
    { intros fs H. inversion H as [|? a' b' ? [E' _]]; subst; [done|]. destruct a'; [by destruct delim|done]. }
    destruct (bool_decide_reflect (full = [])) as [->|Hne].
    { exists [[]]. split; [|done]. constructor. intros (a' & b' & E'). destruct a'; [by destruct delim|done]. }
    destruct (bool_decide_reflect (drop_while (in_chars delim) full = [])) as [E0|Hn].
    { rewrite E0. exists [[]]. split; [|by destruct fuel]. constructor. intros (a' & b' & E'). destruct a'; [by destruct delim|done]. }
    rewrite <-Hl. pose proof (f_equal length E) as El. rewrite length_app in El.
    destruct (StringSplit_loop_spec fuel delim a (drop_while (in_chars delim) full) [] Hd ltac:(lia)) as (fs & Hfs & Es).
    rewrite <-E in Es. by exists fs.
  - intros Hne fuel'. unfold StringSplit. rewrite find_first_not_of_spec. rewrite bool_decide_eq_false_2 by done.
    destruct full as [|c s]; [done|]. cbn [drop_while count_while].
    rewrite (bool_decide_eq_false_2 (c ∈ [])) by (by intros ?%list_elem_of_In).
    rewrite bool_decide_eq_false_2 by done.
    assert (forall result, StringSplit_loop fuel' (c :: s) [] (Some 0) result = None) as ->; [|done].
    induction fuel' as [|fuel' IH]; intros result; [done|]. cbn [StringSplit_loop]. rewrite find_sub_nil by lia. apply IH.
Qed.

(** ** Keys and values *)

Lemma SplitStringIntoKeyValue_spec line d :
  (d ∉ line -> SplitStringIntoKeyValue line d = (false, [], [])) /\
  (forall key ds value, line = key ++ d :: ds ++ value -> d ∉ key -> Forall (fun c => c = d) ds -> head value <> Some d ->
     SplitStringIntoKeyValue line d = (negb (bool_decide (value = [])), key, value)).
Proof.
  unfold SplitStringIntoKeyValue. unfold find_char, string_find. cbn [Nat.leb]. rewrite drop_0.
  pose proof (find_char_from (fun x => bool_decide (x = d)) line) as Hs. split.
  - intros Hd. destruct (find_from _ line 0); [|done]. destruct Hs as (a & c & b & -> & _ & Hc & _).
    apply bool_decide_eq_true in Hc as ->. destruct Hd. apply list_elem_of_In, in_elt.
  - intros key ds value -> Hk Hds Hv.
    assert (find_from (at_char (fun x => bool_decide (x = d))) (key ++ d :: ds ++ value) 0 = Some (length key)) as ->.
    { clear Hs. induction key as [|c key IH]; cbn [app find_from at_char]; [by rewrite bool_decide_eq_true_2|].
      apply not_elem_of_cons in Hk as [Hk1 Hk2]. rewrite bool_decide_eq_false_2 by done. by rewrite find_from_shift, IH. }
    unfold substr. rewrite drop_app_length, drop_0, take_app_length. rewrite length_app.
    replace (length key + _ - length key) with (length (d :: ds ++ value)) by lia. rewrite firstn_all.
    rewrite find_first_not_of_spec.
    assert (Hdw : drop_while (in_chars [d]) (d :: ds ++ value) = value /\ count_while (in_chars [d]) (d :: ds ++ value) = S (length ds)).
    { clear Hs. cbn [drop_while count_while]. rewrite bool_decide_eq_true_2 by (by apply list_elem_of_singleton).
      induction Hds as [|c ds -> _ [IH1 IH2]]; cbn [app drop_while count_while length].
      - destruct value as [|c value]; [done|]. cbn [drop_while count_while].
        by rewrite bool_decide_eq_false_2 by (intros ->%list_elem_of_singleton; done).
      - rewrite bool_decide_eq_true_2 by (by apply list_elem_of_singleton). split; [done|]. by rewrite IH2. }
    destruct Hdw as [-> ->]. destruct (bool_decide_reflect (value = [])) as [E0|E0]; [by rewrite E0|]. cbn [negb].
    change (d :: ds ++ value) with ((d :: ds) ++ value). rewrite drop_app_length' by done. rewrite length_app. cbn [length].
    do 2 f_equal. rewrite firstn_all2; [done|]. lia.
Qed.

Abbreviation split_pair d := (fun p => let '(_, key, value) := SplitStringIntoKeyValue p d in (key, value)).

Lemma KeyValuePairs_loop_spec pairs d success kvs :
  Forall (fun p => p <> []) pairs ->
  KeyValuePairs_loop pairs d success kvs =
    (success && forallb (fun p => fst (fst (SplitStringIntoKeyValue p d))) pairs, kvs ++ map (split_pair d) pairs).
Proof.
  intros Hp. revert success kvs. induction Hp as [|p pairs Hn _ IH]; intros success kvs; cbn [KeyValuePairs_loop forallb map].
  { by rewrite andb_true_r, app_nil_r. }
  rewrite bool_decide_eq_false_2 by done. destruct (SplitStringIntoKeyValue p d) as [[ok key] value]. rewrite IH, <-app_assoc.
  cbn [fst]. destruct ok, success; done.
Qed.

(** (functional).  [StringSplitIntoKeyValuePairs] gives one pair for each nonempty field
    of the line, in order, and succeeds when each has a value; a field is cut at its
    first delimiter, the value starts after the run of delimiters, a field without a
    delimiter gives two empty strings, and nothing is trimmed. *)
Theorem key_value_pairs (line : bytes) (kd pd : byte) (Hpd : pd <> nul) :
  let ps := nonempty (fields (fun c => bool_decide (c = pd)) line) in
  StringSplitIntoKeyValuePairs line kd pd =
    Some (forallb (fun p => fst (fst (SplitStringIntoKeyValue p kd))) ps, map (split_pair kd) ps) /\
  (forall p, kd ∉ p -> SplitStringIntoKeyValue p kd = (false, [], [])) /\
  (forall p key ds value, p = key ++ kd :: ds ++ value -> kd ∉ key -> Forall (fun c => c = kd) ds -> head value <> Some kd ->
     SplitStringIntoKeyValue p kd = (negb (bool_decide (value = [])), key, value)).
Proof.
  cbn zeta. split; [|split; [intros p; apply SplitStringIntoKeyValue_spec|intros p; apply SplitStringIntoKeyValue_spec]].
  unfold StringSplitIntoKeyValuePairs, StringSplitChar. rewrite (bool_decide_eq_false_2 (pd = nul)) by done.
  assert (Hps : Forall (fun p => p <> []) (nonempty (fields (fun c => bool_decide (c = pd)) line))).
  { apply Forall_forall. intros f Hf. by apply list_elem_of_In, list_elem_of_filter in Hf as [? _]. }
  destruct (bool_decide_reflect (line = [])) as [->|Hn]; [done|].
  pose proof (StringSplitChar_loop_spec (S (length line)) [] line pd [] ltac:(lia)) as E. cbn [app length] in E.
  rewrite E. cbn [mbind option_bind]. by rewrite KeyValuePairs_loop_spec.
Qed.

(** ** Prefixes, suffixes and concatenation *)

Lemma StringStartsWith_spec s p : StringStartsWith s p = true <-> exists t, s = p ++ t.
Proof.
  rewrite <-starts_with_spec. unfold StringStartsWith, starts_with, Coding.size.
  destruct (Nat.ltb_spec (length s) (length p)); [rewrite geb_false by lia|rewrite geb_true by lia]; done.
Qed.

(** The prefix and suffix tests are those of lists, and the stripping functions return
    true exactly when there is something to strip, and strip it. *)
Theorem prefix_suffix (s x t : bytes) :
  (StringStartsWith s x = true <-> exists t, s = x ++ t) /\
  (StringEndsWith s x = true <-> exists t, s = t ++ x) /\
  (StringStripPrefix s x = (true, t) <-> s = x ++ t) /\
  (StringStripSuffix s x = (true, t) <-> s = t ++ x) /\
  (StringConsumePrefix s x = Some (true, t) <-> s = x ++ t) /\
  (fst (StringStripPrefix s x) = false -> snd (StringStripPrefix s x) = s) /\
  (fst (StringStripSuffix s x) = false -> snd (StringStripSuffix s x) = s).
Proof.
  assert (Hsuf : forall u, length x <= length u -> drop (length u - length x) u = x <-> exists t, u = t ++ x).
  { intros u Hl. split; [intros E; exists (take (length u - length x) u); by rewrite <-(take_drop (length u - length x) u) at 1; rewrite E|].
    intros [w ->]. rewrite length_app. by rewrite drop_app_length' by lia. }
  split; [apply StringStartsWith_spec|]. split; [|split; [|split; [|split; [|split]]]].
  - unfold StringEndsWith. destruct (Nat.ltb_spec (length s) (length x)) as [Hl|Hl].
    + split; [done|]. intros [w ->]. rewrite length_app in Hl. lia.
    + rewrite bool_decide_eq_true. by apply Hsuf.
  - unfold StringStripPrefix, substr. rewrite drop_0. destruct (Nat.leb_spec (length x) (length s)) as [Hl|Hl].
    + destruct (bool_decide_reflect (take (length x) s = x)) as [E|Hn].
      * split; [intros [= <-]; by rewrite <-(take_drop (length x) s) at 1; rewrite E|]. intros ->. by rewrite drop_app_length.
      * split; [done|]. intros ->. destruct Hn. by rewrite take_app_length.
    + split; [done|]. intros ->. rewrite length_app in Hl. lia.
  - unfold StringStripSuffix. destruct (Nat.leb_spec (length x) (length s)) as [Hl|Hl].
    + destruct (bool_decide_reflect (drop (length s - length x) s = x)) as [E|Hn].
      * split; [intros [= <-]; by rewrite <-(take_drop (length s - length x) s) at 1; rewrite E|]. intros ->. rewrite length_app. by rewrite take_app_length' by lia.
      * split; [done|]. intros ->. destruct Hn. apply Hsuf; [done|]. by exists t.
    + split; [done|]. intros ->. rewrite length_app in Hl. lia.
  - unfold StringConsumePrefix, remove_prefix, Coding.size. destruct (starts_with s x) eqn:E.
    + apply starts_with_spec in E as [u ->]. rewrite length_app, (proj2 (Z.leb_le _ _)) by lia. cbn [mbind option_bind].
      rewrite Nat2Z.id, drop_app_length. split; [by intros [= ->]|]. by intros ->%app_inv_head.
    + split; [done|]. intros ->. by rewrite (proj2 (starts_with_spec _ _)) in E by (by exists t).
  - unfold StringStripPrefix. by repeat case_match.
  - unfold StringStripSuffix. by repeat case_match.
Qed.

Lemma resized_app (result : bytes) n : resized result (length result + n) = result ++ replicate n nul.
Proof. unfold resized. rewrite take_ge by lia. do 2 f_equal. lia. Qed.

Lemma poke_all_next pre text n m : m = length text ->
  poke_all (pre ++ replicate (m + n) nul) (Z.of_nat (length pre)) text = Some ((pre ++ text) ++ replicate n nul).
Proof.
  intros ->. rewrite replicate_add. rewrite (poke_all_app pre (replicate (length text) nul)) by (rewrite ?length_replicate; done).
  by rewrite app_assoc.
Qed.

Lemma InitPieces_loop_spec pieces pre :
  InitPieces_loop pieces (pre ++ replicate (length (concat pieces)) nul) (Z.of_nat (length pre)) = Some (pre ++ concat pieces).
Proof.
  revert pre. induction pieces as [|p pieces IH]; intros pre; [done|]. cbn [concat InitPieces_loop]. rewrite length_app.
  rewrite poke_all_next by done. cbn [mbind option_bind]. rewrite <-Nat2Z.inj_add, <-length_app, IH. by rewrite <-app_assoc.
Qed.

Lemma foldl_lengths (pieces : list bytes) n : foldl (fun n p => n + length p) n pieces = n + length (concat pieces).
Proof.
  revert n. induction pieces as [|p pieces IH]; intros n; cbn [foldl concat]; [cbn; lia|]. rewrite IH, length_app. lia.
Qed.

(** The appending functions write each piece behind what precedes it, inside the
    enlarged string: the result is the concatenation. *)
Theorem append_pieces (result a b c d : bytes) (pieces : list bytes) :
  StringAppendPieces1 result a = result ++ a /\
  StringAppendPieces2 result a b = Some (result ++ a ++ b) /\
  StringAppendPieces3 result a b c = Some (result ++ a ++ b ++ c) /\
  StringAppendPieces4 result a b c d = Some (result ++ a ++ b ++ c ++ d) /\
  StringAppendInitPieces result pieces = Some (result ++ concat pieces) /\
  StringCatInitPieces pieces = Some (concat pieces).
Proof.
  assert (Hinit : forall r, StringAppendInitPieces r pieces = Some (r ++ concat pieces)).
  { intros r. unfold StringAppendInitPieces. rewrite foldl_lengths, resized_app. apply InitPieces_loop_spec. }
  split; [done|]. split; [|split; [|split; [|split; [apply Hinit|apply (Hinit [])]]]].
  - unfold StringAppendPieces2, Append2. rewrite <-Nat.add_assoc, resized_app, poke_all_next by done. cbn [mbind option_bind].
    rewrite <-(Nat.add_0_r (length b)). rewrite <-Nat2Z.inj_add, <-length_app, poke_all_next by done. cbn. by rewrite app_nil_r, <-app_assoc.
  - unfold StringAppendPieces3, Append2, Append1. rewrite <-!Nat.add_assoc, resized_app, poke_all_next by done. cbn [mbind option_bind].
    rewrite <-Nat2Z.inj_add, <-length_app, poke_all_next by done. cbn [mbind option_bind].
    rewrite <-(Nat.add_0_r (length c)). rewrite <-Nat2Z.inj_add, <-length_app, poke_all_next by done. cbn. by rewrite app_nil_r, <-!app_assoc.
  - unfold StringAppendPieces4, Append4. rewrite <-!Nat.add_assoc, resized_app, poke_all_next by done. cbn [mbind option_bind].
    rewrite <-Nat2Z.inj_add, <-length_app, poke_all_next by done. cbn [mbind option_bind].
    rewrite <-Nat2Z.inj_add, <-length_app, poke_all_next by done. cbn [mbind option_bind].
    rewrite <-(Nat.add_0_r (length d)). rewrite <-Nat2Z.inj_add, <-length_app, poke_all_next by done. cbn. by rewrite app_nil_r, <-!app_assoc.
Qed.
(** ** Witnesses *)

Lemma split_fields_witness : StringSplitChar_piece [x61; x2c; x2c; x62] x2c = [[x61]; []; [x62]].
Proof. exact (proj2 (proj2 (proj2 (split_fields [x61; x2c; x2c; x62] [] x2c ltac:(by vm_compute))))). Defined.

Lemma split_concat_roundtrip_witness : StringSplitChar_piece (StringConcat [[x61]; []; [x62]] x2c) x2c = [[x61]; []; [x62]].
Proof.
  refine (proj2 (split_concat_roundtrip [] x2c [[x61]; []; [x62]] _ _ _)); [done|done|].
  repeat constructor; intros H; repeat (apply elem_of_cons in H as [H|H]; [done|]); by apply list_elem_of_In in H.
Defined.

Lemma string_replace_witness : exists r, StringReplace 5 [x61; x61; x61] [x61; x61] [x62] = Some r /\ r = [x62; x61].
Proof.
  destruct (string_replace [x61; x61; x61] [x61; x61] [x62] 5 ltac:(cbn; lia)) as (H & _).
  destruct (H ltac:(done)) as (r & _ & E & _). exists r. split; [exact E|]. vm_compute in E. by injection E.
Defined.

Lemma trimming_witness : trimmed isspace [x20; x61; x20] [x61].
Proof. apply (trimming [x20; x61; x20] [] ltac:(by vm_compute)). reflexivity. Defined.

Lemma string_split_at_string_witness : exists fs, cut [x2c; x2c] [x61; x2c; x2c; x62] fs /\
  StringSplit 6 [x61; x2c; x2c; x62] [x2c; x2c] = Some (filter (fun f => f <> []) fs).
Proof.
  refine (proj1 (string_split_at_string [x61; x2c; x2c; x62] [x2c; x2c] 6 _) _); [cbn; lia|done].
Defined.

Lemma key_value_pairs_witness :
  StringSplitIntoKeyValuePairs [x61; x3d; x31; x26; x62] x3d x26 = Some (false, [([x61], [x31]); ([], [])]).
Proof.
  refine (eq_trans (proj1 (key_value_pairs [x61; x3d; x31; x26; x62] x3d x26 _)) _); [done|]. by vm_compute.
Defined.
