(* ===== verification/RingQueues.v ===== *)
(** * RingQueues: the sequential ring buffers of [src/util/blocking_queue.h]

    A buffer of raw memory is the list of its slots, [None] where no object lives.  An
    access out of the buffer, the use of a slot that holds no object and a loop that
    does not end are [None]. *)

From S2P Require Import Prelude.
#[local] Open Scope Z_scope.

Section slots.
Context {A : Type}.
Implicit Type items : list A.

Definition slot_get items (i : Z) : option A := if 0 <=? i then items !! Z.to_nat i else None.
Definition slot_set items (i : Z) (x : A) : option (list A) :=
  if (0 <=? i) && (i <? Z.of_nat (length items)) then Some (<[Z.to_nat i := x]> items) else None.
End slots.

(** ** [BoundedQueue] *)

Module Bounded.
Section queue.
Context {T : Type}.

Record BoundedQueue := { _count : Z; _cap : Z; _start : Z; _items : list (option T) }.

Definition BoundedQueue_new (capacity : Z) : BoundedQueue :=
  {| _count := 0; _cap := u32 capacity; _start := 0; _items := replicate (Z.to_nat capacity) None |}.
Definition BoundedQueue_empty : BoundedQueue := {| _count := 0; _cap := 0; _start := 0; _items := [] |}.

Definition set_queue (count start : Z) (items : list (option T)) (q : BoundedQueue) : BoundedQueue :=
  {| _count := count; _cap := _cap q; _start := start; _items := items |}.

(** [_mod]: the callers pass less than twice the capacity, so that two tests are
    enough; the loop does not end for a capacity of 0. *)
Fixpoint _mod_loop (fuel : nat) (off cap : Z) : option Z :=
  match fuel with
  | O => None
  | S fuel => if off >=? cap then _mod_loop fuel (u32 (off - cap)) cap else Some off
  end.
Definition _mod (off cap : Z) : option Z := _mod_loop 2 off cap.

(** The destructor of the object in a slot, and the object itself. *)
Definition destroy (i : Z) (items : list (option T)) : option (list (option T)) :=
  o ← slot_get items i;
  match o with Some _ => slot_set items i None | None => None end.
Definition live (i : Z) (items : list (option T)) : option T := o ← slot_get items i; o.

Definition push (item : T) (q : BoundedQueue) : option (bool * BoundedQueue) :=
  if _count q <? _cap q then
    p ← _mod (u32 (_start q + _count q)) (_cap q);
    items ← slot_set (_items q) p (Some item);
    Some (true, set_queue (u32 (_count q + 1)) (_start q) items q)
  else Some (false, q).

Definition elim_push (item : T) (q : BoundedQueue) : option BoundedQueue :=
  if _count q <? _cap q then
    p ← _mod (u32 (_start q + _count q)) (_cap q);
    items ← slot_set (_items q) p (Some item);
    Some (set_queue (u32 (_count q + 1)) (_start q) items q)
  else
    _ ← live (_start q) (_items q);
    items ← slot_set (_items q) (_start q) (Some item);
    start ← _mod (u32 (_start q + 1)) (_cap q);
    Some (set_queue (_count q) start items q).

(** [push()] and [push_top()] construct a default object and return its slot. *)
Definition push_default (default : T) (q : BoundedQueue) : option (option Z * BoundedQueue) :=
  if _count q <? _cap q then
    p ← _mod (u32 (_start q + _count q)) (_cap q);
    items ← slot_set (_items q) p (Some default);
    Some (Some p, set_queue (u32 (_count q + 1)) (_start q) items q)
  else Some (None, q).

Definition before (start cap : Z) : Z := if negb (start =? 0) then u32 (start - 1) else u32 (cap - 1).
Definition push_top (item : T) (q : BoundedQueue) : option (bool * BoundedQueue) :=
  if _count q <? _cap q then
    let start := before (_start q) (_cap q) in
    let count := u32 (_count q + 1) in
    items ← slot_set (_items q) start (Some item);
    Some (true, set_queue count start items q)
  else Some (false, q).
Definition push_top_default (default : T) (q : BoundedQueue) : option (option Z * BoundedQueue) :=
  if _count q <? _cap q then
    let start := before (_start q) (_cap q) in
    let count := u32 (_count q + 1) in
    items ← slot_set (_items q) start (Some default);
    Some (Some start, set_queue count start items q)
  else Some (None, q).

Definition pop (q : BoundedQueue) : option (bool * BoundedQueue) :=
  if negb (_count q =? 0) then
    let count := u32 (_count q - 1) in
    items ← destroy (_start q) (_items q);
    start ← _mod (u32 (_start q + 1)) (_cap q);
    Some (true, set_queue count start items q)
  else Some (false, q).
(** With the object copied out: [None] for an empty queue. *)
Definition pop_item (q : BoundedQueue) : option (option T * BoundedQueue) :=
  if negb (_count q =? 0) then
    let count := u32 (_count q - 1) in
    item ← live (_start q) (_items q);
    items ← destroy (_start q) (_items q);
    start ← _mod (u32 (_start q + 1)) (_cap q);
    Some (Some item, set_queue count start items q)
  else Some (None, q).

Definition pop_bottom (q : BoundedQueue) : option (bool * BoundedQueue) :=
  if negb (_count q =? 0) then
    let count := u32 (_count q - 1) in
    items ← destroy (u32 (_start q + count)) (_items q);
    Some (true, set_queue count (_start q) items q)
  else Some (false, q).
Definition pop_bottom_item (q : BoundedQueue) : option (option T * BoundedQueue) :=
  if negb (_count q =? 0) then
    let count := u32 (_count q - 1) in
    item ← live (u32 (_start q + count)) (_items q);
    items ← destroy (u32 (_start q + count)) (_items q);
    Some (Some item, set_queue count (_start q) items q)
  else Some (None, q).

Fixpoint clear_loop (left_ : nat) (i : Z) (q : BoundedQueue) (items : list (option T)) : option (list (option T)) :=
  match left_ with
  | O => Some items
  | S n =>
      p ← _mod (u32 (_start q + i)) (_cap q);
      items ← destroy p items;
      clear_loop n (i + 1) q items
  end.
Definition clear (q : BoundedQueue) : option BoundedQueue :=
  items ← clear_loop (Z.to_nat (_count q)) 0 q (_items q);
  Some (set_queue 0 0 items q).

(** Slots, or [None] inside for [NULL]. *)
Definition top (q : BoundedQueue) : option Z := if negb (_count q =? 0) then Some (_start q) else None.
Definition top_at (index : Z) (q : BoundedQueue) : option (option Z) :=
  if index <? _count q then p ← _mod (u32 (_start q + index)) (_cap q); Some (Some p) else Some None.
Definition bottom (q : BoundedQueue) : option (option Z) :=
  if negb (_count q =? 0) then p ← _mod (u32 (u32 (_start q + _count q) - 1)) (_cap q); Some (Some p) else Some None.
Definition bottom_at (index : Z) (q : BoundedQueue) : option (option Z) :=
  if index <? _count q then p ← _mod (u32 (u32 (_start q + _count q) - index - 1)) (_cap q); Some (Some p) else Some None.

Definition empty (q : BoundedQueue) : bool := _count q =? 0.
Definition full (q : BoundedQueue) : bool := _cap q =? _count q.
Definition size (q : BoundedQueue) : Z := _count q.
Definition capacity (q : BoundedQueue) : Z := _cap q.
Definition initialized (q : BoundedQueue) : bool := negb (bool_decide (_items q = [])).
Definition swap (q rhs : BoundedQueue) : BoundedQueue * BoundedQueue := (rhs, q).
End queue.
Arguments BoundedQueue : clear implicits.
End Bounded.

(** ** [TCLoopQueue] *)

Module Loop.
Section queue.
Context {T : Type}.

Record TCLoopQueue := { _p : list T; _iCapacity : Z; _iCapacitySub : Z; _iBegin : Z; _iEnd : Z }.

(** [raw] is the memory from [malloc]: its contents do not matter. *)
Definition TCLoopQueue_new (iSize : Z) (raw : list T) : option TCLoopQueue :=
  if iSize <? 1000000 then
    Some {| _p := raw; _iCapacity := u32 (iSize + 1); _iCapacitySub := iSize; _iBegin := 0; _iEnd := 0 |}
  else None.

Definition with_begin (p : list T) (b : Z) (q : TCLoopQueue) : TCLoopQueue :=
  {| _p := p; _iCapacity := _iCapacity q; _iCapacitySub := _iCapacitySub q; _iBegin := b; _iEnd := _iEnd q |}.
Definition with_end (e : Z) (q : TCLoopQueue) : TCLoopQueue :=
  {| _p := _p q; _iCapacity := _iCapacity q; _iCapacitySub := _iCapacitySub q; _iBegin := _iBegin q; _iEnd := e |}.
Definition next (i : Z) (q : TCLoopQueue) : Z := if i =? _iCapacitySub q then 0 else u32 (i + 1).

Definition size (q : TCLoopQueue) : Z :=
  if _iBegin q <? _iEnd q then u32 (u32 (_iBegin q + _iCapacity q) - _iEnd q) else u32 (_iBegin q - _iEnd q).

(** The result, [bEmpty], and the two positions read. *)
Definition push_back (t : T) (q : TCLoopQueue) : option (bool * bool * TCLoopQueue) :=
  let iEnd := _iEnd q in
  if ((iEnd >? _iBegin q) && (u32 (iEnd - _iBegin q) <? 2)) ||
     ((_iBegin q >? iEnd) && (u32 (_iBegin q - iEnd) >? u32 (_iCapacity q - 2)))
  then Some (false, false, q)
  else
    p ← slot_set (_p q) (_iBegin q) t;
    let bEmpty := _iEnd q =? _iBegin q in
    let q := with_begin p (next (_iBegin q) q) q in
    let bEmpty := if negb bEmpty && (1 =? size q) then true else bEmpty in
    Some (true, bEmpty, q).
Definition push_back_pos (t : T) (q : TCLoopQueue) : option (bool * bool * Z * Z * TCLoopQueue) :=
  '(r, bEmpty, q') ← push_back t q; Some (r, bEmpty, _iBegin q, _iEnd q, q').

Fixpoint push_back_loop (vt : list T) (q : TCLoopQueue) : option TCLoopQueue :=
  match vt with
  | [] => Some q
  | t :: vt =>
      p ← slot_set (_p q) (_iBegin q) t;
      push_back_loop vt (with_begin p (next (_iBegin q) q) q)
  end.
(** The size of the vector is 64 bits wide, and so are the sums with it. *)
Definition push_back_vector (vt : list T) (q : TCLoopQueue) : option (bool * TCLoopQueue) :=
  let n := Z.of_nat (length vt) in
  let iEnd := _iEnd q in
  if (n >? u32 (_iCapacity q - 1)) ||
     ((iEnd >? _iBegin q) && (u32 (iEnd - _iBegin q) <? u64 (n + 1))) ||
     ((_iBegin q >? iEnd) && (u32 (_iBegin q - iEnd) >? u64 (u64 (_iCapacity q - n) - 1)))
  then Some (false, q)
  else q ← push_back_loop vt q; Some (true, q).

Definition pop_front_item (q : TCLoopQueue) : option (option T * TCLoopQueue) :=
  if _iEnd q =? _iBegin q then Some (None, q)
  else t ← slot_get (_p q) (_iEnd q); Some (Some t, with_end (next (_iEnd q) q) q).
Definition pop_front (q : TCLoopQueue) : bool * TCLoopQueue :=
  if _iEnd q =? _iBegin q then (false, q) else (true, with_end (next (_iEnd q) q) q).
Definition get_front (q : TCLoopQueue) : option (option T) :=
  if _iEnd q =? _iBegin q then Some None else t ← slot_get (_p q) (_iEnd q); Some (Some t).
Definition empty (q : TCLoopQueue) : bool := if _iEnd q =? _iBegin q then true else false.
Definition getCapacity (q : TCLoopQueue) : Z := _iCapacity q.
End queue.
Arguments TCLoopQueue : clear implicits.
End Loop.
Import Bounded.

(** ** Lemmas on slots and rotations *)

Section slots.
Context {A : Type}.
Implicit Type l r : list A.

Lemma slot_get_Some l i x : slot_get l i = Some x <-> 0 <= i /\ l !! Z.to_nat i = Some x.
Proof. unfold slot_get. destruct (Z.leb_spec 0 i); naive_solver lia. Qed.

Lemma slot_get_out l i : Z.of_nat (length l) <= i -> slot_get l i = None.
Proof. intros H. unfold slot_get. destruct (Z.leb_spec 0 i); [|done]. apply lookup_ge_None. lia. Qed.

Lemma slot_set_in l i x : 0 <= i < Z.of_nat (length l) -> slot_set l i x = Some (<[Z.to_nat i := x]> l).
Proof.
  intros [H1 H2]. unfold slot_set. by rewrite (proj2 (Z.leb_le _ _) H1), (proj2 (Z.ltb_lt _ _) H2).
Qed.

Lemma rotate_mod n l : rotate (n mod length l) l = rotate n l.
Proof. unfold rotate. by rewrite Nat.Div0.mod_mod. Qed.

(** Rotating once more sends the head to the end. *)
Lemma rotate_step n l y r : rotate n l = y :: r -> rotate (S n) l = r ++ [y].
Proof.
  intros E. assert (Hl : (0 < length l)%nat) by (rewrite <-(length_rotate l n), E; simpl; lia).
  unfold rotate in *. set (k := (n mod length l)%nat) in *.
  assert (Hk : (k < length l)%nat) by (apply Nat.mod_upper_bound; lia).
  destruct (lookup_lt_is_Some_2 l k Hk) as [z Hz].
  rewrite (drop_S l z k Hz) in E. simplify_eq/=.
  destruct (decide (S k = length l)) as [He|Hne].
  - replace (S n mod length l)%nat with O; cycle 1.
    { replace (S n) with (n + 1)%nat by lia. rewrite <-Nat.Div0.add_mod_idemp_l. fold k.
      replace (k + 1)%nat with (length l) by lia. by rewrite Nat.Div0.mod_same. }
    rewrite drop_0, take_0, app_nil_r, (drop_ge l (S k)) by lia. simpl.
    rewrite <-(take_S_r l k y Hz). by rewrite take_ge by lia.
  - replace (S n mod length l)%nat with (S k); cycle 1.
    { replace (S n) with (n + 1)%nat by lia. rewrite <-Nat.Div0.add_mod_idemp_l. fold k.
      rewrite Nat.mod_small; lia. }
    by rewrite (take_S_r l k y Hz), app_assoc.
Qed.

Lemma rotate_unstep n l y r : rotate (S n) l = r ++ [y] -> rotate n l = y :: r.
Proof.
  intros E. destruct (rotate n l) as [|z r'] eqn:E'.
  { apply (f_equal length) in E, E'. rewrite length_rotate in *. rewrite length_app in E. simpl in *. lia. }
  apply rotate_step in E'. rewrite E in E'. by apply app_inj_tail in E' as [-> ->].
Qed.

Lemma rotate_all n k (x : A) l : rotate n l = replicate k x -> l = replicate k x.
Proof.
  intros E. assert (length l = k) as <- by (by rewrite <-(length_rotate l n), E, length_replicate).
  symmetry. apply replicate_as_Forall. split; [done|].
  assert (F : Forall (eq x) (rotate n l)) by (rewrite E; by apply Forall_replicate).
  unfold rotate in F. apply Forall_app in F as [F1 F2].
  rewrite <-(take_drop (n mod length l) l). by apply Forall_app.
Qed.
End slots.

(** ** [BoundedQueue] is a bounded list *)

Section bounded.
Context {T : Type}.
Implicit Type q : BoundedQueue T.
Implicit Type L : list T.

Definition room (n : nat) L : list (option T) := (Some <$> L) ++ replicate (n - length L) None.

(** [q] holds [L], top first, in a buffer of [cap] slots. *)
Record rep (cap : Z) L q : Prop := {
  rep_cap : _cap q = cap;
  rep_items : cap = Z.of_nat (length (_items q));
  rep_cap_max : cap <= 2 ^ 31;
  rep_count : _count q = Z.of_nat (length L);
  rep_count_max : Z.of_nat (length L) <= cap;
  rep_start : 0 <= _start q /\ (_start q < cap \/ _start q = 0);
  rep_slots : rotate (Z.to_nat (_start q)) (_items q) = room (length (_items q)) L }.

Lemma _mod_spec off cap : 0 <= off < 2 * cap -> cap <= 2 ^ 31 -> _mod (u32 off) cap = Some (off mod cap).
Proof.
  intros H1 H2. rewrite (wrap_small 32 off) by (unfold is_uint; lia). unfold _mod. simpl.
  rewrite Z.geb_leb. destruct (Z.leb_spec cap off); [|by rewrite Z.mod_small by lia].
  rewrite (wrap_small 32) by (unfold is_uint; lia). rewrite Z.geb_leb.
  destruct (Z.leb_spec cap (off - cap)); [lia|]. f_equal.
  rewrite <-(Z.mod_small (off - cap) cap) by lia. by rewrite <-(Z_mod_plus_full (off - cap) 1), Z.mul_1_l, Z.sub_add.
Qed.

(** The slot at position [j] of the queue. *)
Definition slot q (j : Z) : Z := (_start q + j) mod _cap q.

Lemma slot_range cap L q j : rep cap L q -> 0 < cap -> 0 <= slot q j < Z.of_nat (length (_items q)).
Proof. intros R ?. unfold slot. rewrite (rep_cap _ _ _ R), <-(rep_items _ _ _ R). by apply Z.mod_pos_bound. Qed.

Lemma slot_0 cap L q : rep cap L q -> 0 < cap -> slot q 0 = _start q.
Proof. intros R ?. unfold slot. rewrite Z.add_0_r, (rep_cap _ _ _ R). apply Z.mod_small. destruct (rep_start _ _ _ R). lia. Qed.

Lemma slot_mod cap L q j :
  rep cap L q -> 0 <= j < cap -> _mod (u32 (_start q + j)) (_cap q) = Some (slot q j).
Proof.
  intros R ?. unfold slot. rewrite (rep_cap _ _ _ R). destruct (rep_start _ _ _ R).
  apply _mod_spec; [lia|apply (rep_cap_max _ _ _ R)].
Qed.

Lemma slot_rotate cap L q j :
  rep cap L q -> 0 <= j < cap -> Z.to_nat (slot q j) = rotate_nat_add (Z.to_nat (_start q)) (Z.to_nat j) (length (_items q)).
Proof.
  intros R ?. unfold slot, rotate_nat_add. destruct (rep_start _ _ _ R).
  by rewrite (rep_cap _ _ _ R), <-(rep_items _ _ _ R), !Z2Nat.id by lia.
Qed.

Lemma slot_write cap L q j o :
  rep cap L q -> 0 <= j < cap ->
  exists items, slot_set (_items q) (slot q j) o = Some items /\ length items = length (_items q) /\
    rotate (Z.to_nat (_start q)) items = <[Z.to_nat j := o]> (room (length (_items q)) L).
Proof.
  intros R Hj. exists (<[Z.to_nat (slot q j) := o]> (_items q)).
  rewrite slot_set_in by (eapply slot_range; [done|lia]).
  split; [done|]. split; [by rewrite length_insert|].
  rewrite (slot_rotate _ _ _ _ R Hj), rotate_insert_l, (rep_slots _ _ _ R); [done|].
  pose proof (rep_items _ _ _ R). lia.
Qed.

Lemma slot_read cap L q j x :
  rep cap L q -> L !! j = Some x -> slot_get (_items q) (slot q (Z.of_nat j)) = Some (Some x).
Proof.
  intros R Hx. assert (Hj : 0 <= Z.of_nat j < cap).
  { pose proof (rep_count_max _ _ _ R). apply lookup_lt_Some in Hx. lia. }
  apply slot_get_Some. split; [eapply slot_range; [done|lia]|].
  rewrite (slot_rotate _ _ _ _ R Hj), <-lookup_rotate_r, (rep_slots _ _ _ R); [|pose proof (rep_items _ _ _ R); lia].
  unfold room. rewrite Nat2Z.id. apply lookup_app_l_Some. by rewrite list_lookup_fmap, Hx.
Qed.

Lemma room_snoc n L x : (length L < n)%nat -> <[length L := Some x]> (room n L) = room n (L ++ [x]).
Proof.
  intros H. unfold room. rewrite insert_app_r_alt by (rewrite length_fmap; lia).
  rewrite length_fmap, Nat.sub_diag, fmap_app, <-app_assoc. f_equal. rewrite length_app. simpl.
  by replace (n - length L)%nat with (S (n - (length L + 1)))%nat by lia.
Qed.

Lemma room_unsnoc n L x : (length (L ++ [x]) <= n)%nat -> <[length L := None]> (room n (L ++ [x])) = room n L.
Proof.
  intros H. unfold room. rewrite length_app in *. simpl in *. rewrite fmap_app, <-app_assoc.
  rewrite insert_app_r_alt by (rewrite length_fmap; lia).
  rewrite length_fmap, Nat.sub_diag. f_equal. simpl.
  by replace (n - length L)%nat with (S (n - (length L + 1)))%nat by lia.
Qed.

Lemma room_tail n L x : (length (x :: L) <= n)%nat -> room n L = (Some <$> L) ++ replicate (n - length (x :: L)) None ++ [None].
Proof.
  intros H. unfold room. f_equal. rewrite <-replicate_cons_app. simpl in *.
  by replace (n - length L)%nat with (S (n - S (length L)))%nat by lia.
Qed.

(** The next start. *)
Lemma start_step cap L q items (y : option T) r :
  rep cap L q -> 0 < cap -> length items = length (_items q) -> rotate (Z.to_nat (_start q)) items = y :: r ->
  exists start, _mod (u32 (_start q + 1)) (_cap q) = Some start /\ 0 <= start < cap /\
    rotate (Z.to_nat start) items = r ++ [y].
Proof.
  intros R Hc Hl E. exists (slot q 1). destruct (rep_start _ _ _ R). split_and!.
  - unfold slot. rewrite (rep_cap _ _ _ R). apply _mod_spec; [lia|apply (rep_cap_max _ _ _ R)].
  - pose proof (slot_range _ _ _ 1 R Hc). pose proof (rep_items _ _ _ R). lia.
  - pose proof (slot_range _ _ _ 1 R Hc). pose proof (rep_items _ _ _ R). lia.
  - apply rotate_step in E. rewrite <-E, <-(rotate_mod (S _)). f_equal. unfold slot.
    rewrite (rep_cap _ _ _ R), Hl. apply Nat2Z.inj. rewrite Z2Nat.id by (by apply Z.mod_pos_bound).
    rewrite Nat2Z.inj_mod, <-(rep_items _ _ _ R). f_equal. lia.
Qed.

(** The operation returns [r] and leaves a queue that holds [L]. *)
Definition leaves {R} (cap : Z) (m : option (R * BoundedQueue T)) (r : R) L : Prop :=
  exists q', m = Some (r, q') /\ rep cap L q'.

Lemma rep_set cap L L' q start items :
  rep cap L q -> length items = length (_items q) -> Z.of_nat (length L') <= cap ->
  0 <= start /\ (start < cap \/ start = 0) ->
  rotate (Z.to_nat start) items = room (length items) L' ->
  rep cap L' (set_queue (Z.of_nat (length L')) start items q).
Proof.
  intros R Hl HL Hs Hr. split; simpl; auto.
  - apply (rep_cap _ _ _ R).
  - rewrite Hl. apply (rep_items _ _ _ R).
  - apply (rep_cap_max _ _ _ R).
Qed.

Lemma count_lt cap L q : rep cap L q -> (_count q <? _cap q) = bool_decide (Z.of_nat (length L) < cap).
Proof.
  intros R. rewrite (rep_count _ _ _ R), (rep_cap _ _ _ R).
  destruct (Z.ltb_spec (Z.of_nat (length L)) cap); [by rewrite bool_decide_true|by rewrite bool_decide_false by lia].
Qed.

Lemma count_nonzero cap L q : rep cap L q -> negb (_count q =? 0) = match L with [] => false | _ => true end.
Proof. intros R. rewrite (rep_count _ _ _ R). by destruct L. Qed.

Lemma count_succ cap L q x : rep cap L q -> Z.of_nat (length L) < cap -> u32 (_count q + 1) = Z.of_nat (length (L ++ [x])).
Proof.
  intros R ?. rewrite (rep_count _ _ _ R), length_app. simpl. pose proof (rep_cap_max _ _ _ R).
  rewrite wrap_small by (unfold is_uint; lia). lia.
Qed.

Lemma count_pred cap L q n : rep cap L q -> length L = S n -> u32 (_count q - 1) = Z.of_nat n.
Proof.
  intros R HL. rewrite (rep_count _ _ _ R), HL. pose proof (rep_cap_max _ _ _ R). pose proof (rep_count_max _ _ _ R).
  rewrite wrap_small by (unfold is_uint; lia). lia.
Qed.

(** Writing after the last item. *)
Lemma push_items cap L q x :
  rep cap L q -> Z.of_nat (length L) < cap ->
  exists items, (p ← _mod (u32 (_start q + _count q)) (_cap q); slot_set (_items q) p (Some x)) = Some items /\
    _mod (u32 (_start q + _count q)) (_cap q) = Some (slot q (Z.of_nat (length L))) /\
    rep cap (L ++ [x]) (set_queue (u32 (_count q + 1)) (_start q) items q).
Proof.
  intros R Hlt. rewrite (count_succ _ _ _ x R Hlt). rewrite (rep_count _ _ _ R), (slot_mod _ _ _ _ R) by lia.
  destruct (slot_write _ _ _ (Z.of_nat (length L)) (Some x) R) as (items & E & Hl & Hr); [lia|].
  exists items. split; [done|]. split; [done|]. rewrite Nat2Z.id in Hr. pose proof (rep_items _ _ _ R).
  eapply rep_set; eauto using rep_start.
  - rewrite length_app. simpl. lia.
  - rewrite Hr, Hl. apply room_snoc. lia.
Qed.

Lemma push_spec cap L q x :
  rep cap L q ->
  if bool_decide (Z.of_nat (length L) < cap) then leaves cap (push x q) true (L ++ [x]) else push x q = Some (false, q).
Proof.
  intros R. unfold push, leaves. rewrite (count_lt _ _ _ R). case_bool_decide; [|done].
  destruct (push_items _ _ _ x R) as (items & E & Hp & R'); [done|]. rewrite Hp in *. simpl in *. rewrite E. simpl. eauto.
Qed.

Lemma push_default_spec cap L q x :
  rep cap L q ->
  if bool_decide (Z.of_nat (length L) < cap)
  then leaves cap (push_default x q) (Some (slot q (Z.of_nat (length L)))) (L ++ [x]) else push_default x q = Some (None, q).
Proof.
  intros R. unfold push_default, leaves. rewrite (count_lt _ _ _ R). case_bool_decide; [|done].
  destruct (push_items _ _ _ x R) as (items & E & Hp & R'); [done|]. rewrite Hp in *. simpl in *. rewrite E. simpl. eauto.
Qed.

(** Taking the object at the top. *)
Lemma top_live cap L q x : rep cap (x :: L) q -> slot_get (_items q) (_start q) = Some (Some x).
Proof.
  intros R. rewrite <-(slot_0 _ _ _ R) by (pose proof (rep_count_max _ _ _ R); simpl in *; lia).
  by apply (slot_read _ _ _ 0 x R).
Qed.

Lemma top_write cap L q x o :
  rep cap (x :: L) q ->
  exists items start, slot_set (_items q) (_start q) o = Some items /\ length items = length (_items q) /\
    _mod (u32 (_start q + 1)) (_cap q) = Some start /\ 0 <= start < cap /\
    rotate (Z.to_nat start) items = (Some <$> L) ++ replicate (length items - length (x :: L)) None ++ [o].
Proof.
  intros R. pose proof (rep_count_max _ _ _ R) as Hc. simpl in Hc.
  destruct (slot_write _ _ _ 0 o R) as (items & E & Hl & Hr); [lia|]. rewrite (slot_0 _ _ _ R) in E by lia.
  unfold room in Hr. rewrite fmap_cons in Hr. simpl in Hr.
  destruct (start_step _ _ _ _ _ _ R ltac:(lia) Hl Hr) as (start & Em & Hs & Hr').
  exists items, start. split_and!; auto; try lia. by rewrite Hr', Hl, <-app_assoc.
Qed.

Lemma pop_items cap L q x :
  rep cap (x :: L) q ->
  exists items start, destroy (_start q) (_items q) = Some items /\ _mod (u32 (_start q + 1)) (_cap q) = Some start /\
    rep cap L (set_queue (u32 (_count q - 1)) start items q).
Proof.
  intros R. destruct (top_write _ _ _ _ None R) as (items & start & E & Hl & Em & Hs & Hr). exists items, start.
  unfold destroy. rewrite (top_live _ _ _ _ R). simpl. split_and!; auto.
  rewrite (count_pred _ _ _ (length L) R eq_refl). pose proof (rep_count_max _ _ _ R). pose proof (rep_items _ _ _ R). simpl in *.
  eapply rep_set; eauto; try lia. rewrite Hr. symmetry. apply (room_tail _ _ x). simpl. lia.
Qed.

Lemma pop_spec cap L q :
  rep cap L q -> leaves cap (pop q) (match L with [] => false | _ => true end) (tail L).
Proof.
  intros R. unfold pop, leaves. rewrite (count_nonzero _ _ _ R). destruct L as [|x L]; [by eauto|].
  destruct (pop_items _ _ _ _ R) as (items & start & -> & E & R'). simpl. rewrite E. simpl. eauto.
Qed.

Lemma pop_item_spec cap L q : rep cap L q -> leaves cap (pop_item q) (head L) (tail L).
Proof.
  intros R. unfold pop_item, leaves, live. rewrite (count_nonzero _ _ _ R). destruct L as [|x L]; [by eauto|].
  destruct (pop_items _ _ _ _ R) as (items & start & E1 & E & R'). rewrite (top_live _ _ _ _ R). simpl.
  rewrite E1. simpl. rewrite E. simpl. eauto.
Qed.

(** [elim_push] on a full queue gives up the top. *)
Lemma elim_push_spec cap L q x :
  rep cap L q -> 0 < cap ->
  exists q', elim_push x q = Some q' /\ rep cap (if bool_decide (Z.of_nat (length L) < cap) then L ++ [x] else tail L ++ [x]) q'.
Proof.
  intros R Hc. unfold elim_push. rewrite (count_lt _ _ _ R). case_bool_decide as Hlt.
  { destruct (push_items _ _ _ x R) as (items & E & Hp & R'); [done|]. rewrite Hp in *. simpl in *. rewrite E. simpl. eauto. }
  pose proof (rep_count_max _ _ _ R). pose proof (rep_items _ _ _ R) as Hi.
  destruct L as [|y L]; simpl in *; [lia|].
  destruct (top_write _ _ _ _ (Some x) R) as (items & start & E & Hl & Em & Hs & Hr).
  unfold live. rewrite (top_live _ _ _ _ R). simpl. rewrite E. simpl. rewrite Em. simpl.
  eexists. split; [done|]. rewrite (rep_count _ _ _ R). simpl length.
  assert (length (y :: L) = length (L ++ [x])) as EL by (rewrite length_app; simpl; lia). simpl in EL. rewrite EL.
  eapply rep_set; eauto; try lia. rewrite Hr. unfold room. rewrite fmap_app, <-app_assoc. f_equal.
  rewrite <-EL, Hl. simpl. by replace (length (_items q) - S (length L))%nat with O by lia.
Qed.

(** Writing before the top. *)
Lemma push_top_items cap L q x :
  rep cap L q -> Z.of_nat (length L) < cap ->
  exists items, slot_set (_items q) (before (_start q) (_cap q)) (Some x) = Some items /\
    rep cap (x :: L) (set_queue (u32 (_count q + 1)) (before (_start q) (_cap q)) items q).
Proof.
  intros R Hlt. pose proof (rep_items _ _ _ R) as Hi. pose proof (rep_cap_max _ _ _ R) as Hm.
  destruct (rep_start _ _ _ R) as [Hs0 Hs].
  assert (Hb : 0 <= before (_start q) (_cap q) < cap /\
    (S (Z.to_nat (before (_start q) (_cap q))) mod length (_items q) = Z.to_nat (_start q))%nat).
  { unfold before. rewrite (rep_cap _ _ _ R). destruct (Z.eqb_spec (_start q) 0) as [E|E]; simpl.
    - rewrite wrap_small by (unfold is_uint; lia). split; [lia|]. rewrite E.
      replace (S (Z.to_nat (cap - 1))) with (length (_items q)) by lia. by rewrite Nat.Div0.mod_same.
    - rewrite wrap_small by (unfold is_uint; lia). split; [lia|].
      replace (S (Z.to_nat (_start q - 1))) with (Z.to_nat (_start q)) by lia. apply Nat.mod_small. lia. }
  destruct Hb as [Hb1 Hb2]. rewrite slot_set_in by lia. eexists. split; [done|].
  rewrite (count_succ _ _ _ x R Hlt). replace (length (L ++ [x])) with (length (x :: L)) by (rewrite length_app; simpl; lia).
  eapply rep_set; [done|by rewrite length_insert|simpl; lia|lia|].
  pose proof (rep_slots _ _ _ R) as Hr. rewrite <-Hb2, rotate_mod in Hr. set (b := Z.to_nat _) in *.
  assert (Hb3 : (b < length (_items q))%nat) by lia.
  assert (b = rotate_nat_add b 0 (length (_items q))) as Eb.
  { unfold rotate_nat_add. rewrite Z.add_0_r, Z.mod_small, Nat2Z.id by lia. done. }
  rewrite Eb at 2. rewrite rotate_insert_l by lia. rewrite length_insert.
  destruct (rotate b (_items q)) as [|y r] eqn:Er.
  { apply (f_equal length) in Er. rewrite length_rotate in Er. simpl in Er. lia. }
  apply rotate_step in Er. rewrite Er in Hr. simpl. unfold room in Hr.
  replace (length (_items q) - length L)%nat with (S (length (_items q) - S (length L)))%nat in Hr by lia.
  rewrite replicate_S_end, app_assoc in Hr. apply app_inj_tail in Hr as [-> _]. done.
Qed.

Lemma push_top_spec cap L q x :
  rep cap L q ->
  if bool_decide (Z.of_nat (length L) < cap)
  then leaves cap (push_top x q) true (x :: L) else push_top x q = Some (false, q).
Proof.
  intros R. unfold push_top, leaves. rewrite (count_lt _ _ _ R). case_bool_decide; [|done].
  destruct (push_top_items _ _ _ x R) as (items & -> & R'); [done|]. simpl. eauto.
Qed.

Lemma push_top_default_spec cap L q x :
  rep cap L q ->
  if bool_decide (Z.of_nat (length L) < cap)
  then leaves cap (push_top_default x q) (Some (before (_start q) (_cap q))) (x :: L) else push_top_default x q = Some (None, q).
Proof.
  intros R. unfold push_top_default, leaves. rewrite (count_lt _ _ _ R). case_bool_decide; [|done].
  destruct (push_top_items _ _ _ x R) as (items & -> & R'); [done|]. simpl. eauto.
Qed.

(** [clear] destroys every object. *)
Lemma clear_loop_spec q L1 L2 items cap :
  rep cap (L1 ++ L2) q -> length items = length (_items q) ->
  rotate (Z.to_nat (_start q)) items =
    replicate (length L1) None ++ (Some <$> L2) ++ replicate (length (_items q) - length (L1 ++ L2)) None ->
  exists items', clear_loop (length L2) (Z.of_nat (length L1)) q items = Some items' /\
    items' = replicate (length (_items q)) None.
Proof.
  revert L1 items. induction L2 as [|x L2 IH]; intros L1 items R Hl Hr; simpl.
  - exists items. split; [done|]. apply (rotate_all (Z.to_nat (_start q))). rewrite Hr. simpl.
    rewrite app_nil_r, <-replicate_add. f_equal. pose proof (rep_count_max _ _ _ R). pose proof (rep_items _ _ _ R).
    rewrite app_nil_r in *. lia.
  - pose proof (rep_count_max _ _ _ R) as Hc. pose proof (rep_items _ _ _ R) as Hi. rewrite length_app in Hc. simpl in Hc.
    assert (Hj : 0 <= Z.of_nat (length L1) < cap) by lia.
    rewrite (slot_mod _ _ _ _ R Hj). simpl. unfold destroy.
    pose proof (slot_range _ _ _ (Z.of_nat (length L1)) R ltac:(lia)) as Hs.
    assert (slot_get items (slot q (Z.of_nat (length L1))) = Some (Some x)) as ->.
    { apply slot_get_Some. split; [lia|].
      rewrite (slot_rotate _ _ _ _ R Hj), <-Hl, <-lookup_rotate_r, Hr, Nat2Z.id by lia.
      rewrite lookup_app_r, length_replicate, Nat.sub_diag by (rewrite length_replicate; lia). done. }
    simpl. rewrite slot_set_in by lia. simpl.
    replace (Z.of_nat (length L1) + 1) with (Z.of_nat (length (L1 ++ [x]))) by (rewrite length_app; simpl; lia).
    apply IH; [by rewrite <-app_assoc|by rewrite length_insert|].
    rewrite (slot_rotate _ _ _ _ R Hj), <-Hl, rotate_insert_l, Hr, Nat2Z.id by lia.
    rewrite insert_app_r_alt by (rewrite length_replicate; lia).
    rewrite length_replicate, Nat.sub_diag. simpl.
    rewrite <-app_assoc. simpl. rewrite Hl, length_app. simpl length. rewrite Nat.add_comm. simpl.
    by rewrite length_app, Nat.add_1_r, (cons_middle None), app_assoc, <-replicate_S_end.
Qed.

Lemma clear_spec cap L q : rep cap L q -> exists q', clear q = Some q' /\ rep cap [] q'.
Proof.
  intros R. unfold clear. rewrite (rep_count _ _ _ R), Nat2Z.id.
  destruct (clear_loop_spec q [] L (_items q) cap R eq_refl) as (items & E & ->); [apply (rep_slots _ _ _ R)|].
  simpl in E. change (Z.of_nat 0) with 0 in E. rewrite E. simpl. eexists. split; [done|]. change 0 with (Z.of_nat (length (A:=T) [])) at 1.
  eapply rep_set; [done|by rewrite length_replicate|simpl; pose proof (rep_count_max _ _ _ R); lia|lia|].
  unfold room. simpl. by rewrite rotate_replicate, length_replicate, Nat.sub_0_r.
Qed.

(** [pop_bottom] finds the last object by [_start + _count], without [_mod]. *)
Lemma bottom_items cap L q x :
  rep cap (L ++ [x]) q ->
  let i := _start q + Z.of_nat (length L) in
  u32 (_start q + u32 (_count q - 1)) = i /\
  if bool_decide (i < cap) then
    live i (_items q) = Some x /\
    exists items, destroy i (_items q) = Some items /\ rep cap L (set_queue (u32 (_count q - 1)) (_start q) items q)
  else live i (_items q) = None /\ destroy i (_items q) = None.
Proof.
  intros R i. pose proof (rep_count_max _ _ _ R) as Hc. pose proof (rep_items _ _ _ R) as Hi.
  pose proof (rep_cap_max _ _ _ R) as Hm. destruct (rep_start _ _ _ R) as [Hs0 Hs]. rewrite length_app in Hc. simpl in Hc.
  rewrite (count_pred _ _ _ (length L) R) by (rewrite length_app; simpl; lia).
  rewrite wrap_small by (unfold is_uint; lia). split; [done|]. unfold live, destroy.
  case_bool_decide as Hlt; cycle 1.
  { rewrite slot_get_out by lia. done. }
  assert (i = slot q (Z.of_nat (length L))) as E.
  { unfold slot. rewrite (rep_cap _ _ _ R). symmetry. apply Z.mod_small. lia. }
  rewrite E, (slot_read _ _ _ (length L) x R) by (by rewrite list_lookup_middle). simpl. split; [done|].
  destruct (slot_write _ _ _ (Z.of_nat (length L)) None R) as (items & E' & Hl & Hr); [lia|].
  exists items. split; [done|]. eapply rep_set; [done|done|lia|lia|].
  rewrite Hr, Nat2Z.id, Hl. apply room_unsnoc. rewrite length_app. simpl. lia.
Qed.

Lemma pop_bottom_spec cap L q x :
  rep cap (L ++ [x]) q ->
  if bool_decide (_start q + Z.of_nat (length L) < cap)
  then leaves cap (pop_bottom q) true L /\ leaves cap (pop_bottom_item q) (Some x) L
  else pop_bottom q = None /\ pop_bottom_item q = None.
Proof.
  intros R. pose proof (bottom_items _ _ _ _ R) as [E H]. simpl in *.
  unfold leaves, pop_bottom, pop_bottom_item. rewrite (count_nonzero _ _ _ R), E.
  replace (match L ++ [x] with [] => false | _ => true end) with true by (by destruct L).
  case_bool_decide.
  - destruct H as (Hv & items & Hd & R'). rewrite Hv, Hd. simpl. split; eauto.
  - destruct H as [Hv Hd]. by rewrite Hv, Hd.
Qed.

(** The accessors. *)
Lemma slot_at cap L q p j x :
  rep cap L q -> p = slot q (Z.of_nat j) -> L !! j = Some x -> live p (_items q) = Some x.
Proof. intros R -> Hx. unfold live. by rewrite (slot_read _ _ _ _ _ R Hx). Qed.

Lemma top_at_spec cap L q (i : nat) :
  rep cap L q ->
  match L !! i with
  | Some x => exists p, top_at (Z.of_nat i) q = Some (Some p) /\ live p (_items q) = Some x
  | None => top_at (Z.of_nat i) q = Some None
  end.
Proof.
  intros R. unfold top_at. rewrite (rep_count _ _ _ R). pose proof (rep_count_max _ _ _ R). destruct (L !! i) as [x|] eqn:E.
  - pose proof (lookup_lt_Some _ _ _ E). rewrite (proj2 (Z.ltb_lt _ _)) by lia.
    rewrite (slot_mod _ _ _ _ R) by lia. simpl. eauto using slot_at.
  - apply lookup_ge_None in E. by rewrite (proj2 (Z.ltb_ge _ _)) by lia.
Qed.

Lemma bottom_at_spec cap L q (i : nat) :
  rep cap L q ->
  match reverse L !! i with
  | Some x => exists p, bottom_at (Z.of_nat i) q = Some (Some p) /\ live p (_items q) = Some x
  | None => bottom_at (Z.of_nat i) q = Some None
  end.
Proof.
  intros R. unfold bottom_at. rewrite (rep_count _ _ _ R). pose proof (rep_count_max _ _ _ R). pose proof (rep_cap_max _ _ _ R).
  destruct (rep_start _ _ _ R). destruct (reverse L !! i) as [x|] eqn:E.
  - apply reverse_lookup_Some in E as [E Hl]. rewrite (proj2 (Z.ltb_lt _ _)) by lia.
    rewrite (wrap_small 32 (_start q + _)) by (unfold is_uint; lia).
    replace (_start q + Z.of_nat (length L) - Z.of_nat i - 1) with (_start q + Z.of_nat (length L - S i)) by lia.
    rewrite (slot_mod _ _ _ _ R) by lia. simpl. eauto using slot_at.
  - apply lookup_ge_None in E. rewrite length_reverse in E. by rewrite (proj2 (Z.ltb_ge _ _)) by lia.
Qed.

Lemma ends_spec cap L q :
  rep cap L q ->
  match top q with Some p => live p (_items q) = head L /\ L <> [] | None => L = [] end /\
  bottom q = bottom_at 0 q /\ empty q = bool_decide (L = []) /\ full q = bool_decide (Z.of_nat (length L) = cap) /\
  size q = Z.of_nat (length L) /\ capacity q = cap.
Proof.
  intros R. unfold top, bottom, bottom_at, empty, full, size, capacity. rewrite (rep_cap _ _ _ R).
  rewrite (count_nonzero _ _ _ R), (rep_count _ _ _ R). split_and!; auto.
  - destruct L as [|x L]; [done|]. split; [|done]. unfold live. by rewrite (top_live _ _ _ _ R).
  - rewrite Z.sub_0_r. by destruct L.
  - by destruct L.
  - destruct (Z.eqb_spec cap (Z.of_nat (length L))); [by rewrite bool_decide_true|by rewrite bool_decide_false by lia].
Qed.

Lemma new_spec capacity : 0 <= capacity <= 2 ^ 31 -> rep capacity [] (BoundedQueue_new capacity).
Proof.
  intros H. unfold BoundedQueue_new. split; simpl; rewrite ?length_replicate; try lia.
  - apply wrap_small. unfold is_uint. lia.
  - rewrite rotate_replicate. unfold room. simpl. by rewrite Nat.sub_0_r.
Qed.
End bounded.

(** ** [TCLoopQueue] is a bounded FIFO list *)

Section loop.
Context {T : Type}.
Implicit Type q : Loop.TCLoopQueue T.
Implicit Type L : list T.
Import Loop.

(** [q] was built for [n] elements and holds [L], oldest first. *)
Record loop_rep (n : Z) L q : Prop := {
  loop_n : 1 <= n < 1000000;
  loop_sub : _iCapacitySub q = n;
  loop_cap : _iCapacity q = n + 1;
  loop_p : Z.of_nat (length (_p q)) = n + 1;
  loop_end : 0 <= _iEnd q <= n;
  loop_begin : _iBegin q = (_iEnd q + Z.of_nat (length L)) mod (n + 1);
  loop_length : Z.of_nat (length L) <= n;
  loop_items : take (length L) (rotate (Z.to_nat (_iEnd q)) (_p q)) = L }.

(** Where the write position is. *)
Lemma loop_begin_cases n L q :
  loop_rep n L q ->
  (_iEnd q + Z.of_nat (length L) <= n /\ _iBegin q = _iEnd q + Z.of_nat (length L)) \/
  (n < _iEnd q + Z.of_nat (length L) /\ _iBegin q = _iEnd q + Z.of_nat (length L) - (n + 1)).
Proof.
  intros []. destruct (Z.le_gt_cases (_iEnd q + Z.of_nat (length L)) n).
  - left. split; [done|]. rewrite loop_begin0. apply Z.mod_small. lia.
  - right. split; [done|]. rewrite loop_begin0.
    rewrite <-(Z_mod_plus_full _ (-1)). rewrite Z.mod_small; lia.
Qed.

Lemma loop_next n L q i : loop_rep n L q -> 0 <= i <= n -> next i q = (i + 1) mod (n + 1).
Proof.
  intros R Hi. unfold next. rewrite (loop_sub _ _ _ R). pose proof (loop_n _ _ _ R). destruct (Z.eqb_spec i n) as [->|].
  - symmetry. apply Z_mod_same_full.
  - rewrite wrap_small by (unfold is_uint; lia). symmetry. apply Z.mod_small. lia.
Qed.

Lemma loop_empty n L q : loop_rep n L q -> (_iEnd q =? _iBegin q) = bool_decide (L = []).
Proof.
  intros R. pose proof (loop_begin_cases _ _ _ R). pose proof (loop_length _ _ _ R).
  destruct L as [|x L]; simpl length in *; [rewrite bool_decide_true by done; apply Z.eqb_eq; pose proof (loop_end _ _ _ R); lia|].
  rewrite bool_decide_false by done. apply Z.eqb_neq. lia.
Qed.

Lemma loop_size n L q : loop_rep n L q -> size q = Z.of_nat (length L).
Proof.
  intros R. pose proof (loop_begin_cases _ _ _ R). pose proof (loop_length _ _ _ R). pose proof (loop_end _ _ _ R).
  pose proof (loop_n _ _ _ R). unfold size. rewrite (loop_cap _ _ _ R).
  destruct (Z.ltb_spec (_iBegin q) (_iEnd q)); rewrite ?(wrap_small 32 (_ + _)) by (unfold is_uint; lia);
    rewrite wrap_small by (unfold is_uint; lia); lia.
Qed.

Ltac loop_facts R :=
  pose proof (loop_begin_cases _ _ _ R); pose proof (loop_length _ _ _ R); pose proof (loop_end _ _ _ R);
  pose proof (loop_n _ _ _ R); pose proof (loop_p _ _ _ R).

(** The full tests of the two [push_back]. *)
Lemma loop_full n L q (k : Z) :
  loop_rep n L q -> 0 <= k <= n ->
  ((_iEnd q >? _iBegin q) && (u32 (_iEnd q - _iBegin q) <? k + 1)) ||
  ((_iBegin q >? _iEnd q) && (u32 (_iBegin q - _iEnd q) >? n - k)) = bool_decide (n < Z.of_nat (length L) + k).
Proof.
  intros R Hk. loop_facts R. rewrite !Z.gtb_ltb.
  destruct (Z.ltb_spec (_iBegin q) (_iEnd q)), (Z.ltb_spec (_iEnd q) (_iBegin q)); try lia; simpl.
  - rewrite orb_false_r. rewrite wrap_small by (unfold is_uint; lia). apply eq_true_iff_eq. rewrite Z.ltb_lt, bool_decide_eq_true. lia.
  - rewrite wrap_small by (unfold is_uint; lia). apply eq_true_iff_eq. rewrite Z.ltb_lt, bool_decide_eq_true. lia.
  - rewrite bool_decide_false; [done|lia].
Qed.

(** One element written. *)
Lemma loop_write n L q t :
  loop_rep n L q -> Z.of_nat (length L) < n ->
  exists p, slot_set (_p q) (_iBegin q) t = Some p /\ loop_rep n (L ++ [t]) (with_begin p (next (_iBegin q) q) q).
Proof.
  intros R Hlt. loop_facts R. rewrite slot_set_in by lia. eexists. split; [done|].
  rewrite (loop_next _ _ _ _ R) by lia. pose proof (loop_sub _ _ _ R). pose proof (loop_cap _ _ _ R). split; simpl; auto.
  - by rewrite length_insert.
  - rewrite (loop_begin _ _ _ R), length_app. simpl. rewrite Z.add_mod_idemp_l by lia. f_equal. lia.
  - rewrite length_app. simpl. lia.
  - assert (Z.to_nat (_iBegin q) = rotate_nat_add (Z.to_nat (_iEnd q)) (length L) (length (_p q))) as ->.
    { unfold rotate_nat_add. rewrite Z2Nat.id by lia. by rewrite (loop_p _ _ _ R), (loop_begin _ _ _ R). }
    rewrite rotate_insert_l by lia. rewrite length_app, Nat.add_1_r.
    rewrite (take_S_r _ _ t) by (apply list_lookup_insert_eq; rewrite length_rotate; lia).
    rewrite take_insert_ge by lia. by rewrite (loop_items _ _ _ R).
Qed.

Lemma loop_push_spec n L q t :
  loop_rep n L q ->
  exists q', push_back t q = Some (bool_decide (Z.of_nat (length L) < n), bool_decide (L = []), q') /\
    loop_rep n (if bool_decide (Z.of_nat (length L) < n) then L ++ [t] else L) q'.
Proof.
  intros R. loop_facts R. unfold push_back. rewrite (loop_cap _ _ _ R).
  rewrite (wrap_small 32 (n + 1 - 2)) by (unfold is_uint; lia). replace (n + 1 - 2) with (n - 1) by lia.
  change 2 with (1 + 1) at 1. rewrite (loop_full _ _ _ 1 R) by lia. repeat case_bool_decide; try lia.
  - exists q. subst. simpl in *. lia.
  - eauto.
  - destruct (loop_write _ _ _ t R ltac:(lia)) as (p & -> & R'). simpl. rewrite (loop_empty _ _ _ R).
    rewrite bool_decide_eq_true_2 by done. simpl. eauto.
  - destruct (loop_write _ _ _ t R ltac:(lia)) as (p & -> & R'). cbn [mbind option_bind]. rewrite (loop_empty _ _ _ R).
    rewrite bool_decide_eq_false_2, (loop_size _ _ _ R') by done.
    rewrite (proj2 (Z.eqb_neq 1 _)) by (rewrite length_app; destruct L; simpl in *; [done|lia]). eauto.
Qed.

Lemma loop_push_loop_spec n vt L q :
  loop_rep n L q -> Z.of_nat (length L + length vt) <= n ->
  exists q', push_back_loop vt q = Some q' /\ loop_rep n (L ++ vt) q'.
Proof.
  revert L q. induction vt as [|t vt IH]; intros L q R H; simpl in *.
  - rewrite app_nil_r. eauto.
  - destruct (loop_write _ _ _ t R ltac:(lia)) as (p & -> & R'). simpl.
    destruct (IH _ _ R') as (q' & -> & R''); [rewrite length_app; simpl; lia|]. rewrite <-app_assoc in R''. eauto.
Qed.

Lemma loop_push_vector_spec n L q vt :
  loop_rep n L q -> Z.of_nat (length vt) < 2 ^ 63 -> 
  exists q', push_back_vector vt q = Some (bool_decide (Z.of_nat (length L + length vt) <= n), q') /\
    loop_rep n (if bool_decide (Z.of_nat (length L + length vt) <= n) then L ++ vt else L) q'.
Proof.
  intros R Hv. loop_facts R. unfold push_back_vector. rewrite (loop_cap _ _ _ R), Z.add_simpl_r.
  rewrite (wrap_small 32 n) by (unfold is_uint; lia). rewrite Z.gtb_ltb.
  destruct (Z.ltb_spec n (Z.of_nat (length vt))) as [Hn|Hn]; simpl.
  { rewrite bool_decide_false by lia. eauto. }
  rewrite !(wrap_small 64) by (unfold is_uint; try lia; rewrite wrap_small; unfold is_uint; lia).
  replace (n + 1 - Z.of_nat (length vt) - 1) with (n - Z.of_nat (length vt)) by lia.
  rewrite (loop_full _ _ _ _ R) by lia. case_bool_decide.
  - rewrite bool_decide_false by lia. eauto.
  - rewrite bool_decide_true by lia.
    destruct (loop_push_loop_spec _ vt _ _ R ltac:(lia)) as (q' & -> & R'). simpl. eauto.
Qed.

(** Taking the oldest element. *)
Lemma loop_head n x L q : loop_rep n (x :: L) q -> slot_get (_p q) (_iEnd q) = Some x.
Proof.
  intros R. loop_facts R. apply slot_get_Some. split; [lia|].
  assert (Z.to_nat (_iEnd q) = rotate_nat_add (Z.to_nat (_iEnd q)) 0 (length (_p q))) as ->.
  { unfold rotate_nat_add. rewrite Z.add_0_r, Z.mod_small by lia. by rewrite Nat2Z.id. }
  rewrite <-lookup_rotate_r by lia. pose proof (loop_items _ _ _ R) as E. simpl in E.
  destruct (rotate _ _); by simplify_eq/=.
Qed.

Lemma loop_tail n x L q : loop_rep n (x :: L) q -> loop_rep n L (with_end (next (_iEnd q) q) q).
Proof.
  intros R. loop_facts R. rewrite (loop_next _ _ _ _ R) by lia.
  pose proof (Z.mod_pos_bound (_iEnd q + 1) (n + 1) ltac:(lia)).
  pose proof (loop_sub _ _ _ R). pose proof (loop_cap _ _ _ R). split; simpl in *; auto; try lia.
  - rewrite (loop_begin _ _ _ R), Z.add_mod_idemp_l by lia. simpl. f_equal. lia.
  - pose proof (loop_items _ _ _ R) as E. simpl in E.
    destruct (rotate (Z.to_nat (_iEnd q)) (_p q)) as [|y r] eqn:Er; [done|]. simpl in E. injection E as -> Et.
    apply rotate_step in Er. rewrite <-(rotate_mod (S _)) in Er.
    replace (Z.to_nat ((_iEnd q + 1) mod (n + 1))) with (S (Z.to_nat (_iEnd q)) mod length (_p q))%nat; cycle 1.
    { apply Nat2Z.inj. rewrite Nat2Z.inj_mod, Z2Nat.id, (loop_p _ _ _ R) by lia. f_equal. lia. }
    rewrite Er. rewrite take_app_le; [by rewrite Et|].
    apply (f_equal length) in Et. rewrite length_take in Et. lia.
Qed.

Lemma loop_pop_spec n L q :
  loop_rep n L q ->
  (exists q', pop_front_item q = Some (head L, q') /\ loop_rep n (tail L) q') /\
  (exists q', pop_front q = (negb (bool_decide (L = [])), q') /\ loop_rep n (tail L) q') /\
  get_front q = Some (head L).
Proof.
  intros R. unfold pop_front_item, pop_front, get_front. rewrite (loop_empty _ _ _ R).
  destruct L as [|x L]; [rewrite bool_decide_eq_true_2 by done; eauto 8|]. rewrite bool_decide_eq_false_2 by done.
  rewrite (loop_head _ _ _ _ R). simpl. pose proof (loop_tail _ _ _ _ R). split_and!; eauto.
Qed.

Lemma loop_new_spec n raw :
  1 <= n < 1000000 -> Z.of_nat (length raw) = n + 1 -> exists q, TCLoopQueue_new n raw = Some q /\ loop_rep n [] q.
Proof.
  intros Hn Hr. unfold TCLoopQueue_new. rewrite (proj2 (Z.ltb_lt _ _)) by lia. eexists. split; [done|].
  split; simpl; auto; try lia. rewrite wrap_small by (unfold is_uint; lia). done.
Qed.
End loop.

(** ** Claims *)

(** [BoundedQueue] built for at most 2^31 items and [rep cap L] (the queue holds the
    list [L], top first, in a ring of [cap] slots) are preserved by every operation, which
    acts on [L] as on a bounded double-ended list: [push] and [push_top] refuse when it
    is full, [elim_push] then gives up the top, [pop] takes the head, [clear] destroys
    every object, [top(i)] and [bottom(i)] give the slot of the [i]-th item from either
    end, and no live object is overwritten or lost. *)
Theorem bounded_queue_refines {T} (cap : Z) (L : list T) (q : BoundedQueue T) (x : T) (i : nat) (R : rep cap L q) :
  let full_ := negb (bool_decide (Z.of_nat (length L) < cap)) in
  (0 <= cap <= 2 ^ 31 -> rep cap [] (BoundedQueue_new (T:=T) cap)) /\
  (if full_ then push x q = Some (false, q) else leaves cap (push x q) true (L ++ [x])) /\
  (if full_ then push_default x q = Some (None, q)
   else leaves cap (push_default x q) (Some (slot q (Z.of_nat (length L)))) (L ++ [x])) /\
  (if full_ then push_top x q = Some (false, q) else leaves cap (push_top x q) true (x :: L)) /\
  (if full_ then push_top_default x q = Some (None, q)
   else leaves cap (push_top_default x q) (Some (before (_start q) (_cap q))) (x :: L)) /\
  (0 < cap -> exists q', elim_push x q = Some q' /\ rep cap (if full_ then tail L ++ [x] else L ++ [x]) q') /\
  leaves cap (pop q) (negb (bool_decide (L = []))) (tail L) /\
  leaves cap (pop_item q) (head L) (tail L) /\
  (exists q', clear q = Some q' /\ rep cap [] q') /\
  (match L !! i with
   | Some y => exists p, top_at (Z.of_nat i) q = Some (Some p) /\ live p (_items q) = Some y
   | None => top_at (Z.of_nat i) q = Some None end) /\
  (match reverse L !! i with
   | Some y => exists p, bottom_at (Z.of_nat i) q = Some (Some p) /\ live p (_items q) = Some y
   | None => bottom_at (Z.of_nat i) q = Some None end) /\
  (match top q with Some p => live p (_items q) = head L /\ L <> [] | None => L = [] end) /\
  bottom q = bottom_at 0 q /\ empty q = bool_decide (L = []) /\
  full q = bool_decide (Z.of_nat (length L) = cap) /\ size q = Z.of_nat (length L) /\ capacity q = cap.
Proof.
  cbn zeta. pose proof (push_spec _ _ _ x R). pose proof (push_default_spec _ _ _ x R).
  pose proof (push_top_spec _ _ _ x R). pose proof (push_top_default_spec _ _ _ x R).
  split; [apply new_spec|]. do 4 (split; [case_bool_decide; assumption|]).
  split; [intros Hc; destruct (elim_push_spec _ _ _ x R Hc) as (q' & E & R'); exists q'; by case_bool_decide|].
  split; [destruct (pop_spec _ _ _ R) as (q' & E & R'); exists q'; by destruct L|].
  split; [by apply pop_item_spec|]. split; [by eapply clear_spec|].
  split; [by eapply top_at_spec|]. split; [by eapply bottom_at_spec|]. by apply ends_spec.
Qed.

(** A queue of three slots, wrapped around, holding 1, 2 and 3. *)
Definition wrapped : BoundedQueue Z :=
  {| _count := 3; _cap := 3; _start := 1; _items := [Some 3; Some 1; Some 2] |}.

Lemma wrapped_rep : rep 3 [1; 2; 3] wrapped.
Proof. split; try done; simpl; lia. Qed.

Lemma bounded_queue_refines_witness :
  leaves 3 (pop_item wrapped) (Some 1) [2; 3] /\ (exists q', elim_push 4 wrapped = Some q' /\ rep 3 [2; 3; 4] q').
Proof.
  pose proof (bounded_queue_refines 3 [1; 2; 3] wrapped 4 0 wrapped_rep) as (_ & _ & _ & _ & _ & H1 & _ & H2 & _).
  split; [exact H2|]. apply H1. lia.
Defined.

(** [pop_bottom] and [pop_bottom(item)] take the last item when the items do not
    wrap around; when they do, both look past the end of the buffer. *)
Theorem bounded_queue_pop_bottom {T} (cap : Z) (L : list T) (x : T) (q : BoundedQueue T) (R : rep cap (L ++ [x]) q) :
  if bool_decide (_start q + Z.of_nat (length L) < cap)
  then leaves cap (pop_bottom q) true L /\ leaves cap (pop_bottom_item q) (Some x) L
  else pop_bottom q = None /\ pop_bottom_item q = None.
Proof. by apply pop_bottom_spec. Qed.

Lemma bounded_queue_pop_bottom_witness : pop_bottom_item wrapped = None.
Proof. exact (proj2 (bounded_queue_pop_bottom 3 [1; 2] 3 wrapped wrapped_rep)). Defined.

(** [TCLoopQueue] built for [n] elements, [1 <= n < 1000000], is a FIFO list of at
    most [n]: [push_back] refuses when full and reports whether the queue was empty, the
    vector version appends all of its elements or none, [pop_front] and [get_front] give
    the oldest, [size] and [empty] are those of the list. *)
Theorem loop_queue_refines {T} (n : Z) (L vt raw : list T) (t : T) (q : Loop.TCLoopQueue T)
    (R : loop_rep n L q) (Hv : Z.of_nat (length vt) < 2 ^ 63) :
  (Z.of_nat (length raw) = n + 1 -> exists q0, Loop.TCLoopQueue_new n raw = Some q0 /\ loop_rep n [] q0) /\
  (exists q', Loop.push_back t q = Some (bool_decide (Z.of_nat (length L) < n), bool_decide (L = []), q') /\
     loop_rep n (if bool_decide (Z.of_nat (length L) < n) then L ++ [t] else L) q') /\
  (exists q', Loop.push_back_vector vt q = Some (bool_decide (Z.of_nat (length L + length vt) <= n), q') /\
     loop_rep n (if bool_decide (Z.of_nat (length L + length vt) <= n) then L ++ vt else L) q') /\
  (exists q', Loop.pop_front_item q = Some (head L, q') /\ loop_rep n (tail L) q') /\
  (exists q', Loop.pop_front q = (negb (bool_decide (L = [])), q') /\ loop_rep n (tail L) q') /\
  Loop.get_front q = Some (head L) /\ Loop.size q = Z.of_nat (length L) /\ Loop.empty q = bool_decide (L = []).
Proof.
  split; [apply loop_new_spec, (loop_n _ _ _ R)|]. split; [by apply loop_push_spec|].
  split; [by apply loop_push_vector_spec|]. destruct (loop_pop_spec _ _ _ R) as (H1 & H2 & H3).
  split; [done|]. split; [done|]. split; [done|]. split; [by eapply loop_size|].
  unfold Loop.empty. rewrite (loop_empty _ _ _ R). by case_bool_decide.
Qed.

Lemma loop_queue_refines_witness :
  exists q, Loop.TCLoopQueue_new 2 [0; 0; 0] = Some q /\
    exists q', Loop.push_back 7 q = Some (true, true, q') /\ loop_rep 2 [7] q'.
Proof.
  destruct (loop_new_spec 2 [0; 0; 0] ltac:(lia) eq_refl) as (q & E & R). exists q. split; [exact E|].
  destruct (loop_queue_refines 2 [] [] [] 7 q R ltac:(vm_compute; reflexivity)) as (_ & H & _). exact H.
Defined.

(** Built for no element at all, [push_back] says [true] and keeps nothing. *)
Lemma loop_queue_zero : exists q, Loop.TCLoopQueue_new 0 [0] = Some q /\
  exists q', Loop.push_back 7 q = Some (true, true, q') /\ Loop.size q' = 0.
Proof. eexists. split; [reflexivity|]. eexists. split; reflexivity. Qed.
