(* ===== verification/Monitor.v ===== *)
(** * Monitor: calls that share a state under one mutex and its condition variables

    The queues of [src/util/blocking_queue.h] lock a mutex, test the state, wait on a
    condition variable or change the state, and signal condition variables before or
    after they unlock.  A call is the operation it runs: [run op r s] is what the code
    does from one acquisition of the mutex to its release, in the shared state [s], and
    [r] tells how the thread came by the mutex.  Between two releases nothing else
    happens, so a step of the system is one such piece, the delivery of a signal sent
    after the unlock, a spurious wake-up or a timeout.  The scheduler is the list of
    choices; calls arrive at any time, so the calls of a thread that follow one another
    are among them. *)

From S2P Require Import Prelude.
#[local] Open Scope nat_scope.

(** How a call gets the mutex: on entry, woken from a wait, or from a timed wait. *)
Inductive resumed := entry | woken | timed_out.

Inductive signal (CV : Type) := notify_one (cv : CV) | notify_all (cv : CV).
Arguments notify_one {CV} _.
Arguments notify_all {CV} _.

#[export] Instance signal_eq_dec {CV} `{EqDecision CV} : EqDecision (signal CV).
Proof. solve_decision. Defined.

(** The end of a piece: the call returns, with the signals it sends after the unlock, or
    waits. *)
Inductive outcome (CV R : Type) := Returns (after : list (signal CV)) (r : R) | Waits (cv : CV).
Arguments Returns {CV R} _ _.
Arguments Waits {CV R} _.

(** [run] is [None] where the code fails (an assertion, an access out of bounds); the
    list is the signals sent inside the critical section; [timed] marks the operations
    whose wait has a timeout. *)
Class Monitor (S CV Op R : Type) := {
  run : Op -> resumed -> S -> option (S * list (signal CV) * outcome CV R);
  timed : Op -> bool }.

Inductive status (CV R : Type) :=
  | Ready (how : resumed) | Waiting (cv : CV) | Signalling (after : list (signal CV)) (r : R) | Finished (r : R).
Arguments Ready {CV R} _.
Arguments Waiting {CV R} _.
Arguments Signalling {CV R} _ _.
Arguments Finished {CV R} _.

Section system.
Context {S CV Op R : Type} `{EqDecision CV} `{M : !Monitor S CV Op R}.

(** The calls made so far, each with its status, and the log of the critical sections
    that ended a call, in order. *)
Record system := { shared : S; calls : list (Op * status CV R); log : list (Op * R) }.

Definition waits (cv : CV) (c : Op * status CV R) : bool :=
  match c.2 with Waiting cv' => bool_decide (cv' = cv) | _ => false end.
Definition wake (c : Op * status CV R) : Op * status CV R := (c.1, Ready woken).

(** [pick] is the call that [notify_one] wakes; it may miss only if nobody waits. *)
Definition deliver (pick : nat) (sig : signal CV) (cs : list (Op * status CV R)) : option (list (Op * status CV R)) :=
  match sig with
  | notify_one cv =>
      if existsb (waits cv) cs then
        c ← cs !! pick; if waits cv c then Some (<[pick := wake c]> cs) else None
      else Some cs
  | notify_all cv => Some ((fun c => if waits cv c then wake c else c) <$> cs)
  end.
Fixpoint deliver_all (picks : list nat) (sigs : list (signal CV)) (cs : list (Op * status CV R)) :
    option (list (Op * status CV R)) :=
  match sigs with
  | [] => Some cs
  | sig :: sigs => cs ← deliver (hd 0 picks) sig cs; deliver_all (tl picks) sigs cs
  end.

Inductive choice :=
  | Call (op : Op) | Run (i : nat) (picks : list nat) | Spurious (i : nat) | Timeout (i : nat) | Deliver (i pick : nat).

Definition ends (out : outcome CV R) : status CV R :=
  match out with Returns [] r => Finished r | Returns after r => Signalling after r | Waits cv => Waiting cv end.

Definition step (ch : choice) (st : system) : option system :=
  match ch with
  | Call op => Some {| shared := shared st; calls := calls st ++ [(op, Ready entry)]; log := log st |}
  | Run i picks =>
      '(op, s) ← calls st !! i;
      match s with
      | Ready how =>
          '(sh, inside, out) ← run op how (shared st);
          cs ← deliver_all picks inside (<[i := (op, ends out)]> (calls st));
          Some {| shared := sh; calls := cs;
                  log := log st ++ match out with Returns _ r => [(op, r)] | Waits _ => [] end |}
      | _ => None
      end
  | Spurious i =>
      '(op, s) ← calls st !! i;
      match s with
      | Waiting _ => Some {| shared := shared st; calls := <[i := (op, Ready woken)]> (calls st); log := log st |}
      | _ => None
      end
  | Timeout i =>
      '(op, s) ← calls st !! i;
      match s with
      | Waiting _ =>
          if timed op
          then Some {| shared := shared st; calls := <[i := (op, Ready timed_out)]> (calls st); log := log st |}
          else None
      | _ => None
      end
  | Deliver i pick =>
      '(op, s) ← calls st !! i;
      match s with
      | Signalling (sig :: after) r =>
          cs ← deliver pick sig (<[i := (op, ends (Returns after r))]> (calls st));
          Some {| shared := shared st; calls := cs; log := log st |}
      | _ => None
      end
  end.

Definition system_new (s : S) : system := {| shared := s; calls := []; log := [] |}.

(** A whole schedule. *)
Definition schedule (chs : list choice) (st : system) : option system :=
  foldl (fun o ch => st ← o; step ch st) (Some st) chs.

Inductive reachable (s : S) : system -> Prop :=
  | reach_new : reachable s (system_new s)
  | reach_step ch st st' : reachable s st -> step ch st = Some st' -> reachable s st'.

(** Nothing can happen without a new call, a spurious wake-up or a timeout. *)
Definition quiescent (st : system) : Prop :=
  forall i op s, calls st !! i = Some (op, s) -> match s with Ready _ | Signalling _ _ => False | _ => True end.

(** Some call can take the mutex, and its code fails there. *)
Definition fails (st : system) : Prop :=
  exists i op how, calls st !! i = Some (op, Ready how) /\ run op how (shared st) = None.
End system.
Arguments system : clear implicits.
Arguments choice : clear implicits.

(** ** Lemmas on lists of calls *)

Section lists.
Context {A : Type}.
Implicit Type l : list A.

Lemma sum_insert (f : A -> nat) l i x y :
  l !! i = Some x -> sum_list_with f (<[i := y]> l) + f x = sum_list_with f l + f y.
Proof.
  revert i. induction l as [|z l IH]; intros [|i] H; simplify_eq/=; [lia|]. specialize (IH _ H). lia.
Qed.

Lemma sum_fmap_le (f : A -> nat) (g : A -> A) l :
  (forall x, f x <= f (g x)) -> sum_list_with f l <= sum_list_with f (g <$> l).
Proof. intros H. induction l as [|x l IH]; [done|]; rewrite fmap_cons; cbn [sum_list_with]. specialize (H x). lia. Qed.

Lemma Forall_insert_ne (P : A -> Prop) l i y :
  P y -> (forall j x, l !! j = Some x -> j <> i -> P x) -> Forall P (<[i := y]> l).
Proof.
  intros Hy H. apply Forall_lookup. intros j x Hj. destruct (decide (j = i)) as [->|Hne].
  - destruct (decide (i < length l)).
    + rewrite list_lookup_insert_eq in Hj by done. by simplify_eq.
    + rewrite lookup_ge_None_2 in Hj; [done|rewrite length_insert; lia].
  - rewrite list_lookup_insert_ne in Hj by done. eauto.
Qed.

Lemma Exists_lookup (P : A -> Prop) l : Exists P l <-> exists i x, l !! i = Some x /\ P x.
Proof.
  rewrite Exists_exists. split.
  - intros (x & Hx%list_elem_of_In & HP). apply list_elem_of_lookup in Hx as [i ?]. eauto.
  - intros (i & x & Hx & HP). exists x. split; [|done]. by apply list_elem_of_In, list_elem_of_lookup_2 with i.
Qed.

Lemma Exists_fmap_impl (P : A -> Prop) (g : A -> A) l : (forall x, P x -> P (g x)) -> Exists P l -> Exists P (g <$> l).
Proof. rewrite !Exists_lookup. intros Hg (i & x & Hx & HP). exists i, (g x). by rewrite list_lookup_fmap, Hx; auto. Qed.

Lemma Forall_fmap_impl (P : A -> Prop) (g : A -> A) l : (forall x, P x -> P (g x)) -> Forall P l -> Forall P (g <$> l).
Proof. intros Hg HF. induction HF; rewrite ?fmap_cons; auto. Qed.
End lists.

(** ** A resource behind a condition variable *)

(** The units of a resource that a signal on [cv] hands out. *)
Definition weight {CV} `{EqDecision CV} (cv : CV) (counts : bool) (sig : signal CV) : nat :=
  match sig with notify_one cv' => Nat.b2n (counts && bool_decide (cv' = cv)) | notify_all _ => 0 end.

(** The signals sent by a piece, before and after the unlock. *)
Definition sent {CV R} (inside : list (signal CV)) (out : outcome CV R) : list (signal CV) :=
  inside ++ match out with Returns after _ => after | Waits _ => [] end.

(** [mine] are the operations that wait on [cv] until a resource is there, [avail s] is
    how much of it there is ([None] when every waiter is to go on), [counts] says that
    [notify_one] hands out one unit, to a call that then takes it; [idle s] is a state in
    which nobody waits for it. *)
Class Resource {S CV Op R : Type} `{EqDecision CV} (M : Monitor S CV Op R) (inv : S -> Prop) (cv : CV)
    (counts : bool) (mine : Op -> bool) (idle : S -> bool) (avail : S -> option nat) := {
  inv_run op how s s' sg out : inv s -> run op how s = Some (s', sg, out) -> inv s';
  waits_mine op how s s' sg : counts = true -> inv s -> run op how s = Some (s', sg, Waits cv) -> mine op = true;
  waits_none op how s s' sg : mine op = true -> inv s -> run op how s = Some (s', sg, Waits cv) -> avail s' = Some 0;
  run_covers op how s s' sg out n :
    inv s -> run op how s = Some (s', sg, out) -> avail s = Some n ->
    idle s = true \/ notify_all cv ∈ sent sg out \/
    exists n', avail s' = Some n' /\
      (n' = 0 \/ n' + Nat.b2n (counts && mine op) <= n + sum_list_with (weight cv counts) (sent sg out)) }.

Section resource.
Context {S CV Op R : Type} `{EqDecision CV} {M : Monitor S CV Op R} {inv : S -> Prop} {cv : CV}
  {counts : bool} {mine : Op -> bool} {idle : S -> bool} {avail : S -> option nat} `{HR : !Resource M inv cv counts mine idle avail}.
Abbreviation call := (Op * status CV R)%type.
Implicit Type cs : list call.

(** A call that waits for the resource, a broadcast still to be sent, and the units under
    way: signals still to be sent and calls about to run. *)
Definition waits_for (c : call) : Prop := waits cv c = true /\ mine c.1 = true.
Definition broadcasts (c : call) : Prop :=
  match c.2 with Signalling after _ => notify_all cv ∈ after | _ => False end.
Definition credit (c : call) : nat :=
  match c.2 with
  | Ready _ => Nat.b2n (counts && mine c.1)
  | Signalling after _ => sum_list_with (weight cv counts) after
  | _ => 0
  end.
Definition waiters_mine cs : Prop := counts = true -> Forall (fun c => waits cv c = true -> mine c.1 = true) cs.
Definition covers cs (n : nat) : Prop :=
  Forall (fun c => ~ waits_for c) cs \/ Exists broadcasts cs \/ n <= sum_list_with credit cs.

Lemma covers_mono cs n m : m <= n -> covers cs n -> covers cs m.
Proof. intros ? [?|[?|?]]; unfold covers; auto. right. right. lia. Qed.

Lemma wake_not_waiting c : ~ waits_for (wake c).
Proof. by intros [? _]. Qed.

Lemma wake_credit c : waits cv c = true -> mine c.1 = true -> credit (wake c) = credit c + Nat.b2n counts.
Proof. destruct c as [op [| | |]]; try done. unfold credit, wake. simpl. intros _ ->. by rewrite andb_true_r. Qed.

Lemma credit_waiting cv' c : waits cv' c = true -> credit c = 0.
Proof. by destruct c as [op [| | |]]. Qed.

Lemma waits_eq cv1 cv2 (c : call) : waits cv1 c = true -> waits cv2 c = true -> cv1 = cv2.
Proof.
  destruct c as [op [| | |]]; try done. unfold waits. simpl. rewrite !bool_decide_eq_true. congruence.
Qed.

(** One signal delivered. *)
Lemma deliver_covers pick sig cs cs' n :
  waiters_mine cs -> covers cs n -> deliver pick sig cs = Some cs' ->
  waiters_mine cs' /\ covers cs' (n + weight cv counts sig) /\
  (sig = notify_all cv -> Forall (fun c => ~ waits_for c) cs') /\
  (forall P : call -> Prop, (forall c, P c -> P (wake c)) -> Forall P cs -> Forall P cs') /\
  (Exists broadcasts cs -> Exists broadcasts cs').
Proof.
  intros HW Hc. destruct sig as [cv'|cv']; simpl.
  - destruct (existsb (waits cv') cs) eqn:Ew; cycle 1.
    { intros [= ->]. split_and!; auto; try done. destruct (decide (cv' = cv)) as [->|]; cycle 1.
      - by rewrite bool_decide_false, andb_false_r, Nat.add_0_r by done.
      - left. apply Forall_forall. intros c Hin [Hw _].
        rewrite <-not_true_iff_false in Ew. apply Ew, existsb_exists. exists c. by split. }
    destruct (cs !! pick) as [c|] eqn:Ec; simpl; [|done]. destruct (waits cv' c) eqn:Hw; [|done].
    intros [= <-].
    assert (HP : forall P : call -> Prop, (forall c, P c -> P (wake c)) -> Forall P cs -> Forall P (<[pick := wake c]> cs)).
    { intros P Hwk HF. pose proof (proj1 (Forall_lookup _ _) HF). apply Forall_insert_ne; eauto. }
    assert (HB : Exists broadcasts cs -> Exists broadcasts (<[pick := wake c]> cs)).
    { intros (j & b & Hb & HB)%Exists_lookup. apply Exists_lookup. exists j, b. split; [|done].
      rewrite list_lookup_insert_ne; [done|]. intros ->. assert (b = c) as -> by congruence.
      by destruct c as [op [| | |]]. }
    split; [intros Hct; apply HP; [done|by apply HW]|]. split; [|done].
    destruct Hc as [Hc|[Hc|Hc]]; [left; apply HP; [intros; apply wake_not_waiting|done]|right; left; auto|].
    right. right. pose proof (sum_insert credit cs pick c (wake c) Ec) as Hs.
    rewrite (credit_waiting cv' c Hw) in Hs. destruct (decide (cv' = cv)) as [->|]; cycle 1.
    { rewrite bool_decide_false, andb_false_r by done. simpl. lia. }
    rewrite bool_decide_true, andb_true_r by done. destruct (bool_dec counts true) as [Ect|Ect%not_true_is_false]; rewrite Ect in *; simpl; [|lia].
    assert (mine c.1 = true) as Hm by (pose proof (HW Ect) as HF; rewrite Forall_lookup in HF; by eapply HF).
    rewrite (wake_credit c Hw Hm), (credit_waiting cv c Hw), Ect in Hs. simpl in Hs. lia.
  - intros [= <-]. rewrite Nat.add_0_r. set (g := fun c => if waits cv' c then wake c else c).
    assert (HP : forall P : call -> Prop, (forall c, P c -> P (wake c)) -> Forall P cs -> Forall P (g <$> cs)).
    { intros P Hwk. apply Forall_fmap_impl. intros c Hp. unfold g. destruct (waits cv' c); auto. }
    assert (HB : Exists broadcasts cs -> Exists broadcasts (g <$> cs)).
    { apply Exists_fmap_impl. intros c Hb. unfold g. by destruct c as [op [| | |]]. }
    split_and!; auto.
    + intros Hct. apply HP; [done|by apply HW].
    + destruct Hc as [Hc|[Hc|Hc]]; [left; apply HP; [intros; apply wake_not_waiting|done]|right; left; auto|].
      right. right. etrans; [exact Hc|]. apply sum_fmap_le. intros c. unfold g. destruct (waits cv' c) eqn:Hw; [|done].
      rewrite (credit_waiting cv' c Hw). lia.
    + intros [= ->]. apply Forall_fmap, Forall_forall. intros c _. unfold compose, g.
      destruct (waits cv c) eqn:Hw; [apply wake_not_waiting|]. unfold waits_for. rewrite Hw. by intros [? _].
Qed.

Lemma deliver_all_covers picks sigs cs cs' n :
  waiters_mine cs -> covers cs n -> deliver_all picks sigs cs = Some cs' ->
  waiters_mine cs' /\ covers cs' (n + sum_list_with (weight cv counts) sigs) /\
  (notify_all cv ∈ sigs -> Forall (fun c => ~ waits_for c) cs') /\
  (Forall (fun c => ~ waits_for c) cs -> Forall (fun c => ~ waits_for c) cs') /\
  (Exists broadcasts cs -> Exists broadcasts cs').
Proof.
  revert picks cs n. induction sigs as [|sig sigs IH]; intros picks cs n HW Hc; cbn [deliver_all sum_list_with].
  { intros [= ->]. rewrite Nat.add_0_r. split_and!; auto. by intros ?%not_elem_of_nil. }
  destruct (deliver _ _ _) as [cs1|] eqn:E; simpl; [|done]. intros E'.
  destruct (deliver_covers _ _ _ _ _ HW Hc E) as (HW1 & Hc1 & Ha & HP & HB).
  destruct (IH _ _ _ HW1 Hc1 E') as (HW2 & Hc2 & Ha2 & HP2 & HB2). split_and!; auto.
  - by rewrite Nat.add_assoc.
  - intros [<-|?]%elem_of_cons; auto.
  - intros HF. apply HP2, HP; [intros; apply wake_not_waiting|done].
Qed.

(** The state of the resource is accounted for. *)
Definition covered (st : system S CV Op R) : Prop :=
  inv (shared st) /\ waiters_mine (calls st) /\
  (Forall (fun c => ~ waits_for c) (calls st) \/ Exists broadcasts (calls st) \/
   exists n, avail (shared st) = Some n /\ n <= sum_list_with credit (calls st)).

(** Replacing the status of a call that is not about to broadcast. *)
Lemma Exists_insert_ne (cs : list call) i c c' :
  cs !! i = Some c -> ~ broadcasts c -> Exists broadcasts cs -> Exists broadcasts (<[i := c']> cs).
Proof.
  intros Hc Hb (j & b & Hj & Hbj)%Exists_lookup. apply Exists_lookup. exists j, b. split; [|done].
  rewrite list_lookup_insert_ne; [done|]. intros ->. by simplify_eq.
Qed.

Lemma insert_credit cs i c c' (n : nat) :
  cs !! i = Some c -> ~ broadcasts c -> ~ waits_for c' -> credit c <= credit c' ->
  covers cs n -> covers (<[i := c']> cs) n.
Proof.
  intros Hi Hb Hw Hle [Hc|[Hc|Hc]].
  - left. apply Forall_insert_ne; [done|]. rewrite Forall_lookup in Hc. eauto.
  - right. left. by eapply Exists_insert_ne.
  - right. right. pose proof (sum_insert credit cs i c c' Hi). lia.
Qed.

Lemma insert_mine cs i c' :
  waiters_mine cs -> (counts = true -> waits cv c' = true -> mine c'.1 = true) -> waiters_mine (<[i := c']> cs).
Proof.
  intros HW Hc Hct. specialize (HW Hct). rewrite Forall_lookup in HW. apply Forall_insert_ne; eauto.
Qed.

Lemma covered_unchanged st st' :
  shared st' = shared st -> waiters_mine (calls st') -> (forall n, covers (calls st) n -> covers (calls st') n) ->
  covered st -> covered st'.
Proof.
  intros Es HW HC (Hi & _ & Hc). unfold covered. rewrite Es. split; [done|]. split; [done|].
  destruct Hc as [Hc|[Hc|(n & Ha & Hc)]].
  - destruct (HC (1 + sum_list_with credit (calls st'))) as [?|[?|?]]; [by left|auto..]. lia.
  - destruct (HC (1 + sum_list_with credit (calls st'))) as [?|[?|?]]; [by right; left|auto..]. lia.
  - destruct (HC n) as [?|[?|?]]; [by right; right|eauto..].
Qed.

(** What a finished piece leaves behind. *)
Lemma ends_credit op (after : list (signal CV)) r :
  credit (op, ends (Returns after r)) = sum_list_with (weight cv counts) after /\
  ~ waits_for (op, ends (Returns after r)) /\
  (notify_all cv ∈ after -> broadcasts (op, ends (Returns after r))).
Proof. destruct after; simpl; (split; [done|]); (split; [by intros [??]|]); [by intros ?%not_elem_of_nil|done]. Qed.

Definition idle_ok (st : system S CV Op R) : Prop :=
  idle (shared st) = true -> Forall (fun c => ~ waits_for c) (calls st).

Lemma run_covered i picks st st' : idle_ok st -> covered st -> step (Run i picks) st = Some st' -> covered st'.
Proof.
  intros Hid (Hi & HW & Hc). simpl. destruct (calls st !! i) as [[op s]|] eqn:Ei; simpl; [|done].
  destruct s as [how| | |]; try done. destruct (run op how (shared st)) as [[[sh inside] out]|] eqn:Er; simpl; [|done].
  destruct (deliver_all _ _ _) as [cs|] eqn:Ed; simpl; [|done]. intros [= <-]. unfold covered. simpl.
  split; [by eapply inv_run|]. set (c' := (op, ends out)) in *.
  assert (HW1 : waiters_mine (<[i := c']> (calls st))).
  { apply insert_mine; [done|]. intros Hct. unfold c'. destruct out as [[|??] ?|cv']; try done. unfold waits. simpl.
    rewrite bool_decide_eq_true. intros ->. by eapply waits_mine. }
  assert (Hw : waits_for c' -> avail sh = Some 0).
  { intros [H1 H2]. unfold c', waits in H1. destruct out as [[|??] ?|cv']; try done. simpl in *.
    apply bool_decide_eq_true in H1 as ->. by eapply waits_none. }
  pose proof (fun n Hn => deliver_all_covers picks inside _ _ n HW1 Hn Ed) as HD.
  split; [destruct (HD 0); [unfold covers; right; right; lia|done]|].
  destruct (decide (waits_for c')) as [Hw'|Hnw]; [right; right; exists 0; split; [auto|lia]|].
  destruct (HD (sum_list_with credit (<[i := c']> (calls st)))) as (_ & HD1 & HD2 & HD3 & HD4); [right; right; lia|].
  assert (Hidle : Forall (fun c => ~ waits_for c) (calls st) -> Forall (fun c => ~ waits_for c) cs).
  { intros HF. apply HD3, Forall_insert_ne; [done|]. rewrite Forall_lookup in HF. eauto. }
  destruct Hc as [Hc|[Hc|(n & Ha & Hc)]]; [by left; auto| |].
  - right. left. apply HD4. eapply Exists_insert_ne; [done| |done]. auto.
  - destruct (run_covers _ _ _ _ _ _ _ Hi Er Ha) as [Hn|[Hall|(n' & Hn' & Hle)]]; [by left; auto| |].
    { unfold sent in Hall. apply elem_of_app in Hall as [Hall|Hall]; [by left; apply HD2|].
      right. left. apply HD4, Exists_lookup. exists i, c'. split; [apply list_lookup_insert_eq; by eapply lookup_lt_Some|].
      unfold c'. destruct out as [after r|]; [by apply (ends_credit op after r)|by apply not_elem_of_nil in Hall]. }
    destruct Hle as [->|Hle]; [right; right; exists 0; split; [done|lia]|].
    destruct HD1 as [HD1|[HD1|HD1]]; [by left|by right; left|]. right. right. exists n'. split; [done|].
    pose proof (sum_insert credit _ i _ c' Ei) as Hs. unfold sent in Hle. rewrite sum_list_with_app in Hle.
    assert (credit c' = sum_list_with (weight cv counts) match out with Returns after _ => after | Waits _ => [] end) as Hcr.
    { unfold c'. destruct out as [after r|]; [apply (ends_credit op after r)|done]. }
    unfold credit at 2 in Hs. simpl in Hs. lia.
Qed.

Lemma deliver_covered i pick st st' : covered st -> step (Deliver i pick) st = Some st' -> covered st'.
Proof.
  intros (Hi & HW & Hc). simpl. destruct (calls st !! i) as [[op s]|] eqn:Ei; simpl; [|done].
  destruct s as [| |[|sig after] r|]; try done.
  destruct (deliver _ _ _) as [cs|] eqn:Ed; simpl; [|done]. intros [= <-]. unfold covered. simpl. split; [done|].
  set (c' := (op, match after with [] => Finished r | _ => Signalling after r end)) in *.
  destruct (ends_credit op after r) as (Hcr & Hnw & Hbr). change (op, ends (Returns after r)) with c' in Hcr, Hnw, Hbr.
  assert (HW1 : waiters_mine (<[i := c']> (calls st))).
  { apply insert_mine; [done|]. intros _. unfold c'. by destruct after. }
  pose proof (fun n Hn => deliver_covers pick sig _ _ n HW1 Hn Ed) as HD.
  split; [destruct (HD 0); [unfold covers; right; right; lia|done]|].
  destruct (HD (sum_list_with credit (<[i := c']> (calls st)))) as (_ & HD1 & HD2 & HD3 & HD4); [right; right; lia|].
  destruct Hc as [Hc|[Hc|(n & Ha & Hc)]].
  - left. apply HD3; [intros; apply wake_not_waiting|]. apply Forall_insert_ne; [done|]. rewrite Forall_lookup in Hc. eauto.
  - destruct (decide (sig = notify_all cv)) as [->|Hne]; [left; auto|]. right. left. apply HD4.
    apply Exists_lookup in Hc as (j & b & Hj & Hb). apply Exists_lookup. destruct (decide (j = i)) as [->|Hji].
    + exists i, c'. split; [apply list_lookup_insert_eq; by eapply lookup_lt_Some|]. simplify_eq. apply Hbr.
      unfold broadcasts in Hb. simpl in Hb. apply elem_of_cons in Hb as [|]; [congruence|done].
    + exists j, b. by rewrite list_lookup_insert_ne.
  - destruct HD1 as [HD1|[HD1|HD1]]; [by left|by right; left|]. right. right. exists n. split; [done|].
    pose proof (sum_insert credit _ i _ c' Ei) as Hs. unfold credit at 2 in Hs. simpl in Hs. lia.
Qed.

Lemma step_covered ch st st' : idle_ok st -> covered st -> step ch st = Some st' -> covered st'.
Proof.
  destruct ch as [op|i picks|i|i|i pick]; [|apply run_covered| | |intros _; apply deliver_covered]; intros _ H; simpl.
  - intros [= <-]. pose proof H as (Hi & HW & Hc). apply (covered_unchanged st); auto; simpl.
    + intros Hct. apply Forall_app. split; [auto|]. by repeat constructor.
    + intros n [?|[?|?]]; unfold covers; rewrite ?Forall_app, ?Exists_app, sum_list_with_app; [left|right; left; auto|right; right; lia].
      split; [done|]. repeat constructor. by intros [??].
  - destruct (calls st !! i) as [[op s]|] eqn:Ei; simpl; [|done]. destruct s as [|cv'| |]; try done.
    intros [= <-]. pose proof H as (Hi & HW & Hc). apply (covered_unchanged st); auto; simpl.
    + by apply insert_mine.
    + intros n. eapply insert_credit; [done|auto|by intros [??]|]. unfold credit. simpl. lia.
  - destruct (calls st !! i) as [[op s]|] eqn:Ei; simpl; [|done]. destruct s as [|cv'| |]; try done.
    destruct (timed op); [|done].
    intros [= <-]. pose proof H as (Hi & HW & Hc). apply (covered_unchanged st); auto; simpl.
    + by apply insert_mine.
    + intros n. eapply insert_credit; [done|auto|by intros [??]|]. unfold credit. simpl. lia.
Qed.

Lemma reachable_covered s st :
  inv s -> (forall st', reachable s st' -> idle_ok st') -> reachable s st -> covered st.
Proof.
  intros Hs Hid HR'. induction HR' as [|ch st st' HR' IH E]; [|by eapply step_covered; eauto].
  split; [done|]. split; [by intros _|]. by left.
Qed.

(** No wake-up is lost: when the system rests with a call waiting for the resource, there
    is none of it. *)
Lemma quiescent_none s st i op :
  inv s -> (forall st', reachable s st' -> idle_ok st') -> reachable s st -> quiescent st ->
  calls st !! i = Some (op, Waiting cv) -> counts = true \/ mine op = true -> avail (shared st) = Some 0.
Proof.
  intros Hs Hid Hr Hq Hi Hm. destruct (reachable_covered s st Hs Hid Hr) as (_ & HW & Hc).
  assert (Hw : waits cv (op, Waiting cv (R:=R)) = true) by (unfold waits; simpl; by rewrite bool_decide_true).
  assert (mine op = true) as Hmine.
  { destruct Hm as [Hct|]; [|done]. specialize (HW Hct). rewrite Forall_lookup in HW. by apply (HW _ _ Hi). }
  destruct Hc as [Hc|[Hc|(n & Ha & Hc)]].
  - rewrite Forall_lookup in Hc. exfalso. by apply (Hc _ _ Hi).
  - apply Exists_lookup in Hc as (j & [op' s'] & Hj & Hb). specialize (Hq _ _ _ Hj). by destruct s'.
  - replace (sum_list_with credit (calls st)) with 0 in Hc; [rewrite Ha; f_equal; lia|]. symmetry.
    assert (HF : Forall (fun c => credit c = 0) (calls st)).
    { apply Forall_lookup. intros j [op' s'] Hj. specialize (Hq _ _ _ Hj). by destruct s'. }
    clear -HF. induction HF as [|c cs Hc _ IH]; [done|]. cbn [sum_list_with]. by rewrite Hc, IH.
Qed.
End resource.

(** ** A state that counts the calls inside a wait

    [nwait] counts the calls of [mine] between their first wait and their return. *)

Section counter.
Context {S CV Op R : Type} `{EqDecision CV} {M : Monitor S CV Op R} (nwait : S -> Z) (mine : Op -> bool).

Definition inside (c : Op * status CV R) : nat :=
  match c.2 with Waiting _ | Ready woken | Ready timed_out => Nat.b2n (mine c.1) | _ => 0 end.
Definition inside_of (op : Op) (how : resumed) : Z := match how with entry => 0%Z | _ => Z.b2z (mine op) end.

Class Counter := {
  counter_run op how s s' sg out :
    run op how s = Some (s', sg, out) ->
    (nwait s' + inside_of op how = nwait s + match out with Waits _ => Z.b2z (mine op) | _ => 0 end)%Z }.

Lemma deliver_inside pick sig cs cs' : deliver pick sig cs = Some cs' -> sum_list_with inside cs' = sum_list_with inside cs.
Proof.
  assert (Hw : forall cv c, waits cv c = true -> inside (wake c) = inside c) by (by intros cv [op [| | |]]).
  destruct sig as [cv|cv]; simpl.
  - destruct (existsb _ _); [|congruence]. destruct (cs !! pick) as [c|] eqn:E; simpl; [|done].
    destruct (waits cv c) eqn:Hc; [|done]. intros [= <-]. pose proof (sum_insert inside cs pick c (wake c) E) as Hs.
    rewrite (Hw _ _ Hc) in Hs. lia.
  - intros [= <-]. induction cs as [|c cs IH]; [done|]. rewrite fmap_cons. cbn [sum_list_with]. rewrite IH. f_equal.
    destruct (waits cv c) eqn:Hc; [by eapply Hw|done].
Qed.

Lemma deliver_all_inside picks sigs cs cs' : deliver_all picks sigs cs = Some cs' -> sum_list_with inside cs' = sum_list_with inside cs.
Proof.
  revert picks cs. induction sigs as [|sig sigs IH]; intros picks cs; simpl; [congruence|].
  destruct (deliver _ _ _) as [cs1|] eqn:E; simpl; [|done]. intros H. by rewrite (IH _ _ H), (deliver_inside _ _ _ _ E).
Qed.

Lemma reachable_counter s st `{!Counter} :
  nwait s = 0%Z -> reachable s st -> nwait (shared st) = Z.of_nat (sum_list_with inside (calls st)).
Proof.
  intros H0. induction 1 as [|ch st st' _ IH E]; [done|].
  destruct ch as [op|i picks|i|i|i pick]; simpl in E;
    [injection E as <-; simpl; rewrite sum_list_with_app; simpl; rewrite IH; lia| | | |];
    destruct (calls st !! i) as [[op s']|] eqn:Ei; simpl in E; try done; destruct s' as [how| |[|sig after] r|]; try done.
  - destruct (run op how (shared st)) as [[[sh sg] out]|] eqn:Er; simpl in E; [|done].
    destruct (deliver_all _ _ _) as [cs|] eqn:Ed; simpl in E; [|done]. injection E as <-. simpl.
    rewrite (deliver_all_inside _ _ _ _ Ed). pose proof (sum_insert inside _ i _ (op, ends out) Ei) as Hs.
    pose proof (counter_run _ _ _ _ _ _ Er) as Hc. unfold inside at 2 4 in Hs. unfold inside_of in Hc. simpl in Hs.
    destruct how, out as [[|??]|], (mine op); simpl in *; lia.
  - injection E as <-. simpl. pose proof (sum_insert inside _ i _ (op, Ready woken) Ei) as Hs. unfold inside at 2 4 in Hs. simpl in Hs. lia.
  - destruct (timed op); [|done]. injection E as <-. simpl.
    pose proof (sum_insert inside _ i _ (op, Ready timed_out) Ei) as Hs. unfold inside at 2 4 in Hs. simpl in Hs. lia.
  - destruct (deliver _ _ _) as [cs|] eqn:Ed; simpl in E; [|done]. injection E as <-. simpl.
    rewrite (deliver_inside _ _ _ _ Ed).
    pose proof (sum_insert inside _ i _ (op, match after with [] => Finished r | _ => Signalling after r end) Ei) as Hs.
    unfold inside at 2 4 in Hs. simpl in Hs. destruct after; simpl in *; lia.
Qed.

(** So nobody waits when the count is 0. *)
Lemma counter_idle cv s st `{!Counter} :
  nwait s = 0%Z -> reachable s st -> nwait (shared st) = 0%Z -> Forall (fun c => ~ (waits cv c = true /\ mine c.1 = true)) (calls st).
Proof.
  intros H0 Hr Hn. rewrite (reachable_counter s st H0 Hr) in Hn. apply Forall_forall. intros c Hc [Hw Hm].
  apply list_elem_of_In, (sum_list_with_in _ inside) in Hc. destruct c as [op [| | |]]; try done.
  unfold inside at 1 in Hc. simpl in *. rewrite Hm in Hc. simpl in Hc. lia.
Qed.
End counter.
Arguments Counter {S CV Op R} M nwait mine.

(** ** Calls as atomic operations

    [spec op s r s'] is what the operation does in one go on the abstract state. *)

Section history.
Context {S CV Op R A : Type} `{EqDecision CV} {M : Monitor S CV Op R}.

Inductive history (spec : Op -> A -> R -> A -> Prop) : A -> list (Op * R) -> A -> Prop :=
  | history_nil s : history spec s [] s
  | history_snoc s1 s2 s3 l op r :
      history spec s1 l s2 -> spec op s2 r s3 -> history spec s1 (l ++ [(op, r)]) s3.

Class Atomic (inv : S -> Prop) (abs : S -> A) (spec : Op -> A -> R -> A -> Prop) := {
  atomic_inv op how s s' sg out : inv s -> run op how s = Some (s', sg, out) -> inv s';
  atomic_returns op how s s' sg after r :
    inv s -> run op how s = Some (s', sg, Returns after r) -> spec op (abs s) r (abs s');
  atomic_waits op how s s' sg cv : inv s -> run op how s = Some (s', sg, Waits cv) -> abs s' = abs s }.

(** The results of the calls that have ended. *)
Definition result (c : Op * status CV R) : option (Op * R) :=
  match c.2 with Signalling _ r | Finished r => Some (c.1, r) | _ => None end.
Definition results (cs : list (Op * status CV R)) : list (Op * R) := omap result cs.

Lemma results_cons c cs : results (c :: cs) = match result c with Some x => [x] | None => [] end ++ results cs.
Proof. unfold results. simpl. by destruct (result c). Qed.

Lemma results_insert cs i c c' :
  cs !! i = Some c -> result c = None ->
  results (<[i := c']> cs) ≡ₚ results cs ++ match result c' with Some x => [x] | None => [] end.
Proof.
  intros Hi Hr. rewrite <-(take_drop_middle cs i c Hi) at 2. rewrite (insert_take_drop cs i c') by (by eapply lookup_lt_Some).
  unfold results. rewrite !omap_app. simpl. rewrite Hr. destruct (result c'); [|by rewrite app_nil_r].
  rewrite <-app_assoc. f_equiv. apply Permutation_cons_append.
Qed.

Lemma results_same cs i c c' : cs !! i = Some c -> result c' = result c -> results (<[i := c']> cs) = results cs.
Proof.
  intros Hi Hr. rewrite <-(take_drop_middle cs i c Hi) at 2. rewrite (insert_take_drop cs i c') by (by eapply lookup_lt_Some).
  unfold results. rewrite !omap_app. simpl. by rewrite Hr.
Qed.

Lemma waits_result cv (c : Op * status CV R) : waits cv c = true -> result c = None.
Proof. by destruct c as [op [| | |]]. Qed.

Lemma deliver_results pick sig cs cs' : deliver pick sig cs = Some cs' -> results cs' = results cs.
Proof.
  destruct sig as [cv|cv]; simpl.
  - destruct (existsb _ _); [|congruence]. destruct (cs !! pick) as [c|] eqn:E; simpl; [|done].
    destruct (waits cv c) eqn:Hw; [|done]. intros [= <-]. eapply results_same; [done|]. by rewrite (waits_result _ _ Hw).
  - intros [= <-]. induction cs as [|c cs IH]; [done|]. rewrite fmap_cons, !results_cons, IH. f_equal.
    destruct (waits cv c) eqn:Hw; [by rewrite (waits_result _ _ Hw)|done].
Qed.

Lemma deliver_all_results picks sigs cs cs' : deliver_all picks sigs cs = Some cs' -> results cs' = results cs.
Proof.
  revert picks cs. induction sigs as [|sig sigs IH]; intros picks cs; simpl; [congruence|].
  destruct (deliver _ _ _) as [cs1|] eqn:E; simpl; [|done]. intros H. by rewrite (IH _ _ H), (deliver_results _ _ _ _ E).
Qed.

(** The log holds exactly the results of the calls that have ended. *)
Lemma step_results ch (st st' : system S CV Op R) :
  step ch st = Some st' -> log st ≡ₚ results (calls st) -> log st' ≡ₚ results (calls st').
Proof.
  destruct ch as [op|i picks|i|i|i pick]; simpl.
  - intros [= <-] Hl. simpl. unfold results. rewrite omap_app. simpl. by rewrite app_nil_r.
  - destruct (calls st !! i) as [[op s]|] eqn:Ei; simpl; [|done]. destruct s as [how| | |]; try done.
    destruct (run _ _ _) as [[[sh inside] out]|]; simpl; [|done].
    destruct (deliver_all _ _ _) as [cs|] eqn:E; simpl; [|done]. intros [= <-] Hl. simpl.
    rewrite (deliver_all_results _ _ _ _ E), (results_insert _ _ _ _ Ei), Hl by done.
    destruct out as [[|??]|]; done.
  - destruct (calls st !! i) as [[op s]|] eqn:Ei; simpl; [|done]. destruct s; try done.
    intros [= <-] Hl. simpl. by rewrite (results_same _ _ _ _ Ei).
  - destruct (calls st !! i) as [[op s]|] eqn:Ei; simpl; [|done]. destruct s; try done. destruct (timed op); [|done].
    intros [= <-] Hl. simpl. by rewrite (results_same _ _ _ _ Ei).
  - destruct (calls st !! i) as [[op s]|] eqn:Ei; simpl; [|done]. destruct s as [| |[|sig after]|]; try done.
    destruct (deliver _ _ _) as [cs|] eqn:E; simpl; [|done]. intros [= <-] Hl. simpl.
    rewrite (deliver_results _ _ _ _ E), (results_same _ _ _ _ Ei); [done|]. by destruct after.
Qed.

Lemma reachable_results s (st : system S CV Op R) : reachable s st -> log st ≡ₚ results (calls st).
Proof. induction 1; [done|]. by eapply step_results. Qed.

(** The calls act as if each happened at once, in the order of the log. *)
Context {inv : S -> Prop} {abs : S -> A} {spec : Op -> A -> R -> A -> Prop} `{HA : !Atomic inv abs spec}.

Lemma step_history ch (st st' : system S CV Op R) a :
  step ch st = Some st' -> inv (shared st) -> history spec a (log st) (abs (shared st)) ->
  inv (shared st') /\ history spec a (log st') (abs (shared st')).
Proof.
  intros E Hi Hh. destruct ch as [op|i picks|i|i|i pick]; simpl in E; [by simplify_eq/=| | | |];
    destruct (calls st !! i) as [[op s]|] eqn:Ei; simpl in E; try done; destruct s as [how| |[|sig after] r|]; try done;
    [|by simplify_eq/=|by destruct (timed op); simplify_eq/=|by destruct (deliver _ _ _); simplify_eq/=].
  destruct (run op how (shared st)) as [[[sh inside] out]|] eqn:Er; simpl in E; [|done].
  destruct (deliver_all _ _ _) as [cs|]; simpl in E; [|done]. simplify_eq/=. split; [by eapply atomic_inv|].
  destruct out as [after r|cv].
  - econstructor; [done|by eapply atomic_returns].
  - rewrite app_nil_r. by rewrite (atomic_waits (abs:=abs) (spec:=spec) _ _ _ _ _ _ Hi Er).
Qed.

Lemma reachable_history s (st : system S CV Op R) :
  inv s -> reachable s st -> inv (shared st) /\ history spec (abs s) (log st) (abs (shared st)).
Proof.
  intros Hs. induction 1 as [|ch st st' _ IH E]; [split; [done|apply history_nil]|].
  destruct IH as [Hi Hh]. by eapply step_history.
Qed.

Lemma reachable_never_fails s (st : system S CV Op R) :
  inv s -> (forall op how s', inv s' -> run op how s' <> None) -> reachable s st -> ~ fails st.
Proof.
  intros Hs Hrun Hr (i & op & how & _ & E). destruct (reachable_history s st Hs Hr) as [Hi _]. by eapply Hrun.
Qed.
End history.

(** A schedule only visits reachable states. *)
Lemma schedule_reachable {S CV Op R} `{EqDecision CV} {M : Monitor S CV Op R} s (chs : list (choice Op)) st :
  schedule chs (system_new s) = Some st -> reachable s st.
Proof.
  revert st. induction chs as [|ch chs IH] using rev_ind; intros st; unfold schedule.
  - intros [= <-]. constructor.
  - rewrite foldl_app. simpl. destruct (foldl _ _ _) as [st1|] eqn:E; simpl; [|done]. intros Es.
    econstructor; [|done]. by apply IH.
Qed.

(** ** The weight of a signal *)

Lemma weight_same {CV} `{EqDecision CV} (cv : CV) counts : weight cv counts (notify_one cv) = Nat.b2n counts.
Proof. unfold weight. by rewrite bool_decide_true, andb_true_r. Qed.
Lemma weight_other {CV} `{EqDecision CV} (cv cv' : CV) counts : cv' <> cv -> weight cv counts (notify_one cv') = 0%nat.
Proof. intros. unfold weight. by rewrite bool_decide_false, andb_false_r. Qed.
Lemma weight_all {CV} `{EqDecision CV} (cv cv' : CV) counts : weight cv counts (notify_all cv') = 0%nat.
Proof. done. Qed.

(** Compute the units that the signals of a piece hand out. *)
Ltac weigh := unfold sent; cbn [app sum_list_with]; rewrite ?weight_same, ?weight_all, ?weight_other by done; cbn [Nat.b2n andb].
