(* ===== verification/BlockingQueues.v ===== *)
(** * BlockingQueues: the thread-safe queues of [src/util/blocking_queue.h]

    Each class is a [Monitor]: a method is the piece of code between two acquisitions of
    its mutex.  [while (c) cv.wait()] and [cv.wait(lock, pred)] test again whenever the
    call gets the mutex back; [waitFor] waits once. *)

From S2P Require Import Prelude Monitor.
#[local] Open Scope Z_scope.

(** What a method returns. *)
Inductive answer (T : Type) := done_ | flag (b : bool) | number (n : Z) | item (x : option T) | items (l : option (list T)).
Arguments done_ {T}.
Arguments flag {T} _.
Arguments number {T} _.
Arguments item {T} _.
Arguments items {T} _.

(** A piece: it returns in a new state, or waits. *)
Abbreviation piece S CV T := (option (S * list (signal CV) * outcome CV (answer T))).

(** ** [MPMCBlockingQueue] *)

Module Mpmc.
Section queue.
Context {T : Type}.
Abbreviation mpmc_piece := (piece (list T) unit T).

Definition produce (value : T) (queue : list T) : mpmc_piece := Some (queue ++ [value], [notify_one tt], Returns [] done_).
Definition wait_and_consume (queue : list T) : mpmc_piece :=
  match queue with
  | [] => Some (queue, [], Waits tt)
  | front :: queue => Some (queue, [], Returns [] (item (Some front)))
  end.
Definition try_consume (queue : list T) : mpmc_piece :=
  match queue with
  | [] => Some (queue, [], Returns [] (item None))
  | front :: queue => Some (queue, [], Returns [] (item (Some front)))
  end.
Definition empty (queue : list T) : mpmc_piece := Some (queue, [], Returns [] (flag (bool_decide (queue = [])))).

Inductive op := Produce (value : T) | Wait_and_consume | Try_consume | Empty.
#[global] Instance queue_monitor : Monitor (list T) unit op (answer T) := {
  run op _ := match op with
    | Produce value => produce value | Wait_and_consume => wait_and_consume
    | Try_consume => try_consume | Empty => empty end;
  timed _ := false }.
End queue.
Arguments op : clear implicits.
End Mpmc.

(** ** [QueueRing], one bucket *)

Module Bucket.
Section queue.
Context {T : Type}.
Abbreviation bucket_piece := (piece (list T) unit T).

Definition enqueue (entry_ : T) (entries : list T) : bucket_piece :=
  Some (entries ++ [entry_], if bool_decide (entries = []) then [notify_one tt] else [], Returns [] done_).
(** The wait is not in a loop; the assertion after it may fail. *)
Definition dequeue (how : resumed) (entries : list T) : bucket_piece :=
  match entries, how with
  | [], entry => Some (entries, [], Waits tt)
  | [], _ => None
  | front :: entries, _ => Some (entries, [], Returns [] (item (Some front)))
  end.

Inductive op := Enqueue (entry_ : T) | Dequeue.
#[global] Instance bucket_monitor : Monitor (list T) unit op (answer T) := {
  run op how := match op with Enqueue e => enqueue e | Dequeue => dequeue how end;
  timed _ := false }.
End queue.
Arguments op : clear implicits.
End Bucket.

(** ** [BlockChannel] *)

Module Channel.
Section queue.
Context {T : Type}.
Record BlockChannel := { buffer_ : list T; eof_ : bool }.
Abbreviation channel_piece := (piece BlockChannel unit T).

Definition BlockChannel_new : BlockChannel := {| buffer_ := []; eof_ := false |}.
Definition SendEof (c : BlockChannel) : channel_piece :=
  Some ({| buffer_ := buffer_ c; eof_ := true |}, [notify_all tt], Returns [] done_).
Definition Eof (c : BlockChannel) : channel_piece :=
  Some (c, [], Returns [] (flag (bool_decide (buffer_ c = []) && eof_ c))).
Definition Size (c : BlockChannel) : channel_piece := Some (c, [], Returns [] (number (Z.of_nat (length (buffer_ c))))).
Definition Write (elem : T) (c : BlockChannel) : channel_piece :=
  Some ({| buffer_ := buffer_ c ++ [elem]; eof_ := eof_ c |}, [notify_one tt], Returns [] done_).
Definition Read (c : BlockChannel) : channel_piece :=
  if eof_ c || negb (bool_decide (buffer_ c = [])) then
    if eof_ c && bool_decide (buffer_ c = []) then Some (c, [], Returns [] (item None))
    else
      match buffer_ c with
      | [] => None
      | front :: buffer => Some ({| buffer_ := buffer; eof_ := eof_ c |}, [notify_one tt], Returns [] (item (Some front)))
      end
  else Some (c, [], Waits tt).

Inductive op := OpSendEof | OpEof | OpSize | OpWrite (elem : T) | OpRead.
#[global] Instance channel_monitor : Monitor BlockChannel unit op (answer T) := {
  run op _ := match op with
    | OpSendEof => SendEof | OpEof => Eof | OpSize => Size | OpWrite elem => Write elem | OpRead => Read end;
  timed _ := false }.
End queue.
Arguments op : clear implicits.
Arguments BlockChannel : clear implicits.
End Channel.

(** ** [SimpleBlockingQueue] *)

Module Simple.
Section queue.
Context {T : Type}.
Record SimpleBlockingQueue := { elements_ : list T; numElements_ : Z }.
Abbreviation simple_piece := (piece SimpleBlockingQueue unit T).

Definition SimpleBlockingQueue_new : SimpleBlockingQueue := {| elements_ := []; numElements_ := 0 |}.
Definition enqueue (el : T) (q : SimpleBlockingQueue) : simple_piece :=
  n ← int32 (numElements_ q + 1);
  Some ({| elements_ := elements_ q ++ [el]; numElements_ := n |}, [notify_all tt], Returns [] done_).
Definition dequeue (q : SimpleBlockingQueue) : simple_piece :=
  if negb (numElements_ q =? 0) then
    match elements_ q with
    | [] => None
    | front :: elements =>
        n ← int32 (numElements_ q - 1);
        Some ({| elements_ := elements; numElements_ := n |},
              if n =? 0 then [notify_all tt] else [], Returns [] (item (Some front)))
    end
  else Some (q, [], Waits tt).
(** These two do not take the mutex: they read the counter. *)
Definition size (q : SimpleBlockingQueue) : simple_piece := Some (q, [], Returns [] (number (numElements_ q))).
Definition empty (q : SimpleBlockingQueue) : simple_piece := Some (q, [], Returns [] (flag (numElements_ q =? 0))).
Definition waitEmpty (q : SimpleBlockingQueue) : simple_piece :=
  if numElements_ q =? 0 then Some (q, [], Returns [] done_) else Some (q, [], Waits tt).
(** [wait_for] with a predicate returns it, once it holds or after the timeout. *)
Definition waitNotEmptyFor (how : resumed) (q : SimpleBlockingQueue) : simple_piece :=
  if negb (numElements_ q =? 0) then Some (q, [], Returns [] (flag true))
  else match how with timed_out => Some (q, [], Returns [] (flag false)) | _ => Some (q, [], Waits tt) end.

Inductive op := Enqueue (el : T) | Dequeue | Size | Empty | WaitEmpty | WaitNotEmptyFor.
#[global] Instance simple_monitor : Monitor SimpleBlockingQueue unit op (answer T) := {
  run op how := match op with
    | Enqueue el => enqueue el | Dequeue => dequeue | Size => size | Empty => empty
    | WaitEmpty => waitEmpty | WaitNotEmptyFor => waitNotEmptyFor how end;
  timed op := match op with WaitNotEmptyFor => true | _ => false end }.
End queue.
Arguments op : clear implicits.
Arguments SimpleBlockingQueue : clear implicits.
End Simple.

(** ** [SimpleCircularQueue] *)

Module Circular.
Inductive condition := notEmpty_ | notFull_.
#[global] Instance condition_eq_dec : EqDecision condition.
Proof. solve_decision. Defined.

Section queue.
Context {T : Type} (capacity_ : Z).
Abbreviation circular_piece := (piece (list T) condition T).

Definition enqueue (x : T) (queue_ : list T) : circular_piece :=
  if Z.of_nat (length queue_) <? capacity_ then Some (queue_ ++ [x], [notify_one notEmpty_], Returns [] done_)
  else Some (queue_, [], Waits notFull_).
Definition dequeue (queue_ : list T) : circular_piece :=
  match queue_ with
  | [] => Some (queue_, [], Waits notEmpty_)
  | front :: queue_ => Some (queue_, [notify_one notFull_], Returns [] (item (Some front)))
  end.
Definition size (queue_ : list T) : circular_piece := Some (queue_, [], Returns [] (number (Z.of_nat (length queue_)))).
Definition empty (queue_ : list T) : circular_piece := Some (queue_, [], Returns [] (flag (bool_decide (queue_ = [])))).

Inductive op := Enqueue (x : T) | Dequeue | Size | Empty.
#[export] Instance circular_monitor : Monitor (list T) condition op (answer T) := {
  run op _ := match op with Enqueue x => enqueue x | Dequeue => dequeue | Size => size | Empty => empty end;
  timed _ := false }.
End queue.
Arguments op : clear implicits.
End Circular.

(** ** [ConcurrentBlockingQueue], first in first out *)

Module Concurrent.
Section queue.
Context {T : Type}.
Record ConcurrentBlockingQueue := { exit_now_ : bool; nwait_consumer_ : Z; fifo_queue_ : list T }.
Abbreviation concurrent_piece := (piece ConcurrentBlockingQueue unit T).

Definition ConcurrentBlockingQueue_new : ConcurrentBlockingQueue :=
  {| exit_now_ := false; nwait_consumer_ := 0; fifo_queue_ := [] |}.
Definition set_fifo (l : list T) (q : ConcurrentBlockingQueue) : ConcurrentBlockingQueue :=
  {| exit_now_ := exit_now_ q; nwait_consumer_ := nwait_consumer_ q; fifo_queue_ := l |}.
Definition set_nwait (n : Z) (q : ConcurrentBlockingQueue) : ConcurrentBlockingQueue :=
  {| exit_now_ := exit_now_ q; nwait_consumer_ := n; fifo_queue_ := fifo_queue_ q |}.

Definition Push (e : T) (q : ConcurrentBlockingQueue) : concurrent_piece :=
  let notify := negb (nwait_consumer_ q =? 0) in
  Some (set_fifo (fifo_queue_ q ++ [e]) q, [], Returns (if notify then [notify_one tt] else []) done_).
Definition PushFront (e : T) (q : ConcurrentBlockingQueue) : concurrent_piece :=
  let notify := negb (nwait_consumer_ q =? 0) in
  Some (set_fifo (e :: fifo_queue_ q) q, [], Returns (if notify then [notify_one tt] else []) done_).
Definition Pop (how : resumed) (q : ConcurrentBlockingQueue) : concurrent_piece :=
  nwait ← match how with entry => int32 (nwait_consumer_ q + 1) | _ => Some (nwait_consumer_ q) end;
  let q := set_nwait nwait q in
  if negb (bool_decide (fifo_queue_ q = [])) || exit_now_ q then
    nwait ← int32 (nwait_consumer_ q - 1);
    let q := set_nwait nwait q in
    if negb (exit_now_ q) then
      match fifo_queue_ q with
      | [] => None
      | front :: l => Some (set_fifo l q, [], Returns [] (item (Some front)))
      end
    else Some (q, [], Returns [] (item None))
  else Some (q, [], Waits tt).
Definition SignalForKill (q : ConcurrentBlockingQueue) : concurrent_piece :=
  Some ({| exit_now_ := true; nwait_consumer_ := nwait_consumer_ q; fifo_queue_ := fifo_queue_ q |}, [],
        Returns [notify_all tt] done_).
Definition Size (q : ConcurrentBlockingQueue) : concurrent_piece :=
  Some (q, [], Returns [] (number (Z.of_nat (length (fifo_queue_ q))))).

Inductive op := OpPush (e : T) | OpPushFront (e : T) | OpPop | OpSignalForKill | OpSize.
#[global] Instance concurrent_monitor : Monitor ConcurrentBlockingQueue unit op (answer T) := {
  run op how := match op with
    | OpPush e => Push e | OpPushFront e => PushFront e | OpPop => Pop how
    | OpSignalForKill => SignalForKill | OpSize => Size end;
  timed _ := false }.
End queue.
Arguments op : clear implicits.
Arguments ConcurrentBlockingQueue : clear implicits.
End Concurrent.

(** ** [BlockingQueue] *)

Module Blocking.
Inductive condition := m_cond_not_empty | m_cond_not_full.
#[global] Instance condition_eq_dec : EqDecision condition.
Proof. solve_decision. Defined.

Section queue.
Context {T : Type} (m_max_elements : Z).
Abbreviation blocking_piece := (piece (list T) condition T).
Implicit Type m_queue : list T.

Definition UnlockedIsFull m_queue : bool := Z.of_nat (length m_queue) >=? m_max_elements.

(** [PushFront] is left out: it constructs its [MutexLock] from [m_mutex] and not from its
    address, which no constructor takes, so that it does not compile. *)
Definition TryPushFront (value : T) m_queue : blocking_piece :=
  if UnlockedIsFull m_queue then Some (m_queue, [], Returns [] (flag false))
  else Some (value :: m_queue, [], Returns [notify_one m_cond_not_empty] (flag true)).
Definition PushBack (value : T) m_queue : blocking_piece :=
  if UnlockedIsFull m_queue then Some (m_queue, [], Waits m_cond_not_full)
  else Some (m_queue ++ [value], [], Returns [notify_one m_cond_not_empty] done_).
Definition TryPushBack (value : T) m_queue : blocking_piece :=
  if UnlockedIsFull m_queue then Some (m_queue, [], Returns [] (flag false))
  else Some (m_queue ++ [value], [], Returns [notify_one m_cond_not_empty] (flag true)).

(** [m_queue.back()] and [m_queue.pop_back()]. *)
Definition back m_queue : option (T * list T) :=
  match reverse m_queue with [] => None | x :: l => Some (x, reverse l) end.

Definition PopFront m_queue : blocking_piece :=
  match m_queue with
  | [] => Some (m_queue, [], Waits m_cond_not_empty)
  | x :: l => Some (l, [], Returns [notify_one m_cond_not_full] (item (Some x)))
  end.
Definition TryPopFront m_queue : blocking_piece :=
  match m_queue with
  | [] => Some (m_queue, [], Returns [] (item None))
  | x :: l => Some (l, [], Returns [notify_one m_cond_not_full] (item (Some x)))
  end.
Definition PopBack m_queue : blocking_piece :=
  match back m_queue with
  | None => Some (m_queue, [], Waits m_cond_not_empty)
  | Some (x, l) => Some (l, [], Returns [notify_one m_cond_not_full] (item (Some x)))
  end.
Definition TryPopBack m_queue : blocking_piece :=
  match back m_queue with
  | None => Some (m_queue, [], Returns [] (item None))
  | Some (x, l) => Some (l, [], Returns [notify_one m_cond_not_full] (item (Some x)))
  end.

Definition is_entry (how : resumed) : bool := match how with entry => true | _ => false end.
Definition TimedPushFront (value : T) (how : resumed) m_queue : blocking_piece :=
  if UnlockedIsFull m_queue && is_entry how then Some (m_queue, [], Waits m_cond_not_full)
  else if negb (UnlockedIsFull m_queue)
  then Some (value :: m_queue, [], Returns [notify_one m_cond_not_empty] (flag true))
  else Some (m_queue, [], Returns [] (flag false)).
Definition TimedPushBack (value : T) (how : resumed) m_queue : blocking_piece :=
  if UnlockedIsFull m_queue && is_entry how then Some (m_queue, [], Waits m_cond_not_full)
  else if negb (UnlockedIsFull m_queue)
  then Some (m_queue ++ [value], [], Returns [notify_one m_cond_not_empty] (flag true))
  else Some (m_queue, [], Returns [] (flag false)).
Definition TimedPopFront (how : resumed) m_queue : blocking_piece :=
  match m_queue with
  | [] => if is_entry how then Some (m_queue, [], Waits m_cond_not_empty) else Some (m_queue, [], Returns [] (item None))
  | x :: l => Some (l, [], Returns [notify_one m_cond_not_full] (item (Some x)))
  end.
Definition TimedPopBack (how : resumed) m_queue : blocking_piece :=
  match back m_queue with
  | None => if is_entry how then Some (m_queue, [], Waits m_cond_not_empty) else Some (m_queue, [], Returns [] (item None))
  | Some (x, l) => Some (l, [], Returns [notify_one m_cond_not_full] (item (Some x)))
  end.

(** The queue is swapped with the cleared output. *)
Definition PopAll m_queue : blocking_piece :=
  match m_queue with
  | [] => Some (m_queue, [], Waits m_cond_not_empty)
  | _ => Some ([], [], Returns [notify_all m_cond_not_full] (items (Some m_queue)))
  end.
Definition TryPopAll m_queue : blocking_piece :=
  match m_queue with
  | [] => Some (m_queue, [], Returns [] (items None))
  | _ => Some ([], [], Returns [notify_all m_cond_not_full] (items (Some m_queue)))
  end.
Definition TimedPopAll (how : resumed) m_queue : blocking_piece :=
  match m_queue with
  | [] => if is_entry how then Some (m_queue, [], Waits m_cond_not_empty) else Some (m_queue, [], Returns [] (items None))
  | _ => Some ([], [notify_all m_cond_not_full], Returns [notify_one m_cond_not_full] (items (Some m_queue)))
  end.

Definition Size m_queue : blocking_piece := Some (m_queue, [], Returns [] (number (Z.of_nat (length m_queue)))).
Definition IsEmpty m_queue : blocking_piece := Some (m_queue, [], Returns [] (flag (bool_decide (m_queue = [])))).
Definition IsFull m_queue : blocking_piece := Some (m_queue, [], Returns [] (flag (UnlockedIsFull m_queue))).
Definition Clear m_queue : blocking_piece := Some ([], [notify_all m_cond_not_full], Returns [] done_).

Inductive op :=
  | OpTryPushFront (value : T) | OpPushBack (value : T) | OpTryPushBack (value : T)
  | OpPopFront | OpTryPopFront | OpPopBack | OpTryPopBack
  | OpTimedPushFront (value : T) | OpTimedPushBack (value : T) | OpTimedPopFront | OpTimedPopBack
  | OpPopAll | OpTryPopAll | OpTimedPopAll | OpSize | OpIsEmpty | OpIsFull | OpClear.
#[export] Instance blocking_monitor : Monitor (list T) condition op (answer T) := {
  run op how := match op with
    | OpTryPushFront v => TryPushFront v
    | OpPushBack v => PushBack v | OpTryPushBack v => TryPushBack v
    | OpPopFront => PopFront | OpTryPopFront => TryPopFront | OpPopBack => PopBack | OpTryPopBack => TryPopBack
    | OpTimedPushFront v => TimedPushFront v how | OpTimedPushBack v => TimedPushBack v how
    | OpTimedPopFront => TimedPopFront how | OpTimedPopBack => TimedPopBack how
    | OpPopAll => PopAll | OpTryPopAll => TryPopAll | OpTimedPopAll => TimedPopAll how
    | OpSize => Size | OpIsEmpty => IsEmpty | OpIsFull => IsFull | OpClear => Clear end;
  timed op := match op with
    | OpTimedPushFront _ | OpTimedPushBack _ | OpTimedPopFront | OpTimedPopBack | OpTimedPopAll => true
    | _ => false end }.
End queue.
Arguments op : clear implicits.
End Blocking.

(** ** Shared lemmas *)

(** The operations that put and take values keep first-in first-out order. *)
Lemma history_fifo {Op R A T} (spec : Op -> A -> R -> A -> Prop) (contents : A -> list T) (puts gets : Op * R -> list T) s l s' :
  (forall op s1 r s2, spec op s1 r s2 -> contents s1 ++ puts (op, r) = gets (op, r) ++ contents s2) ->
  history spec s l s' -> contents s ++ (l ≫= puts) = (l ≫= gets) ++ contents s'.
Proof.
  intros H Hh. induction Hh as [|s1 s2 s3 l op r _ IH Hs]; [by rewrite app_nil_r|].
  rewrite !bind_app. simpl. by rewrite !app_nil_r, (app_assoc (contents s1)), IH, <-!app_assoc, (H _ _ _ _ Hs).
Qed.

(** Close the cases of a law on the pieces. *)
Ltac by_pieces op how :=
  destruct op; intros; simplify_eq/=; case_goal; simplify_eq/=.

(** ** [BlockingQueue] *)

Section blocking.
Import Blocking.
Context {T : Type} (max : Z).
#[local] Instance blocking_here : Monitor (list T) condition (op T) (answer T) := blocking_monitor max.

Definition bounded (q : list T) : Prop := Z.of_nat (length q) <= max.
Definition pops (o : op T) : bool :=
  match o with OpPopFront | OpPopBack | OpTimedPopFront | OpTimedPopBack | OpPopAll | OpTimedPopAll => true | _ => false end.
Definition pushes (o : op T) : bool :=
  match o with OpPushBack _ | OpTimedPushFront _ | OpTimedPushBack _ => true | _ => false end.
Definition free (q : list T) : nat := (Z.to_nat max - length q)%nat.

(** The specification: a bounded list, changed at one end. *)
Definition pushed (front : bool) (v : T) (q q' : list T) : Prop :=
  Z.of_nat (length q) < max /\ q' = if front then v :: q else q ++ [v].
Definition popped (front : bool) (x : option T) (q q' : list T) : Prop :=
  match x with
  | Some v => q = if front then v :: q' else q' ++ [v]
  | None => q = [] /\ q' = []
  end.
Definition spec (o : op T) (q : list T) (r : answer T) (q' : list T) : Prop :=
  match o with
  | OpPushBack v => r = done_ /\ pushed false v q q'
  | OpTryPushFront v | OpTimedPushFront v =>
      (r = flag true /\ pushed true v q q') \/ (r = flag false /\ max <= Z.of_nat (length q) /\ q' = q)
  | OpTryPushBack v | OpTimedPushBack v =>
      (r = flag true /\ pushed false v q q') \/ (r = flag false /\ max <= Z.of_nat (length q) /\ q' = q)
  | OpPopFront => exists v, r = item (Some v) /\ popped true (Some v) q q'
  | OpPopBack => exists v, r = item (Some v) /\ popped false (Some v) q q'
  | OpTryPopFront | OpTimedPopFront => exists x, r = item x /\ popped true x q q'
  | OpTryPopBack | OpTimedPopBack => exists x, r = item x /\ popped false x q q'
  | OpPopAll => r = items (Some q) /\ q <> [] /\ q' = []
  | OpTryPopAll | OpTimedPopAll => r = items (if bool_decide (q = []) then None else Some q) /\ q' = []
  | OpSize => r = number (Z.of_nat (length q)) /\ q' = q
  | OpIsEmpty => r = flag (bool_decide (q = [])) /\ q' = q
  | OpIsFull => r = flag (bool_decide (Z.of_nat (length q) = max)) /\ q' = q
  | OpClear => r = done_ /\ q' = []
  end.

Lemma back_spec (q : list T) : match back q with Some (x, l) => q = l ++ [x] | None => q = [] end.
Proof.
  unfold back. destruct (reverse q) as [|x l] eqn:E.
  - by rewrite <-(reverse_involutive q), E.
  - by rewrite <-(reverse_involutive q), E, reverse_cons.
Qed.

(** The shapes a piece can have. *)
Inductive effect (o : op T) (q q' : list T) (sigs : list (signal condition)) : Prop :=
  | grows : Z.of_nat (length q) < max -> length q' = S (length q) -> pops o = false ->
      sigs = [notify_one m_cond_not_empty] -> effect o q q' sigs
  | shrinks : length q = S (length q') -> pushes o = false -> sigs = [notify_one m_cond_not_full] -> effect o q q' sigs
  | empties : q' = [] -> notify_all m_cond_not_full ∈ sigs -> effect o q q' sigs
  | stays : q' = q -> sigs = [] -> (pops o = true -> q = []) -> (pushes o = true -> max <= Z.of_nat (length q)) ->
      effect o q q' sigs.

Ltac open_piece :=
  unfold TryPushFront, PushBack, TryPushBack, PopFront, TryPopFront, PopBack, TryPopBack, TimedPushFront,
    TimedPushBack, TimedPopFront, TimedPopBack, PopAll, TryPopAll, TimedPopAll, Size, IsEmpty, IsFull, Clear, UnlockedIsFull in *;
  rewrite ?Z.geb_leb in *.

Lemma piece_effect (o : op T) how (q q' : list T) sg (out : outcome condition (answer T)) :
  run o how q = Some (q', sg, out) -> effect o q q' (sent sg out) /\
  match out with Waits cv => q' = q /\ if decide (cv = m_cond_not_empty) then pops o = true /\ q = [] else pushes o = true /\ max <= Z.of_nat (length q) | _ => True end.
Proof.
  pose proof (back_spec q) as Hb.
  destruct o; cbn [run blocking_here blocking_monitor]; open_piece; unfold sent; intros E;
    try destruct (Z.leb_spec max (Z.of_nat (length q))); try destruct (back q) as [[x l]|]; try destruct q as [|y l'];
    try destruct how; simplify_eq/=;
    (split; [|done]);
    first [ apply stays; naive_solver lia
          | apply grows; simpl; rewrite ?length_app; simpl; solve [done | lia]
          | apply shrinks; try apply (f_equal length) in Hb; rewrite ?length_app in *; simpl in *; solve [done | lia]
          | apply empties; [done|]; by repeat constructor ].
Qed.

Lemma piece_bounded o how (q q' : list T) sg (out : outcome condition (answer T)) :
  bounded q -> run o how q = Some (q', sg, out) -> bounded q'.
Proof. intros Hq E. destruct (piece_effect _ _ _ _ _ _ E) as [He _]. unfold bounded in *. destruct He; subst; simpl; lia. Qed.

#[export] Instance not_empty_resource :
  Resource blocking_here bounded m_cond_not_empty true pops (fun _ => false) (fun q => Some (length q)).
Proof.
  constructor; [by eauto using piece_bounded| | |].
  - intros o how q q' sg _ _ E. destruct (piece_effect _ _ _ _ _ _ E) as [_ [_ H]]. by case_decide; destruct H.
  - intros o how q q' sg Hm _ E. destruct (piece_effect _ _ _ _ _ _ E) as [_ [-> H]]. case_decide; [|done].
    by destruct H as [_ ->].
  - intros o how q q' sg out n _ E [= <-]. right. destruct (piece_effect _ _ _ _ _ _ E) as [He _]. right.
    exists (length q'). split; [done|]. destruct He as [H1 H2 H3 -> |H1 H2 -> | -> ? | -> -> H _]; weigh.
    + rewrite H3. simpl. lia.
    + destruct (pops o); simpl; lia.
    + by left.
    + destruct (pops o); simpl; [|lia]. left. by rewrite H.
Qed.

#[export] Instance not_full_resource :
  Resource blocking_here bounded m_cond_not_full true pushes (fun _ => false) (fun q => Some (free q)).
Proof.
  constructor; [by eauto using piece_bounded| | |].
  - intros o how q q' sg _ _ E. destruct (piece_effect _ _ _ _ _ _ E) as [_ [_ H]]. by case_decide; destruct H.
  - intros o how q q' sg Hm Hq E. destruct (piece_effect _ _ _ _ _ _ E) as [_ [-> H]]. case_decide; [done|].
    unfold free. destruct H as [_ H]. f_equal. lia.
  - intros o how q q' sg out n Hq E [= <-]. right. destruct (piece_effect _ _ _ _ _ _ E) as [He _]. unfold free, bounded in *.
    destruct He as [H1 H2 H3 -> |H1 H2 -> | -> ? | -> -> _ H]; weigh.
    + right. exists (Z.to_nat max - length q')%nat. split; [done|]. right. destruct (pushes o); simpl; lia.
    + right. exists (Z.to_nat max - length q')%nat. split; [done|]. right. rewrite H2. simpl. lia.
    + by left.
    + right. exists (Z.to_nat max - length q)%nat. split; [done|]. destruct (pushes o); simpl; [left|right]; [|lia].
      specialize (H eq_refl). lia.
Qed.

Lemma piece_spec (o : op T) how (q q' : list T) sg after r :
  bounded q -> run o how q = Some (q', sg, Returns after r) -> spec o q r q'.
Proof.
  intros Hq. pose proof (back_spec q) as Hb. unfold bounded in Hq.
  destruct o; cbn [run blocking_here blocking_monitor]; open_piece; intros E; unfold spec, pushed, popped;
    try destruct (Z.leb_spec max (Z.of_nat (length q))); try destruct (back q) as [[x l]|]; try destruct q as [|y l'];
    try destruct how; try case_bool_decide; simplify_eq/=; eauto 8; try naive_solver lia.
Qed.

#[export] Instance blocking_atomic : Atomic (M:=blocking_here) bounded id spec.
Proof.
  constructor; [by eauto using piece_bounded|intros; by eapply piece_spec|].
  intros o how q q' sg cv _ E. by destruct (piece_effect _ _ _ _ _ _ E) as [_ [? _]].
Qed.

Lemma piece_total (o : op T) how (q : list T) : run o how q <> None.
Proof.
  destruct o; cbn [run blocking_here blocking_monitor]; open_piece;
    repeat case_match; done.
Qed.

(** Values put in, and values taken out, by a log of calls that only use one way round. *)
Definition forward (o : op T) : bool :=
  match o with OpTryPushFront _ | OpTimedPushFront _ | OpPopBack | OpTryPopBack | OpTimedPopBack | OpClear => false
  | _ => true end.
Definition puts (e : op T * answer T) : list T :=
  match e with
  | ((OpPushBack v | OpTryPushBack v | OpTimedPushBack v), (done_ | flag true)) => [v]
  | _ => []
  end.
Definition takes (e : op T * answer T) : list T :=
  match e.2 with item (Some v) => [v] | items (Some l) => l | _ => [] end.

Lemma history_forward q l q' :
  history spec q l q' -> Forall (fun e => forward e.1 = true) l -> q ++ (l ≫= puts) = (l ≫= takes) ++ q'.
Proof.
  intros Hh. induction Hh as [|s1 s2 s3 l o r _ IH Hs]; [by rewrite app_nil_r|].
  intros [HF Ho]%Forall_app. inversion Ho as [|? ? Hfw _]; subst. simpl in Hfw.
  rewrite !bind_app, (app_assoc s1), (IH HF), <-!app_assoc. f_equal. simpl. rewrite !app_nil_r.
  destruct o; unfold spec, pushed, popped in Hs; simplify_eq; 
    repeat first [ progress simplify_eq/= | case_bool_decide | progress destruct_or? | progress destruct_and?
                 | match goal with H : exists _, _ |- _ => destruct H end | case_match ]; by rewrite ?app_nil_r.
Qed.
End blocking.

(** ** Claims on [BlockingQueue] *)

(** C32. [BlockingQueue] with [max] elements: under every interleaving of calls, with
    spurious wake-ups and timeouts anywhere, no call fails, the queue never holds more
    than [max] elements, and the calls that have ended returned what they return when
    each happens at once, in the order of the log, on a list bounded by [max]; when only
    the back is pushed and only the front popped, what came out, followed by the
    queue, is what went in, in that order. *)
Theorem blocking_queue_linearizable {T} (max : Z) (st : system (list T) Blocking.condition (Blocking.op T) (answer T))
    (Hmax : 0 <= max) (Hr : reachable (M:=Blocking.blocking_monitor max) [] st) :
  bounded max (shared st) /\ ~ fails (M:=Blocking.blocking_monitor max) st /\
  log st ≡ₚ results (calls st) /\ history (spec max) [] (log st) (shared st) /\
  (Forall (fun e => forward e.1 = true) (log st) -> log st ≫= puts = (log st ≫= takes) ++ shared st).
Proof.
  assert (H0 : bounded max ([] : list T)) by (unfold bounded; simpl; lia).
  destruct (reachable_history (HA:=blocking_atomic max) [] st H0 Hr) as [Hb Hh].
  split; [done|]. split; [|split; [by eapply reachable_results|split; [done|by apply (history_forward max [])]]].
  apply (reachable_never_fails (HA:=blocking_atomic max) [] st H0); [|done]. intros. apply piece_total.
Qed.

(** A consumer waits, a producer fills the queue of one, a second one waits, and the
    consumer, woken, takes the element. *)
Definition one_slot : list (choice (Blocking.op Z)) :=
  [Call Blocking.OpPopFront; Run 0 []; Call (Blocking.OpPushBack 5); Run 1 [];
   Call (Blocking.OpPushBack 6); Run 2 []; Deliver 1 0; Run 0 []; Deliver 0 2].

Lemma blocking_queue_linearizable_witness :
  exists st, schedule (M:=Blocking.blocking_monitor 1) one_slot (system_new []) = Some st /\
    log st = [(Blocking.OpPushBack 5, done_); (Blocking.OpPopFront, item (Some 5))] /\ bounded 1 (shared st).
Proof.
  destruct (schedule (M:=Blocking.blocking_monitor 1) one_slot (system_new [])) as [st|] eqn:E; [|by vm_compute in E].
  exists st. split; [done|]. split; [by vm_compute in E; injection E as <-|].
  exact (proj1 (blocking_queue_linearizable 1 st ltac:(lia) (schedule_reachable (M:=Blocking.blocking_monitor 1) _ _ _ E))).
Defined.

(** C33. [BlockingQueue] loses no wake-up: at rest (every call has returned or waits), a
    call waits on [m_cond_not_empty] only if the queue is empty and on
    [m_cond_not_full] only if it is full, so with room for one element pops and pushes are
    not both stuck. *)
Theorem blocking_queue_no_lost_wakeup {T} (max : Z) (st : system (list T) Blocking.condition (Blocking.op T) (answer T))
    (i : nat) (o : Blocking.op T) (cv : Blocking.condition)
    (Hmax : 0 < max) (Hr : reachable (M:=Blocking.blocking_monitor max) [] st) (Hq : quiescent st)
    (Hw : calls st !! i = Some (o, Waiting cv)) :
  match cv with
  | Blocking.m_cond_not_empty => shared st = []
  | Blocking.m_cond_not_full => Z.of_nat (length (shared st)) = max
  end /\
  forall j o' cv', calls st !! j = Some (o', Waiting cv') -> cv' = cv.
Proof.
  assert (H0 : bounded max ([] : list T)) by (unfold bounded; simpl; lia).
  destruct (reachable_history (HA:=blocking_atomic max) [] st H0 Hr) as [Hb _].
  assert (He : forall j o', calls st !! j = Some (o', Waiting Blocking.m_cond_not_empty) -> shared st = []).
  { intros j o' Hj. assert (E : Some (length (shared st)) = Some 0%nat).
    { apply (quiescent_none (HR:=not_empty_resource max) [] st j o'); auto; intros ? ? ?; done. }
    injection E as E. by apply nil_length_inv. }
  assert (Hf : forall j o', calls st !! j = Some (o', Waiting Blocking.m_cond_not_full) -> Z.of_nat (length (shared st)) = max).
  { intros j o' Hj. assert (E : Some (free max (shared st)) = Some 0%nat).
    { apply (quiescent_none (HR:=not_full_resource max) [] st j o'); auto; intros ? ? ?; done. }
    injection E as E. unfold free, bounded in *. lia. }
  split; [destruct cv; eauto|]. intros j o' cv' Hj. destruct cv, cv'; try done; exfalso.
  - pose proof (He _ _ Hw) as E. pose proof (Hf _ _ Hj). rewrite E in *. simpl in *. lia.
  - pose proof (He _ _ Hj) as E. pose proof (Hf _ _ Hw). rewrite E in *. simpl in *. lia.
Qed.

Lemma blocking_queue_no_lost_wakeup_witness :
  exists st, schedule (M:=Blocking.blocking_monitor 1) [Call Blocking.OpPopFront; Run 0 []] (system_new ([] : list Z)) = Some st /\
    shared st = [].
Proof.
  destruct (schedule (M:=Blocking.blocking_monitor 1) [Call Blocking.OpPopFront; Run 0 []] (system_new ([] : list Z))) as [st|] eqn:E;
    [|by vm_compute in E].
  exists st. split; [done|]. pose proof (schedule_reachable (M:=Blocking.blocking_monitor 1) _ _ _ E) as Hr.
  vm_compute in E. injection E as <-.
  refine (proj1 (blocking_queue_no_lost_wakeup 1 _ 0 Blocking.OpPopFront Blocking.m_cond_not_empty _ Hr _ _)); [lia| |done].
  intros [|[|i]] o s Hi; simplify_eq/=; done.
Defined.
(** ** The queues with one end for each side

    The specification shared by the other classes: [fifo_put] appends, [fifo_take] takes
    the head. *)

Definition fifo_put {T} (v : T) (q : list T) (r : answer T) (q' : list T) : Prop := r = done_ /\ q' = q ++ [v].
Definition fifo_take {T} (q : list T) (r : answer T) (q' : list T) : Prop := exists v, r = item (Some v) /\ q = v :: q'.

(** *** [MPMCBlockingQueue] *)

Section mpmc.
Context {T : Type}.
Import Mpmc.

Definition mpmc_spec (o : op T) (q : list T) (r : answer T) (q' : list T) : Prop :=
  match o with
  | Produce v => fifo_put v q r q'
  | Wait_and_consume => fifo_take q r q'
  | Try_consume => fifo_take q r q' \/ (r = item None /\ q = [] /\ q' = [])
  | Empty => r = flag (bool_decide (q = [])) /\ q' = q
  end.

Ltac open_mpmc E :=
  cbn [run queue_monitor] in E; unfold produce, wait_and_consume, try_consume, empty in E; simplify_eq/=.

Definition mpmc_consumer (o : op T) : bool := match o with Wait_and_consume => true | _ => false end.

#[export] Instance mpmc_resource :
  Resource (queue_monitor (T:=T)) (fun _ => True) tt true mpmc_consumer (fun _ => false) (fun q => Some (length q)).
Proof.
  constructor; [done|..].
  - intros o how q q' sg _ _ E. by destruct o, q; open_mpmc E.
  - intros o how q q' sg _ _ E. by destruct o, q; open_mpmc E.
  - intros o how q q' sg out n _ E [= <-]. right. right. exists (length q'). split; [done|].
    destruct o, q; open_mpmc E; weigh; rewrite ?length_app; simpl; lia.
Qed.

#[export] Instance mpmc_atomic : Atomic (M:=queue_monitor (T:=T)) (fun _ => True) id mpmc_spec.
Proof.
  constructor; [done|..].
  - intros o how q q' sg after r _ E. unfold mpmc_spec, fifo_put, fifo_take. destruct o, q; open_mpmc E; eauto 6.
  - intros o how q q' sg cv _ E. by destruct o, q; open_mpmc E.
Qed.
End mpmc.

(** What goes in and what comes out, for every class. *)
Definition taken {Op T} (e : Op * answer T) : list T := match e.2 with item (Some v) => [v] | _ => [] end.
Definition produced {T} (e : Mpmc.op T * answer T) : list T := match e.1 with Mpmc.Produce v => [v] | _ => [] end.

(** [MPMCBlockingQueue]: no call fails; the calls act in the order of the log on a
    list, so that what was consumed, followed by the queue, is what was produced, in
    order; and at rest a consumer still waits only if the queue is empty. *)
Theorem mpmc_queue_correct {T} (st : system (list T) unit (Mpmc.op T) (answer T)) (Hr : reachable [] st) :
  ~ fails st /\ log st ≡ₚ results (calls st) /\ history mpmc_spec [] (log st) (shared st) /\
  log st ≫= produced = (log st ≫= taken) ++ shared st /\
  (quiescent st -> forall i o cv, calls st !! i = Some (o, Waiting cv) -> shared st = []).
Proof.
  destruct (reachable_history (HA:=mpmc_atomic) [] st I Hr) as [_ Hh]. simpl in Hh.
  split; [|split; [by eapply reachable_results|split; [done|split]]].
  - apply (reachable_never_fails (HA:=mpmc_atomic) [] st I); [|done]. by intros [] how [].
  - apply (history_fifo mpmc_spec id produced taken [] (log st) (shared st)); [|done].
    intros [] q r q'; unfold mpmc_spec, fifo_put, fifo_take, id; intros; destruct_or?; naive_solver (by rewrite ?app_nil_r).
  - intros Hq i o [] Hi. assert (E : Some (length (shared st)) = Some 0%nat).
    { apply (quiescent_none (HR:=mpmc_resource) [] st i o); auto; intros ? ? ?; done. }
    injection E as E. by apply nil_length_inv.
Qed.

Definition mpmc_run : list (choice (Mpmc.op Z)) :=
  [Call Mpmc.Wait_and_consume; Run 0 []; Call (Mpmc.Produce 4); Run 1 [0%nat]; Run 0 []].

Lemma mpmc_queue_correct_witness :
  exists st, schedule mpmc_run (system_new []) = Some st /\ log st ≫= produced = [4] ++ shared st.
Proof.
  destruct (schedule mpmc_run (system_new [])) as [st|] eqn:E; [|by vm_compute in E].
  exists st. split; [done|]. destruct (mpmc_queue_correct st (schedule_reachable _ _ _ E)) as (_ & _ & _ & H & _).
  rewrite H. vm_compute in E. by injection E as <-.
Defined.

(** *** [SimpleCircularQueue] *)

Section circular.
Context {T : Type} (cap : Z).
Import Circular.
#[local] Instance circular_here : Monitor (list T) condition (op T) (answer T) := circular_monitor cap.

Definition circular_bounded (q : list T) : Prop := Z.of_nat (length q) <= cap.
Definition circular_spec (o : op T) (q : list T) (r : answer T) (q' : list T) : Prop :=
  match o with
  | Enqueue v => fifo_put v q r q' /\ Z.of_nat (length q) < cap
  | Dequeue => fifo_take q r q'
  | Size => r = number (Z.of_nat (length q)) /\ q' = q
  | Empty => r = flag (bool_decide (q = [])) /\ q' = q
  end.
Definition dequeues (o : op T) : bool := match o with Dequeue => true | _ => false end.
Definition enqueues (o : op T) : bool := match o with Enqueue _ => true | _ => false end.

Lemma circular_piece_cases (o : op T) how q q' sg (out : outcome condition (answer T)) :
  run o how q = Some (q', sg, out) ->
  (o = Dequeue /\ q = [] /\ q' = [] /\ sg = [] /\ out = Waits notEmpty_) \/
  (enqueues o = true /\ cap <= Z.of_nat (length q) /\ q' = q /\ sg = [] /\ out = Waits notFull_) \/
  (exists v, o = Enqueue v /\ Z.of_nat (length q) < cap /\ q' = q ++ [v] /\ sg = [notify_one notEmpty_] /\ out = Returns [] done_) \/
  (exists v, o = Dequeue /\ q = v :: q' /\ sg = [notify_one notFull_] /\ out = Returns [] (item (Some v))) \/
  (dequeues o = false /\ enqueues o = false /\ q' = q /\ sg = [] /\ exists r, out = Returns [] r /\ circular_spec o q r q).
Proof.
  destruct o; cbn [run circular_here circular_monitor]; unfold enqueue, dequeue, size, empty; intros E.
  - destruct (Z.ltb_spec (Z.of_nat (length q)) cap); simplify_eq; [do 2 right; left; eauto 10|right; left; by split_and!].
  - destruct q as [|v l]; simplify_eq; [by left|do 3 right; left; eauto 10].
  - simplify_eq. do 4 right. simpl. eauto 10.
  - simplify_eq. do 4 right. simpl. eauto 10.
Qed.

Ltac circular_cases E :=
  apply circular_piece_cases in E as [(? & ? & ? & ? & ?)|[(? & ? & ? & ? & ?)|[(? & ? & ? & ? & ? & ?)|
    [(? & ? & ? & ? & ?)|(Hd & ? & ? & ? & ? & ? & ?)]]]]; simplify_eq.

Lemma circular_inv (o : op T) how q q' sg (out : outcome condition (answer T)) :
  circular_bounded q -> run o how q = Some (q', sg, out) -> circular_bounded q'.
Proof. unfold circular_bounded. intros H E. circular_cases E; rewrite ?length_app; simpl in *; lia. Qed.

#[export] Instance notEmpty_resource :
  Resource circular_here circular_bounded notEmpty_ true dequeues (fun _ => false) (fun q => Some (length q)).
Proof.
  constructor; [apply circular_inv|..].
  - intros o how q q' sg _ _ E. by circular_cases E; simplify_eq/=.
  - intros o how q q' sg _ _ E. by circular_cases E; simplify_eq/=.
  - intros o how q q' sg out n _ E [= <-]. right. right. exists (length q'). split; [done|].
    circular_cases E; weigh; rewrite ?length_app; simpl; try lia. all: destruct o; simplify_eq/=; lia.
Qed.

#[export] Instance notFull_resource :
  Resource circular_here circular_bounded notFull_ true enqueues (fun _ => false) (fun q => Some (Z.to_nat cap - length q)%nat).
Proof.
  constructor; [apply circular_inv|..].
  - intros o how q q' sg _ _ E. by circular_cases E; simplify_eq/=.
  - intros o how q q' sg _ _ E. circular_cases E; simplify_eq/=. f_equal. lia.
  - intros o how q q' sg out n Hq E [= <-]. right. right. exists (Z.to_nat cap - length q')%nat. split; [done|].
    circular_cases E; weigh; rewrite ?length_app; simpl; try lia. all: destruct o; simplify_eq/=; lia.
Qed.

#[export] Instance circular_atomic : Atomic (M:=circular_here) circular_bounded id circular_spec.
Proof.
  constructor; [apply circular_inv|..].
  - intros o how q q' sg after r _ E. circular_cases E; simplify_eq/=; unfold fifo_put, fifo_take; eauto.
  - intros o how q q' sg cv _ E. by circular_cases E; simplify_eq/=.
Qed.

Lemma circular_total (o : op T) how q : run o how q <> None.
Proof.
  destruct o; cbn [run circular_here circular_monitor]; unfold enqueue, dequeue, size, empty; repeat case_match; done.
Qed.
End circular.

Definition enqueued {T} (e : Circular.op T * answer T) : list T := match e.1 with Circular.Enqueue v => [v] | _ => [] end.

(** [SimpleCircularQueue] of capacity [cap]: no call fails, at most [cap] elements are
    inside, the calls act in the order of the log on a bounded list, first in first out;
    at rest a call waits on [notEmpty_] only if the queue is empty and on [notFull_]
    only if it is full. *)
Theorem circular_queue_correct {T} (cap : Z) (st : system (list T) Circular.condition (Circular.op T) (answer T))
    (Hcap : 0 <= cap) (Hr : reachable (M:=Circular.circular_monitor cap) [] st) :
  ~ fails (M:=Circular.circular_monitor cap) st /\ Z.of_nat (length (shared st)) <= cap /\
  log st ≡ₚ results (calls st) /\ history (circular_spec cap) [] (log st) (shared st) /\
  log st ≫= enqueued = (log st ≫= taken) ++ shared st /\
  (quiescent st -> forall i o cv, calls st !! i = Some (o, Waiting cv) ->
     match cv with
     | Circular.notEmpty_ => shared st = []
     | Circular.notFull_ => Z.of_nat (length (shared st)) = cap
     end).
Proof.
  assert (H0 : circular_bounded cap ([] : list T)) by (unfold circular_bounded; simpl; lia).
  destruct (reachable_history (HA:=circular_atomic cap) [] st H0 Hr) as [Hb Hh].
  split; [apply (reachable_never_fails (HA:=circular_atomic cap) [] st H0); [intros; apply circular_total|done]|].
  split; [done|]. split; [by eapply reachable_results|]. split; [done|]. split.
  - apply (history_fifo (circular_spec cap) id enqueued taken [] (log st) (shared st)); [|done].
    intros [] q r q'; unfold circular_spec, fifo_put, fifo_take, id; naive_solver (by rewrite ?app_nil_r).
  - intros Hq i o [] Hi.
    + assert (E : Some (length (shared st)) = Some 0%nat).
      { apply (quiescent_none (HR:=notEmpty_resource cap) [] st i o); auto; intros ? ? ?; done. }
      injection E as E. by apply nil_length_inv.
    + assert (E : Some (Z.to_nat cap - length (shared st))%nat = Some 0%nat).
      { apply (quiescent_none (HR:=notFull_resource cap) [] st i o); auto; intros ? ? ?; done. }
      injection E as E. unfold circular_bounded in Hb. lia.
Qed.

Definition circular_run : list (choice (Circular.op Z)) :=
  [Call (Circular.Enqueue 1); Run 0 []; Call (Circular.Enqueue 2); Run 1 []; Call Circular.Dequeue; Run 2 [1%nat]; Run 1 []].

Lemma circular_queue_correct_witness :
  exists st, schedule (M:=Circular.circular_monitor 1) circular_run (system_new []) = Some st /\ Z.of_nat (length (shared st)) <= 1 /\ shared st = [2].
Proof.
  destruct (schedule (M:=Circular.circular_monitor 1) circular_run (system_new [])) as [st|] eqn:E; [|by vm_compute in E].
  exists st. split; [done|].
  destruct (circular_queue_correct 1 st ltac:(lia) (schedule_reachable (M:=Circular.circular_monitor 1) _ _ _ E)) as (_ & H & _).
  split; [exact H|]. vm_compute in E. by injection E as <-.
Defined.

(** *** [QueueRing] *)

(** A [QueueRing] bucket strands a consumer: [enqueue] signals only when the bucket
    was empty and the woken consumer has not run yet when the second element comes, so
    at rest one consumer sleeps though an element is there.  And the wait of [dequeue] is
    not in a loop: when another consumer takes the element first, the woken one fails
    its assertion. *)
Theorem queue_ring_strands_consumers {T} (x y : T) :
  (exists st, reachable (M:=Bucket.bucket_monitor) [] st /\ quiescent st /\ shared st = [y] /\
     calls st !! 1%nat = Some (Bucket.Dequeue, Waiting tt)) /\
  (exists st, reachable (M:=Bucket.bucket_monitor) ([] : list T) st /\ fails st).
Proof.
  split.
  - destruct (schedule (M:=Bucket.bucket_monitor)
      [Call Bucket.Dequeue; Run 0 []; Call Bucket.Dequeue; Run 1 []; Call (Bucket.Enqueue x); Run 2 [0%nat];
       Call (Bucket.Enqueue y); Run 3 []; Run 0 []] (system_new ([] : list T))) as [st|] eqn:E; [|done].
    exists st. split; [by eapply schedule_reachable|]. cbv in E. injection E as <-. split; [|done].
    by intros [|[|[|[|i]]]] o s [= <- <-].
  - destruct (schedule (M:=Bucket.bucket_monitor)
      [Call Bucket.Dequeue; Run 0 []; Call (Bucket.Enqueue x); Run 1 [0%nat]; Call Bucket.Dequeue; Run 2 []]
      (system_new ([] : list T))) as [st|] eqn:E; [|done].
    exists st. split; [by eapply schedule_reachable|]. cbv in E. injection E as <-.
    by exists 0%nat, Bucket.Dequeue, woken.
Qed.
(** *** [BlockChannel] *)

Section channel.
Context {T : Type}.
Import Channel.
Implicit Type c : BlockChannel T.

Definition channel_spec (o : op T) c (r : answer T) c' : Prop :=
  match o with
  | OpSendEof => r = done_ /\ c' = {| buffer_ := buffer_ c; eof_ := true |}
  | OpEof => r = flag (bool_decide (buffer_ c = []) && eof_ c) /\ c' = c
  | OpSize => r = number (Z.of_nat (length (buffer_ c))) /\ c' = c
  | OpWrite v => fifo_put v (buffer_ c) r (buffer_ c') /\ eof_ c' = eof_ c
  | OpRead =>
      (fifo_take (buffer_ c) r (buffer_ c') /\ eof_ c' = eof_ c) \/
      (r = item None /\ c' = c /\ buffer_ c = [] /\ eof_ c = true)
  end.
Definition reads (o : op T) : bool := match o with OpRead => true | _ => false end.
Definition readable c : option nat := if eof_ c then None else Some (length (buffer_ c)).

Ltac open_channel E :=
  cbn [run channel_monitor] in E; unfold SendEof, Eof, Size, Write, Read in E; simplify_eq/=; repeat case_match; simplify_eq/=.

#[export] Instance channel_resource : Resource (channel_monitor (T:=T)) (fun _ => True) tt true reads (fun _ => false) readable.
Proof.
  constructor; [done|..].
  - intros o how [l e] c' sg _ _ E. by destruct o; open_channel E.
  - intros o how [l e] c' sg _ _ E. unfold readable. by destruct o, l, e; open_channel E.
  - intros o how [l e] c' sg out n _ E Ha. unfold readable in *. right. destruct e; [done|]. simpl in Ha. simplify_eq.
    destruct o, l; open_channel E; weigh; first [left; by repeat constructor | right];
      (eexists; split; [done|]); rewrite ?length_app; simpl; lia.
Qed.

#[export] Instance channel_atomic : Atomic (M:=channel_monitor (T:=T)) (fun _ => True) id channel_spec.
Proof.
  constructor; [done|..].
  - intros o how [l e] c' sg after r _ E. unfold channel_spec, fifo_put, fifo_take. destruct o, l, e; open_channel E; eauto 8.
  - intros o how [l e] c' sg cv _ E. by destruct o, l, e; open_channel E.
Qed.

Lemma channel_total (o : op T) how c : run o how c <> None.
Proof. destruct c as [[|x l] []], o; done. Qed.
End channel.

Definition written {T} (e : Channel.op T * answer T) : list T := match e.1 with Channel.OpWrite v => [v] | _ => [] end.

(** [BlockChannel]: no call fails; the calls act in the order of the log on a list
    and an end-of-file flag, and what was read, followed by the buffer, is what was
    written, in order, also after [SendEof]; [Read] says [false] only when the end was sent
    and the buffer is empty; at rest a reader waits only if there is neither an element
    nor an end of file. *)
Theorem block_channel_correct {T} (st : system (Channel.BlockChannel T) unit (Channel.op T) (answer T))
    (Hr : reachable Channel.BlockChannel_new st) :
  ~ fails st /\ log st ≡ₚ results (calls st) /\ history channel_spec Channel.BlockChannel_new (log st) (shared st) /\
  log st ≫= written = (log st ≫= taken) ++ Channel.buffer_ (shared st) /\
  (quiescent st -> forall i o cv, calls st !! i = Some (o, Waiting cv) ->
     Channel.buffer_ (shared st) = [] /\ Channel.eof_ (shared st) = false).
Proof.
  destruct (reachable_history (HA:=channel_atomic) Channel.BlockChannel_new st I Hr) as [_ Hh]. simpl in Hh.
  split; [|split; [by eapply reachable_results|split; [done|split]]].
  - apply (reachable_never_fails (HA:=channel_atomic) Channel.BlockChannel_new st I); [|done]. intros o how c _. apply channel_total.
  - apply (history_fifo channel_spec Channel.buffer_ written taken Channel.BlockChannel_new (log st) (shared st)); [|done].
    intros [] c r c'; unfold channel_spec, fifo_put, fifo_take, id; intros; destruct_or?; naive_solver (by rewrite ?app_nil_r).
  - intros Hq i o [] Hi. assert (E : readable (shared st) = Some 0%nat).
    { apply (quiescent_none (HR:=channel_resource) Channel.BlockChannel_new st i o); auto; intros ? ? ?; done. }
    unfold readable in E. destruct (Channel.eof_ (shared st)); [done|]. injection E as E. by split; [apply nil_length_inv|].
Qed.

Definition channel_run : list (choice (Channel.op Z)) :=
  [Call Channel.OpRead; Run 0 []; Call Channel.OpSendEof; Run 1 []; Call (Channel.OpWrite 3); Run 2 []; Run 0 []].

Lemma block_channel_correct_witness :
  exists st, schedule channel_run (system_new Channel.BlockChannel_new) = Some st /\
    log st ≫= written = [3] ++ Channel.buffer_ (shared st).
Proof.
  destruct (schedule channel_run (system_new Channel.BlockChannel_new)) as [st|] eqn:E; [|by vm_compute in E].
  exists st. split; [done|]. destruct (block_channel_correct st (schedule_reachable _ _ _ E)) as (_ & _ & _ & H & _).
  rewrite H. vm_compute in E. by injection E as <-.
Defined.

(** *** [SimpleBlockingQueue] *)

Section simple.
Context {T : Type}.
Import Simple.
Implicit Type q : SimpleBlockingQueue T.

Definition counted q : Prop := numElements_ q = Z.of_nat (length (elements_ q)).
Definition simple_spec (o : op T) (l : list T) (r : answer T) (l' : list T) : Prop :=
  match o with
  | Enqueue v => fifo_put v l r l'
  | Dequeue => fifo_take l r l'
  | Size => r = number (Z.of_nat (length l)) /\ l' = l
  | Empty => r = flag (bool_decide (l = [])) /\ l' = l
  | WaitEmpty => r = done_ /\ l = [] /\ l' = []
  | WaitNotEmptyFor => r = flag (negb (bool_decide (l = []))) /\ l' = l
  end.
Definition wants_some (o : op T) : bool := match o with Dequeue | WaitNotEmptyFor => true | _ => false end.
Definition wants_none (o : op T) : bool := match o with WaitEmpty => true | _ => false end.

Lemma int32_eq z : int32 z = if (- 2 ^ 31 <=? z) && (z <? 2 ^ 31) then Some z else None.
Proof. done. Qed.

(** What a piece does, on the list. *)
Lemma simple_piece_cases (o : op T) how q q' sg (out : outcome unit (answer T)) :
  counted q -> run o how q = Some (q', sg, out) ->
  counted q' /\
  match out with
  | Returns after r =>
      after = [] /\ simple_spec o (elements_ q) r (elements_ q') /\
      (elements_ q' = elements_ q \/ notify_all tt ∈ sg \/
       (exists x y, elements_ q = x :: y :: tail (elements_ q') /\ elements_ q' <> []))
  | Waits cv => q' = q /\ sg = [] /\
      ((wants_some o = true /\ elements_ q = []) \/ (wants_none o = true /\ elements_ q <> []))
  end.
Proof.
  unfold counted. destruct q as [l n]. simpl. intros -> E. destruct o; cbn [run simple_monitor] in E;
    unfold enqueue, dequeue, size, empty, waitEmpty, waitNotEmptyFor in E; simpl in E.
  - rewrite int32_eq in E. case_match; simplify_eq/=. split; [rewrite length_app; simpl; lia|]. split; [done|].
    split; [done|]. right. left. by constructor.
  - destruct l as [|x l]; simpl in E; simplify_eq/=; [eauto 8|].
    rewrite int32_eq in E. case_match; simplify_eq/=. split; [lia|]. split; [done|]. split; [by exists x|]. right.
    destruct l as [|y l]; [left; by constructor|right; eauto].
  - simplify_eq/=. auto.
  - destruct l; simplify_eq/=; auto.
  - destruct l; simplify_eq/=; auto 8.
  - destruct l; [destruct how|]; simplify_eq/=; auto 8.
Qed.

Lemma simple_inv (o : op T) how q q' sg (out : outcome unit (answer T)) :
  counted q -> run o how q = Some (q', sg, out) -> counted q'.
Proof. intros H E. by apply simple_piece_cases in E as [? _]. Qed.

#[export] Instance some_resource :
  Resource (simple_monitor (T:=T)) counted tt false wants_some (fun _ => false) (fun q => Some (length (elements_ q))).
Proof.
  constructor; [apply simple_inv|done|..].
  - intros o how q q' sg Hm Hq E. apply simple_piece_cases in E as (_ & -> & _ & [[_ ->]|[H _]]); [done| |done].
    by destruct o.
  - intros o how q q' sg out n Hq E [= <-]. right. apply simple_piece_cases in E as [_ H]; [|done]. unfold sent.
    destruct out as [after r|cv].
    + destruct H as (-> & _ & [->|[H|(x & y & -> & _)]]).
      * right. eexists. split; [done|]. simpl. right. lia.
      * left. apply elem_of_app. by left.
      * right. eexists. split; [done|]. right. destruct (elements_ q'); simpl; lia.
    + destruct H as (-> & _). right. eexists. split; [done|]. right. simpl. lia.
Qed.

#[export] Instance none_resource :
  Resource (simple_monitor (T:=T)) counted tt false wants_none (fun _ => false)
    (fun q => Some (if bool_decide (elements_ q = []) then 1 else 0)%nat).
Proof.
  constructor; [apply simple_inv|done|..].
  - intros o how q q' sg Hm Hq E. apply simple_piece_cases in E as (_ & -> & _ & [[H _]|[_ H]]); [by destruct o| |done].
    by rewrite bool_decide_false.
  - intros o how q q' sg out n Hq E [= <-]. right. apply simple_piece_cases in E as [_ H]; [|done]. unfold sent.
    destruct out as [after r|cv].
    + destruct H as (-> & _ & [->|[H|(x & y & E & H)]]).
      * right. eexists. split; [done|]. simpl. right. lia.
      * left. apply elem_of_app. by left.
      * right. eexists. split; [done|]. left. by rewrite bool_decide_false.
    + destruct H as (-> & _). right. eexists. split; [done|]. right. simpl. lia.
Qed.

#[export] Instance simple_atomic : Atomic (M:=simple_monitor (T:=T)) counted elements_ simple_spec.
Proof.
  constructor; [apply simple_inv|..].
  - intros o how q q' sg after r Hq E. by apply simple_piece_cases in E as (_ & _ & ? & _).
  - intros o how q q' sg cv Hq E. by apply simple_piece_cases in E as (_ & -> & _).
Qed.

Lemma simple_fails (o : op T) how q : counted q -> run o how q = None -> Z.of_nat (length (elements_ q)) >= 2 ^ 31 - 1.
Proof.
  unfold counted. destruct q as [l n]. simpl. intros -> E. destruct o; cbn [run simple_monitor] in E;
    unfold enqueue, dequeue, size, empty, waitEmpty, waitNotEmptyFor in E; simpl in E; try done.
  - rewrite int32_eq in E. case_match eqn:H; [done|]. apply andb_false_iff in H as [H|H]; to_prop; lia.
  - destruct l as [|x l]; simpl in E; [done|]. rewrite int32_eq in E. case_match eqn:H; [done|].
    apply andb_false_iff in H as [H|H]; to_prop; simpl; lia.
  - by destruct l.
  - by destruct l, how.
Qed.
End simple.

Definition simple_enqueued {T} (e : Simple.op T * answer T) : list T := match e.1 with Simple.Enqueue v => [v] | _ => [] end.

(** [SimpleBlockingQueue]: [numElements_] is the length of the list and a call fails
    only when it is about to overflow; the calls act in the order of the log on a list, first in first
    out; at rest [dequeue] and [waitNotEmptyFor] wait only if the queue is empty and
    [waitEmpty] only if it is not. *)
Theorem simple_queue_correct {T} (st : system (Simple.SimpleBlockingQueue T) unit (Simple.op T) (answer T))
    (Hr : reachable Simple.SimpleBlockingQueue_new st) :
  counted (shared st) /\ (fails st -> Z.of_nat (length (Simple.elements_ (shared st))) >= 2 ^ 31 - 1) /\
  log st ≡ₚ results (calls st) /\ history simple_spec [] (log st) (Simple.elements_ (shared st)) /\
  log st ≫= simple_enqueued = (log st ≫= taken) ++ Simple.elements_ (shared st) /\
  (quiescent st -> forall i o cv, calls st !! i = Some (o, Waiting cv) ->
     (wants_some o = true -> Simple.elements_ (shared st) = []) /\
     (wants_none o = true -> Simple.elements_ (shared st) <> [])).
Proof.
  assert (H0 : counted (T:=T) Simple.SimpleBlockingQueue_new) by done.
  destruct (reachable_history (HA:=simple_atomic) _ st H0 Hr) as [Hb Hh]. simpl in Hh.
  split; [done|]. split; [|split; [by eapply reachable_results|split; [done|split]]].
  - intros (i & o & how & _ & E). by eapply simple_fails.
  - apply (history_fifo simple_spec id simple_enqueued taken [] (log st) (Simple.elements_ (shared st))); [|done].
    intros [] l r l'; unfold simple_spec, fifo_put, fifo_take, id; naive_solver (by rewrite ?app_nil_r).
  - intros Hq i o [] Hi. split; intros Hm.
    + assert (E : Some (length (Simple.elements_ (shared st))) = Some 0%nat).
      { apply (quiescent_none (HR:=some_resource) Simple.SimpleBlockingQueue_new st i o); auto; intros ? ? ?; done. }
      injection E as E. by apply nil_length_inv.
    + assert (E : Some (if bool_decide (Simple.elements_ (shared st) = []) then 1 else 0)%nat = Some 0%nat).
      { apply (quiescent_none (HR:=none_resource) Simple.SimpleBlockingQueue_new st i o); auto; intros ? ? ?; done. }
      by case_bool_decide.
Qed.

Definition simple_run : list (choice (Simple.op Z)) :=
  [Call (Simple.Enqueue 8); Run 0 []; Call Simple.WaitEmpty; Run 1 []; Call Simple.Dequeue; Run 2 []].

Lemma simple_queue_correct_witness :
  exists st, schedule simple_run (system_new Simple.SimpleBlockingQueue_new) = Some st /\
    log st ≫= simple_enqueued = [8] ++ Simple.elements_ (shared st).
Proof.
  destruct (schedule simple_run (system_new Simple.SimpleBlockingQueue_new)) as [st|] eqn:E; [|by vm_compute in E].
  exists st. split; [done|]. destruct (simple_queue_correct st (schedule_reachable _ _ _ E)) as (_ & _ & _ & _ & H & _).
  rewrite H. vm_compute in E. by injection E as <-.
Defined.
(** *** [ConcurrentBlockingQueue] *)

Section concurrent.
Context {T : Type}.
Import Concurrent.
Implicit Type q : ConcurrentBlockingQueue T.

Definition concurrent_abs q : bool * list T := (exit_now_ q, fifo_queue_ q).
Definition concurrent_spec (o : op T) (s : bool * list T) (r : answer T) (s' : bool * list T) : Prop :=
  match o with
  | OpPush v => r = done_ /\ s' = (s.1, s.2 ++ [v])
  | OpPushFront v => r = done_ /\ s' = (s.1, v :: s.2)
  | OpPop => if s.1 then r = item None /\ s' = s else s'.1 = false /\ fifo_take s.2 r s'.2
  | OpSignalForKill => r = done_ /\ s' = (true, s.2)
  | OpSize => r = number (Z.of_nat (length s.2)) /\ s' = s
  end.
Definition takes_one (o : op T) : bool := match o with OpPop => true | _ => false end.
Definition available q : option nat := if exit_now_ q then None else Some (length (fifo_queue_ q)).
Definition nobody q : bool := nwait_consumer_ q =? 0.

(** What a piece does. *)
Lemma concurrent_piece_cases (o : op T) how q q' sg (out : outcome unit (answer T)) :
  run o how q = Some (q', sg, out) ->
  sg = [] /\
  match out with
  | Returns after r =>
      concurrent_spec o (concurrent_abs q) r (concurrent_abs q') /\
      nwait_consumer_ q' + inside_of takes_one o how = nwait_consumer_ q /\
      (nobody q = true \/ notify_all tt ∈ after \/
       (takes_one o = false /\ after = [notify_one tt] /\ available q' = S <$> available q) \/
       (takes_one o = false /\ after = [] /\ available q' = available q) \/
       (takes_one o = true /\ after = [] /\
          if exit_now_ q then available q' = None
          else available q = S <$> available q' ))
  | Waits cv =>
      takes_one o = true /\ concurrent_abs q' = concurrent_abs q /\ available q = Some 0%nat /\
      nwait_consumer_ q' + inside_of takes_one o how = nwait_consumer_ q + 1
  end.
Proof.
  destruct q as [e n l]. unfold available, nobody, concurrent_abs, concurrent_spec, inside_of.
  destruct o; cbn [run concurrent_monitor]; unfold Push, PushFront, Pop, SignalForKill, Size, int32, set_fifo, set_nwait; simpl;
    intros E.
  - destruct (Z.eqb_spec n 0); simplify_eq/=; (split; [done|]); (split; [done|]); (split; [by destruct how; lia|]); [by left|].
    right. right. left. split; [done|]. split; [done|]. destruct e; simpl; [done|]. by rewrite length_app, Nat.add_1_r.
  - destruct (Z.eqb_spec n 0); simplify_eq/=; (split; [done|]); (split; [done|]); (split; [by destruct how; lia|]); [by left|].
    right. right. left. split; [done|]. split; [done|]. by destruct e.
  - destruct how; repeat (case_match; simplify_eq/=); try done; (split; [done|]); split_and!; try done; try lia; eauto;
      try (right; right; right; right; by split_and!).
    all: try (eexists; by split). all: by destruct l.
  - simplify_eq/=. split; [done|]. split; [done|]. split; [destruct how; simpl; lia|]. right. left. by constructor.
  - simplify_eq/=. split; [done|]. split; [done|]. split; [destruct how; simpl; lia|]. auto 8.
Qed.

#[export] Instance concurrent_resource :
  Resource (concurrent_monitor (T:=T)) (fun _ => True) tt true takes_one nobody available.
Proof.
  constructor; [done|..].
  - intros o how q q' sg _ _ E. by apply concurrent_piece_cases in E as (_ & ? & _).
  - intros o how q q' sg _ _ E. apply concurrent_piece_cases in E as (_ & _ & Ha & E & _).
    unfold concurrent_abs, available in *. by injection Ha as -> ->.
  - intros o how q q' sg out n _ E Ha. apply concurrent_piece_cases in E as [-> H]. unfold sent. simpl.
    destruct out as [after r|cv].
    + destruct H as (_ & _ & [H|[H|[(Ho & -> & Hn)|[(Ho & -> & Hn)|(Ho & -> & Hn)]]]]); [by left|by right; left|..];
        right; right; rewrite Ho; weigh.
      * rewrite Hn, Ha. eexists. split; [done|]. right. lia.
      * rewrite Hn, Ha. eexists. split; [done|]. right. lia.
      * destruct (exit_now_ q) eqn:He; [unfold available in Ha; by rewrite He in Ha|]. rewrite Ha in Hn.
        destruct (available q') as [m|]; simplify_eq/=. eexists. split; [done|]. right. lia.
    + destruct H as (_ & Habs & H & _). right. right. exists 0%nat. unfold concurrent_abs, available in *. split; [by injection Habs as -> ->|by left].
Qed.

#[export] Instance concurrent_counter : Counter (concurrent_monitor (T:=T)) nwait_consumer_ takes_one.
Proof.
  constructor. intros o how q q' sg out E. apply concurrent_piece_cases in E as [_ H]. destruct out as [after r|cv].
  - destruct H as (_ & H & _). lia.
  - destruct H as (-> & _ & _ & H). simpl. lia.
Qed.

#[export] Instance concurrent_atomic : Atomic (M:=concurrent_monitor (T:=T)) (fun _ => True) concurrent_abs concurrent_spec.
Proof.
  constructor; [done|..].
  - intros o how q q' sg after r _ E. by apply concurrent_piece_cases in E as (_ & ? & _).
  - intros o how q q' sg cv _ E. by apply concurrent_piece_cases in E as (_ & _ & ? & _).
Qed.

(** A call fails only when the counter overflows. *)
Lemma concurrent_fails (o : op T) how q :
  0 <= nwait_consumer_ q -> run o how q = None -> nwait_consumer_ q >= 2 ^ 31 - 1.
Proof.
  destruct q as [e n l]. destruct o; cbn [run concurrent_monitor]; try done. simpl.
  unfold Pop, int32, set_fifo, set_nwait. simpl. intros H E.
  destruct (Z.le_gt_cases (2 ^ 31 - 1) n); [lia|]. exfalso.
  rewrite (proj2 (Z.leb_le _ (n + 1))), (proj2 (Z.ltb_lt (n + 1) _)) in E by lia.
  destruct how; simpl in E; destruct e, l; simpl in E; try done;
    rewrite ?Z.add_simpl_r, ?(proj2 (Z.leb_le _ _)), ?(proj2 (Z.ltb_lt _ _)) in E by lia; done.
Qed.
End concurrent.

Definition only_back {T} (o : Concurrent.op T) : bool := match o with Concurrent.OpPushFront _ => false | _ => true end.
Definition back_pushed {T} (e : Concurrent.op T * answer T) : list T := match e.1 with Concurrent.OpPush v => [v] | _ => [] end.

Lemma concurrent_forward {T} (s0 : bool * list T) l s :
  history concurrent_spec s0 l s -> Forall (fun e => only_back e.1 = true) l ->
  s0.2 ++ (l ≫= back_pushed) = (l ≫= taken) ++ s.2.
Proof.
  intros Hh. induction Hh as [|s1 s2 s3 l o r _ IH Hs]; intros HF; [by rewrite app_nil_r|]. apply Forall_app in HF as [HF Ho].
  rewrite !bind_app, (app_assoc s1.2), (IH HF), <-!app_assoc. f_equal. simpl. rewrite !app_nil_r.
  destruct o; unfold concurrent_spec, fifo_take in Hs; simpl.
  - by destruct Hs as [-> ->].
  - by inversion Ho.
  - destruct s2 as [[] l2]; simpl in *; [destruct Hs as [-> ->]|destruct Hs as (_ & v & -> & ->)]; by rewrite ?app_nil_r.
  - destruct Hs as [-> ->]. by rewrite app_nil_r.
  - destruct Hs as [-> ->]. by rewrite app_nil_r.
Qed.

(** C34. [ConcurrentBlockingQueue], first in first out: [nwait_consumer_] counts the
    consumers between their first wait and their return, and a call fails only when
    that counter is at its maximum; the calls act in the order of the log on a list
    and an exit flag, first in first out when only [Push] is used; at rest a consumer
    waits only if the queue is empty and [SignalForKill] has not been called, although a
    push signals only when the counter is not 0. *)
Theorem concurrent_queue_correct {T} (st : system (Concurrent.ConcurrentBlockingQueue T) unit (Concurrent.op T) (answer T))
    (Hr : reachable Concurrent.ConcurrentBlockingQueue_new st) :
  Concurrent.nwait_consumer_ (shared st) = Z.of_nat (sum_list_with (inside takes_one) (calls st)) /\
  (fails st -> Concurrent.nwait_consumer_ (shared st) >= 2 ^ 31 - 1) /\
  log st ≡ₚ results (calls st) /\ history concurrent_spec (false, []) (log st) (concurrent_abs (shared st)) /\
  (Forall (fun e => only_back e.1 = true) (log st) ->
     log st ≫= back_pushed = (log st ≫= taken) ++ Concurrent.fifo_queue_ (shared st)) /\
  (quiescent st -> forall i o cv, calls st !! i = Some (o, Waiting cv) ->
     Concurrent.fifo_queue_ (shared st) = [] /\ Concurrent.exit_now_ (shared st) = false).
Proof.
  destruct (reachable_history (HA:=concurrent_atomic) Concurrent.ConcurrentBlockingQueue_new st I Hr) as [_ Hh].
  pose proof (reachable_counter _ _ Concurrent.ConcurrentBlockingQueue_new st eq_refl Hr) as Hc.
  split; [done|]. split; [|split; [by eapply reachable_results|split; [done|split]]].
  - intros (i & o & how & _ & E). eapply concurrent_fails; [lia|done].
  - exact (concurrent_forward _ _ _ Hh).
  - intros Hq i o [] Hi. assert (E : available (shared st) = Some 0%nat).
    { apply (quiescent_none (HR:=concurrent_resource) Concurrent.ConcurrentBlockingQueue_new st i o); auto.
      intros st' Hr' Hid. apply (counter_idle Concurrent.nwait_consumer_ takes_one tt Concurrent.ConcurrentBlockingQueue_new); [apply _|done|done|].
      unfold nobody in Hid. by apply Z.eqb_eq. }
    unfold available in E. destruct (Concurrent.exit_now_ (shared st)); [done|]. injection E as E. by split; [apply nil_length_inv|].
Qed.

Definition concurrent_run : list (choice (Concurrent.op Z)) :=
  [Call Concurrent.OpPop; Run 0 []; Call (Concurrent.OpPush 2); Run 1 []; Deliver 1 0; Run 0 []].

Lemma concurrent_queue_correct_witness :
  exists st, schedule concurrent_run (system_new Concurrent.ConcurrentBlockingQueue_new) = Some st /\
    Concurrent.nwait_consumer_ (shared st) = Z.of_nat (sum_list_with (inside takes_one) (calls st)).
Proof.
  destruct (schedule concurrent_run (system_new Concurrent.ConcurrentBlockingQueue_new)) as [st|] eqn:E; [|by vm_compute in E].
  exists st. split; [done|]. exact (proj1 (concurrent_queue_correct st (schedule_reachable _ _ _ E))).
Defined.
