(* ===== verification/SPSC.v ===== *)
(** * SPSC: the queues of [src/util/lock_free_util.h] with one producer and one consumer

    [ProducerConsumerFreeQueue], [RingQueue] and [SPSCBoundedQueue] keep their elements in
    a ring with one index that only the producer changes and one that only the consumer
    changes.  The class [Ring] holds what each writes its own way (the tests, the next
    index, the slot of an index); the accesses and their order are the same.  Each access
    to the index of the other side, to a slot and to an own index that the other side
    reads is a step, in an interleaving of the two threads (sequential consistency). *)

From S2P Require Import Prelude.
#[local] Open Scope Z_scope.

(** [slots] the buffer has, indices start at [first]. *)
Class Ring := {
  slots : Z;
  first : Z;
  is_full (own other : Z) : bool;
  is_empty (own other : Z) : bool;
  advance (i : Z) : Z;
  slot_of (i : Z) : Z }.

(** ** The three queues *)

Section pcq.
Context (size_ : Z).
Definition pcq_next (i : Z) : Z := let nextRecord := u32 (i + 1) in if nextRecord =? size_ then 0 else nextRecord.
Definition pcq_full (currentWrite readIndex : Z) : bool := negb (negb (pcq_next currentWrite =? readIndex)).
Definition pcq_empty (currentRead writeIndex : Z) : bool := currentRead =? writeIndex.
Definition ProducerConsumerFreeQueue : Ring :=
  {| slots := size_; first := 0; is_full := pcq_full; is_empty := pcq_empty; advance := pcq_next; slot_of i := i |}.

(** Called by one side while the other works, or by anybody at rest. *)
Definition isEmpty (readIndex writeIndex : Z) : bool := readIndex =? writeIndex.
Definition isFull (readIndex writeIndex : Z) : bool := if negb (pcq_next writeIndex =? readIndex) then false else true.
Definition sizeGuess (readIndex writeIndex : Z) : Z :=
  let ret := i32 (u32 (writeIndex - readIndex)) in
  let ret := if ret <? 0 then i32 (u32 (ret + size_)) else ret in
  u64 ret.
Definition capacity : Z := u32 (size_ - 1).
End pcq.

Section ring_queue.
Context (bufferSize : Z).
Definition can_consume_size (head tail : Z) : Z := Z.rem (tail + bufferSize - head) bufferSize.
Definition ring_empty (head tail : Z) : bool := head =? tail.
Definition ring_full (tail head : Z) : bool := Z.rem (tail + 1) bufferSize =? head.
Definition ring_next (i : Z) : Z := Z.rem (i + 1) bufferSize.
Definition RingQueue : Ring :=
  {| slots := bufferSize; first := 0; is_full := ring_full; is_empty := ring_empty; advance := ring_next; slot_of i := i |}.
End ring_queue.

Section spsc_bounded.
Context (size : Z).
Definition mask : Z := u64 (size - 1).
Definition produce_full (h tail : Z) : bool := negb (u64 (tail - u64 (h + 1)) .& mask >=? 1).
Definition consume_empty (t head : Z) : bool := negb (u64 (head - t) .& mask >=? 1).
(** The assertion of the constructor. *)
Definition size_ok : bool := negb (size =? 0) && (size .& u64 (u64 (Z.lnot size) + 1) =? size).
Definition SPSCBoundedQueue : Ring :=
  {| slots := size + 1; first := 0; is_full := produce_full; is_empty := consume_empty;
     advance i := u64 (i + 1); slot_of i := i .& mask |}.
End spsc_bounded.

(** ** The two threads *)

Section threads.
Context {T : Type} `{G : Ring}.

(** Where each thread is: between calls, about to copy into or out of a slot, or about to
    publish its index. *)
Inductive producer := PIdle | PCopy (x : T) | PPublish (x : T).
Inductive consumer := CIdle | CCopy | CRelease (x : T).

(** [sent] and [received] are the arguments of the writes and the results of the reads
    that returned [true], in order. *)
Record queue := {
  buffer : list T; read_index : Z; write_index : Z;
  prod : producer; cons : consumer; sent : list T; received : list T }.

Definition set_prod (p : producer) (q : queue) : queue :=
  {| buffer := buffer q; read_index := read_index q; write_index := write_index q; prod := p; cons := cons q;
     sent := sent q; received := received q |}.
Definition set_cons (c : consumer) (q : queue) : queue :=
  {| buffer := buffer q; read_index := read_index q; write_index := write_index q; prod := prod q; cons := c;
     sent := sent q; received := received q |}.

Inductive event := Write_ (x : T) | Producer | Read_ | Consumer.

Definition at_slot {A} (l : list A) (i : Z) : option A := if 0 <=? i then l !! Z.to_nat i else None.

(** [None]: the thread is not there, or an access out of the buffer. *)
Definition step (e : event) (q : queue) : option queue :=
  match e, prod q, cons q with
  | Write_ x, PIdle, _ => Some (if is_full (write_index q) (read_index q) then q else set_prod (PCopy x) q)
  | Producer, PCopy x, _ =>
      let i := slot_of (write_index q) in
      _ ← at_slot (buffer q) i;
      Some {| buffer := <[Z.to_nat i := x]> (buffer q); read_index := read_index q; write_index := write_index q;
              prod := PPublish x; cons := cons q; sent := sent q; received := received q |}
  | Producer, PPublish x, _ =>
      Some {| buffer := buffer q; read_index := read_index q; write_index := advance (write_index q);
              prod := PIdle; cons := cons q; sent := sent q ++ [x]; received := received q |}
  | Read_, _, CIdle => Some (if is_empty (read_index q) (write_index q) then q else set_cons CCopy q)
  | Consumer, _, CCopy => x ← at_slot (buffer q) (slot_of (read_index q)); Some (set_cons (CRelease x) q)
  | Consumer, _, CRelease x =>
      Some {| buffer := buffer q; read_index := advance (read_index q); write_index := write_index q;
              prod := prod q; cons := CIdle; sent := sent q; received := received q ++ [x] |}
  | _, _, _ => None
  end.

(** [raw] is the uninitialised buffer. *)
Definition queue_new (raw : list T) : queue :=
  {| buffer := raw; read_index := first; write_index := first; prod := PIdle; cons := CIdle; sent := []; received := [] |}.

Inductive reachable (raw : list T) : queue -> Prop :=
  | reach_new : reachable raw (queue_new raw)
  | reach_step e q q' : reachable raw q -> step e q = Some q' -> reachable raw q'.

Definition run (es : list event) (q : queue) : option queue := foldl (fun o e => q ← o; step e q) (Some q) es.
End threads.
Arguments queue : clear implicits.
Arguments event : clear implicits.

(** ** Correctness *)

(** [enc n] is the index after [n] operations; at most [usable] elements fit. *)
Class RingLaws (G : Ring) (usable : Z) := {
  enc : Z -> Z;
  enc_first : enc 0 = first;
  usable_slots : 0 <= usable < slots;
  cycle : Z;
  usable_cycle : usable < cycle <= slots;
  enc_advance n : 0 <= n -> advance (enc n) = enc (n + 1);
  enc_slot n : 0 <= n -> slot_of (enc n) = n mod cycle;
  enc_full w r : 0 <= r <= w -> w <= r + usable -> is_full (enc w) (enc r) = bool_decide (w = r + usable);
  enc_empty w r : 0 <= r <= w -> w <= r + usable -> is_empty (enc r) (enc w) = bool_decide (w = r) }.

Section correctness.
Context {T : Type} {G : Ring} {usable : Z} `{L : !RingLaws G usable}.
Implicit Type q : queue T.

Abbreviation w_ q := (Z.of_nat (length (sent q))).
Abbreviation r_ q := (Z.of_nat (length (received q))).

(** The ring holds what was sent and not received. *)
Record wf q : Prop := {
  wf_write : write_index q = enc (w_ q);
  wf_read : read_index q = enc (r_ q);
  wf_slots : Z.of_nat (length (buffer q)) = slots;
  wf_order : r_ q <= w_ q <= r_ q + usable;
  wf_prefix : received q `prefix_of` sent q;
  wf_items : forall i x, r_ q <= Z.of_nat i -> sent q !! i = Some x -> at_slot (buffer q) (Z.of_nat i mod cycle) = Some x;
  wf_prod : match prod q with
            | PIdle => True
            | PCopy x => w_ q < r_ q + usable
            | PPublish x => w_ q < r_ q + usable /\ at_slot (buffer q) (w_ q mod cycle) = Some x
            end;
  wf_cons : match cons q with
            | CIdle => True
            | CCopy => r_ q < w_ q
            | CRelease x => sent q !! length (received q) = Some x
            end }.

Lemma at_slot_insert (l : list T) i j x :
  0 <= i -> 0 <= j < Z.of_nat (length l) -> at_slot (<[Z.to_nat j := x]> l) i = if decide (i = j) then Some x else at_slot l i.
Proof.
  intros Hi Hj. unfold at_slot. rewrite (proj2 (Z.leb_le _ _)) by lia. case_decide as E.
  - subst. by apply list_lookup_insert_eq; lia.
  - by apply list_lookup_insert_ne; lia.
Qed.

Lemma cycle_range n : 0 <= n mod cycle < slots.
Proof. pose proof usable_cycle. pose proof usable_slots. pose proof (Z.mod_pos_bound n cycle). lia. Qed.

(** Only the thread of a side changes its own part. *)
Lemma wf_set_prod q p :
  wf q ->
  match p with
  | PIdle => True | PCopy x => w_ q < r_ q + usable
  | PPublish x => w_ q < r_ q + usable /\ at_slot (buffer q) (w_ q mod cycle) = Some x
  end -> wf (set_prod p q).
Proof. intros [] H. by split. Qed.

Lemma wf_set_cons q c :
  wf q ->
  match c with CIdle => True | CCopy => r_ q < w_ q | CRelease x => sent q !! length (received q) = Some x end ->
  wf (set_cons c q).
Proof. intros [] H. by split. Qed.

(** The write into the free slot leaves the items alone. *)
Lemma wf_copy q x :
  wf q -> prod q = PCopy x ->
  wf {| buffer := <[Z.to_nat (slot_of (write_index q)) := x]> (buffer q); read_index := read_index q;
        write_index := write_index q; prod := PPublish x; cons := cons q; sent := sent q; received := received q |}.
Proof.
  intros Hq EP. pose proof usable_cycle as Hc. pose proof (wf_prod _ Hq) as HP. rewrite EP in HP.
  pose proof (wf_order _ Hq) as Ho. rewrite (wf_write _ Hq), enc_slot by lia.
  pose proof (cycle_range (w_ q)) as Hs. rewrite <-(wf_slots _ Hq) in Hs.
  destruct Hq as [Hw Hr Hsl _ Hp Hi _ HC]. split; simpl; auto.
  - by rewrite length_insert.
  - intros i y Hri Hy. rewrite at_slot_insert by (try apply cycle_range; lia).
    pose proof (lookup_lt_Some _ _ _ Hy). case_decide as E; [|by apply Hi].
    exfalso. apply (mod_near_ne (Z.of_nat i) (w_ q) cycle); [lia|done].
  - split; [done|]. rewrite at_slot_insert by (try apply cycle_range; lia). by rewrite decide_True.
Qed.

Lemma wf_publish q x :
  wf q -> prod q = PPublish x ->
  wf {| buffer := buffer q; read_index := read_index q; write_index := advance (write_index q);
        prod := PIdle; cons := cons q; sent := sent q ++ [x]; received := received q |}.
Proof.
  intros Hq EP. pose proof (wf_prod _ Hq) as HP. rewrite EP in HP. destruct HP as [HP Hx].
  pose proof (wf_order _ Hq) as Ho. destruct Hq as [Hw Hr Hsl _ Hp Hi _ HC].
  split; simpl; auto; rewrite ?length_app; simpl.
  - rewrite Hw, enc_advance by lia. f_equal. lia.
  - lia.
  - by apply prefix_app_r.
  - intros i y Hri [Hy|[Hle Hy]]%lookup_app_Some; [by apply Hi|].
    destruct (i - length (sent q))%nat eqn:Ei; simplify_eq/=. by replace i with (length (sent q)) by lia.
  - destruct (cons q); [done|lia|]. by apply lookup_app_l_Some.
Qed.

Lemma wf_release q x :
  wf q -> cons q = CRelease x ->
  wf {| buffer := buffer q; read_index := advance (read_index q); write_index := write_index q;
        prod := prod q; cons := CIdle; sent := sent q; received := received q ++ [x] |}.
Proof.
  intros Hq EC. pose proof (wf_cons _ Hq) as HC. rewrite EC in HC. pose proof (lookup_lt_Some _ _ _ HC) as Hlt.
  pose proof (wf_order _ Hq) as Ho. destruct Hq as [Hw Hr Hsl _ [l Hp] Hi HP _].
  split; simpl; auto; rewrite ?length_app; simpl.
  - rewrite Hr, enc_advance by lia. f_equal. lia.
  - lia.
  - rewrite Hp in HC |- *. rewrite lookup_app_r, Nat.sub_diag in HC by lia. destruct l as [|y l]; simplify_eq/=.
    exists l. by rewrite <-app_assoc.
  - intros i y Hri Hy. apply Hi; [lia|done].
  - destruct (prod q); [done|lia|]. destruct HP. split; [lia|done].
Qed.

Lemma step_wf e q q' : wf q -> step e q = Some q' -> wf q'.
Proof.
  intros Hq E. pose proof (wf_order _ Hq) as Ho.
  destruct e; unfold step in E; destruct (prod q) eqn:EP, (cons q) eqn:EC; try discriminate E.
  all: try (destruct (at_slot (buffer q) _) as [y|] eqn:Ey; simpl in E; [|discriminate E]).
  all: try (injection E as <-).
  all: try solve [ pose proof (wf_publish _ _ Hq EP) as H; by rewrite EC in H | pose proof (wf_copy _ _ Hq EP) as H; by rewrite EC in H
                 | pose proof (wf_release _ _ Hq EC) as H; by rewrite EP in H ].
  1-3: rewrite (wf_write _ Hq), (wf_read _ Hq), enc_full by lia; case_bool_decide; [done|]; apply wf_set_prod; [done|lia].
  1-3: rewrite (wf_write _ Hq), (wf_read _ Hq), enc_empty by lia; case_bool_decide; [done|]; apply wf_set_cons; [done|lia].
  all: apply wf_set_cons; [done|]; pose proof (wf_cons _ Hq) as HC; rewrite EC in HC;
    destruct (lookup_lt_is_Some_2 (sent q) (length (received q)) ltac:(lia)) as [z Hz]; rewrite Hz;
    rewrite (wf_read _ Hq), enc_slot, (wf_items _ Hq (length (received q)) z ltac:(lia) Hz) in Ey by lia; congruence.
Qed.

Lemma reachable_wf raw q : Z.of_nat (length raw) = slots -> reachable raw q -> wf q.
Proof.
  intros Hraw. induction 1 as [|e q q' _ IH E]; [|by eapply step_wf].
  pose proof usable_slots. split; simpl; auto; try lia; [by rewrite enc_first..|].
  intros i x _ Hx. by rewrite lookup_nil in Hx.
Qed.

(** Neither thread can be stopped in the middle of a call, nor touch memory outside. *)
Lemma wf_total q : wf q -> (forall x, prod q = PIdle -> step (Write_ x) q <> None) /\ (prod q <> PIdle -> step Producer q <> None) /\
  (cons q = CIdle -> step Read_ q <> None) /\ (cons q <> CIdle -> step Consumer q <> None).
Proof.
  intros Hq. pose proof (wf_order _ Hq) as Ho.
  assert (Hin : forall n, 0 <= n -> at_slot (buffer q) (slot_of (enc n)) <> None).
  { intros n Hn. rewrite enc_slot by done. pose proof (cycle_range n) as H. rewrite <-(wf_slots _ Hq) in H.
    unfold at_slot. rewrite (proj2 (Z.leb_le _ _)) by lia. rewrite lookup_ge_None. lia. }
  unfold step. split_and!.
  - intros x ->. by destruct (cons q).
  - pose proof (Hin (w_ q) ltac:(lia)) as H. rewrite <-(wf_write _ Hq) in H. intros Hp.
    destruct (prod q), (cons q); try done; by destruct (at_slot _ _).
  - intros ->. by destruct (prod q).
  - pose proof (Hin (r_ q) ltac:(lia)) as H. rewrite <-(wf_read _ Hq) in H. intros Hp.
    destruct (prod q), (cons q); try done; by destruct (at_slot _ _).
Qed.
End correctness.

(** *** The laws of the three rings *)

Lemma mod_step n m : 0 <= n -> 0 < m -> (n + 1) mod m = if n mod m + 1 =? m then 0 else n mod m + 1.
Proof.
  intros Hn Hm. rewrite <-Z.add_mod_idemp_l by lia. pose proof (Z.mod_pos_bound n m Hm).
  destruct (Z.eqb_spec (n mod m + 1) m) as [->|]; [apply Z.mod_same; lia|apply Z.mod_small; lia].
Qed.

(** Two counters less than a cycle apart are equal when their indices are. *)
Lemma mod_eq_near w r m : 0 <= r <= w -> w < r + m -> w mod m = r mod m -> w = r.
Proof. intros H1 H2 E. destruct (Z.eq_dec w r) as [|Hne]; [done|]. exfalso. apply (mod_near_ne r w m); [lia|done]. Qed.

(** Both indices wrap at [m], one slot stays free. *)
Lemma wrap_full w r m : 1 < m -> 0 <= r <= w -> w <= r + (m - 1) ->
  ((w + 1) mod m =? r mod m) = bool_decide (w = r + (m - 1)).
Proof.
  intros Hm H1 H2. apply eq_true_iff_eq. rewrite Z.eqb_eq, bool_decide_eq_true. split; [|intros ->].
  - intros E. destruct (Z.eq_dec w (r + (m - 1))) as [|Hne]; [done|].
    assert (w + 1 = r) by (apply (mod_eq_near _ _ m); lia || done). lia.
  - replace (r + (m - 1) + 1) with (r + 1 * m) by lia. apply Z.mod_add. lia.
Qed.

Lemma wrap_empty w r m : 1 < m -> 0 <= r <= w -> w <= r + (m - 1) -> (r mod m =? w mod m) = bool_decide (w = r).
Proof.
  intros Hm H1 H2. apply eq_true_iff_eq. rewrite Z.eqb_eq, bool_decide_eq_true. split; [|by intros ->].
  intros E. by apply (mod_eq_near _ _ m); [lia..|].
Qed.

#[export] Instance pcq_laws size_ (H : 2 <= size_ < 2 ^ 32) : RingLaws (ProducerConsumerFreeQueue size_) (size_ - 1).
Proof.
  assert (Hn : forall n, 0 <= n -> pcq_next size_ (n mod size_) = (n + 1) mod size_).
  { intros n Hn. unfold pcq_next. pose proof (Z.mod_pos_bound n size_ ltac:(lia)).
    rewrite wrap_small by (unfold is_uint; lia). by rewrite mod_step by lia. }
  refine {| enc n := n mod size_; cycle := size_ |}; simpl; try lia; auto.
  - intros w r H1 H2. unfold pcq_full. rewrite negb_involutive, Hn by lia. apply wrap_full; lia.
  - intros w r H1 H2. unfold pcq_empty. apply wrap_empty; lia.
Defined.

#[export] Instance ring_queue_laws bufferSize (H : 2 <= bufferSize < 2 ^ 31) : RingLaws (RingQueue bufferSize) (bufferSize - 1).
Proof.
  assert (Hn : forall n, 0 <= n -> ring_next bufferSize (n mod bufferSize) = (n + 1) mod bufferSize).
  { intros n Hn. unfold ring_next. pose proof (Z.mod_pos_bound n bufferSize ltac:(lia)).
    rewrite Z.rem_mod_nonneg by lia. apply Z.add_mod_idemp_l. lia. }
  refine {| enc n := n mod bufferSize; cycle := bufferSize |}; simpl; try lia; auto.
  - intros w r H1 H2. unfold ring_full. fold (ring_next bufferSize (w mod bufferSize)). rewrite Hn by lia. apply wrap_full; lia.
  - intros w r H1 H2. unfold ring_empty. apply wrap_empty; lia.
Defined.

Lemma mask_mod k z : 0 <= k < 64 -> u64 z .& mask (2 ^ k) = z mod 2 ^ k.
Proof.
  intros Hk. unfold mask. rewrite land_mask by done. unfold wrap. symmetry. apply Znumtheory.Zmod_div_mod; [by apply Z.pow_pos_nonneg; lia|done|].
  exists (2 ^ (64 - k)). rewrite <-Z.pow_add_r by lia. f_equal. lia.
Qed.

Lemma u64_sub a b : u64 (u64 a - u64 b) = u64 (a - b).
Proof. unfold wrap. by rewrite <-Zminus_mod. Qed.
Lemma u64_succ a : u64 (u64 a + 1) = u64 (a + 1).
Proof. unfold wrap. by rewrite Zplus_mod_idemp_l. Qed.

#[export] Instance spsc_bounded_laws k (H : 0 <= k < 63) : RingLaws (SPSCBoundedQueue (2 ^ k)) (2 ^ k - 1).
Proof.
  pose proof (Z.pow_pos_nonneg 2 k). refine {| enc n := u64 n; cycle := 2 ^ k |}; simpl; try lia.
  - done.
  - intros n _. apply u64_succ.
  - intros n _. apply mask_mod. lia.
  - intros w r H1 H2. unfold produce_full. rewrite u64_succ, u64_sub, mask_mod by lia. rewrite Z.geb_leb.
    apply eq_true_iff_eq. rewrite negb_true_iff, Z.leb_gt, bool_decide_eq_true.
    rewrite <-(Z_mod_plus_full _ 1). rewrite Z.mul_1_l. destruct (Z.eq_dec w (r + (2 ^ k - 1))) as [->|Hne].
    + replace (r - (r + (2 ^ k - 1) + 1) + 2 ^ k) with 0 by lia. rewrite Z.mod_0_l; lia.
    + rewrite Z.mod_small; lia.
  - intros w r H1 H2. unfold consume_empty. rewrite u64_sub, mask_mod by lia. rewrite Z.geb_leb.
    apply eq_true_iff_eq. rewrite negb_true_iff, Z.leb_gt, bool_decide_eq_true. rewrite Z.mod_small; lia.
Defined.

(** ** Claims *)

(** C31. The three single-producer, single-consumer queues ([ProducerConsumerFreeQueue]
    and [RingQueue] of at least 2 slots, [SPSCBoundedQueue] of a power of two): in every
    interleaving of the two threads, what was read is a prefix of what was written, at
    most [usable] elements, one less than the slots, are between; no access leaves the
    buffer and no thread gets stuck in a call; the slot the producer copies into is not the one
    the consumer copies out of; a write is refused only when [usable] elements are
    inside and a read only when there is none. *)
Theorem spsc_fifo {T} (G : Ring) (usable : Z) (raw : list T) (q : queue T)
    (HG : (exists n, 2 <= n < 2 ^ 32 /\ G = ProducerConsumerFreeQueue n /\ usable = n - 1) \/
          (exists n, 2 <= n < 2 ^ 31 /\ G = RingQueue n /\ usable = n - 1) \/
          (exists k, 0 <= k < 63 /\ G = SPSCBoundedQueue (2 ^ k) /\ usable = 2 ^ k - 1))
    (Hraw : Z.of_nat (length raw) = slots) (Hr : reachable raw q) :
  let inside := Z.of_nat (length (sent q)) - Z.of_nat (length (received q)) in
  received q `prefix_of` sent q /\ 0 <= inside <= usable /\
  (forall x, prod q = PIdle -> step (Write_ x) q = Some (if bool_decide (inside = usable) then q else set_prod (PCopy x) q)) /\
  (cons q = CIdle -> step Read_ q = Some (if bool_decide (inside = 0) then q else set_cons CCopy q)) /\
  (prod q <> PIdle -> step Producer q <> None) /\ (cons q <> CIdle -> step Consumer q <> None) /\
  (forall x, prod q = PCopy x -> cons q = CCopy -> slot_of (write_index q) <> slot_of (read_index q)).
Proof.
  assert (inhabited (RingLaws G usable)) as [L].
  { destruct HG as [(n & Hn & -> & ->)|[(n & Hn & -> & ->)|(k & Hk & -> & ->)]]; constructor;
      [by apply pcq_laws|by apply ring_queue_laws|by apply spsc_bounded_laws]. }
  pose proof (reachable_wf raw q Hraw Hr) as Hq. pose proof (wf_order _ Hq) as Ho. cbn zeta.
  destruct (wf_total q Hq) as (_ & H2 & _ & H4). split_and!; auto; try lia; [apply (wf_prefix _ Hq)|..].
  - intros x EP. unfold step. rewrite EP. destruct (cons q); rewrite (wf_write _ Hq), (wf_read _ Hq), enc_full by lia;
      repeat case_bool_decide; done || lia.
  - intros EC. unfold step. rewrite EC. destruct (prod q); rewrite (wf_write _ Hq), (wf_read _ Hq), enc_empty by lia;
      repeat case_bool_decide; done || lia.
  - intros x EP EC. rewrite (wf_write _ Hq), (wf_read _ Hq), !enc_slot by lia. apply not_eq_sym, mod_near_ne.
    pose proof (wf_prod _ Hq) as HP. pose proof (wf_cons _ Hq) as HC. rewrite EP in HP. rewrite EC in HC.
    pose proof usable_cycle. lia.
Qed.

(** Three writes and two reads around a ring of three slots. *)
Definition three_slots : list (event Z) :=
  [Write_ 10; Producer; Producer; Write_ 20; Producer; Read_; Producer; Consumer; Write_ 30; Consumer; Write_ 30;
   Producer; Read_; Producer; Consumer; Consumer].

Lemma run_reachable {T} `{G : Ring} (raw : list T) es q : run es (queue_new raw) = Some q -> reachable raw q.
Proof.
  revert q. induction es as [|e es IH] using rev_ind; intros q; unfold run.
  - intros [= <-]. constructor.
  - rewrite foldl_app. simpl. destruct (foldl _ _ _) as [q1|] eqn:E; simpl; [|done]. intros Es.
    econstructor; [|done]. by apply IH.
Qed.

Lemma spsc_fifo_witness :
  exists q, run (G:=ProducerConsumerFreeQueue 3) three_slots (queue_new (G:=ProducerConsumerFreeQueue 3) [0; 0; 0]) = Some q /\
    received q = [10; 20] /\ received q `prefix_of` sent q.
Proof.
  destruct (run (G:=ProducerConsumerFreeQueue 3) three_slots (queue_new (G:=ProducerConsumerFreeQueue 3) [0; 0; 0])) as [q|] eqn:E;
    [|by vm_compute in E].
  exists q. split; [done|]. split; [by vm_compute in E; injection E as <-|].
  destruct (spsc_fifo (ProducerConsumerFreeQueue 3) 2 [0; 0; 0] q) as [H _]; [|reflexivity|by eapply run_reachable|exact H].
  left. exists 3. split; [lia|]. by split.
Defined.

(** [sizeGuess], [isEmpty], [isFull] and [can_consume_size] at rest. *)
Lemma sizes_at_rest n w r :
  2 <= n < 2 ^ 30 -> 0 <= r <= w -> w <= r + (n - 1) ->
  sizeGuess n (r mod n) (w mod n) = w - r /\ can_consume_size n (r mod n) (w mod n) = w - r /\
  isEmpty (r mod n) (w mod n) = bool_decide (w = r) /\ isFull n (r mod n) (w mod n) = bool_decide (w = r + (n - 1)).
Proof.
  intros Hn H1 H2. pose proof (Z.mod_pos_bound w n ltac:(lia)). pose proof (Z.mod_pos_bound r n ltac:(lia)).
  assert (Hd : w mod n - r mod n = w - r \/ w mod n - r mod n = w - r - n).
  { pose proof (Z.mod_small (w - r) n ltac:(lia)) as E. rewrite Zminus_mod in E.
    destruct (Z.le_gt_cases (r mod n) (w mod n)).
    - left. by rewrite Z.mod_small in E by lia.
    - right. rewrite <-(Z_mod_plus_full _ 1), Z.mod_small in E by lia. lia. }
  assert (Hi : forall z, - 2 ^ 31 <= z < 2 ^ 31 -> i32 (u32 z) = z).
  { intros z Hz. unfold swrap, wrap. rewrite Zplus_mod_idemp_l, Z.mod_small by lia. lia. }
  split_and!.
  - unfold sizeGuess. rewrite Hi by lia. destruct (Z.ltb_spec (w mod n - r mod n) 0).
    + rewrite Hi, wrap_small by (unfold is_uint; lia). lia.
    + rewrite wrap_small by (unfold is_uint; lia). lia.
  - unfold can_consume_size. rewrite Z.rem_mod_nonneg by lia. destruct Hd as [Hd|Hd].
    + replace (w mod n + n - r mod n) with (w - r + 1 * n) by lia. rewrite Z.mod_add, Z.mod_small by lia. lia.
    + replace (w mod n + n - r mod n) with (w - r) by lia. rewrite Z.mod_small; lia.
  - by apply wrap_empty; lia.
  - unfold isFull. rewrite <-(wrap_full w r n) by lia. unfold pcq_next. rewrite wrap_small by (unfold is_uint; lia).
    rewrite mod_step by lia. by destruct (_ =? r mod n).
Qed.
