(* ===== verification/WorkStealing.v ===== *)
(** * WorkStealing: the work-stealing queue of [src/util/lock_free_util.h]

    One owner pushes and pops at the bottom, any number of thieves take from the top.
    Every access to [_top], [_bottom] and the buffer that another thread can observe is a
    step; the threads interleave freely (sequential consistency: the code asks for it
    with its fence and its compare-and-swap). *)

From S2P Require Import Prelude.
#[local] Open Scope Z_scope.

Section queue.
Context {T : Type}.

(** The owner between two of its accesses. *)
Inductive owner :=
  | OIdle
  | OPushCopy (x : T) (b : Z)      (** about to write the slot *)
  | OPushPublish (x : T) (b : Z)   (** about to store [_bottom] *)
  | OPopStore (b : Z)              (** about to store [b - 1] *)
  | OPopLoad (b : Z)               (** about to load [_top] again *)
  | OPopRead (b t : Z)             (** about to read the slot *)
  | OPopCas (b t : Z) (val : T)    (** about to compete for the last element *)
  | OPopRestore (b : Z) (popped : option T).
(** A call of [steal]. *)
Inductive thief :=
  | TStart
  | TTest (t : Z)                  (** before the first test *)
  | TLoop (t : Z)                  (** at the head of the loop *)
  | TRead (t : Z)
  | TCas (t : Z) (val : T)
  | TDone (stolen : option T).

(** The shared memory, the threads, and what the calls that have ended did: the values
    pushed, popped and stolen, in order. *)
Record state := {
  _bottom : Z; _top : Z; _capacity : Z; _buffer : list T;
  own : owner; thieves : list thief;
  pushed : list T; popped_ : list T; stolen_ : list T }.

Definition set_own (o : owner) (q : state) : state :=
  {| _bottom := _bottom q; _top := _top q; _capacity := _capacity q; _buffer := _buffer q; own := o;
     thieves := thieves q; pushed := pushed q; popped_ := popped_ q; stolen_ := stolen_ q |}.
Definition set_bottom (b : Z) (q : state) : state :=
  {| _bottom := b; _top := _top q; _capacity := _capacity q; _buffer := _buffer q; own := own q;
     thieves := thieves q; pushed := pushed q; popped_ := popped_ q; stolen_ := stolen_ q |}.
Definition set_top (t : Z) (q : state) : state :=
  {| _bottom := _bottom q; _top := t; _capacity := _capacity q; _buffer := _buffer q; own := own q;
     thieves := thieves q; pushed := pushed q; popped_ := popped_ q; stolen_ := stolen_ q |}.
Definition set_buffer (l : list T) (q : state) : state :=
  {| _bottom := _bottom q; _top := _top q; _capacity := _capacity q; _buffer := l; own := own q;
     thieves := thieves q; pushed := pushed q; popped_ := popped_ q; stolen_ := stolen_ q |}.
Definition set_thief (i : nat) (s : thief) (q : state) : state :=
  {| _bottom := _bottom q; _top := _top q; _capacity := _capacity q; _buffer := _buffer q; own := own q;
     thieves := <[i := s]> (thieves q); pushed := pushed q; popped_ := popped_ q; stolen_ := stolen_ q |}.
(** The results of a call. *)
Definition did_push (x : T) (q : state) : state :=
  {| _bottom := _bottom q; _top := _top q; _capacity := _capacity q; _buffer := _buffer q; own := own q;
     thieves := thieves q; pushed := pushed q ++ [x]; popped_ := popped_ q; stolen_ := stolen_ q |}.
Definition did_pop (x : T) (q : state) : state :=
  {| _bottom := _bottom q; _top := _top q; _capacity := _capacity q; _buffer := _buffer q; own := own q;
     thieves := thieves q; pushed := pushed q; popped_ := popped_ q ++ [x]; stolen_ := stolen_ q |}.
Definition did_steal (x : T) (q : state) : state :=
  {| _bottom := _bottom q; _top := _top q; _capacity := _capacity q; _buffer := _buffer q; own := own q;
     thieves := thieves q; pushed := pushed q; popped_ := popped_ q; stolen_ := stolen_ q ++ [x] |}.

(** The constructor and [init]; [raw] is the new array, [None] when [new] fails. *)
Definition WorkStealingQueue_new : state :=
  {| _bottom := 1; _top := 1; _capacity := 0; _buffer := []; own := OIdle; thieves := [];
     pushed := []; popped_ := []; stolen_ := [] |}.
Definition init (capacity : Z) (raw : option (list T)) (q : state) : Z * state :=
  if negb (_capacity q =? 0) then (-1, q)
  else if capacity =? 0 then (-1, q)
  else if negb (capacity .& u64 (capacity - 1) =? 0) then (-1, q)
  else match raw with
       | None => (-1, q)
       | Some buffer =>
           (0, {| _bottom := _bottom q; _top := _top q; _capacity := capacity; _buffer := buffer; own := own q;
                  thieves := thieves q; pushed := pushed q; popped_ := popped_ q; stolen_ := stolen_ q |})
       end.

(** The slot of an index. *)
Definition index (i : Z) (q : state) : nat := Z.to_nat (i .& u64 (_capacity q - 1)).
Definition slot (i : Z) (q : state) : option T := _buffer q !! index i q.

(** [compare_exchange_strong] on [_top]: whether it succeeded, and the value found. *)
Definition cas_top (expected desired : Z) (q : state) : bool * Z * state :=
  if _top q =? expected then (true, expected, set_top desired q) else (false, _top q, q).

(** [push]: the loads, the slot, the publication. *)
Definition push_begin (x : T) (q : state) : state :=
  let b := _bottom q in
  let t := _top q in
  if b >=? u64 (t + _capacity q) then q else set_own (OPushCopy x b) q.
Definition push_copy (x : T) (b : Z) (q : state) : option state :=
  _ ← slot b q; Some (set_own (OPushPublish x b) (set_buffer (<[index b q := x]> (_buffer q)) q)).
Definition push_publish (x : T) (b : Z) (q : state) : state :=
  did_push x (set_own OIdle (set_bottom (u64 (b + 1)) q)).

(** [pop]. *)
Definition pop_begin (q : state) : state :=
  let b := _bottom q in
  let t := _top q in
  if t >=? b then q else set_own (OPopStore b) q.
Definition pop_store (b : Z) (q : state) : state := set_own (OPopLoad b) (set_bottom (u64 (b - 1)) q).
Definition pop_load (b : Z) (q : state) : state :=
  let t := _top q in
  if t >? u64 (b - 1) then set_own (OPopRestore b None) q else set_own (OPopRead b t) q.
Definition pop_read (b t : Z) (q : state) : option state :=
  val ← slot (u64 (b - 1)) q;
  Some (if negb (t =? u64 (b - 1)) then did_pop val (set_own OIdle q) else set_own (OPopCas b t val) q).
Definition pop_cas (b t : Z) (val : T) (q : state) : state :=
  let '(popped, _, q) := cas_top t (u64 (t + 1)) q in
  set_own (OPopRestore b (if popped then Some val else None)) q.
Definition pop_restore (b : Z) (popped : option T) (q : state) : state :=
  let q := set_own OIdle (set_bottom b q) in
  match popped with Some val => did_pop val q | None => q end.

(** [steal]. *)
Definition steal_start (i : nat) (q : state) : state := set_thief i (TTest (_top q)) q.
Definition steal_test (i : nat) (t : Z) (q : state) : state :=
  let b := _bottom q in if t >=? b then set_thief i (TDone None) q else set_thief i (TLoop t) q.
Definition steal_loop (i : nat) (t : Z) (q : state) : state :=
  let b := _bottom q in if t >=? b then set_thief i (TDone None) q else set_thief i (TRead t) q.
Definition steal_read (i : nat) (t : Z) (q : state) : option state :=
  val ← slot t q; Some (set_thief i (TCas t val) q).
Definition steal_cas (i : nat) (t : Z) (val : T) (q : state) : state :=
  let '(ok, t, q) := cas_top t (u64 (t + 1)) q in
  if ok then did_steal val (set_thief i (TDone (Some val)) q) else set_thief i (TLoop t) q.

Inductive event := Push (x : T) | Pop | Owner | Steal | Thief (i : nat).
Definition step (e : event) (q : state) : option state :=
  match e with
  | Push x => match own q with OIdle => Some (push_begin x q) | _ => None end
  | Pop => match own q with OIdle => Some (pop_begin q) | _ => None end
  | Owner =>
      match own q with
      | OIdle => None
      | OPushCopy x b => push_copy x b q
      | OPushPublish x b => Some (push_publish x b q)
      | OPopStore b => Some (pop_store b q)
      | OPopLoad b => Some (pop_load b q)
      | OPopRead b t => pop_read b t q
      | OPopCas b t val => Some (pop_cas b t val q)
      | OPopRestore b popped => Some (pop_restore b popped q)
      end
  | Steal =>
      Some {| _bottom := _bottom q; _top := _top q; _capacity := _capacity q; _buffer := _buffer q; own := own q;
              thieves := thieves q ++ [TStart]; pushed := pushed q; popped_ := popped_ q; stolen_ := stolen_ q |}
  | Thief i =>
      s ← thieves q !! i;
      match s with
      | TStart => Some (steal_start i q)
      | TTest t => Some (steal_test i t q)
      | TLoop t => Some (steal_loop i t q)
      | TRead t => steal_read i t q
      | TCas t val => Some (steal_cas i t val q)
      | TDone _ => None
      end
  end.

Definition volatile_size (q : state) : Z :=
  let b := _bottom q in let t := _top q in if b <=? t then 0 else u64 (b - t).
Definition capacity (q : state) : Z := _capacity q.

Inductive reachable (q0 : state) : state -> Prop :=
  | reach_init : reachable q0 q0
  | reach_step e q q' : reachable q0 q -> step e q = Some q' -> reachable q0 q'.

Definition run (es : list event) (q : state) : option state := foldl (fun o e => q ← o; step e q) (Some q) es.
End queue.
Arguments state : clear implicits.
Arguments event : clear implicits.
Arguments owner : clear implicits.
Arguments thief : clear implicits.
(** ** The specification: a double-ended list *)

Inductive action (T : Type) := Pushed (x : T) | Popped (x : T) | Stolen (x : T).
Arguments Pushed {T} _.
Arguments Popped {T} _.
Arguments Stolen {T} _.

Section proofs.
Context {T : Type}.
Implicit Type q : state T.
Implicit Type L P : list T.

(** Pushed and popped at the end, stolen from the front. *)
Inductive deque_run : list (action T) -> list T -> Prop :=
  | run_nil : deque_run [] []
  | run_push log L x : deque_run log L -> deque_run (log ++ [Pushed x]) (L ++ [x])
  | run_pop log L x : deque_run log (L ++ [x]) -> deque_run (log ++ [Popped x]) L
  | run_steal log L x : deque_run log (x :: L) -> deque_run (log ++ [Stolen x]) L.

Definition pushes (log : list (action T)) : list T := omap (fun a => match a with Pushed x => Some x | _ => None end) log.
Definition pops (log : list (action T)) : list T := omap (fun a => match a with Popped x => Some x | _ => None end) log.
Definition steals (log : list (action T)) : list T := omap (fun a => match a with Stolen x => Some x | _ => None end) log.

Lemma deque_run_permutation log L : deque_run log L -> pushes log ≡ₚ pops log ++ steals log ++ L.
Proof.
  induction 1 as [|log L x _ IH|log L x _ IH|log L x _ IH]; [done|..]; unfold pushes, pops, steals in *;
    rewrite !omap_app; simpl; rewrite ?app_nil_r, IH; solve_Permutation.
Qed.

(** ** The invariant *)

Context (k : Z) (Hk : 0 <= k < 63).
Abbreviation cap := (2 ^ k).

(** What the owner knows where it is: [L] is the deque, [P] what it has taken and not yet
    returned. *)
Definition own_ok q L P : Prop :=
  let tail := _top q + Z.of_nat (length L) in
  match own q with
  | OIdle => _bottom q = tail /\ P = []
  | OPushCopy x b => _bottom q = b /\ b = tail /\ Z.of_nat (length L) < cap /\ P = []
  | OPushPublish x b => _bottom q = b /\ b = tail /\ Z.of_nat (length L) < cap /\ P = [] /\ slot b q = Some x
  | OPopStore b => _bottom q = b /\ b = tail /\ P = [] /\ 1 < b
  | OPopLoad b => _bottom q = b - 1 /\ b = tail /\ P = [] /\ 1 < b
  | OPopRead b t => _bottom q = b - 1 /\ 1 < b <= 1 + Z.of_nat (length (pushed q)) /\
      ((t < b - 1 /\ (exists x, slot (b - 1) q = Some x /\ P = [x]) /\ b - 1 = tail) \/
       (t = b - 1 /\ t <= _top q /\ P = [] /\ b = tail))
  | OPopCas b t val => _bottom q = b - 1 /\ t = b - 1 /\ t <= _top q /\ P = [] /\ b = tail /\ 1 < b /\ (_top q = t -> L = [val])
  | OPopRestore b popped => _bottom q = b - 1 /\ b = tail /\ L = [] /\ 1 < b /\ P = match popped with Some x => [x] | None => [] end
  end.

Definition thief_ok q L (s : thief T) : Prop :=
  match s with
  | TStart | TDone _ => True
  | TTest t | TLoop t => 1 <= t <= _top q
  | TRead t => 1 <= t <= _top q /\ (t = _top q -> L <> [])
  | TCas t val => 1 <= t <= _top q /\ (t = _top q -> head L = Some val)
  end.

Record wf q L P : Prop := {
  wf_cap : _capacity q = cap;
  wf_length : Z.of_nat (length (_buffer q)) = cap;
  wf_top : 1 <= _top q;
  wf_tail : _top q + Z.of_nat (length L) <= 1 + Z.of_nat (length (pushed q));
  wf_fits : Z.of_nat (length L) <= cap;
  wf_slots : forall j x, L !! j = Some x -> slot (_top q + Z.of_nat j) q = Some x;
  wf_own : own_ok q L P;
  wf_thieves : Forall (thief_ok q L) (thieves q) }.

(** The calls so far, in an order that explains them. *)
Definition explained q : Prop :=
  exists log L P, wf q L P /\ deque_run log L /\ pushes log = pushed q /\ pops log = popped_ q ++ P /\ steals log = stolen_ q.

(** *** Slots *)

Lemma index_eq q i : _capacity q = cap -> index i q = Z.to_nat (i mod cap).
Proof. intros E. unfold index. by rewrite E, land_mask by lia. Qed.

Lemma cap_pos : 0 < cap.
Proof. apply Z.pow_pos_nonneg; lia. Qed.

Lemma slot_in q i : _capacity q = cap -> Z.of_nat (length (_buffer q)) = cap -> slot i q <> None.
Proof.
  intros E Hl. unfold slot. rewrite index_eq, lookup_ge_None by done. pose proof (Z.mod_pos_bound i cap cap_pos). lia.
Qed.

Lemma ws_slot_write q b i x :
  _capacity q = cap -> Z.of_nat (length (_buffer q)) = cap ->
  let q' := set_buffer (<[index b q := x]> (_buffer q)) q in
  slot b q' = Some x /\ (i < b < i + cap -> slot i q' = slot i q).
Proof.
  intros E Hl q'. unfold slot. assert (_capacity q' = cap) as E' by done.
  rewrite !(index_eq q' _ E'), !(index_eq q _ E). simpl. rewrite (index_eq q _ E).
  pose proof (Z.mod_pos_bound b cap cap_pos). pose proof (Z.mod_pos_bound i cap cap_pos). split.
  - apply list_lookup_insert_eq. lia.
  - intros Hb. apply list_lookup_insert_ne. intros Hne. apply (mod_near_ne i b cap Hb). lia.
Qed.

(** *** Small numbers do not wrap *)

Lemma u64_small z : 0 <= z < 2 ^ 64 -> u64 z = z.
Proof. apply wrap_small. Qed.

Lemma tail_bound q L P : wf q L P -> Z.of_nat (length (pushed q)) < 2 ^ 63 -> _top q + Z.of_nat (length L) <= 2 ^ 63.
Proof. intros H Hp. pose proof (wf_tail _ _ _ H). lia. Qed.

(** The thieves only see the top and the deque grow at its end. *)
Lemma thief_ok_grow q q' L L' s :
  _top q' = _top q -> (L <> [] -> L' <> [] /\ head L' = head L) -> thief_ok q L s -> thief_ok q' L' s.
Proof.
  intros E HL. unfold thief_ok. rewrite E. destruct s as [|t|t|t|t val|]; auto; intros [H1 H2]; split; auto.
  - intros Ht. by apply HL, H2.
  - intros Ht. specialize (H2 Ht). destruct L; [done|]. by destruct HL as [_ ->].
Qed.

(** ... or the front taken. *)
Lemma thief_ok_advance q q' L L' s : _top q' = _top q + 1 -> thief_ok q L s -> thief_ok q' L' s.
Proof.
  intros E. unfold thief_ok. rewrite E. destruct s as [|t|t|t|t val|]; auto; try lia; intros [H1 H2]; split; try lia; intros; lia.
Qed.

(** *** The steps *)

Lemma wf_same q q' L P P' :
  wf q L P -> _top q' = _top q -> _capacity q' = _capacity q -> _buffer q' = _buffer q -> thieves q' = thieves q ->
  (length (pushed q) <= length (pushed q'))%nat -> own_ok q' L P' -> wf q' L P'.
Proof.
  intros [] Et Ec Eb Eth Ep Ho. assert (Es : forall i, slot i q' = slot i q) by (intros; unfold slot, index; congruence).
  split; rewrite ?Et, ?Ec, ?Eb; auto; try lia.
  - intros. rewrite Es. eauto.
  - rewrite Eth. eapply Forall_impl; [|done]. intros s. apply thief_ok_grow; [done|by split].
Qed.

Lemma wf_set_thief q i s L P : wf q L P -> thief_ok q L s -> wf (set_thief i s q) L P.
Proof.
  intros [] Hs. split; auto; simpl. apply Forall_lookup. intros j s' Hj. rewrite Forall_lookup in wf_thieves0.
  apply list_lookup_insert_Some in Hj as [(_ & <- & _)|[_ Hj]]; [done|]. by apply (wf_thieves0 _ _ Hj).
Qed.

Lemma wf_thief q i s L P : wf q L P -> thieves q !! i = Some s -> thief_ok q L s.
Proof. intros [] Hi. rewrite Forall_lookup in wf_thieves0. eauto. Qed.

(** The front taken: by a thief, or by the owner when it is also the last. *)
Lemma wf_advance q q' L P P' x :
  wf q (x :: L) P -> _top q' = _top q + 1 -> _capacity q' = _capacity q -> _buffer q' = _buffer q ->
  Forall (thief_ok q' L) (thieves q') -> pushed q' = pushed q -> own_ok q' L P' -> wf q' L P'.
Proof.
  intros [] Et Ec Eb Hth Ep Ho. assert (Es : forall i, slot i q' = slot i q) by (intros; unfold slot, index; congruence).
  simpl in *. split; rewrite ?Et, ?Ec, ?Eb, ?Ep; auto; try lia.
  intros j y Hj. rewrite Es. rewrite <-(wf_slots0 (S j) y Hj). f_equal. lia.
Qed.

(** The last taken by the owner, which cannot be the first. *)
Lemma wf_drop_last q q' L P P' x :
  wf q (L ++ [x]) P -> L <> [] -> _top q' = _top q -> _capacity q' = _capacity q -> _buffer q' = _buffer q ->
  thieves q' = thieves q -> pushed q' = pushed q -> own_ok q' L P' -> wf q' L P'.
Proof.
  intros [] HL Et Ec Eb Eth Ep Ho. assert (Es : forall i, slot i q' = slot i q) by (intros; unfold slot, index; congruence).
  rewrite length_app in *. simpl in *. split; rewrite ?Et, ?Ec, ?Eb, ?Ep; auto; try lia.
  - intros j y Hj. rewrite Es. apply wf_slots0. by apply lookup_app_l_Some.
  - rewrite Eth. eapply Forall_impl; [|done]. intros s. apply thief_ok_grow; [done|]. intros _. split; [done|]. by destruct L.
Qed.

Lemma push_copy_wf q L P x b q' :
  wf q L P -> own q = OPushCopy x b -> push_copy x b q = Some q' -> wf q' L P.
Proof.
  intros Hq Eo E. unfold push_copy in E. destruct (slot b q); simpl in E; [|done]. injection E as <-.
  pose proof (wf_own _ _ _ Hq) as Ho. unfold own_ok in Ho. rewrite Eo in Ho. destruct Ho as (Hb & Ht & Hf & ->).
  destruct Hq. pose proof (fun i => ws_slot_write q b i x wf_cap0 wf_length0) as Hs. cbn zeta in Hs. split; simpl; auto.
  - by rewrite length_insert.
  - intros j y Hj. change (slot (_top q + Z.of_nat j) (set_buffer (<[index b q:=x]> (_buffer q)) q) = Some y).
    pose proof (lookup_lt_Some _ _ _ Hj). rewrite (proj2 (Hs _)) by lia. by apply wf_slots0.
  - unfold own_ok. simpl. split_and!; auto. exact (proj1 (Hs 0)).
Qed.

Lemma push_publish_wf q L P x b :
  wf q L P -> own q = OPushPublish x b -> Z.of_nat (length (pushed q)) < 2 ^ 63 -> wf (push_publish x b q) (L ++ [x]) P.
Proof.
  intros Hq Eo Hp. pose proof (tail_bound _ _ _ Hq Hp). pose proof (wf_top _ _ _ Hq).
  pose proof (wf_own _ _ _ Hq) as Ho. unfold own_ok in Ho. rewrite Eo in Ho. destruct Ho as (Hb & Ht & Hf & -> & Hx).
  unfold push_publish. rewrite u64_small by lia. destruct Hq. split; simpl; rewrite ?length_app; simpl; auto; try lia.
  - intros j y [Hj|[Hle Hj]]%lookup_app_Some; [by apply wf_slots0|].
    destruct (j - length L)%nat eqn:Ej; simplify_eq/=. by replace (_top q + Z.of_nat j) with (_bottom q) by lia.
  - unfold own_ok. simpl. rewrite length_app. simpl. split; [lia|done].
  - eapply Forall_impl; [|done]. intros s. apply thief_ok_grow; [done|]. intros HL. by destruct L.
Qed.

Lemma pop_load_wf q L P b :
  wf q L P -> own q = OPopLoad b -> Z.of_nat (length (pushed q)) < 2 ^ 63 ->
  P = [] /\ ((wf (pop_load b q) L []) \/ exists L' x, L = L' ++ [x] /\ wf (pop_load b q) L' [x]).
Proof.
  intros Hq Eo Hp. pose proof (tail_bound _ _ _ Hq Hp). pose proof (wf_top _ _ _ Hq). pose proof (wf_tail _ _ _ Hq).
  pose proof (wf_own _ _ _ Hq) as Ho. unfold own_ok in Ho. rewrite Eo in Ho. destruct Ho as (Hb & Ht & -> & Hb1).
  split; [done|]. unfold pop_load. rewrite u64_small by lia. rewrite Z.gtb_ltb. destruct (Z.ltb_spec (b - 1) (_top q)) as [Hlt|Hge].
  - left. apply (wf_same q _ _ []); auto. unfold own_ok. simpl. split_and!; auto. apply nil_length_inv. lia.
  - destruct (Z.eq_dec (_top q) (b - 1)) as [Heq|Hne].
    + left. apply (wf_same q _ _ []); auto. unfold own_ok. simpl. split_and!; auto; [lia|]. right. split_and!; auto. lia.
    + right. assert (HL : L <> []) by (intros ->; simpl in *; lia). destruct (exists_last HL) as (L' & x & ->). exists L', x. split; [done|].
      rewrite length_app in *. simpl in *. eapply wf_drop_last; eauto; [by intros ->; simpl in *; lia|].
      unfold own_ok. simpl. split_and!; auto; [lia|]. left. split_and!; [lia| |lia]. exists x. split; [|done].
      change (slot (b - 1) q = Some x). rewrite <-(wf_slots _ _ _ Hq (length L') x) by (by rewrite list_lookup_middle). f_equal. lia.
Qed.

Lemma pop_read_wf q L P b t q' :
  wf q L P -> own q = OPopRead b t -> Z.of_nat (length (pushed q)) < 2 ^ 63 -> pop_read b t q = Some q' ->
  wf q' L [] /\ popped_ q' = popped_ q ++ P /\ pushed q' = pushed q /\ stolen_ q' = stolen_ q.
Proof.
  intros Hq Eo Hp E. pose proof (wf_top _ _ _ Hq). pose proof (wf_own _ _ _ Hq) as Ho. unfold own_ok in Ho. rewrite Eo in Ho.
  destruct Ho as (Hb & Hb1 & Ho). unfold pop_read in E. rewrite u64_small in E by lia.
  destruct Ho as [(Ht & (x & Hx & ->) & Htail)|(-> & Ht & -> & Htail)].
  - rewrite Hx in E. simpl in E. rewrite (proj2 (Z.eqb_neq _ _)) in E by lia. simpl in E. injection E as <-. split; [|done].
    apply (wf_same q _ _ [x]); auto. unfold own_ok. simpl. split; [lia|done].
  - rewrite Z.eqb_refl in E. simpl in E. destruct (slot (b - 1) q) as [val|] eqn:Ev; simpl in E; [|done]. injection E as <-.
    split; [|split; [by rewrite app_nil_r|done]]. apply (wf_same q _ _ []); auto. unfold own_ok. simpl. split_and!; auto; [lia|].
    intros Et. destruct L as [|x [|y L]]; simpl in *; try lia. f_equal.
    pose proof (wf_slots _ _ _ Hq 0 x eq_refl) as Hx. rewrite Z.add_0_r, Et in Hx. congruence.
Qed.

Lemma pop_cas_wf q L P b t val :
  wf q L P -> own q = OPopCas b t val -> Z.of_nat (length (pushed q)) < 2 ^ 63 ->
  P = [] /\ ((L = [val] /\ wf (pop_cas b t val q) [] [val]) \/ wf (pop_cas b t val q) L []).
Proof.
  intros Hq Eo Hp. pose proof (tail_bound _ _ _ Hq Hp). pose proof (wf_top _ _ _ Hq).
  pose proof (wf_own _ _ _ Hq) as Ho. unfold own_ok in Ho. rewrite Eo in Ho. destruct Ho as (Hb & -> & Ht & -> & Htail & Hb1 & HL).
  split; [done|]. unfold pop_cas, cas_top. destruct (Z.eqb_spec (_top q) (b - 1)) as [Et|Hne].
  - left. specialize (HL Et) as ->. simpl in *. rewrite u64_small by lia. split; [done|].
    apply (wf_advance q _ [] [] [val] val); auto; simpl; [lia| |].
    + eapply Forall_impl; [|apply (wf_thieves _ _ _ Hq)]. intros s. apply thief_ok_advance. simpl. lia.
    + unfold own_ok. simpl. split_and!; auto. lia.
  - right. apply (wf_same q _ _ []); auto. unfold own_ok. simpl. split_and!; auto. apply nil_length_inv. lia.
Qed.

Lemma own_ok_advance q q' x L P :
  own q' = own q -> _bottom q' = _bottom q -> _top q' = _top q + 1 -> pushed q' = pushed q -> _buffer q' = _buffer q ->
  _capacity q' = _capacity q -> own_ok q (x :: L) P -> own_ok q' L P.
Proof.
  intros Eo Eb Et Ep Ebuf Ec. assert (Es : forall i, slot i q' = slot i q) by (intros; unfold slot, index; congruence).
  unfold own_ok. rewrite Eo, Eb, Ep. assert (_top q' + Z.of_nat (length L) = _top q + Z.of_nat (length (x :: L))) as -> by (simpl; lia).
  rewrite Et. destruct (own q) as [|y b|y b|b|b|b t|b t val|b r]; rewrite ?Es; auto.
  - intros (H1 & H2 & H3 & H4). simpl in H3. split_and!; auto. lia.
  - intros (H1 & H2 & H3 & H4 & H5). simpl in H3. split_and!; auto. lia.
  - intros (H1 & H2 & H3). split; [done|]. split; [done|]. destruct H3 as [H3|(H3 & H4 & H5 & H6)]; [by left|right].
    split_and!; auto. lia.
  - intros (H1 & H2 & H3 & H4 & H5 & H6 & H7). split_and!; auto; [lia|]. intros. lia.
  - by intros (H1 & H2 & H3 & H4).
Qed.

Lemma steal_cas_wf q L P i t val :
  wf q L P -> thieves q !! i = Some (TCas t val) -> Z.of_nat (length (pushed q)) < 2 ^ 63 ->
  (exists L', L = val :: L' /\ wf (steal_cas i t val q) L' P /\ stolen_ (steal_cas i t val q) = stolen_ q ++ [val]) \/
  (wf (steal_cas i t val q) L P /\ stolen_ (steal_cas i t val q) = stolen_ q).
Proof.
  intros Hq Hi Hp. pose proof (tail_bound _ _ _ Hq Hp). pose proof (wf_top _ _ _ Hq). pose proof (wf_tail _ _ _ Hq).
  pose proof (wf_thief _ _ _ _ _ Hq Hi) as [Ht Hh]. unfold steal_cas, cas_top. destruct (Z.eqb_spec (_top q) t) as [Et|Hne].
  - left. symmetry in Et. specialize (Hh Et). destruct L as [|x L]; [done|]. injection Hh as ->. exists L. split; [done|]. split; [|done].
    simpl in *. rewrite u64_small by lia. eapply wf_advance; eauto; simpl; [lia| |].
    + apply Forall_lookup. intros j s Hj. pose proof (wf_thieves _ _ _ Hq) as HF. rewrite Forall_lookup in HF.
      apply list_lookup_insert_Some in Hj as [(_ & <- & _)|[_ Hj]]; [done|].
      eapply thief_ok_advance; [|by apply (HF _ _ Hj)]. simpl. lia.
    + eapply own_ok_advance; [..|apply (wf_own _ _ _ Hq)]; simpl; auto; lia.
  - right. split; [|done]. apply wf_set_thief; [done|]. simpl. lia.
Qed.

(** A thief that passes the test at the current top finds an element. *)
Lemma loop_nonempty q L P : wf q L P -> _top q < _bottom q -> L <> [].
Proof.
  intros Hq Hlt ->. pose proof (wf_own _ _ _ Hq) as Ho. unfold own_ok in Ho. simpl in Ho.
  destruct (own q); try (destruct Ho as (? & ?); lia); try (destruct Ho as (? & ? & ?); lia).
Qed.

(** One step, whoever makes it. *)
Lemma step_explained e q q' :
  explained q -> step e q = Some q' -> Z.of_nat (length (pushed q)) < 2 ^ 63 -> explained q'.
Proof.
  intros (log & L & P & Hq & Hrun & Hpu & Hpo & Hst) E Hp.
  pose proof (tail_bound _ _ _ Hq Hp). pose proof (wf_top _ _ _ Hq). pose proof (wf_own _ _ _ Hq) as Ho. unfold own_ok in Ho.
  assert (Hcap : cap <= 2 ^ 62) by (apply Z.pow_le_mono_r; lia).
  destruct e as [x| | | |i]; simpl in E.
  - destruct (own q) eqn:Eo; try done. injection E as <-. destruct Ho as [Hb ->]. exists log, L, []. split; [|by unfold push_begin; case_match].
    unfold push_begin. rewrite (wf_cap _ _ _ Hq), u64_small by lia. rewrite Z.geb_leb.
    destruct (Z.leb_spec (_top q + cap) (_bottom q)); [done|]. apply (wf_same q _ _ []); auto. unfold own_ok. simpl. split_and!; auto. lia.
  - destruct (own q) eqn:Eo; try done. injection E as <-. destruct Ho as [Hb ->]. exists log, L, []. split; [|by unfold pop_begin; case_match].
    unfold pop_begin. rewrite Z.geb_leb. destruct (Z.leb_spec (_bottom q) (_top q)); [done|].
    apply (wf_same q _ _ []); auto. unfold own_ok. simpl. split_and!; auto. lia.
  - destruct (own q) as [|x b|x b|b|b|b t|b t val|b r] eqn:Eo; simplify_eq.
    + destruct Ho as (_ & _ & _ & ->). exists log, L, []. split; [by eapply push_copy_wf|].
      unfold push_copy in E. destruct (slot b q); simpl in E; by simplify_eq/=.
    + destruct Ho as (_ & _ & _ & -> & _). exists (log ++ [Pushed x]), (L ++ [x]), []. split; [by apply push_publish_wf|].
      split; [by constructor|]. unfold pushes, pops, steals in *. rewrite !omap_app, Hpu, Hpo, Hst. simpl. by rewrite !app_nil_r.
    + destruct Ho as (Hb & Htail & -> & Hb1). exists log, L, []. split; [|done]. apply (wf_same q _ _ []); auto.
      unfold own_ok, pop_store. simpl. rewrite u64_small by lia. by split_and!.
    + destruct (pop_load_wf _ _ _ _ Hq Eo Hp) as (-> & [Hq'|(L' & x & -> & Hq')]).
      * exists log, L, []. split; [done|]. by unfold pop_load; case_match.
      * exists (log ++ [Popped x]), L', [x]. split; [done|]. split; [by constructor|].
        unfold pushes, pops, steals in *. rewrite !omap_app, Hpu, Hpo, Hst. simpl. rewrite !app_nil_r. by unfold pop_load; case_match.
    + destruct (pop_read_wf _ _ _ _ _ _ Hq Eo Hp E) as (Hq' & E1 & E2 & E3). exists log, L, []. rewrite E1, E2, E3, app_nil_r. done.
    + destruct (pop_cas_wf _ _ _ _ _ _ Hq Eo Hp) as (-> & [[-> Hq']|Hq']).
      * exists (log ++ [Popped val]), [], [val]. split; [done|]. split; [by constructor|].
        unfold pushes, pops, steals in *. rewrite !omap_app, Hpu, Hpo, Hst. simpl. rewrite !app_nil_r.
        by unfold pop_cas, cas_top; destruct (_ =? _).
      * exists log, L, []. split; [done|]. by unfold pop_cas, cas_top; destruct (_ =? _).
    + destruct Ho as (Hb & Htail & -> & Hb1 & ->). exists log, [], []. split; [|by destruct r; rewrite ?app_nil_r in *].
      eapply wf_same; [done|..]; unfold own_ok; by destruct r; simpl.
  - injection E as <-. exists log, L, P. split; [|done]. destruct Hq. split; auto. simpl. apply Forall_app. split; [done|]. by repeat constructor.
  - destruct (thieves q !! i) as [s|] eqn:Ei; simpl in E; [|done]. pose proof (wf_thief _ _ _ _ _ Hq Ei) as Hs.
    destruct s as [|t|t|t|t val|]; simplify_eq/=.
    + exists log, L, P. split; [|done]. apply wf_set_thief; [done|]. simpl. lia.
    + exists log, L, P. unfold steal_test. rewrite Z.geb_leb. destruct (Z.leb_spec (_bottom q) t); (split; [by apply wf_set_thief|done]).
    + exists log, L, P. unfold steal_loop. rewrite Z.geb_leb. destruct (Z.leb_spec (_bottom q) t); (split; [apply wf_set_thief|done]); [done|done|done|].
      split; [done|]. intros ->. by eapply loop_nonempty.
    + unfold steal_read in E. destruct (slot t q) as [val|] eqn:Ev; simpl in E; [|done]. injection E as <-.
      exists log, L, P. split; [|done]. apply wf_set_thief; [done|]. destruct Hs as [Ht HL]. split; [done|]. intros ->. specialize (HL eq_refl).
      destruct L as [|x L]; [done|]. pose proof (wf_slots _ _ _ Hq 0 x eq_refl) as Hx. rewrite Z.add_0_r in Hx. simpl. congruence.
    + destruct (steal_cas_wf _ _ _ _ _ _ Hq Ei Hp) as [(L' & -> & Hq' & Hst')|[Hq' Hst']].
      * exists (log ++ [Stolen val]), L', P. split; [done|]. split; [by constructor|].
        unfold pushes, pops, steals in *. rewrite !omap_app, Hpu, Hpo, Hst. simpl. rewrite !app_nil_r, Hst'.
        by unfold steal_cas, cas_top in *; destruct (_ =? _).
      * exists log, L, P. rewrite Hst'. split; [done|]. by unfold steal_cas, cas_top in *; destruct (_ =? _).
Qed.

Lemma step_pushed e q q' : step e q = Some q' -> (length (pushed q) <= length (pushed q'))%nat.
Proof.
  destruct e as [x| | | |i]; simpl.
  - destruct (own q); try done. intros [= <-]. unfold push_begin. by case_match.
  - destruct (own q); try done. intros [= <-]. unfold pop_begin. by case_match.
  - destruct (own q) as [|x b|x b|b|b|b t|b t val|b r]; try done; try intros [= <-].
    + unfold push_copy. destruct (slot b q); simpl; [|done]. by intros [= <-].
    + simpl. rewrite length_app. lia.
    + done.
    + unfold pop_load. by case_match.
    + unfold pop_read. destruct (slot _ q); simpl; [|done]. intros [= <-]. by case_match.
    + unfold pop_cas, cas_top. by destruct (_ =? _).
    + by destruct r.
  - by intros [= <-].
  - destruct (thieves q !! i) as [s|]; simpl; [|done]. destruct s as [|t|t|t|t val|]; try done; try intros [= <-]; try done.
    + unfold steal_test. by case_match.
    + unfold steal_loop. by case_match.
    + unfold steal_read. destruct (slot t q); simpl; [|done]. by intros [= <-].
    + unfold steal_cas, cas_top. by destruct (_ =? _).
Qed.

(** The queue after [init]. *)
Lemma init_explained raw q0 : init cap (Some raw) WorkStealingQueue_new = (0, q0) -> Z.of_nat (length raw) = cap -> explained q0.
Proof.
  unfold init. simpl. destruct (cap =? 0); [done|]. destruct (_ =? 0); simpl; [|done]. intros [= <-] Hl.
  pose proof cap_pos. exists [], [], []. split; [|by repeat constructor]. split; simpl; try done; try lia.
Qed.

Lemma reachable_explained q0 q :
  explained q0 -> reachable q0 q -> Z.of_nat (length (pushed q)) < 2 ^ 63 -> explained q.
Proof.
  intros H0. induction 1 as [|e q q' _ IH E]; [done|]. intros Hp. pose proof (step_pushed _ _ _ E).
  eapply step_explained; [apply IH; lia|done|lia].
Qed.

(** No access leaves the buffer, so no call is stopped. *)
Lemma ws_total q L P :
  wf q L P -> (own q <> OIdle -> step Owner q <> None) /\
  (forall i s, thieves q !! i = Some s -> (forall r, s <> TDone r) -> step (Thief i) q <> None).
Proof.
  intros Hq. pose proof (fun i => slot_in q i (wf_cap _ _ _ Hq) (wf_length _ _ _ Hq)) as Hs. split.
  - simpl. destruct (own q); try done; intros _.
    + unfold push_copy. specialize (Hs b). by destruct (slot b q).
    + unfold pop_read. specialize (Hs (u64 (b - 1))). by destruct (slot _ q).
  - intros i s Hi Hd. simpl. rewrite Hi. simpl. destruct s as [|t|t|t|t val|r]; try done; [|by destruct (Hd r)].
    unfold steal_read. specialize (Hs t). by destruct (slot t q).
Qed.

(** What the owner sees between its calls. *)
Lemma wf_idle q L P :
  wf q L P -> own q = OIdle -> Z.of_nat (length (pushed q)) < 2 ^ 63 ->
  P = [] /\ volatile_size q = Z.of_nat (length L) /\
  (forall x, step (Push x) q = Some (if bool_decide (Z.of_nat (length L) = cap) then q else set_own (OPushCopy x (_bottom q)) q)) /\
  step Pop q = Some (if bool_decide (L = []) then q else set_own (OPopStore (_bottom q)) q).
Proof.
  intros Hq Eo Hp. pose proof (tail_bound _ _ _ Hq Hp). pose proof (wf_top _ _ _ Hq). pose proof (wf_fits _ _ _ Hq).
  pose proof (wf_own _ _ _ Hq) as Ho. unfold own_ok in Ho. rewrite Eo in Ho. destruct Ho as [Hb ->].
  assert (Hcap : cap <= 2 ^ 62) by (apply Z.pow_le_mono_r; lia). split; [done|]. split_and!.
  - unfold volatile_size. rewrite Hb. destruct (Z.leb_spec (_top q + Z.of_nat (length L)) (_top q)); [lia|]. rewrite u64_small; lia.
  - intros x. simpl. rewrite Eo. unfold push_begin. rewrite (wf_cap _ _ _ Hq), u64_small, Z.geb_leb by lia.
    destruct (Z.leb_spec (_top q + cap) (_bottom q)); case_bool_decide; done || lia.
  - simpl. rewrite Eo. unfold pop_begin. rewrite Z.geb_leb.
    destruct (Z.leb_spec (_bottom q) (_top q)); case_bool_decide as E; try done; exfalso.
    + apply E, nil_length_inv. lia.
    + rewrite E in Hb. simpl in Hb. lia.
Qed.
End proofs.

(** ** Claims *)

(** C30. The work-stealing queue of [2^k] slots, its owner and any number of thieves in any
    interleaving, up to [2^63] pushes: there is an order of the pushes, pops and steals
    that have taken effect in which pushes and pops are at the end of a list of at most
    [2^k] elements and steals at its front, the pushes and steals are those of the
    calls that have ended, in their order, and the pops those of the ended calls and at
    most one more, not yet returned; so every element pushed is still there or was taken
    exactly once.  No access leaves the buffer, and between its calls the owner is
    refused a push only when the queue is full, a pop only when it is empty. *)
Theorem work_stealing_linearizable {T} (k : Z) (raw : list T) (q0 q : state T)
    (Hk : 0 <= k < 63) (Hraw : Z.of_nat (length raw) = 2 ^ k)
    (Hinit : init (2 ^ k) (Some raw) WorkStealingQueue_new = (0, q0))
    (Hr : reachable q0 q) (Hp : Z.of_nat (length (pushed q)) < 2 ^ 63) :
  (exists log L P,
     deque_run log L /\ Z.of_nat (length L) <= 2 ^ k /\
     pushes log = pushed q /\ pops log = popped_ q ++ P /\ steals log = stolen_ q /\ (length P <= 1)%nat /\
     pushed q ≡ₚ (popped_ q ++ P) ++ stolen_ q ++ L /\
     (own q = OIdle ->
        P = [] /\ volatile_size q = Z.of_nat (length L) /\
        (forall x, step (Push x) q =
           Some (if bool_decide (Z.of_nat (length L) = 2 ^ k) then q else set_own (OPushCopy x (_bottom q)) q)) /\
        step Pop q = Some (if bool_decide (L = []) then q else set_own (OPopStore (_bottom q)) q))) /\
  (own q <> OIdle -> step Owner q <> None) /\
  (forall i s, thieves q !! i = Some s -> (forall r, s <> TDone r) -> step (Thief i) q <> None).
Proof.
  destruct (reachable_explained k Hk q0 q) as (log & L & P & Hq & Hrun & Hpu & Hpo & Hst); [by eapply init_explained|done|done|].
  split; [|by eapply ws_total]. exists log, L, P. split_and!; auto.
  - apply (wf_fits _ _ _ _ Hq).
  - pose proof (wf_own _ _ _ _ Hq) as Ho. unfold own_ok in Ho. destruct (own q) as [| | | | |b t| |b r]; try (by destruct_and?; subst; simpl; lia).
    + destruct Ho as (_ & _ & [(_ & (x & _ & ->) & _)|(_ & _ & -> & _)]); simpl; lia.
    + destruct Ho as (_ & _ & _ & _ & ->). destruct r; simpl; lia.
  - rewrite <-Hpu, <-Hpo, <-Hst. by apply deque_run_permutation.
  - intros Eo. by apply (wf_idle k Hk q L P Hq Eo Hp).
Qed.

(** The owner and a thief compete for the last element, and the thief wins. *)
Definition last_element : list (event Z) :=
  [Push 7; Owner; Owner; Steal; Thief 0; Pop; Thief 0; Thief 0; Owner; Owner; Owner; Thief 0; Thief 0; Owner; Owner].

Lemma owner_run_reachable {T} (q0 : state T) es q : run es q0 = Some q -> reachable q0 q.
Proof.
  revert q. induction es as [|e es IH] using rev_ind; intros q; unfold run.
  - intros [= <-]. constructor.
  - rewrite foldl_app. simpl. destruct (foldl _ _ _) as [q1|] eqn:E; simpl; [|done]. intros Es.
    econstructor; [|done]. by apply IH.
Qed.

Lemma work_stealing_linearizable_witness :
  exists q, run last_element (init 2 (Some [0; 0]) WorkStealingQueue_new).2 = Some q /\ stolen_ q = [7] /\ popped_ q = [] /\
    (own q <> OIdle -> step Owner q <> None).
Proof.
  set (q0 := (init 2 (Some [0; 0]) WorkStealingQueue_new).2).
  destruct (run last_element q0) as [q|] eqn:E; [|by vm_compute in E].
  exists q. split; [done|]. split; [by vm_compute in E; injection E as <-|]. split; [by vm_compute in E; injection E as <-|].
  destruct (work_stealing_linearizable 1 [0; 0] q0 q) as (_ & H & _);
    [lia|reflexivity|reflexivity|by apply owner_run_reachable in E|by vm_compute in E; injection E as <-|exact H].
Defined.
