(* ===== verification/Store.v ===== *)
(** * Store: state and failure

    The state monad with failure in which the pointer structures are written.
    [None] is undefined behaviour: a read of memory that was not written or is
    not allocated, a write outside what is allocated, or an exhausted bound of a
    loop. *)

From S2P Require Import Prelude.
From stdpp Require Export gmap fin_maps.

(** Addresses. *)
Abbreviation loc := N.
Definition nullptr : loc := 0%N.

Definition ST (S A : Type) : Type := S -> option (A * S).

#[export] Instance ST_ret S : MRet (ST S) := fun _ a s => Some (a, s).
#[export] Instance ST_bind S : MBind (ST S) := fun _ _ k m s => '(a, s') ← m s; k a s'.

(** Read the state; [None] is a failure. *)
Definition reads {S A} (f : S -> option A) : ST S A := fun s => a ← f s; Some (a, s).
(** Change the state; [None] is a failure. *)
Definition update {S} (f : S -> option S) : ST S unit := fun s => s' ← f s; Some (tt, s').
Definition fail {S A} : ST S A := fun _ => None.

Section store.
Context {S : Type}.

Lemma bind_run {A B} (m : ST S A) (k : A -> ST S B) s a s' r :
  m s = Some (a, s') -> k a s' = r -> (m ≫= k) s = r.
Proof. intros E Hk. unfold mbind, ST_bind. by rewrite E. Qed.
Lemma bind_reads {A B} (f : S -> option A) (k : A -> ST S B) s a r :
  f s = Some a -> k a s = r -> (reads f ≫= k) s = r.
Proof. intros E. apply bind_run. unfold reads. by rewrite E. Qed.
Lemma bind_update {B} (f : S -> option S) (k : unit -> ST S B) s s' r :
  f s = Some s' -> k tt s' = r -> (update f ≫= k) s = r.
Proof. intros E. apply bind_run. unfold update. by rewrite E. Qed.
Lemma run_update (f : S -> option S) s s' : f s = Some s' -> update f s = Some (tt, s').
Proof. intros E. unfold update. by rewrite E. Qed.
Lemma run_reads {A} (f : S -> option A) s a : f s = Some a -> reads f s = Some (a, s).
Proof. intros E. unfold reads. by rewrite E. Qed.
Lemma bind_ret {A B} (a : A) (k : A -> ST S B) s : (mret a ≫= k) s = k a s.
Proof. done. Qed.
Lemma bind_assoc {A B C} (m : ST S A) (k : A -> ST S B) (j : B -> ST S C) s :
  ((m ≫= k) ≫= j) s = (m ≫= (fun a => k a ≫= j)) s.
Proof. unfold mbind, ST_bind, mbind, option_bind. by destruct (m s) as [[a s']|]. Qed.
End store.

(** ** Arrays under a machine index *)

#[local] Open Scope Z_scope.

(** The element at a signed or unsigned index, and the array with it replaced; [None] out
    of bounds. *)
Definition aget {A} (l : list A) (i : Z) : option A := if i <? 0 then None else l !! Z.to_nat i.
Definition aput {A} (i : Z) (x : A) (l : list A) : option (list A) :=
  if (0 <=? i) && (i <? Z.of_nat (length l)) then Some (<[Z.to_nat i := x]> l) else None.

Section array.
Context {A : Type}.
Implicit Types (l : list A) (i : Z) (x : A).

Lemma aget_Some l i x : aget l i = Some x <-> 0 <= i /\ l !! Z.to_nat i = Some x.
Proof. unfold aget. destruct (Z.ltb_spec i 0); split; [done|lia|done|by intros [_ ?]]. Qed.
Lemma aget_nat l n : aget l (Z.of_nat n) = l !! n.
Proof. unfold aget. destruct (Z.ltb_spec (Z.of_nat n) 0); [lia|by rewrite Nat2Z.id]. Qed.
Lemma aget_in l i : 0 <= i < Z.of_nat (length l) -> exists x, aget l i = Some x.
Proof. intros Hi. destruct (lookup_lt_is_Some_2 l (Z.to_nat i)) as [x Hx]; [lia|]. exists x. apply aget_Some. split; [lia|done]. Qed.
Lemma aget_lt l i x : aget l i = Some x -> 0 <= i < Z.of_nat (length l).
Proof. intros [? H%lookup_lt_Some]%aget_Some. lia. Qed.
Lemma aput_in l i x : 0 <= i < Z.of_nat (length l) -> aput i x l = Some (<[Z.to_nat i := x]> l).
Proof. intros Hi. unfold aput. destruct (Z.leb_spec 0 i), (Z.ltb_spec i (Z.of_nat (length l))); try lia. done. Qed.
Lemma aget_insert_eq l i x : 0 <= i < Z.of_nat (length l) -> aget (<[Z.to_nat i := x]> l) i = Some x.
Proof. intros Hi. apply aget_Some. split; [lia|]. apply list_lookup_insert_eq. lia. Qed.
Lemma aget_insert_ne l i j x : 0 <= i -> i <> j -> aget (<[Z.to_nat i := x]> l) j = aget l j.
Proof. intros Hi Hj. unfold aget. destruct (Z.ltb_spec j 0); [done|]. apply list_lookup_insert_ne. lia. Qed.
Lemma aget_replicate n x i : 0 <= i < Z.of_nat n -> aget (replicate n x) i = Some x.
Proof. intros Hi. apply aget_Some. split; [lia|]. apply lookup_replicate. split; [done|lia]. Qed.
End array.
