(* ===== verification/ListHead.v ===== *)
(** * ListHead: the circular list of [src/util/list_util.h]

    [list_head] is embedded in the structures it links; a list is a head and its
    entries.  A pointer is an address and the two members are kept in two finite
    maps.  [list_entry] and the loops built on it only subtract the offset of the
    member: the loops below are over the embedded nodes. *)

From S2P Require Import Prelude Store.
#[local] Open Scope mycc_scope.

(** [nodes] are the addresses of the live [list_head]s. *)
Record heap := { nodes : gset loc; next : gmap loc loc; prev : gmap loc loc }.
Abbreviation M := (ST heap).

Definition LIST_POISON1 : loc := 0x00100100%N.
Definition LIST_POISON2 : loc := 0x00200200%N.

Definition get_next (a : loc) : M loc := reads (fun h => next h !! a).
Definition get_prev (a : loc) : M loc := reads (fun h => prev h !! a).
Definition put_next (a b : loc) (h : heap) : heap := {| nodes := nodes h; next := <[a := b]> (next h); prev := prev h |}.
Definition put_prev (a b : loc) (h : heap) : heap := {| nodes := nodes h; next := next h; prev := <[a := b]> (prev h) |}.
Definition set_next (a b : loc) : M unit := update (fun h => if decide (a ∈ nodes h) then Some (put_next a b h) else None).
Definition set_prev (a b : loc) : M unit := update (fun h => if decide (a ∈ nodes h) then Some (put_prev a b h) else None).

Definition list_init (list : loc) : M unit := set_next list list ;; set_prev list list.

Definition __list_add (newl prev next : loc) : M unit :=
  set_prev next newl ;; set_next newl next ;; set_prev newl prev ;; set_next prev newl.
Definition list_add (newl head : loc) : M unit := n ← get_next head; __list_add newl head n.
Definition list_add_head (newl head : loc) : M unit := n ← get_next head; __list_add newl head n.
Definition list_add_tail (newl head : loc) : M unit := p ← get_prev head; __list_add newl p head.

Definition __list_del (prev next : loc) : M unit := set_prev next prev ;; set_next prev next.
Definition __list_del_entry (entry : loc) : M unit :=
  p ← get_prev entry; n ← get_next entry; __list_del p n.
Definition list_del (entry : loc) : M unit :=
  p ← get_prev entry; n ← get_next entry; __list_del p n ;;
  set_next entry LIST_POISON1 ;; set_prev entry LIST_POISON2.

Definition list_replace (old newl : loc) : M unit :=
  n ← get_next old; set_next newl n ;;
  n ← get_next newl; set_prev n newl ;;
  p ← get_prev old; set_prev newl p ;;
  p ← get_prev newl; set_next p newl.
Definition list_replace_init (old newl : loc) : M unit := list_replace old newl ;; list_init old.

Definition list_del_init (entry : loc) : M unit := __list_del_entry entry ;; list_init entry.
Definition list_move (list head : loc) : M unit := __list_del_entry list ;; list_add list head.
Definition list_move_tail (list head : loc) : M unit := __list_del_entry list ;; list_add_tail list head.

Definition list_is_last (list head : loc) : M bool := n ← get_next list; mret (n =? head)%N.
Definition list_empty (head : loc) : M bool := n ← get_next head; mret (n =? head)%N.
Definition list_empty_careful (head : loc) : M bool :=
  n ← get_next head;
  if (n =? head)%N then p ← get_prev head; mret (n =? p)%N else mret false.

Definition list_movelist (list new_list : loc) : M unit :=
  e ← list_empty list;
  if negb e then
    p ← get_prev list; set_prev new_list p ;;
    n ← get_next list; set_next new_list n ;;
    p ← get_prev new_list; set_next p new_list ;;
    n ← get_next new_list; set_prev n new_list ;;
    list_init list
  else list_init new_list.

Definition list_join (list head : loc) : M unit :=
  e ← list_empty list;
  if negb e then
    first ← get_next list; last ← get_prev list; at_ ← get_prev head;
    set_prev first at_ ;; set_next at_ first ;; set_next last head ;; set_prev head last
  else mret tt.

Definition list_rotate_left (head : loc) : M unit :=
  e ← list_empty head;
  if negb e then first ← get_next head; list_move_tail first head else mret tt.

Definition list_is_singular (head : loc) : M bool :=
  e ← list_empty head;
  if negb e then n ← get_next head; p ← get_prev head; mret (n =? p)%N else mret false.

Definition __list_cut_position (list head entry : loc) : M unit :=
  new_first ← get_next entry;
  n ← get_next head; set_next list n ;;
  n ← get_next list; set_prev n list ;;
  set_prev list entry ;; set_next entry list ;;
  set_next head new_first ;; set_prev new_first head.
Definition list_cut_position (list head entry : loc) : M unit :=
  e ← list_empty head;
  if (e : bool) then mret tt else
  s ← list_is_singular head;
  skip ← (if (s : bool) then n ← get_next head; mret (negb (n =? entry)%N && negb (head =? entry)%N) else mret false);
  if (skip : bool) then mret tt else
  if (entry =? head)%N then list_init list else __list_cut_position list head entry.

Definition __list_splice (list prev next : loc) : M unit :=
  first ← get_next list; last ← get_prev list;
  set_prev first prev ;; set_next prev first ;; set_next last next ;; set_prev next last.
Definition list_splice (list head : loc) : M unit :=
  e ← list_empty list;
  if negb e then n ← get_next head; __list_splice list head n else mret tt.
Definition list_splice_tail (list head : loc) : M unit :=
  e ← list_empty list;
  if negb e then p ← get_prev head; __list_splice list p head else mret tt.
Definition list_splice_init (list head : loc) : M unit :=
  e ← list_empty list;
  if negb e then n ← get_next head; __list_splice list head n ;; list_init list else mret tt.
Definition list_splice_tail_init (list head : loc) : M unit :=
  e ← list_empty list;
  if negb e then p ← get_prev head; __list_splice list p head ;; list_init list else mret tt.

(** [list_for_each] and its variants, around a body that runs at each position.  The loop
    bound is the number of live nodes and one more. *)
Definition bound : M nat := fun h => Some (S (size (nodes h)), h).

Fixpoint for_each (step : loc -> M loc) (body : loc -> M unit) (head pos : loc) (fuel : nat) : M unit :=
  if (pos =? head)%N then mret tt else
  match fuel with
  | O => fail
  | S fuel => body pos ;; pos ← step pos; for_each step body head pos fuel
  end.
Definition list_for_each (head : loc) (body : loc -> M unit) : M unit :=
  pos ← get_next head; fuel ← bound; for_each get_next body head pos fuel.
Definition list_for_each_prev (head : loc) (body : loc -> M unit) : M unit :=
  pos ← get_prev head; fuel ← bound; for_each get_prev body head pos fuel.

(** The variants that read the next position before the body runs. *)
Fixpoint for_each_safe (step : loc -> M loc) (body : loc -> M unit) (head pos n : loc) (fuel : nat) : M unit :=
  if (pos =? head)%N then mret tt else
  match fuel with
  | O => fail
  | S fuel => body pos ;; n' ← step n; for_each_safe step body head n n' fuel
  end.
Definition list_for_each_safe (head : loc) (body : loc -> M unit) : M unit :=
  pos ← get_next head; n ← get_next pos; fuel ← bound; for_each_safe get_next body head pos n fuel.
Definition list_for_each_prev_safe (head : loc) (body : loc -> M unit) : M unit :=
  pos ← get_prev head; n ← get_prev pos; fuel ← bound; for_each_safe get_prev body head pos n fuel.

(** ** Linked segments *)

(** Make [b] the successor of [a]. *)
Definition link (a b : loc) (h : heap) : heap := put_prev b a (put_next a b h).

(** Consecutive elements point at each other. *)
Fixpoint linked (h : heap) (l : list loc) : Prop :=
  match l with
  | a :: ((b :: _) as t) => next h !! a = Some b /\ prev h !! b = Some a /\ linked h t
  | _ => True
  end.
Definition ring (h : heap) (x : loc) (xs : list loc) : Prop := linked h (x :: xs ++ [x]).

Lemma linked_app h l1 a l2 : linked h (l1 ++ a :: l2) <-> linked h (l1 ++ [a]) /\ linked h (a :: l2).
Proof.
  induction l1 as [|x l1 IH]; [cbn; tauto|]. destruct l1 as [|y l1]; [cbn; tauto|]. cbn in IH |- *. tauto.
Qed.
Lemma linked_frame h h' l :
  (forall a, a ∈ removelast l -> next h' !! a = next h !! a) -> (forall b, b ∈ tail l -> prev h' !! b = prev h !! b) ->
  linked h l -> linked h' l.
Proof.
  induction l as [|x l IH]; intros Hn Hp H; [done|]. destruct l as [|y l]; [done|].
  destruct H as (H1 & H2 & H3). split_and!.
  - rewrite Hn; [done|set_solver].
  - rewrite Hp; [done|set_solver].
  - apply IH; [|intros b Hb; apply Hp; set_solver|done]. intros a Ha. apply Hn. change (a ∈ x :: removelast (y :: l)). set_solver.
Qed.

Lemma next_link a b h : next (link a b h) = <[a := b]> (next h).
Proof. done. Qed.
Lemma prev_link a b h : prev (link a b h) = <[b := a]> (prev h).
Proof. done. Qed.
Lemma nodes_link a b h : nodes (link a b h) = nodes h.
Proof. done. Qed.

(** Segments that do not hold the ends of a new link. *)
Lemma linked_link h a b l : a ∉ removelast l -> b ∉ tail l -> linked h l -> linked (link a b h) l.
Proof.
  intros Ha Hb. apply linked_frame; intros c Hc; rewrite ?next_link, ?prev_link; apply lookup_insert_ne; congruence.
Qed.
Lemma linked_two h a b : linked (link a b h) [a; b].
Proof. split; [apply lookup_insert_eq|]. split; [apply lookup_insert_eq|done]. Qed.

Lemma removelast_snoc {A} (l : list A) x : removelast (l ++ [x]) = l.
Proof. rewrite removelast_app by done. simpl. apply app_nil_r. Qed.

Lemma elem_of_tail_sub {A} (x : A) l : x ∈ tail l -> x ∈ l.
Proof. destruct l; [done|]. simpl. set_solver. Qed.

Section ring.
Context (h : heap) (x : loc) (l1 l2 : list loc) (p n : loc).
Hypothesis (Hp : last (x :: l1) = Some p) (Hn : head (l2 ++ [x]) = Some n).

Lemma ring_list F : x :: (l1 ++ F ++ l2) ++ [x] = (x :: l1) ++ F ++ (l2 ++ [x]).
Proof. by rewrite <- !app_assoc. Qed.

(** The ends of the gap between [l1] and [l2]. *)
Lemma ring_gap : exists A N, x :: l1 = A ++ [p] /\ l2 ++ [x] = n :: N.
Proof.
  apply last_Some in Hp as [A HA]. destruct (l2 ++ [x]) as [|m N] eqn:E; [done|]. injection Hn as ->. by exists A, N.
Qed.

Lemma ring_split F : ring h x (l1 ++ F ++ l2) <-> exists A N, x :: l1 = A ++ [p] /\ l2 ++ [x] = n :: N /\ linked h (A ++ p :: F ++ n :: N).
Proof.
  destruct ring_gap as (A & N & HA & HN). unfold ring.
  assert (x :: (l1 ++ F ++ l2) ++ [x] = A ++ p :: F ++ n :: N) as ->.
  { rewrite ring_list, HA, HN, <- app_assoc. done. }
  split; [intros H; by exists A, N|]. intros (A' & N' & HA' & HN' & H).
  rewrite HA in HA'. apply app_inj_tail in HA' as [-> _]. rewrite HN in HN'. by injection HN' as ->.
Qed.

Lemma gap_sides A N : NoDup (x :: l1 ++ l2) -> x :: l1 = A ++ [p] -> l2 ++ [x] = n :: N ->
  p ∉ A /\ n ∉ tail (A ++ [p]) /\ p ∉ removelast (n :: N) /\ n ∉ N.
Proof.
  intros HN HA HE. rewrite <- HA, <- HE, removelast_snoc. simpl.
  apply NoDup_cons in HN as [Hx HN]. apply NoDup_app in HN as (H1 & H12 & H2).
  assert (NoDup (A ++ [p])) as HAp by (rewrite <- HA; apply NoDup_cons; set_solver).
  assert (NoDup (n :: N)) as HnN by (rewrite <- HE; apply NoDup_app; split_and!; [done|set_solver|apply NoDup_singleton]).
  assert (p ∈ x :: l1) by (rewrite HA; set_solver). assert (n ∈ l2 ++ [x]) by (rewrite HE; set_solver).
  apply NoDup_app in HAp as (_ & HAp & _). apply NoDup_cons in HnN as [HnN _]. set_solver.
Qed.

(** Take the segment [F] out. *)
Lemma ring_cut F : NoDup (x :: l1 ++ l2) -> ring h x (l1 ++ F ++ l2) -> ring (link p n h) x (l1 ++ l2).
Proof.
  intros HN H. destruct (ring_gap) as (A & N & HA & HE). destruct (gap_sides A N HN HA HE) as (H1 & H2 & H3 & H4).
  assert (linked h (A ++ p :: F ++ n :: N)) as HL.
  { apply ring_split in H as (A' & N' & HA' & HE' & H). rewrite HA in HA'. apply app_inj_tail in HA' as [-> _].
    rewrite HE in HE'. by injection HE' as ->. }
  assert (ring (link p n h) x (l1 ++ l2) <-> linked (link p n h) (A ++ p :: [n] ++ N)) as ->.
  { unfold ring. replace (x :: (l1 ++ l2) ++ [x]) with (A ++ p :: [n] ++ N); [done|].
    change (x :: (l1 ++ l2) ++ [x]) with (x :: (l1 ++ [] ++ l2) ++ [x]). rewrite ring_list, HA, HE, <- app_assoc. done. }
  apply linked_app in HL as [HL1 HL2]. rewrite app_comm_cons in HL2. apply linked_app in HL2 as [_ HL3].
  apply linked_app. split; [apply linked_link; [by rewrite removelast_snoc|done|done]|].
  change (linked (link p n h) ([p] ++ n :: N)). apply linked_app. split; [apply linked_two|]. by apply linked_link.
Qed.

(** Put the segment [F] in. *)
Lemma ring_insert F f g : NoDup (x :: l1 ++ F ++ l2) -> ring h x (l1 ++ l2) -> linked h F -> head F = Some f -> last F = Some g ->
  ring (link g n (link p f h)) x (l1 ++ F ++ l2).
Proof.
  intros HN H HF Hf Hg. destruct (ring_gap) as (A & N & HA & HE).
  assert (NoDup (x :: l1 ++ l2)) as HN'.
  { apply NoDup_cons in HN as [? HN]. apply NoDup_app in HN as (? & ? & HN). apply NoDup_app in HN as (? & ? & ?).
    apply NoDup_cons. split; [set_solver|]. apply NoDup_app. set_solver. }
  destruct (gap_sides A N HN' HA HE) as (H1 & H2 & H3 & H4).
  assert (linked h (A ++ p :: [] ++ n :: N)) as HL.
  { apply (ring_split []) in H as (A' & N' & HA' & HE' & H). rewrite HA in HA'. apply app_inj_tail in HA' as [-> _].
    rewrite HE in HE'. by injection HE' as ->. }
  unfold ring. replace (x :: (l1 ++ F ++ l2) ++ [x]) with (A ++ p :: F ++ n :: N); cycle 1.
  { rewrite ring_list, HA, HE, <- app_assoc. done. }
  apply linked_app in HL as [HL1 HL2]. change (linked h ([p] ++ n :: N)) in HL2. apply linked_app in HL2 as [_ HL3].
  assert (forall y, y ∈ F -> y ∉ x :: l1 /\ y ∉ l2 ++ [x]) as HFd.
  { intros y Hy. apply NoDup_cons in HN as [? HN]. apply NoDup_app in HN as (? & HN1 & HN). apply NoDup_app in HN as (_ & HN2 & _).
    specialize (HN2 y Hy). split; set_solver. }
  assert (forall y, y ∈ F -> y ∉ x :: l1) as HF1 by (intros y Hy; by apply HFd). assert (forall y, y ∈ F -> y ∉ l2 ++ [x]) as HF2 by (intros y Hy; by apply HFd). clear HFd.
  assert (NoDup F) as HNF.
  { apply NoDup_cons in HN as [? HN]. apply NoDup_app in HN as (? & HN1 & HN). by apply NoDup_app in HN as (? & HN2 & _). }
  assert (f ∈ F) as HfF by (destruct F; [done|injection Hf as ->; set_solver]).
  assert (g ∈ F) as HgF by (apply last_Some in Hg as [F' ->]; set_solver).
  assert (p ∈ x :: l1) as Hpx by (rewrite HA; set_solver). assert (n ∈ l2 ++ [x]) as Hnx by (rewrite HE; set_solver).
  assert (removelast (n :: N) = l2) as ER by (rewrite <- HE; apply removelast_snoc).
  assert (tail (A ++ [p]) = l1) as ET by (by rewrite <- HA).
  apply linked_app. split.
  { apply linked_link; [rewrite removelast_snoc|done|apply linked_link; [by rewrite removelast_snoc| |done]].
    - intros Hg'. apply (HF1 g HgF). rewrite HA. set_solver.
    - intros Hf'. apply (HF1 f HfF). rewrite ET in Hf'. set_solver. }
  destruct F as [|f' F]; [done|]. injection Hf as ->. change (linked (link g n (link p f h)) ([p] ++ f :: F ++ n :: N)).
  apply linked_app. split.
  { apply linked_link; [|simpl|apply linked_two].
    - simpl. intros ->%list_elem_of_singleton. by apply (HF1 p).
    - intros ->%list_elem_of_singleton. by apply (HF2 f). }
  apply last_Some in Hg as [G HG].
  assert (linked (link g n (link p f h)) (G ++ g :: n :: N)) as Hgoal; cycle 1.
  { replace (f :: F ++ n :: N) with (G ++ g :: n :: N); [done|]. rewrite app_comm_cons, HG, <- app_assoc. done. }
  rewrite HG in HNF, HF. apply linked_app. split.
  { apply linked_link; [rewrite removelast_snoc| |].
    - apply NoDup_app in HNF as (_ & HNF & _). set_solver.
    - intros Hn'. apply (HF2 n); [|done]. rewrite HG. by apply elem_of_tail_sub.
    - apply linked_link; [rewrite removelast_snoc| |done].
      + intros Hp'. apply (HF1 p); [rewrite HG; set_solver|done].
      + rewrite <- HG in *. simpl. by apply NoDup_cons in HNF as [? _]. }
  change (linked (link g n (link p f h)) ([g] ++ n :: N)). apply linked_app. split; [apply linked_two|].
  apply linked_link; [rewrite ER|done|apply linked_link; [by rewrite ER in *| |done]].
  - intros Hg'. apply (HF2 g HgF). set_solver.
  - intros Hf'. apply (HF2 f HfF). rewrite HE. set_solver.
Qed.
End ring.
(** ** Collections of lists *)

Definition cells (L : list (loc * list loc)) : list loc := L ≫= (fun r => r.1 :: r.2).
(** The heads with their entries: disjoint rings of live nodes. *)
Record rep (L : list (loc * list loc)) (h : heap) : Prop := {
  rep_nodup : NoDup (cells L);
  rep_nodes : forall a, a ∈ cells L -> a ∈ nodes h;
  rep_rings : forall x xs, (x, xs) ∈ L -> ring h x xs
}.

Lemma cells_app L1 L2 : cells (L1 ++ L2) = cells L1 ++ cells L2.
Proof. apply bind_app. Qed.
Lemma cells_cons x xs L : cells ((x, xs) :: L) = (x :: xs) ++ cells L.
Proof. done. Qed.
Lemma cells_one x xs : cells [(x, xs)] = x :: xs.
Proof. unfold cells. simpl. by rewrite app_nil_r. Qed.
Lemma cells_in L x xs y : (x, xs) ∈ L -> y ∈ x :: xs -> y ∈ cells L.
Proof. intros H Hy. apply list_elem_of_bind. by exists (x, xs). Qed.

Lemma rep_permute L L' h : L ≡ₚ L' -> rep L h -> rep L' h.
Proof.
  intros HP [H1 H2 H3]. split; [unfold cells; by rewrite <- HP| |intros x xs; rewrite <- HP; apply H3].
  intros a. unfold cells. rewrite <- HP. apply H2.
Qed.

Lemma ring_link_other h a b x xs : a ∉ x :: xs -> b ∉ x :: xs -> ring h x xs -> ring (link a b h) x xs.
Proof.
  intros Ha Hb. apply linked_link; [|simpl; set_solver].
  change (x :: xs ++ [x]) with ((x :: xs) ++ [x]). by rewrite removelast_snoc.
Qed.

(** Change the rings [R] to [R'], over the same nodes or fresh ones. *)
Lemma rep_update R R' L h h' : rep (R ++ L) h -> nodes h' = nodes h -> NoDup (cells R') ->
  (forall a, a ∈ cells R' -> a ∈ nodes h /\ a ∉ cells L) -> (forall x xs, (x, xs) ∈ R' -> ring h' x xs) ->
  (forall x xs, (forall y, y ∈ x :: xs -> y ∉ cells R /\ y ∈ cells L) -> ring h x xs -> ring h' x xs) -> rep (R' ++ L) h'.
Proof.
  intros [H1 H2 H3] Hn HR Hin HR' HL. rewrite cells_app in H1. apply NoDup_app in H1 as (H1 & H12 & H1L). split.
  - rewrite cells_app. apply NoDup_app. split_and!; [done| |done]. intros a Ha. by apply Hin.
  - intros a. rewrite cells_app, elem_of_app, Hn. intros [Ha|Ha]; [by apply Hin|]. apply H2. rewrite cells_app. set_solver.
  - intros x xs [Hx|Hx]%elem_of_app; [by apply HR'|]. apply HL; [|apply H3; set_solver].
    intros y Hy. pose proof (cells_in _ _ _ _ Hx Hy). split; [|done]. intros Hy'. by apply (H12 y).
Qed.

Lemma rep_tail L1 L2 h : rep (L1 ++ L2) h -> rep L2 h.
Proof.
  intros [H1 H2 H3]. rewrite cells_app in H1. apply NoDup_app in H1 as (_ & _ & H1). split; [done| |].
  - intros a Ha. apply H2. rewrite cells_app. set_solver.
  - intros x xs Hx. apply H3. set_solver.
Qed.

Lemma rep_in L h a : rep L h -> a ∈ cells L -> a ∈ nodes h.
Proof. intros [_ H _] Ha. by apply H. Qed.
Lemma rep_ring x xs L h : rep ((x, xs) :: L) h -> ring h x xs.
Proof. intros [_ _ H]. apply H. set_solver. Qed.

(** The neighbours of an entry, and of the head. *)
Lemma ring_nbrs h x l1 e l2 : ring h x (l1 ++ e :: l2) ->
  exists p n, last (x :: l1) = Some p /\ head (l2 ++ [x]) = Some n /\ prev h !! e = Some p /\ next h !! e = Some n.
Proof.
  unfold ring. intros H. destruct (exists_last (l := x :: l1) ltac:(done)) as (A & p & HA).
  destruct (l2 ++ [x]) as [|n N] eqn:HE; [by destruct l2|]. exists p, n.
  rewrite <- app_assoc, app_comm_cons, HA in H. cbn [app] in H. rewrite HE, <- app_assoc in H. cbn [app] in H.
  apply linked_app in H as [_ (H1 & H2 & H3 & H4 & _)]. rewrite HA, last_snoc. done.
Qed.
Lemma ring_ends h x xs : ring h x xs ->
  exists p n, last (x :: xs) = Some p /\ head (xs ++ [x]) = Some n /\ prev h !! x = Some p /\ next h !! x = Some n.
Proof.
  unfold ring. intros H. destruct (exists_last (l := x :: xs) ltac:(done)) as (A & p & HA).
  destruct (xs ++ [x]) as [|n N] eqn:HE; [by destruct xs|]. exists p, n.
  rewrite HA, last_snoc. split_and!; try done; [|by destruct H].
  rewrite <- HE, app_comm_cons, HA, <- app_assoc in H. cbn [app] in H. by apply linked_app in H as [_ (_ & ? & _)].
Qed.
Lemma ring_single h e : ring (link e e h) e [].
Proof. apply linked_two. Qed.
Lemma last_in {A} (l : list A) x : last l = Some x -> x ∈ l.
Proof. intros [l' ->]%last_Some. set_solver. Qed.
Lemma head_in {A} (l : list A) x : head l = Some x -> x ∈ l.
Proof. destruct l; [done|]. intros [= ->]. set_solver. Qed.

(** ** Running the operations *)

Ltac run_lookup := first [eassumption | reflexivity |
  (cbn [next prev put_next put_prev];
   repeat first [rewrite lookup_insert_eq | rewrite lookup_insert_ne by congruence]; first [reflexivity | eassumption])].
Ltac run :=
  repeat first
  [ rewrite bind_assoc
  | eapply bind_reads; [run_lookup|]
  | eapply bind_update; [rewrite decide_True by done; reflexivity|]
  | apply run_update; rewrite decide_True by done; reflexivity ].

Lemma list_init_run e h : e ∈ nodes h -> list_init e h = Some (tt, link e e h).
Proof. intros He. unfold list_init, set_next, set_prev. run. Qed.
Lemma list_add__run e p n h : e ∈ nodes h -> p ∈ nodes h -> n ∈ nodes h -> __list_add e p n h = Some (tt, link p e (link e n h)).
Proof. intros He Hp Hn. unfold __list_add, set_next, set_prev. run. Qed.
Lemma list_del__run p n h : p ∈ nodes h -> n ∈ nodes h -> __list_del p n h = Some (tt, link p n h).
Proof. intros Hp Hn. unfold __list_del, set_next, set_prev. run. Qed.
Lemma list_del_entry__run e p n h : prev h !! e = Some p -> next h !! e = Some n -> p ∈ nodes h -> n ∈ nodes h ->
  __list_del_entry e h = Some (tt, link p n h).
Proof. intros Ep En Hp Hn. unfold __list_del_entry, get_next, get_prev. run. Qed.

(** ** Adding and removing entries *)

Section entries.
Context (h : heap) (L : list (loc * list loc)).

(** The side conditions: addresses in or out of the cells of the rings. *)
Ltac cells_solve := cbn [cells] in *; repeat rewrite ?cells_app in *; cbn [mbind list_bind app fst snd] in *; set_solver.

Lemma link2_other g n p f x xs : g ∉ x :: xs -> n ∉ x :: xs -> p ∉ x :: xs -> f ∉ x :: xs ->
  ring h x xs -> ring (link g n (link p f h)) x xs.
Proof. intros. apply ring_link_other; [done..|]. by apply ring_link_other. Qed.

(** Put the fresh nodes [F], linked, into a list. *)
Lemma rep_insert x l1 F l2 p n f g :
  rep ((x, l1 ++ l2) :: L) h -> linked h F -> head F = Some f -> last F = Some g -> NoDup F ->
  (forall a, a ∈ F -> a ∈ nodes h /\ a ∉ cells ((x, l1 ++ l2) :: L)) ->
  last (x :: l1) = Some p -> head (l2 ++ [x]) = Some n ->
  rep ((x, l1 ++ F ++ l2) :: L) (link g n (link p f h)).
Proof.
  intros Hr HF Hf Hg HN Hfr Hp Hn. pose proof (rep_nodup _ _ Hr) as HN0.
  rewrite cells_cons in *.
  apply NoDup_app in HN0 as (HN1 & Hd & HN2).
  assert (NoDup (x :: l1 ++ F ++ l2)) as HNF.
  { apply NoDup_cons in HN1 as [Hx HN1]. apply NoDup_app in HN1 as (H1 & H12 & H2). apply NoDup_cons. split; [set_solver|].
    apply NoDup_app. split_and!; [done|set_solver|]. apply NoDup_app. set_solver. }
  pose proof (last_in _ _ Hp) as Hpi. pose proof (head_in _ _ Hn) as Hni. pose proof (head_in _ _ Hf) as Hfi. pose proof (last_in _ _ Hg) as Hgi.
  apply (rep_update [(x, l1 ++ l2)] [(x, l1 ++ F ++ l2)] L h); [done|done|by rewrite cells_one| | |].
  - intros a Ha. rewrite cells_one in Ha.
    destruct (decide (a ∈ F)) as [HaF|HaF].
    + specialize (Hfr a HaF). set_solver.
    + assert (a ∈ x :: l1 ++ l2) as Ha' by set_solver. split; [|by apply Hd].
      eapply rep_in; [done|]. rewrite cells_cons. set_solver.
  - intros y ys [= -> ->]%list_elem_of_singleton. apply ring_insert; try done. by eapply rep_ring.
  - intros y ys Hy. rewrite cells_one in Hy.
    apply link2_other; intros Hin; destruct (Hy _ Hin) as [Hy1 Hy2].
    + apply (Hfr g Hgi). apply elem_of_app. by right.
    + apply Hy1. clear -Hni. set_solver.
    + apply Hy1. clear -Hpi. set_solver.
    + apply (Hfr f Hfi). apply elem_of_app. by right.
Qed.

(** Take the entries [F] out; they stay linked. *)
Lemma rep_cut x l1 F l2 p n :
  rep ((x, l1 ++ F ++ l2) :: L) h -> last (x :: l1) = Some p -> head (l2 ++ [x]) = Some n ->
  rep ((x, l1 ++ l2) :: L) (link p n h).
Proof.
  intros Hr Hp Hn. pose proof (rep_nodup _ _ Hr) as HN0.
  rewrite cells_cons in *.
  apply NoDup_app in HN0 as (HN1 & Hd & HN2).
  assert (NoDup (x :: l1 ++ l2)) as HN'.
  { apply NoDup_cons in HN1 as [? HN]. apply NoDup_app in HN as (? & ? & HN). apply NoDup_app in HN as (? & ? & ?).
    apply NoDup_cons. split; [set_solver|]. apply NoDup_app. set_solver. }
  pose proof (last_in _ _ Hp) as Hpi. pose proof (head_in _ _ Hn) as Hni.
  apply (rep_update [(x, l1 ++ F ++ l2)] [(x, l1 ++ l2)] L h); [done|done|by rewrite cells_one| | |].
  - intros a Ha. rewrite cells_one in Ha.
    split; [|apply Hd; set_solver]. eapply rep_in; [done|]. rewrite cells_cons. set_solver.
  - intros y ys [= -> ->]%list_elem_of_singleton. eapply ring_cut; try done. by eapply rep_ring.
  - intros y ys Hy. rewrite cells_one in Hy.
    apply ring_link_other; intros Hin; destruct (Hy _ Hin) as [Hy1 Hy2]; apply Hy1.
    + clear -Hpi. set_solver.
    + clear -Hni. set_solver.
Qed.

(** A node of its own becomes an empty list. *)
Lemma rep_init e : rep L h -> e ∈ nodes h -> e ∉ cells L -> rep ((e, []) :: L) (link e e h).
Proof.
  intros Hr He Hn. apply (rep_update [] [(e, [])] L h); [done|done|apply NoDup_singleton| | |].
  - intros a Ha. assert (a = e) as -> by set_solver. done.
  - intros y ys [= -> ->]%list_elem_of_singleton. apply ring_single.
  - intros x xs Hx. apply ring_link_other; intros Hin; by destruct (Hx _ Hin).
Qed.
End entries.
(** ** The operations on the collection *)

(** [m] ends without a failure, keeps the live nodes, and leaves memory in [Q]. *)
Definition runs (m : M unit) (h : heap) (Q : heap -> Prop) : Prop :=
  exists h', m h = Some (tt, h') /\ nodes h' = nodes h /\ Q h'.

Lemma runs_bind m k h Q R : runs m h Q -> (forall h', nodes h' = nodes h -> Q h' -> runs k h' R) -> runs (m ;; k) h R.
Proof.
  intros (h1 & E1 & N1 & Q1) Hk. destruct (Hk h1 N1 Q1) as (h2 & E2 & N2 & Q2).
  exists h2. split; [by eapply bind_run|]. split; [congruence|done].
Qed.
Lemma runs_ret h (Q : heap -> Prop) : Q h -> runs (mret tt) h Q.
Proof. intros. by exists h. Qed.

Lemma link_comm a b c d h : a <> c -> b <> d -> link a b (link c d h) = link c d (link a b h).
Proof.
  intros Hac Hbd. unfold link, put_next, put_prev. simpl. f_equal; by apply insert_insert_ne.
Qed.

(** Fresh nodes. *)
Definition fresh_node (e : loc) (L : list (loc * list loc)) (h : heap) : Prop := e ∈ nodes h /\ e ∉ cells L.

Section ops.
Context (L : list (loc * list loc)).

Lemma rep_ends x xs h : rep ((x, xs) :: L) h -> exists p n, last (x :: xs) = Some p /\ head (xs ++ [x]) = Some n /\
  prev h !! x = Some p /\ next h !! x = Some n /\ p ∈ nodes h /\ n ∈ nodes h /\ x ∈ nodes h.
Proof.
  intros Hr. destruct (ring_ends _ _ _ (rep_ring _ _ _ _ Hr)) as (p & n & Hp & Hn & Ep & En).
  pose proof (last_in _ _ Hp). pose proof (head_in _ _ Hn). exists p, n. split_and!; try done; eapply rep_in; try done; rewrite cells_cons; set_solver.
Qed.
Lemma rep_nbrs x l1 e l2 h : rep ((x, l1 ++ e :: l2) :: L) h -> exists p n, last (x :: l1) = Some p /\ head (l2 ++ [x]) = Some n /\
  prev h !! e = Some p /\ next h !! e = Some n /\ p ∈ nodes h /\ n ∈ nodes h /\ e ∈ nodes h /\ p <> e /\ n <> e.
Proof.
  intros Hr. destruct (ring_nbrs _ _ _ _ _ (rep_ring _ _ _ _ Hr)) as (p & n & Hp & Hn & Ep & En).
  pose proof (last_in _ _ Hp) as Hpi. pose proof (head_in _ _ Hn) as Hni. exists p, n.
  pose proof (rep_nodup _ _ Hr) as HN. rewrite cells_cons in HN. apply NoDup_app in HN as (HN & _ & _).
  apply NoDup_cons in HN as [Hx HN]. apply NoDup_app in HN as (_ & H12 & HN). apply NoDup_cons in HN as [He _].
  split_and!; try done; try (eapply rep_in; [done|]; rewrite cells_cons; set_solver).
  - intros ->. apply elem_of_cons in Hpi as [->|Hpi]; [set_solver|]. by apply (H12 e Hpi); left.
  - intros ->. apply elem_of_app in Hni as [?|?%list_elem_of_singleton]; [done|]. subst. set_solver.
Qed.

(** [__list_add] between two neighbours. *)
Lemma rep_add_between x l1 l2 p n e h : rep ((x, l1 ++ l2) :: L) h -> fresh_node e ((x, l1 ++ l2) :: L) h ->
  last (x :: l1) = Some p -> head (l2 ++ [x]) = Some n -> p ∈ nodes h -> n ∈ nodes h ->
  runs (__list_add e p n) h (rep ((x, l1 ++ e :: l2) :: L)).
Proof.
  intros Hr [He Hf] Hp Hn Hpn Hnn. exists (link p e (link e n h)). split; [by apply list_add__run|]. split; [done|].
  rewrite cells_cons in Hf. pose proof (last_in _ _ Hp). pose proof (head_in _ _ Hn).
  rewrite link_comm; cycle 1.
  { intros ->. set_solver. }
  { intros ->. set_solver. }
  apply (rep_insert _ _ x l1 [e] l2); try done; [apply NoDup_singleton|].
  intros a ->%list_elem_of_singleton. by rewrite cells_cons.
Qed.

Lemma list_add_rep x xs e h : rep ((x, xs) :: L) h -> fresh_node e ((x, xs) :: L) h ->
  runs (list_add e x) h (rep ((x, e :: xs) :: L)).
Proof.
  intros Hr He. destruct (rep_ends _ _ _ Hr) as (p & n & Hp & Hn & Ep & En & Hpn & Hnn & Hxn).
  destruct (rep_add_between x [] xs x n e h) as (h' & E & N & R); [done..|]. exists h'. split; [|done].
  unfold list_add. by eapply bind_reads.
Qed.
Lemma list_add_tail_rep x xs e h : rep ((x, xs) :: L) h -> fresh_node e ((x, xs) :: L) h ->
  runs (list_add_tail e x) h (rep ((x, xs ++ [e]) :: L)).
Proof.
  intros Hr He. destruct (rep_ends _ _ _ Hr) as (p & n & Hp & Hn & Ep & En & Hpn & Hnn & Hxn).
  destruct (rep_add_between x xs [] p x e h) as (h' & E & N & R); try done; try (by rewrite app_nil_r).
  exists h'. split; [|done]. unfold list_add_tail. by eapply bind_reads.
Qed.

(** The entry that [__list_del_entry] takes out is free again. *)
Lemma list_del_entry_rep x l1 e l2 h : rep ((x, l1 ++ e :: l2) :: L) h ->
  runs (__list_del_entry e) h (fun h' => rep ((x, l1 ++ l2) :: L) h' /\ fresh_node e ((x, l1 ++ l2) :: L) h').
Proof.
  intros Hr. destruct (rep_nbrs _ _ _ _ _ Hr) as (p & n & Hp & Hn & Ep & En & Hpn & Hnn & Hen & _ & _).
  exists (link p n h). split; [by apply list_del_entry__run|]. split; [done|]. split; [by apply (rep_cut _ _ x l1 [e] l2)|].
  split; [done|]. pose proof (rep_nodup _ _ Hr) as HN. rewrite cells_cons in HN |- *. apply NoDup_app in HN as (HN & H1 & _).
  specialize (H1 e). apply NoDup_cons in HN as [Hx HN]. apply NoDup_app in HN as (_ & H12 & HN). apply NoDup_cons in HN as [He _].
  specialize (H12 e). set_solver.
Qed.

Lemma list_del_rep x l1 e l2 h : rep ((x, l1 ++ e :: l2) :: L) h ->
  runs (list_del e) h (fun h' => rep ((x, l1 ++ l2) :: L) h' /\ next h' !! e = Some LIST_POISON1 /\ prev h' !! e = Some LIST_POISON2).
Proof.
  intros Hr. destruct (list_del_entry_rep _ _ _ _ _ Hr) as (h1 & E1 & N1 & R1 & He & Hf).
  exists (put_prev e LIST_POISON2 (put_next e LIST_POISON1 h1)). split; [|split; [done|split; [|split]]].
  - destruct (rep_nbrs _ _ _ _ _ Hr) as (p & n & Hp & Hn & Ep & En & Hpn & Hnn & Hen & _ & _).
    rewrite (list_del_entry__run e p n) in E1 by done. injection E1 as <-.
    unfold list_del, get_next, get_prev, __list_del, set_next, set_prev. run.
  - destruct R1 as [R1 R2 R3]. split; [done|done|]. intros y ys Hy. eapply linked_frame; [| |by apply R3].
    + intros a Ha. simpl. apply lookup_insert_ne. intros ->. apply Hf. eapply cells_in; [done|].
      change (y :: ys ++ [y]) with ((y :: ys) ++ [y]) in Ha. by rewrite removelast_snoc in Ha.
    + intros b Hb. simpl. apply lookup_insert_ne. intros ->. apply Hf. eapply cells_in; [done|]. simpl in Hb. set_solver.
  - apply lookup_insert_eq.
  - apply lookup_insert_eq.
Qed.

Lemma list_init_rep R e h : rep R h -> fresh_node e R h -> runs (list_init e) h (rep ((e, []) :: R)).
Proof. intros Hr [He Hf]. exists (link e e h). split; [by apply list_init_run|]. split; [done|]. by apply rep_init. Qed.

Lemma list_del_init_rep x l1 e l2 h : rep ((x, l1 ++ e :: l2) :: L) h ->
  runs (list_del_init e) h (rep ((e, []) :: (x, l1 ++ l2) :: L)).
Proof.
  intros Hr. eapply runs_bind; [by apply list_del_entry_rep|]. intros h1 _ [R1 F1]. by apply list_init_rep.
Qed.

Lemma list_replace_rep x l1 e l2 e' h : rep ((x, l1 ++ e :: l2) :: L) h -> fresh_node e' ((x, l1 ++ e :: l2) :: L) h ->
  runs (list_replace e e') h (fun h' => rep ((x, l1 ++ e' :: l2) :: L) h' /\ fresh_node e ((x, l1 ++ e' :: l2) :: L) h').
Proof.
  intros Hr [He' Hf']. destruct (rep_nbrs _ _ _ _ _ Hr) as (p & n & Hp & Hn & Ep & En & Hpn & Hnn & Hen & Hpe & Hne).
  destruct (list_del_entry_rep _ _ _ _ _ Hr) as (h1 & E1 & N1 & R1 & He & Hf).
  rewrite (list_del_entry__run e p n) in E1 by done. injection E1 as <-.
  rewrite cells_cons in *. pose proof (last_in _ _ Hp). pose proof (head_in _ _ Hn).
  assert (p <> e') as Hpe' by (intros ->; set_solver). assert (n <> e') as Hne' by (intros ->; set_solver).
  assert (e <> e') as Hee by (intros ->; set_solver).
  exists (link p e' (link e' n h)). split; [|split; [done|split; [|split; [done|]]]].
  - unfold list_replace, get_next, get_prev, set_next, set_prev. run.
  - assert (link p e' (link e' n h) = link p e' (link e' n (link p n h))) as ->.
    { unfold link, put_next, put_prev. simpl. f_equal.
      - rewrite (insert_insert_ne _ e' p) by congruence. by rewrite insert_insert_eq.
      - by rewrite insert_insert_eq. }
    destruct (rep_add_between x l1 l2 p n e' (link p n h)) as (h2 & E2 & _ & R2); try done.
    { split; [done|]. rewrite cells_cons. set_solver. }
    rewrite list_add__run in E2 by done. by injection E2 as <-.
  - rewrite cells_cons. set_solver.
Qed.
Lemma list_replace_init_rep x l1 e l2 e' h : rep ((x, l1 ++ e :: l2) :: L) h -> fresh_node e' ((x, l1 ++ e :: l2) :: L) h ->
  runs (list_replace_init e e') h (rep ((e, []) :: (x, l1 ++ e' :: l2) :: L)).
Proof.
  intros Hr He. eapply runs_bind; [by apply list_replace_rep|]. intros h1 _ [R1 F1]. by apply list_init_rep.
Qed.

(** Moves inside a list and between lists. *)
Lemma list_move_rep x l1 e l2 h : rep ((x, l1 ++ e :: l2) :: L) h ->
  runs (list_move e x) h (rep ((x, e :: l1 ++ l2) :: L)) /\ runs (list_move_tail e x) h (rep ((x, (l1 ++ l2) ++ [e]) :: L)).
Proof.
  intros Hr. split; (eapply runs_bind; [by apply list_del_entry_rep|]; intros h1 _ [R1 F1]).
  - by apply list_add_rep.
  - by apply list_add_tail_rep.
Qed.
End ops.

Lemma list_move_other_rep L x l1 e l2 y ys h : rep ((x, l1 ++ e :: l2) :: (y, ys) :: L) h ->
  runs (list_move e y) h (rep ((x, l1 ++ l2) :: (y, e :: ys) :: L)) /\
  runs (list_move_tail e y) h (rep ((x, l1 ++ l2) :: (y, ys ++ [e]) :: L)).
Proof.
  intros Hr. split; (eapply runs_bind; [by apply list_del_entry_rep|]; intros h1 _ [R1 F1]).
  - destruct (list_add_rep ((x, l1 ++ l2) :: L) y ys e h1) as (h2 & E & N & R2).
    { eapply rep_permute; [|done]. apply Permutation_swap. }
    { destruct F1 as [F1 F2]. split; [done|]. rewrite !cells_cons in *. set_solver. }
    exists h2. split; [done|]. split; [done|]. eapply rep_permute; [|done]. apply Permutation_swap.
  - destruct (list_add_tail_rep ((x, l1 ++ l2) :: L) y ys e h1) as (h2 & E & N & R2).
    { eapply rep_permute; [|done]. apply Permutation_swap. }
    { destruct F1 as [F1 F2]. split; [done|]. rewrite !cells_cons in *. set_solver. }
    exists h2. split; [done|]. split; [done|]. eapply rep_permute; [|done]. apply Permutation_swap.
Qed.
(** ** Whole lists *)

Section queries.
Context (L : list (loc * list loc)).

Lemma list_empty_run x xs h : rep ((x, xs) :: L) h -> list_empty x h = Some (bool_decide (xs = []), h).
Proof.
  intros Hr. destruct (rep_ends _ _ _ _ Hr) as (p & n & Hp & Hn & Ep & En & _).
  unfold list_empty, get_next. eapply bind_reads; [done|]. unfold mret, ST_ret. do 2 f_equal.
  pose proof (rep_nodup _ _ Hr) as HN. rewrite cells_cons in HN. apply NoDup_app in HN as (HN & _ & _). apply NoDup_cons in HN as [HN _].
  destruct xs as [|y xs]; injection Hn as <-; [by rewrite N.eqb_refl|]. rewrite bool_decide_false by done. apply N.eqb_neq. set_solver.
Qed.
Lemma list_empty_careful_run x xs h : rep ((x, xs) :: L) h -> list_empty_careful x h = Some (bool_decide (xs = []), h).
Proof.
  intros Hr. pose proof (list_empty_run _ _ _ Hr) as E. destruct (rep_ends _ _ _ _ Hr) as (p & n & Hp & Hn & Ep & En & _).
  unfold list_empty, get_next, mret, ST_ret in E. unfold mbind, ST_bind, reads in E. rewrite En in E. injection E as E.
  unfold list_empty_careful, get_next, get_prev. eapply bind_reads; [done|]. rewrite E.
  destruct xs as [|y xs]; [|done]. eapply bind_reads; [done|]. injection Hp as <-. injection Hn as <-. by rewrite N.eqb_refl.
Qed.
Lemma list_is_last_run x l1 e l2 h : rep ((x, l1 ++ e :: l2) :: L) h -> list_is_last e x h = Some (bool_decide (l2 = []), h).
Proof.
  intros Hr. destruct (rep_nbrs _ _ _ _ _ _ Hr) as (p & n & Hp & Hn & Ep & En & _).
  unfold list_is_last, get_next. eapply bind_reads; [done|]. unfold mret, ST_ret. do 2 f_equal.
  pose proof (rep_nodup _ _ Hr) as HN. rewrite cells_cons in HN. apply NoDup_app in HN as (HN & _ & _). apply NoDup_cons in HN as [HN _].
  destruct l2 as [|y l2]; injection Hn as <-; [by rewrite N.eqb_refl|]. rewrite bool_decide_false by done. apply N.eqb_neq. set_solver.
Qed.
Lemma list_is_singular_run x xs h : rep ((x, xs) :: L) h -> list_is_singular x h = Some (bool_decide (length xs = 1%nat), h).
Proof.
  intros Hr. unfold list_is_singular. eapply bind_run; [by eapply list_empty_run|].
  destruct (rep_ends _ _ _ _ Hr) as (p & n & Hp & Hn & Ep & En & _).
  pose proof (rep_nodup _ _ Hr) as HN. rewrite cells_cons in HN. apply NoDup_app in HN as (HN & _ & _). apply NoDup_cons in HN as [_ HN].
  destruct xs as [|y xs]; [done|]. rewrite bool_decide_false by done. simpl negb. cbv iota. unfold get_next, get_prev.
  do 2 (eapply bind_reads; [done|]). unfold mret, ST_ret. do 2 f_equal. injection Hn as <-. rewrite last_cons_cons in Hp.
  destruct xs as [|z xs]; [injection Hp as <-; by rewrite N.eqb_refl|]. rewrite bool_decide_false by (simpl; lia).
  apply N.eqb_neq. intros ->. rewrite last_cons_cons in Hp. apply last_in in Hp. apply NoDup_cons in HN. tauto.
Qed.

End queries.

Section whole.
Context (L : list (loc * list loc)).

(** Everything in [list] goes between two neighbours of another list; [list] itself is left
    as it was, linked to by nobody. *)
Lemma rep_splice x F y l1 l2 p n f g h : rep ((x, F) :: (y, l1 ++ l2) :: L) h -> head F = Some f -> last F = Some g ->
  last (y :: l1) = Some p -> head (l2 ++ [y]) = Some n ->
  rep ((y, l1 ++ F ++ l2) :: L) (link g n (link p f h)).
Proof.
  intros Hr Hf Hg Hp Hn. pose proof (rep_nodup _ _ Hr) as HN. rewrite cells_cons in HN. apply NoDup_app in HN as (HN & Hd & _).
  apply NoDup_cons in HN as [Hx HN]. pose proof (rep_ring _ _ _ _ Hr) as HR.
  apply rep_insert; try done.
  - by apply (rep_tail [(x, F)]).
  - unfold ring in HR. destruct F as [|f' F]; [done|]. change (linked h ([x] ++ f' :: (F ++ [x]))) in HR. apply linked_app in HR as [_ HR].
    rewrite app_comm_cons in HR. destruct (exists_last (l := f' :: F) ltac:(done)) as (G & z & E). rewrite E in *.
    rewrite <- app_assoc in HR. simpl in HR. by apply linked_app in HR as [? _].
  - intros a Ha. split; [|apply Hd; set_solver]. eapply rep_in; [done|]. rewrite cells_cons. set_solver.
Qed.

Lemma list_splice__run x p n f g h : next h !! x = Some f -> prev h !! x = Some g -> f ∈ nodes h -> g ∈ nodes h ->
  p ∈ nodes h -> n ∈ nodes h -> __list_splice x p n h = Some (tt, link g n (link p f h)).
Proof. intros Ef Eg Hf Hg Hp Hn. unfold __list_splice, get_next, get_prev, set_next, set_prev. run. Qed.

Lemma rep_no_list x y ys h : rep ((x, []) :: (y, ys) :: L) h -> rep ((y, ys) :: L) h.
Proof. apply (rep_tail [(x, [])]). Qed.

(** The contents of [x], not empty, spliced before or behind the head [y]. *)
Lemma list_splice_cases x F y ys h : rep ((x, F) :: (y, ys) :: L) h -> F <> [] ->
  runs (n ← get_next y; __list_splice x y n) h (rep ((y, F ++ ys) :: L)) /\
  runs (p ← get_prev y; __list_splice x p y) h (rep ((y, ys ++ F) :: L)).
Proof.
  intros Hr HF. destruct (rep_ends _ _ _ _ Hr) as (g & f & Hg & Hf & Eg & Ef & Hgn & Hfn & Hxn).
  destruct (rep_ends ((x, F) :: L) y ys h) as (p & n & Hp & Hn & Ep & En & Hpn & Hnn & Hyn).
  { eapply rep_permute; [apply Permutation_swap|done]. }
  destruct F as [|f' F]; [done|]. injection Hf as <-. rewrite last_cons_cons in Hg. unfold get_next, get_prev. split.
  - exists (link g n (link y f' h)). split; [eapply bind_reads; [done|]; by apply list_splice__run|]. split; [done|].
    by apply (rep_splice x (f' :: F) y [] ys).
  - exists (link g y (link p f' h)). split; [eapply bind_reads; [done|]; by apply list_splice__run|]. split; [done|].
    pose proof (rep_splice x (f' :: F) y ys [] p y f' g h) as H. rewrite !app_nil_r in H. by apply H.
Qed.

Lemma splice_fresh x F y ys h h' : rep ((x, F) :: (y, ys) :: L) h -> nodes h' = nodes h ->
  fresh_node x ((y, F ++ ys) :: L) h' /\ fresh_node x ((y, ys ++ F) :: L) h'.
Proof.
  intros Hr Hn. pose proof (rep_nodup _ _ Hr) as HN. rewrite cells_cons in HN. apply NoDup_app in HN as (HN & Hd & _).
  apply NoDup_cons in HN as [Hx HN]. specialize (Hd x ltac:(set_solver)). rewrite cells_cons in Hd.
  assert (x ∈ nodes h') as Hxn by (rewrite Hn; eapply rep_in; [done|]; rewrite cells_cons; set_solver).
  split; (split; [done|]); rewrite cells_cons; set_solver.
Qed.

Lemma list_splice_rep x F y ys h : rep ((x, F) :: (y, ys) :: L) h ->
  runs (list_splice x y) h (rep ((y, F ++ ys) :: L)) /\
  runs (list_splice_tail x y) h (rep ((y, ys ++ F) :: L)) /\
  runs (list_splice_init x y) h (rep ((x, []) :: (y, F ++ ys) :: L)) /\
  runs (list_splice_tail_init x y) h (rep ((x, []) :: (y, ys ++ F) :: L)).
Proof.
  intros Hr. pose proof (list_empty_run _ _ _ _ Hr) as Ee.
  assert (forall m Q, runs (if negb (bool_decide (F = [])) then m else mret tt) h Q ->
            runs (e ← list_empty x; if negb e then m else mret tt) h Q) as Hm.
  { intros m Q (h' & E & HQ). exists h'. split; [|done]. by eapply bind_run. }
  unfold list_splice, list_splice_tail, list_splice_init, list_splice_tail_init.
  split_and!; apply Hm; clear Hm; destruct (decide (F = [])) as [->|HF].
  all: try (rewrite bool_decide_true by done; apply runs_ret; rewrite ?app_nil_r; first [done | by apply (rep_no_list x)]).
  all: rewrite bool_decide_false by done; destruct (list_splice_cases _ _ _ _ _ Hr HF) as [H1 H2].
  - exact H1.
  - exact H2.
  - destruct H1 as (h1 & E & N & R). destruct (splice_fresh _ _ _ _ _ h1 Hr N) as [Hf _].
    destruct (list_init_rep _ x h1 R Hf) as (h2 & E2 & N2 & R2). exists h2. split; [|split; [congruence|done]].
    simpl negb. cbv iota. rewrite <- (bind_assoc (get_next y) (fun n => __list_splice x y n) (fun _ => list_init x)). by eapply bind_run.
  - destruct H2 as (h1 & E & N & R). destruct (splice_fresh _ _ _ _ _ h1 Hr N) as [_ Hf].
    destruct (list_init_rep _ x h1 R Hf) as (h2 & E2 & N2 & R2). exists h2. split; [|split; [congruence|done]].
    simpl negb. cbv iota. rewrite <- (bind_assoc (get_prev y) (fun p => __list_splice x p y) (fun _ => list_init x)). by eapply bind_run.
Qed.

Lemma list_join_rep x F y ys h : rep ((x, F) :: (y, ys) :: L) h -> runs (list_join x y) h (rep ((y, ys ++ F) :: L)).
Proof.
  intros Hr. destruct (decide (F = [])) as [->|HF].
  { exists h. split; [|split; [done|rewrite app_nil_r; by apply (rep_no_list x)]]. unfold list_join. by eapply bind_run; [by eapply list_empty_run|]. }
  destruct (rep_ends _ _ _ _ Hr) as (g & f & Hg & Hf & Eg & Ef & Hgn & Hfn & Hxn).
  destruct (rep_ends ((x, F) :: L) y ys h) as (p & n & Hp & Hn & Ep & En & Hpn & Hnn & Hyn).
  { eapply rep_permute; [apply Permutation_swap|done]. }
  destruct F as [|f' F]; [done|]. injection Hf as <-. rewrite last_cons_cons in Hg.
  exists (link g y (link p f' h)). split; [|split; [done|]].
  - unfold list_join. eapply bind_run; [by eapply list_empty_run|]. rewrite bool_decide_false by done. simpl negb. cbv iota.
    unfold get_next, get_prev, set_next, set_prev. run.
  - pose proof (rep_splice x (f' :: F) y ys [] p y f' g h) as H. rewrite !app_nil_r in H. by apply H.
Qed.

Lemma list_rotate_left_rep x a xs h : rep ((x, a :: xs) :: L) h -> runs (list_rotate_left x) h (rep ((x, xs ++ [a]) :: L)).
Proof.
  intros Hr. destruct (rep_ends _ _ _ _ Hr) as (p & n & Hp & Hn & Ep & En & _). injection Hn as <-.
  destruct (list_move_rep L x [] a xs h Hr) as [_ (h' & E & N & R)]. exists h'. split; [|done].
  unfold list_rotate_left. eapply bind_run; [by eapply list_empty_run|]. rewrite bool_decide_false by done. simpl negb. cbv iota.
  unfold get_next. by eapply bind_reads.
Qed.
Lemma list_rotate_left_nil x h : rep ((x, []) :: L) h -> list_rotate_left x h = Some (tt, h).
Proof. intros Hr. unfold list_rotate_left. by eapply bind_run; [by eapply list_empty_run|]. Qed.
End whole.
Lemma ring_segment h x l1 F l2 : ring h x (l1 ++ F ++ l2) -> linked h F.
Proof.
  unfold ring. intros H. destruct (decide (F = [])) as [->|HF]; [done|].
  destruct (exists_last HF) as (G & z & ->). destruct G as [|f G]; [done|].
  rewrite ring_list in H. rewrite <- app_assoc in H. cbn [app] in H.
  change (linked h ((x :: l1) ++ f :: (G ++ z :: (l2 ++ [x])))) in H. apply linked_app in H as [_ H].
  rewrite app_comm_cons in H. by apply linked_app in H as [H _].
Qed.

Section cut.
Context (L : list (loc * list loc)).

Lemma list_movelist_rep x xs y h : rep ((x, xs) :: L) h -> fresh_node y ((x, xs) :: L) h ->
  runs (list_movelist x y) h (rep ((x, []) :: (y, xs) :: L)).
Proof.
  intros Hr Hy. destruct (list_init_rep _ y h Hr Hy) as (h1 & E1 & N1 & R1).
  assert (rep ((x, xs) :: (y, []) :: L) h1) as R1' by (eapply rep_permute; [apply Permutation_swap|done]).
  destruct (decide (xs = [])) as [->|Hne].
  { exists h1. split; [|done]. unfold list_movelist. eapply bind_run; [by eapply list_empty_run|]. done. }
  destruct (list_splice_rep L x xs y [] h1 R1') as (_ & _ & (h2 & E2 & N2 & R2) & _). rewrite app_nil_r in R2.
  exists h2. split; [|split; [congruence|done]].
  destruct Hy as [Hyn Hyc]. rewrite list_init_run in E1 by done. injection E1 as <-.
  destruct (rep_ends _ _ _ _ Hr) as (g & f & Hg & Hf & Eg & Ef & Hgn & Hfn & Hxn).
  rewrite cells_cons in Hyc.
  destruct xs as [|f' xs]; [done|]. injection Hf as <-. rewrite last_cons_cons in Hg. pose proof (last_in _ _ Hg).
  assert (f' <> y) as Hfy by (intros ->; set_solver). assert (g <> y) as Hgy by (intros ->; set_solver).
  assert (x <> y) as Hxy by (intros ->; set_solver).
  assert (list_splice_init x y (link y y h) = Some (tt, link x x (link g y (link y f' (link y y h))))) as E.
  { unfold list_splice_init. eapply bind_run; [by eapply list_empty_run|]. rewrite bool_decide_false by done. simpl negb. cbv iota.
    unfold get_next at 1. eapply bind_reads; [apply lookup_insert_eq|].
    eapply bind_run; [apply (list_splice__run x y y f' g); try done; simpl; by rewrite lookup_insert_ne|].
    by apply list_init_run. }
  rewrite E in E2. injection E2 as <-.
  unfold list_movelist. eapply bind_run; [by eapply list_empty_run|]. rewrite bool_decide_false by done. simpl negb. cbv iota.
  unfold get_next, get_prev, set_next, set_prev. run. eapply eq_trans; [apply run_update; rewrite decide_True by done; reflexivity|].
  unfold link, put_next, put_prev. simpl. do 4 f_equal.
  - by rewrite insert_insert_eq.
  - rewrite (insert_insert_ne _ y f') by done. by rewrite insert_insert_eq.
Qed.

(** The entries up to and including [e]. *)
Lemma list_cut_rep x l1 e l2 y h : rep ((x, l1 ++ e :: l2) :: L) h -> fresh_node y ((x, l1 ++ e :: l2) :: L) h ->
  runs (list_cut_position y x e) h (rep ((y, l1 ++ [e]) :: (x, l2) :: L)).
Proof.
  intros Hr [Hyn Hyc]. pose proof (rep_nodup _ _ Hr) as HN. rewrite cells_cons in HN, Hyc. apply NoDup_app in HN as (HN & Hd & _).
  destruct (rep_ends _ _ _ _ Hr) as (g & f & Hg & Hf & Eg & Ef & Hgn & Hfn & Hxn).
  destruct (rep_nbrs _ _ _ _ _ _ Hr) as (p & nf & Hp & Hnf & Ep & Enf & _ & Hnfn & Hen & _ & _).
  assert (f ∈ l1 ++ [e]) as Hf1 by (destruct l1; injection Hf as <-; set_solver).
  pose proof (head_in _ _ Hnf) as Hnf2.
  assert (e <> x /\ e <> y /\ x <> y /\ f <> nf /\ y <> f /\ y <> nf) as (Hex & Hey & Hxy & Hfnf & Hyf & Hynf).
  { apply NoDup_cons in HN as [Hx HN]. apply NoDup_app in HN as (H1 & H12 & H2). apply NoDup_cons in H2 as [He H2].
    split_and!; intros ->; try set_solver. }
  set (h1 := link y y h). set (h2 := link x nf h1). set (h3 := link e y (link y f h2)).
  assert (h3 = link x nf (link e y (link y f h))) as E3.
  { unfold h3, h2, h1. rewrite (link_comm y f x nf), (link_comm e y x nf) by congruence. f_equal.
    unfold link, put_next, put_prev. simpl. f_equal.
    - by rewrite insert_insert_eq.
    - rewrite (insert_insert_ne _ f y) by done. by rewrite insert_insert_eq. }
  assert (rep ((y, []) :: (x, l1 ++ e :: l2) :: L) h1) as R1 by (apply rep_init; [done|done|by rewrite cells_cons]).
  assert (rep ((x, (l1 ++ [e]) ++ l2) :: (y, []) :: L) h1) as R1'.
  { rewrite <- app_assoc. eapply rep_permute; [apply Permutation_swap|done]. }
  pose proof (rep_cut _ _ x [] (l1 ++ [e]) l2 x nf R1' eq_refl Hnf) as R2. fold h2 in R2. simpl app in R2.
  assert (linked h2 (l1 ++ [e])) as HF.
  { pose proof (rep_ring _ _ _ _ Hr) as HR. change (l1 ++ e :: l2) with ([] ++ l1 ++ ([e] ++ l2)) in HR.
    rewrite (app_assoc l1) in HR. apply ring_segment in HR.
    apply NoDup_cons in HN as [Hx HN]. apply NoDup_app in HN as (H1 & H12 & H2).
    apply linked_link; [rewrite removelast_snoc; set_solver| |apply linked_link; [rewrite removelast_snoc; set_solver| |done]].
    - intros Hin%elem_of_tail_sub. apply elem_of_app in Hnf2 as [Hnf2|Hnf2%list_elem_of_singleton].
      + apply elem_of_app in Hin as [Hin|Hin%list_elem_of_singleton]; [|subst; apply NoDup_cons in H2; tauto]. apply (H12 nf); set_solver.
      + subst. set_solver.
    - intros Hin%elem_of_tail_sub. set_solver. }
  exists h3. split; [|split; [done|]].
  - unfold list_cut_position. eapply bind_run; [by eapply list_empty_run|]. rewrite bool_decide_false by (by destruct l1). cbv iota.
    eapply bind_run; [by eapply list_is_singular_run|].
    eapply (bind_run _ _ _ false).
    { case_bool_decide as Hl; [|done]. destruct l1; [|simpl in Hl; rewrite length_app in Hl; simpl in Hl; lia].
      unfold get_next. eapply bind_reads; [done|]. injection Hf as <-. by rewrite N.eqb_refl. }
    cbv iota. rewrite (proj2 (N.eqb_neq e x)) by done. rewrite E3.
    unfold __list_cut_position, get_next, get_prev, set_next, set_prev. run.
  - pose proof (rep_insert h2 ((x, l2) :: L) y [] (l1 ++ [e]) [] y y f e) as R3. rewrite (app_nil_r (l1 ++ [e])) in R3. apply R3; try done; clear R3.
    + eapply rep_permute; [apply Permutation_swap|done].
    + by destruct l1; injection Hf as <-.
    + by rewrite last_snoc.
    + apply NoDup_cons in HN as [Hx HN]. apply NoDup_app in HN as (H1 & H12 & H2). apply NoDup_app. split_and!; [done| |apply NoDup_singleton].
      intros a Ha ->%list_elem_of_singleton. apply (H12 e); set_solver.
    + intros a Ha. assert (a ∈ x :: l1 ++ e :: l2) as Ha' by (clear -Ha; set_solver).
      split; [apply (rep_in _ _ a Hr); rewrite cells_cons; apply elem_of_app; by left|].
      assert (a ∉ cells L) as HaL by by apply Hd.
      assert (a <> y) as Hay by (intros ->; apply Hyc, elem_of_app; by left). assert (a ∉ x :: l2) as Hax.
      { apply NoDup_cons in HN as [Hx HN]. apply NoDup_app in HN as (H1 & H12 & H2). apply NoDup_cons in H2 as [He H2].
        apply elem_of_app in Ha as [Ha| ->%list_elem_of_singleton]; [|set_solver]. specialize (H12 a Ha). set_solver. }
      rewrite !cells_cons. clear -HaL Hay Hax. set_solver.
Qed.
(** At the head itself nothing is cut, and nothing is done for an empty list. *)
Lemma list_cut_head x xs y h : rep ((x, xs) :: L) h -> fresh_node y ((x, xs) :: L) h ->
  if bool_decide (xs = []) then list_cut_position y x x h = Some (tt, h)
  else runs (list_cut_position y x x) h (rep ((y, []) :: (x, xs) :: L)).
Proof.
  intros Hr Hy. case_bool_decide as Hx.
  { unfold list_cut_position. eapply bind_run; [by eapply list_empty_run|]. by rewrite bool_decide_true. }
  destruct (list_init_rep _ y h Hr Hy) as (h1 & E1 & N1 & R1). exists h1. split; [|done].
  destruct (rep_ends _ _ _ _ Hr) as (g & f & Hg & Hf & Eg & Ef & _).
  unfold list_cut_position. eapply bind_run; [by eapply list_empty_run|]. rewrite bool_decide_false by done. cbv iota.
  eapply bind_run; [by eapply list_is_singular_run|].
  eapply (bind_run _ _ _ false).
  { case_bool_decide; [|done]. unfold get_next. eapply bind_reads; [done|]. by rewrite N.eqb_refl, andb_false_r. }
  cbv iota. by rewrite N.eqb_refl.
Qed.
End cut.

(** ** Iteration *)

Lemma hd_in (x : loc) rest : hd x rest ∈ rest ++ [x].
Proof. destruct rest; simpl; set_solver. Qed.

Lemma for_each_loop (step : loc -> M loc) (body : loc -> M unit) (x : loc) (P : list loc -> heap -> Prop) fuel rest h :
  (forall a r h, P (a :: r) h -> a <> x /\ exists h', body a h = Some (tt, h') /\ step a h' = Some (hd x r, h') /\ P r h') ->
  P rest h -> (length rest <= fuel)%nat ->
  exists h', for_each step body x (hd x rest) fuel h = Some (tt, h') /\ P [] h'.
Proof.
  intros Hb. revert rest h. induction fuel as [|fuel IH]; intros rest h HP Hl.
  { destruct rest; [|simpl in Hl; lia]. exists h. simpl. by rewrite N.eqb_refl. }
  destruct rest as [|a r]; [exists h; simpl; by rewrite N.eqb_refl|].
  destruct (Hb _ _ _ HP) as (Hax & h1 & E1 & E2 & H1). cbn [hd for_each]. rewrite (proj2 (N.eqb_neq a x)) by done.
  destruct (IH r h1 H1) as (h2 & E & H2); [simpl in Hl; lia|]. exists h2. split; [|done].
  eapply bind_run; [done|]. by eapply bind_run.
Qed.
Lemma for_each_safe_loop (step : loc -> M loc) (body : loc -> M unit) (x : loc) (P : list loc -> heap -> Prop) fuel rest n h :
  (forall a r h, P (a :: r) h -> a <> x /\ exists h', body a h = Some (tt, h') /\ P r h') ->
  (forall r h, P r h -> exists m, step (hd x r) h = Some (m, h) /\ (r <> [] -> m = hd x (tail r))) ->
  P rest h -> (rest <> [] -> n = hd x (tail rest)) -> (length rest <= fuel)%nat ->
  exists h', for_each_safe step body x (hd x rest) n fuel h = Some (tt, h') /\ P [] h'.
Proof.
  intros Hb Hs. revert rest n h. induction fuel as [|fuel IH]; intros rest n h HP Hn Hl.
  { destruct rest; [|simpl in Hl; lia]. exists h. simpl. by rewrite N.eqb_refl. }
  destruct rest as [|a r]; [exists h; simpl; by rewrite N.eqb_refl|].
  destruct (Hb _ _ _ HP) as (Hax & h1 & E1 & H1). cbn [hd for_each_safe]. rewrite (proj2 (N.eqb_neq a x)) by done.
  rewrite (Hn ltac:(done)). simpl tail. destruct (Hs _ _ H1) as (m & Em & Hm).
  destruct (IH r m h1 H1 Hm) as (h2 & E & H2); [simpl in Hl; lia|]. exists h2. split; [|done].
  eapply bind_run; [done|]. by eapply bind_run.
Qed.

Lemma rep_bound L x xs h : rep ((x, xs) :: L) h -> (length xs <= S (size (nodes h)))%nat.
Proof.
  intros Hr. pose proof (rep_nodup _ _ Hr) as HN. rewrite cells_cons in HN. apply NoDup_app in HN as (HN & _ & _). apply NoDup_cons in HN as [_ HN].
  rewrite <- (size_list_to_set (C:=gset loc)) by done.
  assert (size (list_to_set xs : gset loc) <= size (nodes h))%nat; [|lia]. apply subseteq_size.
  intros a Ha%elem_of_list_to_set. eapply rep_in; [done|]. rewrite cells_cons. set_solver.
Qed.

(** Where the cursor goes next, forwards and backwards. *)
Lemma ring_hd_next h x l r : ring h x (l ++ r) -> r <> [] -> next h !! hd x r = Some (hd x (tail r)).
Proof.
  intros HR Hne. destruct r as [|a r]; [done|]. destruct (ring_nbrs _ _ _ _ _ HR) as (p & n & Hp & Hn & Ep & En).
  simpl. rewrite En. destruct r; by injection Hn as ->.
Qed.
Lemma ring_hd_prev h x l r : ring h x (reverse r ++ l) -> r <> [] -> prev h !! hd x r = Some (hd x (tail r)).
Proof.
  intros HR Hne. destruct r as [|a r]; [done|]. rewrite reverse_cons, <- app_assoc in HR. cbn [app] in HR.
  destruct (ring_nbrs _ _ _ _ _ HR) as (p & n & Hp & Hn & Ep & En).
  simpl. rewrite Ep. destruct r as [|b r]; [by injection Hp as ->|].
  rewrite reverse_cons, app_comm_cons, last_snoc in Hp. by injection Hp as ->.
Qed.

(** The loops over a body that leaves the list alone visit its entries in order. *)
Section iterate.
Context (L : list (loc * list loc)) (x : loc) (xs : list loc) (body : loc -> M unit) (I : list loc -> heap -> Prop).

Lemma list_for_each_spec h :
  (forall l a r h, xs = l ++ a :: r -> rep ((x, xs) :: L) h -> I l h ->
     exists h', body a h = Some (tt, h') /\ rep ((x, xs) :: L) h' /\ I (l ++ [a]) h') ->
  rep ((x, xs) :: L) h -> I [] h ->
  exists h', list_for_each x body h = Some (tt, h') /\ rep ((x, xs) :: L) h' /\ I xs h'.
Proof.
  intros Hb Hr HI. set (P r h := exists l, xs = l ++ r /\ rep ((x, xs) :: L) h /\ I l h).
  destruct (for_each_loop get_next body x P (S (size (nodes h))) xs h) as (h' & E & (l & El & R & HI')).
  - intros a r h1 (l & E & R & HI1). split.
    { intros ->. pose proof (rep_nodup _ _ R) as HN. rewrite cells_cons in HN. apply NoDup_app in HN as (HN & _ & _).
      apply NoDup_cons in HN as [HN _]. subst xs. set_solver. }
    destruct (Hb l a r h1 E R HI1) as (h2 & E2 & R2 & HI2). exists h2. split; [done|]. split.
    + apply run_reads. pose proof (rep_ring _ _ _ _ R2) as HR. rewrite E in HR. by apply (ring_hd_next h2 x l (a :: r)).
    + exists (l ++ [a]). by rewrite <- app_assoc.
  - by exists [].
  - by eapply rep_bound.
  - rewrite app_nil_r in El. subst l. exists h'. split; [|done]. unfold list_for_each, get_next at 1.
    destruct (rep_ends _ _ _ _ Hr) as (p & n & Hp & Hn & Ep & En & _). eapply bind_reads; [done|].
    eapply bind_run; [done|]. rewrite <- E. f_equal. destruct xs; by injection Hn as ->.
Qed.
Lemma list_for_each_prev_spec h :
  (forall l a r h, xs = l ++ a :: r -> rep ((x, xs) :: L) h -> I r h ->
     exists h', body a h = Some (tt, h') /\ rep ((x, xs) :: L) h' /\ I (a :: r) h') ->
  rep ((x, xs) :: L) h -> I [] h ->
  exists h', list_for_each_prev x body h = Some (tt, h') /\ rep ((x, xs) :: L) h' /\ I xs h'.
Proof.
  intros Hb Hr HI. set (P r h := exists l, xs = reverse r ++ l /\ rep ((x, xs) :: L) h /\ I l h).
  destruct (for_each_loop get_prev body x P (S (size (nodes h))) (reverse xs) h) as (h' & E & (l & El & R & HI')).
  - intros a r h1 (l & E & R & HI1). rewrite reverse_cons, <- app_assoc in E. cbn [app] in E. split.
    { intros ->. pose proof (rep_nodup _ _ R) as HN. rewrite cells_cons in HN. apply NoDup_app in HN as (HN & _ & _).
      apply NoDup_cons in HN as [HN _]. subst xs. set_solver. }
    destruct (Hb (reverse r) a l h1 E R HI1) as (h2 & E2 & R2 & HI2). exists h2. split; [done|]. split.
    + apply run_reads. pose proof (rep_ring _ _ _ _ R2) as HR. rewrite E in HR.
      apply (ring_hd_prev h2 x l (a :: r)); [|done]. by rewrite reverse_cons, <- app_assoc.
    + by exists (a :: l).
  - exists []. by rewrite reverse_involutive, app_nil_r.
  - rewrite length_reverse. by eapply rep_bound.
  - rewrite reverse_nil in El. simpl in El. subst l. exists h'. split; [|done]. unfold list_for_each_prev, get_prev at 1.
    destruct (rep_ends _ _ _ _ Hr) as (p & n & Hp & Hn & Ep & En & _). eapply bind_reads; [done|].
    eapply bind_run; [done|]. rewrite <- E. f_equal. destruct xs as [|b ys _] using rev_ind; [by injection Hp as ->|].
    rewrite app_comm_cons, last_snoc in Hp. injection Hp as ->. by rewrite reverse_snoc.
Qed.
End iterate.

(** The safe loops reach every entry even when the body takes the visited entry out: [P]
    holds of the entries still to come. *)
Section iterate_safe.
Context (x : loc) (body : loc -> M unit) (P : list loc -> heap -> Prop).
Hypothesis (Hbody : forall a r h, P (a :: r) h -> exists h', body a h = Some (tt, h') /\ P r h').

Lemma rep_not_head L xs h a : rep ((x, xs) :: L) h -> a ∈ xs -> a <> x.
Proof.
  intros R Ha ->. pose proof (rep_nodup _ _ R) as HN. rewrite cells_cons in HN. apply NoDup_app in HN as (HN & _ & _).
  by apply NoDup_cons in HN as [HN _].
Qed.

Lemma list_for_each_safe_spec xs L h :
  (forall r h, P r h -> exists kept L, rep ((x, kept ++ r) :: L) h) ->
  P xs h -> rep ((x, xs) :: L) h ->
  exists h', list_for_each_safe x body h = Some (tt, h') /\ P [] h'.
Proof.
  intros HP Hx Hr.
  assert (forall r h, P r h -> exists m, get_next (hd x r) h = Some (m, h) /\ (r <> [] -> m = hd x (tail r))) as Hs.
  { intros r h1 H1. destruct (HP r h1 H1) as (kept & L' & R). destruct (decide (r = [])) as [->|Hne].
    - destruct (rep_ends _ _ _ _ R) as (p & n & _ & _ & _ & En & _). exists n. split; [by apply run_reads|done].
    - eexists. split; [apply run_reads, (ring_hd_next h1 x kept r); [by eapply rep_ring|done]|done]. }
  destruct (Hs _ _ Hx) as (m & Em & Hm).
  destruct (for_each_safe_loop get_next body x P (S (size (nodes h))) xs m h) as (h' & E & H'); try done.
  - intros a r h1 H1. split; [|by apply Hbody]. destruct (HP _ _ H1) as (kept & L' & R). eapply rep_not_head; [done|]. set_solver.
  - by eapply rep_bound.
  - exists h'. split; [|done]. unfold list_for_each_safe.
    destruct (rep_ends _ _ _ _ Hr) as (p & n & _ & Hn & _ & En & _). unfold get_next at 1. eapply bind_reads; [done|].
    assert (n = hd x xs) as -> by (destruct xs; by injection Hn as ->).
    eapply bind_run; [done|]. by eapply bind_run; [done|].
Qed.
Lemma list_for_each_prev_safe_spec xs L h :
  (forall r h, P r h -> exists kept L, rep ((x, reverse r ++ kept) :: L) h) ->
  P (reverse xs) h -> rep ((x, xs) :: L) h ->
  exists h', list_for_each_prev_safe x body h = Some (tt, h') /\ P [] h'.
Proof.
  intros HP Hx Hr.
  assert (forall r h, P r h -> exists m, get_prev (hd x r) h = Some (m, h) /\ (r <> [] -> m = hd x (tail r))) as Hs.
  { intros r h1 H1. destruct (HP r h1 H1) as (kept & L' & R). destruct (decide (r = [])) as [->|Hne].
    - destruct (rep_ends _ _ _ _ R) as (p & n & _ & _ & Ep & _ & _). exists p. split; [by apply run_reads|done].
    - eexists. split; [apply run_reads, (ring_hd_prev h1 x kept r); [by eapply rep_ring|done]|done]. }
  destruct (Hs _ _ Hx) as (m & Em & Hm).
  destruct (for_each_safe_loop get_prev body x P (S (size (nodes h))) (reverse xs) m h) as (h' & E & H'); try done.
  - intros a r h1 H1. split; [|by apply Hbody]. destruct (HP _ _ H1) as (kept & L' & R). eapply rep_not_head; [done|].
    rewrite reverse_cons. set_solver.
  - rewrite length_reverse. by eapply rep_bound.
  - exists h'. split; [|done]. unfold list_for_each_prev_safe.
    destruct (rep_ends _ _ _ _ Hr) as (p & n & Hp & _ & Ep & _ & _). unfold get_prev at 1. eapply bind_reads; [done|].
    assert (p = hd x (reverse xs)) as ->.
    { destruct xs as [|b ys _] using rev_ind; [by injection Hp as ->|].
      rewrite app_comm_cons, last_snoc in Hp. injection Hp as ->. by rewrite reverse_snoc. }
    eapply bind_run; [done|]. by eapply bind_run; [done|].
Qed.
End iterate_safe.
(** ** The specification *)

Inductive op :=
  | Init (e : loc) | Add (e x : loc) | AddHead (e x : loc) | AddTail (e x : loc) | Del (e : loc) | DelInit (e : loc)
  | Replace (e e' : loc) | ReplaceInit (e e' : loc) | Move (e x : loc) | MoveTail (e x : loc)
  | MoveList (x y : loc) | Join (x y : loc) | RotateLeft (x : loc) | Cut (y x e : loc)
  | Splice (x y : loc) | SpliceTail (x y : loc) | SpliceInit (x y : loc) | SpliceTailInit (x y : loc).

Definition exec (o : op) : M unit :=
  match o with
  | Init e => list_init e | Add e x => list_add e x | AddHead e x => list_add_head e x | AddTail e x => list_add_tail e x
  | Del e => list_del e | DelInit e => list_del_init e
  | Replace e e' => list_replace e e' | ReplaceInit e e' => list_replace_init e e'
  | Move e x => list_move e x | MoveTail e x => list_move_tail e x
  | MoveList x y => list_movelist x y | Join x y => list_join x y
  | RotateLeft x => list_rotate_left x | Cut y x e => list_cut_position y x e
  | Splice x y => list_splice x y | SpliceTail x y => list_splice_tail x y
  | SpliceInit x y => list_splice_init x y | SpliceTailInit x y => list_splice_tail_init x y
  end.

(** The nodes an operation makes part of a list. *)
Definition joins (o : op) : list loc :=
  match o with
  | Init e | Add e _ | AddHead e _ | AddTail e _ => [e]
  | Replace _ e' | ReplaceInit _ e' => [e']
  | MoveList _ y | Cut y _ _ => [y]
  | _ => []
  end.

(** What each operation does to the collection of lists, in whatever order it is given. *)
Inductive spec : op -> list (loc * list loc) -> list (loc * list loc) -> Prop :=
  | spec_perm o R R1 R' : R ≡ₚ R1 -> spec o R1 R' -> spec o R R'
  | spec_init e R : e ∉ cells R -> spec (Init e) R ((e, []) :: R)
  | spec_add e x xs L : e ∉ cells ((x, xs) :: L) -> spec (Add e x) ((x, xs) :: L) ((x, e :: xs) :: L)
  | spec_add_head e x xs L : e ∉ cells ((x, xs) :: L) -> spec (AddHead e x) ((x, xs) :: L) ((x, e :: xs) :: L)
  | spec_add_tail e x xs L : e ∉ cells ((x, xs) :: L) -> spec (AddTail e x) ((x, xs) :: L) ((x, xs ++ [e]) :: L)
  | spec_del e x l1 l2 L : spec (Del e) ((x, l1 ++ e :: l2) :: L) ((x, l1 ++ l2) :: L)
  | spec_del_init e x l1 l2 L : spec (DelInit e) ((x, l1 ++ e :: l2) :: L) ((e, []) :: (x, l1 ++ l2) :: L)
  | spec_replace e e' x l1 l2 L : e' ∉ cells ((x, l1 ++ e :: l2) :: L) ->
      spec (Replace e e') ((x, l1 ++ e :: l2) :: L) ((x, l1 ++ e' :: l2) :: L)
  | spec_replace_init e e' x l1 l2 L : e' ∉ cells ((x, l1 ++ e :: l2) :: L) ->
      spec (ReplaceInit e e') ((x, l1 ++ e :: l2) :: L) ((e, []) :: (x, l1 ++ e' :: l2) :: L)
  | spec_move e x l1 l2 L : spec (Move e x) ((x, l1 ++ e :: l2) :: L) ((x, e :: l1 ++ l2) :: L)
  | spec_move_tail e x l1 l2 L : spec (MoveTail e x) ((x, l1 ++ e :: l2) :: L) ((x, (l1 ++ l2) ++ [e]) :: L)
  | spec_move_to e x l1 l2 y ys L :
      spec (Move e y) ((x, l1 ++ e :: l2) :: (y, ys) :: L) ((x, l1 ++ l2) :: (y, e :: ys) :: L)
  | spec_move_tail_to e x l1 l2 y ys L :
      spec (MoveTail e y) ((x, l1 ++ e :: l2) :: (y, ys) :: L) ((x, l1 ++ l2) :: (y, ys ++ [e]) :: L)
  | spec_movelist x xs y L : y ∉ cells ((x, xs) :: L) -> spec (MoveList x y) ((x, xs) :: L) ((x, []) :: (y, xs) :: L)
  | spec_join x xs y ys L : spec (Join x y) ((x, xs) :: (y, ys) :: L) ((y, ys ++ xs) :: L)
  | spec_rotate_left x a xs L : spec (RotateLeft x) ((x, a :: xs) :: L) ((x, xs ++ [a]) :: L)
  | spec_rotate_left_nil x L : spec (RotateLeft x) ((x, []) :: L) ((x, []) :: L)
  | spec_cut x l1 e l2 y L : y ∉ cells ((x, l1 ++ e :: l2) :: L) ->
      spec (Cut y x e) ((x, l1 ++ e :: l2) :: L) ((y, l1 ++ [e]) :: (x, l2) :: L)
  | spec_cut_head x xs y L : y ∉ cells ((x, xs) :: L) -> xs <> [] ->
      spec (Cut y x x) ((x, xs) :: L) ((y, []) :: (x, xs) :: L)
  | spec_cut_nil x y L : y ∉ cells ((x, []) :: L) -> spec (Cut y x x) ((x, []) :: L) ((x, []) :: L)
  | spec_splice x xs y ys L : spec (Splice x y) ((x, xs) :: (y, ys) :: L) ((y, xs ++ ys) :: L)
  | spec_splice_tail x xs y ys L : spec (SpliceTail x y) ((x, xs) :: (y, ys) :: L) ((y, ys ++ xs) :: L)
  | spec_splice_init x xs y ys L : spec (SpliceInit x y) ((x, xs) :: (y, ys) :: L) ((x, []) :: (y, xs ++ ys) :: L)
  | spec_splice_tail_init x xs y ys L : spec (SpliceTailInit x y) ((x, xs) :: (y, ys) :: L) ((x, []) :: (y, ys ++ xs) :: L).

Lemma exec_spec o R R' h : spec o R R' -> rep R h -> Forall (fun e => e ∈ nodes h) (joins o) -> runs (exec o) h (rep R').
Proof.
  intros Hs. revert h. induction Hs; intros h Hr Hj; cbn [joins exec] in *; try (apply Forall_cons in Hj as [Hj _]).
  - apply IHHs; [|done]. by eapply rep_permute.
  - by apply list_init_rep.
  - by apply list_add_rep.
  - by apply list_add_rep.
  - by apply list_add_tail_rep.
  - destruct (list_del_rep _ _ _ _ _ _ Hr) as (h' & E & N & R & _). by exists h'.
  - by apply list_del_init_rep.
  - destruct (list_replace_rep L x l1 e l2 e' h Hr) as (h' & E & N & R & _); [done|]. by exists h'.
  - by apply list_replace_init_rep.
  - exact (proj1 (list_move_rep L x l1 e l2 h Hr)).
  - exact (proj2 (list_move_rep L x l1 e l2 h Hr)).
  - exact (proj1 (list_move_other_rep L x l1 e l2 y ys h Hr)).
  - exact (proj2 (list_move_other_rep L x l1 e l2 y ys h Hr)).
  - by apply list_movelist_rep.
  - by apply list_join_rep.
  - by apply list_rotate_left_rep.
  - exists h. split; [by eapply list_rotate_left_nil|done].
  - by apply list_cut_rep.
  - pose proof (list_cut_head L x xs y h Hr) as H1. rewrite bool_decide_false in H1 by done. by apply H1.
  - pose proof (list_cut_head L x [] y h Hr) as H1. exists h. split; [by apply H1|done].
  - destruct (list_splice_rep L x xs y ys h Hr) as (H1 & H2 & H3 & H4). exact H1.
  - destruct (list_splice_rep L x xs y ys h Hr) as (H1 & H2 & H3 & H4). exact H2.
  - destruct (list_splice_rep L x xs y ys h Hr) as (H1 & H2 & H3 & H4). exact H3.
  - destruct (list_splice_rep L x xs y ys h Hr) as (H1 & H2 & H3 & H4). exact H4.
Qed.

(** A program that keeps to the specification, from the empty collection. *)
Inductive steps : list op -> list (loc * list loc) -> list (loc * list loc) -> Prop :=
  | steps_nil R : steps [] R R
  | steps_cons o os R R1 R2 : spec o R R1 -> steps os R1 R2 -> steps (o :: os) R R2.
Definition exec_all (os : list op) : M unit := foldr (fun o m => exec o ;; m) (mret tt) os.

Lemma exec_all_spec os R R' h : steps os R R' -> rep R h -> Forall (fun o => Forall (fun e => e ∈ nodes h) (joins o)) os ->
  runs (exec_all os) h (rep R').
Proof.
  intros Hs. revert h. induction Hs as [R|o os R R1 R2 Ho Hs IH]; intros h Hr Hj; [by apply runs_ret|].
  apply Forall_cons in Hj as [Hj Hjs]. eapply runs_bind; [by eapply exec_spec|].
  intros h1 N1 R1'. apply IH; [done|]. by rewrite N1.
Qed.

Definition blank (ns : gset loc) : heap := {| nodes := ns; next := ∅; prev := ∅ |}.
Lemma rep_blank ns : rep [] (blank ns).
Proof. split; [apply NoDup_nil_2|set_solver|set_solver]. Qed.
(** C16. Any program of list operations that keeps to the specification - new entries are not
    yet in a list, and those taken out or moved are in one - runs to its end in memory that
    nothing was written to, touches only live nodes, and leaves exactly the lists specified:
    disjoint rings with the given heads and entries, linked in both directions.  The tests
    then answer for those lists. *)
Theorem list_head_refines (ns : gset loc) (os : list op) (R : list (loc * list loc))
    (Hs : steps os [] R) (Hlive : Forall (fun o => Forall (fun e => e ∈ ns) (joins o)) os) :
  exists h, exec_all os (blank ns) = Some (tt, h) /\ rep R h /\
  forall x xs L, R ≡ₚ (x, xs) :: L ->
    list_empty x h = Some (bool_decide (xs = []), h) /\
    list_empty_careful x h = Some (bool_decide (xs = []), h) /\
    list_is_singular x h = Some (bool_decide (length xs = 1%nat), h) /\
    (forall l1 e l2, xs = l1 ++ e :: l2 -> list_is_last e x h = Some (bool_decide (l2 = []), h)).
Proof.
  destruct (exec_all_spec os [] R (blank ns) Hs (rep_blank ns) Hlive) as (h & E & _ & Hr).
  exists h. split; [done|]. split; [done|]. intros x xs L HP. pose proof (rep_permute _ _ _ HP Hr) as Hx.
  split_and!; [by eapply list_empty_run|by eapply list_empty_careful_run|by eapply list_is_singular_run|].
  intros l1 e l2 ->. by eapply list_is_last_run.
Qed.

(** [list_for_each] runs its body at each entry in order and [list_for_each_prev] in reverse
    order, for a body that leaves the list in place ([I] collects what was visited); the
    [_safe] loops do so for a body that takes the visited entry out, and leave every entry on
    its own and the list empty when the body is [list_del_init]. *)
Theorem list_loops (L : list (loc * list loc)) (x : loc) (xs : list loc) (h : heap)
    (body : loc -> M unit) (I : list loc -> heap -> Prop) (Hr : rep ((x, xs) :: L) h) (HI : I [] h) :
  ((forall l a r h, xs = l ++ a :: r -> rep ((x, xs) :: L) h -> I l h ->
      exists h', body a h = Some (tt, h') /\ rep ((x, xs) :: L) h' /\ I (l ++ [a]) h') ->
   exists h', list_for_each x body h = Some (tt, h') /\ rep ((x, xs) :: L) h' /\ I xs h') /\
  ((forall l a r h, xs = l ++ a :: r -> rep ((x, xs) :: L) h -> I r h ->
      exists h', body a h = Some (tt, h') /\ rep ((x, xs) :: L) h' /\ I (a :: r) h') ->
   exists h', list_for_each_prev x body h = Some (tt, h') /\ rep ((x, xs) :: L) h' /\ I xs h') /\
  (exists h', list_for_each_safe x list_del_init h = Some (tt, h') /\
     rep (map (fun e => (e, [])) (reverse xs) ++ (x, []) :: L) h') /\
  (exists h', list_for_each_prev_safe x list_del_init h = Some (tt, h') /\
     rep (map (fun e => (e, [])) xs ++ (x, []) :: L) h').
Proof.
  split; [intros Hb; by apply list_for_each_spec|]. split; [intros Hb; by apply list_for_each_prev_spec|].
  set (alone := map (fun e : loc => (e, @nil loc))). split.
  - destruct (list_for_each_safe_spec x list_del_init
      (fun r h => exists l, xs = l ++ r /\ rep ((x, r) :: alone (reverse l) ++ L) h)) with (xs := xs) (h := h) (L := L)
      as (h' & E & (l & El & R)); try done.
    + intros a r h1 (l & El & R). destruct (list_del_init_rep _ x [] a r h1 R) as (h2 & E2 & _ & R2). exists h2. split; [done|].
      exists (l ++ [a]). split; [by rewrite <- app_assoc|]. eapply rep_permute; [|exact R2]. rewrite reverse_snoc. simpl. apply Permutation_swap.
    + intros r h1 (l & _ & R). by exists [], (alone (reverse l) ++ L).
    + by exists [].
    + rewrite app_nil_r in El. subst l. exists h'. split; [done|]. eapply rep_permute; [|exact R]. apply Permutation_middle.
  - destruct (list_for_each_prev_safe_spec x list_del_init
      (fun r h => exists l, xs = reverse r ++ l /\ rep ((x, reverse r) :: alone l ++ L) h)) with (xs := xs) (h := h) (L := L)
      as (h' & E & (l & El & R)); try done.
    + intros a r h1 (l & El & R). rewrite reverse_cons in El, R.
      destruct (list_del_init_rep _ x (reverse r) a [] h1 R) as (h2 & E2 & _ & R2). exists h2. split; [done|].
      exists (a :: l). split; [by rewrite <- app_assoc in El|]. rewrite app_nil_r in R2.
      eapply rep_permute; [|exact R2]. simpl. apply Permutation_swap.
    + intros r h1 (l & _ & R). exists [], (alone l ++ L). by rewrite app_nil_r.
    + exists []. by rewrite reverse_involutive, app_nil_r.
    + rewrite reverse_nil in El. simpl in El. subst l. exists h'. split; [done|]. eapply rep_permute; [|exact R]. apply Permutation_middle.
Qed.

(** ** Witnesses *)

Lemma ex_steps : steps [Init 1%N; Init 2%N; AddTail 3%N 1%N; Add 4%N 1%N; Move 3%N 2%N; SpliceTailInit 2%N 1%N] []
  [(2%N, []); (1%N, [4%N; 3%N])].
Proof.
  eapply steps_cons; [apply spec_init; set_solver|].
  eapply steps_cons; [apply spec_init; set_solver|].
  eapply steps_cons; [eapply spec_perm; [apply Permutation_swap|]; apply spec_add_tail; set_solver|].
  eapply steps_cons; [apply spec_add; set_solver|].
  eapply steps_cons; [apply (spec_move_to 3%N 1%N [4%N] [] 2%N [] [])|].
  eapply steps_cons; [eapply spec_perm; [apply Permutation_swap|]; apply spec_splice_tail_init|].
  apply steps_nil.
Qed.

Lemma list_head_refines_witness : exists h,
  exec_all [Init 1%N; Init 2%N; AddTail 3%N 1%N; Add 4%N 1%N; Move 3%N 2%N; SpliceTailInit 2%N 1%N] (blank {[1%N; 2%N; 3%N; 4%N]}) = Some (tt, h) /\
  rep [(2%N, []); (1%N, [4%N; 3%N])] h.
Proof.
  destruct (list_head_refines {[1%N; 2%N; 3%N; 4%N]} _ _ ex_steps) as (h & E & Hr & _).
  - by repeat constructor; set_solver.
  - exists h. done.
Defined.

Lemma list_loops_witness : exists h h',
  rep [(2%N, []); (1%N, [4%N; 3%N])] h /\ list_for_each_safe 1%N list_del_init h = Some (tt, h') /\
  rep [(3%N, []); (4%N, []); (1%N, []); (2%N, [])] h'.
Proof.
  destruct (exec_all_spec _ _ _ (blank {[1%N; 2%N; 3%N; 4%N]}) ex_steps (rep_blank _)) as (h & E & _ & Hr).
  { by repeat constructor; set_solver. }
  assert (rep [(1%N, [4%N; 3%N]); (2%N, [])] h) as Hr' by (eapply rep_permute; [apply Permutation_swap|exact Hr]).
  destruct (list_loops [(2%N, [])] 1%N [4%N; 3%N] h (fun _ => mret tt) (fun _ _ => True) Hr' Logic.I) as (_ & _ & (h' & E' & R) & _).
  exists h, h'. split; [exact Hr|]. split; [exact E'|exact R].
Defined.
