(* ===== verification/Order.v ===== *)
(** * Order: comparison functions and sorted lists

    The ordered containers take a three-way comparison from their client; the laws
    it has to obey are the class [Comparator].  Sorted lists and their splittings
    are what the invariants of these containers are about. *)

From Stdlib Require Import Sorting.Sorted.
From S2P Require Import Prelude.
From stdpp Require Import sets.
#[local] Open Scope Z_scope.
#[local] Open Scope mycc_scope.

(** ** Lists *)

Lemma filter_length_lt {A} (P Q : A -> Prop) `{!forall x, Decision (P x), !forall x, Decision (Q x)} (l : list A) y :
  (forall x, P x -> Q x) -> y ∈ l -> Q y -> ~ P y -> (length (filter P l) < length (filter Q l))%nat.
Proof.
  intros HPQ Hy HQ HP.
  assert (forall l, (length (filter P l) <= length (filter Q l))%nat) as Hle.
  { intros l'. induction l' as [|x l' IH]; [done|]. rewrite !filter_cons.
    destruct (decide (P x)) as [Hp|], (decide (Q x)) as [|Hn]; simpl; try lia. by destruct Hn; apply HPQ. }
  induction l as [|x l IH]; [set_solver|]. rewrite !filter_cons. apply elem_of_cons in Hy as [->|Hy].
  - rewrite decide_False, decide_True by done. simpl. specialize (Hle l). lia.
  - specialize (IH Hy). destruct (decide (P x)) as [Hp|], (decide (Q x)) as [|Hn]; simpl; try lia. by destruct Hn; apply HPQ.
Qed.
Lemma sorted_cons {A} (R : A -> A -> Prop) x l : StronglySorted R (x :: l) <-> StronglySorted R l /\ forall y, y ∈ l -> R x y.
Proof.
  split.
  - intros [HS HF]%StronglySorted_inv. split; [done|]. rewrite Forall_forall in HF.
    first [exact HF | intros y Hy; apply HF; by apply list_elem_of_In].
  - intros [HS HF]. constructor; [done|]. rewrite Forall_forall.
    first [exact HF | intros y Hy; apply HF; by apply list_elem_of_In].
Qed.
Lemma sorted_cons_inv {A} (R : A -> A -> Prop) x l y : StronglySorted R (x :: l) -> y ∈ l -> R x y.
Proof. intros [_ H]%sorted_cons. apply H. Qed.
Lemma exists_last_or {A} (l : list A) : l = [] \/ exists l' x, l = l' ++ [x].
Proof. destruct l as [|y l] using rev_ind; [by left|right; eauto]. Qed.
Lemma sorted_sub {A} (R : A -> A -> Prop) (P : A -> Prop) `{!forall x, Decision (P x)} l : StronglySorted R l ->
  StronglySorted R (filter P l).
Proof.
  induction 1 as [|x l Hs IH Hx]; [constructor|]. rewrite filter_cons. case_decide; [|done].
  apply sorted_cons. split; [done|]. intros y [_ Hy]%list_elem_of_filter. rewrite Forall_forall in Hx. by apply Hx.
Qed.
Lemma sorted_app {A} (R : A -> A -> Prop) l1 x l2 : StronglySorted R (l1 ++ x :: l2) ->
  (forall y, y ∈ l1 -> R y x) /\ (forall y, y ∈ l2 -> R x y).
Proof.
  induction l1 as [|z l1 IH]; simpl; intros [HS Hx]%sorted_cons.
  - split; [set_solver|done].
  - destruct (IH HS) as [H1 H2]. split; [|done]. intros y [->|Hy]%elem_of_cons; [|by apply H1].
    apply Hx. set_solver.
Qed.
Lemma sorted_rest {A} (R : A -> A -> Prop) l x r : StronglySorted R (l ++ x :: r) ->
  StronglySorted R r.
Proof. induction l as [|z l IH]; simpl; intros [HS _]%StronglySorted_inv; [done|by apply IH]. Qed.
Lemma filter_drops {A} (P : A -> Prop) `{!forall x, Decision (P x)} (l : list A) : (forall x, x ∈ l -> ~ P x) -> filter P l = [].
Proof.
  induction l as [|x l IH]; intros HP; [done|]. rewrite filter_cons, decide_False by (apply HP; set_solver).
  apply IH. intros y Hy. apply HP. set_solver.
Qed.
Lemma filter_keeps {A} (P : A -> Prop) `{!forall x, Decision (P x)} (l : list A) : (forall x, x ∈ l -> P x) -> filter P l = l.
Proof.
  induction l as [|x l IH]; intros HP; [done|]. rewrite filter_cons, decide_True by (apply HP; set_solver).
  f_equal. apply IH. intros y Hy. apply HP. set_solver.
Qed.
Lemma split_at_unique {A} (x : A) l r l' r' : NoDup (l ++ x :: r) -> l ++ x :: r = l' ++ x :: r' -> l = l' /\ r = r'.
Proof.
  revert l'. induction l as [|y l IH]; intros [|z l'] HN E; cbn in *; simplify_eq; try done.
  - apply NoDup_cons in HN as [HN _]. destruct HN. set_solver.
  - apply NoDup_cons in HN as [HN _]. destruct HN. set_solver.
  - apply NoDup_cons in HN as [_ HN]. by destruct (IH l' HN ltac:(done)) as [-> ->].
Qed.
Lemma filter_iff {A} (P Q : A -> Prop) `{!forall x, Decision (P x), !forall x, Decision (Q x)} (l : list A) :
  (forall x, x ∈ l -> P x <-> Q x) -> filter P l = filter Q l.
Proof.
  induction l as [|x l IH]; intros HPQ; [done|]. rewrite !filter_cons, IH by (intros y Hy; apply HPQ; set_solver).
  pose proof (HPQ x ltac:(set_solver)). repeat case_decide; naive_solver.
Qed.
Lemma split_unique {A} (P : A -> Prop) (u v l r : list A) : u ++ v = l ++ r ->
  (forall y, y ∈ u -> P y) -> (forall y, y ∈ v -> ~ P y) -> (forall y, y ∈ l -> P y) -> (forall y, y ∈ r -> ~ P y) -> u = l /\ v = r.
Proof.
  revert l. induction u as [|x u IH]; intros [|y l] E Hu Hv Hl Hr; cbn in E; try done.
  - subst v. destruct (Hv y); [set_solver|apply Hl; set_solver].
  - subst r. destruct (Hr x); [set_solver|apply Hu; set_solver].
  - injection E as -> E. destruct (IH l E) as [-> ->]; try done; intros z Hz; [apply Hu|apply Hl]; set_solver.
Qed.
Lemma sorted_insert {A} (R : A -> A -> Prop) u x v : StronglySorted R (u ++ v) -> (forall y, y ∈ u -> R y x) -> (forall y, y ∈ v -> R x y) ->
  StronglySorted R (u ++ x :: v).
Proof.
  induction u as [|z u IH]; cbn; intros HS Hu Hv; [by apply sorted_cons|]. apply sorted_cons in HS as [HS Hz]. apply sorted_cons. split.
  - apply IH; [done| |done]. intros y Hy. apply Hu. set_solver.
  - intros y [Hy|[->|Hy]%elem_of_cons]%elem_of_app; [apply Hz; set_solver|apply Hu; set_solver|apply Hz; set_solver].
Qed.
Lemma sorted_mono {A} (R R' : A -> A -> Prop) l : StronglySorted R l -> (forall x y, x ∈ l -> y ∈ l -> R x y -> R' x y) -> StronglySorted R' l.
Proof.
  induction l as [|x l IH]; intros HS HR; [constructor|]. apply sorted_cons in HS as [HS Hx]. apply sorted_cons. split.
  - apply IH; [done|]. intros y z Hy Hz. apply HR; set_solver.
  - intros y Hy. apply HR; [set_solver|set_solver|by apply Hx].
Qed.

(** ** Comparison *)

(** A three-way comparison that is a total preorder. *)
Class Comparator {Key : Type} (compare_ : Key -> Key -> Z) : Prop := {
  compare_sym a b : compare_ a b < 0 <-> 0 < compare_ b a;
  compare_trans a b c : compare_ a b < 0 -> compare_ b c < 0 -> compare_ a c < 0;
  compare_eq a b c : compare_ a b = 0 -> compare_ a c < 0 -> compare_ b c < 0
}.

Section comparator.
Context {Key : Type} (compare_ : Key -> Key -> Z) `{!Comparator compare_}.

Lemma compare_irrefl k : ~ compare_ k k < 0.
Proof. intros H. pose proof (proj1 (compare_sym k k) H). lia. Qed.
Lemma compare_eq_sym a b : compare_ a b = 0 -> compare_ b a = 0.
Proof. intros H. pose proof (compare_sym a b). pose proof (compare_sym b a). lia. Qed.
Lemma compare_eq_r a b c : compare_ a b = 0 -> compare_ c a < 0 -> compare_ c b < 0.
Proof.
  intros H Hca. pose proof (compare_eq_sym _ _ H). destruct (Z.lt_trichotomy (compare_ c b) 0) as [|[Hz|Hg]]; [done| |].
  - pose proof (compare_eq _ _ _ Hz Hca). lia.
  - apply compare_sym in Hg. pose proof (compare_trans _ _ _ Hg Hca). lia.
Qed.
End comparator.
Arguments compare_irrefl {Key compare_ Comparator0} k.
Arguments compare_eq_sym {Key compare_ Comparator0} a b.
Arguments compare_eq_r {Key compare_ Comparator0} a b c.

(** Insertion into a sorted list. *)
Section insert.
Context {Key : Type} (compare_ : Key -> Key -> Z).

Fixpoint insert_key (k : Key) (l : list Key) : list Key :=
  match l with
  | [] => [k]
  | x :: l' => if compare_ x k <? 0 then x :: insert_key k l' else k :: l
  end.

Lemma insert_key_split k u v : (forall y, y ∈ u -> compare_ y k < 0) -> (forall y, y ∈ v -> ~ compare_ y k < 0) -> insert_key k (u ++ v) = u ++ k :: v.
Proof.
  intros Hu Hv. induction u as [|x u IH]; cbn.
  - destruct v as [|y v]; [done|]. cbn. rewrite (proj2 (Z.ltb_ge _ _)); [done|]. specialize (Hv y ltac:(set_solver)). lia.
  - rewrite (proj2 (Z.ltb_lt _ _)) by (apply Hu; set_solver). f_equal. apply IH. intros y Hy. apply Hu. set_solver.
Qed.
End insert.

(** Integers, compared by their difference. *)
#[export] Instance Z_comparator : Comparator Z.sub.
Proof. split; intros; lia. Qed.

