(* ===== verification/SkipList.v ===== *)
(** * SkipList: [src/util/skiplist.h]

    The ordered list with express lanes.  Nodes are cells of a finite map; the
    next pointers of a node that were not stored yet are [None] and reading them
    fails, as do the assertions of the source.  [Insert] is cut into the pieces
    between two stores that a concurrent reader can see: [SkipListReaders] runs
    readers between them.  The comparator is the client's; the order laws it has
    to obey are the class [Comparator]. *)

From Stdlib Require Import Sorting.Sorted.
From S2P Require Import Prelude Store Order.
From S2P Require Random.
#[local] Open Scope Z_scope.
#[local] Open Scope mycc_scope.

Section skiplist.
Context {Key : Type} (compare_ : Key -> Key -> Z).

(** ** Nodes *)

Record node := { key : Key; next_ : list (option loc) }.

Record SkipList := {
  nodes : gmap loc node;
  head_ : loc;
  max_height_ : nat;
  prev_ : list loc;
  prev_height_ : nat;
  kMaxHeight_ : nat;
  kBranching_ : Z
}.

Definition with_nodes (f : gmap loc node -> gmap loc node) (s : SkipList) : SkipList :=
  {| nodes := f (nodes s); head_ := head_ s; max_height_ := max_height_ s; prev_ := prev_ s;
     prev_height_ := prev_height_ s; kMaxHeight_ := kMaxHeight_ s; kBranching_ := kBranching_ s |}.
Definition with_max_height (n : nat) (s : SkipList) : SkipList :=
  {| nodes := nodes s; head_ := head_ s; max_height_ := n; prev_ := prev_ s;
     prev_height_ := prev_height_ s; kMaxHeight_ := kMaxHeight_ s; kBranching_ := kBranching_ s |}.
Definition with_prev (p : list loc) (n : nat) (s : SkipList) : SkipList :=
  {| nodes := nodes s; head_ := head_ s; max_height_ := max_height_ s; prev_ := p;
     prev_height_ := n; kMaxHeight_ := kMaxHeight_ s; kBranching_ := kBranching_ s |}.

Definition GetMaxHeight (s : SkipList) : nat := max_height_ s.

Definition Next (s : SkipList) (x : loc) (n : nat) : option loc := nd ← nodes s !! x; o ← next_ nd !! n; o.
Definition SetNext (x : loc) (n : nat) (y : loc) (s : SkipList) : option SkipList :=
  nd ← nodes s !! x;
  if decide (n < length (next_ nd))%nat
  then Some (with_nodes (<[x := {| key := key nd; next_ := <[n := Some y]> (next_ nd) |}]>) s) else None.

Definition assert_ (b : bool) : option unit := if b then Some tt else None.

Definition Equal (a b : Key) : bool := compare_ a b =? 0.
Definition LessThan (a b : Key) : bool := compare_ a b <? 0.

Definition KeyIsAfterNode (s : SkipList) (k : Key) (n : loc) : option bool :=
  if (n =? nullptr)%N then Some false else nd ← nodes s !! n; Some (compare_ (key nd) k <? 0).

(** ** Searching *)

(** A search goes round a loop: a round ends it with a result or gives the next round's
    variables.  A round goes right or down: the nodes and the levels bound their number. *)
Fixpoint search {V R} (round : V -> option (R + V)) (fuel : nat) (v : V) : option R :=
  match fuel with
  | O => None
  | S fuel => r ← round v; match r with inl res => Some res | inr v => search round fuel v end
  end.
Definition search_bound (s : SkipList) : nat := S (size (nodes s) + kMaxHeight_ s).

(** [assert(x == head_ || next == nullptr || KeyIsAfterNode(next->key, x))]. *)
Definition assert_sorted (s : SkipList) (x next : loc) : option unit :=
  if (x =? head_ s)%N || (next =? nullptr)%N then Some tt
  else nd ← nodes s !! next; b ← KeyIsAfterNode s (key nd) x; assert_ b.
(** [assert(x == head_ || KeyIsAfterNode(key, x))]. *)
Definition assert_before (s : SkipList) (k : Key) (x : loc) : option unit :=
  if (x =? head_ s)%N then Some tt else b ← KeyIsAfterNode s k x; assert_ b.

(** The variables are [x], [level] and [last_bigger]. *)
Definition FindGreaterOrEqual_round (s : SkipList) (k : Key) (v : loc * nat * loc) : option (loc + loc * nat * loc) :=
  let '(x, level, last_bigger) := v in
  next ← Next s x level;
  _ ← assert_sorted s x next;
  _ ← assert_before s k x;
  cmp ← (if (next =? nullptr)%N || (next =? last_bigger)%N then Some 1
         else nd ← nodes s !! next; Some (compare_ (key nd) k));
  Some (if (cmp =? 0) || ((cmp >? 0) && (level =? 0)%nat) then inl next
        else if cmp <? 0 then inr (next, level, last_bigger)
        else inr (x, (level - 1)%nat, next)).
Definition FindGreaterOrEqual (s : SkipList) (k : Key) : option loc :=
  search (FindGreaterOrEqual_round s k) (search_bound s) (head_ s, (GetMaxHeight s - 1)%nat, nullptr).

(** The variables are [x], [level], [last_not_after] and the array [prev]; the result is [x]
    and the array.  A null [prev] is an empty array that is not written. *)
Definition FindLessThan_round (s : SkipList) (k : Key) (v : loc * nat * loc * option (list loc)) :
    option (loc * option (list loc) + loc * nat * loc * option (list loc)) :=
  let '(x, level, last_not_after, prev) := v in
  next ← Next s x level;
  _ ← assert_sorted s x next;
  _ ← assert_before s k x;
  after ← (if negb (next =? last_not_after)%N then KeyIsAfterNode s k next else Some false);
  if (after : bool) then Some (inr (next, level, last_not_after, prev))
  else
    prev ← (match prev with
            | None => Some None
            | Some p => if decide (level < length p)%nat then Some (Some (<[level := x]> p)) else None
            end);
    Some (if (level =? 0)%nat then inl (x, prev) else inr (x, (level - 1)%nat, next, prev)).
Definition FindLessThan (s : SkipList) (k : Key) (prev : option (list loc)) : option (loc * option (list loc)) :=
  search (FindLessThan_round s k) (search_bound s) (head_ s, (GetMaxHeight s - 1)%nat, nullptr, prev).

Definition FindLast_round (s : SkipList) (v : loc * nat) : option (loc + loc * nat) :=
  let '(x, level) := v in
  next ← Next s x level;
  Some (if (next =? nullptr)%N
        then (if (level =? 0)%nat then inl x else inr (x, (level - 1)%nat))
        else inr (next, level)).
Definition FindLast (s : SkipList) : option loc :=
  search (FindLast_round s) (search_bound s) (head_ s, (GetMaxHeight s - 1)%nat).

Definition EstimateCount_round (s : SkipList) (k : Key) (v : loc * nat * Z) : option (Z + loc * nat * Z) :=
  let '(x, level, count) := v in
  _ ← assert_before s k x;
  next ← Next s x level;
  stop ← (if (next =? nullptr)%N then Some true else nd ← nodes s !! next; Some (compare_ (key nd) k >=? 0));
  Some (if (stop : bool)
        then (if (level =? 0)%nat then inl count else inr (x, (level - 1)%nat, u64 (count * kBranching_ s)))
        else inr (next, level, u64 (count + 1))).
Definition EstimateCount (s : SkipList) (k : Key) : option Z :=
  search (EstimateCount_round s k) (search_bound s) (head_ s, (GetMaxHeight s - 1)%nat, 0).

Definition Contains (s : SkipList) (k : Key) : option bool :=
  x ← FindGreaterOrEqual s k;
  if (x =? nullptr)%N then Some false else nd ← nodes s !! x; Some (Equal k (key nd)).

(** ** Iterators: the position [node_] *)

Definition Valid (node_ : loc) : bool := negb (node_ =? nullptr)%N.
Definition Iterator_key (s : SkipList) (node_ : loc) : option Key := _ ← assert_ (Valid node_); key <$> nodes s !! node_.
Definition Iterator_Next (s : SkipList) (node_ : loc) : option loc := _ ← assert_ (Valid node_); Next s node_ 0.
Definition Iterator_Prev (s : SkipList) (node_ : loc) : option loc :=
  _ ← assert_ (Valid node_);
  nd ← nodes s !! node_;
  '(n, _) ← FindLessThan s (key nd) None;
  Some (if (n =? head_ s)%N then nullptr else n).
Definition Seek (s : SkipList) (target : Key) : option loc := FindGreaterOrEqual s target.
Definition SeekToFirst (s : SkipList) : option loc := Next s (head_ s) 0.
Definition SeekToLast (s : SkipList) : option loc :=
  n ← FindLast s; Some (if (n =? head_ s)%N then nullptr else n).
Fixpoint SeekForPrev_loop (s : SkipList) (target : Key) (fuel : nat) (node_ : loc) : option loc :=
  if Valid node_ then
    k ← Iterator_key s node_;
    if LessThan target k then
      match fuel with
      | O => None
      | S fuel => node_ ← Iterator_Prev s node_; SeekForPrev_loop s target fuel node_
      end
    else Some node_
  else Some node_.
(** The loop steps back past the nodes above the target: one at most after [Seek]. *)
Definition SeekForPrev (s : SkipList) (target : Key) : option loc :=
  node_ ← Seek s target;
  node_ ← (if Valid node_ then Some node_ else SeekToLast s);
  SeekForPrev_loop s target (search_bound s) node_.

(** ** Inserting *)

Definition kScaledInverseBranching_ (s : SkipList) : Z := u32 (Random.kMaxNext + 1) / kBranching_ s.

(** The height and the next state of the thread's generator. *)
Fixpoint RandomHeight_loop (fuel : nat) (s : SkipList) (height : nat) (rnd : Z) : nat * Z :=
  match fuel with
  | O => (height, rnd)
  | S fuel =>
      if (height <? kMaxHeight_ s)%nat then
        let '(r, rnd) := Random.Next rnd in
        if r <? kScaledInverseBranching_ s then RandomHeight_loop fuel s (S height) rnd else (height, rnd)
      else (height, rnd)
  end.
Definition RandomHeight (s : SkipList) (rnd : Z) : option (nat * Z) :=
  let '(height, rnd) := RandomHeight_loop (kMaxHeight_ s) s 1 rnd in
  _ ← assert_ ((0 <? height)%nat && (height <=? kMaxHeight_ s)%nat);
  Some (height, rnd).

(** A node at an address not in use; its links are not stored yet. *)
Definition NewNode (k : Key) (height : nat) (s : SkipList) : loc * SkipList :=
  let x := fresh ({[nullptr]} ∪ dom (nodes s)) in
  (x, with_nodes (<[x := {| key := k; next_ := repeat None height |}]>) s).

(** The constructor. *)
Fixpoint init_links (head : loc) (n : nat) (s : SkipList) : option SkipList :=
  match n with
  | O => Some s
  | S n => s ← init_links head n s; SetNext head n nullptr s
  end.
Definition SkipList_new (any : Key) (max_height : nat) (branching_factor : Z) : option SkipList :=
  let s0 := {| nodes := ∅; head_ := nullptr; max_height_ := 1; prev_ := []; prev_height_ := 1;
               kMaxHeight_ := max_height; kBranching_ := branching_factor |} in
  _ ← assert_ ((0 <? max_height)%nat && (Z.of_nat max_height <? 2 ^ 16));
  _ ← assert_ ((0 <? branching_factor) && (branching_factor <? 2 ^ 16));
  _ ← assert_ (kScaledInverseBranching_ s0 >? 0);
  let '(h, s) := NewNode any max_height s0 in
  init_links h max_height
    {| nodes := nodes s; head_ := h; max_height_ := 1; prev_ := repeat h max_height; prev_height_ := 1;
       kMaxHeight_ := max_height; kBranching_ := branching_factor |}.

(** [prev_[i] = x] for [i] from [from], [n] of them. *)
Fixpoint fill_prev (x : loc) (from n : nat) (p : list loc) : option (list loc) :=
  match n with
  | O => Some p
  | S n => if decide (from < length p)%nat then fill_prev x (S from) n (<[from := x]> p) else None
  end.

(** The predecessors of the key, at every level below [max_height_]. *)
Definition predecessors (s : SkipList) (k : Key) : option (list loc) :=
  p0 ← prev_ s !! 0%nat;
  n0 ← Next s p0 0;
  before ← KeyIsAfterNode s k n0;
  fast ← (if (before : bool) then Some false
          else if (p0 =? head_ s)%N then Some true else KeyIsAfterNode s k p0);
  if (fast : bool) then
    _ ← assert_ (negb (p0 =? head_ s)%N || ((prev_height_ s =? 1)%nat && (GetMaxHeight s =? 1)%nat));
    fill_prev p0 1 (prev_height_ s - 1) (prev_ s)
  else
    '(_, p) ← FindLessThan s k (Some (prev_ s)); p.

(** Up to the first store that a reader can see: the predecessors and the height. *)
Definition Insert_begin (k : Key) (rnd : Z) (s : SkipList) : option (nat * Z * SkipList) :=
  p ← predecessors s k;
  p0 ← p !! 0%nat;
  n0 ← Next s p0 0;
  _ ← (if (n0 =? nullptr)%N then Some tt else nd ← nodes s !! n0; assert_ (negb (Equal k (key nd))));
  '(height, rnd) ← RandomHeight s rnd;
  p ← (if (GetMaxHeight s <? height)%nat
       then fill_prev (head_ s) (GetMaxHeight s) (height - GetMaxHeight s) p else Some p);
  Some (height, rnd, with_prev p (prev_height_ s) s).
Definition Insert_raise (height : nat) (s : SkipList) : SkipList :=
  if (GetMaxHeight s <? height)%nat then with_max_height height s else s.
(** The two stores of the loop over the levels. *)
Definition Insert_prepare (x : loc) (i : nat) (s : SkipList) : option SkipList :=
  p ← prev_ s !! i; n ← Next s p i; SetNext x i n s.
Definition Insert_publish (x : loc) (i : nat) (s : SkipList) : option SkipList :=
  p ← prev_ s !! i; SetNext p i x s.
Fixpoint Insert_link (x : loc) (i n : nat) (s : SkipList) : option SkipList :=
  match n with
  | O => Some s
  | S n => s ← Insert_prepare x i s; s ← Insert_publish x i s; Insert_link x (S i) n s
  end.
Definition Insert_finish (x : loc) (height : nat) (s : SkipList) : option SkipList :=
  if decide (0 < length (prev_ s))%nat then Some (with_prev (<[0%nat := x]> (prev_ s)) height s) else None.

Definition Insert (k : Key) (rnd : Z) (s : SkipList) : option (Z * SkipList) :=
  '(height, rnd, s) ← Insert_begin k rnd s;
  let s := Insert_raise height s in
  let '(x, s) := NewNode k height s in
  s ← Insert_link x 0 height s;
  s ← Insert_finish x height s;
  Some (rnd, s).

End skiplist.
Arguments SkipList : clear implicits.
Arguments node : clear implicits.
