(* ===== verification/SkipListSearch.v ===== *)
(** * SkipListSearch: the reading half of [src/util/skiplist.h]

    The invariant [wf] relates the memory of a list to its contents: the nodes in
    the order of their keys and, for each, the number of levels on which it is
    linked so far.  Every search then succeeds within its bound (no assertion
    fails, no pointer that was not stored is read) and returns the node the
    sorted list of the contents determines. *)

From Stdlib Require Import Sorting.Sorted.
From S2P Require Import Prelude Store Order SkipList.
#[local] Open Scope Z_scope.



(** ** The levels *)

Section lanes.
Context {Key : Type}.

(** What the memory stands for: the nodes in order, on how many levels each is linked, and
    its key. *)
Record contents := { xs : list loc; up : loc -> nat; ky : loc -> Key }.

Definition level (a : contents) (i : nat) : list loc := filter (fun n => (i < up a n)%nat) (xs a).

(** The [i]th pointers lead from each element to the next. *)
Fixpoint lane (s : SkipList Key) (i : nat) (l : list loc) : Prop :=
  match l with
  | x :: ((y :: _) as t) => Next s x i = Some y /\ lane s i t
  | _ => True
  end.

Lemma lane_next s i l x y r : lane s i (l ++ x :: y :: r) -> Next s x i = Some y.
Proof. induction l as [|z l IH]; [by intros [? _]|]. destruct l; simpl; intros [_ H]; [by destruct H|by apply IH]. Qed.
Lemma lane_app s i l1 x l2 : lane s i (l1 ++ x :: l2) <-> lane s i (l1 ++ [x]) /\ lane s i (x :: l2).
Proof.
  induction l1 as [|z l1 IH]; [cbn; tauto|]. destruct l1; [cbn; tauto|]. cbn in IH |- *. tauto.
Qed.
Lemma lane_ext s s' i l z : (forall x, x ∈ l -> Next s' x i = Next s x i) -> lane s i (l ++ [z]) -> lane s' i (l ++ [z]).
Proof.
  induction l as [|x l IH]; intros He H; [done|]. destruct l as [|y l]; cbn in *.
  - destruct H as [H _]. split; [|done]. rewrite He; [done|set_solver].
  - destruct H as [H1 H2]. split; [rewrite He; [done|set_solver]|]. apply IH; [|done]. intros x' Hx. apply He. set_solver.
Qed.
Lemma hd_snoc (r : list loc) z : exists t, r ++ [z] = hd z r :: t.
Proof. destruct r as [|y r]; [by exists []|by exists (r ++ [z])]. Qed.
Lemma level_in a i n : n ∈ level a i <-> n ∈ xs a /\ (i < up a n)%nat.
Proof. unfold level. rewrite list_elem_of_filter. tauto. Qed.
End lanes.
#[global] Arguments contents : clear implicits.

Section proofs.
Context {Key : Type} (compare_ : Key -> Key -> Z) `{!Comparator compare_}.

(** ** The invariant *)


Definition before (a : contents Key) (k : Key) (n : loc) : Prop := compare_ (ky a n) k < 0.
#[export] Instance before_dec a k n : Decision (before a k n).
Proof. unfold before. apply _. Defined.
Record wf (s : SkipList Key) (a : contents Key) : Prop := {
  wf_head : head_ s <> nullptr /\ head_ s ∉ xs a /\
    exists nd, nodes s !! head_ s = Some nd /\ length (next_ nd) = kMaxHeight_ s;
  wf_nodes n : n ∈ xs a -> n <> nullptr /\ (1 <= up a n <= max_height_ s)%nat /\
    exists nd, nodes s !! n = Some nd /\ key nd = ky a n /\ (up a n <= length (next_ nd))%nat;
  wf_sorted : StronglySorted (fun m n => compare_ (ky a m) (ky a n) < 0) (xs a);
  wf_lane i : (i < kMaxHeight_ s)%nat -> lane s i (head_ s :: level a i ++ [nullptr]);
  wf_max : (1 <= max_height_ s <= kMaxHeight_ s)%nat
}.

Section wf.
Context (s : SkipList Key) (a : contents Key).
Hypothesis (W : wf s a).

Lemma level_0 : level a 0 = xs a.
Proof.
  unfold level. assert (forall n, n ∈ xs a -> (0 < up a n)%nat) as H.
  { intros n Hn. destruct (wf_nodes _ _ W n Hn) as (_ & ? & _). lia. }
  induction (xs a) as [|x l IH]; [done|]. rewrite filter_cons, decide_True by (apply H; set_solver).
  f_equal. apply IH. intros n Hn. apply H. set_solver.
Qed.
(** [x] is on level [i]. *)
Definition at_level (i : nat) (x : loc) : Prop := x = head_ s \/ (x ∈ xs a /\ (i < up a x)%nat).

(** The node after [x] on level [i]. *)
Lemma level_split i x : (i < kMaxHeight_ s)%nat -> at_level i x -> exists l r, head_ s :: level a i = l ++ x :: r /\
  Next s x i = Some (hd nullptr r) /\ (x <> head_ s -> forall y, y ∈ r -> compare_ (ky a x) (ky a y) < 0) /\
  (forall y, y ∈ l -> y = head_ s \/ (x <> head_ s /\ compare_ (ky a y) (ky a x) < 0)) /\ (forall y, y ∈ r -> y ∈ xs a /\ (i < up a y)%nat).
Proof.
  intros Hi Hx. pose proof (wf_lane _ _ W i Hi) as HC. destruct (wf_head _ _ W) as (_ & Hh & _).
  assert (head_ s ∉ level a i) as Hhl by (rewrite level_in; tauto).
  assert (x ∈ head_ s :: level a i) as Hin.
  { destruct Hx as [->|Hx]; [set_solver|]. apply elem_of_cons. right. by apply level_in. }
  apply list_elem_of_split in Hin as (l & r & E). exists l, r. split; [done|].
  change (lane s i ((head_ s :: level a i) ++ [nullptr])) in HC.
  rewrite E, <- app_assoc in HC. cbn [app] in HC. destruct (hd_snoc r nullptr) as [t Et]. rewrite Et in HC.
  split; [by eapply lane_next|].
  pose proof (sorted_sub _ (fun n => (i < up a n)%nat) _ (wf_sorted _ _ W)) as HS. fold (level a i) in HS.
  destruct l as [|z l]; injection E as <- E.
  - split; [done|]. split; [set_solver|]. intros y Hy. apply level_in. by rewrite E.
  - rewrite E in HS, Hhl. destruct (sorted_app _ l x r HS) as [H1 H2]. split; [intros _; exact H2|].
    split; [|intros y Hy; apply level_in; rewrite E; set_solver].
    intros y [->|Hy]%elem_of_cons; [by left|right]. split; [set_solver|by apply H1].
Qed.

Lemma at_level_node i x : (i < kMaxHeight_ s)%nat -> at_level i x -> exists nd, nodes s !! x = Some nd /\ (i < length (next_ nd))%nat /\ x <> nullptr.
Proof.
  intros Hi [->|[Hx Hu]].
  - destruct (wf_head _ _ W) as (? & _ & nd & E & El). exists nd. split_and!; [done|lia|done].
  - destruct (wf_nodes _ _ W x Hx) as (? & _ & nd & E & _ & El). exists nd. split_and!; [done|lia|done].
Qed.

Lemma KeyIsAfterNode_in k n : n ∈ xs a -> KeyIsAfterNode compare_ s k n = Some (bool_decide (before a k n)).
Proof.
  intros Hn. destruct (wf_nodes _ _ W n Hn) as (Hne & _ & nd & E & Ek & _).
  unfold KeyIsAfterNode. rewrite (proj2 (N.eqb_neq n nullptr)) by done. rewrite E. simpl. rewrite Ek. f_equal.
  unfold before. case_bool_decide; lia.
Qed.

(** ** The assertions hold *)

Lemma assert_sorted_ok i x : (i < kMaxHeight_ s)%nat -> at_level i x -> forall n, Next s x i = Some n -> assert_sorted compare_ s x n = Some tt.
Proof.
  intros Hi Hx n En. unfold assert_sorted. destruct (level_split i x Hi Hx) as (l & r & E & En' & Hlt & _ & Hr).
  rewrite En in En'. injection En' as ->. destruct (N.eqb_spec x (head_ s)); [done|].
  destruct r as [|y r]; [done|]. simpl hd. destruct (Hr y ltac:(set_solver)) as [Hy _].
  destruct (wf_nodes _ _ W y Hy) as (Hne & _ & nd & En2 & Ek & _). rewrite (proj2 (N.eqb_neq y nullptr)) by done. simpl.
  rewrite En2. simpl. destruct Hx as [|[Hx _]]; [done|]. rewrite KeyIsAfterNode_in by done. simpl.
  rewrite bool_decide_true; [done|]. unfold before. rewrite Ek. apply Hlt; [done|set_solver].
Qed.
Lemma assert_before_ok k x : (x = head_ s \/ (x ∈ xs a /\ before a k x)) -> assert_before compare_ s k x = Some tt.
Proof.
  intros Hx. unfold assert_before. destruct (N.eqb_spec x (head_ s)); [done|]. destruct Hx as [|[Hx Hb]]; [done|].
  rewrite KeyIsAfterNode_in by done. simpl. by rewrite bool_decide_true.
Qed.

(** ** Searches *)

Lemma search_ok {V R} (round : V -> option (R + V)) (I : V -> Prop) (Post : R -> Prop) (m : V -> nat) fuel v :
  (forall v, I v -> exists r, round v = Some r /\ match r with inl res => Post res | inr v' => I v' /\ (m v' < m v)%nat end) ->
  I v -> (m v < fuel)%nat -> exists res, search round fuel v = Some res /\ Post res.
Proof.
  intros Hr. revert v. induction fuel as [|fuel IH]; intros v Hv Hm; [lia|]. cbn [search].
  destruct (Hr v Hv) as (r & -> & Hp). simpl. destruct r as [res|v']; [by exists res|]. apply IH; [tauto|lia].
Qed.

(** How many nodes are still to the right of [x]. *)
Definition beyond (x : loc) : nat :=
  length (filter (fun y => x = head_ s \/ compare_ (ky a x) (ky a y) < 0) (xs a)).
Lemma beyond_right x y : (x = head_ s \/ compare_ (ky a x) (ky a y) < 0) -> y ∈ xs a -> (beyond y < beyond x)%nat.
Proof.
  intros Hxy Hy. assert (y <> head_ s) as Hyh by (intros ->; by destruct (wf_head _ _ W) as (_ & ? & _)).
  unfold beyond. apply filter_length_lt with y; [|done|done|].
  - intros z [?|Hz]; [done|]. destruct Hxy as [->|Hxy]; [by left|]. right. by eapply compare_trans.
  - intros [?|H]; [done|]. by apply compare_irrefl in H.
Qed.
Lemma wf_NoDup : NoDup (xs a).
Proof.
  pose proof (wf_sorted _ _ W) as HS. induction HS as [|x' l HS IH Hx]; [constructor|]. constructor; [|done].
  intros Hin. rewrite Forall_forall in Hx. by apply Hx, compare_irrefl in Hin.
Qed.
Lemma beyond_bound x : (beyond x <= size (nodes s))%nat.
Proof.
  unfold beyond. etransitivity; [apply length_filter|].
  pose proof wf_NoDup as HN.
  rewrite <- (size_list_to_set (C:=gset loc)) by done. rewrite <- size_dom. apply subseteq_size.
  intros n Hn%elem_of_list_to_set. apply elem_of_dom. destruct (wf_nodes _ _ W n Hn) as (_ & _ & nd & E & _). by exists nd.
Qed.

Definition first_ge (k : Key) : loc := hd nullptr (filter (fun n => ~ before a k n) (xs a)).

(** The order of the nodes and the key. *)
Lemma before_lt k x y : compare_ (ky a x) (ky a y) < 0 -> before a k y -> before a k x.
Proof. unfold before. intros. by eapply compare_trans. Qed.

(** The result at level 0: the node after the last one before the key. *)
Lemma first_ge_level_0 k x l r : head_ s :: xs a = l ++ x :: r -> (x = head_ s \/ before a k x) ->
  (forall y, y ∈ r -> ~ before a k y) -> first_ge k = hd nullptr r.
Proof.
  intros E Hx Hr. unfold first_ge. destruct l as [|z l]; injection E as <- E.
  - rewrite E, filter_keeps by done. done.
  - rewrite E, filter_app, filter_cons. pose proof (wf_sorted _ _ W) as HS. rewrite E in HS. destruct (sorted_app _ l x r HS) as [H1 _].
    destruct (wf_head _ _ W) as (_ & Hh & _). rewrite E in Hh. destruct Hx as [->|Hx]; [set_solver|].
    rewrite (filter_drops _ l), decide_False.
    + by rewrite filter_keeps.
    + intros Hn. by apply Hn.
    + intros y Hy Hn. apply Hn. eapply before_lt; [by apply H1|done].
Qed.
Lemma not_before_after k x r : StronglySorted (fun m n => compare_ (ky a m) (ky a n) < 0) (x :: r) -> ~ before a k x -> forall y, y ∈ x :: r -> ~ before a k y.
Proof.
  intros HS Hx y [->|Hy]%elem_of_cons; [done|]. intros Hb. apply Hx. eapply before_lt; [|done]. by apply (sorted_cons_inv _ _ _ _ HS).
Qed.
Lemma level_rest i x l r : head_ s :: level a i = l ++ x :: r -> StronglySorted (fun m n => compare_ (ky a m) (ky a n) < 0) r.
Proof.
  intros E. pose proof (sorted_sub _ (fun n => (i < up a n)%nat) _ (wf_sorted _ _ W)) as HS. fold (level a i) in HS.
  destruct l as [|z l]; injection E as <- E; rewrite E in HS; [done|]. by eapply sorted_rest.
Qed.

(** *** [FindGreaterOrEqual] *)

Definition reader_ok (k : Key) (v : loc * nat * loc) : Prop :=
  let '(x, lv, last_bigger) := v in
  (lv < kMaxHeight_ s)%nat /\ at_level lv x /\ (x = head_ s \/ before a k x) /\
  (last_bigger = nullptr \/ (last_bigger ∈ xs a /\ 0 < compare_ (ky a last_bigger) k)).

Lemma not_before_iff k n : ~ before a k n <-> 0 <= compare_ (ky a n) k.
Proof. unfold before. lia. Qed.

Lemma FindGreaterOrEqual_round_ok k v : reader_ok k v -> exists r, FindGreaterOrEqual_round compare_ s k v = Some r /\
  match r with
  | inl n => n = first_ge k
  | inr v' => reader_ok k v' /\ (v'.1.2 + beyond v'.1.1 < v.1.2 + beyond v.1.1)%nat
  end.
Proof.
  destruct v as [[x lv] lb]. intros (Hlv & Hx & Hb & Hlb). unfold FindGreaterOrEqual_round.
  destruct (level_split lv x Hlv Hx) as (l & r & E & En & Hlt & _ & Hr). rewrite En. cbn [mbind option_bind].
  rewrite (assert_sorted_ok lv x) by done. cbn [mbind option_bind].
  rewrite assert_before_ok by (destruct Hx as [|[? _]]; [by left|]; destruct Hb; [by left|by right]). cbn [mbind option_bind].
  set (next := hd nullptr r) in *.
  assert (exists cmp, (if (next =? nullptr)%N || (next =? lb)%N then Some 1 else nd ← nodes s !! next; Some (compare_ (key nd) k)) = Some cmp /\
    ((next = nullptr /\ r = [] /\ cmp = 1) \/ (next ∈ r /\ next ∈ xs a /\ next <> nullptr /\ (lv < up a next)%nat /\ (cmp < 0 <-> before a k next) /\
      (cmp = 0 -> compare_ (ky a next) k = 0) /\ (0 < cmp -> 0 < compare_ (ky a next) k)))) as (cmp & -> & Hcmp).
  { destruct r as [|y r]; [exists 1; split; [done|by left]|]. destruct (Hr y ltac:(set_solver)) as [Hy Hu].
    destruct (wf_nodes _ _ W y Hy) as (Hne & _ & nd & End & Ek & _). subst next. simpl hd.
    rewrite (proj2 (N.eqb_neq y nullptr)) by done. simpl orb. destruct (N.eqb_spec y lb) as [->|Hneq].
    - exists 1. split; [done|]. right. destruct Hlb as [|[_ Hlb]]; [done|]. split_and!; try done; try (unfold before; lia); set_solver.
    - rewrite End. simpl. exists (compare_ (key nd) k). split; [done|]. rewrite Ek. right. split_and!; try done; try (unfold before; lia); set_solver. }
  cbn [mbind option_bind]. eexists. split; [done|].
  destruct ((cmp =? 0) || (cmp >? 0) && (lv =? 0)%nat) eqn:Ec.
  - destruct Hcmp as [(En0 & -> & ->)|(Hnr & Hnx & Hne & Hu & Hlt0 & Heq0 & Hgt0)].
    { simpl in Ec. apply Nat.eqb_eq in Ec. subst lv. rewrite level_0 in E. symmetry. rewrite En0.
      apply (first_ge_level_0 k x l []); [done|done|set_solver]. }
    apply orb_true_iff in Ec as [Ec|Ec]; to_prop.
    + apply list_elem_of_split in Hnx as (l1 & l2 & Exs). pose proof (wf_sorted _ _ W) as HS. rewrite Exs in HS.
      destruct (sorted_app _ _ _ _ HS) as [H1 _]. unfold first_ge. rewrite Exs, filter_app, filter_cons.
      rewrite filter_drops, decide_True; [done| |].
      * apply not_before_iff. rewrite Heq0 by done. lia.
      * intros y Hy Hnb. apply Hnb. eapply compare_eq_r; [by apply Heq0|]. by apply H1.
    + apply Nat.eqb_eq in H0. subst lv. symmetry.
      rewrite level_0 in E. apply (first_ge_level_0 k x l r); [done|done|].
      destruct r as [|y r]; [set_solver|]. subst next. simpl in *. apply (not_before_after k y r).
      * eapply (level_rest 0 x l). by rewrite level_0.
      * rewrite <- Hlt0. lia.
  - destruct (cmp <? 0) eqn:Ec2; [apply Z.ltb_lt in Ec2|apply Z.ltb_ge in Ec2].
    + destruct Hcmp as [(_ & _ & ->)|(Hnr & Hnx & Hne & Hu & Hlt0 & Heq0 & Hgt0)]; [lia|]. split.
      * split; [done|]. split; [by right|]. split; [right; by apply Hlt0|done].
      * simpl. assert (beyond next < beyond x)%nat; [|lia]. apply beyond_right; [|done]. 
        destruct (decide (x = head_ s)); [by left|right]. by apply Hlt.
    + apply orb_false_iff in Ec as [Ec0%Z.eqb_neq Ec1]. assert (0 < cmp) as Hpos by lia.
      assert (lv <> 0%nat) as Hlv0 by (intros ->; rewrite Z.gtb_ltb, (proj2 (Z.ltb_lt 0 cmp)) in Ec1 by done; done).
      split; [|simpl; lia]. split; [lia|]. split; [destruct Hx as [|[? ?]]; [by left|right; split; [done|lia]]|]. split; [done|].
      destruct Hcmp as [(En0 & _)|(_ & Hnx & _ & _ & _ & _ & Hgt0)]; [by left|right; auto].
Qed.

Lemma start_at_level : at_level (GetMaxHeight s - 1) (head_ s).
Proof. by left. Qed.

Lemma FindGreaterOrEqual_ok k : FindGreaterOrEqual compare_ s k = Some (first_ge k).
Proof.
  unfold FindGreaterOrEqual. destruct (search_ok (FindGreaterOrEqual_round compare_ s k) (reader_ok k) (fun n => n = first_ge k)
    (fun v => (v.1.2 + beyond v.1.1)%nat) (search_bound s) (head_ s, (GetMaxHeight s - 1)%nat, nullptr)) as (n & -> & ->); [|..|done].
  - intros v Hv. destruct (FindGreaterOrEqual_round_ok k v Hv) as (r & -> & Hr). exists r. split; [done|]. by destruct r.
  - pose proof (wf_max _ _ W). unfold GetMaxHeight. split_and!; [lia|by left|by left|by left].
  - pose proof (wf_max _ _ W). pose proof (beyond_bound (head_ s)). unfold GetMaxHeight, search_bound. cbn. lia.
Qed.

(** *** [FindLessThan] *)

(** The last node of level [i] before the key, the head when there is none. *)
Definition is_pred (k : Key) (i : nat) (x : loc) : Prop :=
  at_level i x /\ (x = head_ s \/ before a k x) /\
  forall y, y ∈ xs a -> (i < up a y)%nat -> before a k y -> x <> head_ s /\ (y = x \/ compare_ (ky a y) (ky a x) < 0).

Lemma is_pred_split k i x : (i < kMaxHeight_ s)%nat -> is_pred k i x -> exists l r, head_ s :: level a i = l ++ x :: r /\
  Next s x i = Some (hd nullptr r) /\ (forall y, y ∈ l -> y = head_ s \/ before a k y) /\
  (forall y, y ∈ r -> ~ before a k y) /\ (forall y, y ∈ r -> y ∈ xs a /\ (i < up a y)%nat).
Proof.
  intros Hi (Hx & Hb & Hl). destruct (level_split i x Hi Hx) as (l & r & E & En & Hlt & Hll & Hr).
  exists l, r. split_and!; try done.
  - intros y Hy. destruct (Hll y Hy) as [|[Hne Hyx]]; [by left|right]. destruct Hb; [done|]. by eapply before_lt.
  - intros y Hy Hyb. destruct (Hr y Hy) as [Hyx Hu]. destruct (Hl y Hyx Hu Hyb) as [Hne [->|Hlty]].
    + by apply (compare_irrefl (ky a x)), Hlt.
    + apply (compare_irrefl (ky a x)). eapply compare_trans; [by apply (Hlt Hne y)|done].
Qed.
Lemma is_pred_intro k i x l r : head_ s :: level a i = l ++ x :: r -> at_level i x -> (x = head_ s \/ before a k x) ->
  (forall y, y ∈ r -> ~ before a k y) -> is_pred k i x.
Proof.
  intros E Hx Hb Hr. split; [done|]. split; [done|]. intros y Hy Hu Hyb.
  assert (y ∈ head_ s :: level a i) as Hin by (apply elem_of_cons; right; by apply level_in).
  destruct (wf_head _ _ W) as (_ & Hh & _).
  assert (y <> head_ s) as Hyh by (by intros ->).
  pose proof (sorted_sub _ (fun n => (i < up a n)%nat) _ (wf_sorted _ _ W)) as HS. fold (level a i) in HS.
  rewrite E in Hin. destruct l as [|z l]; injection E as <- E.
  - apply elem_of_cons in Hin as [?|Hin]; [done|]. by destruct (Hr y Hin).
  - rewrite E in HS. destruct (sorted_app _ l x r HS) as [H1 _]. split.
    + intros ->. apply Hh. apply (proj1 (level_in a i (head_ s))). rewrite E. set_solver.
    + apply elem_of_cons in Hin as [?|Hin]; [done|]. apply elem_of_app in Hin as [Hin|Hin]; [right; by apply H1|].
      apply elem_of_cons in Hin as [->|Hin]; [by left|]. by destruct (Hr y Hin).
Qed.
(** The node before the key on the lowest level. *)
Definition last_lt (k : Key) : loc := List.last (filter (before a k) (xs a)) (head_ s).
Lemma is_pred_0 k x : is_pred k 0 x -> x = last_lt k.
Proof.
  intros Hp. pose proof (wf_max _ _ W). destruct (is_pred_split k 0 x ltac:(lia) Hp) as (l & r & E & _ & Hl & Hr & _).
  destruct Hp as (_ & Hb & _). rewrite level_0 in E. unfold last_lt. destruct (wf_head _ _ W) as (_ & Hh & _).
  destruct l as [|z l]; injection E as <- E.
  - rewrite filter_drops; [done|]. intros y Hy. apply Hr. by rewrite <- E.
  - rewrite E in Hh |- *. destruct Hb as [->|Hb]; [set_solver|].
    rewrite filter_app, filter_cons, decide_True, (filter_keeps _ l), (filter_drops _ r) by
      (first [done | intros y Hy; destruct (Hl y ltac:(set_solver)) as [->|]; [set_solver|done]]).
    by rewrite List.last_last.
Qed.

Definition lt_ok (k : Key) (p0 : option (list loc)) (v : loc * nat * loc * option (list loc)) : Prop :=
  let '(x, lv, last_not_after, prev) := v in
  (lv < max_height_ s)%nat /\ at_level lv x /\ (x = head_ s \/ before a k x) /\
  (last_not_after = nullptr \/ (last_not_after ∈ xs a /\ ~ before a k last_not_after)) /\
  match p0, prev with
  | None, None => True
  | Some p0, Some p => (max_height_ s <= length p0)%nat /\ length p = length p0 /\
      (forall j, (lv < j < max_height_ s)%nat -> exists y, p !! j = Some y /\ is_pred k j y) /\
      (forall j, (max_height_ s <= j)%nat -> p !! j = p0 !! j)
  | _, _ => False
  end.
Definition lt_result (k : Key) (p0 : option (list loc)) (res : loc * option (list loc)) : Prop :=
  is_pred k 0 res.1 /\
  match p0, res.2 with
  | None, None => True
  | Some p0, Some p => length p = length p0 /\
      (forall j, (j < max_height_ s)%nat -> exists y, p !! j = Some y /\ is_pred k j y) /\
      (forall j, (max_height_ s <= j)%nat -> p !! j = p0 !! j)
  | _, _ => False
  end.

Lemma FindLessThan_round_ok k p0 v : lt_ok k p0 v -> exists r, FindLessThan_round compare_ s k v = Some r /\
  match r with
  | inl res => lt_result k p0 res
  | inr v' => lt_ok k p0 v' /\ (v'.1.1.2 + beyond v'.1.1.1 < v.1.1.2 + beyond v.1.1.1)%nat
  end.
Proof.
  destruct v as [[[x lv] lna] prev]. intros (Hlv & Hx & Hb & Hlna & Hp). pose proof (wf_max _ _ W). unfold FindLessThan_round.
  destruct (level_split lv x ltac:(lia) Hx) as (l & r & E & En & Hlt & _ & Hr). rewrite En. cbn [mbind option_bind].
  rewrite (assert_sorted_ok lv x) by (done || lia). cbn [mbind option_bind].
  rewrite assert_before_ok by (destruct Hx as [|[? _]]; [by left|]; destruct Hb; [by left|by right]). cbn [mbind option_bind].
  assert (exists after, (if negb (hd nullptr r =? lna)%N then KeyIsAfterNode compare_ s k (hd nullptr r) else Some false) = Some after /\
    (if after then exists y r', r = y :: r' /\ before a k y else forall y, y ∈ r -> ~ before a k y)) as (after & -> & Ha).
  { destruct r as [|y r]; cbn [hd].
    - exists false. split; [|set_solver]. destruct (N.eqb_spec nullptr lna); [done|]. unfold KeyIsAfterNode. by rewrite N.eqb_refl.
    - destruct (Hr y ltac:(set_solver)) as [Hy _]. destruct (wf_nodes _ _ W y Hy) as (Hne & _).
      assert (StronglySorted (fun m n => compare_ (ky a m) (ky a n) < 0) (y :: r)) as HS by (by eapply level_rest).
      destruct (N.eqb_spec y lna) as [->|]; cbn [negb].
      + exists false. split; [done|]. destruct Hlna as [|[_ Hlna]]; [done|]. by apply not_before_after.
      + rewrite KeyIsAfterNode_in by done. eexists; split; [done|]. case_bool_decide; [by exists y, r|]. by apply not_before_after. }
  cbn [mbind option_bind]. destruct after.
  - destruct Ha as (y & r' & -> & Hyb). eexists. split; [done|]. cbn [hd] in *. destruct (Hr y ltac:(set_solver)) as [Hy Hu]. split.
    + split_and!; try done; [by right|by right].
    + simpl. assert (beyond y < beyond x)%nat; [|lia]. apply beyond_right; [|done].
      destruct (decide (x = head_ s)); [by left|right]. apply Hlt; [done|set_solver].
  - assert (is_pred k lv x) as Hpred by (by eapply is_pred_intro).
    assert (exists prev', match prev with None => Some None
        | Some p => if decide (lv < length p)%nat then Some (Some (<[lv:=x]> p)) else None end = Some prev' /\
      match p0, prev' with
      | None, None => True
      | Some p0, Some p => (max_height_ s <= length p0)%nat /\ length p = length p0 /\
          (forall j, (lv <= j < max_height_ s)%nat -> exists y, p !! j = Some y /\ is_pred k j y) /\
          (forall j, (max_height_ s <= j)%nat -> p !! j = p0 !! j)
      | _, _ => False
      end) as (prev' & -> & Hp').
    { destruct p0 as [p0|], prev as [p|]; try done; [|by exists None]. destruct Hp as (Hm & El & Hp & Hp2).
      rewrite decide_True by lia. eexists; split; [done|]. cbn beta iota. rewrite length_insert. split_and!; try done.
      - intros j Hj. destruct (decide (j = lv)) as [->|].
        + exists x. rewrite list_lookup_insert_eq by lia. done.
        + rewrite list_lookup_insert_ne by done. apply Hp. lia.
      - intros j Hj. rewrite list_lookup_insert_ne by lia. by apply Hp2. }
    cbn [mbind option_bind]. eexists. split; [done|]. destruct (Nat.eqb_spec lv 0) as [->|Hn].
    + split; [done|]. simpl. destruct p0, prev'; try done. destruct Hp' as (? & ? & Hp' & ?). split_and!; try done.
      intros j Hj. apply Hp'. lia.
    + split; [|simpl; lia]. split; [lia|]. split; [destruct Hx as [|[? ?]]; [by left|right; split; [done|lia]]|]. split; [done|].
      split.
      * destruct r as [|y r]; [by left|right]. cbn. split; [apply (Hr y); set_solver|apply Ha; set_solver].
      * destruct p0, prev'; try done. destruct Hp' as (? & ? & Hp' & ?). split_and!; try done. intros j Hj. apply Hp'. lia.
Qed.
Lemma FindLessThan_ok k p0 : (forall p, p0 = Some p -> max_height_ s <= length p)%nat ->
  exists res, FindLessThan compare_ s k p0 = Some res /\ lt_result k p0 res.
Proof.
  intros Hp. pose proof (wf_max _ _ W). unfold FindLessThan.
  apply (search_ok _ (lt_ok k p0) _ (fun v => (v.1.1.2 + beyond v.1.1.1)%nat)).
  - intros v Hv. destruct (FindLessThan_round_ok k p0 v Hv) as (r & -> & Hr). exists r. split; [done|]. by destruct r.
  - unfold GetMaxHeight. split_and!; [lia|by left|by left|by left|]. destruct p0 as [p|]; [|done].
    split_and!; [by apply Hp|done| |done]. intros j Hj. lia.
  - pose proof (beyond_bound (head_ s)). unfold GetMaxHeight, search_bound. cbn. lia.
Qed.

(** *** [FindLast] and the estimate *)

Lemma FindLast_ok : FindLast s = Some (List.last (xs a) (head_ s)).
Proof.
  pose proof (wf_max _ _ W). unfold FindLast.
  destruct (search_ok (FindLast_round s) (fun v => (v.2 < kMaxHeight_ s)%nat /\ at_level v.2 v.1)
    (fun n => n = List.last (xs a) (head_ s)) (fun v => (v.2 + beyond v.1)%nat) (search_bound s) (head_ s, (GetMaxHeight s - 1)%nat))
    as (n & -> & ->); [|..|done].
  - intros [x lv] [Hlv Hx]. cbn [fst snd] in *. destruct (level_split lv x Hlv Hx) as (l & r & E & En & Hlt & _ & Hr).
    unfold FindLast_round. rewrite En. cbn [mbind option_bind]. eexists; split; [done|]. destruct r as [|y r]; cbn [hd].
    + rewrite N.eqb_refl. destruct (Nat.eqb_spec lv 0) as [->|]; cbn [fst snd].
      * rewrite level_0 in E. destruct l as [|z l]; injection E as <- E; rewrite E; [done|]. by rewrite List.last_last.
      * split; [|lia]. split; [lia|]. destruct Hx as [|[? ?]]; [by left|right; split; [done|lia]].
    + destruct (Hr y ltac:(set_solver)) as [Hy Hu]. destruct (wf_nodes _ _ W y Hy) as (Hne & _).
      rewrite (proj2 (N.eqb_neq y nullptr)) by done. cbn [fst snd]. split; [split; [done|by right]|].
      assert (beyond y < beyond x)%nat; [|lia]. apply beyond_right; [|done].
      destruct (decide (x = head_ s)); [by left|right]. apply Hlt; [done|set_solver].
  - unfold GetMaxHeight. cbn. split; [lia|by left].
  - pose proof (beyond_bound (head_ s)). unfold GetMaxHeight, search_bound. cbn. lia.
Qed.

Lemma head_unique l x r l' r' : head_ s :: xs a = l ++ x :: r -> head_ s :: xs a = l' ++ x :: r' -> l = l' /\ r = r'.
Proof.
  intros E E'. apply (split_at_unique x); [|congruence]. rewrite <- E. constructor; [by destruct (wf_head _ _ W) as (_ & ? & _)|apply wf_NoDup].
Qed.

(** The estimate never fails; with a single level it counts the keys before. *)
Definition count_ok (k : Key) (v : loc * nat * Z) : Prop :=
  let '(x, lv, count) := v in
  (lv < max_height_ s)%nat /\ at_level lv x /\ (x = head_ s \/ before a k x) /\
  (max_height_ s = 1%nat -> exists l r, head_ s :: xs a = l ++ x :: r /\ count = u64 (Z.of_nat (length l))).
Lemma filter_before_length k l x r : head_ s :: xs a = l ++ x :: r -> (x = head_ s \/ before a k x) -> (forall y, y ∈ r -> ~ before a k y) ->
  length (filter (before a k) (xs a)) = length l.
Proof.
  intros E Hb Hr. destruct (wf_head _ _ W) as (_ & Hh & _). destruct l as [|z l]; injection E as <- E.
  - rewrite filter_drops; [done|]. intros y Hy. apply Hr. by rewrite <- E.
  - pose proof (wf_sorted _ _ W) as HS. rewrite E in HS, Hh |- *. destruct (sorted_app _ l x r HS) as [H1 _].
    destruct Hb as [->|Hb]; [set_solver|]. rewrite filter_app, filter_cons, decide_True, (filter_keeps _ l), (filter_drops _ r); try done.
    + rewrite length_app. cbn. lia.
    + intros y Hy. eapply before_lt; [by apply H1|done].
Qed.
Lemma EstimateCount_round_ok k v : count_ok k v -> exists r, EstimateCount_round compare_ s k v = Some r /\
  match r with
  | inl c => max_height_ s = 1%nat -> c = u64 (Z.of_nat (length (filter (before a k) (xs a))))
  | inr v' => count_ok k v' /\ (v'.1.2 + beyond v'.1.1 < v.1.2 + beyond v.1.1)%nat
  end.
Proof.
  destruct v as [[x lv] count]. intros (Hlv & Hx & Hb & Hc). pose proof (wf_max _ _ W). unfold EstimateCount_round.
  rewrite assert_before_ok by (destruct Hx as [|[? _]]; [by left|]; destruct Hb; [by left|by right]). cbn [mbind option_bind].
  destruct (level_split lv x ltac:(lia) Hx) as (l & r & E & -> & Hlt & Hll & Hr). cbn [mbind option_bind].
  assert (exists stop, (if (hd nullptr r =? nullptr)%N then Some true else nd ← nodes s !! hd nullptr r; Some (compare_ (key nd) k >=? 0)) = Some stop /\
    if stop then forall y, y ∈ r -> ~ before a k y else exists y r', r = y :: r' /\ before a k y) as (stop & -> & Hs).
  { destruct r as [|y r]; cbn [hd]; [exists true; split; [done|set_solver]|]. destruct (Hr y ltac:(set_solver)) as [Hy _].
    destruct (wf_nodes _ _ W y Hy) as (Hne & _ & nd & End & Ek & _). rewrite (proj2 (N.eqb_neq y nullptr)), End by done. cbn [mbind option_bind].
    eexists. split; [done|]. rewrite Ek, Z.geb_leb. destruct (Z.leb_spec 0 (compare_ (ky a y) k)).
    - apply not_before_after; [by eapply level_rest|unfold before; lia].
    - exists y, r. split; [done|]. unfold before. lia. }
  cbn [mbind option_bind]. eexists. split; [done|]. destruct stop.
  - destruct (Nat.eqb_spec lv 0) as [->|Hn].
    + intros H1. destruct (Hc H1) as (l' & r' & E' & ->). rewrite level_0 in E. do 2 f_equal. symmetry.
      apply (filter_before_length k l' x r' E' Hb). pose proof head_unique as HU. specialize (HU l x r l' r' E E') as [_ ->]. done.
    + split; [|simpl; lia]. split; [lia|]. split; [destruct Hx as [|[? ?]]; [by left|right; split; [done|lia]]|]. split; [done|]. lia.
  - destruct Hs as (y & r' & -> & Hyb). cbn [hd]. destruct (Hr y ltac:(set_solver)) as [Hy Hu]. split.
    + split_and!; [done|by right|by right|]. intros H1. destruct (Hc H1) as (l' & r2 & E' & ->). replace lv with 0%nat in * by lia. rewrite level_0 in E.
      pose proof head_unique as HU. specialize (HU l x (y :: r') l' r2 E E') as [<- <-].
      exists (l ++ [x]), r'. split; [by rewrite <- app_assoc|]. rewrite length_app. cbn [length]. unfold wrap. rewrite Zplus_mod_idemp_l. f_equal. lia.
    + simpl. assert (beyond y < beyond x)%nat; [|lia]. apply beyond_right; [|done].
      destruct (decide (x = head_ s)); [by left|right]. apply Hlt; [done|set_solver].
Qed.
Lemma EstimateCount_ok k : exists c, EstimateCount compare_ s k = Some c /\
  (max_height_ s = 1%nat -> c = u64 (Z.of_nat (length (filter (before a k) (xs a))))).
Proof.
  pose proof (wf_max _ _ W). unfold EstimateCount. apply (search_ok _ (count_ok k) _ (fun v => (v.1.2 + beyond v.1.1)%nat)).
  - intros v Hv. destruct (EstimateCount_round_ok k v Hv) as (r & -> & Hr). exists r. split; [done|]. by destruct r.
  - unfold GetMaxHeight. split_and!; [lia|by left|by left|]. intros _. by exists [], (xs a).
  - pose proof (beyond_bound (head_ s)). unfold GetMaxHeight, search_bound. cbn. lia.
Qed.

Lemma node_key n : n ∈ xs a -> exists nd, nodes s !! n = Some nd /\ key nd = ky a n /\ n <> nullptr /\ n <> head_ s.
Proof.
  intros Hn. destruct (wf_nodes _ _ W n Hn) as (Hne & _ & nd & E & Ek & _). exists nd. split_and!; try done.
  intros ->. by destruct (wf_head _ _ W) as (_ & ? & _).
Qed.
Lemma first_ge_in k : first_ge k = nullptr \/ (first_ge k ∈ xs a /\ ~ before a k (first_ge k)).
Proof.
  unfold first_ge. destruct (filter _ (xs a)) as [|y r] eqn:E; [by left|right]. cbn.
  assert (y ∈ filter (fun n => ~ before a k n) (xs a)) as Hy by (rewrite E; set_solver). apply list_elem_of_filter in Hy. tauto.
Qed.

(** *** [Contains] and the iterator *)

Lemma Contains_ok k : Contains compare_ s k = Some (bool_decide (Exists (fun n => compare_ k (ky a n) = 0) (xs a))).
Proof.
  unfold Contains. rewrite FindGreaterOrEqual_ok. cbn [mbind option_bind].
  assert (forall n, n ∈ xs a -> compare_ k (ky a n) = 0 -> n ∈ filter (fun n => ~ before a k n) (xs a)) as Hin.
  { intros n Hn He. apply list_elem_of_filter. split; [|done]. unfold before. apply compare_eq_sym in He. lia. }
  unfold first_ge. pose proof (wf_sorted _ _ W) as HS. apply (sorted_sub _ (fun n => ~ before a k n)) in HS.
  destruct (filter (fun n => ~ before a k n) (xs a)) as [|y r] eqn:E; cbn [hd].
  - f_equal. symmetry. apply bool_decide_eq_false. intros (n & Hn & He)%Exists_exists. specialize (Hin n Hn He). set_solver.
  - assert (y ∈ filter (fun n => ~ before a k n) (xs a)) as Hy by (rewrite E; set_solver). apply list_elem_of_filter in Hy as [Hyb Hy].
    destruct (node_key y Hy) as (nd & End & Ek & Hne & _). rewrite (proj2 (N.eqb_neq y nullptr)) by done. rewrite End. cbn [mbind option_bind].
    f_equal. unfold Equal. rewrite Ek. destruct (Z.eqb_spec (compare_ k (ky a y)) 0) as [He|Hn].
    + symmetry. apply bool_decide_eq_true, Exists_exists. by exists y.
    + symmetry. apply bool_decide_eq_false. intros (n & Hnx & He)%Exists_exists.
      pose proof (Hin n Hnx He) as Hi. apply elem_of_cons in Hi as [->|Hi]; [done|].
      pose proof (sorted_cons_inv _ _ _ _ HS Hi) as Hlt. cbn in Hlt. apply Hyb. unfold before.
      eapply compare_eq_r; [by apply compare_eq_sym|done].
Qed.

Lemma SeekToFirst_ok : SeekToFirst s = Some (hd nullptr (xs a)).
Proof.
  pose proof (wf_max _ _ W). pose proof (wf_lane _ _ W 0 ltac:(lia)) as HC. rewrite level_0 in HC. unfold SeekToFirst.
  destruct (hd_snoc (xs a) nullptr) as [t Et]. rewrite Et in HC. by destruct HC.
Qed.
Lemma SeekToLast_ok : SeekToLast s = Some (List.last (xs a) nullptr).
Proof.
  unfold SeekToLast. rewrite FindLast_ok. cbn [mbind option_bind]. f_equal. destruct (wf_head _ _ W) as (_ & Hh & _).
  destruct (exists_last_or (xs a)) as [->|(l & x & E)]; [cbn; by rewrite N.eqb_refl|].
  rewrite E in Hh |- *. rewrite !List.last_last, (proj2 (N.eqb_neq x (head_ s))); [done|]. intros ->. set_solver.
Qed.
Lemma Iterator_Next_ok l n r : xs a = l ++ n :: r -> Iterator_Next s n = Some (hd nullptr r).
Proof.
  intros E. pose proof (wf_max _ _ W). pose proof (wf_lane _ _ W 0 ltac:(lia)) as HC. rewrite level_0, E in HC. unfold Iterator_Next.
  destruct (node_key n ltac:(rewrite E; set_solver)) as (nd & _ & _ & Hne & _). unfold Valid. rewrite (proj2 (N.eqb_neq n nullptr)) by done.
  cbn. rewrite <- app_assoc in HC. cbn [app] in HC. destruct (hd_snoc r nullptr) as [t Et]. rewrite Et in HC.
  apply (lane_next s 0 (head_ s :: l) n _ t HC).
Qed.
Lemma last_lt_split l n r : xs a = l ++ n :: r -> last_lt (ky a n) = List.last l (head_ s).
Proof.
  intros E. unfold last_lt. pose proof (wf_sorted _ _ W) as HS. rewrite E in HS. destruct (sorted_app _ l n r HS) as [H1 H2].
  rewrite E, filter_app, filter_cons, decide_False, (filter_keeps _ l), (filter_drops _ r), app_nil_r; [done|..].
  - intros y Hy Hb. apply (compare_irrefl (ky a y)). eapply compare_trans; [exact Hb|by apply H2].
  - intros y Hy. by apply H1.
  - apply compare_irrefl.
Qed.
Lemma Iterator_Prev_ok l n r : xs a = l ++ n :: r -> Iterator_Prev compare_ s n = Some (List.last l nullptr).
Proof.
  intros E. unfold Iterator_Prev. destruct (node_key n ltac:(rewrite E; set_solver)) as (nd & End & Ek & Hne & _).
  unfold Valid. rewrite (proj2 (N.eqb_neq n nullptr)), End by done. cbn [negb assert_ mbind option_bind].
  destruct (FindLessThan_ok (key nd) None) as ([x p] & -> & Hp & _); [done|]. cbn in Hp |- *. apply is_pred_0 in Hp as ->.
  rewrite Ek, (last_lt_split l n r E). f_equal. destruct (wf_head _ _ W) as (_ & Hh & _). rewrite E in Hh.
  destruct (exists_last_or l) as [->|(l' & x & ->)]; [cbn; by rewrite N.eqb_refl|].
  rewrite !List.last_last, (proj2 (N.eqb_neq x (head_ s))); [done|]. intros ->. set_solver.
Qed.

(** The last node that is not after the key. *)
Definition last_le (k : Key) : loc := List.last (filter (fun n => ~ compare_ k (ky a n) < 0) (xs a)) nullptr.

Lemma sorted_partition k : exists u v, xs a = u ++ v /\ (forall y, y ∈ u -> before a k y) /\ (forall y, y ∈ v -> ~ before a k y).
Proof.
  pose proof (wf_sorted _ _ W) as HS. induction (xs a) as [|x l IH]; [exists [], []; split_and!; set_solver|].
  destruct (decide (before a k x)) as [Hb|Hn].
  - apply sorted_cons in HS as [HS _]. destruct (IH HS) as (u & v & -> & Hu & Hv). exists (x :: u), v. split; [done|]. split; [|done].
    intros y [->|Hy]%elem_of_cons; auto.
  - exists [], (x :: l). split; [done|]. split; [set_solver|]. by apply not_before_after.
Qed.

Lemma SeekForPrev_stop fuel k n : n = nullptr \/ (n ∈ xs a /\ ~ compare_ k (ky a n) < 0) -> SeekForPrev_loop compare_ s k fuel n = Some n.
Proof.
  intros Hn. destruct fuel; cbn [SeekForPrev_loop]; (destruct Hn as [->|[Hn Hk]]; [done|];
    destruct (node_key n Hn) as (nd & End & Ek & Hne & _); unfold Valid, Iterator_key, Valid;
    rewrite (proj2 (N.eqb_neq n nullptr)), End by done; cbn; unfold LessThan; rewrite Ek, (proj2 (Z.ltb_ge _ _)) by lia; done).
Qed.

Lemma SeekForPrev_ok k : SeekForPrev compare_ s k = Some (last_le k).
Proof.
  unfold SeekForPrev, Seek. rewrite FindGreaterOrEqual_ok. cbn [mbind option_bind].
  destruct (sorted_partition k) as (u & v & E & Hu & Hv).
  assert (first_ge k = hd nullptr v) as ->.
  { unfold first_ge. rewrite E, filter_app, (filter_drops _ u), (filter_keeps _ v); [done|done|].
    intros y Hy Hn. by apply Hn, Hu. }
  assert (forall y, y ∈ u -> ~ compare_ k (ky a y) < 0) as Hu'.
  { intros y Hy Hk. apply Hu in Hy. apply (compare_irrefl k). by eapply compare_trans. }
  destruct v as [|y r]; cbn [hd].
  - rewrite app_nil_r in E. unfold Valid at 1. rewrite N.eqb_refl. cbn [negb]. rewrite SeekToLast_ok. cbn [mbind option_bind].
    unfold last_le. rewrite E, filter_keeps by done. apply SeekForPrev_stop.
    destruct (exists_last_or u) as [->|(l & x & ->)]; [by left|right]. rewrite List.last_last. assert (x ∈ l ++ [x]) by set_solver.
    split; [by rewrite E|by apply Hu'].
  - assert (y ∈ xs a) as Hy by (rewrite E; apply elem_of_app; right; apply list_elem_of_here). destruct (node_key y Hy) as (nd & End & Ek & Hne & _).
    assert (forall z, z ∈ r -> compare_ k (ky a z) < 0) as Hr.
    { intros z Hz. pose proof (wf_sorted _ _ W) as HS. rewrite E in HS. destruct (sorted_app _ u y r HS) as [_ H2].
      pose proof (Hv y ltac:(set_solver)) as Hyk. unfold before in Hyk. specialize (H2 z Hz).
      destruct (Z.eq_dec (compare_ (ky a y) k) 0) as [Hz0|]; [by eapply compare_eq|].
      eapply compare_trans; [|done]. apply compare_sym. lia. }
    unfold Valid at 1. rewrite (proj2 (N.eqb_neq y nullptr)) by done. cbn [mbind option_bind negb].
    unfold last_le. rewrite E, filter_app, filter_cons, (filter_keeps _ u), (filter_drops _ r); [|intros z Hz Hn; by apply Hn, Hr|done].
    destruct (decide (~ compare_ k (ky a y) < 0)) as [Hk|Hk].
    + rewrite List.last_last. apply SeekForPrev_stop. by right.
    + rewrite app_nil_r. unfold search_bound. cbn [SeekForPrev_loop]. unfold Valid, Iterator_key at 1, Valid.
      rewrite (proj2 (N.eqb_neq y nullptr)), End by done. cbn [negb mbind option_bind assert_ option_fmap option_map fmap].
      unfold LessThan. rewrite Ek, (proj2 (Z.ltb_lt _ _)) by lia. rewrite (Iterator_Prev_ok u y r E). cbn [mbind option_bind].
      apply SeekForPrev_stop. destruct (exists_last_or u) as [->|(l & x & ->)]; [by left|right].
      assert (x ∈ l ++ [x]) by set_solver. rewrite List.last_last. split; [rewrite E; set_solver|by apply Hu'].
Qed.
End wf.
End proofs.
