(* ===== verification/SkipListInsert.v ===== *)
(** * SkipListInsert: the writing half of [src/util/skiplist.h]

    [Insert] raises the height, makes a node and links it level by level, two
    stores a level.  [pending] is the state between two of these steps; after
    every one of them [wf] holds for contents that only grew.  The last theorem
    is the promise of the whole class: a sorted set of keys with a cursor. *)

From Stdlib Require Import Sorting.Sorted.
From S2P Require Import Prelude Store Order SkipList SkipListSearch.
From S2P Require Random.
#[local] Open Scope Z_scope.
#[local] Open Scope mycc_scope.


(** ** One store *)

Section store.
Context {Key : Type}.
Implicit Types s : SkipList Key.

Lemma SetNext_ok x n y s nd : nodes s !! x = Some nd -> (n < length (next_ nd))%nat ->
  SetNext x n y s = Some (with_nodes (<[x := {| key := key nd; next_ := <[n := Some y]> (next_ nd) |}]>) s).
Proof. intros E Hn. unfold SetNext. rewrite E. cbn [mbind option_bind]. by rewrite decide_True. Qed.

(** What no step of an insertion changes. *)
Definition frame s s' : Prop :=
  head_ s' = head_ s /\ kMaxHeight_ s' = kMaxHeight_ s /\ kBranching_ s' = kBranching_ s /\
  (forall z nd, nodes s !! z = Some nd -> exists nd', nodes s' !! z = Some nd' /\ key nd' = key nd /\ length (next_ nd') = length (next_ nd)).
Lemma frame_same s s' : head_ s' = head_ s -> kMaxHeight_ s' = kMaxHeight_ s -> kBranching_ s' = kBranching_ s -> nodes s' = nodes s -> frame s s'.
Proof. intros. unfold frame. split_and!; try done. intros z nd E. exists nd. split_and!; congruence. Qed.
Lemma frame_trans s1 s2 s3 : frame s1 s2 -> frame s2 s3 -> frame s1 s3.
Proof.
  intros (H1 & H2 & H3 & H4) (J1 & J2 & J3 & J4). unfold frame. split_and!; try congruence. intros z nd E.
  destruct (H4 _ _ E) as (nd' & E' & Ek & El). destruct (J4 _ _ E') as (nd2 & E2 & Ek2 & El2). exists nd2. split_and!; congruence.
Qed.

Lemma SetNext_frame x n y s s' : SetNext x n y s = Some s' ->
  frame s s' /\ prev_ s' = prev_ s /\ prev_height_ s' = prev_height_ s /\ max_height_ s' = max_height_ s.
Proof.
  unfold SetNext. destruct (nodes s !! x) as [nd|] eqn:E; [|done]. cbn [mbind option_bind]. case_decide; [|done]. intros [= <-].
  unfold frame. split_and!; try done; cbn.
  intros z nd' Ez. destruct (decide (z = x)) as [->|].
  - rewrite lookup_insert_eq. rewrite E in Ez. injection Ez as <-. eexists. split; [done|]. cbn. by rewrite length_insert.
  - rewrite lookup_insert_ne by done. by exists nd'.
Qed.
Lemma SetNext_Next x n y s s' z j : SetNext x n y s = Some s' -> Next s' z j = if decide (z = x /\ j = n) then Some y else Next s z j.
Proof.
  unfold SetNext, Next. destruct (nodes s !! x) as [nd|] eqn:E; [|done]. cbn [mbind option_bind]. case_decide as Hn; [|done]. intros [= <-]. cbn.
  destruct (decide (z = x)) as [->|].
  - rewrite lookup_insert_eq, E. cbn. destruct (decide (j = n)) as [->|].
    + rewrite list_lookup_insert_eq by done. cbn. by rewrite decide_True.
    + rewrite list_lookup_insert_ne, decide_False by naive_solver. done.
  - rewrite lookup_insert_ne, decide_False by naive_solver. done.
Qed.
End store.

Section insert.
Context {Key : Type} (compare_ : Key -> Key -> Z) `{!Comparator compare_}.
Implicit Types (s : SkipList Key) (a : contents Key).
Abbreviation wf := (wf compare_).

(** The steps that no search can see. *)
Lemma wf_frame s s' a : wf s a -> frame s s' -> (max_height_ s <= max_height_ s' <= kMaxHeight_ s)%nat ->
  (forall i x, (i < kMaxHeight_ s)%nat -> at_level s a i x -> Next s' x i = Next s x i) -> wf s' a.
Proof.
  intros W (Eh & Ek & _ & Hn) Hm HN. pose proof (wf_max _ _ _ W). constructor.
  - destruct (wf_head _ _ _ W) as (H1 & H2 & nd & E & El). rewrite Eh. split_and!; [done|done|].
    destruct (Hn _ _ E) as (nd' & E' & _ & El'). exists nd'. split; [done|]. by rewrite El', El.
  - intros n Hin. destruct (wf_nodes _ _ _ W n Hin) as (H1 & H2 & nd & E & Eky & El). split_and!; [done|lia|lia|].
    destruct (Hn _ _ E) as (nd' & E' & Eky' & El'). exists nd'. split; [done|]. split; [congruence|lia].
  - apply (wf_sorted _ _ _ W).
  - intros i Hi. rewrite Ek in Hi. rewrite Eh. apply (lane_ext s s' i (head_ s :: level a i)); [|by apply (wf_lane _ _ _ W)].
    intros x Hx. apply HN; [done|]. apply elem_of_cons in Hx as [->|Hx]; [by left|right]. by apply level_in in Hx.
  - rewrite Ek. lia.
Qed.

Lemma wf_with_prev s a p n : wf s a -> wf (with_prev p n s) a.
Proof. intros W. pose proof (wf_max _ _ _ W). apply (wf_frame s); [done|by apply frame_same|cbn; lia|done]. Qed.
Lemma wf_raise s a h : wf s a -> (h <= kMaxHeight_ s)%nat -> wf (Insert_raise h s) a.
Proof.
  intros W Hh. pose proof (wf_max _ _ _ W). unfold Insert_raise. destruct (Nat.ltb_spec (GetMaxHeight s) h); [|done]. unfold GetMaxHeight in *.
  apply (wf_frame s); [done|by apply frame_same|cbn; lia|done].
Qed.
Lemma NewNode_fresh s k h : NewNode k h s = (fresh ({[nullptr]} ∪ dom (nodes s)), with_nodes (<[fresh ({[nullptr]} ∪ dom (nodes s)) := {| key := k; next_ := repeat None h |}]>) s) /\
  fresh ({[nullptr]} ∪ dom (nodes s)) <> nullptr /\ nodes s !! fresh ({[nullptr]} ∪ dom (nodes s)) = None.
Proof.
  split; [done|]. pose proof (is_fresh ({[nullptr]} ∪ dom (nodes s))) as Hf.
  split; [set_solver|]. apply not_elem_of_dom. set_solver.
Qed.
Lemma NewNode_ok s k h : let x := (NewNode k h s).1 in let s' := (NewNode k h s).2 in
  x <> nullptr /\ nodes s !! x = None /\ nodes s' !! x = Some {| key := k; next_ := repeat None h |} /\ frame s s' /\
  prev_ s' = prev_ s /\ prev_height_ s' = prev_height_ s /\ max_height_ s' = max_height_ s /\
  (forall z i, nodes s !! z <> None -> Next s' z i = Next s z i).
Proof.
  cbn zeta. destruct (NewNode_fresh s k h) as (-> & Hx & Hf). set (x := fresh _) in *. cbn [fst snd].
  assert (forall z, nodes s !! z <> None -> <[x:={| key := k; next_ := repeat None h |}]> (nodes s) !! z = nodes s !! z) as Hk.
  { intros z Hz. rewrite lookup_insert_ne; [done|]. by intros <-. }
  unfold frame. split_and!; try done; cbn.
  - by rewrite lookup_insert_eq.
  - intros z nd E. exists nd. rewrite Hk; [done|congruence].
  - intros z i Hz. unfold Next. cbn. by rewrite Hk.
Qed.
Lemma at_level_allocated s a i x : wf s a -> (i < kMaxHeight_ s)%nat -> at_level s a i x -> nodes s !! x <> None.
Proof. intros W Hi Hx. destruct (at_level_node _ _ _ W i x Hi Hx) as (nd & E & _). congruence. Qed.
Lemma wf_NewNode s a k h : wf s a -> wf (NewNode k h s).2 a.
Proof.
  intros W. pose proof (wf_max _ _ _ W). destruct (NewNode_ok s k h) as (_ & _ & _ & Hf & _ & _ & Em & HN).
  apply (wf_frame s); [done|done|lia|]. intros i x Hi Hx. apply HN. by eapply at_level_allocated.
Qed.

(** ** Publishing a node level by level *)

Definition grow a (x : loc) (k : Key) (i : nat) : contents Key :=
  {| xs := match i with
           | O => filter (fun n => before compare_ a k n) (xs a) ++ x :: filter (fun n => ~ before compare_ a k n) (xs a)
           | S _ => xs a
           end;
     up n := if decide (n = x) then S i else up a n;
     ky n := if decide (n = x) then k else ky a n |}.

(** [x] is linked on the levels below [i] of the [h] it will have. *)
Record pending s a (x : loc) (k : Key) (i h : nat) : Prop := {
  p_wf : wf s a;
  p_node : exists nd, nodes s !! x = Some nd /\ key nd = k /\ length (next_ nd) = h;
  p_fresh : x <> nullptr /\ x <> head_ s;
  p_in : match i with
         | O => x ∉ xs a /\ (forall n, n ∈ xs a -> compare_ k (ky a n) <> 0)
         | S _ => x ∈ xs a /\ up a x = i /\ ky a x = k
         end;
  p_height : (i <= h <= max_height_ s)%nat;
  p_prev j : (i <= j < max_height_ s)%nat -> exists p, prev_ s !! j = Some p /\ is_pred compare_ s a k j p
}.

Lemma pending_out s a x k i h : pending s a x k i h -> forall j y, (i <= j)%nat -> y ∈ xs a -> (j < up a y)%nat -> y <> x.
Proof. intros P j y Hj Hy Hu ->. pose proof (p_in _ _ _ _ _ _ P) as Hin. destruct i; [by destruct Hin|]. destruct Hin as (_ & ? & _). lia. Qed.

Lemma grow_split s a x k i h : pending s a x k i h -> exists u v, xs (grow a x k i) = u ++ x :: v /\
  (forall y, y ∈ u -> before compare_ a k y) /\ (forall y, y ∈ v -> ~ before compare_ a k y) /\
  x ∉ u /\ x ∉ v /\ (forall y, y ∈ u ++ v -> y ∈ xs a) /\
  (forall j, (i <= j)%nat -> level a j = filter (fun n => (j < up a n)%nat) (u ++ v)).
Proof.
  intros P. pose proof (p_wf _ _ _ _ _ _ P) as W. pose proof (p_in _ _ _ _ _ _ P) as Hin. unfold grow.
  destruct (sorted_partition _ s a W k) as (u & v & E & Hu & Hv). destruct i as [|i]; cbn [xs].
  - destruct Hin as [Hx _]. exists u, v.
    assert (filter (fun n => before compare_ a k n) (xs a) = u) as ->.
    { by rewrite E, filter_app, (filter_keeps _ u), (filter_drops _ v), app_nil_r. }
    assert (filter (fun n => ~ before compare_ a k n) (xs a) = v) as ->.
    { rewrite E, filter_app, (filter_keeps _ v), (filter_drops _ u); try done. intros y Hy Hn. by apply Hn, Hu. }
    rewrite E in Hx. split_and!; try done; [set_solver|set_solver|by rewrite E|]. intros j _. unfold level. by rewrite E.
  - destruct Hin as (Hx & Hux & Hk). rewrite E in Hx.
    assert (x ∈ v) as Hxv.
    { apply elem_of_app in Hx as [Hx|Hx]; [|done]. apply Hu in Hx. unfold before in Hx. rewrite Hk in Hx. by apply compare_irrefl in Hx. }
    destruct v as [|y v]; [set_solver|]. pose proof (wf_sorted _ _ _ W) as HS. rewrite E in HS.
    destruct (sorted_app _ _ _ _ HS) as [H1 H2].
    assert (y = x) as ->.
    { apply elem_of_cons in Hxv as [?|Hxv]; [done|]. destruct (Hv y); [set_solver|]. unfold before. rewrite <- Hk. by apply H2. }
    exists u, v. split_and!; try done.
    + intros z Hz. apply Hv. set_solver.
    + intros Hxu. specialize (H1 x Hxu). by apply compare_irrefl in H1.
    + intros Hxv'. specialize (H2 x Hxv'). by apply compare_irrefl in H2.
    + intros z Hz. rewrite E. set_solver.
    + intros j Hj. unfold level. rewrite E, !filter_app, filter_cons, decide_False by lia. done.
Qed.

Lemma grow_other a x k i y : y <> x -> up (grow a x k i) y = up a y /\ ky (grow a x k i) y = ky a y.
Proof. intros Hy. cbn. by rewrite !decide_False. Qed.
Lemma grow_self a x k i : up (grow a x k i) x = S i /\ ky (grow a x k i) x = k.
Proof. cbn. by rewrite !decide_True. Qed.
Lemma grow_in s a x k i h y : pending s a x k i h -> y ∈ xs (grow a x k i) <-> y = x \/ y ∈ xs a.
Proof.
  intros P. pose proof (p_in _ _ _ _ _ _ P) as Hin. destruct i as [|i]; cbn.
  - rewrite elem_of_app, elem_of_cons, !list_elem_of_filter. destruct (decide (before compare_ a k y)); naive_solver.
  - destruct Hin as (Hx & _). naive_solver.
Qed.


(** The levels after the node was published on level [i]. *)
Lemma level_grow_other s a x k i h j : pending s a x k i h -> j <> i -> level (grow a x k i) j = level a j.
Proof.
  intros P Hj. pose proof (p_in _ _ _ _ _ _ P) as Hin. unfold level. destruct i as [|i].
  - destruct (grow_split _ _ _ _ _ _ P) as (u & v & E & _ & _ & Hu & Hv & _ & HL). rewrite E. pose proof (HL j ltac:(lia)) as HLj. unfold level in HLj.
    rewrite HLj, !filter_app, filter_cons, decide_False by (destruct (grow_self a x k 0); lia).
    f_equal; apply filter_iff; intros y Hy; destruct (grow_other a x k 0 y) as [-> _]; [by intros ->|done|by intros ->|done].
  - destruct Hin as (_ & Hux & _). change (xs (grow a x k (S i))) with (xs a). apply filter_iff. intros y Hy.
    destruct (decide (y = x)) as [->|Hn]; [|by destruct (grow_other a x k (S i) y Hn) as [-> _]].
    destruct (grow_self a x k (S i)) as [-> _]. lia.
Qed.
Lemma level_grow_same s a x k i h p l r : pending s a x k i h -> head_ s :: level a i = l ++ p :: r ->
  (forall y, y ∈ l ++ [p] -> y = head_ s \/ before compare_ a k y) -> (forall y, y ∈ r -> ~ before compare_ a k y) ->
  head_ s :: level (grow a x k i) i = l ++ p :: x :: r.
Proof.
  intros P E Hl Hr. destruct (grow_split _ _ _ _ _ _ P) as (u & v & Eg & Hu & Hv & Hxu & Hxv & Hxs & HL). rewrite (HL i), filter_app in E by done.
  unfold level. rewrite Eg, filter_app, filter_cons, decide_True by (destruct (grow_self a x k i); lia).
  destruct (wf_head _ _ _ (p_wf _ _ _ _ _ _ P)) as (_ & Hh & _).
  assert (forall w : list loc, x ∉ w -> filter (fun n => (i < up (grow a x k i) n)%nat) w = filter (fun n => (i < up a n)%nat) w) as Hw.
  { intros w Hxw. apply filter_iff. intros y Hy. destruct (grow_other a x k i y) as [-> _]; [by intros ->|done]. }
  rewrite !Hw by done. change (l ++ p :: r) with (l ++ [p] ++ r) in E. rewrite app_assoc in E.
  assert (forall y, y ∈ r -> y <> head_ s) as Hrh.
  { intros y Hy ->. assert (NoDup (head_ s :: filter (fun n => (i < up a n)%nat) u ++ filter (fun n => (i < up a n)%nat) v)) as HN.
    { rewrite <- filter_app, <- (HL i) by done. constructor; [rewrite level_in; tauto|]. apply NoDup_filter. by eapply wf_NoDup, (p_wf _ _ _ _ _ _ P). }
    rewrite E in HN. assert (exists t, l ++ [p] = head_ s :: t) as [t Et].
    { destruct l as [|z l]; injection E as <- _; [by exists []|by exists (l ++ [p])]. }
    rewrite Et in HN. cbn in HN. apply NoDup_cons in HN as [HN _]. set_solver. }
  destruct (split_unique (fun y => y = head_ s \/ before compare_ a k y) (head_ s :: filter (fun n => (i < up a n)%nat) u) (filter (fun n => (i < up a n)%nat) v) (l ++ [p]) r)
    as [E1 <-]; [exact E|..].
  - intros y [->|Hy]%elem_of_cons; [by left|right]. apply Hu. apply list_elem_of_filter in Hy. tauto.
  - intros y [_ Hy]%list_elem_of_filter [->|Hb]; [apply Hh, Hxs; set_solver|by apply (Hv y)].
  - done.
  - intros y Hy [?|Hb]; [by apply (Hrh y)|by apply (Hr y)].
  - rewrite (cons_middle p l), (app_assoc l), <- E1. done.
Qed.

(** The first of the two stores of a level. *)
Definition prepared s (x : loc) (i : nat) : Prop := exists p, prev_ s !! i = Some p /\ Next s x i = Next s p i.

Lemma is_pred_frame s s' a k j p : head_ s' = head_ s -> is_pred compare_ s a k j p -> is_pred compare_ s' a k j p.
Proof. unfold is_pred, at_level. by intros ->. Qed.

Lemma Insert_prepare_ok s a x k i h : pending s a x k i h -> (i < h)%nat ->
  exists s', Insert_prepare x i s = Some s' /\ pending s' a x k i h /\ prepared s' x i /\
    frame s s' /\ prev_ s' = prev_ s /\ max_height_ s' = max_height_ s.
Proof.
  intros P Hi. pose proof P as [W (nd & End & Ek & El) [Hxn Hxh] Hin Hh Hp]. pose proof (wf_max _ _ _ W).
  destruct (Hp i ltac:(lia)) as (p & Ep & Hpred). destruct (is_pred_split _ s a W k i p ltac:(lia) Hpred) as (l & r & E & En & _).
  unfold Insert_prepare. rewrite Ep. cbn [mbind option_bind]. rewrite En. cbn [mbind option_bind].
  destruct (SetNext x i (hd nullptr r) s) as [s'|] eqn:Es; [|by rewrite (SetNext_ok _ _ _ _ nd) in Es by (done || lia)].
  destruct (SetNext_frame _ _ _ _ _ Es) as (Hf & Epr & _ & Em). exists s'. split; [done|].
  assert (p <> x) as Hpx.
  { intros ->. destruct Hpred as ([?|[Hx Hu]] & _); [done|]. by apply (pending_out _ _ _ _ _ _ P i x). }
  split; [|split_and!; try done].
  - pose proof Hf as (Eh & Ekm & _ & Hn). constructor; try done; rewrite ?Em, ?Epr, ?Eh; try done.
    + apply (wf_frame s); [done|done|lia|]. intros j z Hj Hz. rewrite (SetNext_Next _ _ _ _ _ z j Es), decide_False; [done|].
      intros [-> ->]. destruct Hz as [?|[Hz Hu]]; [done|]. by apply (pending_out _ _ _ _ _ _ P i x).
    + destruct (Hn _ _ End) as (nd' & End' & Ek' & El'). exists nd'. split_and!; [done|congruence|congruence].
    + intros j Hj. destruct (Hp j Hj) as (q & Eq & Hq). exists q. split; [done|]. by apply (is_pred_frame s).
  - exists p. rewrite Epr. split; [done|]. rewrite !(SetNext_Next _ _ _ _ _ _ _ Es), decide_True, decide_False by naive_solver. done.
Qed.


Lemma grow_sorted s a x k i h : pending s a x k i h ->
  StronglySorted (fun m n => compare_ (ky (grow a x k i) m) (ky (grow a x k i) n) < 0) (xs (grow a x k i)).
Proof.
  intros P. pose proof (p_in _ _ _ _ _ _ P) as Hin. pose proof (wf_sorted _ _ _ (p_wf _ _ _ _ _ _ P)) as HS. destruct i as [|i].
  - destruct Hin as [Hx Hk].
    assert (forall y, y ∈ xs a -> ky (grow a x k 0) y = ky a y) as Hky by (intros y Hy; apply grow_other; by intros ->).
    destruct (grow_self a x k 0) as [_ Eself].
    destruct (sorted_partition _ s a (p_wf _ _ _ _ _ _ P) k) as (u & v & E & Hu & Hv). cbn [xs grow].
    rewrite E, !filter_app, (filter_keeps _ u), (filter_drops _ v), (filter_drops _ u), (filter_keeps _ v), app_nil_r; try done; [|intros y Hy Hn; by apply Hn, Hu].
    cbn [app]. apply sorted_insert.
    + rewrite <- E. eapply sorted_mono; [exact HS|]. intros y z Hy Hz. by rewrite !Hky.
    + intros y Hy. rewrite Eself, Hky by (rewrite E; set_solver). by apply Hu.
    + intros y Hy. rewrite Eself, Hky by (rewrite E; set_solver). specialize (Hk y ltac:(rewrite E; set_solver)). specialize (Hv y Hy).
      unfold before in Hv. apply compare_sym. destruct (Z.eq_dec (compare_ (ky a y) k) 0) as [Hz|]; [|lia]. by apply compare_eq_sym in Hz.
  - destruct Hin as (Hx & _ & Hk). change (xs (grow a x k (S i))) with (xs a). eapply sorted_mono; [exact HS|]. intros y z Hy Hz.
    assert (forall y, ky (grow a x k (S i)) y = ky a y) as Hky by (intros w; cbn; case_decide; congruence). by rewrite !Hky.
Qed.

Lemma lane_insert s s' i l p x r z : lane s i (l ++ p :: r ++ [z]) -> p ∉ l -> p ∉ r -> x <> p ->
  (forall y, y <> p -> Next s' y i = Next s y i) -> Next s' p i = Some x -> Next s x i = Some (hd z r) ->
  lane s' i (l ++ p :: x :: r ++ [z]).
Proof.
  intros HL Hpl Hpr Hxp HN Hp Hx. apply lane_app in HL as [H1 H2]. apply lane_app. split.
  - apply (lane_ext s); [|done]. intros y Hy. apply HN. by intros ->.
  - assert (lane s' i (r ++ [z])) as Hr.
    { destruct r as [|y r]; [done|]. destruct H2 as [_ H2]. apply (lane_ext s); [|exact H2]. intros w Hw. apply HN. by intros ->. }
    rewrite <- HN in Hx by done. destruct r as [|y r]; cbn in *; done.
Qed.
Lemma head_NoDup s a i : wf s a -> NoDup (head_ s :: level a i).
Proof.
  intros W. destruct (wf_head _ _ _ W) as (_ & Hh & _). constructor; [rewrite level_in; tauto|]. apply NoDup_filter. by eapply wf_NoDup.
Qed.

(** The store that makes the node reachable on level [i]. *)
Lemma Insert_publish_ok s a x k i h : pending s a x k i h -> prepared s x i -> (i < h)%nat ->
  exists s', Insert_publish x i s = Some s' /\ pending s' (grow a x k i) x k (S i) h /\
    frame s s' /\ prev_ s' = prev_ s /\ max_height_ s' = max_height_ s.
Proof.
  intros P (p & Ep & Exp) Hi. pose proof P as [W (nd & End & Ek & El) [Hxn Hxh] Hin Hh Hp]. pose proof (wf_max _ _ _ W).
  destruct (Hp i ltac:(lia)) as (p' & Ep' & Hpred). rewrite Ep in Ep'. injection Ep' as <-.
  destruct (is_pred_split _ s a W k i p ltac:(lia) Hpred) as (l & r & E & En & Hl & Hr & Hrx).
  unfold Insert_publish. rewrite Ep. cbn [mbind option_bind].
  destruct (at_level_node _ s a W i p ltac:(lia) (proj1 Hpred)) as (ndp & Endp & Hlp & _).
  destruct (SetNext p i x s) as [s'|] eqn:Es; [|by rewrite (SetNext_ok _ _ _ _ ndp) in Es by done].
  destruct (SetNext_frame _ _ _ _ _ Es) as (Hf & Epr & _ & Em). exists s'. split; [done|]. split; [|done].
  pose proof Hf as (Eh & Ekm & _ & Hn).
  assert (p <> x) as Hpx.
  { intros ->. destruct Hpred as ([?|[Hx Hu]] & _); [done|]. by apply (pending_out _ _ _ _ _ _ P i x). }
  assert (forall j y, (i <= j)%nat -> at_level s a j y -> y <> x) as Hat.
  { intros j y Hj [->|[Hy Hu]]; [done|]. by apply (pending_out _ _ _ _ _ _ P j y). }
  destruct (grow_self a x k i) as [Eu Eky].
  constructor; rewrite ?Eh, ?Em, ?Epr; try done.
  - constructor; rewrite ?Eh, ?Em, ?Ekm.
    + destruct (wf_head _ _ _ W) as (H1 & H2 & ndh & Eh1 & Eh2). split_and!; [done|rewrite (grow_in s) by done; naive_solver|].
      destruct (Hn _ _ Eh1) as (nd' & ? & _ & ?). exists nd'. split; [done|congruence].
    + intros y [->|Hy]%(grow_in s _ _ _ _ h _ P).
      * rewrite Eu, Eky. destruct (Hn _ _ End) as (nd' & E' & Ek' & El'). split_and!; [done|lia|lia|]. exists nd'. split_and!; [done|congruence|lia].
      * destruct (wf_nodes _ _ _ W y Hy) as (? & ? & nd2 & E2 & Ek2 & El2). destruct (Hn _ _ E2) as (nd' & E' & Ek' & El').
        assert (1 <= up (grow a x k i) y <= max_height_ s /\ ky (grow a x k i) y = ky a y /\ up (grow a x k i) y <= length (next_ nd2))%nat as (? & Hky & ?).
        { destruct (decide (y = x)) as [->|Hyx]; [|by destruct (grow_other a x k i y Hyx) as [-> ->]]. rewrite Eu, Eky.
          rewrite End in E2. injection E2 as <-. split_and!; [lia|lia|congruence|lia]. }
        split_and!; [done|lia|lia|]. exists nd'. split_and!; [done|congruence|lia].
    + by eapply grow_sorted.
    + intros j Hj. destruct (decide (j = i)) as [->|Hji].
      * change (lane s' i ((head_ s :: level (grow a x k i) i) ++ [nullptr])).
        assert (forall y, y ∈ l ++ [p] -> y = head_ s \/ before compare_ a k y) as Hlp'.
        { intros y [Hy| ->%list_elem_of_singleton]%elem_of_app; [by apply Hl|]. by destruct Hpred as (_ & ? & _). }
        rewrite (level_grow_same s a x k i h p l r P E Hlp' Hr), <- app_assoc. cbn [app].
        pose proof (wf_lane _ _ _ W i Hj) as HC. change (lane s i ((head_ s :: level a i) ++ [nullptr])) in HC. rewrite E, <- app_assoc in HC. cbn [app] in HC.
        pose proof (head_NoDup s a i W) as HN. rewrite E in HN. apply NoDup_app in HN as (_ & HN1 & HN2). apply NoDup_cons in HN2 as [HN2 _].
        apply lane_insert with s; try done.
        -- intros Hpl. apply (HN1 p Hpl). set_solver.
        -- intros z Hz. rewrite (SetNext_Next _ _ _ _ _ z i Es), decide_False; naive_solver.
        -- rewrite (SetNext_Next _ _ _ _ _ p i Es), decide_True; naive_solver.
        -- by rewrite Exp, En.
      * rewrite (level_grow_other s a x k i h j P Hji). apply (lane_ext s s' j (head_ s :: level a j)); [|by apply (wf_lane _ _ _ W)].
        intros z _. rewrite (SetNext_Next _ _ _ _ _ z j Es), decide_False; naive_solver.
    + apply W.
  - destruct (Hn _ _ End) as (nd' & E' & Ek' & El'). exists nd'. split_and!; congruence.
  - split; [|done]. apply (grow_in s _ _ _ _ h _ P). by left.
  - lia.
  - intros j Hj. destruct (Hp j ltac:(lia)) as (q & Eq & Hqa & Hqb & Hq). exists q. split; [done|].
    pose proof (Hat j q ltac:(lia) Hqa) as Hqx. destruct (grow_other a x k i q Hqx) as [Euq Ekq]. split_and!.
    + destruct Hqa as [->|[Hqi Hqu]]; [by left|right]. rewrite Euq. split; [|done]. apply (grow_in s _ _ _ _ h _ P). by right.
    + destruct Hqb as [->|Hqb]; [by left|right]. unfold before. by rewrite Ekq.
    + intros y [->|Hy]%(grow_in s _ _ _ _ h _ P) Hyu Hyb; [rewrite Eu in Hyu; lia|].
      assert (y <> x) as Hyx by (intros ->; rewrite Eu in Hyu; lia). destruct (grow_other a x k i y Hyx) as [Euy Eky'].
      unfold before in Hyb. rewrite Eky' in Hyb. rewrite Euy in Hyu. rewrite Eky', Ekq, Eh. by apply Hq.
Qed.

Lemma Insert_link_ok n : forall s a x k i h, pending s a x k i h -> (i + n = h)%nat ->
  exists s' a', Insert_link x i n s = Some s' /\ pending s' a' x k h h /\ frame s s' /\ prev_ s' = prev_ s /\ max_height_ s' = max_height_ s /\
    match n with O => a' = a | S _ => xs a' = xs (grow a x k i) /\ forall y, ky a' y = ky (grow a x k i) y end.
Proof.
  induction n as [|n IH]; intros s a x k i h P E; cbn [Insert_link].
  - replace h with i in * by lia. exists s, a. split_and!; try done. by apply frame_same.
  - destruct (Insert_prepare_ok _ _ _ _ _ _ P ltac:(lia)) as (s1 & -> & P1 & Hpr & F1 & E1 & M1). cbn [mbind option_bind].
    destruct (Insert_publish_ok _ _ _ _ _ _ P1 Hpr ltac:(lia)) as (s2 & -> & P2 & F2 & E2 & M2). cbn [mbind option_bind].
    destruct (IH _ _ _ _ _ _ P2 ltac:(lia)) as (s3 & a' & -> & P3 & F3 & E3 & M3 & HK). exists s3, a'. split_and!; try done; try congruence.
    + by eapply frame_trans, frame_trans.
    + destruct n; [by subst a'|]. destruct HK as [-> _]. done.
    + destruct n; [by subst a'|]. destruct HK as [_ HK]. intros y. rewrite HK. cbn. by case_decide.
Qed.

(** ** A whole insertion *)

Lemma fill_prev_ok x n : forall from p, (from + n <= length p)%nat -> exists p', fill_prev x from n p = Some p' /\ length p' = length p /\
  forall j, p' !! j = if decide (from <= j < from + n)%nat then Some x else p !! j.
Proof.
  induction n as [|n IH]; intros from p Hl; cbn [fill_prev].
  - exists p. split_and!; try done. intros j. by rewrite decide_False by lia.
  - rewrite decide_True by lia. destruct (IH (S from) (<[from:=x]> p)) as (p' & -> & El & Hp'); [rewrite length_insert; lia|].
    exists p'. split; [done|]. rewrite length_insert in El. split; [done|]. intros j. rewrite Hp'. destruct (decide (j = from)) as [->|].
    + rewrite decide_False, decide_True by lia. apply list_lookup_insert_eq. lia.
    + rewrite list_lookup_insert_ne by done. by repeat case_decide; try lia.
Qed.

(** The array that remembers the last insertion. *)
Definition prev_inv s a : Prop :=
  length (prev_ s) = kMaxHeight_ s /\ exists p0, prev_ s !! 0%nat = Some p0 /\
  ((p0 = head_ s /\ xs a = [] /\ prev_height_ s = 1%nat /\ max_height_ s = 1%nat) \/
   (p0 ∈ xs a /\ up a p0 = prev_height_ s /\
    forall j, (prev_height_ s <= j < max_height_ s)%nat -> exists q, prev_ s !! j = Some q /\ is_pred compare_ s a (ky a p0) j q)).
Record rep s a : Prop := { rep_wf : wf s a; rep_prev : prev_inv s a }.

Lemma predecessors_ok s a k : rep s a -> exists p, predecessors compare_ s k = Some p /\ length p = kMaxHeight_ s /\
  forall j, (j < max_height_ s)%nat -> exists q, p !! j = Some q /\ is_pred compare_ s a k j q.
Proof.
  intros [W (Elen & p0 & Ep0 & Hp0)]. pose proof (wf_max _ _ _ W) as Hm. destruct (wf_head _ _ _ W) as (Hhn & Hh & _).
  unfold predecessors. rewrite Ep0. cbn [mbind option_bind].
  assert (at_level s a 0 p0) as Hat.
  { destruct Hp0 as [(-> & _)|(Hin & _)]; [by left|right]. destruct (wf_nodes _ _ _ W p0 Hin) as (_ & ? & _). split; [done|lia]. }
  destruct (level_split _ s a W 0 p0 ltac:(lia) Hat) as (l & r & E & En & Hr & Hl & Hrx). rewrite En. cbn [mbind option_bind].
  assert (KeyIsAfterNode compare_ s k (hd nullptr r) = Some (match r with [] => false | y :: _ => bool_decide (before compare_ a k y) end)) as ->.
  { destruct r as [|y r]; cbn [hd]; [done|]. apply (KeyIsAfterNode_in _ _ _ W). apply (Hrx y). set_solver. }
  cbn [mbind option_bind].
  assert (exists p, (match FindLessThan compare_ s k (Some (prev_ s)) with Some (_, p) => p | None => None end) = Some p /\ length p = kMaxHeight_ s /\
    forall j, (j < max_height_ s)%nat -> exists q, p !! j = Some q /\ is_pred compare_ s a k j q) as Hslow.
  { destruct (FindLessThan_ok _ s a W k (Some (prev_ s))) as ([x [p|]] & -> & _ & Hp); [intros p [= <-]; lia| |done].
    destruct Hp as (El & Hp & _). exists p. split; [done|]. split; [congruence|done]. }
  destruct (match r with [] => false | y :: _ => bool_decide (before compare_ a k y) end) eqn:Eb; cbn [mbind option_bind].
  { exact Hslow. }
  destruct Hp0 as [(-> & Ex & Eph & Emh)|(Hin & Eup & Hpj)].
  - rewrite N.eqb_refl, Eph. unfold GetMaxHeight. rewrite Emh. cbn. exists (prev_ s). split_and!; [done|done|]. intros j Hj. exists (head_ s).
    replace j with 0%nat by lia. split; [done|]. split_and!; [by left|by left|]. rewrite Ex. set_solver.
  - destruct (N.eqb_spec p0 (head_ s)) as [->|Hne]; [done|]. rewrite (KeyIsAfterNode_in _ _ _ W) by done. cbn [mbind option_bind].
    case_bool_decide as Hb; [|exact Hslow]. cbn [negb orb assert_ mbind option_bind].
    destruct (wf_nodes _ _ _ W p0 Hin) as (_ & Hup & _).
    destruct (fill_prev_ok p0 (prev_height_ s - 1) 1 (prev_ s)) as (p & -> & El & Hp); [lia|].
    exists p. split; [done|]. split; [congruence|].
    assert (forall y, y ∈ xs a -> before compare_ a k y -> y = p0 \/ compare_ (ky a y) (ky a p0) < 0) as Hlast.
    { assert (is_pred compare_ s a k 0 p0) as Hp00.
      { apply (is_pred_intro _ s a W k 0 p0 l r); [exact E|exact Hat|by right|]. destruct r as [|y r]; [set_solver|]. apply bool_decide_eq_false in Eb.
        apply not_before_after; [done| |done]. by eapply (level_rest _ s a W 0). }
      destruct Hp00 as (_ & _ & H0). intros y Hy Hyb. destruct (wf_nodes _ _ _ W y Hy) as (_ & ? & _). apply H0; [done|lia|done]. }
    intros j Hj. rewrite Hp. destruct (decide (1 <= j < 1 + (prev_height_ s - 1))%nat) as [Hjp|Hjp].
    + exists p0. split; [done|]. split_and!; [right; split; [done|lia]|by right|]. intros y Hy _ Hyb. split; [done|]. by apply Hlast.
    + destruct (decide (j = 0%nat)) as [->|Hj0].
      * exists p0. split; [done|]. split_and!; [done|by right|]. intros y Hy _ Hyb. split; [done|]. by apply Hlast.
      * destruct (Hpj j ltac:(lia)) as (q & Eq & Hqa & Hqb & Hq). exists q. split; [done|]. split_and!; [done| |].
        -- destruct Hqb as [->|Hqb]; [by left|right]. unfold before in *. by eapply compare_trans.
        -- intros y Hy Hyu Hyb. apply Hq; [done|done|]. destruct (Hlast y Hy Hyb) as [->|]; [lia|done].
Qed.

Lemma RandomHeight_loop_bounds s fuel : forall h rnd, (1 <= h <= kMaxHeight_ s)%nat -> (h <= (RandomHeight_loop fuel s h rnd).1 <= kMaxHeight_ s)%nat.
Proof.
  induction fuel as [|fuel IH]; intros h rnd Hh; cbn [RandomHeight_loop]; [cbn; lia|].
  destruct (Nat.ltb_spec h (kMaxHeight_ s)); [|cbn; lia]. destruct (Random.Next rnd) as [r rnd'].
  destruct (r <? kScaledInverseBranching_ s); [|cbn; lia]. specialize (IH (S h) rnd'). lia.
Qed.
Lemma RandomHeight_ok s rnd : (1 <= kMaxHeight_ s)%nat -> exists h rnd', RandomHeight s rnd = Some (h, rnd') /\ (1 <= h <= kMaxHeight_ s)%nat.
Proof.
  intros Hk. unfold RandomHeight. pose proof (RandomHeight_loop_bounds s (kMaxHeight_ s) 1 rnd ltac:(lia)) as Hb.
  destruct (RandomHeight_loop (kMaxHeight_ s) s 1 rnd) as [h rnd']. cbn in Hb. exists h, rnd'.
  rewrite (proj2 (Nat.ltb_lt 0 h)), (proj2 (Nat.leb_le h _)) by lia. cbn. split; [done|lia].
Qed.

(** The state between choosing the height and making the node. *)
Record ready s a (k : Key) (h : nat) : Prop := {
  r_wf : wf s a;
  r_new n : n ∈ xs a -> compare_ k (ky a n) <> 0;
  r_height : (1 <= h <= kMaxHeight_ s)%nat;
  r_length : length (prev_ s) = kMaxHeight_ s;
  r_prev j : (j < max_height_ (Insert_raise h s))%nat -> exists q, prev_ s !! j = Some q /\ is_pred compare_ s a k j q
}.

Lemma Insert_begin_ok s a k rnd : rep s a -> (forall n, n ∈ xs a -> compare_ k (ky a n) <> 0) ->
  exists h rnd' s', Insert_begin compare_ k rnd s = Some (h, rnd', s') /\ ready s' a k h /\ frame s s'.
Proof.
  intros R Hk. pose proof R as [W _]. pose proof (wf_max _ _ _ W) as Hm. unfold Insert_begin.
  destruct (predecessors_ok s a k R) as (p & -> & El & Hp). cbn [mbind option_bind].
  destruct (Hp 0%nat ltac:(lia)) as (p0 & Ep0 & Hp0). rewrite Ep0. cbn [mbind option_bind].
  destruct (is_pred_split _ s a W k 0 p0 ltac:(lia) Hp0) as (l & r & E & En & _ & _ & Hrx). rewrite En. cbn [mbind option_bind].
  assert ((if (hd nullptr r =? nullptr)%N then Some tt else nd ← nodes s !! hd nullptr r; assert_ (negb (Equal compare_ k (key nd)))) = Some tt) as ->.
  { destruct r as [|y r]; cbn [hd]; [done|]. destruct (Hrx y ltac:(set_solver)) as [Hy _]. destruct (node_key _ _ _ W y Hy) as (nd & End & Ek & Hne & _).
    rewrite (proj2 (N.eqb_neq y nullptr)), End by done. cbn. unfold Equal. rewrite Ek, (proj2 (Z.eqb_neq _ _)) by (by apply Hk). done. }
  cbn [mbind option_bind]. destruct (RandomHeight_ok s rnd) as (h & rnd' & -> & Hh); [lia|]. cbn [mbind option_bind].
  assert (exists p', (if (GetMaxHeight s <? h)%nat then fill_prev (head_ s) (GetMaxHeight s) (h - GetMaxHeight s) p else Some p) = Some p' /\
    length p' = kMaxHeight_ s /\ forall j, (j < max_height_ (Insert_raise h s))%nat -> exists q, p' !! j = Some q /\ is_pred compare_ s a k j q) as (p' & -> & El' & Hp').
  { unfold Insert_raise, GetMaxHeight. destruct (Nat.ltb_spec (max_height_ s) h) as [Hlt|Hge]; [|by exists p].
    destruct (fill_prev_ok (head_ s) (h - max_height_ s) (max_height_ s) p) as (p' & -> & El' & Hp'); [lia|].
    exists p'. split; [done|]. split; [congruence|]. cbn. intros j Hj. rewrite Hp'. case_decide as Hd; [|apply Hp; lia].
    exists (head_ s). split; [done|]. split_and!; [by left|by left|]. intros y Hy Hyu. destruct (wf_nodes _ _ _ W y Hy) as (_ & ? & _). lia. }
  cbn [mbind option_bind]. exists h, rnd', (with_prev p' (prev_height_ s) s). split; [done|]. split; [|by apply frame_same].
  constructor; [by apply wf_with_prev|done|done|done|]. intros j Hj. destruct (Hp' j) as (q & Eq & Hq); [|by exists q].
  revert Hj. unfold Insert_raise, GetMaxHeight. change (max_height_ (with_prev p' (prev_height_ s) s)) with (max_height_ s). by destruct (_ <? _)%nat.
Qed.
Lemma raise_ok s a k h : ready s a k h -> ready (Insert_raise h s) a k h /\ (h <= max_height_ (Insert_raise h s))%nat /\ frame s (Insert_raise h s).
Proof.
  intros [W Hk Hh El Hp]. pose proof (wf_raise s a h W ltac:(lia)) as W'. revert W' Hp. unfold Insert_raise, GetMaxHeight.
  destruct (Nat.ltb_spec (max_height_ s) h) as [Hlt|Hge]; intros W' Hp.
  - split; [|split; [cbn; lia|by apply frame_same]]. constructor; try done. intros j. unfold Insert_raise, GetMaxHeight. cbn [max_height_ with_max_height].
    rewrite (proj2 (Nat.ltb_ge h h)) by done. cbn. intros Hj. by apply Hp.
  - split; [|split; [lia|by apply frame_same]]. constructor; try done. intros j. unfold Insert_raise, GetMaxHeight. rewrite (proj2 (Nat.ltb_ge _ _)) by done. apply Hp.
Qed.
Lemma new_ok s a k h : ready s a k h -> (h <= max_height_ s)%nat ->
  let x := (NewNode k h s).1 in let s' := (NewNode k h s).2 in
  pending s' a x k 0 h /\ frame s s' /\ length (prev_ s') = kMaxHeight_ s'.
Proof.
  intros [W Hk Hh El Hp] Hm. cbn zeta. pose proof (NewNode_ok s k h) as HN. pose proof (wf_NewNode s a k h W) as W2. cbn zeta in HN.
  destruct HN as (Hxn & Hxf & Hxs & HF & Ep2 & _ & Em2 & _). pose proof HF as (Eh2 & Ekm2 & _ & Hn2).
  split; [|split; [done|congruence]]. constructor; [done| |split; [done|]|split; [|done]|lia|].
  - eexists. split; [done|]. cbn. split; [done|]. apply repeat_length.
  - rewrite Eh2. intros Ex. destruct (wf_head _ _ _ W) as (_ & _ & nd & E & _). congruence.
  - intros Hx. destruct (wf_nodes _ _ _ W _ Hx) as (_ & _ & nd & E & _). congruence.
  - intros j Hj. rewrite Ep2. destruct (Hp j) as (q & Eq & Hq).
    { unfold Insert_raise, GetMaxHeight. rewrite (proj2 (Nat.ltb_ge _ _)) by done. lia. }
    exists q. split; [done|]. by apply (is_pred_frame s).
Qed.
Lemma finish_ok s a x k h : pending s a x k h h -> (1 <= h)%nat -> length (prev_ s) = kMaxHeight_ s ->
  exists s', Insert_finish x h s = Some s' /\ rep s' a /\ frame s s'.
Proof.
  intros P Hh El. pose proof (wf_max _ _ _ (p_wf _ _ _ _ _ _ P)). unfold Insert_finish. rewrite decide_True by lia.
  eexists. split; [done|]. split; [|by apply frame_same]. split; [apply wf_with_prev, P|].
  split; [cbn; by rewrite length_insert|]. exists x. cbn. rewrite list_lookup_insert_eq by lia. split; [done|right].
  pose proof (p_in _ _ _ _ _ _ P) as Hin. destruct h as [|h]; [lia|]. destruct Hin as (Hx & Hxu & Hxk). split_and!; [done|done|]. intros j Hj.
  rewrite list_lookup_insert_ne by lia. destruct (p_prev _ _ _ _ _ _ P j) as (q & Eq & Hq); [lia|]. exists q. split; [done|]. by rewrite Hxk.
Qed.


(** The contents in order. *)
Definition keys a : list Key := map (ky a) (xs a).

Lemma grow_keys s a x k h a' : pending s a x k 0 h -> xs a' = xs (grow a x k 0) -> (forall y, ky a' y = ky (grow a x k 0) y) ->
  keys a' = insert_key compare_ k (keys a).
Proof.
  intros P Ex Ek. destruct (p_in _ _ _ _ _ _ P) as [Hx _]. destruct (sorted_partition _ s a (p_wf _ _ _ _ _ _ P) k) as (u & v & E & Hu & Hv).
  unfold keys. rewrite E, map_app, insert_key_split.
  - rewrite Ex, (map_ext _ _ Ek). cbn [xs grow]. rewrite E in Hx |- *.
    rewrite !filter_app, (filter_keeps _ u), (filter_drops _ v), (filter_drops _ u), (filter_keeps _ v), app_nil_r; try done; [|intros y Hy Hn; by apply Hn, Hu].
    cbn [app]. rewrite map_app, map_cons. destruct (grow_self a x k 0) as [_ ->].
    assert (forall w, x ∉ w -> map (ky (grow a x k 0)) w = map (ky a) w) as Hw.
    { intros w Hxw. apply map_ext_in. intros y Hy%list_elem_of_In. apply grow_other. by intros ->. }
    rewrite !Hw by set_solver. done.
  - intros y (n & -> & Hn)%list_elem_of_fmap. by apply Hu.
  - intros y (n & -> & Hn)%list_elem_of_fmap. by apply Hv.
Qed.

Lemma Insert_ok s a k rnd : rep s a -> (forall n, n ∈ xs a -> compare_ k (ky a n) <> 0) ->
  exists rnd' s' a', Insert compare_ k rnd s = Some (rnd', s') /\ rep s' a' /\ keys a' = insert_key compare_ k (keys a) /\
    (forall n, n ∈ xs a -> n ∈ xs a' /\ ky a' n = ky a n).
Proof.
  intros R Hk. unfold Insert. destruct (Insert_begin_ok s a k rnd R Hk) as (h & rnd' & s0 & -> & R0 & _). cbn [mbind option_bind].
  destruct (raise_ok s0 a k h R0) as (R1 & Hh & _). pose proof (new_ok _ a k h R1 Hh) as HN. pose proof (r_height _ _ _ _ R1) as [Hh1 _].
  destruct (NewNode k h (Insert_raise h s0)) as [x s2]. cbn in HN. destruct HN as (P & _ & El).
  destruct (Insert_link_ok h s2 a x k 0 h P ltac:(lia)) as (s3 & a' & -> & P3 & (_ & Ekm3 & _) & Ep3 & _ & HK). cbn [mbind option_bind].
  destruct (finish_ok s3 a' x k h P3 Hh1 ltac:(congruence)) as (s4 & -> & R4 & _). cbn [mbind option_bind].
  destruct h as [|h']; [lia|]. destruct HK as [Ex Ek]. exists rnd', s4, a'. split_and!; [done|done|by eapply grow_keys|].
  intros n Hn. rewrite Ex, Ek. split; [apply (grow_in s2 _ _ _ _ (S h') _ P); by right|]. apply grow_other. intros ->. by destruct (p_in _ _ _ _ _ _ P).
Qed.

(** A key that is there already fails the assertion. *)
Lemma Insert_duplicate s a k rnd n : rep s a -> n ∈ xs a -> compare_ k (ky a n) = 0 -> Insert compare_ k rnd s = None.
Proof.
  intros R Hn Hk. pose proof R as [W _]. pose proof (wf_max _ _ _ W) as Hm. unfold Insert, Insert_begin.
  destruct (predecessors_ok s a k R) as (p & -> & El & Hp). cbn [mbind option_bind].
  destruct (Hp 0%nat ltac:(lia)) as (p0 & Ep0 & Hp0). rewrite Ep0. cbn [mbind option_bind].
  destruct (is_pred_split _ s a W k 0 p0 ltac:(lia) Hp0) as (l & r & E & En & Hl & Hr & Hrx). rewrite En. cbn [mbind option_bind].
  assert (compare_ (ky a n) k = 0) as Hk' by (by apply compare_eq_sym).
  assert (n <> head_ s) as Hnh by (by destruct (node_key _ _ _ W n Hn) as (_ & _ & _ & _ & ?)).
  assert (~ before compare_ a k n) as Hnb by (unfold before; lia).
  assert (n ∈ r) as Hnr.
  { rewrite (level_0 _ s a W) in E. assert (n ∈ l ++ p0 :: r) as Hin by (rewrite <- E; by apply elem_of_cons; right).
    destruct Hp0 as (_ & Hb0 & _). apply elem_of_app in Hin as [Hin|[->|Hin]%elem_of_cons]; [|by destruct Hb0|done].
    by destruct (Hl n Hin). }
  destruct r as [|y r]; [set_solver|]. cbn [hd]. destruct (Hrx y ltac:(set_solver)) as [Hy _].
  destruct (node_key _ _ _ W y Hy) as (nd & End & Ek & Hne & _). rewrite (proj2 (N.eqb_neq y nullptr)), End by done. cbn [mbind option_bind].
  unfold Equal. rewrite Ek, (proj2 (Z.eqb_eq _ _)); [done|].
  assert (compare_ (ky a y) k = 0) as Hz; [|by apply compare_eq_sym].
  apply elem_of_cons in Hnr as [->|Hnr]; [done|].
  pose proof (level_rest _ s a W 0 p0 l (y :: r) E) as HS. pose proof (sorted_cons_inv _ _ _ _ HS Hnr) as Hlt. cbn in Hlt.
  destruct (Hr y); [set_solver|]. unfold before. eapply compare_eq_r; [exact Hk'|done].
Qed.

(** *** The empty list *)

Lemma init_links_ok h n : forall s nd, nodes s !! h = Some nd -> (n <= length (next_ nd))%nat ->
  exists s', init_links h n s = Some s' /\ frame s s' /\ prev_ s' = prev_ s /\ prev_height_ s' = prev_height_ s /\ max_height_ s' = max_height_ s /\
    forall j, (j < n)%nat -> Next s' h j = Some nullptr.
Proof.
  induction n as [|n IH]; intros s nd E Hn; cbn [init_links].
  - exists s. split_and!; try done; [by apply frame_same|]. intros j Hj. lia.
  - destruct (IH s nd E ltac:(lia)) as (s1 & -> & F1 & E1 & H1 & M1 & N1). cbn [mbind option_bind].
    pose proof F1 as (_ & _ & _ & Hf). destruct (Hf _ _ E) as (nd1 & End1 & _ & El1).
    destruct (SetNext h n nullptr s1) as [s2|] eqn:Es; [|by rewrite (SetNext_ok _ _ _ _ nd1) in Es by (done || lia)].
    destruct (SetNext_frame _ _ _ _ _ Es) as (F2 & E2 & H2 & M2). exists s2. split_and!; try congruence; [by eapply frame_trans|].
    intros j Hj. rewrite (SetNext_Next _ _ _ _ _ _ _ Es). case_decide as Hd; [done|]. apply N1. assert (j <> n) by naive_solver. lia.
Qed.

Definition params_ok (max_height : nat) (branching : Z) : Prop := (0 < max_height)%nat /\ Z.of_nat max_height < 2 ^ 16 /\ 0 < branching < 2 ^ 16.

Lemma SkipList_new_ok any max_height branching : params_ok max_height branching ->
  exists s, SkipList_new any max_height branching = Some s /\ rep s {| xs := []; up _ := 0%nat; ky _ := any |}.
Proof.
  intros (Hm & Hm2 & Hb & Hb2). unfold SkipList_new.
  rewrite (proj2 (Nat.ltb_lt _ _) Hm), (proj2 (Z.ltb_lt _ _) Hm2). cbn [andb assert_ mbind option_bind].
  rewrite (proj2 (Z.ltb_lt _ _) Hb), (proj2 (Z.ltb_lt _ _) Hb2). cbn [andb assert_ mbind option_bind].
  set (s0 := {| nodes := ∅; head_ := _; max_height_ := _; prev_ := _; prev_height_ := _; kMaxHeight_ := _; kBranching_ := _ |}).
  assert ((kScaledInverseBranching_ s0 >? 0) = true) as ->.
  { unfold kScaledInverseBranching_. cbn [kBranching_ s0]. change (u32 (Random.kMaxNext + 1)) with (2 ^ 31). rewrite Z.gtb_ltb. apply Z.ltb_lt.
    apply Z.div_str_pos. lia. }
  cbn [assert_ mbind option_bind]. destruct (NewNode any max_height s0) as [h s1] eqn:Enew.
  pose proof (NewNode_ok s0 any max_height) as HN. rewrite Enew in HN. cbn [fst snd] in HN. destruct HN as (Hh & _ & Eh & _).
  edestruct (init_links_ok h max_height) as (s' & -> & (F1 & F2 & F3 & F4) & Ep & Eph & Em & HNx); [exact Eh|cbn; by rewrite repeat_length|].
  cbn in F1, F2, F3, F4, Ep, Eph, Em. exists s'. split; [done|]. destruct (F4 _ _ Eh) as (nd & End & _ & El). cbn in El. rewrite repeat_length in El.
  split; [constructor|].
  - rewrite F1, F2. split_and!; [done|set_solver|]. by exists nd.
  - intros n Hn. cbn in Hn. set_solver.
  - constructor.
  - rewrite F1, F2. intros i Hi. cbn. by rewrite HNx.
  - rewrite F2, Em. lia.
  - split; [rewrite Ep, F2; apply repeat_length|]. exists h. rewrite Ep, F1. split; [destruct max_height; [lia|done]|]. by left.
Qed.

End insert.

(** ** The promise: a set of keys in order, with a cursor *)

Inductive op {Key : Type} :=
  | OpInsert (k : Key) | OpContains (k : Key)
  | OpSeek (k : Key) | OpSeekForPrev (k : Key) | OpSeekToFirst | OpSeekToLast | OpNext | OpPrev.
Arguments op : clear implicits.
Inductive result {Key : Type} := RUnit | RBool (b : bool) | RKey (k : option Key).
Arguments result : clear implicits.

Section refinement.
Context {Key : Type} (compare_ : Key -> Key -> Z) `{!Comparator compare_}.

(** A client: the list, the thread's generator and one iterator. *)
Record client := { list_ : SkipList Key; rnd_ : Z; node_ : loc }.
Definition moved (c : client) (n : loc) : option (client * result Key) :=
  k ← (if Valid n then k ← Iterator_key (list_ c) n; Some (Some k) else Some None);
  Some ({| list_ := list_ c; rnd_ := rnd_ c; node_ := n |}, RKey k).
Definition run_op (o : op Key) (c : client) : option (client * result Key) :=
  let s := list_ c in
  match o with
  | OpInsert k => '(rnd, s) ← Insert compare_ k (rnd_ c) s; Some ({| list_ := s; rnd_ := rnd; node_ := node_ c |}, RUnit)
  | OpContains k => b ← Contains compare_ s k; Some (c, RBool b)
  | OpSeek k => n ← Seek compare_ s k; moved c n
  | OpSeekForPrev k => n ← SeekForPrev compare_ s k; moved c n
  | OpSeekToFirst => n ← SeekToFirst s; moved c n
  | OpSeekToLast => n ← SeekToLast s; moved c n
  | OpNext => n ← Iterator_Next s (node_ c); moved c n
  | OpPrev => n ← Iterator_Prev compare_ s (node_ c); moved c n
  end.
Fixpoint run (os : list (op Key)) (c : client) : option (list (result Key)) :=
  match os with
  | [] => Some []
  | o :: os => '(c, r) ← run_op o c; rs ← run os c; Some (r :: rs)
  end.

(** The keys in ascending order and the key under the cursor. *)
Record spec := { members : list Key; cursor : option Key }.
Definition at_key (x : spec) (k : option Key) : option (spec * result Key) := Some ({| members := members x; cursor := k |}, RKey k).
Definition spec_op (o : op Key) (x : spec) : option (spec * result Key) :=
  let l := members x in
  match o with
  | OpInsert k => if existsb (Equal compare_ k) l then None else Some ({| members := insert_key compare_ k l; cursor := cursor x |}, RUnit)
  | OpContains k => Some (x, RBool (existsb (Equal compare_ k) l))
  | OpSeek k => at_key x (find (fun y => negb (LessThan compare_ y k)) l)
  | OpSeekForPrev k => at_key x (last (filter (fun y => ~ compare_ k y < 0) l))
  | OpSeekToFirst => at_key x (head l)
  | OpSeekToLast => at_key x (last l)
  | OpNext => c ← cursor x; at_key x (find (fun y => LessThan compare_ c y) l)
  | OpPrev => c ← cursor x; at_key x (last (filter (fun y => compare_ y c < 0) l))
  end.
Fixpoint spec_run (os : list (op Key)) (x : spec) : option (list (result Key)) :=
  match os with
  | [] => Some []
  | o :: os => '(x, r) ← spec_op o x; rs ← spec_run os x; Some (r :: rs)
  end.

(** ** The refinement *)

Abbreviation rep := (rep compare_).
Implicit Types (a : contents Key).

Definition pos a (n : loc) : option Key := if (n =? nullptr)%N then None else Some (ky a n).
Definition sim (c : client) (x : spec) : Prop := exists a, rep (list_ c) a /\ members x = keys a /\ cursor x = pos a (node_ c) /\
  (node_ c = nullptr \/ node_ c ∈ xs a).

Lemma pos_in s a n : rep s a -> n ∈ xs a -> pos a n = Some (ky a n).
Proof.
  intros [W _] Hn. destruct (node_key _ _ _ W n Hn) as (_ & _ & _ & Hne & _). unfold pos. by rewrite (proj2 (N.eqb_neq _ _)).
Qed.
Lemma find_pos a f l : (forall n, n ∈ l -> n <> nullptr) -> find f (map (ky a) l) = pos a (hd nullptr (filter (fun n => f (ky a n) = true) l)).
Proof.
  induction l as [|n l IH]; intros Hl; [done|]. cbn [map find]. rewrite filter_cons. destruct (f (ky a n)) eqn:E.
  - rewrite decide_True by done. cbn. unfold pos. rewrite (proj2 (N.eqb_neq _ _)); [done|]. apply Hl. set_solver.
  - rewrite decide_False by done. apply IH. intros m Hm. apply Hl. set_solver.
Qed.
Lemma last_pos a l : (forall n, n ∈ l -> n <> nullptr) -> last (map (ky a) l) = pos a (List.last l nullptr).
Proof.
  intros Hl. destruct (exists_last_or l) as [->|(l' & n & ->)]; [done|]. rewrite map_app, List.last_last. cbn [map]. rewrite last_snoc.
  unfold pos. rewrite (proj2 (N.eqb_neq _ _)); [done|]. apply Hl. set_solver.
Qed.
Lemma filter_map_keys a (P : Key -> Prop) `{!forall y, Decision (P y)} l : filter P (map (ky a) l) = map (ky a) (filter (fun n => P (ky a n)) l).
Proof. induction l as [|n l IH]; [done|]. cbn [map]. rewrite !filter_cons, IH. by case_decide. Qed.

Lemma moved_sim c x a n k : rep (list_ c) a -> members x = keys a -> (n = nullptr \/ n ∈ xs a) -> k = pos a n ->
  exists c' x', moved c n = Some (c', RKey k) /\ at_key x k = Some (x', RKey k) /\ sim c' x'.
Proof.
  intros R Em Hn ->. pose proof R as [W _]. unfold moved, at_key.
  assert ((if Valid n then k ← Iterator_key (list_ c) n; Some (Some k) else Some None) = Some (pos a n)) as ->.
  { unfold Valid, Iterator_key, Valid, pos. destruct (N.eqb_spec n nullptr) as [->|Hne]; [done|]. destruct Hn as [|Hn]; [done|].
    destruct (node_key _ _ _ W n Hn) as (nd & -> & <- & _). done. }
  cbn [mbind option_bind]. do 2 eexists. split; [done|]. split; [done|]. exists a. done.
Qed.

(** One operation: both fail, or both succeed with the same result. *)
Definition agree (m : option (client * result Key)) (n : option (spec * result Key)) : Prop :=
  match m, n with
  | Some (c, r), Some (x, r') => r = r' /\ sim c x
  | None, None => True
  | _, _ => False
  end.
Lemma agree_moved c x a n k : rep (list_ c) a -> members x = keys a -> (n = nullptr \/ n ∈ xs a) -> k = pos a n ->
  agree (moved c n) (at_key x k).
Proof. intros R Em Hn Hk. by destruct (moved_sim c x a n k R Em Hn Hk) as (c' & x' & -> & -> & ?). Qed.

Lemma agree_Contains a k : existsb (Equal compare_ k) (keys a) = bool_decide (Exists (fun n => compare_ k (ky a n) = 0) (xs a)).
Proof.
  unfold keys. induction (xs a) as [|n l IH]; cbn [map existsb].
  - symmetry. apply bool_decide_eq_false. by intros ?%Exists_nil.
  - rewrite IH. unfold Equal. destruct (Z.eqb_spec (compare_ k (ky a n)) 0) as [E|E]; cbn [orb].
    + symmetry. apply bool_decide_eq_true. by left.
    + apply bool_decide_ext. rewrite Exists_cons. tauto.
Qed.

Section op.
Context (c : client) (x : spec) (a : contents Key).
Hypothesis (R : rep (list_ c) a) (Em : members x = keys a).

Lemma nonnull n : n ∈ xs a -> n <> nullptr.
Proof using All. intros Hn. by destruct (node_key _ _ _ (rep_wf _ _ _ R) n Hn) as (_ & _ & _ & ? & _). Qed.
Lemma last_or_in l : (forall n, n ∈ l -> n ∈ xs a) -> List.last l nullptr = nullptr \/ List.last l nullptr ∈ xs a.
Proof using All. intros Hl. destruct (exists_last_or l) as [->|(l' & n & ->)]; [by left|right]. rewrite List.last_last. apply Hl. set_solver. Qed.
Lemma hd_or_in (l : list loc) : (forall n, n ∈ l -> n ∈ xs a) -> hd nullptr l = nullptr \/ hd nullptr l ∈ xs a.
Proof using All. intros Hl. destruct l as [|n l]; [by left|right]. apply Hl. set_solver. Qed.

Lemma agree_Insert k : cursor x = pos a (node_ c) -> (node_ c = nullptr \/ node_ c ∈ xs a) ->
  agree (run_op (OpInsert k) c) (spec_op (OpInsert k) x).
Proof using All.
  intros Hc Hn. cbn [run_op spec_op]. rewrite Em, agree_Contains. case_bool_decide as He.
  - apply Exists_exists in He as (n & Hin & Hk). by rewrite (Insert_duplicate _ _ a k (rnd_ c) n R Hin Hk).
  - destruct (Insert_ok _ _ a k (rnd_ c) R) as (rnd' & s' & a' & -> & R' & Ek & Hin).
    { intros n Hnx Hk. apply He, Exists_exists. by exists n. }
    cbn. split; [done|]. exists a'. cbn. split_and!; [done|congruence| |].
    + rewrite Hc. unfold pos. destruct (N.eqb_spec (node_ c) nullptr); [done|]. destruct Hn as [|Hn]; [done|]. f_equal. symmetry. by apply Hin.
    + destruct Hn as [|Hn]; [by left|right]. by apply Hin.
Qed.
Lemma agree_Seek k : agree (run_op (OpSeek k) c) (spec_op (OpSeek k) x).
Proof using All.
  cbn [run_op spec_op]. unfold Seek. rewrite (FindGreaterOrEqual_ok _ _ a (rep_wf _ _ _ R)). cbn [mbind option_bind].
  apply (agree_moved c x a); [done|done|by destruct (first_ge_in compare_ _ a (rep_wf _ _ _ R) k) as [|[? _]]; [left|right]|].
  rewrite Em. unfold keys. rewrite find_pos by (by apply nonnull). f_equal. unfold first_ge. f_equal. apply filter_iff.
  intros n _. unfold LessThan, before. destruct (Z.ltb_spec (compare_ (ky a n) k) 0); split; cbn; intros; done || lia.
Qed.
Lemma agree_SeekForPrev k : agree (run_op (OpSeekForPrev k) c) (spec_op (OpSeekForPrev k) x).
Proof using All.
  cbn [run_op spec_op]. rewrite (SeekForPrev_ok _ _ a (rep_wf _ _ _ R)). cbn [mbind option_bind].
  apply (agree_moved c x a); [done|done|apply last_or_in; intros n Hn; apply list_elem_of_filter in Hn; tauto|].
  rewrite Em. unfold keys. rewrite filter_map_keys, last_pos; [done|]. intros n [_ Hn]%list_elem_of_filter. by apply nonnull.
Qed.
Lemma agree_SeekToFirst : agree (run_op OpSeekToFirst c) (spec_op OpSeekToFirst x).
Proof using All.
  cbn [run_op spec_op]. rewrite (SeekToFirst_ok _ _ a (rep_wf _ _ _ R)). cbn [mbind option_bind].
  apply (agree_moved c x a); [done|done|by apply hd_or_in|]. rewrite Em. unfold keys. pose proof nonnull as Hnn.
  destruct (xs a) as [|n l]; [done|]. cbn. unfold pos. rewrite (proj2 (N.eqb_neq _ _)); [done|]. apply Hnn. set_solver.
Qed.
Lemma agree_SeekToLast : agree (run_op OpSeekToLast c) (spec_op OpSeekToLast x).
Proof using All.
  cbn [run_op spec_op]. rewrite (SeekToLast_ok _ _ a (rep_wf _ _ _ R)). cbn [mbind option_bind].
  apply (agree_moved c x a); [done|done|by apply last_or_in|]. rewrite Em. unfold keys. rewrite last_pos; [done|apply nonnull].
Qed.

Lemma cursor_split n : n ∈ xs a -> exists l r, xs a = l ++ n :: r /\
  (forall y, y ∈ l -> compare_ (ky a y) (ky a n) < 0) /\ (forall y, y ∈ r -> compare_ (ky a n) (ky a y) < 0).
Proof using All.
  intros Hn. apply list_elem_of_split in Hn as (l & r & E). exists l, r. split; [done|]. pose proof (wf_sorted _ _ _ (rep_wf _ _ _ R)) as HS.
  rewrite E in HS. by apply sorted_app in HS.
Qed.
Lemma not_after y z : compare_ y z < 0 -> ~ compare_ z y < 0.
Proof using All. intros H1 H2. apply (compare_irrefl y). by eapply compare_trans. Qed.

Lemma agree_Next : cursor x = pos a (node_ c) -> (node_ c = nullptr \/ node_ c ∈ xs a) -> agree (run_op OpNext c) (spec_op OpNext x).
Proof using All.
  intros Hc Hn. cbn [run_op spec_op]. destruct Hn as [En|Hn]; [rewrite Hc, En; done|].
  rewrite Hc, (pos_in _ a _ R Hn). cbn [mbind option_bind]. destruct (cursor_split _ Hn) as (l & r & E & Hl & Hr).
  rewrite (Iterator_Next_ok _ _ a (rep_wf _ _ _ R) l (node_ c) r E). cbn [mbind option_bind].
  apply (agree_moved c x a); [done|done|apply hd_or_in; intros n Hin; rewrite E; set_solver|].
  rewrite Em. unfold keys. rewrite find_pos by (by apply nonnull). f_equal. rewrite E, filter_app, filter_cons. unfold LessThan.
  rewrite filter_drops, decide_False, filter_keeps; [done|..].
  - intros y Hy. by apply Z.ltb_lt, Hr.
  - intros Hlt%Z.ltb_lt. by apply compare_irrefl in Hlt.
  - intros y Hy Hlt%Z.ltb_lt. by apply (not_after _ _ (Hl y Hy)).
Qed.
Lemma agree_Prev : cursor x = pos a (node_ c) -> (node_ c = nullptr \/ node_ c ∈ xs a) -> agree (run_op OpPrev c) (spec_op OpPrev x).
Proof using All.
  intros Hc Hn. cbn [run_op spec_op]. destruct Hn as [En|Hn]; [rewrite Hc, En; done|].
  rewrite Hc, (pos_in _ a _ R Hn). cbn [mbind option_bind]. destruct (cursor_split _ Hn) as (l & r & E & Hl & Hr).
  rewrite (Iterator_Prev_ok _ _ a (rep_wf _ _ _ R) l (node_ c) r E). cbn [mbind option_bind].
  assert (forall n, n ∈ l -> n ∈ xs a) as Hin by (intros n Hin; rewrite E; set_solver).
  apply (agree_moved c x a); [done|done|by apply last_or_in|]. rewrite Em. unfold keys. rewrite filter_map_keys.
  rewrite E at 1. rewrite filter_app, filter_cons.
  rewrite (filter_keeps _ l), decide_False, (filter_drops _ r), app_nil_r; [apply last_pos; intros n Hnl; by apply nonnull, Hin|..].
  - intros y Hy. by apply not_after, Hr.
  - apply compare_irrefl.
  - done.
Qed.
End op.

Lemma run_op_agree o c x : sim c x -> agree (run_op o c) (spec_op o x).
Proof.
  intros (a & R & Em & Hc & Hn). destruct o.
  - by eapply agree_Insert.
  - cbn [run_op spec_op]. rewrite (Contains_ok _ _ a (rep_wf _ _ _ R)), Em, agree_Contains. cbn. split; [done|]. by exists a.
  - by eapply agree_Seek.
  - by eapply agree_SeekForPrev.
  - by eapply agree_SeekToFirst.
  - by eapply agree_SeekToLast.
  - by eapply agree_Next.
  - by eapply agree_Prev.
Qed.
Lemma run_agree os : forall c x, sim c x -> run os c = spec_run os x.
Proof.
  induction os as [|o os IH]; intros c x Hs; cbn [run spec_run]; [done|]. pose proof (run_op_agree o c x Hs) as Ha. unfold agree in Ha.
  destruct (run_op o c) as [[c' r]|], (spec_op o x) as [[x' r']|]; try done. destruct Ha as [-> Hs']. cbn [mbind option_bind]. by rewrite (IH c' x').
Qed.

(** C7. A skip list built for any bounds the constructor accepts behaves, through [Insert],
    [Contains] and an iterator moved by every one of its operations, as the sorted list of its
    keys with a cursor on it: each operation answers what the list determines, and a sequence of
    operations fails an assertion exactly when it inserts a key that is present or moves an
    iterator that is not valid. *)
Theorem skip_list_refines (any : Key) (max_height : nat) (branching rnd : Z) (os : list (op Key)) :
  params_ok max_height branching ->
  exists s, SkipList_new any max_height branching = Some s /\
    run os {| list_ := s; rnd_ := rnd; node_ := nullptr |} = spec_run os {| members := []; cursor := None |}.
Proof.
  intros Hp. destruct (SkipList_new_ok compare_ any max_height branching Hp) as (s & E & R). exists s. split; [done|].
  apply run_agree. eexists. split; [exact R|]. split; [done|]. split; [done|by left].
Qed.
End refinement.

Definition example_ops : list (op Z) :=
  [OpInsert 5; OpInsert 9; OpInsert 2; OpContains 9; OpContains 3; OpSeek 3; OpNext; OpPrev; OpPrev; OpSeekForPrev 8; OpInsert 7; OpNext; OpSeekToLast; OpNext].
Example skip_list_example :
  spec_run Z.sub example_ops {| members := []; cursor := None |} =
    Some [RUnit; RUnit; RUnit; RBool true; RBool false; RKey (Some 5); RKey (Some 9); RKey (Some 5); RKey (Some 2); RKey (Some 5);
      RUnit; RKey (Some 7); RKey (Some 9); RKey None].
Proof. reflexivity. Qed.

Lemma skip_list_refines_witness : params_ok 12 4 /\
  exists s, SkipList_new 0 12 4 = Some s /\
    run Z.sub example_ops {| list_ := s; rnd_ := 301; node_ := nullptr |} = spec_run Z.sub example_ops {| members := []; cursor := None |}.
Proof. split; [unfold params_ok; lia|]. apply (skip_list_refines Z.sub 0 12 4 301). unfold params_ok. lia. Defined.
