(* ===== verification/SkipListReaders.v ===== *)
(** * SkipListReaders: searches while the list is written

    [src/util/skiplist.h] lets any number of threads read while one thread
    inserts, without a lock.  Here the writer takes the steps of [Insert] one
    store at a time and a reader takes the rounds of [FindGreaterOrEqual] one
    load of a link at a time (a key never changes once its node can be reached,
    so the rest of a round is local); a schedule interleaves them in any way.
    The memory is sequentially consistent, as the release stores and acquire
    loads of the source make it for data that is published once. *)

From Stdlib Require Import Sorting.Sorted.
From S2P Require Import Prelude Store Order SkipList SkipListSearch SkipListInsert.
#[local] Open Scope Z_scope.
#[local] Open Scope mycc_scope.

Section system.
Context {Key : Type} (compare_ : Key -> Key -> Z).

(** Where the writer is in [Insert]. *)
Inductive writer :=
  | WIdle
  | WRaise (k : Key) (h : nat)
  | WNew (k : Key) (h : nat)
  | WPrepare (x : loc) (k : Key) (i h : nat)
  | WPublish (x : loc) (k : Key) (i h : nat)
  | WFinish (x : loc) (k : Key) (h : nat)
  | WFailed.
Inductive reader :=
  | RIdle
  | RLoop (k : Key) (v : loc * nat * loc)
  | RFailed.
Record system := { list_ : SkipList Key; rnd_ : Z; writer_ : writer; readers_ : list reader }.

(** The steps that decide what the others see. *)
Inductive label :=
  | LInsert (k : Key)
  | LFound (j : nat) (k : Key) (r : option Key).

(** The scheduler starts an insertion, lets the writer go one step, starts a search in
    thread [j] or lets it go one round. *)
Inductive event := EInsert (k : Key) | EWriter | ESearch (j : nat) (k : Key) | EReader (j : nat).

Definition with_writer (s : SkipList Key) (w : writer) (c : system) : system :=
  {| list_ := s; rnd_ := rnd_ c; writer_ := w; readers_ := readers_ c |}.
Definition writer_or_fail (m : option (SkipList Key * writer)) (c : system) : system :=
  match m with Some (s, w) => with_writer s w c | None => with_writer (list_ c) WFailed c end.
Definition with_reader (j : nat) (r : reader) (c : system) : system :=
  {| list_ := list_ c; rnd_ := rnd_ c; writer_ := writer_ c; readers_ := <[j := r]> (readers_ c) |}.

Definition next_level (x : loc) (k : Key) (i h : nat) : writer :=
  if (S i <? h)%nat then WPrepare x k (S i) h else WFinish x k h.

(** [None]: the step is not possible now. *)
Definition writer_step (c : system) : option (system * list label) :=
  let s := list_ c in
  match writer_ c with
  | WIdle | WFailed => None
  | WRaise k h => Some (with_writer (Insert_raise h s) (WNew k h) c, [])
  | WNew k h => let '(x, s) := NewNode k h s in Some (with_writer s (WPrepare x k 0 h) c, [])
  | WPrepare x k i h => Some (writer_or_fail (s ← Insert_prepare x i s; Some (s, WPublish x k i h)) c, [])
  | WPublish x k i h =>
      Some (writer_or_fail (s ← Insert_publish x i s; Some (s, next_level x k i h)) c, if (i =? 0)%nat then [LInsert k] else [])
  | WFinish x k h => Some (writer_or_fail (s ← Insert_finish x h s; Some (s, WIdle)) c, [])
  end.

(** The caller of [Insert] must not insert a key that is present.  The search of [Insert] is one
    step: only the writer stores to the list, so nothing it loads can change meanwhile. *)
Definition start_insert (k : Key) (c : system) : option (system * list label) :=
  match writer_ c, Contains compare_ (list_ c) k with
  | WIdle, Some false =>
      Some (match Insert_begin compare_ k (rnd_ c) (list_ c) with
            | Some (h, rnd, s) => {| list_ := s; rnd_ := rnd; writer_ := WRaise k h; readers_ := readers_ c |}
            | None => with_writer (list_ c) WFailed c
            end, [])
  | _, _ => None
  end.

Definition found (s : SkipList Key) (n : loc) : option Key := if (n =? nullptr)%N then None else key <$> nodes s !! n.
Definition reader_step (j : nat) (c : system) : option (system * list label) :=
  match readers_ c !! j with
  | Some (RLoop k v) =>
      Some (match FindGreaterOrEqual_round compare_ (list_ c) k v with
            | Some (inr v) => (with_reader j (RLoop k v) c, [])
            | Some (inl n) => (with_reader j RIdle c, [LFound j k (found (list_ c) n)])
            | None => (with_reader j RFailed c, [])
            end)
  | _ => None
  end.
Definition start_search (j : nat) (k : Key) (c : system) : option (system * list label) :=
  match readers_ c !! j with
  | Some RIdle => Some (with_reader j (RLoop k (head_ (list_ c), (GetMaxHeight (list_ c) - 1)%nat, nullptr)) c, [])
  | _ => None
  end.

Definition step (e : event) (c : system) : option (system * list label) :=
  match e with
  | EInsert k => start_insert k c
  | EWriter => writer_step c
  | ESearch j k => start_search j k c
  | EReader j => reader_step j c
  end.
Fixpoint run (es : list event) (c : system) : option (system * list label) :=
  match es with
  | [] => Some (c, [])
  | e :: es => '(c, l) ← step e c; '(c, ls) ← run es c; Some (c, l ++ ls)
  end.

(** The sequential object: a sorted list that is inserted into and searched. *)
Fixpoint legal (ls : list label) (l : list Key) : Prop :=
  match ls with
  | [] => True
  | LInsert k :: ls => existsb (Equal compare_ k) l = false /\ legal ls (insert_key compare_ k l)
  | LFound _ k r :: ls => r = find (fun y => negb (LessThan compare_ y k)) l /\ legal ls l
  end.
Definition healthy (c : system) : Prop := writer_ c <> WFailed /\ forall j, readers_ c !! j <> Some RFailed.
End system.

(** ** The invariant *)

Section proofs.
Context {Key : Type} (compare_ : Key -> Key -> Z) `{!Comparator compare_}.
Abbreviation system := (system (Key := Key)).
Abbreviation label := (label (Key := Key)).
Implicit Types (a : contents Key) (c : system).

Definition writer_ok (s : SkipList Key) a (w : writer) : Prop :=
  match w with
  | WIdle => rep compare_ s a
  | WRaise k h => ready compare_ s a k h
  | WNew k h => ready compare_ s a k h /\ (h <= max_height_ s)%nat
  | WPrepare x k i h => pending compare_ s a x k i h /\ (i < h)%nat /\ length (prev_ s) = kMaxHeight_ s
  | WPublish x k i h => pending compare_ s a x k i h /\ prepared s x i /\ (i < h)%nat /\ length (prev_ s) = kMaxHeight_ s
  | WFinish x k h => pending compare_ s a x k h h /\ (1 <= h)%nat /\ length (prev_ s) = kMaxHeight_ s
  | WFailed => False
  end.
Definition readers_ok (s : SkipList Key) a (rs : list reader) : Prop :=
  forall j r, rs !! j = Some r -> match r with RIdle => True | RLoop k v => reader_ok compare_ s a k v | RFailed => False end.
Definition inv c a : Prop := writer_ok (list_ c) a (writer_ c) /\ readers_ok (list_ c) a (readers_ c).

Lemma writer_wf s a w : writer_ok s a w -> wf compare_ s a.
Proof. destruct w; cbn; [apply rep_wf|apply r_wf|intros [? _]; by eapply r_wf|intros [? _]; by eapply p_wf..|done]. Qed.

(** Nodes and levels are only added. *)
Definition extends a a' : Prop := forall n, n ∈ xs a -> n ∈ xs a' /\ (up a n <= up a' n)%nat /\ ky a' n = ky a n.
Lemma extends_refl a : extends a a.
Proof. done. Qed.
Lemma extends_grow s a x k i h : pending compare_ s a x k i h -> extends a (grow compare_ a x k i).
Proof.
  intros P n Hn. split; [apply (grow_in compare_ s _ _ _ _ h _ P); by right|]. destruct (decide (n = x)) as [->|Hne].
  - destruct (grow_self compare_ a x k i) as [-> ->]. pose proof (p_in _ _ _ _ _ _ _ P) as Hin. destruct i as [|i]; [by destruct Hin|].
    destruct Hin as (_ & -> & ->). split; [lia|done].
  - destruct (grow_other compare_ a x k i n Hne) as [-> ->]. done.
Qed.
Lemma reader_ok_extends s s' a a' k v : frame s s' -> extends a a' -> reader_ok compare_ s a k v -> reader_ok compare_ s' a' k v.
Proof.
  destruct v as [[x lv] lb]. intros (Eh & Ek & _) He (Hlv & Hx & Hb & Hlb). unfold reader_ok, at_level, before. rewrite Eh, Ek. split_and!.
  - done.
  - destruct Hx as [|[Hx Hu]]; [by left|right]. destruct (He x Hx) as (? & ? & _). split; [done|lia].
  - destruct Hb as [|Hb]; [by left|]. destruct Hx as [|[Hx _]]; [by left|right]. destruct (He x Hx) as (_ & _ & ->). done.
  - destruct Hlb as [|[Hl Hlb]]; [by left|right]. destruct (He lb Hl) as (? & _ & ->). done.
Qed.
Lemma readers_ok_extends s s' a a' rs : frame s s' -> extends a a' -> readers_ok s a rs -> readers_ok s' a' rs.
Proof. intros Hf He Hr j r E. specialize (Hr j r E). destruct r; try done. by eapply reader_ok_extends. Qed.

Lemma readers_ok_same s s' a rs : frame s s' -> readers_ok s a rs -> readers_ok s' a rs.
Proof. intros Hf. by apply readers_ok_extends. Qed.

(** A step of the writer inserts its key at the first store that links the node, and
    changes nothing otherwise. *)
Definition labels_ok (ls : list label) a a' : Prop :=
  match ls with
  | [] => keys a' = keys a
  | [LInsert k] => existsb (Equal compare_ k) (keys a) = false /\ keys a' = insert_key compare_ k (keys a)
  | _ => False
  end.

Lemma absent_key a k : (forall n, n ∈ xs a -> compare_ k (ky a n) <> 0) -> existsb (Equal compare_ k) (keys a) = false.
Proof.
  intros Hk. rewrite agree_Contains. apply bool_decide_eq_false. intros (n & Hn & He)%Exists_exists. by apply (Hk n).
Qed.

Lemma writer_step_ok c a c' ls : inv c a -> writer_step c = Some (c', ls) -> exists a', inv c' a' /\ labels_ok ls a a' /\ writer_ c' <> WFailed.
Proof.
  intros [Hw Hr]. unfold writer_step. destruct (writer_ c) as [|k h|k h|x k i h|x k i h|x k h|] eqn:Ew; try done; cbn [writer_ok] in Hw.
  - destruct (raise_ok _ _ _ _ _ Hw) as (R & Hh & F). intros [= <- <-]. exists a. split; [|done]. split; [by split|].
    by eapply readers_ok_same.
  - destruct Hw as [R Hh]. pose proof (new_ok _ _ a k h R Hh) as HN. pose proof (r_height _ _ _ _ _ R).
    destruct (NewNode k h (list_ c)) as [x s']. cbn in HN. destruct HN as (P & F & El). intros [= <- <-].
    exists a. split; [|done]. split; [split; [done|split; [lia|done]]|]. by eapply readers_ok_same.
  - destruct Hw as (P & Hi & El). destruct (Insert_prepare_ok _ _ _ _ _ _ _ P Hi) as (s' & -> & P' & Hp & F & Ep & _). intros [= <- <-].
    pose proof F as (_ & Ek & _). exists a. split; [|done]. split; [split_and!; try done; cbn; congruence|]. by eapply readers_ok_same.
  - destruct Hw as (P & Hp & Hi & El). destruct (Insert_publish_ok _ _ _ _ _ _ _ P Hp Hi) as (s' & -> & P' & F & Ep & _). intros [= <- <-].
    pose proof F as (_ & Ek & _). exists (grow compare_ a x k i). cbn [mbind option_bind writer_or_fail]. split; [split|split].
    + unfold next_level. cbn [writer_ list_ with_writer]. destruct (Nat.ltb_spec (S i) h).
      * split_and!; [done|lia|congruence].
      * replace h with (S i) in * by lia. split_and!; [done|lia|congruence].
    + eapply readers_ok_extends; [done|by eapply extends_grow|done].
    + destruct i as [|i]; cbn [Nat.eqb labels_ok].
      * split; [apply absent_key; by apply (p_in _ _ _ _ _ _ _ P)|]. by eapply grow_keys.
      * unfold keys. cbn [xs grow]. apply map_ext_in. intros y _. cbn. case_decide as Hy; [|done]. subst y. by destruct (p_in _ _ _ _ _ _ _ P) as (_ & _ & ->).
    + unfold next_level. by destruct (S i <? h)%nat.
  - destruct Hw as (P & Hh & El). destruct (finish_ok _ _ _ _ _ _ P Hh El) as (s' & -> & R & F). intros [= <- <-].
    exists a. split; [|done]. split; [done|]. by eapply readers_ok_same.
Qed.

Lemma with_reader_ok s a rs j r : readers_ok s a rs -> match r with RIdle => True | RLoop k v => reader_ok compare_ s a k v | RFailed => False end ->
  readers_ok s a (<[j := r]> rs).
Proof.
  intros Hr Hn j' r' E. destruct (decide (j' = j)) as [->|Hne].
  - destruct (decide (j < length rs)%nat); [|by rewrite list_insert_ge in E by lia; apply (Hr j)].
    rewrite list_lookup_insert_eq in E by done. by injection E as <-.
  - rewrite list_lookup_insert_ne in E by done. by apply (Hr j').
Qed.

Lemma found_ok s a k : wf compare_ s a -> found s (first_ge compare_ a k) = find (fun y => negb (LessThan compare_ y k)) (keys a).
Proof.
  intros W. unfold keys. rewrite (find_pos compare_) by (intros n Hn; by destruct (node_key _ _ _ W n Hn) as (_ & _ & _ & ? & _)).
  assert (filter (fun n => negb (LessThan compare_ (ky a n) k) = true) (xs a) = filter (fun n => ~ before compare_ a k n) (xs a)) as ->.
  { apply filter_iff. intros n _. unfold LessThan, before. destruct (Z.ltb_spec (compare_ (ky a n) k) 0); split; cbn; intros; done || lia. }
  fold (first_ge compare_ a k). unfold found, pos. destruct (N.eqb_spec (first_ge compare_ a k) nullptr); [done|].
  destruct (first_ge_in compare_ _ a W k) as [|[Hn _]]; [done|]. by destruct (node_key _ _ _ W _ Hn) as (nd & -> & <- & _).
Qed.

Lemma step_ok e c a c' ls : inv c a -> step compare_ e c = Some (c', ls) -> exists a', inv c' a' /\
  forall rest, legal compare_ rest (keys a') -> legal compare_ (ls ++ rest) (keys a).
Proof.
  intros I. pose proof I as [Hw Hr]. pose proof (writer_wf _ _ _ Hw) as W. destruct e as [k| |j k|j]; cbn [step].
  - unfold start_insert. destruct (writer_ c) eqn:Ew; try done. rewrite (Contains_ok _ _ a W). case_bool_decide as He; [done|]. intros [= <- <-].
    destruct (Insert_begin_ok _ _ a k (rnd_ c) Hw) as (h & rnd' & s' & -> & R & F).
    { intros n Hn Hk. apply He, Exists_exists. by exists n. }
    exists a. split; [|done]. split; [done|]. by eapply readers_ok_same.
  - intros E. destruct (writer_step_ok c a c' ls I E) as (a' & I' & Hl & _). exists a'. split; [done|]. intros rest Hrest.
    unfold labels_ok in Hl. destruct ls as [|[k|j k r] [|? ?]]; try done; cbn [app legal].
    + by rewrite <- Hl.
    + destruct Hl as [Ha Hl]. split; [done|]. by rewrite <- Hl.
  - unfold start_search. destruct (readers_ c !! j) as [[| |]|] eqn:Ej; try done. intros [= <- <-]. exists a. split; [|done]. split; [done|].
    apply with_reader_ok; [done|]. pose proof (wf_max _ _ _ W). cbn. unfold GetMaxHeight. split_and!; [lia|by left..].
  - unfold reader_step. destruct (readers_ c !! j) as [[|k v|]|] eqn:Ej; try done. pose proof (Hr j _ Ej) as Hv. cbn in Hv.
    destruct (FindGreaterOrEqual_round_ok _ _ a W k v Hv) as (r & -> & Hres). intros E. exists a. destruct r as [n|v'].
    + injection E as <- <-. split; [split; [done|by apply with_reader_ok]|]. intros rest Hrest. cbn [app legal]. split; [|done].
      subst n. by apply found_ok.
    + injection E as <- <-. split; [|done]. split; [done|]. apply with_reader_ok; [done|apply Hres].
Qed.

Lemma run_ok es : forall c a c' ls, inv c a -> run compare_ es c = Some (c', ls) -> exists a', inv c' a' /\ legal compare_ ls (keys a).
Proof.
  induction es as [|e es IH]; intros c a c' ls I; cbn [run].
  - intros [= <- <-]. by exists a.
  - destruct (step compare_ e c) as [[c1 l1]|] eqn:E1; [|done]. cbn [mbind option_bind].
    destruct (run compare_ es c1) as [[c2 l2]|] eqn:E2; [|done]. intros [= <- <-].
    destruct (step_ok e c a c1 l1 I E1) as (a1 & I1 & Hl). destruct (IH c1 a1 c2 l2 I1 E2) as (a2 & I2 & Hl2). exists a2. split; [done|]. by apply Hl.
Qed.
Lemma inv_healthy c a : inv c a -> healthy c.
Proof.
  intros [Hw Hr]. split; [by destruct (writer_ c)|]. intros j Ej. by apply (Hr j _ Ej).
Qed.

(** The system at the start: an empty list and idle threads. *)
Definition start (s : SkipList Key) (rnd : Z) (n : nat) : system :=
  {| list_ := s; rnd_ := rnd; writer_ := WIdle; readers_ := replicate n RIdle |}.
Lemma start_inv any max_height branching rnd n : params_ok max_height branching -> exists s, SkipList_new any max_height branching = Some s /\
  inv (start s rnd n) {| xs := []; up _ := 0%nat; ky _ := any |}.
Proof.
  intros Hp. destruct (SkipList_new_ok compare_ any max_height branching Hp) as (s & E & R). exists s. split; [done|]. split; [done|].
  intros j r Ej. cbn in Ej. apply lookup_replicate in Ej as [-> _]. done.
Qed.

(** C8. Under every schedule of one inserting thread, whose stores are separate steps, and any
    number of searching threads, whose loads are separate steps, no assertion fails and no
    link is read before it was stored, and the history is linearizable: taking an insertion at
    the store that links its node on the lowest level and a search at its last load, every
    search finds the first key at or after its own in the sorted list of the keys inserted
    so far. *)
Theorem skip_list_linearizable (any : Key) (max_height : nat) (branching rnd : Z) (n : nat) (s : SkipList Key)
    (es : list event) (c : system) (ls : list label) :
  params_ok max_height branching -> SkipList_new any max_height branching = Some s ->
  run compare_ es (start s rnd n) = Some (c, ls) -> healthy c /\ legal compare_ ls [].
Proof.
  intros Hp Es Hrun. destruct (start_inv any max_height branching rnd n Hp) as (s' & Es' & I). rewrite Es in Es'. injection Es' as <-.
  destruct (run_ok es _ _ c ls I Hrun) as (a' & I' & Hl). split; [by eapply inv_healthy|done].
Qed.

(** ** Progress *)

Lemma search_alone s a j k : wf compare_ s a -> forall m v c, list_ c = s -> readers_ c !! j = Some (RLoop k v) -> reader_ok compare_ s a k v ->
  (v.1.2 + beyond compare_ s a v.1.1 < m)%nat ->
  exists m' c' r, (m' <= m)%nat /\ run compare_ (replicate m' (EReader j)) c = Some (c', [LFound j k r]) /\ readers_ c' !! j = Some RIdle /\ writer_ c' = writer_ c.
Proof.
  intros W. induction m as [|m IH]; intros v c Es Ej Hv Hm; [lia|].
  destruct (FindGreaterOrEqual_round_ok _ _ a W k v Hv) as (res & Er & Hres).
  assert (j < length (readers_ c))%nat as Hlen by (by eapply lookup_lt_Some).
  assert (forall r, readers_ (with_reader j r c) !! j = Some r) as Hset by (intros r; by apply list_lookup_insert_eq).
  destruct res as [n|v'].
  - exists 1%nat, (with_reader j RIdle c), (found s n). split; [lia|]. split; [|split; [apply Hset|done]].
    cbn [replicate run step]. unfold reader_step. rewrite Ej, Es, Er. done.
  - destruct Hres as [Hv' Hlt]. destruct (IH v' (with_reader j (RLoop k v') c) Es (Hset _) Hv' ltac:(lia)) as (m' & c' & r & Hm' & Hrun & Hj & Hw).
    exists (S m'), c', r. split; [lia|]. split; [|done]. cbn [replicate run step]. unfold reader_step. rewrite Ej, Es, Er. cbn [mbind option_bind]. by rewrite Hrun.
Qed.

(** The stores that are left. *)
Definition stores_left (w : writer (Key := Key)) : nat :=
  match w with
  | WIdle | WFailed => 0
  | WRaise _ h => 2 * h + 3
  | WNew _ h => 2 * h + 2
  | WPrepare _ _ i h => 2 * (h - i) + 1
  | WPublish _ _ i h => 2 * (h - i)
  | WFinish _ _ _ => 1
  end.
Lemma writer_step_left c a : inv c a -> writer_ c <> WIdle -> exists c' ls, writer_step c = Some (c', ls) /\ (stores_left (writer_ c') < stores_left (writer_ c))%nat.
Proof.
  intros [Hw _] Hi. unfold writer_step. destruct (writer_ c) as [|k h|k h|x k i h|x k i h|x k h|] eqn:Ew; try done; cbn [writer_ok] in Hw; cbn [stores_left].
  - do 2 eexists. split; [done|]. cbn. lia.
  - destruct (NewNode k h (list_ c)) as [x s']. do 2 eexists. split; [done|]. cbn. lia.
  - destruct Hw as (P & Hlt & _). destruct (Insert_prepare_ok _ _ _ _ _ _ _ P Hlt) as (s' & -> & _). do 2 eexists. split; [done|]. cbn. lia.
  - destruct Hw as (P & Hp & Hlt & _). destruct (Insert_publish_ok _ _ _ _ _ _ _ P Hp Hlt) as (s' & -> & _). do 2 eexists. split; [done|].
    cbn [mbind option_bind writer_or_fail writer_ with_writer]. unfold next_level. destruct (Nat.ltb_spec (S i) h); cbn; lia.
  - destruct Hw as (P & Hh & El). destruct (finish_ok _ _ _ _ _ _ P Hh El) as (s' & -> & _). do 2 eexists. split; [done|]. cbn. lia.
Qed.
Lemma writer_or_fail_readers m c : readers_ (writer_or_fail m c) = readers_ c.
Proof. by destruct m as [[? ?]|]. Qed.
Lemma writer_step_readers c c' ls : writer_step c = Some (c', ls) -> readers_ c' = readers_ c.
Proof.
  unfold writer_step. destruct (writer_ c) as [|k h|k h|x k i h|x k i h|x k h|]; try done; [| destruct (NewNode k h (list_ c)) | ..];
    intros [= <- _]; done || apply writer_or_fail_readers.
Qed.
Lemma insert_alone n : forall c a, inv c a -> (stores_left (writer_ c) <= n)%nat ->
  exists m c' ls, (m <= n)%nat /\ run compare_ (replicate m EWriter) c = Some (c', ls) /\ writer_ c' = WIdle /\ readers_ c' = readers_ c.
Proof.
  induction n as [|n IH]; intros c a I Hn.
  - exists 0%nat, c, []. split_and!; try done. destruct I as [Hw _]. destruct (writer_ c) as [|k h|k h|x k i h|x k i h|x k h|]; cbn in *; try done; lia.
  - destruct (decide (stores_left (writer_ c) = 0)%nat) as [Hz|Hz].
    { destruct (IH c a I ltac:(lia)) as (m & c' & ls & ? & ?). exists m, c', ls. split; [lia|done]. }
    assert (writer_ c <> WIdle) as Hi by (by intros E; rewrite E in Hz).
    destruct (writer_step_left c a I Hi) as (c1 & l1 & E1 & Hlt). destruct (writer_step_ok c a c1 l1 I E1) as (a1 & I1 & _).
    destruct (IH c1 a1 I1 ltac:(lia)) as (m & c' & ls & Hm & Hrun & Hw & Hr). exists (S m), c', (l1 ++ ls). split; [lia|].
    split; [cbn [replicate run step]; rewrite E1; cbn [mbind option_bind]; by rewrite Hrun|]. split; [done|]. rewrite Hr.
    by eapply writer_step_readers.
Qed.

(** C9. No search waits for the writer: from any state a schedule can reach, a search that
    is under way ends within a number of its own steps bounded by the nodes and the
    levels, wherever the writer was stopped. *)
Theorem skip_list_search_ends (any : Key) (max_height : nat) (branching rnd : Z) (n : nat) (s : SkipList Key)
    (es : list event) (c : system) (ls : list label) (j : nat) (k : Key) (v : loc * nat * loc) :
  params_ok max_height branching -> SkipList_new any max_height branching = Some s ->
  run compare_ es (start s rnd n) = Some (c, ls) -> readers_ c !! j = Some (RLoop k v) ->
  exists m c' r, (m <= search_bound (list_ c))%nat /\ run compare_ (replicate m (EReader j)) c = Some (c', [LFound j k r]) /\
    readers_ c' !! j = Some RIdle /\ writer_ c' = writer_ c.
Proof.
  intros Hp Es Hrun Ej. destruct (start_inv any max_height branching rnd n Hp) as (s' & Es' & I). rewrite Es in Es'. injection Es' as <-.
  destruct (run_ok es _ _ c ls I Hrun) as (a' & [Hw Hr] & _). pose proof (writer_wf _ _ _ Hw) as W. pose proof (Hr j _ Ej) as Hv. cbn in Hv.
  apply (search_alone (list_ c) a' j k W (search_bound (list_ c)) v c); [done|done|done|].
  destruct v as [[x lv] lb]. destruct Hv as (Hlv & _). pose proof (beyond_bound _ _ _ W x). unfold search_bound. cbn. lia.
Qed.

(** Nor do the stores of an insertion, which follow the search made when it starts, wait for the
    searches: from any state a schedule can reach they end within two steps a level and three
    more, wherever the searches were stopped. *)
Theorem skip_list_insert_ends (any : Key) (max_height : nat) (branching rnd : Z) (n : nat) (s : SkipList Key)
    (es : list event) (c : system) (ls : list label) :
  params_ok max_height branching -> SkipList_new any max_height branching = Some s ->
  run compare_ es (start s rnd n) = Some (c, ls) ->
  exists m c' ls', (m <= 2 * kMaxHeight_ (list_ c) + 3)%nat /\ run compare_ (replicate m EWriter) c = Some (c', ls') /\
    writer_ c' = WIdle /\ readers_ c' = readers_ c.
Proof.
  intros Hp Es Hrun. destruct (start_inv any max_height branching rnd n Hp) as (s' & Es' & I). rewrite Es in Es'. injection Es' as <-.
  destruct (run_ok es _ _ c ls I Hrun) as (a' & I' & _). apply insert_alone with a'; [done|].
  destruct I' as [Hw _]. destruct (writer_ c) as [|k h|k h|x k i h|x k i h|x k h|]; cbn [writer_ok stores_left] in *; try lia.
  - pose proof (r_height _ _ _ _ _ Hw). lia.
  - destruct Hw as [Hw _]. pose proof (r_height _ _ _ _ _ Hw). lia.
  - destruct Hw as [P _]. pose proof (p_height _ _ _ _ _ _ _ P). pose proof (wf_max _ _ _ (p_wf _ _ _ _ _ _ _ P)). lia.
  - destruct Hw as [P _]. pose proof (p_height _ _ _ _ _ _ _ P). pose proof (wf_max _ _ _ (p_wf _ _ _ _ _ _ _ P)). lia.
Qed.
End proofs.

(** An insertion that two searches meet: thread 0 passes before the node is linked, thread 1
    starts before and sees it. *)
Definition example_events : list (event (Key := Z)) :=
  [EInsert 5; EWriter; ESearch 0 4; EWriter; ESearch 1 4; EReader 0; EReader 0; EReader 1; EWriter; EWriter; EReader 1;
   EWriter; EWriter; EWriter; EInsert 3; ESearch 0 3; EWriter; EWriter; EWriter].
Definition example_trace : option (list (label (Key := Z))) :=
  s ← SkipList_new 0 3 4; '(_, ls) ← run Z.sub example_events (start s 301 2); Some ls.
Example example_trace_ok : example_trace = Some [LFound 0 4 None; LInsert 5; LFound 1 4 (Some 5)].
Proof. vm_compute. reflexivity. Qed.

Lemma skip_list_linearizable_witness : exists s c ls, params_ok 3 4 /\ SkipList_new 0 3 4 = Some s /\
  run Z.sub example_events (start s 301 2) = Some (c, ls) /\ healthy c /\ legal Z.sub ls [].
Proof.
  do 3 eexists. split; [unfold params_ok; lia|]. split; [vm_compute; reflexivity|]. split; [vm_compute; reflexivity|].
  eapply (skip_list_linearizable Z.sub 0 3 4 301 2 _ example_events); [unfold params_ok; lia|vm_compute; reflexivity|vm_compute; reflexivity].
Defined.
Lemma skip_list_search_ends_witness : exists s c ls v, params_ok 3 4 /\ SkipList_new 0 3 4 = Some s /\
  run Z.sub example_events (start s 301 2) = Some (c, ls) /\ readers_ c !! 0%nat = Some (RLoop 3 v) /\
  exists m c' r, (m <= search_bound (list_ c))%nat /\ run Z.sub (replicate m (EReader 0)) c = Some (c', [LFound 0 3 r]) /\
    readers_ c' !! 0%nat = Some RIdle /\ writer_ c' = writer_ c.
Proof.
  do 4 eexists. split; [unfold params_ok; lia|]. split; [vm_compute; reflexivity|]. split; [vm_compute; reflexivity|]. split; [reflexivity|].
  eapply (skip_list_search_ends Z.sub 0 3 4 301 2 _ example_events); [unfold params_ok; lia|vm_compute; reflexivity|vm_compute; reflexivity|reflexivity].
Defined.
Lemma skip_list_insert_ends_witness : exists s c ls, params_ok 3 4 /\ SkipList_new 0 3 4 = Some s /\
  run Z.sub example_events (start s 301 2) = Some (c, ls) /\
  exists m c' ls', (m <= 2 * kMaxHeight_ (list_ c) + 3)%nat /\ run Z.sub (replicate m EWriter) c = Some (c', ls') /\
    writer_ c' = WIdle /\ readers_ c' = readers_ c.
Proof.
  do 3 eexists. split; [unfold params_ok; lia|]. split; [vm_compute; reflexivity|]. split; [vm_compute; reflexivity|].
  eapply (skip_list_insert_ends Z.sub 0 3 4 301 2 _ example_events); [unfold params_ok; lia|vm_compute; reflexivity|vm_compute; reflexivity].
Defined.
