(* ===== verification/SplayTree.v ===== *)
(** * SplayTree: [src/util/splay_tree.h]

    The self-adjusting search tree over nodes that point to both children and to
    their parent.  The memory is a finite map from addresses to nodes; the client
    makes the nodes ([insert] links one it owns) except in [findOrInsert].  A node
    that is not allocated, a null pointer that is followed and an assertion that
    does not hold are [None]. *)

From S2P Require Import Prelude Store.
From Stdlib Require Import Sorting.Sorted.
From S2P Require Import Order.
#[local] Open Scope Z_scope.

Section splay_tree.
Context {T : Type} (compare : T -> T -> Z).

Record SplayTreeNode := { value : T; mLeft : loc; mRight : loc; mParent : loc }.
Record SplayTree := { mNodes : gmap loc SplayTreeNode; mRoot : loc }.

Definition with_nodes (f : gmap loc SplayTreeNode -> gmap loc SplayTreeNode) (s : SplayTree) : SplayTree :=
  {| mNodes := f (mNodes s); mRoot := mRoot s |}.
Definition with_root (r : loc) (s : SplayTree) : SplayTree := {| mNodes := mNodes s; mRoot := r |}.

Definition set_left (q : loc) (n : SplayTreeNode) : SplayTreeNode :=
  {| value := value n; mLeft := q; mRight := mRight n; mParent := mParent n |}.
Definition set_right (q : loc) (n : SplayTreeNode) : SplayTreeNode :=
  {| value := value n; mLeft := mLeft n; mRight := q; mParent := mParent n |}.
Definition set_parent (q : loc) (n : SplayTreeNode) : SplayTreeNode :=
  {| value := value n; mLeft := mLeft n; mRight := mRight n; mParent := q |}.

(** A store into a field of the node at [p]. *)
Definition modify (f : SplayTreeNode -> SplayTreeNode) (p : loc) : ST SplayTree unit :=
  update (fun s => match mNodes s !! p with Some _ => Some (with_nodes (alter f p) s) | None => None end).
Definition load (p : loc) : ST SplayTree SplayTreeNode := reads (fun s => mNodes s !! p).
Definition root : ST SplayTree loc := reads (fun s => Some (mRoot s)).
Definition set_root (r : loc) : ST SplayTree unit := update (fun s => Some (with_root r s)).
Definition check (b : bool) : ST SplayTree unit := if b then mret tt else fail.
Definition modify_if (f : SplayTreeNode -> SplayTreeNode) (p : loc) : ST SplayTree unit :=
  if (p =? nullptr)%N then mret tt else modify f p.

Definition empty (s : SplayTree) : bool := (mRoot s =? nullptr)%N.

(** ** Rotations *)

(** The grandparent, if there is one, gets [aNode] in place of [parent]. *)
Definition relink (aNode parent grandparent : loc) : ST SplayTree unit :=
  if (grandparent =? nullptr)%N then set_root aNode
  else
    g ← load grandparent;
    if (mLeft g =? parent)%N then modify (set_left aNode) grandparent else modify (set_right aNode) grandparent.
Definition rotate (aNode : loc) : ST SplayTree unit :=
  n ← load aNode;
  let parent := mParent n in
  p ← load parent;
  _ ← (if (mLeft p =? aNode)%N then
         _ ← modify (set_left (mRight n)) parent;
         _ ← modify_if (set_parent parent) (mRight n);
         modify (set_right parent) aNode
       else
         _ ← check (mRight p =? aNode)%N;
         _ ← modify (set_right (mLeft n)) parent;
         _ ← modify_if (set_parent parent) (mLeft n);
         modify (set_left parent) aNode);
  p ← load parent;
  _ ← modify (set_parent (mParent p)) aNode;
  _ ← modify (set_parent aNode) parent;
  n ← load aNode;
  relink aNode parent (mParent n).

(** One round of the loop of [splay]; [true]: it goes on. *)
Definition splay_round (aNode : loc) : ST SplayTree bool :=
  r ← root;
  if (aNode =? r)%N then mret false
  else
    n ← load aNode;
    let parent := mParent n in
    if (parent =? r)%N then
      _ ← rotate aNode;
      r ← root;
      _ ← check (aNode =? r)%N;
      mret false
    else
      p ← load parent;
      let grandparent := mParent p in
      g ← load grandparent;
      _ ← (if Bool.eqb (mLeft p =? aNode)%N (mLeft g =? parent)%N
           then _ ← rotate parent; rotate aNode
           else _ ← rotate aNode; rotate aNode);
      mret true.
Fixpoint splay_loop (fuel : nat) (aNode : loc) : ST SplayTree unit :=
  match fuel with
  | O => fail
  | S fuel => more ← splay_round aNode; if (more : bool) then splay_loop fuel aNode else mret tt
  end.
(** Every round but the last brings the node two levels up. *)
Definition rounds (s : SplayTree) : nat := S (size (mNodes s)).
Definition splay (aNode : loc) : ST SplayTree unit :=
  _ ← check (negb (aNode =? nullptr)%N);
  fuel ← reads (fun s => Some (rounds s));
  splay_loop fuel aNode.

(** ** Searching *)

Fixpoint lookup_loop (fuel : nat) (aValue : T) (node : loc) : ST SplayTree loc :=
  match fuel with
  | O => fail
  | S fuel =>
      n ← load node;
      let c := compare aValue (value n) in
      if c =? 0 then mret node
      else
        let next := if c <? 0 then mLeft n else mRight n in
        if (next =? nullptr)%N then mret node else lookup_loop fuel aValue next
  end.
Definition lookup (aValue : T) : ST SplayTree loc :=
  r ← root;
  _ ← check (negb (r =? nullptr)%N);
  fuel ← reads (fun s => Some (rounds s));
  lookup_loop fuel aValue r.

Definition find (aValue : T) : ST SplayTree loc :=
  r ← root;
  if (r =? nullptr)%N then mret nullptr
  else
    last ← lookup aValue;
    _ ← splay last;
    n ← load last;
    mret (if compare aValue (value n) =? 0 then last else nullptr).

(** ** Inserting *)

Definition finishInsertion (aLast : loc) (aCmp : Z) (aNew : loc) : ST SplayTree loc :=
  _ ← check (negb (aCmp =? 0));
  l ← load aLast;
  _ ← check ((if (aCmp <? 0)%Z then mLeft l else mRight l) =? nullptr)%N;
  _ ← modify (if aCmp <? 0 then set_left aNew else set_right aNew) aLast;
  _ ← modify (set_parent aLast) aNew;
  _ ← splay aNew;
  mret aNew.

(** [aValue] is the address of the client's node. *)
Definition insert (aValue : loc) : ST SplayTree bool :=
  n ← load aValue;
  f ← find (value n);
  _ ← check (f =? nullptr)%N;
  r ← root;
  if (r =? nullptr)%N then _ ← set_root aValue; mret true
  else
    last ← lookup (value n);
    l ← load last;
    _ ← finishInsertion last (compare (value n) (value l)) aValue;
    mret true.

(** [new T(aValue)]: a node at an address not in use. *)
Definition new_node (aValue : T) : ST SplayTree loc := fun s =>
  let x := fresh ({[nullptr]} ∪ dom (mNodes s)) in
  Some (x, with_nodes (<[x := {| value := aValue; mLeft := nullptr; mRight := nullptr; mParent := nullptr |}]>) s).

Definition findOrInsert (aValue : T) : ST SplayTree loc :=
  r ← root;
  if (r =? nullptr)%N then x ← new_node aValue; _ ← set_root x; mret x
  else
    last ← lookup aValue;
    l ← load last;
    let cmp := compare aValue (value l) in
    if cmp =? 0 then mret last
    else x ← new_node aValue; finishInsertion last cmp x.

(** ** Removing *)

Fixpoint rightmost (fuel : nat) (swap : loc) : ST SplayTree loc :=
  match fuel with
  | O => fail
  | S fuel => n ← load swap; if (mRight n =? nullptr)%N then mret swap else rightmost fuel (mRight n)
  end.
Fixpoint leftmost (fuel : nat) (swap : loc) : ST SplayTree loc :=
  match fuel with
  | O => fail
  | S fuel => n ← load swap; if (mLeft n =? nullptr)%N then mret swap else leftmost fuel (mLeft n)
  end.

(** Cut [swap] out of the tree, [swapChild] takes its place. *)
Definition cut_out (swap swapChild : loc) : ST SplayTree unit :=
  w ← load swap;
  p ← load (mParent w);
  _ ← (if (swap =? mLeft p)%N then modify (set_left swapChild) (mParent w) else modify (set_right swapChild) (mParent w));
  modify_if (set_parent (mParent w)) swapChild.
(** Make it the root in place of [last]. *)
Definition take_root (last swap : loc) : ST SplayTree unit :=
  _ ← set_root swap;
  _ ← modify (set_parent nullptr) swap;
  l ← load last;
  _ ← modify (set_left (mLeft l)) swap;
  l ← load last;
  _ ← modify (set_right (mRight l)) swap;
  n ← load swap;
  _ ← modify_if (set_parent swap) (mLeft n);
  n ← load swap;
  modify_if (set_parent swap) (mRight n).

(** Take the root [last] out: another node is swapped in for it. *)
Definition remove_root (last : loc) : ST SplayTree loc :=
  r ← root;
  n ← load r;
  fuel ← reads (fun s => Some (rounds s));
  if negb (mLeft n =? nullptr)%N then
    swap ← rightmost fuel (mLeft n);
    w ← load swap;
    _ ← cut_out swap (mLeft w);
    _ ← take_root last swap;
    mret last
  else if negb (mRight n =? nullptr)%N then
    swap ← leftmost fuel (mRight n);
    w ← load swap;
    _ ← cut_out swap (mRight w);
    _ ← take_root last swap;
    mret last
  else
    _ ← set_root nullptr;
    mret r.

Definition remove (aValue : T) : ST SplayTree loc :=
  last ← lookup aValue;
  _ ← check (negb (last =? nullptr)%N);
  l ← load last;
  _ ← check (compare aValue (value l) =? 0);
  _ ← splay last;
  r ← root;
  _ ← check (last =? r)%N;
  remove_root last.

Definition removeMin : ST SplayTree loc :=
  r ← root;
  _ ← check (negb (r =? nullptr)%N);
  fuel ← reads (fun s => Some (rounds s));
  min ← leftmost fuel r;
  n ← load min;
  remove (value n).

(** ** The check of the tests *)

Definition check_root : ST SplayTree unit :=
  r ← root;
  if (r =? nullptr)%N then mret tt else n ← load r; check (mParent n =? nullptr)%N.
Definition check_node (aNode aMinimum : loc) : ST SplayTree SplayTreeNode :=
  n ← load aNode;
  r ← root;
  _ ← (if (mParent n =? nullptr)%N then check (aNode =? r)%N else mret tt);
  _ ← (if (aMinimum =? nullptr)%N then mret tt
       else m ← load aMinimum; check (compare (value m) (value n) <? 0));
  mret n.
(** The greatest node of the subtree. *)
Fixpoint checkCoherency_loop (fuel : nat) (aNode : loc) (aMinimum : loc) : ST SplayTree loc :=
  match fuel with
  | O => fail
  | S fuel =>
      _ ← check_root;
      if (aNode =? nullptr)%N then r ← root; _ ← check (r =? nullptr)%N; mret nullptr
      else
        n ← check_node aNode aMinimum;
        _ ← (if (mLeft n =? nullptr)%N then mret tt
             else
               l ← load (mLeft n);
               _ ← check (mParent l =? aNode)%N;
               leftMaximum ← checkCoherency_loop fuel (mLeft n) aMinimum;
               m ← load leftMaximum;
               check (compare (value m) (value n) <? 0));
        if (mRight n =? nullptr)%N then mret aNode
        else
          q ← load (mRight n);
          _ ← check (mParent q =? aNode)%N;
          checkCoherency_loop fuel (mRight n) aNode
  end.
Definition checkCoherency : ST SplayTree unit :=
  r ← root;
  fuel ← reads (fun s => Some (rounds s));
  _ ← checkCoherency_loop fuel r nullptr;
  mret tt.

End splay_tree.
Arguments SplayTreeNode : clear implicits.
Arguments SplayTree : clear implicits.
