(* ===== verification/SplayTreeMemory.v ===== *)
(** * SplayTreeMemory: trees of [src/util/splay_tree.h] in memory

    The relation [rep] between the nodes in memory and an inductive tree, paths to
    the root for the node the code works on, and what rotations, splaying and the
    removal of a node do to both. *)

From Stdlib Require Import Sorting.Sorted.
From S2P Require Import Prelude Store Order SplayTree.
#[local] Open Scope Z_scope.

(** ** The tree in memory *)

Section proofs.
Context {T : Type}.
Abbreviation mem := (gmap loc (SplayTreeNode T)).
Implicit Types (m : mem) (s : SplayTree T).

Inductive tree := Leaf | Node (l : tree) (x : loc) (v : T) (r : tree).
Definition root_of (t : tree) : loc := match t with Leaf => nullptr | Node _ x _ _ => x end.
Fixpoint entries (t : tree) : list (loc * T) :=
  match t with Leaf => [] | Node l x v r => entries l ++ (x, v) :: entries r end.
Definition locs (t : tree) : list loc := (entries t).*1.

(** [t] is in memory below the node [p]. *)
Fixpoint at_ m (p : loc) (t : tree) : Prop :=
  match t with
  | Leaf => True
  | Node l x v r => m !! x = Some {| value := v; mLeft := root_of l; mRight := root_of r; mParent := p |} /\ at_ m x l /\ at_ m x r
  end.

(** A path to the root, innermost node first: the node is left with one subtree. *)
Inductive frame := InL (x : loc) (v : T) (r : tree) | InR (l : tree) (x : loc) (v : T).
Definition frame_loc (f : frame) : loc := match f with InL x _ _ => x | InR _ x _ => x end.
Definition fill (f : frame) (t : tree) : tree := match f with InL x v r => Node t x v r | InR l x v => Node l x v t end.
Fixpoint plug (c : list frame) (t : tree) : tree := match c with [] => t | f :: c => plug c (fill f t) end.
Definition parent_of (c : list frame) : loc := match c with [] => nullptr | f :: _ => frame_loc f end.
Definition frame_locs (f : frame) : list loc := match f with InL x _ r => x :: locs r | InR l x _ => x :: locs l end.
Definition path_locs (c : list frame) : list loc := c ≫= frame_locs.
Definition path_root (c : list frame) (h : loc) : loc := match last c with None => h | Some f => frame_loc f end.

(** The path is in memory, above the child [h]. *)
Fixpoint path_at m (c : list frame) (h : loc) : Prop :=
  match c with
  | [] => True
  | InL x v r :: c => m !! x = Some {| value := v; mLeft := h; mRight := root_of r; mParent := parent_of c |} /\ at_ m x r /\ path_at m c x
  | InR l x v :: c => m !! x = Some {| value := v; mLeft := root_of l; mRight := h; mParent := parent_of c |} /\ at_ m x l /\ path_at m c x
  end.

Lemma locs_node l x v r : locs (Node l x v r) = locs l ++ x :: locs r.
Proof. unfold locs. cbn. by rewrite fmap_app. Qed.

Lemma at_plug m c : forall t, at_ m nullptr (plug c t) <-> path_at m c (root_of t) /\ at_ m (parent_of c) t.
Proof.
  induction c as [|f c IH]; intros t; cbn [plug path_at parent_of]; [tauto|]. rewrite IH. destruct f as [x v r|l x v]; cbn; tauto.
Qed.
Lemma plug_locs c : forall t, locs (plug c t) ≡ₚ path_locs c ++ locs t.
Proof.
  induction c as [|f c IH]; intros t; [done|]. cbn [plug]. rewrite IH. unfold path_locs. cbn [mbind list_bind].
  destruct f as [x v r|l x v]; cbn [fill frame_locs]; rewrite locs_node; solve_Permutation.
Qed.
Lemma plug_root c t : root_of (plug c t) = path_root c (root_of t).
Proof.
  unfold path_root. revert t. induction c as [|f c IH]; intros t; [done|]. cbn [plug]. rewrite IH. destruct c as [|g c]; [by destruct f|].
  rewrite !last_cons. by destruct (last c).
Qed.

Lemma at_same m m' t : forall p, (forall k, k ∈ locs t -> m' !! k = m !! k) -> at_ m p t -> at_ m' p t.
Proof.
  induction t as [|l IHl x v r IHr]; intros p Hk; [done|]. cbn [at_]. setoid_rewrite locs_node in Hk. intros (E & Hl & Hr). split; [rewrite Hk; [done|set_solver]|].
  split; [apply IHl|apply IHr]; try done; intros k Hin; apply Hk; set_solver.
Qed.
(** The root of a subtree gets another parent. *)
Lemma at_reparent m m' t p q : NoDup (locs t) -> at_ m p t -> (forall k, k ∈ locs t -> k <> root_of t -> m' !! k = m !! k) ->
  (root_of t ∈ locs t -> m' !! root_of t = set_parent q <$> m !! root_of t) -> at_ m' q t.
Proof.
  destruct t as [|l x v r]; [done|]. cbn [at_ root_of]. rewrite locs_node. intros HN (E & Hl & Hr) Hk Hx. apply NoDup_app in HN as (_ & HN & HN2). apply NoDup_cons in HN2 as [HN2 _].
  split; [rewrite Hx, E; [done|set_solver]|]. split; (eapply at_same; [|done]); intros k Hin; apply Hk; try set_solver.
Qed.
Lemma path_same m m' c h : (forall k, k ∈ path_locs c -> m' !! k = m !! k) -> path_at m c h -> path_at m' c h.
Proof.
  revert h. induction c as [|f c IH]; intros h Hk; [done|]. unfold path_locs in Hk. cbn [mbind list_bind] in Hk.
  destruct f as [x v r|l x v]; cbn [frame_locs path_at] in *; intros (E & Ht & Hp); (split; [rewrite Hk; [done|set_solver]|]);
    (split; [eapply at_same; [|done]|apply IH; [|done]]); intros k Hin; apply Hk; set_solver.
Qed.

(** What a tree of the class looks like in memory. *)
Record rep s (t : tree) : Prop := {
  rep_at : at_ (mNodes s) nullptr t;
  rep_NoDup : NoDup (locs t);
  rep_null : mNodes s !! nullptr = None;
  rep_root : mRoot s = root_of t
}.

(** ** Steps *)

Lemma bind_load {B} p (k : SplayTreeNode T -> ST (SplayTree T) B) s n r : mNodes s !! p = Some n -> k n s = r -> (load p ≫= k) s = r.
Proof. apply (bind_reads (fun s => mNodes s !! p)). Qed.
Lemma run_modify (f : SplayTreeNode T -> SplayTreeNode T) p s n : mNodes s !! p = Some n -> modify f p s = Some (tt, with_nodes (alter f p) s).
Proof. intros E. apply run_update. by rewrite E. Qed.
Lemma bind_modify {B} f p (k : unit -> ST (SplayTree T) B) s n r :
  mNodes s !! p = Some n -> k tt (with_nodes (alter f p) s) = r -> (modify f p ≫= k) s = r.
Proof. intros E. apply bind_run. by eapply run_modify. Qed.
Lemma with_nodes_null f s : mNodes s !! nullptr = None -> with_nodes (alter f nullptr) s = s.
Proof.
  intros E. destruct s as [m r]. unfold with_nodes. cbn in *. f_equal. apply map_eq. intros k. rewrite lookup_alter. case_decide as Hk; [|done].
  subst k. by rewrite E.
Qed.
Lemma run_modify_if f p s : mNodes s !! nullptr = None -> (p = nullptr \/ is_Some (mNodes s !! p)) -> modify_if f p s = Some (tt, with_nodes (alter f p) s).
Proof.
  intros Hn Hp. unfold modify_if. destruct (N.eqb_spec p nullptr) as [->|Hne]; [by rewrite with_nodes_null|]. destruct Hp as [|[n E]]; [done|]. by eapply run_modify.
Qed.
Lemma bind_modify_if {B} f p (k : unit -> ST (SplayTree T) B) s r : mNodes s !! nullptr = None -> (p = nullptr \/ is_Some (mNodes s !! p)) ->
  k tt (with_nodes (alter f p) s) = r -> (modify_if f p ≫= k) s = r.
Proof. intros Hn Hp. apply bind_run. by apply run_modify_if. Qed.

Lemma root_of_in (t : tree) : root_of t = nullptr \/ root_of t ∈ locs t.
Proof. destruct t; [by left|right]. rewrite locs_node. set_solver. Qed.
Lemma at_root m p t : at_ m p t -> root_of t = nullptr \/ is_Some (m !! root_of t).
Proof. destruct t; [by left|]. intros (E & _). right. cbn. by rewrite E. Qed.
Lemma at_alloc m p t k : at_ m p t -> k ∈ locs t -> is_Some (m !! k).
Proof.
  revert p. induction t as [|l IHl x v r IHr]; intros p Ht Hk; [set_solver|]. rewrite locs_node in Hk. destruct Ht as (E & Hl & Hr).
  apply elem_of_app in Hk as [Hk|[->|Hk]%elem_of_cons]; [by eapply IHl|by rewrite E|by eapply IHr].
Qed.

(** The node at the end of a path gets another child. *)
Definition set_child (f : frame) (q : loc) : SplayTreeNode T -> SplayTreeNode T :=
  match f with InL _ _ _ => set_left q | InR _ _ _ => set_right q end.
Lemma frame_loc_in f c : frame_loc f ∈ path_locs (f :: c).
Proof. destruct f; cbn; set_solver. Qed.
Lemma path_root_swap f c h h' : path_root (f :: c) h = path_root (f :: c) h'.
Proof. unfold path_root. rewrite last_cons. by destruct (last c). Qed.
Lemma path_set_child m m' f c h q : path_at m (f :: c) h -> NoDup (path_locs (f :: c)) -> m' !! frame_loc f = set_child f q <$> m !! frame_loc f ->
  (forall k, k ∈ path_locs (f :: c) -> k <> frame_loc f -> m' !! k = m !! k) -> path_at m' (f :: c) q.
Proof.
  intros Hp HN Ef Hk. destruct f as [z vz u|u z vz]; cbn [path_at set_child frame_loc] in *; destruct Hp as (E & Hu & Hc);
    change (path_locs (_ :: c)) with (z :: locs u ++ path_locs c) in *; apply NoDup_cons in HN as [Hz HN]; (split; [by rewrite Ef, E|]);
    (split; [eapply at_same; [|done]|eapply path_same; [|done]]); intros k Hin; (apply Hk; [|intros ->]); set_solver.
Qed.

Lemma relink_ok s c x y : path_at (mNodes s) c y -> NoDup (path_locs c) -> y ∉ path_locs c -> y <> nullptr -> nullptr ∉ path_locs c ->
  mRoot s = path_root c y ->
  exists s', relink x y (parent_of c) s = Some (tt, s') /\ path_at (mNodes s') c x /\ mRoot s' = path_root c x /\
    (forall k, k ∉ path_locs c -> mNodes s' !! k = mNodes s !! k) /\ dom (mNodes s') = dom (mNodes s).
Proof.
  intros Hp HN Hy Hyn Hn Hr. unfold relink. destruct c as [|f c]; cbn [parent_of].
  { rewrite N.eqb_refl. by exists (with_root x s). }
  pose proof (frame_loc_in f c) as Hf. rewrite (proj2 (N.eqb_neq (frame_loc f) nullptr)) by (by intros E; rewrite E in Hf).
  assert (exists g, mNodes s !! frame_loc f = Some g /\ (mLeft g =? y)%N = match f with InL _ _ _ => true | InR _ _ _ => false end) as (g & Eg & El).
  { destruct f as [z v r|l z v]; cbn [frame_loc path_at] in *; destruct Hp as (E & Ht & Hc); (eexists; split; [exact E|]); cbn [mLeft]; [apply N.eqb_refl|].
    apply N.eqb_neq. intros E'. destruct (root_of_in l) as [Hl|Hl]; [congruence|]. rewrite E' in Hl. apply Hy. cbn. unfold path_locs. cbn. set_solver. }
  exists (with_nodes (alter (set_child f x) (frame_loc f)) s). split; [|split; [|split; [by rewrite (path_root_swap f c x y)|split]]].
  - eapply bind_load; [exact Eg|]. rewrite El. destruct f; by eapply run_modify.
  - cbn. eapply path_set_child; [done|done|by rewrite lookup_alter_eq|]. intros k _ Hk. by apply lookup_alter_ne.
  - intros k Hk. apply lookup_alter_ne. by intros <-.
  - cbn. by rewrite dom_alter_L.
Qed.

(** ** Rotations *)

Lemma rep_split s c l x v r : rep s (plug c (Node l x v r)) ->
  path_at (mNodes s) c x /\ at_ (mNodes s) (parent_of c) (Node l x v r) /\ NoDup (path_locs c ++ locs l ++ x :: locs r) /\
  nullptr ∉ path_locs c ++ locs l ++ x :: locs r /\ mRoot s = path_root c x.
Proof.
  intros [Ha HN Hn Hr]. apply at_plug in Ha as [Hp Ha]. rewrite plug_locs, locs_node in HN. rewrite plug_root in Hr. split_and!; try done.
  intros Hin. assert (nullptr ∈ locs (plug c (Node l x v r))) as Hin' by (by rewrite plug_locs, locs_node).
  assert (at_ (mNodes s) nullptr (plug c (Node l x v r))) as Ha' by (by apply at_plug).
  destruct (at_alloc _ _ _ _ Ha' Hin') as [n E]. congruence.
Qed.
Lemma rep_join s c l x v r : path_at (mNodes s) c x -> at_ (mNodes s) (parent_of c) (Node l x v r) -> NoDup (path_locs c ++ locs l ++ x :: locs r) ->
  mNodes s !! nullptr = None -> mRoot s = path_root c x -> rep s (plug c (Node l x v r)).
Proof.
  intros Hp Ha HN Hn Hr. constructor; [by apply at_plug|by rewrite plug_locs, locs_node|done|by rewrite plug_root].
Qed.

(** The parts of the tree around a rotation do not overlap. *)
Lemma parts_disjoint (y x : loc) (t c a b : list loc) : NoDup ((y :: t ++ c) ++ a ++ x :: b) -> nullptr ∉ (y :: t ++ c) ++ a ++ x :: b ->
  (y <> x /\ y <> nullptr /\ x <> nullptr) /\ (forall k, k ∈ t -> k <> x /\ k <> y /\ k ∉ b /\ k ∉ c /\ k ∉ a) /\
  (forall k, k ∈ c -> k <> x /\ k <> y /\ k ∉ b /\ k ∉ a) /\ (forall k, k ∈ a -> k <> x /\ k <> y /\ k ∉ b) /\
  (forall k, k ∈ b -> k <> x /\ k <> y) /\ (nullptr ∉ t /\ nullptr ∉ c /\ nullptr ∉ a /\ nullptr ∉ b) /\ NoDup c /\ NoDup t /\ NoDup a /\ NoDup b.
Proof.
  cbn. intros HN Hn. rewrite !elem_of_cons, !elem_of_app, elem_of_cons in Hn. apply NoDup_cons in HN as [Hy HN].
  rewrite !elem_of_app, elem_of_cons in Hy. apply NoDup_app in HN as (HN1 & HN2 & HN3). apply NoDup_app in HN1 as (HNt & HNtc & HNc).
  apply NoDup_app in HN3 as (HNa & HNab & HNb). apply NoDup_cons in HNb as [Hxb HNb].
  assert (forall k, k ∈ t \/ k ∈ c -> k ∉ a /\ k <> x /\ k ∉ b) as HN2'.
  { intros k Hk. specialize (HN2 k). rewrite !elem_of_app, elem_of_cons in HN2. tauto. }
  assert (forall k, k ∈ a -> k <> x /\ k ∉ b) as HNab'.
  { intros k Hk. specialize (HNab k Hk). rewrite elem_of_cons in HNab. tauto. }
  split_and!; try tauto; try (intros ->; tauto).
  - intros k Hk. destruct (HN2' k) as (? & ? & ?); [tauto|]. split_and!; try tauto; [by intros ->; tauto|by apply HNtc].
  - intros k Hk. destruct (HN2' k) as (? & ? & ?); [tauto|]. split_and!; try tauto. by intros ->; tauto.
  - intros k Hk. destruct (HNab' k Hk). split_and!; try tauto. by intros ->; tauto.
  - intros k Hk. split; intros ->; tauto.
Qed.

Lemma root_not (t : tree) k : k <> nullptr -> k ∉ locs t -> root_of t <> k.
Proof. intros Hk Hn <-. by destruct (root_of_in t). Qed.

(** The memory before the grandparent is changed: [x] comes up, [y] goes down and takes the
    subtree with root [b]; [fx] and [fy] are the stores to their children. *)
Definition rotated (fx fy : SplayTreeNode T -> SplayTreeNode T) (x y b pc : loc) m : mem :=
  alter (set_parent x) y (alter (set_parent pc) x (alter fx x (alter (set_parent y) b (alter fy y m)))).
Lemma rotated_lookup fx fy x y b pc m nx ny : x <> y -> b <> x -> b <> y -> m !! x = Some nx -> m !! y = Some ny ->
  rotated fx fy x y b pc m !! x = Some (set_parent pc (fx nx)) /\ rotated fx fy x y b pc m !! y = Some (set_parent x (fy ny)) /\
  rotated fx fy x y b pc m !! b = set_parent y <$> m !! b /\
  (forall k, k <> x -> k <> y -> k <> b -> rotated fx fy x y b pc m !! k = m !! k) /\ dom (rotated fx fy x y b pc m) = dom m.
Proof.
  intros Hxy Hbx Hby Ex Ey. unfold rotated. split_and!.
  - rewrite (lookup_alter_ne _ _ y), !lookup_alter_eq, !lookup_alter_ne, Ex by done. done.
  - rewrite lookup_alter_eq, 3!lookup_alter_ne, lookup_alter_eq, Ey by done. done.
  - rewrite 3!(lookup_alter_ne _ _ _ b), lookup_alter_eq, lookup_alter_ne by done. done.
  - intros k H1 H2 H3. by rewrite !lookup_alter_ne.
  - by rewrite !dom_alter_L.
Qed.

(** A step on a tree leaves the rest of the memory alone. *)
Definition keeps s s' (t : tree) : Prop := dom (mNodes s') = dom (mNodes s) /\ forall k, k ∉ locs t -> mNodes s' !! k = mNodes s !! k.
Lemma keeps_refl s t : keeps s s t.
Proof. done. Qed.
Lemma keeps_trans s1 s2 s3 t t' : keeps s1 s2 t -> keeps s2 s3 t' -> entries t' = entries t -> keeps s1 s3 t.
Proof.
  intros [D1 K1] [D2 K2] E. split; [congruence|]. intros k Hk. rewrite K2, K1; [done|done|]. unfold locs. by rewrite E.
Qed.

Lemma rotate_core s c kept moved t x y nx ny fx fy :
  NoDup ((y :: locs t ++ path_locs c) ++ locs kept ++ x :: locs moved) -> nullptr ∉ (y :: locs t ++ path_locs c) ++ locs kept ++ x :: locs moved ->
  mNodes s !! x = Some nx -> mNodes s !! y = Some ny -> at_ (mNodes s) x kept -> at_ (mNodes s) x moved -> at_ (mNodes s) y t ->
  path_at (mNodes s) c y -> mNodes s !! nullptr = None -> mRoot s = path_root c y ->
  exists s', relink x y (parent_of c) {| mNodes := rotated fx fy x y (root_of moved) (parent_of c) (mNodes s); mRoot := mRoot s |} = Some (tt, s') /\
    mNodes s' !! x = Some (set_parent (parent_of c) (fx nx)) /\ mNodes s' !! y = Some (set_parent x (fy ny)) /\
    at_ (mNodes s') x kept /\ at_ (mNodes s') y moved /\ at_ (mNodes s') y t /\ path_at (mNodes s') c x /\
    mNodes s' !! nullptr = None /\ mRoot s' = path_root c x /\ dom (mNodes s') = dom (mNodes s) /\
    (forall k, k ∉ (y :: locs t ++ path_locs c) ++ locs kept ++ x :: locs moved -> mNodes s' !! k = mNodes s !! k).
Proof.
  intros HN Hn Ex Ey Ha Hb Ht Hc Hnull Hr.
  destruct (parts_disjoint _ _ _ _ _ _ HN Hn) as ((Hyx & Hyn & Hxn) & Dt & Dc & Da & Db & (Nt & Nc & Na & Nb) & HNc & HNt & HNa & HNb).
  assert (root_of moved <> x /\ root_of moved <> y) as [Hbx Hby] by (split; apply root_not; try done; intros Hin; by destruct (Db _ Hin)).
  destruct (rotated_lookup fx fy x y (root_of moved) (parent_of c) (mNodes s) nx ny) as (E5x & E5y & E5b & Hk & Hdom5); try done.
  set (m5 := rotated _ _ _ _ _ _ _) in *.
  assert (forall k, k ∈ path_locs c \/ k ∈ locs kept \/ k ∈ locs t -> k <> x /\ k <> y /\ k <> root_of moved) as Dk.
  { intros k Hin. assert (k <> x /\ k <> y /\ k ∉ locs moved /\ k <> nullptr) as (? & ? & ? & ?).
    { destruct Hin as [Hin|[Hin|Hin]]; [destruct (Dc k Hin) as (? & ? & ? & _)|destruct (Da k Hin) as (? & ? & ?)|destruct (Dt k Hin) as (? & ? & ? & _)];
        split_and!; try done; by intros ->. }
    split_and!; try done. by apply not_eq_sym, root_not. }
  destruct (relink_ok {| mNodes := m5; mRoot := mRoot s |} c x y) as (s' & Erel & Hp' & Hr' & Hk' & Hdom); try done.
  { eapply path_same; [|done]. intros k Hin. by apply Hk; apply Dk; left. }
  { intros Hin. by destruct (Dc y Hin) as (_ & ? & _). }
  cbn [mNodes mRoot] in Hk', Hdom.
  assert (forall k, k = x \/ k = y \/ k ∈ locs kept \/ k ∈ locs moved \/ k ∈ locs t \/ k = nullptr -> mNodes s' !! k = m5 !! k) as Hs'.
  { intros k Hin. apply Hk'. intros Hkc. destruct (Dc k Hkc) as (? & ? & ? & ?).
    destruct Hin as [?|[?|[?|[?|[Hin| ->]]]]]; try done. destruct (Dt k Hin) as (_ & _ & _ & ? & _). done. }
  exists s'. rewrite !Hs' by tauto. split_and!; try done.
  - eapply at_same; [|exact Ha]. intros k Hin. rewrite Hs' by tauto. apply Hk; apply Dk; tauto.
  - eapply at_reparent; [exact HNb|exact Hb| |].
    + intros k Hin Hkr. rewrite Hs' by tauto. by apply Hk; [apply (Db k Hin)|apply (Db k Hin)|].
    + intros Hin. by rewrite Hs' by tauto.
  - eapply at_same; [|exact Ht]. intros k Hin. rewrite Hs' by tauto. apply Hk; apply Dk; tauto.
  - destruct (decide (root_of moved = nullptr)) as [E|E]; [rewrite <- E, E5b, E, Hnull; done|]. by rewrite Hk.
  - congruence.
  - intros k Hkn. cbn [app] in Hkn. rewrite !elem_of_cons, !elem_of_app, elem_of_cons in Hkn. rewrite Hk' by tauto.
    destruct (decide (k = root_of moved)) as [->|Hkm]; [|apply Hk; tauto].
    destruct (root_of_in moved) as [E|E]; [rewrite E5b, E, Hnull; done|tauto].
Qed.

(** The second half of a rotation. *)
Lemma rotate_tail fx fy s x y b pc nx ny s' : x <> y -> b <> x -> b <> y -> mNodes s !! x = Some nx -> mNodes s !! y = Some ny ->
  mParent (fx nx) = mParent nx -> mParent (fy ny) = pc ->
  relink x y pc {| mNodes := rotated fx fy x y b pc (mNodes s); mRoot := mRoot s |} = Some (tt, s') ->
  (p ← load y; _ ← modify (set_parent (mParent p)) x; _ ← modify (set_parent x) y; n ← load x; relink x y (mParent n))
    {| mNodes := alter fx x (alter (set_parent y) b (alter fy y (mNodes s))); mRoot := mRoot s |} = Some (tt, s').
Proof.
  intros Hxy Hbx Hby Ex Ey _ Epc Hrel.
  eapply bind_load. { cbn. rewrite lookup_alter_ne, lookup_alter_ne, lookup_alter_eq, Ey by done. done. } rewrite Epc.
  eapply bind_modify. { cbn. rewrite lookup_alter_eq, !lookup_alter_ne, Ex by done. done. }
  eapply bind_modify. { cbn. rewrite !lookup_alter_ne, lookup_alter_eq, Ey by done. done. }
  eapply bind_load. { cbn. rewrite lookup_alter_ne, !lookup_alter_eq, !lookup_alter_ne, Ex by done. done. }
  exact Hrel.
Qed.

(** The node comes up in place of its parent, from the left and from the right. *)
Lemma rotate_left_ok s c a x vx b y vy t : rep s (plug (InL y vy t :: c) (Node a x vx b)) ->
  exists s', rotate x s = Some (tt, s') /\ rep s' (plug c (Node a x vx (Node b y vy t))) /\ keeps s s' (plug (InL y vy t :: c) (Node a x vx b)).
Proof.
  intros R. pose proof (rep_null _ _ R) as Hnull. destruct (rep_split _ _ _ _ _ _ R) as (Hp & (Ex & Ha & Hb) & HN & Hn & Hr).
  cbn [path_at parent_of frame_loc] in Hp, Ex. destruct Hp as (Ey & Ht & Hc).
  change (path_locs (InL y vy t :: c)) with (y :: locs t ++ path_locs c) in HN, Hn.
  destruct (parts_disjoint _ _ _ _ _ _ HN Hn) as ((Hyx & Hyn & Hxn) & _ & _ & _ & Db & _).
  assert (root_of b <> x /\ root_of b <> y) as [Hbx Hby] by (split; apply root_not; try done; intros Hin; by destruct (Db _ Hin)).
  assert (mRoot s = path_root c y) as Hr'.
  { rewrite Hr. unfold path_root. rewrite last_cons. by destruct (last c). }
  destruct (rotate_core s c a b t x y _ _ (set_right y) (set_left (root_of b)) HN Hn Ex Ey Ha Hb Ht Hc Hnull Hr')
    as (s' & Erel & Ex' & Ey' & Ha' & Hb' & Ht' & Hc' & Hnull' & Hr'' & Hdom & Hkeep).
  exists s'. split; [|split; [|split; [done|]]].
  3: { intros k Hkn. apply Hkeep. intros Hin. apply Hkn. rewrite plug_locs, locs_node. exact Hin. }
  - unfold rotate. eapply bind_load; [exact Ex|]. cbn [mParent mRight mLeft]. eapply bind_load; [exact Ey|]. cbn [mLeft]. rewrite N.eqb_refl.
    eapply bind_run; [|eapply (rotate_tail (set_right y) (set_left (root_of b)) s x y (root_of b) (parent_of c)); try done; eauto].
    eapply bind_modify; [exact Ey|]. eapply bind_modify_if; [|destruct (at_root _ _ _ Hb) as [?|?]; [by left|right]|].
    + cbn. by rewrite lookup_alter_ne.
    + cbn. by rewrite lookup_alter_ne.
    + eapply run_modify. cbn. rewrite !lookup_alter_ne by done. exact Ex.
  - apply rep_join; try done. rewrite locs_node. eapply NoDup_Permutation_proper; [|exact HN]. solve_Permutation.
Qed.
Lemma rotate_right_ok s c a x vx b t y vy : rep s (plug (InR t y vy :: c) (Node a x vx b)) ->
  exists s', rotate x s = Some (tt, s') /\ rep s' (plug c (Node (Node t y vy a) x vx b)) /\ keeps s s' (plug (InR t y vy :: c) (Node a x vx b)).
Proof.
  intros R. pose proof (rep_null _ _ R) as Hnull. destruct (rep_split _ _ _ _ _ _ R) as (Hp & (Ex & Ha & Hb) & HN & Hn & Hr).
  cbn [path_at parent_of frame_loc] in Hp, Ex. destruct Hp as (Ey & Ht & Hc).
  change (path_locs (InR t y vy :: c)) with (y :: locs t ++ path_locs c) in HN, Hn.
  assert ((y :: locs t ++ path_locs c) ++ locs a ++ x :: locs b ≡ₚ (y :: locs t ++ path_locs c) ++ locs b ++ x :: locs a) as HP by solve_Permutation.
  rewrite HP in HN, Hn.
  destruct (parts_disjoint _ _ _ _ _ _ HN Hn) as ((Hyx & Hyn & Hxn) & Dt & _ & _ & Da & (Nt & _) & _).
  assert (root_of a <> x /\ root_of a <> y) as [Hax Hay] by (split; apply root_not; try done; intros Hin; by destruct (Da _ Hin)).
  assert (root_of t <> x) as Htx by (apply root_not; [done|]; intros Hin; by destruct (Dt _ Hin)).
  assert (mRoot s = path_root c y) as Hr'.
  { rewrite Hr. unfold path_root. rewrite last_cons. by destruct (last c). }
  destruct (rotate_core s c b a t x y _ _ (set_left y) (set_right (root_of a)) HN Hn Ex Ey Hb Ha Ht Hc Hnull Hr')
    as (s' & Erel & Ex' & Ey' & Hb' & Ha' & Ht' & Hc' & Hnull' & Hr'' & Hdom & Hkeep).
  exists s'. split; [|split; [|split; [done|]]].
  3: { intros k Hkn. apply Hkeep. intros Hin. apply Hkn. rewrite plug_locs, locs_node. change (path_locs (InR t y vy :: c)) with (y :: locs t ++ path_locs c). by rewrite HP. }
  - unfold rotate. eapply bind_load; [exact Ex|]. cbn [mParent mRight mLeft]. eapply bind_load; [exact Ey|]. cbn [mLeft mRight].
    rewrite (proj2 (N.eqb_neq _ _)), N.eqb_refl by done. cbn [check].
    eapply bind_run; [|eapply (rotate_tail (set_left y) (set_right (root_of a)) s x y (root_of a) (parent_of c)); try done; eauto].
    rewrite bind_ret. eapply bind_modify; [exact Ey|]. eapply bind_modify_if; [|destruct (at_root _ _ _ Ha) as [?|?]; [by left|right]|].
    + cbn. by rewrite lookup_alter_ne.
    + cbn. by rewrite lookup_alter_ne.
    + eapply run_modify. cbn. rewrite !lookup_alter_ne by done. exact Ex.
  - apply rep_join; try done. rewrite locs_node. eapply NoDup_Permutation_proper; [|exact HN]. solve_Permutation.
Qed.

(** ** Splaying *)

(** The new subtrees of a node with subtrees [a] and [b] that passes its parent, and that
    passes its parent and grandparent. *)
Definition pass (f : frame) (a b : tree) : tree * tree :=
  match f with InL y vy t => (a, Node b y vy t) | InR t y vy => (Node t y vy a, b) end.
Definition pass2 (f g : frame) (a b : tree) : tree * tree :=
  match f, g with
  | InL y vy t, InL z vz t' => (a, Node b y vy (Node t z vz t'))
  | InR t y vy, InR t' z vz => (Node (Node t' z vz t) y vy a, b)
  | _, _ => let '(a, b) := pass f a b in pass g a b
  end.
Fixpoint splay_up (c : list frame) (a : tree) (x : loc) (v : T) (b : tree) : tree :=
  match c with
  | [] => Node a x v b
  | [f] => let '(a, b) := pass f a b in Node a x v b
  | f :: g :: c => let '(a, b) := pass2 f g a b in splay_up c a x v b
  end.

Fixpoint lefts (c : list frame) : list (loc * T) :=
  match c with [] => [] | InL _ _ _ :: c => lefts c | InR l x v :: c => lefts c ++ entries l ++ [(x, v)] end.
Fixpoint rights (c : list frame) : list (loc * T) :=
  match c with [] => [] | InL x v r :: c => (x, v) :: entries r ++ rights c | InR _ _ _ :: c => rights c end.
Lemma entries_plug c : forall t, entries (plug c t) = lefts c ++ entries t ++ rights c.
Proof.
  induction c as [|f c IH]; intros t; cbn [plug]; [by rewrite app_nil_r|]. rewrite IH. destruct f; cbn [fill entries lefts rights]; by rewrite <- !app_assoc.
Qed.
Lemma entries_splay_up n : forall c a x v b, (length c <= n)%nat -> entries (splay_up c a x v b) = entries (plug c (Node a x v b)).
Proof.
  induction n as [|n IH]; intros c a x v b Hn; (destruct c as [|f [|g c]]; [done| |]); cbn [length] in Hn; try lia.
  - rewrite entries_plug. destruct f; cbn; by rewrite <- ?app_assoc, ?app_nil_r.
  - assert (entries (splay_up (f :: g :: c) a x v b) = let '(a', b') := pass2 f g a b in entries (splay_up c a' x v b')) as -> by (cbn [splay_up]; by destruct (pass2 f g a b)).
    destruct f, g; cbn [pass2 pass]; rewrite IH by lia; cbn [plug]; rewrite !entries_plug; cbn [fill entries]; do 4 (rewrite <- ?app_assoc; cbn [app]); done.
Qed.
Lemma root_splay_up n : forall c a x v b, (length c <= n)%nat -> exists a' b', splay_up c a x v b = Node a' x v b'.
Proof.
  induction n as [|n IH]; intros c a x v b Hn; (destruct c as [|f [|g c]]; [by do 2 eexists| |]); cbn [length] in Hn; try lia.
  - cbn. destruct (pass f a b). by do 2 eexists.
  - cbn [splay_up]. destruct (pass2 f g a b). apply IH. lia.
Qed.

Lemma path_root_in c h : c <> [] -> path_root c h ∈ path_locs c.
Proof.
  intros Hc. unfold path_root. destruct (last c) as [f|] eqn:E; [|by apply last_None in E]. apply last_Some_elem_of in E.
  unfold path_locs. apply list_elem_of_bind. exists f. split; [destruct f; cbn; set_solver|done].
Qed.
(** A node on the path as the focus. *)
Lemma focus_up f c t : plug (f :: c) t = plug c (fill f t).
Proof. done. Qed.

Lemma rep_parent s f c a x v b : rep s (plug (f :: c) (Node a x v b)) -> exists n p,
  mNodes s !! x = Some n /\ mParent n = frame_loc f /\ mNodes s !! frame_loc f = Some p /\ mParent p = parent_of c /\
  x <> frame_loc f /\ (mLeft p =? x)%N = match f with InL _ _ _ => true | InR _ _ _ => false end /\
  mRoot s = path_root c (frame_loc f) /\ mRoot s <> x /\ x <> nullptr.
Proof.
  intros R. pose proof (rep_null _ _ R) as Hnull. destruct (rep_split _ _ _ _ _ _ R) as (Hp & (Ex & Ha & Hb) & HN & Hn & Hr).
  assert (x ∉ path_locs (f :: c)) as Hxp.
  { apply NoDup_app in HN as (_ & HN & _). intros Hin. apply (HN x Hin). set_solver. }
  assert (x <> nullptr) as Hxn by (intros ->; apply Hn; set_solver).
  assert (mRoot s = path_root c (frame_loc f)) as Hr' by (rewrite Hr; unfold path_root; rewrite last_cons; by destruct (last c)).
  pose proof (frame_loc_in f c) as Hfin.
  assert (mRoot s <> x) as Hrx.
  { rewrite Hr. intros E. apply Hxp. rewrite <- E at 1. by apply path_root_in. }
  destruct f as [y vy t|t y vy]; cbn [path_at frame_loc parent_of] in *; destruct Hp as (Ey & Ht & Hc); do 2 eexists;
    (split; [exact Ex|]); (split; [done|]); (split; [exact Ey|]); (split; [done|]); (split; [by intros ->|]); cbn [mLeft]; (split; [|done]).
  - by rewrite N.eqb_refl.
  - apply N.eqb_neq. apply root_not; [done|]. intros Hin. apply Hxp. cbn. unfold path_locs. cbn. set_solver.
Qed.

Ltac entries_tac := rewrite !entries_plug; cbn [fill entries lefts rights]; do 4 (rewrite <- ?app_assoc; cbn [app]); done.

Lemma splay_round_ok s c a x v b : rep s (plug c (Node a x v b)) ->
  match c with
  | [] => splay_round x s = Some (false, s)
  | [f] => exists s', splay_round x s = Some (false, s') /\ rep s' (splay_up [f] a x v b) /\ keeps s s' (plug [f] (Node a x v b))
  | f :: g :: c => exists s', splay_round x s = Some (true, s') /\
      rep s' (let '(a, b) := pass2 f g a b in plug c (Node a x v b)) /\ keeps s s' (plug (f :: g :: c) (Node a x v b))
  end.
Proof.
  intros R. unfold splay_round. destruct c as [|f c].
  { eapply bind_reads; [done|]. rewrite (rep_root _ _ R). cbn. by rewrite N.eqb_refl. }
  destruct (rep_parent _ _ _ _ _ _ _ R) as (n & p & Ex & Epn & Ey & Epp & Hxy & Hl & Hr & Hrx & Hxn).
  assert (exists s', rotate x s = Some (tt, s') /\ rep s' (plug c (let '(a, b) := pass f a b in Node a x v b)) /\ keeps s s' (plug (f :: c) (Node a x v b))) as Hrot.
  { destruct f; cbn [pass]; [by apply rotate_left_ok|by apply rotate_right_ok]. }
  destruct c as [|g c].
  - destruct Hrot as (s' & Erot & R' & Hdom). exists s'. split; [|done].
    eapply bind_reads; [done|]. rewrite (proj2 (N.eqb_neq _ _)) by done. eapply bind_load; [exact Ex|]. rewrite Epn, Hr. cbn [path_root last]. rewrite N.eqb_refl.
    eapply bind_run; [exact Erot|]. eapply bind_reads; [done|]. rewrite (rep_root _ _ R'). cbn [plug]. destruct (pass f a b). cbn. by rewrite N.eqb_refl.
  - assert (exists pa pb, fill f (Node a x v b) = Node pa (frame_loc f) (match f with InL _ vy _ => vy | InR _ _ vy => vy end) pb) as (pa & pb & Efill) by (destruct f; by do 2 eexists).
    pose proof R as R2. rewrite focus_up, Efill in R2.
    destruct (rep_parent _ _ _ _ _ _ _ R2) as (n2 & g' & Ey' & Epn2 & Ez & _ & _ & Hlg & _ & Hry & _). rewrite Ey in Ey'. injection Ey' as <-.
    assert (exists s', (if Bool.eqb (mLeft p =? x)%N (mLeft g' =? frame_loc f)%N then _ ← rotate (frame_loc f); rotate x else _ ← rotate x; rotate x) s = Some (tt, s') /\
      rep s' (let '(a, b) := pass2 f g a b in plug c (Node a x v b)) /\ keeps s s' (plug (f :: g :: c) (Node a x v b))) as (s' & Erot & R' & Hdom).
    + rewrite Hl, Hlg. clear - R Hrot. destruct f as [y vy t|t y vy], g as [z vz t'|t' z vz]; cbn [Bool.eqb frame_loc pass2 pass] in *.
      * destruct (rotate_left_ok s c _ _ _ _ _ _ _ R) as (s1 & E1 & R1 & D1).
        destruct (rotate_left_ok s1 c a x v b y vy (Node t z vz t') R1) as (s2 & E2 & R2 & D2).
        exists s2. split; [by eapply bind_run|]. split; [done|eapply keeps_trans; [done|done|entries_tac]].
      * destruct Hrot as (s1 & E1 & R1 & D1). destruct (rotate_right_ok _ _ _ _ _ _ _ _ _ R1) as (s2 & E2 & R2 & D2).
        exists s2. split; [by eapply bind_run|]. split; [done|eapply keeps_trans; [done|done|entries_tac]].
      * destruct Hrot as (s1 & E1 & R1 & D1). destruct (rotate_left_ok _ _ _ _ _ _ _ _ _ R1) as (s2 & E2 & R2 & D2).
        exists s2. split; [by eapply bind_run|]. split; [done|eapply keeps_trans; [done|done|entries_tac]].
      * destruct (rotate_right_ok s c _ _ _ _ _ _ _ R) as (s1 & E1 & R1 & D1).
        destruct (rotate_right_ok s1 c a x v b (Node t' z vz t) y vy R1) as (s2 & E2 & R2 & D2).
        exists s2. split; [by eapply bind_run|]. split; [done|eapply keeps_trans; [done|done|entries_tac]].
    + exists s'. split; [|done]. eapply bind_reads; [done|]. rewrite (proj2 (N.eqb_neq x _)) by done. eapply bind_load; [exact Ex|]. rewrite Epn.
      rewrite (proj2 (N.eqb_neq (frame_loc f) _)) by done. eapply bind_load; [exact Ey|]. rewrite Epn2. eapply bind_load; [exact Ez|].
      eapply bind_run; [exact Erot|done].
Qed.

Lemma splay_loop_ok n : forall fuel s c a x v b, (length c <= n)%nat -> rep s (plug c (Node a x v b)) -> (length c < fuel)%nat ->
  exists s', splay_loop fuel x s = Some (tt, s') /\ rep s' (splay_up c a x v b) /\ keeps s s' (plug c (Node a x v b)).
Proof.
  induction n as [|n IH]; intros fuel s c a x v b Hn R Hf; (destruct fuel as [|fuel]; [lia|]); cbn [splay_loop];
    pose proof (splay_round_ok s c a x v b R) as Hr; (destruct c as [|f [|g c]]; cbn [length] in Hn, Hf; try lia).
  - exists s. split; [by eapply bind_run|done].
  - exists s. split; [by eapply bind_run|done].
  - destruct Hr as (s' & E & R' & D). exists s'. split; [by eapply bind_run|done].
  - destruct Hr as (s' & E & R' & D). destruct (pass2 f g a b) as [a' b'] eqn:Ep.
    destruct (IH fuel s' c a' x v b') as (s2 & E2 & R2 & D2); [lia|done|lia|]. exists s2. split; [by eapply bind_run|].
    cbn [splay_up]. rewrite Ep. split; [done|]. eapply keeps_trans; [done|done|].
    rewrite <- !(entries_splay_up (length (f :: g :: c))) by (cbn; lia). cbn [splay_up]. by rewrite Ep.
Qed.

Lemma tree_size s t : rep s t -> (length (locs t) <= size (mNodes s))%nat.
Proof.
  intros [Ha HN _ _]. rewrite <- (size_list_to_set (C:=gset loc)) by done. rewrite <- size_dom. apply subseteq_size.
  intros k Hk%elem_of_list_to_set. apply elem_of_dom. by eapply at_alloc.
Qed.
Lemma path_length c : (length c <= length (path_locs c))%nat.
Proof.
  induction c as [|f c IH]; [done|]. unfold path_locs in *. cbn [mbind list_bind length]. rewrite length_app. destruct f; cbn; lia.
Qed.
Lemma path_rounds s c t : rep s (plug c t) -> (length c < rounds s)%nat.
Proof.
  intros R. apply tree_size in R. rewrite plug_locs, length_app in R. pose proof (path_length c). unfold rounds. lia.
Qed.
Lemma splay_ok s c a x v b : rep s (plug c (Node a x v b)) ->
  exists s', splay x s = Some (tt, s') /\ rep s' (splay_up c a x v b) /\ keeps s s' (plug c (Node a x v b)).
Proof.
  intros R. destruct (splay_loop_ok (length c) (rounds s) s c a x v b) as (s' & E & R' & D); [done|done|by eapply path_rounds|].
  exists s'. split; [|done]. unfold splay. destruct (rep_split _ _ _ _ _ _ R) as (_ & _ & _ & Hn & _).
  rewrite (proj2 (N.eqb_neq x nullptr)) by (intros ->; apply Hn; set_solver). cbn [negb check]. rewrite bind_ret. by eapply bind_reads.
Qed.

(** ** Removing a node *)

Lemma cut_out_ok s f c a x v b t : rep s (plug (f :: c) (Node a x v b)) -> (t = a /\ b = Leaf) \/ (a = Leaf /\ t = b) ->
  exists s', cut_out x (root_of t) s = Some (tt, s') /\ rep s' (plug (f :: c) t) /\ mNodes s' !! x = mNodes s !! x /\
    x ∉ locs (plug (f :: c) t) /\ x <> nullptr /\ dom (mNodes s') = dom (mNodes s).
Proof.
  intros R Hab. pose proof (rep_null _ _ R) as Hnull.
  destruct (rep_parent _ _ _ _ _ _ _ R) as (n & p & Ex & Epn & Ey & Epp & Hxy & Hl & Hr & Hrx & Hxn).
  destruct (rep_split _ _ _ _ _ _ R) as (Hp & (Ex2 & Ha & Hb) & HN & Hn & Hr2).
  assert (locs a ++ x :: locs b ≡ₚ x :: locs t) as HP.
  { destruct Hab as [[-> ->]|[-> ->]]; [|done]. change (locs Leaf) with (@nil loc). solve_Permutation. }
  rewrite HP in HN, Hn. assert (at_ (mNodes s) x t) as Ht by (destruct Hab as [[-> _]|[_ ->]]; done).
  apply NoDup_app in HN as (HNc & HNct & HNt). apply NoDup_cons in HNt as [Hxt HNt].
  set (y := frame_loc f) in *. set (m' := alter (set_parent y) (root_of t) (alter (set_child f (root_of t)) y (mNodes s))).
  assert (y ∈ path_locs (f :: c)) as Hyin by apply frame_loc_in.
  assert (y ∉ locs t /\ y <> nullptr /\ nullptr ∉ locs t) as (Hyt & Hyn & Hnt).
  { split_and!; [intros Hin; apply (HNct y Hyin); set_solver|intros E; apply Hn; rewrite <- E; set_solver|intros Hin; apply Hn; set_solver]. }
  assert (root_of t <> y /\ root_of t <> x) as [Hty Htx] by (by split; apply root_not).
  assert (forall k, k <> y -> k <> root_of t -> m' !! k = mNodes s !! k) as Hk.
  { intros k H1 H2. unfold m'. by rewrite !lookup_alter_ne. }
  assert (forall k, k ∈ path_locs (f :: c) -> k <> root_of t) as Hkt.
  { intros k Hin ->. destruct (root_of_in t) as [E|E]; [rewrite E in Hin; set_solver|]. apply (HNct _ Hin). set_solver. }
  assert (dom m' = dom (mNodes s)) as Hdom by (unfold m'; by rewrite !dom_alter_L).
  exists {| mNodes := m'; mRoot := mRoot s |}. split; [|split; [|split; [|split; [|split; [done|done]]]]].
  - unfold cut_out. eapply bind_load; [exact Ex|]. rewrite Epn. eapply bind_load; [exact Ey|]. rewrite N.eqb_sym, Hl.
    eapply bind_run; [instantiate (1 := with_nodes (alter (set_child f (root_of t)) y) s); by destruct f; eapply run_modify|].
    rewrite run_modify_if; [done|cbn; by rewrite lookup_alter_ne|].
    destruct (at_root _ _ _ Ht) as [?|?]; [by left|right]. cbn. by rewrite lookup_alter_ne.
  - assert (path_at m' (f :: c) (root_of t)) as Hp'.
    { eapply path_set_child; [exact Hp|done|unfold m'; fold y; by rewrite lookup_alter_ne, lookup_alter_eq|]. intros k Hin Hky. apply Hk; [done|by apply Hkt]. }
    constructor; cbn [mNodes mRoot].
    + apply at_plug. split; [done|]. eapply at_reparent; [done|exact Ht| |].
      * intros k Hin Hkr. apply Hk; [by intros ->|done].
      * intros _. unfold m'. by rewrite lookup_alter_eq, lookup_alter_ne.
    + rewrite plug_locs. apply NoDup_app. split; [done|]. split; [|done]. intros k Hin Hin'. apply (HNct k Hin). set_solver.
    + destruct (decide (root_of t = nullptr)) as [E|E]; [|by rewrite Hk].
      unfold m'. rewrite E, lookup_alter_eq, lookup_alter_ne, Hnull by done. done.
    + rewrite plug_root, Hr2. apply path_root_swap.
  - cbn. by rewrite Hk.
  - rewrite plug_locs. intros [Hin|Hin]%elem_of_app; [|done]. apply (HNct x Hin). set_solver.
Qed.

Lemma take_root_ok s l y w r x nd : rep s (Node l y w r) -> x ∉ locs (Node l y w r) -> x <> nullptr -> mNodes s !! x = Some nd ->
  exists s', take_root y x s = Some (tt, s') /\ rep s' (Node l x (value nd) r) /\ mNodes s' !! y = mNodes s !! y.
Proof.
  intros R Hx Hxn Ex. pose proof (rep_null _ _ R) as Hnull. destruct (rep_split _ [] _ _ _ _ R) as (_ & (Ey & Hl & Hr) & HN & Hn & _).
  cbn [path_locs mbind list_bind app] in HN, Hn. rewrite locs_node in Hx.
  apply NoDup_app in HN as (HNl & HNlr & HNr). apply NoDup_cons in HNr as [Hyr HNr].
  assert (x <> y /\ x ∉ locs l /\ x ∉ locs r /\ y ∉ locs l /\ (forall k, k ∈ locs l -> k ∉ locs r) /\ nullptr ∉ locs l /\ nullptr ∉ locs r)
    as (Hxy & Hxl & Hxr & Hyl & Hlr & Hnl & Hnr).
  { rewrite elem_of_app, elem_of_cons in Hx, Hn. split_and!; try tauto.
    - intros Hin. apply (HNlr y Hin). by left.
    - intros k Hin Hin'. apply (HNlr k Hin). by right. }
  assert (root_of l <> x /\ root_of r <> x) as [Hlx Hrx] by (by split; apply root_not).
  assert (root_of l = nullptr \/ root_of r <> root_of l) as Hlr2.
  { destruct (root_of_in l) as [?|Hin]; [by left|right]. intros E. destruct (root_of_in r) as [E'|Hin']; [rewrite <- E, E' in Hin; done|]. rewrite E in Hin'. by apply (Hlr _ Hin). }
  set (m' := alter (set_parent x) (root_of r) (alter (set_parent x) (root_of l) (alter (set_right (root_of r)) x (alter (set_left (root_of l)) x (alter (set_parent nullptr) x (mNodes s)))))).
  assert (forall k, k <> x -> k <> root_of l -> k <> root_of r -> m' !! k = mNodes s !! k) as Hk.
  { intros k H1 H2 H3. unfold m'. by rewrite !lookup_alter_ne. }
  exists {| mNodes := m'; mRoot := x |}. split; [|split; [constructor; cbn [mNodes mRoot]|cbn; apply Hk; [done|apply not_eq_sym, root_not; [|done]..]]].
  6, 7: intros E; rewrite E in Ey; congruence.
  - unfold take_root. eapply bind_update; [done|]. eapply bind_modify; [cbn; exact Ex|].
    eapply bind_load; [cbn; rewrite lookup_alter_ne by done; exact Ey|]. cbn [mLeft]. eapply bind_modify; [cbn; rewrite lookup_alter_eq, Ex; done|].
    eapply bind_load; [cbn; rewrite !lookup_alter_ne by done; exact Ey|]. cbn [mRight].
    eapply bind_modify; [cbn; rewrite !lookup_alter_eq, Ex; done|].
    eapply bind_load; [cbn; rewrite !lookup_alter_eq, Ex; done|]. cbn [set_left set_right set_parent mLeft mRight].
    eapply bind_modify_if; [cbn; by rewrite !lookup_alter_ne|destruct (at_root _ _ _ Hl) as [?|?]; [by left|right; cbn; by rewrite !lookup_alter_ne]|].
    eapply bind_load; [cbn; rewrite lookup_alter_ne, !lookup_alter_eq, Ex by done; done|]. cbn [set_left set_right set_parent mLeft mRight].
    rewrite run_modify_if; [done| |].
    + cbn. destruct (decide (root_of l = nullptr)) as [E|E]; [rewrite E, lookup_alter_eq|rewrite lookup_alter_ne by done]; by rewrite !lookup_alter_ne, Hnull.
    + destruct (at_root _ _ _ Hr) as [?|Hs]; [by left|right]. cbn. rewrite lookup_alter. case_decide as E; [rewrite ?E; apply fmap_is_Some|]; by rewrite !lookup_alter_ne.
  - cbn [at_]. split; [|split].
    + unfold m'. rewrite 2!lookup_alter_ne, !lookup_alter_eq, Ex by done. done.
    + eapply at_reparent; [done|exact Hl| |].
      * intros k Hin Hkr. apply Hk; [by intros ->|done|]. intros ->. destruct (root_of_in r) as [E|?]; [rewrite E in Hin; done|]. by apply (Hlr _ Hin).
      * intros Hin. unfold m'. rewrite lookup_alter_ne, lookup_alter_eq, !lookup_alter_ne; try done. destruct Hlr2 as [E|]; [|done]. rewrite E in Hin. done.
    + eapply at_reparent; [done|exact Hr| |].
      * intros k Hin Hkr. apply Hk; [by intros ->| |done]. intros ->. destruct (root_of_in l) as [E|?]; [rewrite E in Hin; done|]. by apply (Hlr (root_of l)).
      * intros Hin. unfold m'. rewrite lookup_alter_eq, lookup_alter_ne, !lookup_alter_ne; try done. destruct Hlr2 as [E|]; [|done]. rewrite E. intros E'. by rewrite <- E' in Hin.
  - rewrite locs_node. apply NoDup_app. split; [done|]. split; [|by apply NoDup_cons]. intros k Hin [->|Hin']%elem_of_cons; [done|]. by apply (Hlr k).
  - apply not_elem_of_dom. unfold m'. rewrite !dom_alter_L. by apply not_elem_of_dom.
  - done.
Qed.

Lemma plug_app d c t : plug (d ++ c) t = plug c (plug d t).
Proof. revert t. induction d as [|f d IH]; intros t; [done|]. apply IH. Qed.
Lemma rights_app d c : rights (d ++ c) = rights d ++ rights c.
Proof. induction d as [|[y w r|l y w] d IH]; cbn; [done| |done]. by rewrite IH, <- app_assoc. Qed.
Lemma lefts_app d c : lefts (d ++ c) = lefts c ++ lefts d.
Proof. induction d as [|[y w r|l y w] d IH]; cbn; [by rewrite app_nil_r|done|]. by rewrite IH, <- app_assoc. Qed.

#[export] Instance tree_eq_leaf (t : tree) : Decision (t = Leaf).
Proof. destruct t; [by left|by right]. Defined.
Lemma rightmost_ok s t : forall fuel p, at_ (mNodes s) p t -> t <> Leaf -> nullptr ∉ locs t -> (length (locs t) <= fuel)%nat ->
  exists d l x v, t = plug d (Node l x v Leaf) /\ rights d = [] /\ rightmost fuel (root_of t) s = Some (x, s).
Proof.
  induction t as [|l _ x v r IH]; intros fuel p Ht Hne Hn Hf; [done|]. destruct Ht as (E & _ & Hr). rewrite locs_node, length_app in Hf. cbn [length] in Hf.
  destruct fuel as [|fuel]; [lia|]. cbn [root_of rightmost]. rewrite locs_node, elem_of_app, elem_of_cons in Hn. destruct (decide (r = Leaf)) as [->|Hnl].
  - exists [], l, x, v. split; [done|]. split; [done|]. by eapply bind_load.
  - destruct (IH fuel x Hr) as (d & l' & x' & v' & Et & Ed & Er); [done|tauto|lia|].
    exists (d ++ [InR l x v]), l', x', v'. rewrite plug_app, rights_app, Ed, <- Et. split; [done|]. split; [done|].
    eapply bind_load; [exact E|]. cbn [mRight]. rewrite (proj2 (N.eqb_neq (root_of r) nullptr)); [exact Er|].
    destruct r; [done|]. intros E'. cbn in E'. subst. rewrite locs_node in Hn. set_solver.
Qed.
Lemma leftmost_ok s t : forall fuel p, at_ (mNodes s) p t -> t <> Leaf -> nullptr ∉ locs t -> (length (locs t) <= fuel)%nat ->
  exists d x v r, t = plug d (Node Leaf x v r) /\ lefts d = [] /\ leftmost fuel (root_of t) s = Some (x, s).
Proof.
  induction t as [|l IH x v r _]; intros fuel p Ht Hne Hn Hf; [done|]. destruct Ht as (E & Hl & _). rewrite locs_node, length_app in Hf. cbn [length] in Hf.
  destruct fuel as [|fuel]; [lia|]. cbn [root_of leftmost]. rewrite locs_node, elem_of_app, elem_of_cons in Hn. destruct (decide (l = Leaf)) as [->|Hnl].
  - exists [], x, v, r. split; [done|]. split; [done|]. by eapply bind_load.
  - destruct (IH fuel x Hl) as (d & x' & v' & r' & Et & Ed & Er); [done|tauto|lia|].
    exists (d ++ [InL x v r]), x', v', r'. rewrite plug_app, lefts_app, Ed, <- Et. split; [done|]. split; [done|].
    eapply bind_load; [exact E|]. cbn [mLeft]. rewrite (proj2 (N.eqb_neq (root_of l) nullptr)); [exact Er|].
    destruct l; [done|]. intros E'. cbn in E'. subst. rewrite locs_node in Hn. set_solver.
Qed.
End proofs.
Arguments tree : clear implicits.
Arguments frame : clear implicits.
Arguments Leaf {T}.
Arguments Node {T} l x v r.
Arguments InL {T} x v r.
Arguments InR {T} l x v.
