(* ===== verification/SplayTreeSet.v ===== *)
(** * SplayTreeSet: the splay tree of [src/util/splay_tree.h] as a sorted set

    Searching follows the order of the elements; every operation acts on the sorted
    list of the elements as its name says, and the promise of the class is the
    refinement of that list. *)

From Stdlib Require Import Sorting.Sorted.
From S2P Require Import Prelude Store Order SplayTree SplayTreeMemory.
#[local] Open Scope Z_scope.

Section proofs.
Context {T : Type}.
Implicit Types (s : SplayTree T) (t : tree T) (c : list (frame T)).

(** ** The order *)

Section order.
Context (compare : T -> T -> Z) `{!Comparator compare}.

Definition keys (t : tree T) : list T := (entries t).*2.
Definition sorted (l : list T) : Prop := StronglySorted (fun a b => compare a b < 0) l.

Definition lkeys (c : list (frame T)) : list T := (lefts c).*2.
Definition rkeys (c : list (frame T)) : list T := (rights c).*2.
Lemma keys_plug c t : keys (plug c t) = lkeys c ++ keys t ++ rkeys c.
Proof. unfold keys. by rewrite entries_plug, !fmap_app. Qed.
Lemma keys_node l x v r : keys (Node l x v r) = keys l ++ v :: keys r.
Proof. unfold keys. cbn. by rewrite fmap_app. Qed.

(** The search for [k] went this way. *)
Definition between (c : list (frame T)) (k : T) : Prop := (forall y, y ∈ lkeys c -> compare y k < 0) /\ (forall y, y ∈ rkeys c -> compare k y < 0).

Lemma sorted_parts u v : sorted (u ++ v) -> sorted u /\ sorted v /\ forall x y, x ∈ u -> y ∈ v -> compare x y < 0.
Proof.
  unfold sorted. induction u as [|x u IH]; cbn; intros HS; [split_and!; [constructor|done|set_solver]|].
  apply sorted_cons in HS as [HS Hx]. destruct (IH HS) as (H1 & H2 & H3). split_and!; [|done|].
  - apply sorted_cons. split; [done|]. intros y Hy. apply Hx. set_solver.
  - intros a b [->|Ha]%elem_of_cons Hb; [apply Hx; set_solver|by apply H3].
Qed.

Lemma lookup_loop_ok s k t : forall fuel c, rep s (plug c t) -> t <> Leaf -> sorted (keys (plug c t)) -> between c k -> (length (locs t) <= fuel)%nat ->
  exists c' a y w b, plug c' (Node a y w b) = plug c t /\ lookup_loop compare fuel k (root_of t) s = Some (y, s) /\ between c' k /\
    (compare k w = 0 \/ (compare k w < 0 /\ a = Leaf) \/ (0 < compare k w /\ b = Leaf)).
Proof.
  induction t as [|l IHl x v r IHr]; intros fuel c R Hne HS Hb Hf; [done|]. rewrite locs_node, length_app in Hf. cbn [length] in Hf.
  destruct fuel as [|fuel]; [lia|]. destruct (rep_split _ _ _ _ _ _ R) as (_ & (Ex & _) & _ & Hn & _).
  assert (root_of l = nullptr -> l = Leaf) as Hl0 by (destruct l; [done|]; cbn; intros ->; rewrite locs_node in Hn; set_solver).
  assert (root_of r = nullptr -> r = Leaf) as Hr0 by (destruct r; [done|]; cbn; intros ->; rewrite locs_node in Hn; set_solver).
  cbn [root_of lookup_loop]. destruct (Z.eqb_spec (compare k v) 0) as [E|E].
  { exists c, l, x, v, r. split; [done|]. split; [eapply bind_load; [exact Ex|]; cbn [value]; by rewrite (proj2 (Z.eqb_eq _ _))|]. split; [done|by left]. }
  pose proof HS as HS'. rewrite keys_plug, keys_node in HS'. apply sorted_parts in HS' as (_ & HS' & _).
  apply sorted_parts in HS' as (HS' & _ & Hvr). apply sorted_parts in HS' as (_ & HS2 & Hlv). destruct (Z.ltb_spec (compare k v) 0) as [Hlt|Hge].
  - destruct (decide (l = Leaf)) as [->|Hnl].
    + exists c, Leaf, x, v, r. split; [done|]. split; [|split; [done|right; left; done]]. eapply bind_load; [exact Ex|]. cbn [value mLeft].
      rewrite (proj2 (Z.eqb_neq _ _)), (proj2 (Z.ltb_lt _ _)) by done. done.
    + destruct (IHl fuel (InL x v r :: c)) as (c' & a & y & w & b & Ep & El & Hres); [done|done|done| |lia|].
      { destruct Hb as [Hb1 Hb2]. split; [done|]. unfold rkeys. cbn [rights]. rewrite fmap_cons, fmap_app. intros y [->|[Hy|Hy]%elem_of_app]%elem_of_cons; [done| |by apply Hb2].
        eapply compare_trans; [done|]. apply sorted_cons in HS2 as [_ HS2]. by apply HS2. }
      exists c', a, y, w, b. split; [done|]. split; [|done]. eapply bind_load; [exact Ex|]. cbn [value mLeft].
      rewrite (proj2 (Z.eqb_neq _ _)), (proj2 (Z.ltb_lt _ _)), (proj2 (N.eqb_neq _ _)); [done|auto|done|done].
  - assert (0 < compare k v) as Hgt by lia. destruct (decide (r = Leaf)) as [->|Hnr].
    + exists c, l, x, v, Leaf. split; [done|]. split; [|split; [done|right; right; done]]. eapply bind_load; [exact Ex|]. cbn [value mRight].
      rewrite (proj2 (Z.eqb_neq _ _)), (proj2 (Z.ltb_ge _ _)) by done. done.
    + destruct (IHr fuel (InR l x v :: c)) as (c' & a & y & w & b & Ep & El & Hres); [done|done|done| |lia|].
      { destruct Hb as [Hb1 Hb2]. split; [|done]. unfold lkeys. cbn [lefts]. rewrite !fmap_app. apply compare_sym in Hgt.
        intros y [Hy|[Hy|Hy]%elem_of_app]%elem_of_app; [by apply Hb1| |].
        - eapply compare_trans; [|exact Hgt]. apply (Hlv y v); [done|set_solver].
        - apply list_elem_of_singleton in Hy as ->. done. }
      exists c', a, y, w, b. split; [done|]. split; [|done]. eapply bind_load; [exact Ex|]. cbn [value mRight].
      rewrite (proj2 (Z.eqb_neq _ _)), (proj2 (Z.ltb_ge _ _)), (proj2 (N.eqb_neq _ _)); [done|auto|done|done].
Qed.

Lemma root_leaf s t : rep s t -> mRoot s = nullptr -> t = Leaf.
Proof.
  intros [Ha HN Hn Hr] E. destruct t as [|l x v r]; [done|]. cbn in Hr. rewrite E in Hr. subst x. destruct Ha as (Ex & _). congruence.
Qed.
Lemma rounds_locs s t : rep s t -> (length (locs t) <= rounds s)%nat.
Proof. intros R%tree_size. unfold rounds. lia. Qed.

Lemma lookup_ok s k t : rep s t -> t <> Leaf -> sorted (keys t) ->
  exists c a y w b, plug c (Node a y w b) = t /\ lookup compare k s = Some (y, s) /\ between c k /\
    (compare k w = 0 \/ (compare k w < 0 /\ a = Leaf) \/ (0 < compare k w /\ b = Leaf)).
Proof.
  intros R Hne HS. destruct (lookup_loop_ok s k t (rounds s) []) as (c & a & y & w & b & Ep & El & Hb & Hw); try done; [split; set_solver|by apply rounds_locs|].
  exists c, a, y, w, b. split; [done|]. split; [|done]. unfold lookup. eapply bind_reads; [done|].
  rewrite (proj2 (N.eqb_neq _ _)) by (intros E; by apply Hne, (root_leaf s)). cbn [negb check]. rewrite bind_ret. eapply bind_reads; [done|].
  by rewrite (rep_root _ _ R).
Qed.

(** The last key on the way decides whether [k] is in the tree. *)
Definition present (k : T) (l : list T) : option T := List.find (fun y => compare k y =? 0) l.
Lemma present_split k u w v : (forall y, y ∈ u -> compare k y <> 0) -> compare k w = 0 -> present k (u ++ w :: v) = Some w.
Proof.
  intros Hu Hw. unfold present. induction u as [|y u IH]; cbn.
  - by rewrite (proj2 (Z.eqb_eq _ _)).
  - rewrite (proj2 (Z.eqb_neq _ _)) by (apply Hu; set_solver). apply IH. intros z Hz. apply Hu. set_solver.
Qed.
Lemma present_none k l : (forall y, y ∈ l -> compare k y <> 0) -> present k l = None.
Proof.
  intros Hl. unfold present. induction l as [|y l IH]; cbn; [done|]. rewrite (proj2 (Z.eqb_neq _ _)) by (apply Hl; set_solver).
  apply IH. intros z Hz. apply Hl. set_solver.
Qed.
Lemma lt_ne k y : compare y k < 0 -> compare k y <> 0.
Proof. intros H E. apply compare_eq_sym in E. lia. Qed.

Lemma found_keys c a y w b k : sorted (keys (plug c (Node a y w b))) -> between c k -> compare k w = 0 ->
  present k (keys (plug c (Node a y w b))) = Some w /\
  filter (fun z => compare k z <> 0) (keys (plug c (Node a y w b))) = lkeys c ++ keys a ++ keys b ++ rkeys c.
Proof.
  intros HS [Hb1 Hb2] Hw. rewrite keys_plug, keys_node in HS |- *. rewrite <- app_assoc in HS |- *. cbn [app] in HS |- *. rewrite app_assoc in HS |- *.
  pose proof HS as HS'. apply sorted_app in HS' as [Hu Hv].
  assert (forall z, z ∈ lkeys c ++ keys a -> compare k z <> 0) as Hu'.
  { intros z Hz. apply lt_ne. eapply compare_eq_r; [apply compare_eq_sym; exact Hw|by apply Hu]. }
  assert (forall z, z ∈ keys b ++ rkeys c -> compare k z <> 0) as Hv'.
  { intros z Hz. pose proof (compare_eq _ _ _ (compare_eq_sym _ _ Hw) (Hv z Hz)). lia. }
  split; [by apply present_split|]. rewrite filter_app, filter_cons, decide_False, (filter_keeps _ (lkeys c ++ keys a)), (filter_keeps _ (keys b ++ rkeys c)); try done; [by rewrite <- app_assoc|].
  intros Hn. by apply Hn.
Qed.
Lemma absent_ok c a y w b k : sorted (keys (plug c (Node a y w b))) -> between c k ->
  (compare k w < 0 /\ a = Leaf) \/ (0 < compare k w /\ b = Leaf) -> present k (keys (plug c (Node a y w b))) = None.
Proof.
  intros HS [Hb1 Hb2] Hw. rewrite keys_plug, keys_node in HS |- *. rewrite <- app_assoc in HS |- *. cbn [app] in HS |- *. rewrite app_assoc in HS |- *.
  apply sorted_app in HS as [Hu Hv]. apply present_none.
  assert (forall z, compare k z < 0 -> compare k z <> 0) as Hne by (intros; lia).
  destruct Hw as [[Hw ->]|[Hw ->]]; intros z [Hz|[->|Hz]%elem_of_cons]%elem_of_app.
  - change (keys Leaf) with (@nil T) in Hz. rewrite app_nil_r in Hz. by apply lt_ne, Hb1.
  - lia.
  - apply Hne. eapply compare_trans; [done|by apply Hv].
  - apply compare_sym in Hw. apply lt_ne. eapply compare_trans; [by apply Hu|done].
  - lia.
  - change (keys Leaf) with (@nil T) in Hz. by apply Hne, Hb2.
Qed.

(** ** The operations *)

Definition good s t : Prop := rep s t /\ sorted (keys t).
(** The address of the node with value [w], null for none. *)
Definition denotes s (r : loc) (w : option T) : Prop :=
  match w with None => r = nullptr | Some w => r <> nullptr /\ exists n, mNodes s !! r = Some n /\ value n = w end.

Lemma focus_node s c a x v b : rep s (plug c (Node a x v b)) ->
  mNodes s !! x = Some {| value := v; mLeft := root_of a; mRight := root_of b; mParent := parent_of c |} /\ x <> nullptr.
Proof.
  intros R. destruct (rep_split _ _ _ _ _ _ R) as (_ & (Ex & _) & _ & Hn & _). split; [done|]. intros ->. apply Hn. set_solver.
Qed.
Lemma splay_keys s c a x v b : good s (plug c (Node a x v b)) ->
  exists s' a' b', splay x s = Some (tt, s') /\ good s' (Node a' x v b') /\ keys (Node a' x v b') = keys (plug c (Node a x v b)) /\
    entries (Node a' x v b') = entries (plug c (Node a x v b)) /\ keeps s s' (plug c (Node a x v b)).
Proof.
  intros [R HS]. destruct (splay_ok s c a x v b R) as (s' & E & R' & D). destruct (root_splay_up (length c) c a x v b) as (a' & b' & Es); [done|].
  pose proof (entries_splay_up (length c) c a x v b ltac:(done)) as Ee. rewrite Es in R', Ee. exists s', a', b'.
  assert (keys (Node a' x v b') = keys (plug c (Node a x v b))) as Ek by (unfold keys; by rewrite Ee).
  split; [done|]. split; [split; [done|by rewrite Ek]|done].
Qed.

Lemma find_ok s t k : good s t -> exists r s' t', find compare k s = Some (r, s') /\ good s' t' /\ keys t' = keys t /\ entries t' = entries t /\
  denotes s' r (present k (keys t)) /\ keeps s s' t.
Proof.
  intros [R HS]. unfold find. destruct (decide (t = Leaf)) as [->|Hne].
  - exists nullptr, s, Leaf. split; [|done]. eapply bind_reads; [done|]. by rewrite (rep_root _ _ R).
  - destruct (lookup_ok s k t R Hne HS) as (c & a & y & w & b & <- & El & Hb & Hw).
    destruct (splay_keys s c a y w b ltac:(done)) as (s' & a' & b' & Es & [R' HS'] & Ek & Ee & D).
    destruct (focus_node s' [] _ _ _ _ R') as [Ey Hyn].
    exists (if compare k w =? 0 then y else nullptr), s', (Node a' y w b'). split; [|split; [done|split; [done|split; [done|split; [|done]]]]].
    + eapply bind_reads; [done|]. rewrite (proj2 (N.eqb_neq _ _)) by (intros E; by apply Hne, (root_leaf s)).
      eapply bind_run; [exact El|]. eapply bind_run; [exact Es|]. eapply bind_load; [exact Ey|]. done.
    + destruct (Z.eqb_spec (compare k w) 0) as [E|E].
      * destruct (found_keys c a y w b k HS Hb E) as [-> _]. cbn. split; [done|]. by eexists.
      * destruct Hw as [?|Hw]; [done|]. by rewrite (absent_ok c a y w b k HS Hb Hw).
Qed.

(** Linking a node below the last one on the way. *)
Lemma finishInsertion_ok s f c y cmp x k q : rep s (plug c (fill f Leaf)) -> y = frame_loc f ->
  (match f with InL _ _ _ => cmp < 0 | InR _ _ _ => 0 < cmp end) ->
  mNodes s !! x = Some {| value := k; mLeft := nullptr; mRight := nullptr; mParent := q |} -> x ∉ locs (plug c (fill f Leaf)) ->
  exists s' a b, finishInsertion y cmp x s = Some (x, s') /\ rep s' (Node a x k b) /\
    entries (Node a x k b) = entries (plug (f :: c) (Node Leaf x k Leaf)) /\ dom (mNodes s') = dom (mNodes s).
Proof.
  intros R -> Hcmp Ex Hx. pose proof (rep_null _ _ R) as Hnull. assert (x <> nullptr) as Hxn by (intros ->; congruence).
  change (plug c (fill f Leaf)) with (plug (f :: c) Leaf) in *. rewrite plug_locs in Hx. change (locs Leaf) with (@nil loc) in Hx. rewrite app_nil_r in Hx.
  pose proof R as [Ha HN _ Hr]. apply at_plug in Ha as [Hp _]. rewrite plug_locs in HN. change (locs Leaf) with (@nil loc) in HN. rewrite app_nil_r in HN.
  rewrite plug_root in Hr. pose proof (frame_loc_in f c) as Hfin. assert (x <> frame_loc f) as Hxf by (by intros ->).
  assert (exists l, mNodes s !! frame_loc f = Some l /\ (if (cmp <? 0)%Z then mLeft l else mRight l) = nullptr /\
    (if (cmp <? 0)%Z then set_left x else set_right x) = set_child f x) as (l & El & Echild & Eset).
  { destruct f as [z v r|l z v]; cbn [path_at frame_loc] in Hp |- *; destruct Hp as (E & _); (eexists; split; [exact E|]).
    - by rewrite (proj2 (Z.ltb_lt _ _)).
    - by rewrite (proj2 (Z.ltb_ge _ _)) by lia. }
  set (s1 := with_nodes (alter (set_parent (frame_loc f)) x) (with_nodes (alter (set_child f x) (frame_loc f)) s)).
  assert (forall k, k <> x -> k <> frame_loc f -> mNodes s1 !! k = mNodes s !! k) as Hk.
  { intros k' H1 H2. cbn. by rewrite !lookup_alter_ne. }
  assert (rep s1 (plug (f :: c) (Node Leaf x k Leaf))) as R1.
  { apply rep_join.
    - eapply path_set_child; [exact Hp|done| |].
      + cbn. by rewrite lookup_alter_ne, lookup_alter_eq.
      + intros k' Hin Hne. apply Hk; [by intros ->|done].
    - cbn [at_ parent_of]. split; [|done]. cbn. by rewrite lookup_alter_eq, lookup_alter_ne, Ex.
    - cbn [locs entries fmap list_fmap app]. change (locs Leaf) with (@nil loc). cbn [app]. apply NoDup_app. split; [done|]. split; [|by apply NoDup_singleton].
      intros k' Hin ->%list_elem_of_singleton. done.
    - rewrite Hk; [done|done|]. intros E. rewrite <- E in El. congruence.
    - cbn [mRoot s1 with_nodes]. rewrite Hr. apply path_root_swap. }
  destruct (splay_ok s1 (f :: c) Leaf x k Leaf R1) as (s' & Es & R' & D). destruct (root_splay_up (length (f :: c)) (f :: c) Leaf x k Leaf) as (a & b & Et); [done|].
  pose proof (entries_splay_up (length (f :: c)) (f :: c) Leaf x k Leaf ltac:(done)) as Ee. rewrite Et in R', Ee.
  exists s', a, b. split; [|split; [done|split; [done|]]].
  - unfold finishInsertion. rewrite (proj2 (Z.eqb_neq _ _)) by (destruct f; lia). cbn [negb check]. rewrite bind_ret. eapply bind_load; [exact El|].
    rewrite Echild. cbn [check N.eqb]. rewrite N.eqb_refl. cbn [check]. rewrite bind_ret, Eset. eapply bind_modify; [exact El|].
    eapply bind_modify; [cbn; rewrite lookup_alter_ne by done; exact Ex|]. eapply bind_run; [exact Es|done].
  - rewrite (proj1 D). cbn. by rewrite !dom_alter_L.
Qed.

(** The place of a new key. *)
Lemma place_ok c a y w b k : sorted (keys (plug c (Node a y w b))) -> between c k ->
  (compare k w < 0 /\ a = Leaf) \/ (0 < compare k w /\ b = Leaf) ->
  exists f, fill f Leaf = Node a y w b /\ frame_loc f = y /\ (match f with InL _ _ _ => compare k w < 0 | InR _ _ _ => 0 < compare k w end) /\
    forall x, keys (plug (f :: c) (Node Leaf x k Leaf)) = insert_key compare k (keys (plug c (Node a y w b))).
Proof.
  intros HS [Hb1 Hb2] Hw. rewrite keys_plug, keys_node in HS. apply sorted_parts in HS as (_ & HS & _). apply sorted_parts in HS as (HS & _ & Hwr). 
  assert (forall z, compare k z < 0 -> ~ compare z k < 0) as Hasym by (intros z Hz Hz'; apply (compare_irrefl z); by eapply compare_trans).
  destruct Hw as [[Hw ->]|[Hw ->]].
  - exists (InL y w b). split_and!; try done. intros x. cbn [plug fill]. rewrite !keys_plug, !keys_node. change (keys Leaf) with (@nil T). cbn [app].
    rewrite insert_key_split; [done|done|]. intros z [->|[Hz|Hz]%elem_of_app]%elem_of_cons; apply Hasym; [done| |by apply Hb2].
    eapply compare_trans; [done|]. apply sorted_cons in HS as [_ HS]. by apply HS.
  - exists (InR a y w). split_and!; try done. intros x. cbn [plug fill]. rewrite !keys_plug, !keys_node. change (keys Leaf) with (@nil T). cbn [app].
    rewrite <- !app_assoc. cbn [app]. apply compare_sym in Hw.
    rewrite (app_assoc (lkeys c)), (app_assoc (lkeys c)). replace ((lkeys c ++ keys a) ++ w :: k :: rkeys c) with (((lkeys c ++ keys a) ++ [w]) ++ k :: rkeys c) by (by rewrite <- !app_assoc).
    replace ((lkeys c ++ keys a) ++ w :: rkeys c) with (((lkeys c ++ keys a) ++ [w]) ++ rkeys c) by (by rewrite <- !app_assoc).
    rewrite insert_key_split; [done| |intros z Hz; by apply Hasym, Hb2].
    intros z [[Hz|Hz]%elem_of_app|Hz]%elem_of_app; [by apply Hb1| |by apply list_elem_of_singleton in Hz as ->].
    eapply compare_trans; [|exact Hw]. apply sorted_parts in HS as (_ & _ & HS). apply HS; [done|set_solver].
Qed.
Lemma insert_sorted k l : sorted l -> (forall y, y ∈ l -> compare k y <> 0) -> sorted (insert_key compare k l).
Proof.
  unfold sorted. induction l as [|x l IH]; cbn; intros HS Hk; [apply sorted_cons; split; [done|set_solver]|]. pose proof HS as HS0. apply sorted_cons in HS as [HS Hx].
  destruct (Z.ltb_spec (compare x k) 0) as [Hlt|Hge].
  - apply sorted_cons. split; [apply IH; [done|]; intros y Hy; apply Hk; set_solver|]. intros y Hy.
    assert (y = k \/ y ∈ l) as [->|Hy']; [|done|by apply Hx].
    clear -Hy. induction l as [|z l IH]; cbn in Hy; [set_solver|]. destruct (compare z k <? 0); set_solver.
  - assert (compare k x < 0) as Hlt.
    { specialize (Hk x ltac:(set_solver)). apply compare_sym. destruct (Z.eq_dec (compare x k) 0) as [E|]; [|lia]. by apply compare_eq_sym in E. }
    apply sorted_cons. split; [done|]. intros y [->|Hy]%elem_of_cons; [done|]. eapply compare_trans; [done|by apply Hx].
Qed.
Lemma present_none_inv k l : present k l = None -> forall y, y ∈ l -> compare k y <> 0.
Proof. intros Hp y Hy E. apply list_elem_of_In in Hy. pose proof (find_none _ _ Hp y Hy) as Hn. cbn in Hn. by rewrite (proj2 (Z.eqb_eq _ _)) in Hn. Qed.

Definition ready_node s x k : Prop := exists q, mNodes s !! x = Some {| value := k; mLeft := nullptr; mRight := nullptr; mParent := q |}.

Lemma attach_ok s c a y w b x k : good s (plug c (Node a y w b)) -> between c k -> compare k w <> 0 ->
  (compare k w = 0 \/ (compare k w < 0 /\ a = Leaf) \/ (0 < compare k w /\ b = Leaf)) ->
  ready_node s x k -> x ∉ locs (plug c (Node a y w b)) ->
  exists s' t', finishInsertion y (compare k w) x s = Some (x, s') /\ good s' t' /\ keys t' = insert_key compare k (keys (plug c (Node a y w b))) /\
    denotes s' x (Some k) /\ dom (mNodes s') = dom (mNodes s).
Proof.
  intros [R HS] Hb Hne Hw [q Ex] Hx. destruct Hw as [?|Hw]; [done|].
  pose proof (absent_ok c a y w b k HS Hb Hw) as Hnone. destruct (place_ok c a y w b k HS Hb Hw) as (f & Ef & Efl & Hcmp & Hk).
  rewrite <- Ef in *. destruct (finishInsertion_ok s f c y (compare k w) x k q R) as (s' & a' & b' & E & R' & Ee & D); try done.
  assert (keys (Node a' x k b') = insert_key compare k (keys (plug c (fill f Leaf)))) as Ek by (rewrite <- (Hk x); unfold keys; by rewrite Ee).
  exists s', (Node a' x k b'). split; [done|]. split; [split; [done|]|split; [done|split; [|done]]].
  - rewrite Ek. apply insert_sorted; [done|by apply present_none_inv].
  - destruct (focus_node s' [] _ _ _ _ R') as [Ey Hyn]. split; [done|]. by eexists.
Qed.
Lemma first_ok s x k : mRoot s = nullptr -> ready_node s x k -> rep s Leaf -> (forall q, mNodes s !! x = Some q -> mParent q = nullptr) ->
  good (with_root x s) (Node Leaf x k Leaf).
Proof.
  intros Hr [q Ex] R Hq. pose proof (rep_null _ _ R) as Hn. pose proof (Hq _ Ex) as Eq. cbn in Eq. subst q. split; [constructor|]; cbn [mNodes mRoot with_root].
  - by cbn.
  - apply NoDup_singleton.
  - done.
  - done.
  - apply sorted_cons. split; [constructor|]. cbn. set_solver.
Qed.

Lemma new_node_ok s t k : good s t -> exists x s', new_node k s = Some (x, s') /\ good s' t /\ mRoot s' = mRoot s /\
  mNodes s' !! x = Some {| value := k; mLeft := nullptr; mRight := nullptr; mParent := nullptr |} /\ x ∉ locs t /\ x <> nullptr /\
  (forall z, z <> x -> mNodes s' !! z = mNodes s !! z) /\ dom (mNodes s') = {[x]} ∪ dom (mNodes s).
Proof.
  intros [R HS]. unfold new_node. set (x := fresh _). assert (x <> nullptr /\ mNodes s !! x = None) as [Hxn Hxf].
  { pose proof (is_fresh ({[nullptr]} ∪ dom (mNodes s))) as Hf. fold x in Hf. split; [set_solver|]. apply not_elem_of_dom. set_solver. }
  assert (x ∉ locs t) as Hx by (intros Hin; destruct (at_alloc _ _ _ _ (rep_at _ _ R) Hin); congruence).
  exists x. eexists. split; [done|]. cbn [mNodes with_nodes mRoot]. split; [split; [|done]|].
  - destruct R as [Ha HN Hn Hr]. constructor; cbn [mNodes with_nodes mRoot]; try done; [|by rewrite lookup_insert_ne].
    eapply at_same; [|done]. intros z Hz. rewrite lookup_insert_ne; [done|]. by intros <-.
  - split_and!; try done; [by rewrite lookup_insert_eq| |by rewrite dom_insert_L]. intros z Hz. by rewrite lookup_insert_ne.
Qed.

Lemma findOrInsert_ok s t k : good s t -> exists r s' t', findOrInsert compare k s = Some (r, s') /\ good s' t' /\
  match present k (keys t) with
  | Some w => keys t' = keys t /\ denotes s' r (Some w)
  | None => keys t' = insert_key compare k (keys t) /\ denotes s' r (Some k)
  end.
Proof.
  intros [R HS]. unfold findOrInsert. destruct (decide (t = Leaf)) as [->|Hne].
  - destruct (new_node_ok s Leaf k ltac:(done)) as (x & s1 & En & [R1 _] & Er1 & Ex & _ & Hxn & _). exists x, (with_root x s1), (Node Leaf x k Leaf). split; [|split].
    + eapply bind_reads; [done|]. rewrite (rep_root _ _ R). cbn [root_of]. rewrite N.eqb_refl. eapply bind_run; [exact En|]. by eapply bind_update.
    + apply first_ok; [by rewrite (rep_root _ _ R1)|by eexists|done|]. intros q Eq. rewrite Ex in Eq. by injection Eq as <-.
    + cbn. split; [done|]. split; [done|]. by eexists.
  - destruct (lookup_ok s k t R Hne HS) as (c & a & y & w & b & <- & El & Hb & Hw). destruct (focus_node s c a y w b R) as [Ey _].
    destruct (Z.eqb_spec (compare k w) 0) as [E|E].
    + exists y, s, (plug c (Node a y w b)). split; [|split; [done|]].
      * eapply bind_reads; [done|]. rewrite (proj2 (N.eqb_neq _ _)) by (intros E'; by apply Hne, (root_leaf s)). eapply bind_run; [exact El|].
        eapply bind_load; [exact Ey|]. cbn [value]. by rewrite (proj2 (Z.eqb_eq _ _)).
      * destruct (found_keys c a y w b k HS Hb E) as [-> _]. split; [done|]. destruct (focus_node s c a y w b R) as [Ey' Hyn]. split; [done|]. by eexists.
    + destruct (new_node_ok s _ k (conj R HS)) as (x & s1 & En & G1 & Er1 & Ex & Hx & Hxn & _).
      destruct (attach_ok s1 c a y w b x k G1 Hb E Hw) as (s' & t' & Ef & G' & Ek & Hd & _); [by eexists|done|].
      exists x, s', t'. split; [|split; [done|]].
      * eapply bind_reads; [done|]. rewrite (proj2 (N.eqb_neq _ _)) by (intros E'; by apply Hne, (root_leaf s)). eapply bind_run; [exact El|].
        eapply bind_load; [exact Ey|]. cbn [value]. rewrite (proj2 (Z.eqb_neq _ _)) by done. eapply bind_run; [exact En|]. done.
      * rewrite (absent_ok c a y w b k HS Hb) by tauto. done.
Qed.

(** [insert] takes a node of the client that is not in the tree and has no children. *)
Lemma insert_ok s t x k : good s t -> ready_node s x k -> x ∉ locs t -> (forall q, mNodes s !! x = Some q -> mParent q = nullptr) ->
  match present k (keys t) with
  | Some _ => insert compare x s = None
  | None => exists s' t', insert compare x s = Some (true, s') /\ good s' t' /\ keys t' = insert_key compare k (keys t)
  end.
Proof.
  intros G [q Ex] Hx Hq. destruct (find_ok s t k G) as (r & s1 & t1 & Ef & G1 & Ek & Ee & Hd & Hdom & Hkeep).
  assert (x ∉ locs t1) as Hx1 by (unfold locs; by rewrite Ee). rewrite <- Hkeep in Ex by done.
  destruct (present k (keys t)) as [w|] eqn:Ep.
  - destruct Hd as [Hr _]. unfold insert. eapply bind_load; [by rewrite <- Hkeep|]. cbn [value]. eapply bind_run; [exact Ef|].
    by rewrite (proj2 (N.eqb_neq _ _)).
  - cbn in Hd. subst r. rewrite <- Ek in Ep |- *. destruct G1 as [R1 HS1]. destruct (decide (t1 = Leaf)) as [->|Hne].
    + exists (with_root x s1), (Node Leaf x k Leaf). split; [|split; [|done]].
      * unfold insert. eapply bind_load; [by rewrite <- Hkeep|]. cbn [value]. eapply bind_run; [exact Ef|]. rewrite N.eqb_refl. cbn [check]. rewrite bind_ret.
        eapply bind_reads; [done|]. rewrite (rep_root _ _ R1). cbn [root_of]. rewrite N.eqb_refl. by eapply bind_update.
      * apply first_ok; [by rewrite (rep_root _ _ R1)|by eexists|done|]. intros q' Eq'. apply Hq. by rewrite <- Hkeep.
    + destruct (lookup_ok s1 k t1 R1 Hne HS1) as (c & a & y & w & b & <- & El & Hb & Hw). destruct (focus_node s1 c a y w b R1) as [Ey _].
      assert (compare k w <> 0) as Hkw.
      { apply (present_none_inv k _ Ep). rewrite keys_plug, keys_node. set_solver. }
      destruct (attach_ok s1 c a y w b x k (conj R1 HS1) Hb Hkw Hw) as (s' & t' & Ei & G' & Ek' & _); [by eexists|done|].
      exists s', t'. split; [|done]. unfold insert. eapply bind_load; [by rewrite <- Hkeep|]. cbn [value]. eapply bind_run; [exact Ef|]. rewrite N.eqb_refl. cbn [check]. rewrite bind_ret.
      eapply bind_reads; [done|]. rewrite (proj2 (N.eqb_neq _ _)) by (intros E'; by apply Hne, (root_leaf s1)). eapply bind_run; [exact El|].
      eapply bind_load; [exact Ey|]. cbn [value]. eapply bind_run; [exact Ei|done].
Qed.

Lemma remove_root_ok s a y w b : good s (Node a y w b) ->
  exists s' t', remove_root y s = Some (y, s') /\ rep s' t' /\ keys t' = keys a ++ keys b /\ denotes s' y (Some w).
Proof.
  intros [R HS]. destruct (rep_split s [] _ _ _ _ R) as (_ & (Ey & Ha & Hb) & _ & Hn & _). cbn [path_locs mbind list_bind app] in Hn.
  rewrite elem_of_app, elem_of_cons in Hn. pose proof (rep_root _ _ R) as Er. cbn [root_of] in Er. assert (y <> nullptr) as Hyn by (intros ->; tauto).
  assert (length (locs a) <= rounds s /\ length (locs b) <= rounds s)%nat as [Hra Hrb].
  { pose proof (rounds_locs _ _ R) as Hr. rewrite locs_node, length_app in Hr. cbn [length] in Hr. lia. }
  assert (forall t : tree T, nullptr ∉ locs t -> (root_of t =? nullptr)%N = false <-> t <> Leaf) as Hleaf.
  { intros t Ht. rewrite N.eqb_neq. destruct t; [done|]. split; [done|]. intros _. cbn. intros ->. rewrite locs_node in Ht. set_solver. }
  destruct (decide (a = Leaf)) as [->|Hna].
  - destruct (decide (b = Leaf)) as [->|Hnb].
    + exists (with_root nullptr s), Leaf. split; [|split; [|split; [done|]]].
      * unfold remove_root. eapply bind_reads; [done|]. rewrite Er. eapply bind_load; [exact Ey|]. eapply bind_reads; [done|]. cbn [mLeft mRight root_of]. rewrite N.eqb_refl.
        cbn [negb]. by eapply bind_update.
      * constructor; cbn; [done|constructor|by apply rep_null in R|done].
      * split; [done|]. by eexists.
    + destruct (leftmost_ok s b (rounds s) y Hb) as (d & x & v & r & Eb & Ed & El); [done|tauto|done|].
      assert (rep s (plug (d ++ [InR Leaf y w]) (Node Leaf x v r))) as R' by (rewrite plug_app, <- Eb; done).
      destruct (focus_node s _ _ _ _ _ R') as [Ex _].
      assert (exists f c, d ++ [InR Leaf y w] = f :: c) as (f & c & Ec) by (destruct d; do 2 eexists; done). rewrite Ec in R'.
      destruct (cut_out_ok s f c Leaf x v r r R') as (s1 & Ecut & R1 & Ex1 & Hx1 & Hxn & _); [by right|]. rewrite <- Ec, plug_app in R1, Hx1. cbn [plug fill] in R1, Hx1.
      rewrite Ex in Ex1. destruct (take_root_ok s1 Leaf y w (plug d r) x _ R1 Hx1 Hxn Ex1) as (s2 & Etake & R2 & Ey2). cbn [value] in R2.
      exists s2, (Node Leaf x v (plug d r)). split; [|split; [done|split]].
      * unfold remove_root. eapply bind_reads; [done|]. rewrite Er. eapply bind_load; [exact Ey|]. eapply bind_reads; [done|]. cbn [mLeft mRight root_of]. rewrite N.eqb_refl.
        cbn [negb]. rewrite (proj2 (Hleaf b ltac:(tauto))) by done. cbn [negb]. eapply bind_run; [exact El|]. eapply bind_load; [exact Ex|]. cbn [mRight].
        eapply bind_run; [exact Ecut|]. eapply bind_run; [exact Etake|done].
      * rewrite Eb, keys_node, !keys_plug, keys_node. unfold lkeys. by rewrite Ed.
      * split; [done|]. rewrite Ey2. destruct (focus_node s1 [] _ _ _ _ R1) as [E1 _]. by eexists.
  - destruct (rightmost_ok s a (rounds s) y Ha) as (d & l & x & v & Eb & Ed & El); [done|tauto|done|].
    assert (rep s (plug (d ++ [InL y w b]) (Node l x v Leaf))) as R' by (rewrite plug_app, <- Eb; done).
    destruct (focus_node s _ _ _ _ _ R') as [Ex _].
    assert (exists f c, d ++ [InL y w b] = f :: c) as (f & c & Ec) by (destruct d; do 2 eexists; done). rewrite Ec in R'.
    destruct (cut_out_ok s f c l x v Leaf l R') as (s1 & Ecut & R1 & Ex1 & Hx1 & Hxn & _); [by left|]. rewrite <- Ec, plug_app in R1, Hx1. cbn [plug fill] in R1, Hx1.
    rewrite Ex in Ex1. destruct (take_root_ok s1 (plug d l) y w b x _ R1 Hx1 Hxn Ex1) as (s2 & Etake & R2 & Ey2). cbn [value] in R2.
    exists s2, (Node (plug d l) x v b). split; [|split; [done|split]].
    + unfold remove_root. eapply bind_reads; [done|]. rewrite Er. eapply bind_load; [exact Ey|]. eapply bind_reads; [done|]. cbn [mLeft mRight root_of].
      rewrite (proj2 (Hleaf a ltac:(tauto))) by done. cbn [negb]. eapply bind_run; [exact El|]. eapply bind_load; [exact Ex|]. cbn [mLeft].
      eapply bind_run; [exact Ecut|]. eapply bind_run; [exact Etake|done].
    + rewrite Eb, keys_node, !keys_plug, keys_node. change (keys Leaf) with (@nil T). unfold rkeys. rewrite Ed. cbn. by rewrite <- ?app_assoc, ?app_nil_r.
    + split; [done|]. rewrite Ey2. destruct (focus_node s1 [] _ _ _ _ R1) as [E1 _]. by eexists.
Qed.

Lemma remove_ok s t k : good s t -> match present k (keys t) with
  | None => remove compare k s = None
  | Some w => exists r s' t', remove compare k s = Some (r, s') /\ good s' t' /\ keys t' = filter (fun z => compare k z <> 0) (keys t) /\ denotes s' r (Some w)
  end.
Proof.
  intros [R HS]. unfold remove. destruct (decide (t = Leaf)) as [->|Hne].
  { cbn. assert (lookup compare k s = None) as El; [|unfold mbind, ST_bind; by rewrite El].
    unfold lookup. eapply bind_reads; [done|]. by rewrite (rep_root _ _ R). }
  destruct (lookup_ok s k t R Hne HS) as (c & a & y & w & b & <- & El & Hb & Hw). destruct (focus_node s c a y w b R) as [Ey Hyn].
  destruct (Z.eq_dec (compare k w) 0) as [E|E].
  2: { rewrite (absent_ok c a y w b k HS Hb) by tauto. eapply bind_run; [exact El|]. rewrite (proj2 (N.eqb_neq y nullptr)) by done. cbn [negb check].
    rewrite bind_ret. eapply bind_load; [exact Ey|]. cbn [value]. by rewrite (proj2 (Z.eqb_neq _ _)). }
  destruct (found_keys c a y w b k HS Hb E) as [-> Ekeys].
  destruct (splay_keys s c a y w b ltac:(done)) as (s1 & a' & b' & Es & G1 & Ek1 & _).
  destruct (remove_root_ok s1 a' y w b' G1) as (s' & t' & Er & R' & Ek' & Hd). destruct G1 as [R1 HS1].
  destruct (found_keys [] a' y w b' k) as [_ Ef]; [done|split; set_solver|done|]. cbn [plug lkeys rkeys lefts rights fmap list_fmap app] in Ef.
  rewrite app_nil_r, Ek1 in Ef.
  exists y, s', t'. split; [|split; [split; [done|]|split; [by rewrite Ek', Ef|done]]].
  - eapply bind_run; [exact El|]. rewrite (proj2 (N.eqb_neq y nullptr)) by done. cbn [negb check]. rewrite bind_ret.
    eapply bind_load; [exact Ey|]. cbn [value]. rewrite (proj2 (Z.eqb_eq _ _)) by done. cbn [check]. rewrite bind_ret. eapply bind_run; [exact Es|].
    eapply bind_reads; [done|]. rewrite (rep_root _ _ R1). cbn [root_of]. rewrite N.eqb_refl. cbn [check]. by rewrite bind_ret.
  - rewrite Ek', <- Ef. by apply sorted_sub.
Qed.

Lemma compare_same k : compare k k = 0.
Proof. pose proof (compare_irrefl (compare_ := compare) k). pose proof (proj2 (compare_sym (compare_ := compare) k k)). lia. Qed.

Lemma removeMin_ok s t : good s t -> match keys t with
  | [] => removeMin compare s = None
  | v :: l => exists r s' t', removeMin compare s = Some (r, s') /\ good s' t' /\ keys t' = l /\ denotes s' r (Some v)
  end.
Proof.
  intros [R HS]. destruct (decide (t = Leaf)) as [->|Hne].
  { cbn. unfold removeMin. eapply bind_reads; [done|]. by rewrite (rep_root _ _ R). }
  assert (nullptr ∉ locs t) as Hn.
  { intros Hin. destruct (at_alloc _ _ _ _ (rep_at _ _ R) Hin) as [n E]. rewrite (rep_null _ _ R) in E. done. }
  destruct (leftmost_ok s t (rounds s) nullptr) as (d & x & v & r & Et & Ed & El); [apply R|done|done|by apply rounds_locs|].
  assert (keys t = v :: keys r ++ rkeys d) as Ek by (rewrite Et, keys_plug, keys_node; unfold lkeys; rewrite Ed; by rewrite <- ?app_assoc).
  rewrite Ek. pose proof (remove_ok s t v (conj R HS)) as Hrem. rewrite Ek in Hrem, HS. pose proof HS as HS'. apply sorted_cons in HS' as [_ Hlt].
  assert (present v (v :: keys r ++ rkeys d) = Some v) as Ep by (apply (present_split v []); [set_solver|apply compare_same]). rewrite Ep in Hrem.
  destruct Hrem as (r' & s' & t' & Er & G' & Ek' & Hd). exists r', s', t'. split; [|split; [done|split; [|done]]].
  - unfold removeMin. eapply bind_reads; [done|]. rewrite (proj2 (N.eqb_neq _ _)) by (intros E; by apply Hne, (root_leaf s)). cbn [negb check]. rewrite bind_ret.
    eapply bind_reads; [done|]. rewrite (rep_root _ _ R). eapply bind_run; [exact El|]. rewrite Et in R. destruct (focus_node s d _ _ _ _ R) as [Ex _].
    eapply bind_load; [exact Ex|]. exact Er.
  - rewrite Ek', filter_cons, decide_False by (rewrite compare_same; tauto). apply filter_keeps. intros z Hz. specialize (Hlt z Hz). cbn in Hlt. lia.
Qed.

(** ** The check of the tests *)

Lemma focus_not_leaf c l x v r : plug c (Node l x v r) <> Leaf.
Proof. intros E. pose proof (plug_locs c (Node l x v r)) as HP. rewrite E, locs_node in HP. apply Permutation_length in HP. rewrite !length_app in HP. cbn in HP. lia. Qed.
Lemma not_leaf (t : tree T) : nullptr ∉ locs t -> t <> Leaf -> (root_of t =? nullptr)%N = false.
Proof. intros Hn Ht. apply N.eqb_neq. destruct t; [done|]. cbn. intros ->. rewrite locs_node in Hn. set_solver. Qed.
Lemma child_parent m x t : at_ m x t -> t <> Leaf -> exists n, m !! root_of t = Some n /\ mParent n = x.
Proof. destruct t; [done|]. intros (E & _) _. by eexists. Qed.

Lemma check_root_ok s t : rep s t -> check_root s = Some (tt, s).
Proof.
  intros R. unfold check_root. eapply bind_reads; [done|]. destruct (N.eqb_spec (mRoot s) nullptr) as [E|E]; [done|].
  rewrite (rep_root _ _ R) in E |- *. destruct t as [|l x v r]; [done|]. destruct (focus_node s [] _ _ _ _ R) as [Ex _].
  eapply bind_load; [exact Ex|]. done.
Qed.
Definition above s (mn : loc) (ks : list T) : Prop := mn = nullptr \/ exists n, mNodes s !! mn = Some n /\ forall y, y ∈ ks -> compare (value n) y < 0.
Lemma check_node_ok s c l x v r mn : rep s (plug c (Node l x v r)) -> above s mn [v] ->
  check_node compare x mn s = Some ({| value := v; mLeft := root_of l; mRight := root_of r; mParent := parent_of c |}, s).
Proof.
  intros R Hmn. destruct (focus_node s c l x v r R) as [Ex _]. destruct (rep_split _ _ _ _ _ _ R) as (_ & _ & _ & Hn & Hroot).
  unfold check_node. eapply bind_load; [exact Ex|]. eapply bind_reads; [done|]. cbn [mParent value].
  eapply (bind_run _ _ _ tt s).
  { destruct (N.eqb_spec (parent_of c) nullptr) as [E|E]; [|done]. destruct c as [|f c].
    - rewrite Hroot. cbn. by rewrite N.eqb_refl.
    - exfalso. apply Hn. rewrite <- E. apply elem_of_app. left. apply frame_loc_in. }
  eapply (bind_run _ _ _ tt s); [|done]. destruct (N.eqb_spec mn nullptr) as [E|E]; [done|]. destruct Hmn as [|(m & Em & Hm)]; [done|].
  eapply bind_load; [exact Em|]. rewrite (proj2 (Z.ltb_lt _ _)); [done|]. apply Hm. set_solver.
Qed.

Lemma checkCoherency_loop_ok s t : forall fuel c mn, rep s (plug c t) -> t <> Leaf -> sorted (keys (plug c t)) ->
  above s mn (keys t) -> (length (locs t) <= fuel)%nat ->
  exists x n ks, checkCoherency_loop compare fuel (root_of t) mn s = Some (x, s) /\ mNodes s !! x = Some n /\ keys t = ks ++ [value n].
Proof.
  induction t as [|l IHl x v r IHr]; intros fuel c mn R Hne HS Hmn Hf; [done|]. rewrite locs_node, length_app in Hf. cbn [length] in Hf.
  destruct fuel as [|fuel]; [lia|]. destruct (rep_split _ _ _ _ _ _ R) as (_ & (Ex & Hl & Hr) & _ & Hn & _).
  pose proof HS as HS'. rewrite keys_plug, keys_node in HS'. apply sorted_parts in HS' as (_ & HS' & _).
  apply sorted_parts in HS' as (HS' & _ & _). apply sorted_parts in HS' as (_ & HS2 & Hlv). apply sorted_cons in HS2 as [_ Hvr]. rewrite keys_node in Hmn |- *.
  rewrite !elem_of_app, elem_of_cons in Hn.
  assert (above s mn [v] /\ above s mn (keys l)) as [Hmn1 Hmn2].
  { unfold above in *. destruct Hmn as [|(m & Em & Hm)]; [by split; left|]. split; right; exists m; (split; [done|]); intros y Hy; apply Hm; set_solver. }
  cbn [root_of checkCoherency_loop]. rewrite (proj2 (N.eqb_neq x nullptr)) by (intros ->; tauto).
  assert (forall {B} (k : ST (SplayTree T) B), (_ ← (if (root_of l =? nullptr)%N then mret tt
         else n ← load (root_of l); _ ← check (mParent n =? x)%N; leftMaximum ← checkCoherency_loop compare fuel (root_of l) mn;
           m ← load leftMaximum; check (compare (value m) v <? 0)); k) s = k s) as Hleft.
  { intros B k. eapply (bind_run _ _ _ tt s); [|done]. destruct (decide (l = Leaf)) as [->|Hnl]; [done|].
    rewrite (not_leaf l) by tauto. destruct (child_parent _ _ _ Hl Hnl) as (n & En & Epn).
    eapply bind_load; [exact En|]. rewrite Epn, N.eqb_refl. cbn [check]. rewrite bind_ret.
    destruct (IHl fuel (InL x v r :: c) mn) as (x' & n' & ks & Ec & Ex' & Ek); [done|done|done|done|lia|].
    eapply bind_run; [exact Ec|]. eapply bind_load; [exact Ex'|]. rewrite (proj2 (Z.ltb_lt _ _)); [done|]. apply Hlv; [rewrite Ek|]; set_solver. }
  destruct (decide (r = Leaf)) as [->|Hnr].
  - exists x. do 2 eexists. split; [|split; [exact Ex|done]]. eapply bind_run; [by eapply check_root_ok|]. eapply bind_run; [by eapply check_node_ok|].
    cbn [mLeft mRight value]. by rewrite Hleft.
  - destruct (child_parent _ _ _ Hr Hnr) as (n & En & Epn).
    destruct (IHr fuel (InR l x v :: c) x) as (x' & n' & ks & Ec & Ex' & Ek); [done|done|done|right; eexists; split; [exact Ex|exact Hvr]|lia|].
    exists x', n', (keys l ++ v :: ks). split; [|split; [done|rewrite Ek; by rewrite <- app_assoc]].
    eapply bind_run; [by eapply check_root_ok|]. eapply bind_run; [by eapply check_node_ok|].
    cbn [mLeft mRight value]. rewrite Hleft, (not_leaf r) by tauto. eapply bind_load; [exact En|]. rewrite Epn, N.eqb_refl. cbn [check]. rewrite bind_ret. exact Ec.
Qed.
Lemma checkCoherency_ok s t : good s t -> checkCoherency compare s = Some (tt, s).
Proof.
  intros [R HS]. unfold checkCoherency. eapply bind_reads; [done|]. eapply bind_reads; [done|]. rewrite (rep_root _ _ R).
  destruct (decide (t = Leaf)) as [->|Hne].
  - eapply bind_run; [|done]. unfold rounds. cbn [checkCoherency_loop root_of]. rewrite N.eqb_refl. eapply bind_run; [by eapply check_root_ok|].
    eapply bind_reads; [done|]. rewrite (rep_root _ _ R). cbn [root_of]. rewrite N.eqb_refl. done.
  - destruct (checkCoherency_loop_ok s t (rounds s) [] nullptr) as (x & n & ks & E & _); try done; [by left|by apply rounds_locs|].
    by eapply bind_run.
Qed.

(** The node that was found is the root. *)
Lemma find_root s t k r s' : good s t -> find compare k s = Some (r, s') -> r <> nullptr -> mRoot s' = r /\ find compare k s' = Some (r, s').
Proof.
  intros [R HS] Hf Hr. unfold find in Hf. destruct (decide (t = Leaf)) as [->|Hne].
  { revert Hf. unfold mbind at 1, ST_bind at 1. cbn. rewrite (rep_root _ _ R). cbn. intros [= <- _]. done. }
  destruct (lookup_ok s k t R Hne HS) as (c & a & y & w & b & <- & El & Hb & Hw).
  destruct (splay_keys s c a y w b ltac:(done)) as (s1 & a' & b' & Es & G1 & _). pose proof G1 as [R1 HS1].
  destruct (focus_node s1 [] _ _ _ _ R1) as [Ey Hyn]. pose proof (rep_root _ _ R1) as Er. cbn [root_of] in Er.
  assert ((if compare k w =? 0 then y else nullptr, s1) = (r, s')) as E.
  { enough (Some (if compare k w =? 0 then y else nullptr, s1) = Some (r, s')) as E by (by injection E as -> ->). rewrite <- Hf. symmetry.
    eapply bind_reads; [done|]. rewrite (proj2 (N.eqb_neq _ _)) by (intros E; by apply Hne, (root_leaf s)).
    eapply bind_run; [exact El|]. eapply bind_run; [exact Es|]. eapply bind_load; [exact Ey|]. done. }
  injection E as Er' <-. destruct (Z.eqb_spec (compare k w) 0) as [Ew|]; [subst r|by subst r]. split; [done|].
  unfold find. eapply bind_reads; [done|]. rewrite Er, (proj2 (N.eqb_neq _ _)) by done.
  eapply (bind_run _ _ _ y s1).
  { unfold lookup. eapply bind_reads; [done|]. rewrite Er, (proj2 (N.eqb_neq _ _)) by done. cbn [negb check]. rewrite bind_ret.
    eapply bind_reads; [done|]. unfold rounds. cbn [lookup_loop]. eapply bind_load; [exact Ey|]. cbn [value]. by rewrite (proj2 (Z.eqb_eq _ _)). }
  eapply (bind_run _ _ _ tt s1).
  { unfold splay. rewrite (proj2 (N.eqb_neq _ _)) by done. cbn [negb check]. rewrite bind_ret. eapply bind_reads; [done|]. unfold rounds. cbn [splay_loop].
    eapply (bind_run _ _ _ false s1); [exact (splay_round_ok s1 [] a' y w b' R1)|done]. }
  eapply bind_load; [exact Ey|]. cbn [value]. by rewrite (proj2 (Z.eqb_eq _ _)).
Qed.
End order.
End proofs.

(** ** The promise: a sorted list of elements *)

Section refinement.
Context {T : Type} (compare : T -> T -> Z) `{!Comparator compare}.

(** [OpInsertNew] inserts a node made for the call.  A node that [remove] has returned is never
    inserted again here: it keeps its old links, and [insert] does not clear them. *)
Inductive op := OpFind (k : T) | OpInsertNew (k : T) | OpFindOrInsert (k : T) | OpRemove (k : T) | OpRemoveMin | OpEmpty | OpCheck.
Inductive result := RElement (k : option T) | RBool (b : bool) | RUnit.

(** The element a returned pointer points to. *)
Definition element (r : loc) : ST (SplayTree T) result :=
  if (r =? nullptr)%N then mret (RElement None) else n ← load r; mret (RElement (Some (value n))).
Definition run_op (o : op) : ST (SplayTree T) result :=
  match o with
  | OpFind k => r ← find compare k; element r
  | OpInsertNew k => x ← new_node k; b ← insert compare x; mret (RBool b)
  | OpFindOrInsert k => r ← findOrInsert compare k; element r
  | OpRemove k => r ← remove compare k; element r
  | OpRemoveMin => r ← removeMin compare; element r
  | OpEmpty => b ← reads (fun s => Some (empty s)); mret (RBool b)
  | OpCheck => _ ← checkCoherency compare; mret RUnit
  end.
Fixpoint run (os : list op) : ST (SplayTree T) (list result) :=
  match os with
  | [] => mret []
  | o :: os => r ← run_op o; rs ← run os; mret (r :: rs)
  end.

Definition spec_op (o : op) (l : list T) : option (result * list T) :=
  match o with
  | OpFind k => Some (RElement (present compare k l), l)
  | OpInsertNew k => match present compare k l with Some _ => None | None => Some (RBool true, insert_key compare k l) end
  | OpFindOrInsert k =>
      match present compare k l with Some w => Some (RElement (Some w), l) | None => Some (RElement (Some k), insert_key compare k l) end
  | OpRemove k =>
      match present compare k l with Some w => Some (RElement (Some w), filter (fun z => compare k z <> 0) l) | None => None end
  | OpRemoveMin => match l with [] => None | v :: l => Some (RElement (Some v), l) end
  | OpEmpty => Some (RBool (match l with [] => true | _ => false end), l)
  | OpCheck => Some (RUnit, l)
  end.
Fixpoint spec_run (os : list op) (l : list T) : option (list result) :=
  match os with
  | [] => Some []
  | o :: os => '(r, l) ← spec_op o l; rs ← spec_run os l; Some (r :: rs)
  end.

Definition tree_of (s : SplayTree T) (l : list T) : Prop := exists t, good compare s t /\ keys t = l.
Definition matches (m : option (result * SplayTree T)) (n : option (result * list T)) : Prop :=
  match m, n with
  | Some (r, s), Some (r', l) => r = r' /\ tree_of s l
  | None, None => True
  | _, _ => False
  end.

Lemma element_ok s r w : denotes s r w -> element r s = Some (RElement w, s).
Proof.
  unfold element. destruct w as [w|]; cbn; [|by intros ->]. intros (Hr & n & En & <-). rewrite (proj2 (N.eqb_neq _ _)) by done. by eapply bind_load.
Qed.
Lemma matches_element {m : ST (SplayTree T) loc} {s r s' t w} : m s = Some (r, s') -> good compare s' t -> denotes s' r w ->
  matches ((r ← m; element r) s) (Some (RElement w, keys t)).
Proof.
  intros E G D. rewrite (bind_run _ _ _ r s' (Some (RElement w, s')) E) by (by apply element_ok). split; [done|]. by exists t.
Qed.
Lemma matches_none {m : ST (SplayTree T) loc} {s} : m s = None -> matches ((r ← m; element r) s) None.
Proof. intros E. unfold mbind, ST_bind. by rewrite E. Qed.

Lemma run_op_matches o s l : tree_of s l -> matches (run_op o s) (spec_op o l).
Proof.
  intros (t & G & <-). destruct o as [k|k|k|k| | |]; cbn [run_op spec_op].
  - destruct (find_ok compare s t k G) as (r & s' & t' & E & G' & Ek & _ & D & _). rewrite <- Ek at 2. by eapply matches_element.
  - destruct (new_node_ok compare s t k G) as (x & s1 & En & G1 & _ & Ex & Hx & _).
    pose proof (insert_ok compare s1 t x k G1 ltac:(by eexists) Hx) as Hi.
    rewrite (bind_run _ _ _ x s1 ((b ← insert compare x; mret (RBool b)) s1) En) by done.
    assert (forall q, mNodes s1 !! x = Some q -> mParent q = nullptr) as Hq by (intros q Eq; rewrite Ex in Eq; by injection Eq as <-).
    specialize (Hi Hq). destruct (present compare k (keys t)).
    + unfold mbind, ST_bind. by rewrite Hi.
    + destruct Hi as (s' & t' & E & G' & Ek). rewrite (bind_run _ _ _ true s' (Some (RBool true, s')) E) by done. split; [done|]. by exists t'.
  - destruct (findOrInsert_ok compare s t k G) as (r & s' & t' & E & G' & D). destruct (present compare k (keys t)); destruct D as [<- D]; by eapply matches_element.
  - pose proof (remove_ok compare s t k G) as Hr. destruct (present compare k (keys t)); [|by apply matches_none].
    destruct Hr as (r & s' & t' & E & G' & <- & D). by eapply matches_element.
  - pose proof (removeMin_ok compare s t G) as Hr. destruct (keys t) as [|v l]; [by apply matches_none|].
    destruct Hr as (r & s' & t' & E & G' & <- & D). by eapply matches_element.
  - cbn. split; [|by exists t]. f_equal. unfold empty. destruct G as [R _]. rewrite (rep_root _ _ R). destruct t as [|tl x v tr]; [done|].
    destruct (focus_node compare s [] _ _ _ _ R) as [_ Hx]. rewrite keys_node. cbn. rewrite (proj2 (N.eqb_neq _ _)) by done. by destruct (keys tl).
  - rewrite (bind_run _ _ _ tt s (Some (RUnit, s)) (checkCoherency_ok compare s t G)) by done. split; [done|]. by exists t.
Qed.
Lemma run_matches os : forall s l, tree_of s l -> fst <$> run os s = spec_run os l.
Proof.
  induction os as [|o os IH]; intros s l Ht; cbn [run spec_run]; [done|]. pose proof (run_op_matches o s l Ht) as Hm. unfold mbind at 1, ST_bind at 1.
  destruct (run_op o s) as [[r s']|], (spec_op o l) as [[r' l']|]; cbn in Hm; try done. destruct Hm as [-> Ht']. cbn [mbind option_bind].
  rewrite <- (IH s' l' Ht'). unfold mbind, ST_bind. by destruct (run os s') as [[rs s2]|].
Qed.

Definition SplayTree_new : SplayTree T := {| mNodes := ∅; mRoot := nullptr |}.

Lemma run_reaches os : forall s l rs s', tree_of s l -> run os s = Some (rs, s') -> exists l', tree_of s' l'.
Proof.
  induction os as [|o os IH]; intros s l rs s' Ht; cbn [run]; [intros [= _ <-]; by exists l|]. pose proof (run_op_matches o s l Ht) as Hm.
  unfold mbind at 1, ST_bind at 1. destruct (run_op o s) as [[r s1]|], (spec_op o l) as [[r' l1]|]; cbn in Hm; try done. destruct Hm as [_ Ht1]. cbn [mbind option_bind].
  unfold mbind, ST_bind. destruct (run os s1) as [[rs1 s2]|] eqn:E; [|done]. cbn. intros [= _ <-]. by eapply IH.
Qed.
Lemma new_tree : tree_of SplayTree_new [].
Proof. exists Leaf. split; [|done]. split; [|constructor]. by constructor; [|constructor| |]. Qed.

(** C10. A splay tree behaves, through every sequence of operations in which each node that is
    inserted is a newly constructed one, as the sorted list of its elements: every search,
    insertion and removal finds, adds or takes out the element the list determines, the internal
    check passes wherever the sequence asks for it, no null or dangling pointer is followed, and
    the assertions fail exactly when an element is inserted that is present, one is removed that
    is absent, or the smallest of an empty tree is asked for.  Nodes that were removed and are
    inserted again are left out, and rightly: [splay_reinsert_breaks] shows the check fail. *)
Theorem splay_tree_refines (os : list op) : fst <$> run os SplayTree_new = spec_run os [].
Proof. apply run_matches, new_tree. Qed.

(** The element a search found is the root afterwards: the next search for it ends at once
    and leaves the tree as it is. *)
Theorem splay_find_again (os : list op) (k : T) (s s' : SplayTree T) (rs : list result) (r : loc) :
  run os SplayTree_new = Some (rs, s) -> find compare k s = Some (r, s') -> r <> nullptr ->
  mRoot s' = r /\ find compare k s' = Some (r, s').
Proof. intros Hrun Hf Hr. destruct (run_reaches os _ _ _ _ new_tree Hrun) as (l & t & G & _). by eapply find_root. Qed.
End refinement.

Definition splay_example : list (op (T := Z)) :=
  [OpEmpty; OpInsertNew 5; OpFindOrInsert 3; OpInsertNew 9; OpFind 3; OpFind 4; OpCheck; OpRemove 5; OpRemoveMin; OpCheck; OpFindOrInsert 9].
Example splay_example_ok : fst <$> run Z.sub splay_example SplayTree_new = Some [RBool true; RBool true; RElement (Some 3); RBool true;
  RElement (Some 3); RElement None; RUnit; RElement (Some 5); RElement (Some 3); RUnit; RElement (Some 9)].
Proof. vm_compute. reflexivity. Qed.
Lemma splay_tree_refines_witness : Comparator Z.sub /\ fst <$> run Z.sub splay_example SplayTree_new = spec_run Z.sub splay_example [].
Proof. split; [apply _|]. apply (splay_tree_refines Z.sub). Defined.
Lemma splay_find_again_witness : exists rs s s', run Z.sub [OpInsertNew 5; OpInsertNew 3; OpInsertNew 9] SplayTree_new = Some (rs, s) /\
  find Z.sub 3 s = Some (2%N, s') /\ mRoot s' = 2%N /\ find Z.sub 3 s' = Some (2%N, s').
Proof.
  do 3 eexists. split; [vm_compute; reflexivity|]. split; [vm_compute; reflexivity|].
  eapply (splay_find_again Z.sub [OpInsertNew 5; OpInsertNew 3; OpInsertNew 9] 3); [vm_compute; reflexivity|vm_compute; reflexivity|done].
Defined.

(** [remove] leaves the links of the node it returns: a client that inserts the same node
    again gets its old children back, and the tree is no longer coherent. *)
Definition reinsert (vs : list Z) (k : Z) : ST (SplayTree Z) bool :=
  _ ← run Z.sub (map OpInsertNew vs); x ← remove Z.sub k; insert Z.sub x.
Theorem splay_reinsert_breaks : exists s, reinsert [1; 2; 3; 4; 5; 6] 6 SplayTree_new = Some (true, s) /\ checkCoherency Z.sub s = None.
Proof. eexists. split; vm_compute; reflexivity. Qed.
