(* ===== verification/Arena.v ===== *)
(** * Arena: [src/util/arena.h], [src/util/arena.cpp] and [AlignedMalloc]

    Two allocators that hand out pieces of larger blocks and give everything back
    at once.  The system allocator is a parameter with its documented contract
    (class [SystemAllocator]): [malloc], [posix_memalign] and [operator new] may
    refuse any request, and a block they return is aligned, ends below 2^64 and
    overlaps no other.  The heap is the list of the blocks that are allocated and
    not freed, and freeing anything else is a failure.  Failed assertions are
    failures too.  A refusal of [operator new] is an exception, which [ArenaEasy]
    passes on; [Arena] takes a null pointer of [AlignedMalloc] for a block, as the
    check that follows it in the source is commented out.  The vectors that list
    the blocks are taken to grow when they must. *)

From S2P Require Import Prelude Store.
#[local] Open Scope Z_scope.
#[local] Open Scope mycc_scope.

(** An address and a number of bytes. *)
Abbreviation region := (Z * Z)%type.
Definition apart (r r' : region) : Prop := r.1 + r.2 <= r'.1 \/ r'.1 + r'.2 <= r.1.
Definition inside (r b : region) : Prop := b.1 <= r.1 /\ r.1 + r.2 <= b.1 + b.2.

Abbreviation heap := (list region).

(** What is asked of a new block: not null, not past the last address, aligned, apart from the others. *)
Record fits (h : heap) (p size alignment : Z) : Prop := {
  ft_positive : 0 < p;
  ft_below : p + size < 2 ^ 64;
  ft_aligned : p mod alignment = 0;
  ft_apart r : r ∈ h -> apart (p, size) r
}.
(** What [malloc] and [operator new] align to on this platform. *)
Definition new_alignment : Z := 16.

(** [malloc] and [posix_memalign] return an address or fail, [operator new] returns one or throws. *)
Class SystemAllocator := {
  malloc : heap -> Z -> option Z;
  posix_memalign : heap -> Z -> Z -> option Z;
  operator_new : heap -> Z -> option Z;
  malloc_fits h size p : 0 < size -> malloc h size = Some p -> fits h p size new_alignment;
  posix_memalign_fits h k size p : 3 <= k -> 0 < size -> posix_memalign h (2 ^ k) size = Some p -> fits h p size (2 ^ k);
  operator_new_fits h size p : 0 < size -> operator_new h size = Some p -> fits h p size new_alignment
}.

Definition power_of_two (n : Z) : Prop := exists k, 0 <= k /\ n = 2 ^ k.

Section system.
Context `{SystemAllocator}.

Definition nullptr : Z := 0.

(** The block that starts at [p] goes; freeing a null pointer does nothing. *)
Fixpoint release (p : Z) (h : heap) : option heap :=
  match h with
  | [] => None
  | r :: h => if r.1 =? p then Some h else h ← release p h; Some (r :: h)
  end.
Definition system_free (p : Z) (h : heap) : option heap := if p =? nullptr then Some h else release p h.

(** The address, or a null pointer, and the heap. *)
Definition allocated (result : option Z) (size : Z) (h : heap) : Z * heap :=
  match result with Some p => (p, (p, size) :: h) | None => (nullptr, h) end.
Definition Malloc (size : Z) (h : heap) : Z * heap := allocated (malloc h size) size h.
Definition AlignedMalloc (size minimum_alignment : Z) (h : heap) : Z * heap :=
  let required_alignment := 8 in
  if minimum_alignment <? required_alignment then Malloc size h
  else allocated (posix_memalign h minimum_alignment size) size h.
Definition AlignedFree (p : Z) (h : heap) : option heap := system_free p h.

Definition assert_ {S} (b : bool) : ST S unit := if b then mret tt else fail.

End system.

(** ** [ArenaEasy]

    An operation returns an address, or [None] when [operator new] has thrown. *)

Module ArenaEasy.
Section arena_easy.
Context `{SystemAllocator}.

Definition kBlockSize : Z := 4096.

Record ArenaEasy := {
  alloc_ptr_ : Z;
  alloc_bytes_remaining_ : Z;
  blocks_ : list Z;
  memory_usage_ : Z;
  heap_ : heap
}.

Definition ArenaEasy_new (h : heap) : ArenaEasy :=
  {| alloc_ptr_ := nullptr; alloc_bytes_remaining_ := 0; blocks_ := []; memory_usage_ := 0; heap_ := h |}.
Definition with_free (p n : Z) (a : ArenaEasy) : ArenaEasy :=
  {| alloc_ptr_ := p; alloc_bytes_remaining_ := n; blocks_ := blocks_ a; memory_usage_ := memory_usage_ a; heap_ := heap_ a |}.

Definition MemoryUsage (a : ArenaEasy) : Z := memory_usage_ a.

Definition AllocateNewBlock (block_bytes : Z) : ST ArenaEasy (option Z) := fun a =>
  match operator_new (heap_ a) block_bytes with
  | None => Some (None, a)
  | Some result =>
      Some (Some result, {| alloc_ptr_ := alloc_ptr_ a; alloc_bytes_remaining_ := alloc_bytes_remaining_ a;
                            blocks_ := blocks_ a ++ [result]; memory_usage_ := u64 (MemoryUsage a + block_bytes + 8);
                            heap_ := (result, block_bytes) :: heap_ a |})
  end.

Definition AllocateFallback (bytes : Z) : ST ArenaEasy (option Z) :=
  if bytes >? kBlockSize / 4 then AllocateNewBlock bytes
  else
    block ← AllocateNewBlock kBlockSize;
    match block with
    | None => mret None
    | Some p =>
        _ ← update (fun a => Some (with_free (p + bytes) (u64 (kBlockSize - bytes)) a));
        mret (Some p)
    end.

Definition Allocate (bytes : Z) : ST ArenaEasy (option Z) :=
  _ ← assert_ (bytes >? 0);
  a ← reads Some;
  if bytes <=? alloc_bytes_remaining_ a then
    _ ← update (fun a => Some (with_free (alloc_ptr_ a + bytes) (u64 (alloc_bytes_remaining_ a - bytes)) a));
    mret (Some (alloc_ptr_ a))
  else AllocateFallback bytes.

Definition align : Z := 8.
(** The bytes from the free pointer to the next aligned address. *)
Definition slop (p : Z) : Z := let current_mod := p .& (align - 1) in if current_mod =? 0 then 0 else align - current_mod.
Definition AllocateAligned (bytes : Z) : ST ArenaEasy (option Z) :=
  _ ← assert_ ((align .& (align - 1)) =? 0);
  a ← reads Some;
  let needed := u64 (bytes + slop (alloc_ptr_ a)) in
  served ← (if needed <=? alloc_bytes_remaining_ a then
              _ ← update (fun a => Some (with_free (alloc_ptr_ a + needed) (u64 (alloc_bytes_remaining_ a - needed)) a));
              mret (Some (alloc_ptr_ a + slop (alloc_ptr_ a)))
            else AllocateFallback bytes);
  match served with
  | None => mret None
  | Some result => _ ← assert_ ((result .& (align - 1)) =? 0); mret (Some result)
  end.

(** The destructor frees the blocks in turn. *)
Fixpoint free_all (ps : list Z) (h : heap) : option heap :=
  match ps with [] => Some h | p :: ps => h ← system_free p h; free_all ps h end.
Definition ArenaEasy_delete (a : ArenaEasy) : option heap := free_all (blocks_ a) (heap_ a).

End arena_easy.
End ArenaEasy.

Section arena.
Context `{SystemAllocator}.

(** ** [Arena] *)

Definition kDefaultAlignment : Z := 8.
Definition pointer_size : Z := 8.
Definition kMinBlockSize : Z := 1024.
Definition kMaxBlockSize : Z := 2 ^ 31.
Definition kAlignUnit : Z := 8.

Definition OptimizeBlockSize (block_size : Z) : Z :=
  let block_size := Z.max kMinBlockSize block_size in
  let block_size := Z.min kMaxBlockSize block_size in
  if negb (block_size mod kAlignUnit =? 0) then u64 ((1 + block_size / kAlignUnit) * kAlignUnit) else block_size.

Record AllocatedBlock := { mem : Z; size : Z }.

Record Arena := {
  remaining_ : Z;
  block_size_ : Z;
  freestart_ : Z;
  freestart_when_empty_ : Z;
  blocks_alloced_ : nat;
  first_blocks_ : list AllocatedBlock;
  overflow_blocks_ : option (list AllocatedBlock);
  aheap_ : heap
}.
Definition kFirstBlocks : nat := 16.

Definition with_free (p n : Z) (a : Arena) : Arena :=
  {| remaining_ := n; block_size_ := block_size_ a; freestart_ := p; freestart_when_empty_ := freestart_when_empty_ a;
     blocks_alloced_ := blocks_alloced_ a; first_blocks_ := first_blocks_ a; overflow_blocks_ := overflow_blocks_ a; aheap_ := aheap_ a |}.
Definition with_when_empty (p : Z) (a : Arena) : Arena :=
  {| remaining_ := remaining_ a; block_size_ := block_size_ a; freestart_ := freestart_ a; freestart_when_empty_ := p;
     blocks_alloced_ := blocks_alloced_ a; first_blocks_ := first_blocks_ a; overflow_blocks_ := overflow_blocks_ a; aheap_ := aheap_ a |}.
Definition with_blocks (n : nat) (bs : list AllocatedBlock) (os : option (list AllocatedBlock)) (h : heap) (a : Arena) : Arena :=
  {| remaining_ := remaining_ a; block_size_ := block_size_ a; freestart_ := freestart_ a; freestart_when_empty_ := freestart_when_empty_ a;
     blocks_alloced_ := n; first_blocks_ := bs; overflow_blocks_ := os; aheap_ := h |}.

Definition SatisfyAlignment (alignment : Z) : ST Arena bool :=
  a ← reads Some;
  let overage := freestart_ a .& (alignment - 1) in
  if overage >? 0 then
    let waste := alignment - overage in
    if waste >=? remaining_ a then mret false
    else
      _ ← update (fun a => Some (with_free (freestart_ a + waste) (u64 (remaining_ a - waste)) a));
      mret true
  else mret true.

(** Euclid's algorithm on [uint32_t]: the second argument decreases. *)
Fixpoint GCD_loop (fuel : nat) (x y : Z) : Z :=
  match fuel with
  | O => x
  | S fuel => if y =? 0 then x else GCD_loop fuel y (x mod y)
  end.
Definition GCD (x y : Z) : Z := GCD_loop (S (Z.to_nat y)) x y.
Definition LeastCommonMultiple (a b : Z) : Z :=
  if a >? b then u32 (a / GCD a b * b) else if a <? b then u32 (b / GCD b a * a) else a.

(** The alignment and the size of a new block. *)
Definition adjusted_alignment (alignment : Z) : Z :=
  Z.max (if alignment >? 1 then LeastCommonMultiple alignment kDefaultAlignment else 1) pointer_size.
Definition adjusted_block_size (block_size alignment : Z) : Z :=
  if block_size >? adjusted_alignment alignment then
    let excess := block_size mod adjusted_alignment alignment in
    u64 (block_size + (if excess >? 0 then adjusted_alignment alignment - excess else 0))
  else block_size.

Definition AllocNewBlock (block_size alignment : Z) : ST Arena AllocatedBlock := fun a =>
  let size := adjusted_block_size block_size alignment in
  let '(p, h) := AlignedMalloc size (i32 (adjusted_alignment alignment)) (aheap_ a) in
  let block := {| mem := p; size := size |} in
  Some (block,
    if (blocks_alloced_ a <? kFirstBlocks)%nat
    then with_blocks (S (blocks_alloced_ a)) (<[blocks_alloced_ a := block]> (first_blocks_ a)) (overflow_blocks_ a) h a
    else with_blocks (blocks_alloced_ a) (first_blocks_ a) (Some (default [] (overflow_blocks_ a) ++ [block])) h a).

Definition MakeNewBlock (alignment : Z) : ST Arena unit :=
  a ← reads Some;
  block ← AllocNewBlock (block_size_ a) alignment;
  update (fun a => Some (with_free (mem block) (size block) a)).

Definition GetMemoryFallback (size alignment : Z) : ST Arena Z :=
  if size =? 0 then mret nullptr
  else
    a ← reads Some;
    if (block_size_ a =? 0) || (size >? block_size_ a / 4) then
      block ← AllocNewBlock size alignment;
      mret (mem block)
    else
      satisfied ← SatisfyAlignment alignment;
      a ← reads Some;
      _ ← (if negb satisfied || (size >? remaining_ a) then MakeNewBlock alignment else mret tt);
      a ← reads Some;
      _ ← update (fun a => Some (with_free (freestart_ a + size) (u64 (remaining_ a - size)) a));
      mret (freestart_ a).

Definition GetMemory (size align : Z) : ST Arena Z :=
  a ← reads Some;
  _ ← assert_ (remaining_ a <=? block_size_ a);
  if (size >? 0) && (size <? remaining_ a) && (align =? 1) then
    _ ← update (fun a => Some (with_free (freestart_ a + size) (u64 (remaining_ a - size)) a));
    mret (freestart_ a)
  else GetMemoryFallback size align.

Definition Allocate (size : Z) : ST Arena Z := GetMemory size 1.
Definition AllocateAligned (size alignment : Z) : ST Arena Z := GetMemory size (i32 alignment).
Definition BlockSize (a : Arena) : Z := block_size_ a.

(** Free the blocks of a list; those of the array are cleared. *)
Fixpoint free_blocks (bs : list AllocatedBlock) (h : heap) : option heap :=
  match bs with [] => Some h | b :: bs => h ← AlignedFree (mem b) h; free_blocks bs h end.
Definition null_block : AllocatedBlock := {| mem := nullptr; size := 0 |}.
Definition FreeBlocks : ST Arena unit := update (fun a =>
  h ← free_blocks (drop 1 (take (blocks_alloced_ a) (first_blocks_ a))) (aheap_ a);
  h ← free_blocks (default [] (overflow_blocks_ a)) h;
  Some (with_blocks 1 (take 1 (first_blocks_ a) ++ repeat null_block (blocks_alloced_ a - 1) ++ drop (blocks_alloced_ a) (first_blocks_ a)) None h a)).

Definition Reset : ST Arena unit :=
  _ ← FreeBlocks;
  b ← reads (fun a => first_blocks_ a !! 0%nat);
  _ ← update (fun a => Some (with_free (mem b) (size b) a));
  update (fun a => Some (with_when_empty (freestart_ a) a)).

Definition Arena_new (block_size : Z) (h : heap) : option Arena :=
  if negb (block_size >? kDefaultAlignment) then None
  else
    let '(p, h) := AlignedMalloc block_size pointer_size h in
    '(_, a) ← Reset {| remaining_ := 0; block_size_ := block_size; freestart_ := nullptr; freestart_when_empty_ := nullptr; blocks_alloced_ := 1;
                        first_blocks_ := {| mem := p; size := block_size |} :: repeat null_block (kFirstBlocks - 1); overflow_blocks_ := None; aheap_ := h |};
    Some a.

(** The destructor. *)
Definition Arena_delete (a : Arena) : option heap :=
  '(_, a) ← FreeBlocks a;
  match overflow_blocks_ a with
  | None => free_blocks (take (blocks_alloced_ a) (first_blocks_ a)) (aheap_ a)
  | Some _ => None
  end.

End arena.
