(* ===== verification/ArenaPool.v ===== *)
(** * ArenaPool: what both arenas of [src/util/arena.cpp] promise

    An arena owns some blocks of the heap, one free region inside them, and has
    handed out regions that overlap neither each other nor the free one.  The
    system may refuse any block: an [ArenaEasy] passes the exception on and stays
    as it was; an [Arena] goes on with a null block, from which no assertion fails
    but which backs no region, so that its regions are promised only while no
    block of it is null ([arena_null_block] shows what happens then).  The
    destructors give every block back in all cases. *)

From S2P Require Import Prelude Store Arena.
#[local] Open Scope Z_scope.
#[local] Open Scope mycc_scope.

(** ** Regions *)

Lemma apart_sym r r' : apart r r' -> apart r' r.
Proof. unfold apart. tauto. Qed.
Lemma apart_inside r b r' : apart r' b -> inside r b -> apart r' r.
Proof. unfold apart, inside. lia. Qed.
Lemma inside_trans r b c : inside r b -> inside b c -> inside r c.
Proof. unfold inside. lia. Qed.

Definition pairwise_apart (rs : list region) : Prop := ForallOrdPairs apart rs.
Lemma pairwise_cons r rs : pairwise_apart (r :: rs) <-> (forall r', r' ∈ rs -> apart r r') /\ pairwise_apart rs.
Proof.
  unfold pairwise_apart. split.
  - intros H. inversion_clear H as [|? ? Hf Hp]. split; [|done]. rewrite Forall_forall in Hf. exact Hf.
  - intros [Hf Hp]. constructor; [|done]. by rewrite Forall_forall.
Qed.

(** The heap of the system: non-empty blocks that do not overlap, inside the address space. *)
Record heap_ok (h : heap) : Prop := {
  h_apart : pairwise_apart h;
  h_size r : r ∈ h -> 0 < r.1 /\ 0 < r.2 /\ r.1 + r.2 < 2 ^ 64
}.
Lemma heap_starts h : heap_ok h -> NoDup h.*1.
Proof.
  intros [Ha Hs]. induction h as [|r h IH]; [constructor|]. apply pairwise_cons in Ha as [Hr Ha]. cbn. constructor.
  - intros (r' & E & Hin)%list_elem_of_fmap. specialize (Hr r' Hin). pose proof (Hs r ltac:(set_solver)). pose proof (Hs r' ltac:(set_solver)).
    unfold apart in Hr. lia.
  - apply IH; [done|]. intros r' Hin. apply Hs. set_solver.
Qed.
Lemma pairwise_perm rs rs' : rs ≡ₚ rs' -> pairwise_apart rs -> pairwise_apart rs'.
Proof.
  induction 1 as [|r l l' HP IH|r1 r2 l|l1 l2 l3 H1 IH1 H2 IH2]; intros H; [done| | |auto].
  - apply pairwise_cons in H as [Hr H]. apply pairwise_cons. split; [|auto]. intros r' Hin. apply Hr. by rewrite HP.
  - apply pairwise_cons in H as [Hr1 H]. apply pairwise_cons in H as [Hr2 H]. apply pairwise_cons. split.
    + intros r' [->|Hin]%elem_of_cons; [apply apart_sym, Hr1; set_solver|by apply Hr2].
    + apply pairwise_cons. split; [|done]. intros r' Hin. apply Hr1. set_solver.
Qed.
Lemma heap_perm h h' : h ≡ₚ h' -> heap_ok h -> heap_ok h'.
Proof. intros HP [Ha Hs]. split; [by eapply pairwise_perm|]. intros r Hr. apply Hs. by rewrite HP. Qed.
Lemma heap_app h h' : heap_ok (h ++ h') -> heap_ok h'.
Proof.
  induction h as [|r h IH]; [done|]. intros [Ha Hs]. cbn in Ha. apply pairwise_cons in Ha as [_ Ha]. apply IH. split; [done|].
  intros r' Hr'. apply Hs. set_solver.
Qed.

Lemma release_ok h p n : (p, n) ∈ h -> NoDup h.*1 -> exists h', release p h = Some h' /\ h ≡ₚ (p, n) :: h'.
Proof.
  induction h as [|r h IH]; [set_solver|]. intros Hin HN. cbn in HN. apply NoDup_cons in HN as [Hr HN]. cbn [release].
  destruct (Z.eqb_spec r.1 p) as [E|E].
  - exists h. split; [done|]. apply elem_of_cons in Hin as [Er|Hin]; [by rewrite Er|]. exfalso. apply Hr. rewrite E. apply list_elem_of_fmap. by exists (p, n).
  - apply elem_of_cons in Hin as [Er|Hin]; [by rewrite <- Er in E|]. destruct (IH Hin HN) as (h' & -> & HP). exists (r :: h'). split; [done|]. rewrite HP. constructor.
Qed.

Lemma system_free_ok h p n : heap_ok h -> (p, n) ∈ h -> exists h', system_free p h = Some h' /\ h ≡ₚ (p, n) :: h'.
Proof.
  intros Hok Hin. unfold system_free. pose proof (h_size h Hok _ Hin) as [Hp _]. cbn in Hp. rewrite (proj2 (Z.eqb_neq _ _)) by (unfold nullptr; lia).
  apply release_ok; [done|by apply heap_starts].
Qed.

Section pool.

Lemma alloc_ok h p size al : heap_ok h -> fits h p size al -> 0 < size -> heap_ok ((p, size) :: h).
Proof.
  intros [Ha Hs] [H1 H2 _ H4] Hsz. split.
  - apply pairwise_cons. split; done.
  - intros r [->|Hr]%elem_of_cons; [done|by apply Hs].
Qed.

(** [bl]: the blocks of the arena; [h0]: those of others; [free]: what is left of the current
    block; [rs]: what was handed out. *)
Record pool (h0 h bl : heap) (free : region) (rs : list region) : Prop := {
  pl_ok : heap_ok h;
  pl_heap : h ≡ₚ bl ++ h0;
  pl_free : 0 <= free.2 /\ (free.2 = 0 \/ exists b, b ∈ bl /\ inside free b);
  pl_in r : r ∈ rs -> exists b, b ∈ bl /\ inside r b;
  pl_free_apart r : r ∈ rs -> free.2 = 0 \/ apart r free;
  pl_apart : pairwise_apart rs
}.

Lemma pool_skip h0 h bl p n rs w : pool h0 h bl (p, n) rs -> 0 <= w <= n -> pool h0 h bl (p + w, n - w) rs.
Proof.
  intros [Hok HP [Hn Hf] Hin Hfa Ha] Hw. constructor; try done; cbn in *.
  - split; [lia|]. destruct (decide (n - w = 0)); [by left|right]. destruct Hf as [|(b & Hb & Hi)]; [lia|]. exists b. split; [done|].
    unfold inside in *. cbn in *. lia.
  - intros r Hr. destruct (Hfa r Hr) as [|Hr']; [left; lia|right]. unfold apart in *. cbn in *. lia.
Qed.
(** A piece of the free region. *)
Lemma pool_carve h0 h bl p n rs k : pool h0 h bl (p, n) rs -> 0 < k <= n -> pool h0 h bl (p + k, n - k) ((p, k) :: rs).
Proof.
  intros P Hk. pose proof (pool_skip _ _ _ _ _ _ k P ltac:(lia)) as [Hok HP Hf Hin Hfa Ha]. pose proof (pl_free _ _ _ _ _ P) as [_ Hb]. cbn in Hb.
  destruct Hb as [|(b & Hb & Hi)]; [lia|]. constructor; try done.
  - intros r [->|Hr]%elem_of_cons; [|by apply Hin]. exists b. split; [done|]. unfold inside in *. cbn in *. lia.
  - intros r [->|Hr]%elem_of_cons; [|by apply Hfa]. right. unfold apart. cbn. lia.
  - apply pairwise_cons. split; [|done]. intros r Hr. destruct (pl_free_apart _ _ _ _ _ P r Hr) as [?|Hr']; [cbn in *; lia|].
    unfold apart in *. cbn in *. lia.
Qed.
(** A new block, for one region or as the current one. *)
Lemma pool_block h0 h bl free rs p size al bl' : pool h0 h bl free rs -> fits h p size al -> 0 < size ->
  bl' ≡ₚ (p, size) :: bl -> pool h0 ((p, size) :: h) bl' free rs.
Proof.
  intros [Hok HP [Hn Hf] Hin Hfa Ha] Hfit Hsz HP'. constructor; try done.
  - by eapply alloc_ok.
  - rewrite HP'. by constructor.
  - split; [done|]. destruct Hf as [|(b & Hb & Hi)]; [by left|right]. exists b. split; [|done]. rewrite HP'. set_solver.
  - intros r Hr. destruct (Hin r Hr) as (b & Hb & Hi). exists b. split; [|done]. rewrite HP'. set_solver.
Qed.
Lemma pool_fresh h0 h bl free rs p size al : pool h0 h bl free rs -> fits h p size al -> forall b, b ∈ bl -> apart (p, size) b.
Proof. intros P Hfit b Hb. apply (ft_apart _ _ _ _ Hfit). rewrite (pl_heap _ _ _ _ _ P). set_solver. Qed.
Lemma pool_own h0 h bl free rs p size al bl' k : pool h0 h bl free rs -> fits h p size al -> 0 < k <= size ->
  bl' ≡ₚ (p, size) :: bl -> pool h0 ((p, size) :: h) bl' free ((p, k) :: rs).
Proof.
  intros P Hfit Hk HP'. pose proof (pool_fresh _ _ _ _ _ p size al P Hfit) as Hfr. pose proof (pool_block _ _ _ _ _ p size al bl' P Hfit ltac:(lia) HP') as P'.
  destruct P' as [Hok HP [Hn Hf] Hin Hfa Ha]. constructor; try done.
  - intros r [->|Hr]%elem_of_cons; [|by apply Hin]. exists (p, size). split; [rewrite HP'; set_solver|]. unfold inside. cbn. lia.
  - intros r [->|Hr]%elem_of_cons; [|by apply Hfa]. destruct (pl_free _ _ _ _ _ P) as [_ [|(b & Hb & Hi)]]; [by left|right].
    specialize (Hfr b Hb). unfold apart, inside in *. cbn in *. lia.
  - apply pairwise_cons. split; [|done]. intros r Hr. destruct (pl_in _ _ _ _ _ P r Hr) as (b & Hb & Hi). specialize (Hfr b Hb). unfold apart, inside in *. cbn in *. lia.
Qed.
Lemma pool_current h0 h bl free rs p size al bl' : pool h0 h bl free rs -> fits h p size al -> 0 < size ->
  bl' ≡ₚ (p, size) :: bl -> pool h0 ((p, size) :: h) bl' (p, size) rs.
Proof.
  intros P Hfit Hsz HP'. pose proof (pool_fresh _ _ _ _ _ p size al P Hfit) as Hfr. pose proof (pool_block _ _ _ _ _ p size al bl' P Hfit Hsz HP') as P'.
  destruct P' as [Hok HP _ Hin _ Ha]. constructor; try done.
  - cbn. split; [lia|right]. exists (p, size). split; [rewrite HP'; set_solver|]. unfold inside. cbn. lia.
  - intros r Hr. right. destruct (pl_in _ _ _ _ _ P r Hr) as (b & Hb & Hi). specialize (Hfr b Hb). unfold apart, inside in *. cbn in *. lia.
Qed.

(** The blocks go back in any order; the null ones among them are nothing. *)
Lemma free_list_ok (ps : list Z) : forall h bl h0, heap_ok h -> h ≡ₚ bl ++ h0 -> filter (fun p => p <> nullptr) ps = bl.*1 ->
  exists h', ArenaEasy.free_all ps h = Some h' /\ h' ≡ₚ h0.
Proof.
  induction ps as [|p ps IH]; intros h bl h0 Hok HP E.
  - destruct bl; [|done]. by exists h.
  - rewrite filter_cons in E. cbn [ArenaEasy.free_all]. destruct (decide (p <> nullptr)) as [Hp|Hp].
    + destruct bl as [|[q n] bl]; [done|]. injection E as -> E. destruct (system_free_ok h q n) as (h' & Ef & HP'); [done|rewrite HP; set_solver|].
      assert (h' ≡ₚ bl ++ h0) as HP2 by (apply (Permutation_cons_inv (a := (q, n))); rewrite <- HP', HP; done).
      destruct (IH h' bl h0) as (h2 & E2 & HP3); [|done|done|].
      { apply (heap_app [(q, n)]). cbn. by eapply heap_perm. }
      exists h2. by rewrite Ef.
    + assert (p = nullptr) as -> by lia. by apply (IH h bl h0).
Qed.
Lemma filter_live (ps : list Z) (bl h : heap) : heap_ok h -> (forall b, b ∈ bl -> b ∈ h) -> ps = bl.*1 -> filter (fun p => p <> nullptr) ps = bl.*1.
Proof.
  intros Hok Hin ->. induction bl as [|b bl IH]; [done|]. cbn [fmap list_fmap]. rewrite filter_cons_True.
  - f_equal. apply IH. set_solver.
  - pose proof (h_size h Hok b ltac:(set_solver)). unfold nullptr. lia.
Qed.
End pool.

(** ** [ArenaEasy] *)

Lemma pairwise_app l l' r r' : pairwise_apart (l ++ l') -> r ∈ l -> r' ∈ l' -> apart r r'.
Proof.
  induction l as [|x l IH]; [set_solver|]. cbn. intros [Hx Hp]%pairwise_cons [->|Hr]%elem_of_cons Hr'; [apply Hx; set_solver|by apply IH].
Qed.
Lemma land_7 x : x .& (8 - 1) = x mod 8.
Proof. change (8 - 1) with (Z.ones 3). rewrite Z.land_ones by lia. done. Qed.
Lemma u64_fits x : 0 <= x < 2 ^ 64 -> u64 x = x.
Proof. apply Z.mod_small. Qed.

(** Regions in the blocks of a pool are allocated and apart from the blocks of others. *)
Lemma pool_regions h0 h bl free rs r : pool h0 h bl free rs -> r ∈ rs ->
  (exists b, b ∈ h /\ inside r b) /\ forall r0, r0 ∈ h0 -> apart r r0.
Proof.
  intros [Hoka HP Hf Hin Hfa Ha] Hr. destruct (Hin r Hr) as (b & Hbb & Hi). split.
  - exists b. split; [rewrite HP; set_solver|done].
  - intros r0 Hr0. destruct Hoka as [Hpa _]. pose proof (pairwise_perm _ _ HP Hpa) as Hpa2. pose proof (pairwise_app _ _ _ _ Hpa2 Hbb Hr0) as Hap.
    apply apart_sym. eapply apart_inside; [|done]. by apply apart_sym.
Qed.

Section easy.
Import ArenaEasy.
Context `{SystemAllocator}.

Definition usage (bl : heap) : Z := fold_right (fun b n => b.2 + 8 + n) 0 bl.
Record easy_ok (h0 : heap) (a : ArenaEasy) (bl : heap) (rs : list region) : Prop := {
  eo_pool : pool h0 (heap_ a) bl (alloc_ptr_ a, alloc_bytes_remaining_ a) rs;
  eo_blocks : blocks_ a = bl.*1;
  eo_bound : alloc_bytes_remaining_ a <= kBlockSize;
  eo_usage : MemoryUsage a = u64 (usage bl)
}.

Lemma usage_snoc bl b : usage (bl ++ [b]) = usage bl + b.2 + 8.
Proof. unfold usage. induction bl as [|c bl IH]; cbn in *; lia. Qed.
Lemma snoc_perm {A} (l : list A) x : l ++ [x] ≡ₚ x :: l.
Proof. solve_Permutation. Qed.

(** A block that becomes the current one, and a block for one request. *)
Lemma AllocateNewBlock_ok h0 a bl rs n p : easy_ok h0 a bl rs -> 0 < n -> operator_new (heap_ a) n = Some p -> exists a', AllocateNewBlock n a = Some (Some p, a') /\
  p mod 8 = 0 /\ blocks_ a' = (bl ++ [(p, n)]).*1 /\ MemoryUsage a' = u64 (usage (bl ++ [(p, n)])) /\
  alloc_ptr_ a' = alloc_ptr_ a /\ alloc_bytes_remaining_ a' = alloc_bytes_remaining_ a /\
  pool h0 (heap_ a') (bl ++ [(p, n)]) (p, n) rs /\
  forall k, 0 < k <= n -> pool h0 (heap_ a') (bl ++ [(p, n)]) (alloc_ptr_ a, alloc_bytes_remaining_ a) ((p, k) :: rs).
Proof.
  intros [P Eb Hb Hu] Hn Hp. pose proof (operator_new_fits _ _ _ Hn Hp) as Hfit. eexists. split; [unfold AllocateNewBlock; by rewrite Hp|].
  cbn [blocks_ memory_usage_ MemoryUsage heap_ alloc_ptr_ alloc_bytes_remaining_]. split; [|split; [by rewrite Eb, fmap_app|split]].
  - pose proof (ft_aligned _ _ _ _ Hfit) as Hal. unfold new_alignment in Hal. apply Z.mod_divide; [lia|]. apply Z.mod_divide in Hal; [|lia]. by apply (Z.divide_trans _ 16); [exists 2|].
  - rewrite usage_snoc, Hu. cbn [snd]. unfold wrap. rewrite <- Z.add_assoc, Zplus_mod_idemp_l. f_equal. lia.
  - split; [done|]. split; [done|]. split.
    + by apply (pool_current h0 _ bl _ rs p n new_alignment _ P Hfit), snoc_perm.
    + intros k Hk. by apply (pool_own h0 _ bl _ rs p n new_alignment _ k P Hfit), snoc_perm.
Qed.

(** What a request comes to: a region, or an exception and the arena as it was, when the system
    has refused the block it takes. *)
Definition block_bytes (bytes : Z) : Z := if bytes >? kBlockSize / 4 then bytes else kBlockSize.
Definition answered (h0 : heap) (a : ArenaEasy) (rs : list region) (n : Z) (aligned : bool) (r : option Z) (a' : ArenaEasy) : Prop :=
  match r with
  | Some p => (exists bl', easy_ok h0 a' bl' ((p, n) :: rs)) /\ (aligned = true -> p mod 8 = 0)
  | None => a' = a /\ operator_new (heap_ a) (block_bytes n) = None
  end.
Lemma AllocateFallback_ok h0 a bl rs n b : easy_ok h0 a bl rs -> 0 < n -> exists r a', AllocateFallback n a = Some (r, a') /\ answered h0 a rs n b r a'.
Proof.
  intros E Hn. unfold AllocateFallback. assert (0 < block_bytes n) as Hb by (unfold block_bytes; destruct (n >? _); [lia|done]).
  destruct (operator_new (heap_ a) (block_bytes n)) as [p|] eqn:Ep.
  - destruct (AllocateNewBlock_ok h0 a bl rs _ p E Hb Ep) as (a' & Ea & Hp & Eb & Eu & E1 & E2 & Hcur & Hown). unfold block_bytes in *.
    destruct (Z.gtb_spec n (kBlockSize / 4)) as [Hgt|Hle].
    + exists (Some p), a'. split; [done|]. split; [|done]. exists (bl ++ [(p, n)]).
      constructor; [rewrite E1, E2; apply Hown; lia|done|rewrite E2; apply E|done].
    + change (kBlockSize / 4) with 1024 in Hle. exists (Some p). eexists. split; [eapply bind_run; [exact Ea|]; by eapply bind_update|].
      split; [|done]. exists (bl ++ [(p, kBlockSize)]). unfold kBlockSize in *.
      constructor; cbn [heap_ blocks_ alloc_ptr_ alloc_bytes_remaining_ with_free MemoryUsage memory_usage_].
      * rewrite u64_fits by lia. apply pool_carve; [exact Hcur|lia].
      * exact Eb.
      * rewrite u64_fits; unfold kBlockSize; lia.
      * exact Eu.
  - exists None, a. split; [|done]. unfold block_bytes in Ep. destruct (n >? kBlockSize / 4).
    + unfold AllocateNewBlock. by rewrite Ep.
    + eapply bind_run; [unfold AllocateNewBlock; by rewrite Ep|done].
Qed.
Lemma easy_Allocate_ok h0 a bl rs n : easy_ok h0 a bl rs -> 0 < n -> exists r a', Allocate n a = Some (r, a') /\ answered h0 a rs n false r a'.
Proof.
  intros E Hn. unfold Allocate. rewrite (proj2 (Z.gtb_lt n 0)) by done. cbn [assert_]. destruct (Z.leb_spec n (alloc_bytes_remaining_ a)) as [Hle|Hgt].
  - destruct E as [P Eb Hb Hu]. unfold kBlockSize in *. do 2 eexists. split.
    { rewrite bind_ret. eapply bind_reads; [done|]. rewrite (proj2 (Z.leb_le _ _)) by done. by eapply bind_update. }
    split; [|done]. exists bl. constructor; cbn [heap_ blocks_ alloc_ptr_ alloc_bytes_remaining_ with_free MemoryUsage memory_usage_]; [|exact Eb| |exact Hu].
    + rewrite u64_fits by lia. apply pool_carve; [exact P|lia].
    + rewrite u64_fits; unfold kBlockSize; lia.
  - destruct (AllocateFallback_ok h0 a bl rs n false E Hn) as (r & a' & Ea & E'). exists r, a'. split; [|done].
    rewrite bind_ret. eapply bind_reads; [done|]. by rewrite (proj2 (Z.leb_gt _ _)).
Qed.

Lemma slop_ok p : 0 <= slop p < 8 /\ (p + slop p) mod 8 = 0.
Proof.
  unfold slop, align. rewrite land_7. pose proof (Z.mod_pos_bound p 8 ltac:(lia)). destruct (Z.eqb_spec (p mod 8) 0) as [E|E]; [split; [lia|]; by rewrite Z.add_0_r|].
  split; [lia|]. rewrite (Z.div_mod p 8) at 1 by lia. replace (8 * (p / 8) + p mod 8 + (8 - p mod 8)) with ((p / 8 + 1) * 8) by lia. apply Z_mod_mult.
Qed.
(** The bytes skipped and those asked for are what is left of the block, or come from a new one. *)
Lemma easy_aligned_part h0 a bl rs n : easy_ok h0 a bl rs -> 0 < n <= 2 ^ 64 - 8 -> exists r a',
  (if u64 (n + slop (alloc_ptr_ a)) <=? alloc_bytes_remaining_ a then
     _ ← update (fun a0 => Some (with_free (alloc_ptr_ a0 + u64 (n + slop (alloc_ptr_ a))) (u64 (alloc_bytes_remaining_ a0 - u64 (n + slop (alloc_ptr_ a)))) a0));
     mret (Some (alloc_ptr_ a + slop (alloc_ptr_ a)))
   else AllocateFallback n) a = Some (r, a') /\ answered h0 a rs n true r a'.
Proof.
  intros E Hn. pose proof (slop_ok (alloc_ptr_ a)) as [Hs Hsa].
  rewrite u64_fits by lia. destruct (Z.leb_spec (n + slop (alloc_ptr_ a)) (alloc_bytes_remaining_ a)) as [Hle|Hgt].
  - destruct E as [P Eb Hb Hu]. unfold kBlockSize in *. do 2 eexists. split; [by eapply bind_update|]. split; [|by intros _]. exists bl.
    constructor; cbn [heap_ blocks_ alloc_ptr_ alloc_bytes_remaining_ with_free MemoryUsage memory_usage_]; [|exact Eb| |exact Hu].
    + rewrite u64_fits by lia. pose proof (pool_skip _ _ _ _ _ _ (slop (alloc_ptr_ a)) P ltac:(lia)) as P2.
      pose proof (pool_carve _ _ _ _ _ _ n P2 ltac:(lia)) as P3.
      replace (alloc_ptr_ a + (n + slop (alloc_ptr_ a))) with (alloc_ptr_ a + slop (alloc_ptr_ a) + n) by lia.
      replace (alloc_bytes_remaining_ a - (n + slop (alloc_ptr_ a))) with (alloc_bytes_remaining_ a - slop (alloc_ptr_ a) - n) by lia. exact P3.
    + rewrite u64_fits; unfold kBlockSize; lia.
  - apply (AllocateFallback_ok h0 a bl); [done|lia].
Qed.
Lemma easy_AllocateAligned_ok h0 a bl rs n : easy_ok h0 a bl rs -> 0 < n <= 2 ^ 64 - 8 ->
  exists r a', AllocateAligned n a = Some (r, a') /\ answered h0 a rs n true r a'.
Proof.
  intros E Hn. unfold AllocateAligned. destruct (easy_aligned_part h0 a bl rs n E Hn) as (r & a' & Ea & Hans).
  exists r, a'. split; [|done]. change ((align .& (align - 1)) =? 0) with true. cbn [assert_]. rewrite bind_ret. eapply bind_reads; [done|].
  eapply bind_run; [exact Ea|]. destruct r as [p|]; [|done]. destruct Hans as [_ Hp]. unfold align. by rewrite land_7, Hp.
Qed.

(** A client's requests: the bytes, aligned or not.  It goes on after an exception. *)
Definition easy_request (q : bool * Z) : ST ArenaEasy (option Z) := if q.1 then AllocateAligned q.2 else Allocate q.2.
Fixpoint easy_run (qs : list (bool * Z)) : ST ArenaEasy (list (option Z)) :=
  match qs with [] => mret [] | q :: qs => r ← easy_request q; rs ← easy_run qs; mret (r :: rs) end.
(** What was handed out, the last first. *)
Fixpoint handed_out (qs : list (bool * Z)) (ps : list (option Z)) (rs : list region) : list region :=
  match qs, ps with
  | q :: qs, Some p :: ps => handed_out qs ps ((p, q.2) :: rs)
  | _ :: qs, None :: ps => handed_out qs ps rs
  | _, _ => rs
  end.
Definition easy_aligned (q : bool * Z) (r : option Z) : Prop := forall p, r = Some p -> q.1 = true -> p mod 8 = 0.

Lemma easy_request_ok h0 a bl rs q : easy_ok h0 a bl rs -> 0 < q.2 <= 2 ^ 64 - 8 -> exists r a', easy_request q a = Some (r, a') /\ answered h0 a rs q.2 q.1 r a'.
Proof.
  intros E Hq. destruct q as [[|] n]; cbn in *; [by eapply easy_AllocateAligned_ok|]. eapply easy_Allocate_ok; [done|lia].
Qed.
Lemma easy_run_ok qs : forall h0 a bl rs, easy_ok h0 a bl rs -> Forall (fun q => 0 < q.2 <= 2 ^ 64 - 8) qs ->
  exists ps a' bl', easy_run qs a = Some (ps, a') /\ easy_ok h0 a' bl' (handed_out qs ps rs) /\ Forall2 easy_aligned qs ps.
Proof.
  induction qs as [|q qs IH]; intros h0 a bl rs E Hqs; cbn [easy_run].
  - exists [], a, bl. split; [done|]. split; [|constructor]. done.
  - apply Forall_cons in Hqs as [Hq Hqs]. destruct (easy_request_ok h0 a bl rs q E Hq) as (r & a1 & E1 & Hans).
    assert (exists bl1, easy_ok h0 a1 bl1 (handed_out [q] [r] rs) /\ easy_aligned q r) as (bl1 & Ok1 & Hal).
    { destruct r as [p|]; cbn in Hans.
      - destruct Hans as [(bl1 & Ok1) Hal]. exists bl1. split; [done|]. by intros ? [= <-].
      - destruct Hans as [-> _]. by exists bl. }
    destruct (IH h0 a1 bl1 _ Ok1 Hqs) as (ps & a2 & bl2 & E2 & Ok2 & Hal2). exists (r :: ps), a2, bl2. split; [|split].
    + eapply bind_run; [exact E1|]. eapply bind_run; [exact E2|]. done.
    + by destruct r.
    + by constructor.
Qed.

(** C18. Requests to an [ArenaEasy] for 1 to 2^64 - 8 bytes, of which the system may refuse any:
    each returns a region or throws, and no assertion fails; what was handed out does not overlap
    itself or any block of others, lies in blocks that are allocated, and is aligned to 8 where
    that was asked for; the usage is the sum of the blocks with 8 bytes for each; the destructor
    frees exactly the blocks of the arena; and a further request throws only when the system has
    refused the block it takes, and leaves the arena as it was. *)
Theorem arena_easy_allocates (h0 : heap) (qs : list (bool * Z)) : heap_ok h0 -> Forall (fun q => 0 < q.2 <= 2 ^ 64 - 8) qs ->
  exists ps a bl, easy_run qs (ArenaEasy_new h0) = Some (ps, a) /\
    pairwise_apart (handed_out qs ps []) /\
    (forall r, r ∈ handed_out qs ps [] -> (exists b, b ∈ heap_ a /\ inside r b) /\ forall r0, r0 ∈ h0 -> apart r r0) /\
    Forall2 easy_aligned qs ps /\
    heap_ok (heap_ a) /\ heap_ a ≡ₚ bl ++ h0 /\ MemoryUsage a = u64 (usage bl) /\
    (exists h', ArenaEasy_delete a = Some h' /\ h' ≡ₚ h0) /\
    forall q, 0 < q.2 <= 2 ^ 64 - 8 -> exists r a', easy_request q a = Some (r, a') /\
      (r = None -> a' = a /\ operator_new (heap_ a) (block_bytes q.2) = None).
Proof.
  intros Hok Hqs. destruct (easy_run_ok qs h0 (ArenaEasy_new h0) [] []) as (ps & a & bl & Er & Ok & Hal); [|done|].
  - constructor; try done. constructor; cbn; try done; [split; [lia|by left]|set_solver|set_solver|constructor].
  - exists ps, a, bl. pose proof Ok as [P Eb Hb Hu]. pose proof P as [Hoka HP _ _ _ Ha]. split_and!; try done.
    + intros r Hr. by eapply pool_regions.
    + eapply free_list_ok; [exact Hoka|exact HP|]. apply (filter_live _ bl (heap_ a) Hoka); [|exact Eb]. intros b Hin. rewrite HP. set_solver.
    + intros q Hq. destruct (easy_request_ok h0 a bl _ q Ok Hq) as (r & a2 & E2 & Hans). exists r, a2. split; [done|]. intros ->. exact Hans.
Qed.
End easy.

(** ** [Arena] *)


Section arena.
Context `{SystemAllocator}.



















(** A client's requests; [Reset] takes everything back. *)
Inductive request := RAllocate (n : Z) | RAllocateAligned (n k : Z) | RReset.
Definition serve (q : request) : ST Arena Z :=
  match q with
  | RAllocate n => Allocate n
  | RAllocateAligned n k => AllocateAligned n (2 ^ k)
  | RReset => _ ← Reset; mret nullptr
  end.
Fixpoint serve_all (qs : list request) : ST Arena (list Z) :=
  match qs with [] => mret [] | q :: qs => p ← serve q; ps ← serve_all qs; mret (p :: ps) end.



End arena.

(** ** An allocator that satisfies the contract *)

(** Behind everything that is allocated, while that lasts: [limit] is the end of the memory. *)
Definition heap_end (h : heap) : Z := fold_right (fun r m => Z.max m (r.1 + r.2)) 1 h.
Lemma heap_end_ok h r : r ∈ h -> r.1 + r.2 <= heap_end h.
Proof. unfold heap_end. induction h as [|r' h IH]; [set_solver|]. intros [->|Hin]%elem_of_cons; cbn; [lia|]. specialize (IH Hin). lia. Qed.
Lemma heap_end_pos h : 1 <= heap_end h.
Proof. unfold heap_end. induction h; cbn; lia. Qed.
Definition bump (h : heap) (size alignment : Z) : Z := let al := Z.max 1 alignment in (heap_end h + al - 1) / al * al.
Lemma bump_ge h size alignment : heap_end h <= bump h size alignment.
Proof.
  unfold bump. set (al := Z.max 1 alignment). pose proof (Z.mod_pos_bound (heap_end h + al - 1) al ltac:(lia)) as Hm.
  pose proof (Z.div_mod (heap_end h + al - 1) al ltac:(lia)). lia.
Qed.
Definition bump_alloc (limit : Z) (h : heap) (size alignment : Z) : option Z :=
  let p := bump h size alignment in if p + size <? Z.min limit (2 ^ 64) then Some p else None.
Lemma bump_fits limit h size k p : 0 <= k -> bump_alloc limit h size (2 ^ k) = Some p -> fits h p size (2 ^ k).
Proof.
  unfold bump_alloc. intros Hk. destruct (Z.ltb_spec (bump h size (2 ^ k) + size) (Z.min limit (2 ^ 64))) as [Hl|]; [|done]. intros [= <-].
  pose proof (heap_end_pos h). pose proof (bump_ge h size (2 ^ k)). constructor; [lia|lia| |].
  - unfold bump. rewrite Z.max_r; [apply Z_mod_mult|]. change 1 with (2 ^ 0). apply Z.pow_le_mono_r; lia.
  - intros r Hr. right. cbn. pose proof (heap_end_ok h r Hr). lia.
Qed.
Definition bump_allocator (limit : Z) : SystemAllocator.
Proof.
  refine {| malloc h size := bump_alloc limit h size 16; posix_memalign h alignment size := bump_alloc limit h size alignment;
            operator_new h size := bump_alloc limit h size 16 |}.
  - intros h size p _. by apply (bump_fits limit h size 4).
  - intros h k size p Hk _. apply bump_fits. lia.
  - intros h size p _. by apply (bump_fits limit h size 4).
Defined.

Lemma one_block_ok : heap_ok [(16, 32)].
Proof. split; [apply pairwise_cons; split; [set_solver|constructor]|]. intros r ->%list_elem_of_singleton. cbn. lia. Qed.

(** 12 KiB of memory: the block for 5000 bytes and the second for small requests are given,
    the one for 9000 bytes is refused. *)
Definition easy_requests : list (bool * Z) := [(false, 3); (true, 100); (true, 5000); (true, 9000); (false, 4000); (true, 200)].
Lemma arena_easy_allocates_witness : exists ps a, easy_run (H := bump_allocator 12288) easy_requests (ArenaEasy.ArenaEasy_new [(16, 32)]) = Some (ps, a) /\
    ps = [Some 48; Some 56; Some 4144; None; None; Some 160] /\
    pairwise_apart (handed_out easy_requests ps []) /\ exists h', ArenaEasy.ArenaEasy_delete a = Some h' /\ h' ≡ₚ [(16, 32)].
Proof.
  destruct (arena_easy_allocates (H := bump_allocator 12288) [(16, 32)] easy_requests one_block_ok) as (ps & a & bl & E & Hp & _ & _ & _ & _ & _ & Hd & _).
  - unfold easy_requests. repeat apply Forall_cons_2; try apply Forall_nil_2; cbn; lia.
  - exists ps, a. split; [exact E|]. split; [|by split].
    assert (exists r, easy_run (H := bump_allocator 12288) easy_requests (ArenaEasy.ArenaEasy_new [(16, 32)]) = Some r /\ r.1 = [Some 48; Some 56; Some 4144; None; None; Some 160]) as (r & E2 & E3)
      by (eexists; split; [vm_compute; reflexivity|vm_compute; reflexivity]).
    rewrite E in E2. injection E2 as <-. exact E3.
Defined.

(** ** What the conditions are for *)

(** [OptimizeBlockSize], which no constructor calls, makes the block size a multiple of 8. *)
Lemma optimize_block_size_ok n : 0 <= n < 2 ^ 64 -> (8 | OptimizeBlockSize n) /\ 1024 <= OptimizeBlockSize n <= 2 ^ 31.
Proof.
  intros Hn. unfold OptimizeBlockSize, kMinBlockSize, kMaxBlockSize, kAlignUnit. set (b := Z.min (2 ^ 31) (Z.max 1024 n)).
  assert (1024 <= b <= 2 ^ 31) as Hb by lia. destruct (Z.eqb_spec (b mod 8) 0) as [E|E]; cbn [negb].
  - split; [by apply Z.mod_divide|done].
  - pose proof (Z.div_mod b 8 ltac:(lia)). pose proof (Z.mod_pos_bound b 8 ltac:(lia)).
    assert (b <> 2 ^ 31) by (intros Eb; apply E; by rewrite Eb). assert (b / 8 < 2 ^ 28) by (apply Z.div_lt_upper_bound; lia).
    rewrite u64_fits by lia. split; [by exists (1 + b / 8)|lia].
Qed.

(** With a block size that is no multiple of 8 a new block is larger than the block size, and
    the next request fails the assertion of the invariant. *)
Theorem arena_block_size_assertion : exists a ps,
  Arena_new (H := bump_allocator (2 ^ 64)) 1001 [] = Some a /\ serve_all (H := bump_allocator (2 ^ 64)) (RAllocate <$> [250; 250; 250; 250; 2]) a = Some ps /\
  serve_all (H := bump_allocator (2 ^ 64)) (RAllocate <$> [250; 250; 250; 250; 2; 1]) a = None.
Proof. do 2 eexists. split; [vm_compute; reflexivity|]. split; vm_compute; reflexivity. Qed.

(** The result of [AlignedMalloc] is not checked: when the system refuses the next block, the
    requests are served from a null block, at the addresses from 0, and nothing of the heap
    is behind them. *)
Theorem arena_null_block : exists a p q r s a',
  Arena_new (H := bump_allocator 1500) 1024 [] = Some a /\
  serve_all (H := bump_allocator 1500) (RAllocate <$> [250; 250; 250; 250; 100; 20]) a = Some ([p; q; r; s; 0; 100], a') /\ aheap_ a' = [(8, 1024)].
Proof. do 6 eexists. split; [vm_compute; reflexivity|]. split; vm_compute; reflexivity. Qed.

(** A request so large that the bytes to skip carry it over 2^64 gets a few bytes. *)
Theorem arena_easy_overflow : exists a p q a',
  ArenaEasy.Allocate (H := bump_allocator (2 ^ 64)) 3 (ArenaEasy.ArenaEasy_new []) = Some (Some p, a) /\
  ArenaEasy.AllocateAligned (H := bump_allocator (2 ^ 64)) (2 ^ 64 - 4) a = Some (Some q, a') /\
  ArenaEasy.heap_ a' = ArenaEasy.heap_ a /\ ArenaEasy.heap_ a = [(p, 4096)].
Proof. do 4 eexists. split; [vm_compute; reflexivity|]. split; [vm_compute; reflexivity|]. split; vm_compute; reflexivity. Qed.
