(* ===== verification/CuckooMap.v ===== *)
(** * CuckooMap: [PresizedCuckooMap] of [src/util/cuckoo_map.h]

    A hash table whose keys live in one of two buckets of four slots; an insertion
    into two full buckets searches, breadth first, for a chain of keys that can each
    move to their other bucket.  The queue and the list of visited buckets of that
    search are members of the map and keep what earlier insertions left in them; a
    cell that was never written is [None] and reading it is a failure.  The size of
    the table is computed in double precision. *)

From Stdlib Require Import Floats.SpecFloat.
From S2P Require Import Prelude Store.
#[local] Open Scope Z_scope.
#[local] Open Scope mycc_scope.

(** ** Arithmetic *)

Definition multiply_high_u64 (x y : Z) : Z := u64 ((x * y) .>> 64).
(** The other branch of the conditional compilation, for compilers without 128-bit
    integers. *)
Definition multiply_high_u64_portable (x y : Z) : Z :=
  let x_lo := x .& 0xffffffff in
  let x_hi := x .>> 32 in
  let buckets_lo := y .& 0xffffffff in
  let buckets_hi := y .>> 32 in
  let prod_hi := u64 (x_hi * buckets_hi) in
  let prod_lo := u64 (x_lo * buckets_lo) in
  let prod_mid1 := u64 (x_hi * buckets_lo) in
  let prod_mid2 := u64 (x_lo * buckets_hi) in
  let carry := u64 (u64 ((prod_mid1 .& 0xffffffff) + (prod_mid2 .& 0xffffffff)) + (prod_lo .>> 32)) .>> 32 in
  u64 (u64 (u64 (prod_hi + (prod_mid1 .>> 32)) + (prod_mid2 .>> 32)) + carry).

Definition kSlotsPerBucket : Z := 4.
Definition kMaxBFSPathLen : Z := 5.
Definition kMaxQueueSize : Z := 682.
Definition kVisitedListSize : Z := 170.
Definition kNoSpace : Z := -1.
Definition kUnusedSlot : Z := u64 (Z.lnot 0).

(** [double]: binary64.  The nearest one to 0.85 is 7656119366529843 / 2^53. *)
Definition kLoadFactor : spec_float := S754_finite false 7656119366529843 (-53).
Definition double_of_uint64 (n : Z) : spec_float := binary_normalize 53 1024 n 0 false.
(** The cast truncates; a value that does not fit is undefined. *)
Definition uint64_of_double (f : spec_float) : option Z :=
  match f with
  | S754_zero _ => Some 0
  | S754_finite false m e => let z := Z.pos m .<< e in if z <? 2 ^ 64 then Some z else None
  | _ => None
  end.

Definition key_transform (k : Z) : Z := u64 (k + Z.b2z (k =? kUnusedSlot)).
Definition h2 (h : Z) : Z := u64 (0xc6a4a7935bd1e995 * ((h .>> 32) .| u64 (h .<< 32))).

(** ** The table *)

Record CuckooPathEntry := { bucket : Z; depth : Z; parent : Z; parent_slot : Z }.

Section map.
Context {value : Type}.

(** A value that was never written is [None]. *)
Record Bucket := { keys : list Z; values : list (option value) }.
Record PresizedCuckooMap := {
  num_buckets_ : Z;
  buckets_ : list Bucket;
  queue_ : list (option CuckooPathEntry);
  head_ : Z;
  tail_ : Z;
  visited_ : list (option CuckooPathEntry) }.

Definition with_buckets (bs : list Bucket) (m : PresizedCuckooMap) : PresizedCuckooMap :=
  {| num_buckets_ := num_buckets_ m; buckets_ := bs; queue_ := queue_ m; head_ := head_ m; tail_ := tail_ m; visited_ := visited_ m |}.
Definition with_queue (q : list (option CuckooPathEntry)) (h t : Z) (m : PresizedCuckooMap) : PresizedCuckooMap :=
  {| num_buckets_ := num_buckets_ m; buckets_ := buckets_ m; queue_ := q; head_ := h; tail_ := t; visited_ := visited_ m |}.
Definition with_visited (v : list (option CuckooPathEntry)) (m : PresizedCuckooMap) : PresizedCuckooMap :=
  {| num_buckets_ := num_buckets_ m; buckets_ := buckets_ m; queue_ := queue_ m; head_ := head_ m; tail_ := tail_ m; visited_ := v |}.

Abbreviation M := (ST PresizedCuckooMap).

Definition empty_bucket : Bucket := {| keys := replicate 4 kUnusedSlot; values := replicate 4 None |}.

(** [visited_] is left as it is; a map under construction has nothing in it. *)
Definition Clear (num_entries : Z) : M unit := fun m =>
  n ← uint64_of_double (SFdiv 53 1024 (double_of_uint64 num_entries) kLoadFactor);
  let num_buckets := u64 (n / kSlotsPerBucket + 32) in
  Some (tt, {| num_buckets_ := num_buckets; buckets_ := replicate (Z.to_nat num_buckets) empty_bucket;
               queue_ := replicate (Z.to_nat kMaxQueueSize) None; head_ := 0; tail_ := 0; visited_ := visited_ m |}).
Definition PresizedCuckooMap_new (num_entries : Z) : option PresizedCuckooMap :=
  '(_, m) ← Clear num_entries
    {| num_buckets_ := 0; buckets_ := []; queue_ := []; head_ := 0; tail_ := 0;
       visited_ := replicate (Z.to_nat kVisitedListSize) None |};
  Some m.

Definition fast_map_to_buckets (n x : Z) : Z := multiply_high_u64 x n.
Definition alt_bucket (n k b : Z) : Z :=
  if negb (fast_map_to_buckets n k =? b) then fast_map_to_buckets n k else fast_map_to_buckets n (h2 k).

(** *** The queue *)

Definition cpq_reset : M unit := update (fun m => Some (with_queue (queue_ m) 0 0 m)).
Definition cpq_push_back (e : CuckooPathEntry) : M unit := update (fun m =>
  q ← aput (tail_ m) (Some e) (queue_ m);
  Some (with_queue q (head_ m) ((tail_ m + 1) mod kMaxQueueSize) m)).
Definition cpq_pop_front : M CuckooPathEntry :=
  e ← reads (fun m => mjoin (aget (queue_ m) (head_ m)));
  _ ← update (fun m => Some (with_queue (queue_ m) ((head_ m + 1) mod kMaxQueueSize) (tail_ m) m));
  mret e.
Definition cpq_empty : M bool := reads (fun m => Some (head_ m =? tail_ m)).
Definition cpq_full (m : PresizedCuckooMap) : bool := (tail_ m + 1) mod kMaxQueueSize =? head_ m.

(** *** Slots *)

Definition key_at (bs : list Bucket) (b slot : Z) : option Z := bk ← aget bs b; aget (keys bk) slot.

Definition store_slot (b slot k : Z) (v : option value) (bs : list Bucket) : option (list Bucket) :=
  bk ← aget bs b;
  ks ← aput slot k (keys bk);
  vs ← aput slot v (values bk);
  aput b {| keys := ks; values := vs |} bs.
Definition InsertInternal (k : Z) (v : value) (b slot : Z) : M unit := update (fun m =>
  bs ← store_slot b slot k (Some v) (buckets_ m); Some (with_buckets bs m)).
Definition CopyItem (src_bucket src_slot dst_bucket dst_slot : Z) : M unit := update (fun m =>
  src ← aget (buckets_ m) src_bucket;
  k ← aget (keys src) src_slot;
  v ← aget (values src) src_slot;
  bs ← store_slot dst_bucket dst_slot k v (buckets_ m);
  Some (with_buckets bs m)).

(** [for (i = 0; i < kSlotsPerBucket; i++)]. *)
Definition slots : list Z := [0; 1; 2; 3].

Fixpoint SpaceAvailable_loop (bk : Bucket) (l : list Z) : option Z :=
  match l with
  | [] => Some kNoSpace
  | i :: l => k ← aget (keys bk) i; if k =? kUnusedSlot then Some i else SpaceAvailable_loop bk l
  end.
Definition SpaceAvailable (bs : list Bucket) (b : Z) : option Z := bk ← aget bs b; SpaceAvailable_loop bk slots.

(** [Some None] is "not found". *)
Fixpoint FindInBucket_loop (k : Z) (bk : Bucket) (l : list Z) : option (option (option value)) :=
  match l with
  | [] => Some None
  | i :: l =>
      k' ← aget (keys bk) i;
      if k' =? k then v ← aget (values bk) i; Some (Some v) else FindInBucket_loop k bk l
  end.
Definition FindInBucket (bs : list Bucket) (k b : Z) : option (option (option value)) :=
  bk ← aget bs b; FindInBucket_loop k bk slots.

(** The value written to [*out], itself [None] if it was never initialised. *)
Definition Find (k : Z) (m : PresizedCuckooMap) : option (option (option value)) :=
  let n := num_buckets_ m in
  let tk := key_transform k in
  r ← FindInBucket (buckets_ m) k (fast_map_to_buckets n tk);
  match r with
  | Some v => Some (Some v)
  | None => FindInBucket (buckets_ m) k (fast_map_to_buckets n (h2 tk))
  end.

(** *** Insertion *)

(** Follow the parents of [e] back to a root, moving a key into the free slot each time. *)
Fixpoint move_path (fuel : nat) (e : CuckooPathEntry) (free_slot : Z) : M (CuckooPathEntry * Z) :=
  match fuel with
  | O => fail
  | S fuel =>
      if depth e >? 1 then
        p ← reads (fun m => mjoin (aget (visited_ m) (parent e)));
        _ ← CopyItem (bucket p) (parent_slot e) (bucket e) free_slot;
        move_path fuel p (parent_slot e)
      else mret (e, free_slot)
  end.

(** The children of [e], from [start_slot] on. *)
Fixpoint push_children (e : CuckooPathEntry) (parent_index start_slot : Z) (l : list Z) : M unit :=
  match l with
  | [] => mret tt
  | i :: l =>
      let slot := (start_slot + i) mod kSlotsPerBucket in
      k ← reads (fun m => key_at (buckets_ m) (bucket e) slot);
      n ← reads (fun m => Some (num_buckets_ m));
      let next_bucket := alt_bucket n k (bucket e) in
      pe ← reads (fun m => mjoin (aget (visited_ m) (parent e)));
      _ ← (if negb (next_bucket =? bucket pe)
           then cpq_push_back {| bucket := next_bucket; depth := depth e + 1; parent := parent_index; parent_slot := slot |}
           else mret tt);
      push_children e parent_index start_slot l
  end.

(** One entry of the queue: [Some b] when the search is over. *)
Definition CuckooInsert_round (k : Z) (v : value) (visited_end : Z) : M (option bool * Z) :=
  e ← cpq_pop_front;
  free_slot ← reads (fun m => SpaceAvailable (buckets_ m) (bucket e));
  if negb (free_slot =? kNoSpace) then
    '(r, slot) ← move_path (Z.to_nat kMaxBFSPathLen) e free_slot;
    _ ← InsertInternal k v (bucket r) slot;
    mret (Some true, visited_end)
  else if depth e <? kMaxBFSPathLen then
    _ ← update (fun m => vs ← aput visited_end (Some e) (visited_ m); Some (with_visited vs m));
    let start_slot := u64 (k + bucket e) mod kSlotsPerBucket in
    _ ← push_children e visited_end start_slot slots;
    mret (None, visited_end + 1)
  else mret (None, visited_end).

Fixpoint CuckooInsert_loop (fuel : nat) (k : Z) (v : value) (visited_end : Z) : M bool :=
  match fuel with
  | O => fail
  | S fuel =>
      stop ← cpq_empty;
      if stop : bool then mret false
      else
        '(r, visited_end) ← CuckooInsert_round k v visited_end;
        match r with Some b => mret b | None => CuckooInsert_loop fuel k v visited_end end
  end.

Definition root (b : Z) : CuckooPathEntry := {| bucket := b; depth := 1; parent := 0; parent_slot := 0 |}.
(** Every entry is taken from the queue once: [kMaxQueueSize] rounds and the last test. *)
Definition CuckooInsert (k : Z) (v : value) (b1 b2 : Z) : M bool :=
  _ ← cpq_reset;
  _ ← cpq_push_back (root b1);
  _ ← cpq_push_back (root b2);
  CuckooInsert_loop (S (Z.to_nat kMaxQueueSize)) k v 0.

(** The search for the key and for a free slot, over one bucket: [Some None] when the key
    is there, otherwise [target_bucket] and [target_slot]. *)
Fixpoint InsertUnique_loop (k b : Z) (bk : Bucket) (target : Z * Z) (l : list Z) : option (option (Z * Z)) :=
  match l with
  | [] => Some (Some target)
  | slot :: l =>
      k' ← aget (keys bk) slot;
      if k' =? k then Some None
      else if (target.2 =? kNoSpace) && (k' =? kUnusedSlot) then InsertUnique_loop k b bk (b, slot) l
      else InsertUnique_loop k b bk target l
  end.
Fixpoint InsertUnique_buckets (k : Z) (bs : list Bucket) (target : Z * Z) (l : list Z) : option (option (Z * Z)) :=
  match l with
  | [] => Some (Some target)
  | b :: l =>
      bk ← aget bs b;
      r ← InsertUnique_loop k b bk target slots;
      match r with Some target => InsertUnique_buckets k bs target l | None => Some None end
  end.
Definition InsertUnique (k : Z) (v : value) : M bool :=
  n ← reads (fun m => Some (num_buckets_ m));
  let tk := key_transform k in
  let b1 := fast_map_to_buckets n tk in
  let b2 := fast_map_to_buckets n (h2 tk) in
  target ← reads (fun m => InsertUnique_buckets k (buckets_ m) (0, kNoSpace) [b1; b2]);
  match target with
  | None => mret false
  | Some (target_bucket, target_slot) =>
      if negb (target_slot =? kNoSpace) then
        _ ← InsertInternal tk v target_bucket target_slot; mret true
      else CuckooInsert tk v b1 b2
  end.
End map.
Arguments Bucket : clear implicits.
Arguments PresizedCuckooMap : clear implicits.
