(* ===== verification/CuckooMapTable.v ===== *)
(** * CuckooMapTable: what the buckets of [src/util/cuckoo_map.h] hold

    The relation between the buckets of a [PresizedCuckooMap] and a finite map, with at
    most one slot left out of account while keys are moved; finding, storing and moving
    in these terms. *)

From S2P Require Import Prelude Store CuckooMap.
#[local] Open Scope Z_scope.
#[local] Open Scope mycc_scope.

(** ** The bucket of a hash *)

Lemma multiply_high_range x n : is_uint 64 x -> 0 < n <= 2 ^ 64 -> 0 <= multiply_high_u64 x n < n.
Proof.
  intros Hx Hn. unfold multiply_high_u64, is_uint in *. rewrite Z.shiftr_div_pow2 by lia.
  assert (0 <= x * n / 2 ^ 64 < n) as Hr.
  { split; [apply Z.div_pos; nia|]. apply Z.div_lt_upper_bound; nia. }
  rewrite wrap_small by (unfold is_uint; lia). done.
Qed.

(** Both branches of the conditional compilation compute the high word of the product. *)
Lemma multiply_high_portable x y : is_uint 64 x -> is_uint 64 y -> multiply_high_u64_portable x y = multiply_high_u64 x y.
Proof.
  intros Hx Hy. unfold multiply_high_u64_portable, multiply_high_u64, is_uint in *.
  change 0xffffffff with (Z.ones 32). rewrite !Z.land_ones, !Z.shiftr_div_pow2 by lia.
  set (a := x mod 2 ^ 32). set (b := x / 2 ^ 32). set (c := y mod 2 ^ 32). set (d := y / 2 ^ 32).
  assert (x = 2 ^ 32 * b + a) as Ex by (unfold a, b; apply Z.div_mod; lia).
  assert (y = 2 ^ 32 * d + c) as Ey by (unfold c, d; apply Z.div_mod; lia).
  assert (0 <= a < 2 ^ 32) as Ha by (apply Z.mod_pos_bound; lia). assert (0 <= c < 2 ^ 32) as Hc by (apply Z.mod_pos_bound; lia).
  assert (0 <= b < 2 ^ 32) as Hb by lia. assert (0 <= d < 2 ^ 32) as Hd by lia. clearbody a b c d.
  assert (forall u v, 0 <= u < 2 ^ 32 -> 0 <= v < 2 ^ 32 -> u64 (u * v) = u * v /\ 0 <= u * v <= (2 ^ 32 - 1) * (2 ^ 32 - 1)) as Hm.
  { intros u v ??. assert (0 <= u * v <= (2 ^ 32 - 1) * (2 ^ 32 - 1)) by (split; [apply Z.mul_nonneg_nonneg; lia|apply Z.mul_le_mono_nonneg; lia]). split; [apply wrap_small; unfold is_uint|]; lia. }
  destruct (Hm b d Hb Hd) as [-> H1], (Hm a c Ha Hc) as [-> H2], (Hm b c Hb Hc) as [-> H3], (Hm a d Ha Hd) as [-> H4].
  set (p := b * c) in *. set (q := a * d) in *. set (r := a * c) in *. set (s := b * d) in *.
  pose proof (Z.div_mod p (2 ^ 32) ltac:(lia)) as Dp. pose proof (Z.mod_pos_bound p (2 ^ 32) ltac:(lia)) as Bp.
  pose proof (Z.div_mod q (2 ^ 32) ltac:(lia)) as Dq. pose proof (Z.mod_pos_bound q (2 ^ 32) ltac:(lia)) as Bq.
  pose proof (Z.div_mod r (2 ^ 32) ltac:(lia)) as Dr. pose proof (Z.mod_pos_bound r (2 ^ 32) ltac:(lia)) as Br.
  set (p1 := p / 2 ^ 32) in *. set (p0 := p mod 2 ^ 32) in *. set (q1 := q / 2 ^ 32) in *. set (q0 := q mod 2 ^ 32) in *.
  set (r1 := r / 2 ^ 32) in *. set (r0 := r mod 2 ^ 32) in *.
  assert (0 <= r1 < 2 ^ 32) by lia.
  rewrite (wrap_small 64 (p0 + q0)), (wrap_small 64 (p0 + q0 + r1)) by (unfold is_uint; lia).
  assert (x * y / 2 ^ 64 = s + p1 + q1 + (p0 + q0 + r1) / 2 ^ 32) as ->.
  { assert (x * y = 2 ^ 64 * s + 2 ^ 32 * (p + q) + r) as -> by (unfold s, p, q, r; nia).
    assert (2 ^ 64 * s + 2 ^ 32 * (p + q) + r = (s + p1 + q1) * 2 ^ 64 + (2 ^ 32 * (p0 + q0 + r1) + r0)) as -> by lia.
    rewrite Z.div_add_l by lia. f_equal. change (2 ^ 64) with (2 ^ 32 * 2 ^ 32). rewrite <- Z.div_div by lia. f_equal.
    symmetry. apply (Z.div_unique _ _ _ r0); lia. }
  set (z := (p0 + q0 + r1) / 2 ^ 32). unfold wrap. rewrite Zplus_mod_idemp_l, <- (Z.add_assoc _ q1 z), Zplus_mod_idemp_l. f_equal. lia.
Qed.

Lemma key_transform_id k : k <> kUnusedSlot -> is_uint 64 k -> key_transform k = k.
Proof.
  intros Hk Hu. unfold key_transform. apply Z.eqb_neq in Hk. rewrite Hk. cbn. rewrite Z.add_0_r. by apply wrap_small.
Qed.

Section table.
Context {value : Type}.
Implicit Types (bs : list (Bucket value)) (m : PresizedCuckooMap value) (V : gmap Z value) (p q : Z * Z) (k b n slot : Z).

(** ** Slots *)

Definition cell bs p : option (Z * option value) :=
  bk ← aget bs p.1; k ← aget (keys bk) p.2; v ← aget (values bk) p.2; Some (k, v).
Definition shape n bs : Prop :=
  Z.of_nat (length bs) = n /\ Forall (fun bk => length (keys bk) = 4%nat /\ length (values bk) = 4%nat) bs.
Definition full bs b : Prop := forall i k v, cell bs (b, i) = Some (k, v) -> k <> kUnusedSlot.

Lemma shape_bucket n bs b bk : shape n bs -> aget bs b = Some bk -> length (keys bk) = 4%nat /\ length (values bk) = 4%nat.
Proof. intros [_ Hf] [_ Hb]%aget_Some. eapply Forall_lookup_1 in Hf; [|exact Hb]. exact Hf. Qed.
Lemma shape_get n bs b : shape n bs -> 0 <= b < n ->
  exists bk k0 k1 k2 k3 v0 v1 v2 v3, aget bs b = Some bk /\ keys bk = [k0; k1; k2; k3] /\ values bk = [v0; v1; v2; v3].
Proof.
  intros Hs Hb. destruct (aget_in bs b) as [bk E]; [destruct Hs; lia|]. destruct (shape_bucket _ _ _ _ Hs E) as [Hk Hv].
  destruct (keys bk) as [|k0 [|k1 [|k2 [|k3 [|]]]]] eqn:Ek; try done. destruct (values bk) as [|v0 [|v1 [|v2 [|v3 [|]]]]] eqn:Ev; try done.
  by exists bk, k0, k1, k2, k3, v0, v1, v2, v3.
Qed.
Lemma slot_cases i : 0 <= i < 4 -> i = 0 \/ i = 1 \/ i = 2 \/ i = 3.
Proof. lia. Qed.
Lemma cell_bounds n bs p x : shape n bs -> cell bs p = Some x -> 0 <= p.1 < n /\ 0 <= p.2 < 4.
Proof.
  intros Hs. unfold cell. destruct (aget bs p.1) as [bk|] eqn:E; [|done]. cbn. destruct (aget (keys bk) p.2) as [k|] eqn:Ek; [|done].
  intros _. destruct (shape_bucket _ _ _ _ Hs E) as [Hk _]. apply aget_lt in E, Ek. destruct Hs. lia.
Qed.
Lemma cell_get n bs p : shape n bs -> 0 <= p.1 < n -> 0 <= p.2 < 4 -> exists k v, cell bs p = Some (k, v).
Proof.
  intros Hs Hb Hi. destruct (shape_get n bs p.1 Hs Hb) as (bk & k0 & k1 & k2 & k3 & v0 & v1 & v2 & v3 & E & Ek & Ev).
  unfold cell. rewrite E. cbn. rewrite Ek, Ev. destruct (slot_cases _ Hi) as [->|[->|[->| ->]]]; cbn; eauto.
Qed.
Lemma key_at_cell bs b i k v : cell bs (b, i) = Some (k, v) -> key_at bs b i = Some k.
Proof. unfold cell, key_at. cbn. destruct (aget bs b) as [bk|]; [|done]. cbn. destruct (aget (keys bk) i); [|done]. cbn. by destruct (aget (values bk) i) as [?|]; intros [= -> _]. Qed.

Lemma store_slot_ok n bs p k (v : option value) : shape n bs -> 0 <= p.1 < n -> 0 <= p.2 < 4 ->
  exists bs', store_slot p.1 p.2 k v bs = Some bs' /\ shape n bs' /\ cell bs' p = Some (k, v) /\
    forall q, q <> p -> cell bs' q = cell bs q.
Proof.
  intros Hs Hb Hi. destruct p as [b i]. cbn in *. destruct (aget_in bs b) as [bk E]; [destruct Hs; lia|].
  destruct (shape_bucket _ _ _ _ Hs E) as [Hk Hv]. pose proof Hs as [Hl Hf].
  unfold store_slot. rewrite E. cbn [mbind option_bind]. rewrite aput_in by lia. cbn [mbind option_bind]. rewrite aput_in by lia. cbn [mbind option_bind].
  rewrite aput_in by lia. eexists. split; [done|]. split; [split; [by rewrite length_insert|]|split].
  - apply Forall_insert; [done|]. cbn. by rewrite !length_insert.
  - unfold cell. cbn. rewrite aget_insert_eq by lia. cbn. rewrite !aget_insert_eq by lia. done.
  - intros [b' i'] Hne. unfold cell. cbn. destruct (decide (b' = b)) as [->|].
    + rewrite aget_insert_eq, E by lia. cbn. rewrite !aget_insert_ne; [done|lia|congruence|lia|congruence].
    + by rewrite aget_insert_ne by lia.
Qed.

(** ** Searching a bucket *)

(** Case analysis on a bucket of four slots, the loop over them run by computation. *)
Ltac open_bucket Hs Hb :=
  destruct (shape_get _ _ _ Hs Hb) as (bk & k0 & k1 & k2 & k3 & v0 & v1 & v2 & v3 & E & Ek & Ev).

Lemma cells_of bs b bk k0 k1 k2 k3 (v0 v1 v2 v3 : option value) :
  aget bs b = Some bk -> keys bk = [k0; k1; k2; k3] -> values bk = [v0; v1; v2; v3] ->
  forall i k v, cell bs (b, i) = Some (k, v) <->
    (i = 0 /\ k = k0 /\ v = v0) \/ (i = 1 /\ k = k1 /\ v = v1) \/ (i = 2 /\ k = k2 /\ v = v2) \/ (i = 3 /\ k = k3 /\ v = v3).
Proof.
  intros E Ek Ev i k v. unfold cell. cbn. rewrite E. cbn. rewrite Ek, Ev.
  destruct (decide (0 <= i < 4)) as [Hi|Hi].
  - destruct (slot_cases _ Hi) as [->|[->|[->| ->]]]; cbn; (split; [intros [= -> ->]; tauto|naive_solver lia]).
  - destruct (aget [k0; k1; k2; k3] i) eqn:Eg; [apply aget_lt in Eg; cbn in Eg; lia|]. cbn. split; [done|lia].
Qed.

Lemma SpaceAvailable_ok n bs b : shape n bs -> 0 <= b < n ->
  exists i, SpaceAvailable bs b = Some i /\
    ((i = kNoSpace /\ full bs b) \/ (0 <= i < 4 /\ exists v, cell bs (b, i) = Some (kUnusedSlot, v))).
Proof.
  intros Hs Hb. open_bucket Hs Hb. pose proof (cells_of _ _ _ _ _ _ _ _ _ _ _ E Ek Ev) as Hc.
  unfold SpaceAvailable. rewrite E. cbn [mbind option_bind slots SpaceAvailable_loop]. rewrite Ek.
  change (aget [k0; k1; k2; k3] 0) with (Some k0). change (aget [k0; k1; k2; k3] 1) with (Some k1).
  change (aget [k0; k1; k2; k3] 2) with (Some k2). change (aget [k0; k1; k2; k3] 3) with (Some k3). cbn [mbind option_bind].
  destruct (Z.eqb_spec k0 kUnusedSlot) as [->|H0]; [eexists; split; [done|right; split; [lia|exists v0; apply Hc; tauto]]|].
  destruct (Z.eqb_spec k1 kUnusedSlot) as [->|H1]; [eexists; split; [done|right; split; [lia|exists v1; apply Hc; tauto]]|].
  destruct (Z.eqb_spec k2 kUnusedSlot) as [->|H2]; [eexists; split; [done|right; split; [lia|exists v2; apply Hc; tauto]]|].
  destruct (Z.eqb_spec k3 kUnusedSlot) as [->|H3]; [eexists; split; [done|right; split; [lia|exists v3; apply Hc; tauto]]|].
  eexists. split; [done|]. left. split; [done|]. intros i k v [(_ & -> & _)|[(_ & -> & _)|[(_ & -> & _)|(_ & -> & _)]]]%Hc; done.
Qed.

Lemma FindInBucket_ok n bs k b : shape n bs -> 0 <= b < n ->
  exists r, FindInBucket bs k b = Some r /\
    match r with Some v => exists i, cell bs (b, i) = Some (k, v) | None => forall i v, cell bs (b, i) <> Some (k, v) end.
Proof.
  intros Hs Hb. open_bucket Hs Hb. pose proof (cells_of _ _ _ _ _ _ _ _ _ _ _ E Ek Ev) as Hc.
  unfold FindInBucket. rewrite E. cbn [mbind option_bind slots FindInBucket_loop]. rewrite Ek, Ev.
  change (aget [k0; k1; k2; k3] 0) with (Some k0). change (aget [k0; k1; k2; k3] 1) with (Some k1).
  change (aget [k0; k1; k2; k3] 2) with (Some k2). change (aget [k0; k1; k2; k3] 3) with (Some k3).
  change (aget [v0; v1; v2; v3] 0) with (Some v0). change (aget [v0; v1; v2; v3] 1) with (Some v1).
  change (aget [v0; v1; v2; v3] 2) with (Some v2). change (aget [v0; v1; v2; v3] 3) with (Some v3). cbn [mbind option_bind].
  destruct (Z.eqb_spec k0 k) as [->|H0]; [eexists; split; [done|exists 0; apply Hc; tauto]|].
  destruct (Z.eqb_spec k1 k) as [->|H1]; [eexists; split; [done|exists 1; apply Hc; tauto]|].
  destruct (Z.eqb_spec k2 k) as [->|H2]; [eexists; split; [done|exists 2; apply Hc; tauto]|].
  destruct (Z.eqb_spec k3 k) as [->|H3]; [eexists; split; [done|exists 3; apply Hc; tauto]|].
  eexists. split; [done|]. intros i v [(_ & ? & _)|[(_ & ? & _)|[(_ & ? & _)|(_ & ? & _)]]]%Hc; congruence.
Qed.

(** A target: none yet, or a free slot of one of the buckets [l]. *)
Definition target_ok bs (l : list Z) (t : Z * Z) : Prop :=
  (t.2 = kNoSpace /\ forall b, b ∈ l -> full bs b) \/ (t.1 ∈ l /\ 0 <= t.2 < 4 /\ exists v, cell bs t = Some (kUnusedSlot, v)).

Lemma InsertUnique_loop_ok n bs k b bk js t : shape n bs -> aget bs b = Some bk -> k <> kUnusedSlot -> Forall (fun i => 0 <= i < 4) js ->
  exists r, InsertUnique_loop k b bk t js = Some r /\
    match r with
    | None => exists i v, cell bs (b, i) = Some (k, v)
    | Some t' => (forall i v, i ∈ js -> cell bs (b, i) <> Some (k, v)) /\
        ((t' = t /\ (t.2 = kNoSpace -> forall i v, i ∈ js -> cell bs (b, i) <> Some (kUnusedSlot, v))) \/
         (t.2 = kNoSpace /\ t'.1 = b /\ t'.2 ∈ js /\ exists v, cell bs t' = Some (kUnusedSlot, v)))
    end.
Proof.
  intros Hs E Hk Hl. revert t. induction Hl as [|i js Hi Hl IH]; intros t.
  { exists (Some t). split; [done|]. split; [intros ?? Hn; by apply elem_of_nil in Hn|]. left. split; [done|]. intros _ ?? Hn. by apply elem_of_nil in Hn. }
  destruct (cell_get n bs (b, i) Hs) as (k' & v & Ec); [destruct Hs; apply aget_lt in E; cbn; lia|done|].
  assert (aget (keys bk) i = Some k') as Ek by (pose proof (key_at_cell _ _ _ _ _ Ec) as Hk'; unfold key_at in Hk'; by rewrite E in Hk').
  cbn [InsertUnique_loop]. rewrite Ek. cbn [mbind option_bind].
  destruct (Z.eqb_spec k' k) as [->|Hne]; [exists None; eauto|].
  destruct (decide (t.2 = kNoSpace /\ k' = kUnusedSlot)) as [[Ht ->]|Hno].
  - rewrite Ht, !Z.eqb_refl. cbn [andb]. destruct (IH (b, i)) as (r & Er & Hr). exists r. split; [done|].
    destruct r as [t'|]; [|done]. destruct Hr as [Hn Ht']. split.
    { intros j w [->|Hj]%elem_of_cons; [congruence|by apply Hn]. }
    right. destruct Ht' as [[-> _]|(Hno & _)]; [|cbn in Hno; unfold kNoSpace in Hno; lia].
    split; [done|]. split; [done|]. split; [by left|by exists v].
  - assert ((t.2 =? kNoSpace) && (k' =? kUnusedSlot) = false) as ->.
    { destruct (Z.eqb_spec t.2 kNoSpace), (Z.eqb_spec k' kUnusedSlot); try done. tauto. }
    destruct (IH t) as (r & Er & Hr). exists r. split; [done|]. destruct r as [t'|]; [|done]. destruct Hr as [Hn Ht']. split.
    { intros j w [->|Hj]%elem_of_cons; [congruence|by apply Hn]. }
    destruct Ht' as [[-> Hf]|(Hn' & ? & ? & ?)].
    + left. split; [done|]. intros Ht j w [->|Hj]%elem_of_cons; [|by apply Hf]. rewrite Ec. intros [= -> _]. tauto.
    + right. split; [done|]. split; [done|]. split; [by right|done].
Qed.

Lemma slots_in n bs b i x : shape n bs -> cell bs (b, i) = Some x -> i ∈ slots.
Proof. intros Hs Hc. destruct (cell_bounds _ _ _ _ Hs Hc) as [_ Hi]. unfold slots. cbn in Hi. destruct (slot_cases _ Hi) as [->|[->|[->| ->]]]; repeat constructor. Qed.

Lemma InsertUnique_buckets_ok n bs k bl : shape n bs -> k <> kUnusedSlot -> forall l t, Forall (fun b => 0 <= b < n) l -> target_ok bs bl t ->
  exists r, InsertUnique_buckets k bs t l = Some r /\
    match r with
    | None => exists b i v, b ∈ l /\ cell bs (b, i) = Some (k, v)
    | Some t' => target_ok bs (bl ++ l) t' /\ forall b i v, b ∈ l -> cell bs (b, i) <> Some (k, v)
    end.
Proof.
  intros Hs Hk l. revert bl. induction l as [|b l IH]; intros bl t Hl Ht.
  { exists (Some t). split; [done|]. rewrite app_nil_r. split; [done|]. intros ??? Hn. by apply elem_of_nil in Hn. }
  apply Forall_cons in Hl as [Hb Hl]. destruct (aget_in bs b) as [bk E]; [destruct Hs; lia|].
  destruct (InsertUnique_loop_ok n bs k b bk slots t Hs E Hk) as (r & Er & Hr); [repeat constructor; lia|].
  cbn [InsertUnique_buckets]. rewrite E. cbn [mbind option_bind]. rewrite Er. cbn [mbind option_bind]. destruct r as [t'|].
  - destruct Hr as [Hn Ht']. destruct (IH (bl ++ [b]) t' Hl) as (r & Er' & Hr).
    + destruct Ht' as [[-> Hf]|(Hn' & E1 & E2 & v & Ev)].
      * destruct Ht as [[Hn' Hful]|(? & ? & ?)]; [|right; set_solver]. left. split; [done|].
        intros b' [Hb'| ->%list_elem_of_singleton]%elem_of_app; [by apply Hful|]. intros i k' v Hc ->. eapply Hf; [done| |exact Hc]. by eapply slots_in.
      * right. split; [set_solver|]. split; [|by exists v]. eapply (cell_bounds n bs t'); [done|exact Ev].
    + exists r. split; [done|]. destruct r as [t''|].
      * rewrite <- app_assoc in Hr. destruct Hr as [Hr Hno]. split; [done|]. intros b' i v [->|Hb']%elem_of_cons; [|by apply Hno].
        intros Hc. eapply Hn; [|exact Hc]. by eapply slots_in.
      * destruct Hr as (b' & i & v & Hb' & Hc). exists b', i, v. split; [by right|done].
  - exists None. split; [done|]. destruct Hr as (i & v & Hc). exists b, i, v. split; [by left|done].
Qed.
(** ** The table as a finite map *)

Definition home n k b : Prop := b = fast_map_to_buckets n k \/ b = fast_map_to_buckets n (h2 k).
Definition good_key k : Prop := 0 <= k < kUnusedSlot.

(** The buckets hold exactly the map [V], each key once and in one of its two buckets;
    the slot [hole], if any, does not count. *)
Record holds n bs V (hole : option (Z * Z)) : Prop := {
  h_size : 0 < n <= 2 ^ 64;
  h_shape : shape n bs;
  h_slot : forall p k v, cell bs p = Some (k, v) -> Some p <> hole -> k <> kUnusedSlot ->
    good_key k /\ home n k p.1 /\ exists x, v = Some x /\ V !! k = Some x;
  h_map : forall k x, V !! k = Some x -> exists p, cell bs p = Some (k, Some x) /\ Some p <> hole /\ k <> kUnusedSlot;
  h_once : forall p q k v w, cell bs p = Some (k, v) -> cell bs q = Some (k, w) -> k <> kUnusedSlot ->
    Some p <> hole -> Some q <> hole -> p = q }.

Lemma fast_map_range n k : 0 < n <= 2 ^ 64 -> is_uint 64 k -> 0 <= fast_map_to_buckets n k < n.
Proof. intros. by apply multiply_high_range. Qed.
Lemma h2_uint k : is_uint 64 (h2 k).
Proof. apply wrap_range. lia. Qed.
Lemma good_key_uint k : good_key k -> is_uint 64 k.
Proof. unfold good_key, is_uint. change kUnusedSlot with (2 ^ 64 - 1). lia. Qed.
Lemma home_range n k b : 0 < n <= 2 ^ 64 -> is_uint 64 k -> home n k b -> 0 <= b < n.
Proof. intros Hn Hk [-> | ->]; apply fast_map_range; try done. apply h2_uint. Qed.
Lemma alt_home n k b : home n k (alt_bucket n k b).
Proof. unfold alt_bucket. case_match; [by left|by right]. Qed.

Lemma holds_free n bs V p v : holds n bs V None -> cell bs p = Some (kUnusedSlot, v) -> holds n bs V (Some p).
Proof.
  intros [Hn Hs Hslot Hmap Hone] Hp. split; try done.
  - intros q k w Hq _ Hk. by eapply Hslot.
  - intros k x Hk. destruct (Hmap k x Hk) as (q & Hq & _ & Hu). exists q. split; [done|]. split; [|done]. intros [= ->]. congruence.
  - intros q r k w1 w2 Hq Hr Hu _ _. by eapply Hone.
Qed.

(** A key of the table is copied into the hole: its old slot is the hole now. *)
Lemma holds_move n bs V p q k v bs' : holds n bs V (Some q) -> p <> q -> cell bs p = Some (k, v) -> k <> kUnusedSlot ->
  home n k q.1 -> store_slot q.1 q.2 k v bs = Some bs' ->
  0 <= q.2 < 4 -> holds n bs' V (Some p) /\ forall r, r <> q -> cell bs' r = cell bs r.
Proof.
  intros [Hn Hs Hslot Hmap Hone] Hpq Hp Hk Hh E Hq2. destruct (Hslot p k v Hp ltac:(congruence) Hk) as (Hg & Hhp & x & -> & HV).
  destruct (store_slot_ok n bs q k (Some x) Hs) as (bs2 & E2 & Hs' & Hq' & Hother); [eapply home_range; [done| |done]; by apply good_key_uint|done|].
  rewrite E in E2. injection E2 as <-. split; [|done].
  assert (forall r k' w, cell bs' r = Some (k', w) -> r <> q -> cell bs r = Some (k', w)) as Hback by (intros; by rewrite <- Hother).
  split; try done.
  - intros r k' w Hr Hrp Hk'. destruct (decide (r = q)) as [->|Hrq].
    + rewrite Hq' in Hr. injection Hr as <- <-. split; [done|]. split; [done|]. by exists x.
    + eapply Hslot; [by eapply Hback|congruence|done].
  - intros k' y HV'. destruct (Hmap k' y HV') as (r & Hr & Hrq & Hk'). destruct (decide (r = p)) as [->|Hrp].
    + rewrite Hp in Hr. injection Hr as -> ->. exists q. split; [done|]. split; [congruence|done].
    + exists r. split; [rewrite Hother; [done|congruence]|]. split; [congruence|done].
  - assert (forall r w, cell bs' r = Some (k, w) -> Some r <> Some p -> r = q) as Hq.
    { intros r w Hr Hrp. destruct (decide (r = q)) as [|Hrq]; [done|]. exfalso. apply Hrp. f_equal.
      eapply (Hone r p k); [by eapply Hback|done|done|congruence|congruence]. }
    intros r t k' w1 w2 Hr Ht Hk' Hrp Htp. destruct (decide (r = q)) as [->|Hrq], (decide (t = q)) as [->|Htq]; [done| | |].
    + rewrite Hq' in Hr. injection Hr as <- <-. symmetry. by eapply Hq.
    + rewrite Hq' in Ht. injection Ht as <- <-. by eapply Hq.
    + eapply Hone; [by eapply Hback|by eapply Hback|done|congruence|congruence].
Qed.

(** A new key is stored in the hole. *)
Lemma holds_fill n bs V q k x : holds n bs V (Some q) -> V !! k = None -> good_key k -> home n k q.1 -> 0 <= q.2 < 4 ->
  exists bs', store_slot q.1 q.2 k (Some x) bs = Some bs' /\ holds n bs' (<[k := x]> V) None.
Proof.
  intros [Hn Hs Hslot Hmap Hone] HV Hg Hh Hq2.
  destruct (store_slot_ok n bs q k (Some x) Hs) as (bs' & E & Hs' & Hq' & Hother); [eapply home_range; [done| |done]; by apply good_key_uint|done|].
  exists bs'. split; [done|].
  assert (k <> kUnusedSlot) as Hku by (unfold good_key in Hg; lia).
  assert (forall r k' w, cell bs' r = Some (k', w) -> r <> q -> cell bs r = Some (k', w)) as Hback by (intros; by rewrite <- Hother).
  assert (forall r w, cell bs' r = Some (k, w) -> r = q) as Hnew.
  { intros r w Hr. destruct (decide (r = q)) as [|Hrq]; [done|]. destruct (Hslot r k w) as (_ & _ & y & _ & Hy); [by eapply Hback|congruence|done|congruence]. }
  split; try done.
  - intros r k' w Hr _ Hk'. destruct (decide (r = q)) as [->|Hrq].
    + rewrite Hq' in Hr. injection Hr as <- <-. split; [done|]. split; [done|]. exists x. by rewrite lookup_insert_eq.
    + destruct (Hslot r k' w) as (Hg' & Hh' & y & -> & HVy); [by eapply Hback|congruence|done|]. split; [done|]. split; [done|]. exists y. split; [done|].
      rewrite lookup_insert_ne; [done|congruence].
  - intros k' y HV'. destruct (decide (k' = k)) as [->|Hne].
    + rewrite lookup_insert_eq in HV'. injection HV' as ->. by exists q.
    + rewrite lookup_insert_ne in HV' by done. destruct (Hmap k' y HV') as (r & Hr & Hrq & Hk'). exists r. split; [rewrite Hother; [done|congruence]|done].
  - intros r t k' w1 w2 Hr Ht Hk' _ _. destruct (decide (k' = k)) as [->|Hne]; [by rewrite (Hnew _ _ Hr), (Hnew _ _ Ht)|].
    assert (r <> q) by congruence. assert (t <> q) by congruence.
    eapply Hone; [by eapply Hback|by eapply Hback|done|congruence|congruence].
Qed.

(** ** Lookups *)

Lemma holds_cell n bs V p k v : holds n bs V None -> good_key k -> cell bs p = Some (k, v) -> exists x, v = Some x /\ V !! k = Some x.
Proof. intros H Hg Hc. eapply h_slot in Hc; [|done|done|unfold good_key in Hg; lia]. tauto. Qed.
Lemma holds_key n bs V k x : holds n bs V None -> V !! k = Some x -> exists b i, home n k b /\ cell bs (b, i) = Some (k, Some x).
Proof. intros H Hk. destruct (h_map _ _ _ _ H k x Hk) as ([b i] & Hc & _ & Hu). exists b, i. split; [|done]. by eapply (h_slot _ _ _ _ H (b, i)) in Hc; [destruct Hc as (_ & ? & _)| |]. Qed.

Lemma Find_ok m V k : holds (num_buckets_ m) (buckets_ m) V None -> good_key k -> Find k m = Some (Some <$> V !! k).
Proof.
  intros H Hg. pose proof (good_key_uint _ Hg) as Hu. unfold Find. rewrite key_transform_id by (unfold good_key in Hg; lia || done).
  pose proof (h_size _ _ _ _ H) as Hn. pose proof (h_shape _ _ _ _ H) as Hs.
  destruct (FindInBucket_ok _ _ k _ Hs (fast_map_range _ k Hn Hu)) as (r1 & E1 & H1).
  destruct (FindInBucket_ok _ _ k _ Hs (fast_map_range _ (h2 k) Hn (h2_uint k))) as (r2 & E2 & H2).
  rewrite E1. cbn [mbind option_bind]. destruct r1 as [v|].
  { destruct H1 as (i & Hc). destruct (holds_cell _ _ _ _ _ _ H Hg Hc) as (x & -> & HV). by rewrite HV. }
  rewrite E2. destruct r2 as [v|].
  { destruct H2 as (i & Hc). destruct (holds_cell _ _ _ _ _ _ H Hg Hc) as (x & -> & HV). by rewrite HV. }
  destruct (V !! k) as [x|] eqn:HV; [|done]. destruct (holds_key _ _ _ _ _ H HV) as (b & i & [-> | ->] & Hc); [by apply H1 in Hc|by apply H2 in Hc].
Qed.
End table.
