(* ===== verification/CuckooMapSearch.v ===== *)
(** * CuckooMapSearch: insertion into full buckets of [src/util/cuckoo_map.h]

    The breadth-first search of [CuckooInsert]: its queue never overflows, it visits every
    bucket within four moves of the two buckets of the key, and the keys along the path it
    finds are moved one by one without losing any, although a path may pass through a bucket
    twice. *)

From S2P Require Import Prelude Store CuckooMap CuckooMapTable.
#[local] Open Scope Z_scope.
#[local] Open Scope mycc_scope.

Section search.
Context {value : Type}.
Abbreviation map := (PresizedCuckooMap value).
Implicit Types (bs : list (Bucket value)) (m : map) (V : gmap Z value) (r : Z * Z) (k b n slot : Z) (e p gp : CuckooPathEntry) (A X : list CuckooPathEntry).

(** Only the queue, the list of visited entries or the buckets change. *)
Definition same_table m m' : Prop := num_buckets_ m' = num_buckets_ m /\ buckets_ m' = buckets_ m.

(** ** The queue *)

(** [A] was put in since the reset and the first [h] of it were taken out. *)
Record queue_ok m A (h : nat) : Prop := {
  q_items : exists rest, queue_ m = (Some <$> A) ++ rest;
  q_length : length (queue_ m) = 682%nat;
  q_head : head_ m = Z.of_nat h mod 682;
  q_tail : tail_ m = Z.of_nat (length A) mod 682;
  q_bounds : (h <= length A <= 682)%nat }.

Lemma queue_push m A h e : queue_ok m A h -> (length A < 682)%nat ->
  exists m', cpq_push_back e m = Some (tt, m') /\ queue_ok m' (A ++ [e]) h /\ same_table m m' /\ visited_ m' = visited_ m.
Proof.
  intros [[rest Eq] Hl Hh Ht Hb] HA. unfold cpq_push_back.
  assert (tail_ m = Z.of_nat (length A)) as Et by (rewrite Ht; apply Z.mod_small; lia).
  eexists. split.
  { apply run_update. rewrite aput_in by lia. cbn [mbind option_bind]. rewrite Et, Nat2Z.id, Eq. reflexivity. }
  split; [|done]. destruct rest as [|x rest]; [rewrite Eq, length_app, length_fmap in Hl; cbn in Hl; lia|].
  split; cbn [queue_ head_ tail_ with_queue].
  - exists rest. rewrite <- (length_fmap Some A), insert_app_r_alt, Nat.sub_diag by lia. cbn [insert list_insert]. by rewrite fmap_app, <- app_assoc.
  - by rewrite length_insert, <- Eq.
  - done.
  - rewrite length_app. cbn. unfold kMaxQueueSize. f_equal. lia.
  - rewrite length_app. cbn. lia.
Qed.

Lemma queue_pop m A h e : queue_ok m A h -> A !! h = Some e ->
  exists m', cpq_pop_front m = Some (e, m') /\ queue_ok m' A (S h) /\ same_table m m' /\ visited_ m' = visited_ m.
Proof.
  intros [[rest Eq] Hl Hh Ht Hb] HA. pose proof (lookup_lt_Some _ _ _ HA). unfold cpq_pop_front.
  assert (head_ m = Z.of_nat h) as Eh by (rewrite Hh; apply Z.mod_small; lia).
  eexists. split.
  { eapply bind_reads; [|eapply bind_update; [done|done]].
    rewrite Eh, aget_nat, Eq, lookup_app_l by (rewrite length_fmap; lia). by rewrite list_lookup_fmap, HA. }
  split; [|done]. split; cbn [queue_ head_ tail_ with_queue]; try done; [by exists rest| |lia].
  rewrite Eh. unfold kMaxQueueSize. f_equal. lia.
Qed.

Lemma queue_empty m A h : queue_ok m A h -> (0 < length A)%nat -> (h = 0%nat -> length A <> 682%nat) ->
  cpq_empty m = Some (bool_decide (h = length A), m).
Proof.
  intros [_ _ Hh Ht Hb] HA H0. unfold cpq_empty. apply run_reads. f_equal. rewrite Hh, Ht.
  destruct (decide (length A = 682%nat)) as [EA|NA].
  - rewrite EA. change (Z.of_nat 682 mod 682) with 0. destruct (decide (h = 682%nat)) as [->|Hn]; [done|].
    rewrite Z.mod_small, bool_decide_false by lia. apply Z.eqb_neq. specialize (H0 : h = 0%nat -> _). lia.
  - rewrite !Z.mod_small by lia. case_bool_decide; [apply Z.eqb_eq|apply Z.eqb_neq]; lia.
Qed.

(** ** The visited entries *)

Definition visited_ok m X : Prop := length (visited_ m) = 170%nat /\ exists rest, visited_ m = (Some <$> X) ++ rest.

Lemma visited_get m X i e : visited_ok m X -> aget X i = Some e -> mjoin (aget (visited_ m) i) = Some e.
Proof.
  intros [_ [rest Ev]] [Hi HX]%aget_Some. unfold aget. destruct (Z.ltb_spec i 0); [lia|]. pose proof (lookup_lt_Some _ _ _ HX).
  rewrite Ev, lookup_app_l by (rewrite length_fmap; lia). by rewrite list_lookup_fmap, HX.
Qed.
Lemma visited_push m X e : visited_ok m X -> (length X < 170)%nat ->
  exists m', update (fun m => vs ← aput (Z.of_nat (length X)) (Some e) (visited_ m); Some (with_visited vs m)) m = Some (tt, m') /\
    visited_ok m' (X ++ [e]) /\ same_table m m' /\ forall A h, queue_ok m A h -> queue_ok m' A h.
Proof.
  intros [Hl [rest Ev]] HX. eexists. split.
  { apply run_update. rewrite aput_in by lia. cbn [mbind option_bind]. rewrite Nat2Z.id, Ev. reflexivity. }
  destruct rest as [|x rest]; [rewrite Ev, length_app, length_fmap in Hl; cbn in Hl; lia|].
  split; [|split; [done|by intros A h []]]. split; cbn [visited_ with_visited]; [by rewrite length_insert, <- Ev|].
  exists rest. rewrite <- (length_fmap Some X), insert_app_r_alt, Nat.sub_diag by lia. cbn [insert list_insert]. by rewrite fmap_app, <- app_assoc.
Qed.

(** ** Paths *)

Section paths.
Context (n : Z) (T : list (Bucket value)) (V : gmap Z value) (b1 b2 : Z).

(** An entry is one of the two roots or leads from a slot of a visited entry to the other
    bucket of the key there, which is not the bucket that entry itself was reached from. *)
Definition entry_ok X e : Prop :=
  1 <= depth e <= 5 /\ 0 <= bucket e < n /\
  ((depth e = 1 /\ (bucket e = b1 \/ bucket e = b2) /\ parent e = 0) \/
   exists p k v gp, aget X (parent e) = Some p /\ depth e = depth p + 1 /\ cell T (bucket p, parent_slot e) = Some (k, v) /\
     bucket e = alt_bucket n k (bucket p) /\ aget X (parent p) = Some gp /\ bucket e <> bucket gp).

Lemma aget_app X Y i e : aget X i = Some e -> aget (X ++ Y) i = Some e.
Proof. intros [? ?]%aget_Some. apply aget_Some. split; [done|]. by apply lookup_app_l_Some. Qed.
Lemma entry_ok_app X Y e : entry_ok X e -> entry_ok (X ++ Y) e.
Proof.
  intros (Hd & Hb & He). split; [done|]. split; [done|]. destruct He as [He|(p & k & v & gp & Hp & ? & ? & ? & Hg & ?)]; [by left|].
  right. exists p, k, v, gp. split; [by apply aget_app|]. do 3 (split; [done|]). split; [by apply aget_app|done].
Qed.

(** The slots whose keys move when the path of [e] is taken. *)
Fixpoint path_slots (fuel : nat) X e : list (Z * Z) :=
  match fuel with
  | O => []
  | S fuel =>
      if depth e >? 1 then
        match aget X (parent e) with Some p => (bucket p, parent_slot e) :: path_slots fuel X p | None => [] end
      else []
  end.

Lemma path_slots_root fuel X e : depth e = 1 -> path_slots fuel X e = [].
Proof. intros E. destruct fuel; [done|]. cbn. by rewrite E. Qed.
Lemma path_slots_child fuel X e p : aget X (parent e) = Some p -> 1 < depth e ->
  path_slots (S fuel) X e = (bucket p, parent_slot e) :: path_slots fuel X p.
Proof. intros E Hd. cbn. destruct (Z.gtb_spec (depth e) 1); [by rewrite E|lia]. Qed.

Lemma elem_aget X i e : aget X i = Some e -> e ∈ X.
Proof. intros [_ ?]%aget_Some. by eapply list_elem_of_lookup_2. Qed.

(** The path of an entry whose bucket has a free slot does not use a slot twice: the
    visited buckets are full, a step never goes back to where its start was reached from,
    and a path has at most four steps. *)
Lemma path_distinct X e s v0 : Forall (entry_ok X) X -> Forall (fun x => full T (bucket x)) X ->
  entry_ok X e -> cell T (bucket e, s) = Some (kUnusedSlot, v0) -> NoDup ((bucket e, s) :: path_slots 5 X e).
Proof.
  intros HX HF He Hs. rewrite Forall_forall in HX. rewrite Forall_forall in HF.
  assert (forall p, p ∈ X -> bucket p <> bucket e) as Hne by (intros p Hp E; apply HF in Hp; rewrite E in Hp; by eapply Hp).
  assert (forall i p, aget X i = Some p -> 1 <= depth p) as Hpos by (intros i p Hp%elem_aget; apply HX in Hp as (? & _); lia).
  destruct He as (Hd0 & _ & [(E0 & _)|(p1 & k1 & v1 & g1 & X1 & D1 & C1 & A1 & G1 & N1)]).
  { rewrite path_slots_root by done. apply NoDup_singleton. }
  pose proof (Hpos _ _ X1). rewrite (path_slots_child 4 _ _ p1) by (done || lia). pose proof (Hne p1 (elem_aget _ _ _ X1)) as F1.
  destruct (HX p1 (elem_aget _ _ _ X1)) as (Hd1 & _ & [(E1 & _)|(p2 & k2 & v2 & g2 & X2 & D2 & C2 & A2 & G2 & N2)]).
  { rewrite path_slots_root by done. repeat constructor; rewrite ?not_elem_of_cons, ?elem_of_nil; try tauto. split; [congruence|tauto]. }
  pose proof (Hpos _ _ X2). rewrite (path_slots_child 3 _ _ p2) by (done || lia). pose proof (Hne p2 (elem_aget _ _ _ X2)) as F2.
  assert (g1 = p2) as -> by congruence.
  destruct (HX p2 (elem_aget _ _ _ X2)) as (Hd2 & _ & [(E2 & _)|(p3 & k3 & v3 & g3 & X3 & D3 & C3 & A3 & G3 & N3)]).
  { rewrite path_slots_root by done. repeat constructor; rewrite ?not_elem_of_cons, ?elem_of_nil; repeat split; try tauto; congruence. }
  pose proof (Hpos _ _ X3). rewrite (path_slots_child 2 _ _ p3) by (done || lia). pose proof (Hne p3 (elem_aget _ _ _ X3)) as F3.
  assert (g2 = p3) as -> by congruence.
  destruct (HX p3 (elem_aget _ _ _ X3)) as (Hd3 & _ & [(E3 & _)|(p4 & k4 & v4 & g4 & X4 & D4 & C4 & A4 & G4 & N4)]).
  { rewrite path_slots_root by done. repeat constructor; rewrite ?not_elem_of_cons, ?elem_of_nil; repeat split; try tauto; congruence. }
  pose proof (Hpos _ _ X4). rewrite (path_slots_child 1 _ _ p4) by (done || lia). pose proof (Hne p4 (elem_aget _ _ _ X4)) as F4.
  assert (g3 = p4) as -> by congruence. rewrite path_slots_root by lia.
  repeat constructor; rewrite ?not_elem_of_cons, ?elem_of_nil; repeat split; try tauto; congruence.
Qed.
(** ** Moving the keys of a path *)

Lemma CopyItem_ok m r (q : Z * Z) k v bs' : cell (buckets_ m) r = Some (k, v) -> store_slot q.1 q.2 k v (buckets_ m) = Some bs' ->
  CopyItem r.1 r.2 q.1 q.2 m = Some (tt, with_buckets bs' m).
Proof.
  unfold cell. intros Hp E. apply run_update. destruct (aget (buckets_ m) r.1) as [bk|]; [|done]. cbn in *.
  destruct (aget (keys bk) r.2); [|done]. cbn in *. destruct (aget (values bk) r.2); [|done]. cbn in *. injection Hp as -> ->. by rewrite E.
Qed.

Lemma move_path_ok X : Forall (entry_ok X) X -> Forall (fun x => full T (bucket x)) X ->
  forall fuel e s m, entry_ok X e -> depth e <= Z.of_nat fuel -> visited_ok m X ->
  holds n (buckets_ m) V (Some (bucket e, s)) -> 0 <= s < 4 ->
  NoDup ((bucket e, s) :: path_slots fuel X e) -> (forall r, r ∈ path_slots fuel X e -> cell (buckets_ m) r = cell T r) ->
  exists p s' bs, move_path fuel e s m = Some ((p, s'), with_buckets bs m) /\ (bucket p = b1 \/ bucket p = b2) /\ 0 <= s' < 4 /\
    holds n bs V (Some (bucket p, s')).
Proof.
  intros HX HF. induction fuel as [|fuel IH]; intros e s m He Hd Hv Hh Hs HN HT; [destruct He; lia|].
  cbn [move_path]. destruct He as (Hd0 & Hb & [(E & Hroot & _)|(p & k & v & gp & Xp & Dp & Cp & Ap & _)]).
  { rewrite E. exists e, s, (buckets_ m). split; [by destruct m|done]. }
  assert (entry_ok X p) as Hp by (rewrite Forall_forall in HX; apply HX; by eapply elem_aget).
  assert (k <> kUnusedSlot) as Hk by (rewrite Forall_forall in HF; eapply (HF p); [by eapply elem_aget|exact Cp]).
  assert (1 <= depth p) by (destruct Hp; lia). destruct (Z.gtb_spec (depth e) 1); [|lia].
  rewrite (path_slots_child fuel X e p) in HN, HT by (done || lia).
  set (r := (bucket p, parent_slot e)) in *. set (q := (bucket e, s)) in *.
  assert (cell (buckets_ m) r = Some (k, v)) as Cr by (rewrite HT; [done|by left]).
  apply NoDup_cons in HN as [Hq HN]. assert (r <> q) as Hrq by (intros E; apply Hq; rewrite E; by left).
  destruct (store_slot_ok n (buckets_ m) q k v (h_shape _ _ _ _ Hh) Hb Hs) as (bs' & Est & _).
  destruct (holds_move n _ V r q k v bs' Hh Hrq Cr Hk) as [Hh' Hother]; [cbn; rewrite Ap; apply alt_home|done|done|].
  destruct (IH p (parent_slot e) (with_buckets bs' m)) as (p' & s' & bs & E & Hroot & Hs' & Hbs); try done.
  - lia.
  - apply (cell_bounds n (buckets_ m) r _ (h_shape _ _ _ _ Hh) Cr).
  - intros t Ht. cbn [buckets_ with_buckets]. rewrite Hother; [apply HT; by right|]. intros ->. apply Hq. by right.
  - exists p', s', bs. split; [|done].
    eapply bind_reads; [by eapply visited_get|]. eapply bind_run; [by apply (CopyItem_ok m r q k v)|]. exact E.
Qed.

(** ** The children of an entry *)

Lemma push_children_ok X e start pi gp A h : Forall (fun x => full T (bucket x)) (e :: X) -> holds n T V None -> entry_ok X e -> depth e < 5 ->
  aget X (parent e) = Some gp -> aget X pi = Some e -> 0 <= start ->
  forall l m A, Forall (fun i => 0 <= i < 4) l -> buckets_ m = T -> num_buckets_ m = n -> visited_ok m X -> queue_ok m A h ->
  (length A + length l <= 682)%nat ->
  exists cs m', push_children e pi start l m = Some (tt, m') /\ buckets_ m' = T /\ num_buckets_ m' = n /\ visited_ok m' X /\
    queue_ok m' (A ++ cs) h /\ (length cs <= length l)%nat /\ Forall (entry_ok X) cs /\ Forall (fun c => depth c = depth e + 1) cs /\
    forall i k v, i ∈ l -> cell T (bucket e, (start + i) mod 4) = Some (k, v) ->
      alt_bucket n k (bucket e) = bucket gp \/ exists c, c ∈ cs /\ bucket c = alt_bucket n k (bucket e).
Proof.
  intros HF HT He Hd Hgp Hpi Hst l. clear A. induction l as [|i l IH]; intros m A Hl Hm Hn Hv Hq HA.
  { exists [], m. rewrite app_nil_r. split_and!; try done. intros ??? Hi. by apply elem_of_nil in Hi. }
  apply Forall_cons in Hl as [Hi Hl]. apply Forall_cons in HF as [Hfe HF].
  set (slot := (start + i) mod 4). assert (0 <= slot < 4) as Hs by (apply Z.mod_pos_bound; lia).
  destruct (cell_get n T (bucket e, slot) (h_shape _ _ _ _ HT)) as (k & v & Hc); [apply He|done|].
  assert (good_key k) as Hg.
  { eapply h_slot in Hc as [? _]; [done|exact HT|done|]. eapply Hfe. exact Hc. }
  pose proof (home_range n k (alt_bucket n k (bucket e)) (h_size _ _ _ _ HT) (good_key_uint _ Hg) (alt_home _ _ _)) as Hb.
  set (c := {| bucket := alt_bucket n k (bucket e); depth := depth e + 1; parent := pi; parent_slot := slot |}).
  assert (exists cs0 m0, (if negb (alt_bucket n k (bucket e) =? bucket gp) then cpq_push_back c else mret tt) m = Some (tt, m0) /\
    buckets_ m0 = T /\ num_buckets_ m0 = n /\ visited_ok m0 X /\ queue_ok m0 (A ++ cs0) h /\ (length cs0 <= 1)%nat /\
    Forall (entry_ok X) cs0 /\ Forall (fun c => depth c = depth e + 1) cs0 /\
    (alt_bucket n k (bucket e) = bucket gp \/ c ∈ cs0)) as (cs0 & m0 & E0 & B0 & N0 & V0 & Q0 & L0 & O0 & D0 & C0).
  { destruct (Z.eqb_spec (alt_bucket n k (bucket e)) (bucket gp)) as [Eg|Ng]; cbn [negb].
    - exists [], m. rewrite app_nil_r. split_and!; try done; [cbn; lia|by left].
    - destruct (queue_push m A h c Hq) as (m0 & E0 & Q0 & [N0 B0] & V0); [cbn in HA; lia|].
      exists [c], m0. split; [done|]. split; [congruence|]. split; [congruence|]. split; [unfold visited_ok; by rewrite V0|]. split; [done|].
      split; [done|]. split; [|split; [by apply Forall_singleton|right; by left]].
      apply Forall_singleton. split; [destruct He; cbn; lia|]. split; [done|]. right. exists e, k, v, gp. by split_and!. }
  destruct (IH m0 (A ++ cs0)) as (cs & m' & E & B & N & Hv' & Hq' & L & O & D & C); try done.
  { rewrite length_app. cbn in HA. lia. }
  exists (cs0 ++ cs), m'. split.
  { cbn [push_children]. fold slot. eapply bind_reads; [rewrite Hm; by eapply key_at_cell|]. eapply bind_reads; [done|].
    eapply bind_reads; [by eapply visited_get|]. rewrite Hn. eapply bind_run; [exact E0|]. exact E. }
  rewrite app_assoc. split_and!; try done; [rewrite length_app; cbn; lia|by apply Forall_app|by apply Forall_app|].
  intros j k' v' [->|Hj]%elem_of_cons Hc'.
  - fold slot in Hc'. rewrite Hc in Hc'. injection Hc' as <- <-. destruct C0 as [?|Hin]; [by left|]. right. exists c. split; [apply elem_of_app; by left|done].
  - destruct (C j k' v' Hj Hc') as [?|(c' & ? & ?)]; [by left|]. right. exists c'. split; [apply elem_of_app; by right|done].
Qed.
(** ** The search *)

(** How many entries the search can still take from the queue, or visit, below an entry. *)
Definition weight (d : Z) : Z := (4 ^ (6 - d) - 1) / 3.
Definition vweight (d : Z) : Z := (4 ^ (5 - d) - 1) / 3.
Definition room (w : Z -> Z) A : Z := fold_right (fun e z => w (depth e) + z) 0 A.

Lemma weight_step d : 1 <= d <= 5 -> 1 <= weight d /\ 0 <= vweight d /\ (d < 5 -> weight d = 1 + 4 * weight (d + 1) /\ vweight d = 1 + 4 * vweight (d + 1)).
Proof. intros Hd. assert (d = 1 \/ d = 2 \/ d = 3 \/ d = 4 \/ d = 5) as [->|[->|[->|[->| ->]]]] by lia; vm_compute; repeat split; congruence || lia. Qed.
Lemma room_app w A1 A2 : room w (A1 ++ A2) = room w A1 + room w A2.
Proof. induction A1 as [|e A1 IH]; [done|]. cbn [app room fold_right]. fold (room w (A1 ++ A2)) (room w A1). rewrite IH. lia. Qed.
Lemma room_same w d A : 0 <= w d -> Forall (fun e => depth e = d) A -> room w A = Z.of_nat (length A) * w d.
Proof. intros Hw. induction 1 as [|e A E _ IH]; cbn [room fold_right length]; [done|]. fold (room w A). rewrite E, IH. lia. Qed.
Lemma room_length X A : Forall (entry_ok X) A -> Z.of_nat (length A) <= room weight A /\ 0 <= room vweight A.
Proof.
  induction 1 as [|e A He _ IH]; cbn [room fold_right length]; [done|]. fold (room weight A). fold (room vweight A).
  destruct (weight_step (depth e)) as (? & ? & _); [apply He|]. lia.
Qed.

Record searching m A (h : nat) X : Prop := {
  s_num : num_buckets_ m = n;
  s_buckets : buckets_ m = T;
  s_visited : visited_ok m X;
  s_queue : queue_ok m A h;
  s_roots : A !! 0%nat = Some (root b1) /\ A !! 1%nat = Some (root b2);
  s_first : (h = 0%nat /\ X = [] /\ length A = 2%nat) \/ X !! 0%nat = Some (root b1);
  s_entries : Forall (entry_ok X) A;
  s_taken : forall j e, A !! j = Some e -> (j < h)%nat -> full T (bucket e) /\ (depth e < 5 -> e ∈ X);
  s_expanded : forall e, e ∈ X -> (exists j, (j < h)%nat /\ A !! j = Some e) /\ depth e < 5 /\
    forall i k v, cell T (bucket e, i) = Some (k, v) -> exists c, c ∈ A /\ bucket c = alt_bucket n k (bucket e) /\ depth c <= depth e + 1;
  s_room : Z.of_nat h + room weight (drop h A) <= 682;
  s_vroom : Z.of_nat (length X) + room vweight (drop h A) <= 170 }.

Lemma searching_visited m A h X : searching m A h X -> Forall (entry_ok X) X /\ Forall (fun e => full T (bucket e)) X.
Proof.
  intros S. rewrite !Forall_forall. split; intros e He; destruct (s_expanded _ _ _ _ S e He) as ((j & Hj & Ej) & _ & _).
  - pose proof (s_entries _ _ _ _ S) as HA. rewrite Forall_forall in HA. apply HA. by eapply list_elem_of_lookup_2.
  - by apply (s_taken _ _ _ _ S j e).
Qed.

(** What the operations keep: the table holds a map, and the two arrays are there. *)
Record map_ok m V : Prop := {
  ok_holds : holds (num_buckets_ m) (buckets_ m) V None;
  ok_queue : length (queue_ m) = 682%nat;
  ok_visited : length (visited_ m) = 170%nat }.

Context (k : Z) (x : value).
Context (HT : holds n T V None) (Hg : good_key k) (HV : V !! k = None).
Context (Hb1 : home n k b1) (Hb2 : home n k b2).

(** The queue holds a path to a free slot. *)
Lemma round_found m A h X e i v0 : searching m A h X -> A !! h = Some e -> 0 <= i < 4 -> cell T (bucket e, i) = Some (kUnusedSlot, v0) ->
  SpaceAvailable T (bucket e) = Some i ->
  exists m', CuckooInsert_round k x (Z.of_nat (length X)) m = Some ((Some true, Z.of_nat (length X)), m') /\ map_ok m' (<[k := x]> V) /\ num_buckets_ m' = n.
Proof.
  intros S Ee Hi Hc Esp. destruct (searching_visited _ _ _ _ S) as [HX HF]. destruct S as [Sn Sb Sv Sq _ _ Se _ _ _ _].
  assert (entry_ok X e) as He by (rewrite Forall_forall in Se; apply Se; by eapply list_elem_of_lookup_2).
  destruct (queue_pop m A h e Sq Ee) as (m1 & E1 & Q1 & [N1 B1] & V1).
  destruct (move_path_ok X HX HF 5 e i m1) as (p & s' & bs & Em & Hp & Hs' & Hh); try done.
  - apply He.
  - unfold visited_ok. by rewrite V1.
  - rewrite B1, Sb. by eapply holds_free.
  - by eapply path_distinct.
  - intros r _. by rewrite B1, Sb.
  - destruct (holds_fill n bs V (bucket p, s') k x Hh HV Hg) as (bs' & Est & Hh'); [destruct Hp as [-> | ->]; done|done|].
    exists (with_buckets bs' (with_buckets bs m1)). split.
    + unfold CuckooInsert_round. eapply bind_run; [exact E1|]. eapply bind_reads; [rewrite B1, Sb; exact Esp|].
      assert (i =? kNoSpace = false) as -> by (apply Z.eqb_neq; unfold kNoSpace; lia). cbn [negb].
      eapply bind_run; [exact Em|]. cbn. eapply bind_update; [|done]. cbn. cbn in Est. by rewrite Est.
    + assert (num_buckets_ m1 = n) as N1' by congruence. split; [split; cbn; [by rewrite N1'|apply Q1|rewrite V1; apply Sv]|done].
Qed.

Lemma mod4_all start s : 0 <= s < 4 -> exists i, i ∈ slots /\ (start + i) mod 4 = s.
Proof.
  intros Hs. exists ((s - start) mod 4). split.
  - pose proof (Z.mod_pos_bound (s - start) 4 ltac:(lia)) as Hm. unfold slots. destruct (slot_cases _ Hm) as [->|[->|[->| ->]]]; repeat constructor.
  - rewrite Zplus_mod_idemp_r. replace (start + (s - start)) with s by lia. apply Z.mod_small. lia.
Qed.

(** A full bucket is expanded. *)
Lemma round_expand m A h X e : searching m A h X -> A !! h = Some e -> full T (bucket e) -> SpaceAvailable T (bucket e) = Some kNoSpace -> depth e < 5 ->
  exists cs m', CuckooInsert_round k x (Z.of_nat (length X)) m = Some ((None, Z.of_nat (length (X ++ [e]))), m') /\ searching m' (A ++ cs) (S h) (X ++ [e]).
Proof.
  intros S Ee Hf Esp Hd. destruct (searching_visited _ _ _ _ S) as [HX HF]. destruct S as [Sn Sb Sv Sq [Sr1 Sr2] Sf Se St Sx Sm Svm].
  assert (entry_ok X e) as He by (rewrite Forall_forall in Se; apply Se; by eapply list_elem_of_lookup_2).
  destruct (weight_step (depth e)) as (W1 & W2 & W3); [apply He|]. destruct (W3 Hd) as [Ew Evw].
  destruct (weight_step (depth e + 1)) as (W1' & W2' & _); [destruct He; lia|].
  rewrite (drop_S A e h Ee) in Sm, Svm. cbn [room fold_right] in Sm, Svm. fold (room weight (drop (S h) A)) in Sm. fold (room vweight (drop (S h) A)) in Svm.
  destruct (room_length X (drop (S h) A)) as [R1 R2]; [by apply Forall_drop|]. rewrite length_drop in R1. pose proof (lookup_lt_Some _ _ _ Ee) as Hh.
  destruct (queue_pop m A h e Sq Ee) as (m1 & E1 & Q1 & [N1 B1] & V1).
  assert (visited_ok m1 X) as Hv1 by (unfold visited_ok; by rewrite V1).
  destruct (visited_push m1 X e Hv1) as (m2 & E2 & V2 & [N2 B2] & Q2); [lia|].
  assert ((X ++ [e]) !! 0%nat = Some (root b1)) as Hfirst.
  { destruct Sf as [(-> & -> & _)|Sf]; [cbn; congruence|]. by apply lookup_app_l_Some. }
  assert (exists gp, aget (X ++ [e]) (parent e) = Some gp /\ gp ∈ X ++ [e] /\ depth gp <= depth e + 1) as (gp & Egp & Hgp & Dgp).
  { destruct He as (Hd1 & _ & [(_ & _ & ->)|(p & ? & ? & ? & Hp & ? & _)]).
    - exists (root b1). split; [apply aget_Some; by split|]. split; [by eapply list_elem_of_lookup_2|]. cbn. lia.
    - exists p. split; [by apply aget_app|]. split; [apply elem_of_app; left; by eapply elem_aget|lia]. }
  set (start := u64 (k + bucket e) mod 4).
  assert (Forall (entry_ok (X ++ [e])) A) as Se' by (eapply Forall_impl; [exact Se|]; intros; by apply entry_ok_app).
  destruct (push_children_ok (X ++ [e]) e start (Z.of_nat (length X)) gp A (S h)) with (l := slots) (m := m2) (A := A)
    as (cs & m3 & E3 & B3 & N3 & V3 & Q3 & L3 & O3 & D3 & C3); try done.
  { constructor; [done|]. apply Forall_app. split; [done|by apply Forall_singleton]. }
  { by apply entry_ok_app. }
  { rewrite aget_nat. rewrite lookup_app_r, Nat.sub_diag by lia. done. }
  { apply Z.mod_pos_bound. lia. }
  { unfold slots. repeat constructor; lia. }
  { congruence. } { congruence. } { by apply Q2. } { cbn. lia. }
  exists cs, m3. split.
  { unfold CuckooInsert_round. eapply bind_run; [exact E1|]. eapply bind_reads; [rewrite B1, Sb; exact Esp|]. rewrite Z.eqb_refl. cbn [negb].
    assert (depth e <? kMaxBFSPathLen = true) as -> by (apply Z.ltb_lt; exact Hd).
    eapply bind_run; [exact E2|]. eapply bind_run; [exact E3|]. rewrite length_app. cbn. unfold mret, ST_ret. do 3 f_equal. lia. }
  assert (room weight cs <= 4 * weight (depth e + 1) /\ room vweight cs <= 4 * vweight (depth e + 1)) as [Rw Rv].
  { rewrite !(room_same _ (depth e + 1) cs) by (done || lia). cbn in L3. split; apply Z.mul_le_mono_nonneg_r; lia. }
  split; try done.
  - split; by apply lookup_app_l_Some.
  - by right.
  - by apply Forall_app.
  - intros j e' Ej Hj. rewrite lookup_app_l in Ej by lia. destruct (decide (j = h)) as [->|Hne].
    + assert (e' = e) as -> by congruence. split; [done|]. intros _. apply elem_of_app. right. by left.
    + destruct (St j e' Ej) as [? Hx]; [lia|]. split; [done|]. intros Hd'. apply elem_of_app. left. by apply Hx.
  - intros e' [He'| ->%list_elem_of_singleton]%elem_of_app.
    + destruct (Sx e' He') as ((j & Hj & Ej) & Hd' & Hcl). split; [exists j; split; [lia|by apply lookup_app_l_Some]|]. split; [done|].
      intros i k' v Hc. destruct (Hcl i k' v Hc) as (c & ? & ?). exists c. split; [apply elem_of_app; by left|done].
    + split; [exists h; split; [lia|by apply lookup_app_l_Some]|]. split; [done|]. intros i k' v Hc.
      destruct (cell_bounds n T _ _ (h_shape _ _ _ _ HT) Hc) as [_ Hi]. destruct (mod4_all start i Hi) as (j & Hj & Ej). rewrite <- Ej in Hc.
      destruct (C3 j k' v Hj Hc) as [E|(c & Hc' & E)].
      * apply elem_of_app in Hgp as [Hgp| ->%list_elem_of_singleton].
        -- destruct (Sx gp Hgp) as ((j' & _ & Ej') & _). exists gp. split; [apply elem_of_app; left; by eapply list_elem_of_lookup_2|done].
        -- exists e. split; [apply elem_of_app; left; by eapply list_elem_of_lookup_2|]. split; [done|lia].
      * exists c. split; [apply elem_of_app; by right|]. split; [done|]. rewrite Forall_forall in D3. rewrite (D3 c Hc'). lia.
  - rewrite drop_app_le, room_app by lia. lia.
  - rewrite drop_app_le, room_app, length_app by lia. cbn [length]. lia.
Qed.
(** At the last level nothing is added. *)
Lemma round_last m A h X e : searching m A h X -> A !! h = Some e -> full T (bucket e) -> SpaceAvailable T (bucket e) = Some kNoSpace -> 5 <= depth e ->
  exists m', CuckooInsert_round k x (Z.of_nat (length X)) m = Some ((None, Z.of_nat (length X)), m') /\ searching m' A (S h) X.
Proof.
  intros [Sn Sb Sv Sq Sr Sf Se St Sx Sm Svm] Ee Hf Esp Hd.
  destruct (queue_pop m A h e Sq Ee) as (m1 & E1 & Q1 & [N1 B1] & V1). exists m1. split.
  { unfold CuckooInsert_round. eapply bind_run; [exact E1|]. eapply bind_reads; [rewrite B1, Sb; exact Esp|]. rewrite Z.eqb_refl. cbn [negb].
    assert (depth e <? kMaxBFSPathLen = false) as -> by (apply Z.ltb_ge; exact Hd). done. }
  assert (entry_ok X e) as He by (rewrite Forall_forall in Se; apply Se; by eapply list_elem_of_lookup_2).
  assert (depth e = 5) as Ed by (destruct He; lia).
  rewrite (drop_S A e h Ee) in Sm, Svm. cbn [room fold_right] in Sm, Svm. rewrite Ed in Sm, Svm.
  change (weight 5) with 1 in Sm. change (vweight 5) with 0 in Svm. fold (room weight (drop (Datatypes.S h) A)) in Sm.
  split; try done; [congruence|congruence|unfold visited_ok; by rewrite V1| | | |lia].
  - destruct Sf as [(-> & _)|Sf]; [|by right]. destruct Sr as [Sr _]. exfalso. rewrite Sr in Ee. injection Ee as <-. by cbn in Ed.
  - intros j e' Ej Hj. destruct (decide (j = h)) as [->|Hne]; [|apply (St j e' Ej); lia].
    assert (e' = e) as -> by congruence. split; [done|lia].
  - intros e' He'. destruct (Sx e' He') as ((j & Hj & Ej) & Hcl). split; [exists j; split; [lia|done]|done].
Qed.

(** The buckets that a key leads to when the keys in its way give place. *)
Inductive reach : nat -> Z -> Prop :=
  | reach_root b : b = b1 \/ b = b2 -> reach 0 b
  | reach_move j b i k' v : reach j b -> cell T (b, i) = Some (k', v) -> reach (S j) (alt_bucket n k' b).

Lemma searching_reach m A X : searching m A (length A) X -> forall j b, reach j b -> (j <= 4)%nat -> exists e, e ∈ A /\ bucket e = b /\ depth e <= Z.of_nat j + 1.
Proof.
  intros [_ _ _ _ [Sr1 Sr2] _ _ St Sx _ _] j b. induction 1 as [b Hb|j b i k' v _ IH Hc]; intros Hj.
  - destruct Hb as [-> | ->]; [exists (root b1)|exists (root b2)]; (split; [by eapply list_elem_of_lookup_2|done]).
  - destruct (IH ltac:(lia)) as (e & He & <- & Hd). apply list_elem_of_lookup in He as [l El].
    destruct (St l e El) as [_ HX]; [by eapply lookup_lt_Some|]. assert (e ∈ X) as HeX by (apply HX; lia). destruct (Sx e HeX) as (_ & _ & Hcl).
    destruct (Hcl i k' v Hc) as (c & ? & ? & ?). exists c. split; [done|]. split; [done|lia].
Qed.

Lemma loop_ok : forall fuel m A h X, searching m A h X -> (683 <= fuel + h)%nat ->
  exists (found : bool) m', CuckooInsert_loop fuel k x (Z.of_nat (length X)) m = Some (found, m') /\ num_buckets_ m' = n /\
    if found then map_ok m' (<[k := x]> V)
    else map_ok m' V /\ buckets_ m' = T /\ forall j b, reach j b -> (j <= 4)%nat -> full T b.
Proof.
  induction fuel as [|fuel IH]; intros m A h X S Hfuel; pose proof (q_bounds _ _ _ (s_queue _ _ _ _ S)) as Hb; [lia|].
  cbn [CuckooInsert_loop]. pose proof (s_roots _ _ _ _ S) as [_ Hr%lookup_lt_Some].
  pose proof (queue_empty m A h (s_queue _ _ _ _ S) ltac:(lia)) as Ee.
  unfold mbind at 1, ST_bind at 1. rewrite Ee by (destruct (s_first _ _ _ _ S) as [(_ & _ & ?)|Hx];
    [lia|intros ->; apply list_elem_of_lookup_2 in Hx; destruct (s_expanded _ _ _ _ S _ Hx) as ((? & ? & _) & _); lia]).
  cbn [mbind option_bind]. case_bool_decide as Eh.
  { subst h. exists false, m. split; [done|]. pose proof (s_num _ _ _ _ S) as En. pose proof (s_buckets _ _ _ _ S) as Eb. split; [done|].
    split; [split; [by rewrite En, Eb|apply (s_queue _ _ _ _ S)|apply (s_visited _ _ _ _ S)]|]. split; [done|].
    intros j b Hj Hj4. destruct (searching_reach _ _ _ S j b Hj Hj4) as (e & He & <- & _). apply list_elem_of_lookup in He as [l El].
    apply (s_taken _ _ _ _ S l e El). by eapply lookup_lt_Some. }
  destruct (lookup_lt_is_Some_2 A h) as [e He]; [lia|].
  assert (entry_ok X e) as Hok by (pose proof (s_entries _ _ _ _ S) as Se; rewrite Forall_forall in Se; apply Se; by eapply list_elem_of_lookup_2).
  destruct (SpaceAvailable_ok n T (bucket e) (h_shape _ _ _ _ HT)) as (i & Esp & Hi); [apply Hok|].
  destruct Hi as [[-> Hf]|[Hi [v0 Hc]]].
  - destruct (Z.lt_ge_cases (depth e) 5) as [Hd|Hd].
    + destruct (round_expand m A h X e S He Hf Esp Hd) as (cs & m' & E & S'). destruct (IH m' (A ++ cs) (Datatypes.S h) (X ++ [e]) S') as (found & m2 & E2 & R); [lia|].
      exists found, m2. split; [|exact R]. eapply bind_run; [exact E|]. exact E2.
    + destruct (round_last m A h X e S He Hf Esp Hd) as (m' & E & S'). destruct (IH m' A (Datatypes.S h) X S') as (found & m2 & E2 & R); [lia|].
      exists found, m2. split; [|exact R]. eapply bind_run; [exact E|]. exact E2.
  - destruct (round_found m A h X e i v0 S He Hi Hc Esp) as (m' & E & Hok' & Hn'). exists true, m'. split; [|done].
    eapply bind_run; [exact E|]. done.
Qed.

Lemma CuckooInsert_ok m : map_ok m V -> num_buckets_ m = n -> buckets_ m = T ->
  exists (found : bool) m', CuckooInsert k x b1 b2 m = Some (found, m') /\ num_buckets_ m' = n /\
    if found then map_ok m' (<[k := x]> V)
    else map_ok m' V /\ buckets_ m' = T /\ forall j b, reach j b -> (j <= 4)%nat -> full T b.
Proof.
  intros [_ Hq Hv] En Eb. set (m0 := with_queue (queue_ m) 0 0 m).
  assert (queue_ok m0 [] 0) as Q0 by (split; [by exists (queue_ m)|done|done|done|cbn; lia]).
  destruct (queue_push m0 [] 0 (root b1) Q0) as (m1 & E1 & Q1 & [N1 B1] & V1); [cbn; lia|].
  destruct (queue_push m1 _ 0 (root b2) Q1) as (m2 & E2 & Q2 & [N2 B2] & V2); [cbn; lia|].
  pose proof (h_size _ _ _ _ HT) as Hn. pose proof (good_key_uint _ Hg) as Hu.
  assert (forall b, home n k b -> b = b1 \/ b = b2 -> entry_ok [] (root b)) as Hroot.
  { intros b Hb Hbb. split; [cbn; lia|]. split; [by eapply home_range|]. by left. }
  destruct (loop_ok (Datatypes.S (Z.to_nat kMaxQueueSize)) m2 [root b1; root b2] 0 []) as (found & m' & E & R).
  - split; try done.
    + rewrite N2, N1. exact En.
    + rewrite B2, B1. exact Eb.
    + unfold visited_ok. rewrite V2, V1. split; [done|]. by exists (visited_ m).
    + left. done.
    + repeat constructor; apply Hroot; tauto.
    + lia.
    + intros e He. by apply elem_of_nil in He.
  - unfold kMaxQueueSize. lia.
  - exists found, m'. split; [|exact R]. unfold CuckooInsert. eapply bind_update; [done|]. fold m0. eapply bind_run; [exact E1|]. eapply bind_run; [exact E2|]. exact E.
Qed.
End paths.
End search.
