(* ===== verification/CuckooMapSet.v ===== *)
(** * CuckooMapSet: [PresizedCuckooMap] of [src/util/cuckoo_map.h] as a finite map

    [InsertUnique], [Find] and [Clear] against a finite map, for the keys the class allows,
    and what becomes of the one it excludes. *)

From Stdlib Require Import Floats.SpecFloat.
From S2P Require Import Prelude Store CuckooMap CuckooMapTable CuckooMapSearch.
#[local] Open Scope Z_scope.
#[local] Open Scope mycc_scope.

Section set.
Context {value : Type}.
Abbreviation map := (PresizedCuckooMap value).
Implicit Types (bs : list (Bucket value)) (m : map) (V : gmap Z value) (k b n : Z).

(** ** Construction *)

Definition fits (num_entries : Z) : Prop :=
  is_Some (uint64_of_double (SFdiv 53 1024 (double_of_uint64 num_entries) kLoadFactor)).

Lemma uint64_of_double_range f z : uint64_of_double f = Some z -> is_uint 64 z.
Proof.
  unfold is_uint. destruct f as [| | |[] mt e]; cbn [uint64_of_double]; try done; [by intros [= <-]|].
  pose proof (proj2 (Z.shiftl_nonneg (Z.pos mt) e) ltac:(lia)). destruct (Z.ltb_spec (Z.pos mt .<< e) (2 ^ 64)); [intros [= <-]; lia|done].
Qed.

Lemma cell_empty (num b i : Z) k v : cell (value := value) (replicate (Z.to_nat num) empty_bucket) (b, i) = Some (k, v) -> k = kUnusedSlot.
Proof.
  unfold cell. cbn [fst snd]. destruct (aget _ b) as [bk|] eqn:E; [|done]. apply aget_Some in E as [_ [-> _]%lookup_replicate].
  cbn [mbind option_bind]. destruct (aget (keys empty_bucket) i) eqn:Ek; [|done]. apply aget_Some in Ek as [_ [-> _]%lookup_replicate].
  cbn [mbind option_bind]. destruct (aget (values empty_bucket) i); [|done]. by intros [= <- _].
Qed.

Lemma Clear_ok num m : fits num -> length (visited_ m) = 170%nat -> exists m', Clear num m = Some (tt, m') /\ map_ok m' ∅.
Proof.
  intros [q Eq] Hv. unfold Clear. rewrite Eq. cbn [mbind option_bind]. eexists. split; [done|]. apply uint64_of_double_range in Eq.
  unfold is_uint in Eq. assert (0 <= q / kSlotsPerBucket < 2 ^ 62) as Hq.
  { unfold kSlotsPerBucket. split; [apply Z.div_pos; lia|]. apply Z.div_lt_upper_bound; lia. }
  rewrite wrap_small by (unfold is_uint; lia). split; cbn; [|done|done]. split.
  - lia.
  - split; [rewrite length_replicate; lia|]. by apply Forall_replicate.
  - intros [b i] k v ->%cell_empty _ ?. done.
  - intros k x Hk. by rewrite lookup_empty in Hk.
  - intros [b i] q' k v w ->%cell_empty. done.
Qed.
Lemma presized_new_ok num m : PresizedCuckooMap_new num = Some m -> map_ok m ∅.
Proof.
  unfold PresizedCuckooMap_new. intros E. destruct (Clear num _) as [[[] m']|] eqn:Ec in E; [|done]. injection E as ->.
  destruct (Clear_ok num {| num_buckets_ := 0; buckets_ := []; queue_ := []; head_ := 0; tail_ := 0;
       visited_ := replicate (Z.to_nat kVisitedListSize) None |}) as (m2 & E2 & H2); [|done|congruence].
  unfold fits. unfold Clear in Ec. destruct (uint64_of_double _) eqn:Eq in Ec; [|done]. rewrite Eq. by eexists.
Qed.

(** ** Insertion *)

Lemma InsertInternal_ok m V k x t : map_ok m V -> V !! k = None -> good_key k -> home (num_buckets_ m) k t.1 -> 0 <= t.2 < 4 ->
  (exists v, cell (buckets_ m) t = Some (kUnusedSlot, v)) ->
  exists m', InsertInternal k x t.1 t.2 m = Some (tt, m') /\ map_ok m' (<[k := x]> V) /\ num_buckets_ m' = num_buckets_ m.
Proof.
  intros [Hh Hq Hv] HV Hg Ht Ht2 [v Hc].
  destruct (holds_fill _ _ V t k x (holds_free _ _ _ _ _ Hh Hc) HV Hg Ht Ht2) as (bs' & E & Hh').
  exists (with_buckets bs' m). split; [|done]. apply run_update. by rewrite E.
Qed.

(** [InsertUnique] of an allowed key. *)
Lemma InsertUnique_ok m V k x : map_ok m V -> good_key k ->
  let b1 := fast_map_to_buckets (num_buckets_ m) k in let b2 := fast_map_to_buckets (num_buckets_ m) (h2 k) in
  exists (r : bool) m', InsertUnique k x m = Some (r, m') /\ num_buckets_ m' = num_buckets_ m /\
    if r then V !! k = None /\ map_ok m' (<[k := x]> V)
    else map_ok m' V /\ buckets_ m' = buckets_ m /\
      (is_Some (V !! k) \/ forall j b, reach (num_buckets_ m) (buckets_ m) b1 b2 j b -> (j <= 4)%nat -> full (buckets_ m) b).
Proof.
  intros Hok Hg b1 b2. pose proof (ok_holds _ _ Hok) as Hh. pose proof (good_key_uint _ Hg) as Hu. pose proof (h_size _ _ _ _ Hh) as Hn.
  assert (k <> kUnusedSlot) as Hk by (unfold good_key in Hg; lia).
  destruct (InsertUnique_buckets_ok (num_buckets_ m) (buckets_ m) k [] (h_shape _ _ _ _ Hh) Hk [b1; b2] (0, kNoSpace)) as (r & Er & Hr).
  { repeat constructor; apply fast_map_range; try done; apply h2_uint. }
  { left. split; [done|]. intros b Hb. by apply elem_of_nil in Hb. }
  assert (forall r0 m', match r with None => mret false | Some (tb, ts) =>
      if negb (ts =? kNoSpace) then (_ ← InsertInternal k x tb ts; mret true) else CuckooInsert k x b1 b2 end m = Some (r0, m') ->
    InsertUnique k x m = Some (r0, m')) as Hrun.
  { intros r0 m' E. unfold InsertUnique. eapply bind_reads; [done|]. rewrite key_transform_id by done. fold b1 b2. by eapply bind_reads. }
  destruct r as [[tb ts]|]; cycle 1.
  { destruct Hr as (b & i & v & _ & Hc). destruct (holds_cell _ _ _ _ _ _ Hh Hg Hc) as (y & _ & Hy).
    exists false, m. split; [by apply Hrun|]. split; [done|]. split; [done|]. split; [done|]. left. by exists y. }
  destruct Hr as [Ht Hno]. cbn [app] in Ht. assert (V !! k = None) as HV.
  { destruct (V !! k) as [y|] eqn:HV; [|done]. destruct (holds_key _ _ _ _ _ Hh HV) as (b & i & Hb & Hc). exfalso. eapply (Hno b i); [|exact Hc].
    destruct Hb as [-> | ->]; [by left|by right; left]. }
  destruct Ht as [[Ets Hfull]|(Hin & Hts & Hc)]; cbn [fst snd] in *.
  - subst ts. destruct (CuckooInsert_ok (num_buckets_ m) (buckets_ m) V b1 b2 k x Hh Hg HV (or_introl eq_refl) (or_intror eq_refl) m Hok eq_refl eq_refl)
      as (r & m' & E & En & Hr). exists r, m'. split; [apply Hrun; exact E|]. split; [done|]. destruct r; [done|].
    destruct Hr as (? & ? & ?). split; [done|]. split; [done|]. by right.
  - destruct (InsertInternal_ok m V k x (tb, ts) Hok HV Hg) as (m' & E & Hok' & En); try done.
    { cbn. apply elem_of_cons in Hin as [->|[->|[]%elem_of_nil]%elem_of_cons]; [by left|by right]. }
    exists true, m'. split; [|done]. apply Hrun. assert (ts =? kNoSpace = false) as -> by (apply Z.eqb_neq; unfold kNoSpace; lia).
    cbn [negb]. eapply bind_run; [exact E|]. done.
Qed.

(** A full bucket holds four entries of the map. *)
Lemma full_size n bs V b : holds n bs V None -> 0 <= b < n -> full bs b -> (4 <= base.size V)%nat.
Proof.
  intros Hh Hb Hf. assert (forall i, 0 <= i < 4 -> exists k x, cell bs (b, i) = Some (k, Some x) /\ V !! k = Some x /\ k <> kUnusedSlot) as Hc.
  { intros i Hi. destruct (cell_get n bs (b, i) (h_shape _ _ _ _ Hh)) as (k & v & Hc); [done|done|]. pose proof (Hf _ _ _ Hc) as Hk.
    destruct (h_slot _ _ _ _ Hh _ _ _ Hc ltac:(done) Hk) as (_ & _ & x & -> & HV). by exists k, x. }
  destruct (Hc 0) as (k0 & x0 & C0 & V0 & U0); [lia|]. destruct (Hc 1) as (k1 & x1 & C1 & V1 & U1); [lia|].
  destruct (Hc 2) as (k2 & x2 & C2 & V2 & U2); [lia|]. destruct (Hc 3) as (k3 & x3 & C3 & V3 & U3); [lia|].
  assert (forall i j k x y, i <> j -> cell bs (b, i) = Some (k, Some x) -> cell bs (b, j) = Some (k, Some y) -> k <> kUnusedSlot -> False) as Hd.
  { intros i j k x y Hij Hi Hj Hk. pose proof (h_once _ _ _ _ Hh _ _ _ _ _ Hi Hj Hk ltac:(done) ltac:(done)). congruence. }
  rewrite <- size_dom. change 4%nat with (length [k0; k1; k2; k3]).
  rewrite <- (size_list_to_set (C := gset Z) [k0; k1; k2; k3]).
  - apply subseteq_size. intros k. rewrite elem_of_list_to_set, !elem_of_cons, elem_of_nil, elem_of_dom. intros [->|[->|[->|[->|[]]]]]; by eexists.
  - assert (k0 <> k1) by (intros ->; by apply (Hd 0 1 k1 x0 x1)). assert (k0 <> k2) by (intros ->; by apply (Hd 0 2 k2 x0 x2)).
    assert (k0 <> k3) by (intros ->; by apply (Hd 0 3 k3 x0 x3)). assert (k1 <> k2) by (intros ->; by apply (Hd 1 2 k2 x1 x2)).
    assert (k1 <> k3) by (intros ->; by apply (Hd 1 3 k3 x1 x3)). assert (k2 <> k3) by (intros ->; by apply (Hd 2 3 k3 x2 x3)).
    rewrite !NoDup_cons, !not_elem_of_cons, !elem_of_nil. pose proof (NoDup_nil_2 (A := Z)). tauto.
Qed.

(** ** Clients *)

Inductive op := OInsert (k : Z) (x : value) | OFind (k : Z) | OClear (num_entries : Z).
Inductive reply := RInserted (b : bool) | RFound (r : option value) | RCleared.

(** The keys the class allows, and sizes that fit. *)
Definition allowed (o : op) : Prop :=
  match o with OInsert k _ | OFind k => 0 <= k < 2 ^ 64 - 1 | OClear num => fits num end.

(** An answer that was never initialised is no answer. *)
Definition run_op (o : op) : ST map reply :=
  match o with
  | OInsert k x => b ← InsertUnique k x; mret (RInserted b)
  | OFind k => r ← reads (Find k); match r with None => mret (RFound None) | Some (Some x) => mret (RFound (Some x)) | Some None => fail end
  | OClear num => _ ← Clear num; mret RCleared
  end.
Fixpoint run (os : list op) : ST map (list reply) :=
  match os with [] => mret [] | o :: os => r ← run_op o; rs ← run os; mret (r :: rs) end.

(** What a finite map answers; it may refuse a new key only when it has four entries. *)
Inductive answers : gmap Z value -> list op -> list reply -> gmap Z value -> Prop :=
  | ans_nil V : answers V [] [] V
  | ans_find V k os rs V' : answers V os rs V' -> answers V (OFind k :: os) (RFound (V !! k) :: rs) V'
  | ans_new V k x os rs V' : V !! k = None -> answers (<[k := x]> V) os rs V' -> answers V (OInsert k x :: os) (RInserted true :: rs) V'
  | ans_duplicate V k x os rs V' : is_Some (V !! k) -> answers V os rs V' -> answers V (OInsert k x :: os) (RInserted false :: rs) V'
  | ans_refused V k x os rs V' : V !! k = None -> (4 <= base.size V)%nat -> answers V os rs V' -> answers V (OInsert k x :: os) (RInserted false :: rs) V'
  | ans_clear V num os rs V' : answers ∅ os rs V' -> answers V (OClear num :: os) (RCleared :: rs) V'.

Lemma unused_value : kUnusedSlot = 2 ^ 64 - 1.
Proof. reflexivity. Qed.

Lemma run_answers os : forall m V, map_ok m V -> Forall allowed os -> exists rs m' V', run os m = Some (rs, m') /\ answers V os rs V' /\ map_ok m' V'.
Proof.
  induction os as [|o os IH]; intros m V Hok Hos; [by exists [], m, V; split; [|split; [constructor|]]|].
  apply Forall_cons in Hos as [Ho Hos].
  assert (forall r m1 V1, run_op o m = Some (r, m1) -> map_ok m1 V1 -> (forall rs V', answers V1 os rs V' -> answers V (o :: os) (r :: rs) V') ->
    exists rs m' V', run (o :: os) m = Some (rs, m') /\ answers V (o :: os) rs V' /\ map_ok m' V') as Hstep.
  { intros r m1 V1 E Hok1 Ha. destruct (IH m1 V1 Hok1 Hos) as (rs & m' & V' & E' & Ha' & Hok'). exists (r :: rs), m', V'. split; [|split; [by apply Ha|done]].
    cbn [run]. eapply bind_run; [exact E|]. by eapply bind_run; [exact E'|]. }
  pose proof (ok_holds _ _ Hok) as Hh. destruct o as [k x|k|num]; cbn [allowed] in Ho.
  - assert (good_key k) as Hg by (unfold good_key; rewrite unused_value; lia).
    destruct (InsertUnique_ok m V k x Hok Hg) as (r & m1 & E & En & Hr). cbv zeta in Hr.
    assert (run_op (OInsert k x) m = Some (RInserted r, m1)) as Er by (eapply bind_run; [exact E|done]).
    destruct r.
    + destruct Hr as [HV Hok1]. eapply Hstep; [exact Er|exact Hok1|]. intros. by apply ans_new.
    + destruct Hr as (Hok1 & Eb & Hr). eapply Hstep; [exact Er|exact Hok1|]. intros rs V' Ha.
      destruct (V !! k) as [y|] eqn:HV; [apply ans_duplicate; [rewrite HV; by eexists|done]|]. apply ans_refused; [done| |done].
      destruct Hr as [[y Hy]|Hr]; [done|]. pose proof (h_size _ _ _ _ Hh) as Hn.
      eapply full_size; [exact Hh| |apply (Hr 0%nat); [apply reach_root; by left|lia]]. apply fast_map_range; [done|by apply good_key_uint].
  - assert (good_key k) as Hg by (unfold good_key; rewrite unused_value; lia).
    eapply (Hstep (RFound (V !! k)) m V); [|done|intros; by apply ans_find].
    cbn [run_op]. eapply bind_reads; [by apply Find_ok|]. by destruct (V !! k).
  - destruct (Clear_ok num m Ho (ok_visited _ _ Hok)) as (m1 & E & Hok1). eapply Hstep; [eapply bind_run; [exact E|done]|exact Hok1|]. intros. by apply ans_clear.
Qed.

(** C11. A [PresizedCuckooMap] answers every sequence of insertions, searches and clearings, for
    keys below 2^64 - 1, as a finite map does that may refuse a new key when it is not nearly
    empty: a refused insertion leaves the map as it was, and no key is lost or found under
    another value when keys move to make room.  No array is overrun, nothing uninitialised
    is answered, and every search for room ends. *)
Theorem cuckoo_map_refines (num_entries : Z) (os : list op) (m0 : map) :
  PresizedCuckooMap_new num_entries = Some m0 -> Forall allowed os ->
  exists rs m V, run os m0 = Some (rs, m) /\ answers ∅ os rs V /\ forall k, 0 <= k < 2 ^ 64 - 1 -> Find k m = Some (Some <$> V !! k).
Proof.
  intros E Hos. destruct (run_answers os m0 ∅ (presized_new_ok _ _ E) Hos) as (rs & m & V & Er & Ha & Hok). exists rs, m, V. split; [done|]. split; [done|].
  intros k Hk. apply Find_ok; [apply Hok|]. unfold good_key. rewrite unused_value. lia.
Qed.

(** C12. A new key is refused only when every bucket that four moves or less lead to, from one of
    its own two, is full. *)
Theorem cuckoo_map_refuses (num_entries : Z) (os : list op) (m0 m m' : map) (rs : list reply) (k : Z) (x : value) :
  PresizedCuckooMap_new num_entries = Some m0 -> Forall allowed os -> run os m0 = Some (rs, m) -> 0 <= k < 2 ^ 64 - 1 ->
  InsertUnique k x m = Some (false, m') -> Find k m = Some None ->
  forall j b, reach (num_buckets_ m) (buckets_ m) (fast_map_to_buckets (num_buckets_ m) k) (fast_map_to_buckets (num_buckets_ m) (h2 k)) j b ->
    (j <= 4)%nat -> full (buckets_ m) b.
Proof.
  intros E Hos Er Hk Ei Ef. destruct (run_answers os m0 ∅ (presized_new_ok _ _ E) Hos) as (rs' & m1 & V & Er' & _ & Hok).
  rewrite Er in Er'. injection Er' as <- <-. assert (good_key k) as Hg by (unfold good_key; rewrite unused_value; lia).
  destruct (InsertUnique_ok m V k x Hok Hg) as (r & m2 & E2 & _ & Hr). rewrite Ei in E2. injection E2 as <- <-.
  destruct Hr as (_ & _ & [[y Hy]|Hr]); [|exact Hr]. rewrite (Find_ok m V k (ok_holds _ _ Hok) Hg), Hy in Ef. done.
Qed.
End set.
Arguments op : clear implicits.
Arguments reply : clear implicits.

(** ** Examples *)

Definition spread (l : list Z) : list Z := (fun i => u64 (i * 11400714819323198485)) <$> l.
Definition fill (l : list Z) : list (op Z) := (fun k => OInsert k (k + 1)) <$> spread l.
Definition cuckoo_example : list (op Z) := OInsert 5 50 :: OInsert 5 51 :: OFind 5 :: OClear 3 :: fill (seqZ 1 130) ++ [OFind (u64 (7 * 11400714819323198485)); OFind 5].

Lemma allowed_dec (os : list (op Z)) :
  forallb (fun o => match o with OInsert k _ | OFind k => (0 <=? k) && (k <? 2 ^ 64 - 1) | OClear num =>
    match uint64_of_double (SFdiv 53 1024 (double_of_uint64 num) kLoadFactor) with Some _ => true | None => false end end) os = true -> Forall allowed os.
Proof.
  rewrite forallb_forall. intros H. rewrite Forall_forall. intros o Ho%list_elem_of_In. specialize (H o Ho). destruct o as [k x|k|num]; cbn in *; [to_prop; lia|to_prop; lia|].
  unfold fits. destruct (uint64_of_double _); [by eexists|done].
Qed.

Lemma cuckoo_map_refines_witness : exists m0, PresizedCuckooMap_new (value := Z) 10 = Some m0 /\
  exists rs m V, run cuckoo_example m0 = Some (rs, m) /\ answers ∅ cuckoo_example rs V /\ forall k, 0 <= k < 2 ^ 64 - 1 -> Find k m = Some (Some <$> V !! k).
Proof.
  eexists. split; [vm_compute; reflexivity|]. apply (cuckoo_map_refines 10); [vm_compute; reflexivity|].
  apply allowed_dec. vm_compute. reflexivity.
Defined.

Lemma cuckoo_map_refuses_witness : exists m0 rs m m' k, PresizedCuckooMap_new (value := Z) 0 = Some m0 /\ run (fill (seqZ 1 130)) m0 = Some (rs, m) /\
  InsertUnique k 7 m = Some (false, m') /\ Find k m = Some None /\
  forall j b, reach (num_buckets_ m) (buckets_ m) (fast_map_to_buckets (num_buckets_ m) k) (fast_map_to_buckets (num_buckets_ m) (h2 k)) j b ->
    (j <= 4)%nat -> full (buckets_ m) b.
Proof.
  do 4 eexists. exists (u64 (131 * 11400714819323198485)). split; [vm_compute; reflexivity|]. split; [vm_compute; reflexivity|].
  split; [vm_compute; reflexivity|]. split; [vm_compute; reflexivity|].
  eapply (cuckoo_map_refuses 0 (fill (seqZ 1 130)) _ _ _ _ _ 7);
    [vm_compute; reflexivity|apply allowed_dec; vm_compute; reflexivity|vm_compute; reflexivity|by vm_compute|vm_compute; reflexivity|vm_compute; reflexivity].
Defined.

(** The key 2^64 - 1 marks free slots.  [key_transform] maps it to another key, but the slots
    are compared with the key as given: the key is found in every table with a free slot in
    one of two buckets, with a value that was never written, and is not inserted. *)
Theorem cuckoo_unused_key : exists m0, PresizedCuckooMap_new (value := Z) 0 = Some m0 /\
  Find (2 ^ 64 - 1) m0 = Some (Some None) /\ exists m', InsertUnique (2 ^ 64 - 1) 1 m0 = Some (false, m').
Proof. eexists. split; [vm_compute; reflexivity|]. split; [vm_compute; reflexivity|]. eexists. vm_compute. reflexivity. Qed.
