(* ===== verification/CuckooCache.v ===== *)
(** * CuckooCache: [CuckooCache::cache] of [src/util/cuckoo_map.h]

    A fixed number of slots, each element in one of eight; an insertion overwrites a slot
    that was given up, or moves elements on until the depth limit drops the last of them.
    The give-up flags are packed into bytes.  The hash functions are the client's; the
    logarithm that sets the depth limit is the C library's. *)

From S2P Require Import Prelude Store.
#[local] Open Scope Z_scope.
#[local] Open Scope mycc_scope.

(** ** [bit_packed_atomic_flags] *)

(** The bytes of the flags.  [setup] and the constructor compute their number in 32 bits. *)
Definition flags_size (size : Z) : Z := u32 (size + 7) / 8.
Definition bit_packed_atomic_flags (size : Z) : list Z := replicate (Z.to_nat (flags_size size)) 0xFF.
Definition bit_set (s : Z) (mem : list Z) : option (list Z) :=
  b ← aget mem (s .>> 3); aput (s .>> 3) (b .| u8 (1 .<< (s .& 7))) mem.
Definition bit_unset (s : Z) (mem : list Z) : option (list Z) :=
  b ← aget mem (s .>> 3); aput (s .>> 3) (b .& u8 (Z.lnot (1 .<< (s .& 7)))) mem.
Definition bit_is_set (s : Z) (mem : list Z) : option bool :=
  b ← aget mem (s .>> 3); Some (negb ((1 .<< (s .& 7)) .& b =? 0)).

(** ** The cache *)

(** [std::log2] of the [float] nearest to an integer, truncated. *)
Class Libm := log2_float : Z -> Z.

(** The template parameters: elements, of which the default one fills a new table, and a
    hash for each selector 0 to 7. *)
Class CacheElement (Element : Type) := {
  default_element : Element;
  hash_function : nat -> Element -> Z }.

Record cache (Element : Type) := {
  table : list Element;
  size : Z;
  collection_flags : list Z;
  epoch_flags : list bool;
  epoch_heuristic_counter : Z;
  epoch_size : Z;
  depth_limit : Z }.
Arguments table {_} _.
Arguments size {_} _.
Arguments collection_flags {_} _.
Arguments epoch_flags {_} _.
Arguments epoch_heuristic_counter {_} _.
Arguments epoch_size {_} _.
Arguments depth_limit {_} _.

Section cache.
Context {Element : Type} `{!EqDecision Element} `{!CacheElement Element} `{!Libm}.

Definition with_table (t : list Element) (c : cache Element) : cache Element :=
  {| table := t; size := size c; collection_flags := collection_flags c; epoch_flags := epoch_flags c;
     epoch_heuristic_counter := epoch_heuristic_counter c; epoch_size := epoch_size c; depth_limit := depth_limit c |}.
Definition with_flags (f : list Z) (c : cache Element) : cache Element :=
  {| table := table c; size := size c; collection_flags := f; epoch_flags := epoch_flags c;
     epoch_heuristic_counter := epoch_heuristic_counter c; epoch_size := epoch_size c; depth_limit := depth_limit c |}.
Definition with_epochs (f : list bool) (c : cache Element) : cache Element :=
  {| table := table c; size := size c; collection_flags := collection_flags c; epoch_flags := f;
     epoch_heuristic_counter := epoch_heuristic_counter c; epoch_size := epoch_size c; depth_limit := depth_limit c |}.
Definition with_counter (z : Z) (c : cache Element) : cache Element :=
  {| table := table c; size := size c; collection_flags := collection_flags c; epoch_flags := epoch_flags c;
     epoch_heuristic_counter := z; epoch_size := epoch_size c; depth_limit := depth_limit c |}.

Abbreviation M := (ST (cache Element)).

Definition get_table (i : Z) : M Element := reads (fun c => aget (table c) i).
Definition set_table (i : Z) (e : Element) : M unit := update (fun c => t ← aput i e (table c); Some (with_table t c)).
Definition get_epoch (i : Z) : M bool := reads (fun c => aget (epoch_flags c) i).
Definition set_epoch (i : Z) (b : bool) : M unit := update (fun c => f ← aput i b (epoch_flags c); Some (with_epochs f c)).
Definition set_counter (z : Z) : M unit := update (fun c => Some (with_counter z c)).

Definition compute_hashes (size : Z) (e : Element) : list Z :=
  (fun i => u32 (u64 (hash_function i e * size) .>> 32)) <$> seq 0 8.
Definition invalid : Z := u32 (Z.lnot 0).

Definition allow_erase (n : Z) : M unit := update (fun c => f ← bit_set n (collection_flags c); Some (with_flags f c)).
Definition please_keep (n : Z) : M unit := update (fun c => f ← bit_unset n (collection_flags c); Some (with_flags f c)).
Definition discardable (n : Z) : M bool := reads (fun c => bit_is_set n (collection_flags c)).

(** The loops of [epoch_check] over the slots. *)
Fixpoint count_loop (l : list Z) (epoch_unused_count : Z) : M Z :=
  match l with
  | [] => mret epoch_unused_count
  | i :: l =>
      b ← get_epoch i;
      r ← (if b : bool then d ← discardable i; mret (negb d) else mret false);
      count_loop l (u32 (epoch_unused_count + Z.b2z r))
  end.
Fixpoint age_loop (l : list Z) : M unit :=
  match l with
  | [] => mret tt
  | i :: l =>
      b ← get_epoch i;
      _ ← (if b : bool then set_epoch i false else allow_erase i);
      age_loop l
  end.
Definition epoch_check : M unit :=
  c ← reads Some;
  if negb (epoch_heuristic_counter c =? 0) then set_counter (epoch_heuristic_counter c - 1)
  else
    epoch_unused_count ← count_loop (seqZ 0 (size c)) 0;
    if epoch_unused_count >=? epoch_size c then
      _ ← age_loop (seqZ 0 (size c));
      set_counter (epoch_size c)
    else set_counter (Z.max 1 (Z.max (epoch_size c / 16) (u32 (epoch_size c - epoch_unused_count)))).

Definition cache_new : cache Element :=
  {| table := []; size := 0; collection_flags := bit_packed_atomic_flags 0; epoch_flags := []; epoch_heuristic_counter := 0;
     epoch_size := 0; depth_limit := 0 |}.

Definition setup (new_size : Z) : M Z := fun c =>
  let size := Z.max 2 new_size in
  let epoch_size := Z.max 1 (u32 (45 * size) / 100) in
  Some (size, {| table := resize (Z.to_nat size) default_element (table c); size := size;
                 collection_flags := bit_packed_atomic_flags size; epoch_flags := resize (Z.to_nat size) false (epoch_flags c);
                 epoch_heuristic_counter := epoch_size; epoch_size := epoch_size; depth_limit := u8 (log2_float (Z.max 2 new_size)) |}).
Definition setup_bytes (sizeof_Element bytes : Z) : M Z := setup (u32 (bytes / sizeof_Element)).

(** The first location that satisfies a test. *)
Fixpoint find_loc (test : Z -> M bool) (locs : list Z) : M (option Z) :=
  match locs with
  | [] => mret None
  | loc :: locs => b ← test loc; if b : bool then mret (Some loc) else find_loc test locs
  end.
Definition holds_element (e : Element) (loc : Z) : M bool := x ← get_table loc; mret (bool_decide (x = e)).

(** [std::find], as an index: the length of the list when there is none. *)
Fixpoint find_index (x : Z) (l : list Z) : Z :=
  match l with [] => 0 | y :: l => if y =? x then 0 else 1 + find_index x l end.

(** The rounds that are left, with the element, its epoch and the last location. *)
Fixpoint insert_loop (depth : nat) (e : Element) (last_epoch : bool) (last_loc : Z) (locs : list Z) : M unit :=
  match depth with
  | O => mret tt
  | S depth =>
      free ← find_loc discardable locs;
      match free with
      | Some loc =>
          _ ← set_table loc e;
          _ ← please_keep loc;
          set_epoch loc last_epoch
      | None =>
          last_loc ← reads (fun _ => aget locs ((1 + find_index last_loc locs) .& 7));
          x ← get_table last_loc;
          _ ← set_table last_loc e;
          epoch ← get_epoch last_loc;
          _ ← set_epoch last_loc last_epoch;
          size ← reads (fun c => Some (size c));
          insert_loop depth x epoch last_loc (compute_hashes size x)
      end
  end.
Definition insert (e : Element) : M unit :=
  _ ← epoch_check;
  c ← reads Some;
  let locs := compute_hashes (size c) e in
  present ← find_loc (holds_element e) locs;
  match present with
  | Some loc => _ ← please_keep loc; set_epoch loc true
  | None => insert_loop (Z.to_nat (depth_limit c)) e true invalid locs
  end.

Definition contains (e : Element) (erase : bool) : M bool :=
  c ← reads Some;
  present ← find_loc (holds_element e) (compute_hashes (size c) e);
  match present with
  | Some loc => _ ← (if erase then allow_erase loc else mret tt); mret true
  | None => mret false
  end.
End cache.
