(* ===== verification/CuckooCacheSet.v ===== *)
(** * CuckooCacheSet: the cache of [src/util/cuckoo_map.h] as sets of elements

    A slot is an element with its two flags; the cache is the sets of the elements it has,
    of those not given up and of those of the current epoch.  Insertion, search with or
    without giving up, and the aging of epochs act on these sets. *)

From S2P Require Import Prelude Store CuckooCache.
#[local] Open Scope Z_scope.
#[local] Open Scope mycc_scope.

(** ** Packed flags *)

Definition bit (mem : list Z) (i : Z) : bool := Z.testbit (default 0 (mem !! Z.to_nat (i / 8))) (i mod 8).
Definition flags_ok (n : Z) (mem : list Z) : Prop := n <= 8 * Z.of_nat (length mem) /\ Forall (is_uint 8) mem.

Lemma flag_byte n mem i : flags_ok n mem -> 0 <= i < n ->
  exists b, aget mem (i .>> 3) = Some b /\ mem !! Z.to_nat (i / 8) = Some b /\ is_uint 8 b /\ i .>> 3 = i / 8 /\ i .& 7 = i mod 8 /\ 0 <= i mod 8 < 8 /\ 0 <= i / 8 < Z.of_nat (length mem).
Proof.
  intros [Hl Hf] Hi. rewrite Z.shiftr_div_pow2 by lia. change 7 with (Z.ones 3). rewrite Z.land_ones by lia. change (2 ^ 3) with 8.
  assert (0 <= i / 8 < Z.of_nat (length mem)) as Hb by (split; [apply Z.div_pos; lia|apply Z.div_lt_upper_bound; lia]).
  destruct (aget_in mem (i / 8) Hb) as [b Eb]. exists b. pose proof Eb as [_ Eb']%aget_Some. split; [done|]. split; [done|].
  split; [by eapply Forall_lookup_1 in Hf; [|exact Eb']|]. split; [done|]. split; [done|]. split; [apply Z.mod_pos_bound; lia|done].
Qed.

Lemma one_bit k b : 0 <= k -> negb ((1 .<< k) .& b =? 0) = Z.testbit b k.
Proof.
  intros Hk. rewrite Z.shiftl_1_l. destruct (Z.testbit b k) eqn:E.
  - apply negb_true_iff, Z.eqb_neq. intros E0. pose proof (Z.land_spec (2 ^ k) b k) as Hs. rewrite E0, E, Z.pow2_bits_true, Z.testbit_0_l in Hs by lia. done.
  - apply negb_false_iff, Z.eqb_eq. apply Z.bits_inj'. intros j Hj. rewrite Z.land_spec, Z.pow2_bits_eqb, Z.testbit_0_l by done.
    destruct (Z.eqb_spec k j) as [<-|]; [by rewrite E|done].
Qed.
Lemma bit_is_set_ok n mem i : flags_ok n mem -> 0 <= i < n -> bit_is_set i mem = Some (bit mem i).
Proof.
  intros Hf Hi. destruct (flag_byte n mem i Hf Hi) as (b & Eb & Eb' & Hb & _ & E7 & Hm & _). unfold bit_is_set, bit. rewrite Eb, Eb', E7.
  cbn [mbind option_bind default]. by rewrite one_bit by lia.
Qed.

(** Writing one byte. *)
Lemma bit_write n mem i b b' v : flags_ok n mem -> 0 <= i < n -> mem !! Z.to_nat (i / 8) = Some b -> is_uint 8 b' ->
  (forall k, 0 <= k < 8 -> Z.testbit b' k = if k =? i mod 8 then v else Z.testbit b k) ->
  flags_ok n (<[Z.to_nat (i / 8) := b']> mem) /\ forall j, 0 <= j -> bit (<[Z.to_nat (i / 8) := b']> mem) j = if j =? i then v else bit mem j.
Proof.
  intros [Hl Hf] Hi Eb Hb' Hbits. split; [split; [by rewrite length_insert|by apply Forall_insert]|].
  intros j Hj. unfold bit. pose proof (lookup_lt_Some _ _ _ Eb). pose proof (Z.mod_pos_bound j 8 ltac:(lia)) as Hm.
  pose proof (Z.div_mod j 8 ltac:(lia)) as Dj. pose proof (Z.div_mod i 8 ltac:(lia)) as Di.
  assert (0 <= i / 8) by (apply Z.div_pos; lia). assert (0 <= j / 8) by (apply Z.div_pos; lia).
  destruct (decide (j / 8 = i / 8)) as [E|Hne].
  - rewrite E, list_lookup_insert_eq, Eb by done. cbn [default]. rewrite Hbits by done.
    destruct (Z.eqb_spec (j mod 8) (i mod 8)), (Z.eqb_spec j i); try done; exfalso; [lia|subst; lia].
  - rewrite list_lookup_insert_ne by lia. destruct (Z.eqb_spec j i) as [->|]; [done|done].
Qed.
Lemma bit_set_ok n mem i : flags_ok n mem -> 0 <= i < n ->
  exists mem', bit_set i mem = Some mem' /\ flags_ok n mem' /\ forall j, 0 <= j -> bit mem' j = if j =? i then true else bit mem j.
Proof.
  intros Hf Hi. destruct (flag_byte n mem i Hf Hi) as (b & Eb & Eb' & Hb & E3 & E7 & Hm & Hd). unfold bit_set. rewrite Eb, E7, E3. cbn [mbind option_bind].
  rewrite aput_in by done. eexists. split; [done|]. eapply bit_write; try done; [by apply is_uint_lor; [|apply wrap_range]|].
  intros k Hk. rewrite Z.lor_spec, wrap_testbit, Z.shiftl_1_l, Z.pow2_bits_eqb by lia. rewrite (Z.eqb_sym (i mod 8) k).
  destruct (Z.ltb_spec k 8); [|lia]. destruct (Z.eqb_spec k (i mod 8)); btauto.
Qed.
Lemma bit_unset_ok n mem i : flags_ok n mem -> 0 <= i < n ->
  exists mem', bit_unset i mem = Some mem' /\ flags_ok n mem' /\ forall j, 0 <= j -> bit mem' j = if j =? i then false else bit mem j.
Proof.
  intros Hf Hi. destruct (flag_byte n mem i Hf Hi) as (b & Eb & Eb' & Hb & E3 & E7 & Hm & Hd). unfold bit_unset. rewrite Eb, E7, E3. cbn [mbind option_bind].
  rewrite aput_in by done. eexists. split; [done|]. eapply bit_write; try done; [apply is_uint_land; [done|apply wrap_range; lia]|].
  intros k Hk. rewrite Z.land_spec, wrap_testbit, Z.lnot_spec, Z.shiftl_1_l, Z.pow2_bits_eqb by lia. rewrite (Z.eqb_sym (i mod 8) k).
  destruct (Z.ltb_spec k 8); [|lia]. destruct (Z.eqb_spec k (i mod 8)); btauto.
Qed.
Lemma new_flags size : 0 <= size <= 2 ^ 32 - 8 -> flags_ok size (bit_packed_atomic_flags size) /\ forall i, 0 <= i < size -> bit (bit_packed_atomic_flags size) i = true.
Proof.
  intros Hs. unfold bit_packed_atomic_flags, flags_size. rewrite wrap_small by (unfold is_uint; lia).
  assert (size <= 8 * ((size + 7) / 8)) as Hd by (pose proof (Z.div_mod (size + 7) 8 ltac:(lia)); pose proof (Z.mod_pos_bound (size + 7) 8 ltac:(lia)); lia).
  assert (0 <= (size + 7) / 8) by (apply Z.div_pos; lia). split.
  - split; [rewrite length_replicate; lia|]. apply Forall_replicate. vm_compute. split; congruence.
  - intros i Hi. unfold bit. assert (i / 8 < (size + 7) / 8) by (apply Z.div_lt_upper_bound; lia). assert (0 <= i / 8) by (apply Z.div_pos; lia).
    replace (replicate _ 255 !! Z.to_nat (i / 8)) with (Some 255) by (symmetry; apply lookup_replicate; split; [done|lia]). cbn [default].
    pose proof (Z.mod_pos_bound i 8 ltac:(lia)) as Hm. apply (Z.ones_spec_low 8). lia.
Qed.

(** What the cache relies on: hashes of 32 bits. *)
Class CacheHash (Element : Type) `{CacheElement Element} : Prop := hash_range i (e : Element) : is_uint 32 (hash_function i e).

Section cache.
Context {Element : Type} {Element_dec : EqDecision Element} {Element_countable : Countable Element} {element : CacheElement Element} {libm : Libm}.
Implicit Types (c : cache Element) (i j : Z) (x y : Element) (d ep : bool).

(** ** Slots *)

(** An element, whether it is given up, and whether it belongs to the current epoch. *)
Definition slot c i : option (Element * bool * bool) :=
  x ← aget (table c) i; ep ← aget (epoch_flags c) i; Some (x, bit (collection_flags c) i, ep).

Record shape c : Prop := {
  sh_size : 2 <= size c < 2 ^ 32;
  sh_table : Z.of_nat (length (table c)) = size c;
  sh_epochs : Z.of_nat (length (epoch_flags c)) = size c;
  sh_flags : flags_ok (size c) (collection_flags c) }.
Definition same_sizes c c' : Prop := size c' = size c /\ epoch_size c' = epoch_size c /\ epoch_heuristic_counter c' = epoch_heuristic_counter c /\ depth_limit c' = depth_limit c.
(** Slot [i] is changed, the others are not. *)
Definition slot_set c c' i s : Prop := shape c' /\ same_sizes c c' /\ forall j, slot c' j = if j =? i then Some s else slot c j.

Lemma cache_slot_in c i : shape c -> 0 <= i < size c -> exists s, slot c i = Some s.
Proof.
  intros [_ Ht He _] Hi. destruct (aget_in (table c) i) as [x Ex]; [lia|]. destruct (aget_in (epoch_flags c) i) as [ep Ep]; [lia|].
  unfold slot. rewrite Ex, Ep. cbn. by eexists.
Qed.
Lemma cache_slot_range c i s : shape c -> slot c i = Some s -> 0 <= i < size c.
Proof. intros [_ Ht _ _]. unfold slot. destruct (aget (table c) i) eqn:E; [|done]. intros _. apply aget_lt in E. lia. Qed.
Lemma slot_get c i x d ep : slot c i = Some (x, d, ep) -> aget (table c) i = Some x /\ aget (epoch_flags c) i = Some ep /\ bit (collection_flags c) i = d.
Proof. unfold slot. destruct (aget (table c) i); [|done]. cbn. destruct (aget (epoch_flags c) i); [|done]. cbn. by intros [= -> -> ->]. Qed.

Lemma get_table_ok c i x d ep : slot c i = Some (x, d, ep) -> get_table i c = Some (x, c).
Proof. intros (E & _ & _)%slot_get. by apply run_reads. Qed.
Lemma get_epoch_ok c i x d ep : slot c i = Some (x, d, ep) -> get_epoch i c = Some (ep, c).
Proof. intros (_ & E & _)%slot_get. by apply run_reads. Qed.
Lemma discardable_ok c i x d ep : shape c -> slot c i = Some (x, d, ep) -> discardable i c = Some (d, c).
Proof. intros Hs E. pose proof (cache_slot_range _ _ _ Hs E). apply slot_get in E as (_ & _ & <-). apply run_reads. by eapply bit_is_set_ok; [apply Hs|]. Qed.

Lemma set_table_ok c i x d ep y : shape c -> slot c i = Some (x, d, ep) ->
  exists c', set_table i y c = Some (tt, c') /\ slot_set c c' i (y, d, ep).
Proof.
  intros Hs E. pose proof (cache_slot_range _ _ _ Hs E) as Hi. apply slot_get in E as (Ex & Ep & Eb). pose proof Hs as [H2 Ht He Hf].
  eexists. split; [apply run_update; rewrite aput_in by lia; done|]. split; [split; cbn; try done; by rewrite length_insert|]. split; [done|].
  intros j. unfold slot. cbn. destruct (Z.eqb_spec j i) as [->|Hne]; [rewrite aget_insert_eq, Ep, Eb by lia; done|by rewrite aget_insert_ne by lia].
Qed.
Lemma set_epoch_ok c i x d ep b : shape c -> slot c i = Some (x, d, ep) ->
  exists c', set_epoch i b c = Some (tt, c') /\ slot_set c c' i (x, d, b).
Proof.
  intros Hs E. pose proof (cache_slot_range _ _ _ Hs E) as Hi. apply slot_get in E as (Ex & Ep & Eb). pose proof Hs as [H2 Ht He Hf].
  eexists. split; [apply run_update; rewrite aput_in by lia; done|]. split; [split; cbn; try done; by rewrite length_insert|]. split; [done|].
  intros j. unfold slot. cbn. destruct (Z.eqb_spec j i) as [->|Hne]; [rewrite aget_insert_eq, Ex, Eb by lia; done|by rewrite aget_insert_ne by lia].
Qed.
Lemma flag_set_ok (f : list Z -> option (list Z)) v c i x d ep : shape c -> slot c i = Some (x, d, ep) ->
  (exists mem', f (collection_flags c) = Some mem' /\ flags_ok (size c) mem' /\ forall j, 0 <= j -> bit mem' j = if j =? i then v else bit (collection_flags c) j) ->
  exists c', update (fun c => g ← f (collection_flags c); Some (with_flags g c)) c = Some (tt, c') /\ slot_set c c' i (x, v, ep).
Proof.
  intros Hs E (mem' & Ef & Hf' & Hb). pose proof (cache_slot_range _ _ _ Hs E) as Hi. apply slot_get in E as (Ex & Ep & Eb). pose proof Hs as [H2 Ht He Hf].
  exists (with_flags mem' c). split; [apply run_update; by rewrite Ef|]. split; [by split|]. split; [done|].
  intros j. unfold slot. cbn. destruct (Z.eqb_spec j i) as [->|Hne].
  - rewrite Ex, Ep. cbn. rewrite Hb, Z.eqb_refl by lia. done.
  - destruct (aget (table c) j) eqn:Ej; [|done]. pose proof (aget_lt _ _ _ Ej). cbn. rewrite Hb by lia. destruct (Z.eqb_spec j i); done.
Qed.
Lemma allow_erase_ok c i x d ep : shape c -> slot c i = Some (x, d, ep) -> exists c', allow_erase i c = Some (tt, c') /\ slot_set c c' i (x, true, ep).
Proof. intros Hs E. apply (flag_set_ok (bit_set i) true c i x d ep Hs E). apply bit_set_ok; [apply Hs|by eapply cache_slot_range]. Qed.
Lemma please_keep_ok c i x d ep : shape c -> slot c i = Some (x, d, ep) -> exists c', please_keep i c = Some (tt, c') /\ slot_set c c' i (x, false, ep).
Proof. intros Hs E. apply (flag_set_ok (bit_unset i) false c i x d ep Hs E). apply bit_unset_ok; [apply Hs|by eapply cache_slot_range]. Qed.

Lemma slot_set_trans c c1 c2 i s1 s2 : slot_set c c1 i s1 -> slot_set c1 c2 i s2 -> slot_set c c2 i s2.
Proof.
  intros (_ & (A1 & A2 & A3 & A4) & G1) (S2 & (B1 & B2 & B3 & B4) & G2). split; [done|]. split; [unfold same_sizes; split_and!; congruence|].
  intros j. rewrite G2, G1. by destruct (j =? i).
Qed.
Lemma slot_set_eq c c' i s : slot_set c c' i s -> slot c' i = Some s.
Proof. intros (_ & _ & Hset). by rewrite Hset, Z.eqb_refl. Qed.

(** ** The sets of a cache *)

Definition collect (f : Element * bool * bool -> option Element) c : gset Element :=
  list_to_set (omap (fun i => slot c i ≫= f) (seqZ 0 (size c))).
Definition known_slot (s : Element * bool * bool) : option Element := if decide (s.1.1 = default_element) then None else Some s.1.1.
Definition kept_slot (s : Element * bool * bool) : option Element := if s.1.2 then None else Some s.1.1.
Definition recent_slot (s : Element * bool * bool) : option Element := if negb s.1.2 && s.2 then Some s.1.1 else None.
(** The elements of the cache, those not given up, and those of the current epoch. *)
Definition known c := collect known_slot c.
Definition kept c := collect kept_slot c.
Definition recent c := collect recent_slot c.

Lemma elem_collect f c x : shape c -> x ∈ collect f c <-> exists i s, slot c i = Some s /\ f s = Some x.
Proof.
  intros Hs. unfold collect. rewrite elem_of_list_to_set, list_elem_of_omap. split.
  - intros (i & _ & E). destruct (slot c i) as [s|] eqn:Es; [|done]. by exists i, s.
  - intros (i & s & Es & Ef). exists i. split; [apply elem_of_seqZ; pose proof (cache_slot_range _ _ _ Hs Es); lia|]. by rewrite Es.
Qed.
Lemma elem_known c x : shape c -> x ∈ known c <-> x <> default_element /\ exists i d ep, slot c i = Some (x, d, ep).
Proof.
  intros Hs. unfold known. rewrite elem_collect by done. split.
  - intros (i & [[y d] ep] & E & F). unfold known_slot in F. cbn in F. destruct (decide (y = default_element)); [done|]. injection F as <-. split; [done|]. by exists i, d, ep.
  - intros (Hne & i & d & ep & E). exists i, (x, d, ep). split; [done|]. unfold known_slot. cbn. by destruct (decide (x = default_element)).
Qed.
Lemma elem_kept c x : shape c -> x ∈ kept c <-> exists i ep, slot c i = Some (x, false, ep).
Proof.
  intros Hs. unfold kept. rewrite elem_collect by done. split.
  - intros (i & [[y d] ep] & E & F). unfold kept_slot in F. cbn in F. destruct d; [done|]. injection F as <-. by exists i, ep.
  - intros (i & ep & E). by exists i, (x, false, ep).
Qed.
Lemma elem_recent c x : shape c -> x ∈ recent c <-> exists i, slot c i = Some (x, false, true).
Proof.
  intros Hs. unfold recent. rewrite elem_collect by done. split.
  - intros (i & [[y d] ep] & E & F). unfold recent_slot in F. cbn in F. destruct d, ep; try done. injection F as <-. by exists i.
  - intros (i & E). by exists i, (x, false, true).
Qed.

(** An element is in one slot only, and in one of its eight; a slot that was never used is
    given up. *)
Record cache_ok c : Prop := {
  ok_shape : shape c;
  ok_placed : forall i x d ep, slot c i = Some (x, d, ep) -> x <> default_element -> i ∈ compute_hashes (size c) x;
  ok_once : forall i j x d ep d' ep', slot c i = Some (x, d, ep) -> slot c j = Some (x, d', ep') -> x <> default_element -> i = j;
  ok_blank : forall i d ep, slot c i = Some (default_element, d, ep) -> d = true }.

(** [x] is put over what slot [i] had. *)
Lemma slot_put c c' i z dz ez x ep : cache_ok c -> slot c i = Some (z, dz, ez) -> slot_set c c' i (x, false, ep) ->
  x <> default_element -> x ∉ known c -> i ∈ compute_hashes (size c) x ->
  cache_ok c' /\ known c' = known c ∖ {[z]} ∪ {[x]} /\ kept c' = kept c ∖ {[z]} ∪ {[x]} /\
  recent c' = recent c ∖ {[z]} ∪ (if ep then {[x]} else ∅).
Proof.
  intros [Hs Hp Ho Hb] Ez (Hs' & (En & _) & Hset) Hx Hnew Hi.
  assert (forall j d e, slot c j <> Some (x, d, e)) as Hno by (intros j d e E; apply Hnew; apply elem_known; [done|]; split; [done|]; by exists j, d, e).
  assert (forall j y d e, slot c j = Some (y, d, e) -> j <> i -> y <> default_element -> y <> z) as Hz.
  { intros j y d e E Hj Hy ->. apply Hj. by eapply Ho. }
  assert (forall j y e, slot c j = Some (y, false, e) -> y <> default_element) as Hk by (intros j y e E ->; by apply Hb in E).
  split; [|split; [|split]].
  - split; [done| | |].
    + intros j y d e E Hy. rewrite Hset in E. rewrite En. destruct (Z.eqb_spec j i) as [->|]; [injection E as <- <- <-; done|by eapply Hp].
    + intros j l y d e d' e' E1 E2 Hy. rewrite Hset in E1, E2. destruct (Z.eqb_spec j i) as [->|], (Z.eqb_spec l i) as [->|]; [done| | |by eapply Ho].
      * injection E1 as <- <- <-. by apply Hno in E2.
      * injection E2 as <- <- <-. by apply Hno in E1.
    + intros j d e E. rewrite Hset in E. destruct (Z.eqb_spec j i) as [->|]; [congruence|by eapply Hb].
  - apply set_eq. intros y. rewrite elem_of_union, elem_of_difference, !elem_of_singleton, !elem_known by done. split.
    + intros (Hy & j & d & e & E). rewrite Hset in E. destruct (Z.eqb_spec j i) as [->|Hj]; [right; congruence|].
      left. split; [split; [done|by exists j, d, e]|by eapply Hz].
    + intros [((Hy & j & d & e & E) & Hyz)| ->].
      * split; [done|]. exists j, d, e. rewrite Hset. destruct (Z.eqb_spec j i) as [->|]; [congruence|done].
      * split; [done|]. exists i, false, ep. by rewrite Hset, Z.eqb_refl.
  - apply set_eq. intros y. rewrite elem_of_union, elem_of_difference, !elem_of_singleton, !elem_kept by done. split.
    + intros (j & e & E). rewrite Hset in E. destruct (Z.eqb_spec j i) as [->|Hj]; [right; congruence|].
      left. split; [by exists j, e|]. eapply Hz; [done|done|by eapply Hk].
    + intros [((j & e & E) & Hyz)| ->].
      * exists j, e. rewrite Hset. destruct (Z.eqb_spec j i) as [->|]; [congruence|done].
      * exists i, ep. by rewrite Hset, Z.eqb_refl.
  - apply set_eq. intros y. rewrite elem_of_union, elem_of_difference, !elem_of_singleton, !elem_recent by done. split.
    + intros (j & E). rewrite Hset in E. destruct (Z.eqb_spec j i) as [_|Hj]; [right; injection E as -> ->; by apply elem_of_singleton|].
      left. split; [by exists j|]. eapply Hz; [done|done|by eapply Hk].
    + intros [((j & E) & Hyz)|Hy].
      * exists j. rewrite Hset. destruct (Z.eqb_spec j i) as [->|]; [congruence|done].
      * destruct ep; [|by apply not_elem_of_empty in Hy]. apply elem_of_singleton in Hy as ->. exists i. by rewrite Hset, Z.eqb_refl.
Qed.

(** Only the flags of slot [i] change. *)
Lemma slot_mark c c' i x d ep d' ep' : cache_ok c -> slot c i = Some (x, d, ep) -> slot_set c c' i (x, d', ep') -> x <> default_element ->
  cache_ok c' /\ known c' = known c /\ kept c' = (if d' then kept c ∖ {[x]} else kept c ∪ {[x]}) /\
  recent c' = (if negb d' && ep' then recent c ∪ {[x]} else recent c ∖ {[x]}).
Proof.
  intros [Hs Hp Ho Hb] Ex (Hs' & (En & _) & Hset) Hx.
  assert (forall j y d0 e, slot c j = Some (y, d0, e) -> j <> i -> y <> x) as Hz by (intros j y d0 e E Hj ->; apply Hj; by eapply Ho).
  split; [|split; [|split]].
  - split; [done| | |].
    + intros j y d0 e E Hy. rewrite Hset in E. rewrite En. destruct (Z.eqb_spec j i) as [->|]; [injection E as <- <- <-; by eapply Hp|by eapply Hp].
    + assert (forall j y d0 e, slot c' j = Some (y, d0, e) -> exists d1 e1, slot c j = Some (y, d1, e1)) as Hback.
      { intros j y d0 e E. rewrite Hset in E. destruct (Z.eqb_spec j i) as [->|]; [injection E as <- <- <-; by eexists _, _|by eexists _, _]. }
      intros j l y d1 e1 d2 e2 E1 E2 Hy. apply Hback in E1 as (? & ? & E1), E2 as (? & ? & E2). by eapply Ho.
    + intros j d0 e E. rewrite Hset in E. destruct (Z.eqb_spec j i) as [->|]; [congruence|by eapply Hb].
  - apply set_eq. intros y. rewrite !elem_known by done. split; intros (Hy & j & d0 & e & E).
    + rewrite Hset in E. split; [done|]. destruct (Z.eqb_spec j i) as [->|]; [injection E as <- _ _; by exists i, d, ep|by exists j, d0, e].
    + split; [done|]. destruct (decide (j = i)) as [->|]; [exists i, d', ep'; rewrite Hset, Z.eqb_refl; congruence|].
      exists j, d0, e. rewrite Hset. by destruct (Z.eqb_spec j i).
  - apply set_eq. intros y. rewrite elem_kept by done. transitivity (if d' then y ∈ kept c /\ y <> x else y ∈ kept c \/ y = x); [|destruct d'; set_solver].
    pose proof (elem_kept c y Hs) as HK. split.
    + intros (j & e & E). rewrite Hset in E. destruct (Z.eqb_spec j i) as [->|Hj].
      * injection E as -> -> ->. by right.
      * destruct d'; [split; [apply HK; by exists j, e|by eapply Hz]|left; apply HK; by exists j, e].
    + destruct d'.
      * intros [(j & e & E)%HK Hy]. exists j, e. rewrite Hset. destruct (Z.eqb_spec j i) as [->|]; [congruence|done].
      * intros [(j & e & E)%HK| ->]; [|exists i, ep'; by rewrite Hset, Z.eqb_refl]. destruct (decide (j = i)) as [->|].
        -- exists i, ep'. rewrite Hset, Z.eqb_refl. congruence.
        -- exists j, e. rewrite Hset. by destruct (Z.eqb_spec j i).
  - apply set_eq. intros y. rewrite elem_recent by done.
    transitivity (if negb d' && ep' then y ∈ recent c \/ y = x else y ∈ recent c /\ y <> x); [|destruct (negb d' && ep'); set_solver].
    pose proof (elem_recent c y Hs) as HK. split.
    + intros (j & E). rewrite Hset in E. destruct (Z.eqb_spec j i) as [_|Hj].
      * injection E as -> -> ->. by right.
      * destruct (negb d' && ep'); [left; apply HK; by exists j|split; [apply HK; by exists j|by eapply Hz]].
    + destruct (negb d' && ep') eqn:Hde.
      * apply andb_true_iff in Hde as [Hd ->]. apply negb_true_iff in Hd as ->.
        intros [(j & E)%HK| ->]; [|exists i; by rewrite Hset, Z.eqb_refl]. destruct (decide (j = i)) as [->|].
        -- exists i. rewrite Hset, Z.eqb_refl. congruence.
        -- exists j. rewrite Hset. by destruct (Z.eqb_spec j i).
      * intros [(j & E)%HK Hy]. exists j. rewrite Hset. destruct (Z.eqb_spec j i) as [->|]; [congruence|done].
Qed.
(** ** Epochs *)

Lemma NoDup_omap {A B} (f : A -> option B) (l : list A) : NoDup l ->
  (forall a b z, a ∈ l -> b ∈ l -> f a = Some z -> f b = Some z -> a = b) -> NoDup (omap f l).
Proof.
  induction 1 as [|a l Ha _ IH]; intros Hf; [apply NoDup_nil_2|]. cbn. destruct (f a) as [z|] eqn:E.
  - apply NoDup_cons. split; [|apply IH; intros; eapply Hf; [by right|by right|done|done]].
    intros (b & Hb & Eb)%list_elem_of_omap. apply Ha. rewrite (Hf a b z); [done|by left|by right|done|done].
  - apply IH. intros. eapply Hf; [by right|by right|done|done].
Qed.

Lemma recent_size c : cache_ok c -> base.size (recent c) = length (omap (fun i => slot c i ≫= recent_slot) (seqZ 0 (size c))).
Proof.
  intros [Hs _ Ho Hb]. apply size_list_to_set. apply NoDup_omap; [apply NoDup_seqZ|]. intros i j x _ _ Hi Hj.
  destruct (slot c i) as [[[y d] ep]|] eqn:Ei; [|done]. destruct (slot c j) as [[[z d'] ep']|] eqn:Ej; [|done]. cbn in Hi, Hj.
  unfold recent_slot in Hi, Hj. cbn in Hi, Hj. destruct d, d', ep, ep'; try done. injection Hi as ->. injection Hj as ->.
  eapply Ho; [exact Ei|exact Ej|]. intros ->. by apply Hb in Ei.
Qed.

Lemma count_loop_ok c : shape c -> forall l z, Forall (fun i => 0 <= i < size c) l -> 0 <= z -> z + Z.of_nat (length l) < 2 ^ 32 ->
  count_loop l z c = Some (z + Z.of_nat (length (omap (fun i => slot c i ≫= recent_slot) l)), c).
Proof.
  intros Hs. induction l as [|i l IH]; intros z Hl Hz Hb; cbn [count_loop omap list_omap]; [cbn; unfold mret, ST_ret; do 2 f_equal; lia|].
  apply Forall_cons in Hl as [Hi Hl]. destruct (cache_slot_in c i Hs Hi) as [[[x d] ep] E]. rewrite E. cbn [mbind option_bind].
  cbn [length] in Hb. eapply bind_run; [by eapply get_epoch_ok|].
  eapply (bind_run _ _ _ (negb d && ep)); [destruct ep; cbn beta iota; [eapply bind_run; [by eapply discardable_ok|]; by rewrite andb_true_r|by rewrite andb_false_r]|].
  rewrite wrap_small by (unfold is_uint; destruct (negb d && ep); cbn [Z.b2z]; lia).
  rewrite IH; [|done|destruct (negb d && ep); cbn [Z.b2z]; lia|destruct (negb d && ep); cbn [Z.b2z]; lia].
  unfold recent_slot at 2. cbn [fst snd]. destruct (negb d && ep); cbn [Z.b2z length]; do 2 f_equal; lia.
Qed.

(** What aging makes of a slot: the elements of the current epoch become old, the others are
    given up. *)
Definition aged (s : Element * bool * bool) : Element * bool * bool := (s.1.1, s.1.2 || negb s.2, false).
Lemma age_loop_ok : forall l c, shape c -> NoDup l -> Forall (fun i => 0 <= i < size c) l ->
  exists c', age_loop l c = Some (tt, c') /\ shape c' /\ same_sizes c c' /\ forall j, slot c' j = if bool_decide (j ∈ l) then aged <$> slot c j else slot c j.
Proof.
  induction l as [|i l IH]; intros c Hs Hnd Hl.
  { exists c. split; [done|]. split; [done|]. split; [done|]. intros j. rewrite bool_decide_false by apply not_elem_of_nil. done. }
  apply Forall_cons in Hl as [Hi Hl]. apply NoDup_cons in Hnd as [Hni Hnd]. destruct (cache_slot_in c i Hs Hi) as [[[x d] ep] E].
  assert (exists c1, (if ep then set_epoch i false else allow_erase i) c = Some (tt, c1) /\ slot_set c c1 i (aged (x, d, ep))) as (c1 & E1 & Hs1 & (Z1 & Z2 & Z3 & Z4) & H1).
  { destruct ep; [destruct (set_epoch_ok c i x d true false Hs E) as (c1 & E1 & H1)|destruct (allow_erase_ok c i x d false Hs E) as (c1 & E1 & H1)];
      exists c1; (split; [done|]); unfold aged; cbn [fst snd negb]; by rewrite ?orb_false_r, ?orb_true_r. }
  destruct (IH c1 Hs1 Hnd) as (c' & E' & Hs' & (Y1 & Y2 & Y3 & Y4) & H'); [by rewrite Z1|].
  exists c'. split; [cbn [age_loop]; eapply bind_run; [by eapply get_epoch_ok|]; eapply bind_run; [exact E1|exact E']|].
  split; [done|]. split; [unfold same_sizes; split_and!; congruence|]. intros j. rewrite H', H1.
  destruct (Z.eqb_spec j i) as [->|Hj].
  - rewrite bool_decide_false by done. rewrite bool_decide_true by (by left). by rewrite E.
  - destruct (decide (j ∈ l)).
    + by rewrite !bool_decide_true by (done || by right).
    + rewrite !bool_decide_false; [done|by rewrite elem_of_cons; tauto|done].
Qed.

(** The cache as its client knows it. *)
Record sets := { s_known : gset Element; s_kept : gset Element; s_recent : gset Element; s_counter : Z }.
Definition view c : sets := {| s_known := known c; s_kept := kept c; s_recent := recent c; s_counter := epoch_heuristic_counter c |}.

(** When its counter runs out, and the current epoch is full, the epoch ends: all older
    elements are given up. *)
Definition age (esize : Z) (s : sets) : sets :=
  if s_counter s =? 0 then
    let n := Z.of_nat (base.size (s_recent s)) in
    if esize <=? n then {| s_known := s_known s; s_kept := s_recent s; s_recent := ∅; s_counter := esize |}
    else {| s_known := s_known s; s_kept := s_kept s; s_recent := s_recent s; s_counter := Z.max 1 (Z.max (esize / 16) (esize - n)) |}
  else {| s_known := s_known s; s_kept := s_kept s; s_recent := s_recent s; s_counter := s_counter s - 1 |}.

Definition counters_ok c : Prop := 1 <= epoch_size c < 2 ^ 32.
Definition same_config c c' : Prop := size c' = size c /\ epoch_size c' = epoch_size c /\ depth_limit c' = depth_limit c.

Lemma set_counter_ok c z : cache_ok c -> cache_ok (with_counter z c) /\ known (with_counter z c) = known c /\ kept (with_counter z c) = kept c /\ recent (with_counter z c) = recent c.
Proof. intros [[] ? ? ?]. done. Qed.

Lemma epoch_check_ok c : cache_ok c -> counters_ok c ->
  exists c', epoch_check c = Some (tt, c') /\ cache_ok c' /\ same_config c c' /\ view c' = age (epoch_size c) (view c).
Proof.
  intros Hok Hc. pose proof Hok as [Hs Hp Ho Hb]. pose proof (sh_size _ Hs) as H2. unfold age, view at 1 2 3. cbn [s_counter s_recent].
  destruct (Z.eqb_spec (epoch_heuristic_counter c) 0) as [E0|N0]; cycle 1.
  { exists (with_counter (epoch_heuristic_counter c - 1) c). destruct (set_counter_ok c (epoch_heuristic_counter c - 1) Hok) as (Hok' & K1 & K2 & K3).
    split; [|split; [done|split; [done|unfold view; by rewrite K1, K2, K3]]]. unfold epoch_check. eapply bind_reads; [done|]. apply Z.eqb_neq in N0. by rewrite N0. }
  assert (Forall (fun i => 0 <= i < size c) (seqZ 0 (size c))) as Hl by (apply Forall_forall; intros i Hi%elem_of_seqZ; lia).
  pose proof (count_loop_ok c Hs (seqZ 0 (size c)) 0 Hl ltac:(lia)) as Ec. rewrite <- recent_size in Ec by done.
  assert (epoch_check c = (if (Z.of_nat (base.size (recent c)) >=? epoch_size c) then (_ ← age_loop (seqZ 0 (size c)); set_counter (epoch_size c))
    else set_counter (Z.max 1 (Z.max (epoch_size c / 16) (u32 (epoch_size c - Z.of_nat (base.size (recent c))))))) c) as ->.
  { unfold epoch_check. eapply bind_reads; [done|]. rewrite E0. cbn [Z.eqb negb]. eapply bind_run; [apply Ec; rewrite length_seqZ; lia|]. by rewrite Z.add_0_l. }
  rewrite Z.geb_leb. destruct (Z.leb_spec (epoch_size c) (Z.of_nat (base.size (recent c)))) as [Hle|Hgt].
  - destruct (age_loop_ok (seqZ 0 (size c)) c Hs (NoDup_seqZ _ _) Hl) as (c1 & E1 & Hs1 & (Z1 & Z2 & Z3 & Z4) & H1).
    assert (forall j, slot c1 j = aged <$> slot c j) as H1'.
    { intros j. rewrite H1. destruct (slot c j) as [s|] eqn:Ej; [|by case_bool_decide]. rewrite bool_decide_true; [done|].
      apply elem_of_seqZ. pose proof (cache_slot_range _ _ _ Hs Ej). lia. }
    assert (forall j x d ep, slot c1 j = Some (x, d, ep) -> exists d0 ep0, slot c j = Some (x, d0, ep0) /\ d = d0 || negb ep0 /\ ep = false) as Hback.
    { intros j x d ep E. rewrite H1' in E. destruct (slot c j) as [[[y d0] ep0]|]; [|done]. injection E as <- <- <-. by exists d0, ep0. }
    assert (cache_ok c1) as Hok1.
    { split; [done| | |].
      - intros i x d ep (d0 & ep0 & E & _)%Hback. rewrite Z1. by eapply Hp.
      - intros i j x d ep d' ep' (d0 & ep0 & E & _)%Hback (d1 & ep1 & E' & _)%Hback. by eapply Ho.
      - intros i d ep (d0 & ep0 & E & -> & _)%Hback. by rewrite (Hb _ _ _ E). }
    destruct (set_counter_ok c1 (epoch_size c) Hok1) as (Hok' & K1 & K2 & K3). exists (with_counter (epoch_size c) c1).
    split; [eapply bind_run; [exact E1|done]|]. split; [done|]. split; [done|]. unfold view. rewrite K1, K2, K3. cbn. f_equal; apply set_eq; intros x.
    + rewrite !elem_known by done. split; intros (Hx & i & d & ep & E); (split; [done|]).
      * apply Hback in E as (d0 & ep0 & E & _). by exists i, d0, ep0.
      * eexists i, _, _. by rewrite H1', E.
    + rewrite elem_kept, elem_recent by done. split.
      * intros (i & ep & (d0 & ep0 & E & Hd & _)%Hback). symmetry in Hd. apply orb_false_iff in Hd as [-> Hn]. apply negb_false_iff in Hn as ->. by exists i.
      * intros (i & E). exists i, false. by rewrite H1', E.
    + rewrite elem_recent by done. split; [intros (i & (d0 & ep0 & E & _ & Hf)%Hback); done|by intros ?%not_elem_of_empty].
  - rewrite wrap_small by (unfold is_uint, counters_ok in *; lia). eexists. split; [done|].
    destruct (set_counter_ok c (Z.max 1 (Z.max (epoch_size c / 16) (epoch_size c - Z.of_nat (base.size (recent c))))) Hok) as (Hok' & K1 & K2 & K3).
    split; [done|]. split; [done|]. unfold view. by rewrite K1, K2, K3.
Qed.
(** ** Insertion and search *)

Context {hashes : CacheHash Element}.

Lemma compute_hashes_range n x i : 0 < n < 2 ^ 32 -> i ∈ compute_hashes n x -> 0 <= i < n.
Proof.
  intros Hn (k & -> & _)%list_elem_of_fmap. pose proof (hash_range k x) as Hh. unfold is_uint in Hh.
  assert (0 <= hash_function k x * n < 2 ^ 32 * n) by nia. rewrite (wrap_small 64) by (unfold is_uint; lia). rewrite Z.shiftr_div_pow2 by lia.
  assert (0 <= hash_function k x * n / 2 ^ 32 < n) by (split; [apply Z.div_pos; lia|apply Z.div_lt_upper_bound; lia]).
  rewrite wrap_small by (unfold is_uint; lia). done.
Qed.

Lemma find_loc_ok (test : Z -> ST (cache Element) bool) (Q : Z -> bool) c l : (forall i, i ∈ l -> test i c = Some (Q i, c)) ->
  exists r, find_loc test l c = Some (r, c) /\ match r with Some i => i ∈ l /\ Q i = true | None => forall i, i ∈ l -> Q i = false end.
Proof.
  induction l as [|i l IH]; intros Ht; [exists None; split; [done|]; by intros i Hi%elem_of_nil|].
  destruct IH as (r & E & Hr); [intros j Hj; apply Ht; by right|]. pose proof (Ht i ltac:(by left)) as Ei. destruct (Q i) eqn:HQ.
  - exists (Some i). split; [cbn [find_loc]; eapply bind_run; [exact Ei|done]|]. split; [by left|done].
  - exists r. split; [cbn [find_loc]; eapply bind_run; [exact Ei|exact E]|]. destruct r as [j|].
    + destruct Hr. split; [by right|done].
    + intros j [->|Hj]%elem_of_cons; [done|by apply Hr].
Qed.

(** The search for an element among its slots finds it when the cache has it. *)
Lemma find_element c x : cache_ok c -> x <> default_element ->
  exists r, find_loc (holds_element x) (compute_hashes (size c) x) c = Some (r, c) /\
    match r with Some i => exists d ep, slot c i = Some (x, d, ep) | None => x ∉ known c end.
Proof.
  intros [Hs Hp Ho Hb] Hx. pose proof (sh_size _ Hs) as H2.
  set (Q := fun i => match slot c i with Some s => bool_decide (s.1.1 = x) | None => false end).
  destruct (find_loc_ok (holds_element x) Q c (compute_hashes (size c) x)) as (r & E & Hr).
  { intros i Hi%compute_hashes_range; [|lia]. destruct (cache_slot_in c i Hs Hi) as [[[y d] ep] Es]. unfold Q. rewrite Es.
    eapply bind_run; [by eapply get_table_ok|done]. }
  exists r. split; [done|]. destruct r as [i|].
  - destruct Hr as [_ HQ]. unfold Q in HQ. destruct (slot c i) as [[[y d] ep]|]; [|done]. apply bool_decide_eq_true in HQ. cbn in HQ. subst y. by exists d, ep.
  - intros (_ & i & d & ep & Es)%elem_known; [|done]. pose proof (Hr i (Hp _ _ _ _ Es Hx)) as HQ. unfold Q in HQ. rewrite Es in HQ.
    by apply bool_decide_eq_false in HQ.
Qed.

(** At most one element is lost: [lost] has one or none. *)
Definition put_in (x : Element) (ep : bool) (lost : gset Element) (s : sets) : sets :=
  {| s_known := (s_known s ∪ {[x]}) ∖ lost; s_kept := (s_kept s ∪ {[x]}) ∖ lost;
     s_recent := (s_recent s ∪ (if ep then {[x]} else ∅)) ∖ lost; s_counter := s_counter s |}.

Lemma kept_known c : cache_ok c -> kept c ⊆ known c.
Proof.
  intros [Hs _ _ Hb] x (i & ep & E)%elem_kept; [|done]. apply elem_known; [done|]. split; [intros ->; by apply Hb in E|by exists i, false, ep].
Qed.
Lemma recent_kept c : shape c -> recent c ⊆ kept c.
Proof. intros Hs x (i & E)%elem_recent; [|done]. apply elem_kept; [done|]. by exists i, true. Qed.

Lemma take_out (A X : gset Element) y (b : bool) : (y ∈ A <-> b = true) -> A ∖ {[y]} ∪ X ∪ (if b then {[y]} else ∅) = A ∪ X.
Proof.
  intros Hb. apply set_eq. intros z. rewrite !elem_of_union, elem_of_difference, elem_of_singleton. destruct (decide (z = y)) as [->|Hne].
  - destruct b; [rewrite elem_of_singleton; tauto|rewrite elem_of_empty; intuition congruence].
  - destruct b; [rewrite elem_of_singleton; tauto|rewrite elem_of_empty; tauto].
Qed.

Lemma same_config_trans c c1 c2 : same_config c c1 -> same_config c1 c2 -> same_config c c2.
Proof. intros (? & ? & ?) (? & ? & ?). unfold same_config. split_and!; congruence. Qed.
Lemma same_sizes_config c c' : same_sizes c c' -> same_config c c' /\ epoch_heuristic_counter c' = epoch_heuristic_counter c.
Proof. intros (? & ? & ? & ?). done. Qed.

Lemma insert_loop_ok : forall depth x ep last_loc c, cache_ok c -> x <> default_element -> x ∉ known c ->
  exists c' lost, insert_loop depth x ep last_loc (compute_hashes (size c) x) c = Some (tt, c') /\ cache_ok c' /\ same_config c c' /\
    (base.size lost <= 1)%nat /\ view c' = put_in x ep lost (view c) /\
    ((0 < depth)%nat -> (exists i y e, i ∈ compute_hashes (size c) x /\ slot c i = Some (y, true, e)) -> lost ## kept c ∪ {[x]}).
Proof.
  induction depth as [|depth IH]; intros x ep last_loc c Hok Hx Hnew; pose proof (kept_known c Hok) as Hkk.
  { exists c, {[x]}. split; [done|]. split; [done|]. split; [done|]. split; [by rewrite size_singleton|]. split; [|lia].
    pose proof (recent_kept c (ok_shape _ Hok)). unfold view, put_in. cbn. f_equal; apply set_eq; intros y; destruct ep; set_solver. }
  pose proof Hok as [Hs Hp Ho Hb]. pose proof (sh_size _ Hs) as H2. pose proof (recent_kept c Hs) as Hrk.
  set (Q := fun i => match slot c i with Some s => s.1.2 | None => false end).
  destruct (find_loc_ok discardable Q c (compute_hashes (size c) x)) as (r & E & Hr).
  { intros i Hi%compute_hashes_range; [|lia]. destruct (cache_slot_in c i Hs Hi) as [[[y d] e] Es]. unfold Q. rewrite Es. by eapply discardable_ok. }
  destruct r as [i|].
  - destruct Hr as [Hi HQ]. unfold Q in HQ. destruct (slot c i) as [[[z d] ez]|] eqn:Es; [|done]. cbn in HQ. subst d.
    destruct (set_table_ok c i z true ez x Hs Es) as (c1 & E1 & P1). pose proof P1 as [Hs1 _].
    destruct (please_keep_ok c1 i x true ez Hs1 (slot_set_eq _ _ _ _ P1)) as (c2 & E2 & P2). pose proof P2 as [Hs2 _].
    destruct (set_epoch_ok c2 i x false ez ep Hs2 (slot_set_eq _ _ _ _ P2)) as (c3 & E3 & P3).
    pose proof (slot_set_trans _ _ _ _ _ _ (slot_set_trans _ _ _ _ _ _ P1 P2) P3) as P.
    destruct (slot_put c c3 i z true ez x ep Hok Es P Hx Hnew Hi) as (Hok3 & K1 & K2 & K3).
    assert (z ∉ kept c) as Hzk.
    { intros (j & e & Ej)%elem_kept; [|done]. destruct (decide (z = default_element)) as [->|Hz]; [by apply Hb in Ej|].
      assert (j = i) as -> by (by eapply Ho). congruence. }
    destruct P as (_ & [Hcfg Hcnt]%same_sizes_config & _).
    exists c3, (if decide (z = default_element) then ∅ else {[z]}). split.
    { cbn [insert_loop]. eapply bind_run; [exact E|]. eapply bind_run; [exact E1|]. eapply bind_run; [exact E2|]. exact E3. }
    split; [done|]. split; [done|]. split; [destruct (decide _); [rewrite size_empty; lia|by rewrite size_singleton]|].
    assert (z <> x) as Hzx.
    { intros ->. apply Hnew. apply elem_known; [done|]. split; [done|]. by exists i, true, ez. }
    split; [|intros _ _; destruct (decide _); set_solver].
    assert (z = default_element -> z ∉ known c) as Hzd by (intros -> [? _]%elem_known; done).
    unfold view, put_in. cbn. rewrite K1, K2, K3, Hcnt.
    assert (known c ∖ {[z]} ∪ {[x]} = (known c ∪ {[x]}) ∖ (if decide (z = default_element) then ∅ else {[z]})) as -> by (apply set_eq; intros y; destruct (decide _); set_solver).
    assert (kept c ∖ {[z]} ∪ {[x]} = (kept c ∪ {[x]}) ∖ (if decide (z = default_element) then ∅ else {[z]})) as -> by (apply set_eq; intros y; destruct (decide _); set_solver).
    f_equal. apply set_eq; intros y; destruct (decide _), ep; set_solver.
  - assert (exists loc, aget (compute_hashes (size c) x) ((1 + find_index last_loc (compute_hashes (size c) x)) .& 7) = Some loc /\ loc ∈ compute_hashes (size c) x) as (loc & El & Hloc).
    { change 7 with (Z.ones 3). rewrite Z.land_ones by lia. destruct (aget_in (compute_hashes (size c) x) ((1 + find_index last_loc (compute_hashes (size c) x)) mod 2 ^ 3)) as [loc El].
      { pose proof (Z.mod_pos_bound (1 + find_index last_loc (compute_hashes (size c) x)) (2 ^ 3) ltac:(lia)). unfold compute_hashes in *. rewrite length_fmap, length_seq. lia. }
      exists loc. split; [done|]. apply aget_Some in El as [_ El]. by eapply list_elem_of_lookup_2. }
    destruct (cache_slot_in c loc Hs) as [[[y d] ey] Es]; [apply compute_hashes_range with x; [lia|done]|].
    pose proof (Hr loc Hloc) as HQ. unfold Q in HQ. rewrite Es in HQ. cbn in HQ. subst d.
    destruct (set_table_ok c loc y false ey x Hs Es) as (c1 & E1 & P1). pose proof P1 as [Hs1 _].
    destruct (set_epoch_ok c1 loc x false ey ep Hs1 (slot_set_eq _ _ _ _ P1)) as (c2 & E2 & P2).
    pose proof (slot_set_trans _ _ _ _ _ _ P1 P2) as P.
    destruct (slot_put c c2 loc y false ey x ep Hok Es P Hx Hnew Hloc) as (Hok2 & K1 & K2 & K3).
    assert (y <> default_element) as Hy by (intros ->; by apply Hb in Es).
    assert (y <> x) as Hyx by (intros ->; apply Hnew; apply elem_known; [done|]; split; [done|]; by exists loc, false, ey).
    assert (y ∈ kept c) as Hyk by (apply elem_kept; [done|]; by exists loc, ey).
    assert (y ∈ recent c <-> ey = true) as Hyr.
    { rewrite elem_recent by done. split; [|intros ->; by exists loc]. intros (j & Ej). assert (j = loc) as -> by (by eapply Ho). congruence. }
    pose proof P as (_ & [(Hsz & He & Hd) Hcnt]%same_sizes_config & _).
    destruct (IH y ey loc c2 Hok2 Hy) as (c' & lost & E' & Hok' & Hcfg & Hlost & Hview & _); [rewrite K1, elem_of_union, elem_of_difference, !elem_of_singleton; tauto|].
    exists c', lost. split.
    { cbn [insert_loop]. eapply bind_run; [exact E|]. eapply bind_reads; [exact El|]. eapply bind_run; [by eapply get_table_ok|].
      eapply bind_run; [exact E1|]. eapply bind_run; [eapply get_epoch_ok, slot_set_eq, P1|]. eapply bind_run; [exact E2|].
      eapply bind_reads; [done|]. exact E'. }
    split; [done|]. split; [eapply same_config_trans; [|exact Hcfg]; done|]. split; [done|]. split.
    + rewrite Hview. unfold view, put_in. cbn. rewrite K1, K2, K3, Hcnt. pose proof (Hkk y Hyk) as Hyn.
      rewrite (take_out (known c) {[x]} y true), (take_out (kept c) {[x]} y true), (take_out (recent c) _ y ey) by done. done.
    + intros _ (i & z & e & Hi & Ei). pose proof (Hr i Hi) as HQ'. unfold Q in HQ'. rewrite Ei in HQ'. done.
Qed.
Lemma age_known e s : s_known (age e s) = s_known s.
Proof. unfold age. by repeat case_match. Qed.

Lemma cache_insert_ok c x : cache_ok c -> counters_ok c -> x <> default_element ->
  exists c' lost, insert x c = Some (tt, c') /\ cache_ok c' /\ same_config c c' /\ (base.size lost <= 1)%nat /\
    view c' = put_in x true lost (age (epoch_size c) (view c)) /\ (x ∈ known c -> lost = ∅) /\
    (0 < depth_limit c -> (exists i y e, i ∈ compute_hashes (size c) x /\ slot c i = Some (y, true, e)) -> lost ## s_kept (age (epoch_size c) (view c)) ∪ {[x]}).
Proof.
  intros Hok Hc Hx. destruct (epoch_check_ok c Hok Hc) as (c1 & E1 & Hok1 & (Hsz & Hes & Hd) & Hv).
  assert (known c1 = known c) as Hk by (change (s_known (view c1) = known c); by rewrite Hv, age_known).
  assert (forall i y e, slot c i = Some (y, true, e) -> exists e', slot c1 i = Some (y, true, e')) as Hgone.
  { intros i y e Ei. unfold epoch_check in E1. unfold mbind at 1, ST_bind at 1, reads in E1. cbn [mbind option_bind] in E1.
    destruct (negb (epoch_heuristic_counter c =? 0)); [injection E1 as <-; by exists e|]. unfold mbind at 1, ST_bind at 1 in E1.
    pose proof Hok as [Hs _ _ _]. pose proof (sh_size _ Hs) as H2.
    assert (Forall (fun i => 0 <= i < size c) (seqZ 0 (size c))) as Hl by (apply Forall_forall; intros j Hj%elem_of_seqZ; lia).
    rewrite count_loop_ok in E1 by (done || rewrite length_seqZ; lia). cbn [mbind option_bind] in E1. destruct (_ >=? _); [|injection E1 as <-; by exists e].
    destruct (age_loop_ok (seqZ 0 (size c)) c Hs (NoDup_seqZ _ _) Hl) as (c2 & E2 & _ & _ & H3).
    unfold mbind, ST_bind in E1. rewrite E2 in E1. cbn in E1. injection E1 as <-. exists (if bool_decide (i ∈ seqZ 0 (size c)) then false else e).
    change (slot (with_counter (epoch_size c) c2) i) with (slot c2 i). rewrite H3, Ei. by case_bool_decide. }
  destruct (find_element c1 x Hok1 Hx) as (r & Er & Hr).
  assert (forall c' , match r with Some loc => _ ← please_keep loc; set_epoch loc true | None => insert_loop (Z.to_nat (depth_limit c1)) x true invalid (compute_hashes (size c1) x) end c1 = Some (tt, c') ->
    insert x c = Some (tt, c')) as Hrun.
  { intros c' E. unfold insert. eapply bind_run; [exact E1|]. eapply bind_reads; [done|]. eapply bind_run; [exact Er|]. exact E. }
  destruct r as [loc|].
  - destruct Hr as (d & ep & Es). pose proof (ok_shape _ Hok1) as Hs1. destruct (please_keep_ok c1 loc x d ep Hs1 Es) as (c2 & E2 & P2). pose proof P2 as [Hs2 _].
    destruct (set_epoch_ok c2 loc x false ep true Hs2 (slot_set_eq _ _ _ _ P2)) as (c3 & E3 & P3). pose proof (slot_set_trans _ _ _ _ _ _ P2 P3) as P.
    destruct (slot_mark c1 c3 loc x d ep false true Hok1 Es P Hx) as (Hok3 & K1 & K2 & K3). cbn [negb andb] in K3.
    pose proof P as (_ & [Hcfg Hcnt]%same_sizes_config & _).
    assert (x ∈ known c1) as Hxk by (apply elem_known; [done|]; split; [done|]; by exists loc, d, ep).
    exists c3, ∅. split; [apply Hrun; eapply bind_run; [exact E2|exact E3]|]. split; [done|].
    split; [by eapply same_config_trans|]. split; [rewrite size_empty; lia|]. split; [|split; [done|set_solver]].
    unfold view at 1. rewrite K1, K2, K3, Hcnt. rewrite <- Hv. unfold put_in, view. cbn. rewrite !difference_empty_L. f_equal.
    rewrite union_comm_L. symmetry. apply subseteq_union_1_L. by intros y ->%elem_of_singleton.
  - destruct (insert_loop_ok (Z.to_nat (depth_limit c1)) x true invalid c1 Hok1 Hx Hr) as (c' & lost & E & Hok' & Hcfg & Hl & Hv' & Hfree).
    exists c', lost. split; [by apply Hrun|]. split; [done|]. split; [by eapply same_config_trans|]. split; [done|].
    split; [by rewrite Hv', Hv|]. split; [rewrite Hk in Hr; done|]. intros Hdep (i & y & e & Hi & Ei). rewrite <- Hv. apply Hfree; [lia|].
    apply Hgone in Ei as [e' Ei]. exists i, y, e'. by rewrite Hsz.
Qed.

Lemma contains_ok c x (erase : bool) : cache_ok c -> x <> default_element ->
  exists c', contains x erase c = Some (bool_decide (x ∈ known c), c') /\ cache_ok c' /\ same_config c c' /\
    view c' = if erase then {| s_known := known c; s_kept := kept c ∖ {[x]}; s_recent := recent c ∖ {[x]}; s_counter := epoch_heuristic_counter c |} else view c.
Proof.
  intros Hok Hx. destruct (find_element c x Hok Hx) as (r & Er & Hr). pose proof (ok_shape _ Hok) as Hs.
  assert (forall b c', match r with Some loc => _ ← (if erase then allow_erase loc else mret tt); mret true | None => mret false end c = Some (b, c') ->
    contains x erase c = Some (b, c')) as Hrun.
  { intros b c' E. unfold contains. eapply bind_reads; [done|]. eapply bind_run; [exact Er|]. exact E. }
  destruct r as [loc|].
  - destruct Hr as (d & ep & Es). assert (x ∈ known c) as Hxk by (apply elem_known; [done|]; split; [done|]; by exists loc, d, ep).
    rewrite bool_decide_true by done. destruct erase.
    + destruct (allow_erase_ok c loc x d ep Hs Es) as (c' & E & P). destruct (slot_mark c c' loc x d ep true ep Hok Es P Hx) as (Hok' & K1 & K2 & K3).
      destruct P as (_ & [Hcfg Hcnt]%same_sizes_config & _). exists c'. split; [apply Hrun; eapply bind_run; [exact E|done]|]. split; [done|]. split; [done|].
      unfold view. rewrite K1, K2, K3, Hcnt. done.
    + exists c. split; [by apply Hrun|done].
  - rewrite bool_decide_false by done. exists c. split; [by apply Hrun|]. split; [done|]. split; [done|]. destruct erase; [|done].
    pose proof (kept_known c Hok). pose proof (recent_kept c Hs). unfold view. f_equal; symmetry; apply difference_disjoint_L; set_solver.
Qed.

(** ** Clients *)

Inductive op := CInsert (x : Element) | CContains (x : Element) (erase : bool).
Definition element_of (o : op) : Element := match o with CInsert x | CContains x _ => x end.
Definition run_op (o : op) : ST (cache Element) (option bool) :=
  match o with
  | CInsert x => _ ← insert x; mret None
  | CContains x erase => b ← contains x erase; mret (Some b)
  end.
Fixpoint run (os : list op) : ST (cache Element) (list (option bool)) :=
  match os with [] => mret [] | o :: os => r ← run_op o; rs ← run os; mret (r :: rs) end.

(** The epochs age, then the element is put in and at most one is lost. *)
Inductive step (esize : Z) (s : sets) : op -> option bool -> sets -> Prop :=
  | step_insert x lost : (base.size lost <= 1)%nat -> (x ∈ s_known s -> lost = ∅) -> step esize s (CInsert x) None (put_in x true lost (age esize s))
  | step_contains x : step esize s (CContains x false) (Some (bool_decide (x ∈ s_known s))) s
  | step_erase x : step esize s (CContains x true) (Some (bool_decide (x ∈ s_known s)))
      {| s_known := s_known s; s_kept := s_kept s ∖ {[x]}; s_recent := s_recent s ∖ {[x]}; s_counter := s_counter s |}.
Inductive steps (esize : Z) : sets -> list op -> list (option bool) -> sets -> Prop :=
  | steps_nil s : steps esize s [] [] s
  | steps_cons s o r s1 os rs s2 : step esize s o r s1 -> steps esize s1 os rs s2 -> steps esize s (o :: os) (r :: rs) s2.

Lemma run_steps os : forall c, cache_ok c -> counters_ok c -> Forall (fun o => element_of o <> default_element) os ->
  exists rs c', run os c = Some (rs, c') /\ cache_ok c' /\ same_config c c' /\ steps (epoch_size c) (view c) os rs (view c').
Proof.
  induction os as [|o os IH]; intros c Hok Hc Hos; [exists [], c; split; [done|]; split; [done|]; split; [done|constructor]|].
  apply Forall_cons in Hos as [Ho Hos].
  assert (exists r c1, run_op o c = Some (r, c1) /\ cache_ok c1 /\ same_config c c1 /\ step (epoch_size c) (view c) o r (view c1)) as (r & c1 & E1 & Hok1 & Hcfg & Hst).
  { destruct o as [x|x erase]; cbn in Ho.
    - destruct (cache_insert_ok c x Hok Hc Ho) as (c1 & lost & E & Hok1 & Hcfg & Hl & Hv & Hlk & _). exists None, c1.
      split; [eapply bind_run; [exact E|done]|]. split; [done|]. split; [done|]. rewrite Hv. by constructor.
    - destruct (contains_ok c x erase Hok Ho) as (c1 & E & Hok1 & Hcfg & Hv). exists (Some (bool_decide (x ∈ known c))), c1.
      split; [eapply bind_run; [exact E|done]|]. split; [done|]. split; [done|]. rewrite Hv. destruct erase; [apply (step_erase _ (view c))|apply (step_contains _ (view c))]. }
  pose proof Hcfg as (_ & He & _). destruct (IH c1 Hok1) as (rs & c' & E' & Hok' & Hcfg' & Hst'); [unfold counters_ok; by rewrite He|done|].
  rewrite He in Hst'. exists (r :: rs), c'. split; [|split; [done|split; [by eapply same_config_trans|by econstructor]]].
  cbn [run]. eapply bind_run; [exact E1|]. eapply bind_run; [exact E'|done].
Qed.

Lemma setup_ok n : 0 <= n <= 2 ^ 32 - 8 ->
  exists c, setup n cache_new = Some (Z.max 2 n, c) /\ cache_ok c /\ counters_ok c /\ size c = Z.max 2 n /\
    epoch_size c = Z.max 1 (u32 (45 * Z.max 2 n) / 100) /\ view c = {| s_known := ∅; s_kept := ∅; s_recent := ∅; s_counter := epoch_size c |}.
Proof.
  intros Hn. eexists. split; [done|]. set (c := {| table := _ |}). assert (0 <= Z.max 2 n <= 2 ^ 32 - 8) as Hm by lia.
  destruct (new_flags (Z.max 2 n) Hm) as [Hf Hall].
  assert (shape c) as Hs.
  { split; unfold c; cbn [size table epoch_flags collection_flags cache_new]; [lia|rewrite length_resize; lia|rewrite length_resize; lia|done]. }
  assert (forall i s, slot c i = Some s -> s = (default_element, true, false)) as Hslot.
  { intros i [[x d] ep] E. pose proof (cache_slot_range _ _ _ Hs E) as Hi. apply slot_get in E as (Ex & Ep & <-).
    unfold c in Ex, Ep, Hi |- *. cbn [size table epoch_flags collection_flags cache_new] in Ex, Ep, Hi |- *. rewrite (resize_nil (A := bool)) in Ep. rewrite resize_nil in Ex.
    apply aget_Some in Ex as [_ [-> _]%lookup_replicate], Ep as [_ [-> _]%lookup_replicate]. by rewrite Hall. }
  split.
  - split; [done| | |].
    + intros i x d ep [= -> -> ->]%Hslot. done.
    + intros i j x d ep d' ep' [= -> -> ->]%Hslot. done.
    + by intros i d ep [= -> ->]%Hslot.
  - pose proof (wrap_range 32 (45 * Z.max 2 n) ltac:(lia)) as Hw. unfold is_uint in Hw.
    split; [unfold counters_ok; cbn [c epoch_size]; assert (0 <= u32 (45 * Z.max 2 n) / 100 < 2 ^ 32) by (split; [apply Z.div_pos; lia|apply Z.div_lt_upper_bound; lia]); lia|].
    split; [done|]. split; [done|]. unfold view. f_equal; apply set_eq; intros x.
    + rewrite elem_known by done. split; [|by intros ?%not_elem_of_empty]. by intros (Hx & i & d & ep & [= -> -> ->]%Hslot).
    + rewrite elem_kept by done. split; [|by intros ?%not_elem_of_empty]. by intros (i & ep & ?%Hslot).
    + rewrite elem_recent by done. split; [|by intros ?%not_elem_of_empty]. by intros (i & ?%Hslot).
Qed.

(** C13. A cache for up to 2^32 - 8 elements behaves, through any sequence of insertions and of
    searches with or without giving up what is found, as the sets of its elements: a search
    answers whether the element is there; an insertion first ages the epochs as specified,
    then the element is in the cache, not given up and of the current epoch, and at most one
    element - an old one or, when the depth runs out, the last one moved - is lost.  No
    element is the default one, which marks slots that were never used. *)
Theorem cuckoo_cache_refines (n : Z) (os : list op) : 0 <= n <= 2 ^ 32 - 8 -> Forall (fun o => element_of o <> default_element) os ->
  exists c rs c', setup n cache_new = Some (Z.max 2 n, c) /\ run os c = Some (rs, c') /\
    steps (epoch_size c) {| s_known := ∅; s_kept := ∅; s_recent := ∅; s_counter := epoch_size c |} os rs (view c').
Proof.
  intros Hn Hos. destruct (setup_ok n Hn) as (c & E & Hok & Hc & _ & _ & Hv). destruct (run_steps os c Hok Hc Hos) as (rs & c' & Er & _ & _ & Hst).
  exists c, rs, c'. split; [done|]. split; [done|]. by rewrite <- Hv.
Qed.

(** When one of the eight slots of a new element was given up, its insertion loses nothing
    that aging keeps. *)
Theorem cuckoo_cache_room (n : Z) (os : list op) (c c' : cache Element) (rs : list (option bool)) (x y : Element) (i : Z) (e : bool) :
  0 <= n <= 2 ^ 32 - 8 -> Forall (fun o => element_of o <> default_element) os ->
  setup n cache_new = Some (Z.max 2 n, c) -> run os c = Some (rs, c') -> 0 < depth_limit c ->
  x <> default_element -> i ∈ compute_hashes (size c') x -> slot c' i = Some (y, true, e) ->
  exists c2, insert x c' = Some (tt, c2) /\ kept c2 = s_kept (age (epoch_size c') (view c')) ∪ {[x]} /\ (base.size (known c' ∖ known c2) <= 1)%nat.
Proof.
  intros Hn Hos Es Er Hd Hx Hi Ei. destruct (setup_ok n Hn) as (c0 & E0 & Hok & Hc & _). rewrite Es in E0. injection E0 as <-.
  destruct (run_steps os c Hok Hc Hos) as (rs' & c1 & Er' & Hok' & (_ & He & Hdl) & _). rewrite Er in Er'. injection Er' as <- <-.
  destruct (cache_insert_ok c' x Hok') as (c2 & lost & E & _ & _ & Hl & Hv & _ & Hfree); [unfold counters_ok; by rewrite He|done|].
  exists c2. split; [done|]. specialize (Hfree ltac:(lia) ltac:(by exists i, y, e)). split.
  - change (kept c2) with (s_kept (view c2)). rewrite Hv. cbn. apply difference_disjoint_L. set_solver.
  - etrans; [|exact Hl]. apply subseteq_size. change (known c2) with (s_known (view c2)). rewrite Hv. cbn. rewrite age_known. cbn. clear.
    intros z [H1 H2]%elem_of_difference. rewrite elem_of_difference, elem_of_union in H2. destruct (decide (z ∈ lost)); [done|]. tauto.
Qed.
End cache.
Arguments op : clear implicits.

(** ** Examples *)

Section examples.
#[local] Instance Z_element : CacheElement Z := {| default_element := 0; hash_function i e := u32 ((e + Z.of_nat i * 7919) * 2654435761) |}.
#[local] Instance Z_hash : CacheHash Z.
Proof. intros i e. apply wrap_range. lia. Qed.
#[local] Instance Z_libm : Libm := Z.log2.

Definition cache_example : list (op Z) := (CInsert <$> seqZ 1 30) ++ [CContains 3 true; CContains 3 false; CContains 77 false; CInsert 3; CContains 30 false].

Lemma cuckoo_cache_refines_witness : exists c rs c', setup 16 cache_new = Some (16, c) /\ run cache_example c = Some (rs, c') /\
  steps (epoch_size c) {| s_known := ∅; s_kept := ∅; s_recent := ∅; s_counter := epoch_size c |} cache_example rs (view c').
Proof.
  apply (cuckoo_cache_refines 16 cache_example); [lia|]. unfold cache_example. cbn. repeat (constructor; [cbn; discriminate|]). constructor.
Defined.

Lemma cuckoo_cache_room_witness : exists c c' rs i y e, setup 16 cache_new = Some (16, c) /\ run [CInsert 5; CInsert 6] c = Some (rs, c') /\
  i ∈ compute_hashes (size c') 7 /\ slot c' i = Some (y, true, e) /\
  exists c2, insert 7 c' = Some (tt, c2) /\ kept c2 = s_kept (age (epoch_size c') (view c')) ∪ {[7]} /\ (base.size (known c' ∖ known c2) <= 1)%nat.
Proof.
  do 6 eexists. split; [vm_compute; reflexivity|]. split; [vm_compute; reflexivity|]. split; [left|]. split; [vm_compute; reflexivity|].
  eapply (cuckoo_cache_room 16 [CInsert 5; CInsert 6]);
    [lia|repeat (constructor; [cbn; discriminate|]); constructor|vm_compute; reflexivity|vm_compute; reflexivity|by vm_compute|discriminate|left|vm_compute; reflexivity].
Defined.

(** What the class says of itself and does not hold: a new cache contains the default
    element; above 2^32 - 8 slots there are no flags; above 95443717 slots the epoch is not
    45% of them; and an insertion first moves on the element of the second of its slots, not
    of the first. *)
Theorem cuckoo_cache_limits :
  (exists c, setup 16 cache_new = Some (16, c) /\ contains 0 false c = Some (true, c)) /\
  bit_packed_atomic_flags (2 ^ 32 - 2) = [] /\
  (forall m c, setup (2 ^ 27) cache_new = Some (m, c) -> epoch_size c = 17448304 /\ 45 * 2 ^ 27 / 100 = 60397977) /\
  (forall locs, length locs = 8%nat -> invalid ∉ locs -> (1 + find_index invalid locs) .& 7 = 1).
Proof.
  split; [eexists; split; [vm_compute; reflexivity|vm_compute; reflexivity]|]. split; [reflexivity|]. split.
  { intros m c E. split; [|reflexivity]. apply (f_equal (fun r => match r with Some p => epoch_size p.2 | None => 0 end)) in E. symmetry. exact E. }
  intros locs Hl Hn. assert (forall l, invalid ∉ l -> find_index invalid l = Z.of_nat (length l)) as Hf.
  { induction l as [|y l IH]; [done|]. rewrite not_elem_of_cons. intros [Hy Hl']. cbn [find_index length]. destruct (Z.eqb_spec y invalid); [congruence|]. rewrite IH by done. lia. }
  by rewrite Hf, Hl.
Qed.
End examples.
