(* ===== verification/Events.v ===== *)
(** * Events: the waiting objects of [src/util/locks_util.h]

    [BlockingCounter], [AutoResetEvent], [ManualResetEvent], [CountDownLatch],
    [Notification], [CThreadInterrupt] and [CondVarSem]: each is one variable under a mutex with one
    condition variable, a [Monitor].  [CondVar::waitFor] and [waitUtil] return true when
    they time out as well as when they are signalled, so that a loop around them never
    ends on a timeout; [std::condition_variable::wait_for] tells the two apart.  The
    unlocked load of [Notification] is repeated under the mutex when it reads false, and
    counts as a piece of its own when it reads true.  An argument of a call is converted to
    the type of the parameter. *)

From S2P Require Import Prelude Monitor.
#[local] Open Scope Z_scope.
#[local] Open Scope mycc_scope.

Inductive reply := done_ | flag (b : bool) | number (n : Z).
Definition is_entry (how : resumed) : bool := match how with entry => true | _ => false end.

(** A piece: it returns in a new state, or waits on the one condition variable. *)
Abbreviation piece S := (option (S * list (signal unit) * outcome unit reply)).

(** ** [BlockingCounter] *)

Module Counter.
Definition decrement (counter_ : Z) : piece Z :=
  let counter_ := u64 (counter_ - 1) in
  Some (counter_, if counter_ =? 0 then [notify_all tt] else [], Returns [] (flag (counter_ =? 0))).
Definition reset (cnt counter_ : Z) : piece Z := Some (cnt, [], Returns [] done_).
Definition wait (counter_ : Z) : piece Z :=
  if negb (counter_ =? 0) then Some (counter_, [], Waits tt) else Some (counter_, [], Returns [] done_).
Inductive op := Decrement | Reset (cnt : Z) | Wait.
#[global] Instance counter_monitor : Monitor Z unit op reply := {
  run o _ := match o with Decrement => decrement | Reset cnt => reset (u64 cnt) | Wait => wait end;
  timed _ := false }.
End Counter.

(** ** [AutoResetEvent] *)

Module AutoReset.
Definition wait (signaled_ : bool) : piece bool :=
  if negb signaled_ then Some (signaled_, [], Waits tt) else Some (false, [], Returns [] done_).
(** The wait is not in a loop: whatever ended it, the state is read and cleared. *)
Definition waitFor (how : resumed) (signaled_ : bool) : piece bool :=
  if negb signaled_ && is_entry how then Some (signaled_, [], Waits tt) else Some (false, [], Returns [] (flag signaled_)).
Definition set (signaled_ : bool) : piece bool := Some (true, [notify_one tt], Returns [] done_).
Definition reset (signaled_ : bool) : piece bool := Some (false, [], Returns [] done_).
Inductive op := Wait | WaitFor | Set_ | Reset.
#[global] Instance auto_monitor : Monitor bool unit op reply := {
  run o how := match o with Wait => wait | WaitFor => waitFor how | Set_ => set | Reset => reset end;
  timed o := match o with WaitFor => true | _ => false end }.
End AutoReset.

(** ** [ManualResetEvent] *)

Module ManualReset.
Definition wait (m_signaled : bool) : piece bool :=
  if negb m_signaled then Some (m_signaled, [], Waits tt) else Some (m_signaled, [], Returns [] done_).
Definition waitFor (how : resumed) (m_signaled : bool) : piece bool :=
  if negb m_signaled && is_entry how then Some (m_signaled, [], Waits tt) else Some (m_signaled, [], Returns [] (flag m_signaled)).
Definition set (m_signaled : bool) : piece bool := Some (true, [notify_all tt], Returns [] done_).
Definition reset (m_signaled : bool) : piece bool := Some (false, [], Returns [] done_).
Inductive op := Wait | WaitFor | Set_ | Reset.
#[global] Instance manual_monitor : Monitor bool unit op reply := {
  run o how := match o with Wait => wait | WaitFor => waitFor how | Set_ => set | Reset => reset end;
  timed o := match o with WaitFor => true | _ => false end }.
End ManualReset.

(** ** [CountDownLatch] *)

Module Latch.
Definition countDown (amount count_ : Z) : piece Z :=
  if count_ =? 0 then Some (count_, [], Returns [] done_)
  else
    let count_ := if amount >=? count_ then 0 else u64 (count_ - amount) in
    Some (count_, if count_ =? 0 then [notify_all tt] else [], Returns [] done_).
Definition wait (count_ : Z) : piece Z :=
  if count_ >? 0 then Some (count_, [], Waits tt) else Some (count_, [], Returns [] done_).
(** [CondVar::waitFor] and [waitUtil] are true on a signal and on a timeout. *)
Definition condvar_wait_result (how : resumed) : bool := true.
Definition waitFor (how : resumed) (count_ : Z) : piece Z :=
  if negb (is_entry how) && negb (condvar_wait_result how) then Some (count_, [], Returns [] (flag false))
  else if count_ >? 0 then Some (count_, [], Waits tt) else Some (count_, [], Returns [] (flag true)).
Definition waitUntil : resumed -> Z -> piece Z := waitFor.
Definition reset (count count_ : Z) : piece Z :=
  Some (count, if count =? 0 then [notify_all tt] else [], Returns [] done_).
Definition count (count_ : Z) : piece Z := Some (count_, [], Returns [] (number count_)).
Inductive op := CountDown (amount : Z) | Wait | WaitFor | WaitUntil | Reset (count : Z) | Count.
#[global] Instance latch_monitor : Monitor Z unit op reply := {
  run o how := match o with
    | CountDown amount => countDown (u64 amount) | Wait => wait | WaitFor => waitFor how | WaitUntil => waitUntil how
    | Reset n => reset (u64 n) | Count => count end;
  timed o := match o with WaitFor | WaitUntil => true | _ => false end }.
End Latch.

(** ** [Notification] *)

Module Notify.
Definition notify (notified_ : bool) : piece bool :=
  if notified_ then None else Some (true, [notify_all tt], Returns [] done_).
Definition hasBeenNotified (notified_ : bool) : piece bool := Some (notified_, [], Returns [] (flag notified_)).
Definition waitForNotification (notified_ : bool) : piece bool :=
  if negb notified_ then Some (notified_, [], Waits tt) else Some (notified_, [], Returns [] done_).
(** After a timeout the flag is not read again. *)
Definition waitForNotificationWithTimeout (how : resumed) (notified_ : bool) : piece bool :=
  match how with
  | timed_out => Some (notified_, [], Returns [] (flag false))
  | _ => if negb notified_ then Some (notified_, [], Waits tt) else Some (notified_, [], Returns [] (flag true))
  end.
Inductive op := Notify_ | HasBeenNotified | WaitForNotification | WithTimeout.
#[global] Instance notify_monitor : Monitor bool unit op reply := {
  run o how := match o with
    | Notify_ => notify | HasBeenNotified => hasBeenNotified | WaitForNotification => waitForNotification
    | WithTimeout => waitForNotificationWithTimeout how end;
  timed o := match o with WithTimeout => true | _ => false end }.
End Notify.

(** ** [CThreadInterrupt] *)

Module Interrupt.
(** [operator()]: the signal is sent after the unlock. *)
Definition interrupt (flag_ : bool) : piece bool := Some (true, [], Returns [notify_all tt] done_).
(** [operator bool] and [reset] do not lock. *)
Definition interrupted (flag_ : bool) : piece bool := Some (flag_, [], Returns [] (flag flag_)).
Definition reset (flag_ : bool) : piece bool := Some (false, [], Returns [] done_).
(** [std::condition_variable::wait_for] with a predicate reads it again after a timeout. *)
Definition sleep_for (how : resumed) (flag_ : bool) : piece bool :=
  if flag_ then Some (flag_, [], Returns [] (flag (negb flag_)))
  else match how with
       | timed_out => Some (flag_, [], Returns [] (flag (negb flag_)))
       | _ => Some (flag_, [], Waits tt)
       end.
Inductive op := Interrupt_ | Interrupted | Reset | SleepFor.
#[global] Instance interrupt_monitor : Monitor bool unit op reply := {
  run o how := match o with Interrupt_ => interrupt | Interrupted => interrupted | Reset => reset | SleepFor => sleep_for how end;
  timed o := match o with SleepFor => true | _ => false end }.
End Interrupt.

(** ** [CondVarSem] *)

Module Sem.
Definition wait (value : Z) : piece Z :=
  if value <? 1 then Some (value, [], Waits tt) else Some (value - 1, [], Returns [] done_).
Definition try_wait (value : Z) : piece Z :=
  if value <? 1 then Some (value, [], Returns [] (flag false)) else Some (value - 1, [], Returns [] (flag true)).
(** The signal is sent after the unlock; [value++] is on an [int]. *)
Definition post (value : Z) : piece Z := v ← int32 (value + 1); Some (v, [], Returns [notify_one tt] done_).
Inductive op := Wait | TryWait | Post.
#[global] Instance sem_monitor : Monitor Z unit op reply := {
  run o _ := match o with Wait => wait | TryWait => try_wait | Post => post end;
  timed _ := false }.
End Sem.

(** ** [CountDownLatch] counts down *)

Section latch.
Import Latch.

Definition latch_spec (o : op) (s : Z) (r : reply) (s' : Z) : Prop :=
  match o with
  | CountDown amount => r = done_ /\ s' = Z.max 0 (s - u64 amount)
  | Wait => r = done_ /\ s = 0 /\ s' = 0
  | WaitFor | WaitUntil => r = flag true /\ s = 0 /\ s' = 0
  | Reset n => r = done_ /\ s' = u64 n
  | Count => r = number s /\ s' = s
  end.
Definition latch_waits (o : op) : bool := match o with Wait | WaitFor | WaitUntil => true | _ => false end.

(** What a piece does. *)
Lemma latch_piece o how s s' sg out : is_uint 64 s -> run o how s = Some (s', sg, out) ->
  is_uint 64 s' /\ (s <> 0 -> s' = 0 -> sg = [notify_all tt]) /\
  match out with
  | Returns after r => after = [] /\ latch_spec o s r s'
  | Waits _ => latch_waits o = true /\ s' = s /\ s <> 0
  end.
Proof.
  intros Hs. unfold is_uint in Hs. destruct o as [amount| | | |n|]; cbn [run latch_monitor].
  - unfold countDown. pose proof (wrap_range 64 amount ltac:(lia)) as Ha. unfold is_uint in Ha. destruct (Z.eqb_spec s 0) as [->|Hne]; intros E; simplify_eq.
    + split; [done|]. split; [done|]. split; [done|]. split; [done|lia].
    + destruct (Z.geb_spec (u64 amount) s).
      * split; [done|]. split; [done|]. split; [done|]. split; [done|lia].
      * rewrite (wrap_small 64 (s - u64 amount)) by (unfold is_uint; lia). destruct (Z.eqb_spec (s - u64 amount) 0); [lia|].
        split; [unfold is_uint; lia|]. split; [lia|]. split; [done|]. split; [done|lia].
  - unfold wait. destruct (Z.gtb_spec s 0); intros E; simplify_eq; (split; [done|]); (split; [done|]); [split; [done|split; [done|lia]]|].
    split; [done|]. split; [done|lia].
  - unfold waitFor, condvar_wait_result. rewrite andb_false_r. destruct (Z.gtb_spec s 0); intros E; simplify_eq; (split; [done|]); (split; [done|]); [split; [done|split; [done|lia]]|].
    split; [done|]. split; [done|lia].
  - unfold waitUntil, waitFor, condvar_wait_result. rewrite andb_false_r. destruct (Z.gtb_spec s 0); intros E; simplify_eq; (split; [done|]); (split; [done|]); [split; [done|split; [done|lia]]|].
    split; [done|]. split; [done|lia].
  - unfold reset. intros E. simplify_eq. split; [apply wrap_range; lia|]. split; [by intros _ ->|done].
  - unfold count. intros E. simplify_eq. done.
Qed.

#[export] Instance latch_resource : Resource latch_monitor (is_uint 64) tt true latch_waits (fun _ => false) (fun s => if s =? 0 then None else Some 0%nat).
Proof.
  constructor.
  - intros o how s s' sg out Hs E. by destruct (latch_piece _ _ _ _ _ _ Hs E).
  - intros o how s s' sg _ Hs E. by destruct (latch_piece _ _ _ _ _ _ Hs E) as (_ & _ & ? & _).
  - intros o how s s' sg _ Hs E. destruct (latch_piece _ _ _ _ _ _ Hs E) as (_ & _ & _ & -> & Hn). apply Z.eqb_neq in Hn. by rewrite Hn.
  - intros o how s s' sg out n Hs E Hn. destruct (latch_piece _ _ _ _ _ _ Hs E) as (_ & Hz & _). destruct (Z.eqb_spec s 0); [done|].
    destruct (Z.eqb_spec s' 0); [|by right; right; exists 0%nat; auto]. right. left. rewrite Hz by done. unfold sent. left.
Qed.
#[export] Instance latch_atomic : Atomic (M:=latch_monitor) (is_uint 64) id latch_spec.
Proof.
  constructor.
  - intros o how s s' sg out Hs E. by destruct (latch_piece _ _ _ _ _ _ Hs E).
  - intros o how s s' sg after r Hs E. by destruct (latch_piece _ _ _ _ _ _ Hs E) as (_ & _ & _ & ?).
  - intros o how s s' sg cv Hs E. by destruct (latch_piece _ _ _ _ _ _ Hs E) as (_ & _ & _ & ? & _).
Qed.
End latch.

(** [CountDownLatch]: under every interleaving, with spurious wake-ups and timeouts anywhere,
    no call fails; the calls that have ended act in the order of the log on one number, which
    stops at zero, and a wait ends only when it is zero; and when nothing can run any more a
    call still waits only if the count is above zero.  No timed wait answers that the time is
    over: it goes on waiting. *)
Theorem count_down_latch_correct (count : Z) (st : system Z unit Latch.op reply) : is_uint 64 count -> reachable count st ->
  ~ fails st /\ log st ≡ₚ results (calls st) /\ history latch_spec count (log st) (shared st) /\
  (quiescent st -> forall i o cv, calls st !! i = Some (o, Waiting cv) -> shared st <> 0) /\
  (forall o, (o, flag false) ∉ log st).
Proof.
  intros Hc Hr. destruct (reachable_history (HA:=latch_atomic) count st Hc Hr) as [_ Hh]. simpl in Hh.
  split; [|split; [by eapply reachable_results|split; [done|split]]].
  - apply (reachable_never_fails (HA:=latch_atomic) count st Hc); [|done]. intros [] how s _; cbn [run Latch.latch_monitor];
      unfold Latch.countDown, Latch.wait, Latch.waitUntil, Latch.waitFor, Latch.reset, Latch.count; by repeat case_match.
  - intros Hq i o [] Hi E. assert (En : (if shared st =? 0 then None else Some 0%nat) = Some 0%nat).
    { apply (quiescent_none (HR:=latch_resource) count st i o); auto; intros ? ? ?; done. }
    by rewrite E in En.
  - intros o. clear Hr. unfold id in Hh. induction Hh as [|s1 s2 s3 l o' r Hh IH Hs]; [apply not_elem_of_nil|].
    rewrite elem_of_app, list_elem_of_singleton. intros [?|[= <- <-]]; [by apply IH|]. destruct o; destruct Hs as (? & _); congruence.
Qed.

(** ** [AutoResetEvent] releases one *)

Section auto.
Import AutoReset.

Definition auto_spec (o : op) (s : bool) (r : reply) (s' : bool) : Prop :=
  match o with
  | Wait => r = done_ /\ s = true /\ s' = false
  | WaitFor => r = flag s /\ s' = false
  | Set_ => r = done_ /\ s' = true
  | Reset => r = done_ /\ s' = false
  end.
Definition auto_waits (o : op) : bool := match o with Wait | WaitFor => true | _ => false end.

#[export] Instance auto_resource : Resource auto_monitor (fun _ => True) tt true auto_waits (fun _ => false) (fun s => Some (Nat.b2n s)).
Proof.
  constructor; [done|..].
  - by intros [] [] [] s' sg _ _ E; compute in E; simplify_eq/=.
  - by intros [] [] [] s' sg _ _ E; compute in E; simplify_eq/=.
  - intros o how s s' sg out n _ E [= <-]. right. right. exists (Nat.b2n s'). split; [done|].
    destruct o, how, s; compute in E; simplify_eq; weigh; first [by left|right; cbn; lia].
Qed.
#[export] Instance auto_atomic : Atomic (M:=auto_monitor) (fun _ => True) id auto_spec.
Proof. constructor; [done|by intros [] [] [] s' sg after r _ E; compute in E; simplify_eq/=|by intros [] [] [] s' sg cv _ E; compute in E; simplify_eq/=]. Qed.
End auto.

(** [AutoResetEvent]: no call fails; the calls act in the order of the log on one flag, so
    that each [set] releases at most one [wait], which clears it; and at rest a call waits
    only if the flag is clear. *)
Theorem auto_reset_event_correct (st : system bool unit AutoReset.op reply) : reachable false st ->
  ~ fails st /\ log st ≡ₚ results (calls st) /\ history auto_spec false (log st) (shared st) /\
  (quiescent st -> forall i o cv, calls st !! i = Some (o, Waiting cv) -> shared st = false).
Proof.
  intros Hr. destruct (reachable_history (HA:=auto_atomic) false st I Hr) as [_ Hh]. simpl in Hh.
  split; [|split; [by eapply reachable_results|split; [done|]]].
  - apply (reachable_never_fails (HA:=auto_atomic) false st I); [|done]. by intros [] [] [].
  - intros Hq i o [] Hi. assert (En : Some (Nat.b2n (shared st)) = Some 0%nat).
    { apply (quiescent_none (HR:=auto_resource) false st i o); auto; intros ? ? ?; done. }
    by destruct (shared st).
Qed.

(** ** [ManualResetEvent] releases all *)

Section manual.
Import ManualReset.

Definition manual_spec (o : op) (s : bool) (r : reply) (s' : bool) : Prop :=
  match o with
  | Wait => r = done_ /\ s = true /\ s' = true
  | WaitFor => r = flag s /\ s' = s
  | Set_ => r = done_ /\ s' = true
  | Reset => r = done_ /\ s' = false
  end.
Definition manual_waits (o : op) : bool := match o with Wait | WaitFor => true | _ => false end.

#[export] Instance manual_resource : Resource manual_monitor (fun _ => True) tt true manual_waits (fun _ => false) (fun s : bool => if s then None else Some 0%nat).
Proof.
  constructor; [done|..].
  - by intros [] [] [] s' sg _ _ E; compute in E; simplify_eq/=.
  - by intros [] [] [] s' sg _ _ E; compute in E; simplify_eq/=.
  - intros o how s s' sg out n _ E Hn. destruct s; [done|].
    destruct o, how; compute in E; simplify_eq; try (right; right; exists 0%nat; by auto); right; left; unfold sent; left.
Qed.
#[export] Instance manual_atomic : Atomic (M:=manual_monitor) (fun _ => True) id manual_spec.
Proof. constructor; [done|by intros [] [] [] s' sg after r _ E; compute in E; simplify_eq/=|by intros [] [] [] s' sg cv _ E; compute in E; simplify_eq/=]. Qed.
End manual.

(** [ManualResetEvent]: the same, with a flag that stays set until it is reset. *)
Theorem manual_reset_event_correct (init : bool) (st : system bool unit ManualReset.op reply) : reachable init st ->
  ~ fails st /\ log st ≡ₚ results (calls st) /\ history manual_spec init (log st) (shared st) /\
  (quiescent st -> forall i o cv, calls st !! i = Some (o, Waiting cv) -> shared st = false).
Proof.
  intros Hr. destruct (reachable_history (HA:=manual_atomic) init st I Hr) as [_ Hh]. simpl in Hh.
  split; [|split; [by eapply reachable_results|split; [done|]]].
  - apply (reachable_never_fails (HA:=manual_atomic) init st I); [|done]. by intros [] [] [].
  - intros Hq i o [] Hi. assert (En : (if shared st then None else Some 0%nat) = Some 0%nat).
    { apply (quiescent_none (HR:=manual_resource) init st i o); auto; intros ? ? ?; done. }
    by destruct (shared st).
Qed.

(** ** [Notification] *)

Section notification.
Import Notify.

Definition notify_spec (o : op) (s : bool) (r : reply) (s' : bool) : Prop :=
  match o with
  | Notify_ => r = done_ /\ s = false /\ s' = true
  | HasBeenNotified => r = flag s /\ s' = s
  | WaitForNotification => r = done_ /\ s = true /\ s' = true
  | WithTimeout => s' = s /\ (r = flag false \/ (r = flag true /\ s = true))
  end.
Definition notify_waits (o : op) : bool := match o with WaitForNotification | WithTimeout => true | _ => false end.

#[export] Instance notify_resource : Resource notify_monitor (fun _ => True) tt true notify_waits (fun _ => false) (fun s : bool => if s then None else Some 0%nat).
Proof.
  constructor; [done|..].
  - by intros [] [] [] s' sg _ _ E; compute in E; simplify_eq/=.
  - by intros [] [] [] s' sg _ _ E; compute in E; simplify_eq/=.
  - intros o how s s' sg out n _ E Hn. destruct s; [done|].
    destruct o, how; compute in E; simplify_eq; try (right; right; exists 0%nat; by auto); right; left; unfold sent; left.
Qed.
#[export] Instance notify_atomic : Atomic (M:=notify_monitor) (fun _ => True) id notify_spec.
Proof. constructor; [done|intros [] [] [] s' sg after r _ E; compute in E; simplify_eq/=; auto|by intros [] [] [] s' sg cv _ E; compute in E; simplify_eq/=]. Qed.
End notification.

(** [Notification]: the calls act in the order of the log on a flag that is set once; only a
    second [notify] fails; a wait ends when the flag is set, a timed one also when its time
    is over; and at rest nobody waits for a notification that was given. *)
Theorem notification_correct (st : system bool unit Notify.op reply) : reachable false st ->
  log st ≡ₚ results (calls st) /\ history notify_spec false (log st) (shared st) /\
  (fails st -> shared st = true /\ exists i how, calls st !! i = Some (Notify.Notify_, Ready how)) /\
  (quiescent st -> forall i o cv, calls st !! i = Some (o, Waiting cv) -> shared st = false).
Proof.
  intros Hr. destruct (reachable_history (HA:=notify_atomic) false st I Hr) as [_ Hh]. simpl in Hh.
  split; [by eapply reachable_results|]. split; [done|]. split.
  - intros (i & o & how & Hi & E). destruct o, how, (shared st) eqn:Es; compute in E; try done; (split; [done|eauto]).
  - intros Hq i o [] Hi. assert (En : (if shared st then None else Some 0%nat) = Some 0%nat).
    { apply (quiescent_none (HR:=notify_resource) false st i o); auto; intros ? ? ?; done. }
    by destruct (shared st).
Qed.

(** ** [CThreadInterrupt] *)

Section interrupt.
Import Interrupt.

Definition interrupt_spec (o : op) (s : bool) (r : reply) (s' : bool) : Prop :=
  match o with
  | Interrupt_ => r = done_ /\ s' = true
  | Interrupted => r = flag s /\ s' = s
  | Reset => r = done_ /\ s' = false
  | SleepFor => r = flag (negb s) /\ s' = s
  end.
Definition interrupt_waits (o : op) : bool := match o with SleepFor => true | _ => false end.

#[export] Instance interrupt_resource : Resource interrupt_monitor (fun _ => True) tt true interrupt_waits (fun _ => false) (fun s : bool => if s then None else Some 0%nat).
Proof.
  constructor; [done|..].
  - by intros [] [] [] s' sg _ _ E; compute in E; simplify_eq/=.
  - by intros [] [] [] s' sg _ _ E; compute in E; simplify_eq/=.
  - intros o how s s' sg out n _ E Hn. destruct s; [done|].
    destruct o, how; compute in E; simplify_eq; try (right; right; exists 0%nat; by auto); right; left; unfold sent; left.
Qed.
#[export] Instance interrupt_atomic : Atomic (M:=interrupt_monitor) (fun _ => True) id interrupt_spec.
Proof. constructor; [done|by intros [] [] [] s' sg after r _ E; compute in E; simplify_eq/=|by intros [] [] [] s' sg cv _ E; compute in E; simplify_eq/=]. Qed.
End interrupt.

(** [CThreadInterrupt]: no call fails; the calls act in the order of the log on one flag, a
    sleep answering false exactly when it ends with the flag set; and at rest nobody sleeps
    through an interrupt. *)
Theorem thread_interrupt_correct (init : bool) (st : system bool unit Interrupt.op reply) : reachable init st ->
  ~ fails st /\ log st ≡ₚ results (calls st) /\ history interrupt_spec init (log st) (shared st) /\
  (quiescent st -> forall i o cv, calls st !! i = Some (o, Waiting cv) -> shared st = false).
Proof.
  intros Hr. destruct (reachable_history (HA:=interrupt_atomic) init st I Hr) as [_ Hh]. simpl in Hh.
  split; [|split; [by eapply reachable_results|split; [done|]]].
  - apply (reachable_never_fails (HA:=interrupt_atomic) init st I); [|done]. by intros [] [] [].
  - intros Hq i o [] Hi. assert (En : (if shared st then None else Some 0%nat) = Some 0%nat).
    { apply (quiescent_none (HR:=interrupt_resource) init st i o); auto; intros ? ? ?; done. }
    by destruct (shared st).
Qed.

(** ** [CondVarSem] *)

Section semaphore.
Import Sem.

Definition sem_spec (o : op) (s : Z) (r : reply) (s' : Z) : Prop :=
  match o with
  | Wait => r = done_ /\ 1 <= s /\ s' = s - 1
  | TryWait => (r = flag true /\ 1 <= s /\ s' = s - 1) \/ (r = flag false /\ s < 1 /\ s' = s)
  | Post => r = done_ /\ s' = s + 1
  end.
Definition sem_waits (o : op) : bool := match o with Wait => true | _ => false end.
(** Units taken and given. *)
Definition acquired (e : op * reply) : Z := match e with (Wait, _) | (TryWait, flag true) => 1 | _ => 0 end.
Definition posted (e : op * reply) : Z := match e.1 with Post => 1 | _ => 0 end.
Definition total (f : op * reply -> Z) (l : list (op * reply)) : Z := fold_right (fun e z => f e + z) 0 l.

Lemma total_snoc f l e : total f (l ++ [e]) = total f l + f e.
Proof. induction l as [|x l IH]; [cbn; lia|]. cbn [app total fold_right]. fold (total f (l ++ [e])) (total f l). rewrite IH. lia. Qed.

Lemma sem_piece o how s s' sg out : run o how s = Some (s', sg, out) ->
  sg = [] /\ match out with
  | Returns after r => sem_spec o s r s' /\ after = match o with Post => [notify_one tt] | _ => [] end
  | Waits _ => o = Wait /\ s' = s /\ s < 1
  end.
Proof.
  destruct o; cbn [run sem_monitor]; unfold wait, try_wait, post.
  - destruct (Z.ltb_spec s 1); intros E; simplify_eq; [done|]. split; [done|]. split; [|done]. by split; [|split; [lia|]].
  - destruct (Z.ltb_spec s 1); intros E; simplify_eq; (split; [done|]); (split; [|done]); [by right|left]. by split; [|split; [lia|]].
  - unfold int32. case_match; [|done]. intros E. cbn in E. simplify_eq. done.
Qed.

#[export] Instance sem_resource : Resource sem_monitor (fun _ => True) tt true sem_waits (fun _ => false) (fun s => Some (Z.to_nat s)).
Proof.
  constructor; [done|..].
  - intros o how s s' sg _ _ E. by destruct (sem_piece _ _ _ _ _ _ E) as (_ & -> & _).
  - intros o how s s' sg _ _ E. destruct (sem_piece _ _ _ _ _ _ E) as (_ & _ & -> & ?). f_equal. lia.
  - intros o how s s' sg out n _ E [= <-]. right. right. exists (Z.to_nat s'). split; [done|].
    destruct (sem_piece _ _ _ _ _ _ E) as (-> & Ho). destruct out as [after r|cv].
    + destruct Ho as [Hs ->]. destruct o; cbn in Hs; weigh; cbn [sem_waits Nat.b2n]; right; [lia|destruct Hs as [?|?]; lia|lia].
    + destruct Ho as (-> & -> & ?). left. lia.
Qed.
#[export] Instance sem_atomic : Atomic (M:=sem_monitor) (fun _ => True) id sem_spec.
Proof.
  constructor; [done|..].
  - intros o how s s' sg after r _ E. by destruct (sem_piece _ _ _ _ _ _ E) as (_ & ? & _).
  - intros o how s s' sg cv _ E. by destruct (sem_piece _ _ _ _ _ _ E) as (_ & _ & ? & _).
Qed.
End semaphore.

(** [CondVarSem]: the calls act in the order of the log on one number, never taken below zero
    by a wait: what was taken and what is left is what there was at first and what was posted;
    a call fails only where a post overflows the [int]; and at rest a call waits only if
    nothing is left. *)
Theorem cond_var_sem_correct (init : Z) (st : system Z unit Sem.op reply) : reachable init st ->
  log st ≡ₚ results (calls st) /\ history sem_spec init (log st) (shared st) /\
  total acquired (log st) + shared st = init + total posted (log st) /\
  (fails st -> exists i how, calls st !! i = Some (Sem.Post, Ready how) /\ int32 (shared st + 1) = None) /\
  (quiescent st -> forall i o cv, calls st !! i = Some (o, Waiting cv) -> shared st < 1).
Proof.
  intros Hr. destruct (reachable_history (HA:=sem_atomic) init st I Hr) as [_ Hh]. unfold id in Hh.
  split; [by eapply reachable_results|]. split; [done|]. split; [|split].
  - clear Hr. induction Hh as [|s1 s2 s3 l o r Hh IH Hs]; [cbn; lia|]. rewrite !total_snoc.
    assert (Hp : posted (o, r) = match o with Sem.Post => 1 | _ => 0 end) by done. rewrite Hp. clear Hp.
    destruct o; cbn in Hs; cbn [acquired]; [lia| |lia]. destruct Hs as [(-> & ? & ?)|(-> & ? & ?)]; lia.
  - intros (i & o & how & Hi & E). destruct o; cbn [run Sem.sem_monitor] in E; unfold Sem.wait, Sem.try_wait, Sem.post in E; [by destruct (_ <? 1)|by destruct (_ <? 1)|].
    exists i, how. split; [done|]. destruct (int32 (shared st + 1)); [|done]. by cbn in E.
  - intros Hq i o [] Hi. assert (En : Some (Z.to_nat (shared st)) = Some 0%nat).
    { apply (quiescent_none (HR:=sem_resource) init st i o); auto; intros ? ? ?; done. }
    injection En as En. lia.
Qed.

(** ** [BlockingCounter] *)

(** [reset] does not signal: a counter reset to zero leaves the calls that wait for zero
    waiting, with nothing left to wake them. *)
Theorem blocking_counter_strands : exists st,
  schedule [Call Counter.Wait; Run 0 []; Call (Counter.Reset 0); Run 1 []] (system_new 3) = Some st /\
  quiescent st /\ shared st = 0 /\ calls st !! 0%nat = Some (Counter.Wait, Waiting tt).
Proof.
  eexists. split; [vm_compute; reflexivity|]. split; [|done]. intros [|[|i]] o s Hi; cbn in Hi; simplify_eq; done.
Qed.

(** ** Examples *)

(** A timed wait times out, waits on, and ends when the latch opens. *)
Definition latch_run : list (choice Latch.op) :=
  [Call Latch.WaitFor; Run 0 []; Call (Latch.CountDown 1); Run 1 []; Timeout 0; Run 0 []; Call (Latch.CountDown 5); Run 2 []; Run 0 []].
Lemma count_down_latch_correct_witness : is_uint 64 2 /\
  exists st, schedule latch_run (system_new 2) = Some st /\ length (log st) = 3%nat /\ forall o, (o, flag false) ∉ log st.
Proof.
  split; [unfold is_uint; lia|]. destruct (schedule latch_run (system_new 2)) as [st|] eqn:E; [|by vm_compute in E].
  exists st. split; [done|]. split; [by vm_compute in E; injection E as <-|].
  assert (is_uint 64 2) as H2 by (unfold is_uint; lia). exact (proj2 (proj2 (proj2 (proj2 (count_down_latch_correct 2 st H2 (schedule_reachable _ _ _ E)))))).
Defined.

Definition auto_run : list (choice AutoReset.op) :=
  [Call AutoReset.Wait; Run 0 []; Call AutoReset.Wait; Run 1 []; Call AutoReset.Set_; Run 2 [0%nat]; Run 0 []].
Lemma auto_reset_event_correct_witness :
  exists st, schedule auto_run (system_new false) = Some st /\ calls st !! 1%nat = Some (AutoReset.Wait, Waiting tt) /\ shared st = false.
Proof.
  destruct (schedule auto_run (system_new false)) as [st|] eqn:E; [|by vm_compute in E]. exists st. split; [done|].
  pose proof (auto_reset_event_correct st (schedule_reachable _ _ _ E)) as (_ & _ & _ & Hq). vm_compute in E. injection E as <-.
  split; [done|]. eapply (Hq _ 1%nat); [done]. Unshelve. intros [|[|[|i]]] o s Hi; cbn in Hi; simplify_eq; done.
Defined.

Definition sem_run : list (choice Sem.op) :=
  [Call Sem.Wait; Run 0 []; Call Sem.Post; Run 1 []; Call Sem.TryWait; Run 2 []; Deliver 1 0; Run 0 []].
Lemma cond_var_sem_correct_witness :
  exists st, schedule sem_run (system_new 0) = Some st /\ total acquired (log st) + shared st = 0 + total posted (log st) /\ shared st = 0.
Proof.
  destruct (schedule sem_run (system_new 0)) as [st|] eqn:E; [|by vm_compute in E]. exists st. split; [done|].
  split; [apply (cond_var_sem_correct 0 st (schedule_reachable _ _ _ E))|]. vm_compute in E. by injection E as <-.
Defined.
