(* ===== verification/Threads.v ===== *)
(** * Threads: a word of memory under atomic instructions

    The spin locks and light semaphores of [src/util/locks_util.h] keep their state in an
    atomic integer, which threads change one instruction at a time.  A [Machine] says
    which calls a thread at rest can make and what the next instruction of a call does to
    the shared state; a system is the shared state and the program counter of every
    thread, and the scheduler is any list of events. *)

From S2P Require Import Prelude.
#[local] Open Scope Z_scope.

(** [begin p op]: the program counter after the call of [op] by a thread at rest at [p];
    [None] where the contract of the object forbids the call.  [move spurious p w]: one
    instruction, [None] for a thread at rest or one that has to block; [spurious] is the
    choice of a compare-and-swap that may fail for no reason; [Some r] ends the call. *)
Class Machine (W Pc Op R : Type) := {
  begin : Pc -> Op -> option Pc;
  move : bool -> Pc -> W -> option (W * Pc * option R) }.

Section system.
Context {W Pc Op R : Type} `{M : !Machine W Pc Op R}.

(** [log] holds the results of the calls that have ended, in order. *)
Record system := { word : W; threads : list Pc; log : list R }.
Inductive event := Begin (i : nat) (op : Op) | Move (i : nat) (spurious : bool).

Definition step (e : event) (s : system) : option system :=
  match e with
  | Begin i op =>
      p ← threads s !! i; p' ← begin p op;
      Some {| word := word s; threads := <[i := p']> (threads s); log := log s |}
  | Move i spurious =>
      p ← threads s !! i; '(w, p', r) ← move spurious p (word s);
      Some {| word := w; threads := <[i := p']> (threads s); log := log s ++ option_list r |}
  end.

Fixpoint run (es : list event) (s : system) : option system :=
  match es with [] => Some s | e :: es => s ← step e s; run es s end.

Definition start (w : W) (n : nat) (idle : Pc) : system := {| word := w; threads := replicate n idle; log := [] |}.

Inductive reachable (s0 : system) : system -> Prop :=
  | reachable_start : reachable s0 s0
  | reachable_step e s s' : reachable s0 s -> step e s = Some s' -> reachable s0 s'.

Lemma run_is_reachable s0 es s1 s2 : reachable s0 s1 -> run es s1 = Some s2 -> reachable s0 s2.
Proof.
  revert s1. induction es as [|e es IH]; intros s1 H1; simpl; [by intros [= <-]|].
  destruct (step e s1) as [s|] eqn:E; simpl; [|done]. apply IH. by eapply reachable_step.
Qed.

(** An invariant holds at first and is kept by every call and every instruction. *)
Lemma reachable_invariant (I : W -> list Pc -> list R -> Prop) s0 s :
  I (word s0) (threads s0) (log s0) ->
  (forall i p op p' w ps l, I w ps l -> ps !! i = Some p -> begin p op = Some p' -> I w (<[i := p']> ps) l) ->
  (forall i p b w w' p' r ps l, I w ps l -> ps !! i = Some p -> move b p w = Some (w', p', r) ->
     I w' (<[i := p']> ps) (l ++ option_list r)) ->
  reachable s0 s -> I (word s) (threads s) (log s).
Proof.
  intros H0 Hb Hm. induction 1 as [|[i op|i b] s s' _ IH E]; [done| |]; simpl in E;
    destruct (threads s !! i) as [p|] eqn:Ei; simpl in E; try done.
  - destruct (begin p op) as [p'|] eqn:Ep; simpl in E; [|done]. injection E as <-. simpl. by eapply Hb.
  - destruct (move b p (word s)) as [[[w p'] r]|] eqn:Ep; simpl in E; [|done]. injection E as <-. simpl. by eapply Hm.
Qed.
Lemma reachable_length s0 s : reachable s0 s -> length (threads s) = length (threads s0).
Proof.
  intros H. apply (reachable_invariant (fun _ ps _ => length ps = length (threads s0)) s0 s); try done; intros; by rewrite length_insert.
Qed.
End system.
Arguments system : clear implicits.
Arguments event : clear implicits.

(** ** Sums over the threads *)

Section tally.
Context {A : Type}.
Implicit Types (f g : A -> Z) (l : list A).

Definition tally f l : Z := foldr (fun p z => f p + z) 0 l.

Lemma tally_insert f l i p p' : l !! i = Some p -> tally f (<[i := p']> l) = tally f l - f p + f p'.
Proof.
  revert i. induction l as [|q l IH]; intros [|i] H; simplify_eq/=; [lia|].
  fold (tally f (<[i:=p']> l)) (tally f l). rewrite (IH _ H). lia.
Qed.
Lemma tally_replicate f n p : tally f (replicate n p) = Z.of_nat n * f p.
Proof. induction n as [|n IH]; [cbn; lia|]. cbn [replicate tally foldr]. fold (tally f (replicate n p)). rewrite IH. lia. Qed.
Lemma tally_bounds f l : (forall p, 0 <= f p <= 1) -> 0 <= tally f l <= Z.of_nat (length l).
Proof. intros Hf. induction l as [|p l IH]; [cbn; lia|]. cbn [tally foldr length]. fold (tally f l). specialize (Hf p). lia. Qed.
Lemma tally_nonneg f l : (forall p, 0 <= f p) -> 0 <= tally f l.
Proof. intros Hf. induction l as [|p l IH]; [done|]. cbn [tally foldr]. fold (tally f l). specialize (Hf p). lia. Qed.
Lemma tally_at f l i p : (forall p, 0 <= f p) -> l !! i = Some p -> f p <= tally f l.
Proof.
  intros Hf Hi. pose proof (tally_insert f l i p p Hi). rewrite list_insert_id in H by done.
  revert i Hi H. induction l as [|q l IH]; intros [|i] Hi H; simplify_eq/=; fold (tally f l) in *.
  - pose proof (tally_nonneg f l Hf). lia.
  - specialize (IH i Hi ltac:(lia)). specialize (Hf q). lia.
Qed.
(** Two threads are not more than all. *)
Lemma tally_two f l i j p q : (forall p, 0 <= f p) -> i <> j -> l !! i = Some p -> l !! j = Some q -> f p + f q <= tally f l.
Proof.
  intros Hf. revert i j. induction l as [|x l IH]; intros [|i] [|j] Hij Hi Hj; simplify_eq/=; fold (tally f l).
  - pose proof (tally_at f l j q Hf Hj). lia.
  - pose proof (tally_at f l i p Hf Hi). lia.
  - specialize (IH i j ltac:(congruence) Hi Hj). specialize (Hf x). lia.
Qed.
Lemma tally_zero f l : (forall p, 0 <= f p) -> tally f l = 0 <-> forall i p, l !! i = Some p -> f p = 0.
Proof.
  intros Hf. split.
  - intros H i p Hi. pose proof (tally_at f l i p Hf Hi). specialize (Hf p). lia.
  - induction l as [|q l IH]; intros H; [done|]. cbn [tally foldr]. fold (tally f l).
    rewrite IH, (H 0%nat q eq_refl); [done|]. intros i p Hi. by apply (H (S i)).
Qed.
Lemma tally_all f (P : A -> Prop) l :
  (forall p, 0 <= f p) -> (forall p, f p = 0 <-> P p) -> tally f l = 0 <-> forall i p, l !! i = Some p -> P p.
Proof. intros Hf HP. rewrite tally_zero by done. split; intros H i p Hi; apply HP; by eapply H. Qed.
Lemma tally_pos f l : (forall p, 0 <= f p) -> 0 < tally f l -> exists i p, l !! i = Some p /\ 0 < f p.
Proof.
  intros Hf. induction l as [|q l IH]; [done|]. cbn [tally foldr]. fold (tally f l). intros H.
  destruct (Z.eq_dec (f q) 0) as [E|E]; [|exists 0%nat, q; split; [done|]; specialize (Hf q); lia].
  destruct IH as (i & p & Hi & Hp); [lia|]. by exists (S i), p.
Qed.
Lemma tally_add f g l : tally (fun p => f p + g p) l = tally f l + tally g l.
Proof. induction l as [|p l IH]; [done|]. cbn [tally foldr]. fold (tally (fun p => f p + g p) l) (tally f l) (tally g l). lia. Qed.
Lemma tally_app f l l' : tally f (l ++ l') = tally f l + tally f l'.
Proof. induction l as [|p l IH]; [done|]. cbn [app tally foldr]. fold (tally f (l ++ l')) (tally f l). lia. Qed.
Lemma tally_sub f g l : tally (fun p => f p - g p) l = tally f l - tally g l.
Proof. induction l as [|p l IH]; [done|]. cbn [tally foldr]. fold (tally (fun p => f p - g p) l) (tally f l) (tally g l). lia. Qed.
Lemma tally_le f g l : (forall p, f p <= g p) -> tally f l <= tally g l.
Proof. intros H. induction l as [|p l IH]; [done|]. cbn [tally foldr]. fold (tally f l) (tally g l). specialize (H p). lia. Qed.
End tally.
