(* ===== verification/SpinLocks.v ===== *)
(** * SpinLocks: the spin locks of [src/util/locks_util.h]

    [RWSpinLock], [SpinMutex] and [SpinFreeLock], one atomic instruction at a time.  A
    thread keeps to the contract of the lock: it unlocks what it holds, and takes no lock
    while it holds one, except to upgrade.  The counters that decide when a spinning
    thread yields or pauses have no effect on the lock and are left out: a loop is its
    attempt, repeated. *)

From S2P Require Import Prelude Threads.
#[local] Open Scope Z_scope.
#[local] Open Scope mycc_scope.

(** ** [RWSpinLock] *)

Module RW.
Definition READER : Z := 4.
Definition UPGRADED : Z := 2.
Definition WRITER : Z := 1.

Definition fetch_add (d bits_ : Z) : Z := i32 (bits_ + d).

(** The new value of [bits_] and the answer. *)
Definition try_lock (bits_ : Z) : Z * bool := if bits_ =? 0 then (WRITER, true) else (bits_, false).
Definition unlock (bits_ : Z) : Z := bits_ .& Z.lnot (WRITER .| UPGRADED).
(** The first instruction of [try_lock_shared]; after a false answer comes the second. *)
Definition try_lock_shared (bits_ : Z) : Z * bool :=
  (fetch_add READER bits_, negb (negb (bits_ .& (WRITER .| UPGRADED) =? 0))).
Definition try_lock_shared_undo (bits_ : Z) : Z := fetch_add (- READER) bits_.
Definition unlock_shared (bits_ : Z) : Z := fetch_add (- READER) bits_.
(** The first instruction of [unlock_and_lock_shared]; the second is [unlock]. *)
Definition unlock_and_lock_shared (bits_ : Z) : Z := fetch_add READER bits_.
Definition try_lock_upgrade (bits_ : Z) : Z * bool := (bits_ .| UPGRADED, bits_ .& (UPGRADED .| WRITER) =? 0).
Definition unlock_upgrade (bits_ : Z) : Z := fetch_add (- UPGRADED) bits_.
Definition try_unlock_upgrade_and_lock (bits_ : Z) : Z * bool :=
  if bits_ =? UPGRADED then (WRITER, true) else (bits_, false).
Definition unlock_upgrade_and_lock_shared (bits_ : Z) : Z := fetch_add (READER - UPGRADED) bits_.
(** The two instructions of [unlock_and_lock_upgrade]. *)
Definition unlock_and_lock_upgrade (bits_ : Z) : Z := bits_ .| UPGRADED.
Definition unlock_and_lock_upgrade_add (bits_ : Z) : Z := fetch_add (- WRITER) bits_.

(** What a thread at rest holds. *)
Inductive hold := Free | Shared | Upgrade | Exclusive.
Inductive op :=
  | Lock | TryLock | Unlock | LockShared | TryLockShared | UnlockShared | UnlockAndLockShared
  | LockUpgrade | TryLockUpgrade | UnlockUpgrade | UnlockUpgradeAndLock | TryUnlockUpgradeAndLock
  | UnlockUpgradeAndLockShared | UnlockAndLockUpgrade.
(** Before an instruction; [loop] tells an attempt that is repeated until it succeeds. *)
Inductive pc :=
  | Rest (h : hold)
  | Attempt (loop : bool) | AttemptShared (loop : bool) | Undo (loop : bool) | AttemptUpgrade (loop : bool) | Promote (loop : bool)
  | Unlocking | UnlockingShared | UnlockingUpgrade | UpgradeToShared
  | AddReader | UnlockAdded   (** [unlock_and_lock_shared] *)
  | OrUpgraded | SubWriter.   (** [unlock_and_lock_upgrade] *)

Definition rw_begin (p : pc) (o : op) : option pc :=
  match p, o with
  | Rest Free, Lock => Some (Attempt true)
  | Rest Free, TryLock => Some (Attempt false)
  | Rest Exclusive, Unlock => Some Unlocking
  | Rest Free, LockShared => Some (AttemptShared true)
  | Rest Free, TryLockShared => Some (AttemptShared false)
  | Rest Shared, UnlockShared => Some UnlockingShared
  | Rest Exclusive, UnlockAndLockShared => Some AddReader
  | Rest Free, LockUpgrade => Some (AttemptUpgrade true)
  | Rest Free, TryLockUpgrade => Some (AttemptUpgrade false)
  | Rest Upgrade, UnlockUpgrade => Some UnlockingUpgrade
  | Rest Upgrade, UnlockUpgradeAndLock => Some (Promote true)
  | Rest Upgrade, TryUnlockUpgradeAndLock => Some (Promote false)
  | Rest Upgrade, UnlockUpgradeAndLockShared => Some UpgradeToShared
  | Rest Exclusive, UnlockAndLockUpgrade => Some OrUpgraded
  | _, _ => None
  end.

(** An attempt: at rest with the lock if it succeeded, again in a loop, or at rest without. *)
Definition attempted (loop : bool) (again : pc) (without with_ : hold) (a : Z * bool) : Z * pc * option bool :=
  let '(bits_, ok) := a in
  if ok then (bits_, Rest with_, Some true)
  else if loop then (bits_, again, None) else (bits_, Rest without, Some false).

Definition rw_move (p : pc) (bits_ : Z) : option (Z * pc * option bool) :=
  match p with
  | Rest _ => None
  | Attempt loop => Some (attempted loop (Attempt loop) Free Exclusive (try_lock bits_))
  | AttemptShared loop =>
      let '(bits_, ok) := try_lock_shared bits_ in
      Some (if ok then (bits_, Rest Shared, Some true) else (bits_, Undo loop, None))
  | Undo loop => Some (attempted loop (AttemptShared loop) Free Shared (try_lock_shared_undo bits_, false))
  | AttemptUpgrade loop => Some (attempted loop (AttemptUpgrade loop) Free Upgrade (try_lock_upgrade bits_))
  | Promote loop => Some (attempted loop (Promote loop) Upgrade Exclusive (try_unlock_upgrade_and_lock bits_))
  | Unlocking => Some (unlock bits_, Rest Free, Some true)
  | UnlockingShared => Some (unlock_shared bits_, Rest Free, Some true)
  | UnlockingUpgrade => Some (unlock_upgrade bits_, Rest Free, Some true)
  | UpgradeToShared => Some (unlock_upgrade_and_lock_shared bits_, Rest Shared, Some true)
  | AddReader => Some (unlock_and_lock_shared bits_, UnlockAdded, None)
  | UnlockAdded => Some (unlock bits_, Rest Shared, Some true)
  | OrUpgraded => Some (unlock_and_lock_upgrade bits_, SubWriter, None)
  | SubWriter => Some (unlock_and_lock_upgrade_add bits_, Rest Upgrade, Some true)
  end.
#[global] Instance rw_machine : Machine Z pc op bool := { begin := rw_begin; move _ := rw_move }.

(** The lock a thread holds while it is at [p]. *)
Definition holds (p : pc) : hold :=
  match p with
  | Rest h => h
  | Attempt _ | AttemptShared _ | Undo _ | AttemptUpgrade _ => Free
  | Promote _ | UnlockingUpgrade | UpgradeToShared => Upgrade
  | UnlockingShared => Shared
  | Unlocking | AddReader | UnlockAdded | OrUpgraded | SubWriter => Exclusive
  end.
End RW.

(** ** The word counts the holders *)

Section rw.
Import RW.

Definition readers (p : pc) : Z := match holds p with Shared => 1 | _ => 0 end.
Definition upgraders (p : pc) : Z := match holds p with Upgrade => 1 | _ => 0 end.
Definition writers (p : pc) : Z := match holds p with Exclusive => 1 | _ => 0 end.
(** The units of READER in the word that no reader stands for. *)
Definition extra (p : pc) : Z := match p with Undo _ | UnlockAdded => 1 | _ => 0 end.
Definition ored (p : pc) : Z := match p with SubWriter => 1 | _ => 0 end.
(** A reader about to give up. *)
Definition undoes (p : pc) : Z := match p with Undo _ => 1 | _ => 0 end.

(** One thread at most writes or may upgrade; a writer excludes readers; the UPGRADED bit is
    set for an upgrader, and otherwise only while there is a writer to clear it. *)
Definition rw_inv (bits_ : Z) (ps : list pc) : Prop :=
  exists u, 0 <= u <= 1 /\
    bits_ = 4 * (tally readers ps + tally extra ps) + 2 * u + tally writers ps /\
    tally writers ps + tally upgraders ps <= 1 /\
    (1 <= tally writers ps -> tally readers ps = 0) /\
    tally upgraders ps + tally ored ps <= u <= tally writers ps + tally upgraders ps.

Lemma word_add R c : 0 <= c < 4 -> 4 * R + c = Z.lor (R .<< 2) c.
Proof.
  intros Hc. rewrite lor_add_disjoint; [rewrite Z.shiftl_mul_pow2 by lia; lia|].
  rewrite <-(Z.mod_small c 4) by lia. change 4 with (2 ^ 2). Z.bitblast. by rewrite (Z.testbit_neg_r R) by lia.
Qed.
Lemma word_land3 R c : 0 <= c < 4 -> (4 * R + c) .& 3 = c.
Proof. intros Hc. change 3 with (Z.ones 2). rewrite Z.land_ones by lia. change (2 ^ 2) with 4. rewrite (Z.mul_comm 4), Z.add_comm, Z.mod_add, Z.mod_small by lia. lia. Qed.
Lemma word_clear R c : 0 <= c < 4 -> (4 * R + c) .& Z.lnot 3 = 4 * R.
Proof.
  intros Hc. rewrite <-Z.ldiff_land. change 3 with (Z.ones 2). rewrite Z.ldiff_ones_r by lia.
  rewrite Z.shiftl_mul_pow2, Z.shiftr_div_pow2 by lia. change (2 ^ 2) with 4.
  rewrite (Z.mul_comm 4 R), Z.div_add_l, Z.div_small by lia. lia.
Qed.
Lemma word_or2 R u w : 0 <= u <= 1 -> 0 <= w <= 1 -> (4 * R + 2 * u + w) .| 2 = 4 * R + 2 + w.
Proof.
  intros Hu Hw. rewrite <-!Z.add_assoc, (word_add R (2 * u + w)), (word_add R (2 + w)), <-Z.lor_assoc by lia. f_equal.
  assert (u = 0 \/ u = 1) as [-> | ->] by lia; assert (w = 0 \/ w = 1) as [-> | ->] by lia; done.
Qed.
Lemma swrap_small z : - 2 ^ 31 <= z < 2 ^ 31 -> i32 z = z.
Proof. intros Hz. unfold swrap. rewrite Z.mod_small; lia. Qed.

Lemma readers_bound p : 0 <= readers p <= 1.
Proof. unfold readers. case_match; lia. Qed.
Lemma upgraders_bound p : 0 <= upgraders p <= 1.
Proof. unfold upgraders. case_match; lia. Qed.
Lemma writers_bound p : 0 <= writers p <= 1.
Proof. unfold writers. case_match; lia. Qed.
Lemma extra_bound p : 0 <= extra p <= 1.
Proof. unfold extra. case_match; lia. Qed.
Lemma ored_bound p : 0 <= ored p <= 1.
Proof. unfold ored. case_match; lia. Qed.
Definition readers_pos p : 0 <= readers p := proj1 (readers_bound p).
Definition upgraders_pos p : 0 <= upgraders p := proj1 (upgraders_bound p).
Definition writers_pos p : 0 <= writers p := proj1 (writers_bound p).
Definition extra_pos p : 0 <= extra p := proj1 (extra_bound p).
Definition ored_pos p : 0 <= ored p := proj1 (ored_bound p).

(** The word never leaves the range of [int32_t]. *)
Lemma rw_word_range bits_ ps : rw_inv bits_ ps -> Z.of_nat (length ps) < 2 ^ 29 ->
  0 <= tally readers ps + tally extra ps <= Z.of_nat (length ps) /\ 0 <= bits_ < 2 ^ 31.
Proof.
  intros (u & Hu & -> & Hx & _) Hn. rewrite <-tally_add.
  pose proof (tally_bounds (fun p => readers p + extra p) ps) as Hr. specialize (Hr ltac:(intros []; unfold readers, extra, holds; repeat case_match; try lia; done)).
  pose proof (tally_nonneg writers ps writers_pos).
  pose proof (tally_nonneg upgraders ps upgraders_pos). lia.
Qed.

(** A writer that gives its lock up for an upgrade is a writer. *)
Lemma sub_writers ps i p : ps !! i = Some p -> writers p - ored p + tally ored ps <= tally writers ps.
Proof.
  intros Hi. pose proof (tally_at (fun p => writers p - ored p) ps i p) as H. rewrite tally_sub in H.
  specialize (H ltac:(intros []; unfold writers, ored, holds; repeat case_match; lia) Hi). cbv beta in H. lia.
Qed.

(** The sums after the step of one thread, and what the thread was counted as before. *)
Ltac tallies ps i Hi :=
  rewrite ?(tally_insert _ _ _ _ _ Hi);
  pose proof (tally_at readers ps i _ readers_pos Hi); pose proof (tally_at upgraders ps i _ upgraders_pos Hi);
  pose proof (tally_at writers ps i _ writers_pos Hi); pose proof (tally_at extra ps i _ extra_pos Hi);
  pose proof (tally_at ored ps i _ ored_pos Hi); pose proof (sub_writers ps i _ Hi); cbn [readers upgraders writers extra ored holds] in *.

Lemma rw_begin_inv i p o p' bits_ ps : rw_inv bits_ ps -> ps !! i = Some p -> rw_begin p o = Some p' -> rw_inv bits_ (<[i := p']> ps).
Proof.
  intros (u & Hu & E & H1 & H2 & H3) Hi Hb. exists u. split; [done|].
  destruct p as [[]| | | | | | | | | | | | |]; destruct o; try done; injection Hb as <-; tallies ps i Hi; lia.
Qed.

(** The instructions on a word of [R] units of READER and the two bits. *)
Section word.
Context (R u w : Z) (Hu : 0 <= u <= 1) (Hw : 0 <= w <= 1) (HR : 0 <= R < 2 ^ 29 - 1).

Lemma word_answer : (4 * R + 2 * u + w) .& 3 = 2 * u + w.
Proof. rewrite <-Z.add_assoc. apply word_land3. lia. Qed.
Lemma word_unlock : unlock (4 * R + 2 * u + w) = 4 * R.
Proof. unfold unlock. change (WRITER .| UPGRADED) with 3. rewrite <-Z.add_assoc. apply word_clear. lia. Qed.
Lemma word_fetch_add d : - 4 <= d <= 4 -> fetch_add d (4 * R + 2 * u + w) = 4 * R + 2 * u + w + d.
Proof. intros. apply swrap_small. lia. Qed.
End word.

(** Every instruction keeps the invariant. *)
Lemma rw_move_inv i p bits_ bits' p' r ps : Z.of_nat (length ps) < 2 ^ 29 - 1 ->
  rw_inv bits_ ps -> ps !! i = Some p -> rw_move p bits_ = Some (bits', p', r) -> rw_inv bits' (<[i := p']> ps).
Proof.
  intros Hn HI Hi Hm. destruct (rw_word_range _ _ HI ltac:(lia)) as [HR Hb]. destruct HI as (u & Hu & E & H1 & H2 & H3).
  pose proof (tally_nonneg writers ps writers_pos) as Hw. pose proof (tally_nonneg upgraders ps upgraders_pos) as Hg.
  pose proof (tally_nonneg ored ps ored_pos) as Ho. pose proof (tally_nonneg readers ps readers_pos) as Hr.
  pose proof (tally_nonneg extra ps extra_pos) as Hx.
  unfold rw_inv. assert (Hw1 : 0 <= tally writers ps <= 1) by lia.
  assert (HR1 : 0 <= tally readers ps + tally extra ps < 2 ^ 29 - 1) by lia.
  pose proof (word_answer (tally readers ps + tally extra ps) u _ Hu Hw1) as HA.
  pose proof (word_unlock (tally readers ps + tally extra ps) u _ Hu Hw1) as HU.
  pose proof (word_fetch_add _ u _ Hu Hw1 HR1) as HF.
  pose proof (word_or2 (tally readers ps + tally extra ps) u _ Hu Hw1) as HO. rewrite <-E in *.
  destruct p as [[]|loop|loop|loop|loop|loop| | | | | | | |]; try done; cbn [rw_move] in Hm.
  - unfold try_lock, WRITER in Hm. destruct (Z.eqb_spec bits_ 0); [|destruct loop]; cbn in Hm; injection Hm as <- <- <-; tallies ps i Hi.
    + exists 0. lia.
    + exists u. lia.
    + exists u. lia.
  - unfold try_lock_shared in Hm. change (WRITER .| UPGRADED) with 3 in Hm. unfold READER in Hm. rewrite HA, HF, negb_involutive in Hm by lia.
    destruct (Z.eqb_spec (2 * u + tally writers ps) 0); injection Hm as <- <- <-; tallies ps i Hi; exists u; lia.
  - unfold try_lock_shared_undo, READER in Hm. rewrite HF in Hm by lia. destruct loop; cbn in Hm; injection Hm as <- <- <-; tallies ps i Hi; exists u; lia.
  - unfold try_lock_upgrade in Hm. change (UPGRADED .| WRITER) with 3 in Hm. unfold UPGRADED in Hm. rewrite HA, HO in Hm by lia.
    destruct (Z.eqb_spec (2 * u + tally writers ps) 0); [|destruct loop]; cbn in Hm; injection Hm as <- <- <-; tallies ps i Hi; exists 1; lia.
  - unfold try_unlock_upgrade_and_lock, UPGRADED, WRITER in Hm. destruct (Z.eqb_spec bits_ 2); [|destruct loop]; cbn in Hm; injection Hm as <- <- <-; tallies ps i Hi.
    + exists 0. lia.
    + exists u. lia.
    + exists u. lia.
  - rewrite HU in Hm. injection Hm as <- <- <-. tallies ps i Hi. exists 0. lia.
  - unfold unlock_shared, READER in Hm. rewrite HF in Hm by lia. injection Hm as <- <- <-. tallies ps i Hi. exists u. lia.
  - unfold unlock_upgrade, UPGRADED in Hm. rewrite HF in Hm by lia. injection Hm as <- <- <-. tallies ps i Hi. exists 0. lia.
  - unfold unlock_upgrade_and_lock_shared, READER, UPGRADED in Hm. rewrite HF in Hm by lia. injection Hm as <- <- <-. tallies ps i Hi. exists 0. lia.
  - unfold unlock_and_lock_shared, READER in Hm. rewrite HF in Hm by lia. injection Hm as <- <- <-. tallies ps i Hi. exists u. lia.
  - rewrite HU in Hm. injection Hm as <- <- <-. tallies ps i Hi. exists 0. lia.
  - unfold unlock_and_lock_upgrade, UPGRADED in Hm. rewrite HO in Hm. injection Hm as <- <- <-. tallies ps i Hi. exists 1. lia.
  - unfold unlock_and_lock_upgrade_add, WRITER in Hm. rewrite HF in Hm by lia. injection Hm as <- <- <-. tallies ps i Hi. exists u. lia.
Qed.

Lemma rw_reachable n st : Z.of_nat n < 2 ^ 29 - 1 -> reachable (start 0 n (Rest Free)) st ->
  rw_inv (word st) (threads st) /\ Z.of_nat (length (threads st)) < 2 ^ 29 - 1.
Proof.
  intros Hn Hr. pose proof (reachable_length _ _ Hr) as Hl. cbn [start threads] in Hl. rewrite length_replicate in Hl. split; [|by rewrite Hl].
  assert (H : rw_inv (word st) (threads st) /\ length (threads st) = n); [|by destruct H].
  apply (reachable_invariant (fun w ps _ => rw_inv w ps /\ length ps = n) (start 0 n (Rest Free)) st); [| | |done].
  - split; [|apply length_replicate]. exists 0. cbn [start word threads]. rewrite !tally_replicate. cbn [readers upgraders writers extra ored holds]. lia.
  - intros i p op p' w ps _ [HI Hlen] Hi Hb. rewrite length_insert. split; [by eapply rw_begin_inv|done].
  - intros i p b w w' p' r ps _ [HI Hlen] Hi Hm. rewrite length_insert. split; [eapply rw_move_inv; [lia|done..]|done].
Qed.

(** Which locks two threads may hold at a time. *)
Definition compatible (h h' : hold) : bool :=
  match h, h' with
  | Free, _ | _, Free | Shared, Shared | Shared, Upgrade | Upgrade, Shared => true
  | _, _ => false
  end.

Lemma extra_undoes ps : tally undoes ps <= tally extra ps <= tally undoes ps + tally writers ps.
Proof.
  split; [apply tally_le; by intros []|]. rewrite <-tally_add. apply tally_le. intros []; unfold extra, undoes, writers; repeat case_match; done.
Qed.
End rw.

(** C35. [RWSpinLock] with fewer than 2^29 - 1 threads, in every reachable state: two threads hold
    locks only if both read, or one reads and one may upgrade; the word stays within
    [int32_t], and is 0 when every thread is at rest without a lock. *)
Theorem rw_spin_lock_excludes (n : nat) (st : system Z RW.pc bool) :
  Z.of_nat n < 2 ^ 29 - 1 -> reachable (start 0 n (RW.Rest RW.Free)) st ->
  (forall i j p q, i <> j -> threads st !! i = Some p -> threads st !! j = Some q -> compatible (RW.holds p) (RW.holds q) = true) /\
  0 <= word st < 2 ^ 31 /\
  (Forall (eq (RW.Rest RW.Free)) (threads st) -> word st = 0).
Proof.
  intros Hn Hr. destruct (rw_reachable n st Hn Hr) as [HI Hlen]. destruct (rw_word_range _ _ HI ltac:(lia)) as [HR Hb].
  destruct HI as (u & Hu & E & H1 & H2 & H3). pose proof (tally_nonneg upgraders (threads st) upgraders_pos) as Hg.
  pose proof (tally_nonneg writers (threads st) writers_pos) as Hw. split; [|split; [done|]].
  - intros i j p q Hij Hi Hj. pose proof (tally_two (fun p => writers p + upgraders p) (threads st) i j p q) as H12.
    rewrite tally_add in H12. specialize (H12 ltac:(intros x; pose proof (writers_pos x); pose proof (upgraders_pos x); lia) Hij Hi Hj). cbv beta in H12.
    pose proof (tally_at writers (threads st) i p writers_pos Hi) as Hwi. pose proof (tally_at writers (threads st) j q writers_pos Hj) as Hwj.
    pose proof (tally_at readers (threads st) i p readers_pos Hi) as Hri. pose proof (tally_at readers (threads st) j q readers_pos Hj) as Hrj.
    unfold writers, upgraders, readers in *. destruct (RW.holds p), (RW.holds q); cbn [compatible]; try done; lia.
  - intros HF. assert (Hz : forall f, (forall p, 0 <= f p) -> f (RW.Rest RW.Free) = 0 -> tally f (threads st) = 0).
    { intros f Hf Hz. apply tally_zero; [done|]. intros j q Hj. rewrite Forall_lookup in HF. by rewrite <-(HF _ _ Hj). }
    rewrite (Hz writers writers_pos), (Hz upgraders upgraders_pos) in * by done. rewrite (Hz readers readers_pos), (Hz extra extra_pos) in E by done. lia.
Qed.

(** When an attempt fails, and nothing else makes it fail: [try_lock] needs every thread to
    hold nothing and none to be about to take back a failed [try_lock_shared]; a shared or
    upgradable lock needs the absence of a writer and an upgrader; an upgrade the absence
    of readers and of threads about to take back. *)
Theorem rw_spin_lock_answers (n : nat) (st : system Z RW.pc bool) :
  Z.of_nat n < 2 ^ 29 - 1 -> reachable (start 0 n (RW.Rest RW.Free)) st ->
  let all (P : RW.pc -> Prop) := forall j q, threads st !! j = Some q -> P q in
  ((RW.try_lock (word st)).2 = true <-> all (fun q => RW.holds q = RW.Free /\ forall loop, q <> RW.Undo loop)) /\
  ((RW.try_lock_shared (word st)).2 = true <-> all (fun q => RW.holds q <> RW.Exclusive /\ RW.holds q <> RW.Upgrade)) /\
  ((RW.try_lock_upgrade (word st)).2 = true <-> all (fun q => RW.holds q <> RW.Exclusive /\ RW.holds q <> RW.Upgrade)) /\
  (forall i p, threads st !! i = Some p -> RW.holds p = RW.Upgrade ->
     (RW.try_unlock_upgrade_and_lock (word st)).2 = true <-> all (fun q => RW.holds q <> RW.Shared /\ forall loop, q <> RW.Undo loop)).
Proof.
  intros Hn Hr all. destruct (rw_reachable n st Hn Hr) as [HI Hlen]. destruct (rw_word_range _ _ HI ltac:(lia)) as [HR Hb].
  destruct HI as (u & Hu & E & H1 & H2 & H3). set (ps := threads st) in *.
  pose proof (tally_nonneg upgraders ps upgraders_pos) as Hg. pose proof (tally_nonneg writers ps writers_pos) as Hw.
  pose proof (tally_nonneg readers ps readers_pos) as Hr'. pose proof (tally_nonneg extra ps extra_pos) as Hx.
  pose proof (tally_nonneg ored ps ored_pos) as Ho.
  assert (HA : word st .& 3 = 2 * u + tally writers ps) by (rewrite E; apply word_answer; lia).
  assert (HS : 2 * u + tally writers ps = 0 <-> all (fun q => RW.holds q <> RW.Exclusive /\ RW.holds q <> RW.Upgrade)).
  { transitivity (tally (fun q => writers q + upgraders q) ps = 0); [rewrite tally_add; lia|apply tally_all].
    - intros q. pose proof (writers_pos q). pose proof (upgraders_pos q). lia.
    - intros q. unfold writers, upgraders. destruct (RW.holds q); split; try done; by intros []. }
  split; [|split; [|split]].
  - transitivity (tally (fun q => readers q + upgraders q + (writers q + extra q)) ps = 0).
    + rewrite !tally_add. unfold RW.try_lock. destruct (Z.eqb_spec (word st) 0); cbn [snd]; split; try done; lia.
    + apply tally_all; [intros q; pose proof (readers_pos q); pose proof (upgraders_pos q); pose proof (writers_pos q); pose proof (extra_pos q); lia|].
      intros q. unfold readers, upgraders, writers. destruct q as [[]| | | | | | | | | | | | |]; cbn [RW.holds extra]; split; try done; try (by intros []; congruence). intros [_ Hq]. by destruct (Hq loop).
  - rewrite <-HS. unfold RW.try_lock_shared. change (RW.WRITER .| RW.UPGRADED) with 3. rewrite HA, negb_involutive. cbn [snd]. apply Z.eqb_eq.
  - rewrite <-HS. unfold RW.try_lock_upgrade. change (RW.UPGRADED .| RW.WRITER) with 3. rewrite HA. cbn [snd]. apply Z.eqb_eq.
  - intros i p Hi Hp. pose proof (tally_at upgraders ps i p upgraders_pos Hi) as Hup. unfold upgraders at 1 in Hup. rewrite Hp in Hup.
    pose proof (extra_undoes ps). transitivity (tally (fun q => readers q + undoes q) ps = 0).
    + rewrite tally_add. unfold RW.try_unlock_upgrade_and_lock, RW.UPGRADED. destruct (Z.eqb_spec (word st) 2); cbn [snd]; split; try done; lia.
    + apply tally_all; [intros q; pose proof (readers_pos q); assert (0 <= undoes q) by (by destruct q); lia|].
      intros q. unfold readers. destruct q as [[]| | | | | | | | | | | | |]; cbn [RW.holds undoes]; split; try done; try (by intros []; congruence). intros [_ Hq]. by destruct (Hq loop).
Qed.

(** ** [SpinMutex] and [SpinFreeLock] *)

Module Mutex.
(** The two instructions of [SpinMutex::try_lock]: the load, and the compare-and-swap that may
    fail although the lock is free. *)
Definition try_lock_load (locked_ : bool) : bool := negb locked_.
Definition try_lock_cas (spurious locked_ : bool) : bool * bool :=
  if negb locked_ && negb spurious then (true, true) else (locked_, false).
Definition unlock (locked_ : bool) : bool := false.

Inductive op := Lock | TryLock | Unlock.
Inductive pc := Rest (held : bool) | Load (loop : bool) | Cas (loop : bool) | Unlocking.
Definition mutex_begin (p : pc) (o : op) : option pc :=
  match p, o with
  | Rest false, Lock => Some (Load true)
  | Rest false, TryLock => Some (Load false)
  | Rest true, Unlock => Some Unlocking
  | _, _ => None
  end.
Definition failed (loop locked_ : bool) : bool * pc * option bool :=
  if loop then (locked_, Load loop, None) else (locked_, Rest false, Some false).
Definition mutex_move (spurious : bool) (p : pc) (locked_ : bool) : option (bool * pc * option bool) :=
  match p with
  | Rest _ => None
  | Load loop => Some (if try_lock_load locked_ then (locked_, Cas loop, None) else failed loop locked_)
  | Cas loop =>
      let '(locked_, ok) := try_lock_cas spurious locked_ in
      Some (if ok then (locked_, Rest true, Some true) else failed loop locked_)
  | Unlocking => Some (unlock locked_, Rest false, Some true)
  end.
#[global] Instance mutex_machine : Machine bool pc op bool := { begin := mutex_begin; move := mutex_move }.
Definition owner (p : pc) : Z := match p with Rest true | Unlocking => 1 | _ => 0 end.
End Mutex.

Module FreeLock.
(** [trylock] returns whether the word was 0. *)
Definition trylock (state_ : Z) : Z * bool := if state_ =? 0 then (1, true) else (state_, false).
Definition unlock (state_ : Z) : Z := 0.

Inductive op := Lock | TryLock | Unlock.
Inductive pc := Rest (held : bool) | Try (loop : bool) | Unlocking.
Definition free_begin (p : pc) (o : op) : option pc :=
  match p, o with
  | Rest false, Lock => Some (Try true)
  | Rest false, TryLock => Some (Try false)
  | Rest true, Unlock => Some Unlocking
  | _, _ => None
  end.
Definition free_move (p : pc) (state_ : Z) : option (Z * pc * option bool) :=
  match p with
  | Rest _ => None
  | Try loop =>
      let '(state_, ok) := trylock state_ in
      Some (if ok then (state_, Rest true, Some true) else if loop then (state_, Try loop, None) else (state_, Rest false, Some false))
  | Unlocking => Some (unlock state_, Rest false, Some true)
  end.
#[global] Instance free_machine : Machine Z pc op bool := { begin := free_begin; move _ := free_move }.
Definition owner (p : pc) : Z := match p with Rest true | Unlocking => 1 | _ => 0 end.
End FreeLock.

(** A lock whose word is the number of its owners. *)
Lemma one_owner {A} (f : A -> Z) ps i j p q : (forall p, 0 <= f p <= 1) -> tally f ps <= 1 ->
  i <> j -> ps !! i = Some p -> ps !! j = Some q -> f p = 1 -> f q = 0.
Proof.
  intros Hf Ht Hij Hi Hj Hp. pose proof (tally_two f ps i j p q ltac:(intros x; apply Hf) Hij Hi Hj). pose proof (Hf q). lia.
Qed.

Lemma mutex_reachable n st : reachable (start false n (Mutex.Rest false)) st -> tally Mutex.owner (threads st) = Z.b2z (word st).
Proof.
  intros Hr. apply (reachable_invariant (fun w ps _ => tally Mutex.owner ps = Z.b2z w) (start false n (Mutex.Rest false)) st); [| | |done].
  - cbn [start word threads]. by rewrite tally_replicate, Z.mul_0_r.
  - intros i p op p' w ps _ HI Hi Hb. rewrite (tally_insert _ _ _ _ _ Hi). destruct p as [[]| | |], op; try done; injection Hb as <-; cbn [Mutex.owner] in *; lia.
  - intros i p b w w' p' r ps _ HI Hi Hm. rewrite (tally_insert _ _ _ _ _ Hi).
    pose proof (tally_at Mutex.owner ps i p ltac:(by intros [[]| | |]) Hi) as Hat.
    destruct p as [[]|[]|[]|], w, b; try done; injection Hm as <- <- <-; cbn [Mutex.owner Mutex.unlock Z.b2z] in *; lia.
Qed.

Lemma free_reachable n st : reachable (start 0 n (FreeLock.Rest false)) st -> tally FreeLock.owner (threads st) = word st /\ 0 <= word st <= 1.
Proof.
  intros Hr. apply (reachable_invariant (fun w ps _ => tally FreeLock.owner ps = w /\ 0 <= w <= 1) (start 0 n (FreeLock.Rest false)) st); [| | |done].
  - cbn [start word threads]. rewrite tally_replicate, Z.mul_0_r. done.
  - intros i p op p' w ps _ [HI Hw] Hi Hb. rewrite (tally_insert _ _ _ _ _ Hi). destruct p as [[]| |], op; try done; injection Hb as <-; cbn [FreeLock.owner] in *; lia.
  - intros i p b w w' p' r ps _ [HI Hw] Hi Hm. rewrite (tally_insert _ _ _ _ _ Hi).
    pose proof (tally_at FreeLock.owner ps i p ltac:(by intros [[]| |]) Hi) as Hat.
    destruct p as [[]|loop|]; try done; cbn [move FreeLock.free_machine FreeLock.free_move] in Hm.
    + unfold FreeLock.trylock in Hm. destruct (Z.eqb_spec w 0); [|destruct loop]; injection Hm as <- <- <-; cbn [FreeLock.owner] in *; lia.
    + injection Hm as <- <- <-. cbn [FreeLock.owner] in *. unfold FreeLock.unlock. lia.
Qed.

(** [SpinMutex]: one thread at most holds the lock; the flag says whether one does, so that
    a thread gets through when nobody holds it and the compare-and-swap does its work. *)
Theorem spin_mutex_excludes (n : nat) (st : system bool Mutex.pc bool) : reachable (start false n (Mutex.Rest false)) st ->
  (forall i j p q, i <> j -> threads st !! i = Some p -> threads st !! j = Some q -> Mutex.owner p = 1 -> Mutex.owner q = 0) /\
  (word st = true <-> exists i p, threads st !! i = Some p /\ Mutex.owner p = 1) /\
  (forall i loop, threads st !! i = Some (Mutex.Load loop) -> (forall j q, threads st !! j = Some q -> Mutex.owner q = 0) ->
     exists st', run [Move i false; Move i false] st = Some st' /\ threads st' !! i = Some (Mutex.Rest true)).
Proof.
  intros Hr. pose proof (mutex_reachable n st Hr) as HI. assert (Hf : forall p, 0 <= Mutex.owner p <= 1) by (intros [[]| | |]; cbn; lia).
  assert (Hp : forall p, 0 <= Mutex.owner p) by (intros p; apply Hf). split; [|split].
  - intros i j p q. apply (one_owner Mutex.owner); [done|]. rewrite HI. destruct (word st); cbn; lia.
  - split.
    + intros Ew. rewrite Ew in HI. destruct (tally_pos Mutex.owner (threads st) Hp ltac:(cbn in HI; lia)) as (i & p & Hi & H).
      exists i, p. specialize (Hf p). split; [done|lia].
    + intros (i & p & Hi & H). pose proof (tally_at _ _ i p Hp Hi). destruct (word st); [done|]. cbn in HI. lia.
  - intros i loop Hi Hall. assert (Ew : word st = false).
    { rewrite <-(tally_zero Mutex.owner (threads st) Hp) in Hall. destruct (word st); [|done]. cbn in HI. lia. }
    destruct st as [w ps l]. cbn [word threads] in *. subst w. eexists. cbn [run step threads]. rewrite Hi. cbn.
    rewrite list_lookup_insert_eq by (by eapply lookup_lt_Some). cbn. split; [reflexivity|].
    cbn [threads]. rewrite list_insert_insert_eq. apply list_lookup_insert_eq. by eapply lookup_lt_Some.
Qed.

(** [SpinFreeLock]: one thread at most holds the lock, and an attempt succeeds exactly when
    none does. *)
Theorem spin_free_lock_excludes (n : nat) (st : system Z FreeLock.pc bool) : reachable (start 0 n (FreeLock.Rest false)) st ->
  (forall i j p q, i <> j -> threads st !! i = Some p -> threads st !! j = Some q -> FreeLock.owner p = 1 -> FreeLock.owner q = 0) /\
  ((FreeLock.trylock (word st)).2 = true <-> forall j q, threads st !! j = Some q -> FreeLock.owner q = 0).
Proof.
  intros Hr. destruct (free_reachable n st Hr) as [HI Hw]. assert (Hf : forall p, 0 <= FreeLock.owner p <= 1) by (intros [[]| |]; cbn; lia).
  split.
  - intros i j p q. apply (one_owner FreeLock.owner); [done|lia].
  - rewrite <-(tally_zero FreeLock.owner) by (intros p; apply Hf). rewrite HI. unfold FreeLock.trylock. by destruct (Z.eqb_spec (word st) 0).
Qed.

(** ** Examples *)

(** A reader, a writer that fails on the transient unit of a second reader, an upgrade and a
    downgrade. *)
Definition rw_run : list (event RW.op) :=
  [Begin 0 RW.LockUpgrade; Move 0 false; Begin 1 RW.TryLockShared; Move 1 false; Begin 0 RW.TryUnlockUpgradeAndLock; Move 0 false;
   Move 1 false; Begin 0 RW.UnlockUpgradeAndLock; Move 0 false; Begin 1 RW.LockUpgrade; Move 1 false; Begin 0 RW.UnlockAndLockShared;
   Move 0 false; Move 0 false; Move 1 false].
Lemma rw_spin_lock_excludes_witness : exists st, run rw_run (start 0 2 (RW.Rest RW.Free)) = Some st /\
  word st = 6 /\ threads st = [RW.Rest RW.Shared; RW.Rest RW.Upgrade] /\ log st = [true; false; false; true; true; true] /\ 0 <= word st < 2 ^ 31.
Proof.
  destruct (run rw_run (start 0 2 (RW.Rest RW.Free))) as [st|] eqn:E; [|by vm_compute in E]. exists st. split; [done|].
  pose proof (rw_spin_lock_excludes 2 st ltac:(done) (run_is_reachable _ _ _ _ (reachable_start _) E)) as (_ & Hb & _).
  vm_compute in E. injection E as <-. done.
Defined.

Lemma rw_spin_lock_answers_witness : exists st, run (take 4 rw_run) (start 0 2 (RW.Rest RW.Free)) = Some st /\
  (RW.try_lock (word st)).2 = false /\ RW.holds <$> threads st = [RW.Upgrade; RW.Free] /\
  ~ (forall j q, threads st !! j = Some q -> RW.holds q <> RW.Exclusive /\ RW.holds q <> RW.Upgrade).
Proof.
  destruct (run (take 4 rw_run) (start 0 2 (RW.Rest RW.Free))) as [st|] eqn:E; [|by vm_compute in E]. exists st. split; [done|].
  pose proof (rw_spin_lock_answers 2 st ltac:(done) (run_is_reachable _ _ _ _ (reachable_start _) E)) as (_ & Hs & _).
  vm_compute in E. injection E as <-. split; [done|]. split; [done|]. intros Hall. apply Hs in Hall. done.
Defined.

Definition mutex_run : list (event Mutex.op) :=
  [Begin 0 Mutex.Lock; Begin 1 Mutex.Lock; Move 0 false; Move 1 false; Move 0 true; Move 0 false; Move 0 false; Move 1 false; Move 1 false].
Lemma spin_mutex_excludes_witness : exists st, run mutex_run (start false 2 (Mutex.Rest false)) = Some st /\
  threads st = [Mutex.Rest true; Mutex.Load true] /\ Mutex.owner (Mutex.Load true) = 0.
Proof.
  destruct (run mutex_run (start false 2 (Mutex.Rest false))) as [st|] eqn:E; [|by vm_compute in E]. exists st. split; [done|].
  pose proof (spin_mutex_excludes 2 st (run_is_reachable _ _ _ _ (reachable_start _) E)) as (H & _). vm_compute in E. injection E as <-.
  split; [done|]. exact (H 0%nat 1%nat _ _ ltac:(done) eq_refl eq_refl eq_refl).
Defined.

Lemma spin_free_lock_excludes_witness : exists st,
  run [Begin 0 FreeLock.Lock; Move 0 false; Begin 1 FreeLock.TryLock; Move 1 false] (start 0 2 (FreeLock.Rest false)) = Some st /\
  log st = [true; false] /\ (FreeLock.trylock (word st)).2 = false /\ FreeLock.owner (FreeLock.Rest false) = 0.
Proof.
  destruct (run _ (start 0 2 (FreeLock.Rest false))) as [st|] eqn:E; [|by vm_compute in E]. exists st. split; [done|].
  pose proof (spin_free_lock_excludes 2 st (run_is_reachable _ _ _ _ (reachable_start _) E)) as (H & _). vm_compute in E. injection E as <-.
  split; [done|]. split; [done|]. exact (H 0%nat 1%nat _ _ ltac:(done) eq_refl eq_refl eq_refl).
Defined.
