(* ===== verification/LightSemaphore.v ===== *)
(** * LightSemaphore: [LightSemaphore] and [AutoResetFreeEvent] of [src/util/locks_util.h]

    A counter in an atomic integer, with a semaphore of the system behind it that is used
    only when a thread has to block.  One atomic instruction, or one call of the system's
    semaphore, is a step; the threads interleave freely.  A call that waits for the system can
    be interrupted by a signal handler: the source takes that for a unit. *)

From S2P Require Import Prelude Threads.
#[local] Open Scope Z_scope.
#[local] Open Scope mycc_scope.

(** The system's semaphore ([sem_t]).  [sem_post] adds a unit, or fails with [EOVERFLOW] and
    adds none when there are [SEM_VALUE_MAX]; the source does not look at its result.
    [sem_wait] takes a unit, and blocks ([None]) when there is none; it can also fail with
    [EINTR] and take none, which is a step of its own ([Light.sema_wait]). *)
Definition SEM_VALUE_MAX : Z := 2 ^ 31 - 1.
Class SystemSemaphore (K : Type) := {
  sem_new : K;
  sem_post : K -> K;
  sem_wait : K -> option K;
  sem_value : K -> Z;
  sem_value_new : sem_value sem_new = 0;
  sem_value_range k : 0 <= sem_value k <= SEM_VALUE_MAX;
  sem_value_post k : sem_value (sem_post k) = Z.min (sem_value k + 1) SEM_VALUE_MAX;
  sem_value_wait k k' : sem_wait k = Some k' -> sem_value k' = sem_value k - 1;
  sem_wait_blocks k : sem_wait k = None -> sem_value k = 0 }.

Module Light.
Section light.
Context {K : Type} `{SK : !SystemSemaphore K}.

(** [m_interrupts] is not in the source: it counts the waits for the semaphore of the system that
    a signal handler cut short. *)
Record light := { m_count : Z; m_sema : K; m_interrupts : Z }.

Inductive op := TryWait | Wait | TryWaitMany (max : Z) | WaitMany (max : Z) | Signal (count : Z) | AvailableApprox.

(** What a loop of [tryWait] or [tryWaitMany] was called for: by the client, at the start of
    [wait] and [waitMany], and, for [GMore], [tryWaitMany(max - 1)] at the end of
    [waitMany(max)]. *)
Inductive goal := GTry | GWait | GTryMany (max : Z) | GWaitMany (max : Z) | GMore (max : Z).
Inductive pc :=
  | Rest
  | TryLoad (g : goal) | TryCas (g : goal) (oldCount : Z)
  | SpinLoad (g : goal) (spin : Z) | SpinCas (g : goal) (spin oldCount : Z)
  | Sub (g : goal) | Block (g : goal)
  | Add (count : Z) | Posting (count toRelease : Z)
  | LoadApprox.

Definition light_begin (p : pc) (o : op) : option pc :=
  match p with
  | Rest =>
      match o with
      | TryWait => Some (TryLoad GTry)
      | Wait => Some (TryLoad GWait)
      | TryWaitMany max => if max >=? 0 then Some (TryLoad (GTryMany max)) else None
      | WaitMany max => if max >=? 0 then Some (TryLoad (GWaitMany max)) else None
      | Signal count => if count >=? 0 then Some (Add count) else None
      | AvailableApprox => Some LoadApprox
      end
  | _ => None
  end.

(** The count that [tryWait] and [tryWaitMany] leave of [oldCount]. *)
Definition left_of (g : goal) (oldCount : Z) : Z :=
  match g with
  | GTry | GWait => oldCount - 1
  | GTryMany max | GWaitMany max => if oldCount >? max then oldCount - max else 0
  | GMore max => if oldCount >? max - 1 then oldCount - (max - 1) else 0
  end.

(** [while (spin--)]. *)
Definition spinning (g : goal) (spin : Z) : pc := if spin =? 0 then Sub g else SpinLoad g (spin - 1).
(** After the loop of [tryWait] or [tryWaitMany] took [result] units. *)
Definition tried (g : goal) (result : Z) : pc * option (op * Z) :=
  match g with
  | GTry => (Rest, Some (TryWait, result))
  | GWait => if negb (result =? 0) then (Rest, Some (Wait, result)) else (spinning GWait 10000, None)
  | GTryMany max => (Rest, Some (TryWaitMany max, result))
  | GWaitMany max => if (result =? 0) && (max >? 0) then (spinning g 10000, None) else (Rest, Some (WaitMany max, result))
  | GMore max => (Rest, Some (WaitMany max, 1 + result))
  end.
(** [waitWithPartialSpinning] and [waitManyWithPartialSpinning] once a unit is there. *)
Definition unblocked (g : goal) : pc * option (op * Z) :=
  match g with
  | GWaitMany max => if max >? 1 then (TryLoad (GMore max), None) else (Rest, Some (WaitMany max, 1))
  | _ => (Rest, Some (Wait, 1))
  end.
Definition spun (g : goal) (result : Z) : pc * option (op * Z) :=
  match g with GWaitMany max => (Rest, Some (WaitMany max, result)) | _ => (Rest, Some (Wait, 1)) end.
(** [m_sema.post(toRelease)] posts one unit at a time. *)
Definition posting (count toRelease : Z) : pc * option (op * Z) :=
  if toRelease >? 0 then (Posting count toRelease, None) else (Rest, Some (Signal count, 0)).

Definition set_count (n : Z) (s : light) : light := {| m_count := n; m_sema := m_sema s; m_interrupts := m_interrupts s |}.
Definition set_sema (k : K) (s : light) : light := {| m_count := m_count s; m_sema := k; m_interrupts := m_interrupts s |}.

(** [m_sema.wait()], which ignores the result of [sem_wait]: interrupted, it returns like a
    wait that took a unit. *)
Definition sema_wait (interrupted : bool) (s : light) : option light :=
  if interrupted then Some {| m_count := m_count s; m_sema := m_sema s; m_interrupts := m_interrupts s + 1 |}
  else k ← sem_wait (m_sema s); Some (set_sema k s).

(** [spurious]: a weak compare-and-swap fails for no reason, or a signal handler interrupts a
    thread that waits for the semaphore of the system. *)
Definition light_move (spurious : bool) (p : pc) (s : light) : option (light * pc * option (op * Z)) :=
  let goes (s : light) (q : pc * option (op * Z)) := Some (s, q.1, q.2) in
  let try_again (g : goal) (oldCount : Z) := if oldCount >? 0 then (TryCas g oldCount, None) else tried g 0 in
  match p with
  | Rest => None
  | TryLoad g => goes s (try_again g (m_count s))
  | TryCas g oldCount =>
      if (m_count s =? oldCount) && negb spurious
      then goes (set_count (left_of g oldCount) s) (tried g (oldCount - left_of g oldCount))
      else goes s (try_again g (m_count s))
  | SpinLoad g spin =>
      let oldCount := m_count s in
      if oldCount >? 0 then goes s (SpinCas g spin oldCount, None) else goes s (spinning g spin, None)
  | SpinCas g spin oldCount =>
      if m_count s =? oldCount
      then goes (set_count (left_of g oldCount) s) (spun g (oldCount - left_of g oldCount))
      else goes s (spinning g spin, None)
  | Sub g =>
      let oldCount := m_count s in
      let s := set_count (swrap 64 (oldCount - 1)) s in
      if oldCount <=? 0 then goes s (Block g, None) else goes s (unblocked g)
  | Block g => s ← sema_wait spurious s; goes s (unblocked g)
  | Add count =>
      let oldCount := m_count s in
      let toRelease := if - oldCount <? count then - oldCount else count in
      goes (set_count (swrap 64 (oldCount + count)) s) (posting count (if toRelease >? 0 then u32 toRelease else 0))
  | Posting count toRelease => goes (set_sema (sem_post (m_sema s)) s) (posting count (toRelease - 1))
  | LoadApprox => goes s (Rest, Some (AvailableApprox, if m_count s >? 0 then m_count s else 0))
  end.
#[global] Instance light_machine : Machine light pc op (op * Z) := { begin := light_begin; move := light_move }.

Definition light_new (initialCount : Z) : light := {| m_count := initialCount; m_sema := sem_new; m_interrupts := 0 |}.
End light.
Arguments light : clear implicits.
End Light.

(** ** What the steps add up to *)

Section light.
Context {K : Type} `{SK : !SystemSemaphore K}.
Import Light.
Implicit Types (s : light K) (p : pc) (l : list (op * Z)).

Definition option_sum (f : op * Z -> Z) (r : option (op * Z)) : Z := match r with Some e => f e | None => 0 end.
(** Units handed out and signalled by the calls that have ended. *)
Definition acquired (e : op * Z) : Z := match e.1 with Signal _ | AvailableApprox => 0 | _ => e.2 end.
Definition signalled (e : op * Z) : Z := match e.1 with Signal n => n | _ => 0 end.
(** Units a call under way has taken out of the count or put into it, those it still has to
    post, and the calls that block. *)
Definition taken p : Z := match p with Block _ | TryLoad (GMore _) | TryCas (GMore _) _ => 1 | _ => 0 end.
Definition given p : Z := match p with Posting n _ => n | _ => 0 end.
Definition to_post p : Z := match p with Posting _ k => k | _ => 0 end.
Definition blocked p : Z := match p with Block _ => 1 | _ => 0 end.

Definition goal_ok (g : goal) : Prop :=
  match g with GTry | GWait => True | GTryMany max | GWaitMany max => 0 <= max | GMore max => 1 < max end.
Definition spin_ok (g : goal) : Prop := match g with GWait => True | GWaitMany max => 0 < max | _ => False end.
Definition pc_ok p : Prop :=
  match p with
  | Rest | LoadApprox => True
  | TryLoad g => goal_ok g
  | TryCas g old => goal_ok g /\ 0 < old
  | SpinLoad g _ | Sub g | Block g => spin_ok g
  | SpinCas g _ old => spin_ok g /\ 0 < old
  | Add n => 0 <= n
  | Posting n k => 0 <= n /\ 0 < k
  end.
(** What a call may answer. *)
Definition answer_ok (e : op * Z) : Prop :=
  match e.1 with
  | TryWait => 0 <= e.2 <= 1
  | Wait => e.2 = 1
  | TryWaitMany max => 0 <= e.2 <= max
  | WaitMany max => 0 <= e.2 <= max /\ (0 < max -> 1 <= e.2)
  | Signal n => 0 <= n
  | AvailableApprox => 0 <= e.2
  end.

Lemma begin_ok p o p' : light_begin p o = Some p' ->
  pc_ok p' /\ taken p' = taken p /\ given p' = given p /\ to_post p' = to_post p /\ blocked p' = blocked p.
Proof.
  destruct p; try done. destruct o; cbn [light_begin]; [by intros [= <-]|by intros [= <-]| | | |by intros [= <-]];
    (case_match eqn:E; [|done]; apply Z.geb_le in E; by intros [= <-]).
Qed.

(** One instruction, when the count and the semaphore stay in range. *)
Record delta p s p' s' (r : option (op * Z)) : Prop := {
  delta_count : m_count s' = m_count s - (option_sum acquired r + taken p' - taken p) + (option_sum signalled r + given p' - given p);
  delta_interrupts : m_interrupts s <= m_interrupts s';
  delta_sema : blocked p' - blocked p + (m_interrupts s' - m_interrupts s) =
    (sem_value (m_sema s') - sem_value (m_sema s)) + (to_post p' - to_post p) + (Z.max 0 (- m_count s') - Z.max 0 (- m_count s)) }.

Lemma left_of_range g old : goal_ok g -> 0 < old -> 0 <= left_of g old <= old /\
  match g with
  | GTry | GWait => left_of g old = old - 1
  | GTryMany max | GWaitMany max => old - left_of g old <= max /\ (0 < max -> left_of g old < old)
  | GMore max => old - left_of g old <= max - 1
  end.
Proof.
  destruct g as [| |max|max|max]; cbn [left_of goal_ok]; intros; try lia.
  - destruct (Z.gtb_spec old max); lia.
  - destruct (Z.gtb_spec old max); lia.
  - destruct (Z.gtb_spec old (max - 1)); lia.
Qed.
Lemma spin_goal g : spin_ok g -> goal_ok g.
Proof. destruct g; cbn; try done; lia. Qed.

(** A result of the loop of [tryWait]. *)
Lemma spinning_ok g spin : spin_ok g ->
  pc_ok (spinning g spin) /\ taken (spinning g spin) = 0 /\ given (spinning g spin) = 0 /\ to_post (spinning g spin) = 0 /\ blocked (spinning g spin) = 0.
Proof. intros Hg. unfold spinning. by destruct (spin =? 0). Qed.

Definition taken_goal (g : goal) : Z := match g with GMore _ => 1 | _ => 0 end.
Lemma tried_ok g result : goal_ok g -> 0 <= result ->
  match g with GTry | GWait => result <= 1 | GTryMany max | GWaitMany max => result <= max | GMore max => result <= max - 1 end ->
  let '(p', r) := tried g result in
  pc_ok p' /\ (forall e, r = Some e -> answer_ok e) /\
  option_sum acquired r + taken p' - taken_goal g = result /\ option_sum signalled r = 0 /\ given p' = 0 /\ to_post p' = 0 /\ blocked p' = 0.
Proof.
  intros Hg H0 Hr. destruct g as [| |max|max|max]; cbn [tried taken_goal].
  - split; [done|]. split; [intros e [= <-]; cbn; lia|]. cbn. lia.
  - destruct (Z.eqb_spec result 0) as [->|]; cbn [negb].
    + destruct (spinning_ok GWait 10000 I) as (? & -> & -> & -> & ->). done.
    + split; [done|]. split; [intros e [= <-]; cbn; lia|]. cbn. lia.
  - split; [done|]. split; [intros e [= <-]; cbn; lia|]. cbn. lia.
  - cbn in Hg. destruct (Z.eqb_spec result 0) as [->|]; cbn [andb]; [destruct (Z.gtb_spec max 0)|].
    + destruct (spinning_ok (GWaitMany max) 10000 ltac:(cbn; lia)) as (? & -> & -> & -> & ->). done.
    + split; [done|]. split; [intros e [= <-]; cbn; lia|]. cbn. lia.
    + split; [done|]. split; [intros e [= <-]; cbn; lia|]. cbn. lia.
  - cbn in Hg. split; [done|]. split; [intros e [= <-]; cbn; lia|]. cbn. lia.
Qed.
Lemma unblocked_ok g : spin_ok g ->
  let '(p', r) := unblocked g in
  pc_ok p' /\ (forall e, r = Some e -> answer_ok e) /\
  option_sum acquired r + taken p' = 1 /\ option_sum signalled r = 0 /\ given p' = 0 /\ to_post p' = 0 /\ blocked p' = 0.
Proof.
  intros Hg. destruct g as [| |max|max|max]; try done; cbn [unblocked]; cbn in Hg.
  - split; [done|]. split; [by intros e [= <-]|done].
  - destruct (Z.gtb_spec max 1); [done|]. split; [done|]. split; [intros e [= <-]; cbn; lia|done].
Qed.

Lemma swrap64_small z : - 2 ^ 63 <= z < 2 ^ 63 -> swrap 64 z = z.
Proof. intros Hz. unfold swrap. rewrite Z.mod_small; lia. Qed.

Lemma try_again_ok g old : goal_ok g ->
  let '(p', r) := if old >? 0 then (TryCas g old, None) else tried g 0 in
  pc_ok p' /\ (forall e, r = Some e -> answer_ok e) /\
  option_sum acquired r + taken p' - taken_goal g = 0 /\ option_sum signalled r = 0 /\ given p' = 0 /\ to_post p' = 0 /\ blocked p' = 0.
Proof.
  intros Hg. destruct (Z.gtb_spec old 0).
  - split; [by split|]. split; [done|]. destruct g; cbn; lia.
  - apply tried_ok; [done|done|]. destruct g; cbn in Hg; lia.
Qed.

Lemma sema_wait_ok b s s' : sema_wait b s = Some s' -> m_count s' = m_count s /\ m_interrupts s <= m_interrupts s' /\
  sem_value (m_sema s') = sem_value (m_sema s) - 1 + (m_interrupts s' - m_interrupts s).
Proof.
  unfold sema_wait. destruct b; [intros [= <-]; cbn; lia|]. destruct (sem_wait (m_sema s)) as [k|] eqn:Ek; cbn; [|done].
  intros [= <-]. apply sem_value_wait in Ek. cbn. lia.
Qed.

(** The step of a thread, from a count in range. *)
Definition move_ok p s (q : light K * pc * option (op * Z)) : Prop :=
  let '(s', p', r) := q in
  pc_ok p' /\ (forall e, r = Some e -> answer_ok e) /\ 0 <= option_sum signalled r + given p' - given p /\ delta p s p' s' r.

Lemma light_move_ok b p s q : pc_ok p -> - 2 ^ 32 < m_count s < 2 ^ 63 -> sem_value (m_sema s) < SEM_VALUE_MAX -> (forall n, p = Add n -> m_count s + n < 2 ^ 63) ->
  light_move b p s = Some q -> move_ok p s q.
Proof.
  intros Hp Hs HK Ha. destruct p as [|g|g old|g spin|g spin old|g|g|n|n k|]; cbn [light_move pc_ok] in *; [done|..].
  - intros [= <-]. pose proof (try_again_ok g (m_count s) Hp) as H. destruct (if _ >? _ then _ else _) as [p' r]. cbn [fst snd].
    destruct H as (H1 & H2 & H3 & H4 & H5 & H6 & H7). split; [done|]. split; [done|]. split; [cbn; lia|].
    assert (taken (TryLoad g) = taken_goal g) by (by destruct g). by constructor; cbn [given to_post blocked]; lia.
  - destruct Hp as [Hg Hold]. assert (Ht : taken (TryCas g old) = taken_goal g) by (by destruct g).
    destruct (_ && _) eqn:Ec; intros [= <-].
    + apply andb_true_iff in Ec as [Ec%Z.eqb_eq _]. destruct (left_of_range g old Hg Hold) as [Hl Hm].
      pose proof (tried_ok g (old - left_of g old) Hg ltac:(lia)) as H. specialize (H ltac:(destruct g; lia)).
      destruct (tried _ _) as [p' r]. cbn [fst snd]. destruct H as (H1 & H2 & H3 & H4 & H5 & H6 & H7).
      split; [done|]. split; [done|]. split; [cbn; lia|]. constructor; cbn [m_count m_sema m_interrupts set_count given to_post blocked]; lia.
    + pose proof (try_again_ok g (m_count s) Hg) as H. destruct (if _ >? _ then _ else _) as [p' r]. cbn [fst snd].
      destruct H as (H1 & H2 & H3 & H4 & H5 & H6 & H7). split; [done|]. split; [done|]. split; [cbn; lia|].
      constructor; cbn [given to_post blocked]; lia.
  - destruct (spinning_ok g spin Hp) as (H1 & H2 & H3 & H4 & H5).
    destruct (Z.gtb_spec (m_count s) 0); intros [= <-]; cbn [fst snd]; split; try done; (split; [done|]); (split; [cbn; lia|]);
      constructor; cbn [given to_post blocked taken option_sum] in *; lia.
  - destruct Hp as [Hg Hold]. destruct (spinning_ok g spin Hg) as (H1 & H2 & H3 & H4 & H5).
    destruct (Z.eqb_spec (m_count s) old) as [E|]; intros [= <-]; cbn [fst snd].
    + destruct (left_of_range g old (spin_goal g Hg) Hold) as [Hl Hm].
      destruct g; try done; cbn [spun fst snd]; split; try done; (split; [intros e [= <-]; cbn in *; lia|]); (split; [cbn; lia|]);
        constructor; cbn -[left_of Z.max] in *; lia.
    + split; [done|]. split; [done|]. split; [cbn; lia|]. constructor; cbn [given to_post blocked taken option_sum] in *; lia.
  - rewrite swrap64_small by lia. destruct (Z.leb_spec (m_count s) 0); intros [= <-]; cbn [fst snd].
    + split; [done|]. split; [done|]. split; [cbn; lia|]. constructor; cbn -[Z.max]; lia.
    + pose proof (unblocked_ok g Hp) as H'. destruct (unblocked g) as [p' r]. cbn [fst snd]. destruct H' as (H1 & H2 & H3 & H4 & H5 & H6 & H7).
      split; [done|]. split; [done|]. split; [cbn; lia|]. constructor; cbn [m_count m_sema m_interrupts set_count given to_post blocked taken]; lia.
  - destruct (sema_wait b s) as [s'|] eqn:Ek; cbn [mbind option_bind]; [|done]. intros [= <-]. apply sema_wait_ok in Ek as (Ec & Ei & Ek).
    pose proof (unblocked_ok g Hp) as H'. destruct (unblocked g) as [p' r]. cbn [fst snd]. destruct H' as (H1 & H2 & H3 & H4 & H5 & H6 & H7).
    split; [done|]. split; [done|]. split; [cbn; lia|]. constructor; cbn [given to_post blocked taken]; lia.
  - specialize (Ha n eq_refl). rewrite swrap64_small by lia. set (k := if - m_count s <? n then - m_count s else n).
    assert (Hk : k = Z.min (- m_count s) n) by (unfold k; destruct (Z.ltb_spec (- m_count s) n); lia).
    assert (Hu : (if k >? 0 then u32 k else 0) = Z.max 0 k).
    { destruct (Z.gtb_spec k 0); [|lia]. rewrite wrap_small by (unfold is_uint; lia). lia. }
    rewrite Hu. unfold posting. destruct (Z.gtb_spec (Z.max 0 k) 0); intros [= <-]; cbn [fst snd].
    + split; [cbn; lia|]. split; [done|]. split; [cbn; lia|]. constructor; cbn -[Z.max]; lia.
    + split; [done|]. split; [intros e [= <-]; done|]. split; [cbn; lia|]. constructor; cbn -[Z.max]; lia.
  - destruct Hp as [Hn Hk]. unfold posting. destruct (Z.gtb_spec (k - 1) 0); intros [= <-]; cbn [fst snd].
    + split; [cbn; lia|]. split; [done|]. split; [cbn; lia|]. constructor; cbn -[Z.max]; rewrite ?sem_value_post, ?Z.min_l; lia.
    + split; [done|]. split; [intros e [= <-]; done|]. split; [cbn; lia|]. constructor; cbn -[Z.max]; rewrite ?sem_value_post, ?Z.min_l; lia.
  - intros [= <-]. cbn [fst snd]. split; [done|]. split; [intros e [= <-]; cbn; destruct (Z.gtb_spec (m_count s) 0); lia|]. split; [done|].
    constructor; cbn -[Z.max]; lia.
Qed.

(** What is signalled only grows, whatever the count. *)
Definition add_ok p : Prop := match p with Add n => 0 <= n | _ => True end.
Lemma signals_grow b p s s' p' r : add_ok p -> light_move b p s = Some (s', p', r) ->
  add_ok p' /\ 0 <= option_sum signalled r + given p' - given p /\ (forall n, p = Add n -> option_sum signalled r + given p' - given p = n).
Proof.
  assert (Hq : forall q : pc * option (op * Z), add_ok q.1 -> option_sum signalled q.2 + given q.1 - given p = match p with Add n => n | _ => 0 end ->
    add_ok p -> add_ok q.1 /\ 0 <= option_sum signalled q.2 + given q.1 - given p /\ (forall n, p = Add n -> option_sum signalled q.2 + given q.1 - given p = n)).
  { intros q H1 -> H3. split; [done|]. split; [by destruct p|by intros n ->]. }
  intros Hp E. assert (Hx : exists q s', light_move b p s = Some (s', q.1, q.2) /\ add_ok q.1 /\
    option_sum signalled q.2 + given q.1 - given p = match p with Add n => n | _ => 0 end).
  { destruct p as [|g|g old|g spin|g spin old|g|g|n|n k|]; cbn [light_move] in *; [done|..].
    - eexists _, _. split; [done|]. case_match; [done|]. destruct g; cbn; repeat case_match; done.
    - case_match; eexists _, _; (split; [done|]); [|case_match; [done|]]; destruct g; cbn; repeat case_match; done.
    - case_match; eexists _, _; (split; [done|]); unfold spinning; by repeat case_match.
    - case_match; eexists _, _; (split; [done|]); unfold spinning; [by destruct g|by repeat case_match].
    - case_match; eexists _, _; (split; [done|]); [done|]. destruct g; cbn; by repeat case_match.
    - destruct (sema_wait _ _); [|done]. eexists _, _. split; [done|]. destruct g; cbn; by repeat case_match.
    - eexists _, _. split; [done|]. unfold posting. repeat case_match; cbn; (split; [done|lia]).
    - eexists _, _. split; [done|]. unfold posting. repeat case_match; cbn; (split; [done|lia]).
    - eexists _, _. by split. }
  destruct Hx as (q & s1 & E' & H1 & H2). rewrite E in E'. injection E' as <- -> ->. by apply Hq.
Qed.

(** The invariant, as long as what was signalled fits [int64_t] and the threads and interrupts
    are not more than the semaphore of the system can count. *)
Definition in_range (init : Z) s (ps : list pc) l : Prop :=
  init + tally signalled l + tally given ps < 2 ^ 63 /\ Z.of_nat (length ps) + m_interrupts s < SEM_VALUE_MAX.
Record light_inv (init : Z) s (ps : list pc) l : Prop := {
  inv_pcs : Forall pc_ok ps;
  inv_answers : Forall answer_ok l;
  inv_count : m_count s = init + tally signalled l + tally given ps - tally acquired l - tally taken ps;
  inv_interrupts : 0 <= m_interrupts s;
  inv_sema : tally blocked ps + m_interrupts s = sem_value (m_sema s) + tally to_post ps + Z.max 0 (- m_count s) }.
Definition light_state (init : Z) (n : nat) s (ps : list pc) l : Prop :=
  length ps = n /\ Forall add_ok ps /\ (in_range init s ps l -> light_inv init s ps l).

Lemma acquired_pos l : Forall answer_ok l -> 0 <= tally acquired l.
Proof.
  induction 1 as [|[o r] l He _ IH]; [done|]. cbn [tally foldr]. fold (tally acquired l).
  assert (0 <= acquired (o, r)); [|lia]. unfold acquired. destruct o; cbn in *; lia.
Qed.
Lemma taken_bound p : 0 <= taken p <= 1.
Proof. destruct p as [|[]|[]| | | | | | |]; cbn; lia. Qed.
Lemma blocked_bound p : 0 <= blocked p <= taken p.
Proof. destruct p as [|[]|[]| | | | | | |]; cbn; lia. Qed.

Lemma tally_option_list (f : op * Z -> Z) l r : tally f (l ++ option_list r) = tally f l + option_sum f r.
Proof. rewrite tally_app. destruct r; cbn; lia. Qed.

Lemma to_post_pos ps : Forall pc_ok ps -> 0 <= tally to_post ps.
Proof.
  induction 1 as [|p ps Hp _ IH]; [done|]. cbn [tally foldr]. fold (tally to_post ps). destruct p; cbn in *; lia.
Qed.

(** What the count can be. *)
Lemma count_range init s ps l : light_inv init s ps l -> - (Z.of_nat (length ps) + m_interrupts s) <= m_count s <= init + tally signalled l + tally given ps.
Proof.
  intros [H1 H2 H3 H0 H4]. pose proof (acquired_pos l H2). pose proof (tally_bounds taken ps taken_bound).
  pose proof (tally_le blocked taken ps ltac:(apply blocked_bound)). pose proof (sem_value_range (m_sema s)). pose proof (to_post_pos ps H1). lia.
Qed.

(** There is room for another unit. *)
Lemma sema_room init s ps l : light_inv init s ps l -> Z.of_nat (length ps) + m_interrupts s < SEM_VALUE_MAX -> sem_value (m_sema s) < SEM_VALUE_MAX.
Proof.
  intros [H1 H2 H3 H0 H4] Hb. pose proof (to_post_pos ps H1). pose proof (tally_bounds taken ps taken_bound).
  pose proof (tally_le blocked taken ps ltac:(apply blocked_bound)). lia.
Qed.
Lemma interrupts_grow b p s s' p' r : light_move b p s = Some (s', p', r) -> m_interrupts s <= m_interrupts s'.
Proof.
  destruct p as [|g|g old|g spin|g spin old|g|g|n|n k|]; cbn [light_move]; [done|..]; try (repeat case_match; by intros [= <- <- <-]).
  destruct (sema_wait b s) as [s1|] eqn:E; cbn [mbind option_bind]; [|done]. intros [= <- _ _]. by apply sema_wait_ok in E as (_ & ? & _).
Qed.

Lemma light_begin_state init n s ps l i p o p' : light_state init n s ps l -> ps !! i = Some p -> light_begin p o = Some p' ->
  light_state init n s (<[i := p']> ps) l.
Proof.
  intros (Hn & Ha & HI) Hi Hb. destruct (begin_ok _ _ _ Hb) as (Hok & Ht & Hg & Hp & Hbl). split; [by rewrite length_insert|].
  split; [apply Forall_insert; [done|]; by destruct p'|]. intros HR. unfold in_range in HR. rewrite (tally_insert _ _ _ _ _ Hi), Hg, length_insert in HR.
  destruct HI as [H1 H2 H3 H0 H4]; [unfold in_range; lia|]. constructor; rewrite ?(tally_insert _ _ _ _ _ Hi), ?Ht, ?Hg, ?Hp, ?Hbl; [by apply Forall_insert|done|lia|done|lia].
Qed.

Lemma light_move_state init n s ps l i b p s' p' r :
  light_state init n s ps l -> ps !! i = Some p -> light_move b p s = Some (s', p', r) ->
  light_state init n s' (<[i := p']> ps) (l ++ option_list r).
Proof.
  intros (Hn & Ha & HI) Hi Hm. destruct (signals_grow _ _ _ _ _ _ (proj1 (Forall_lookup _ _) Ha _ _ Hi) Hm) as (Ha' & Hg & Hadd).
  split; [by rewrite length_insert|]. split; [by apply Forall_insert|]. intros HR. unfold in_range in HR.
  rewrite (tally_insert _ _ _ _ _ Hi), tally_option_list, length_insert in HR. pose proof (interrupts_grow _ _ _ _ _ _ Hm) as Hint.
  specialize (HI ltac:(unfold in_range; lia)). pose proof (count_range _ _ _ _ HI) as Hc. pose proof HI as [H1 H2 H3 H0 H4].
  pose proof (sema_room _ _ _ _ HI ltac:(lia)) as Hv. unfold SEM_VALUE_MAX in HR.
  assert (Hok : move_ok p s (s', p', r)).
  { apply light_move_ok with b; [by eapply Forall_lookup_1| |done|intros k ->; specialize (Hadd k eq_refl)|done]; lia. }
  destruct Hok as (Hp & He & _ & [D1 _ D2]). constructor; rewrite ?(tally_insert _ _ _ _ _ Hi), ?tally_option_list.
  - by apply Forall_insert.
  - apply Forall_app. split; [done|]. destruct r; [|done]. constructor; [by apply He|done].
  - lia.
  - lia.
  - lia.
Qed.

Lemma light_reachable init n st : 0 <= init -> reachable (start (light_new init) n Rest) st ->
  light_state init n (word st) (threads st) (log st).
Proof.
  intros H0 Hr. apply (reachable_invariant (light_state init n) (start (light_new init) n Rest) st); [| | |done].
  - cbn [start word threads log]. split; [apply length_replicate|]. split; [by apply Forall_replicate|]. intros _.
    constructor; [by apply Forall_replicate|by constructor|..]; rewrite ?tally_replicate; cbn -[Z.mul Z.max]; rewrite ?sem_value_new; lia.
  - intros i p o p' w ps l HI Hi Hb. by eapply light_begin_state.
  - intros i p b w w' p' r ps l HI Hi Hm. exact (light_move_state init n w ps l i b p w' p' r HI Hi Hm).
Qed.

(** A thread can go on unless it is at rest or blocks, and is not interrupted. *)
Lemma light_move_blocks p s : light_move false p s = None -> p = Rest \/ exists g, p = Block g /\ sem_wait (m_sema s) = None.
Proof.
  destruct p as [|g|g old|g spin|g spin old|g|g|n|n k|]; cbn [light_move]; try done; try (by left); try (by repeat case_match).
  unfold sema_wait. destruct (sem_wait (m_sema s)) eqn:E; [done|]. intros _. right. by exists g.
Qed.
Lemma at_rest s ps (H : forall i p, ps !! i = Some p -> light_move false p s = None) :
  (forall i p, ps !! i = Some p -> p = Rest \/ exists g, p = Block g /\ sem_wait (m_sema s) = None) /\
  tally given ps = 0 /\ tally to_post ps = 0 /\ tally taken ps = tally blocked ps.
Proof.
  assert (HB : forall i p, ps !! i = Some p -> p = Rest \/ exists g, p = Block g /\ sem_wait (m_sema s) = None) by (intros i p Hi; apply light_move_blocks; by eapply H).
  split; [done|]. assert (HF : Forall (fun p => given p = 0 /\ to_post p = 0 /\ taken p = blocked p) ps).
  { apply Forall_lookup. intros i p Hi. by destruct (HB i p Hi) as [->|(g & -> & _)]. }
  clear -HF. induction HF as [|p ps (H1 & H2 & H3) _ (I1 & I2 & I3)]; [done|]. cbn [tally foldr].
  fold (tally given ps) (tally to_post ps) (tally taken ps) (tally blocked ps). lia.
Qed.
End light.

(** C36. [LightSemaphore], while what it was given fits [int64_t] and its threads and the
    interrupts are fewer than the semaphore of the system can count: every call answers
    within its bounds, with at least one unit when it waits for some; the units acquired were
    there, signalled, or waits for the system that a signal handler cut short; when nothing
    can move any more, a thread blocks only if all of that was acquired; and with all threads
    at rest the count is what is left, below zero by the interrupted waits that no signal has
    made up for.  Without interrupts no unit is acquired that was not signalled. *)
Theorem light_semaphore_correct {K} `{SK : !SystemSemaphore K} (init : Z) (n : nat) (st : system (Light.light K) Light.pc (Light.op * Z)) :
  0 <= init -> reachable (start (Light.light_new init) n Light.Rest) st ->
  init + tally signalled (log st) + tally given (threads st) < 2 ^ 63 ->
  Z.of_nat n + Light.m_interrupts (word st) < SEM_VALUE_MAX ->
  Forall answer_ok (log st) /\
  0 <= Light.m_interrupts (word st) /\
  tally acquired (log st) <= init + tally signalled (log st) + tally given (threads st) + Light.m_interrupts (word st) /\
  ((forall i p, threads st !! i = Some p -> Light.light_move false p (word st) = None) ->
     (forall i g, threads st !! i = Some (Light.Block g) ->
        tally acquired (log st) = init + tally signalled (log st) + Light.m_interrupts (word st)) /\
     (Forall (eq Light.Rest) (threads st) ->
        Light.m_count (word st) = init + tally signalled (log st) - tally acquired (log st) /\
        sem_value (Light.m_sema (word st)) + Z.max 0 (- Light.m_count (word st)) = Light.m_interrupts (word st))).
Proof.
  intros H0 Hr HR HM. destruct (light_reachable init n st H0 Hr) as (Hl & _ & HI).
  specialize (HI ltac:(unfold in_range; lia)). destruct HI as [H1 H2 H3 Hi0 H4].
  pose proof (tally_le blocked taken (threads st) ltac:(apply blocked_bound)) as Hb. pose proof (sem_value_range (Light.m_sema (word st))) as Hv.
  pose proof (to_post_pos _ H1) as Hp. split; [done|]. split; [done|]. split; [lia|]. intros Hq.
  destruct (at_rest _ _ Hq) as (HB & Hg & Hp0 & Ht). split.
  - intros i g Hi. destruct (HB _ _ Hi) as [?|(g' & _ & Ew)]; [done|]. apply sem_wait_blocks in Ew.
    pose proof (tally_at blocked _ i _ ltac:(apply blocked_bound) Hi) as Hbi. cbn in Hbi. lia.
  - intros HF. assert (Hz : tally blocked (threads st) = 0).
    { apply tally_zero; [apply blocked_bound|]. intros i p Hi. rewrite Forall_lookup in HF. by rewrite <-(HF i p Hi). }
    lia.
Qed.

(** ** [AutoResetFreeEvent] *)

Module FreeEvent.
Section event.
Context {K : Type} `{SK : !SystemSemaphore K}.

Record event := { m_status : Z; m_sema : Light.light K }.
Inductive op := Signal | Wait.
(** What a call did: it returned by itself, or with a call of the semaphore. *)
Inductive reply := Direct (o : op) | Sema (e : Light.op * Z).
Inductive pc := Rest | Load | Cas (oldStatus : Z) | Sub | InSema (p : Light.pc) | Aborted.

Definition event_begin (p : pc) (o : op) : option pc :=
  match p, o with Rest, Signal => Some Load | Rest, Wait => Some Sub | _, _ => None end.

Definition set_status (n : Z) (s : event) : event := {| m_status := n; m_sema := m_sema s |}.
(** The head of the loop of [signal]. *)
Definition signal_loop (oldStatus : Z) : pc * option reply :=
  if oldStatus <=? 1 then if oldStatus =? 1 then (Rest, Some (Direct Signal)) else (Cas oldStatus, None)
  else (Aborted, None).

Definition event_move (spurious : bool) (p : pc) (s : event) : option (event * pc * option reply) :=
  let goes (s : event) (q : pc * option reply) := Some (s, q.1, q.2) in
  match p with
  | Rest | Aborted => None
  | Load => goes s (signal_loop (m_status s))
  | Cas oldStatus =>
      if (m_status s =? oldStatus) && negb spurious
      then goes (set_status (oldStatus + 1) s) (if oldStatus <? 0 then (InSema (Light.Add 1), None) else (Rest, Some (Direct Signal)))
      else goes s (signal_loop (m_status s))
  | Sub =>
      let oldStatus := m_status s in
      let s := set_status (i32 (oldStatus - 1)) s in
      if oldStatus <=? 1
      then goes s (if oldStatus <? 1 then (InSema (Light.TryLoad Light.GWait), None) else (Rest, Some (Direct Wait)))
      else goes s (Aborted, None)
  | InSema q =>
      '(sema, q, r) ← Light.light_move spurious q (m_sema s);
      goes {| m_status := m_status s; m_sema := sema |} (match r with Some e => (Rest, Some (Sema e)) | None => (InSema q, None) end)
  end.
#[global] Instance event_machine : Machine event pc op reply := { begin := event_begin; move := event_move }.

Definition event_new (initialStatus : Z) : event := {| m_status := initialStatus; m_sema := Light.light_new 0 |}.
End event.
Arguments event : clear implicits.
End FreeEvent.

Section event.
Context {K : Type} `{SK : !SystemSemaphore K}.
Import FreeEvent.
Implicit Types (s : event K) (p : pc) (l : list reply).

(** The event's part in the semaphore: its threads there, and the calls that have ended. *)
Definition sema_pc p : Light.pc := match p with InSema q => q | _ => Light.Rest end.
Definition sema_of (r : reply) : option (Light.op * Z) := match r with Sema e => Some e | Direct _ => None end.
Definition sema_log l : list (Light.op * Z) := omap sema_of l.

(** The calls under way and the calls that have ended. *)
Definition waits_in p : Z :=
  match sema_pc p with
  | Light.TryLoad _ | Light.TryCas _ _ | Light.SpinLoad _ _ | Light.SpinCas _ _ _ | Light.Sub _ | Light.Block _ => 1
  | _ => 0
  end.
Definition signals_in p : Z := match sema_pc p with Light.Add _ | Light.Posting _ _ => 1 | _ => 0 end.
Definition sema_waits (r : reply) : Z := match r with Sema (Light.Wait, _) => 1 | _ => 0 end.
Definition sema_signals (r : reply) : Z := match r with Sema (Light.Signal _, _) => 1 | _ => 0 end.
Definition direct_waits (r : reply) : Z := match r with Direct Wait => 1 | _ => 0 end.
Definition direct_signals (r : reply) : Z := match r with Direct Signal => 1 | _ => 0 end.

(** The event calls [wait()] and [signal(1)] only. *)
Definition goal_wait (g : Light.goal) : Prop := match g with Light.GWait => True | _ => False end.
Definition only_pc (q : Light.pc) : Prop :=
  match q with
  | Light.Rest => True
  | Light.TryLoad g | Light.TryCas g _ | Light.SpinLoad g _ | Light.SpinCas g _ _ | Light.Sub g | Light.Block g => goal_wait g
  | Light.Add n | Light.Posting n _ => n = 1
  | Light.LoadApprox => False
  end.
Definition only_log (e : Light.op * Z) : Prop := match e.1 with Light.Wait | Light.Signal 1 => True | _ => False end.

(** A step inside the semaphore. *)
Lemma only_move b q q' r sm sm' : only_pc q -> Light.light_move b q sm = Some (sm', q', r) ->
  only_pc q' /\ match r with
  | Some e => q' = Light.Rest /\ only_log e /\ waits_in (InSema q) = sema_waits (Sema e) /\ signals_in (InSema q) = sema_signals (Sema e)
  | None => waits_in (InSema q) = waits_in (InSema q') /\ signals_in (InSema q) = signals_in (InSema q')
  end.
Proof.
  destruct q as [|g|g old|g spin|g spin old|g|g|n|n k|]; try done; cbn [only_pc]; intros Hg; try (destruct g; try done); cbn [Light.light_move].
  - case_match; [|unfold Light.tried]; cbn; [by intros [= <- <- <-]|]. unfold Light.spinning. cbn. by intros [= <- <- <-].
  - cbn [Light.tried]. repeat case_match; cbn; unfold Light.spinning; intros E; by simplify_eq/=.
  - unfold Light.spinning. repeat case_match; intros E; by simplify_eq/=.
  - unfold Light.spinning. repeat case_match; intros E; by simplify_eq/=.
  - repeat case_match; intros E; by simplify_eq/=.
  - destruct (Light.sema_wait _ _); cbn; [|done]. intros E; by simplify_eq/=.
  - subst n. unfold Light.posting. repeat case_match; intros E; by simplify_eq/=.
  - subst n. unfold Light.posting. repeat case_match; intros E; by simplify_eq/=.
Qed.

Definition cas_ok p : Prop := match p with Cas old => old <= 0 | _ => True end.
Definition reply_sum (f : reply -> Z) (r : option reply) : Z := match r with Some e => f e | None => 0 end.
Lemma tally_reply (f : reply -> Z) l r : tally f (l ++ option_list r) = tally f l + reply_sum f r.
Proof. rewrite tally_app. destruct r; cbn; lia. Qed.

(** A step of the event, while its status is in range. *)
Record event_delta p s p' s' (r : option reply) : Prop := {
  ed_ok : p' <> Aborted; ed_cas : cas_ok p'; ed_only : only_pc (sema_pc p'); ed_status : m_status s' <= 1;
  ed_waiters : Z.max 0 (- m_status s') - Z.max 0 (- m_status s) =
    (waits_in p' + reply_sum sema_waits r - waits_in p) - (signals_in p' + reply_sum sema_signals r - signals_in p);
  ed_signalled : Z.max 0 (m_status s') + reply_sum direct_waits r <= Z.max 0 (m_status s) + reply_sum direct_signals r }.

Lemma signal_loop_ok p s s' : waits_in p = 0 -> signals_in p = 0 -> m_status s <= 1 -> m_status s' = m_status s ->
  event_delta p s (signal_loop (m_status s)).1 s' (signal_loop (m_status s)).2.
Proof.
  intros Hw Hs H1 E. unfold signal_loop. destruct (Z.leb_spec (m_status s) 1); [|lia].
  destruct (Z.eqb_spec (m_status s) 1); constructor; cbn -[Z.max]; rewrite ?Hw, ?Hs, ?E; try done; lia.
Qed.

Lemma event_move_ok b p s s' p' r : cas_ok p -> only_pc (sema_pc p) -> - 2 ^ 31 < m_status s <= 1 ->
  event_move b p s = Some (s', p', r) -> event_delta p s p' s' r.
Proof.
  intros Hp Ho Hs. destruct p as [| |old| |q|]; cbn [event_move]; try done.
  - intros [= <- <- <-]. apply signal_loop_ok; done || lia.
  - cbn in Hp. destruct (_ && _) eqn:Ec; [|intros [= <- <- <-]; apply signal_loop_ok; done || lia].
    apply andb_true_iff in Ec as [Ec%Z.eqb_eq _]. destruct (Z.ltb_spec old 0); intros [= <- <- <-]; constructor; cbn -[Z.max]; try done; lia.
  - assert (Hi : i32 (m_status s - 1) = m_status s - 1) by (unfold swrap; rewrite Z.mod_small; lia).
    rewrite Hi. destruct (Z.leb_spec (m_status s) 1); [|lia]. destruct (Z.ltb_spec (m_status s) 1); intros [= <- <- <-]; constructor; cbn -[Z.max]; try done; lia.
  - destruct (Light.light_move b q (m_sema s)) as [[[sm q'] r']|] eqn:E; cbn [mbind option_bind]; [|done]. intros [= <- <- <-].
    cbn [sema_pc] in Ho. destruct (only_move _ _ _ _ _ _ Ho E) as [Hq' Hr]. destruct r' as [e|]; cbn [fst snd].
    + destruct Hr as (-> & He & Hw & Hg). constructor; cbn [m_status cas_ok sema_pc reply_sum]; try done; [lia|].
      change (waits_in Rest) with 0. change (signals_in Rest) with 0. lia.
    + destruct Hr as (Hw & Hg). constructor; cbn [m_status cas_ok sema_pc reply_sum]; try done; lia.
Qed.

(** The invariant. *)
Record event_inv (init : Z) s (ps : list pc) l : Prop := {
  ei_ok : Forall (fun p => p <> Aborted) ps;
  ei_status : m_status s <= 1;
  ei_waiters : Z.max 0 (- m_status s) = (tally waits_in ps + tally sema_waits l) - (tally signals_in ps + tally sema_signals l);
  ei_signalled : Z.max 0 (m_status s) + tally direct_waits l <= init + tally direct_signals l }.
Record event_state (init : Z) (n : nat) s (ps : list pc) l : Prop := {
  es_light : light_state 0 n (m_sema s) (sema_pc <$> ps) (sema_log l);
  es_cas : Forall cas_ok ps;
  es_only : Forall (fun p => only_pc (sema_pc p)) ps;
  es_log : Forall only_log (sema_log l);
  es_inv : Z.of_nat (length l) + Z.of_nat n < 2 ^ 63 -> Z.of_nat n + Light.m_interrupts (m_sema s) < SEM_VALUE_MAX -> event_inv init s ps l }.

Lemma tally_fmap {A B} (g : A -> B) (f : B -> Z) (l : list A) : tally f (g <$> l) = tally (fun x => f (g x)) l.
Proof. induction l as [|x l IH]; [done|]. cbn [fmap list_fmap tally foldr] in *. unfold tally in IH. rewrite IH. done. Qed.

Lemma sema_log_sums l : Forall only_log (sema_log l) -> Forall answer_ok (sema_log l) ->
  tally acquired (sema_log l) = tally sema_waits l /\ tally signalled (sema_log l) = tally sema_signals l.
Proof.
  induction l as [|[o|[o z]] l IH]; [done|apply IH|]. cbn [sema_log omap list_omap sema_of]. fold (sema_log l).
  intros [Ho Hl]%Forall_cons_1 [Ha Hl']%Forall_cons_1. destruct (IH Hl Hl') as [I1 I2]. cbn [tally foldr].
  fold (tally acquired (sema_log l)) (tally signalled (sema_log l)) (tally sema_waits l) (tally sema_signals l). rewrite I1, I2.
  destruct o as [| | | |[|[]|]|]; try done. cbn in Ha. subst z. done.
Qed.
Lemma sema_signals_bound l : tally sema_signals l <= Z.of_nat (length l).
Proof. apply tally_bounds. intros [o|[[] z]]; cbn; lia. Qed.
Lemma waits_in_bound p : 0 <= waits_in p <= 1.
Proof. unfold waits_in. case_match; lia. Qed.
Lemma signals_in_bound p : 0 <= signals_in p <= 1.
Proof. unfold signals_in. case_match; lia. Qed.

(** What the event knows of its semaphore. *)
Lemma event_range init n s ps l : Z.of_nat (length l) + Z.of_nat n < 2 ^ 63 -> Z.of_nat n + Light.m_interrupts (m_sema s) < SEM_VALUE_MAX -> event_state init n s ps l ->
  event_inv init s ps l /\ light_inv 0 (m_sema s) (sema_pc <$> ps) (sema_log l) /\
  tally acquired (sema_log l) = tally sema_waits l /\ tally signalled (sema_log l) = tally sema_signals l /\
  tally given (sema_pc <$> ps) <= tally signals_in ps /\ tally blocked (sema_pc <$> ps) <= tally taken (sema_pc <$> ps) /\
  - (Z.of_nat n + Light.m_interrupts (m_sema s)) <= m_status s <= 1.
Proof.
  intros Hb HM [(Hlen & _ & HL) H1 H2 H3 HI]. specialize (HI Hb HM). pose proof Hlen as Hlen'. rewrite length_fmap in Hlen.
  pose proof (tally_bounds signals_in ps signals_in_bound) as Hs. pose proof (sema_signals_bound l) as Hsl.
  assert (Hg : tally given (sema_pc <$> ps) <= tally signals_in ps).
  { rewrite tally_fmap. clear -H2. induction H2 as [|p ps Hp _ IH]; [done|]. cbn [tally foldr].
    fold (tally (fun x => given (sema_pc x)) ps) (tally signals_in ps). unfold signals_in at 1. destruct (sema_pc p); cbn in *; lia. }
  assert (HT : tally signalled (sema_log l) <= tally sema_signals l).
  { clear -H3. induction l as [|[o|[o z]] l IH]; [done|apply IH, H3|]. cbn [sema_log omap list_omap sema_of] in *. fold (sema_log l) in *.
    apply Forall_cons_1 in H3 as [Ho Hl]. cbn [tally foldr]. fold (tally signalled (sema_log l)) (tally sema_signals l). specialize (IH Hl).
    destruct o as [| | | |[|[]|]|]; try done; cbn; lia. }
  specialize (HL ltac:(unfold in_range; rewrite Hlen'; lia)). destruct (sema_log_sums l H3 (inv_answers _ _ _ _ HL)) as [E1 E2].
  pose proof (tally_le blocked taken (sema_pc <$> ps) ltac:(apply blocked_bound)) as Hbt.
  split; [done|]. split; [done|]. split; [done|]. split; [done|]. split; [done|]. split; [done|].
  destruct HI as [I1 I2 I3 I4]. destruct HL as [L1 L2 L3 L0 L4].
  pose proof (sem_value_range (Light.m_sema (m_sema s))). pose proof (to_post_pos _ L1). pose proof (tally_bounds waits_in ps waits_in_bound). lia.
Qed.

(** A step outside the semaphore leaves its thread there at rest. *)
Lemma sema_unchanged (ps : list pc) i p p' : ps !! i = Some p -> sema_pc p = sema_pc p' -> sema_pc <$> <[i := p']> ps = sema_pc <$> ps.
Proof. intros Hi E. rewrite list_fmap_insert. apply list_insert_id. by rewrite list_lookup_fmap, Hi; simpl; rewrite E. Qed.

Lemma sema_log_app l r : sema_log (l ++ option_list r) = sema_log l ++ option_list (r ≫= sema_of).
Proof. unfold sema_log. rewrite omap_app. destruct r as [[o|e]|]; done. Qed.

Lemma event_begin_state init n s ps l i p o p' : event_state init n s ps l -> ps !! i = Some p -> event_begin p o = Some p' ->
  event_state init n s (<[i := p']> ps) l.
Proof.
  intros [H1 H2 H3 H4 H5] Hi Hb.
  assert (Hp : sema_pc p = Light.Rest /\ sema_pc p' = Light.Rest /\ cas_ok p' /\ p' <> Aborted).
  { destruct p, o; try done; cbn in Hb; by injection Hb as <-. }
  destruct Hp as (E & E' & Hc & Ha). assert (Hw : waits_in p' = waits_in p /\ signals_in p' = signals_in p) by (unfold waits_in, signals_in; by rewrite E, E').
  destruct Hw as [Hw Hs]. constructor.
  - by rewrite (sema_unchanged ps i p p' Hi) by congruence.
  - by apply Forall_insert.
  - apply Forall_insert; [done|by rewrite E'].
  - done.
  - intros Hb' HM. destruct (H5 Hb' HM) as [I1 I2 I3 I4]. constructor; rewrite ?(tally_insert _ _ _ _ _ Hi); [by apply Forall_insert|done|lia|done].
Qed.

(** The steps of the event are steps of its semaphore. *)
Lemma event_light b n p s s' p' r ps l i : only_pc (sema_pc p) ->
  light_state 0 n (m_sema s) (sema_pc <$> ps) (sema_log l) -> ps !! i = Some p -> event_move b p s = Some (s', p', r) ->
  light_state 0 n (m_sema s') (sema_pc <$> <[i := p']> ps) (sema_log (l ++ option_list r)) /\ Forall only_log (option_list (r ≫= sema_of)).
Proof.
  intros Ho HL Hi. rewrite sema_log_app.
  assert (Hq : (sema_pc <$> ps) !! i = Some (sema_pc p)) by (by rewrite list_lookup_fmap, Hi).
  assert (Hsame : forall p' r, sema_pc p = sema_pc p' -> r ≫= sema_of = None ->
    light_state 0 n (m_sema s) (sema_pc <$> <[i := p']> ps) (sema_log l ++ option_list (r ≫= sema_of)) /\ Forall only_log (option_list (r ≫= sema_of))).
  { intros p1 r1 E ->. cbn [option_list]. rewrite app_nil_r. by rewrite (sema_unchanged ps i p p1 Hi E). }
  assert (Hcall : forall q o, sema_pc p = Light.Rest -> Light.light_begin Light.Rest o = Some q ->
    light_state 0 n (m_sema s) (sema_pc <$> <[i := InSema q]> ps) (sema_log l ++ []) /\ Forall only_log []).
  { intros q o E Eb. rewrite app_nil_r, list_fmap_insert. split; [|done]. rewrite E in Hq. by apply (light_begin_state 0 n (m_sema s) _ _ i _ o _ HL Hq). }
  assert (Hloop : light_state 0 n (m_sema s) (sema_pc <$> <[i := (signal_loop (m_status s)).1]> ps) (sema_log l ++ option_list ((signal_loop (m_status s)).2 ≫= sema_of)) /\
      Forall only_log (option_list ((signal_loop (m_status s)).2 ≫= sema_of)) \/ exists q, p = InSema q).
  { destruct p as [| |old| |q|]; try (by right; eexists); left; unfold signal_loop; repeat case_match; by apply Hsame. }
  destruct p as [| |old| |q|]; cbn [event_move]; try done.
  - intros [= <- <- <-]. by destruct Hloop as [?|[]].
  - case_match; intros [= <- <- <-]; [|by destruct Hloop as [?|[]]]. case_match; [|by apply Hsame].
    by apply (Hcall (Light.Add 1) (Light.Signal 1)).
  - case_match; intros [= <- <- <-]; [|by apply Hsame]. case_match; [|by apply Hsame].
    by apply (Hcall (Light.TryLoad Light.GWait) Light.Wait).
  - destruct (Light.light_move b q (m_sema s)) as [[[sm q'] r']|] eqn:E; cbn [mbind option_bind]; [|done]. intros [= <- <- <-].
    pose proof (light_move_state 0 n (m_sema s) _ _ i b _ _ _ _ HL Hq E) as HL'. cbn [sema_pc] in Ho.
    destruct (only_move _ _ _ _ _ _ Ho E) as [Hq' Hr]. cbn [m_sema]. destruct r' as [e|]; cbn [fst snd].
    + destruct Hr as (-> & He & _). rewrite list_fmap_insert. cbn. split; [done|]. by constructor.
    + rewrite list_fmap_insert. cbn. by split.
Qed.

Lemma event_interrupts b p s s' p' r : event_move b p s = Some (s', p', r) -> Light.m_interrupts (m_sema s) <= Light.m_interrupts (m_sema s').
Proof.
  destruct p as [| |old| |q|]; cbn [event_move]; try done; try (repeat case_match; by intros [= <- _ _]).
  destruct (Light.light_move b q (m_sema s)) as [[[sm q'] r']|] eqn:E; cbn [mbind option_bind]; [|done]. intros [= <- _ _]. by eapply interrupts_grow.
Qed.

Lemma event_move_state init n s ps l i b p s' p' r : event_state init n s ps l -> ps !! i = Some p ->
  event_move b p s = Some (s', p', r) -> event_state init n s' (<[i := p']> ps) (l ++ option_list r).
Proof.
  intros HS Hi Hm. pose proof HS as [H1 H2 H3 H4 _]. pose proof (proj1 (Forall_lookup _ _) H2 _ _ Hi) as Hc.
  pose proof (proj1 (Forall_lookup _ _) H3 _ _ Hi) as Ho. cbv beta in Ho.
  destruct (event_light b n p s s' p' r ps l i Ho H1 Hi Hm) as [HL Hlog].
  assert (Hcp : cas_ok p' /\ only_pc (sema_pc p')).
  { clear -Ho Hm. destruct p as [| |old| |q|]; cbn [event_move] in Hm; try done.
    - injection Hm as <- <- <-. unfold signal_loop. repeat case_match; split; try done. cbn. apply Z.leb_le in H. apply Z.eqb_neq in H0. lia.
    - case_match; injection Hm as <- <- <-; [by case_match|]. unfold signal_loop. repeat case_match; split; try done. cbn.
      apply Z.leb_le in H0. apply Z.eqb_neq in H1. lia.
    - repeat case_match; injection Hm as <- <- <-; done.
    - destruct (Light.light_move b q (m_sema s)) as [[[sm q'] r']|] eqn:E; cbn [mbind option_bind] in Hm; [|done]. injection Hm as <- <- <-.
      cbn [sema_pc] in Ho. destruct (only_move _ _ _ _ _ _ Ho E) as [Hq' _]. by destruct r'. }
  destruct Hcp as [Hc' Ho']. constructor; [done|by apply Forall_insert..| |].
  - rewrite sema_log_app. by apply Forall_app.
  - intros Hb HM. rewrite length_app in Hb. pose proof (event_interrupts _ _ _ _ _ _ Hm) as Hint.
    destruct (event_range init n s ps l ltac:(lia) ltac:(lia) HS) as ([I1 I2 I3 I4] & _ & _ & _ & _ & _ & Hr). unfold SEM_VALUE_MAX in HM.
    destruct (event_move_ok b p s s' p' r Hc Ho ltac:(lia) Hm) as [D1 _ _ D2 D3 D4].
    constructor; rewrite ?(tally_insert _ _ _ _ _ Hi), ?tally_reply; [by apply Forall_insert|done|lia|lia].
Qed.
End event.

(** C37. [AutoResetFreeEvent], for fewer than 2^63 calls and fewer threads and interrupts than
    the semaphore of the system can count: no assertion fails; the waits that ended are no
    more than the signals given and the waits that a signal handler cut short; and when
    nothing can move any more, the status counts the threads that wait, and at most the
    interrupted waits besides, so that none waits for an event that is signalled. *)
Theorem auto_reset_free_event_correct {K} `{SK : !SystemSemaphore K} (init : Z) (n : nat)
    (st : system (FreeEvent.event K) FreeEvent.pc FreeEvent.reply) :
  0 <= init <= 1 -> reachable (start (FreeEvent.event_new init) n FreeEvent.Rest) st ->
  Z.of_nat (length (log st)) + Z.of_nat n < 2 ^ 63 -> Z.of_nat n + Light.m_interrupts (FreeEvent.m_sema (word st)) < SEM_VALUE_MAX ->
  Forall (fun p => p <> FreeEvent.Aborted) (threads st) /\ FreeEvent.m_status (word st) <= 1 /\
  tally direct_waits (log st) + tally sema_waits (log st) <=
    init + tally direct_signals (log st) + tally sema_signals (log st) + tally signals_in (threads st) + Light.m_interrupts (FreeEvent.m_sema (word st)) /\
  ((forall i p, threads st !! i = Some p -> FreeEvent.event_move false p (word st) = None) ->
     tally waits_in (threads st) <= Z.max 0 (- FreeEvent.m_status (word st)) <=
       tally waits_in (threads st) + Light.m_interrupts (FreeEvent.m_sema (word st))).
Proof.
  intros H0 Hr Hb HM.
  assert (HS : event_state init n (word st) (threads st) (log st)).
  { apply (reachable_invariant (event_state init n) (start (FreeEvent.event_new init) n FreeEvent.Rest) st); [| | |done].
    - cbn [start word threads log FreeEvent.event_new]. constructor; [|by apply Forall_replicate..|by constructor|].
      + rewrite fmap_replicate. cbn [sema_pc sema_log omap list_omap FreeEvent.m_sema FreeEvent.event_new].
        apply (light_reachable 0 n (start (Light.light_new 0) n Light.Rest)); [done|constructor].
      + intros _ _. constructor; [by apply Forall_replicate|cbn; lia|..]; rewrite ?tally_replicate; cbn -[Z.mul Z.max]; lia.
    - intros i p o p' w ps l HI Hi Hbg. by apply (event_begin_state init n w ps l i p o p').
    - intros i p b w w' p' r ps l HI Hi Hm. exact (event_move_state init n w ps l i b p w' p' r HI Hi Hm). }
  destruct (event_range init n _ _ _ Hb HM HS) as ([I1 I2 I3 I4] & [L1 L2 L3 L0 L4] & E1 & E2 & Hg & Hbl & _).
  pose proof (sem_value_range (Light.m_sema (FreeEvent.m_sema (word st)))) as Hv. pose proof (to_post_pos _ L1) as Hp.
  split; [done|]. split; [done|]. split; [lia|]. intros Hq.
  assert (Hq' : forall i q, (sema_pc <$> threads st) !! i = Some q -> Light.light_move false q (FreeEvent.m_sema (word st)) = None).
  { intros i q Hi. rewrite list_lookup_fmap in Hi. destruct (threads st !! i) as [p|] eqn:Ei; simpl in Hi; [|done]. injection Hi as <-.
    specialize (Hq _ _ Ei). destruct p as [| |old| |q|]; try done. cbn [sema_pc FreeEvent.event_move] in *.
    by destruct (Light.light_move false q _) as [[[??]?]|]. }
  destruct (at_rest _ _ Hq') as (HB & Hg0 & Hp0 & Ht).
  assert (Hwb : tally waits_in (threads st) = tally blocked (sema_pc <$> threads st) /\ tally signals_in (threads st) = 0).
  { clear -HB. rewrite tally_fmap. induction (threads st) as [|p ps IH]; [done|]. cbn [tally foldr].
    fold (tally waits_in ps) (tally (fun x => blocked (sema_pc x)) ps) (tally signals_in ps).
    destruct IH as [I1 I2]; [intros i q; apply (HB (S i))|]. rewrite I1, I2. unfold waits_in at 1, signals_in at 1.
    by destruct (HB 0%nat (sema_pc p) eq_refl) as [->|(g & -> & _)]. }
  destruct Hwb as [Hw Hs0]. rewrite Hw, Hs0 in *. destruct (Z.eq_dec (tally blocked (sema_pc <$> threads st)) 0) as [E|E]; [lia|].
  assert (Hv0 : sem_value (Light.m_sema (FreeEvent.m_sema (word st))) = 0).
  { destruct (tally_pos blocked (sema_pc <$> threads st)) as (i & q & Hi & Hb0); [intros q; destruct q; cbn; lia| |].
    - pose proof (tally_nonneg blocked (sema_pc <$> threads st) ltac:(intros q; destruct q; cbn; lia)). lia.
    - destruct (HB i q Hi) as [->|(g & _ & Ew)]; [cbn in Hb0; lia|]. by apply sem_wait_blocks. }
  lia.
Qed.

(** ** Examples *)

(** A semaphore that is its value. *)
#[export] Instance number_semaphore : SystemSemaphore nat.
Proof.
  refine {| sem_new := 0%nat; sem_post k := Z.to_nat (Z.min (Z.of_nat k + 1) SEM_VALUE_MAX);
    sem_wait k := match k with O => None | S _ => Some (Z.to_nat (Z.min (Z.of_nat k) SEM_VALUE_MAX - 1)) end;
    sem_value k := Z.min (Z.of_nat k) SEM_VALUE_MAX |}; unfold SEM_VALUE_MAX.
  - done.
  - lia.
  - lia.
  - intros [|k] k' E; [done|]. injection E as <-. lia.
  - by intros [|k].
Defined.

(** One thread spins, another signals, and the units go to two. *)
Definition light_run : list (event Light.op) :=
  [Begin 0 (Light.WaitMany 2); Move 0 false; Move 0 false; Move 0 false; Begin 1 (Light.Signal 3); Move 1 false; Move 0 false; Move 0 false;
   Begin 2 Light.TryWait; Move 2 false; Move 2 true; Move 2 false; Begin 2 Light.TryWait; Move 2 false].
Lemma light_semaphore_correct_witness : exists st, run light_run (start (Light.light_new (K:=nat) 0) 3 Light.Rest) = Some st /\
  log st = [(Light.Signal 3, 0); (Light.WaitMany 2, 2); (Light.TryWait, 1); (Light.TryWait, 0)] /\
  tally acquired (log st) <= 0 + tally signalled (log st) + tally given (threads st) + Light.m_interrupts (word st) /\
  Light.m_count (word st) = 0 /\ Light.m_interrupts (word st) = 0.
Proof.
  assert (E : exists st, run light_run (start (Light.light_new (K:=nat) 0) 3 Light.Rest) = Some st /\
    log st = [(Light.Signal 3, 0); (Light.WaitMany 2, 2); (Light.TryWait, 1); (Light.TryWait, 0)] /\ tally given (threads st) = 0 /\
    Light.m_count (word st) = 0 /\ Light.m_interrupts (word st) = 0)
    by (eexists; split; [vm_compute; reflexivity|done]).
  destruct E as (st & E & El & Eg & Ec & Ei). exists st. split; [done|]. split; [done|]. split; [|by split].
  pose proof (run_is_reachable _ _ _ _ (reachable_start _) E) as Hr. assert (H0 : 0 <= 0) by done.
  refine (proj1 (proj2 (proj2 (light_semaphore_correct 0 3 st H0 Hr _ _)))); rewrite ?El, ?Eg, ?Ei; vm_compute; reflexivity.
Defined.

(** A waiting thread that a signal handler interrupts returns, although nothing was signalled. *)
Definition interrupted_run : list (event Light.op) := Begin 0 Light.Wait :: repeat (Move 0 false) 10002 ++ [Move 0 true].
Theorem light_interrupted_wait : exists st, run interrupted_run (start (Light.light_new (K:=nat) 0) 1 Light.Rest) = Some st /\
  threads st = [Light.Rest] /\ log st = [(Light.Wait, 1)] /\ Light.m_count (word st) = -1 /\ Light.m_interrupts (word st) = 1.
Proof. eexists. split; [vm_compute; reflexivity|]. done. Qed.

Definition event_run : list (event FreeEvent.op) :=
  [Begin 0 FreeEvent.Wait; Move 0 false; Begin 1 FreeEvent.Signal; Move 1 false; Move 1 true; Move 1 false; Move 1 false;
   Begin 1 FreeEvent.Signal; Move 1 false; Move 1 false; Begin 1 FreeEvent.Signal; Move 1 false; Begin 2 FreeEvent.Wait; Move 2 false;
   Move 0 false; Move 0 false].
Lemma auto_reset_free_event_correct_witness : exists st, run event_run (start (FreeEvent.event_new (K:=nat) 0) 3 FreeEvent.Rest) = Some st /\
  FreeEvent.m_status (word st) = 0 /\ length (log st) = 5%nat /\
  tally direct_waits (log st) + tally sema_waits (log st) <= 0 + tally direct_signals (log st) + tally sema_signals (log st) +
    tally signals_in (threads st) + Light.m_interrupts (FreeEvent.m_sema (word st)).
Proof.
  assert (E : exists st, run event_run (start (FreeEvent.event_new (K:=nat) 0) 3 FreeEvent.Rest) = Some st /\
    FreeEvent.m_status (word st) = 0 /\ length (log st) = 5%nat /\ Light.m_interrupts (FreeEvent.m_sema (word st)) = 0)
    by (eexists; split; [vm_compute; reflexivity|done]).
  destruct E as (st & E & Es & El & Ei). exists st. split; [done|]. split; [done|]. split; [done|].
  pose proof (run_is_reachable _ _ _ _ (reachable_start _) E) as Hr. assert (H0 : 0 <= 0 <= 1) by lia.
  refine (proj1 (proj2 (proj2 (auto_reset_free_event_correct 0 3 st H0 Hr _ _)))); rewrite ?El, ?Ei; vm_compute; reflexivity.
Defined.
