(* ===== verification/DateTime.v ===== *)
(** * DateTime: calendar arithmetic of [src/util/time_util.h], [.cpp]

    Seconds since 1970 to a date and a time of the day in the Gregorian calendar, and back.
    The reference is the closed formula for the days before a year. *)

From S2P Require Import Prelude.
#[local] Open Scope Z_scope.
#[local] Open Scope mycc_scope.

(** ** The source *)

Definition kMinTime : Z := -62135596800.
Definition kMaxTime : Z := 253402300799.
Definition kSecondsPerMinute : Z := 60.
Definition kSecondsPerHour : Z := 3600.
Definition kSecondsPerDay : Z := kSecondsPerHour * 24.
Definition kSecondsPer400Years : Z := kSecondsPerDay * (400 * 365 + 400 ÷ 4 - 3).
Definition kSecondsFromEraToEpoch : Z := 62135596800.

Record DateTime := { year : Z; month : Z; day : Z; hour : Z; minute : Z; second : Z }.

Definition SecondsPer100Years (year : Z) : Z :=
  if (Z.rem year 400 =? 0) || (Z.rem year 400 >? 300) then kSecondsPerDay * (100 * 365 + 100 ÷ 4)
  else kSecondsPerDay * (100 * 365 + 100 ÷ 4 - 1).
Definition SecondsPer4Years (year : Z) : Z :=
  if ((Z.rem year 100 =? 0) || (Z.rem year 100 >? 96)) && negb ((Z.rem year 400 =? 0) || (Z.rem year 400 >? 396))
  then kSecondsPerDay * (4 * 365) else kSecondsPerDay * (4 * 365 + 1).
Definition IsLeapYear (year : Z) : bool := (Z.rem year 400 =? 0) || ((Z.rem year 4 =? 0) && negb (Z.rem year 100 =? 0)).
Definition SecondsPerYear (year : Z) : Z := kSecondsPerDay * (if IsLeapYear year then 366 else 365).

Definition kDaysInMonth : list Z := [0; 31; 28; 31; 30; 31; 30; 31; 31; 30; 31; 30; 31].
Definition kDaysSinceJan : list Z := [0; 0; 31; 59; 90; 120; 151; 181; 212; 243; 273; 304; 334].
(** An access to one of the tables. *)
Definition at_month (table : list Z) (month : Z) : option Z := if month <? 0 then None else table !! Z.to_nat month.

Definition SecondsPerMonth (month : Z) (leap : bool) : option Z :=
  days ← at_month kDaysInMonth month;
  Some (if (month =? 2) && leap then kSecondsPerDay * (days + 1) else kSecondsPerDay * days).

(** The last test compares the month, not the day, with the days of the month. *)
Definition ValidateDateTime (time : DateTime) : option bool :=
  if (year time <? 1) || (year time >? 9999) || (month time <? 1) || (month time >? 12) || (day time <? 1) || (day time >? 31)
     || (hour time <? 0) || (hour time >? 23) || (minute time <? 0) || (minute time >? 59) || (second time <? 0) || (second time >? 59)
  then Some false
  else
    days ← at_month kDaysInMonth (month time);
    Some (if (month time =? 2) && IsLeapYear (year time) then month time <=? days + 1 else month time <=? days).

(** [while (more(year)) { result += per(year); year += span; }] *)
Fixpoint add_years (fuel : nat) (more : Z -> bool) (per : Z -> Z) (span result year : Z) : option (Z * Z) :=
  if more year then
    match fuel with O => None | S fuel => add_years fuel more per span (result + per year) (year + span) end
  else Some (result, year).

Definition SecondsSinceCommonEra (time : DateTime) : option Z :=
  if negb ((year time >=? 1) && (year time <=? 9999)) then None
  else
    let '(result, y) :=
      if year time - 1 >=? 400
      then let count_400years := (year time - 1) ÷ 400 in (kSecondsPer400Years * count_400years, 1 + count_400years * 400)
      else (0, 1) in
    '(result, y) ← add_years 4 (fun y => year time - y >=? 100) SecondsPer100Years 100 result y;
    '(result, y) ← add_years 25 (fun y => year time - y >=? 4) SecondsPer4Years 4 result y;
    '(result, y) ← add_years 4 (fun y => year time >? y) SecondsPerYear 1 result y;
    if negb ((month time >=? 1) && (month time <=? 12)) then None
    else
      since ← at_month kDaysSinceJan (month time);
      let result := result + kSecondsPerDay * since in
      let result := if (month time >? 2) && IsLeapYear y then result + kSecondsPerDay else result in
      days ← at_month kDaysInMonth (month time);
      if negb ((day time >=? 1) && (day time <=? (if (month time =? 2) && IsLeapYear y then days + 1 else days))) then None
      else
        let result := result + kSecondsPerDay * (day time - 1) in
        Some (result + (kSecondsPerHour * hour time + kSecondsPerMinute * minute time + second time)).

(** [while (seconds >= per(year)) { seconds -= per(year); year += span; }] *)
Fixpoint take_years (fuel : nat) (per : Z -> Z) (span seconds year : Z) : option (Z * Z) :=
  if seconds >=? per year then
    match fuel with O => None | S fuel => take_years fuel per span (seconds - per year) (year + span) end
  else Some (seconds, year).
Fixpoint take_months (fuel : nat) (leap : bool) (seconds month : Z) : option (Z * Z) :=
  per ← SecondsPerMonth month leap;
  if seconds >=? per then
    match fuel with O => None | S fuel => take_months fuel leap (seconds - per) (month + 1) end
  else Some (seconds, month).

(** [Some None] is the answer false. *)
Definition SecondsToDateTime (seconds : Z) : option (option DateTime) :=
  if (seconds <? kMinTime) || (seconds >? kMaxTime) then Some None
  else
    let seconds := seconds + kSecondsFromEraToEpoch in
    let '(seconds, y) :=
      if seconds >=? kSecondsPer400Years
      then let count_400years := i32 (seconds ÷ kSecondsPer400Years) in (Z.rem seconds kSecondsPer400Years, 1 + 400 * count_400years)
      else (seconds, 1) in
    '(seconds, y) ← take_years 4 SecondsPer100Years 100 seconds y;
    '(seconds, y) ← take_years 25 SecondsPer4Years 4 seconds y;
    '(seconds, y) ← take_years 4 SecondsPerYear 1 seconds y;
    '(seconds, m) ← take_months 12 (IsLeapYear y) seconds 1;
    let d := 1 + seconds ÷ kSecondsPerDay in
    let seconds := Z.rem seconds kSecondsPerDay in
    let h := seconds ÷ kSecondsPerHour in
    let seconds := Z.rem seconds kSecondsPerHour in
    let mi := seconds ÷ kSecondsPerMinute in
    let seconds := Z.rem seconds kSecondsPerMinute in
    Some (Some {| year := y; month := m; day := i32 d; hour := i32 h; minute := i32 mi; second := i32 seconds |}).

Definition DateTimeToSeconds (time : DateTime) : option (option Z) :=
  valid ← ValidateDateTime time;
  if negb valid then Some None
  else seconds ← SecondsSinceCommonEra time; Some (Some (seconds - kSecondsFromEraToEpoch)).

(** ** The calendar *)

(** Days from 0001-01-01 to the first day of a year, and in a month. *)
Definition days_before (y : Z) : Z := 365 * (y - 1) + (y - 1) / 4 - (y - 1) / 100 + (y - 1) / 400.
Definition leap_year (y : Z) : bool := (y mod 4 =? 0) && (negb (y mod 100 =? 0) || (y mod 400 =? 0)).
Definition month_days (leap : bool) : list Z := [31; if leap then 29 else 28; 31; 30; 31; 30; 31; 31; 30; 31; 30; 31].
Definition days_in (leap : bool) (m : Z) : Z := default 0 (month_days leap !! Z.to_nat (m - 1)).
Definition days_to (leap : bool) (m : Z) : Z := foldr Z.add 0 (take (Z.to_nat (m - 1)) (month_days leap)).

(** A date that exists, and its seconds since 0001-01-01. *)
Definition is_date (t : DateTime) : Prop :=
  1 <= year t <= 9999 /\ 1 <= month t <= 12 /\ 1 <= day t <= days_in (leap_year (year t)) (month t) /\
  0 <= hour t <= 23 /\ 0 <= minute t <= 59 /\ 0 <= second t <= 59.
Definition era_seconds (t : DateTime) : Z :=
  86400 * (days_before (year t) + days_to (leap_year (year t)) (month t) + (day t - 1)) + 3600 * hour t + 60 * minute t + second t.

Lemma rem_pos y d : 1 <= y -> 0 < d -> Z.rem y d = y mod d.
Proof. intros. apply Z.rem_mod_nonneg; lia. Qed.

Lemma leap_source y : 1 <= y -> IsLeapYear y = leap_year y.
Proof.
  intros. unfold IsLeapYear, leap_year. rewrite !rem_pos by lia.
  destruct (Z.eqb_spec (y mod 400) 0), (Z.eqb_spec (y mod 100) 0), (Z.eqb_spec (y mod 4) 0); try done; Z.to_euclidean_division_equations; lia.
Qed.
Lemma span1 y : 1 <= y -> SecondsPerYear y = 86400 * (days_before (y + 1) - days_before y).
Proof.
  intros. unfold SecondsPerYear. rewrite leap_source by lia. unfold leap_year, days_before, kSecondsPerDay, kSecondsPerHour.
  destruct (Z.eqb_spec (y mod 400) 0), (Z.eqb_spec (y mod 100) 0), (Z.eqb_spec (y mod 4) 0); cbn [andb orb negb]; Z.to_euclidean_division_equations; lia.
Qed.
Lemma span4 y : 1 <= y -> SecondsPer4Years y = 86400 * (days_before (y + 4) - days_before y).
Proof.
  intros. unfold SecondsPer4Years, days_before, kSecondsPerDay, kSecondsPerHour. rewrite !rem_pos by lia.
  destruct (Z.eqb_spec (y mod 100) 0), (Z.gtb_spec (y mod 100) 96), (Z.eqb_spec (y mod 400) 0), (Z.gtb_spec (y mod 400) 396);
    cbn [andb orb negb]; Z.to_euclidean_division_equations; lia.
Qed.
Lemma span100 y : 1 <= y -> SecondsPer100Years y = 86400 * (days_before (y + 100) - days_before y).
Proof.
  intros. unfold SecondsPer100Years, days_before, kSecondsPerDay, kSecondsPerHour. rewrite !rem_pos by lia. change (100 ÷ 4) with 25.
  destruct (Z.eqb_spec (y mod 400) 0), (Z.gtb_spec (y mod 400) 300); cbn [orb]; Z.to_euclidean_division_equations; lia.
Qed.

Lemma days_before_mono y y' : y <= y' -> days_before y <= days_before y'.
Proof. intros. unfold days_before. Z.to_euclidean_division_equations. lia. Qed.

(** What a function per span of years is to return. *)
Definition spans (per : Z -> Z) (span : Z) : Prop := forall y, 1 <= y -> per y = 86400 * (days_before (y + span) - days_before y).

Lemma add_years_ok fuel more per span result y target :
  1 <= y -> 0 < span -> spans per span -> (forall y, more y = true <-> span <= target - y) -> target - y < span * (Z.of_nat fuel + 1) -> y <= target ->
  exists y', add_years fuel more per span result y = Some (result + 86400 * (days_before y' - days_before y), y') /\ y <= y' <= target /\ target - y' < span.
Proof.
  intros Hy Hs Hper Hmore. revert result y Hy. induction fuel as [|fuel IH]; intros result y Hy Hf Hyt; cbn [add_years].
  - destruct (more y) eqn:E; [apply Hmore in E; lia|]. exists y. split; [do 2 f_equal; lia|]. split; [lia|].
    apply not_true_iff_false in E. rewrite Hmore in E. lia.
  - destruct (more y) eqn:E.
    + apply Hmore in E. destruct (IH (result + per y) (y + span)) as (y' & -> & H1 & H2); [lia..|]. exists y'. split; [|lia].
      rewrite Hper by done. do 2 f_equal. lia.
    + exists y. split; [do 2 f_equal; lia|]. split; [lia|]. apply not_true_iff_false in E. rewrite Hmore in E. lia.
Qed.

Lemma take_years_ok fuel per span s y :
  1 <= y -> 0 < span -> spans per span -> 0 <= s < 86400 * (days_before (y + span * (Z.of_nat fuel + 1)) - days_before y) ->
  exists s' y', take_years fuel per span s y = Some (s', y') /\ y <= y' /\ s' + 86400 * days_before y' = s + 86400 * days_before y /\
    0 <= s' < 86400 * (days_before (y' + span) - days_before y').
Proof.
  intros Hy Hs Hper. revert s y Hy. induction fuel as [|fuel IH]; intros s y Hy Hf; cbn [take_years]; rewrite Hper by done;
    (destruct (Z.geb_spec s (86400 * (days_before (y + span) - days_before y))); [|by exists s, y; split; [|lia]]).
  - replace (y + span * (Z.of_nat 0 + 1)) with (y + span) in Hf by lia. lia.
  - destruct (IH (s - 86400 * (days_before (y + span) - days_before y)) (y + span)) as (s' & y' & E & H1 & H2 & H3); [lia| |].
    + replace (y + span + span * (Z.of_nat fuel + 1)) with (y + span * (Z.of_nat (S fuel) + 1)) by lia. lia.
    + exists s', y'. split; [done|]. lia.
Qed.

(** The months of a year. *)
Lemma month_cases m : 1 <= m <= 12 -> m ∈ [1; 2; 3; 4; 5; 6; 7; 8; 9; 10; 11; 12].
Proof.
  intros. assert (m = 1 \/ m = 2 \/ m = 3 \/ m = 4 \/ m = 5 \/ m = 6 \/ m = 7 \/ m = 8 \/ m = 9 \/ m = 10 \/ m = 11 \/ m = 12) as H' by lia.
  repeat destruct H' as [->|H']; try subst m; repeat constructor.
Qed.
Ltac months H := apply month_cases in H; repeat (apply elem_of_cons in H as [->|H]); [..|by apply not_elem_of_nil in H].

Lemma month_facts leap m : 1 <= m <= 12 ->
  SecondsPerMonth m leap = Some (86400 * days_in leap m) /\ days_to leap (m + 1) = days_to leap m + days_in leap m /\
  at_month kDaysSinceJan m = Some (days_to leap m - (if (m >? 2) && leap then 1 else 0)) /\
  at_month kDaysInMonth m = Some (days_in leap m - (if (m =? 2) && leap then 1 else 0)) /\
  28 <= days_in leap m <= 31 /\ 0 <= days_to leap m.
Proof. intros H. destruct leap; months H; vm_compute; split_and!; done. Qed.

Lemma take_months_ok fuel leap s m :
  1 <= m <= 12 -> 12 - m < Z.of_nat fuel -> 0 <= s -> s + 86400 * days_to leap m < 86400 * days_to leap 13 ->
  exists s' m', take_months fuel leap s m = Some (s', m') /\ 1 <= m' <= 12 /\ 0 <= s' < 86400 * days_in leap m' /\
    s' + 86400 * days_to leap m' = s + 86400 * days_to leap m.
Proof.
  revert s m. induction fuel as [|fuel IH]; intros s m Hm Hf Hs Hb; [lia|]. cbn [take_months].
  destruct (month_facts leap m Hm) as (-> & Hn & _ & _ & _ & _). cbn [mbind option_bind].
  destruct (Z.geb_spec s (86400 * days_in leap m)); [|by exists s, m; split_and!; try lia].
  destruct (Z.eq_dec m 12) as [->|Hne]; [change (12 + 1) with 13 in Hn; lia|].
  destruct (IH (s - 86400 * days_in leap m) (m + 1)) as (s' & m' & E & H1 & H2 & H3); [lia..|]. exists s', m'. split; [done|]. lia.
Qed.

Lemma year_days y : 1 <= y -> days_before (y + 1) - days_before y = days_to (leap_year y) 13.
Proof.
  intros Hy. pose proof (span1 y Hy) as H. unfold SecondsPerYear in H. rewrite leap_source in H by done.
  assert (days_to true 13 = 366) by done. assert (days_to false 13 = 365) by done. unfold kSecondsPerDay, kSecondsPerHour in H.
  destruct (leap_year y); lia.
Qed.
Lemma spans_source : spans SecondsPer100Years 100 /\ spans SecondsPer4Years 4 /\ spans SecondsPerYear 1.
Proof. split; [intros y ?; by apply span100|]. split; [intros y ?; by apply span4|intros y ?; by apply span1]. Qed.

(** A date lies in its year and its month. *)
Lemma days_to_bound leap m d : 1 <= m <= 12 -> 1 <= d <= days_in leap m -> 0 <= days_to leap m + (d - 1) < days_to leap 13.
Proof.
  intros H Hd. destruct (month_facts leap m H) as (_ & _ & _ & _ & _ & H0).
  enough (days_to leap m + days_in leap m <= days_to leap 13) by lia. clear Hd H0. destruct leap; months H; by vm_compute.
Qed.
Lemma era_year t : is_date t -> 86400 * days_before (year t) <= era_seconds t < 86400 * days_before (year t + 1).
Proof.
  intros (Hy & Hm & Hd & Hh & Hi & Hs). pose proof (days_to_bound _ _ _ Hm Hd). pose proof (year_days (year t) ltac:(lia)). unfold era_seconds. lia.
Qed.
Lemma era_range t : is_date t -> 0 <= era_seconds t < 86400 * days_before 10000.
Proof.
  intros H. pose proof (era_year t H) as Hy. destruct H as (H & _). pose proof (days_before_mono 1 (year t) ltac:(lia)) as H1.
  pose proof (days_before_mono (year t + 1) 10000 ltac:(lia)). change (days_before 1) with 0 in H1. lia.
Qed.
Lemma days_to_mono leap m m' : 1 <= m -> m < m' -> m' <= 12 -> days_to leap m + days_in leap m <= days_to leap m'.
Proof.
  intros H1 H2 H3. assert (H : 1 <= m <= 12) by lia. assert (H' : 1 <= m' <= 12) by lia.
  destruct leap; months H; months H'; first [lia|by vm_compute].
Qed.

(** The seconds determine the date. *)
Lemma era_inj t t' : is_date t -> is_date t' -> era_seconds t = era_seconds t' -> t = t'.
Proof.
  intros D D' E. pose proof (era_year t D) as H. pose proof (era_year t' D') as H'. rewrite <-E in H'.
  assert (Ey : year t = year t').
  { destruct (Z.lt_trichotomy (year t) (year t')) as [Hlt|[?|Hlt]]; [|done|];
      [pose proof (days_before_mono (year t + 1) (year t') ltac:(lia))|pose proof (days_before_mono (year t' + 1) (year t) ltac:(lia))]; lia. }
  destruct t as [y m d h mi s], t' as [y' m' d' h' mi' s'].
  destruct D as (_ & Hm & Hd & Hh & Hi & Hs), D' as (_ & Hm' & Hd' & Hh' & Hi' & Hs'). cbn [year month day hour minute second] in *. subst y'.
  unfold era_seconds in E. cbn [year month day hour minute second] in E.
  assert (Em : m = m').
  { destruct (Z.lt_trichotomy m m') as [Hlt|[?|Hlt]]; [|done|];
      [pose proof (days_to_mono (leap_year y) m m' ltac:(lia) Hlt ltac:(lia))|pose proof (days_to_mono (leap_year y) m' m ltac:(lia) Hlt ltac:(lia))]; lia. }
  subst m'. f_equal; lia.
Qed.

(** ** Dates to seconds *)

Lemma years_added y : 1 <= y <= 9999 ->
  exists r2 y2 r3 y3, 
    (let '(result, y1) := if y - 1 >=? 400 then let count_400years := (y - 1) ÷ 400 in (kSecondsPer400Years * count_400years, 1 + count_400years * 400) else (0, 1) in
     add_years 4 (fun y1 => y - y1 >=? 100) SecondsPer100Years 100 result y1) = Some (r2, y2) /\
    add_years 25 (fun y1 => y - y1 >=? 4) SecondsPer4Years 4 r2 y2 = Some (r3, y3) /\
    add_years 4 (fun y1 => y >? y1) SecondsPerYear 1 r3 y3 = Some (86400 * days_before y, y).
Proof.
  intros Hy. destruct spans_source as (S100 & S4 & S1).
  assert (H1 : exists r1 y1, (if y - 1 >=? 400 then let count_400years := (y - 1) ÷ 400 in (kSecondsPer400Years * count_400years, 1 + count_400years * 400) else (0, 1)) = (r1, y1) /\
    1 <= y1 <= y /\ y - y1 < 400 /\ r1 = 86400 * days_before y1).
  { destruct (Z.geb_spec (y - 1) 400).
    - eexists _, _. split; [reflexivity|]. rewrite Z.quot_div_nonneg by lia. pose proof (Z.div_mod (y - 1) 400 ltac:(lia)). pose proof (Z.mod_pos_bound (y - 1) 400 ltac:(lia)).
      split; [lia|]. split; [lia|]. set (k := (y - 1) / 400). change kSecondsPer400Years with (86400 * 146097). unfold days_before. Z.to_euclidean_division_equations. lia.
    - exists 0, 1. split; [done|]. split; [lia|]. split; [lia|done]. }
  destruct H1 as (r1 & y1 & -> & Hy1 & Hf1 & Hr1).
  destruct (add_years_ok 4 (fun y1 => y - y1 >=? 100) SecondsPer100Years 100 r1 y1 y) as (y2 & E2 & Hy2 & Hf2); [lia|lia|done|intros z; rewrite Z.geb_le; lia|lia|lia|].
  destruct (add_years_ok 25 (fun y1 => y - y1 >=? 4) SecondsPer4Years 4 (r1 + 86400 * (days_before y2 - days_before y1)) y2 y) as (y3 & E3 & Hy3 & Hf3); [lia|lia|done|intros z; rewrite Z.geb_le; lia|lia|lia|].
  destruct (add_years_ok 4 (fun y1 => y >? y1) SecondsPerYear 1 (r1 + 86400 * (days_before y2 - days_before y1) + 86400 * (days_before y3 - days_before y2)) y3 y) as (y4 & E4 & Hy4 & Hf4);
    [lia|lia|done|intros z; rewrite Z.gtb_lt; lia|lia|lia|].
  eexists _, _, _, _. split; [exact E2|]. split; [exact E3|]. rewrite E4. assert (y4 = y) as -> by lia. do 2 f_equal. lia.
Qed.

Lemma since_era t : 1 <= year t <= 9999 -> 1 <= month t <= 12 -> 1 <= day t ->
  SecondsSinceCommonEra t = if day t <=? days_in (leap_year (year t)) (month t) then Some (era_seconds t) else None.
Proof.
  intros Hy Hm Hd. unfold SecondsSinceCommonEra.
  destruct (years_added (year t) Hy) as (r2 & y2 & r3 & y3 & E1 & E2 & E3).
  assert (Hok : negb ((year t >=? 1) && (year t <=? 9999)) = false) by (apply negb_false_iff, andb_true_iff; split; [apply Z.geb_le|apply Z.leb_le]; lia).
  rewrite Hok. destruct (if year t - 1 >=? 400 then _ else _) as [r1 y1]. rewrite E1. cbn [mbind option_bind]. rewrite E2. cbn [mbind option_bind]. rewrite E3.
  cbn [mbind option_bind].
  assert (Hok' : negb ((month t >=? 1) && (month t <=? 12)) = false) by (apply negb_false_iff, andb_true_iff; split; [apply Z.geb_le|apply Z.leb_le]; lia).
  rewrite Hok', leap_source by lia. destruct (month_facts (leap_year (year t)) (month t) Hm) as (_ & _ & E4 & E5 & _ & _). rewrite E4, E5. cbn [mbind option_bind].
  assert (Hday : (if (month t =? 2) && leap_year (year t) then days_in (leap_year (year t)) (month t) - (if (month t =? 2) && leap_year (year t) then 1 else 0) + 1
    else days_in (leap_year (year t)) (month t) - (if (month t =? 2) && leap_year (year t) then 1 else 0)) = days_in (leap_year (year t)) (month t)).
  { destruct ((month t =? 2) && leap_year (year t)); lia. }
  rewrite Hday. destruct (Z.geb_spec (day t) 1); [|lia]. cbn [andb]. destruct (Z.leb_spec (day t) (days_in (leap_year (year t)) (month t))); cbn [negb]; [|done].
  f_equal. unfold era_seconds, kSecondsPerDay, kSecondsPerHour, kSecondsPerMinute. destruct ((month t >? 2) && leap_year (year t)); lia.
Qed.

(** ** Seconds to a date *)

Lemma last_day : days_before 10000 = 3652059.
Proof. by vm_compute. Qed.
Lemma period : kSecondsPer400Years = 86400 * 146097.
Proof. by vm_compute. Qed.

Lemma years_taken s : 0 <= s < 86400 * days_before 10000 ->
  exists s1 y1 s2 y2 s3 y,
    (let '(seconds, y) := if s >=? kSecondsPer400Years
       then let count_400years := i32 (s ÷ kSecondsPer400Years) in (Z.rem s kSecondsPer400Years, 1 + 400 * count_400years) else (s, 1) in
     take_years 4 SecondsPer100Years 100 seconds y) = Some (s1, y1) /\
    take_years 25 SecondsPer4Years 4 s1 y1 = Some (s2, y2) /\ take_years 4 SecondsPerYear 1 s2 y2 = Some (s3, y) /\
    1 <= y <= 9999 /\ s3 + 86400 * days_before y = s /\ 0 <= s3 < 86400 * days_to (leap_year y) 13.
Proof.
  intros Hs. destruct spans_source as (S100 & S4 & S1).
  assert (H0 : exists s0 y0, (if s >=? kSecondsPer400Years
       then let count_400years := i32 (s ÷ kSecondsPer400Years) in (Z.rem s kSecondsPer400Years, 1 + 400 * count_400years) else (s, 1)) = (s0, y0) /\
    1 <= y0 /\ s0 + 86400 * days_before y0 = s /\ 0 <= s0 < 86400 * (days_before (y0 + 100 * (Z.of_nat 4 + 1)) - days_before y0)).
  { rewrite period. destruct (Z.geb_spec s (86400 * 146097)).
    - eexists _, _. split; [reflexivity|]. rewrite Z.quot_div_nonneg, Z.rem_mod_nonneg by lia.
      pose proof (Z.div_mod s (86400 * 146097) ltac:(lia)). pose proof (Z.mod_pos_bound s (86400 * 146097) ltac:(lia)).
      set (k := s / (86400 * 146097)) in *. rewrite last_day in Hs. assert (0 <= k < 2 ^ 31) by lia.
      rewrite i32_small by lia. split; [lia|]. unfold days_before. split; Z.to_euclidean_division_equations; lia.
    - exists s, 1. split; [done|]. split; [lia|]. change (days_before 1) with 0. split; [lia|]. assert (days_before (1 + 100 * (Z.of_nat 4 + 1)) = 182621) as -> by (by vm_compute). lia. }
  destruct H0 as (s0 & y0 & -> & Hy0 & E0 & Hs0).
  destruct (take_years_ok 4 SecondsPer100Years 100 s0 y0) as (s1 & y1 & E1 & Hy1 & F1 & Hs1); [lia|lia|done|done|].
  destruct (take_years_ok 25 SecondsPer4Years 4 s1 y1) as (s2 & y2 & E2 & Hy2 & F2 & Hs2); [lia|lia|done| |].
  { pose proof (days_before_mono (y1 + 100) (y1 + 4 * (Z.of_nat 25 + 1)) ltac:(lia)). lia. }
  destruct (take_years_ok 4 SecondsPerYear 1 s2 y2) as (s3 & y & E3 & Hy & F3 & Hs3); [lia|lia|done| |].
  { pose proof (days_before_mono (y2 + 4) (y2 + 1 * (Z.of_nat 4 + 1)) ltac:(lia)). lia. }
  exists s1, y1, s2, y2, s3, y. split; [exact E1|]. split; [exact E2|]. split; [exact E3|]. rewrite year_days in Hs3 by lia.
  split; [|split; [lia|done]]. split; [lia|]. destruct (Z.le_gt_cases y 9999) as [|Hgt]; [done|].
  pose proof (days_before_mono 10000 y ltac:(lia)). lia.
Qed.

Lemma to_date s : kMinTime <= s <= kMaxTime ->
  exists t, SecondsToDateTime s = Some (Some t) /\ is_date t /\ era_seconds t = s + kSecondsFromEraToEpoch.
Proof.
  intros Hr. unfold SecondsToDateTime. destruct (Z.ltb_spec s kMinTime); [lia|]. destruct (Z.gtb_spec s kMaxTime); [lia|]. cbn [orb].
  assert (Hs : 0 <= s + kSecondsFromEraToEpoch < 86400 * days_before 10000) by (unfold kMinTime, kMaxTime, kSecondsFromEraToEpoch in *; rewrite last_day; lia).
  set (z := s + kSecondsFromEraToEpoch) in *. destruct (years_taken z Hs) as (s1 & y1 & s2 & y2 & s3 & y & E1 & E2 & E3 & Hy & Ez & Hs3).
  destruct (if z >=? kSecondsPer400Years then _ else _) as [s0 y0]. rewrite E1. cbn [mbind option_bind]. rewrite E2. cbn [mbind option_bind]. rewrite E3. cbn [mbind option_bind].
  rewrite leap_source by lia.
  destruct (take_months_ok 12 (leap_year y) s3 1) as (s4 & m & E4 & Hm & Hs4 & F4); [lia|lia|lia|change (days_to (leap_year y) 1) with 0; lia|].
  change (days_to (leap_year y) 1) with 0 in F4. rewrite E4. cbn [mbind option_bind]. clear E1 E2 E3 E4.
  destruct (month_facts (leap_year y) m Hm) as (_ & _ & _ & _ & Hd & _).
  change kSecondsPerDay with 86400. unfold kSecondsPerHour, kSecondsPerMinute.
  rewrite !Z.quot_div_nonneg, !Z.rem_mod_nonneg by (try lia; try apply Z.mod_pos_bound; lia).
  rewrite !i32_small by (Z.to_euclidean_division_equations; lia).
  eexists. split; [reflexivity|]. unfold is_date, era_seconds. cbn [year month day hour minute second]. Z.to_euclidean_division_equations. lia.
Qed.

Lemma validate t : ValidateDateTime t = Some (bool_decide (1 <= year t <= 9999 /\ 1 <= month t <= 12 /\ 1 <= day t <= 31 /\
  0 <= hour t <= 23 /\ 0 <= minute t <= 59 /\ 0 <= second t <= 59)).
Proof.
  unfold ValidateDateTime. case_bool_decide as H.
  - rewrite (proj2 (Z.ltb_ge (year t) 1)), (proj2 (Z.ltb_ge (month t) 1)), (proj2 (Z.ltb_ge (day t) 1)), (proj2 (Z.ltb_ge (hour t) 0)),
      (proj2 (Z.ltb_ge (minute t) 0)), (proj2 (Z.ltb_ge (second t) 0)) by lia.
    rewrite !Z.gtb_ltb, (proj2 (Z.ltb_ge 9999 (year t))), (proj2 (Z.ltb_ge 12 (month t))), (proj2 (Z.ltb_ge 31 (day t))), (proj2 (Z.ltb_ge 23 (hour t))),
      (proj2 (Z.ltb_ge 59 (minute t))), (proj2 (Z.ltb_ge 59 (second t))) by lia. cbn [orb].
    destruct (month_facts (leap_year (year t)) (month t) ltac:(lia)) as (_ & _ & _ & E & Hd & _). rewrite E. cbn [mbind option_bind].
    rewrite leap_source by lia. f_equal. destruct ((month t =? 2) && leap_year (year t)); apply Z.leb_le; lia.
  - assert (Hx : (year t <? 1) || (year t >? 9999) || (month t <? 1) || (month t >? 12) || (day t <? 1) || (day t >? 31)
     || (hour t <? 0) || (hour t >? 23) || (minute t <? 0) || (minute t >? 59) || (second t <? 0) || (second t >? 59) = true).
    { apply not_false_iff_true. intros E. repeat (apply orb_false_iff in E as [E ?]). apply H.
      rewrite !Z.gtb_ltb in *. repeat match goal with E : (_ <? _) = false |- _ => apply Z.ltb_ge in E end. lia. }
    by rewrite Hx.
Qed.

(** ** The theorems *)

(** [SecondsToDateTime] answers false outside 0001-01-01 .. 9999-12-31, and otherwise the
    one date whose seconds these are. *)
Theorem seconds_to_date_time_correct (seconds : Z) :
  (~ (kMinTime <= seconds <= kMaxTime) -> SecondsToDateTime seconds = Some None) /\
  (kMinTime <= seconds <= kMaxTime -> exists t, SecondsToDateTime seconds = Some (Some t) /\
     forall t', is_date t' /\ era_seconds t' = seconds + kSecondsFromEraToEpoch <-> t' = t).
Proof.
  split.
  - intros H. unfold SecondsToDateTime. destruct (Z.ltb_spec seconds kMinTime); [done|]. destruct (Z.gtb_spec seconds kMaxTime); [done|lia].
  - intros H. destruct (to_date seconds H) as (t & E & Hd & Ht). exists t. split; [done|]. intros t'. split; [|by intros ->].
    intros [Hd' Ht']. apply era_inj; [done..|lia].
Qed.

(** [DateTimeToSeconds] computes the seconds of a date that exists, answers false when a field
    is out of its range, and fails in an assertion when only the day is too large for the
    month. *)
Theorem date_time_to_seconds_correct (t : DateTime) :
  DateTimeToSeconds t =
    if bool_decide (1 <= year t <= 9999 /\ 1 <= month t <= 12 /\ 1 <= day t <= 31 /\ 0 <= hour t <= 23 /\ 0 <= minute t <= 59 /\ 0 <= second t <= 59)
    then if day t <=? days_in (leap_year (year t)) (month t) then Some (Some (era_seconds t - kSecondsFromEraToEpoch)) else None
    else Some None.
Proof.
  unfold DateTimeToSeconds. rewrite validate. cbn [mbind option_bind]. case_bool_decide as H; [|done]. cbn [negb].
  rewrite since_era by lia. by destruct (day t <=? _).
Qed.

(** C40. Both directions undo each other. *)
Theorem date_time_roundtrip :
  (forall t, is_date t -> exists s, DateTimeToSeconds t = Some (Some s) /\ SecondsToDateTime s = Some (Some t)) /\
  (forall s, kMinTime <= s <= kMaxTime -> exists t, SecondsToDateTime s = Some (Some t) /\ DateTimeToSeconds t = Some (Some s)).
Proof.
  assert (Hto : forall t, is_date t -> DateTimeToSeconds t = Some (Some (era_seconds t - kSecondsFromEraToEpoch))).
  { intros t Hd. unfold DateTimeToSeconds. destruct Hd as (Hy & Hm & Hd & Hr). destruct (month_facts (leap_year (year t)) (month t) Hm) as (_ & _ & _ & _ & Hb & _).
    rewrite validate, bool_decide_true by lia. cbn [mbind option_bind negb]. rewrite since_era by lia. by rewrite (proj2 (Z.leb_le _ _)) by lia. }
  split.
  - intros t Hd. exists (era_seconds t - kSecondsFromEraToEpoch). split; [by apply Hto|].
    pose proof (era_range t Hd) as Hr. rewrite last_day in Hr.
    destruct (to_date (era_seconds t - kSecondsFromEraToEpoch)) as (t' & E & Hd' & Ht'); [unfold kMinTime, kMaxTime, kSecondsFromEraToEpoch; lia|].
    rewrite E. do 2 f_equal. apply era_inj; [done..|lia].
  - intros s Hs. destruct (to_date s Hs) as (t & E & Hd & Ht). exists t. split; [done|]. rewrite Hto by done. do 2 f_equal. lia.
Qed.

(** ** Examples *)

Example leap_second_of_february : SecondsToDateTime 951868799 = Some (Some {| year := 2000; month := 2; day := 29; hour := 23; minute := 59; second := 59 |}).
Proof. reflexivity. Qed.
(** The 30th of February passes the validation and fails in the assertion behind it. *)
Example february_30 : let t := {| year := 2001; month := 2; day := 30; hour := 0; minute := 0; second := 0 |} in
  ValidateDateTime t = Some true /\ DateTimeToSeconds t = None.
Proof. by vm_compute. Qed.

Lemma seconds_to_date_time_correct_witness : exists t, SecondsToDateTime (-1) = Some (Some t) /\ day t = 31.
Proof.
  destruct (proj2 (seconds_to_date_time_correct (-1)) ltac:(by vm_compute)) as (t & E & H). exists t. split; [done|].
  vm_compute in E. by injection E as <-.
Defined.
Lemma date_time_roundtrip_witness : exists t, SecondsToDateTime 0 = Some (Some t) /\ DateTimeToSeconds t = Some (Some 0).
Proof. exact (proj2 date_time_roundtrip 0 ltac:(by vm_compute)). Defined.
