(* ===== verification/Heap.v ===== *)
(** * Heap: [BinaryHeap] of [src/util/small_container.h]

    A priority queue in an array, with the index of the larger child of the root
    remembered between calls.  Moving an object out leaves an unspecified one behind
    ([moved]).  [kMaxSizet], which is no index, is [None].  An index is below the size of
    the array, so that twice an index does not wrap around. *)

From Stdlib Require Import Sorting.Sorted.
From S2P Require Import Prelude.
#[local] Open Scope nat_scope.

(** The relation of [Compare]: a strict weak order. *)
Class WeakOrder {T : Type} (cmp_ : T -> T -> bool) := {
  cmp_irrefl x : cmp_ x x = false;
  cmp_trans x y z : cmp_ x y = true -> cmp_ y z = true -> cmp_ x z = true;
  cmp_not_trans x y z : cmp_ x y = false -> cmp_ y z = false -> cmp_ x z = false }.

(** ** The source *)

Section heap.
Context {T : Type} (cmp_ : T -> T -> bool) (moved : T -> T).

Record heap := { data_ : list T; root_cmp_cache_ : option nat }.

Definition heap_new : heap := {| data_ := []; root_cmp_cache_ := None |}.

Definition get_root : nat := 0.
Definition get_parent (index : nat) : nat := (index - 1) / 2.
Definition get_left (index : nat) : nat := 2 * index + 1.
Definition get_right (index : nat) : nat := 2 * index + 2.

(** [data_[dst] = std::move(data_[src])] where [src] holds [x]. *)
Definition move_to (dst src : nat) (x : T) (data : list T) : list T := <[dst := x]> (<[src := moved x]> data).

Fixpoint upheap_loop (fuel : nat) (v : T) (index : nat) (data : list T) : option (nat * list T) :=
  if get_root <? index then
    match fuel with
    | O => None
    | S fuel =>
        let parent := get_parent index in
        x ← data !! parent;
        if negb (cmp_ x v) then Some (index, data) else upheap_loop fuel v parent (move_to index parent x data)
    end
  else Some (index, data).
Definition upheap (index : nat) (h : heap) : option heap :=
  v ← data_ h !! index;
  '(index, data) ← upheap_loop (length (data_ h)) v index (<[index := moved v]> (data_ h));
  Some {| data_ := <[index := v]> data; root_cmp_cache_ := None |}.

(** The child that is compared with [v]. *)
Definition pick_child (cache : option nat) (index : nat) (data : list T) : option nat :=
  let left_child := get_left index in
  let right_child := left_child + 1 in
  let compare :=
    if right_child <? length data then
      x ← data !! left_child; y ← data !! right_child; Some (if cmp_ x y then right_child else left_child)
    else Some left_child in
  match cache with
  | Some c => if (index =? 0) && (c <? length data) then Some c else compare
  | None => compare
  end.
Fixpoint downheap_loop (fuel : nat) (cache : option nat) (v : T) (index : nat) (picked_child : option nat) (data : list T) :
    option (nat * option nat * list T) :=
  if length data <=? get_left index then Some (index, picked_child, data)
  else
    match fuel with
    | O => None
    | S fuel =>
        picked_child ← pick_child cache index data;
        x ← data !! picked_child;
        if negb (cmp_ v x) then Some (index, Some picked_child, data)
        else downheap_loop fuel cache v picked_child (Some picked_child) (move_to index picked_child x data)
    end.
Definition downheap (index : nat) (h : heap) : option heap :=
  v ← data_ h !! index;
  '(index, picked_child, data) ← downheap_loop (length (data_ h)) (root_cmp_cache_ h) v index None (<[index := moved v]> (data_ h));
  Some {| data_ := <[index := v]> data; root_cmp_cache_ := if index =? 0 then picked_child else None |}.

Definition push (value : T) (h : heap) : option heap :=
  let data := data_ h ++ [value] in upheap (length data - 1) {| data_ := data; root_cmp_cache_ := root_cmp_cache_ h |}.
Definition empty (h : heap) : bool := length (data_ h) =? 0.
Definition top (h : heap) : option T := if empty h then None else data_ h !! get_root.
Definition replace_top (value : T) (h : heap) : option heap :=
  if empty h then None
  else downheap get_root {| data_ := <[0 := value]> (data_ h); root_cmp_cache_ := root_cmp_cache_ h |}.
Definition pop (h : heap) : option heap :=
  if empty h then None
  else
    back ← data_ h !! (length (data_ h) - 1);
    let data := move_to 0 (length (data_ h) - 1) back (data_ h) in
    let h := {| data_ := take (length data - 1) data; root_cmp_cache_ := root_cmp_cache_ h |} in
    if negb (empty h) then downheap get_root h else Some {| data_ := data_ h; root_cmp_cache_ := None |}.
Definition clear (h : heap) : heap := {| data_ := []; root_cmp_cache_ := None |}.
Definition swap (h other : heap) : heap * heap :=
  ({| data_ := data_ other; root_cmp_cache_ := root_cmp_cache_ other |}, {| data_ := data_ h; root_cmp_cache_ := root_cmp_cache_ h |}).
End heap.

(** ** Lists *)

Lemma insert_perm {A} (l : list A) i x y : l !! i = Some x -> x :: <[i := y]> l ≡ₚ y :: l.
Proof.
  intros Hi. rewrite insert_take_drop by (by eapply lookup_lt_Some). rewrite <-(take_drop_middle l i x Hi) at 3.
  rewrite <-!Permutation_middle. apply Permutation_swap.
Qed.
Lemma swap_perm {A} (l : list A) i j x y : i <> j -> l !! i = Some x -> l !! j = Some y -> <[j := x]> (<[i := y]> l) ≡ₚ l.
Proof.
  intros Hij Hi Hj. apply (Permutation_cons_inv (a:=y)).
  etransitivity; [apply insert_perm; by rewrite list_lookup_insert_ne|]. by apply insert_perm.
Qed.

(** ** The order of a heap *)

Section order.
Context {T : Type} (cmp_ : T -> T -> bool) (moved : T -> T) `{HW : !WeakOrder cmp_}.
Implicit Types (l : list T) (x y v : T) (i j : nat).

Lemma cmp_asym x y : cmp_ x y = true -> cmp_ y x = false.
Proof. intros H. apply not_true_iff_false. intros H'. pose proof (cmp_trans _ _ _ H H') as E. by rewrite cmp_irrefl in E. Qed.

Lemma parent_lt j : 0 < j -> get_parent j < j.
Proof. intros. unfold get_parent. apply Nat.Div0.div_lt_upper_bound; lia. Qed.
Lemma parent_child i j : 0 < j -> get_parent j = i <-> j = get_left i \/ j = get_right i.
Proof.
  intros Hj. unfold get_parent, get_left, get_right. split.
  - intros <-. pose proof (Nat.div_mod (j - 1) 2 ltac:(lia)). pose proof (Nat.mod_upper_bound (j - 1) 2 ltac:(lia)). lia.
  - intros [->| ->]; [replace (2 * i + 1 - 1) with (i * 2) by lia; by rewrite Nat.div_mul by lia|].
    replace (2 * i + 2 - 1) with (1 + i * 2) by lia. rewrite Nat.div_add by lia. done.
Qed.

(** No element is below its child, but for the pairs [P]. *)
Definition ordered_but (P : nat -> Prop) l : Prop :=
  forall j x y, 0 < j -> ~ P j -> l !! get_parent j = Some x -> l !! j = Some y -> cmp_ x y = false.
(** The children of [i] are not above the parent of [i]. *)
Definition bridged i l : Prop :=
  forall j x y, 0 < i -> 0 < j -> get_parent j = i -> l !! get_parent i = Some x -> l !! j = Some y -> cmp_ x y = false.
Definition heap_order l : Prop := ordered_but (fun _ => False) l.

Lemma lookup_swapped l i p v x k : p <> i -> is_Some (l !! i) -> is_Some (l !! p) ->
  <[p := v]> (<[i := x]> l) !! k = if decide (k = p) then Some v else if decide (k = i) then Some x else l !! k.
Proof.
  intros Hpi [? Hi%lookup_lt_Some] [? Hp%lookup_lt_Some]. case_decide as E; [subst; by apply list_lookup_insert_eq; rewrite length_insert|].
  rewrite list_lookup_insert_ne by done. case_decide as E'; [subst; by apply list_lookup_insert_eq|]. by rewrite list_lookup_insert_ne.
Qed.

(** A step of [upheap], with [v] in the hole. *)
Lemma up_step l i v x : 0 < i -> l !! i = Some v -> l !! get_parent i = Some x -> cmp_ x v = true ->
  ordered_but (eq i) l -> bridged i l ->
  ordered_but (eq (get_parent i)) (<[get_parent i := v]> (<[i := x]> l)) /\ bridged (get_parent i) (<[get_parent i := v]> (<[i := x]> l)).
Proof.
  intros Hi Hv Hx Hc HO HB. pose proof (parent_lt i Hi) as Hp.
  assert (HL : forall k, <[get_parent i := v]> (<[i := x]> l) !! k = if decide (k = get_parent i) then Some v else if decide (k = i) then Some x else l !! k)
    by (intros k; apply lookup_swapped; [lia|done..]).
  split.
  - intros j a b Hj Hne. rewrite !HL. pose proof (parent_lt j Hj).
    destruct (decide (get_parent j = get_parent i)) as [E|E]; [intros [= <-]|].
    + destruct (decide (j = get_parent i)); [lia|]. destruct (decide (j = i)); [intros [= <-]; by apply cmp_asym|].
      intros Hb. apply not_true_iff_false. intros Hvb. pose proof (cmp_trans _ _ _ Hc Hvb) as Hxb. rewrite (HO j x b Hj) in Hxb; [done|congruence|by rewrite E|done].
    + destruct (decide (get_parent j = i)) as [E'|E']; [intros [= <-]|].
      * destruct (decide (j = get_parent i)); [lia|]. destruct (decide (j = i)); [lia|]. intros Hb. by apply (HB j x b Hi Hj E').
      * intros Ha. destruct (decide (j = get_parent i)) as [->|]; [by destruct Hne|]. destruct (decide (j = i)) as [->|]; [done|]. intros Hb. by apply (HO j a b).
  - intros j a b Hpi Hj E. rewrite !HL. pose proof (parent_lt _ Hpi). destruct (decide (get_parent (get_parent i) = get_parent i)); [lia|].
    destruct (decide (get_parent (get_parent i) = i)); [lia|]. intros Ha.
    assert (Hax : cmp_ a x = false) by (apply (HO (get_parent i) a x Hpi); [lia|done..]).
    destruct (decide (j = get_parent i)) as [->|]; [lia|]. destruct (decide (j = i)) as [->|]; [by intros [= <-]|]. intros Hb.
    apply (cmp_not_trans a x b Hax). apply (HO j x b Hj); [congruence|by rewrite E|done].
Qed.

(** A step of [downheap]: [c] is the child that no other child is above. *)
Lemma down_step l i c v x : 0 < c -> get_parent c = i -> l !! i = Some v -> l !! c = Some x -> cmp_ v x = true ->
  (forall j y, 0 < j -> get_parent j = i -> l !! j = Some y -> cmp_ x y = false) ->
  ordered_but (fun j => get_parent j = i) l -> bridged i l ->
  ordered_but (fun j => get_parent j = c) (<[c := v]> (<[i := x]> l)) /\ bridged c (<[c := v]> (<[i := x]> l)).
Proof.
  intros Hc Hi Hv Hx Hcmp Hmax HO HB. pose proof (parent_lt c Hc) as Hlt.
  assert (HL : forall k, <[c := v]> (<[i := x]> l) !! k = if decide (k = c) then Some v else if decide (k = i) then Some x else l !! k)
    by (intros k; apply lookup_swapped; [lia|done..]).
  split.
  - intros j a b Hj Hne. rewrite !HL. pose proof (parent_lt j Hj). destruct (decide (get_parent j = c)) as [E|E]; [by destruct Hne|].
    destruct (decide (get_parent j = i)) as [E'|E']; [intros [= <-]|].
    + destruct (decide (j = c)); [intros [= <-]; by apply cmp_asym|]. destruct (decide (j = i)); [lia|]. intros Hb. by apply (Hmax j b).
    + intros Ha. destruct (decide (j = c)) as [->|]; [lia|]. destruct (decide (j = i)) as [->|]; [|intros Hb; by apply (HO j a b)].
      intros [= <-]. apply (HB c a x); done || lia.
  - intros j a b _ Hj E. rewrite !HL, Hi. destruct (decide (i = c)); [lia|]. rewrite decide_True by done. intros [= <-].
    destruct (decide (j = c)); [subst j; lia|]. destruct (decide (j = i)) as [->|]; [pose proof (parent_lt i Hj); lia|]. intros Hb.
    apply (HO j x b Hj); [lia|by rewrite E|done].
Qed.

(** A move leaves the hole behind. *)
Lemma move_fill (i p : nat) x v l : p <> i -> <[p := v]> (move_to moved i p x l) = <[p := v]> (<[i := x]> (<[i := v]> l)).
Proof. intros Hne. unfold move_to. rewrite list_insert_insert_eq, (list_insert_insert_ne _ i p) by done. by rewrite list_insert_insert_eq. Qed.

Lemma upheap_loop_ok fuel v i d : i <= fuel -> i < length d ->
  ordered_but (eq i) (<[i := v]> d) -> bridged i (<[i := v]> d) ->
  exists i' d', upheap_loop cmp_ moved fuel v i d = Some (i', d') /\ heap_order (<[i' := v]> d') /\ <[i' := v]> d' ≡ₚ <[i := v]> d.
Proof.
  revert i d. induction fuel as [|fuel IH]; intros i d Hf Hl HO HB; cbn [upheap_loop]; unfold get_root.
  - assert (i = 0) as -> by lia. cbn [Nat.ltb Nat.leb]. exists 0, d. split; [done|]. split; [|done].
    intros j x y Hj _. by apply HO; [|lia].
  - destruct (Nat.ltb_spec 0 i) as [Hi|Hi]; cycle 1.
    { assert (i = 0) as -> by lia. exists 0, d. split; [done|]. split; [|done]. intros j x y Hj _. by apply HO; [|lia]. }
    pose proof (parent_lt i Hi) as Hp. destruct (lookup_lt_is_Some_2 d (get_parent i) ltac:(lia)) as [x Hx]. rewrite Hx. cbn [mbind option_bind].
    assert (Hx' : <[i := v]> d !! get_parent i = Some x) by (rewrite list_lookup_insert_ne by lia; done).
    assert (Hv : <[i := v]> d !! i = Some v) by (by apply list_lookup_insert_eq).
    destruct (cmp_ x v) eqn:Ec; cbn [negb].
    + destruct (up_step _ i v x Hi Hv Hx' Ec HO HB) as [HO' HB']. rewrite <-(move_fill i (get_parent i)) in HO', HB' by lia.
      destruct (IH (get_parent i) (move_to moved i (get_parent i) x d)) as (i' & d' & E & H1 & H2); [lia|unfold move_to; rewrite !length_insert; lia|done|done|].
      exists i', d'. split; [done|]. split; [done|]. rewrite H2, move_fill by lia. apply swap_perm; [lia|done|done].
    + exists i, d. split; [done|]. split; [|done]. intros j a b Hj _ Ha Hb. destruct (decide (i = j)) as [<-|Hne]; [congruence|]. by apply (HO j a b).
Qed.

(** The remembered child of the root. *)
Definition cache_ok (cache : option nat) l : Prop :=
  match cache with
  | None => True
  | Some c => c < length l -> 0 < c /\ get_parent c = 0 /\
      forall j x y, 0 < j -> get_parent j = 0 -> l !! c = Some x -> l !! j = Some y -> cmp_ x y = false
  end.

Lemma pick_child_ok cache i d : get_left i < length d -> (i = 0 -> cache_ok cache d) ->
  exists c, pick_child cmp_ cache i d = Some c /\ 0 < c /\ get_parent c = i /\ c < length d /\
    forall j x y, 0 < j -> get_parent j = i -> d !! c = Some x -> d !! j = Some y -> cmp_ x y = false.
Proof.
  intros Hl Hcache. assert (Hleft : get_parent (get_left i) = i) by (apply parent_child; [unfold get_left; lia|by left]).
  assert (Hpos : 0 < get_left i) by (unfold get_left; lia).
  assert (Hright : get_parent (get_left i + 1) = i) by (apply parent_child; [lia|right; unfold get_left, get_right; lia]).
  assert (Hcmp : exists c, (if get_left i + 1 <? length d then x ← d !! get_left i; y ← d !! (get_left i + 1); Some (if cmp_ x y then get_left i + 1 else get_left i)
      else Some (get_left i)) = Some c /\ 0 < c /\ get_parent c = i /\ c < length d /\
    forall j x y, 0 < j -> get_parent j = i -> d !! c = Some x -> d !! j = Some y -> cmp_ x y = false).
  { destruct (lookup_lt_is_Some_2 d (get_left i) Hl) as [x Hx].
    assert (Hj : forall j, 0 < j -> get_parent j = i -> j = get_left i \/ j = get_left i + 1) by (intros j Hj E; apply parent_child in E as [?|?]; unfold get_left, get_right in *; lia).
    destruct (Nat.ltb_spec (get_left i + 1) (length d)) as [Hr|Hr].
    - destruct (lookup_lt_is_Some_2 d (get_left i + 1) Hr) as [y Hy]. rewrite Hx, Hy. cbn [mbind option_bind].
      destruct (cmp_ x y) eqn:E; eexists; (split; [reflexivity|]).
      + split; [lia|]. split; [done|]. split; [done|]. intros j a b Hj0 Hpj Ha Hb. destruct (Hj j Hj0 Hpj) as [->| ->]; [|by replace b with a by congruence; apply cmp_irrefl].
        replace a with y by congruence. replace b with x by congruence. by apply cmp_asym.
      + split; [lia|]. split; [done|]. split; [done|]. intros j a b Hj0 Hpj Ha Hb. destruct (Hj j Hj0 Hpj) as [->| ->]; [by replace b with a by congruence; apply cmp_irrefl|congruence].
    - eexists. split; [reflexivity|]. split; [lia|]. split; [done|]. split; [done|]. intros j a b Hj0 Hpj Ha Hb. apply lookup_lt_Some in Hb as Hlt.
      destruct (Hj j Hj0 Hpj) as [->| ->]; [by replace b with a by congruence; apply cmp_irrefl|lia]. }
  unfold pick_child. destruct cache as [c|]; [|done]. destruct (Nat.eqb_spec i 0) as [->|]; [|done].
  destruct (Nat.ltb_spec c (length d)) as [Hc|]; [|done]. cbn [andb]. destruct (Hcache eq_refl Hc) as (H1 & H2 & H3). exists c. split; [done|]. by split_and!.
Qed.

(** Only the children of the root matter to the cache. *)
Lemma cache_ok_ext cache l l' : length l' = length l -> (forall j, 0 < j -> l' !! j = l !! j) -> cache_ok cache l -> cache_ok cache l'.
Proof.
  intros Hlen He. destruct cache as [c|]; [|done]. cbn. rewrite Hlen. intros H Hc. destruct (H Hc) as (H1 & H2 & H3). split; [done|]. split; [done|].
  intros j x y Hj Hp. rewrite !He by done. by apply H3.
Qed.

Lemma downheap_loop_ok fuel cache v i pc d : length d - i <= fuel -> i < length d ->
  ordered_but (fun j => get_parent j = i) (<[i := v]> d) -> bridged i (<[i := v]> d) -> (i = 0 -> cache_ok cache d /\ pc = None) ->
  exists i' pc' d', downheap_loop cmp_ moved fuel cache v i pc d = Some (i', pc', d') /\
    heap_order (<[i' := v]> d') /\ <[i' := v]> d' ≡ₚ <[i := v]> d /\ (i' = 0 -> cache_ok pc' (<[i' := v]> d')).
Proof.
  revert i pc d. induction fuel as [|fuel IH]; intros i pc d Hf Hl HO HB Hcache; [lia|]. cbn [downheap_loop].
  assert (Hgt : get_left i = 2 * i + 1) by done.
  destruct (Nat.leb_spec (length d) (get_left i)) as [Hlen|Hlen].
  - exists i, pc, d. split; [done|]. split; [|split; [done|intros ->; destruct (Hcache eq_refl) as [_ ->]; done]].
    intros j x y Hj _ Hx Hy. destruct (decide (get_parent j = i)) as [E|]; [|by apply (HO j x y)].
    apply lookup_lt_Some in Hy. rewrite length_insert in Hy. apply parent_child in E; [|done]. unfold get_right in E. lia.
  - destruct (pick_child_ok cache i d Hlen ltac:(intros ->; by apply Hcache)) as (c & -> & Hc0 & Hcp & Hcl & Hmax). cbn [mbind option_bind].
    pose proof (parent_lt c Hc0) as Hlt. destruct (lookup_lt_is_Some_2 d c Hcl) as [x Hx]. rewrite Hx. cbn [mbind option_bind].
    assert (Hl' : forall j, j <> i -> <[i := v]> d !! j = d !! j) by (intros j Hj; by rewrite list_lookup_insert_ne by done).
    assert (Hv : <[i := v]> d !! i = Some v) by (by apply list_lookup_insert_eq).
    assert (Hmax' : forall j y, 0 < j -> get_parent j = i -> <[i := v]> d !! j = Some y -> cmp_ x y = false).
    { intros j y Hj Hp. rewrite Hl' by (pose proof (parent_lt j Hj); lia). by apply Hmax. }
    destruct (cmp_ v x) eqn:Ec; cbn [negb].
    + destruct (down_step _ i c v x Hc0 Hcp Hv ltac:(rewrite Hl' by lia; done) Ec Hmax' HO HB) as [HO' HB']. rewrite <-(move_fill i c) in HO', HB' by lia.
      destruct (IH c (Some c) (move_to moved i c x d)) as (i' & pc' & d' & E & H1 & H2 & H3);
        [unfold move_to; rewrite !length_insert; lia|unfold move_to; rewrite !length_insert; lia|done|done|lia|].
      exists i', pc', d'. split; [done|]. split; [done|]. split; [|done]. rewrite H2, move_fill by lia. apply swap_perm; [lia|done|by rewrite Hl' by lia].
    + exists i, (Some c), d. split; [done|]. split; [|split; [done|]].
      * intros j a b Hj _ Ha Hb. destruct (decide (get_parent j = i)) as [E|]; [|by apply (HO j a b)]. rewrite E, Hv in Ha. injection Ha as <-.
        apply (cmp_not_trans v x b Ec). by apply (Hmax' j b).
      * intros -> _. split; [done|]. split; [done|]. intros j a b Hj Hp. rewrite !Hl' by lia. by apply Hmax.
Qed.
End order.

(** ** The operations *)

Section operations.
Context {T : Type} (cmp_ : T -> T -> bool) (moved : T -> T) `{HW : !WeakOrder cmp_}.
Implicit Types (h : heap (T:=T)) (v x y : T).

Definition heap_ok h : Prop := heap_order cmp_ (data_ h) /\ cache_ok cmp_ (root_cmp_cache_ h) (data_ h).

(** Nothing is above the root. *)
Lemma root_max l i x y : heap_order cmp_ l -> l !! 0 = Some x -> l !! i = Some y -> cmp_ x y = false.
Proof.
  intros HO Hx. revert y. induction i as [i IH] using lt_wf_ind. intros y Hy. destruct (decide (i = 0)) as [->|Hi]; [replace y with x by congruence; apply cmp_irrefl|].
  pose proof (parent_lt i ltac:(lia)) as Hp. apply lookup_lt_Some in Hy as Hlt. destruct (lookup_lt_is_Some_2 l (get_parent i) ltac:(lia)) as [z Hz].
  apply (cmp_not_trans x z y); [by apply (IH (get_parent i))|]. apply (HO i z y); [lia|tauto|done..].
Qed.

Lemma upheap_ok i h v : data_ h !! i = Some v -> ordered_but cmp_ (eq i) (data_ h) -> bridged cmp_ i (data_ h) ->
  exists h', upheap cmp_ moved i h = Some h' /\ heap_ok h' /\ data_ h' ≡ₚ data_ h.
Proof.
  intros Hv HO HB. apply lookup_lt_Some in Hv as Hl. unfold upheap. rewrite Hv. cbn [mbind option_bind].
  assert (E : <[i := v]> (<[i := moved v]> (data_ h)) = data_ h) by (rewrite list_insert_insert_eq; by apply list_insert_id).
  destruct (upheap_loop_ok cmp_ moved (length (data_ h)) v i (<[i := moved v]> (data_ h))) as (i' & d' & -> & H1 & H2); rewrite ?length_insert, ?E; try done; [lia|].
  eexists. split; [reflexivity|]. split; [split; done|]. by rewrite E in H2.
Qed.
Lemma downheap_ok h v : data_ h !! 0 = Some v -> ordered_but cmp_ (fun j => get_parent j = 0) (data_ h) -> cache_ok cmp_ (root_cmp_cache_ h) (data_ h) ->
  exists h', downheap cmp_ moved 0 h = Some h' /\ heap_ok h' /\ data_ h' ≡ₚ data_ h.
Proof.
  intros Hv HO HC. apply lookup_lt_Some in Hv as Hl. unfold downheap. rewrite Hv. cbn [mbind option_bind].
  assert (E : <[0 := v]> (<[0 := moved v]> (data_ h)) = data_ h) by (rewrite list_insert_insert_eq; by apply list_insert_id).
  destruct (downheap_loop_ok cmp_ moved (length (data_ h)) (root_cmp_cache_ h) v 0 None (<[0 := moved v]> (data_ h))) as (i' & pc' & d' & -> & H1 & H2 & H3);
    rewrite ?length_insert, ?E; try done; [lia|intros ? ? ?; lia| |].
  { intros _. split; [|done]. eapply cache_ok_ext; [| |exact HC]; [by rewrite length_insert|]. intros j Hj. by rewrite list_lookup_insert_ne by lia. }
  eexists. split; [reflexivity|]. rewrite E in H2. split; [split; [done|]|done]. cbn [root_cmp_cache_ data_]. destruct (Nat.eqb_spec i' 0); [by apply H3|done].
Qed.

(** The list of a heap starts with an element that no other is above. *)
Definition head_max (l : list T) : Prop := match l with [] => True | m :: rest => forall x, x ∈ rest -> cmp_ m x = false end.
Lemma heap_head_max h : heap_ok h -> head_max (data_ h).
Proof.
  intros [HO _]. destruct (data_ h) as [|m rest] eqn:E; [done|]. intros x (i & Hi)%list_elem_of_lookup.
  by apply (root_max (m :: rest) (S i) m x).
Qed.

Lemma push_ok v h : heap_ok h -> exists h', push cmp_ moved v h = Some h' /\ heap_ok h' /\ data_ h' ≡ₚ v :: data_ h.
Proof.
  intros [HO _]. unfold push. rewrite length_app. cbn [length]. replace (length (data_ h) + 1 - 1) with (length (data_ h)) by lia.
  set (h1 := {| data_ := data_ h ++ [v]; root_cmp_cache_ := root_cmp_cache_ h |}).
  assert (Hlast : forall j x, (data_ h ++ [v]) !! j = Some x -> j <= length (data_ h)) by (intros j x Hj; apply lookup_lt_Some in Hj; rewrite length_app in Hj; cbn in Hj; lia).
  destruct (upheap_ok (length (data_ h)) h1 v) as (h' & E & H1 & H2); cbn [h1 data_].
  - by apply list_lookup_middle.
  - intros j x y Hj Hne Hx Hy. pose proof (Hlast _ _ Hy). pose proof (parent_lt j Hj). rewrite lookup_app_l in Hx, Hy by lia.
    apply (HO j x y Hj); [tauto|done..].
  - intros j x y _ Hj Hp _ Hy. pose proof (Hlast _ _ Hy). pose proof (parent_lt j Hj). lia.
  - exists h'. split; [done|]. split; [done|]. rewrite H2. cbn. symmetry. apply Permutation_cons_append.
Qed.

Lemma replace_top_ok v m rest h : heap_ok h -> data_ h = m :: rest -> exists h', replace_top cmp_ moved v h = Some h' /\ heap_ok h' /\ data_ h' ≡ₚ v :: rest.
Proof.
  intros [HO HC] E. unfold replace_top, empty. rewrite E. cbn [length Nat.eqb].
  destruct (downheap_ok {| data_ := <[0 := v]> (m :: rest); root_cmp_cache_ := root_cmp_cache_ h |} v) as (h' & E' & H1 & H2); [done| | |by exists h'].
  - intros j x y Hj Hne Hx Hy. rewrite E in HO. cbn [data_] in *. destruct (decide (get_parent j = 0)); [done|]. rewrite list_lookup_insert_ne in Hx, Hy by lia.
    apply (HO j x y Hj); [tauto|done..].
  - rewrite E in HC. eapply cache_ok_ext; [|intros j Hj|exact HC]; [done|]. cbn [data_]. by rewrite list_lookup_insert_ne by lia.
Qed.

Lemma pop_ok m rest h : heap_ok h -> data_ h = m :: rest -> exists h', pop cmp_ moved h = Some h' /\ heap_ok h' /\ data_ h' ≡ₚ rest.
Proof.
  intros [HO HC] E. unfold pop, empty. rewrite E. cbn [length Nat.eqb]. replace (S (length rest) - 1) with (length rest) by lia.
  destruct rest as [|x rest] using rev_ind.
  - cbn. eexists. split; [reflexivity|]. split; [split; [by intros j x y _ _ Hx|done]|done].
  - clear IHrest. rewrite length_app. cbn [length]. rewrite (list_lookup_middle (m :: rest) [] x) by (cbn; lia). cbn [mbind option_bind].
    assert (Ed : take (length (move_to moved 0 (length rest + 1) x (m :: rest ++ [x])) - 1) (move_to moved 0 (length rest + 1) x (m :: rest ++ [x])) = x :: rest).
    { unfold move_to. rewrite !length_insert. cbn [length]. rewrite length_app. cbn [length]. change (m :: rest ++ [x]) with ((m :: rest) ++ [x]).
      rewrite insert_app_r_alt by (cbn; lia). rewrite insert_app_l by (cbn; lia). change (<[0 := x]> (m :: rest)) with (x :: rest).
      replace (S (length rest + 1) - 1) with (length (x :: rest)) by (cbn; lia). by rewrite take_app_length. }
    rewrite Ed. cbn [data_ length Nat.eqb negb].
    assert (Hsame : forall j a, 0 < j -> (x :: rest) !! j = Some a -> (m :: rest ++ [x]) !! j = Some a)
      by (intros [|k] a Hk; [lia|]; intros Ha; by apply (lookup_app_l_Some rest [x] k a)).
    destruct (downheap_ok {| data_ := x :: rest; root_cmp_cache_ := root_cmp_cache_ h |} x) as (h' & E' & H1 & H2); cbn [data_ root_cmp_cache_]; [done| | |].
    + intros j a b Hj Hne Ha Hb. rewrite E in HO. apply (HO j a b Hj); [tauto|apply Hsame; [lia|done]|by apply Hsame].
    + destruct (root_cmp_cache_ h) as [c|]; [|done]. cbn [cache_ok length] in *. rewrite E in HC. cbn [length] in HC. rewrite length_app in HC. cbn [length] in HC.
      intros Hc. destruct (HC ltac:(lia)) as (H1 & H2 & H3). split; [done|]. split; [done|]. intros j a b Hj Hp Ha Hb.
      apply (H3 j a b Hj Hp); by apply Hsame.
    + exists h'. split; [exact E'|]. split; [done|]. rewrite H2. apply Permutation_cons_append.
Qed.
End operations.

(** ** Sequences of calls *)

Section calls.
Context {T : Type} (cmp_ : T -> T -> bool) (moved : T -> T).
Implicit Types (h : heap (T:=T)) (v x m : T) (l : list T).

Inductive call := Push (value : T) | Pop | Top | ReplaceTop (value : T) | Empty | Clear.
Inductive reply := Done | Value (x : T) | Flag (b : bool).
Definition do_call (c : call) h : option (reply * heap) :=
  match c with
  | Push v => h ← push cmp_ moved v h; Some (Done, h)
  | Pop => h ← pop cmp_ moved h; Some (Done, h)
  | Top => x ← top h; Some (Value x, h)
  | ReplaceTop v => h ← replace_top cmp_ moved v h; Some (Done, h)
  | Empty => Some (Flag (empty h), h)
  | Clear => Some (Done, clear h)
  end.
Fixpoint do_calls (cs : list call) h : option heap :=
  match cs with [] => Some h | c :: cs => '(_, h) ← do_call c h; do_calls cs h end.

(** A bag that shows one of its largest elements first, and what a call does to it. *)
Inductive queue_step : list T -> call -> reply -> list T -> Prop :=
  | step_push l v l' : l' ≡ₚ v :: l -> queue_step l (Push v) Done l'
  | step_pop m l l' : l' ≡ₚ l -> queue_step (m :: l) Pop Done l'
  | step_top m l : queue_step (m :: l) Top (Value m) (m :: l)
  | step_replace m v l l' : l' ≡ₚ v :: l -> queue_step (m :: l) (ReplaceTop v) Done l'
  | step_empty l : queue_step l Empty (Flag (bool_decide (l = []))) l
  | step_clear l : queue_step l Clear Done [].
Definition needs_element (c : call) : bool := match c with Pop | Top | ReplaceTop _ => true | _ => false end.

Lemma call_ok `{HW : !WeakOrder cmp_} c h : heap_ok cmp_ h ->
  (needs_element c = true /\ data_ h = [] /\ do_call c h = None) \/
  exists r h', do_call c h = Some (r, h') /\ heap_ok cmp_ h' /\ queue_step (data_ h) c r (data_ h').
Proof.
  intros Hh. destruct c as [v| | |v| |]; cbn [do_call].
  - right. destruct (push_ok cmp_ moved v h Hh) as (h' & -> & H1 & H2). cbn. eexists _, _. split; [done|]. split; [done|by constructor].
  - destruct (data_ h) as [|m rest] eqn:E; [left; unfold pop, empty; by rewrite E|]. right.
    destruct (pop_ok cmp_ moved m rest h Hh E) as (h' & -> & H1 & H2). cbn. eexists _, _. split; [done|]. split; [done|by constructor].
  - destruct (data_ h) as [|m rest] eqn:E; [left; unfold top, empty; by rewrite E|]. right.
    unfold top, empty. rewrite E. cbn. eexists _, _. split; [done|]. split; [done|]. rewrite E. constructor.
  - destruct (data_ h) as [|m rest] eqn:E; [left; unfold replace_top, empty; by rewrite E|]. right.
    destruct (replace_top_ok cmp_ moved v m rest h Hh E) as (h' & -> & H1 & H2). cbn. eexists _, _. split; [done|]. split; [done|by constructor].
  - right. eexists _, _. split; [done|]. split; [done|]. unfold empty.
    replace (length (data_ h) =? 0) with (bool_decide (data_ h = [])) by (destruct (data_ h); [done|by rewrite bool_decide_false]). constructor.
  - right. eexists _, _. split; [done|]. split; [split; [by intros j x y _ _ Hx|done]|constructor].
Qed.
Lemma heap_new_ok : heap_ok cmp_ heap_new.
Proof. split; [by intros j x y _ _ Hx|done]. Qed.
Lemma calls_ok `{HW : !WeakOrder cmp_} cs h h' : heap_ok cmp_ h -> do_calls cs h = Some h' -> heap_ok cmp_ h'.
Proof.
  revert h. induction cs as [|c cs IH]; intros h Hh; cbn [do_calls]; [by intros [= <-]|].
  destruct (call_ok c h Hh) as [(_ & _ & ->)|(r & h1 & -> & H1 & _)]; cbn; [done|by apply IH].
Qed.

(** Take everything out. *)
Fixpoint drain (fuel : nat) h : option (list T) :=
  if empty h then Some []
  else match fuel with O => None | S fuel => x ← top h; h ← pop cmp_ moved h; l ← drain fuel h; Some (x :: l) end.

Lemma drain_ok `{HW : !WeakOrder cmp_} fuel h : heap_ok cmp_ h -> length (data_ h) <= fuel ->
  exists l, drain fuel h = Some l /\ l ≡ₚ data_ h /\ StronglySorted (fun x y => cmp_ x y = false) l.
Proof.
  revert h. induction fuel as [|fuel IH]; intros h Hh Hf; cbn [drain].
  - unfold empty. destruct (data_ h); [|cbn in Hf; lia]. exists []. split; [done|]. split; [done|constructor].
  - pose proof (heap_head_max cmp_ moved h Hh) as Hm. destruct (data_ h) as [|m rest] eqn:E; unfold top, empty; rewrite E; cbn [length Nat.eqb mbind option_bind].
    + exists []. split; [done|]. split; [done|constructor].
    + destruct (pop_ok cmp_ moved m rest h Hh E) as (h' & -> & H1 & H2). cbn [mbind option_bind lookup list_lookup get_root].
      destruct (IH h' H1) as (l & -> & Hp & Hs); [rewrite H2; cbn in Hf; lia|]. exists (m :: l). split; [done|]. split; [by rewrite Hp, H2|].
      constructor; [done|]. apply List.Forall_forall. intros x Hx. apply Hm. rewrite <-H2, <-Hp. by apply list_elem_of_In.
Qed.
End calls.

(** C14. [BinaryHeap] is a priority queue: after any calls its first element is one that no other
    is above, a call fails exactly when it needs an element and there is none, and otherwise
    acts on the bag of elements as [queue_step] says, with the remembered child never
    misleading it. *)
Theorem binary_heap_refines {T} (cmp_ : T -> T -> bool) (moved : T -> T) `{HW : !WeakOrder cmp_} (cs : list call) (h : heap) (c : call) :
  do_calls cmp_ moved cs heap_new = Some h ->
  head_max cmp_ (data_ h) /\
  ((needs_element c = true /\ data_ h = [] /\ do_call cmp_ moved c h = None) \/
   exists r h', do_call cmp_ moved c h = Some (r, h') /\ head_max cmp_ (data_ h') /\ queue_step (data_ h) c r (data_ h')).
Proof.
  intros E. pose proof (calls_ok cmp_ moved cs _ _ (heap_new_ok cmp_) E) as Hh. split; [by apply heap_head_max|].
  destruct (call_ok cmp_ moved c h Hh) as [?|(r & h' & E' & H1 & H2)]; [by left|right]. exists r, h'. split; [done|]. split; [by apply heap_head_max|done].
Qed.

(** Taking everything out gives the elements in descending order. *)
Theorem binary_heap_sorts {T} (cmp_ : T -> T -> bool) (moved : T -> T) `{HW : !WeakOrder cmp_} (l : list T) :
  exists h out, do_calls cmp_ moved (Push <$> l) heap_new = Some h /\ drain cmp_ moved (length l) h = Some out /\
    out ≡ₚ l /\ StronglySorted (fun x y => cmp_ x y = false) out.
Proof.
  assert (H : forall l h0, heap_ok cmp_ h0 -> exists h, do_calls cmp_ moved (Push <$> l) h0 = Some h /\ heap_ok cmp_ h /\ data_ h ≡ₚ l ++ data_ h0).
  { clear l. induction l as [|x l IH]; intros h0 H0; cbn [fmap list_fmap do_calls]; [by exists h0|]. cbn [do_call].
    destruct (push_ok cmp_ moved x h0 H0) as (h1 & -> & H1 & H2). cbn [mbind option_bind]. destruct (IH h1 H1) as (h & E & Hh & Hp).
    exists h. split; [done|]. split; [done|]. rewrite Hp, H2. cbn [app]. by rewrite <-Permutation_middle. }
  destruct (H l heap_new (heap_new_ok cmp_)) as (h & E & Hh & Hp). cbn [data_ heap_new] in Hp. rewrite app_nil_r in Hp.
  destruct (drain_ok cmp_ moved (length l) h Hh) as (out & Ed & Ho & Hs); [by rewrite Hp|]. exists h, out. split; [done|]. split; [done|]. split; [by rewrite Ho, Hp|done].
Qed.

(** ** Examples *)

#[export] Instance ltb_weak_order : WeakOrder Z.ltb.
Proof. constructor; intros *; rewrite ?Z.ltb_lt, ?Z.ltb_ge; lia. Qed.

Definition heap_calls : list (call (T:=Z)) := [Push 3; Push 9; Push 4; Push 9; ReplaceTop 8; ReplaceTop 9; Pop; Pop; Push 1]%Z.
Lemma binary_heap_refines_witness : exists h, do_calls Z.ltb (fun _ => 0%Z) heap_calls heap_new = Some h /\
  data_ h = [4; 3; 1]%Z /\ head_max Z.ltb (data_ h).
Proof.
  destruct (do_calls Z.ltb (fun _ => 0%Z) heap_calls heap_new) as [h|] eqn:E; [|by vm_compute in E]. exists h. split; [done|].
  pose proof (proj1 (binary_heap_refines Z.ltb (fun _ => 0%Z) heap_calls h Pop E)) as H. vm_compute in E. injection E as <-. split; [done|exact H].
Defined.
Lemma binary_heap_sorts_witness : exists h out, do_calls Z.ltb (fun _ => 0%Z) (Push <$> [3; 1; 2; 3]%Z) heap_new = Some h /\ drain Z.ltb (fun _ => 0%Z) 4 h = Some out /\ out = [3; 3; 2; 1]%Z.
Proof.
  destruct (binary_heap_sorts Z.ltb (fun _ => 0%Z) [3; 1; 2; 3]%Z) as (h & out & E & Ed & _). exists h, out. split; [exact E|]. split; [exact Ed|].
  vm_compute in E. injection E as <-. vm_compute in Ed. by injection Ed as <-.
Defined.
