(* ===== verification/TopN.v ===== *)
(** * TopN: [TopNHeap] of [src/util/small_container.h]

    The best [limit] of the elements pushed.  The heap algorithms and [sort] of the standard
    library are a class with the properties the standard gives them.  [cmp_ x y] says that
    [x] is greater than [y]; [moved x] is what moving [x] out leaves behind.  A push that is
    given a place for the element dropped moves the front of the heap there before
    [std::pop_heap], which then works on what is left. *)

From Stdlib Require Import Sorting.Sorted.
From S2P Require Import Prelude Store Heap.
#[local] Open Scope nat_scope.

(** [std::make_heap] and its companions: [is_heap] is the property they keep, under which the
    first element is one that is not greater than any other. *)
Class StdHeap {T : Type} (cmp_ : T -> T -> bool) := {
  is_heap : list T -> Prop;
  make_heap : list T -> list T; push_heap : list T -> list T; pop_heap : list T -> list T;
  sort : list T -> list T; sort_heap : list T -> list T;
  is_heap_front m l x : is_heap (m :: l) -> x ∈ l -> cmp_ m x = false;
  make_heap_ok l : is_heap (make_heap l) /\ make_heap l ≡ₚ l;
  push_heap_ok l x : is_heap l -> is_heap (push_heap (l ++ [x])) /\ push_heap (l ++ [x]) ≡ₚ x :: l;
  pop_heap_ok m l : is_heap (m :: l) -> exists l', pop_heap (m :: l) = l' ++ [m] /\ is_heap l' /\ l' ≡ₚ l;
  sort_ok l : StronglySorted (fun x y => cmp_ y x = false) (sort l) /\ sort l ≡ₚ l;
  sort_heap_ok l : is_heap l -> StronglySorted (fun x y => cmp_ y x = false) (sort_heap l) /\ sort_heap l ≡ₚ l }.

(** ** The source *)

Inductive State := UNORDERED | BOTTOM_KNOWN | HEAP_SORTED.
#[export] Instance State_eq_dec : EqDecision State.
Proof. solve_decision. Defined.

Section topn.
Context {T : Type} (cmp_ : T -> T -> bool) (moved : T -> T) `{HS : !StdHeap cmp_}.

Record TopNHeap := { elements_ : list T; limit_ : nat; state_ : State }.
Definition TopNHeap_new (limit : nat) : TopNHeap := {| elements_ := []; limit_ := limit; state_ := UNORDERED |}.

Definition size (h : TopNHeap) : nat := Nat.min (length (elements_ h)) (limit_ h).
Definition empty_ (h : TopNHeap) : bool := size h =? 0.

Definition with_elements (l : list T) (s : State) (h : TopNHeap) : TopNHeap := {| elements_ := l; limit_ := limit_ h; state_ := s |}.

(** [swap(elements_[i], elements_[j])]. *)
Definition swap_at (i j : nat) (l : list T) : option (list T) :=
  x ← l !! i; y ← l !! j; Some (<[j := x]> (<[i := y]> l)).
(** [elements_.back() = v]. *)
Definition set_back (v : T) (l : list T) : option (list T) :=
  if length l =? 0 then None else Some (take (length l - 1) l ++ [v]).

(** [*dropped = x] if the caller gave a place for it. *)
Definition give (dropped : bool) (x : T) : option T := if dropped then Some x else None.
(** [if (dropped) *dropped = std::move(elements_.front());] *)
Definition give_front (dropped : bool) (l : list T) : option (list T * option T) :=
  match l with [] => None | x :: rest => Some (if dropped then moved x :: rest else l, give dropped x) end.

(** The new state and the element stored in [*dropped]. *)
Definition PushInternal (v : T) (dropped : bool) (h : TopNHeap) : option (TopNHeap * option T) :=
  if limit_ h =? 0 then Some (h, give dropped v)
  else if negb (bool_decide (state_ h = HEAP_SORTED)) then
    let l := elements_ h ++ [v] in
    front ← l !! 0;
    l ← (if bool_decide (state_ h = UNORDERED) || cmp_ v front then Some l else swap_at 0 (length l - 1) l);
    if length l =? limit_ h + 1 then
      '(l, d) ← give_front dropped (make_heap l);
      Some (with_elements (pop_heap l) HEAP_SORTED h, d)
    else Some (with_elements l (state_ h) h, None)
  else
    front ← elements_ h !! 0;
    if cmp_ v front then
      l ← set_back v (elements_ h);
      '(l, d) ← give_front dropped (push_heap l);
      Some (with_elements (pop_heap l) HEAP_SORTED h, d)
    else Some (h, give dropped v).

(** [for (i = 1; i < elements_.size(); ++i)]; [min_candidate] is an [int32_t]. *)
Fixpoint min_loop (i : nat) (rest : list T) (min_candidate : Z) (l : list T) : option Z :=
  match rest with
  | [] => Some min_candidate
  | x :: rest => y ← aget l min_candidate; min_loop (i + 1) rest (if cmp_ y x then i32 (Z.of_nat i) else min_candidate) l
  end.
Definition peek_bottom (h : TopNHeap) : option (T * TopNHeap) :=
  h ← (if bool_decide (state_ h = UNORDERED) then
         min_candidate ← min_loop 1 (drop 1 (elements_ h)) 0 (elements_ h);
         l ← (if negb (min_candidate =? 0)%Z then
                if (min_candidate <? 0)%Z then None else swap_at 0 (Z.to_nat min_candidate) (elements_ h)
              else Some (elements_ h));
         Some (with_elements l BOTTOM_KNOWN h)
       else Some h);
  x ← elements_ h !! 0; Some (x, h).

(** [pop_back] of an empty vector is undefined. *)
Definition pop_back (l : list T) : option (list T) := if length l =? 0 then None else Some (take (length l - 1) l).

Definition ExtractNondestructive (h : TopNHeap) : option (list T) :=
  if negb (bool_decide (state_ h = HEAP_SORTED)) then Some (sort (elements_ h))
  else out ← pop_back (elements_ h); Some (sort_heap out).
Definition ExtractUnsortedNondestructive (h : TopNHeap) : option (list T) :=
  if bool_decide (state_ h = HEAP_SORTED) then pop_back (elements_ h) else Some (elements_ h).
(** The destructive versions leave the elements empty and the state as it is. *)
Definition Extract (h : TopNHeap) : option (list T * TopNHeap) :=
  out ← ExtractNondestructive h; Some (out, with_elements [] (state_ h) h).
Definition ExtractUnsorted (h : TopNHeap) : option (list T * TopNHeap) :=
  out ← ExtractUnsortedNondestructive h; Some (out, with_elements [] (state_ h) h).
Definition Reset (h : TopNHeap) : TopNHeap := with_elements [] UNORDERED h.
End topn.
Arguments TopNHeap : clear implicits.

(** ** The best elements *)

Section invariant.
Context {T : Type} (cmp_ : T -> T -> bool) (moved : T -> T) `{HW : !WeakOrder cmp_} `{HS : !StdHeap cmp_}.
Implicit Types (l k : list T) (x y v : T) (h : TopNHeap T).

Definition lowest_first l : Prop := match l with [] => False | m :: rest => forall x, x ∈ rest -> cmp_ m x = false end.
(** The elements of the state; in a heap the last place is not in use. *)
Inductive keeps (h : TopNHeap T) : list T -> list T -> Prop :=
  | keeps_unordered ds : state_ h = UNORDERED -> length (elements_ h) <= limit_ h -> (ds = [] \/ limit_ h = 0) -> keeps h (elements_ h) ds
  | keeps_bottom : state_ h = BOTTOM_KNOWN -> length (elements_ h) <= limit_ h -> lowest_first (elements_ h) -> keeps h (elements_ h) []
  | keeps_heap k junk ds : state_ h = HEAP_SORTED -> elements_ h = k ++ [junk] -> length k = limit_ h -> 0 < limit_ h -> is_heap k -> keeps h k ds.

(** [k] is kept of what was pushed, [ds] was dropped. *)
Record best h (ps k ds : list T) : Prop := {
  best_keeps : keeps h k ds;
  best_all : k ++ ds ≡ₚ ps;
  best_order : forall x y, x ∈ k -> y ∈ ds -> cmp_ y x = false;
  best_full : ds = [] \/ length k = limit_ h }.

Lemma heap_front_lowest m l x : is_heap (m :: l) -> x ∈ m :: l -> cmp_ m x = false.
Proof. intros H [->|Hx]%elem_of_cons; [apply cmp_irrefl|by apply (is_heap_front m l)]. Qed.

(** A heap with one element too many gives up its lowest. *)
Lemma give_front_kept dropped m l : (dropped = true -> forall x, moved x = x) -> give_front moved dropped (m :: l) = Some (m :: l, give dropped m).
Proof. intros Hm. destruct dropped; [|done]. cbn. by rewrite Hm. Qed.

Lemma drop_lowest dropped h ps ds l v : (dropped = true -> forall x, moved x = x) -> 0 < limit_ h -> is_heap l -> length l = limit_ h + 1 ->
  l ++ ds ≡ₚ v :: ps -> (forall x y, x ∈ l -> y ∈ ds -> cmp_ y x = false) ->
  exists m k, give_front moved dropped l = Some (l, give dropped m) /\ best (with_elements (pop_heap l) HEAP_SORTED h) (v :: ps) k (m :: ds).
Proof.
  intros Hm H0 Hh Hl Hp Ho. destruct l as [|m rest]; [cbn in Hl; lia|]. destruct (pop_heap_ok m rest Hh) as (k & Ek & Hk & Hpk).
  exists m, k. split; [by apply give_front_kept|]. assert (Hlen : length k = limit_ h) by (rewrite Hpk; cbn in Hl; lia). constructor.
  - by eapply keeps_heap.
  - rewrite <-Hp, <-Permutation_middle, Hpk. done.
  - intros x y Hx Hy. rewrite Hpk in Hx. apply elem_of_cons in Hy as [->|Hy]; [by apply (is_heap_front m rest)|]. apply Ho; [by apply list_elem_of_further|done].
  - by right.
Qed.

(** The end of a push before there is a heap. *)
Lemma push_unsorted dropped v h ps l : (dropped = true -> forall x, moved x = x) -> 0 < limit_ h -> state_ h <> HEAP_SORTED -> l ≡ₚ v :: ps -> length l <= limit_ h + 1 ->
  (state_ h = UNORDERED \/ lowest_first l) ->
  exists h' r k' ds', (if length l =? limit_ h + 1 then
      '(l, d) ← give_front moved dropped (make_heap l); Some (with_elements (pop_heap l) HEAP_SORTED h, d)
    else Some (with_elements l (state_ h) h, None)) = Some (h', r) /\
    limit_ h' = limit_ h /\ option_list r = (if dropped then ds' else []) /\ best h' (v :: ps) k' ds'.
Proof.
  intros Hmv H0 Hs Hp Hl Hlow. destruct (Nat.eqb_spec (length l) (limit_ h + 1)) as [E|E].
  - destruct (make_heap_ok l) as [Hmh Hmp].
    destruct (drop_lowest dropped h ps [] (make_heap l) v) as (m & k & -> & Hb); [done|lia|done|by rewrite Hmp|by rewrite app_nil_r, Hmp| |].
    { intros x y _ Hy. by apply not_elem_of_nil in Hy. }
    cbn [mbind option_bind]. eexists _, _, k, [m]. split; [reflexivity|]. split; [done|]. split; [by destruct dropped|done].
  - eexists _, _, l, []. split; [reflexivity|]. split; [done|]. split; [by destruct dropped|]. constructor.
    + destruct (state_ h) eqn:Es; [|destruct Hlow as [|Hlow]; [done|]|done].
      * apply (keeps_unordered (with_elements l UNORDERED h)); [done|cbn; lia|by left].
      * apply (keeps_bottom (with_elements l BOTTOM_KNOWN h)); [done|cbn; lia|done].
    + by rewrite app_nil_r.
    + intros x y _ Hy. by apply not_elem_of_nil in Hy.
    + by left.
Qed.

Lemma swap_front_back m rest v : swap_at 0 (length (m :: rest ++ [v]) - 1) (m :: rest ++ [v]) = Some (v :: rest ++ [m]).
Proof.
  unfold swap_at. cbn [length]. rewrite length_app. cbn [length]. replace (S (length rest + 1) - 1) with (length (m :: rest)) by (cbn; lia).
  change (m :: rest ++ [v]) with ((m :: rest) ++ [v]). rewrite (list_lookup_middle (m :: rest) [] v) by done. cbn [app lookup list_lookup mbind option_bind].
  f_equal. change (<[0 := v]> (m :: rest ++ [v])) with ((v :: rest) ++ [v]). rewrite insert_app_r_alt by (cbn; lia). by rewrite Nat.sub_diag.
Qed.

Lemma push_best dropped v h ps k ds : (dropped = true -> forall x, moved x = x) -> best h ps k ds ->
  exists h' r k' d, PushInternal cmp_ moved v dropped h = Some (h', r) /\ limit_ h' = limit_ h /\
    option_list r = (if dropped then d else []) /\ best h' (v :: ps) k' (d ++ ds).
Proof.
  intros Hmv [Hk Ha Ho Hf]. unfold PushInternal. destruct (Nat.eqb_spec (limit_ h) 0) as [H0|H0].
  { exists h, (give dropped v), k, [v]. split; [done|]. split; [done|]. split; [by destruct dropped|]. cbn [app]. destruct Hk as [ds Hs Hl _|Hs Hl Hlow|]; [| |lia].
    - constructor; [constructor; auto|by rewrite <-Ha, Permutation_middle| |right; lia].
      intros x y Hx _. destruct (elements_ h); [by apply not_elem_of_nil in Hx|cbn in Hl; lia].
    - destruct (elements_ h); [done|cbn in Hl; lia]. }
  assert (H1 : 0 < limit_ h) by lia.
  destruct Hk as [ds Hs Hl Hd|Hs Hl Hlow|k junk ds Hs El Hl _ Hh].
  - assert (ds = []) as -> by (destruct Hd; [done|lia]). rewrite app_nil_r in Ha. rewrite (bool_decide_false (state_ h = HEAP_SORTED)) by congruence. cbn [negb].
    destruct ((elements_ h ++ [v]) !! 0) as [front|] eqn:Ef; [|by destruct (elements_ h)]. rewrite (bool_decide_true (state_ h = UNORDERED)) by done. cbn [mbind option_bind orb].
    destruct (push_unsorted dropped v h ps (elements_ h ++ [v])) as (h' & r & k' & ds' & E & E1 & E2 & E3); [done|done|congruence| |rewrite length_app; cbn; lia|by left|].
    { rewrite <-Ha. symmetry. apply Permutation_cons_append. }
    exists h', r, k', ds'. by rewrite app_nil_r.
  - rewrite app_nil_r in Ha. rewrite (bool_decide_false (state_ h = HEAP_SORTED)), (bool_decide_false (state_ h = UNORDERED)) by congruence. cbn [negb orb].
    destruct (elements_ h) as [|m rest] eqn:El; [done|]. cbn [app lookup list_lookup mbind option_bind lowest_first] in *. fold (rest ++ [v]).
    assert (Hsw : exists l, (if cmp_ v m then Some (m :: rest ++ [v]) else swap_at 0 (length (m :: rest ++ [v]) - 1) (m :: rest ++ [v])) = Some l /\ l ≡ₚ v :: ps /\ lowest_first l).
    { destruct (cmp_ v m) eqn:Ec; eexists; (split; [first [reflexivity|apply swap_front_back]|]); rewrite <-Ha; split.
      - symmetry. apply (Permutation_cons_append (m :: rest)).
      - intros x [Hx|<-%list_elem_of_singleton]%elem_of_app; [by apply Hlow|by apply cmp_asym].
      - constructor. symmetry. apply Permutation_cons_append.
      - intros x [Hx|<-%list_elem_of_singleton]%elem_of_app; [|done]. apply (cmp_not_trans v m x Ec). by apply Hlow. }
    destruct Hsw as (l & -> & Hp & Hlf). cbn [mbind option_bind].
    destruct (push_unsorted dropped v h ps l) as (h' & r & k' & ds' & E & E1 & E2 & E3); [done|done|congruence|done|rewrite Hp, <-Ha; cbn in *; lia|by right|].
    exists h', r, k', ds'. by rewrite app_nil_r.
  - rewrite (bool_decide_true (state_ h = HEAP_SORTED)) by done. cbn [negb]. rewrite El.
    destruct k as [|m rest]; [cbn in Hl; lia|]. cbn [app lookup list_lookup mbind option_bind]. destruct (cmp_ v m) eqn:Ec.
    + assert (Eb : set_back v (m :: rest ++ [junk]) = Some ((m :: rest) ++ [v])).
      { unfold set_back. cbn [length Nat.eqb]. rewrite length_app. cbn [length]. replace (S (length rest + 1) - 1) with (length (m :: rest)) by (cbn; lia).
        change (m :: rest ++ [junk]) with ((m :: rest) ++ [junk]). by rewrite take_app_length. }
      rewrite Eb. cbn [mbind option_bind]. destruct (push_heap_ok (m :: rest) v Hh) as [Hph Hpp].
      destruct (drop_lowest dropped h ps ds (push_heap ((m :: rest) ++ [v])) v) as (f & k' & -> & Hb); [done|done|done|rewrite Hpp; cbn in *; lia|by rewrite Hpp, <-Ha| |].
      { intros x y Hx Hy. rewrite Hpp in Hx. apply elem_of_cons in Hx as [->|Hx]; [|by apply Ho].
        apply not_true_iff_false. intros Hyv. pose proof (cmp_trans _ _ _ Hyv Ec) as Hym. rewrite (Ho m y) in Hym; [done|left|done]. }
      cbn [mbind option_bind]. eexists _, _, k', [f]. split; [reflexivity|]. split; [done|]. split; [by destruct dropped|done].
    + exists h, (give dropped v), (m :: rest), [v]. split; [done|]. split; [done|]. split; [by destruct dropped|]. cbn [app]. constructor.
      * by eapply keeps_heap.
      * by rewrite <-Ha, Permutation_middle.
      * intros x y Hx [->|Hy]%elem_of_cons; [|by apply Ho]. apply (cmp_not_trans v m x Ec). by apply (heap_front_lowest m rest).
      * by right.
Qed.

Lemma min_loop_ok rest i c l pre y : l = pre ++ rest -> length pre = i -> (Z.of_nat (length l) <= 2 ^ 31)%Z -> l !! c = Some y ->
  (forall x, x ∈ pre -> cmp_ y x = false) ->
  exists c' y', min_loop cmp_ i rest (Z.of_nat c) l = Some (Z.of_nat c') /\ l !! c' = Some y' /\ forall x, x ∈ l -> cmp_ y' x = false.
Proof.
  revert i c pre y. induction rest as [|x rest IH]; intros i c pre y El Hi Hb Hc Hy; cbn [min_loop].
  - exists c, y. split; [done|]. split; [done|]. by rewrite El, app_nil_r.
  - rewrite aget_nat, Hc. cbn [mbind option_bind]. assert (Hx : l !! i = Some x) by (rewrite El; by apply list_lookup_middle).
    apply lookup_lt_Some in Hx as Hil. rewrite i32_small by lia.
    assert (El' : l = (pre ++ [x]) ++ rest) by (by rewrite <-app_assoc). assert (Hi' : length (pre ++ [x]) = i + 1) by (rewrite length_app, Hi; done).
    destruct (cmp_ y x) eqn:E.
    + apply (IH (i + 1) i (pre ++ [x]) x); [done|done|done|done|]. intros z [Hz| ->%list_elem_of_singleton]%elem_of_app; [|apply cmp_irrefl].
      apply not_true_iff_false. intros Hxz. pose proof (cmp_trans _ _ _ E Hxz) as Hyz. by rewrite Hy in Hyz.
    + apply (IH (i + 1) c (pre ++ [x]) y); [done|done|done|done|]. intros z [Hz| ->%list_elem_of_singleton]%elem_of_app; [by apply Hy|done].
Qed.

Lemma swap_at_front i l y : l !! i = Some y -> 0 < i -> exists l', swap_at 0 i l = Some l' /\ l' ≡ₚ l /\ l' !! 0 = Some y.
Proof.
  intros Hi Hpos. unfold swap_at. apply lookup_lt_Some in Hi as Hl. destruct l as [|m l]; [done|]. rewrite Hi. cbn [lookup list_lookup mbind option_bind].
  eexists. split; [reflexivity|]. split; [by apply (swap_perm (m :: l) 0 i m y); [lia|..]|].
  rewrite list_lookup_insert_ne by lia. done.
Qed.

Lemma peek_best h ps k ds : (Z.of_nat (length k) <= 2 ^ 31)%Z -> best h ps k ds ->
  (k = [] /\ peek_bottom cmp_ h = None) \/
  exists m h' k', peek_bottom cmp_ h = Some (m, h') /\ limit_ h' = limit_ h /\ k' ≡ₚ k /\ best h' ps k' ds /\ m ∈ k /\ forall x, x ∈ k -> cmp_ m x = false.
Proof.
  intros Hb31 [Hk Ha Ho Hf]. unfold peek_bottom. destruct Hk as [ds Hs Hl Hd|Hs Hl Hlow|k junk ds Hs El Hl H0 Hh].
  - rewrite bool_decide_true by done. destruct (elements_ h) as [|m rest] eqn:El; [by left|right]. change (drop 1 (m :: rest)) with rest.
    destruct (min_loop_ok rest 1 0 (m :: rest) [m] m) as (c & y & Em & Hc & Hy); [done|done|done|done|intros x ->%list_elem_of_singleton; apply cmp_irrefl|].
    change (Z.of_nat 0) with 0%Z in Em. rewrite Em. cbn [mbind option_bind].
    assert (Hsw : exists l, (if negb (Z.of_nat c =? 0)%Z then if (Z.of_nat c <? 0)%Z then None else swap_at 0 (Z.to_nat (Z.of_nat c)) (m :: rest) else Some (m :: rest)) = Some l /\ l ≡ₚ m :: rest /\ l !! 0 = Some y).
    { destruct c as [|c]; [by exists (m :: rest)|]. rewrite (proj2 (Z.eqb_neq _ _)), (proj2 (Z.ltb_ge _ _)), Nat2Z.id by lia. apply swap_at_front; [done|lia]. }
    destruct Hsw as (l & -> & Hp & Hl0). cbn [mbind option_bind with_elements elements_]. rewrite Hl0. cbn [mbind option_bind].
    eexists y, _, l. split; [reflexivity|]. split; [done|]. split; [done|]. split; [|split; [by eapply list_elem_of_lookup_2|done]].
    destruct Hd as [->|Hlim]; [|cbn in Hl; lia]. destruct l as [|y' l]; [done|]. cbn in Hl0. injection Hl0 as ->. constructor.
    + apply (keeps_bottom (with_elements (y :: l) BOTTOM_KNOWN h)); [done|cbn [with_elements elements_ limit_]; by rewrite Hp|].
      intros x Hx. apply Hy. rewrite <-Hp. by right.
    + by rewrite <-Ha, Hp.
    + intros x z _ Hz. by apply not_elem_of_nil in Hz.
    + by left.
  - right. rewrite bool_decide_false by congruence. cbn [mbind option_bind]. destruct (elements_ h) as [|m rest] eqn:El; [done|]. cbn [lookup list_lookup mbind option_bind lowest_first] in *.
    exists m, h, (m :: rest). split; [done|]. split; [done|]. split; [done|]. split; [|split; [left|]].
    + constructor; [|done|done|done]. rewrite <-El. apply keeps_bottom; [done|by rewrite El|by rewrite El].
    + intros x [->|Hx]%elem_of_cons; [apply cmp_irrefl|by apply Hlow].
  - right. rewrite bool_decide_false by congruence. cbn [mbind option_bind]. destruct k as [|m rest]; [cbn in Hl; lia|]. rewrite El. cbn [app lookup list_lookup mbind option_bind].
    exists m, h, (m :: rest). split; [done|]. split; [done|]. split; [done|]. split; [|split; [left|]].
    + constructor; [by eapply keeps_heap|done|done|done].
    + intros x Hx. by apply (heap_front_lowest m rest).
Qed.

Lemma extract_best h ps k ds : best h ps k ds ->
  (exists out, ExtractNondestructive cmp_ h = Some out /\ out ≡ₚ k /\ StronglySorted (fun x y => cmp_ y x = false) out) /\
  (exists out, ExtractUnsortedNondestructive h = Some out /\ out ≡ₚ k) /\ size h = length k.
Proof.
  intros [Hk _ _ _]. unfold ExtractNondestructive, ExtractUnsortedNondestructive, size. destruct Hk as [ds Hs Hl _|Hs Hl _|k junk ds Hs El Hl H0 Hh].
  1,2: rewrite bool_decide_false by congruence; cbn [negb]; destruct (sort_ok (elements_ h)) as [H1 H2]; split_and!; [by eexists|by eexists|lia].
  rewrite bool_decide_true by done. cbn [negb].
  assert (Ep : pop_back (elements_ h) = Some k).
  { unfold pop_back. rewrite El, length_app. cbn [length]. rewrite Nat.add_1_r. cbn [Nat.eqb]. replace (S (length k) - 1) with (length k) by lia. by rewrite take_app_length. }
  rewrite Ep. cbn [mbind option_bind]. destruct (sort_heap_ok k Hh) as [H1 H2]. split; [by eexists|]. split; [by eexists|]. rewrite El, length_app. cbn. lia.
Qed.

(** A sequence of pushes, with a place for the element dropped or without, and peeks, with what
    was handed out as dropped. *)
Inductive topn_call := PushOne (dropped : bool) (v : T) | Peek.
Definition pushed (cs : list topn_call) : list T := omap (fun c => match c with PushOne _ v => Some v | Peek => None end) cs.
Definition asks_dropped (c : topn_call) : bool := match c with PushOne dropped _ => dropped | Peek => true end.
Fixpoint topn_run (cs : list topn_call) h : option (TopNHeap T * list T) :=
  match cs with
  | [] => Some (h, [])
  | PushOne dropped v :: cs => '(h, r) ← PushInternal cmp_ moved v dropped h; '(h, ds) ← topn_run cs h; Some (h, option_list r ++ ds)
  | Peek :: cs => '(_, h) ← peek_bottom cmp_ h; topn_run cs h
  end.
(** Moving an element out leaves it as it is, or no push hands one out. *)
Definition move_keeps (cs : list topn_call) : Prop := (forall x, moved x = x) \/ Forall (fun c => match c with PushOne dropped _ => dropped = false | Peek => True end) cs.

Lemma best_length h ps k ds : best h ps k ds -> length k <= Nat.min (limit_ h) (length ps).
Proof.
  intros [Hk Ha _ _]. apply Permutation_length in Ha. rewrite length_app in Ha.
  destruct Hk as [ds' Hst Hl _|Hst Hl _|k' junk ds' Hst _ Hl _ _]; cbn in *; lia.
Qed.

Lemma run_best cs h ps k ds h' handed : move_keeps cs -> (Z.of_nat (Nat.min (limit_ h) (length ps + length (pushed cs))) <= 2 ^ 31)%Z ->
  best h ps k ds -> topn_run cs h = Some (h', handed) ->
  limit_ h' = limit_ h /\ exists k' gone, best h' (rev (pushed cs) ++ ps) k' (gone ++ ds) /\ handed ⊆+ gone /\ (forallb asks_dropped cs = true -> gone ≡ₚ handed).
Proof.
  revert h ps k ds handed. induction cs as [|[dropped v|] cs IH]; intros h ps k ds handed Hmv Hlen Hb; cbn [topn_run].
  - intros [= <- <-]. split; [done|]. by exists k, [].
  - assert (Hd : dropped = true -> forall x, moved x = x) by (intros ->; destruct Hmv as [|Hmv]; [done|]; by apply Forall_cons_1 in Hmv as [? _]).
    destruct (push_best dropped v h ps k ds Hd Hb) as (h1 & r & k1 & d & -> & El & Er & Hb1). cbn [mbind option_bind].
    destruct (topn_run cs h1) as [[h2 ds2]|] eqn:E; cbn [mbind option_bind]; [|done]. intros [= <- <-].
    assert (Hmv' : move_keeps cs) by (destruct Hmv as [|Hmv]; [by left|right; by apply Forall_cons_1 in Hmv as [_ ?]]).
    change (pushed (PushOne dropped v :: cs)) with (v :: pushed cs) in *. cbn [length] in Hlen.
    destruct (IH h1 (v :: ps) _ _ _ Hmv' ltac:(rewrite El; cbn [length]; lia) Hb1 E) as (El2 & k' & gone & Hb' & Hs & Hall).
    split; [congruence|]. exists k', (gone ++ d). cbn [rev forallb asks_dropped]. rewrite <-!app_assoc. split; [done|]. rewrite Er. destruct dropped; cbn [andb].
    + split; [rewrite (Permutation_app_comm gone); by apply submseteq_app|]. intros Ha. rewrite (Hall Ha). apply Permutation_app_comm.
    + split; [|done]. cbn [app]. by apply submseteq_inserts_r.
  - assert (Hk : (Z.of_nat (length k) <= 2 ^ 31)%Z) by (pose proof (best_length _ _ _ _ Hb); lia).
    destruct (peek_best h ps k ds Hk Hb) as [(_ & ->)|(m & h1 & k1 & -> & El & _ & Hb1 & _)]; cbn [mbind option_bind]; [done|]. intros E.
    assert (Hmv' : move_keeps cs) by (destruct Hmv as [|Hmv]; [by left|right; by apply Forall_cons_1 in Hmv as [_ ?]]).
    destruct (IH h1 ps _ _ _ Hmv' ltac:(rewrite El; exact Hlen) Hb1 E) as (El2 & k' & gone & Hb' & Hs). split; [congruence|]. by exists k', gone.
Qed.
Lemma new_best limit : best (TopNHeap_new limit) [] [] [].
Proof. constructor; [apply (keeps_unordered (TopNHeap_new limit)); [done|cbn; lia|by left]|done|intros x y Hx; by apply not_elem_of_nil in Hx|by left]. Qed.
End invariant.

(** C15. [TopNHeap] of at most 2^31 elements, when moving an element out leaves it as it is or
    no push hands one out: after any pushes and peeks, extraction gives, in descending order,
    [limit] of the elements pushed (all, if they are fewer), none of which is lower than one
    that is gone; what was handed out as dropped is gone, and is all that is gone if every
    push asked for it.  A push always succeeds, and a peek answers a lowest of the elements
    kept, failing only when there is none. *)
Theorem top_n_correct {T} (cmp_ : T -> T -> bool) (moved : T -> T) `{HW : !WeakOrder cmp_} `{HS : !StdHeap cmp_} (limit : nat)
    (cs : list topn_call) (h : TopNHeap T) (handed : list T) :
  move_keeps moved cs -> (Z.of_nat (Nat.min limit (length (pushed cs))) <= 2 ^ 31)%Z ->
  topn_run cmp_ moved cs (TopNHeap_new limit) = Some (h, handed) ->
  (exists out gone, ExtractNondestructive cmp_ h = Some out /\ StronglySorted (fun x y => cmp_ y x = false) out /\
     out ++ gone ≡ₚ pushed cs /\ length out = Nat.min limit (length (pushed cs)) /\ size h = length out /\
     (forall x y, x ∈ out -> y ∈ gone -> cmp_ y x = false) /\
     handed ⊆+ gone /\ (forallb asks_dropped cs = true -> gone ≡ₚ handed) /\
     (exists out', ExtractUnsortedNondestructive h = Some out' /\ out' ≡ₚ out) /\
     ((out = [] /\ peek_bottom cmp_ h = None) \/
      exists m h', peek_bottom cmp_ h = Some (m, h') /\ m ∈ out /\ forall x, x ∈ out -> cmp_ m x = false)) /\
  (forall v dropped, (dropped = true -> forall x, moved x = x) -> exists h' r, PushInternal cmp_ moved v dropped h = Some (h', r)).
Proof.
  intros Hmv Hlen E. destruct (run_best cmp_ moved cs (TopNHeap_new limit) [] [] [] _ _ Hmv Hlen (new_best cmp_ limit) E) as (El & k & gone & Hb & Hs & Hall).
  rewrite !app_nil_r in Hb. cbn [limit_ TopNHeap_new] in El.
  destruct (extract_best cmp_ h _ k gone Hb) as ((out & Ex & Ho & Hsort) & (out' & Eu & Hu) & Hsz). pose proof Hb as [Hk Ha Hor Hf]. rewrite El in Hf.
  pose proof (best_length _ _ _ _ _ Hb) as Hle. rewrite length_rev, El in Hle. split.
  - exists out, gone. split; [done|]. split; [done|]. split; [rewrite Ho, Ha; symmetry; apply Permutation_rev|].
    assert (Hsum : length k + length gone = length (pushed cs)) by (rewrite <-length_app, Ha; apply length_rev).
    split; [rewrite Ho; destruct Hf as [->|Hf]; cbn in *; lia|]. split; [by rewrite Ho|]. split; [intros x y; rewrite Ho; apply Hor|].
    split; [done|]. split; [done|]. split; [exists out'; split; [done|by rewrite Hu, Ho]|].
    destruct (peek_best cmp_ h _ k gone ltac:(lia) Hb) as [(-> & En)|(m & h' & k' & En & _ & _ & _ & Hm & Hmin)].
    + left. split; [|done]. by apply Permutation_nil_r.
    + right. exists m, h'. split; [done|]. rewrite Ho. split; [done|]. intros x. rewrite Ho. apply Hmin.
  - intros v dropped Hd. destruct (push_best cmp_ moved dropped v h _ k gone Hd Hb) as (h' & r & _ & _ & Ev & _). by exists h', r.
Qed.

(** ** An instance, and an example *)

Section simple.
Context {T : Type} (cmp_ : T -> T -> bool) `{HW : !WeakOrder cmp_}.

Fixpoint lowest_to_front (l : list T) : list T :=
  match l with
  | [] => []
  | x :: l => match lowest_to_front l with [] => [x] | m :: r => if cmp_ x m then m :: x :: r else x :: m :: r end
  end.
Definition starts_lowest (l : list T) : Prop := match l with [] => True | m :: r => forall x, x ∈ r -> cmp_ m x = false end.
Lemma lowest_to_front_ok l : starts_lowest (lowest_to_front l) /\ lowest_to_front l ≡ₚ l.
Proof.
  induction l as [|x l [IH1 IH2]]; [done|]. cbn [lowest_to_front]. destruct (lowest_to_front l) as [|m r]; cbn [starts_lowest] in *.
  - split; [by intros y Hy%not_elem_of_nil|]. by rewrite <-IH2.
  - destruct (cmp_ x m) eqn:E; (split; [|rewrite <-IH2; first [done|constructor]]).
    + intros y [->|Hy]%elem_of_cons; [by apply cmp_asym|by apply IH1].
    + intros y [->|Hy]%elem_of_cons; [done|]. apply (cmp_not_trans x m y E). by apply IH1.
Qed.

Fixpoint insert_in (x : T) (l : list T) : list T :=
  match l with [] => [x] | y :: l => if cmp_ y x then y :: insert_in x l else x :: y :: l end.
Definition insertion_sort (l : list T) : list T := foldr insert_in [] l.
Lemma insert_in_perm x l : insert_in x l ≡ₚ x :: l.
Proof. induction l as [|y l IH]; [done|]. cbn. destruct (cmp_ y x); [|done]. rewrite IH. constructor. Qed.
Lemma insert_in_sorted x l : StronglySorted (fun x y => cmp_ y x = false) l -> StronglySorted (fun x y => cmp_ y x = false) (insert_in x l).
Proof.
  induction 1 as [|y l Hs IH Hf]; [repeat constructor|]. cbn. destruct (cmp_ y x) eqn:E.
  - constructor; [done|]. rewrite insert_in_perm. constructor; [by apply cmp_asym|done].
  - constructor; [by constructor|]. constructor; [done|]. eapply Forall_impl; [exact Hf|]. intros z Hz. by apply (cmp_not_trans z y x).
Qed.
Lemma insertion_sort_ok l : StronglySorted (fun x y => cmp_ y x = false) (insertion_sort l) /\ insertion_sort l ≡ₚ l.
Proof.
  induction l as [|x l [IH1 IH2]]; [split; [constructor|done]|]. split; [by apply insert_in_sorted|]. cbn. by rewrite insert_in_perm, IH2.
Qed.

#[export] Instance simple_heap : StdHeap cmp_.
Proof.
  refine {| is_heap := starts_lowest; make_heap := lowest_to_front; push_heap := lowest_to_front;
    pop_heap l := match l with [] => [] | m :: l => lowest_to_front l ++ [m] end; sort := insertion_sort; sort_heap := insertion_sort |}.
  - intros m l x H Hx. by apply H.
  - apply lowest_to_front_ok.
  - intros l x _. destruct (lowest_to_front_ok (l ++ [x])) as [H1 H2]. split; [done|]. rewrite H2. symmetry. apply Permutation_cons_append.
  - intros m l _. destruct (lowest_to_front_ok l). by exists (lowest_to_front l).
  - apply insertion_sort_ok.
  - intros l _. apply insertion_sort_ok.
Defined.
End simple.

#[export] Instance gtb_weak_order : WeakOrder Z.gtb.
Proof. constructor; intros *; rewrite ?Z.gtb_ltb, ?Z.ltb_lt, ?Z.ltb_ge; lia. Qed.

Definition topn_calls : list (topn_call (T:=Z)) := PushOne true <$> [3; 9; 4; 1; 7; 9]%Z.
Lemma top_n_correct_witness : exists h handed, topn_run Z.gtb id topn_calls (TopNHeap_new 3) = Some (h, handed) /\
  handed = [1; 3; 4]%Z /\ exists out gone, ExtractNondestructive Z.gtb h = Some out /\ out ++ gone ≡ₚ [3; 9; 4; 1; 7; 9]%Z /\ gone ≡ₚ handed.
Proof.
  assert (E : exists h, topn_run Z.gtb id topn_calls (TopNHeap_new 3) = Some (h, [1; 3; 4]%Z)) by (eexists; vm_compute; reflexivity).
  destruct E as [h E]. exists h, [1; 3; 4]%Z. split; [exact E|]. split; [reflexivity|].
  assert (Hm : move_keeps id topn_calls) by (left; intros x; reflexivity).
  assert (Hl : (Z.of_nat (Nat.min 3 (length (pushed topn_calls))) <= 2 ^ 31)%Z) by (vm_compute; discriminate).
  destruct (proj1 (top_n_correct Z.gtb id 3 topn_calls h _ Hm Hl E)) as (out & gone & Ex & _ & Hp & _ & _ & _ & _ & Hg & _).
  exists out, gone. split; [exact Ex|]. split; [exact Hp|]. apply Hg. reflexivity.
Defined.
