(* ===== verification/Glob.v ===== *)
(** * Glob: pattern matching of [src/util/string_util.cpp]

    [stringmatchlen] and [stringmatch]: [*], [?], character classes and escapes.  The
    pattern and the string are memory that can be read ([None] outside), with an index and a
    length that move together; [char] is signed, and [tolower] is that of the C
    locale, which leaves a negative [char] as it is. *)

From S2P Require Import Prelude.
#[local] Open Scope Z_scope.
#[local] Open Scope mycc_scope.

(** ** The source *)

Definition tolower (c : Z) : Z := if (65 <=? c) && (c <=? 90) then c + 32 else c.

Section memory.
Context (pattern string : bytes) (nocase : bool).

(** [m[i]] as a [char]. *)
Definition read (m : bytes) (i : Z) : option Z := if i <? 0 then None else schar <$> m !! Z.to_nat i.

(** [while (pattern[1] == '*')]: the index and the length after it. *)
Fixpoint skip_stars (fuel : nat) (p patternLen : Z) : option (Z * Z) :=
  c ← read pattern (p + 1);
  if c =? 42 then match fuel with O => None | S fuel => skip_stars fuel (p + 1) (patternLen - 1) end
  else Some (p, patternLen).
(** [while ( *pattern == '*')]. *)
Fixpoint last_stars (fuel : nat) (p patternLen : Z) : option (Z * Z) :=
  c ← read pattern p;
  if c =? 42 then match fuel with O => None | S fuel => last_stars fuel (p + 1) (patternLen - 1) end
  else Some (p, patternLen).

(** The loop over a class: the index and length after it, and whether something matched. *)
Fixpoint class_loop (fuel : nat) (p patternLen s : Z) (m : bool) : option (Z * Z * bool) :=
  match fuel with
  | O => None
  | S fuel =>
      c ← read pattern p;
      if (c =? 92) && (patternLen >=? 2) then
        c ← read pattern (p + 1);
        x ← read string s;
        class_loop fuel (p + 1 + 1) (patternLen - 1 - 1) s (if c =? x then true else m)
      else if c =? 93 then Some (p, patternLen, m)
      else if patternLen =? 0 then Some (p - 1, patternLen + 1, m)
      else
        dash ← read pattern (p + 1);
        if (dash =? 45) && (patternLen >=? 3) then
          end_ ← read pattern (p + 2);
          x ← read string s;
          let '(start, end_) := if c >? end_ then (end_, c) else (c, end_) in
          let '(start, end_, x) := if nocase then (tolower start, tolower end_, tolower x) else (start, end_, x) in
          class_loop fuel (p + 2 + 1) (patternLen - 2 - 1) s (if (x >=? start) && (x <=? end_) then true else m)
        else
          x ← read string s;
          class_loop fuel (p + 1) (patternLen - 1) s (if (if nocase then tolower c =? tolower x else c =? x) then true else m)
  end.

(** What follows a token: at the end of the string only stars may be left. *)
Definition after_token (continue : Z -> Z -> Z -> Z -> option bool) (p patternLen s stringLen : Z) : option bool :=
  let p := p + 1 in
  let patternLen := patternLen - 1 in
  if stringLen =? 0 then
    '(_, patternLen) ← last_stars (S (length pattern)) p patternLen;
    Some ((patternLen =? 0) && (stringLen =? 0))
  else continue p patternLen s stringLen.

(** [while (stringLen)] of a star: [rest] matches what is after it. *)
Fixpoint star_loop (fuel : nat) (rest : Z -> Z -> option bool) (s stringLen : Z) : option bool :=
  if stringLen =? 0 then Some false
  else
    match fuel with
    | O => None
    | S fuel => r ← rest s stringLen; if (r : bool) then Some true else star_loop fuel rest (s + 1) (stringLen - 1)
    end.

(** One character of the pattern against one of the string. *)
Definition literal (continue : Z -> Z -> Z -> Z -> option bool) (p patternLen s stringLen : Z) : option bool :=
  c ← read pattern p;
  x ← read string s;
  if negb (if nocase then tolower c =? tolower x else c =? x) then Some false
  else after_token continue p patternLen (s + 1) (stringLen - 1).

Fixpoint stringmatchlen (fuel : nat) (p patternLen s stringLen : Z) : option bool :=
  if patternLen =? 0 then Some ((patternLen =? 0) && (stringLen =? 0))
  else
    match fuel with
    | O => None
    | S fuel =>
        c ← read pattern p;
        if c =? 42 then
          '(p, patternLen) ← skip_stars (length pattern) p patternLen;
          if patternLen =? 1 then Some true
          else star_loop (S (length string)) (stringmatchlen fuel (p + 1) (patternLen - 1)) s stringLen
        else if c =? 63 then
          if stringLen =? 0 then Some false
          else after_token (stringmatchlen fuel) p patternLen (s + 1) (stringLen - 1)
        else if c =? 91 then
          let p := p + 1 in
          let patternLen := patternLen - 1 in
          c ← read pattern p;
          let is_not := c =? 94 in
          let '(p, patternLen) := if is_not then (p + 1, patternLen - 1) else (p, patternLen) in
          '(p, patternLen, m) ← class_loop (S (length pattern)) p patternLen s false;
          let m := if is_not then negb m else m in
          if negb m then Some false
          else after_token (stringmatchlen fuel) p patternLen (s + 1) (stringLen - 1)
        else if (c =? 92) && (patternLen >=? 2) then literal (stringmatchlen fuel) (p + 1) (patternLen - 1) s stringLen
        else literal (stringmatchlen fuel) p patternLen s stringLen
    end.
End memory.

(** A C string in memory, and its length. *)
Definition c_string (l : bytes) : bytes := l ++ [x00].
(** [strlen] as the [int] argument it is passed as. *)
Definition strlen (l : bytes) : Z := i32 (Z.of_nat (length l)).
Definition stringmatch (pattern string : bytes) (nocase : bool) : option bool :=
  stringmatchlen (c_string pattern) (c_string string) nocase (S (length pattern)) 0 (strlen pattern) 0 (strlen string).

(** ** What a pattern means *)

Inductive item := IEsc (c : byte) | ILit (c : byte) | IRange (a b : byte).
Inductive token := TStar | TAny | TClass (is_not : bool) (items : list item) | TLit (c : byte).

(** The items up to the bracket that closes a class, or the end of the pattern. *)
Fixpoint parse_class (l : bytes) : list item * bytes :=
  match l with
  | [] => ([], [])
  | x :: l1 =>
      if byte_eq_dec x x5d then ([], l1)
      else
        match l1 with
        | y :: l2 =>
            if byte_eq_dec x x5c then let '(its, r) := parse_class l2 in (IEsc y :: its, r)
            else
              match l2 with
              | z :: l3 =>
                  if byte_eq_dec y x2d then let '(its, r) := parse_class l3 in (IRange x z :: its, r)
                  else let '(its, r) := parse_class l1 in (ILit x :: its, r)
              | [] => let '(its, r) := parse_class l1 in (ILit x :: its, r)
              end
        | [] => ([ILit x], [])
        end
  end.
Definition parse_not (l : bytes) : bool * bytes :=
  match l with x :: l => if byte_eq_dec x x5e then (true, l) else (false, x :: l) | [] => (false, []) end.
Fixpoint parse (fuel : nat) (l : bytes) : list token :=
  match fuel, l with
  | _, [] | O, _ => []
  | S fuel, x :: l =>
      if byte_eq_dec x x2a then TStar :: parse fuel l
      else if byte_eq_dec x x3f then TAny :: parse fuel l
      else if byte_eq_dec x x5b then
        let '(is_not, l) := parse_not l in
        let '(items, l) := parse_class l in TClass is_not items :: parse fuel l
      else if byte_eq_dec x x5c then
        match l with y :: l => TLit y :: parse fuel l | [] => [TLit x] end
      else TLit x :: parse fuel l
  end.
Definition pattern_of (l : bytes) : list token := parse (length l) l.

Definition same (nocase : bool) (a c : byte) : bool :=
  if nocase then tolower (schar a) =? tolower (schar c) else schar a =? schar c.
Definition item_has (nocase : bool) (c : byte) (i : item) : bool :=
  match i with
  | IEsc a => schar a =? schar c
  | ILit a => same nocase a c
  | IRange a b =>
      let fold z := if nocase then tolower z else z in
      (fold (Z.min (schar a) (schar b)) <=? fold (schar c)) && (fold (schar c) <=? fold (Z.max (schar a) (schar b)))
  end.
Definition class_has (nocase is_not : bool) (items : list item) (c : byte) : bool :=
  xorb is_not (existsb (item_has nocase c) items).

(** A string matches a list of tokens. *)
Inductive matches (nocase : bool) : list token -> bytes -> Prop :=
  | matches_end : matches nocase [] []
  | matches_star ts u v : matches nocase ts v -> matches nocase (TStar :: ts) (u ++ v)
  | matches_any ts c v : matches nocase ts v -> matches nocase (TAny :: ts) (c :: v)
  | matches_class ts is_not items c v :
      class_has nocase is_not items c = true -> matches nocase ts v -> matches nocase (TClass is_not items :: ts) (c :: v)
  | matches_lit ts a c v : same nocase a c = true -> matches nocase ts v -> matches nocase (TLit a :: ts) (c :: v).

(** ** Reading *)

Lemma schar_inj a b : schar a = schar b -> a = b.
Proof.
  assert (H : forall c, to_byte (schar c) = c) by (intros c; by_byte c). intros E. by rewrite <-(H a), <-(H b), E.
Qed.
Lemma schar_test c b k : schar b = k -> (schar c =? k) = if byte_eq_dec c b then true else false.
Proof. intros <-. destruct (byte_eq_dec c b) as [->|Hne]; [apply Z.eqb_refl|]. apply Z.eqb_neq. intros E. by apply Hne, schar_inj. Qed.

(** [rest] is what [l] has from index [i] on. *)
Definition at_ (l : bytes) (i : Z) (rest : bytes) : Prop := exists pre, l = pre ++ rest /\ i = Z.of_nat (length pre).

Lemma at_start l : at_ l 0 l.
Proof. by exists []. Qed.
Lemma at_next l i x rest : at_ l i (x :: rest) -> at_ l (i + 1) rest.
Proof. intros (pre & -> & ->). exists (pre ++ [x]). rewrite <-app_assoc, length_app. cbn. split; [done|lia]. Qed.
Lemma at_two l i x y rest : at_ l i (x :: y :: rest) -> at_ l (i + 2) rest.
Proof. intros H. apply at_next, at_next in H. by replace (i + 2) with (i + 1 + 1) by lia. Qed.
Lemma at_le l i rest : at_ l i rest -> (length rest <= length l)%nat /\ 0 <= i.
Proof. intros (pre & -> & ->). rewrite length_app. lia. Qed.

Lemma read_at l i rest (k : nat) : at_ l i rest -> read (c_string l) (i + Z.of_nat k) = schar <$> (rest ++ [x00]) !! k.
Proof.
  intros (pre & -> & ->). unfold read, c_string. destruct (Z.ltb_spec (Z.of_nat (length pre) + Z.of_nat k) 0); [lia|].
  replace (Z.to_nat (Z.of_nat (length pre) + Z.of_nat k)) with (length pre + k)%nat by lia. rewrite <-app_assoc. by rewrite lookup_app_r, Nat.add_comm, Nat.add_sub by lia.
Qed.
Lemma read0 l i rest : at_ l i rest -> read (c_string l) i = Some (match rest with x :: _ => schar x | [] => 0 end).
Proof. intros H. pose proof (read_at l i rest 0 H) as E. rewrite Z.add_0_r in E. rewrite E. by destruct rest. Qed.
Lemma read1 l i x rest : at_ l i (x :: rest) -> read (c_string l) (i + 1) = Some (match rest with y :: _ => schar y | [] => 0 end).
Proof. intros H. apply read0. by eapply at_next. Qed.
Lemma read2 l i x y rest : at_ l i (x :: y :: rest) -> read (c_string l) (i + 2) = Some (match rest with z :: _ => schar z | [] => 0 end).
Proof. intros H. apply read0. by eapply at_two. Qed.

(** ** Classes *)

Lemma class_loop_ok pattern string nocase fuel p i j x s m :
  at_ pattern i p -> at_ string j (x :: s) -> (length p < fuel)%nat ->
  exists i' n, class_loop (c_string pattern) (c_string string) nocase fuel i (Z.of_nat (length p)) j m =
      Some (i', n, m || existsb (item_has nocase x) (parse_class p).1) /\
    at_ pattern (i' + 1) (parse_class p).2 /\ n - 1 = Z.of_nat (length (parse_class p).2).
Proof.
  intros Hp Hs. revert p i m Hp. induction fuel as [|fuel IH]; intros p i m Hp Hf; [lia|]. cbn [class_loop].
  rewrite (read0 _ _ _ Hp). cbn [mbind option_bind]. destruct p as [|c p].
  { cbn. exists (i - 1), 1. rewrite orb_false_r. split; [done|]. replace (i - 1 + 1) with i by lia. done. }
  rewrite (schar_test c x5c 92), (schar_test c x5d 93), (read1 _ _ _ _ Hp), (read0 _ _ _ Hs) by done. cbn [parse_class mbind option_bind].
  assert (Hlit : exists i' n, class_loop (c_string pattern) (c_string string) nocase fuel (i + 1) (Z.of_nat (length (c :: p)) - 1) j
      (if if nocase then tolower (schar c) =? tolower (schar x) else schar c =? schar x then true else m) =
      Some (i', n, m || existsb (item_has nocase x) (ILit c :: (parse_class p).1)) /\
    at_ pattern (i' + 1) (parse_class p).2 /\ n - 1 = Z.of_nat (length (parse_class p).2)).
  { replace (Z.of_nat (length (c :: p)) - 1) with (Z.of_nat (length p)) by (cbn; lia).
    destruct (IH p (i + 1) (if if nocase then tolower (schar c) =? tolower (schar x) else schar c =? schar x then true else m)) as (i' & ln & -> & H1 & H2);
      [by eapply at_next|cbn in Hf; lia|]. exists i', ln. split; [|done]. do 2 f_equal. cbn [existsb item_has]. unfold same.
    by destruct (if nocase then _ else _), m. }
  destruct p as [|y p]; cbn [length] in *.
  - rewrite andb_false_r. destruct (byte_eq_dec c x5d) as [->|].
    + cbn. exists i, 1. rewrite orb_false_r. split; [done|]. split; [by eapply at_next|done].
    + cbn [Z.of_nat Z.eqb Pos.of_succ_nat]. rewrite andb_false_r. destruct Hlit as (i' & ln & E & HH). exists i', ln. split; [exact E|exact HH].
  - destruct (Z.geb_spec (Z.of_nat (S (S (length p)))) 2); [|lia]. rewrite andb_true_r. destruct (byte_eq_dec c x5c) as [->|Hc].
    + destruct (byte_eq_dec x5c x5d); [done|].
      replace (Z.of_nat (S (S (length p))) - 1 - 1) with (Z.of_nat (length p)) by lia.
      destruct (IH p (i + 1 + 1) (if schar y =? schar x then true else m)) as (i' & ln & -> & H1 & H2); [by eapply at_next, at_next|lia|].
      destruct (parse_class p) as [its r]. exists i', ln. split; [|done]. do 2 f_equal. cbn [fst existsb item_has]. by destruct (schar y =? schar x), m.
    + destruct (byte_eq_dec c x5d) as [->|Hc'].
      { exists i, (Z.of_nat (S (S (length p)))). cbn. rewrite orb_false_r. split; [done|]. split; [by eapply at_next|lia]. }
      destruct (Z.eqb_spec (Z.of_nat (S (S (length p)))) 0); [lia|]. rewrite (schar_test y x2d 45) by done.
      destruct p as [|z p]; cbn [length] in *.
      * rewrite andb_false_r. destruct Hlit as (i' & ln & E & HH). destruct (parse_class [y]) as [its r]. by exists i', ln.
      * destruct (Z.geb_spec (Z.of_nat (S (S (S (length p))))) 3); [|lia]. rewrite andb_true_r. destruct (byte_eq_dec y x2d) as [->|].
        -- rewrite (read2 _ _ _ _ _ Hp). cbn [mbind option_bind].
           replace (Z.of_nat (S (S (S (length p)))) - 2 - 1) with (Z.of_nat (length p)) by lia. replace (i + 2 + 1) with (i + 1 + 2) by lia.
           assert (Hi : forall b, exists i' n, class_loop (c_string pattern) (c_string string) nocase fuel (i + 1 + 2) (Z.of_nat (length p)) j (if (b : bool) then true else m) =
              Some (i', n, (b || m) || existsb (item_has nocase x) (parse_class p).1) /\ at_ pattern (i' + 1) (parse_class p).2 /\ n - 1 = Z.of_nat (length (parse_class p).2)).
           { intros b. destruct (IH p (i + 1 + 2) (if b then true else m)) as (i' & ln & -> & H1 & H2); [eapply at_two, at_next, Hp|lia|]. exists i', ln. by destruct b. }
           destruct (schar c >? schar z) eqn:Eg; destruct (Hi (item_has nocase x (IRange c z))) as (i' & ln & E & H1 & H2);
             destruct (parse_class p) as [its r]; exists i', ln; cbn [fst snd existsb] in *;
             [rewrite Z.gtb_lt in Eg|rewrite Z.gtb_ltb, Z.ltb_ge in Eg]; (split; [|done]); rewrite orb_assoc, (orb_comm m), <-E; do 2 f_equal.
           ++ cbn [item_has]. rewrite Z.min_r, Z.max_l by lia. destruct nocase; by rewrite Z.geb_leb.
           ++ cbn [item_has]. rewrite Z.min_l, Z.max_r by lia. destruct nocase; by rewrite Z.geb_leb.
        -- destruct Hlit as (i' & ln & E & HH). destruct (parse_class (y :: z :: p)) as [its r]. by exists i', ln.
Qed.

(** ** Tokens *)

Lemma parse_class_le l : (length (parse_class l).2 <= length l)%nat.
Proof.
  induction l as [l IH] using (induction_ltof1 _ (@length byte)). unfold ltof in IH. destruct l as [|x l1]; [done|]. cbn [parse_class].
  destruct (byte_eq_dec x x5d); [cbn; lia|]. destruct l1 as [|y l2]; [cbn; lia|].
  pose proof (IH (y :: l2) ltac:(cbn; lia)) as H1. pose proof (IH l2 ltac:(cbn; lia)) as H2. destruct (byte_eq_dec x x5c).
  - destruct (parse_class l2) as [its r]. cbn in *. lia.
  - destruct l2 as [|z l3]; [destruct (parse_class [y]) as [its r]; cbn in *; lia|]. destruct (byte_eq_dec y x2d).
    + pose proof (IH l3 ltac:(cbn; lia)) as H3. destruct (parse_class l3) as [its r]. cbn in *. lia.
    + destruct (parse_class (y :: z :: l3)) as [its r]. cbn in *. lia.
Qed.
Lemma parse_not_le l : (length (parse_not l).2 <= length l)%nat.
Proof. destruct l as [|x l]; cbn; [lia|]. destruct (byte_eq_dec x x5e); cbn; lia. Qed.

Lemma parse_fuel n l : (length l <= n)%nat -> parse n l = pattern_of l.
Proof.
  unfold pattern_of. revert l. induction n as [n IH] using lt_wf_ind. intros l Hl.
  assert (Hs : forall m l', (m < n)%nat -> (length l' <= m)%nat -> forall k, (k < n)%nat -> (length l' <= k)%nat -> parse m l' = parse k l').
  { intros m l' Hm Hlm k Hk Hlk. by rewrite (IH m Hm l' Hlm), (IH k Hk l' Hlk). }
  destruct n as [|n], l as [|x l]; try done; cbn [length] in *; [lia|]. cbn [parse].
  assert (Hn : forall l', (length l' <= length l)%nat -> parse n l' = parse (length l) l') by (intros l' Hl'; apply Hs; lia).
  rewrite (Hn l) by done. destruct (byte_eq_dec x x2a); [done|]. destruct (byte_eq_dec x x3f); [done|]. destruct (byte_eq_dec x x5b).
  - pose proof (parse_not_le l) as H1. destruct (parse_not l) as [b l1]. pose proof (parse_class_le l1) as H2. destruct (parse_class l1) as [its l2].
    cbn in H1, H2. by rewrite Hn by lia.
  - destruct (byte_eq_dec x x5c); [|done]. destruct l as [|y l]; [done|]. by rewrite Hn by (cbn; lia).
Qed.
Lemma pattern_cons x l : pattern_of (x :: l) =
  if byte_eq_dec x x2a then TStar :: pattern_of l
  else if byte_eq_dec x x3f then TAny :: pattern_of l
  else if byte_eq_dec x x5b then TClass (parse_not l).1 (parse_class (parse_not l).2).1 :: pattern_of (parse_class (parse_not l).2).2
  else if byte_eq_dec x x5c then match l with y :: l => TLit y :: pattern_of l | [] => [TLit x] end
  else TLit x :: pattern_of l.
Proof.
  unfold pattern_of at 1. cbn [length parse]. rewrite !parse_fuel by done. destruct (byte_eq_dec x x2a); [done|]. destruct (byte_eq_dec x x3f); [done|].
  destruct (byte_eq_dec x x5b).
  - pose proof (parse_not_le l) as H1. destruct (parse_not l) as [b l1]. cbn [fst snd] in *. pose proof (parse_class_le l1) as H2. destruct (parse_class l1) as [its l2].
    cbn [fst snd] in *. by rewrite parse_fuel by lia.
  - destruct (byte_eq_dec x x5c); [|done]. destruct l as [|y l]; [done|]. by rewrite parse_fuel by (cbn; lia).
Qed.

(** What matches nothing. *)
Lemma matches_nil nocase ts : matches nocase ts [] <-> Forall (eq TStar) ts.
Proof.
  split.
  - remember [] as s eqn:E. induction 1 as [|ts u v H IH| | |]; try done. apply app_eq_nil in E as [_ ->]. constructor; auto.
  - induction 1 as [|t ts <- _ IH]; [constructor|]. by apply (matches_star nocase ts [] []).
Qed.
Lemma pattern_stars l : Forall (eq TStar) (pattern_of l) <-> Forall (eq x2a) l.
Proof.
  induction l as [|x l IH]; [done|]. rewrite pattern_cons. destruct (byte_eq_dec x x2a) as [->|Hx].
  - rewrite !Forall_cons_iff, IH. split; intros [_ H]; by split.
  - split; [|by intros [? ?]%Forall_cons_iff]. intros H. exfalso.
    destruct (byte_eq_dec x x3f); [by apply Forall_cons_iff in H as [? _]|]. destruct (byte_eq_dec x x5b); [by apply Forall_cons_iff in H as [? _]|].
    destruct (byte_eq_dec x x5c); [destruct l|]; by apply Forall_cons_iff in H as [? _].
Qed.
Lemma matches_two_stars nocase ts s : matches nocase (TStar :: TStar :: ts) s <-> matches nocase (TStar :: ts) s.
Proof.
  split.
  - inversion 1 as [|? u v H1| | |]; subst. inversion H1 as [|? u' v' H2| | |]; subst. rewrite app_assoc. by constructor.
  - intros H. by apply (matches_star nocase (TStar :: ts) [] s).
Qed.
Lemma matches_star_iff nocase ts s : matches nocase (TStar :: ts) s <-> exists u v, s = u ++ v /\ matches nocase ts v.
Proof. split; [inversion 1; subst; eauto|]. intros (u & v & -> & H). by constructor. Qed.

(** ** The match *)

Section match_.
Context (pattern string : bytes) (nocase : bool).

Lemma last_stars_ok fuel p i : at_ pattern i p -> (length p < fuel)%nat ->
  exists i' n, last_stars (c_string pattern) fuel i (Z.of_nat (length p)) = Some (i', n) /\ (n = 0 <-> Forall (eq x2a) p).
Proof.
  revert p i. induction fuel as [|fuel IH]; intros p i Hp Hf; [lia|]. cbn [last_stars]. rewrite (read0 _ _ _ Hp). cbn [mbind option_bind].
  destruct p as [|c p]; [by exists i, 0|]. rewrite (schar_test c x2a 42) by done. destruct (byte_eq_dec c x2a) as [->|Hc].
  - replace (Z.of_nat (length (x2a :: p)) - 1) with (Z.of_nat (length p)) by (cbn; lia).
    destruct (IH p (i + 1)) as (i' & n & E & H); [by eapply at_next|cbn in Hf; lia|]. exists i', n. split; [done|]. rewrite H, Forall_cons_iff. naive_solver.
  - exists i, (Z.of_nat (length (c :: p))). split; [done|]. split; [cbn; lia|]. by intros [? _]%Forall_cons_iff.
Qed.

Lemma skip_stars_ok fuel p i : at_ pattern i (x2a :: p) -> (length p <= fuel)%nat ->
  exists i' p', skip_stars (c_string pattern) fuel i (Z.of_nat (length (x2a :: p))) = Some (i', Z.of_nat (length (x2a :: p'))) /\
    at_ pattern i' (x2a :: p') /\ (length p' <= length p)%nat /\ hd x00 p' <> x2a /\
    forall s, matches nocase (TStar :: pattern_of p') s <-> matches nocase (TStar :: pattern_of p) s.
Proof.
  revert p i. induction fuel as [|fuel IH]; intros p i Hp Hf.
  all: cbn [skip_stars]; rewrite (read1 _ _ _ _ Hp); cbn [mbind option_bind]; destruct p as [|c p]; [by exists i, []|cbn [length] in Hf; try lia].
  rewrite (schar_test c x2a 42) by done. destruct (byte_eq_dec c x2a) as [->|Hc]; [|by exists i, (c :: p)].
  replace (Z.of_nat (length (x2a :: x2a :: p)) - 1) with (Z.of_nat (length (x2a :: p))) by (cbn; lia).
  destruct (IH p (i + 1)) as (i' & p' & E & H1 & H2 & H3 & H4); [by eapply at_next|lia|]. exists i', p'. split; [done|]. split; [done|]. split; [cbn; lia|].
  split; [done|]. intros s. rewrite H4, pattern_cons. destruct (byte_eq_dec x2a x2a); [|done]. by rewrite matches_two_stars.
Qed.

(** The answer for what is left of the pattern and of the string. *)
Definition answers (r : option bool) (p s : bytes) : Prop := exists b, r = Some b /\ (b = true <-> matches nocase (pattern_of p) s).

Lemma star_loop_ok fuel rest (Q : bytes -> Prop) j s : at_ string j s -> (length s < fuel)%nat -> ~ Q [] ->
  (forall j v, at_ string j v -> v <> [] -> exists b, rest j (Z.of_nat (length v)) = Some b /\ (b = true <-> Q v)) ->
  exists b, star_loop fuel rest j (Z.of_nat (length s)) = Some b /\ (b = true <-> exists u v, s = u ++ v /\ Q v).
Proof.
  intros Hs Hf HQ Hr. revert j s Hs Hf. induction fuel as [|fuel IH]; intros j s Hs Hf; [lia|]. cbn [star_loop]. destruct s as [|x s].
  - exists false. split; [done|]. split; [done|]. intros (u & v & E & Hv). symmetry in E. apply app_eq_nil in E as [_ ->]. by destruct HQ.
  - cbn [Z.of_nat length Z.eqb]. fold (Z.of_nat (S (length s))). destruct (Hr j (x :: s) Hs ltac:(done)) as (b & E & Hb). cbn [length] in E.
    change (Z.pos (Pos.of_succ_nat (length s))) with (Z.of_nat (S (length s))). rewrite E. cbn [mbind option_bind]. destruct b.
    + exists true. split; [done|]. split; [|done]. intros _. exists [], (x :: s). split; [done|]. by apply Hb.
    + replace (Z.of_nat (S (length s)) - 1) with (Z.of_nat (length s)) by lia. destruct (IH (j + 1) s) as (b & E' & Hb'); [by eapply at_next|cbn in Hf; lia|].
      exists b. split; [done|]. rewrite Hb'. split; intros (u & v & Es & Hv).
      * exists (x :: u), v. by rewrite Es.
      * destruct u as [|y u]; [cbn in Es; subst v; by apply Hb in Hv|]. injection Es as <- Es. by exists u, v.
Qed.

(** After a token: [p1] is the pattern behind it, [s1] the string behind its character. *)
Lemma after_token_ok continue i n j p1 s1 : at_ pattern (i + 1) p1 -> n - 1 = Z.of_nat (length p1) -> at_ string j s1 ->
  (s1 <> [] -> answers (continue (i + 1) (Z.of_nat (length p1)) j (Z.of_nat (length s1))) p1 s1) ->
  answers (after_token (c_string pattern) continue i n j (Z.of_nat (length s1))) p1 s1.
Proof.
  intros Hp Hn Hs Hc. unfold after_token. rewrite Hn. destruct s1 as [|x s1].
  - cbn [length Z.of_nat Z.eqb]. destruct (at_le _ _ _ Hp) as [Hle _].
    destruct (last_stars_ok (S (length (c_string pattern))) p1 (i + 1) Hp) as (i' & m & -> & Hm); [unfold c_string; rewrite length_app; lia|].
    cbn [mbind option_bind]. eexists. split; [reflexivity|]. rewrite andb_true_r, Z.eqb_eq, Hm, matches_nil. symmetry. apply pattern_stars.
  - destruct (Z.eqb_spec (Z.of_nat (length (x :: s1))) 0); [cbn in *; lia|]. by apply Hc.
Qed.

Lemma tolower_zero z : tolower z = 0 -> z = 0.
Proof. unfold tolower. destruct (Z.leb_spec 65 z), (Z.leb_spec z 90); cbn [andb]; lia. Qed.
Lemma same_nul c : c <> x00 -> (if nocase then tolower (schar c) =? tolower 0 else schar c =? 0) = false.
Proof.
  intros Hc. assert (Hz : schar c <> 0) by (intros E; by apply Hc, schar_inj). destruct nocase; apply Z.eqb_neq; [|done].
  intros E. by apply Hz, tolower_zero.
Qed.

Lemma literal_ok continue i n j c p1 s : c <> x00 -> at_ pattern i (c :: p1) -> n - 1 = Z.of_nat (length p1) -> at_ string j s ->
  (forall j s1, at_ string j s1 -> s1 <> [] -> answers (continue (i + 1) (Z.of_nat (length p1)) j (Z.of_nat (length s1))) p1 s1) ->
  exists b, literal (c_string pattern) (c_string string) nocase continue i n j (Z.of_nat (length s)) = Some b /\
    (b = true <-> matches nocase (TLit c :: pattern_of p1) s).
Proof.
  intros Hc Hp Hn Hs Hcont. unfold literal. rewrite (read0 _ _ _ Hp), (read0 _ _ _ Hs). cbn [mbind option_bind]. destruct s as [|x s].
  - rewrite same_nul by done. exists false. split; [done|]. split; [done|]. by inversion 1.
  - change (if nocase then tolower (schar c) =? tolower (schar x) else schar c =? schar x) with (same nocase c x). destruct (same nocase c x) eqn:E; cbn [negb].
    + replace (Z.of_nat (length (x :: s)) - 1) with (Z.of_nat (length s)) by (cbn; lia).
      destruct (after_token_ok continue i n (j + 1) p1 s) as (b & Eb & Hb); [by eapply at_next|done|by eapply at_next|intros Hne; apply Hcont; [by eapply at_next|done]|].
      exists b. split; [done|]. rewrite Hb. split; [by constructor|by inversion 1].
    + exists false. split; [done|]. split; [done|]. inversion 1; congruence.
Qed.

Lemma stringmatchlen_ok fuel p i s j : x00 ∉ pattern -> at_ pattern i p -> at_ string j s -> (length p <= fuel)%nat ->
  s <> [] \/ hd x00 p <> x5b ->
  answers (stringmatchlen (c_string pattern) (c_string string) nocase fuel i (Z.of_nat (length p)) j (Z.of_nat (length s))) p s.
Proof.
  intros Hnul. revert p i s j. induction fuel as [|fuel IH]; intros p i s j Hp Hs Hf Hne.
  all: cbn [stringmatchlen]; destruct p as [|c p]; [|cbn [length] in Hf; try lia].
  1,2: exists (Z.of_nat (length s) =? 0); (split; [done|]); change (pattern_of []) with (@nil token); rewrite Z.eqb_eq; split;
      [intros E; destruct s; [constructor|cbn in E; lia]|by inversion 1].
  destruct (Z.eqb_spec (Z.of_nat (length (c :: p))) 0); [cbn in *; lia|]. rewrite (read0 _ _ _ Hp). cbn [mbind option_bind].
  assert (Hp1 : at_ pattern (i + 1) p) by (by eapply at_next).
  assert (Hin : forall q k, at_ pattern k q -> forall y, y ∈ q -> y <> x00).
  { intros q k (pre & Eq & _) y Hy ->. apply Hnul. rewrite Eq. apply elem_of_app. by right. }
  assert (Hstep : forall q k, at_ pattern k q -> (length q <= fuel)%nat -> forall j s1, at_ string j s1 -> s1 <> [] ->
    answers (stringmatchlen (c_string pattern) (c_string string) nocase fuel k (Z.of_nat (length q)) j (Z.of_nat (length s1))) q s1).
  { intros q k Hq Hqf j1 s1 Hs1 Hne1. apply IH; auto. }
  assert (Hlen : Z.of_nat (length (c :: p)) - 1 = Z.of_nat (length p)) by (cbn; lia).
  rewrite (schar_test c x2a 42), (schar_test c x3f 63), (schar_test c x5b 91), (schar_test c x5c 92) by done. unfold answers. rewrite pattern_cons.
  destruct (byte_eq_dec c x2a) as [->|Hstar].
  - destruct (at_le _ _ _ Hp) as [Hle _]. cbn [length] in Hle.
    destruct (skip_stars_ok (length (c_string pattern)) p i Hp) as (i' & p' & -> & H1 & H2 & H3 & H4); [unfold c_string; rewrite length_app; lia|].
    cbn [mbind option_bind]. destruct (Z.eqb_spec (Z.of_nat (length (x2a :: p'))) 1) as [E|E].
    + exists true. split; [done|]. split; [|done]. intros _. apply H4. destruct p'; [|cbn in E; lia]. apply matches_star_iff. exists s, []. rewrite app_nil_r. split; [done|constructor].
    + replace (Z.of_nat (length (x2a :: p')) - 1) with (Z.of_nat (length p')) by (cbn; lia).
      destruct (star_loop_ok (S (length (c_string string))) (stringmatchlen (c_string pattern) (c_string string) nocase fuel (i' + 1) (Z.of_nat (length p'))) (matches nocase (pattern_of p')) j s) as (b & Eb & Hb).
      * done.
      * destruct (at_le _ _ _ Hs). unfold c_string. rewrite length_app. lia.
      * rewrite matches_nil, pattern_stars. destruct p' as [|y p']; [done|]. cbn in H3. intros [? _]%Forall_cons_iff. congruence.
      * intros j1 v Hv Hvne. apply Hstep; [by eapply at_next|cbn in Hf; lia|done|done].
      * exists b. split; [done|]. rewrite Hb, <-H4. symmetry. apply matches_star_iff.
  - destruct (byte_eq_dec c x3f) as [->|Hq].
    { destruct s as [|x s].
      - exists false. split; [done|]. split; [done|by inversion 1].
      - destruct (Z.eqb_spec (Z.of_nat (length (x :: s))) 0); [cbn in *; lia|]. replace (Z.of_nat (length (x :: s)) - 1) with (Z.of_nat (length s)) by (cbn; lia).
        destruct (after_token_ok (stringmatchlen (c_string pattern) (c_string string) nocase fuel) i (Z.of_nat (length (x3f :: p))) (j + 1) p s) as (b & Eb & Hb);
          [done|done|by eapply at_next|intros Hn; apply Hstep; [done|lia|by eapply at_next|done]|].
        exists b. split; [done|]. rewrite Hb. split; [by constructor|by inversion 1]. }
    destruct (byte_eq_dec c x5b) as [->|Hb].
    + destruct s as [|x s]; [destruct Hne as [?|Hne]; [done|by cbn in Hne]|]. rewrite (read0 _ _ _ Hp1). cbn [mbind option_bind].
      assert (Hcls : exists i1 p1, (if (match p with y :: _ => schar y | [] => 0 end) =? 94 then (i + 1 + 1, Z.of_nat (length (x5b :: p)) - 1 - 1) else (i + 1, Z.of_nat (length (x5b :: p)) - 1)) =
          (i1, Z.of_nat (length p1)) /\ at_ pattern i1 p1 /\ (length p1 <= length p)%nat /\ parse_not p = ((match p with y :: _ => schar y | [] => 0 end) =? 94, p1)).
      { destruct p as [|y p]; [by exists (i + 1), []|]. rewrite (schar_test y x5e 94) by done. cbn [parse_not]. destruct (byte_eq_dec y x5e) as [->|].
        - exists (i + 1 + 1), p. split; [f_equal; cbn; lia|]. split; [by eapply at_next|]. split; [cbn; lia|done].
        - exists (i + 1), (y :: p). split; [f_equal; cbn; lia|]. done. }
      destruct Hcls as (i1 & p1 & E1 & Hp1' & Hle & ->). rewrite E1. cbn [fst snd]. clear E1. destruct (at_le _ _ _ Hp1') as [Hle1 _].
      destruct (class_loop_ok pattern string nocase (S (length (c_string pattern))) p1 i1 j x s false Hp1' Hs) as (i2 & ln & -> & H2 & H3); [unfold c_string; rewrite length_app; lia|].
      cbn [mbind option_bind orb]. set (isn := (match p with y :: _ => schar y | [] => 0 end) =? 94). pose proof (parse_class_le p1) as Hpc.
      assert (Em : (if isn then negb (existsb (item_has nocase x) (parse_class p1).1) else existsb (item_has nocase x) (parse_class p1).1) = class_has nocase isn (parse_class p1).1 x)
        by (unfold class_has; by destruct isn).
      rewrite Em. destruct (class_has nocase isn (parse_class p1).1 x) eqn:Ec; cbn [negb].
      * replace (Z.of_nat (length (x :: s)) - 1) with (Z.of_nat (length s)) by (cbn; lia).
        destruct (after_token_ok (stringmatchlen (c_string pattern) (c_string string) nocase fuel) i2 ln (j + 1) (parse_class p1).2 s) as (b & Eb & Hbb);
          [done|done|by eapply at_next|intros Hn; apply Hstep; [done|lia|by eapply at_next|done]|].
        exists b. split; [done|]. rewrite Hbb. split; [by constructor|by inversion 1].
      * exists false. split; [done|]. split; [done|]. inversion 1; congruence.
    + assert (Hcn : c <> x00) by (apply (Hin _ _ Hp); left).
      destruct (byte_eq_dec c x5c) as [->|Hesc].
      * destruct p as [|y p]; cbn [andb].
        -- destruct (literal_ok (stringmatchlen (c_string pattern) (c_string string) nocase fuel) i (Z.of_nat (length [x5c])) j x5c [] s) as (b & Eb & Hbb); [done|done|done|done|intros; apply Hstep; [done|cbn; lia|done|done]|].
           exists b. split; [exact Eb|exact Hbb].
        -- destruct (Z.geb_spec (Z.of_nat (length (x5c :: y :: p))) 2); [|cbn in *; lia].
           destruct (literal_ok (stringmatchlen (c_string pattern) (c_string string) nocase fuel) (i + 1) (Z.of_nat (length (x5c :: y :: p)) - 1) j y p s) as (b & Eb & Hbb);
             [apply (Hin _ _ Hp); right; left|done|cbn; lia|done|intros; apply Hstep; [by eapply at_next|cbn in Hf; lia|done|done]|].
           exists b. split; [exact Eb|exact Hbb].
      * cbn [andb]. destruct (literal_ok (stringmatchlen (c_string pattern) (c_string string) nocase fuel) i (Z.of_nat (length (c :: p))) j c p s) as (b & Eb & Hbb);
          [done|done|done|done|intros; apply Hstep; [done|lia|done|done]|].
        exists b. split; [exact Eb|exact Hbb].
Qed.
End match_.

(** C39. [stringmatch] on C strings: it ends, reads nothing outside, and answers whether the string
    matches the tokens of the pattern, unless the string is empty and the pattern starts with
    a class ([stringmatch_class_empty]).  The lengths must fit [int]. *)
Theorem stringmatch_correct (pattern string : bytes) (nocase : bool) : x00 ∉ pattern -> x00 ∉ string ->
  Z.of_nat (length pattern) < 2 ^ 31 -> Z.of_nat (length string) < 2 ^ 31 -> string <> [] \/ hd x00 pattern <> x5b ->
  exists b, stringmatch pattern string nocase = Some b /\ (b = true <-> matches nocase (pattern_of pattern) string).
Proof.
  intros Hp _ Hpl Hsl Hne. unfold stringmatch, strlen. rewrite !i32_small by lia. apply (stringmatchlen_ok pattern string nocase (S (length pattern)) pattern 0 string 0); [done|apply at_start|apply at_start|lia|done].
Qed.

(** On the empty string a class is compared with the terminator: [[^a]*] is found to match,
    and [[^a]?b] reads behind the terminator. *)
Theorem stringmatch_class_empty :
  stringmatch [x5b; x5e; x61; x5d; x2a] [] false = Some true /\ ~ matches false (pattern_of [x5b; x5e; x61; x5d; x2a]) [] /\
  stringmatch [x5b; x5e; x61; x5d; x3f; x62] [] false = None.
Proof. split; [done|]. split; [|done]. cbn. inversion 1. Qed.

(** ** Examples *)

Lemma stringmatch_correct_witness : exists b, stringmatch [x61; x2a; x5b; x30; x2d; x39; x5d; x2a; x3f] [x41; x62; x37; x63] true = Some b /\
  matches true (pattern_of [x61; x2a; x5b; x30; x2d; x39; x5d; x2a; x3f]) [x41; x62; x37; x63].
Proof.
  destruct (stringmatch_correct [x61; x2a; x5b; x30; x2d; x39; x5d; x2a; x3f] [x41; x62; x37; x63] true) as (b & E & H);
    [by rewrite !not_elem_of_cons; split_and!; try done; apply not_elem_of_nil|by rewrite !not_elem_of_cons; split_and!; try done; apply not_elem_of_nil|done|done|by left|].
  exists b. split; [done|]. apply H. vm_compute in E. by injection E as <-.
Defined.
